(* ===== verification/_CoqProject ===== *)
-Q . S2P
Prelude.v
Bitmap.v
Layout.v
TupleAccess.v
ProjectedRow.v
Varlen.v
Timestamps.v
DataTable.v
Versions.v
TxnManager.v
GarbageCollector.v
Mvcc.v
MvccWrite.v
MvccFinish.v
MvccGC.v
Snapshot.v
Readers.v
LogIO.v
LogRecords.v
LogManager.v
SqlValue.v
Aggregators.v
Dates.v
IndexKeys.v
GenericKeys.v
Indexes.v
TreeIndex.v
Arrow.v
BlockAccess.v
Compaction.v
Compactor.v
Freeze.v
Recovery.v
Replay.v
CommitOrder.v
ObjectPool.v
Buffers.v
BufferRuns.v
BufferLog.v
Tokens.v
TplTypes.v
TplAst.v
SemaChecks.v
SemaBuiltins.v
BuiltinSigs.v
Sema.v
TplTyping.v
SemaSound.v
SemaLimits.v
HashTables.v
JoinTable.v
ConciseBits.v
ReorderCells.v
ReorderMain.v
ReorderOverflow.v
JoinProbe.v
JoinMerge.v
JoinLimits.v
AggTable.v
AggPartitions.v
AggBatch.v
