(* ===== verification/Prelude.v ===== *)
(** * terrier: a verification development of the storage and execution engine

    terrier (C++, under src/src and src/src/include) is an in-memory multi-version
    database.  This development models its storage engine, its transactions, indexes and
    write-ahead log, and of its execution engine the SQL values, aggregates and dates,
    the hash tables of joins and aggregations and the type checker of the language TPL,
    as Rocq functions and transition systems that can be evaluated, and proves what
    makes them correct.

    ** The program's parts and the files that model them

    Blocks and bytes.  A table stores tuples in 1 MB blocks.  [Bitmap] models
    common/container/bitmap.h and concurrent_bitmap.h, the concurrent flip as
    interleaved loads and compare-exchanges; [Layout] models block_layout.{h,cpp},
    TupleSlot and the insert head with its busy bit (storage_defs.h), the offsets
    computed by TupleAccessStrategy and the padding and size-boundary functions of
    storage_util.cpp, in 32-bit arithmetic; [TupleAccess] models
    tuple_access_strategy.{h,cpp} on the bytes of a block; [ProjectedRow] models
    projected_row.{h,cpp} on the bytes of a row; [Varlen] models variable-length
    entries (storage_defs.h, StorageUtil::CreateVarlen).

    Transactions.  [Timestamps] models the timestamp manager and the deferred action
    manager; [DataTable] models data_table.{h,cpp}, undo_record.h and
    transaction_context.h on tuples of attributes; [TxnManager] models
    transaction_manager.cpp (begin, commit, abort with rollback); [GarbageCollector]
    models garbage_collector.cpp (both queues, truncation of version chains,
    reclamation).  [Versions] relates version chains to lists of records and says what
    a transaction reads; [Mvcc] puts SqlTable's operations, the transaction manager,
    the log serializer and the collector together as one state machine with its
    invariant [winv]; [MvccWrite], [MvccFinish] and [MvccGC] show that writes, commits
    and aborts, and garbage collection keep it; [Snapshot] derives what transactions
    rely on; [Readers] refines Select to single loads that interleave with all other
    operations.

    Logging.  [LogIO] models log_io.{h,cpp}: the loops around read and write, the
    buffered writer and reader; [LogRecords] models log_record.h, SerializeRecord
    (log_serializer_task.cpp) and the record reader of storage/recovery
    (abstract_log_provider, disk_log_provider) behind the interface [LogProvider];
    [LogManager] models log_serializer_task.cpp, disk_log_consumer_task.cpp and the
    hand-over of buffers between them.

    Buffers.  [ObjectPool] models object_pool.h behind the interface [Allocator] with the
    allocators that implement it; [Buffers] models record_buffer.{h,cpp} on the bytes of
    segments in a heap, with the calls of transactions and of the serializer that use
    them; [BufferRuns] shows that they refine lists of records, [BufferLog] what the log
    is given.

    Recovery.  [Recovery] models recovery_manager.{h,cpp}: buffering and deferring
    transactions, replaying their records into the tables of [Mvcc] and into the indexes,
    behind the classes [Index] and [Catalog]; [Replay] relates the recovered tables to the
    content the log describes; [CommitOrder] shows that the commit records of a run have
    the bounds recovery goes by.

    Indexes.  [IndexKeys] models storage/index/index_metadata.h, compact_ints_key.h and
    hash_key.h, [GenericKeys] models generic_key.h, both on the bytes of projected rows
    and keys; [Indexes] models index_builder.h and hash_index.h; [TreeIndex] models
    bwtree_index.h.  The containers below them are third-party code and stand behind the
    classes [CuckooMap] and [Tree], with a finite map and a sorted list as instances; the
    keys reach the indexes through the classes [IndexKey] and [KeyOrder].

    Cold blocks.  [BlockAccess] models block_access_controller.h, one atomic instruction
    at a time; [Compaction] models access_observer.cpp and the planning of
    block_compactor.cpp (which tuples move, the check before freezing), with the move as
    an argument; [Compactor] models the move and the pass over a group of blocks on the
    memory of [DataTable]; [Arrow] models the Arrow columns and dictionaries
    (arrow_block_metadata.h and the gathering loops); [Freeze] models the gathering of a
    block and the compaction queue.

    Execution values.  [SqlValue] models value.h, comparison_functions.h,
    arithmetic_functions.h and arithmetic_overflow.h; [Aggregators] models
    aggregators.h; [Dates] models the Julian conversions of time_util.h and the Date and
    Timestamp of runtime_types.{h,cpp}.

    Hash tables of query execution.  [HashTables] models hash_table_entry.h and
    generic_hash_table.{h,cpp}, chains of entries in a heap, with and without tagged
    pointers.  [JoinTable] models concise_hash_table.{h,cpp}, the reorder buffer and
    join_hash_table.{h,cpp}; [ConciseBits] counts the filled slots of a concise table,
    [ReorderCells], [ReorderMain] and [ReorderOverflow] follow the entries while the
    build moves them in place, [JoinProbe] shows what a probe finds, [JoinMerge] models
    the parallel merge with its tasks interleaved instruction by instruction,
    [JoinLimits] has inputs outside the bounds.  [AggTable] models
    aggregation_hash_table.{h,cpp}; [AggPartitions] is about the partitions of a
    parallel aggregation, [AggBatch] about aggregating a vector of tuples.  LLVM's
    functions on machine words stand behind the class [LlvmMath] with its laws.

    The language of query execution.  [Tokens] models parsing/token.h; [TplTypes] models
    ast/type.h, ast/builtins.h and the tables of ast/context.cpp; [TplAst] models
    ast/ast.h.  [SemaChecks] models the state of the type checker, its scopes and
    messages, and sema_checking.cpp; [SemaBuiltins] models sema_builtin.cpp; [Sema]
    models sema_expr.cpp, sema_stmt.cpp, sema_decl.cpp and sema_type.cpp.  [BuiltinSigs]
    gives the signatures of the builtin functions as a table, [TplTyping] typing rules as
    inductive predicates; [SemaSound] relates the checker to them, [SemaLimits] has
    programs for which it does something else than is documented.

    [Prelude] has the machine integers, bits and byte lists the files share.

    ** State and operations

    Integers are [Z], wrapped to their width ([wrapu], [wraps]) where the code can leave
    it.  Memory that the code reinterprets is a list of bytes; [None] stands for a
    dereference of memory that is not there, for a failed assertion, or for fuel that
    has run out, and theorems show that it does not happen.  Reals are an abstract
    arithmetic (SqlValue).  Code outside src, such as allocators and system calls, is a
    parameter: the results of read and write calls are lists of attempts, addresses of
    new records are arguments, allocators are functions with a freshness hypothesis that
    a concrete allocator satisfies.

    The operations of the transaction state machine run one after another; readers are
    also modelled load by load ([Readers]), the concurrent bitmap instruction by
    instruction, the log threads and the merging threads step by step.  A writer's operation is one step, so its
    compare-and-swap loop runs once: interleavings inside of it are abstracted away.

    ** What the theorems show

    Snapshot isolation: [concurrent_select], [snapshot_stable], [commit_publishes],
    [abort_traceless], [writers_exclusive], [Update_outcome], [Delete_outcome],
    [Insert_outcome], and that no operation of a reachable state touches freed memory
    ([reachable_progress]); the clock and the deferred actions ([oldest_txn_safe],
    [Process_fifo]); insertion finds a free slot ([find_slot_fresh]).

    Durability: commit callbacks run only after the log is persisted, in order
    ([callbacks_after_persist]), a flush ends with everything written
    ([flush_completes]), serialized records are read back ([log_record_roundtrip]),
    interrupted and short system calls are made good ([posix_loops_complete]).

    Buffers: undo and redo buffers are lists of records, isolated from each other
    ([buffers_refine]); the log gets all records of a committed transaction in order, and
    of an aborted one only with its abort record ([log_complete]); pools keep count
    ([pool_accounting]); two ways in which the buffers fail ([exception_shares_segment],
    [wide_row_does_not_fit]).

    Recovery: replaying is serial, complete and frees every record once
    ([recovery_serial]); from a log of changes of user tables whose indexes are not unique
    it restores the committed content, with every assertion on the way holding
    ([recovery_restores]); commit records carry valid bounds ([commit_records_ordered]).

    Indexes: keys order and compare as the rows they are made of ([compact_key_order],
    [generic_key_order]), the builder's choice has room for them ([Build_keys_fit]), the
    hash index is a map from key values to sets of slots ([hash_index_refines]), the tree
    index a sorted multimap with range scans, whose point lookups come in no particular
    order ([tree_index_updates], [tree_scans]); where generic keys fail
    ([varchar_key_hazards]).

    Cold blocks: writers, in-place readers and the compactor exclude each other
    ([block_access_exclusive]) if the compactor comes back to a cooling block only by its
    own request, and do not when it comes back by an older entry of its queue
    ([early_visit_races]); compaction fills the first slots ([block_compaction]),
    keeps rows ([move_tuple_moves]) and is invisible to other transactions
    ([compaction_invisible]); freezing, for the first time or again, keeps the content
    once the types of the columns are set ([freeze_keeps_content]), and the Arrow columns
    have it ([gathered_column], [dictionary_column]); three ways in which the compactor
    fails ([failed_move_crashes], [unfreezable_block_spins], [refreeze_deletes_storage]).

    Layout: columns and rows fit, aligned and disjoint ([columns_fit_block],
    [row_layout]); operations on bytes refine operations on optional values
    ([CopyWithNullCheck_refines], [row_refines], [Allocate_refines],
    [InitializeRawBlock_empty]); bitmaps ([Flip_linear], [FirstUnsetPos_correct],
    [FirstUnsetPos_misses_unaligned]), tuple slots, the busy bit, variable-length
    values.

    Execution: a probe of a join table finds the matching build tuples, whichever index
    is built and however its entries were moved ([join_probe]), also after a parallel
    merge ([merge_parallel]); the partitions of a parallel aggregation have every partial
    aggregate once ([agg_partitions]); a vector of tuples is aggregated as its tuples are,
    if new groups find empty buckets ([process_batch]).  Outside of these bounds:
    [wide_tuple_lost], [empty_build_side], [merge_loses_count], [batch_wrong_group].

    Type checking: a program that passes has a typing derivation and is, apart from
    types, casts and a final return, the one that was given ([sema_sound]); the checks of
    builtin calls are those of the table of signatures ([builtin_signatures]).

    Values: signed 128-bit arithmetic is right where it does not overflow and undefined
    where it does ([int128_overflow_undefined]), division, string comparison, aggregates
    over partitions (sums modulo [2 ^ 64]), dates and timestamps.

    ** Bounds and fuel

    Walks along version chains have the number of undo records plus one as fuel, the
    search for a slot the number of blocks plus two, the reader's loop two rounds per
    byte plus two; the theorems show that they suffice.  The clock is assumed to be
    below [2 ^ 63 - 2], and for concurrent readers fewer than [2 ^ 32] transactions to
    exist at a time, because the collector counts them in 32 bits.  Recovery is given one
    free block for each replayed change, which an insertion may need at most.

    Chains of hash tables are followed with the number of entries of the heap as fuel,
    the passes of the reordering with one round per entry and one more; both suffice.  A
    join has at least one and fewer than [2 ^ 29] build tuples of at most 8176 bytes, so
    that two entries fit the reorder buffer; an aggregation fewer than [2 ^ 50] rows.
    The type checker recurses on the syntax tree and has no fuel.

    ** Not modelled

    Replay of records that create, rename or drop databases, tables and indexes (an
    interface of the catalog), the B+ tree (its class is empty), the catalog, the SQL
    parser (a translation of the trees of libpg_query), binder, optimizer and plan nodes;
    of TPL the scanner, the parser, the code generators and the virtual machine; the
    sorter, the Bloom filter, memory pools and vectorized iterators of query execution;
    the network layer, settings, metrics and logging.  Timing (intervals, back-off,
    condition variables) and prefetching are left out: steps may happen at any time.
    Hash functions, comparisons of keys and the aggregates of a query are compiled from
    it and are arguments of the hash tables. *)

From stdpp Require Export prelude gmap list list_numbers sorting.
From Stdlib Require Export ZArith Lia.

#[global] Open Scope Z_scope.

Declare Scope terrier_scope.
Delimit Scope terrier_scope with terrier.

(** ** Machine integers

    An integer of the C++ code is a [Z]; an operation that can leave the range
    of its type is followed by [wrapu w] (unsigned, two's complement
    wrap-around) or [wraps w] (the signed reading of the same [w] bits). *)

Definition wrapu (w z : Z) : Z := z `mod` 2 ^ w.

Definition wraps (w z : Z) : Z :=
  let u := wrapu w z in if decide (u < 2 ^ (w - 1)) then u else u - 2 ^ w.

Abbreviation u8 := (wrapu 8).
Abbreviation u16 := (wrapu 16).
Abbreviation u32 := (wrapu 32).
Abbreviation u64 := (wrapu 64).
Abbreviation s8 := (wraps 8).
Abbreviation s16 := (wraps 16).
Abbreviation s32 := (wraps 32).
Abbreviation s64 := (wraps 64).

Definition is_uint (w z : Z) : Prop := 0 <= z < 2 ^ w.
Definition is_sint (w z : Z) : Prop := - 2 ^ (w - 1) <= z < 2 ^ (w - 1).

Abbreviation is_byte := (is_uint 8).

(** [pow2 w] adds the value of [2 ^ w] for the widths of the code. *)
Ltac pow2 :=
  change (2 ^ 8) with 256 in *; change (2 ^ 7) with 128 in *;
  change (2 ^ 16) with 65536 in *; change (2 ^ 15) with 32768 in *;
  change (2 ^ 32) with 4294967296 in *; change (2 ^ 31) with 2147483648 in *;
  change (2 ^ 64) with 18446744073709551616 in *;
  change (2 ^ 63) with 9223372036854775808 in *.

Lemma wrapu_small w z : is_uint w z -> wrapu w z = z.
Proof. intros H. apply Z.mod_small, H. Qed.

Lemma wrapu_bound w z : 0 <= w -> is_uint w (wrapu w z).
Proof. intros H. apply Z.mod_pos_bound. lia. Qed.

Lemma wrapu_wrapu w z : wrapu w (wrapu w z) = wrapu w z.
Proof. apply Zmod_mod. Qed.

Lemma wrapu_add_l w a b : wrapu w (wrapu w a + b) = wrapu w (a + b).
Proof. apply Zplus_mod_idemp_l. Qed.

Lemma wrapu_add_r w a b : wrapu w (a + wrapu w b) = wrapu w (a + b).
Proof. apply Zplus_mod_idemp_r. Qed.

Lemma pow2_half w : 0 < w -> 2 ^ w = 2 * 2 ^ (w - 1).
Proof.
  intros H. rewrite <-(Z.pow_1_r 2) at 2. rewrite <-Z.pow_add_r by lia.
  f_equal. lia.
Qed.

Lemma wraps_bound w z : 0 < w -> is_sint w (wraps w z).
Proof.
  intros H. unfold wraps, is_sint.
  pose proof (wrapu_bound w z ltac:(lia)) as [??]. pose proof (pow2_half w H).
  case_decide; lia.
Qed.

Lemma wraps_small w z : 0 < w -> is_sint w z -> wraps w z = z.
Proof.
  intros Hw [H1 H2]. unfold wraps, wrapu. pose proof (pow2_half w Hw).
  destruct (decide (0 <= z)).
  - rewrite Z.mod_small by lia. rewrite decide_True by lia. done.
  - replace (z `mod` 2 ^ w) with (z + 2 ^ w).
    + rewrite decide_False by lia. lia.
    + rewrite <-(Z.mod_small (z + 2 ^ w) (2 ^ w)) by lia.
      rewrite <-Zplus_mod_idemp_r, Z_mod_same_full, Z.add_0_r. done.
Qed.

Lemma wrapu_wraps w z : 0 <= w -> wrapu w (wraps w z) = wrapu w z.
Proof.
  intros Hw. unfold wraps. case_decide; [apply wrapu_wrapu|].
  unfold wrapu. rewrite Zminus_mod, Z_mod_same_full, Z.sub_0_r, !Zmod_mod. done.
Qed.

Lemma wraps_wrapu w z : wraps w (wrapu w z) = wraps w z.
Proof. unfold wraps. by rewrite wrapu_wrapu. Qed.

(** ** Bits *)

Create HintDb bits discriminated.

Lemma testbit_mask a p :
  0 <= p -> bool_decide (Z.land a (Z.shiftl 1 p) ≠ 0) = Z.testbit a p.
Proof.
  intros Hp. destruct (Z.testbit a p) eqn:E.
  - apply bool_decide_eq_true_2. intros H.
    apply (f_equal (fun z => Z.testbit z p)) in H.
    rewrite Z.land_spec, Z.shiftl_1_l, Z.pow2_bits_true, E, Z.bits_0 in H by lia. done.
  - apply bool_decide_eq_false_2. intros H. apply H. apply Z.bits_inj'.
    intros n Hn. rewrite Z.land_spec, Z.shiftl_1_l, Z.bits_0.
    destruct (decide (n = p)) as [->|Hne].
    + by rewrite E.
    + by rewrite Z.pow2_bits_false, andb_false_r by lia.
Qed.

Lemma is_uint_bits w z :
  0 <= w -> is_uint w z <-> forall n, w <= n -> Z.testbit z n = false.
Proof.
  intros Hw. split.
  - intros Hz n Hn. rewrite <-(wrapu_small w z Hz). by apply Z.mod_pow2_bits_high.
  - intros H. assert (z = wrapu w z) as ->; [|by apply wrapu_bound].
    apply Z.bits_inj'. intros n Hn. unfold wrapu.
    destruct (decide (n < w)).
    + by rewrite Z.mod_pow2_bits_low by lia.
    + by rewrite Z.mod_pow2_bits_high, H by lia.
Qed.

Lemma is_uint_land w a b : 0 <= w -> is_uint w b -> is_uint w (Z.land a b).
Proof.
  intros Hw Hb. apply is_uint_bits; [done|]. intros n Hn.
  by rewrite Z.land_spec, (proj1 (is_uint_bits w b Hw) Hb n Hn), andb_false_r.
Qed.

Lemma is_uint_lor w a b : 0 <= w -> is_uint w a -> is_uint w b -> is_uint w (Z.lor a b).
Proof.
  intros Hw Ha Hb. apply is_uint_bits; [done|]. intros n Hn.
  by rewrite Z.lor_spec, (proj1 (is_uint_bits w a Hw) Ha n Hn),
    (proj1 (is_uint_bits w b Hw) Hb n Hn).
Qed.

Lemma is_uint_lxor w a b : 0 <= w -> is_uint w a -> is_uint w b -> is_uint w (Z.lxor a b).
Proof.
  intros Hw Ha Hb. apply is_uint_bits; [done|]. intros n Hn.
  by rewrite Z.lxor_spec, (proj1 (is_uint_bits w a Hw) Ha n Hn),
    (proj1 (is_uint_bits w b Hw) Hb n Hn).
Qed.

#[export] Hint Resolve is_uint_land is_uint_lor is_uint_lxor wrapu_bound : bits.

(** An addition whose operands share no bit is a bitwise or. *)
Lemma lor_shift_add k a b :
  0 <= k -> is_uint k b -> Z.lor (Z.shiftl a k) b = Z.shiftl a k + b.
Proof.
  intros Hk Hb. symmetry. rewrite Z.add_nocarry_lxor.
  - apply Z.bits_inj'. intros n Hn. rewrite Z.lxor_spec, Z.lor_spec.
    destruct (decide (n < k)).
    + rewrite Z.shiftl_spec_low by lia. by destruct (Z.testbit b n).
    + rewrite (proj1 (is_uint_bits k b Hk) Hb n) by lia. by destruct (Z.testbit _ n).
  - apply Z.bits_inj'. intros n Hn. rewrite Z.land_spec, Z.bits_0.
    destruct (decide (n < k)).
    + by rewrite Z.shiftl_spec_low by lia.
    + by rewrite (proj1 (is_uint_bits k b Hk) Hb n), andb_false_r by lia.
Qed.

(** Clearing the low [k] bits rounds down to a multiple of [2 ^ k]. *)
Lemma land_lnot_ones k a : 0 <= k -> Z.land a (Z.lnot (Z.ones k)) = a - a `mod` 2 ^ k.
Proof.
  intros Hk. rewrite <-Z.ldiff_land, Z.ldiff_ones_r, Z.shiftr_div_pow2, Z.shiftl_mul_pow2 by lia.
  pose proof (Z.div_mod a (2 ^ k) ltac:(lia)). lia.
Qed.

(** ** Lists of bytes *)

(** The [n] bytes of [z] in memory order on a little-endian machine, and back. *)
Definition le_bytes (n : nat) (z : Z) : list Z := Z_to_little_endian (Z.of_nat n) 8 z.
Definition le_val (bs : list Z) : Z := little_endian_to_Z 8 bs.

Lemma length_le_bytes n z : length (le_bytes n z) = n.
Proof.
  unfold le_bytes. pose proof (length_Z_to_little_endian (Z.of_nat n) 8 z ltac:(lia)). lia.
Qed.

Lemma le_bytes_byte n z : Forall is_byte (le_bytes n z).
Proof. apply Z_to_little_endian_bound; lia. Qed.

Lemma le_val_bytes n z : le_val (le_bytes n z) = wrapu (8 * Z.of_nat n) z.
Proof.
  unfold le_val, le_bytes, wrapu. rewrite little_endian_to_Z_to_little_endian by lia.
  by rewrite Z.mul_comm.
Qed.

Lemma le_bytes_val bs : Forall is_byte bs -> le_bytes (length bs) (le_val bs) = bs.
Proof. intros H. apply Z_to_little_endian_to_Z; [lia..|done]. Qed.

Lemma le_val_bound bs : Forall is_byte bs -> 0 <= le_val bs < 2 ^ (8 * Z.of_nat (length bs)).
Proof. intros H. rewrite Z.mul_comm. apply little_endian_to_Z_bound; [lia|done]. Qed.

(** [slice off n m]: the [n] bytes of [m] from offset [off]. *)
Definition slice {A} (off n : nat) (m : list A) : list A := take n (drop off m).

(** [splice off bs m]: [m] with [bs] written at [off] (memcpy into the buffer);
    nothing is written past the end of [m]. *)
Definition splice {A} (off : nat) (bs m : list A) : list A :=
  take off m ++ take (length m - off) bs ++ drop (off + length bs) m.

Section splice.
Context {A : Type}.
Implicit Types (m bs : list A) (off n : nat).

Lemma length_splice off bs m : length (splice off bs m) = length m.
Proof. unfold splice. rewrite !length_app, !length_take, length_drop. lia. Qed.

Lemma slice_splice_same off bs m :
  (off + length bs <= length m)%nat -> slice off (length bs) (splice off bs m) = bs.
Proof.
  intros H. unfold slice, splice. rewrite drop_app_ge, length_take by (rewrite length_take; lia).
  replace (off - min off (length m))%nat with O by lia. rewrite drop_0.
  rewrite (take_ge bs) by lia. by rewrite take_app_length.
Qed.

Lemma slice_splice_other off bs off' n m :
  (off + length bs <= length m)%nat -> (off' + n <= off \/ off + length bs <= off')%nat ->
  slice off' n (splice off bs m) = slice off' n m.
Proof.
  intros Hb H. apply list_eq. intros i. unfold slice.
  destruct (decide (i < n)%nat); [|by rewrite !lookup_take_ge by lia].
  rewrite !lookup_take_lt, !lookup_drop by lia. unfold splice. destruct H.
  - rewrite lookup_app_l by (rewrite length_take; lia). by rewrite lookup_take_lt by lia.
  - rewrite lookup_app_r by (rewrite length_take; lia).
    rewrite lookup_app_r by (rewrite !length_take; lia).
    rewrite lookup_drop, !length_take. f_equal. lia.
Qed.
End splice.

(** ** Filters *)

Lemma filter_none {A} (P : A -> Prop) `{!forall x, Decision (P x)} (l : list A) : Forall (fun x => ~ P x) l -> filter P l = [].
Proof. induction 1; [done|]. by rewrite filter_cons_False. Qed.

Lemma filter_all {A} (P : A -> Prop) `{!forall x, Decision (P x)} (l : list A) : Forall P l -> filter P l = l.
Proof. induction 1; [done|]. rewrite filter_cons_True by done. by f_equal. Qed.

Lemma filter_rev {A} (P : A -> Prop) `{!forall x, Decision (P x)} (l : list A) : filter P (rev l) = rev (filter P l).
Proof.
  induction l as [|x l IH]; [done|]. cbn [rev]. rewrite filter_app, IH. rewrite (filter_cons P x l), (filter_cons P x []). case_decide; cbn; [done|apply app_nil_r].
Qed.

Lemma sorted_filter {A} (R : relation A) (P : A -> Prop) `{!forall x, Decision (P x)} (l : list A) : StronglySorted R l -> StronglySorted R (filter P l).
Proof.
  induction 1 as [|x l _ IH Hf]; [constructor|]. rewrite filter_cons. case_decide; [|done]. constructor; [done|].
  apply Forall_forall. intros y [_ Hy]%list_elem_of_filter. rewrite Forall_forall in Hf. auto.
Qed.
