(* ===== verification/Bitmap.v ===== *)
(** * The bitmaps of [common/container]

    [RawBitmap] (bitmap.h) and [RawConcurrentBitmap] (concurrent_bitmap.h) are
    byte arrays reinterpreted as bitmaps.  The array is a [list Z] of bytes.
    [RawConcurrentBitmap.Flip] is modelled twice: as the sequential function a
    caller without contention runs, and as the load / compare-exchange steps that
    threads interleave ([flip_step]), for which mutual exclusion is proved. *)

From S2P Require Import Prelude.

Definition BYTE_SIZE : Z := 8.
Definition LSB_ONE_HOT_MASK (n : Z) : Z := Z.shiftl 1 n.
Definition LSB_ONE_COLD_MASK (n : Z) : Z := 255 - LSB_ONE_HOT_MASK n.

(** [bits_[i]]; the array carries no bound, a read outside it is never made by
    the theorems below (they carry the range of the position). *)
Definition byte_at (bits : list Z) (i : Z) : Z := default 0 (bits !! Z.to_nat i).

Module RawBitmap.

Definition SizeInBytes (n : Z) : Z :=
  if decide (n `mod` BYTE_SIZE = 0) then n `div` BYTE_SIZE else n `div` BYTE_SIZE + 1.

Definition Allocate (num_bits : Z) : list Z :=
  replicate (Z.to_nat (SizeInBytes num_bits)) 0.

Definition Test (bits : list Z) (pos : Z) : bool :=
  bool_decide (Z.land (byte_at bits (pos `div` BYTE_SIZE))
                      (LSB_ONE_HOT_MASK (pos `mod` BYTE_SIZE)) ≠ 0).

Definition SetBit (bits : list Z) (pos : Z) (val : bool) : list Z :=
  let e := pos `div` BYTE_SIZE in
  if val
  then <[Z.to_nat e := Z.lor (byte_at bits e) (u8 (LSB_ONE_HOT_MASK (pos `mod` BYTE_SIZE)))]> bits
  else <[Z.to_nat e := Z.land (byte_at bits e) (u8 (LSB_ONE_COLD_MASK (pos `mod` BYTE_SIZE)))]> bits.

Definition Flip (bits : list Z) (pos : Z) : list Z :=
  let e := pos `div` BYTE_SIZE in
  <[Z.to_nat e := Z.lxor (byte_at bits e) (u8 (LSB_ONE_HOT_MASK (pos `mod` BYTE_SIZE)))]> bits.

Definition Clear (bits : list Z) (num_bits : Z) : list Z :=
  splice 0 (replicate (Z.to_nat (SizeInBytes num_bits)) 0) bits.

End RawBitmap.

Module RawConcurrentBitmap.

Definition Test (bits : list Z) (pos : Z) : bool :=
  bool_decide (Z.land (byte_at bits (pos `div` BYTE_SIZE))
                      (LSB_ONE_HOT_MASK (pos `mod` BYTE_SIZE)) ≠ 0).

(** Without contention the compare-exchange of the first iteration succeeds. *)
Definition Flip (bits : list Z) (pos : Z) (expected_val : bool) : bool * list Z :=
  let element := pos `div` BYTE_SIZE in
  let mask := u8 (LSB_ONE_HOT_MASK (pos `mod` BYTE_SIZE)) in
  let old_val := byte_at bits element in
  if decide (bool_decide (Z.land old_val mask ≠ 0) = expected_val)
  then (true, <[Z.to_nat element := Z.lxor old_val mask]> bits)
  else (false, bits).

Definition UnsafeClear (bits : list Z) (num_bits : Z) : list Z :=
  splice 0 (replicate (Z.to_nat (RawBitmap.SizeInBytes num_bits)) 0) bits.

(** [FindUnsetBit<T>] for a [sz]-byte [T]: (found, byte_pos, bits_left). *)
Definition FindUnsetBit (sz : nat) (bits : list Z) (byte_pos bits_left : Z) : bool * Z * Z :=
  let word := wraps (8 * Z.of_nat sz) (le_val (slice (Z.to_nat byte_pos) sz bits)) in
  if decide (word = -1)
  then (false, u32 (byte_pos + Z.of_nat sz), u32 (bits_left - Z.of_nat sz * BYTE_SIZE))
  else (true, byte_pos, bits_left).

Definition IsAlignedAndFits (sz : nat) (bits_left byte_pos : Z) : bool :=
  bool_decide (Z.of_nat sz * BYTE_SIZE <= bits_left) &&
  bool_decide (byte_pos `mod` Z.of_nat sz = 0).

(** The [for] loop over the bits of one byte: [Some r] when the function returns
    [r] from inside the loop, [None] when the loop falls through. *)
Fixpoint scan_byte (k : nat) (pos b byte_pos bitmap_num_bits start_pos : Z) : option (option Z) :=
  match k with
  | O => None
  | S k =>
    let current_pos := u32 (pos + byte_pos * BYTE_SIZE) in
    if decide (bitmap_num_bits <= current_pos) then Some None
    else if decide (current_pos < start_pos) then
      scan_byte k (pos + 1) b byte_pos bitmap_num_bits start_pos
    else if bool_decide (Z.land b (LSB_ONE_HOT_MASK pos) ≠ 0) then
      scan_byte k (pos + 1) b byte_pos bitmap_num_bits start_pos
    else Some (Some current_pos)
  end.

Fixpoint FirstUnsetPos_loop (fuel : nat) (bits : list Z) (bitmap_num_bits start_pos num_bytes : Z)
    (byte_pos bits_left : Z) (found_unset_bit : bool) : option Z :=
  match fuel with
  | O => None
  | S fuel =>
    if bool_decide (byte_pos < num_bytes) && bool_decide (0 < bits_left) then
      let wide sz :=
        let '(found, byte_pos', bits_left') := FindUnsetBit sz bits byte_pos bits_left in
        FirstUnsetPos_loop fuel bits bitmap_num_bits start_pos num_bytes byte_pos' bits_left' found in
      if negb found_unset_bit && IsAlignedAndFits 8 bits_left byte_pos then wide 8%nat
      else if negb found_unset_bit && IsAlignedAndFits 4 bits_left byte_pos then wide 4%nat
      else if negb found_unset_bit && IsAlignedAndFits 2 bits_left byte_pos then wide 2%nat
      else
        let b := byte_at bits byte_pos in
        let next :=
          FirstUnsetPos_loop fuel bits bitmap_num_bits start_pos num_bytes (u32 (byte_pos + 1))
            (u32 (bits_left - (BYTE_SIZE - start_pos `mod` BYTE_SIZE))) found_unset_bit in
        if decide (s8 b ≠ -1) then
          match scan_byte 8 0 b byte_pos bitmap_num_bits start_pos with
          | Some r => r
          | None => next
          end
        else next
    else None
  end.

(** [FirstUnsetPos]: [Some p] is [true] with [*out_pos = p].  Every iteration
    advances [byte_pos] or sets [found_unset_bit], hence the fuel. *)
Definition FirstUnsetPos (bits : list Z) (bitmap_num_bits start_pos : Z) : option Z :=
  if decide (bitmap_num_bits <= start_pos) then None
  else
    let num_bytes := RawBitmap.SizeInBytes bitmap_num_bits in
    FirstUnsetPos_loop (S (S (Z.to_nat num_bytes))) bits bitmap_num_bits start_pos num_bytes
      (start_pos `div` BYTE_SIZE) (u32 (bitmap_num_bits - start_pos)) false.

(** *** Interleaved [Flip]

    One call of [Flip] is a loop of two atomic actions on the byte: the load of
    [old_val] (with the loop test) and the compare-exchange.  [FlipLoad] is about
    to load, [FlipCas old] holds a loaded value, [FlipDone r] has returned [r]. *)
Inductive flip_pc := FlipLoad | FlipCas (old_val : Z) | FlipDone (r : bool).

Record flip_thread := FlipThread { ft_pos : Z; ft_expected : bool; ft_pc : flip_pc }.

Definition flip_mask (t : flip_thread) : Z := u8 (LSB_ONE_HOT_MASK (ft_pos t `mod` BYTE_SIZE)).
Definition flip_element (t : flip_thread) : Z := ft_pos t `div` BYTE_SIZE.
Definition flip_goto (t : flip_thread) (pc : flip_pc) : flip_thread :=
  FlipThread (ft_pos t) (ft_expected t) pc.

Definition flip_exec (bits : list Z) (t : flip_thread) : list Z * flip_thread :=
  match ft_pc t with
  | FlipLoad =>
    let old_val := byte_at bits (flip_element t) in
    if decide (bool_decide (Z.land old_val (flip_mask t) ≠ 0) = ft_expected t)
    then (bits, flip_goto t (FlipCas old_val))
    else (bits, flip_goto t (FlipDone false))
  | FlipCas old_val =>
    if decide (byte_at bits (flip_element t) = old_val)
    then (<[Z.to_nat (flip_element t) := Z.lxor old_val (flip_mask t)]> bits, flip_goto t (FlipDone true))
    else (bits, flip_goto t FlipLoad)
  | FlipDone _ => (bits, t)
  end.

(** Any thread may take the next action. *)
Inductive flip_step : list Z * list flip_thread -> list Z * list flip_thread -> Prop :=
| FlipStep bits ts i t bits' t' :
    ts !! i = Some t -> flip_exec bits t = (bits', t') ->
    flip_step (bits, ts) (bits', <[i := t']> ts).

End RawConcurrentBitmap.

(** ** Positions and bytes *)

Definition bitmap_ok (num_bits : Z) (bits : list Z) : Prop :=
  Forall is_byte bits /\ 0 <= num_bits /\ num_bits <= 8 * Z.of_nat (length bits).

Lemma hot_mask_u8 n : 0 <= n < 8 -> u8 (LSB_ONE_HOT_MASK n) = LSB_ONE_HOT_MASK n.
Proof.
  intros H. apply wrapu_small. unfold LSB_ONE_HOT_MASK. rewrite Z.shiftl_1_l.
  split; [lia|]. apply Z.pow_lt_mono_r; lia.
Qed.

Lemma cold_mask_testbit n m :
  0 <= n < 8 -> 0 <= m -> Z.testbit (u8 (LSB_ONE_COLD_MASK n)) m = bool_decide (m < 8 /\ m ≠ n).
Proof.
  intros Hn Hm.
  assert (LSB_ONE_COLD_MASK n = Z.lxor 255 (LSB_ONE_HOT_MASK n)) as E.
  { unfold LSB_ONE_COLD_MASK, LSB_ONE_HOT_MASK.
    assert (n = 0 \/ n = 1 \/ n = 2 \/ n = 3 \/ n = 4 \/ n = 5 \/ n = 6 \/ n = 7)
      as [->|[->|[->|[->|[->|[->|[->| ->]]]]]]] by lia; done. }
  rewrite E. rewrite wrapu_small.
  - rewrite Z.lxor_spec. unfold LSB_ONE_HOT_MASK. rewrite Z.shiftl_1_l.
    change 255 with (Z.ones 8). rewrite Z.testbit_ones_nonneg by lia.
    rewrite Z.pow2_bits_eqb by lia.
    destruct (Z.ltb_spec m 8), (Z.eqb_spec n m); case_bool_decide; naive_solver lia.
  - apply is_uint_lxor; [lia| |].
    + unfold is_uint. lia.
    + unfold LSB_ONE_HOT_MASK. rewrite Z.shiftl_1_l. split; [lia|]. apply Z.pow_lt_mono_r; lia.
Qed.

Lemma byte_at_byte bits i : Forall is_byte bits -> is_byte (byte_at bits i).
Proof.
  intros H. unfold byte_at. destruct (bits !! Z.to_nat i) eqn:E; simpl.
  - by eapply Forall_lookup_1.
  - unfold is_uint. lia.
Qed.

Lemma byte_at_insert bits i j v :
  0 <= i -> 0 <= j -> i < Z.of_nat (length bits) ->
  byte_at (<[Z.to_nat i := v]> bits) j = if decide (i = j) then v else byte_at bits j.
Proof.
  intros Hi Hj Hl. unfold byte_at. case_decide as E.
  - subst. by rewrite list_lookup_insert_eq by lia.
  - by rewrite list_lookup_insert_ne by lia.
Qed.

(** [Test] reads bit [pos mod 8] of byte [pos div 8]. *)
Lemma Test_testbit bits pos :
  0 <= pos -> RawBitmap.Test bits pos = Z.testbit (byte_at bits (pos `div` 8)) (pos `mod` 8).
Proof.
  intros H. unfold RawBitmap.Test, LSB_ONE_HOT_MASK, BYTE_SIZE.
  apply testbit_mask. apply Z.mod_pos_bound. lia.
Qed.

Lemma concurrent_Test_eq bits pos : RawConcurrentBitmap.Test bits pos = RawBitmap.Test bits pos.
Proof. done. Qed.

Lemma pos_split p q :
  0 <= p -> 0 <= q -> p = q <-> p `div` 8 = q `div` 8 /\ p `mod` 8 = q `mod` 8.
Proof.
  intros. pose proof (Z.div_mod p 8). pose proof (Z.div_mod q 8).
  split; [naive_solver|lia].
Qed.

(** Updating the byte of [pos] with a value that differs only in bit [pos mod 8]
    changes exactly that bit of the map. *)
Lemma Test_update bits pos q v b :
  0 <= pos < 8 * Z.of_nat (length bits) -> 0 <= q ->
  (forall m, 0 <= m < 8 ->
     Z.testbit v m = if decide (m = pos `mod` 8) then b else Z.testbit (byte_at bits (pos `div` 8)) m) ->
  RawBitmap.Test (<[Z.to_nat (pos `div` 8) := v]> bits) q =
    if decide (pos = q) then b else RawBitmap.Test bits q.
Proof.
  intros Hp Hq Hv. rewrite !Test_testbit by lia.
  pose proof (Z.mod_pos_bound q 8 ltac:(lia)).
  assert (0 <= pos `div` 8) by (apply Z.div_pos; lia).
  assert (0 <= q `div` 8) by (apply Z.div_pos; lia).
  assert (pos `div` 8 < Z.of_nat (length bits)) by (apply Z.div_lt_upper_bound; lia).
  rewrite byte_at_insert by lia.
  destruct (decide (pos = q)) as [->|Hne].
  - rewrite decide_True by done. rewrite Hv by lia. by rewrite decide_True.
  - case_decide as E; [|done]. rewrite Hv by lia. rewrite decide_False; [by rewrite E|].
    intros E'. apply Hne, pos_split; naive_solver lia.
Qed.

Section bitmap_ops.
Context (bits : list Z) (pos : Z).
Hypothesis Hbits : Forall is_byte bits.
Hypothesis Hpos : 0 <= pos < 8 * Z.of_nat (length bits).

#[local] Lemma mod8_range : 0 <= pos `mod` 8 < 8.
Proof. apply Z.mod_pos_bound. lia. Qed.

#[local] Lemma hot_bit m : 0 <= m -> Z.testbit (u8 (LSB_ONE_HOT_MASK (pos `mod` 8))) m = bool_decide (m = pos `mod` 8).
Proof.
  intros Hm. pose proof mod8_range. rewrite hot_mask_u8 by done. unfold LSB_ONE_HOT_MASK.
  rewrite Z.shiftl_1_l, Z.pow2_bits_eqb by lia.
  case_bool_decide; [apply Z.eqb_eq|apply Z.eqb_neq]; lia.
Qed.

Lemma Test_SetBit v q :
  0 <= q -> RawBitmap.Test (RawBitmap.SetBit bits pos v) q =
    if decide (pos = q) then v else RawBitmap.Test bits q.
Proof.
  intros Hq. pose proof mod8_range. unfold RawBitmap.SetBit, BYTE_SIZE. destruct v; apply Test_update; try done; intros m Hm.
  - rewrite Z.lor_spec, hot_bit by lia. case_bool_decide; case_decide; try done.
    + by rewrite orb_true_r.
    + by rewrite orb_false_r.
  - rewrite Z.land_spec, cold_mask_testbit by lia.
    case_bool_decide; case_decide; try lia; by rewrite ?andb_true_r, ?andb_false_r.
Qed.

Lemma Test_Flip q :
  0 <= q -> RawBitmap.Test (RawBitmap.Flip bits pos) q =
    if decide (pos = q) then negb (RawBitmap.Test bits q) else RawBitmap.Test bits q.
Proof.
  intros Hq. pose proof mod8_range. unfold RawBitmap.Flip, BYTE_SIZE.
  rewrite (Test_update _ _ _ _ (negb (RawBitmap.Test bits pos))); [|done..|].
  - by destruct (decide (pos = q)) as [->|].
  - intros m Hm. rewrite Z.lxor_spec, hot_bit, Test_testbit by lia.
    case_bool_decide; case_decide; try lia; subst; by rewrite ?xorb_true_r, ?xorb_false_r.
Qed.

Lemma concurrent_Flip_true expected :
  RawBitmap.Test bits pos = expected ->
  RawConcurrentBitmap.Flip bits pos expected = (true, RawBitmap.Flip bits pos).
Proof.
  intros H. unfold RawConcurrentBitmap.Flip, RawBitmap.Flip. rewrite decide_True; [done|].
  rewrite <-H. unfold RawBitmap.Test, BYTE_SIZE. by rewrite hot_mask_u8 by apply mod8_range.
Qed.

Lemma concurrent_Flip_false expected :
  RawBitmap.Test bits pos ≠ expected -> RawConcurrentBitmap.Flip bits pos expected = (false, bits).
Proof.
  intros H. unfold RawConcurrentBitmap.Flip. rewrite decide_False; [done|].
  intros E. apply H. rewrite <-E. unfold RawBitmap.Test, BYTE_SIZE.
  by rewrite hot_mask_u8 by apply mod8_range.
Qed.

End bitmap_ops.

Lemma Test_clear num_bits bits q :
  0 <= q < num_bits -> num_bits <= 8 * Z.of_nat (length bits) ->
  RawBitmap.Test (RawBitmap.Clear bits num_bits) q = false.
Proof.
  intros Hq Hl. rewrite Test_testbit by lia.
  assert (0 <= q `div` 8 < RawBitmap.SizeInBytes num_bits) as Hd.
  { unfold RawBitmap.SizeInBytes, BYTE_SIZE.
    pose proof (Z.div_mod num_bits 8). pose proof (Z.div_mod q 8).
    pose proof (Z.mod_pos_bound num_bits 8). pose proof (Z.mod_pos_bound q 8).
    case_decide; nia. }
  unfold byte_at, RawBitmap.Clear, splice. simpl.
  rewrite lookup_app_l.
  - rewrite lookup_take. case_decide; [|by rewrite Z.testbit_0_l].
    rewrite lookup_replicate_2 by lia. by rewrite Z.testbit_0_l.
  - rewrite length_take, length_replicate.
    assert (RawBitmap.SizeInBytes num_bits <= Z.of_nat (length bits)); [|lia].
    unfold RawBitmap.SizeInBytes, BYTE_SIZE.
    pose proof (Z.div_mod num_bits 8). pose proof (Z.mod_pos_bound num_bits 8).
    case_decide; nia.
Qed.

(** ** FirstUnsetPos *)

Definition all_set (bits : list Z) (a b : Z) : Prop :=
  forall p, 0 <= p -> a <= p < b -> RawBitmap.Test bits p = true.

Definition is_first_unset (bits : list Z) (n start p : Z) : Prop :=
  start <= p < n /\ RawBitmap.Test bits p = false /\ all_set bits start p.

Lemma all_set_join bits a b c : all_set bits a b -> all_set bits b c -> all_set bits a c.
Proof. intros H1 H2 p Hp Hr. destruct (decide (p < b)); [apply H1|apply H2]; lia. Qed.

Lemma all_set_empty bits a b : b <= a -> all_set bits a b.
Proof. intros H p Hp Hr. lia. Qed.

Lemma all_set_snoc bits a b : all_set bits a b -> RawBitmap.Test bits b = true -> all_set bits a (b + 1).
Proof.
  intros H Hb. apply (all_set_join _ _ b); [done|]. intros p Hp Hr. by replace p with b by lia.
Qed.

Lemma SizeInBytes_bounds n : 0 <= n -> n <= 8 * RawBitmap.SizeInBytes n <= n + 7.
Proof.
  intros H. unfold RawBitmap.SizeInBytes, BYTE_SIZE.
  pose proof (Z.div_mod n 8). pose proof (Z.mod_pos_bound n 8). case_decide; lia.
Qed.

(** A word whose signed reading is -1 has every bit set. *)
Lemma ones_word sz bs :
  (0 < sz)%nat -> (length bs <= sz)%nat -> Forall is_byte bs ->
  wraps (8 * Z.of_nat sz) (le_val bs) = -1 ->
  le_val bs = Z.ones (8 * Z.of_nat sz).
Proof.
  intros Hsz Hl Hb H. unfold le_val in *.
  pose proof (little_endian_to_Z_bound 8 bs ltac:(lia) Hb) as [H0 H1].
  assert (2 ^ (Z.of_nat (length bs) * 8) <= 2 ^ (8 * Z.of_nat sz)) by (apply Z.pow_le_mono_r; lia).
  unfold wraps in H. rewrite wrapu_small in H by (unfold is_uint; lia).
  case_decide; [lia|]. rewrite Z.ones_equiv. lia.
Qed.

Lemma ones_word_bits sz bs i :
  (0 < sz)%nat -> (length bs <= sz)%nat -> Forall is_byte bs ->
  wraps (8 * Z.of_nat sz) (le_val bs) = -1 -> 0 <= i < 8 * Z.of_nat sz ->
  exists b, bs !! Z.to_nat (i `div` 8) = Some b /\ Z.testbit b (i `mod` 8) = true.
Proof.
  intros Hsz Hl Hb H Hi. pose proof (ones_word _ _ Hsz Hl Hb H) as E.
  assert (Z.testbit (le_val bs) i = true) as Ht.
  { rewrite E. apply Z.ones_spec_low. lia. }
  destruct (bs !! Z.to_nat (i `div` 8)) as [b|] eqn:Eb.
  - exists b. split; [done|]. rewrite <-Ht. symmetry. unfold le_val.
    apply little_endian_to_Z_spec; [lia..|done|done].
  - exfalso. apply lookup_ge_None in Eb.
    rewrite (proj1 (is_uint_bits (Z.of_nat (length bs) * 8) (le_val bs) ltac:(lia))) in Ht; [done| |].
    + apply little_endian_to_Z_bound; [lia|done].
    + pose proof (Z.div_mod i 8). pose proof (Z.mod_pos_bound i 8). lia.
Qed.

Lemma wide_all_set sz bits byte_pos :
  (0 < sz)%nat -> 0 <= byte_pos -> Forall is_byte bits ->
  wraps (8 * Z.of_nat sz) (le_val (slice (Z.to_nat byte_pos) sz bits)) = -1 ->
  all_set bits (8 * byte_pos) (8 * (byte_pos + Z.of_nat sz)).
Proof.
  intros Hsz Hp Hb H p Hp0 Hr.
  destruct (ones_word_bits sz (slice (Z.to_nat byte_pos) sz bits) (p - 8 * byte_pos)) as (b & Hl & Ht);
    [done| | |done|lia|].
  - unfold slice. rewrite length_take. lia.
  - unfold slice. by apply Forall_take, Forall_drop.
  - rewrite Test_testbit by lia. unfold slice in Hl. apply lookup_take_Some in Hl as [Hl _].
    rewrite lookup_drop in Hl. unfold byte_at.
    replace (Z.to_nat (p `div` 8)) with (Z.to_nat byte_pos + Z.to_nat ((p - 8 * byte_pos) `div` 8))%nat.
    + rewrite Hl. simpl. rewrite <-Ht. f_equal.
      replace p with (p - 8 * byte_pos + byte_pos * 8) at 1 by lia. by rewrite Z.mod_add by lia.
    + replace p with (p - 8 * byte_pos + byte_pos * 8) at 2 by lia. rewrite Z.div_add by lia.
      assert (0 <= (p - 8 * byte_pos) `div` 8) by (apply Z.div_pos; lia). lia.
Qed.

Lemma full_byte_all_set bits byte_pos :
  0 <= byte_pos -> Forall is_byte bits -> s8 (byte_at bits byte_pos) = -1 ->
  all_set bits (8 * byte_pos) (8 * (byte_pos + 1)).
Proof.
  intros Hp Hb H p Hp0 Hr. rewrite Test_testbit by lia.
  replace (p `div` 8) with byte_pos by (apply Z.div_unique with (p - 8 * byte_pos); lia).
  pose proof (byte_at_byte bits byte_pos Hb) as Hby.
  unfold wraps in H. rewrite wrapu_small in H by done.
  case_decide; [unfold is_uint in Hby; lia|]. assert (byte_at bits byte_pos = Z.ones 8) as ->.
  { change (Z.ones 8) with 255. pow2. lia. }
  apply Z.ones_spec_low. apply Z.mod_pos_bound. lia.
Qed.

Import RawConcurrentBitmap.

Lemma scan_byte_spec k pos bits byte_pos n start :
  pos + Z.of_nat k = 8 -> 0 <= pos -> 0 <= byte_pos -> 8 * byte_pos + 8 <= 2 ^ 32 ->
  0 <= start -> all_set bits start (8 * byte_pos + pos) ->
  match scan_byte k pos (byte_at bits byte_pos) byte_pos n start with
  | Some (Some p) => is_first_unset bits n start p
  | Some None => all_set bits start n
  | None => all_set bits start (8 * byte_pos + 8)
  end.
Proof.
  revert pos. induction k as [|k IH]; intros pos Hk Hpos Hbp Hov Hst Hset; cbn [scan_byte].
  { by replace (8 * byte_pos + 8) with (8 * byte_pos + pos) by lia. }
  unfold BYTE_SIZE. rewrite wrapu_small by (unfold is_uint; lia).
  assert (RawBitmap.Test bits (pos + byte_pos * 8) =
          bool_decide (Z.land (byte_at bits byte_pos) (LSB_ONE_HOT_MASK pos) ≠ 0)) as HT.
  { unfold RawBitmap.Test, BYTE_SIZE.
    by rewrite Z.div_add, Z.mod_add, (Z.div_small pos), (Z.mod_small pos), Z.add_0_l by lia. }
  destruct (decide (n <= _)).
  { intros p Hp Hr. apply Hset; lia. }
  destruct (decide (_ < start)).
  { apply IH; try lia. apply all_set_empty. lia. }
  rewrite <-HT. destruct (RawBitmap.Test bits (pos + byte_pos * 8)) eqn:ET.
  - apply IH; try lia. replace (8 * byte_pos + (pos + 1)) with (pos + byte_pos * 8 + 1) by lia.
    apply all_set_snoc; [|done]. by replace (pos + byte_pos * 8) with (8 * byte_pos + pos) by lia.
  - split; [lia|]. split; [done|]. by replace (pos + byte_pos * 8) with (8 * byte_pos + pos) by lia.
Qed.

Lemma FindUnsetBit_spec sz bits byte_pos bits_left found byte_pos' bits_left' :
  (0 < sz)%nat -> 0 <= byte_pos -> byte_pos + Z.of_nat sz < 2 ^ 32 -> Forall is_byte bits ->
  FindUnsetBit sz bits byte_pos bits_left = (found, byte_pos', bits_left') ->
  (found = true /\ byte_pos' = byte_pos /\ bits_left' = bits_left) \/
  (found = false /\ byte_pos' = byte_pos + Z.of_nat sz /\
   bits_left' = u32 (bits_left - 8 * Z.of_nat sz) /\
   all_set bits (8 * byte_pos) (8 * byte_pos')).
Proof.
  intros Hsz Hp Hov Hb. unfold FindUnsetBit, BYTE_SIZE. rewrite (wrapu_small 32 (byte_pos + _)) by (unfold is_uint; lia).
  case_decide; intros [= <- <- <-]; [right|by left].
  split_and!; [done|done|f_equal; lia|]. by apply wide_all_set.
Qed.

(** The invariant of the outer loop: everything before the current byte is set,
    and for an aligned start [bits_left] counts what is left of the bitmap. *)
Definition scan_inv (bits : list Z) (n start byte_pos bits_left : Z) : Prop :=
  0 <= byte_pos /\ all_set bits start (8 * byte_pos) /\
  (start `mod` 8 = 0 -> byte_pos < RawBitmap.SizeInBytes n -> bits_left = n - 8 * byte_pos).

Lemma scan_inv_next bits n start byte_pos bits_left sz :
  0 < sz -> 0 <= n -> n + 7 < 2 ^ 32 -> scan_inv bits n start byte_pos bits_left ->
  byte_pos < RawBitmap.SizeInBytes n ->
  all_set bits start (8 * (byte_pos + sz)) ->
  scan_inv bits n start (byte_pos + sz) (u32 (bits_left - 8 * sz)).
Proof.
  intros Hsz Hn Hov (H0 & _ & Hleft) Hlt Hs. split_and!; [lia|done|].
  intros Hst Hlt'. specialize (Hleft Hst Hlt). pose proof (SizeInBytes_bounds n Hn).
  rewrite wrapu_small; [lia|unfold is_uint; lia].
Qed.

Section first_unset.
Context (bits : list Z) (n start : Z).
Hypothesis Hb : Forall is_byte bits.
Hypothesis Hn : 0 <= n.
Hypothesis Hov : n + 71 < 2 ^ 32.
Hypothesis Hst : 0 <= start.

(** What a run of the loop with [fuel] iterations left establishes. *)
Definition scan_post (fuel : nat) (byte_pos : Z) (found : bool) (r : option Z) : Prop :=
  match r with
  | Some p => is_first_unset bits n start p
  | None => start `mod` 8 = 0 ->
      Z.max 0 (RawBitmap.SizeInBytes n - byte_pos) + (if found then 1 else 2) <= Z.of_nat fuel ->
      all_set bits start n
  end.

Abbreviation loop fuel := (FirstUnsetPos_loop fuel bits n start (RawBitmap.SizeInBytes n)).

#[local] Lemma scan_post_S fuel byte_pos byte_pos' (found found' : bool) r :
  byte_pos < RawBitmap.SizeInBytes n ->
  (byte_pos < byte_pos' /\ found' = found \/ byte_pos' = byte_pos /\ found = false /\ found' = true) ->
  scan_post fuel byte_pos' found' r -> scan_post (S fuel) byte_pos found r.
Proof.
  intros Hlt Hadv. unfold scan_post. destruct r; [done|]. intros H Hal Hf. apply H; [done|].
  destruct Hadv as [[? ->]|(-> & -> & ->)]; [destruct found|]; lia.
Qed.

#[local] Lemma wide_step fuel sz byte_pos bits_left :
  (forall bp bl f, scan_inv bits n start bp bl -> scan_post fuel bp f (loop fuel bp bl f)) ->
  (0 < sz <= 8)%nat -> scan_inv bits n start byte_pos bits_left ->
  byte_pos < RawBitmap.SizeInBytes n ->
  scan_post (S fuel) byte_pos false
    (let '(f', bp', bl') := FindUnsetBit sz bits byte_pos bits_left in loop fuel bp' bl' f').
Proof.
  intros IH Hsz Hinv Hlt. pose proof (SizeInBytes_bounds n Hn). destruct Hinv as (Hbp & Hset & Hleft) eqn:EI.
  destruct (FindUnsetBit sz bits byte_pos bits_left) as [[f' bp'] bl'] eqn:EF.
  apply FindUnsetBit_spec in EF as [(-> & -> & ->)|(-> & -> & -> & Hw)]; [| |lia..|done].
  - eapply scan_post_S; [done| |by apply IH]. by right.
  - eapply scan_post_S; [done| |apply IH, scan_inv_next; try done; try lia].
    + left. split; [lia|done].
    + by eapply all_set_join.
Qed.

#[local] Lemma byte_step fuel byte_pos bits_left found :
  (forall bp bl f, scan_inv bits n start bp bl -> scan_post fuel bp f (loop fuel bp bl f)) ->
  scan_inv bits n start byte_pos bits_left -> byte_pos < RawBitmap.SizeInBytes n ->
  all_set bits start (8 * (byte_pos + 1)) ->
  scan_post (S fuel) byte_pos found
    (loop fuel (u32 (byte_pos + 1)) (u32 (bits_left - (BYTE_SIZE - start `mod` BYTE_SIZE))) found).
Proof.
  intros IH Hinv Hlt Hs. pose proof (SizeInBytes_bounds n Hn). pose proof Hinv as (Hbp & _ & _).
  rewrite (wrapu_small 32 (byte_pos + 1)) by (unfold is_uint; lia).
  apply (scan_post_S _ _ (byte_pos + 1) _ found); [done|left; split; [lia|done]|]. apply IH.
  split_and!; [lia|done|]. intros Hal. unfold BYTE_SIZE. rewrite Hal, Z.sub_0_r.
  pose proof (scan_inv_next bits n start byte_pos bits_left 1 ltac:(lia) Hn ltac:(lia) Hinv Hlt Hs)
    as (_ & _ & HH). by apply HH.
Qed.

Lemma FirstUnsetPos_loop_spec fuel byte_pos bits_left found :
  scan_inv bits n start byte_pos bits_left ->
  scan_post fuel byte_pos found (loop fuel byte_pos bits_left found).
Proof.
  pose proof (SizeInBytes_bounds n Hn) as HSz.
  revert byte_pos bits_left found. induction fuel as [|fuel IH]; intros byte_pos bits_left found Hinv.
  { simpl. destruct found; lia. }
  cbn [FirstUnsetPos_loop]. pose proof Hinv as (Hbp & Hset & Hleft).
  destruct (bool_decide (byte_pos < _) && _) eqn:Hcond.
  2:{ intros Hal _. apply andb_false_iff in Hcond.
      assert (n <= 8 * byte_pos); [|intros p Hp Hr; apply Hset; lia].
      destruct Hcond as [Hc%bool_decide_eq_false|Hc%bool_decide_eq_false]; [lia|].
      destruct (decide (byte_pos < RawBitmap.SizeInBytes n)) as [Hlt|]; [|lia].
      specialize (Hleft Hal Hlt). lia. }
  apply andb_true_iff in Hcond as [Hc1%bool_decide_eq_true Hc2%bool_decide_eq_true].
  assert (scan_post (S fuel) byte_pos found
    (if decide (s8 (byte_at bits byte_pos) ≠ -1) then
       match scan_byte 8 0 (byte_at bits byte_pos) byte_pos n start with
       | Some r => r
       | None => loop fuel (u32 (byte_pos + 1)) (u32 (bits_left - (BYTE_SIZE - start `mod` BYTE_SIZE))) found
       end
     else loop fuel (u32 (byte_pos + 1)) (u32 (bits_left - (BYTE_SIZE - start `mod` BYTE_SIZE))) found))
    as Hbyte.
  { case_decide as Hff.
    - pose proof (scan_byte_spec 8 0 bits byte_pos n start) as Hs. rewrite Z.add_0_r in Hs.
      specialize (Hs ltac:(lia) ltac:(lia) Hbp ltac:(lia) Hst Hset).
      destruct (scan_byte _ _ _ _ _ _) as [[p|]|]; [done| |].
      + intros _ _. done.
      + apply byte_step; [done..|]. by rewrite Z.mul_add_distr_l.
    - apply byte_step; [done..|]. eapply all_set_join; [done|]. apply full_byte_all_set; [done..|].
      by destruct (decide (s8 (byte_at bits byte_pos) = -1)). }
  destruct found; [done|]. cbn [negb andb].
  destruct (IsAlignedAndFits 8 bits_left byte_pos); [by apply wide_step; [|lia|..]|].
  destruct (IsAlignedAndFits 4 bits_left byte_pos); [by apply wide_step; [|lia|..]|].
  destruct (IsAlignedAndFits 2 bits_left byte_pos); [by apply wide_step; [|lia|..]|]. done.
Qed.

End first_unset.

(** ** Theorems *)

(** [FirstUnsetPos] is sound for every start position and, for a start
    position on a byte boundary, complete: what it returns is the first unset bit
    at or after [start] and before the end of the bitmap, and when it reports
    failure every bit of that range is set. *)
Theorem FirstUnsetPos_correct (bits : list Z) (n start : Z) :
  bitmap_ok n bits -> n + 71 < 2 ^ 32 -> 0 <= start ->
  (forall p, FirstUnsetPos bits n start = Some p -> is_first_unset bits n start p) /\
  (start `mod` 8 = 0 -> FirstUnsetPos bits n start = None -> all_set bits start n).
Proof.
  intros (Hb & Hn & Hl) Hov Hst. unfold FirstUnsetPos. case_decide as Hge.
  { split; [done|]. intros _ _. by apply all_set_empty. }
  assert (0 <= start `div` BYTE_SIZE) by (apply Z.div_pos; unfold BYTE_SIZE; lia).
  pose proof (SizeInBytes_bounds n Hn).
  pose proof (FirstUnsetPos_loop_spec bits n start Hb Hn Hov Hst
    (S (S (Z.to_nat (RawBitmap.SizeInBytes n)))) (start `div` BYTE_SIZE) (u32 (n - start)) false) as HL.
  destruct (FirstUnsetPos_loop _ _ _ _ _ _ _ _) as [q|]; unfold BYTE_SIZE in *.
  - split; [|done]. intros p [= ->]. apply HL. split_and!; [lia| |].
    + apply all_set_empty. apply Z.mul_div_le. lia.
    + intros Hal _. rewrite wrapu_small by (unfold is_uint; lia).
      pose proof (Z.div_mod start 8). lia.
  - split; [done|]. intros Hal _. apply HL; [|done|lia]. split_and!; [lia| |].
    + apply all_set_empty. apply Z.mul_div_le. lia.
    + intros _ _. rewrite wrapu_small by (unfold is_uint; lia).
      pose proof (Z.div_mod start 8). lia.
Qed.

Lemma FirstUnsetPos_correct_witness :
  is_first_unset (replicate 8 255 ++ [3]) 72 0 66 /\
  all_set (replicate 9 255) 8 72.
Proof.
  split.
  - apply (FirstUnsetPos_correct (replicate 8 255 ++ [3]) 72 0); [|lia|lia|vm_compute; reflexivity].
    split; [|simpl; lia]. repeat constructor; unfold is_uint; lia.
  - apply (FirstUnsetPos_correct (replicate 9 255) 72 8); [|lia|lia|reflexivity|vm_compute; reflexivity].
    split; [|simpl; lia]. repeat constructor; unfold is_uint; lia.
Defined.

(** A start position inside a byte makes [FirstUnsetPos] count the bits before
    it as bits of the first word: in a bitmap of 65 bits whose first 64 are set,
    the search from position 1 reports that there is no unset bit, although bit 64
    is unset (the search from position 0 finds it). *)
Theorem FirstUnsetPos_misses_unaligned :
  let bits := replicate 8 255 ++ [0] in
  FirstUnsetPos bits 65 1 = None /\ RawBitmap.Test bits 64 = false /\
  FirstUnsetPos bits 65 0 = Some 64.
Proof. vm_compute. done. Qed.

(** ** Concurrent flips *)

(** How a finished call changed the bit at [p]: +1 for 0 to 1, -1 for 1 to 0. *)
Definition flip_gain (p : Z) (t : flip_thread) : Z :=
  match ft_pc t with
  | FlipDone true => if decide (ft_pos t = p) then (if ft_expected t then -1 else 1) else 0
  | _ => 0
  end.

Fixpoint flip_total (p : Z) (ts : list flip_thread) : Z :=
  match ts with [] => 0 | t :: ts => flip_gain p t + flip_total p ts end.

Lemma flip_total_insert p ts i t t' :
  ts !! i = Some t -> flip_total p (<[i := t']> ts) = flip_total p ts - flip_gain p t + flip_gain p t'.
Proof.
  revert i. induction ts as [|u ts IH]; intros [|i] H; simplify_eq/=; [lia|].
  rewrite (IH i) by done. lia.
Qed.

(** A loaded value satisfies the loop test of its thread. *)
Definition flip_thread_ok (nbits : Z) (t : flip_thread) : Prop :=
  0 <= ft_pos t < nbits /\
  match ft_pc t with
  | FlipCas old => is_byte old /\ bool_decide (Z.land old (flip_mask t) ≠ 0) = ft_expected t
  | _ => True
  end.

Definition flip_inv (bits0 : list Z) (st : list Z * list flip_thread) : Prop :=
  let '(bits, ts) := st in
  length bits = length bits0 /\ Forall is_byte bits /\
  Forall (flip_thread_ok (8 * Z.of_nat (length bits0))) ts /\
  forall p, 0 <= p ->
    Z.b2z (RawBitmap.Test bits p) = Z.b2z (RawBitmap.Test bits0 p) + flip_total p ts.

Lemma flip_cas_gain bits t :
  Forall is_byte bits -> flip_thread_ok (8 * Z.of_nat (length bits)) t ->
  ft_pc t = FlipCas (byte_at bits (flip_element t)) ->
  let bits' := <[Z.to_nat (flip_element t) := Z.lxor (byte_at bits (flip_element t)) (flip_mask t)]> bits in
  Forall is_byte bits' /\
  forall p, 0 <= p -> Z.b2z (RawBitmap.Test bits' p) =
    Z.b2z (RawBitmap.Test bits p) + flip_gain p (flip_goto t (FlipDone true)).
Proof.
  intros Hb [Hp Hok] Hpc. rewrite Hpc in Hok. destruct Hok as [Hby Hexp].
  change (<[_:=_]> bits) with (RawBitmap.Flip bits (ft_pos t)). split.
  - apply Forall_insert; [done|]. apply is_uint_lxor; [lia|done|]. apply wrapu_bound. lia.
  - intros p Hp0. rewrite Test_Flip by done. unfold flip_gain. cbn [flip_goto ft_pc ft_pos ft_expected].
    destruct (decide (ft_pos t = p)) as [<-|]; [|lia].
    assert (RawBitmap.Test bits (ft_pos t) = ft_expected t) as ->.
    { rewrite <-Hexp. unfold RawBitmap.Test, flip_mask, flip_element.
      rewrite hot_mask_u8; [done|]. unfold BYTE_SIZE. apply Z.mod_pos_bound. lia. }
    by destruct (ft_expected t).
Qed.

Lemma flip_step_inv bits0 st st' : flip_step st st' -> flip_inv bits0 st -> flip_inv bits0 st'.
Proof.
  intros [bits ts i t bits' t' Hi He] (Hlen & Hb & Hts & Hcnt).
  assert (flip_thread_ok (8 * Z.of_nat (length bits0)) t) as Hok by (by eapply Forall_lookup_1).
  pose proof Hok as [Hp _]. unfold flip_exec in He. destruct (ft_pc t) as [|old|r] eqn:Hpc.
  - case_decide as Hd; simplify_eq; (split_and!; [done|done| |]);
      try (apply Forall_insert; [done|]; split; [done|]; simpl; [split; [by apply byte_at_byte|done]||done]);
      intros p Hp0; rewrite (flip_total_insert _ _ _ _ _ Hi), Hcnt by done;
      unfold flip_gain; rewrite Hpc; simpl; lia.
  - case_decide as Hd; simplify_eq.
    + rewrite <-Hlen in Hok. destruct (flip_cas_gain bits t Hb Hok Hpc) as [Hb' Hg].
      split_and!; [by rewrite length_insert|done|by apply Forall_insert|].
      intros p Hp0. rewrite Hg, Hcnt, (flip_total_insert _ _ _ _ _ Hi) by done.
      assert (flip_gain p t = 0) as -> by (unfold flip_gain; by rewrite Hpc). lia.
    + split_and!; [done|done|by apply Forall_insert|].
      intros p Hp0. rewrite Hcnt, (flip_total_insert _ _ _ _ _ Hi) by done.
      unfold flip_gain. rewrite Hpc. simpl. lia.
  - simplify_eq. by rewrite list_insert_id.
Qed.

Lemma flip_total_fresh p ts : Forall (fun t => ft_pc t = FlipLoad) ts -> flip_total p ts = 0.
Proof. induction 1 as [|t ts Ht _ IH]; [done|]. simpl. unfold flip_gain. rewrite Ht, IH. done. Qed.

(** C35: whatever the interleaving of the loads and compare-exchanges of concurrent
    [Flip] calls, every call that returned [true] changed its bit exactly once: a
    bit's value is its initial value plus the 0-to-1 flips that succeeded minus the
    1-to-0 flips that succeeded.  In particular two callers never both win the same
    0-to-1 flip. *)
Theorem Flip_linear (bits0 : list Z) (ts0 : list flip_thread) (bits : list Z) (ts : list flip_thread) :
  Forall is_byte bits0 ->
  Forall (fun t => ft_pc t = FlipLoad /\ 0 <= ft_pos t < 8 * Z.of_nat (length bits0)) ts0 ->
  rtc flip_step (bits0, ts0) (bits, ts) ->
  forall p, 0 <= p ->
    Z.b2z (RawBitmap.Test bits p) = Z.b2z (RawBitmap.Test bits0 p) + flip_total p ts.
Proof.
  intros Hb Hts Hr.
  assert (flip_inv bits0 (bits0, ts0)) as H0.
  { split_and!; [done|done| |].
    - eapply Forall_impl; [done|]. intros t [Hpc Hp]. split; [done|]. by rewrite Hpc.
    - intros p Hp. rewrite flip_total_fresh; [lia|]. eapply Forall_impl; [done|]. naive_solver. }
  assert (flip_inv bits0 (bits, ts)) as (_ & _ & _ & H); [|done].
  eapply (rtc_ind_r (fun st => flip_inv bits0 st)); [exact H0| |exact Hr].
  intros st st' _ Hs IH. by eapply flip_step_inv.
Qed.

Lemma flip_step_at i t bits bits' t' ts ts' :
  ts !! i = Some t -> flip_exec bits t = (bits', t') -> ts' = <[i := t']> ts ->
  flip_step (bits, ts) (bits', ts').
Proof. intros H1 H2 ->. by econstructor. Qed.

Lemma Flip_linear_witness :
  let ts0 := [FlipThread 3 false FlipLoad; FlipThread 3 false FlipLoad] in
  let ts := [FlipThread 3 false (FlipDone true); FlipThread 3 false FlipLoad] in
  rtc flip_step ([0], ts0) ([8], ts) /\
  Z.b2z (RawBitmap.Test [8] 3) = Z.b2z (RawBitmap.Test [0] 3) + flip_total 3 ts.
Proof.
  intros ts0 ts.
  assert (rtc flip_step ([0], ts0) ([8], ts)) as H.
  { apply rtc_l with ([0], [FlipThread 3 false (FlipCas 0); FlipThread 3 false FlipLoad]).
    { eapply (flip_step_at 0); reflexivity. }
    apply rtc_l with ([0], [FlipThread 3 false (FlipCas 0); FlipThread 3 false (FlipCas 0)]).
    { eapply (flip_step_at 1); reflexivity. }
    apply rtc_l with ([8], [FlipThread 3 false (FlipDone true); FlipThread 3 false (FlipCas 0)]).
    { eapply (flip_step_at 0); reflexivity. }
    apply rtc_l with ([8], ts); [|apply rtc_refl].
    eapply (flip_step_at 1); reflexivity. }
  split; [exact H|].
  apply (Flip_linear [0] ts0 [8] ts); [| |exact H|lia].
  - repeat constructor; unfold is_uint; lia.
  - repeat constructor; simpl; lia.
Defined.
