(* ===== verification/Layout.v ===== *)
(** * Block layout

    [storage/storage_defs.h] ([RawBlock]'s insert head, [TupleSlot]),
    [storage/storage_util.{h,cpp}] (padding, attribute size boundaries),
    [storage/block_layout.{h,cpp}], [storage/arrow_block_metadata.h] (its size) and
    the address arithmetic of [storage/tuple_access_strategy.{h,cpp}].

    A block is 1 MB of memory; an address is its offset from the start of the
    block (blocks are aligned to their size, so alignment of the offset is
    alignment of the pointer). *)

From S2P Require Import Prelude Bitmap.

Definition BLOCK_SIZE : Z := Z.shiftl 1 20.
Definition MAX_COL : Z := 12500.
Definition INT32_MAX : Z := 2147483647.
Definition INT32_MIN_bits : Z := 2147483648.
Definition NUM_ATTR_BOUNDARIES : nat := 4.
Definition NUM_RESERVED_COLUMNS : nat := 1.
Definition VERSION_POINTER_COLUMN_ID : Z := 0.
Definition VARLEN_COLUMN : Z := 0x8010.

(** ** StorageUtil: padding *)

Definition PadUpToSize (word_size offset : Z) : Z :=
  let mask := u32 (word_size - 1) in
  Z.land (u32 (offset + mask)) (u32 (Z.lnot mask)).

Definition AlignedPtr (size ptr : Z) : Z :=
  let mask := u64 (size - 1) in
  Z.land (u64 (ptr + mask)) (u64 (Z.lnot mask)).

(** ** TupleSlot: block address and offset in one word *)

Module TupleSlot.

Record TupleSlot := Slot { bytes_ : Z }.

#[global] Instance TupleSlot_eq_dec : EqDecision TupleSlot.
Proof. solve_decision. Defined.

#[global] Instance TupleSlot_countable : Countable TupleSlot.
Proof. apply (inj_countable' bytes_ Slot). by intros []. Defined.

Definition make (block offset : Z) : TupleSlot := Slot (Z.lor block offset).

Definition GetBlock (s : TupleSlot) : Z := Z.land (bytes_ s) (u64 (Z.lnot (BLOCK_SIZE - 1))).

Definition GetOffset (s : TupleSlot) : Z := u32 (Z.land (bytes_ s) (BLOCK_SIZE - 1)).

End TupleSlot.

(** ** The busy bit of a block's insert head *)

Definition ClearBit (val : Z) : Z := Z.land val INT32_MAX.
Definition SetBusyBit (val : Z) : Z := Z.lor val INT32_MIN_bits.
Definition GetInsertHead (insert_head : Z) : Z := Z.land INT32_MAX insert_head.

(** [compare_exchange_strong(expected, desired)] on an uncontended word. *)
Definition cas (cur expected desired : Z) : bool * Z :=
  if decide (cur = expected) then (true, desired) else (false, cur).

Definition SetBlockBusyStatus (insert_head : Z) : bool * Z :=
  let old_val := ClearBit insert_head in cas insert_head old_val (SetBusyBit old_val).

Definition ClearBlockBusyStatus (insert_head : Z) : bool * Z :=
  let val := insert_head in cas insert_head val (ClearBit val).

(** ** BlockLayout *)

Definition AttrSizeBytes (size : Z) : Z := Z.land size 32767.

Module BlockLayout.

Record BlockLayout := mk {
  attr_sizes_ : list Z;
  varlens_ : list Z;
  tuple_size_ : Z;
  static_header_size_ : Z;
  num_slots_ : Z;
  header_size_ : Z
}.

Definition NumColumns (l : BlockLayout) : Z := u16 (Z.of_nat (length (attr_sizes_ l))).

Definition attr_size_at (l : BlockLayout) (col_id : Z) : Z := default 0 (attr_sizes_ l !! Z.to_nat col_id).
Definition AttrSize (l : BlockLayout) (col_id : Z) : Z := AttrSizeBytes (attr_size_at l col_id).
Definition IsVarlen (l : BlockLayout) (col_id : Z) : bool := bool_decide (s16 (attr_size_at l col_id) < 0).
Definition AllColumns (l : BlockLayout) : list Z :=
  Z.of_nat <$> seq NUM_RESERVED_COLUMNS (length (attr_sizes_ l) - NUM_RESERVED_COLUMNS).

(** [ArrowBlockMetadata::Size]; an [ArrowColumnInfo] is a tag, a varlen column
    (two lengths, two pointers) and a pointer: 40 bytes. *)
Definition sizeof_ArrowColumnInfo : Z := 40.
Definition ArrowBlockMetadata_Size (num_cols : Z) : Z :=
  u32 (PadUpToSize 8 (u32 (4 * (num_cols + 1))) + num_cols * sizeof_ArrowColumnInfo).

Definition ComputeTupleSize (attr_sizes : list Z) : Z :=
  foldl (fun result size => u32 (result + AttrSizeBytes size)) 0 attr_sizes.

Definition ComputeStaticHeaderSize (num_cols : Z) : Z :=
  let unpadded_size :=
    u32 (8 + 2 + 2 + 4 + 8 + ArrowBlockMetadata_Size num_cols + num_cols * 4) in
  PadUpToSize 8 unpadded_size.

Definition ComputeNumSlots (num_cols tuple_size static_header_size : Z) : Z :=
  let bytes_available := u32 (BLOCK_SIZE - static_header_size) in
  let bytes_available := u32 (bytes_available - 8 * 2 * num_cols) in
  let bits_per_tuple := u32 (BYTE_SIZE * tuple_size + num_cols + 1) in
  u32 (BYTE_SIZE * bytes_available) `div` bits_per_tuple.

Definition ComputeHeaderSize (static_header_size num_slots : Z) : Z :=
  PadUpToSize 8 (u32 (static_header_size + RawBitmap.SizeInBytes num_slots)).

(** [std::greater<>] as the order of a sort. *)
Definition greater (a b : Z) : Prop := b <= a.

#[export] Instance greater_dec : RelDecision greater.
Proof. intros a b. unfold greater. apply _. Defined.

(** [std::sort(attr_sizes_.begin() + NUM_RESERVED_COLUMNS, end, greater)] *)
Definition sort_sizes (attr_sizes : list Z) : list Z :=
  take NUM_RESERVED_COLUMNS attr_sizes ++ merge_sort greater (drop NUM_RESERVED_COLUMNS attr_sizes).

Definition varlen_columns (attr_sizes : list Z) : list Z :=
  omap (fun '(i, s) => if decide (s = VARLEN_COLUMN) then Some (Z.of_nat i) else None)
    (imap pair attr_sizes).

(** The constructor: the sizes are computed from the sizes as given, the columns
    are then sorted by descending size. *)
Definition make (attr_sizes : list Z) : BlockLayout :=
  let num_cols := u16 (Z.of_nat (length attr_sizes)) in
  let tuple_size := ComputeTupleSize attr_sizes in
  let static_header_size := ComputeStaticHeaderSize num_cols in
  let num_slots := ComputeNumSlots num_cols tuple_size static_header_size in
  let header_size := ComputeHeaderSize static_header_size num_slots in
  let sorted := sort_sizes attr_sizes in
  mk sorted (varlen_columns sorted) tuple_size static_header_size num_slots header_size.

End BlockLayout.

Import BlockLayout.

(** ** TupleAccessStrategy: where the columns are *)

(** The bytes of one column: padded null bitmap and values, padded to 8. *)
Definition column_size (num_slots attr_size : Z) : Z :=
  u32 (attr_size * num_slots + PadUpToSize 8 (RawBitmap.SizeInBytes num_slots)).

(** The constructor's loop: the offset of every column, and the end offset. *)
Fixpoint compute_offsets (num_slots acc_offset : Z) (sizes : list Z) : list Z * Z :=
  match sizes with
  | [] => ([], acc_offset)
  | s :: sizes =>
    let acc' := u32 (acc_offset + PadUpToSize 8 (column_size num_slots (AttrSizeBytes s))) in
    let '(offs, e) := compute_offsets num_slots acc' sizes in
    (acc_offset :: offs, e)
  end.

Definition column_offsets_ (l : BlockLayout) : list Z :=
  (compute_offsets (num_slots_ l) (header_size_ l) (attr_sizes_ l)).1.

Definition column_offset (l : BlockLayout) (col_id : Z) : Z :=
  default 0 (column_offsets_ l !! Z.to_nat col_id).

(** [MiniBlock::ColumnStart] and [AccessWithoutNullCheck], as offsets in the block. *)
Definition ColumnStart (l : BlockLayout) (col_id : Z) : Z :=
  AlignedPtr 8 (column_offset l col_id + RawBitmap.SizeInBytes (num_slots_ l)).

Definition AccessWithoutNullCheck (l : BlockLayout) (slot_offset col_id : Z) : Z :=
  ColumnStart l col_id + AttrSize l col_id * slot_offset.

(** ** StorageUtil: attribute sizes *)

Definition ComputeBaseAttributeOffsets (attr_sizes : list Z) (num_reserved_columns : Z) : option (list Z) :=
  let count s := Z.of_nat (length (filter (fun x => x = s) attr_sizes)) in
  if decide (Forall (fun s => s ∈ [VARLEN_COLUMN; 8; 4; 2; 1]) attr_sizes) then
    let o0 := u16 num_reserved_columns in
    let o1 := u16 (u16 (count VARLEN_COLUMN) + o0) in
    let o2 := u16 (u16 (u16 (count 8) - num_reserved_columns) + o1) in
    let o3 := u16 (u16 (count 4) + o2) in
    let o4 := u16 (u16 (count 2) + o3) in
    Some [o0; o1; o2; o3; o4]
  else None.

(** The [while] of [ComputeAttributeSizeBoundaries] that closes the boundaries of
    the sizes larger than [attr_size]; [16 >> attr_size_index] reaches 0 after five
    rounds. *)
Fixpoint advance_boundary (fuel : nat) (attr_size : Z) (attr_size_index : nat) (bs : list Z) : nat * list Z :=
  match fuel with
  | O => (attr_size_index, bs)
  | S fuel =>
    if decide (attr_size < Z.shiftr 16 (Z.of_nat attr_size_index)) then
      let bs := if decide (attr_size_index < NUM_ATTR_BOUNDARIES - 1)%nat
                then <[S attr_size_index := bs !!! attr_size_index]> bs else bs in
      advance_boundary fuel attr_size (S attr_size_index) bs
    else (attr_size_index, bs)
  end.

Fixpoint boundaries_loop (sizes : list Z) (attr_size_index : nat) (bs : list Z) : list Z :=
  match sizes with
  | [] => bs
  | attr_size :: sizes =>
    let '(idx, bs) := advance_boundary 5 attr_size attr_size_index bs in
    let bs := if decide (idx < NUM_ATTR_BOUNDARIES)%nat then <[idx := u16 (bs !!! idx + 1)]> bs else bs in
    boundaries_loop sizes idx bs
  end.

(** On the zeroed array its callers pass. *)
Definition ComputeAttributeSizeBoundaries (l : BlockLayout) (col_ids : list Z) : list Z :=
  boundaries_loop (AttrSize l <$> col_ids) 0 (replicate NUM_ATTR_BOUNDARIES 0).

Fixpoint crossed (boundaries : list Z) (col_idx : Z) : nat :=
  match boundaries with
  | [] => 0
  | b :: bs => if decide (col_idx < b) then 0 else S (crossed bs col_idx)
  end.

Definition AttrSizeFromBoundaries (boundaries : list Z) (col_idx : Z) : Z :=
  u8 (Z.shiftr 16 (Z.of_nat (crossed boundaries col_idx))).

Definition ProjectionListAllColumns (l : BlockLayout) : list Z :=
  Z.of_nat <$> seq NUM_RESERVED_COLUMNS (length (attr_sizes_ l) - NUM_RESERVED_COLUMNS).

(** ** Padding *)

Lemma pad_mask k w x :
  0 <= k <= w -> is_uint w x -> Z.land x (wrapu w (Z.lnot (2 ^ k - 1))) = x - x `mod` 2 ^ k.
Proof.
  intros Hk Hx. replace (2 ^ k - 1) with (Z.ones k) by (rewrite Z.ones_equiv; lia).
  unfold wrapu. rewrite <-Z.land_ones, (Z.land_comm (Z.lnot _)), Z.land_assoc by lia.
  rewrite Z.land_ones by lia. change (x `mod` 2 ^ w) with (wrapu w x). rewrite wrapu_small by done.
  apply land_lnot_ones. lia.
Qed.

(** The smallest multiple of [8] at or above [z]. *)
Definition pad8 (z : Z) : Z := z + 7 - (z + 7) `mod` 8.

Lemma pad8_bounds z : z <= pad8 z <= z + 7 /\ pad8 z `mod` 8 = 0.
Proof.
  unfold pad8. pose proof (Z.mod_pos_bound (z + 7) 8). split; [lia|].
  rewrite Zminus_mod, Zmod_mod, Z.sub_diag. done.
Qed.

Lemma pad8_unique z p : z <= p <= z + 7 -> p `mod` 8 = 0 -> pad8 z = p.
Proof.
  intros Hp H0. pose proof (pad8_bounds z) as [Hb Hm].
  pose proof (Z.div_mod p 8). pose proof (Z.div_mod (pad8 z) 8). lia.
Qed.

Lemma PadUpToSize_pad8 z : 0 <= z -> z + 7 < 2 ^ 32 -> PadUpToSize 8 z = pad8 z.
Proof.
  intros H0 H. unfold PadUpToSize. change (u32 (8 - 1)) with (2 ^ 3 - 1).
  rewrite pad_mask; [|lia|apply wrapu_bound; lia].
  rewrite wrapu_small by (unfold is_uint; lia). unfold pad8. done.
Qed.

Lemma AlignedPtr_pad8 z : 0 <= z -> z + 7 < 2 ^ 64 -> AlignedPtr 8 z = pad8 z.
Proof.
  intros H0 H. unfold AlignedPtr. change (u64 (8 - 1)) with (2 ^ 3 - 1).
  rewrite pad_mask; [|lia|apply wrapu_bound; lia].
  rewrite wrapu_small by (unfold is_uint; lia). unfold pad8. done.
Qed.

Lemma pad8_add a z : a `mod` 8 = 0 -> pad8 (a + z) = a + pad8 z.
Proof.
  intros Ha. pose proof (pad8_bounds z) as [H1 H2]. apply pad8_unique; [lia|].
  by rewrite Zplus_mod, Ha, H2.
Qed.

(** Padding to a power-of-two word size [2 ^ k] yields the least multiple of
    the word size that is not below the offset, as long as it is representable. *)
Theorem PadUpToSize_least (k offset : Z) :
  0 <= k <= 7 -> 0 <= offset -> offset + 2 ^ k <= 2 ^ 32 ->
  let r := PadUpToSize (2 ^ k) offset in
  offset <= r < offset + 2 ^ k /\ r `mod` 2 ^ k = 0 /\
  forall m, m `mod` 2 ^ k = 0 -> offset <= m -> r <= m.
Proof.
  intros Hk H0 Hov r. assert (0 < 2 ^ k) by lia.
  assert (2 ^ k <= 2 ^ 7) by (apply Z.pow_le_mono_r; lia).
  assert (r = offset + (2 ^ k - 1) - (offset + (2 ^ k - 1)) `mod` 2 ^ k) as Hr.
  { unfold r, PadUpToSize. rewrite (wrapu_small 32 (2 ^ k - 1)) by (unfold is_uint; lia).
    rewrite pad_mask; [|lia|apply wrapu_bound; lia]. rewrite wrapu_small by (unfold is_uint; lia). done. }
  pose proof (Z.mod_pos_bound (offset + (2 ^ k - 1)) (2 ^ k)) as Hm.
  assert (r `mod` 2 ^ k = 0) as Hr0.
  { rewrite Hr, Zminus_mod, Zmod_mod, Z.sub_diag. apply Z.mod_0_l. lia. }
  split; [lia|]. split; [done|]. intros m Hm0 Hle.
  assert (m = 2 ^ k * (m `div` 2 ^ k)) as Em by (pose proof (Z.div_mod m (2 ^ k)); lia).
  assert (r = 2 ^ k * (r `div` 2 ^ k)) as Er by (pose proof (Z.div_mod r (2 ^ k)); lia).
  rewrite Em, Er. apply Z.mul_le_mono_nonneg_l; [lia|]. apply Z.lt_succ_r.
  apply (Z.mul_lt_mono_pos_l (2 ^ k)); [lia|]. rewrite Z.mul_succ_r, <-Em, <-Er. lia.
Qed.

Lemma PadUpToSize_least_witness : 13 <= PadUpToSize (2 ^ 3) 13 < 13 + 2 ^ 3.
Proof. apply (PadUpToSize_least 3 13); lia. Defined.

(** ** TupleSlot *)

Lemma TupleSlot_parts (block offset : Z) :
  is_uint 64 block -> block `mod` BLOCK_SIZE = 0 -> 0 <= offset < BLOCK_SIZE ->
  TupleSlot.GetBlock (TupleSlot.make block offset) = block /\
  TupleSlot.GetOffset (TupleSlot.make block offset) = offset.
Proof.
  intros Hb Ha Ho. unfold TupleSlot.GetBlock, TupleSlot.GetOffset, TupleSlot.make. simpl.
  change BLOCK_SIZE with (2 ^ 20) in *. change (2 ^ 20 - 1) with (Z.ones 20).
  assert (block = Z.shiftl (block `div` 2 ^ 20) 20) as Eb.
  { rewrite Z.shiftl_mul_pow2 by lia. pose proof (Z.div_mod block (2 ^ 20)). lia. }
  rewrite Eb, lor_shift_add, <-Eb by (lia || done).
  assert (is_uint 64 (block + offset)).
  { rewrite Eb, <-lor_shift_add, <-Eb by (lia || done). apply is_uint_lor; [lia|done|].
    unfold is_uint. lia. }
  assert ((block + offset) `mod` 2 ^ 20 = offset) as Hmod.
  { rewrite Zplus_mod, Ha, Z.add_0_l, Zmod_mod. apply Z.mod_small. lia. }
  split.
  - change (Z.ones 20) with (2 ^ 20 - 1). rewrite pad_mask by (lia || done). lia.
  - rewrite Z.land_ones, Hmod by lia. apply wrapu_small. unfold is_uint. lia.
Qed.

(** A tuple slot packs a block address aligned to the block size and an offset
    below the block size without loss, so distinct positions are distinct slots. *)
Theorem TupleSlot_roundtrip (block offset block' offset' : Z) :
  is_uint 64 block -> block `mod` BLOCK_SIZE = 0 -> 0 <= offset < BLOCK_SIZE ->
  is_uint 64 block' -> block' `mod` BLOCK_SIZE = 0 -> 0 <= offset' < BLOCK_SIZE ->
  TupleSlot.GetBlock (TupleSlot.make block offset) = block /\
  TupleSlot.GetOffset (TupleSlot.make block offset) = offset /\
  (TupleSlot.make block offset = TupleSlot.make block' offset' -> block = block' /\ offset = offset').
Proof.
  intros Hb Ha Ho Hb' Ha' Ho'. destruct (TupleSlot_parts block offset Hb Ha Ho) as [E1 E2].
  destruct (TupleSlot_parts block' offset' Hb' Ha' Ho') as [E1' E2'].
  split_and!; [done|done|]. intros E. rewrite <-E in E1', E2'. split; congruence.
Qed.

Lemma TupleSlot_roundtrip_witness :
  TupleSlot.GetBlock (TupleSlot.make (3 * BLOCK_SIZE) 77) = 3 * BLOCK_SIZE /\
  TupleSlot.GetOffset (TupleSlot.make (3 * BLOCK_SIZE) 77) = 77.
Proof.
  assert (is_uint 64 (3 * BLOCK_SIZE)) as Hb by (split; vm_compute; congruence).
  assert (0 <= 77 < BLOCK_SIZE) as Ho by (split; vm_compute; congruence).
  destruct (TupleSlot_roundtrip (3 * BLOCK_SIZE) 77 (3 * BLOCK_SIZE) 77 Hb eq_refl Ho Hb eq_refl Ho) as (H1 & H2 & _).
  split; [exact H1|exact H2].
Defined.

(** ** The busy bit *)

Lemma busy_bit_ops (h : Z) :
  0 <= h < 2 ^ 31 ->
  SetBlockBusyStatus h = (true, 2 ^ 31 + h) /\ GetInsertHead (2 ^ 31 + h) = h /\
  SetBlockBusyStatus (2 ^ 31 + h) = (false, 2 ^ 31 + h) /\ ClearBlockBusyStatus (2 ^ 31 + h) = (true, h).
Proof.
  intros Hh.
  assert (ClearBit h = h) as Hc.
  { unfold ClearBit. change INT32_MAX with (Z.ones 31). rewrite Z.land_ones by lia. by apply Z.mod_small. }
  assert (SetBusyBit h = 2 ^ 31 + h) as Hs.
  { unfold SetBusyBit. rewrite Z.lor_comm. change INT32_MIN_bits with (Z.shiftl 1 31).
    by rewrite lor_shift_add by (unfold is_uint; lia). }
  assert (ClearBit (2 ^ 31 + h) = h) as Hcs.
  { unfold ClearBit. change INT32_MAX with (Z.ones 31). rewrite Z.land_ones by lia.
    rewrite <-Zplus_mod_idemp_l, Z_mod_same_full, Z.add_0_l. apply Z.mod_small. lia. }
  unfold SetBlockBusyStatus, ClearBlockBusyStatus, GetInsertHead, cas.
  rewrite Hc, Hs, Hcs. split_and!.
  - by rewrite decide_True.
  - rewrite Z.land_comm. exact Hcs.
  - by rewrite decide_False by lia.
  - by rewrite decide_True.
Qed.

(** The busy bit is a lock on the insert head: acquiring succeeds exactly when
    the bit is clear, keeps the offset of the next insertion, excludes a second
    acquirer, and releasing restores the idle head. *)
Theorem busy_bit_lock (h : Z) :
  0 <= h < 2 ^ 31 ->
  exists h', SetBlockBusyStatus h = (true, h') /\ GetInsertHead h' = h /\
    SetBlockBusyStatus h' = (false, h') /\ ClearBlockBusyStatus h' = (true, h).
Proof. intros Hh. exists (2 ^ 31 + h). by apply busy_bit_ops. Qed.

Lemma busy_bit_lock_witness :
  exists h', SetBlockBusyStatus 5 = (true, h') /\ GetInsertHead h' = 5 /\
    SetBlockBusyStatus h' = (false, h') /\ ClearBlockBusyStatus h' = (true, 5).
Proof. apply (busy_bit_lock 5). lia. Defined.

(** ** Blocks are large enough *)

Definition sizes_ok (attr_sizes : list Z) : Prop :=
  (1 <= length attr_sizes)%nat /\ Z.of_nat (length attr_sizes) <= MAX_COL /\
  Forall (fun s => 0 <= s) attr_sizes.

Definition sum_sizes (sizes : list Z) : Z := foldr (fun s acc => AttrSizeBytes s + acc) 0 sizes.

Lemma AttrSizeBytes_bound s : 0 <= AttrSizeBytes s < 2 ^ 15.
Proof. unfold AttrSizeBytes. apply is_uint_land; unfold is_uint; lia. Qed.

Lemma sum_sizes_bound sizes : 0 <= sum_sizes sizes <= 32767 * Z.of_nat (length sizes).
Proof.
  induction sizes as [|s sizes IH]; simpl; [lia|]. pose proof (AttrSizeBytes_bound s). lia.
Qed.

Lemma sum_sizes_perm l1 l2 : l1 ≡ₚ l2 -> sum_sizes l1 = sum_sizes l2.
Proof. induction 1; simpl; lia. Qed.

Lemma sort_sizes_perm sizes : sort_sizes sizes ≡ₚ sizes.
Proof.
  unfold sort_sizes. rewrite (merge_sort_Permutation greater). by rewrite take_drop.
Qed.

Lemma ComputeTupleSize_sum sizes :
  Z.of_nat (length sizes) <= MAX_COL -> ComputeTupleSize sizes = sum_sizes sizes.
Proof.
  intros Hl. unfold ComputeTupleSize.
  assert (forall acc, 0 <= acc -> acc + sum_sizes sizes < 2 ^ 32 ->
    foldl (fun result size => u32 (result + AttrSizeBytes size)) acc sizes = acc + sum_sizes sizes) as H.
  { clear Hl. induction sizes as [|s sizes IH]; intros acc Ha Hb; simpl in *; [lia|].
    pose proof (AttrSizeBytes_bound s). pose proof (sum_sizes_bound sizes).
    rewrite wrapu_small by (unfold is_uint; lia). rewrite IH by lia. lia. }
  rewrite H; [lia|lia|]. pose proof (sum_sizes_bound sizes). unfold MAX_COL in *. lia.
Qed.

Lemma static_header_spec n :
  1 <= n <= MAX_COL ->
  let h := ComputeStaticHeaderSize n in h `mod` 8 = 0 /\ 24 <= h <= 48 * n + 42.
Proof.
  intros Hn. unfold MAX_COL in Hn. unfold ComputeStaticHeaderSize, ArrowBlockMetadata_Size, sizeof_ArrowColumnInfo.
  rewrite (wrapu_small 32 (4 * _)) by (unfold is_uint; lia).
  rewrite (PadUpToSize_pad8 (4 * (n + 1))) by lia. pose proof (pad8_bounds (4 * (n + 1))) as [Hb _].
  rewrite (wrapu_small 32 (_ + n * 40)) by (unfold is_uint; lia).
  rewrite wrapu_small by (unfold is_uint; lia). rewrite PadUpToSize_pad8 by lia.
  match goal with |- context [pad8 ?z] => pose proof (pad8_bounds z) as [Hb' Hm'] end.
  split; [exact Hm'|lia].
Qed.

Lemma num_slots_spec n T h :
  1 <= n <= MAX_COL -> 0 <= T <= 32767 * n -> 24 <= h <= 48 * n + 42 ->
  let s := ComputeNumSlots n T h in
  0 <= s < 2 ^ 23 /\ s * (8 * T + n + 1) <= 8 * (BLOCK_SIZE - h - 16 * n).
Proof.
  intros Hn HT Hh. unfold MAX_COL in Hn. unfold ComputeNumSlots.
  change BLOCK_SIZE with 1048576. unfold BYTE_SIZE.
  rewrite (wrapu_small 32 (1048576 - h)) by (unfold is_uint; lia).
  rewrite (wrapu_small 32 (1048576 - h - _)) by (unfold is_uint; lia).
  rewrite (wrapu_small 32 (8 * T + n + 1)) by (unfold is_uint; lia).
  rewrite (wrapu_small 32) by (unfold is_uint; lia).
  set (a := 8 * (1048576 - h - 8 * 2 * n)).
  pose proof (Z.mul_div_le a (8 * T + n + 1) ltac:(lia)) as Hd.
  assert (0 <= a `div` (8 * T + n + 1)) by (apply Z.div_pos; lia).
  split; [|lia]. split; [done|]. eapply Z.le_lt_trans; [apply Z.div_le_upper_bound; [lia|]|].
  - instantiate (1 := a). nia.
  - lia.
Qed.

(** The padded size of a bitmap over [s] slots, against the [s] bits it needs. *)
Lemma bitmap_pad s : 0 <= s -> 8 * pad8 (RawBitmap.SizeInBytes s) <= s + 63 /\ 0 <= pad8 (RawBitmap.SizeInBytes s).
Proof.
  intros Hs. pose proof (SizeInBytes_bounds s Hs). pose proof (pad8_bounds (RawBitmap.SizeInBytes s)) as [Hb Hm].
  pose proof (Z.div_mod (pad8 (RawBitmap.SizeInBytes s)) 8). lia.
Qed.

(** The bytes a column really takes. *)
Definition col_bytes (s q a : Z) : Z := pad8 (a * s) + q.

Definition cols_end (s q acc : Z) (sizes : list Z) : Z :=
  foldl (fun acc a => acc + col_bytes s q (AttrSizeBytes a)) acc sizes.

Lemma cols_end_le s q acc sizes :
  0 <= s -> 0 <= q ->
  acc <= cols_end s q acc sizes <=
    acc + sum_sizes sizes * s + (7 + q) * Z.of_nat (length sizes).
Proof.
  intros Hs Hq. revert acc. induction sizes as [|a sizes IH]; intros acc; unfold cols_end in *; simpl; [lia|].
  specialize (IH (acc + col_bytes s q (AttrSizeBytes a))). unfold col_bytes in *.
  pose proof (AttrSizeBytes_bound a). pose proof (pad8_bounds (AttrSizeBytes a * s)) as [Hb _]. nia.
Qed.

Lemma cols_end_aligned s q acc sizes :
  acc `mod` 8 = 0 -> q `mod` 8 = 0 -> cols_end s q acc sizes `mod` 8 = 0.
Proof.
  intros Ha Hq. revert acc Ha. induction sizes as [|a sizes IH]; intros acc Ha; [done|].
  unfold cols_end in *. simpl. apply IH. unfold col_bytes.
  pose proof (pad8_bounds (AttrSizeBytes a * s)) as [_ Hm].
  by rewrite Zplus_mod, Ha, (Zplus_mod (pad8 _)), Hm, Hq.
Qed.

(** The constructor's loop, when nothing overflows. *)
Lemma compute_offsets_spec s acc sizes :
  let q := pad8 (RawBitmap.SizeInBytes s) in
  0 <= s -> 0 <= acc -> cols_end s q acc sizes <= BLOCK_SIZE ->
  compute_offsets s acc sizes =
    (imap (fun i _ => cols_end s q acc (take i sizes)) sizes, cols_end s q acc sizes).
Proof.
  intros q Hs. pose proof (bitmap_pad s Hs) as [_ Hq]. fold q in Hq.
  pose proof (pad8_bounds (RawBitmap.SizeInBytes s)) as [Hqb Hqm]. fold q in Hqb, Hqm.
  pose proof (SizeInBytes_bounds s Hs) as HSb.
  change BLOCK_SIZE with 1048576.
  revert acc. induction sizes as [|a sizes IH]; intros acc Ha He; [done|]. simpl.
  set (acc' := acc + col_bytes s q (AttrSizeBytes a)).
  change (cols_end s q acc (a :: sizes)) with (cols_end s q acc' sizes) in *.
  pose proof (cols_end_le s q acc' sizes Hs Hq) as [Hle _].
  assert (col_bytes s q (AttrSizeBytes a) = pad8 (AttrSizeBytes a * s) + q) as Hcb by done.
  pose proof (AttrSizeBytes_bound a) as Hab. pose proof (pad8_bounds (AttrSizeBytes a * s)) as [Hb _].
  assert (0 <= AttrSizeBytes a * s) by nia.
  assert (u32 (acc + PadUpToSize 8 (column_size s (AttrSizeBytes a))) = acc') as ->.
  { unfold column_size. rewrite (PadUpToSize_pad8 (RawBitmap.SizeInBytes s)) by lia. fold q.
    rewrite (wrapu_small 32 (AttrSizeBytes a * s + q)) by (unfold is_uint; lia).
    rewrite PadUpToSize_pad8 by lia. rewrite (Z.add_comm _ q), pad8_add by done.
    rewrite wrapu_small by (unfold is_uint; lia). lia. }
  rewrite IH by lia. simpl. f_equal.
Qed.

Lemma cols_end_app s q a l1 l2 : cols_end s q a (l1 ++ l2) = cols_end s q (cols_end s q a l1) l2.
Proof. apply foldl_app. Qed.

Lemma cols_end_take_S s q acc sizes i a :
  sizes !! i = Some a ->
  cols_end s q acc (take (S i) sizes) = cols_end s q acc (take i sizes) + col_bytes s q (AttrSizeBytes a).
Proof. intros H. by rewrite (take_S_r _ _ _ H), cols_end_app. Qed.

Lemma cols_end_take_le s q acc sizes i j :
  0 <= s -> 0 <= q -> (i <= j)%nat -> cols_end s q acc (take i sizes) <= cols_end s q acc (take j sizes).
Proof.
  intros Hs Hq Hij. replace j with (i + (j - i))%nat by lia.
  rewrite <-take_take_drop, cols_end_app. by apply cols_end_le.
Qed.

Section layout_facts.
Context (attr_sizes : list Z).
Hypothesis Hok : sizes_ok attr_sizes.

#[local] Abbreviation l := (make attr_sizes).
#[local] Abbreviation s := (num_slots_ l).
#[local] Abbreviation q := (pad8 (RawBitmap.SizeInBytes s)).
#[local] Abbreviation sizes := (attr_sizes_ l).
#[local] Abbreviation n := (Z.of_nat (length attr_sizes)).

Lemma make_sizes_length : length sizes = length attr_sizes.
Proof. unfold make. cbn [attr_sizes_]. by rewrite sort_sizes_perm. Qed.

Lemma num_cols_small : u16 n = n /\ 1 <= n <= MAX_COL.
Proof.
  destruct Hok as (? & ? & _). split; [|lia]. apply wrapu_small. unfold is_uint, MAX_COL in *. lia.
Qed.

Lemma make_num_slots :
  s = ComputeNumSlots n (sum_sizes attr_sizes) (ComputeStaticHeaderSize n).
Proof.
  unfold make. cbn [num_slots_]. rewrite (proj1 num_cols_small), ComputeTupleSize_sum; [done|].
  apply num_cols_small.
Qed.

Lemma make_slots_cap :
  0 <= s < 2 ^ 23 /\
  s * (8 * sum_sizes attr_sizes + n + 1) <= 8 * (BLOCK_SIZE - ComputeStaticHeaderSize n - 16 * n).
Proof.
  rewrite make_num_slots. pose proof num_cols_small as [_ Hn].
  apply num_slots_spec; [done|apply sum_sizes_bound|by apply static_header_spec].
Qed.

Lemma make_header_size : header_size_ l = ComputeStaticHeaderSize n + q.
Proof.
  pose proof make_slots_cap as [Hs _]. pose proof num_cols_small as [En Hn].
  pose proof (static_header_spec n Hn) as [Hhm Hh]. unfold MAX_COL in *.
  pose proof (SizeInBytes_bounds s ltac:(lia)) as HSb.
  assert (header_size_ l = ComputeHeaderSize (ComputeStaticHeaderSize n) s) as ->.
  { unfold make. cbn [header_size_ num_slots_]. by rewrite En. }
  unfold ComputeHeaderSize. rewrite wrapu_small by (unfold is_uint; lia).
  rewrite PadUpToSize_pad8 by lia. by apply pad8_add.
Qed.

Lemma make_facts :
  0 <= s < 2 ^ 23 /\ header_size_ l `mod` 8 = 0 /\ 24 <= header_size_ l /\
  cols_end s q (header_size_ l) sizes <= BLOCK_SIZE.
Proof.
  pose proof make_slots_cap as [Hs Hcap]. pose proof num_cols_small as [_ Hn].
  pose proof (static_header_spec n Hn) as [Hhm Hh].
  pose proof (bitmap_pad s ltac:(lia)) as [Hq Hq0].
  pose proof (pad8_bounds (RawBitmap.SizeInBytes s)) as [_ Hqm].
  assert (header_size_ l `mod` 8 = 0) as HHm by (by rewrite make_header_size, Zplus_mod, Hhm, Hqm).
  split_and!; [lia|lia|done|rewrite make_header_size; lia|].
  pose proof (cols_end_le s q (header_size_ l) sizes ltac:(lia) Hq0) as [_ Hle].
  rewrite make_sizes_length, make_header_size in Hle.
  assert (sum_sizes sizes = sum_sizes attr_sizes) as ET.
  { unfold make. cbn [attr_sizes_]. apply sum_sizes_perm, sort_sizes_perm. }
  rewrite ET in Hle.
  pose proof (cols_end_aligned s q (header_size_ l) sizes HHm Hqm) as Hea.
  rewrite make_header_size in *. revert Hle Hea Hcap Hq Hq0 Hh.
  change BLOCK_SIZE with 1048576. generalize (cols_end s q (ComputeStaticHeaderSize n + q) sizes) as e.
  generalize (ComputeStaticHeaderSize n) as h, q as q', s as s', (sum_sizes attr_sizes) as T.
  intros T s' q' h e Hle Hea Hcap Hq Hq0 Hh. pose proof (Z.div_mod e 8 ltac:(lia)).
  assert (8 * e < 8 * 1048576 + 64); [nia|lia].
Qed.

Lemma offsets_eq :
  compute_offsets s (header_size_ l) sizes =
    (imap (fun i _ => cols_end s q (header_size_ l) (take i sizes)) sizes,
     cols_end s q (header_size_ l) sizes).
Proof. destruct make_facts as (? & ? & ? & ?). apply compute_offsets_spec; lia. Qed.

Lemma size_lookup c :
  0 <= c < n -> exists a, sizes !! Z.to_nat c = Some a /\ AttrSize l c = AttrSizeBytes a.
Proof.
  intros Hc. destruct (lookup_lt_is_Some_2 sizes (Z.to_nat c)) as [a Ha]; [rewrite make_sizes_length; lia|].
  exists a. split; [done|]. unfold AttrSize, attr_size_at. by rewrite Ha.
Qed.

Lemma column_offset_eq c :
  0 <= c < n -> column_offset l c = cols_end s q (header_size_ l) (take (Z.to_nat c) sizes).
Proof.
  intros Hc. unfold column_offset, column_offsets_. rewrite offsets_eq. cbn [fst].
  rewrite list_lookup_imap. destruct (size_lookup c Hc) as (a & -> & _). done.
Qed.

(** A column ends before every later column begins, and inside the block. *)
Lemma column_region c c' :
  0 <= c < n -> c < c' <= n ->
  header_size_ l <= column_offset l c /\
  column_offset l c + col_bytes s q (AttrSize l c) <=
    cols_end s q (header_size_ l) (take (Z.to_nat c') sizes) <= BLOCK_SIZE.
Proof.
  intros Hc Hc'. destruct make_facts as (Hs & _ & _ & He). pose proof (bitmap_pad s ltac:(lia)) as [_ Hq].
  rewrite column_offset_eq by lia. destruct (size_lookup c Hc) as (a & Ha & ->).
  rewrite <-cols_end_take_S by done. split_and!.
  - apply cols_end_le; lia.
  - apply cols_end_take_le; lia.
  - etrans; [|exact He]. rewrite <-(take_ge sizes (length sizes)) at 2 by lia.
    apply cols_end_take_le; [lia..|]. rewrite make_sizes_length. lia.
Qed.

Lemma ColumnStart_eq c :
  0 <= c < n -> ColumnStart l c = column_offset l c + q /\ column_offset l c `mod` 8 = 0.
Proof.
  intros Hc. destruct make_facts as (Hs & Hm & Hh & _).
  assert (column_offset l c `mod` 8 = 0) as Ha.
  { rewrite column_offset_eq by done. apply cols_end_aligned; [done|]. apply pad8_bounds. }
  split; [|done]. unfold ColumnStart. pose proof (SizeInBytes_bounds s ltac:(lia)).
  destruct (column_region c (c + 1) Hc ltac:(lia)) as (H1 & H2 & H3). change BLOCK_SIZE with 1048576 in H3.
  assert (0 <= col_bytes s q (AttrSize l c)).
  { unfold col_bytes. pose proof (bitmap_pad s ltac:(lia)). pose proof (pad8_bounds (AttrSize l c * s)).
    assert (0 <= AttrSize l c) by apply AttrSizeBytes_bound. nia. }
  rewrite AlignedPtr_pad8 by lia. by apply pad8_add.
Qed.

(** The bytes of one attribute lie in the value part of its column. *)
Lemma attr_in_column c sl :
  0 <= c < n -> 0 <= sl < s ->
  column_offset l c + q <= AccessWithoutNullCheck l sl c /\
  AccessWithoutNullCheck l sl c + AttrSize l c <= column_offset l c + col_bytes s q (AttrSize l c).
Proof.
  intros Hc Hsl. unfold AccessWithoutNullCheck, col_bytes. rewrite (proj1 (ColumnStart_eq c Hc)).
  assert (0 <= AttrSize l c) by apply AttrSizeBytes_bound.
  pose proof (pad8_bounds (AttrSize l c * s)) as [Hb _]. nia.
Qed.

(** Any two attributes of a block occupy disjoint bytes. *)
Lemma attrs_disjoint c1 c2 s1 s2 :
  0 <= c1 < n -> 0 <= c2 < n -> 0 <= s1 < s -> 0 <= s2 < s -> (c1, s1) ≠ (c2, s2) ->
  AccessWithoutNullCheck l s1 c1 + AttrSize l c1 <= AccessWithoutNullCheck l s2 c2 \/
  AccessWithoutNullCheck l s2 c2 + AttrSize l c2 <= AccessWithoutNullCheck l s1 c1.
Proof.
  intros H1 H2 Hs1 Hs2 Hne. pose proof (attr_in_column c1 s1 H1 Hs1). pose proof (attr_in_column c2 s2 H2 Hs2).
  pose proof (bitmap_pad s ltac:(lia)).
  destruct (Z.lt_total c1 c2) as [Hlt|[<-|Hlt]].
  - left. pose proof (column_region c1 c2 H1 ltac:(lia)) as (_ & Hr & _). rewrite <-column_offset_eq in Hr by done. lia.
  - unfold AccessWithoutNullCheck. assert (0 <= AttrSize l c1) by apply AttrSizeBytes_bound.
    destruct (decide (s1 < s2)); [left|right]; [nia|].
    assert (s2 < s1); [|nia]. assert (s1 ≠ s2) by congruence. lia.
  - right. pose proof (column_region c2 c1 H2 ltac:(lia)) as (_ & Hr & _). rewrite <-column_offset_eq in Hr by done. lia.
Qed.

End layout_facts.

(** C34: for every legal set of column sizes (1 to [MAX_COL] columns) the columns the
    access strategy lays out fit in a block: the assertion in its constructor
    cannot fail.  Every column starts after the header, on an 8-byte boundary, and
    nothing in the size computations wraps around. *)
Theorem columns_fit_block (attr_sizes : list Z) :
  sizes_ok attr_sizes ->
  let l := make attr_sizes in
  let '(offs, e) := compute_offsets (num_slots_ l) (header_size_ l) (attr_sizes_ l) in
  e <= BLOCK_SIZE /\ length offs = length attr_sizes /\
  forall c o, offs !! c = Some o -> header_size_ l <= o < e + 1 /\ o `mod` 8 = 0.
Proof.
  intros Hok. cbv zeta. rewrite (offsets_eq _ Hok). destruct (make_facts _ Hok) as (Hs & Hm & Hh & He).
  pose proof (bitmap_pad (num_slots_ (make attr_sizes)) ltac:(lia)) as [_ Hq].
  split; [done|]. split; [by rewrite length_imap, make_sizes_length|].
  intros c o Ho. rewrite list_lookup_imap in Ho. apply fmap_Some in Ho as (a & Ha & ->).
  split; [split|].
  - apply cols_end_le; lia.
  - apply Z.lt_succ_r. rewrite <-(take_ge (attr_sizes_ (make attr_sizes)) (length (attr_sizes_ (make attr_sizes)))) at 2 by lia.
    apply cols_end_take_le; [lia..|]. apply lookup_lt_Some in Ha. lia.
  - apply cols_end_aligned; [done|]. apply pad8_bounds.
Qed.

Lemma columns_fit_block_witness :
  let l := make [8; VARLEN_COLUMN; 4; 1] in
  let '(offs, e) := compute_offsets (num_slots_ l) (header_size_ l) (attr_sizes_ l) in
  e <= BLOCK_SIZE /\ length offs = 4%nat /\
  forall c o, offs !! c = Some o -> header_size_ l <= o < e + 1 /\ o `mod` 8 = 0.
Proof.
  apply (columns_fit_block [8; VARLEN_COLUMN; 4; 1]).
  split_and!; [simpl; lia|unfold MAX_COL; simpl; lia|]. repeat constructor; unfold VARLEN_COLUMN; lia.
Defined.

(** ** Attribute size boundaries *)

(** The sizes a column can have in memory, from the largest. *)
Definition size_of_index (i : nat) : Z := Z.shiftr 16 (Z.of_nat i).

Definition size_classes (sizes : list Z) : Prop :=
  StronglySorted (fun a b => b <= a) sizes /\ Forall (fun a => a ∈ [16; 8; 4; 2; 1]) sizes.

(** The boundaries after the columns of [sizes]: entry [i] counts the columns of
    at least size [16 >> i], up to the class of the last column. *)
Fixpoint count_ge (sizes : list Z) (i : nat) : Z :=
  match sizes with
  | [] => 0
  | a :: sizes => (if decide (size_of_index i <= a) then 1 else 0) + count_ge sizes i
  end.

Lemma class_index a : a ∈ [16; 8; 4; 2; 1] -> exists i, (i <= 4)%nat /\ a = size_of_index i.
Proof.
  intros H. rewrite !elem_of_cons, elem_of_nil in H.
  destruct H as [->|[->|[->|[->|[->|[]]]]]];
    [exists 0%nat|exists 1%nat|exists 2%nat|exists 3%nat|exists 4%nat]; split; (lia || done).
Qed.

Lemma size_of_index_lt i j : (i <= 4)%nat -> (j <= 4)%nat -> size_of_index i < size_of_index j <-> (j < i)%nat.
Proof.
  intros Hi Hj. do 5 (destruct i as [|i]; [do 5 (destruct j as [|j]; [vm_compute; split; (lia||congruence)|]); lia|]). lia.
Qed.

Lemma count_ge_bound sizes i : 0 <= count_ge sizes i <= Z.of_nat (length sizes).
Proof. induction sizes; simpl; [lia|]. case_decide; lia. Qed.

Lemma count_ge_none sizes i : Forall (fun a => ¬ size_of_index i <= a) sizes -> count_ge sizes i = 0.
Proof. induction 1; simpl; [done|]. by rewrite decide_False. Qed.

Lemma count_ge_all sizes i : Forall (fun a => size_of_index i <= a) sizes -> count_ge sizes i = Z.of_nat (length sizes).
Proof. induction 1 as [|a sizes Ha _ IH]; [done|]. cbn [count_ge]. rewrite decide_True by done. simpl. lia. Qed.

Lemma count_ge_snoc sizes a i :
  count_ge (sizes ++ [a]) i = count_ge sizes i + (if decide (size_of_index i <= a) then 1 else 0).
Proof. induction sizes as [|b sizes IH]; simpl; [lia|]. rewrite IH. lia. Qed.

Lemma count_ge_nth sizes k a i :
  StronglySorted (fun a b => b <= a) sizes -> sizes !! k = Some a ->
  Z.of_nat k < count_ge sizes i <-> size_of_index i <= a.
Proof.
  intros Hs. revert k. induction Hs as [|x sizes Hs IH Hx]; intros k Hk; [done|].
  cbn [count_ge]. destruct k as [|k]; simplify_eq/=.
  - pose proof (count_ge_bound sizes i). case_decide as Hd; [lia|].
    rewrite count_ge_none; [lia|]. eapply Forall_impl; [done|]. simpl. lia.
  - specialize (IH k Hk). case_decide as Hd; [lia|].
    pose proof (Forall_lookup_1 _ _ _ _ Hx Hk) as Hle. simpl in Hle.
    assert (count_ge sizes i = 0); [|lia].
    apply count_ge_none. eapply Forall_impl; [done|]. simpl. lia.
Qed.

(** The boundary array with the columns [pre] counted and class [idx] open. *)
Definition bvec (idx : nat) (pre : list Z) : list Z :=
  (fun i => if decide (i <= idx)%nat then count_ge pre i else 0) <$> [0; 1; 2; 3]%nat.

Definition above (idx : nat) (pre : list Z) : Prop := Forall (fun a => size_of_index idx <= a) pre.

Lemma above_mono i j pre : (i <= j <= 4)%nat -> above i pre -> above j pre.
Proof.
  intros Hij H. eapply Forall_impl; [exact H|]. intros a Ha. simpl in *.
  pose proof (size_of_index_lt i j ltac:(lia) ltac:(lia)). lia.
Qed.

(** Closing class [idx] carries its boundary over to the next class. *)
Lemma bvec_advance idx pre :
  (idx < 4)%nat -> above idx pre ->
  (if decide (idx < NUM_ATTR_BOUNDARIES - 1)%nat
   then <[S idx := bvec idx pre !!! idx]> (bvec idx pre) else bvec idx pre) = bvec (S idx) pre.
Proof.
  intros Hi Ha.
  assert (forall j, (idx <= j <= 4)%nat -> count_ge pre j = Z.of_nat (length pre)) as Hall.
  { intros j Hj. apply count_ge_all. by apply (above_mono idx). }
  do 4 (destruct idx as [|idx]; [unfold bvec; simpl; rewrite ?(Hall 0%nat), ?(Hall 1%nat), ?(Hall 2%nat), ?(Hall 3%nat) by lia; done|]).
  lia.
Qed.

Lemma advance_boundary_spec fuel j idx pre :
  (idx <= j <= 4)%nat -> (j - idx < fuel)%nat -> above idx pre ->
  advance_boundary fuel (size_of_index j) idx (bvec idx pre) = (j, bvec j pre).
Proof.
  revert idx. induction fuel as [|fuel IH]; intros idx Hij Hf Ha; [lia|]. cbn [advance_boundary].
  fold (size_of_index idx). pose proof (size_of_index_lt j idx ltac:(lia) ltac:(lia)) as Hlt.
  case_decide as Hd.
  - rewrite bvec_advance by (lia || done). apply IH; [lia|lia|].
    apply (above_mono idx); [lia|done].
  - assert (idx = j) as -> by lia. done.
Qed.

Lemma bvec_count j pre :
  (j <= 4)%nat -> Z.of_nat (length pre) + 1 < 2 ^ 16 -> above j pre ->
  (if decide (j < NUM_ATTR_BOUNDARIES)%nat then <[j := u16 (bvec j pre !!! j + 1)]> (bvec j pre) else bvec j pre)
  = bvec j (pre ++ [size_of_index j]).
Proof.
  intros Hj Hl Ha. pose proof (count_ge_bound pre j) as Hb.
  assert (forall i, (i <= 4)%nat -> count_ge (pre ++ [size_of_index j]) i =
    count_ge pre i + (if decide (j <= i)%nat then 1 else 0)) as Hsn.
  { intros i Hi. rewrite count_ge_snoc. pose proof (size_of_index_lt j i ltac:(lia) ltac:(lia)) as Hlt.
    repeat case_decide; lia. }
  do 5 (destruct j as [|j]; [unfold bvec; simpl; rewrite ?Hsn by lia; simpl; rewrite ?Z.add_0_r;
    rewrite ?(wrapu_small 16) by (unfold is_uint; lia); done|]). lia.
Qed.

Lemma boundaries_loop_spec sizes idx pre :
  (idx <= 4)%nat -> above idx pre -> Forall (fun a => a <= size_of_index idx) sizes ->
  size_classes sizes -> Z.of_nat (length pre + length sizes) < 2 ^ 16 ->
  exists j, (idx <= j <= 4)%nat /\ boundaries_loop sizes idx (bvec idx pre) = bvec j (pre ++ sizes) /\
    above j (pre ++ sizes).
Proof.
  revert idx pre. induction sizes as [|a sizes IH]; intros idx pre Hi Ha Hle [Hs Hc] Hl.
  { exists idx. by rewrite app_nil_r. }
  apply Forall_cons in Hle as [Hle _]. apply Forall_cons in Hc as [Hc Hcs].
  apply StronglySorted_inv in Hs as [Hs Hx].
  destruct (class_index a Hc) as (j & Hj & ->). simpl in Hl.
  pose proof (size_of_index_lt j idx Hj Hi) as H1. pose proof (size_of_index_lt idx j Hi Hj) as H2.
  cbn [boundaries_loop]. rewrite advance_boundary_spec; [|lia..|done].
  assert (above j pre) as Haj by (apply (above_mono idx); [lia|done]).
  rewrite bvec_count by (lia || done).
  destruct (IH j (pre ++ [size_of_index j])) as (j' & Hj' & E & Hab).
  - done.
  - apply Forall_app. split; [done|]. by constructor.
  - done.
  - done.
  - rewrite length_app. simpl. lia.
  - exists j'. rewrite <-!app_assoc in *. split_and!; [lia|lia|done|done].
Qed.

Lemma crossed_bvec idx sizes k j :
  (j <= idx <= 4)%nat -> (forall i, (i <= 4)%nat -> Z.of_nat k < count_ge sizes i <-> (j <= i)%nat) ->
  crossed (bvec idx sizes) (Z.of_nat k) = j.
Proof.
  intros Hj H.
  pose proof (H 0%nat ltac:(lia)). pose proof (H 1%nat ltac:(lia)).
  pose proof (H 2%nat ltac:(lia)). pose proof (H 3%nat ltac:(lia)).
  unfold bvec. cbn [fmap list_fmap crossed]. repeat case_decide; lia.
Qed.

(** The boundaries computed for a projection whose columns are sorted by
    descending size (as the layout sorts them) recover the size of every column:
    encoding the sizes as four boundaries loses nothing. *)
Theorem attr_size_boundaries_roundtrip (l : BlockLayout) (col_ids : list Z) (k : nat) (col : Z) :
  size_classes (AttrSize l <$> col_ids) -> Z.of_nat (length col_ids) < 2 ^ 15 ->
  col_ids !! k = Some col ->
  AttrSizeFromBoundaries (ComputeAttributeSizeBoundaries l col_ids) (Z.of_nat k) = AttrSize l col.
Proof.
  intros Hsc Hlen Hk. set (sizes := AttrSize l <$> col_ids) in *.
  assert (sizes !! k = Some (AttrSize l col)) as Hsk by (unfold sizes; by rewrite list_lookup_fmap, Hk).
  destruct (boundaries_loop_spec sizes 0 []) as (j & Hj & E & Hab).
  - lia.
  - constructor.
  - eapply Forall_impl; [apply Hsc|]. intros a Ha. destruct (class_index a Ha) as (i & Hi & ->).
    pose proof (size_of_index_lt 0 i ltac:(lia) Hi). lia.
  - done.
  - unfold sizes. rewrite length_fmap. cbn [length Nat.add]. lia.
  - unfold AttrSizeFromBoundaries, ComputeAttributeSizeBoundaries. fold sizes.
    change (replicate NUM_ATTR_BOUNDARIES 0) with (bvec 0 []). rewrite E. cbn [app] in *.
    destruct (class_index (AttrSize l col)) as (i & Hi & Hcol).
    { by eapply (Forall_lookup_1 _ _ _ _ (proj2 Hsc)). }
    pose proof (Forall_lookup_1 _ _ _ _ Hab Hsk) as Hge. simpl in Hge.
    rewrite Hcol in *. pose proof (size_of_index_lt i j Hi ltac:(lia)) as H1.
    rewrite (crossed_bvec j sizes k i).
    + do 5 (destruct i as [|i]; [done|]). lia.
    + lia.
    + intros i' Hi'. rewrite (count_ge_nth sizes k _ i' (proj1 Hsc) Hsk).
      pose proof (size_of_index_lt i i' ltac:(lia) ltac:(lia)). lia.
Qed.

Lemma attr_size_boundaries_roundtrip_witness :
  let l := make [8; VARLEN_COLUMN; 8; 4; 4; 1] in
  AttrSizeFromBoundaries (ComputeAttributeSizeBoundaries l [1; 2; 3; 5]) 2 = 4.
Proof.
  apply (attr_size_boundaries_roundtrip (make [8; VARLEN_COLUMN; 8; 4; 4; 1]) [1; 2; 3; 5] 2 3).
  - assert (AttrSize (make [8; VARLEN_COLUMN; 8; 4; 4; 1]) <$> [1; 2; 3; 5] = [16; 8; 4; 1]) as ->
      by (vm_compute; reflexivity).
    split; [repeat constructor; lia|]. repeat constructor; set_solver.
  - simpl. lia.
  - reflexivity.
Defined.
