(* ===== verification/TupleAccess.v ===== *)
(** * TupleAccessStrategy on the bytes of a block

    The accessors of [storage/tuple_access_strategy.{h,cpp}] and the copy routines
    of [storage/storage_util.cpp] that go through them, over a block as a list of
    [BLOCK_SIZE] bytes.  Header (as the comment in tuple_access_strategy.h draws
    it): data_table 0..8, padding 8..10, layout_version 10..12, insert_head 12..16,
    controller 16..24, ArrowBlockMetadata, attr_offsets, slot bitmap; then the
    columns, each a null bitmap and an array of values.

    The refinement: on a well-formed block these byte operations act as updates of
    one entry of a map from (slot, column) to an optional value ([get_attr]) and of
    one slot's allocation bit; everything else in the block is unchanged. *)

From S2P Require Import Prelude Bitmap Layout.
Import BlockLayout.

Definition rd (mem : list Z) (off n : Z) : list Z := slice (Z.to_nat off) (Z.to_nat n) mem.
Definition wr (mem : list Z) (off : Z) (bs : list Z) : list Z := splice (Z.to_nat off) bs mem.

Section accessors.
Context (l : BlockLayout).

Definition content_off : Z := 24.
Definition insert_head_off : Z := 12.

Definition insert_head_ (mem : list Z) : Z := le_val (rd mem insert_head_off 4).
Definition set_insert_head (mem : list Z) (v : Z) : list Z := wr mem insert_head_off (le_bytes 4 v).

(** [Block::AttrOffsets(layout)[col]] *)
Definition attr_offsets_off : Z := content_off + ArrowBlockMetadata_Size (NumColumns l).
Definition AttrOffset (mem : list Z) (col_id : Z) : Z :=
  le_val (rd mem (attr_offsets_off + 4 * col_id) 4).

(** [Block::SlotAllocationBitmap] *)
Definition slot_bitmap_off : Z := AlignedPtr 8 (attr_offsets_off + 4 * NumColumns l).
Definition bitmap_bytes : Z := RawBitmap.SizeInBytes (num_slots_ l).
Definition SlotAllocationBitmap (mem : list Z) : list Z := rd mem slot_bitmap_off bitmap_bytes.

Definition Allocated (mem : list Z) (slot : Z) : bool :=
  RawConcurrentBitmap.Test (SlotAllocationBitmap mem) slot.

(** [ColumnNullBitmap] and the position of a value, from the stored offset. *)
Definition ColumnNullBitmap (mem : list Z) (col_id : Z) : list Z :=
  rd mem (AttrOffset mem col_id) bitmap_bytes.

Definition value_off (mem : list Z) (slot col_id : Z) : Z :=
  AlignedPtr 8 (AttrOffset mem col_id + bitmap_bytes) + AttrSize l col_id * slot.

Definition flip_null (mem : list Z) (slot col_id : Z) (expected : bool) : list Z :=
  wr mem (AttrOffset mem col_id) (RawConcurrentBitmap.Flip (ColumnNullBitmap mem col_id) slot expected).2.

Definition IsNull (mem : list Z) (slot col_id : Z) : bool :=
  negb (RawConcurrentBitmap.Test (ColumnNullBitmap mem col_id) slot).

Definition SetNull (mem : list Z) (slot col_id : Z) : list Z := flip_null mem slot col_id true.
Definition SetNotNull (mem : list Z) (slot col_id : Z) : list Z := flip_null mem slot col_id false.

(** The bytes [AccessWithNullCheck] points to, [None] for nullptr. *)
Definition AccessWithNullCheck (mem : list Z) (slot col_id : Z) : option (list Z) :=
  if RawConcurrentBitmap.Test (ColumnNullBitmap mem col_id) slot
  then Some (rd mem (value_off mem slot col_id) (AttrSize l col_id)) else None.

(** The block after [AccessForceNotNull] (the pointer is [value_off]). *)
Definition AccessForceNotNull (mem : list Z) (slot col_id : Z) : list Z :=
  if RawConcurrentBitmap.Test (ColumnNullBitmap mem col_id) slot then mem
  else flip_null mem slot col_id false.

(** [StorageUtil::CopyWithNullCheck(from, accessor, to, col_id)] *)
Definition CopyWithNullCheck (from : option (list Z)) (mem : list Z) (slot col_id : Z) : list Z :=
  match from with
  | None => SetNull mem slot col_id
  | Some bytes =>
    let mem := AccessForceNotNull mem slot col_id in
    wr mem (value_off mem slot col_id) (take (Z.to_nat (AttrSize l col_id)) bytes)
  end.

Definition flip_slot (mem : list Z) (slot : Z) (expected : bool) : list Z :=
  wr mem slot_bitmap_off (RawConcurrentBitmap.Flip (SlotAllocationBitmap mem) slot expected).2.

Definition Reallocate (mem : list Z) (slot : Z) : list Z := flip_slot mem slot false.
Definition Deallocate (mem : list Z) (slot : Z) : list Z := flip_slot mem slot true.

(** [Allocate]: the slot handed out, if the block is not full, and the block. *)
Definition Allocate (mem : list Z) : option Z * list Z :=
  let start := GetInsertHead (insert_head_ mem) in
  if decide (start = num_slots_ l) then (None, mem)
  else
    let mem := flip_slot mem start false in
    (Some start, set_insert_head mem (u32 (insert_head_ mem + 1))).

Fixpoint write_offsets (mem : list Z) (i : Z) (offs : list Z) : list Z :=
  match offs with
  | [] => mem
  | o :: offs => write_offsets (wr mem (attr_offsets_off + 4 * i) (le_bytes 4 o)) (i + 1) offs
  end.

Definition zeros (n : Z) : list Z := replicate (Z.to_nat n) 0.

Definition InitializeRawBlock (mem : list Z) (data_table layout_version : Z) : list Z :=
  let mem := wr mem 0 (le_bytes 8 data_table) in
  let mem := wr mem 10 (le_bytes 2 layout_version) in
  let mem := set_insert_head mem 0 in
  let mem := wr mem 16 (zeros 8) in
  let mem := wr mem content_off (zeros (ArrowBlockMetadata_Size (NumColumns l))) in
  let mem := write_offsets mem 0 (column_offsets_ l) in
  let mem := wr mem slot_bitmap_off (RawConcurrentBitmap.UnsafeClear (SlotAllocationBitmap mem) (num_slots_ l)) in
  let c0 := VERSION_POINTER_COLUMN_ID in
  let mem := wr mem (AttrOffset mem c0)
               (RawConcurrentBitmap.UnsafeClear (ColumnNullBitmap mem c0) (num_slots_ l)) in
  wr mem (AlignedPtr 8 (AttrOffset mem c0 + bitmap_bytes)) (zeros (8 * num_slots_ l)).

End accessors.

(** ** Reading and writing memory *)

Lemma length_wr mem off bs : length (wr mem off bs) = length mem.
Proof. apply length_splice. Qed.

Lemma length_rd mem off n :
  0 <= off -> 0 <= n -> off + n <= Z.of_nat (length mem) -> Z.of_nat (length (rd mem off n)) = n.
Proof. intros. unfold rd, slice. rewrite length_take, length_drop. lia. Qed.

Lemma rd_wr_same mem off bs :
  0 <= off -> off + Z.of_nat (length bs) <= Z.of_nat (length mem) ->
  rd (wr mem off bs) off (Z.of_nat (length bs)) = bs.
Proof. intros. unfold rd, wr. rewrite Nat2Z.id. apply slice_splice_same. lia. Qed.

Lemma rd_wr_other mem off bs off' n :
  0 <= off -> 0 <= off' -> 0 <= n -> off + Z.of_nat (length bs) <= Z.of_nat (length mem) ->
  off' + n <= off \/ off + Z.of_nat (length bs) <= off' ->
  rd (wr mem off bs) off' n = rd mem off' n.
Proof. intros. unfold rd, wr. apply slice_splice_other; lia. Qed.

Lemma rd_bytes mem off n : Forall is_byte mem -> Forall is_byte (rd mem off n).
Proof. intros. by apply Forall_take, Forall_drop. Qed.

Lemma wr_bytes mem off bs : Forall is_byte mem -> Forall is_byte bs -> Forall is_byte (wr mem off bs).
Proof.
  intros Hm Hb. unfold wr, splice. rewrite !Forall_app.
  split_and!; [by apply Forall_take|by apply Forall_take|by apply Forall_drop].
Qed.

Lemma Flip_length bits pos e : length (RawConcurrentBitmap.Flip bits pos e).2 = length bits.
Proof. unfold RawConcurrentBitmap.Flip. case_decide; simpl; [apply length_insert|done]. Qed.

Lemma Flip_bytes bits pos e : Forall is_byte bits -> Forall is_byte (RawConcurrentBitmap.Flip bits pos e).2.
Proof.
  intros H. unfold RawConcurrentBitmap.Flip. case_decide; cbn [snd]; [|done].
  apply Forall_insert; [done|]. apply is_uint_lxor; [lia|by apply byte_at_byte|apply wrapu_bound; lia].
Qed.

(** After [Flip pos e] the bit at [pos] is [negb e], whether or not it was already. *)
Lemma Test_Flip_to bits pos q e :
  Forall is_byte bits -> 0 <= pos < 8 * Z.of_nat (length bits) -> 0 <= q ->
  RawConcurrentBitmap.Test (RawConcurrentBitmap.Flip bits pos e).2 q =
    if decide (pos = q) then negb e else RawConcurrentBitmap.Test bits q.
Proof.
  intros Hb Hp Hq. rewrite !concurrent_Test_eq. destruct (decide (RawBitmap.Test bits pos = e)) as [E|E].
  - rewrite concurrent_Flip_true by done. cbn [snd]. rewrite Test_Flip by done.
    case_decide; [subst|]; done.
  - rewrite concurrent_Flip_false by done. cbn [snd]. case_decide; [subst q|done].
    by destruct (RawBitmap.Test bits pos), e.
Qed.

Lemma Allocate_eq l mem :
  GetInsertHead (insert_head_ mem) ≠ num_slots_ l ->
  let mem1 := flip_slot l mem (GetInsertHead (insert_head_ mem)) false in
  Allocate l mem =
    (Some (GetInsertHead (insert_head_ mem)), set_insert_head mem1 (u32 (insert_head_ mem1 + 1))).
Proof. intros H. unfold Allocate. by rewrite decide_False. Qed.

(** ** Well-formed blocks *)

Definition block_ok (l : BlockLayout) (mem : list Z) : Prop :=
  Z.of_nat (length mem) = BLOCK_SIZE /\ Forall is_byte mem /\
  forall c, 0 <= c < NumColumns l -> AttrOffset l mem c = column_offset l c.

Definition valid_attr (l : BlockLayout) (slot col : Z) : Prop :=
  0 <= slot < num_slots_ l /\ 0 <= col < NumColumns l.

Section block.
Context (attr_sizes : list Z).
Hypothesis Hok : sizes_ok attr_sizes.

#[local] Abbreviation l := (make attr_sizes).
#[local] Abbreviation s := (num_slots_ l).
#[local] Abbreviation q := (pad8 (RawBitmap.SizeInBytes s)).
#[local] Abbreviation n := (Z.of_nat (length attr_sizes)).

Lemma NumColumns_make : NumColumns l = n.
Proof. unfold NumColumns. rewrite make_sizes_length. apply num_cols_small, Hok. Qed.

Lemma bitmap_bytes_facts : 0 <= bitmap_bytes l <= q /\ s <= 8 * bitmap_bytes l /\ 0 <= s.
Proof.
  destruct (make_facts _ Hok) as (Hs & _). unfold bitmap_bytes.
  pose proof (SizeInBytes_bounds s ltac:(lia)). pose proof (pad8_bounds (RawBitmap.SizeInBytes s)). lia.
Qed.

Lemma header_facts :
  content_off <= attr_offsets_off l /\ attr_offsets_off l + 4 * n <= slot_bitmap_off l /\
  slot_bitmap_off l + q = header_size_ l /\ header_size_ l <= BLOCK_SIZE.
Proof.
  destruct (num_cols_small _ Hok) as [_ Hn]. destruct (make_facts _ Hok) as (Hs & _ & _ & He).
  pose proof (bitmap_pad s ltac:(lia)) as [_ Hq].
  pose proof (cols_end_le s q (header_size_ l) (attr_sizes_ l) ltac:(lia) Hq) as [Hle _].
  assert (0 <= ArrowBlockMetadata_Size n <= 44 * n + 11) as HA.
  { unfold ArrowBlockMetadata_Size, sizeof_ArrowColumnInfo, MAX_COL in *.
    rewrite (wrapu_small 32 (4 * _)) by (unfold is_uint; lia).
    rewrite PadUpToSize_pad8 by lia. pose proof (pad8_bounds (4 * (n + 1))) as [Hb _].
    rewrite wrapu_small by (unfold is_uint; lia). lia. }
  unfold slot_bitmap_off, attr_offsets_off, content_off. rewrite NumColumns_make.
  unfold MAX_COL in Hn. rewrite AlignedPtr_pad8 by lia.
  pose proof (pad8_bounds (24 + ArrowBlockMetadata_Size n + 4 * n)) as [Hb _].
  split_and!; [lia|lia| |lia].
  rewrite make_header_size by done. f_equal. unfold ComputeStaticHeaderSize.
  rewrite wrapu_small by (unfold is_uint; lia). rewrite PadUpToSize_pad8 by lia. f_equal. lia.
Qed.

(** Where the bytes of column [c] are. *)
Lemma column_facts c :
  0 <= c < NumColumns l ->
  header_size_ l <= column_offset l c /\
  column_offset l c + col_bytes s q (AttrSize l c) <= BLOCK_SIZE /\
  AlignedPtr 8 (column_offset l c + bitmap_bytes l) = column_offset l c + q /\
  AttrSize l c * s <= pad8 (AttrSize l c * s).
Proof.
  rewrite NumColumns_make. intros Hc. destruct (column_region _ Hok c (c + 1) Hc ltac:(lia)) as (H1 & H2 & H3).
  split_and!; [done|lia|apply (ColumnStart_eq _ Hok c Hc)|apply pad8_bounds].
Qed.

Lemma columns_apart c c' :
  0 <= c < NumColumns l -> 0 <= c' < NumColumns l -> c ≠ c' ->
  column_offset l c + col_bytes s q (AttrSize l c) <= column_offset l c' \/
  column_offset l c' + col_bytes s q (AttrSize l c') <= column_offset l c.
Proof.
  rewrite NumColumns_make. intros Hc Hc' Hne. destruct (decide (c < c')); [left|right].
  - destruct (column_region _ Hok c c' Hc ltac:(lia)) as (_ & H & _).
    by rewrite <-(column_offset_eq _ Hok) in H.
  - destruct (column_region _ Hok c' c Hc' ltac:(lia)) as (_ & H & _).
    by rewrite <-(column_offset_eq _ Hok) in H.
Qed.

(** A write behind the header keeps the block well-formed and the header. *)
Lemma body_write mem off bs :
  block_ok l mem -> Forall is_byte bs -> header_size_ l <= off ->
  off + Z.of_nat (length bs) <= BLOCK_SIZE ->
  block_ok l (wr mem off bs) /\ insert_head_ (wr mem off bs) = insert_head_ mem /\
  SlotAllocationBitmap l (wr mem off bs) = SlotAllocationBitmap l mem.
Proof.
  intros (Hl & Hb & Ho) Hbs Hoff Hend. pose proof header_facts as (H1 & H2 & H3 & H4). unfold content_off in H1.
  pose proof bitmap_bytes_facts as (HB & _ & _).
  assert (forall o k, 0 <= o -> 0 <= k -> o + k <= header_size_ l -> rd (wr mem off bs) o k = rd mem o k) as Hframe.
  { intros o k Hk0 Hk1 Hk2. apply rd_wr_other; lia. }
  split; [|split].
  - split_and!; [by rewrite length_wr|by apply wr_bytes|]. intros c Hc. rewrite <-(Ho c Hc).
    unfold AttrOffset. rewrite NumColumns_make in Hc. rewrite Hframe; [done|lia..].
  - unfold insert_head_, insert_head_off. rewrite Hframe; [done|lia..].
  - unfold SlotAllocationBitmap. apply Hframe; lia.
Qed.

Lemma ColumnNullBitmap_eq mem c :
  block_ok l mem -> 0 <= c < NumColumns l ->
  ColumnNullBitmap l mem c = rd mem (column_offset l c) (bitmap_bytes l).
Proof. intros (_ & _ & Ho) Hc. unfold ColumnNullBitmap. by rewrite Ho. Qed.

Lemma value_off_eq mem sl c :
  block_ok l mem -> 0 <= c < NumColumns l ->
  value_off l mem sl c = column_offset l c + q + AttrSize l c * sl.
Proof.
  intros (_ & _ & Ho) Hc. unfold value_off. rewrite Ho by done.
  by destruct (column_facts c Hc) as (_ & _ & -> & _).
Qed.

Lemma null_bitmap_facts mem c :
  block_ok l mem -> 0 <= c < NumColumns l ->
  Z.of_nat (length (ColumnNullBitmap l mem c)) = bitmap_bytes l /\ Forall is_byte (ColumnNullBitmap l mem c).
Proof.
  intros Hm Hc. rewrite ColumnNullBitmap_eq by done. pose proof Hm as (Hl & Hb & _).
  destruct (column_facts c Hc) as (H1 & H2 & _ & H4). pose proof bitmap_bytes_facts as (HB & _ & Hs).
  pose proof header_facts as (G1 & G2 & G3 & _). unfold content_off in *. rewrite NumColumns_make in Hc.
  assert (0 <= AttrSize l c) by apply AttrSizeBytes_bound.
  unfold col_bytes in H2. split; [|by apply rd_bytes]. apply length_rd; [lia|lia|]. rewrite Hl. nia.
Qed.

Definition value_bytes (mem : list Z) (sl c : Z) : list Z := rd mem (value_off l mem sl c) (AttrSize l c).

(** Everything the accessors can see of a block, except one column's null bitmap
    and one value. *)
Definition same_view (mem mem' : list Z) (bm_except : option Z) (val_except : option (Z * Z)) : Prop :=
  block_ok l mem' /\ insert_head_ mem' = insert_head_ mem /\
  SlotAllocationBitmap l mem' = SlotAllocationBitmap l mem /\
  (forall c, 0 <= c < NumColumns l -> bm_except ≠ Some c -> ColumnNullBitmap l mem' c = ColumnNullBitmap l mem c) /\
  (forall sl c, valid_attr l sl c -> val_except ≠ Some (sl, c) -> value_bytes mem' sl c = value_bytes mem sl c).

(** Position facts for one attribute, in the form [lia] uses. *)
Lemma attr_pos sl c :
  valid_attr l sl c ->
  0 <= AttrSize l c /\ header_size_ l <= column_offset l c /\ 24 <= header_size_ l /\
  column_offset l c + q + AttrSize l c * sl + AttrSize l c <= column_offset l c + col_bytes s q (AttrSize l c) /\
  column_offset l c + col_bytes s q (AttrSize l c) <= BLOCK_SIZE /\
  0 <= AttrSize l c * sl /\ q <= col_bytes s q (AttrSize l c).
Proof.
  intros [Hsl Hc]. destruct (column_facts c Hc) as (H1 & H2 & _ & H4).
  assert (0 <= AttrSize l c) by apply AttrSizeBytes_bound.
  destruct (make_facts _ Hok) as (_ & _ & Hh & _). unfold col_bytes in *. split_and!; try lia; nia.
Qed.

Lemma flip_null_view mem sl c e :
  block_ok l mem -> valid_attr l sl c ->
  let mem' := flip_null l mem sl c e in
  same_view mem mem' (Some c) None /\
  ColumnNullBitmap l mem' c = (RawConcurrentBitmap.Flip (ColumnNullBitmap l mem c) sl e).2.
Proof.
  intros Hm Hv mem'. pose proof Hv as [Hsl Hc]. pose proof (attr_pos _ _ Hv) as (P1 & P2 & P3 & P4 & P5 & P6 & P7).
  pose proof bitmap_bytes_facts as (HB & _ & _). pose proof (null_bitmap_facts mem c Hm Hc) as [Hbl Hbb].
  set (bm := (RawConcurrentBitmap.Flip (ColumnNullBitmap l mem c) sl e).2) in *.
  assert (Z.of_nat (length bm) = bitmap_bytes l) as Hbm by (unfold bm; by rewrite Flip_length).
  assert (mem' = wr mem (column_offset l c) bm) as Em.
  { unfold mem', flip_null. by rewrite (proj2 (proj2 Hm) c Hc). }
  pose proof Hm as (Hlen & _ & _).
  destruct (body_write mem (column_offset l c) bm Hm) as (Hm' & Hih & Hsa); [by apply Flip_bytes|lia|lia|].
  rewrite <-Em in *. split.
  - split_and!; [done..| |].
    + intros c' Hc' Hne. rewrite !ColumnNullBitmap_eq by done. rewrite Em.
      assert (c' ≠ c) as Hne' by congruence. pose proof (columns_apart c' c Hc' Hc Hne').
      pose proof (attr_pos 0 c') as P'. destruct (column_facts c' Hc') as (Q1 & Q2 & _ & Q4).
      assert (0 <= AttrSize l c') by apply AttrSizeBytes_bound. unfold col_bytes in *.
      apply rd_wr_other; [lia|lia|lia|lia|]. nia.
    + intros sl' c' Hv' _. pose proof Hv' as [Hsl' Hc']. unfold value_bytes. rewrite !value_off_eq by done.
      pose proof (attr_pos _ _ Hv') as (R1 & R2 & R3 & R4 & R5 & R6 & R7). rewrite Em.
      apply rd_wr_other; [lia|lia|lia|lia|].
      destruct (decide (c' = c)) as [->|Hne]; [lia|]. pose proof (columns_apart c' c Hc' Hc Hne). lia.
  - rewrite ColumnNullBitmap_eq by done. rewrite Em, <-Hbm. apply rd_wr_same; lia.
Qed.

Lemma write_value_view mem sl c bs :
  block_ok l mem -> valid_attr l sl c -> Forall is_byte bs -> Z.of_nat (length bs) = AttrSize l c ->
  let mem' := wr mem (value_off l mem sl c) bs in
  same_view mem mem' None (Some (sl, c)) /\ value_bytes mem' sl c = bs.
Proof.
  intros Hm Hv Hbs Hlbs mem'. pose proof Hv as [Hsl Hc]. pose proof (attr_pos _ _ Hv) as (P1 & P2 & P3 & P4 & P5 & P6 & P7).
  pose proof bitmap_bytes_facts as (HB & _ & _). pose proof Hm as (Hlen & _ & _).
  assert (mem' = wr mem (column_offset l c + q + AttrSize l c * sl) bs) as Em
    by (unfold mem'; by rewrite value_off_eq).
  destruct (body_write mem (column_offset l c + q + AttrSize l c * sl) bs Hm Hbs) as (Hm' & Hih & Hsa); [lia|lia|].
  rewrite <-Em in *. split.
  - split_and!; [done..| |].
    + intros c' Hc' _. rewrite !ColumnNullBitmap_eq by done. rewrite Em.
      destruct (column_facts c' Hc') as (Q1 & Q2 & _ & Q4). assert (0 <= AttrSize l c') by apply AttrSizeBytes_bound.
      apply rd_wr_other; [lia|lia|lia|lia|].
      destruct (decide (c' = c)) as [->|Hne]; [lia|]. pose proof (columns_apart c' c Hc' Hc Hne).
      unfold col_bytes in *. nia.
    + intros sl' c' Hv' Hne. pose proof Hv' as [Hsl' Hc']. unfold value_bytes. rewrite !value_off_eq by done.
      pose proof (attr_pos _ _ Hv') as (R1 & R2 & R3 & R4 & R5 & R6 & R7). rewrite Em.
      apply rd_wr_other; [lia|lia|lia|lia|].
      destruct (decide (c' = c)) as [->|Hnc]; [|pose proof (columns_apart c' c Hc' Hc Hnc); lia].
      assert (sl' < sl \/ sl < sl') as [Hs'|Hs'] by (assert (sl' ≠ sl) by congruence; lia); [left|right]; nia.
  - unfold value_bytes. rewrite value_off_eq by done. rewrite Em, <-Hlbs. apply rd_wr_same; lia.
Qed.

Lemma Access_eq mem sl c :
  AccessWithNullCheck l mem sl c =
    if RawConcurrentBitmap.Test (ColumnNullBitmap l mem c) sl then Some (value_bytes mem sl c) else None.
Proof. done. Qed.

(** The view of a block after flipping one null bit, attribute by attribute. *)
Lemma flip_null_access mem sl c e sl' c' :
  block_ok l mem -> valid_attr l sl c -> valid_attr l sl' c' ->
  AccessWithNullCheck l (flip_null l mem sl c e) sl' c' =
    if decide ((sl', c') = (sl, c)) then (if e then None else Some (value_bytes mem sl c))
    else AccessWithNullCheck l mem sl' c'.
Proof.
  intros Hm Hv Hv'. destruct (flip_null_view mem sl c e Hm Hv) as [(_ & _ & _ & Hbm & Hval) Hflip].
  rewrite !Access_eq, Hval by done. pose proof Hv as [Hsl Hc]. pose proof Hv' as [Hsl' Hc'].
  pose proof (null_bitmap_facts mem c Hm Hc) as [Hbl Hbb]. pose proof bitmap_bytes_facts as (_ & HB & _).
  destruct (decide (c' = c)) as [->|Hne].
  - rewrite Hflip, Test_Flip_to by (lia || done).
    destruct (decide (sl = sl')) as [<-|Hs].
    + rewrite decide_True by done. by destruct e.
    + by rewrite decide_False by congruence.
  - rewrite Hbm by congruence. by rewrite decide_False by congruence.
Qed.

Lemma ForceNotNull_access mem sl c :
  block_ok l mem -> valid_attr l sl c ->
  let mem' := AccessForceNotNull l mem sl c in
  block_ok l mem' /\ insert_head_ mem' = insert_head_ mem /\
  SlotAllocationBitmap l mem' = SlotAllocationBitmap l mem /\
  forall sl' c', valid_attr l sl' c' -> AccessWithNullCheck l mem' sl' c' =
    if decide ((sl', c') = (sl, c)) then Some (value_bytes mem sl c) else AccessWithNullCheck l mem sl' c'.
Proof.
  intros Hm Hv. unfold AccessForceNotNull. destruct (RawConcurrentBitmap.Test _ sl) eqn:E; cbv zeta.
  - split_and!; [done..|]. intros sl' c' Hv'. case_decide as Hd; [|done].
    injection Hd as -> ->. rewrite Access_eq, E. done.
  - destruct (flip_null_view mem sl c false Hm Hv) as [(Hm' & Hi & Hs & _ & _) _].
    split_and!; [done..|]. intros sl' c' Hv'. by rewrite flip_null_access.
Qed.

End block.

Lemma version_column_size attr_sizes : attr_sizes !! 0%nat = Some 8 -> AttrSize (make attr_sizes) 0 = 8.
Proof.
  intros H8. unfold AttrSize, attr_size_at, make, sort_sizes. cbn [attr_sizes_].
  destruct attr_sizes; [done|]. injection H8 as ->. done.
Qed.

Section block_alloc.
#[local] Opaque make.
Context (attr_sizes : list Z).
Hypothesis Hok : sizes_ok attr_sizes.
#[local] Abbreviation l := (make attr_sizes).

(** A write inside the header that misses the offset array. *)
Lemma header_write mem off bs :
  block_ok l mem -> Forall is_byte bs -> 0 <= off -> off + Z.of_nat (length bs) <= header_size_ l ->
  off + Z.of_nat (length bs) <= 24 \/ slot_bitmap_off l <= off ->
  block_ok l (wr mem off bs) /\
  forall sl c, valid_attr l sl c -> AccessWithNullCheck l (wr mem off bs) sl c = AccessWithNullCheck l mem sl c.
Proof.
  intros Hm Hbs Hoff Hend Hmiss. pose proof Hm as (Hl & Hb & Ho).
  pose proof (header_facts _ Hok) as (H1 & H2 & H3 & H4). unfold content_off in H1.
  pose proof (bitmap_bytes_facts _ Hok) as (HB & _ & _).
  assert (block_ok l (wr mem off bs)) as Hm'.
  { split_and!; [by rewrite length_wr|by apply wr_bytes|]. intros c Hc. rewrite <-(Ho c Hc).
    unfold AttrOffset. rewrite NumColumns_make in Hc by done. rewrite rd_wr_other; [done|lia..]. }
  split; [done|]. intros sl c Hv. pose proof Hv as [Hsl Hc].
  pose proof (attr_pos _ Hok _ _ Hv) as (P1 & P2 & P3 & P4 & P5 & P6 & P7).
  rewrite !Access_eq by done. unfold value_bytes. rewrite !ColumnNullBitmap_eq, !value_off_eq by done.
  by rewrite !rd_wr_other by lia.
Qed.

Lemma slot_bitmap_facts mem :
  block_ok l mem ->
  Z.of_nat (length (SlotAllocationBitmap l mem)) = bitmap_bytes l /\ Forall is_byte (SlotAllocationBitmap l mem).
Proof.
  intros (Hl & Hb & _). pose proof (header_facts _ Hok) as (H1 & H2 & H3 & H4).
  pose proof (bitmap_bytes_facts _ Hok) as (HB & _ & _). unfold content_off in *.
  split; [|by apply rd_bytes]. apply length_rd; lia.
Qed.

Lemma flip_slot_view mem sl e :
  block_ok l mem -> 0 <= sl < num_slots_ l ->
  let mem' := flip_slot l mem sl e in
  block_ok l mem' /\ insert_head_ mem' = insert_head_ mem /\
  (forall sl', 0 <= sl' < num_slots_ l ->
     Allocated l mem' sl' = if decide (sl = sl') then negb e else Allocated l mem sl') /\
  (forall sl' c, valid_attr l sl' c -> AccessWithNullCheck l mem' sl' c = AccessWithNullCheck l mem sl' c).
Proof.
  intros Hm Hsl mem'. pose proof Hm as (Hl & _ & _). pose proof (slot_bitmap_facts mem Hm) as [Hbl Hbb].
  pose proof (header_facts _ Hok) as (H1 & H2 & H3 & H4). unfold content_off in H1.
  pose proof (bitmap_bytes_facts _ Hok) as (HB & HB' & _).
  set (bm := (RawConcurrentBitmap.Flip (SlotAllocationBitmap l mem) sl e).2) in *.
  assert (Z.of_nat (length bm) = bitmap_bytes l) as Hbm by (unfold bm; by rewrite Flip_length).
  assert (mem' = wr mem (slot_bitmap_off l) bm) as Em by done.
  destruct (header_write mem (slot_bitmap_off l) bm Hm) as [Hm' Hacc]; [by apply Flip_bytes|lia|lia|lia|].
  rewrite <-Em in *. split_and!; [done| | |done].
  - unfold insert_head_, insert_head_off. rewrite Em, rd_wr_other by lia. done.
  - intros sl' Hsl'. unfold Allocated.
    assert (SlotAllocationBitmap l mem' = bm) as ->.
    { unfold SlotAllocationBitmap. rewrite Em, <-Hbm. apply rd_wr_same; lia. }
    unfold bm. by rewrite Test_Flip_to by (lia || done).
Qed.

Lemma set_insert_head_view mem v :
  block_ok l mem ->
  let mem' := set_insert_head mem v in
  block_ok l mem' /\ insert_head_ mem' = u32 v /\ SlotAllocationBitmap l mem' = SlotAllocationBitmap l mem /\
  (forall sl' c, valid_attr l sl' c -> AccessWithNullCheck l mem' sl' c = AccessWithNullCheck l mem sl' c).
Proof.
  intros Hm mem'. pose proof Hm as (Hl & _ & _).
  pose proof (header_facts _ Hok) as (H1 & H2 & H3 & H4). unfold content_off in H1.
  pose proof (bitmap_bytes_facts _ Hok) as (HB & _ & _). pose proof (length_le_bytes 4 v) as HL.
  destruct (header_write mem insert_head_off (le_bytes 4 v) Hm) as [Hm' Hacc];
    [apply le_bytes_byte|unfold insert_head_off; lia..|].
  split_and!; [done| | |done].
  - unfold insert_head_, mem', set_insert_head. change 4 with (Z.of_nat 4) at 1. rewrite <-HL at 2.
    rewrite rd_wr_same by (unfold insert_head_off; lia). by rewrite le_val_bytes.
  - unfold SlotAllocationBitmap, mem', set_insert_head. apply rd_wr_other; unfold insert_head_off; lia.
Qed.

Lemma CopyWithNullCheck_view mem from sl c :
  block_ok l mem -> valid_attr l sl c ->
  (forall bytes, from = Some bytes -> Forall is_byte bytes /\ Z.of_nat (length bytes) = AttrSize l c) ->
  let mem' := CopyWithNullCheck l from mem sl c in
  block_ok l mem' /\ insert_head_ mem' = insert_head_ mem /\
  (forall sl', Allocated l mem' sl' = Allocated l mem sl') /\
  forall sl' c', valid_attr l sl' c' ->
    AccessWithNullCheck l mem' sl' c' =
      if decide ((sl', c') = (sl, c)) then from else AccessWithNullCheck l mem sl' c'.
Proof.
  intros Hm Hv Hfrom. unfold CopyWithNullCheck, Allocated. destruct from as [bytes|]; cbv zeta.
  - destruct (Hfrom bytes eq_refl) as [Hb Hlen]. rewrite take_ge by lia.
    destruct (ForceNotNull_access _ Hok mem sl c Hm Hv) as (Hm1 & Hi1 & Hs1 & Ha1).
    set (mem1 := AccessForceNotNull l mem sl c) in *.
    destruct (write_value_view _ Hok mem1 sl c bytes Hm1 Hv Hb Hlen) as [(Hm2 & Hi2 & Hs2 & Hbm & Hval) Hnew].
    split_and!; [done|congruence|intros; by rewrite Hs2, Hs1|].
    intros sl' c' Hv'. specialize (Ha1 sl' c' Hv'). rewrite Access_eq in Ha1 |- *. rewrite Hbm by (apply Hv' || done).
    destruct (decide ((sl', c') = (sl, c))) as [Hd|Hd].
    + injection Hd as -> ->. rewrite Hnew. by destruct (RawConcurrentBitmap.Test _ _).
    + rewrite Hval; [done|done|]. intros [= <- <-]. by apply Hd.
  - destruct (flip_null_view _ Hok mem sl c true Hm Hv) as [(Hm' & Hi & Hs & _ & _) _].
    split_and!; [done|done|intros; unfold SetNull; by rewrite Hs|].
    intros sl' c' Hv'. unfold SetNull. by rewrite flip_null_access.
Qed.

Lemma GetInsertHead_mod h : GetInsertHead h = h `mod` 2 ^ 31.
Proof. unfold GetInsertHead. change INT32_MAX with (Z.ones 31). rewrite Z.land_comm. apply Z.land_ones. lia. Qed.

Lemma insert_head_range mem : Forall is_byte mem -> 0 <= insert_head_ mem < 2 ^ 32.
Proof.
  intros Hb. unfold insert_head_.
  pose proof (rd_bytes mem insert_head_off 4 Hb) as Hr. pose proof (le_val_bound _ Hr) as Hv.
  assert (length (rd mem insert_head_off 4) <= 4)%nat.
  { unfold rd, slice. rewrite length_take. lia. }
  assert (2 ^ (8 * Z.of_nat (length (rd mem insert_head_off 4))) <= 2 ^ 32); [|lia].
  apply Z.pow_le_mono_r; lia.
Qed.

Lemma GetInsertHead_succ h n :
  0 <= h < 2 ^ 32 -> GetInsertHead h < n -> n < 2 ^ 23 ->
  0 <= GetInsertHead h /\ u32 (u32 (h + 1)) = h + 1 /\ GetInsertHead (h + 1) = GetInsertHead h + 1.
Proof.
  rewrite !GetInsertHead_mod. intros Hh Hlt Hn.
  pose proof (Z.mod_pos_bound h (2 ^ 31) ltac:(lia)) as Hp.
  pose proof (Z.div_mod h (2 ^ 31) ltac:(lia)) as Hd.
  assert (h `div` 2 ^ 31 < 2) by (apply Z.div_lt_upper_bound; lia).
  split_and!; [lia| |].
  - rewrite (wrapu_small 32 (h + 1)), wrapu_small; unfold is_uint; lia.
  - rewrite <-Zplus_mod_idemp_l. apply Z.mod_small. lia.
Qed.

Lemma Allocate_view mem :
  block_ok l mem -> GetInsertHead (insert_head_ mem) < num_slots_ l ->
  let head := GetInsertHead (insert_head_ mem) in
  exists mem', Allocate l mem = (Some head, mem') /\ block_ok l mem' /\
    insert_head_ mem' = insert_head_ mem + 1 /\ GetInsertHead (insert_head_ mem') = head + 1 /\
    (forall sl, 0 <= sl < num_slots_ l ->
      Allocated l mem' sl = if decide (head = sl) then true else Allocated l mem sl) /\
    (forall sl c, valid_attr l sl c -> AccessWithNullCheck l mem' sl c = AccessWithNullCheck l mem sl c).
Proof.
  intros Hm Hlt. destruct (make_facts _ Hok) as (Hs & _). pose proof Hm as (_ & Hb & _).
  destruct (GetInsertHead_succ _ _ (insert_head_range mem Hb) Hlt ltac:(lia)) as (H0 & H1 & H2).
  pose proof (Allocate_eq l mem ltac:(lia)) as HA. cbv zeta in HA.
  destruct (flip_slot_view mem _ false Hm (conj H0 Hlt)) as (Hm1 & Hi1 & Ha1 & Hv1).
  revert HA Hm1 Hi1 Ha1 Hv1. generalize (flip_slot l mem (GetInsertHead (insert_head_ mem)) false).
  intros mem1 HA Hm1 Hi1 Ha1 Hv1. rewrite Hi1 in HA.
  destruct (set_insert_head_view mem1 (u32 (insert_head_ mem + 1)) Hm1) as (Hm2 & Hi2 & Hs2 & Hv2).
  eexists. split; [exact HA|]. rewrite Hi2, H1. split_and!; [done|done|done| |].
  - intros sl Hsl. transitivity (Allocated l mem1 sl); [unfold Allocated; by rewrite Hs2|].
    rewrite (Ha1 sl Hsl). by destruct (decide _).
  - intros sl c Hv. by rewrite Hv2, Hv1.
Qed.

(** *** Initialisation *)

Lemma write_offsets_spec offs : forall mem i,
  0 <= i -> Forall (is_uint 32) offs -> Forall is_byte mem ->
  attr_offsets_off l + 4 * (i + Z.of_nat (length offs)) <= Z.of_nat (length mem) ->
  let mem' := write_offsets l mem i offs in
  length mem' = length mem /\ Forall is_byte mem' /\
  (forall o k, 0 <= o -> 0 <= k -> o + k <= attr_offsets_off l + 4 * i -> rd mem' o k = rd mem o k) /\
  forall k o, offs !! k = Some o -> AttrOffset l mem' (i + Z.of_nat k) = o.
Proof.
  pose proof (header_facts _ Hok) as (H1 & _). unfold content_off in H1.
  induction offs as [|o offs IH]; intros mem i Hi Hu Hb Hlen; cbn [write_offsets length] in *.
  { split_and!; done. }
  inversion_clear Hu as [|?? Ho Hu']. pose proof (length_le_bytes 4 o) as HL.
  set (mem1 := wr mem (attr_offsets_off l + 4 * i) (le_bytes 4 o)) in *.
  assert (length mem1 = length mem) as Hl1 by apply length_wr.
  destruct (IH mem1 (i + 1)) as (IL & IB & IF & IO); [lia|done| |lia|].
  { apply wr_bytes; [done|apply le_bytes_byte]. }
  split_and!; [by rewrite IL|done| |].
  - intros o' k Ho' Hk Hle. rewrite IF by lia. apply rd_wr_other; lia.
  - intros [|k] o' Hk; cbn in Hk.
    + injection Hk as <-. rewrite Z.add_0_r. unfold AttrOffset. rewrite IF by lia.
      replace (rd mem1 _ 4) with (le_bytes 4 o).
      { rewrite le_val_bytes. by apply wrapu_small. }
      pose proof (rd_wr_same mem (attr_offsets_off l + 4 * i) (le_bytes 4 o)) as Hrw.
      rewrite HL in Hrw. symmetry. apply Hrw; lia.
    + replace (i + Z.of_nat (S k)) with (i + 1 + Z.of_nat k) by lia. by apply IO.
Qed.

Lemma zeros_bytes n : Forall is_byte (zeros n).
Proof. apply Forall_replicate. unfold is_byte, is_uint. lia. Qed.

Lemma UnsafeClear_bytes bits num_bits : Forall is_byte bits -> Forall is_byte (RawConcurrentBitmap.UnsafeClear bits num_bits).
Proof. intros. apply (wr_bytes bits 0); [done|]. apply zeros_bytes. Qed.

Lemma length_UnsafeClear bits num_bits : length (RawConcurrentBitmap.UnsafeClear bits num_bits) = length bits.
Proof. apply length_splice. Qed.

Lemma offsets_fit : Forall (is_uint 32) (column_offsets_ l).
Proof.
  apply Forall_lookup. intros k o Ho.
  assert (Z.of_nat k < NumColumns l) as Hk.
  { rewrite NumColumns_make by done. pose proof (lookup_lt_Some _ _ _ Ho) as Hlt.
    unfold column_offsets_ in Hlt. rewrite (offsets_eq _ Hok) in Hlt. cbn [fst] in Hlt.
    rewrite length_imap, make_sizes_length in Hlt. lia. }
  destruct (column_facts _ Hok (Z.of_nat k)) as (Hf & Hg & _ & Hpad); [lia|].
  unfold column_offset in Hf, Hg. rewrite Nat2Z.id, Ho in Hf, Hg. cbn [default from_option] in Hf, Hg. unfold id in *.
  destruct (make_facts _ Hok) as (Hs & _ & Hh & _).
  pose proof (bitmap_bytes_facts _ Hok). assert (0 <= AttrSize l (Z.of_nat k)) by apply AttrSizeBytes_bound.
  assert (0 <= AttrSize l (Z.of_nat k) * num_slots_ l) by nia.
  unfold is_uint, col_bytes in *. change BLOCK_SIZE with 1048576 in *. lia.
Qed.

(** The block after the header has been set up, before the bitmaps are cleared. *)
Lemma init_header_view mem data_table layout_version :
  Z.of_nat (length mem) = BLOCK_SIZE -> Forall is_byte mem ->
  let mem := wr mem 0 (le_bytes 8 data_table) in
  let mem := wr mem 10 (le_bytes 2 layout_version) in
  let mem := set_insert_head mem 0 in
  let mem := wr mem 16 (zeros 8) in
  let mem := wr mem content_off (zeros (ArrowBlockMetadata_Size (NumColumns l))) in
  let mem := write_offsets l mem 0 (column_offsets_ l) in
  block_ok l mem /\ insert_head_ mem = 0.
Proof.
  intros Hl Hb. cbv zeta.
  pose proof (header_facts _ Hok) as (H1 & H2 & H3 & H4). pose proof (bitmap_bytes_facts _ Hok) as (HB & _ & _).
  assert (length (column_offsets_ l) = length attr_sizes) as Hn.
  { unfold column_offsets_. rewrite (offsets_eq _ Hok). cbn [fst]. by rewrite length_imap, make_sizes_length. }
  set (A := ArrowBlockMetadata_Size (NumColumns l)). assert (attr_offsets_off l = content_off + A) as HA by done.
  set (m3 := set_insert_head _ 0). set (m5 := wr (wr m3 16 (zeros 8)) content_off (zeros A)).
  assert (length m3 = length mem) as L3 by (unfold m3, set_insert_head; by rewrite !length_wr).
  assert (length m5 = length mem) as L5 by (unfold m5; by rewrite !length_wr).
  assert (Forall is_byte m5) as B5.
  { unfold m5, m3, set_insert_head. repeat apply wr_bytes; (done || apply le_bytes_byte || apply zeros_bytes). }
  assert (Z.of_nat (length (zeros A)) = A) as LA by (unfold zeros; rewrite length_replicate; lia).
  destruct (write_offsets_spec (column_offsets_ l) m5 0) as (WL & WB & WF & WO);
    [lia|apply offsets_fit|done|lia|].
  unfold content_off in *. split; [split_and!; [lia|done|]|].
  - intros c Hc. rewrite NumColumns_make in Hc by done.
    destruct (lookup_lt_is_Some_2 (column_offsets_ l) (Z.to_nat c)) as [o Ho]; [lia|].
    replace c with (0 + Z.of_nat (Z.to_nat c)) at 1 by lia. rewrite (WO _ _ Ho).
    unfold column_offset. by rewrite Ho.
  - unfold insert_head_ at 1, insert_head_off. rewrite WF by lia. unfold m5.
    rewrite !rd_wr_other; rewrite ?length_wr, ?L3, ?LA; try lia; [|change (length (zeros 8)) with 8%nat; lia..].
    unfold m3, set_insert_head, insert_head_off.
    match goal with |- context [wr ?m 12 _] => pose proof (rd_wr_same m 12 (le_bytes 4 0)) as Hrw end.
    change (Z.of_nat (length (le_bytes 4 0))) with 4 in Hrw. rewrite Hrw; [done|lia|]. rewrite !length_wr.
    change BLOCK_SIZE with 1048576 in Hl. lia.
Qed.

Lemma Test_UnsafeClear bits num_bits k :
  0 <= k < num_bits -> num_bits <= 8 * Z.of_nat (length bits) ->
  RawConcurrentBitmap.Test (RawConcurrentBitmap.UnsafeClear bits num_bits) k = false.
Proof. intros Hk Hn. rewrite concurrent_Test_eq. by apply Test_clear. Qed.

Lemma rd_wr_inside mem off bs k n :
  0 <= off -> 0 <= k -> 0 <= n -> k + n <= Z.of_nat (length bs) ->
  off + Z.of_nat (length bs) <= Z.of_nat (length mem) ->
  rd (wr mem off bs) (off + k) n = slice (Z.to_nat k) (Z.to_nat n) bs.
Proof.
  intros. rewrite <-(rd_wr_same mem off bs) at 2 by lia. unfold rd, slice. rewrite !Nat2Z.id.
  apply list_eq. intros j. destruct (decide (j < Z.to_nat n)%nat); [|by rewrite !lookup_take_ge by lia].
  rewrite !lookup_take_lt, !lookup_drop, lookup_take_lt, lookup_drop by lia. f_equal. lia.
Qed.

Lemma init_bitmaps_view mem :
  attr_sizes !! 0%nat = Some 8 -> block_ok l mem -> insert_head_ mem = 0 ->
  let mem := wr mem (slot_bitmap_off l) (RawConcurrentBitmap.UnsafeClear (SlotAllocationBitmap l mem) (num_slots_ l)) in
  let mem := wr mem (AttrOffset l mem 0) (RawConcurrentBitmap.UnsafeClear (ColumnNullBitmap l mem 0) (num_slots_ l)) in
  let mem := wr mem (AlignedPtr 8 (AttrOffset l mem 0 + bitmap_bytes l)) (zeros (8 * num_slots_ l)) in
  block_ok l mem /\ insert_head_ mem = 0 /\
  forall sl, 0 <= sl < num_slots_ l ->
    Allocated l mem sl = false /\ IsNull l mem sl 0 = true /\
    rd mem (value_off l mem sl 0) 8 = zeros 8.
Proof.
  intros H8 Hm Hi. cbv zeta. pose proof Hm as (Hl & Hb & Ho).
  pose proof (header_facts _ Hok) as (H1 & H2 & H3 & H4). unfold content_off in H1.
  pose proof (bitmap_bytes_facts _ Hok) as (HB & HB' & Hs0).
  pose proof (slot_bitmap_facts mem Hm) as [Hsl Hsb].
  assert (0 <= 0 < NumColumns l) as H0 by (rewrite NumColumns_make by done; destruct Hok; lia).
  pose proof (version_column_size _ H8) as Ha.
  pose proof (column_facts _ Hok 0 H0) as (C1 & C2 & C3 & C4). rewrite Ha in C2, C4. unfold col_bytes in C2.
  set (bm := RawConcurrentBitmap.UnsafeClear _ _).
  assert (Z.of_nat (length bm) = bitmap_bytes l) as Lbm by (unfold bm; by rewrite length_UnsafeClear).
  assert (Forall is_byte bm) as Bbm by by apply UnsafeClear_bytes.
  destruct (header_write mem (slot_bitmap_off l) bm Hm Bbm) as [Hm1 _]; [lia..|].
  assert (insert_head_ (wr mem (slot_bitmap_off l) bm) = 0) as Hi1.
  { rewrite <-Hi. unfold insert_head_, insert_head_off. rewrite rd_wr_other by lia. done. }
  assert (SlotAllocationBitmap l (wr mem (slot_bitmap_off l) bm) = bm) as Hb1.
  { unfold SlotAllocationBitmap. rewrite <-Lbm. apply rd_wr_same; lia. }
  revert Hm1 Hi1 Hb1. generalize (wr mem (slot_bitmap_off l) bm). intros mem1 Hm1 Hi1 Hb1.
  rewrite (ColumnNullBitmap_eq _ _ _ Hm1 H0), (proj2 (proj2 Hm1) 0 H0).
  set (nb := RawConcurrentBitmap.UnsafeClear (rd mem1 _ _) _).
  assert (Z.of_nat (length (rd mem1 (column_offset l 0) (bitmap_bytes l))) = bitmap_bytes l) as Lrd.
  { apply length_rd; destruct Hm1; lia. }
  assert (Z.of_nat (length nb) = bitmap_bytes l) as Lnb by (unfold nb; by rewrite length_UnsafeClear).
  destruct (body_write _ Hok mem1 (column_offset l 0) nb Hm1) as (Hm2 & Hi2 & Hs2);
    [apply UnsafeClear_bytes, rd_bytes, Hm1|lia|lia|].
  assert (rd (wr mem1 (column_offset l 0) nb) (column_offset l 0) (bitmap_bytes l) = nb) as Hn2.
  { rewrite <-Lnb. apply rd_wr_same; destruct Hm1; lia. }
  revert Hm2 Hi2 Hs2 Hn2. generalize (wr mem1 (column_offset l 0) nb). intros mem2 Hm2 Hi2 Hs2 Hn2.
  rewrite (proj2 (proj2 Hm2) 0 H0), C3.
  assert (Z.of_nat (length (zeros (8 * num_slots_ l))) = 8 * num_slots_ l) as Lz.
  { unfold zeros. rewrite length_replicate. lia. }
  destruct (body_write _ Hok mem2 (column_offset l 0 + pad8 (RawBitmap.SizeInBytes (num_slots_ l)))
    (zeros (8 * num_slots_ l)) Hm2) as (Hm3 & Hi3 & Hs3); [apply zeros_bytes|lia|lia|].
  split; [done|]. split; [congruence|]. intros sl Hr. split_and!.
  - unfold Allocated. rewrite Hs3, Hs2, Hb1. apply Test_UnsafeClear; lia.
  - unfold IsNull. rewrite (ColumnNullBitmap_eq _ _ _ Hm3 H0), rd_wr_other, Hn2 by (destruct Hm2; lia).
    unfold nb. rewrite Test_UnsafeClear by lia. done.
  - rewrite (value_off_eq _ Hok) by done. rewrite C3 || idtac. rewrite Ha.
    rewrite rd_wr_inside by (destruct Hm2; lia). unfold slice, zeros. rewrite drop_replicate, take_replicate.
    f_equal. lia.
Qed.

Lemma InitializeRawBlock_view mem data_table layout_version :
  attr_sizes !! 0%nat = Some 8 -> Z.of_nat (length mem) = BLOCK_SIZE -> Forall is_byte mem ->
  let mem' := InitializeRawBlock l mem data_table layout_version in
  block_ok l mem' /\ insert_head_ mem' = 0 /\
  forall sl, 0 <= sl < num_slots_ l ->
    Allocated l mem' sl = false /\ IsNull l mem' sl VERSION_POINTER_COLUMN_ID = true /\
    rd mem' (value_off l mem' sl VERSION_POINTER_COLUMN_ID) 8 = zeros 8.
Proof.
  intros H8 Hl Hb. destruct (init_header_view mem data_table layout_version Hl Hb) as [Hm Hi].
  unfold InitializeRawBlock. cbv zeta in *. by apply init_bitmaps_view.
Qed.

End block_alloc.

(** A fresh block of an (8, 8)-byte table, for the witnesses. *)
Definition fresh_block : list Z := InitializeRawBlock (make [8; 8]) (zeros BLOCK_SIZE) 0 0.

Lemma fresh_sizes_ok : sizes_ok [8; 8].
Proof. split_and!; [simpl; lia|unfold MAX_COL; simpl; lia|]. repeat constructor; lia. Qed.

Lemma zeros_block : Z.of_nat (length (zeros BLOCK_SIZE)) = BLOCK_SIZE.
Proof. unfold zeros. rewrite length_replicate. unfold BLOCK_SIZE. apply Z2Nat.id. done. Qed.

Lemma fresh_block_ok : block_ok (make [8; 8]) fresh_block /\ insert_head_ fresh_block = 0.
Proof.
  destruct (InitializeRawBlock_view [8; 8] fresh_sizes_ok (zeros BLOCK_SIZE) 0 0) as (H1 & H2 & _);
    [done|apply zeros_block|apply zeros_bytes|]. split; [exact H1|exact H2].
Qed.

Lemma fresh_valid : valid_attr (make [8; 8]) 3 1.
Proof. split; split; vm_compute; congruence. Qed.

(** ** Theorems *)

(** C23: copying an optional value into an attribute of a well-formed block is an
    update of one entry of the map from (slot, column) to optional values: the
    attribute reads back as given (null for [None]), every other attribute, the
    slot allocation bits and the insert head are unchanged, and the block stays
    well-formed. *)
Theorem CopyWithNullCheck_refines (attr_sizes : list Z) (mem : list Z) (from : option (list Z)) (sl c : Z) :
  let l := make attr_sizes in
  sizes_ok attr_sizes -> block_ok l mem -> valid_attr l sl c ->
  (forall bytes, from = Some bytes -> Forall is_byte bytes /\ Z.of_nat (length bytes) = AttrSize l c) ->
  let mem' := CopyWithNullCheck l from mem sl c in
  block_ok l mem' /\ insert_head_ mem' = insert_head_ mem /\
  (forall sl', Allocated l mem' sl' = Allocated l mem sl') /\
  forall sl' c', valid_attr l sl' c' ->
    AccessWithNullCheck l mem' sl' c' =
      if decide ((sl', c') = (sl, c)) then from else AccessWithNullCheck l mem sl' c'.
Proof. intros l Hok Hm Hv Hfrom. by apply CopyWithNullCheck_view. Qed.

Lemma CopyWithNullCheck_refines_witness :
  let l := make [8; 8] in
  let mem' := CopyWithNullCheck l (Some (le_bytes 8 42)) fresh_block 3 1 in
  block_ok l mem' /\ insert_head_ mem' = insert_head_ fresh_block /\
  (forall sl', Allocated l mem' sl' = Allocated l fresh_block sl') /\
  forall sl' c', valid_attr l sl' c' ->
    AccessWithNullCheck l mem' sl' c' =
      if decide ((sl', c') = (3, 1)) then Some (le_bytes 8 42) else AccessWithNullCheck l fresh_block sl' c'.
Proof.
  apply (CopyWithNullCheck_refines [8; 8] fresh_block (Some (le_bytes 8 42)) 3 1).
  - apply fresh_sizes_ok.
  - apply fresh_block_ok.
  - apply fresh_valid.
  - intros bytes [= <-]. split; [apply le_bytes_byte|vm_compute; reflexivity].
Defined.

(** Allocation on a well-formed block whose insert head (busy bit aside) is at
    most the number of slots: a full block is refused untouched; otherwise the slot
    at the insert head is handed out, its allocation bit is set and every other one
    kept, the insert head moves up by one with the busy bit kept, and no attribute
    changes. *)
Theorem Allocate_refines (attr_sizes : list Z) (mem : list Z) :
  let l := make attr_sizes in
  let head := GetInsertHead (insert_head_ mem) in
  sizes_ok attr_sizes -> block_ok l mem -> head <= num_slots_ l ->
  (head = num_slots_ l -> Allocate l mem = (None, mem)) /\
  (head < num_slots_ l ->
   exists mem', Allocate l mem = (Some head, mem') /\ block_ok l mem' /\
    insert_head_ mem' = insert_head_ mem + 1 /\ GetInsertHead (insert_head_ mem') = head + 1 /\
    (forall sl, 0 <= sl < num_slots_ l ->
      Allocated l mem' sl = if decide (head = sl) then true else Allocated l mem sl) /\
    (forall sl c, valid_attr l sl c -> AccessWithNullCheck l mem' sl c = AccessWithNullCheck l mem sl c)).
Proof.
  intros l head Hok Hm Hle. split; [|by apply Allocate_view].
  intros E. unfold Allocate. fold head. by rewrite decide_True.
Qed.

Lemma Allocate_refines_witness :
  let l := make [8; 8] in
  exists mem', Allocate l fresh_block = (Some 0, mem') /\ block_ok l mem' /\ insert_head_ mem' = 1 /\
    Allocated l mem' 0 = true.
Proof.
  destruct fresh_block_ok as [Hm Hi].
  assert (GetInsertHead (insert_head_ fresh_block) = 0) as H0 by (rewrite Hi; reflexivity).
  assert (0 < num_slots_ (make [8; 8])) as Hs by (vm_compute; congruence).
  destruct (Allocate_refines [8; 8] fresh_block fresh_sizes_ok Hm) as [_ HA]; [rewrite H0; apply Z.lt_le_incl, Hs|].
  cbv zeta in HA. rewrite H0, Hi in HA. destruct (HA Hs) as (mem' & H1 & H2 & H3 & _ & H5 & _).
  exists mem'. split_and!; [exact H1|exact H2|exact H3|]. rewrite (H5 0 (conj (Z.le_refl 0) Hs)).
  by rewrite decide_True.
Defined.

(** Initialising any block-sized memory for a table whose first column is the
    8-byte version pointer gives a well-formed block with insert head 0, in which no
    slot is allocated and every version pointer is null, bits and bytes. *)
Theorem InitializeRawBlock_empty (attr_sizes : list Z) (mem : list Z) (data_table layout_version : Z) :
  let l := make attr_sizes in
  sizes_ok attr_sizes -> attr_sizes !! 0%nat = Some 8 ->
  Z.of_nat (length mem) = BLOCK_SIZE -> Forall is_byte mem ->
  let mem' := InitializeRawBlock l mem data_table layout_version in
  block_ok l mem' /\ insert_head_ mem' = 0 /\
  forall sl, 0 <= sl < num_slots_ l ->
    Allocated l mem' sl = false /\ IsNull l mem' sl VERSION_POINTER_COLUMN_ID = true /\
    rd mem' (value_off l mem' sl VERSION_POINTER_COLUMN_ID) 8 = zeros 8.
Proof. intros l Hok. by apply InitializeRawBlock_view. Qed.

Lemma InitializeRawBlock_empty_witness :
  let l := make [8; 8] in
  let mem' := InitializeRawBlock l (zeros BLOCK_SIZE) 0 0 in
  block_ok l mem' /\ insert_head_ mem' = 0 /\
  forall sl, 0 <= sl < num_slots_ l ->
    Allocated l mem' sl = false /\ IsNull l mem' sl VERSION_POINTER_COLUMN_ID = true /\
    rd mem' (value_off l mem' sl VERSION_POINTER_COLUMN_ID) 8 = zeros 8.
Proof.
  apply (InitializeRawBlock_empty [8; 8] (zeros BLOCK_SIZE) 0 0).
  - apply fresh_sizes_ok.
  - reflexivity.
  - apply zeros_block.
  - apply zeros_bytes.
Defined.
