(* ===== verification/ProjectedRow.v ===== *)
(** * Projected rows

    [storage/projected_row.{h,cpp}]: [ProjectedRowInitializer] computes where the
    column ids, the value offsets, the null bitmap and the values of a partial row go,
    and [ProjectedRow] accesses them through the offsets stored in the row.  A row is
    the list of bytes from its (8-aligned) start.

    The refinement: the accessors of an initialised row act as updates of one entry of
    a list of optional values. *)

From S2P Require Import Prelude Bitmap Layout TupleAccess.

(** ** ProjectedRowInitializer *)

Module ProjectedRowInitializer.

Record ProjectedRowInitializer := Initializer { size_ : Z; col_ids_ : list Z; offsets_ : list Z }.

(** [sizeof(ProjectedRow)], packed. *)
Definition sizeof_ProjectedRow : Z := 6.

Definition first_alignment (attr_sizes : list Z) : Z := u16 (Z.min (attr_sizes !!! 0%nat) 8).

(** The loop over the columns: the offsets and the size after the last value. *)
Fixpoint value_offsets (size : Z) (attr_sizes : list Z) : list Z * Z :=
  match attr_sizes with
  | [] => ([], size)
  | s :: rest =>
    let next_alignment := u16 (match rest with [] => 8 | s' :: _ => Z.min s' 8 end) in
    let '(offsets, total) := value_offsets (PadUpToSize next_alignment (u32 (size + s))) rest in
    (size :: offsets, total)
  end.

(** Where the values start. *)
Definition header_size (attr_sizes : list Z) (num_cols : Z) : Z :=
  let size := PadUpToSize 4 (u32 (sizeof_ProjectedRow + u32 (num_cols * 2))) in
  let size := u32 (size + u32 (num_cols * 4)) in
  PadUpToSize (first_alignment attr_sizes) (u32 (size + RawBitmap.SizeInBytes num_cols)).

Definition make (attr_sizes col_ids : list Z) : ProjectedRowInitializer :=
  let '(offsets, size) := value_offsets (header_size attr_sizes (Z.of_nat (length col_ids))) attr_sizes in
  Initializer size col_ids offsets.

(** [Create(layout, col_ids)] *)
Definition Create (layout : BlockLayout.BlockLayout) (col_ids : list Z) : ProjectedRowInitializer :=
  let col_ids := merge_sort Z.le col_ids in
  make (BlockLayout.AttrSize layout <$> col_ids) col_ids.

(** [Create(real_attr_sizes, pr_offsets)] *)
Definition Create_offsets (real_attr_sizes pr_offsets : list Z) : ProjectedRowInitializer :=
  make (merge_sort Z.ge real_attr_sizes) pr_offsets.

(** [Create(real_attr_sizes, col_ids)], used when reading log records. *)
Definition Create_sizes (real_attr_sizes col_ids : list Z) : ProjectedRowInitializer := make real_attr_sizes col_ids.

Definition NumColumns (i : ProjectedRowInitializer) : Z := u16 (Z.of_nat (length (col_ids_ i))).
Definition ColId (i : ProjectedRowInitializer) (n : nat) : option Z := col_ids_ i !! n.

End ProjectedRowInitializer.
Import ProjectedRowInitializer.

(** ** ProjectedRow *)

Module ProjectedRow.

Definition col_ids_off : Z := 6.

Definition Size (mem : list Z) : Z := le_val (rd mem 0 4).
Definition NumColumns (mem : list Z) : Z := le_val (rd mem 4 2).
Definition ColumnId (mem : list Z) (i : Z) : Z := le_val (rd mem (col_ids_off + 2 * i) 2).

(** [AttrValueOffsets()] *)
Definition offsets_off (mem : list Z) : Z := AlignedPtr 4 (col_ids_off + 2 * NumColumns mem).
Definition AttrValueOffset (mem : list Z) (i : Z) : Z := le_val (rd mem (offsets_off mem + 4 * i) 4).

(** [Bitmap()] *)
Definition bitmap_off (mem : list Z) : Z := offsets_off mem + 4 * NumColumns mem.
Definition Bitmap (mem : list Z) : list Z := rd mem (bitmap_off mem) (RawBitmap.SizeInBytes (NumColumns mem)).
Definition set_bitmap (mem bits : list Z) : list Z := wr mem (bitmap_off mem) bits.

(** The pointer [AccessWithNullCheck] returns, as an offset in the row. *)
Definition AccessWithNullCheck (mem : list Z) (offset : Z) : option Z :=
  if RawBitmap.Test (Bitmap mem) offset then Some (AttrValueOffset mem offset) else None.

(** The pointer and the row afterwards. *)
Definition AccessForceNotNull (mem : list Z) (offset : Z) : Z * list Z :=
  let mem := if RawBitmap.Test (Bitmap mem) offset then mem
             else set_bitmap mem (RawBitmap.Flip (Bitmap mem) offset) in
  (AttrValueOffset mem offset, mem).

Definition SetNull (mem : list Z) (offset : Z) : list Z := set_bitmap mem (RawBitmap.SetBit (Bitmap mem) offset false).
Definition SetNotNull (mem : list Z) (offset : Z) : list Z := set_bitmap mem (RawBitmap.SetBit (Bitmap mem) offset true).
Definition IsNull (mem : list Z) (offset : Z) : bool := negb (RawBitmap.Test (Bitmap mem) offset).

(** [Get<T, Nullable>] for a [T] of [size] bytes. *)
Definition Get (mem : list Z) (col_idx size : Z) : option (list Z) :=
  (fun off => rd mem off size) <$> AccessWithNullCheck mem col_idx.

(** [Set<T, true>]: [None] for [null]; [Set<T, false>] with [Some]. *)
Definition Set_ (mem : list Z) (col_idx : Z) (value : option (list Z)) : list Z :=
  match value with
  | None => SetNull mem col_idx
  | Some bytes => let '(off, mem) := AccessForceNotNull mem col_idx in wr mem off bytes
  end.

Fixpoint write_words (n : nat) (mem : list Z) (off : Z) (words : list Z) : list Z :=
  match words with
  | [] => mem
  | w :: words => write_words n (wr mem off (le_bytes n w)) (off + Z.of_nat n) words
  end.

Definition InitializeRow (i : ProjectedRowInitializer) (mem : list Z) : list Z :=
  let mem := wr mem 0 (le_bytes 4 (size_ i)) in
  let mem := wr mem 4 (le_bytes 2 (u16 (Z.of_nat (length (col_ids_ i))))) in
  let mem := write_words 2 mem col_ids_off (col_ids_ i) in
  let mem := write_words 4 mem (offsets_off mem) (offsets_ i) in
  set_bitmap mem (RawBitmap.Clear (Bitmap mem) (NumColumns mem)).

(** The header is everything before the bitmap. *)
Definition CopyProjectedRowLayout (head other : list Z) : list Z :=
  let mem := wr head 0 (rd other 0 (bitmap_off other)) in
  set_bitmap mem (RawBitmap.Clear (Bitmap mem) (NumColumns mem)).

End ProjectedRow.

Example row_example :
  let i := make [16; 8; 4; 1] [1; 2; 5; 9] in
  size_ i = 72 /\ offsets_ i = [40; 56; 64; 68] /\
  ProjectedRow.Get (ProjectedRow.Set_ (ProjectedRow.InitializeRow i (replicate 72 170)) 2 (Some [1; 2; 3; 4])) 2 4 = Some [1; 2; 3; 4].
Proof. vm_compute. split; [reflexivity|]. split; reflexivity. Qed.

(** ** Layout *)

(** The sizes of values: powers of two up to 8, or 16 and more (entries, inlined keys). *)
Definition value_size (a : Z) : Prop := a ∈ [8; 4; 2; 1] \/ 16 <= a < 2 ^ 16.

(** What the constructor's assertions say of its arguments. *)
Definition row_args (attr_sizes col_ids : list Z) : Prop :=
  attr_sizes <> [] /\ length col_ids = length attr_sizes /\ Z.of_nat (length attr_sizes) <= MAX_COL /\
  StronglySorted (fun a b => b <= a) attr_sizes /\ Forall value_size attr_sizes /\ Forall (is_uint 16) col_ids.

Definition align (s : Z) : Z := Z.min s 8.

Lemma class_align s : value_size s -> align s ∈ [8; 4; 2; 1] /\ 1 <= s < 2 ^ 16 /\ u16 (align s) = align s.
Proof.
  intros [H|H].
  - revert H. rewrite !elem_of_cons, elem_of_nil. intros [->|[->|[->|[->|[]]]]]; split_and!; (done || set_solver).
  - unfold align. rewrite Z.min_r by lia. split_and!; [set_solver|lia..|done].
Qed.

Lemma PadUpToSize_align a z :
  a ∈ [8; 4; 2; 1] -> 0 <= z < 2 ^ 31 -> z <= PadUpToSize a z < z + a /\ PadUpToSize a z `mod` a = 0.
Proof.
  rewrite !elem_of_cons, elem_of_nil. intros Ha Hz.
  assert (exists k, 0 <= k <= 3 /\ a = 2 ^ k) as (k & Hk & ->).
  { destruct Ha as [->|[->|[->|[->|[]]]]]; [exists 3|exists 2|exists 1|exists 0]; done. }
  assert (2 ^ k <= 2 ^ 3) by (apply Z.pow_le_mono_r; lia).
  destruct (PadUpToSize_least k z) as (H1 & H2 & _); [lia..|]. done.
Qed.

Definition next_align (sizes : list Z) : Z := match sizes with [] => 8 | s :: _ => align s end.

Lemma next_align_class sizes : Forall value_size sizes -> next_align sizes ∈ [8; 4; 2; 1] /\ u16 (next_align sizes) = next_align sizes.
Proof. destruct 1 as [|s sizes Hs _]; [split; [set_solver|done]|]. by destruct (class_align s Hs) as (? & _ & ?). Qed.

Lemma value_offsets_spec sizes : forall start,
  Forall value_size sizes -> start `mod` next_align sizes = 0 -> 0 <= start ->
  start + 65544 * Z.of_nat (length sizes) < 2 ^ 31 ->
  let '(offsets, total) := value_offsets start sizes in
  length offsets = length sizes /\ total `mod` 8 = 0 /\ start <= total <= start + 65544 * Z.of_nat (length sizes) /\
  forall i o s, offsets !! i = Some o -> sizes !! i = Some s ->
    start <= o /\ o `mod` align s = 0 /\ o + s <= total /\ forall j o', (i < j)%nat -> offsets !! j = Some o' -> o + s <= o'.
Proof.
  induction sizes as [|s sizes IH]; intros start Hc Ha H0 Hb; [cbn; split_and!; (lia || done)|].
  apply Forall_cons in Hc as [Hs Hc]. destruct (class_align s Hs) as (_ & Hs16 & _). cbn [length] in Hb.
  destruct (next_align_class sizes Hc) as [Hn Hu]. cbn [value_offsets].
  change (match sizes with [] => 8 | s' :: _ => Z.min s' 8 end) with (next_align sizes). rewrite Hu.
  rewrite (wrapu_small 32) by (unfold is_uint; lia).
  destruct (PadUpToSize_align (next_align sizes) (start + s) Hn) as [Hp Hm]; [lia|].
  assert (next_align sizes <= 8) by (revert Hn; rewrite !elem_of_cons, elem_of_nil; lia).
  specialize (IH (PadUpToSize (next_align sizes) (start + s)) Hc Hm).
  destruct (value_offsets (PadUpToSize (next_align sizes) (start + s)) sizes) as [offsets total].
  destruct IH as (Hlen & Ht & Hr & Ho); [lia..|]. split; [cbn; lia|]. split; [done|]. split; [cbn [length]; lia|].
  intros [|i] o s'; cbn.
  - intros [= <-] [= <-]. split; [lia|]. split; [done|]. split; [lia|]. intros [|j] o' Hj; [lia|]. cbn. intros Hj'.
    assert (is_Some (sizes !! j)) as [s' Hs'] by (apply lookup_lt_is_Some; rewrite <-Hlen; by eapply lookup_lt_Some).
    destruct (Ho j o' s' Hj' Hs') as [? _]. lia.
  - intros Hi Hs'. destruct (Ho i o s' Hi Hs') as (? & ? & ? & Hj). split; [lia|]. split; [done|]. split; [done|].
    intros [|j] o' Hij; [lia|]. cbn. intros Hj'. apply (Hj j o'); [lia|done].
Qed.

Section layout.
Context (attr_sizes col_ids : list Z).
Hypothesis Hargs : row_args attr_sizes col_ids.

#[local] Abbreviation n := (Z.of_nat (length col_ids)).
#[local] Abbreviation i := (make attr_sizes col_ids).

(** The offset of the value offsets and of the bitmap. *)
Definition offsets_start : Z := PadUpToSize 4 (6 + 2 * n).

Lemma n_bounds : 1 <= n <= 12500.
Proof. destruct Hargs as (Hne & Hl & Hm & _). unfold MAX_COL in Hm. destruct attr_sizes; [done|]. cbn in *. lia. Qed.

Lemma offsets_start_bounds : 6 + 2 * n <= offsets_start < 10 + 2 * n /\ offsets_start `mod` 4 = 0.
Proof.
  pose proof n_bounds. destruct (PadUpToSize_align 4 (6 + 2 * n)) as [H1 H2]; [set_solver|lia|].
  unfold offsets_start. split; [lia|done].
Qed.

Lemma header_bounds :
  offsets_start + 4 * n + RawBitmap.SizeInBytes n <= header_size attr_sizes n < offsets_start + 4 * n + RawBitmap.SizeInBytes n + 8 /\
  header_size attr_sizes n `mod` next_align attr_sizes = 0.
Proof.
  pose proof n_bounds as Hn. pose proof offsets_start_bounds as [Ho _]. destruct Hargs as (Hne & _ & _ & _ & Hc & _).
  pose proof (SizeInBytes_bounds n ltac:(lia)) as Hb. destruct (next_align_class attr_sizes Hc) as [Ha Hu].
  unfold header_size, sizeof_ProjectedRow. rewrite (wrapu_small 32 (n * 2)) by (unfold is_uint; lia).
  rewrite (wrapu_small 32 (6 + n * 2)) by (unfold is_uint; lia). replace (6 + n * 2) with (6 + 2 * n) by lia. fold offsets_start.
  rewrite (wrapu_small 32 (n * 4)) by (unfold is_uint; lia). rewrite (wrapu_small 32 (offsets_start + n * 4)) by (unfold is_uint; lia).
  rewrite (wrapu_small 32) by (unfold is_uint; lia).
  assert (first_alignment attr_sizes = next_align attr_sizes) as ->.
  { unfold first_alignment. destruct attr_sizes as [|s ?]; [done|]. exact Hu. }
  destruct (PadUpToSize_align (next_align attr_sizes) (offsets_start + n * 4 + RawBitmap.SizeInBytes n) Ha) as [Hp Hm]; [lia|].
  assert (next_align attr_sizes <= 8) by (revert Ha; rewrite !elem_of_cons, elem_of_nil; lia). split; [lia|done].
Qed.

Lemma make_spec :
  col_ids_ i = col_ids /\ length (offsets_ i) = length attr_sizes /\ size_ i `mod` 8 = 0 /\
  header_size attr_sizes n <= size_ i < 2 ^ 31 /\
  forall k o s, offsets_ i !! k = Some o -> attr_sizes !! k = Some s ->
    header_size attr_sizes n <= o /\ o `mod` align s = 0 /\ o + s <= size_ i /\
    forall j o', (k < j)%nat -> offsets_ i !! j = Some o' -> o + s <= o'.
Proof.
  pose proof n_bounds as Hn. pose proof header_bounds as [Hh Ha]. pose proof offsets_start_bounds as [Ho _].
  pose proof (SizeInBytes_bounds n ltac:(lia)) as Hb. destruct Hargs as (Hne & Hl & _ & _ & Hc & _).
  pose proof (value_offsets_spec attr_sizes (header_size attr_sizes n) Hc Ha ltac:(lia) ltac:(lia)) as H.
  unfold make. destruct (value_offsets (header_size attr_sizes n) attr_sizes) as [offsets total].
  destruct H as (H1 & H2 & H3 & H4). cbn. split; [done|]. split; [done|]. split; [done|]. split; [lia|done].
Qed.

(** ** Memory *)

Lemma rd_wr_le mem off m z : 0 <= off -> off + Z.of_nat m <= Z.of_nat (length mem) ->
  le_val (rd (wr mem off (le_bytes m z)) off (Z.of_nat m)) = wrapu (8 * Z.of_nat m) z.
Proof.
  intros H0 H. rewrite <-(length_le_bytes m z) at 2. rewrite rd_wr_same by (rewrite ?length_le_bytes; lia). apply le_val_bytes.
Qed.

Lemma write_words_spec m words : forall mem off,
  0 <= off -> off + Z.of_nat m * Z.of_nat (length words) <= Z.of_nat (length mem) -> Forall is_byte mem ->
  let mem' := ProjectedRow.write_words m mem off words in
  length mem' = length mem /\ Forall is_byte mem' /\
  (forall k w, words !! k = Some w -> rd mem' (off + Z.of_nat m * Z.of_nat k) (Z.of_nat m) = le_bytes m w) /\
  (forall o len, 0 <= o -> 0 <= len -> o + len <= off \/ off + Z.of_nat m * Z.of_nat (length words) <= o -> rd mem' o len = rd mem o len).
Proof.
  induction words as [|w words IH]; intros mem off H0 Hl Hb; cbn [ProjectedRow.write_words]; [done|]. cbn [length] in Hl.
  pose proof (length_le_bytes m w) as Lw.
  destruct (IH (wr mem off (le_bytes m w)) (off + Z.of_nat m)) as (L & B & R & F);
    [lia|rewrite length_wr; lia|apply wr_bytes; [done|apply le_bytes_byte]|].
  rewrite length_wr in L. split; [done|]. split; [done|]. split.
  - intros [|k] w' Hk; cbn in Hk.
    + injection Hk as <-. rewrite F by lia. replace (off + Z.of_nat m * Z.of_nat 0) with off by lia.
      rewrite <-Lw at 2. apply rd_wr_same; rewrite ?Lw; lia.
    + rewrite <-(R k w' Hk). f_equal. lia.
  - intros o len Ho Hlen Hd. cbn [length] in Hd. rewrite F by lia. apply rd_wr_other; rewrite ?Lw; lia.
Qed.

(** A row laid out by the initializer. *)
Definition row_ok (mem : list Z) : Prop :=
  size_ i <= Z.of_nat (length mem) /\ Forall is_byte mem /\ ProjectedRow.Size mem = size_ i /\
  ProjectedRow.NumColumns mem = n /\
  (forall k id, col_ids !! k = Some id -> ProjectedRow.ColumnId mem (Z.of_nat k) = id) /\
  (forall k o, offsets_ i !! k = Some o -> ProjectedRow.AttrValueOffset mem (Z.of_nat k) = o).

Definition bitmap_start : Z := offsets_start + 4 * n.
#[local] Abbreviation bitmap_len := (RawBitmap.SizeInBytes n).

Lemma offsets_off_eq mem : ProjectedRow.NumColumns mem = n -> ProjectedRow.offsets_off mem = offsets_start.
Proof.
  intros E. unfold ProjectedRow.offsets_off, ProjectedRow.col_ids_off. rewrite E. pose proof n_bounds.
  unfold offsets_start, AlignedPtr, PadUpToSize.
  change (u64 (4 - 1)) with (2 ^ 2 - 1). change (u32 (4 - 1)) with (2 ^ 2 - 1).
  rewrite !pad_mask by (lia || (apply wrapu_bound; lia)). rewrite (wrapu_small 64), (wrapu_small 32) by (unfold is_uint; lia). done.
Qed.

Lemma Bitmap_eq mem : row_ok mem -> ProjectedRow.bitmap_off mem = bitmap_start /\ ProjectedRow.Bitmap mem = rd mem bitmap_start bitmap_len.
Proof.
  intros (_ & _ & _ & E & _). unfold ProjectedRow.Bitmap, ProjectedRow.bitmap_off, bitmap_start.
  rewrite offsets_off_eq, E by done. done.
Qed.

(** The regions of a row. *)
Lemma regions : 6 + 2 * n <= offsets_start /\ bitmap_start + bitmap_len <= header_size attr_sizes n <= size_ i /\
  n <= 8 * bitmap_len /\ 1 <= n <= 12500 /\ size_ i < 2 ^ 31 /\ 0 <= bitmap_len.
Proof.
  pose proof n_bounds. pose proof offsets_start_bounds as [? _]. pose proof header_bounds as [? _].
  destruct make_spec as (_ & _ & _ & ? & _). pose proof (SizeInBytes_bounds n ltac:(lia)). unfold bitmap_start. lia.
Qed.

(** A write at or behind the bitmap keeps the layout. *)
Lemma tail_write mem off bs :
  row_ok mem -> Forall is_byte bs -> bitmap_start <= off -> off + Z.of_nat (length bs) <= Z.of_nat (length mem) -> row_ok (wr mem off bs).
Proof.
  intros (Hl & Hb & Hs & Hn & Hi & Ho) Hbs Hoff Hend. pose proof regions as (R1 & R2 & _ & Hn1 & _).
  assert (forall o k, 0 <= o -> 0 <= k -> o + k <= bitmap_start -> rd (wr mem off bs) o k = rd mem o k) as F by (intros; apply rd_wr_other; lia).
  unfold bitmap_start in *.
  assert (ProjectedRow.NumColumns (wr mem off bs) = n) as Hn' by (rewrite <-Hn; unfold ProjectedRow.NumColumns; rewrite F by lia; done).
  split; [by rewrite length_wr|]. split; [by apply wr_bytes|]. split; [unfold ProjectedRow.Size in *; by rewrite F by lia|]. split; [done|]. split.
  - intros k id Hk. rewrite <-(Hi k id Hk). unfold ProjectedRow.ColumnId, ProjectedRow.col_ids_off. apply lookup_lt_Some in Hk. by rewrite F by lia.
  - intros k o Hk. rewrite <-(Ho k o Hk). unfold ProjectedRow.AttrValueOffset. rewrite !offsets_off_eq by done.
    destruct make_spec as (_ & Hlen & _). destruct Hargs as (_ & Hcl & _). apply lookup_lt_Some in Hk. by rewrite F by lia.
Qed.

Lemma bitmap_facts mem : row_ok mem -> Z.of_nat (length (ProjectedRow.Bitmap mem)) = bitmap_len /\ Forall is_byte (ProjectedRow.Bitmap mem).
Proof.
  intros Hok. destruct (Bitmap_eq mem Hok) as [_ ->]. destruct Hok as (Hl & Hb & _). pose proof regions as (? & ? & _ & ? & _ & ?).
  unfold bitmap_start in *. split; [apply length_rd; lia|by apply rd_bytes].
Qed.

Lemma set_bitmap_view mem bits :
  row_ok mem -> Z.of_nat (length bits) = bitmap_len -> Forall is_byte bits ->
  row_ok (ProjectedRow.set_bitmap mem bits) /\ ProjectedRow.Bitmap (ProjectedRow.set_bitmap mem bits) = bits /\
  forall o s, header_size attr_sizes n <= o -> 0 <= s -> rd (ProjectedRow.set_bitmap mem bits) o s = rd mem o s.
Proof.
  intros Hok Hl Hb. destruct (Bitmap_eq mem Hok) as [E _]. unfold ProjectedRow.set_bitmap. rewrite E.
  pose proof regions as (R1 & R2 & _ & R3 & _). pose proof Hok as (Hm & _).
  assert (row_ok (wr mem bitmap_start bits)) as Hok' by (apply tail_write; (done || lia)).
  split; [done|]. unfold bitmap_start in *. split.
  - destruct (Bitmap_eq _ Hok') as [_ ->]. unfold bitmap_start. rewrite <-Hl. apply rd_wr_same; lia.
  - intros o s Ho Hs. apply rd_wr_other; lia.
Qed.

(** The value of column [k], [None] when null. *)
Definition value (mem : list Z) (k : nat) : option (list Z) := ProjectedRow.Get mem (Z.of_nat k) (attr_sizes !!! k).

Lemma column k : (k < length col_ids)%nat ->
  exists o, offsets_ i !! k = Some o /\ attr_sizes !! k = Some (attr_sizes !!! k) /\ 1 <= attr_sizes !!! k < 2 ^ 16 /\
    header_size attr_sizes n <= o /\ o + attr_sizes !!! k <= size_ i.
Proof.
  intros Hk. destruct make_spec as (_ & Hlen & _ & _ & H). destruct Hargs as (_ & Hcl & _ & _ & Hc & _).
  assert (is_Some (offsets_ i !! k)) as [o Ho] by (apply lookup_lt_is_Some; lia).
  destruct (attr_sizes !! k) as [s|] eqn:Es; [|apply lookup_ge_None in Es; lia].
  rewrite (list_lookup_total_correct _ _ _ Es). exists o. destruct (H k o s Ho Es) as (? & _ & ? & _).
  rewrite Forall_lookup in Hc. destruct (class_align s (Hc k s Es)) as (_ & ? & _). done.
Qed.

Lemma value_eq mem k o : row_ok mem -> offsets_ i !! k = Some o ->
  value mem k = if RawBitmap.Test (ProjectedRow.Bitmap mem) (Z.of_nat k) then Some (rd mem o (attr_sizes !!! k)) else None.
Proof.
  intros (_ & _ & _ & _ & _ & Ho) Hk. unfold value, ProjectedRow.Get, ProjectedRow.AccessWithNullCheck.
  destruct (RawBitmap.Test _ _); cbn; [by rewrite (Ho k o Hk)|done].
Qed.

(** A change of the bitmap at one bit. *)
Lemma bitmap_change mem k bits (b : bool) :
  row_ok mem -> (k < length col_ids)%nat -> Z.of_nat (length bits) = bitmap_len -> Forall is_byte bits ->
  (forall q, 0 <= q -> RawBitmap.Test bits q = if decide (Z.of_nat k = q) then b else RawBitmap.Test (ProjectedRow.Bitmap mem) q) ->
  let mem' := ProjectedRow.set_bitmap mem bits in
  row_ok mem' /\ ProjectedRow.Bitmap mem' = bits /\
  forall j, (j < length col_ids)%nat -> j <> k -> value mem' j = value mem j.
Proof.
  intros Hok Hk Hl Hb Ht mem'. destruct (set_bitmap_view mem bits Hok Hl Hb) as (Hok' & EB & F). split; [done|]. split; [done|].
  intros j Hj Hne. destruct (column j Hj) as (o & Ho & _ & Hs & Hh & _).
  rewrite (value_eq mem' j o Hok' Ho), (value_eq mem j o Hok Ho). unfold mem'. rewrite EB, Ht by lia.
  rewrite decide_False by lia. by rewrite F by lia.
Qed.

Lemma length_SetBit bits pos v : length (RawBitmap.SetBit bits pos v) = length bits.
Proof. unfold RawBitmap.SetBit. destruct v; apply length_insert. Qed.

Lemma SetBit_bytes bits pos v : Forall is_byte bits -> Forall is_byte (RawBitmap.SetBit bits pos v).
Proof.
  intros H. unfold RawBitmap.SetBit. destruct v; apply Forall_insert; try done.
  - apply is_uint_lor; [lia|by apply byte_at_byte|apply wrapu_bound; lia].
  - apply is_uint_land; [lia|apply wrapu_bound; lia].
Qed.

Lemma SetNull_view mem k : row_ok mem -> (k < length col_ids)%nat ->
  let mem' := ProjectedRow.SetNull mem (Z.of_nat k) in
  row_ok mem' /\ value mem' k = None /\ forall j, (j < length col_ids)%nat -> j <> k -> value mem' j = value mem j.
Proof.
  intros Hok Hk. destruct (bitmap_facts mem Hok) as [Hl Hb]. pose proof regions as (_ & _ & R & _).
  destruct (bitmap_change mem k (RawBitmap.SetBit (ProjectedRow.Bitmap mem) (Z.of_nat k) false) false) as (Hok' & EB & F);
    [done|done|by rewrite length_SetBit|by apply SetBit_bytes| |].
  { intros q Hq. apply Test_SetBit; (done || lia). }
  split; [done|]. split; [|done]. destruct (column k Hk) as (o & Ho & _). unfold ProjectedRow.SetNull.
  rewrite (value_eq _ k o Hok' Ho), EB, Test_SetBit by (done || lia). by rewrite decide_True.
Qed.

Lemma Flip_view mem k : row_ok mem -> (k < length col_ids)%nat -> RawBitmap.Test (ProjectedRow.Bitmap mem) (Z.of_nat k) = false ->
  let mem' := ProjectedRow.set_bitmap mem (RawBitmap.Flip (ProjectedRow.Bitmap mem) (Z.of_nat k)) in
  row_ok mem' /\ RawBitmap.Test (ProjectedRow.Bitmap mem') (Z.of_nat k) = true /\
  forall j, (j < length col_ids)%nat -> j <> k -> value mem' j = value mem j.
Proof.
  intros Hok Hk Hnull. destruct (bitmap_facts mem Hok) as [Hl Hb]. pose proof regions as (_ & _ & R & _).
  set (bits := RawBitmap.Flip (ProjectedRow.Bitmap mem) (Z.of_nat k)).
  assert (forall q, 0 <= q -> RawBitmap.Test bits q = if decide (Z.of_nat k = q) then true else RawBitmap.Test (ProjectedRow.Bitmap mem) q) as Ht.
  { intros q Hq. unfold bits. rewrite Test_Flip by (done || lia). case_decide as E; [by rewrite <-E, Hnull|done]. }
  destruct (bitmap_change mem k bits true) as (Hok' & EB & F); [done|done| | |done|].
  - unfold bits, RawBitmap.Flip. by rewrite length_insert.
  - apply Forall_insert; [done|]. apply is_uint_lxor; [lia|by apply byte_at_byte|apply wrapu_bound; lia].
  - split; [done|]. split; [|done]. cbv zeta. rewrite EB, Ht by lia. by rewrite decide_True.
Qed.

(** [AccessForceNotNull] returns the column's offset and marks it present. *)
Lemma ForceNotNull_view mem k : row_ok mem -> (k < length col_ids)%nat ->
  let '(off, mem') := ProjectedRow.AccessForceNotNull mem (Z.of_nat k) in
  offsets_ i !! k = Some off /\ row_ok mem' /\ RawBitmap.Test (ProjectedRow.Bitmap mem') (Z.of_nat k) = true /\
  forall j, (j < length col_ids)%nat -> j <> k -> value mem' j = value mem j.
Proof.
  intros Hok Hk. destruct (column k Hk) as (o & Ho & _). unfold ProjectedRow.AccessForceNotNull.
  assert (forall mem', row_ok mem' -> offsets_ i !! k = Some (ProjectedRow.AttrValueOffset mem' (Z.of_nat k))) as Hoff.
  { intros mem' (_ & _ & _ & _ & _ & H). by rewrite (H k o Ho). }
  destruct (RawBitmap.Test (ProjectedRow.Bitmap mem) (Z.of_nat k)) eqn:E; [by split; [apply Hoff|]|].
  destruct (Flip_view mem k Hok Hk E) as (Hok' & Ht & F). split; [by apply Hoff|done].
Qed.

Lemma columns_disjoint k j o o' : offsets_ i !! k = Some o -> offsets_ i !! j = Some o' -> j <> k ->
  o + attr_sizes !!! k <= o' \/ o' + attr_sizes !!! j <= o.
Proof.
  intros Ho Ho' Hne. destruct make_spec as (_ & Hlen & _ & _ & H). destruct Hargs as (_ & Hcl & _).
  destruct (column k) as (? & ? & Hs & _); [apply lookup_lt_Some in Ho; lia|]. destruct (column j) as (? & ? & Hs' & _); [apply lookup_lt_Some in Ho'; lia|].
  destruct (decide (k < j)%nat); [left; by eapply (H k o _ Ho Hs)|right; eapply (H j o' _ Ho' Hs'); [|done]; lia].
Qed.

Lemma row_write_value_view mem k o bs :
  row_ok mem -> offsets_ i !! k = Some o -> Z.of_nat (length bs) = attr_sizes !!! k -> Forall is_byte bs ->
  RawBitmap.Test (ProjectedRow.Bitmap mem) (Z.of_nat k) = true ->
  row_ok (wr mem o bs) /\ value (wr mem o bs) k = Some bs /\
  forall j, (j < length col_ids)%nat -> j <> k -> value (wr mem o bs) j = value mem j.
Proof.
  intros Hok Ho Hl Hb Ht. destruct make_spec as (_ & Hlen & _). pose proof Hargs as (_ & Hcl & _).
  destruct (column k) as (o2 & Ho2 & _ & Hs & Hh & He); [apply lookup_lt_Some in Ho; lia|]. rewrite Ho in Ho2. injection Ho2 as <-.
  pose proof regions as (R1 & R2 & _ & R3 & _ & R4). pose proof Hok as (Hm & _). unfold bitmap_start in R2.
  assert (row_ok (wr mem o bs)) as Hok' by (apply tail_write; unfold bitmap_start; (done || lia)).
  assert (ProjectedRow.Bitmap (wr mem o bs) = ProjectedRow.Bitmap mem) as EB.
  { destruct (Bitmap_eq mem Hok) as [_ ->], (Bitmap_eq _ Hok') as [_ ->]. unfold bitmap_start. apply rd_wr_other; lia. }
  split; [done|]. split.
  - rewrite (value_eq _ k o Hok' Ho), EB, Ht, <-Hl. f_equal. apply rd_wr_same; lia.
  - intros j Hj Hne. destruct (column j Hj) as (o' & Ho' & _ & Hs' & Hh' & He'). rewrite (value_eq _ j o' Hok' Ho'), (value_eq _ j o' Hok Ho'), EB.
    destruct (columns_disjoint k j o o' Ho Ho' Hne); by rewrite rd_wr_other by lia.
Qed.

Lemma Set_view mem k v : row_ok mem -> (k < length col_ids)%nat ->
  match v with Some bs => Z.of_nat (length bs) = attr_sizes !!! k /\ Forall is_byte bs | None => True end ->
  let mem' := ProjectedRow.Set_ mem (Z.of_nat k) v in
  row_ok mem' /\ value mem' k = v /\ forall j, (j < length col_ids)%nat -> j <> k -> value mem' j = value mem j.
Proof.
  intros Hok Hk Hv. destruct v as [bs|]; [|by apply SetNull_view]. destruct Hv as [Hl Hb]. cbn [ProjectedRow.Set_].
  pose proof (ForceNotNull_view mem k Hok Hk) as H. destruct (ProjectedRow.AccessForceNotNull mem (Z.of_nat k)) as [off mem1].
  destruct H as (Ho & Hok1 & Ht & F). destruct (row_write_value_view mem1 k off bs Hok1 Ho Hl Hb Ht) as (Hok' & Hv & F').
  split; [done|]. split; [done|]. intros j Hj Hne. rewrite F' by done. by apply F.
Qed.

(** Clearing the bitmap makes every column null. *)
Lemma clear_view mem : row_ok mem ->
  let mem' := ProjectedRow.set_bitmap mem (RawBitmap.Clear (ProjectedRow.Bitmap mem) (ProjectedRow.NumColumns mem)) in
  length mem' = length mem /\ row_ok mem' /\ forall k, (k < length col_ids)%nat -> value mem' k = None.
Proof.
  intros Hok. destruct (bitmap_facts mem Hok) as [LB BB]. pose proof regions as (_ & _ & R3 & R4 & _).
  pose proof Hok as (_ & _ & _ & HN & _).
  assert (length (RawBitmap.Clear (ProjectedRow.Bitmap mem) (ProjectedRow.NumColumns mem)) = length (ProjectedRow.Bitmap mem)) as LC by apply length_splice.
  destruct (set_bitmap_view mem (RawBitmap.Clear (ProjectedRow.Bitmap mem) (ProjectedRow.NumColumns mem)) Hok) as (Hok5 & EB & _);
    [lia|apply (UnsafeClear_bytes _ _ BB)|].
  split; [unfold ProjectedRow.set_bitmap; apply length_wr|]. split; [done|]. intros k Hk.
  destruct (column k Hk) as (o & Ho & _). rewrite (value_eq _ k o Hok5 Ho), EB.
  rewrite Test_clear; [done|rewrite HN; lia..].
Qed.

(** [InitializeRow] on any memory of the size: the layout, and every column null. *)
Lemma InitializeRow_view mem : size_ i <= Z.of_nat (length mem) -> Forall is_byte mem ->
  let mem' := ProjectedRow.InitializeRow i mem in
  length mem' = length mem /\ row_ok mem' /\ forall k, (k < length col_ids)%nat -> value mem' k = None.
Proof.
  intros Hm Hb. pose proof regions as (R1 & R2 & R3 & R4 & R5 & R6). unfold bitmap_start in R2.
  destruct make_spec as (Ei & Hlen & _ & _ & Hoffs). destruct Hargs as (_ & Hcl & _ & _ & _ & Hids).
  unfold ProjectedRow.InitializeRow. rewrite Ei. rewrite (wrapu_small 16 n) by (unfold is_uint; lia).
  set (m1 := wr mem 0 (le_bytes 4 (size_ i))). set (m2 := wr m1 4 (le_bytes 2 n)).
  assert (length m2 = length mem) as L2 by (unfold m2, m1; by rewrite !length_wr).
  assert (Forall is_byte m2) as B2 by (repeat apply wr_bytes; (done || apply le_bytes_byte)).
  destruct (write_words_spec 2 col_ids m2 6) as (L3 & B3 & W3 & F3); [lia|lia|done|].
  change ProjectedRow.col_ids_off with 6. set (m3 := ProjectedRow.write_words 2 m2 6 col_ids) in *.
  assert (ProjectedRow.NumColumns m3 = n) as N3.
  { unfold ProjectedRow.NumColumns. rewrite F3 by lia. etransitivity; [apply (rd_wr_le m1 4 2 n); unfold m1; rewrite ?length_wr; lia|].
    apply wrapu_small. unfold is_uint. lia. }
  assert (ProjectedRow.Size m3 = size_ i) as S3.
  { unfold ProjectedRow.Size. rewrite F3 by lia. unfold m2. rewrite rd_wr_other by (rewrite ?length_le_bytes; unfold m1; rewrite ?length_wr; lia).
    etransitivity; [apply (rd_wr_le mem 0 4 (size_ i)); lia|]. apply wrapu_small. unfold is_uint. lia. }
  rewrite (offsets_off_eq m3 N3).
  destruct (write_words_spec 4 (offsets_ i) m3 offsets_start) as (L4 & B4 & W4 & F4); [lia|lia|done|].
  set (m4 := ProjectedRow.write_words 4 m3 offsets_start (offsets_ i)) in *. rewrite Hlen, <-Hcl in F4.
  assert (ProjectedRow.NumColumns m4 = n) as N4 by (rewrite <-N3; unfold ProjectedRow.NumColumns; by rewrite F4 by lia).
  assert (row_ok m4) as Hok4.
  { split; [lia|]. split; [done|]. split; [rewrite <-S3; unfold ProjectedRow.Size; by rewrite F4 by lia|]. split; [done|]. split.
    - intros k id Hk. unfold ProjectedRow.ColumnId. change ProjectedRow.col_ids_off with 6. pose proof (lookup_lt_Some _ _ _ Hk).
      rewrite F4 by lia. change 2 with (Z.of_nat 2). rewrite (W3 k id Hk), le_val_bytes. apply wrapu_small. rewrite Forall_lookup in Hids. by apply (Hids k).
    - intros k o Hk. unfold ProjectedRow.AttrValueOffset. rewrite (offsets_off_eq m4 N4). change 4 with (Z.of_nat 4).
      rewrite (W4 k o Hk), le_val_bytes. apply wrapu_small. destruct (column k) as (o' & Ho' & _ & ? & ? & ?); [apply lookup_lt_Some in Hk; lia|].
      rewrite Hk in Ho'. injection Ho' as <-. unfold is_uint. lia. }
  destruct (clear_view m4 Hok4) as (L5 & Hok5 & V5). split; [lia|done].
Qed.

(** [CopyProjectedRowLayout]: the layout of the other row, every column null. *)
Lemma CopyLayout_view head other : row_ok other -> size_ i <= Z.of_nat (length head) -> Forall is_byte head ->
  let mem' := ProjectedRow.CopyProjectedRowLayout head other in
  row_ok mem' /\ forall k, (k < length col_ids)%nat -> value mem' k = None.
Proof.
  intros Hok Hl Hb. pose proof regions as (R1 & R2 & R3 & R4 & R5 & R6). destruct (Bitmap_eq other Hok) as [E _].
  destruct Hok as (Ho & Hob & Hs & Hn & Hi & Hoff). unfold bitmap_start in *.
  destruct make_spec as (_ & Hlen & _). pose proof Hargs as (_ & Hcl & _).
  unfold ProjectedRow.CopyProjectedRowLayout. rewrite E. set (h := rd other 0 (offsets_start + 4 * n)).
  assert (Z.of_nat (length h) = offsets_start + 4 * n) as Lh by (apply length_rd; lia).
  set (m1 := wr head 0 h).
  assert (forall o k, 0 <= o -> 0 <= k -> o + k <= offsets_start + 4 * n -> rd m1 o k = rd other o k) as F.
  { intros o k H0 H1 H2. unfold m1. rewrite <-(Z.add_0_l o) at 1. rewrite rd_wr_inside by lia. unfold h, rd, slice.
    apply list_eq. intros j. destruct (decide (j < Z.to_nat k)%nat); [|by rewrite !lookup_take_ge by lia].
    rewrite !lookup_take_lt, !lookup_drop, lookup_take_lt, lookup_drop by lia. f_equal. }
  assert (ProjectedRow.NumColumns m1 = n) as N1 by (rewrite <-Hn; unfold ProjectedRow.NumColumns; by rewrite F by lia).
  destruct (clear_view m1) as (_ & ? & ?); [|done].
  split; [unfold m1; rewrite length_wr; lia|]. split; [apply wr_bytes; [done|by apply rd_bytes]|].
  split; [rewrite <-Hs; unfold ProjectedRow.Size; by rewrite F by lia|]. split; [done|]. split.
  - intros k id Hk. rewrite <-(Hi k id Hk). unfold ProjectedRow.ColumnId. change ProjectedRow.col_ids_off with 6. apply lookup_lt_Some in Hk. by rewrite F by lia.
  - intros k o Hk. rewrite <-(Hoff k o Hk). unfold ProjectedRow.AttrValueOffset. rewrite !offsets_off_eq by done. apply lookup_lt_Some in Hk. by rewrite F by lia.
Qed.

Lemma header_nonneg : 0 <= header_size attr_sizes n.
Proof. pose proof regions as (R1 & R2 & _ & R3 & _ & R6). unfold bitmap_start in R2. lia. Qed.

(** The pointer to a column that is not null is its offset. *)
Lemma access_value mem k o : row_ok mem -> offsets_ i !! k = Some o ->
  ProjectedRow.AccessWithNullCheck mem (Z.of_nat k) = (fun _ => o) <$> value mem k.
Proof.
  intros Hok Ho. pose proof Hok as (_ & _ & _ & _ & _ & H). unfold value, ProjectedRow.Get, ProjectedRow.AccessWithNullCheck.
  rewrite (H k o Ho). by destruct (RawBitmap.Test _ _).
Qed.

(** A row depends on its first [size_] bytes only. *)
Lemma agree_view mem mem' : row_ok mem -> size_ i <= Z.of_nat (length mem') -> Forall is_byte mem' ->
  (forall o k, 0 <= o -> 0 <= k -> o + k <= size_ i -> rd mem' o k = rd mem o k) ->
  row_ok mem' /\ forall k, (k < length col_ids)%nat -> value mem' k = value mem k.
Proof.
  intros Hok Hl Hb F. pose proof regions as (R1 & R2 & _ & R3 & _ & R6). destruct make_spec as (_ & Hlen & _). pose proof Hargs as (_ & Hcl & _).
  pose proof Hok as (_ & _ & Hs & Hn & Hi & Ho). unfold bitmap_start in R2.
  assert (ProjectedRow.NumColumns mem' = n) as N' by (rewrite <-Hn; unfold ProjectedRow.NumColumns; by rewrite F by lia).
  assert (row_ok mem') as Hok'.
  { split; [done|]. split; [done|]. split; [rewrite <-Hs; unfold ProjectedRow.Size; by rewrite F by lia|]. split; [done|]. split.
    - intros k id Hk. rewrite <-(Hi k id Hk). unfold ProjectedRow.ColumnId. change ProjectedRow.col_ids_off with 6. apply lookup_lt_Some in Hk. by rewrite F by lia.
    - intros k o Hk. rewrite <-(Ho k o Hk). unfold ProjectedRow.AttrValueOffset. rewrite !offsets_off_eq by done. apply lookup_lt_Some in Hk. by rewrite F by lia. }
  split; [done|]. intros k Hk. destruct (column k Hk) as (o & Hoff & _ & ? & ? & ?).
  rewrite (value_eq mem' k o Hok' Hoff), (value_eq mem k o Hok Hoff).
  destruct (Bitmap_eq mem Hok) as [_ ->], (Bitmap_eq mem' Hok') as [_ ->]. unfold bitmap_start. by rewrite !F by lia.
Qed.

End layout.

(** The layout [ProjectedRowInitializer] computes, for column sizes of 8, 4, 2 or 1
    bytes, or 16 and more, in descending order: every value is aligned to its size (8 at most), lies
    behind the header, the ids, the offsets and the bitmap, inside the row's size, which
    is a multiple of 8, and values do not overlap. *)
Theorem row_layout (attr_sizes col_ids : list Z) :
  row_args attr_sizes col_ids ->
  let i := make attr_sizes col_ids in let num_cols := Z.of_nat (length col_ids) in
  size_ i `mod` 8 = 0 /\ length (offsets_ i) = length attr_sizes /\
  forall k o s, offsets_ i !! k = Some o -> attr_sizes !! k = Some s ->
    o `mod` Z.min s 8 = 0 /\ PadUpToSize 4 (6 + 2 * num_cols) + 4 * num_cols + RawBitmap.SizeInBytes num_cols <= o /\ o + s <= size_ i /\
    forall j o' s', j <> k -> offsets_ i !! j = Some o' -> attr_sizes !! j = Some s' -> o + s <= o' \/ o' + s' <= o.
Proof.
  intros Ha i num_cols. destruct (make_spec _ _ Ha) as (_ & Hlen & H8 & _ & H). pose proof (header_bounds _ _ Ha) as [Hh _].
  split; [done|]. split; [done|]. intros k o s Ho Hs. destruct (H k o s Ho Hs) as (H1 & H2 & H3 & _). split; [done|].
  unfold offsets_start in Hh. split; [unfold num_cols; lia|]. split; [done|]. intros j o' s' Hne Ho' Hs'.
  pose proof (columns_disjoint _ _ Ha k j o o' Ho Ho' Hne) as Hd.
  by rewrite (list_lookup_total_correct _ _ _ Hs), (list_lookup_total_correct _ _ _ Hs') in Hd.
Qed.

Lemma row_args_example : row_args [16; 8; 4; 1] [1; 2; 5; 9].
Proof.
  split; [done|]. split; [done|]. split; [vm_compute; congruence|]. split; [|split].
  - repeat constructor; vm_compute; congruence.
  - repeat apply Forall_cons_2; [right; lia|left; set_solver..|constructor].
  - repeat constructor; vm_compute; congruence.
Qed.

Lemma row_layout_witness : size_ (make [16; 8; 4; 1] [1; 2; 5; 9]) `mod` 8 = 0.
Proof. apply (row_layout [16; 8; 4; 1] [1; 2; 5; 9] row_args_example). Defined.

(** C22: an initialised row behaves as a list of optional values: [InitializeRow] (and
    copying the layout of such a row) makes every column null, and writing one column, a
    value of its size or null, is read back from it and changes no other column. *)
Theorem row_refines (attr_sizes col_ids mem : list Z) :
  row_args attr_sizes col_ids -> size_ (make attr_sizes col_ids) <= Z.of_nat (length mem) -> Forall is_byte mem ->
  let get m k := ProjectedRow.Get m (Z.of_nat k) (attr_sizes !!! k) in
  let row := ProjectedRow.InitializeRow (make attr_sizes col_ids) mem in
  (row_ok attr_sizes col_ids row /\ forall k, (k < length col_ids)%nat -> get row k = None) /\
  forall r, row_ok attr_sizes col_ids r ->
    (let c := ProjectedRow.CopyProjectedRowLayout mem r in
     row_ok attr_sizes col_ids c /\ forall k, (k < length col_ids)%nat -> get c k = None) /\
    forall k v, (k < length col_ids)%nat ->
      match v with Some bs => Z.of_nat (length bs) = attr_sizes !!! k /\ Forall is_byte bs | None => True end ->
      let r' := ProjectedRow.Set_ r (Z.of_nat k) v in
      row_ok attr_sizes col_ids r' /\ get r' k = v /\ ProjectedRow.IsNull r' (Z.of_nat k) = bool_decide (v = None) /\
      forall j, (j < length col_ids)%nat -> j <> k -> get r' j = get r j.
Proof.
  intros Ha Hl Hb. split; [by apply InitializeRow_view|]. intros r Hr. split; [by apply CopyLayout_view|].
  intros k v Hk Hv. destruct (Set_view _ _ Ha r k v Hr Hk Hv) as (H1 & H2 & H3). split; [done|]. split; [done|]. split; [|done].
  destruct (column _ _ Ha k Hk) as (o & Ho & _). rewrite (value_eq _ _ _ k o H1 Ho) in H2.
  unfold ProjectedRow.IsNull. by destruct (RawBitmap.Test _ _), v.
Qed.

Lemma row_refines_witness :
  let row := ProjectedRow.InitializeRow (make [16; 8; 4; 1] [1; 2; 5; 9]) (replicate 72 170) in
  ProjectedRow.Get (ProjectedRow.Set_ row 2 (Some [1; 2; 3; 4])) 2 4 = Some [1; 2; 3; 4].
Proof.
  destruct (row_refines [16; 8; 4; 1] [1; 2; 5; 9] (replicate 72 170) row_args_example) as [[Hr _] H].
  - vm_compute. congruence.
  - apply Forall_replicate. split; vm_compute; congruence.
  - destruct (H _ Hr) as [_ Hs]. destruct (Hs 2%nat (Some [1; 2; 3; 4])) as (_ & E & _).
    + cbn. lia.
    + split; [reflexivity|]. repeat constructor; vm_compute; congruence.
    + change (Z.of_nat 2) with 2 in E. change ([16; 8; 4; 1] !!! 2%nat) with 4 in E. exact E.
Defined.
