(* ===== verification/Varlen.v ===== *)
(** * Variable-length values

    [VarlenEntry] (storage/storage_defs.h), the comparison functors on it and the
    constructors of [StorageUtil::CreateVarlen] (storage/storage_util.h).  An entry
    is 16 bytes: a signed size whose sign bit says that the buffer is not owned, and
    12 bytes that hold either the value itself (at most 12 bytes long) or a 4-byte
    prefix and the address of a buffer.  Buffers are a map from address to bytes;
    the address [AllocateAligned] returns is an argument. *)

From S2P Require Import Prelude Layout.

Record VarlenEntry := Varlen { size_ : Z; payload_ : list Z }.

Abbreviation buffers := (gmap Z (list Z)).

(** The 16 bytes of an entry in memory, and back. *)
Definition entry_of_bytes (bytes : list Z) : VarlenEntry :=
  Varlen (s32 (le_val (slice 0 4 bytes))) (slice 4 12 bytes).
Definition bytes_of_entry (e : VarlenEntry) : list Z := le_bytes 4 (size_ e) ++ payload_ e.

Definition InlineThreshold : Z := 16 - 4.
Definition PrefixSize : Z := 4.

(** The fields of [payload_]: [prefix_] is its first four bytes, [content_] the
    pointer in the last eight. *)
Definition prefix_ (e : VarlenEntry) : list Z := slice 0 4 (payload_ e).
Definition content_ (e : VarlenEntry) : Z := le_val (slice 4 8 (payload_ e)).

Definition Size (e : VarlenEntry) : Z := u32 (Z.land INT32_MAX (size_ e)).
Definition IsInlined (e : VarlenEntry) : bool := bool_decide (Size e <= InlineThreshold).
Definition NeedReclaim (e : VarlenEntry) : bool := bool_decide (InlineThreshold < size_ e).

(** [Create(content, size, reclaim)] for the buffer [bytes] at address [addr]. *)
Definition Create (addr : Z) (bytes : list Z) (size : Z) (reclaim : bool) : VarlenEntry :=
  Varlen (if reclaim then s32 size else s32 (Z.lor INT32_MIN_bits size))
    (take 4 bytes ++ le_bytes 8 addr).

(** [CreateInline(content, size)]; the entry's memory is [junk] before. *)
Definition CreateInline (junk : list Z) (bytes : list Z) (size : Z) : VarlenEntry :=
  Varlen (s32 size) (splice 0 (take (Z.to_nat size) bytes) junk).

(** The bytes [Content()] points to. *)
Definition Content (mem : buffers) (e : VarlenEntry) : list Z :=
  if IsInlined e then payload_ e else default [] (mem !! content_ e).

Definition StringView (mem : buffers) (e : VarlenEntry) : list Z :=
  take (Z.to_nat (Size e)) (Content mem e).

(** *** StorageUtil::CreateVarlen *)

(** For [std::string]: the entry and the buffers afterwards. *)
Definition CreateVarlen (addr : Z) (junk : list Z) (mem : buffers) (str : list Z) : VarlenEntry * buffers :=
  let size := Z.of_nat (length str) in
  if decide (InlineThreshold < size) then (Create addr str (u32 size) true, <[addr := str]> mem)
  else (CreateInline junk str (u32 size), mem).

(** The bytes written for a [std::vector<std::string>]. *)
Definition serialize_strings (vec : list (list Z)) : list Z :=
  le_bytes 8 (Z.of_nat (length vec)) ++
  concat ((fun elem => le_bytes 8 (Z.of_nat (length elem)) ++ elem) <$> vec).

(** The bytes written for a [std::vector<T>] of elements of [sizeof(T)] bytes each. *)
Definition serialize_fixed (vec : list (list Z)) : list Z :=
  le_bytes 8 (Z.of_nat (length vec)) ++ concat vec.

(** Both vector versions: a buffer is filled, then kept, or copied into the entry
    and freed. *)
Definition CreateVarlen_bytes (addr : Z) (junk : list Z) (mem : buffers) (contents : list Z) : VarlenEntry * buffers :=
  let total_size := Z.of_nat (length contents) in
  let mem := <[addr := contents]> mem in
  if decide (InlineThreshold < total_size) then (Create addr contents (u32 total_size) true, mem)
  else (CreateInline junk contents (u32 total_size), delete addr mem).

(** [DeserializeArray<T>] *)
Definition DeserializeArray (sizeof_T : nat) (mem : buffers) (e : VarlenEntry) : list (list Z) :=
  let contents := Content mem e in
  let num_elements := le_val (slice 0 8 contents) in
  (fun i => slice (8 + i * sizeof_T) sizeof_T contents) <$> seq 0 (Z.to_nat num_elements).

(** The loop of [DeserializeArrayVarlen]; [k] more elements may be read. *)
Fixpoint read_strings (k : nat) (contents : list Z) (to_read num_read : Z) (payload : nat) : list (list Z) :=
  match k with
  | O => []
  | S k =>
    if decide (num_read < to_read) then
      let length := le_val (slice payload 8 contents) in
      let payload := (payload + 8)%nat in
      slice payload (Z.to_nat length) contents ::
      read_strings k contents to_read (u32 (num_read + 8 + length)) (payload + Z.to_nat length)
    else []
  end.

Definition DeserializeArrayVarlen (mem : buffers) (e : VarlenEntry) : list (list Z) :=
  let contents := Content mem e in
  let num_elements := le_val (slice 0 8 contents) in
  read_strings (Z.to_nat num_elements) contents (Size e) 0 8.

(** *** Comparison *)

(** [std::memcmp(a, b, n)]: the sign of the first difference of unsigned bytes. *)
Fixpoint memcmp (a b : list Z) (n : nat) : Z :=
  match n, a, b with
  | S n, x :: a, y :: b => if decide (x = y) then memcmp a b n else if decide (x < y) then -1 else 1
  | _, _, _ => 0
  end.

Definition VarlenContentDeepEqual (mem : buffers) (lhs rhs : VarlenEntry) : bool :=
  if decide (Size lhs ≠ Size rhs) then false
  else bool_decide (memcmp (Content mem lhs) (Content mem rhs) (Z.to_nat (Size lhs)) = 0).

Definition VarlenContentCompare (mem : buffers) (lhs rhs : VarlenEntry) : bool :=
  let res := memcmp (Content mem lhs) (Content mem rhs) (Z.to_nat (Z.min (Size lhs) (Size rhs))) in
  if decide (res = 0) then bool_decide (Size lhs < Size rhs) else bool_decide (res < 0).

(** ** Entries *)

(** An entry whose value is readable: the buffer, if any, holds its bytes. *)
Definition entry_ok (mem : buffers) (e : VarlenEntry) : Prop :=
  Size e <= Z.of_nat (length (Content mem e)).

Lemma s32_small n : 0 <= n < 2 ^ 31 -> s32 n = n.
Proof. intros. apply wraps_small; [lia|]. split; [|apply H]. change (2 ^ (32 - 1)) with 2147483648. lia. Qed.

Lemma Size_small n : 0 <= n < 2 ^ 31 -> Z.land INT32_MAX (s32 n) = n.
Proof.
  intros Hn. rewrite s32_small by lia. rewrite Z.land_comm. change INT32_MAX with (Z.ones 31).
  rewrite Z.land_ones by lia. by apply Z.mod_small.
Qed.

Lemma u32_small n : 0 <= n < 2 ^ 31 -> u32 n = n.
Proof. intros. apply wrapu_small. unfold is_uint. lia. Qed.

Lemma Create_view addr bytes :
  is_uint 64 addr -> InlineThreshold < Z.of_nat (length bytes) < 2 ^ 31 ->
  let e := Create addr bytes (Z.of_nat (length bytes)) true in
  Size e = Z.of_nat (length bytes) /\ IsInlined e = false /\ NeedReclaim e = true /\ content_ e = addr /\
  prefix_ e = take 4 bytes.
Proof.
  intros Haddr Hl e. assert (size_ e = Z.of_nat (length bytes)) as Hs.
  { cbn [e Create size_]. apply s32_small; unfold InlineThreshold in *; lia. }
  assert (Size e = Z.of_nat (length bytes)) as HS.
  { unfold Size. rewrite Hs, <-(s32_small (Z.of_nat (length bytes))) by (unfold InlineThreshold in *; lia).
    rewrite Size_small, u32_small by (unfold InlineThreshold in *; lia). done. }
  assert (length (take 4 bytes) = 4%nat) as H4 by (rewrite length_take; unfold InlineThreshold in *; lia).
  split_and!; [done| | | |].
  - unfold IsInlined. rewrite HS. apply bool_decide_eq_false. lia.
  - unfold NeedReclaim. rewrite Hs. apply bool_decide_eq_true. lia.
  - unfold content_, slice, e, Create, payload_. rewrite drop_app_length' by done.
    rewrite take_ge by (rewrite length_le_bytes; lia). rewrite le_val_bytes. by apply wrapu_small.
  - unfold prefix_, slice, e, Create, payload_. rewrite drop_0. by rewrite take_app_length'.
Qed.

(** An entry that does not own its buffer: the sign bit of its size is set. *)
Lemma Create_borrowed_view addr bytes size :
  is_uint 64 addr -> InlineThreshold < size < 2 ^ 31 -> size <= Z.of_nat (length bytes) ->
  let e := Create addr bytes size false in
  Size e = size /\ IsInlined e = false /\ NeedReclaim e = false /\ content_ e = addr.
Proof.
  intros Ha Hs Hl e. unfold InlineThreshold in *.
  assert (size_ e = size - 2 ^ 31) as Hsz.
  { cbn [e Create size_]. change INT32_MIN_bits with (Z.shiftl 1 31).
    rewrite lor_shift_add by (unfold is_uint; lia). unfold wraps, wrapu.
    assert (Z.shiftl 1 31 + size = 2 ^ 31 + size) as -> by reflexivity.
    rewrite Z.mod_small by lia. change (2 ^ (32 - 1)) with (2 ^ 31). rewrite decide_False; lia. }
  assert (Size e = size) as HS.
  { unfold Size. rewrite Hsz, Z.land_comm. change INT32_MAX with (Z.ones 31). rewrite Z.land_ones by lia.
    replace (size - 2 ^ 31) with (size + (-1) * 2 ^ 31) by lia. rewrite Z_mod_plus_full, Z.mod_small by lia. apply u32_small. lia. }
  split; [done|]. split; [|split].
  - unfold IsInlined, InlineThreshold. rewrite HS. apply bool_decide_eq_false. lia.
  - unfold NeedReclaim, InlineThreshold. rewrite Hsz. apply bool_decide_eq_false. lia.
  - unfold content_, slice, e, Create, payload_. rewrite drop_app_length' by (rewrite length_take; lia).
    rewrite take_ge by (rewrite length_le_bytes; lia). rewrite le_val_bytes. by apply wrapu_small.
Qed.

Lemma CreateInline_view junk bytes mem :
  length junk = 12%nat ->
  Z.of_nat (length bytes) <= InlineThreshold ->
  let e := CreateInline junk bytes (Z.of_nat (length bytes)) in
  Size e = Z.of_nat (length bytes) /\ IsInlined e = true /\ NeedReclaim e = false /\
  take (length bytes) (Content mem e) = bytes /\ length (Content mem e) = 12%nat.
Proof.
  intros Hjunk Hl e. unfold InlineThreshold in *.
  assert (size_ e = Z.of_nat (length bytes)) as Hs by (cbn [e CreateInline size_]; apply s32_small; lia).
  assert (Size e = Z.of_nat (length bytes)) as HS.
  { unfold Size. rewrite Hs, <-(s32_small (Z.of_nat (length bytes))) by lia.
    rewrite Size_small, u32_small by lia. done. }
  assert (IsInlined e = true) as HI by (unfold IsInlined, InlineThreshold; rewrite HS; apply bool_decide_eq_true; lia).
  split_and!; [done|done| | |].
  - unfold NeedReclaim, InlineThreshold. rewrite Hs. apply bool_decide_eq_false. lia.
  - unfold Content. rewrite HI. cbn [e CreateInline payload_]. rewrite Nat2Z.id, firstn_all.
    apply (slice_splice_same 0 bytes junk). lia.
  - unfold Content. rewrite HI. cbn [e CreateInline payload_]. by rewrite length_splice.
Qed.

(** Whatever way a value is stored, its entry reads back. *)
Lemma CreateVarlen_bytes_view addr junk mem contents :
  is_uint 64 addr -> length junk = 12%nat -> Z.of_nat (length contents) < 2 ^ 31 ->
  let '(e, mem') := CreateVarlen_bytes addr junk mem contents in
  Size e = Z.of_nat (length contents) /\ take (length contents) (Content mem' e) = contents /\
  StringView mem' e = contents /\ NeedReclaim e = bool_decide (InlineThreshold < Z.of_nat (length contents)).
Proof.
  intros Ha Hj Hl. unfold CreateVarlen_bytes. rewrite u32_small by lia. case_decide as Hd.
  - destruct (Create_view addr contents Ha (conj Hd Hl)) as (HS & HI & HN & HC & _).
    assert (Content (<[addr:=contents]> mem) (Create addr contents (Z.of_nat (length contents)) true) = contents) as E.
    { unfold Content. rewrite HI, HC. rewrite lookup_insert_eq. done. }
    unfold StringView. rewrite E, HS, Nat2Z.id, firstn_all. split_and!; [done..|].
    rewrite HN. symmetry. by apply bool_decide_eq_true.
  - destruct (CreateInline_view junk contents (delete addr (<[addr:=contents]> mem)) Hj) as (HS & HI & HN & HC & _); [lia|].
    unfold StringView. rewrite HS, Nat2Z.id. split_and!; [done..|].
    rewrite HN. symmetry. by apply bool_decide_eq_false.
Qed.

(** Entries written to memory read back. *)
Lemma entry_roundtrip e : is_sint 32 (size_ e) -> length (payload_ e) = 12%nat -> entry_of_bytes (bytes_of_entry e) = e.
Proof.
  intros Hs Hl. destruct e as [size payload]. cbn [size_ payload_] in *. unfold entry_of_bytes, bytes_of_entry, slice. cbn [size_ payload_].
  rewrite drop_0, take_app_length', drop_app_length' by (by rewrite length_le_bytes).
  rewrite take_ge by lia. rewrite le_val_bytes. change (8 * Z.of_nat 4) with 32. rewrite wraps_wrapu. f_equal. by apply wraps_small.
Qed.

Lemma payload_CreateInline junk bytes size : length (payload_ (CreateInline junk bytes size)) = length junk.
Proof. apply length_splice. Qed.

Lemma payload_Create addr bytes size reclaim : (4 <= length bytes)%nat -> length (payload_ (Create addr bytes size reclaim)) = 12%nat.
Proof. intros. cbn [Create payload_]. rewrite length_app, length_take, length_le_bytes. lia. Qed.

(** A readable entry keeps its value when buffers are added. *)
Lemma StringView_mono (mem mem' : buffers) e :
  mem ⊆ mem' -> length (StringView mem e) = Z.to_nat (Size e) -> StringView mem' e = StringView mem e.
Proof.
  intros Hsub Hl. unfold StringView, Content in *. destruct (IsInlined e) eqn:Ei; [done|].
  destruct (mem !! content_ e) as [bs|] eqn:E; [by rewrite (lookup_weaken _ _ _ _ E Hsub)|].
  cbn in Hl. rewrite take_nil in Hl. unfold IsInlined, InlineThreshold in Ei. apply bool_decide_eq_false in Ei. cbn in Hl. lia.
Qed.

(** ** Serialised vectors *)

Lemma length_le8 z : length (le_bytes 8 z) = 8%nat.
Proof. apply length_le_bytes. Qed.

Lemma le_val8 z : 0 <= z < 2 ^ 64 -> le_val (le_bytes 8 z) = z.
Proof. intros. rewrite le_val_bytes. by apply wrapu_small. Qed.

Definition string_bytes (elem : list Z) : list Z := le_bytes 8 (Z.of_nat (length elem)) ++ elem.

Lemma slice_app_mid {A} (pre mid post : list A) n m :
  n = length pre -> m = length mid -> slice n m (pre ++ mid ++ post) = mid.
Proof. intros -> ->. unfold slice. by rewrite drop_app_length, take_app_length. Qed.

Lemma read_strings_serialized vec : forall pre post num_read to_read,
  0 <= num_read -> num_read + Z.of_nat (length (concat (string_bytes <$> vec))) <= to_read ->
  to_read < 2 ^ 32 ->
  read_strings (length vec) (pre ++ concat (string_bytes <$> vec) ++ post) to_read num_read (length pre) = vec.
Proof.
  induction vec as [|s vec IH]; intros pre post num_read to_read H0 Hle Hb; [done|].
  cbn [length read_strings fmap list_fmap concat] in *. rewrite !length_app in Hle. unfold string_bytes in Hle at 1.
  rewrite length_app, length_le8 in Hle. rewrite decide_True by lia.
  assert (le_val (slice (length pre) 8 (pre ++ (string_bytes s ++ concat (string_bytes <$> vec)) ++ post))
          = Z.of_nat (length s)) as ->.
  { unfold string_bytes at 1. rewrite <-!app_assoc. rewrite slice_app_mid by (rewrite ?length_le8; done).
    apply le_val8. lia. }
  rewrite Nat2Z.id. f_equal.
  - unfold string_bytes at 1. rewrite <-!app_assoc, (app_assoc pre).
    apply slice_app_mid; [|done]. by rewrite length_app, length_le8.
  - rewrite wrapu_small by (unfold is_uint; lia).
    replace (length pre + 8 + length s)%nat with (length (pre ++ string_bytes s)).
    2:{ unfold string_bytes. rewrite !length_app, length_le8. lia. }
    rewrite <-!app_assoc, (app_assoc pre). apply IH; [lia|lia|done].
Qed.

Lemma take_slice {A} (l l' : list A) off n m :
  take m l = l' -> (off + n <= m)%nat -> slice off n l = slice off n l'.
Proof.
  intros <- Hle. unfold slice. apply list_eq. intros i.
  destruct (decide (i < n)%nat); [|by rewrite !lookup_take_ge by lia].
  by rewrite !lookup_take_lt, !lookup_drop, lookup_take_lt by lia.
Qed.

Lemma serialize_strings_eq vec :
  serialize_strings vec = le_bytes 8 (Z.of_nat (length vec)) ++ concat (string_bytes <$> vec).
Proof. done. Qed.

Lemma CreateVarlen_view (addr : Z) (junk : list Z) (mem : buffers) (str : list Z) :
  is_uint 64 addr -> length junk = 12%nat -> Z.of_nat (length str) < 2 ^ 31 ->
  let '(e, mem') := CreateVarlen addr junk mem str in
  StringView mem' e = str /\ Size e = Z.of_nat (length str) /\
  NeedReclaim e = bool_decide (InlineThreshold < Z.of_nat (length str)) /\
  (NeedReclaim e = false -> mem' = mem).
Proof.
  intros Ha Hj Hl. pose proof (CreateVarlen_bytes_view addr junk mem str Ha Hj Hl) as H.
  unfold CreateVarlen_bytes, CreateVarlen in *. rewrite (u32_small (Z.of_nat (length str))) in H |- * by lia.
  case_decide as Hd.
  - destruct H as (HS & _ & HV & HN). split_and!; [done..|]. rewrite HN. by rewrite bool_decide_eq_false.
  - destruct H as (HS & HC & HV & HN). split_and!; try done.
    etrans; [|exact HV]. unfold StringView, Content.
    destruct (CreateInline_view junk str mem Hj ltac:(lia)) as (_ & HI & _). by rewrite HI.
Qed.

(** A string up to 2^31 - 1 bytes reads back from the entry [CreateVarlen] makes
    of it; it owns a buffer exactly when it is longer than 12 bytes. *)
Theorem CreateVarlen_roundtrip (addr : Z) (junk : list Z) (mem : buffers) (str : list Z) :
  is_uint 64 addr -> length junk = 12%nat -> Z.of_nat (length str) < 2 ^ 31 ->
  let '(e, mem') := CreateVarlen addr junk mem str in
  StringView mem' e = str /\ Size e = Z.of_nat (length str) /\
  NeedReclaim e = bool_decide (InlineThreshold < Z.of_nat (length str)) /\
  (NeedReclaim e = false -> mem' = mem).
Proof. apply CreateVarlen_view. Qed.

Lemma CreateVarlen_roundtrip_witness :
  let str := Z.of_nat <$> seq 65 20 in
  StringView (CreateVarlen 4096 (replicate 12 0) ∅ str).2 (CreateVarlen 4096 (replicate 12 0) ∅ str).1 = str.
Proof.
  pose proof (CreateVarlen_roundtrip 4096 (replicate 12 0) ∅ (Z.of_nat <$> seq 65 20)) as H.
  cbv zeta. destruct (CreateVarlen 4096 (replicate 12 0) ∅ (Z.of_nat <$> seq 65 20)) as [e mem'].
  destruct H as [H _]; [split; vm_compute; congruence|reflexivity|vm_compute; reflexivity|]. exact H.
Defined.

(** A vector of strings (up to 2^31 - 1 bytes serialised) reads back from its
    entry: [DeserializeArrayVarlen] of [CreateVarlen] is the identity. *)
Theorem string_array_roundtrip (addr : Z) (junk : list Z) (mem : buffers) (vec : list (list Z)) :
  is_uint 64 addr -> length junk = 12%nat -> Z.of_nat (length (serialize_strings vec)) < 2 ^ 31 ->
  let '(e, mem') := CreateVarlen_bytes addr junk mem (serialize_strings vec) in
  DeserializeArrayVarlen mem' e = vec.
Proof.
  intros Ha Hj Hl. pose proof (CreateVarlen_bytes_view addr junk mem _ Ha Hj Hl) as H.
  destruct (CreateVarlen_bytes _ _ _ _) as [e mem']. destruct H as (HS & HT & _ & _).
  assert (Z.of_nat (length vec) < 2 ^ 31) as Hn.
  { assert (length vec <= length (concat (string_bytes <$> vec)))%nat; [|rewrite serialize_strings_eq, length_app in Hl; lia].
    clear. induction vec as [|s vec IH]; [done|]. cbn [fmap list_fmap concat length].
    unfold string_bytes at 1. rewrite !length_app, length_le8. lia. }
  rewrite serialize_strings_eq in *. unfold DeserializeArrayVarlen. set (c := Content mem' e) in *.
  assert (8 <= length (le_bytes 8 (Z.of_nat (length vec)) ++ concat (string_bytes <$> vec)))%nat as H8.
  { rewrite length_app, length_le8. lia. }
  rewrite (take_slice c _ 0 8 _ HT H8).
  rewrite <-(app_nil_l (_ ++ _)), slice_app_mid, le_val8, Nat2Z.id by (rewrite ?length_le8; (done || lia)).
  rewrite <-(take_drop (length (le_bytes 8 (Z.of_nat (length vec)) ++ concat (string_bytes <$> vec))) c), HT, HS.
  rewrite <-app_assoc.
  pose proof (read_strings_serialized vec (le_bytes 8 (Z.of_nat (length vec)))) as HR.
  rewrite length_le8 in HR. apply HR; rewrite ?length_app in *; lia.
Qed.

Lemma string_array_roundtrip_witness :
  let vec := [[104; 105]; []; [1; 2; 3; 4]] in
  let r := CreateVarlen_bytes 64 (replicate 12 7) ∅ (serialize_strings vec) in
  DeserializeArrayVarlen r.2 r.1 = vec.
Proof.
  pose proof (string_array_roundtrip 64 (replicate 12 7) ∅ [[104; 105]; []; [1; 2; 3; 4]]) as H.
  cbv zeta. destruct (CreateVarlen_bytes 64 (replicate 12 7) ∅ (serialize_strings _)) as [e mem'].
  apply H; [split; vm_compute; congruence|reflexivity|vm_compute; reflexivity].
Defined.

(** ** Comparison is the lexicographic order of the values *)

Inductive lex_lt : list Z -> list Z -> Prop :=
| lex_nil y b : lex_lt [] (y :: b)
| lex_head x y a b : x < y -> lex_lt (x :: a) (y :: b)
| lex_tail x a b : lex_lt a b -> lex_lt (x :: a) (x :: b).

Lemma lex_lt_irrefl a : ~ lex_lt a a.
Proof. induction a as [|x a IH]; inversion 1; subst; [lia|auto]. Qed.

Lemma lex_lt_trans a b c : lex_lt a b -> lex_lt b c -> lex_lt a c.
Proof.
  intros H. revert c. induction H as [y b|x y a b Hxy|x a b _ IH]; intros c H2; inversion H2; subst;
    first [apply lex_nil | apply lex_head; lia | apply lex_tail; auto].
Qed.

Lemma lex_total a b : lex_lt a b \/ a = b \/ lex_lt b a.
Proof.
  revert b. induction a as [|x a IH]; intros [|y b]; [by right; left|left; constructor|right; right; constructor|].
  destruct (Z.lt_trichotomy x y) as [|[->|]]; [left; by constructor| |right; right; by constructor].
  destruct (IH b) as [|[->|]]; [left; by constructor|by right; left|right; right; by constructor].
Qed.

Lemma memcmp_0 a : forall b n,
  (n <= length a)%nat -> (n <= length b)%nat -> memcmp a b n = 0 <-> take n a = take n b.
Proof.
  induction a as [|x a IH]; intros [|y b] [|n] Ha Hb; simpl in *; try (split; (done || lia)).
  case_decide as E; [subst|].
  - rewrite IH by lia. split; [by intros ->|by intros [=]].
  - split; [case_decide; done|]. intros [= ? ?]. done.
Qed.

(** The two tests of [VarlenContentCompare] decide the lexicographic order. *)
Lemma memcmp_lex a : forall b,
  let n := min (length a) (length b) in
  (if decide (memcmp a b n = 0) then bool_decide (length a < length b)%nat else bool_decide (memcmp a b n < 0)) = true
  <-> lex_lt a b.
Proof.
  induction a as [|x a IH]; intros [|y b]; cbn [length min memcmp].
  - cbn. split; [done|inversion 1].
  - cbn. split; [constructor|done].
  - cbn. split; [done|inversion 1].
  - case_decide as E1; case_decide as E2; subst.
    + pose proof (IH b) as IH'. cbv zeta in IH'. rewrite decide_True in IH' by done.
      rewrite bool_decide_eq_true in IH' |- *. rewrite <-Nat.succ_lt_mono, IH'.
      split; [by constructor|inversion 1; subst; [lia|done]].
    + case_decide; done.
    + pose proof (IH b) as IH'. cbv zeta in IH'. rewrite decide_False in IH' by done. rewrite IH'.
      split; [by constructor|inversion 1; subst; [lia|done]].
    + case_decide; rewrite bool_decide_eq_true; (split; [try (constructor; lia); lia|inversion 1; subst; lia]).
Qed.

Lemma memcmp_take a : forall b n, memcmp (take n a) (take n b) n = memcmp a b n.
Proof.
  induction a as [|x a IH]; intros [|y b] [|n]; simpl; try done. by rewrite IH.
Qed.

Lemma memcmp_take_min a : forall b n k l, (n <= k)%nat -> (n <= l)%nat ->
  memcmp (take k a) (take l b) n = memcmp a b n.
Proof.
  induction a as [|x a IH]; intros [|y b] [|n] [|k] [|l] Hk Hl; simpl; try (done || lia).
  by rewrite IH by lia.
Qed.

Lemma length_StringView mem e : entry_ok mem e -> length (StringView mem e) = Z.to_nat (Size e).
Proof. unfold entry_ok, StringView. intros. rewrite length_take. lia. Qed.

Lemma Size_nonneg e : 0 <= Size e.
Proof. apply wrapu_bound. lia. Qed.

Lemma Compare_lex mem a b :
  entry_ok mem a -> entry_ok mem b ->
  VarlenContentCompare mem a b = true <-> lex_lt (StringView mem a) (StringView mem b).
Proof.
  intros Ha Hb. rewrite <-memcmp_lex. rewrite !length_StringView by done.
  pose proof (Size_nonneg a). pose proof (Size_nonneg b). unfold VarlenContentCompare, StringView.
  rewrite memcmp_take_min by lia. rewrite Z2Nat.inj_min.
  rewrite (bool_decide_ext (Size a < Size b) (Z.to_nat (Size a) < Z.to_nat (Size b))%nat) by lia. done.
Qed.

Lemma DeepEqual_eq mem a b :
  entry_ok mem a -> entry_ok mem b ->
  VarlenContentDeepEqual mem a b = true <-> StringView mem a = StringView mem b.
Proof.
  intros Ha Hb. pose proof (Size_nonneg a). pose proof (Size_nonneg b). unfold VarlenContentDeepEqual.
  case_decide as E.
  - split; [done|]. intros HE%(f_equal length). rewrite !length_StringView in HE by done. lia.
  - rewrite bool_decide_eq_true, memcmp_0 by (unfold entry_ok in *; lia).
    unfold StringView. by rewrite E.
Qed.

(** On readable entries [VarlenContentCompare] is a strict total order on the
    values, stored inline or not: irreflexive, transitive, and entries neither of
    which is smaller are exactly those [VarlenContentDeepEqual] calls equal, which
    are those holding the same bytes. *)
Theorem Compare_total_order (mem : buffers) (a b c : VarlenEntry) :
  entry_ok mem a -> entry_ok mem b -> entry_ok mem c ->
  VarlenContentCompare mem a a = false /\
  (VarlenContentCompare mem a b = true -> VarlenContentCompare mem b c = true -> VarlenContentCompare mem a c = true) /\
  (VarlenContentDeepEqual mem a b = true <->
    VarlenContentCompare mem a b = false /\ VarlenContentCompare mem b a = false) /\
  (VarlenContentDeepEqual mem a b = true <-> StringView mem a = StringView mem b).
Proof.
  intros Ha Hb Hc. rewrite <-!not_true_iff_false, !Compare_lex, !DeepEqual_eq by done.
  split_and!; [apply lex_lt_irrefl|apply lex_lt_trans| |done]. split.
  - intros ->. split; apply lex_lt_irrefl.
  - generalize (StringView mem a), (StringView mem b). clear. intros a. induction a as [|x a IH]; intros [|y b] [H1 H2].
    + done.
    + destruct H1. constructor.
    + destruct H2. constructor.
    + destruct (Z.lt_trichotomy x y) as [|[->|]]; [destruct H1; by constructor| |destruct H2; by constructor].
      f_equal. apply IH. split; intros ?; [apply H1|apply H2]; by constructor.
Qed.

Lemma Compare_total_order_witness :
  let mem := {[ 64 := replicate 20 65 ]} in
  let a := Create 64 (replicate 20 65) 20 true in
  let b := CreateInline (replicate 12 0) [66] 1 in
  VarlenContentCompare mem a a = false /\ VarlenContentCompare mem a b = true.
Proof.
  split; [|vm_compute; reflexivity].
  apply (Compare_total_order {[ 64 := replicate 20 65 ]} (Create 64 (replicate 20 65) 20 true)
    (CreateInline (replicate 12 0) [66] 1) (CreateInline (replicate 12 0) [66] 1)); vm_compute; congruence.
Defined.
