(* ===== verification/Timestamps.v ===== *)
(** * Timestamps and deferred actions

    [transaction/transaction_defs.h], [transaction_util.h],
    [timestamp_manager.{h,cpp}] and [deferred_action_manager.h].  A timestamp is an
    unsigned 64-bit number; the one of an uncommitted transaction has its top bit
    set.  The running transactions are the set of their start times. *)

From S2P Require Import Prelude.

Definition INT64_MIN_bits : Z := 2 ^ 63.
Definition INVALID_TXN_TIMESTAMP : Z := INT64_MIN_bits.
Definition INITIAL_TXN_TIMESTAMP : Z := 0.

Module TransactionUtil.

Definition NewerThan (a b : Z) : bool := bool_decide (b < a).
Definition Committed (timestamp : Z) : bool := bool_decide (0 <= s64 timestamp).

End TransactionUtil.

(** ** TimestampManager *)

Module TimestampManager.

Record TimestampManager := mk {
  time_ : Z;
  cached_oldest_txn_start_time_ : Z;
  curr_running_txns_ : gset Z;
}.

Definition init : TimestampManager := mk INITIAL_TXN_TIMESTAMP INITIAL_TXN_TIMESTAMP ∅.

Definition CheckOutTimestamp (m : TimestampManager) : Z * TimestampManager :=
  (time_ m, mk (u64 (time_ m + 1)) (cached_oldest_txn_start_time_ m) (curr_running_txns_ m)).

Definition CurrentTime (m : TimestampManager) : Z := time_ m.

Definition BeginTransaction (m : TimestampManager) : Z * TimestampManager :=
  let start_time := time_ m in
  (start_time, mk (u64 (time_ m + 1)) (cached_oldest_txn_start_time_ m) ({[start_time]} ∪ curr_running_txns_ m)).

(** [std::min_element] over the set. *)
Definition min_element (s : gset Z) : option Z :=
  match elements s with
  | [] => None
  | x :: l => Some (foldl (fun result y => if decide (y < result) then y else result) x l)
  end.

Definition OldestTransactionStartTime (m : TimestampManager) : Z * TimestampManager :=
  let result := default (time_ m) (min_element (curr_running_txns_ m)) in
  (result, mk (time_ m) result (curr_running_txns_ m)).

Definition CachedOldestTransactionStartTime (m : TimestampManager) : Z := cached_oldest_txn_start_time_ m.

Definition RemoveTransaction (timestamp : Z) (m : TimestampManager) : TimestampManager :=
  mk (time_ m) (cached_oldest_txn_start_time_ m) (curr_running_txns_ m ∖ {[timestamp]}).

Definition RemoveTransactions (timestamps : list Z) (m : TimestampManager) : TimestampManager :=
  foldl (fun m t => RemoveTransaction t m) m timestamps.

(** One call of the manager; times do not wrap around (2^63 of them are left). *)
Inductive step : TimestampManager -> TimestampManager -> Prop :=
| step_checkout m : time_ m + 1 < 2 ^ 63 -> step m (CheckOutTimestamp m).2
| step_begin m : time_ m + 1 < 2 ^ 63 -> step m (BeginTransaction m).2
| step_oldest m : step m (OldestTransactionStartTime m).2
| step_remove m ts : step m (RemoveTransactions ts m).

Definition reachable : TimestampManager -> Prop := rtc step init.

End TimestampManager.

(** ** DeferredActionManager *)

(** An action is opaque, except for the actions it registers when it runs. *)
Module DeferredActionManager.
Section deferred.
Context {A : Type} (registers : A -> list A).

Record DeferredActionManager := mk {
  new_deferred_actions_ : list (Z * A);
  back_log_ : list (Z * A);
}.

Definition RegisterDeferredAction (now : Z) (a : A) (m : DeferredActionManager) : Z * DeferredActionManager :=
  (now, mk (new_deferred_actions_ m ++ [(now, a)]) (back_log_ m)).

(** The loop both processing functions have: run the actions at the front of the
    queue that are due; [new] collects what they register.  Result: the actions run
    (in order), the rest of the queue, the new actions. *)
Fixpoint run_due (oldest_txn now : Z) (queue new : list (Z * A)) : list (Z * A) * list (Z * A) * list (Z * A) :=
  match queue with
  | [] => ([], [], new)
  | (ts, a) :: rest =>
    if decide (ts <= oldest_txn) then
      let '(ex, todo, new') := run_due oldest_txn now rest (new ++ (pair now <$> registers a)) in
      ((ts, a) :: ex, todo, new')
    else ([], queue, new)
  end.

Definition ClearBacklog (oldest_txn now : Z) (m : DeferredActionManager) : list (Z * A) * DeferredActionManager :=
  let '(ex, todo, new) := run_due oldest_txn now (back_log_ m) (new_deferred_actions_ m) in
  (ex, mk new todo).

Definition ProcessNewActions (oldest_txn now : Z) (m : DeferredActionManager) : list (Z * A) * DeferredActionManager :=
  let new_actions_local := new_deferred_actions_ m in
  let '(ex, todo, new) := run_due oldest_txn now new_actions_local [] in
  (ex, mk new (back_log_ m ++ todo)).

(** [Process]: the actions run, their number as returned, and the new state. *)
Definition Process (oldest_txn now : Z) (m : DeferredActionManager) : list (Z * A) * Z * DeferredActionManager :=
  let backlog_size := u32 (Z.of_nat (length (back_log_ m))) in
  let '(ex, m1) := ClearBacklog oldest_txn now m in
  let processed := u32 (Z.of_nat (length ex)) in
  if decide (backlog_size ≠ processed) then (ex, processed, m1)
  else
    let '(ex2, m2) := ProcessNewActions oldest_txn now m1 in
    (ex ++ ex2, u32 (processed + Z.of_nat (length ex2)), m2).

End deferred.
Arguments DeferredActionManager : clear implicits.
End DeferredActionManager.

(** ** Facts about timestamps *)

Import TransactionUtil TimestampManager.

Lemma Committed_lt t : 0 <= t < 2 ^ 64 -> Committed t = bool_decide (t < 2 ^ 63).
Proof.
  intros Ht. unfold Committed. apply bool_decide_ext. unfold wraps.
  rewrite wrapu_small by done. change (2 ^ (64 - 1)) with (2 ^ 63). case_decide; lia.
Qed.

Lemma min_fold x l :
  let r := foldl (fun result y => if decide (y < result) then y else result) x l in
  r ∈ x :: l /\ Forall (fun y => r <= y) (x :: l).
Proof.
  revert x. induction l as [|y l IH]; intros x; cbn [foldl].
  - split; [by left|repeat constructor; lia].
  - destruct (IH (if decide (y < x) then y else x)) as [Hin Hall]. cbv zeta in *.
    set (r := foldl _ _ l) in *. inversion_clear Hall as [|?? Hx Hl].
    split; [|repeat constructor; [..|done]; case_decide; lia].
    apply elem_of_cons in Hin. rewrite !elem_of_cons. case_decide; naive_solver.
Qed.

Lemma min_element_spec s :
  match min_element s with
  | None => s = ∅
  | Some r => r ∈ s /\ forall t, t ∈ s -> r <= t
  end.
Proof.
  unfold min_element. destruct (elements s) as [|x l] eqn:E.
  - apply elements_empty_inv in E. by apply leibniz_equiv.
  - destruct (min_fold x l) as [Hin Hall]. rewrite <-E in *. split; [by apply elem_of_elements|].
    intros t Ht%elem_of_elements. by eapply Forall_forall in Hall.
Qed.

(** What holds between two calls. *)
Definition ts_ok (m : TimestampManager) : Prop :=
  0 <= time_ m < 2 ^ 63 /\
  0 <= cached_oldest_txn_start_time_ m <= time_ m /\
  forall t, t ∈ curr_running_txns_ m -> cached_oldest_txn_start_time_ m <= t < time_ m.

Lemma oldest_spec m :
  ts_ok m -> let r := (OldestTransactionStartTime m).1 in
  0 <= r <= time_ m /\ forall t, t ∈ curr_running_txns_ m -> r <= t.
Proof.
  intros (Ht & Hc & Hr). unfold OldestTransactionStartTime. cbn [fst].
  pose proof (min_element_spec (curr_running_txns_ m)) as H. destruct (min_element _) as [r|]; cbn [default from_option].
  - destruct H as [Hin Hmin]. unfold id. specialize (Hr r Hin). split; [lia|done].
  - rewrite H. split; [lia|set_solver].
Qed.

Lemma RemoveTransactions_spec ts m :
  time_ (RemoveTransactions ts m) = time_ m /\
  cached_oldest_txn_start_time_ (RemoveTransactions ts m) = cached_oldest_txn_start_time_ m /\
  curr_running_txns_ (RemoveTransactions ts m) = curr_running_txns_ m ∖ list_to_set ts.
Proof.
  revert m. induction ts as [|t ts IH]; intros m.
  - cbn. split_and!; [done..|]. set_solver.
  - change (RemoveTransactions (t :: ts) m) with (RemoveTransactions ts (RemoveTransaction t m)).
    destruct (IH (RemoveTransaction t m)) as (-> & -> & ->). split_and!; [done..|].
    cbn. set_solver.
Qed.

Lemma step_ok m m' : ts_ok m -> step m m' -> ts_ok m'.
Proof.
  intros Hok Hs. pose proof Hok as (Ht & Hc & Hr). destruct Hs as [m Hw|m Hw|m|m ts].
  1-2: unfold ts_ok; cbn; rewrite (wrapu_small 64) by (unfold is_uint; lia); split_and!; [lia..|].
  - intros t Hin. specialize (Hr t Hin). lia.
  - intros t Hin.
    apply elem_of_union in Hin as [->%elem_of_singleton|Hin]; [lia|]. specialize (Hr t Hin). lia.
  - pose proof (oldest_spec m Hok) as [H1 H2]. unfold ts_ok. cbn in H1, H2 |- *. split_and!; [lia..|].
    intros t Hin. specialize (Hr t Hin). specialize (H2 t Hin). lia.
  - destruct (RemoveTransactions_spec ts m) as (E1 & E2 & E3). unfold ts_ok. rewrite E1, E2, E3.
    split_and!; [lia..|]. intros t Hin. apply Hr. set_solver.
Qed.

Lemma reachable_ok m : reachable m -> ts_ok m.
Proof.
  intros H. assert (ts_ok init) as H0 by (split_and!; cbn; unfold INITIAL_TXN_TIMESTAMP; [lia..|set_solver]).
  induction H; [done|]. eauto using step_ok.
Qed.

(** ** Theorems *)

(** In every state of the timestamp manager, the cached oldest start time and
    the recomputed one are at most the start time of every running transaction and
    of every transaction that begins later, and the cached one never exceeds the
    recomputed one. *)
Theorem oldest_txn_safe (m : TimestampManager) :
  reachable m ->
  let cached := CachedOldestTransactionStartTime m in
  let oldest := (OldestTransactionStartTime m).1 in
  cached <= oldest /\ oldest <= (BeginTransaction m).1 /\
  (forall t, t ∈ curr_running_txns_ m -> oldest <= t /\ t < (BeginTransaction m).1) /\
  (forall m', rtc step m m' -> forall t, t ∈ curr_running_txns_ m' -> cached <= t).
Proof.
  intros Hr. pose proof (reachable_ok m Hr) as Hok. pose proof (oldest_spec m Hok) as [H1 H2].
  pose proof Hok as (Ht & Hc & Hrun). cbn in *. split_and!.
  - unfold CachedOldestTransactionStartTime, OldestTransactionStartTime in *. cbn in *.
    pose proof (min_element_spec (curr_running_txns_ m)) as H. destruct (min_element _) as [r|]; cbn; [|lia].
    destruct H as [Hin _]. apply Hrun in Hin. unfold id. lia.
  - apply H1.
  - intros t Hin. split; [by apply H2|by apply Hrun].
  - intros m' Hs t Hin. unfold CachedOldestTransactionStartTime.
    enough (cached_oldest_txn_start_time_ m <= time_ m' /\
      forall t, t ∈ curr_running_txns_ m' -> cached_oldest_txn_start_time_ m <= t) as [_ HH] by auto.
    clear Hin. set (c := cached_oldest_txn_start_time_ m) in *.
    assert (c <= time_ m /\ forall t, t ∈ curr_running_txns_ m -> c <= t) as Hinv by (split; [lia|intros; by apply Hrun]).
    clear H1 H2 Hc Hrun Ht Hr. clearbody c. revert Hok Hinv. induction Hs as [m|m m1 m2 Hst Hs IH]; intros Hok Hinv; [done|].
    apply IH; [by eapply step_ok|]. destruct Hinv as [Hi1 Hi2]. clear IH Hs. pose proof Hok as (Hb & _ & _).
    destruct Hst as [m Hw|m Hw|m|m ts]; cbn; rewrite ?(wrapu_small 64) by (unfold is_uint; lia).
    + split; [lia|done].
    + split; [lia|]. set_unfold. naive_solver lia.
    + done.
    + destruct (RemoveTransactions_spec ts m) as (-> & _ & ->). set_solver.
Qed.

Lemma oldest_txn_safe_witness :
  let m := (BeginTransaction (BeginTransaction init).2).2 in
  (OldestTransactionStartTime m).1 <= 1.
Proof.
  refine (proj1 (proj1 (proj2 (proj2 (oldest_txn_safe (BeginTransaction (BeginTransaction init).2).2 _))) 1 _)).
  - eapply rtc_l; [apply step_begin; vm_compute; reflexivity|].
    eapply rtc_l; [apply step_begin; vm_compute; reflexivity|]. apply rtc_refl.
  - vm_compute. reflexivity.
Defined.

Import DeferredActionManager.

Section deferred_facts.
Context {A : Type} (registers : A -> list A).

Lemma run_due_spec oldest now queue new :
  let '(ex, todo, new') := run_due registers oldest now queue new in
  queue = ex ++ todo /\ Forall (fun p => p.1 <= oldest) ex /\
  (forall p, head todo = Some p -> oldest < p.1) /\
  new' = new ++ (pair now <$> (ex ≫= fun p => registers p.2)).
Proof.
  revert new. induction queue as [|[ts a] queue IH]; intros new; cbn [run_due].
  - split_and!; try done. cbn. by rewrite app_nil_r.
  - case_decide as Hd.
    + specialize (IH (new ++ (pair now <$> registers a))).
      destruct (run_due _ _ _ _ _) as [[ex todo] new']. destruct IH as (-> & HF & HH & ->).
      split_and!; [done|by constructor|done|]. cbn. rewrite fmap_app, app_assoc. done.
    + split_and!; try done; [intros p [= <-]; cbn; lia|]. cbn. by rewrite app_nil_r.
Qed.

Abbreviation by_time := (fun p q : Z * A => p.1 <= q.1).

Lemma sorted_not_due oldest (queue : list (Z * A)) :
  StronglySorted by_time queue -> (forall p, head queue = Some p -> oldest < p.1) ->
  forall p, p ∈ queue -> oldest < p.1.
Proof.
  intros Hs Hh p Hp. destruct queue as [|q queue]; [by apply elem_of_nil in Hp|].
  specialize (Hh q eq_refl). apply StronglySorted_inv in Hs as [_ Hall].
  apply elem_of_cons in Hp as [->|Hp]; [done|].
  rewrite Forall_forall in Hall. specialize (Hall p Hp). cbn in Hall. lia.
Qed.

Lemma sorted_app_r (q1 q2 : list (Z * A)) : StronglySorted by_time (q1 ++ q2) -> StronglySorted by_time q2.
Proof. induction q1; [done|]. intros [??]%StronglySorted_inv. auto. Qed.

Lemma sorted_registered now (q : list (Z * A)) reg :
  StronglySorted by_time q -> Forall (fun p => p.1 <= now) q -> StronglySorted by_time (q ++ (pair now <$> reg)).
Proof.
  intros Hs Hn. induction q as [|p q IH]; cbn.
  - induction reg as [|a reg IHr]; cbn; constructor; [done|]. apply Forall_fmap, Forall_true. cbn. lia.
  - apply StronglySorted_inv in Hs as [Hs Ha]. inversion_clear Hn. constructor; [auto|].
    apply Forall_app. split; [done|]. apply Forall_fmap, Forall_true. done.
Qed.

End deferred_facts.

(** Processing deferred actions is first-in first-out and loses nothing: the
    queued actions followed by those registered meanwhile are the actions run
    followed by the new queue; every action run was due, every queued action that is
    due is run, and the number returned is the number of actions run.  The queue is
    in the order of registration times, none of them in the future. *)
Theorem Process_fifo {A : Type} (registers : A -> list A) (oldest_txn now : Z) (m : DeferredActionManager A) :
  let queue := back_log_ m ++ new_deferred_actions_ m in
  Z.of_nat (length queue + length (back_log_ m ≫= fun p => registers p.2)) < 2 ^ 32 ->
  StronglySorted (fun p q => p.1 <= q.1) queue -> Forall (fun p => p.1 <= now) queue ->
  let '(ex, processed, m') := Process registers oldest_txn now m in
  queue ++ (pair now <$> (ex ≫= fun p => registers p.2)) =
    ex ++ back_log_ m' ++ new_deferred_actions_ m' /\
  (forall p, p ∈ ex -> p.1 <= oldest_txn) /\
  (forall p, p ∈ queue -> p.1 <= oldest_txn -> p ∈ ex) /\
  processed = Z.of_nat (length ex).
Proof.
  intros queue Hlen Hsort Hnow. unfold Process, ClearBacklog, queue in *. clear queue.
  pose proof (run_due_spec registers oldest_txn now (back_log_ m) (new_deferred_actions_ m)) as H1.
  destruct (run_due _ _ _ (back_log_ m) _) as [[ex todo] new]. destruct H1 as (Hq & HF & HH & Hnew).
  rewrite Hq, !length_app in Hlen. rewrite Hq, <-app_assoc in Hsort, Hnow. rewrite Hq.
  rewrite !wrapu_small by (unfold is_uint; rewrite ?length_app; lia). rewrite length_app.
  case_decide as Hd; cbn [back_log_ new_deferred_actions_ fst snd].
  - split_and!; [by rewrite Hnew, <-!app_assoc|by apply Forall_forall| |done].
    intros p Hp Hdue. rewrite <-app_assoc, elem_of_app in Hp. destruct Hp as [Hp|Hp]; [done|].
    apply (sorted_not_due oldest_txn) in Hp; [lia|by eapply sorted_app_r|].
    intros q. destruct todo; [cbn in *; lia|]. apply HH.
  - assert (todo = []) as -> by (apply length_zero_iff_nil; lia). rewrite app_nil_r in *. cbn [app] in *.
    unfold ProcessNewActions. cbn [back_log_ new_deferred_actions_].
    pose proof (run_due_spec registers oldest_txn now new []) as H2.
    destruct (run_due _ _ _ new _) as [[ex2 todo2] new2]. destruct H2 as (Hq2 & HF2 & HH2 & Hnew2).
    cbn [back_log_ new_deferred_actions_ fst snd app] in *. split_and!.
    + rewrite bind_app, fmap_app, <-Hnew2, <-(app_assoc ex), (app_assoc (new_deferred_actions_ m)), <-Hnew, Hq2.
      by rewrite <-!app_assoc.
    + rewrite <-Forall_forall. by apply Forall_app.
    + intros p Hp Hdue. rewrite elem_of_app in *. destruct Hp as [|Hp]; [by left|]. right.
      assert (p ∈ ex2 ++ todo2) as Hp2 by (rewrite <-Hq2, Hnew; apply elem_of_app; by left).
      apply elem_of_app in Hp2 as [|Hp2]; [done|].
      apply (sorted_not_due oldest_txn) in Hp2; [lia| |done]. apply (sorted_app_r ex2). rewrite <-Hq2, Hnew.
      apply sorted_registered; [by eapply sorted_app_r|]. by apply Forall_app in Hnow as [_ ?].
    + assert (length ex2 <= length new)%nat by (rewrite Hq2, length_app; lia).
      rewrite Hnew, length_app, length_fmap in H. rewrite length_app, wrapu_small; [lia|]. unfold is_uint. lia.
Qed.

Lemma Process_fifo_witness :
  let m := mk [(5, 1%nat)] [(3, 0%nat)] in
  (Process (fun a => if decide (a = 0%nat) then [7%nat] else []) 5 6 m).1.2 = 2.
Proof.
  pose proof (Process_fifo (fun a => if decide (a = 0%nat) then [7%nat] else []) 5 6 (mk [(5, 1%nat)] [(3, 0%nat)])) as H.
  cbv zeta. destruct (Process _ 5 6 _) as [[ex processed] m'] eqn:E. cbn [fst snd].
  destruct H as (_ & _ & _ & ->); [vm_compute; reflexivity|repeat constructor; cbn; lia|repeat constructor; cbn; lia|].
  vm_compute in E. injection E as <- _ _. reflexivity.
Defined.
