(* ===== verification/DataTable.v ===== *)
(** * DataTable: tuples, undo records and the operations on them

    [storage/data_table.{h,cpp}], [storage/undo_record.h], the record-making part of
    [transaction/transaction_context.h] and the row copying of
    [storage/storage_util.cpp].

    Memory is modelled at the level of attributes: a tuple slot has its allocation
    bit, the presence bit of the version column (the logical-delete bit), its version
    pointer and its other attributes; undo records live in a map from address to
    record, linked by [next_].  Reading an address that holds no record gives [None],
    so that a use after free shows.  An operation runs to completion before the
    next one: the compare-and-swap loops find the pointer they have just read, so
    their bodies run once.  The address a buffer hands out for a new record, and the
    blocks the block store can hand out, are arguments. *)

From S2P Require Import Prelude Layout Varlen Timestamps.
Import TransactionUtil BlockLayout.
Abbreviation TupleSlot := TupleSlot.TupleSlot.

(** ** Rows *)

(** A [ProjectedRow]: its column ids and, per column, the value or null. *)
Abbreviation row := (list (Z * option (list Z))).

(** The attributes of a tuple; a null attribute is absent. *)
Abbreviation attributes := (gmap Z (list Z)).

(** [CopyAttrIntoProjection] for every column of a row. *)
Definition project (cols : list Z) (a : attributes) : row := (fun c => (c, a !! c)) <$> cols.

(** [CopyAttrFromProjection]: one attribute, and every column of a row in turn. *)
Definition write_attr (a : attributes) (p : Z * option (list Z)) : attributes :=
  partial_alter (fun _ => p.2) p.1 a.

Definition write_row (r : row) (a : attributes) : attributes := foldl write_attr a r.

(** [StorageUtil::ApplyDelta]: two cursors over the sorted column ids. *)
Fixpoint ApplyDelta (delta : row) : row -> row :=
  fix advance (buffer : row) : row :=
    match delta, buffer with
    | [], _ => buffer
    | _, [] => []
    | (dc, dv) :: ds, (bc, bv) :: bs =>
      if decide (dc = bc) then (bc, dv) :: ApplyDelta ds bs
      else if decide (dc > bc) then (bc, bv) :: advance bs
      else ApplyDelta ds buffer
    end.

(** ** Undo records, tuples, memory *)

Inductive DeltaRecordType := UPDATE | INSERT | DELETE.

#[export] Instance DeltaRecordType_eq_dec : EqDecision DeltaRecordType.
Proof. solve_decision. Defined.

Record UndoRecord := Undo {
  type_ : DeltaRecordType;
  next_ : option Z;
  timestamp_ : Z;
  table_ : option Z;
  slot_ : TupleSlot;
  delta_ : row;
}.

Definition set_next (n : option Z) (r : UndoRecord) : UndoRecord :=
  Undo (type_ r) n (timestamp_ r) (table_ r) (slot_ r) (delta_ r).
Definition set_timestamp (t : Z) (r : UndoRecord) : UndoRecord :=
  Undo (type_ r) (next_ r) t (table_ r) (slot_ r) (delta_ r).
Definition set_table (t : option Z) (r : UndoRecord) : UndoRecord :=
  Undo (type_ r) (next_ r) (timestamp_ r) t (slot_ r) (delta_ r).
Definition set_delta (d : row) (r : UndoRecord) : UndoRecord :=
  Undo (type_ r) (next_ r) (timestamp_ r) (table_ r) (slot_ r) d.

(** [UndoRecord::Initialize*]; an update's row has the redo's columns and no values
    yet. *)
Definition InitializeInsert (timestamp : Z) (slot : TupleSlot) (table : Z) : UndoRecord :=
  Undo INSERT None timestamp (Some table) slot [].
Definition InitializeDelete (timestamp : Z) (slot : TupleSlot) (table : Z) : UndoRecord :=
  Undo DELETE None timestamp (Some table) slot [].
Definition InitializeUpdate (timestamp : Z) (slot : TupleSlot) (table : Z) (redo : row) : UndoRecord :=
  Undo UPDATE None timestamp (Some table) slot ((fun p => (p.1, None)) <$> redo).

Record tuple := Tuple {
  allocated_ : bool;
  present_ : bool;
  version_ptr_ : option Z;
  attrs_ : attributes;
}.

Definition pristine : tuple := Tuple false false None ∅.

Record memory := Memory {
  tuples : gmap TupleSlot tuple;
  undos : gmap Z UndoRecord;
  insert_heads : gmap Z Z;
  data_tables : gmap Z Z;
  block_store : list Z;
}.

Definition tuple_at (m : memory) (slot : TupleSlot) : tuple := default pristine (tuples m !! slot).

Definition set_tuple (slot : TupleSlot) (t : tuple) (m : memory) : memory :=
  Memory (<[slot := t]> (tuples m)) (undos m) (insert_heads m) (data_tables m) (block_store m).
Definition set_undos (u : gmap Z UndoRecord) (m : memory) : memory :=
  Memory (tuples m) u (insert_heads m) (data_tables m) (block_store m).
Definition alter_undo (f : UndoRecord -> UndoRecord) (p : Z) (m : memory) : memory :=
  set_undos (alter f p (undos m)) m.

(** The accessor operations the table uses, on a tuple. *)
Definition SetNull (t : tuple) : tuple := Tuple (allocated_ t) false (version_ptr_ t) (attrs_ t).
Definition SetNotNull (t : tuple) : tuple := Tuple (allocated_ t) true (version_ptr_ t) (attrs_ t).
Definition Deallocate (t : tuple) : tuple := Tuple false (present_ t) (version_ptr_ t) (attrs_ t).
Definition set_allocated (t : tuple) : tuple := Tuple true (present_ t) (version_ptr_ t) (attrs_ t).
Definition set_version_ptr (p : option Z) (t : tuple) : tuple := Tuple (allocated_ t) (present_ t) p (attrs_ t).
Definition set_attrs (a : attributes) (t : tuple) : tuple := Tuple (allocated_ t) (present_ t) (version_ptr_ t) a.

(** ** Transaction contexts *)

(** The last record staged in the redo buffer: a redo with its slot and row, or
    a delete. *)
Inductive LogRecord := RedoRecord (slot : TupleSlot) (delta : row) | DeleteRecord (slot : TupleSlot).

Record TransactionContext := Txn {
  start_time_ : Z;
  finish_time_ : Z;
  undo_buffer_ : list Z;
  last_log_record_ : option LogRecord;
  has_flushed_ : bool;
  loose_ptrs_ : list Z;
  abort_actions_ : list Z;
  commit_actions_ : list Z;
  aborted_ : bool;
  must_abort_ : bool;
}.

Definition new_txn (start finish : Z) : TransactionContext :=
  Txn start finish [] None false [] [] [] false false.

Definition IsReadOnly (t : TransactionContext) : bool :=
  bool_decide (undo_buffer_ t = []) && bool_decide (loose_ptrs_ t = []).

Definition push_undo (p : Z) (t : TransactionContext) : TransactionContext :=
  Txn (start_time_ t) (finish_time_ t) (undo_buffer_ t ++ [p]) (last_log_record_ t) (has_flushed_ t)
    (loose_ptrs_ t) (abort_actions_ t) (commit_actions_ t) (aborted_ t) (must_abort_ t).

Definition set_last_log_record (r : LogRecord) (t : TransactionContext) : TransactionContext :=
  Txn (start_time_ t) (finish_time_ t) (undo_buffer_ t) (Some r) (has_flushed_ t)
    (loose_ptrs_ t) (abort_actions_ t) (commit_actions_ t) (aborted_ t) (must_abort_ t).

Definition add_loose_ptrs (ps : list Z) (t : TransactionContext) : TransactionContext :=
  Txn (start_time_ t) (finish_time_ t) (undo_buffer_ t) (last_log_record_ t) (has_flushed_ t)
    (loose_ptrs_ t ++ ps) (abort_actions_ t) (commit_actions_ t) (aborted_ t) (must_abort_ t).

Definition RegisterAbortAction (a : Z) (t : TransactionContext) : TransactionContext :=
  Txn (start_time_ t) (finish_time_ t) (undo_buffer_ t) (last_log_record_ t) (has_flushed_ t)
    (loose_ptrs_ t) (a :: abort_actions_ t) (commit_actions_ t) (aborted_ t) (must_abort_ t).

Definition RegisterCommitAction (a : Z) (t : TransactionContext) : TransactionContext :=
  Txn (start_time_ t) (finish_time_ t) (undo_buffer_ t) (last_log_record_ t) (has_flushed_ t)
    (loose_ptrs_ t) (abort_actions_ t) (a :: commit_actions_ t) (aborted_ t) (must_abort_ t).

Definition SetMustAbort (t : TransactionContext) : TransactionContext :=
  Txn (start_time_ t) (finish_time_ t) (undo_buffer_ t) (last_log_record_ t) (has_flushed_ t)
    (loose_ptrs_ t) (abort_actions_ t) (commit_actions_ t) (aborted_ t) true.

(** [StageWrite] and [StageDelete] make the staged record the last one. *)
Definition StageWrite (slot : TupleSlot) (delta : row) : TransactionContext -> TransactionContext :=
  set_last_log_record (RedoRecord slot delta).
Definition StageDelete (slot : TupleSlot) : TransactionContext -> TransactionContext :=
  set_last_log_record (DeleteRecord slot).

(** A new record at address [p] of the transaction's undo buffer. *)
Definition new_undo (p : Z) (r : UndoRecord) (t : TransactionContext) (m : memory) : TransactionContext * memory :=
  (push_undo p t, set_undos (<[p := r]> (undos m)) m).

Definition UndoRecordForUpdate (p table : Z) (slot : TupleSlot) (redo : row) (t : TransactionContext) (m : memory) :=
  new_undo p (InitializeUpdate (finish_time_ t) slot table redo) t m.
Definition UndoRecordForInsert (p table : Z) (slot : TupleSlot) (t : TransactionContext) (m : memory) :=
  new_undo p (InitializeInsert (finish_time_ t) slot table) t m.
Definition UndoRecordForDelete (p table : Z) (slot : TupleSlot) (t : TransactionContext) (m : memory) :=
  new_undo p (InitializeDelete (finish_time_ t) slot table) t m.

(** ** Reading *)

Definition AtomicallyReadVersionPtr (m : memory) (slot : TupleSlot) : option Z := version_ptr_ (tuple_at m slot).

Definition AtomicallyWriteVersionPtr (slot : TupleSlot) (desired : option Z) (m : memory) : memory :=
  set_tuple slot (set_version_ptr desired (tuple_at m slot)) m.

Definition CompareAndSwapVersionPtr (slot : TupleSlot) (expected desired : option Z) (m : memory) : bool * memory :=
  if decide (AtomicallyReadVersionPtr m slot = expected)
  then (true, AtomicallyWriteVersionPtr slot desired m) else (false, m).

Definition Visible (m : memory) (slot : TupleSlot) : bool :=
  let present := allocated_ (tuple_at m slot) in
  let not_deleted := present_ (tuple_at m slot) in
  present && not_deleted.

Definition HasConflict (m : memory) (txn : TransactionContext) (version_ptr : option Z) : option bool :=
  match version_ptr with
  | None => Some false
  | Some p =>
    version ← undos m !! p;
    let version_timestamp := timestamp_ version in
    let txn_id := finish_time_ txn in
    let owned_by_other_txn :=
      negb (Committed version_timestamp) && negb (bool_decide (version_timestamp = txn_id)) in
    let newer_committed_version :=
      Committed version_timestamp && NewerThan version_timestamp (start_time_ txn) in
    Some (owned_by_other_txn || newer_committed_version)
  end.

Definition HasConflictSlot (m : memory) (txn : TransactionContext) (slot : TupleSlot) : option bool :=
  HasConflict m txn (AtomicallyReadVersionPtr m slot).

(** Following the version chain; [None] on a dangling pointer or when the fuel runs
    out. *)
Fixpoint chase (fuel : nat) (u : gmap Z UndoRecord) (start : Z) (version_ptr : option Z)
    (visible : bool) (out_buffer : row) : option (bool * row) :=
  match version_ptr with
  | None => Some (visible, out_buffer)
  | Some p =>
    match fuel with
    | O => None
    | S fuel =>
      version ← u !! p;
      if NewerThan (timestamp_ version) start then
        match type_ version with
        | UPDATE => chase fuel u start (next_ version) visible (ApplyDelta (delta_ version) out_buffer)
        | INSERT => chase fuel u start (next_ version) false out_buffer
        | DELETE => chase fuel u start (next_ version) true out_buffer
        end
      else Some (visible, out_buffer)
    end
  end.

(** [SelectIntoBuffer] for a row with the columns [cols]; [old] is what the buffer
    holds before. *)
Definition SelectIntoBuffer (m : memory) (txn : TransactionContext) (slot : TupleSlot) (cols : list Z) (old : row) :
    option (bool * row) :=
  if negb (allocated_ (tuple_at m slot)) then Some (false, old)
  else
    let version_ptr := AtomicallyReadVersionPtr m slot in
    let out_buffer := project cols (attrs_ (tuple_at m slot)) in
    let visible := Visible m slot in
    match version_ptr with
    | None => Some (visible, out_buffer)
    | Some p =>
      version ← undos m !! p;
      if decide (timestamp_ version = finish_time_ txn) then Some (visible, out_buffer)
      else chase (S (size (undos m))) (undos m) (start_time_ txn) version_ptr visible out_buffer
    end.

(** [Select]: [Some None] when it returns false, the row it fills otherwise. *)
Definition Select (m : memory) (txn : TransactionContext) (slot : TupleSlot) (cols : list Z) : option (option row) :=
  '(visible, out_buffer) ← SelectIntoBuffer m txn slot cols [];
  Some (if visible : bool then Some out_buffer else None).

(** [IsVisible]: the same walk without the row. *)
Fixpoint chase_visible (fuel : nat) (u : gmap Z UndoRecord) (start : Z) (version_ptr : option Z)
    (visible : bool) : option bool :=
  match version_ptr with
  | None => Some visible
  | Some p =>
    match fuel with
    | O => None
    | S fuel =>
      version ← u !! p;
      if NewerThan (timestamp_ version) start then
        chase_visible fuel u start (next_ version)
          match type_ version with UPDATE => visible | INSERT => false | DELETE => true end
      else Some visible
    end
  end.

Definition IsVisible (m : memory) (txn : TransactionContext) (slot : TupleSlot) : option bool :=
  let version_ptr := AtomicallyReadVersionPtr m slot in
  let visible := Visible m slot in
  match version_ptr with
  | None => Some visible
  | Some p =>
    version ← undos m !! p;
    if decide (timestamp_ version = finish_time_ txn) then Some visible
    else chase_visible (S (size (undos m))) (undos m) (start_time_ txn) version_ptr visible
  end.

(** ** Writing *)

Definition Update (table : Z) (txn : TransactionContext) (slot : TupleSlot) (redo : row) (undo : Z) (m : memory) :
    option (bool * TransactionContext * memory) :=
  let '(txn, m) := UndoRecordForUpdate undo table slot redo txn m in
  let version_ptr := AtomicallyReadVersionPtr m slot in
  conflict ← HasConflict m txn version_ptr;
  if (conflict : bool) || negb (Visible m slot) then
    Some (false, txn, alter_undo (set_table None) undo m)
  else
    let before := project (redo.*1) (attrs_ (tuple_at m slot)) in
    let m := alter_undo (fun r => set_next version_ptr (set_delta before r)) undo m in
    let '(swapped, m) := CompareAndSwapVersionPtr slot version_ptr (Some undo) m in
    if swapped : bool then
      Some (true, txn, set_tuple slot (set_attrs (write_row redo (attrs_ (tuple_at m slot))) (tuple_at m slot)) m)
    else None.

Definition Delete (table : Z) (txn : TransactionContext) (slot : TupleSlot) (undo : Z) (m : memory) :
    option (bool * TransactionContext * memory) :=
  let '(txn, m) := UndoRecordForDelete undo table slot txn m in
  let version_ptr := AtomicallyReadVersionPtr m slot in
  conflict ← HasConflict m txn version_ptr;
  if (conflict : bool) || negb (Visible m slot) then
    Some (false, txn, alter_undo (set_table None) undo m)
  else
    let m := alter_undo (set_next version_ptr) undo m in
    let '(swapped, m) := CompareAndSwapVersionPtr slot version_ptr (Some undo) m in
    if swapped : bool then Some (true, txn, set_tuple slot (SetNull (tuple_at m slot)) m) else None.

(** Its assertions (the slot is allocated, its version column null, its block hot) are
    left to the callers, which allocate the slot right before. *)
Definition InsertInto (table : Z) (txn : TransactionContext) (redo : row) (dest : TupleSlot) (undo : Z) (m : memory) :
    TransactionContext * memory :=
  let '(txn, m) := UndoRecordForInsert undo table dest txn m in
  let m := AtomicallyWriteVersionPtr dest (Some undo) m in
  let m := set_tuple dest (SetNotNull (tuple_at m dest)) m in
  (txn, set_tuple dest (set_attrs (write_row redo (attrs_ (tuple_at m dest))) (tuple_at m dest)) m).

(** ** Blocks of a table and insertion *)

Record DataTable := Table {
  layout_ : BlockLayout;
  blocks_ : list Z;
  insertion_head_ : nat;   (** position in [blocks_]; its length is [end()] *)
}.

Definition set_insert_head (block head : Z) (m : memory) : memory :=
  Memory (tuples m) (undos m) (<[block := head]> (insert_heads m)) (data_tables m) (block_store m).

Definition insert_head_of (m : memory) (block : Z) : Z := default 0 (insert_heads m !! block).

(** [InitializeRawBlock]: no slot of the block is allocated or present, and the
    version pointers are null; the other columns keep what the memory holds. *)
Definition clear_slot (block : Z) (slot : TupleSlot) (t : tuple) : tuple :=
  if decide (TupleSlot.GetBlock slot = block) then Tuple false false None (attrs_ t) else t.

Definition InitializeRawBlock (table block : Z) (m : memory) : memory :=
  Memory (map_imap (fun slot t => Some (clear_slot block slot t)) (tuples m)) (undos m)
    (<[block := 0]> (insert_heads m)) (<[block := table]> (data_tables m)) (block_store m).

(** [NewBlock]; [None] when the block store is exhausted (it throws). *)
Definition NewBlock (table : Z) (m : memory) : option (Z * memory) :=
  match block_store m with
  | [] => None
  | b :: rest =>
    let m := Memory (tuples m) (undos m) (insert_heads m) (data_tables m) rest in
    Some (b, InitializeRawBlock table b m)
  end.

(** The constructor, with a block store. *)
Definition make_table (id : Z) (layout : BlockLayout) (m : memory) : option (DataTable * memory) :=
  '(new_block, m) ← NewBlock id m;
  Some (Table layout [new_block] 0, m).

(** [TupleAccessStrategy::Allocate] *)
Definition Allocate (l : BlockLayout) (block : Z) (m : memory) : option TupleSlot * memory :=
  let start := GetInsertHead (insert_head_of m block) in
  if decide (start = num_slots_ l) then (None, m)
  else
    let slot := TupleSlot.make block start in
    let m := set_tuple slot (set_allocated (tuple_at m slot)) m in
    (Some slot, set_insert_head block (u32 (insert_head_of m block + 1)) m).

Definition SetBusy (block : Z) (m : memory) : bool * memory :=
  let '(ok, h) := SetBlockBusyStatus (insert_head_of m block) in (ok, set_insert_head block h m).
Definition ClearBusy (block : Z) (m : memory) : bool * memory :=
  let '(ok, h) := ClearBlockBusyStatus (insert_head_of m block) in (ok, set_insert_head block h m).

Definition CheckMoveHead (id : Z) (block : nat) (t : DataTable) (m : memory) : option (DataTable * memory) :=
  let head := if decide (block = insertion_head_ t) then S (insertion_head_ t) else insertion_head_ t in
  if decide (head = length (blocks_ t)) then
    '(new_block, m) ← NewBlock id m;
    Some (Table (layout_ t) (blocks_ t ++ [new_block]) (length (blocks_ t)), m)
  else Some (Table (layout_ t) (blocks_ t) head, m).

(** The loop of [Insert]: the block and the slot allocated in it. *)
Fixpoint find_slot (fuel : nat) (id : Z) (block : nat) (t : DataTable) (m : memory) :
    option (Z * TupleSlot * DataTable * memory) :=
  match fuel with
  | O => None
  | S fuel =>
    match blocks_ t !! block with
    | None =>
      '(new_block, m) ← NewBlock id m;
      let m := (SetBusy new_block m).2 in
      let '(result, m) := Allocate (layout_ t) new_block m in
      slot ← result;
      Some (new_block, slot, Table (layout_ t) (blocks_ t ++ [new_block]) (insertion_head_ t), m)
    | Some b =>
      let '(idle, m) := SetBusy b m in
      if idle : bool then
        let '(result, m) := Allocate (layout_ t) b m in
        match result with
        | Some slot => Some (b, slot, t, m)
        | None =>
          let m := (ClearBusy b m).2 in
          '(t, m) ← CheckMoveHead id block t m;
          find_slot fuel id (S block) t m
        end
      else find_slot fuel id (S block) t m
    end
  end.

(** The row has a value, or null, for every column but the version pointer. *)
Definition Insert (id : Z) (txn : TransactionContext) (redo : row) (undo : Z) (t : DataTable) (m : memory) :
    option (TupleSlot * TransactionContext * DataTable * memory) :=
  if decide (Z.of_nat (length redo) <> NumColumns (layout_ t) - Z.of_nat NUM_RESERVED_COLUMNS) then None else
  '(block, result, t, m) ← find_slot (length (blocks_ t) + 2) id (insertion_head_ t) t m;
  let m := (ClearBusy block m).2 in
  let '(txn, m) := InsertInto id txn redo result undo m in
  Some (result, txn, t, m).

(** ** Scanning *)

Record SlotIterator := Iter { block_ : nat; current_slot_ : TupleSlot }.

Definition block_at (t : DataTable) (i : nat) : Z := default 0 (blocks_ t !! i).
Definition mk_iter (t : DataTable) (i : nat) (offset : Z) : SlotIterator :=
  Iter i (TupleSlot.make (block_at t i) offset).

Definition begin (t : DataTable) : SlotIterator := mk_iter t 0 0.

Definition iter_next (t : DataTable) (it : SlotIterator) : SlotIterator :=
  if decide (TupleSlot.GetOffset (current_slot_ it) = u32 (num_slots_ (layout_ t) - 1))
  then mk_iter t (S (block_ it)) 0
  else mk_iter t (block_ it) (TupleSlot.GetOffset (current_slot_ it) + 1).

Definition table_end (m : memory) (t : DataTable) : SlotIterator :=
  match last (blocks_ t) with
  | None => mk_iter t (length (blocks_ t)) 0
  | Some last_block =>
    let insert_head := GetInsertHead (insert_head_of m last_block) in
    if decide (insert_head = num_slots_ (layout_ t)) then mk_iter t (length (blocks_ t)) 0
    else mk_iter t (length (blocks_ t) - 1) insert_head
  end.

(** [Scan]: the rows found, and the iterator left behind. *)
Fixpoint scan_loop (fuel : nat) (t : DataTable) (m : memory) (txn : TransactionContext) (cols : list Z)
    (max_tuples filled : Z) (pos : SlotIterator) : option (list (TupleSlot * row) * SlotIterator) :=
  if decide (filled < max_tuples) then
    if decide (current_slot_ pos = current_slot_ (table_end m t)) then Some ([], pos)
    else
      match fuel with
      | O => None
      | S fuel =>
        let slot := current_slot_ pos in
        found ← Select m txn slot cols;
        match found with
        | Some r =>
          '(rows, pos) ← scan_loop fuel t m txn cols max_tuples (filled + 1) (iter_next t pos);
          Some ((slot, r) :: rows, pos)
        | None => scan_loop fuel t m txn cols max_tuples filled (iter_next t pos)
        end
      end
  else Some ([], pos).

Definition Scan (t : DataTable) (m : memory) (txn : TransactionContext) (pos : SlotIterator) (cols : list Z)
    (max_tuples : Z) : option (list (TupleSlot * row) * SlotIterator) :=
  scan_loop (length (blocks_ t) * Z.to_nat (num_slots_ (layout_ t))) t m txn cols max_tuples 0 pos.

(** ** Rows as updates of the attributes *)

(** The value a row gives a column: the last one, if it has it. *)
Fixpoint row_value (r : row) (c : Z) : option (option (list Z)) :=
  match r with
  | [] => None
  | p :: r => match row_value r c with
              | Some v => Some v
              | None => if decide (p.1 = c) then Some p.2 else None
              end
  end.

Lemma write_row_lookup r a c : write_row r a !! c = default (a !! c) (row_value r c).
Proof.
  revert a. induction r as [|[d v] r IH]; intros a; [done|].
  change (write_row ((d, v) :: r) a) with (write_row r (write_attr a (d, v))). rewrite IH. cbn [row_value fst snd].
  destruct (row_value r c); [done|]. unfold write_attr. cbn [fst snd default from_option].
  destruct (decide (d = c)) as [->|Hne]; [by rewrite lookup_partial_alter_eq|by rewrite lookup_partial_alter_ne].
Qed.

Lemma row_value_project cols a c :
  row_value (project cols a) c = if decide (c ∈ cols) then Some (a !! c) else None.
Proof.
  induction cols as [|d cols IH]; [done|].
  change (project (d :: cols) a) with ((d, a !! d) :: project cols a). cbn [row_value fst snd]. rewrite IH.
  destruct (decide (c ∈ cols)); [by rewrite decide_True by by right|].
  destruct (decide (d = c)) as [->|Hne]; [by rewrite decide_True by left|].
  rewrite decide_False; [done|]. rewrite elem_of_cons. naive_solver.
Qed.

Lemma row_value_None r c : row_value r c = None <-> c ∉ r.*1.
Proof.
  induction r as [|[d v] r IH]; cbn [row_value fmap list_fmap fst snd]; [set_solver|].
  rewrite elem_of_cons. destruct (row_value r c) eqn:E.
  - split; [done|]. intros Hn. apply IH; auto.
  - case_decide; naive_solver.
Qed.

(** The before-image undoes the write. *)
Lemma write_before_image (r : row) a : write_row (project (r.*1) a) (write_row r a) = a.
Proof.
  apply map_eq. intros c. rewrite write_row_lookup, row_value_project. case_decide as Hd; [done|].
  cbn [default from_option]. rewrite write_row_lookup. by apply row_value_None in Hd as ->.
Qed.

Lemma sorted_head_notin (c : Z) l : StronglySorted Z.lt (c :: l) -> forall d, d ∈ l -> c < d.
Proof. intros [_ H]%StronglySorted_inv d Hd. rewrite Forall_forall in H. auto. Qed.

(** On sorted rows the merge of [ApplyDelta] is an update of every column. *)
Lemma ApplyDelta_spec delta : forall buffer : row,
  StronglySorted Z.lt (delta.*1) -> StronglySorted Z.lt (buffer.*1) ->
  ApplyDelta delta buffer = (fun p => (p.1, default p.2 (row_value delta p.1))) <$> buffer.
Proof.
  induction delta as [|[dc dv] ds IHd]; intros buffer; induction buffer as [|[bc bv] bs IHb]; intros Hd Hb; try done.
  { cbn. f_equal. apply (list_fmap_id bs) || (symmetry; rewrite <-(list_fmap_id bs) at 2; apply list_fmap_ext; by intros ? [] ?). }
  pose proof (sorted_head_notin dc (ds.*1) Hd) as Hdh. pose proof (sorted_head_notin bc (bs.*1) Hb) as Hbh.
  pose proof (proj1 (StronglySorted_inv Hd)) as Hd'. pose proof (proj1 (StronglySorted_inv Hb)) as Hb'.
  assert (forall c, c <= dc -> row_value ds c = None) as Hnone.
  { intros c Hc. apply row_value_None. intros Hin. specialize (Hdh c Hin). lia. }
  cbn [ApplyDelta]. destruct (decide (dc = bc)) as [->|Hne].
  - rewrite IHd by done. cbn [fmap list_fmap row_value fst snd]. rewrite (Hnone bc) by lia. rewrite (decide_True (P := bc = bc)) by done.
    f_equal. apply list_fmap_ext. intros i [c v] Hi. cbn [fst snd]. f_equal.
    assert (bc < c). { apply Hbh. apply list_elem_of_fmap. exists (c, v). split; [done|]. by eapply list_elem_of_lookup_2. }
    destruct (row_value ds c); [done|]. by rewrite decide_False by lia.
  - destruct (decide (dc > bc)).
    + change (_ :: _ = ?r) with ((bc, bv) :: ApplyDelta ((dc, dv) :: ds) bs = r). rewrite IHb by done.
      cbn [fmap list_fmap row_value fst snd]. rewrite (Hnone bc) by lia. rewrite (decide_False (P := dc = bc)) by done. done.
    + rewrite IHd by done. apply list_fmap_ext. intros i [c v] Hi. cbn [row_value fst snd]. f_equal.
      assert (bc <= c).
      { destruct i; cbn in Hi; [injection Hi as -> ->; lia|]. apply Z.lt_le_incl, Hbh, list_elem_of_fmap.
        exists (c, v). split; [done|]. by eapply list_elem_of_lookup_2. }
      destruct (row_value ds c); [done|]. by rewrite decide_False by lia.
Qed.

(** A row read back from the attributes it was written to, and a part of it. *)
Lemma row_value_elem (r : row) c v : NoDup (r.*1) -> (c, v) ∈ r -> row_value r c = Some v.
Proof.
  induction r as [|[d u] r IH]; intros Hn Hin; [by apply elem_of_nil in Hin|]. cbn [fmap list_fmap fst] in Hn. apply NoDup_cons in Hn as [Hd Hn].
  cbn [row_value fst snd]. apply elem_of_cons in Hin as [[= -> ->]|Hin]; [|by rewrite IH].
  by rewrite (proj2 (row_value_None r d) Hd), decide_True.
Qed.

Lemma sorted_columns_eq (l1 l2 : list Z) : StronglySorted Z.lt l1 -> StronglySorted Z.lt l2 -> (forall c, c ∈ l1 <-> c ∈ l2) -> l1 = l2.
Proof.
  intros H1. revert l2. induction H1 as [|c l1 H1 IH Hc]; intros l2 H2 He.
  { destruct l2 as [|d l2]; [done|]. assert (d ∈ []) as Hd%elem_of_nil by (apply He; by left). done. }
  destruct H2 as [|d l2 H2 Hd]; [assert (c ∈ []) as Hn%elem_of_nil by (apply He; by left); done|]. rewrite Forall_forall in Hc, Hd.
  assert (c = d) as <-.
  { destruct (proj1 (elem_of_cons _ _ _) (proj1 (He c) ltac:(by left))) as [|E1]; [done|].
    destruct (proj1 (elem_of_cons _ _ _) (proj2 (He d) ltac:(by left))) as [|E2]; [done|]. specialize (Hc d E2). specialize (Hd c E1). lia. }
  f_equal. apply IH; [done|]. intros x. specialize (He x). rewrite !elem_of_cons in He. split; intros Hx.
  - destruct (proj1 He ltac:(by right)) as [->|]; [|done]. specialize (Hc c Hx). lia.
  - destruct (proj2 He ltac:(by right)) as [->|]; [|done]. specialize (Hd c Hx). lia.
Qed.

Lemma sorted_NoDup (l : list Z) : StronglySorted Z.lt l -> NoDup l.
Proof. induction 1 as [|c l _ IH Hc]; constructor; [|done]. intros Hin. rewrite Forall_forall in Hc. specialize (Hc c Hin). lia. Qed.

Lemma project_part (r : row) cols : StronglySorted Z.lt (r.*1) -> StronglySorted Z.lt cols -> cols ⊆ r.*1 ->
  project cols (write_row r ∅) = filter (fun p => p.1 ∈ cols) r.
Proof.
  intros Hr Hc Hsub. assert (cols = (filter (fun p => p.1 ∈ cols) r).*1) as E.
  { apply sorted_columns_eq; [done| |].
    - clear Hc Hsub. induction r as [|p r IH]; [constructor|]. cbn [fmap list_fmap] in Hr. apply StronglySorted_inv in Hr as [Hr Hp].
      rewrite filter_cons. case_decide; [|auto]. cbn [fmap list_fmap]. constructor; [auto|]. rewrite Forall_forall in *. intros c Hin. apply Hp.
      apply list_elem_of_fmap in Hin as (q & -> & [_ Hq]%list_elem_of_filter). apply list_elem_of_fmap. eauto.
    - intros c. rewrite list_elem_of_fmap. split.
      + intros Hin. destruct (proj1 (list_elem_of_fmap _ _ _) (Hsub c Hin)) as (p & -> & Hp). exists p. split; [done|]. by apply list_elem_of_filter.
      + intros (p & -> & [Hp _]%list_elem_of_filter). done. }
  rewrite E at 1. unfold project. rewrite <-list_fmap_compose. rewrite <-(list_fmap_id (filter _ r)) at 2. apply list_fmap_ext. intros i [c v] Hi.
  cbn. f_equal. apply list_elem_of_lookup_2, list_elem_of_filter in Hi as [_ Hi]. rewrite write_row_lookup.
  by rewrite (row_value_elem r c v (sorted_NoDup _ Hr) Hi).
Qed.

Lemma project_row (r : row) : StronglySorted Z.lt (r.*1) -> project (r.*1) (write_row r ∅) = r.
Proof.
  intros Hr. rewrite project_part by done. apply filter_all, Forall_forall. intros p Hp. apply list_elem_of_fmap. eauto.
Qed.

Lemma project_cols cols a : (project cols a).*1 = cols.
Proof. unfold project. rewrite <-list_fmap_compose. apply list_fmap_id. Qed.

Lemma ApplyDelta_project delta cols a :
  StronglySorted Z.lt (delta.*1) -> StronglySorted Z.lt cols ->
  ApplyDelta delta (project cols a) = project cols (write_row delta a).
Proof.
  intros Hd Hc. rewrite ApplyDelta_spec by (rewrite ?project_cols; done). unfold project.
  rewrite <-list_fmap_compose. apply list_fmap_ext. intros i c _. cbn. by rewrite write_row_lookup.
Qed.

(** ** Insertion finds an unused slot *)

Definition aligned (b : Z) : Prop := 0 < b < 2 ^ 64 /\ b `mod` BLOCK_SIZE = 0.

Lemma make_parts b off :
  aligned b -> 0 <= off < 2 ^ 20 ->
  TupleSlot.GetBlock (TupleSlot.make b off) = b /\ TupleSlot.GetOffset (TupleSlot.make b off) = off.
Proof. intros [Hb Ha] Ho. apply TupleSlot_parts; [unfold is_uint; lia|done|exact Ho]. Qed.

(** A block of table [id]: where its free slots start, and that they are free. *)
Definition block_ok (m : memory) (id : Z) (t : DataTable) (b : Z) : Prop :=
  aligned b /\ data_tables m !! b = Some id /\ b ∉ block_store m /\
  exists h, insert_heads m !! b = Some h /\ 0 <= h <= num_slots_ (layout_ t) /\
    forall off, h <= off < 2 ^ 20 -> tuples m !! TupleSlot.make b off = None.

Record table_ok (m : memory) (id : Z) (t : DataTable) : Prop := {
  to_slots : 0 < num_slots_ (layout_ t) < 2 ^ 20;
  to_nodup : NoDup (blocks_ t);
  to_blocks : forall b, b ∈ blocks_ t -> block_ok m id t b;
  to_head : (insertion_head_ t <= length (blocks_ t))%nat;
}.

Definition store_ok (m : memory) : Prop :=
  NoDup (block_store m) /\ forall b, b ∈ block_store m ->
    aligned b /\ data_tables m !! b = None /\ forall sl, TupleSlot.GetBlock sl = b -> tuples m !! sl = None.

(** The memory with a new block. *)
Definition with_block (id b : Z) (rest : list Z) (m : memory) : memory :=
  Memory (tuples m) (undos m) (<[b := 0]> (insert_heads m)) (<[b := id]> (data_tables m)) rest.

Lemma NewBlock_eq id b rest m :
  store_ok m -> block_store m = b :: rest -> NewBlock id m = Some (b, with_block id b rest m).
Proof.
  intros [_ Hs] E. unfold NewBlock, InitializeRawBlock. rewrite E. cbn. unfold with_block. do 3 f_equal.
  apply map_eq. intros sl. rewrite map_lookup_imap. destruct (tuples m !! sl) as [tp|] eqn:Hsl; [|done]. cbn. unfold clear_slot.
  rewrite decide_False; [done|]. intros Hb. destruct (Hs b) as (_ & _ & Hn); [rewrite E; by left|]. rewrite (Hn sl Hb) in Hsl. done.
Qed.

Lemma with_block_ok id b rest m t :
  store_ok m -> block_store m = b :: rest -> table_ok m id t ->
  store_ok (with_block id b rest m) /\ block_ok (with_block id b rest m) id t b /\ b ∉ blocks_ t /\
  forall b', b' ∈ blocks_ t -> block_ok (with_block id b rest m) id t b'.
Proof.
  intros [Hn Hs] E [T1 T2 T3 T4]. rewrite E in Hn. apply NoDup_cons in Hn as [Hnb Hn].
  destruct (Hs b) as (Ha & Hd & Ht); [rewrite E; by left|].
  assert (b ∉ blocks_ t) as Hnot.
  { intros Hin. destruct (T3 b Hin) as (_ & Hdt & _). congruence. }
  split; [split; [done|]|split; [|split; [done|]]].
  - intros b' Hb'. destruct (Hs b') as (Ha' & Hd' & Ht'); [rewrite E; by right|].
    split; [done|]. split; [|done]. cbn. rewrite lookup_insert_ne; [done|]. by intros <-.
  - split; [done|]. split; [|split]; cbn; [by rewrite lookup_insert_eq|done|].
    exists 0. rewrite lookup_insert_eq. split; [done|]. split; [lia|]. intros off Hoff. apply Ht. by apply make_parts.
  - intros b' Hb'. destruct (T3 b' Hb') as (Ha' & Hd' & Hnb' & h & Hh & Hr & Hf). assert (b ≠ b') by (by intros ->).
    split; [done|]. split; [|split]; cbn.
    + by rewrite lookup_insert_ne.
    + rewrite E in Hnb'. set_solver.
    + exists h. by rewrite lookup_insert_ne.
Qed.

(** The memory after a slot has been allocated at [h] in block [b]. *)
Definition with_slot (b h : Z) (m : memory) : memory :=
  set_insert_head b (h + 1) (set_tuple (TupleSlot.make b h) (set_allocated pristine) m).

(** The loop body on a block that is idle, not full: allocation and release. *)
Lemma allocate_idle l b h m :
  insert_heads m !! b = Some h -> 0 <= h < num_slots_ l -> num_slots_ l < 2 ^ 20 ->
  tuples m !! TupleSlot.make b h = None ->
  exists m1 m2, SetBusy b m = (true, m1) /\ Allocate l b m1 = (Some (TupleSlot.make b h), m2) /\
    (ClearBusy b m2).2 = with_slot b h m.
Proof.
  intros Hh Hr Hn Hf. destruct (busy_bit_ops h ltac:(lia)) as (B1 & B2 & _ & _).
  destruct (busy_bit_ops (h + 1) ltac:(lia)) as (_ & _ & _ & B4).
  unfold SetBusy, insert_head_of. rewrite Hh. cbn [default from_option]. unfold id. rewrite B1.
  eexists _, _. split; [done|]. split.
  { unfold Allocate, insert_head_of. cbn. rewrite lookup_insert_eq. cbn. unfold id. rewrite B2.
    rewrite decide_False by lia. reflexivity. }
  unfold ClearBusy, insert_head_of. cbn. rewrite !lookup_insert_eq. cbn. unfold id.
  rewrite wrapu_small by (unfold is_uint; lia).
  replace (2 ^ 31 + h + 1) with (2 ^ 31 + (h + 1)) by lia. rewrite B4. cbn. unfold with_slot, set_insert_head, set_tuple.
  cbn. rewrite !insert_insert_eq. unfold tuple_at. cbn. rewrite Hf. done.
Qed.

(** ... and on one that is full. *)
Lemma allocate_full l b m :
  insert_heads m !! b = Some (num_slots_ l) -> 0 < num_slots_ l < 2 ^ 20 ->
  exists m1, SetBusy b m = (true, m1) /\ Allocate l b m1 = (None, m1) /\ (ClearBusy b m1).2 = m.
Proof.
  intros Hh Hn. destruct (busy_bit_ops (num_slots_ l) ltac:(lia)) as (B1 & B2 & _ & B4).
  unfold SetBusy, insert_head_of. rewrite Hh. cbn [default from_option]. unfold id. rewrite B1.
  eexists. split; [done|]. split.
  { unfold Allocate, insert_head_of. cbn. rewrite lookup_insert_eq. cbn. unfold id. rewrite B2. by rewrite decide_True. }
  unfold ClearBusy, insert_head_of. cbn. rewrite lookup_insert_eq. cbn. unfold id. rewrite B4. cbn.
  unfold set_insert_head. cbn. rewrite insert_insert_eq, insert_id by done. by destruct m.
Qed.

(** Memory that has got new blocks for table [id]. *)
Inductive grown (id : Z) : memory -> memory -> Prop :=
| grown_refl m : grown id m m
| grown_step m b rest m0 :
    store_ok m -> block_store m = b :: rest -> grown id (with_block id b rest m) m0 -> grown id m m0.

Lemma grown_facts id m m0 :
  grown id m m0 ->
  tuples m0 = tuples m /\ undos m0 = undos m /\
  (forall b tb, data_tables m !! b = Some tb -> data_tables m0 !! b = Some tb) /\
  (forall b, is_Some (data_tables m !! b) -> insert_heads m0 !! b = insert_heads m !! b) /\
  (forall b, b ∈ block_store m0 -> b ∈ block_store m) /\
  (forall b, data_tables m0 !! b = data_tables m !! b \/ b ∈ block_store m /\ data_tables m0 !! b = Some id).
Proof.
  induction 1 as [m|m b rest m0 Hs E Hg (H1 & H2 & H3 & H4 & H5 & H6)]; [by split_and!; auto|].
  destruct Hs as [Hn Hs]. destruct (Hs b) as (_ & Hd & _); [rewrite E; by left|].
  assert (forall b', is_Some (data_tables m !! b') -> b ≠ b') as Hne by (intros b' [? ?] ->; congruence).
  cbn in *. split_and!; [done|done|..].
  - intros b' tb Hb'. apply H3. rewrite lookup_insert_ne by eauto. done.
  - intros b' Hb'. rewrite H4; [by rewrite lookup_insert_ne by eauto|]. rewrite lookup_insert_ne by eauto. done.
  - intros b' Hb'. rewrite E. right. auto.
  - intros b'. rewrite E. destruct (H6 b') as [->|[? ?]]; [|right; split; [by right|done]].
    destruct (decide (b = b')) as [->|]; [rewrite lookup_insert_eq; right; split; [by left|done]|].
    rewrite lookup_insert_ne by done. by left.
Qed.

Lemma add_block_ok id b rest m t head :
  store_ok m -> block_store m = b :: rest -> table_ok m id t -> (head <= S (length (blocks_ t)))%nat ->
  table_ok (with_block id b rest m) id (Table (layout_ t) (blocks_ t ++ [b]) head).
Proof.
  intros Hs E Ht Hh. destruct (with_block_ok id b rest m t Hs E Ht) as (_ & Hb & Hnot & Hold). destruct Ht as [T1 T2 T3 T4].
  constructor; cbn; [done| | |rewrite length_app; cbn; lia].
  - apply NoDup_app. split_and!; [done| |apply NoDup_singleton]. intros x Hx ->%list_elem_of_singleton. done.
  - intros b' [Hb'| ->%list_elem_of_singleton]%elem_of_app; [by apply Hold|done].
Qed.

(** What [find_slot] achieves: once the block is released, the memory has the slot
    [h] of block [b] allocated, in a table that may have got [n] new blocks. *)
Definition slot_found (n : nat) (id : Z) (t : DataTable) (m : memory) (r : option (Z * TupleSlot * DataTable * memory)) : Prop :=
  exists b h t' m0 m2, r = Some (b, TupleSlot.make b h, t', m2) /\
    (ClearBusy b m2).2 = with_slot b h m0 /\ grown id m m0 /\ table_ok m0 id t' /\ store_ok m0 /\
    layout_ t' = layout_ t /\ b ∈ blocks_ t' /\ insert_heads m0 !! b = Some h /\ 0 <= h < num_slots_ (layout_ t) /\
    (length (block_store m) <= n + length (block_store m0))%nat.

Lemma found_here id t m b h t' m2 :
  table_ok m id t' -> store_ok m -> layout_ t' = layout_ t -> b ∈ blocks_ t' -> insert_heads m !! b = Some h ->
  0 <= h < num_slots_ (layout_ t) -> (ClearBusy b m2).2 = with_slot b h m ->
  slot_found 0 id t m (Some (b, TupleSlot.make b h, t', m2)).
Proof. intros. exists b, h, t', m, m2. split_and!; try done; [constructor|lia|lia]. Qed.

Lemma found_grown id t t1 m b rest r :
  store_ok m -> block_store m = b :: rest -> layout_ t1 = layout_ t ->
  slot_found 0 id t1 (with_block id b rest m) r -> slot_found 1 id t m r.
Proof.
  intros Hs E El (b2 & h & t' & m0 & m2 & -> & H2 & H3 & H4 & H5 & H6 & H7 & H8 & H9 & H10). rewrite El in *.
  exists b2, h, t', m0, m2. cbn in H10. rewrite E. split_and!; try done; [by eapply grown_step|lia|lia|cbn; lia].
Qed.

Lemma found_layout n id t t1 m r : layout_ t1 = layout_ t -> slot_found n id t1 m r -> slot_found n id t m r.
Proof. intros E. unfold slot_found. by rewrite E. Qed.

Lemma found_weaken id t m r : slot_found 0 id t m r -> slot_found 1 id t m r.
Proof. intros (b & h & t' & m0 & m2 & H). exists b, h, t', m0, m2. naive_solver lia. Qed.

(** The next iteration on a full block that is not the last. *)
Lemma find_slot_full id fuel block t m b :
  table_ok m id t -> blocks_ t !! block = Some b -> insert_heads m !! b = Some (num_slots_ (layout_ t)) ->
  (insertion_head_ t <= block)%nat -> (S block < length (blocks_ t) \/ insertion_head_ t < block)%nat ->
  exists t1, find_slot (S fuel) id block t m = find_slot fuel id (S block) t1 m /\
    table_ok m id t1 /\ layout_ t1 = layout_ t /\ blocks_ t1 = blocks_ t /\ (insertion_head_ t1 <= S block)%nat.
Proof.
  intros Ht Eb Hh Hhd Hlast. destruct (allocate_full _ _ _ Hh (to_slots _ _ _ Ht)) as (m1 & E1 & E2 & E3).
  apply lookup_lt_Some in Eb as Hlt. cbn [find_slot]. rewrite Eb, E1, E2, E3. unfold CheckMoveHead.
  destruct Ht as [T1 T2 T3 T4]. destruct (decide (block = insertion_head_ t)) as [->|Hne].
  - rewrite decide_False by lia. cbn [mbind option_bind]. eexists. split; [done|]. cbn.
    split; [constructor; cbn; [done..|lia]|]. split_and!; done.
  - rewrite decide_False by lia. cbn [mbind option_bind]. eexists. split; [done|]. cbn.
    split; [by constructor|]. split_and!; [done|done|lia].
Qed.

(** With a block that has room ahead, no new block is needed. *)
Lemma find_slot_room id fuel : forall block j b h t m,
  table_ok m id t -> store_ok m -> (insertion_head_ t <= block <= j)%nat -> (j < fuel + block)%nat ->
  blocks_ t !! j = Some b -> insert_heads m !! b = Some h -> h < num_slots_ (layout_ t) ->
  slot_found 0 id t m (find_slot fuel id block t m).
Proof.
  induction fuel as [|fuel IH]; intros block j b h t m Ht Hs Hb Hf Ej Hh Hlt; [lia|].
  apply lookup_lt_Some in Ej as Hjl. destruct (lookup_lt_is_Some_2 (blocks_ t) block) as [b1 Eb1]; [lia|].
  destruct (to_blocks _ _ _ Ht b1) as (_ & _ & _ & h1 & Hh1 & Hr1 & Hf1); [by eapply list_elem_of_lookup_2|].
  pose proof (to_slots _ _ _ Ht) as Hn. destruct (decide (h1 = num_slots_ (layout_ t))) as [->|Hne].
  - assert (j ≠ block) by (intros ->; simplify_eq; lia).
    destruct (find_slot_full id fuel block t m b1 Ht Eb1 Hh1) as (t1 & -> & Ht1 & El & Ebl & Hi1); [lia|lia|].
    eapply found_layout; [done|]. eapply (IH (S block) j b h); rewrite ?El, ?Ebl; try done; lia.
  - destruct (allocate_idle (layout_ t) b1 h1 m Hh1 ltac:(lia) ltac:(lia)) as (m1 & m2 & E1 & E2 & E3); [apply Hf1; lia|].
    cbn [find_slot]. rewrite Eb1, E1, E2. eapply found_here; try done; [by eapply list_elem_of_lookup_2|lia].
Qed.

(** The iteration past the last block. *)
Lemma find_slot_end id fuel block t m :
  table_ok m id t -> store_ok m -> block_store m ≠ [] -> (length (blocks_ t) <= block)%nat ->
  slot_found 1 id t m (find_slot (S fuel) id block t m).
Proof.
  intros Ht Hs Hst Hb. destruct (block_store m) as [|nb rest] eqn:Est; [done|]. cbn [find_slot].
  rewrite (lookup_ge_None_2 _ _ Hb), (NewBlock_eq id nb rest m Hs Est). cbn [mbind option_bind].
  destruct (with_block_ok id nb rest m t Hs Est Ht) as (Hs' & (_ & _ & _ & h & Hh & _ & Hfree) & _ & _).
  pose proof (to_slots _ _ _ Ht) as Hn. assert (h = 0) as -> by (cbn in Hh; rewrite lookup_insert_eq in Hh; congruence).
  destruct (allocate_idle (layout_ t) nb 0 _ Hh ltac:(lia) ltac:(lia)) as (m1 & m2 & E1 & E2 & E3); [apply Hfree; lia|].
  rewrite E1. cbn [snd]. rewrite E2. cbn [mbind option_bind].
  eapply (found_grown id t t); [done|done|done|]. eapply found_here; try done.
  - apply add_block_ok; try done. pose proof (to_head _ _ _ Ht). lia.
  - cbn. apply elem_of_app. right. by left.
  - lia.
Qed.

(** The table stays well-formed when a slot is allocated. *)
Lemma with_slot_ok m id t b h :
  table_ok m id t -> store_ok m -> b ∈ blocks_ t -> insert_heads m !! b = Some h -> 0 <= h < num_slots_ (layout_ t) ->
  table_ok (with_slot b h m) id t /\ store_ok (with_slot b h m).
Proof.
  intros [T1 T2 T3 T4] [S1 S2] Hb Hh Hr. destruct (T3 b Hb) as (Ha & Hd & Hnb & h' & Hh' & Hr' & Hf). simplify_eq.
  assert (forall b' off, aligned b' -> 0 <= off < 2 ^ 20 -> TupleSlot.make b h = TupleSlot.make b' off -> b' = b /\ off = h) as Hinj.
  { intros b' off Hb' Hoff E. destruct (make_parts b h Ha ltac:(lia)) as [E1 E2].
    destruct (make_parts b' off Hb' Hoff) as [E3 E4]. rewrite <-E in E3, E4. split; congruence. }
  split.
  - constructor; [done|done| |done]. intros b' Hb'. destruct (T3 b' Hb') as (Ha' & Hd' & Hnb' & h2 & Hh2 & Hr2 & Hf2).
    split; [done|]. split; [done|]. split; [done|]. cbn. destruct (decide (b = b')) as [<-|Hne].
    + exists (h + 1). rewrite lookup_insert_eq. split; [done|]. split; [lia|]. intros off Hoff.
      rewrite lookup_insert_ne; [apply Hf; lia|]. intros E. apply Hinj in E as [_ ->]; [lia|done|lia].
    + exists h2. rewrite lookup_insert_ne by done. split; [done|]. split; [done|]. intros off Hoff.
      rewrite lookup_insert_ne; [by apply Hf2|]. intros E. apply Hinj in E as [-> _]; [done|done|lia].
  - split; [done|]. intros b' Hb'. destruct (S2 b' Hb') as (Ha' & Hd' & Ht'). split; [done|]. split; [done|].
    intros sl Hsl. cbn. rewrite lookup_insert_ne; [by apply Ht'|]. intros <-.
    destruct (make_parts b h Ha ltac:(lia)) as [E1 _]. rewrite E1 in Hsl. subst. done.
Qed.

Lemma find_slot_spec id fuel : forall block t m,
  table_ok m id t -> store_ok m -> block_store m ≠ [] -> (insertion_head_ t <= block <= length (blocks_ t))%nat ->
  (length (blocks_ t) + 2 <= fuel + block)%nat -> slot_found 1 id t m (find_slot fuel id block t m).
Proof.
  induction fuel as [|fuel IH]; intros block t m Ht Hs Hst Hb Hfuel; [lia|].
  destruct (decide (block = length (blocks_ t))) as [->|Hlt]; [by apply find_slot_end|].
  destruct (lookup_lt_is_Some_2 (blocks_ t) block) as [b Eb]; [lia|].
  destruct (to_blocks _ _ _ Ht b) as (_ & _ & _ & h & Hh & Hr & Hf); [by eapply list_elem_of_lookup_2|].
  pose proof (to_slots _ _ _ Ht) as Hn. destruct (decide (h < num_slots_ (layout_ t))) as [Hroom|Hfull].
  { apply found_weaken. by eapply (find_slot_room id (S fuel) block block b h); try done; lia. }
  assert (h = num_slots_ (layout_ t)) as -> by lia.
  destruct (decide (S block = length (blocks_ t) /\ insertion_head_ t = block)) as [[El Ei]|Hnot].
  - (* the last block is full and is the insertion head: a new block is made *)
    destruct (allocate_full _ _ _ Hh Hn) as (m1 & E1 & E2 & E3). cbn [find_slot]. rewrite Eb, E1, E2, E3.
    unfold CheckMoveHead. rewrite Ei. destruct (decide (block = block)); [|done].
    rewrite El. destruct (decide (length (blocks_ t) = length (blocks_ t))); [|done].
    destruct (block_store m) as [|nb rest] eqn:Est; [done|].
    rewrite (NewBlock_eq id nb rest m Hs Est). cbn [mbind option_bind].
    destruct (with_block_ok id nb rest m t Hs Est Ht) as (Hs' & _).
    eapply (found_grown id t (Table (layout_ t) (blocks_ t ++ [nb]) (length (blocks_ t)))); [done|done|done|].
    eapply (find_slot_room id fuel _ (length (blocks_ t)) nb 0); cbn.
    + apply add_block_ok; try done. lia.
    + done.
    + lia.
    + lia.
    + by apply list_lookup_middle.
    + apply lookup_insert_eq.
    + lia.
  - destruct (find_slot_full id fuel block t m b Ht Eb Hh) as (t1 & -> & Ht1 & El & Ebl & Hi1); [lia|lia|].
    eapply found_layout; [done|]. apply IH; rewrite ?Ebl; try done; lia.
Qed.

(** ** Theorems *)

(** Insertion always finds room while the block store is not exhausted: the
    search terminates and hands out a slot of the table that held no tuple before,
    allocates that slot only, releases the busy bit and moves that block's insert
    head up by one; the table (blocks, heads, free slots) stays well-formed. *)
Theorem find_slot_fresh (id : Z) (t : DataTable) (m : memory) :
  table_ok m id t -> store_ok m -> block_store m ≠ [] ->
  exists b h t' m2 m', find_slot (length (blocks_ t) + 2) id (insertion_head_ t) t m =
      Some (b, TupleSlot.make b h, t', m2) /\
    (ClearBusy b m2).2 = m' /\ table_ok m' id t' /\ store_ok m' /\ b ∈ blocks_ t' /\ 0 <= h < num_slots_ (layout_ t') /\
    tuples m !! TupleSlot.make b h = None /\
    tuples m' = <[TupleSlot.make b h := set_allocated pristine]> (tuples m) /\ undos m' = undos m.
Proof.
  intros Ht Hs Hst. pose proof (to_head _ _ _ Ht) as Hhd.
  destruct (find_slot_spec id (length (blocks_ t) + 2) (insertion_head_ t) t m Ht Hs Hst ltac:(lia) ltac:(lia))
    as (b & h & t' & m0 & m2 & Hf & Hc & Hg & Ht' & Hs' & El & Hb & Hh & Hr & _).
  exists b, h, t', m2, (with_slot b h m0). destruct (grown_facts _ _ _ Hg) as (G1 & G2 & _).
  destruct (with_slot_ok m0 id t' b h Ht' Hs' Hb Hh) as [W1 W2]; [by rewrite El|].
  destruct (to_blocks _ _ _ Ht' b Hb) as (_ & _ & _ & h' & Hh' & _ & Hfree). simplify_eq.
  pose proof (to_slots _ _ _ Ht'). rewrite <-El in Hr.
  assert (tuples m !! TupleSlot.make b h = None) as Hn by (rewrite <-G1; apply Hfree; lia).
  assert (tuples (with_slot b h m0) = <[TupleSlot.make b h := set_allocated pristine]> (tuples m)) as E by (cbn; by rewrite G1).
  split; [done|]. split; [done|]. split; [done|]. split; [done|]. split_and!; try done; lia.
Qed.

Lemma find_slot_fresh_witness :
  let t := Table (BlockLayout.make [8; 8]) [] 0 in
  let m := Memory ∅ ∅ ∅ ∅ [3 * BLOCK_SIZE] in
  exists b h t' m2, find_slot (length (blocks_ t) + 2) 7 (insertion_head_ t) t m = Some (b, TupleSlot.make b h, t', m2).
Proof.
  destruct (find_slot_fresh 7 (Table (BlockLayout.make [8; 8]) [] 0) (Memory ∅ ∅ ∅ ∅ [3 * BLOCK_SIZE]))
    as (b & h & t' & m2 & m' & H & _).
  - constructor; cbn [layout_ blocks_ insertion_head_ length].
    + split; vm_compute; reflexivity.
    + constructor.
    + intros b Hb. by apply elem_of_nil in Hb.
    + done.
  - split; [apply NoDup_singleton|]. intros b ->%list_elem_of_singleton.
    split; [split; [split; vm_compute; reflexivity|reflexivity]|]. split; [reflexivity|]. intros sl _. reflexivity.
  - discriminate.
  - exists b, h, t', m2. exact H.
Defined.
