(* ===== verification/Versions.v ===== *)
(** * Version chains and what a transaction reads

    The version chain of a slot is a linked list of undo records in memory.  Here it
    is related to a list of addresses ([is_chain]), and what [SelectIntoBuffer]
    computes by walking it is related to folding the records over the tuple in place
    ([reconstruct]).  The read of a transaction depends only on the tuple in place
    and the list of records ([read]). *)

From S2P Require Import Prelude Layout Timestamps DataTable.
Import TransactionUtil.

(** ** Chains *)

Fixpoint is_chain (u : gmap Z UndoRecord) (ptr : option Z) (l : list Z) : Prop :=
  match l with
  | [] => ptr = None
  | p :: l => ptr = Some p /\ exists r, u !! p = Some r /\ is_chain u (next_ r) l
  end.

(** The records at the addresses of a chain. *)
Definition records (u : gmap Z UndoRecord) (l : list Z) : list UndoRecord := omap (fun p => u !! p) l.

Lemma records_cons u p l r : u !! p = Some r -> records u (p :: l) = r :: records u l.
Proof. intros H. unfold records. cbn. by rewrite H. Qed.

Lemma records_same u u' l : (forall p, p ∈ l -> u' !! p = u !! p) -> records u' l = records u l.
Proof.
  induction l as [|p l IH]; intros H; [done|]. unfold records in *. cbn. rewrite H by by left.
  rewrite IH; [done|]. intros q Hq. apply H. by right.
Qed.

Lemma chain_det u ptr l1 : forall l2, is_chain u ptr l1 -> is_chain u ptr l2 -> l1 = l2.
Proof.
  revert ptr. induction l1 as [|p l1 IH]; intros ptr [|q l2]; cbn; naive_solver.
Qed.

(** A chain depends on the [next_] fields of its members only. *)
Lemma chain_frame u u' ptr l :
  is_chain u ptr l ->
  (forall p r, p ∈ l -> u !! p = Some r -> exists r', u' !! p = Some r' /\ next_ r' = next_ r) ->
  is_chain u' ptr l.
Proof.
  revert ptr. induction l as [|p l IH]; intros ptr; [done|]. cbn. intros (-> & r & Hr & Hc) Hf.
  split; [done|]. destruct (Hf p r) as (r' & Hr' & Hn); [by left|done|]. exists r'. split; [done|]. rewrite Hn.
  apply IH; [done|]. intros q s Hq. apply Hf. by right.
Qed.

Lemma chain_lookup u ptr l : is_chain u ptr l -> Forall (fun p => is_Some (u !! p)) l.
Proof.
  revert ptr. induction l as [|p l IH]; intros ptr; cbn; [constructor|]. intros (_ & r & Hr & Hc).
  constructor; [by rewrite Hr|by eapply IH].
Qed.

Lemma chain_length u ptr l : is_chain u ptr l -> NoDup l -> (length l <= size u)%nat.
Proof.
  intros Hc Hn. apply chain_lookup in Hc. rewrite <-size_dom.
  rewrite <-(size_list_to_set (C := gset Z) l) by done. apply subseteq_size. intros p Hp.
  apply elem_of_list_to_set in Hp. rewrite Forall_forall in Hc. apply elem_of_dom. auto.
Qed.

Lemma records_elem u ptr l r :
  is_chain u ptr l -> r ∈ records u l <-> exists p, p ∈ l /\ u !! p = Some r.
Proof. intros _. apply list_elem_of_omap. Qed.

(** ** Views *)

(** What a reader sees of a slot: visible or not, and the attributes. *)
Abbreviation view := (bool * attributes)%type.

Definition undo_view (r : UndoRecord) (v : view) : view :=
  match type_ r with
  | UPDATE => (v.1, write_row (delta_ r) v.2)
  | INSERT => (false, v.2)
  | DELETE => (true, v.2)
  end.

(** Undo the newest records while they are newer than [start]. *)
Fixpoint reconstruct (start : Z) (rs : list UndoRecord) (v : view) : view :=
  match rs with
  | [] => v
  | r :: rs => if NewerThan (timestamp_ r) start then reconstruct start rs (undo_view r v) else v
  end.

Definition in_place (t : tuple) : view := (allocated_ t && present_ t, attrs_ t).

(** The read of a transaction with the given times at a tuple with the records [rs]
    in its chain: [None] when nothing is visible. *)
Definition read_view (start finish : Z) (t : tuple) (rs : list UndoRecord) : view :=
  if allocated_ t then
    match rs with
    | [] => in_place t
    | r :: _ => if decide (timestamp_ r = finish) then in_place t else reconstruct start rs (in_place t)
    end
  else (false, attrs_ t).

Definition read (start finish : Z) (t : tuple) (rs : list UndoRecord) : option attributes :=
  let v := read_view start finish t rs in if v.1 then Some v.2 else None.

Lemma undo_view_visible r v : (undo_view r v).1 = match type_ r with UPDATE => v.1 | INSERT => false | DELETE => true end.
Proof. unfold undo_view. by destruct (type_ r). Qed.

Definition delta_sorted (r : UndoRecord) : Prop := StronglySorted Z.lt ((delta_ r).*1).

Lemma chase_reconstruct u start cols : forall l fuel ptr v a,
  is_chain u ptr l -> (length l <= fuel)%nat -> StronglySorted Z.lt cols ->
  Forall delta_sorted (records u l) ->
  chase fuel u start ptr v (project cols a) =
    let w := reconstruct start (records u l) (v, a) in Some (w.1, project cols w.2).
Proof.
  induction l as [|p l IH]; intros fuel ptr v a Hc Hf Hs HF; cbn in Hc.
  { subst. by destruct fuel. }
  destruct Hc as (-> & r & Hr & Hc). destruct fuel as [|fuel]; [cbn in Hf; lia|].
  rewrite (records_cons _ _ _ _ Hr) in HF |- *. inversion_clear HF as [|?? Hd HF'].
  cbn [chase reconstruct]. rewrite Hr. cbn [mbind option_bind].
  destruct (NewerThan _ _); [|done]. cbn in Hf. unfold undo_view.
  destruct (type_ r); cbn [fst snd]; [rewrite ApplyDelta_project by done|..]; (apply IH; [done|lia|done|done]).
Qed.

Lemma chase_visible_reconstruct u start : forall l fuel ptr v a,
  is_chain u ptr l -> (length l <= fuel)%nat ->
  chase_visible fuel u start ptr v = Some (reconstruct start (records u l) (v, a)).1.
Proof.
  induction l as [|p l IH]; intros fuel ptr v a Hc Hf; cbn in Hc.
  { subst. by destruct fuel. }
  destruct Hc as (-> & r & Hr & Hc). destruct fuel as [|fuel]; [cbn in Hf; lia|].
  rewrite (records_cons _ _ _ _ Hr). cbn [chase_visible reconstruct]. rewrite Hr. cbn [mbind option_bind].
  destruct (NewerThan _ _); [|done]. cbn in Hf. rewrite (IH fuel _ _ (undo_view r (v, a)).2) by (done || lia).
  unfold undo_view. by destruct (type_ r).
Qed.

(** On a slot whose chain is well-formed, [Select] never reads freed memory or runs
    out of fuel, and returns the projection of [read]. *)
Lemma Select_read m txn slot cols l :
  is_chain (undos m) (version_ptr_ (tuple_at m slot)) l -> NoDup l ->
  Forall delta_sorted (records (undos m) l) -> StronglySorted Z.lt cols ->
  Select m txn slot cols =
    Some (project cols <$> read (start_time_ txn) (finish_time_ txn) (tuple_at m slot) (records (undos m) l)).
Proof.
  intros Hc Hn HF Hs. unfold Select, SelectIntoBuffer, read, read_view, AtomicallyReadVersionPtr, Visible.
  set (t := tuple_at m slot) in *. destruct (allocated_ t) eqn:Ha; cbn [negb]; [|done].
  pose proof (chain_length _ _ _ Hc Hn) as Hlen. unfold in_place. rewrite Ha.
  destruct l as [|p l]; cbn in Hc.
  - rewrite Hc. cbn [mbind option_bind records omap list_omap fst snd]. by destruct (true && present_ t).
  - destruct Hc as (Hp & r & Hr & Hc). rewrite Hp. rewrite (records_cons _ _ _ _ Hr) in HF |- *.
    rewrite Hr. cbn [mbind option_bind]. destruct (decide (timestamp_ r = _)).
    + cbn [mbind option_bind fst snd]. by destruct (true && present_ t).
    + rewrite <-(records_cons _ _ _ _ Hr).
      rewrite (chase_reconstruct _ _ _ (p :: l)); [|cbn; eauto|lia|done|by rewrite (records_cons _ _ _ _ Hr)].
      cbn [mbind option_bind]. by destruct (reconstruct _ _ _) as [[] a].
Qed.

(** [IsVisible] on such a slot: the visibility of the version the transaction reads,
    without the check of the allocation bit that [Select] starts with. *)
Lemma IsVisible_view m txn slot l :
  is_chain (undos m) (version_ptr_ (tuple_at m slot)) l -> NoDup l ->
  IsVisible m txn slot = Some
    (match records (undos m) l with
     | [] => in_place (tuple_at m slot)
     | r :: _ => if decide (timestamp_ r = finish_time_ txn) then in_place (tuple_at m slot)
                 else reconstruct (start_time_ txn) (records (undos m) l) (in_place (tuple_at m slot))
     end).1.
Proof.
  intros Hc Hn. pose proof (chain_length _ _ _ Hc Hn) as Hlen. unfold IsVisible, AtomicallyReadVersionPtr, Visible.
  set (t := tuple_at m slot) in *. destruct l as [|p l]; cbn in Hc.
  - by rewrite Hc.
  - destruct Hc as (Hp & r & Hr & Hc). rewrite Hp, (records_cons _ _ _ _ Hr), Hr. cbn [mbind option_bind].
    case_decide; [done|]. rewrite <-(records_cons _ _ _ _ Hr).
    rewrite (chase_visible_reconstruct _ _ (p :: l) _ _ _ (attrs_ t)); [done|cbn; eauto|lia].
Qed.

(** ** How reads change when a chain changes *)

Lemma NewerThan_true a b : NewerThan a b = true <-> b < a.
Proof. apply bool_decide_eq_true. Qed.

Lemma NewerThan_false a b : NewerThan a b = false <-> a <= b.
Proof. unfold NewerThan. rewrite bool_decide_eq_false. lia. Qed.

(** A record of another transaction that undoes its own change in place is not
    noticed. *)
Lemma read_push start finish t t' u rs :
  allocated_ t = true -> allocated_ t' = true ->
  undo_view u (in_place t') = in_place t ->
  start < timestamp_ u -> timestamp_ u ≠ finish ->
  (forall r, head rs = Some r -> timestamp_ r ≠ finish) ->
  read start finish t' (u :: rs) = read start finish t rs.
Proof.
  intros Ha Ha' Hu Hs Hf Hh. unfold read, read_view. rewrite Ha, Ha'. rewrite decide_False by done.
  cbn [reconstruct]. rewrite (proj2 (NewerThan_true _ _) Hs), Hu.
  destruct rs as [|r rs]; [done|]. rewrite decide_False by by apply Hh. done.
Qed.

(** A fresh insert of another transaction is not noticed. *)
Lemma read_push_insert start finish t t' u :
  allocated_ t = false -> type_ u = INSERT -> start < timestamp_ u -> timestamp_ u ≠ finish ->
  read start finish t' [u] = read start finish t [].
Proof.
  intros Ha Ht Hs Hf. unfold read, read_view. rewrite Ha. destruct (allocated_ t'); [|done].
  rewrite decide_False by done. cbn [reconstruct]. rewrite (proj2 (NewerThan_true _ _) Hs).
  unfold undo_view. by rewrite Ht.
Qed.

(** Records that differ in timestamps only, in a way the reader cannot tell. *)
Definition same_for (start finish : Z) (r r' : UndoRecord) : Prop :=
  type_ r = type_ r' /\ delta_ r = delta_ r' /\
  (start < timestamp_ r <-> start < timestamp_ r') /\ (timestamp_ r = finish <-> timestamp_ r' = finish).

Lemma reconstruct_same start finish rs rs' v :
  Forall2 (same_for start finish) rs rs' -> reconstruct start rs v = reconstruct start rs' v.
Proof.
  intros H. revert v. induction H as [|r r' rs rs' (Ht & Hd & Hs & Hf) _ IH]; intros v; cbn [reconstruct]; [done|].
  assert (NewerThan (timestamp_ r) start = NewerThan (timestamp_ r') start) as -> by by apply bool_decide_ext.
  destruct (NewerThan _ _); [|done]. rewrite IH. f_equal. unfold undo_view. by rewrite Ht, Hd.
Qed.

Lemma read_same start finish t rs rs' :
  Forall2 (same_for start finish) rs rs' -> read start finish t rs = read start finish t rs'.
Proof.
  intros H. unfold read, read_view. destruct (allocated_ t); [|done].
  pose proof (reconstruct_same _ _ _ _ (in_place t) H) as HR. inversion H as [|r r' l l' (Ht & Hd & Hs & Hf) Hl]; subst; [done|].
  destruct (decide (timestamp_ r = finish)) as [E|E].
  - by rewrite decide_True by by apply Hf.
  - rewrite decide_False by by rewrite <-Hf. by rewrite HR.
Qed.

(** Cutting a chain at a record the reader does not pass is not noticed. *)
Lemma reconstruct_take start k rs v :
  (forall r, rs !! k = Some r -> timestamp_ r <= start) -> reconstruct start (take k rs) v = reconstruct start rs v.
Proof.
  revert k v. induction rs as [|r rs IH]; intros [|k] v Hk; cbn [take reconstruct]; try done.
  - by rewrite (proj2 (NewerThan_false _ _)) by by apply Hk.
  - destruct (NewerThan _ _); [|done]. by apply IH.
Qed.

Lemma read_take start finish k t rs :
  (forall r, rs !! k = Some r -> timestamp_ r <= start) -> start < finish ->
  read start finish t (take k rs) = read start finish t rs.
Proof.
  intros Hk Hlt. unfold read, read_view. destruct (allocated_ t); [|done].
  pose proof (reconstruct_take start k rs (in_place t) Hk) as HR.
  destruct rs as [|r rs]; [by rewrite take_nil|]. destruct k as [|k]; cbn [take] in *.
  - specialize (Hk r eq_refl). rewrite decide_False by lia. cbn [reconstruct] in *. by rewrite <-HR.
  - by rewrite HR.
Qed.

(** The owner of the newest record reads in place. *)
Lemma read_own start finish t u rs :
  timestamp_ u = finish -> read start finish t (u :: rs) = if (in_place t).1 then Some (attrs_ t) else None.
Proof.
  intros Hu. unfold read, read_view. rewrite decide_True by done.
  unfold in_place. by destruct (allocated_ t).
Qed.

(** A reader that is newer than everything in the chain reads in place. *)
Lemma read_newest start finish t rs :
  Forall (fun r => timestamp_ r <= start) rs -> read start finish t rs = if (in_place t).1 then Some (attrs_ t) else None.
Proof.
  intros H. unfold read, read_view, in_place. destruct (allocated_ t); [|done].
  destruct rs as [|r rs]; [done|]. inversion_clear H. case_decide; [done|]. cbn [reconstruct].
  by rewrite (proj2 (NewerThan_false _ _)).
Qed.

(** ** Rolling back *)

(** Undoing records in order, whatever their timestamps. *)
Definition undo_all (os : list UndoRecord) (v : view) : view := foldl (fun v r => undo_view r v) v os.

(** Undoing is overwriting, hence idempotent. *)
Lemma undo_all_overwrites os :
  exists (ov : Z -> option (option (list Z))) (b : option bool),
    forall v, (undo_all os v).1 = default v.1 b /\ forall c, (undo_all os v).2 !! c = default (v.2 !! c) (ov c).
Proof.
  induction os as [|r os (ov & b & IH)]; [by exists (fun _ => None), None|].
  exists (fun c => match ov c with
                   | Some x => Some x
                   | None => match type_ r with UPDATE => row_value (delta_ r) c | _ => None end
                   end),
    (match b with
     | Some x => Some x
     | None => match type_ r with UPDATE => None | INSERT => Some false | DELETE => Some true end
     end).
  intros v. destruct (IH (undo_view r v)) as [H1 H2].
  change (undo_all (r :: os) v) with (undo_all os (undo_view r v)). split.
  - rewrite H1. unfold undo_view. destruct b; [done|]. by destruct (type_ r).
  - intros c. rewrite H2. destruct (ov c); [done|]. unfold undo_view. cbn [default from_option].
    destruct (type_ r); cbn [snd]; [by rewrite write_row_lookup|done..].
Qed.

Lemma undo_all_idemp os v : undo_all os (undo_all os v) = undo_all os v.
Proof.
  destruct (undo_all_overwrites os) as (ov & b & H). destruct (H (undo_all os v)) as [H1 H2]. destruct (H v) as [H3 H4].
  apply injective_projections.
  - rewrite H1, H3. by destruct b.
  - apply map_eq. intros c. rewrite H2, H4. by destruct (ov c).
Qed.

Lemma reconstruct_app start os rs v :
  Forall (fun r => start < timestamp_ r) os -> reconstruct start (os ++ rs) v = reconstruct start rs (undo_all os v).
Proof.
  intros H. revert v. induction H as [|r os Hr _ IH]; intros v; [done|].
  cbn [app reconstruct]. rewrite (proj2 (NewerThan_true _ _) Hr). by rewrite IH.
Qed.

(** What [Rollback] does to the tuple for one record, and for a list of them. *)
Definition rollback_record (t : tuple) (r : UndoRecord) : tuple :=
  match type_ r with
  | UPDATE => set_attrs (write_row (delta_ r) (attrs_ t)) t
  | INSERT => Deallocate (SetNull t)
  | DELETE => SetNotNull t
  end.

Definition rollback_records (os : list UndoRecord) (t : tuple) : tuple := foldl rollback_record t os.

Definition no_insert (os : list UndoRecord) : Prop := Forall (fun r => type_ r ≠ INSERT) os.

Lemma rollback_no_insert os t :
  no_insert os -> allocated_ t = true ->
  allocated_ (rollback_records os t) = true /\ in_place (rollback_records os t) = undo_all os (in_place t) /\
  version_ptr_ (rollback_records os t) = version_ptr_ t.
Proof.
  intros H. revert t. induction H as [|r os Hr _ IH]; intros t Ha; [done|].
  change (rollback_records (r :: os) t) with (rollback_records os (rollback_record t r)).
  change (undo_all (r :: os) (in_place t)) with (undo_all os (undo_view r (in_place t))).
  destruct (IH (rollback_record t r)) as (H1 & H2 & H3); [unfold rollback_record; by destruct (type_ r)|].
  split_and!; [done| |rewrite H3; unfold rollback_record; by destruct (type_ r)].
  rewrite H2. f_equal. unfold rollback_record, undo_view, in_place. destruct (type_ r); try done.
  cbn. by rewrite Ha.
Qed.

(** Reading through the newest records, all of another transaction. *)
Lemma read_view_app start finish t os rs :
  allocated_ t = true -> os ≠ [] -> Forall (fun r => start < timestamp_ r /\ timestamp_ r ≠ finish) os ->
  read_view start finish t (os ++ rs) = reconstruct start rs (undo_all os (in_place t)).
Proof.
  intros Ha Hne HF. rewrite <-(reconstruct_app start os rs) by (eapply Forall_impl; [exact HF|naive_solver]).
  destruct HF as [|o os [_ Ho] _]; [done|]. unfold read_view. rewrite Ha. cbn [app]. by rewrite decide_False.
Qed.

(** Rolling back the newest records of a transaction, all newer than the reader, is
    not noticed by another one. *)
Lemma read_rollback start finish t os rs :
  allocated_ t = true -> Forall (fun r => start < timestamp_ r /\ timestamp_ r ≠ finish) os ->
  (no_insert os \/ exists os' i, os = os' ++ [i] /\ no_insert os' /\ type_ i = INSERT /\ rs = []) ->
  read start finish (rollback_records os t) (os ++ rs) = read start finish t (os ++ rs).
Proof.
  intros Ha HF Hcase. destruct (decide (os = [])) as [->|Hne]; [done|].
  destruct Hcase as [Hni|(os' & i & -> & Hni & Hi & ->)].
  - destruct (rollback_no_insert os t Hni Ha) as (Ha' & Hip & _). unfold read.
    by rewrite !read_view_app, Hip, undo_all_idemp by done.
  - unfold read at 2. rewrite read_view_app by done. cbn [reconstruct].
    assert ((undo_all (os' ++ [i]) (in_place t)).1 = false) as ->.
    { unfold undo_all. rewrite foldl_app. cbn. unfold undo_view at 1. by rewrite Hi. }
    unfold read, read_view. assert (allocated_ (rollback_records (os' ++ [i]) t) = false) as ->; [|done].
    unfold rollback_records. rewrite foldl_app. cbn. unfold rollback_record at 1. by rewrite Hi.
Qed.
