(* ===== verification/TxnManager.v ===== *)
(** * TransactionManager

    [transaction/transaction_manager.{h,cpp}]: beginning, committing and aborting
    transactions, over the memory of DataTable and the timestamps of Timestamps.
    [world] is the state all of them share with the garbage collector; a transaction
    is named by its start time, which is unique.  With logging enabled a finished
    transaction stays in the set of running ones until the log serializer has
    processed it ([log_queue]). *)

From S2P Require Import Prelude Layout Varlen Timestamps DataTable.
Import TransactionUtil.
Abbreviation TimestampManager := TimestampManager.TimestampManager.

Record world := World {
  mem : memory;
  tm : TimestampManager;
  tables : gmap Z DataTable;
  txns : gmap Z TransactionContext;
  completed_txns_ : list Z;
  log_queue : list Z;
  txns_to_unlink_ : list Z;
  txns_to_deallocate_ : list Z;
  last_unlinked_ : Z;
}.

Definition set_mem (m : memory) (w : world) : world :=
  World m (tm w) (tables w) (txns w) (completed_txns_ w) (log_queue w) (txns_to_unlink_ w) (txns_to_deallocate_ w)
    (last_unlinked_ w).
Definition set_tm (t : TimestampManager) (w : world) : world :=
  World (mem w) t (tables w) (txns w) (completed_txns_ w) (log_queue w) (txns_to_unlink_ w) (txns_to_deallocate_ w)
    (last_unlinked_ w).
Definition set_tables (t : gmap Z DataTable) (w : world) : world :=
  World (mem w) (tm w) t (txns w) (completed_txns_ w) (log_queue w) (txns_to_unlink_ w) (txns_to_deallocate_ w)
    (last_unlinked_ w).
Definition set_txns (t : gmap Z TransactionContext) (w : world) : world :=
  World (mem w) (tm w) (tables w) t (completed_txns_ w) (log_queue w) (txns_to_unlink_ w) (txns_to_deallocate_ w)
    (last_unlinked_ w).
Definition put_txn (t : TransactionContext) (w : world) : world := set_txns (<[start_time_ t := t]> (txns w)) w.
Definition push_completed (id : Z) (w : world) : world :=
  World (mem w) (tm w) (tables w) (txns w) (id :: completed_txns_ w) (log_queue w) (txns_to_unlink_ w)
    (txns_to_deallocate_ w) (last_unlinked_ w).
Definition push_log (id : Z) (w : world) : world :=
  World (mem w) (tm w) (tables w) (txns w) (completed_txns_ w) (log_queue w ++ [id]) (txns_to_unlink_ w)
    (txns_to_deallocate_ w) (last_unlinked_ w).

Definition set_finish_time (c : Z) (t : TransactionContext) : TransactionContext :=
  Txn (start_time_ t) c (undo_buffer_ t) (last_log_record_ t) (has_flushed_ t)
    (loose_ptrs_ t) (abort_actions_ t) (commit_actions_ t) (aborted_ t) (must_abort_ t).
Definition set_aborted (t : TransactionContext) : TransactionContext :=
  Txn (start_time_ t) (finish_time_ t) (undo_buffer_ t) (last_log_record_ t) (has_flushed_ t)
    (loose_ptrs_ t) (abort_actions_ t) (commit_actions_ t) true (must_abort_ t).
Definition clear_commit_actions (t : TransactionContext) : TransactionContext :=
  Txn (start_time_ t) (finish_time_ t) (undo_buffer_ t) (last_log_record_ t) (has_flushed_ t)
    (loose_ptrs_ t) (abort_actions_ t) [] (aborted_ t) (must_abort_ t).
Definition clear_abort_actions (t : TransactionContext) : TransactionContext :=
  Txn (start_time_ t) (finish_time_ t) (undo_buffer_ t) (last_log_record_ t) (has_flushed_ t)
    (loose_ptrs_ t) [] (commit_actions_ t) (aborted_ t) (must_abort_ t).

(** [for (auto &it : txn->undo_buffer_) it.Timestamp().store(t)] *)
Definition store_timestamps (t : Z) (ps : list Z) (u : gmap Z UndoRecord) : gmap Z UndoRecord :=
  foldl (fun u p => alter (set_timestamp t) p u) u ps.

Section manager.
(** Whether a garbage collector and a log manager are attached. *)
Context (gc_enabled_ log_enabled : bool).

Definition BeginTransaction (w : world) : Z * world :=
  let '(start_time, tm) := TimestampManager.BeginTransaction (tm w) in
  (start_time, put_txn (new_txn start_time (u64 (start_time + INT64_MIN_bits))) (set_tm tm w)).

Definition LogCommit (txn : TransactionContext) (w : world) : world :=
  if log_enabled then push_log (start_time_ txn) w
  else set_tm (TimestampManager.RemoveTransaction (start_time_ txn) (tm w)) w.

Definition UpdatingCommitCriticalSection (txn : TransactionContext) (w : world) : Z * world :=
  let '(commit_time, tm) := TimestampManager.CheckOutTimestamp (tm w) in
  let w := set_tm tm w in
  (commit_time, set_mem (set_undos (store_timestamps commit_time (undo_buffer_ txn) (undos (mem w))) (mem w)) w).

(** [Commit]: the commit time, the commit actions in the order they run, and the
    new state. *)
Definition Commit (txn : TransactionContext) (w : world) : Z * list Z * world :=
  let '(result, w) :=
    if IsReadOnly txn then let '(t, tm) := TimestampManager.CheckOutTimestamp (tm w) in (t, set_tm tm w)
    else UpdatingCommitCriticalSection txn w in
  let txn := set_finish_time result txn in
  let actions := commit_actions_ txn in
  let txn := clear_commit_actions txn in
  let w := LogCommit txn (put_txn txn w) in
  (result, actions, if gc_enabled_ then push_completed (start_time_ txn) w else w).

(** [varlen != nullptr && varlen->NeedReclaim()]: the buffer to free, if any. *)
Definition reclaimable (value : option (list Z)) : list Z :=
  match value with
  | None => []
  | Some bytes => let e := entry_of_bytes bytes in if NeedReclaim e then [content_ e] else []
  end.

Definition DeallocateColumnUpdateIfVarlen (l : BlockLayout.BlockLayout) (col_id : Z) (t : tuple) : list Z :=
  if BlockLayout.IsVarlen l col_id then reclaimable (attrs_ t !! col_id) else [].

Definition DeallocateInsertedTupleIfVarlen (l : BlockLayout.BlockLayout) (t : tuple) : list Z :=
  BlockLayout.AllColumns l ≫= fun c => if BlockLayout.IsVarlen l c then reclaimable (attrs_ t !! c) else [].

(** Re-applying a before-image column by column, collecting buffers to free. *)
Definition rollback_update (l : BlockLayout.BlockLayout) (delta : row) (t : tuple) : tuple * list Z :=
  foldl (fun '(t, loose) p =>
    (set_attrs (write_attr (attrs_ t) p) t, loose ++ DeallocateColumnUpdateIfVarlen l p.1 t)) (t, []) delta.

(** The loop of [Rollback] at one slot. *)
Fixpoint rollback_chain (fuel : nat) (l : BlockLayout.BlockLayout) (u : gmap Z UndoRecord) (finish : Z)
    (undo_record : option Z) (t : tuple) (loose : list Z) : option (tuple * list Z) :=
  match undo_record with
  | None => Some (t, loose)
  | Some p =>
    match fuel with
    | O => None
    | S fuel =>
      r ← u !! p;
      if decide (timestamp_ r = finish) then
        match type_ r with
        | UPDATE => let '(t', ps) := rollback_update l (delta_ r) t in
                    rollback_chain fuel l u finish (next_ r) t' (loose ++ ps)
        | INSERT => rollback_chain fuel l u finish (next_ r) (Deallocate (SetNull t))
                      (loose ++ DeallocateInsertedTupleIfVarlen l t)
        | DELETE => rollback_chain fuel l u finish (next_ r) (SetNotNull t) loose
        end
      else Some (t, loose)
    end
  end.

Definition layout_of (w : world) (table : Z) : option BlockLayout.BlockLayout := layout_ <$> tables w !! table.

Definition Rollback (w : world) (txn : TransactionContext) (record : UndoRecord) (m : memory) :
    option (TransactionContext * memory) :=
  match table_ record with
  | None => Some (txn, m)
  | Some table =>
    l ← layout_of w table;
    let slot := slot_ record in
    '(t, loose) ← rollback_chain (S (size (undos m))) l (undos m) (finish_time_ txn)
                    (AtomicallyReadVersionPtr m slot) (tuple_at m slot) [];
    Some (add_loose_ptrs loose txn, set_tuple slot t m)
  end.

(** The loop over the undo buffer: every slot once. *)
Fixpoint rollback_all (w : world) (ps : list Z) (slots_rolled_back : gset TupleSlot)
    (txn : TransactionContext) (m : memory) : option (TransactionContext * memory) :=
  match ps with
  | [] => Some (txn, m)
  | p :: ps =>
    record ← undos m !! p;
    if decide (slot_ record ∈ slots_rolled_back) then rollback_all w ps slots_rolled_back txn m
    else
      '(txn, m) ← Rollback w txn record m;
      rollback_all w ps ({[slot_ record]} ∪ slots_rolled_back) txn m
  end.

(** [GCLastUpdateOnAbort]: free the buffers of a last update that was not installed. *)
Definition GCLastUpdateOnAbort (w : world) (txn : TransactionContext) (m : memory) : option TransactionContext :=
  match last_log_record_ txn with
  | Some (RedoRecord slot delta) =>
    p ← last (undo_buffer_ txn);
    last_undo_record ← undos m !! p;
    match table_ last_undo_record with
    | Some _ => Some txn
    | None =>
      table ← data_tables m !! TupleSlot.GetBlock slot;
      l ← layout_of w table;
      Some (add_loose_ptrs (delta ≫= fun p => if BlockLayout.IsVarlen l p.1 then reclaimable p.2 else []) txn)
    end
  | _ => Some txn
  end.

Definition LogAbort (txn : TransactionContext) (w : world) : world :=
  if log_enabled && has_flushed_ txn then push_log (start_time_ txn) w
  else set_tm (TimestampManager.RemoveTransaction (start_time_ txn) (tm w)) w.

(** [Abort]: the abort time, the abort actions in the order they run, and the new
    state. *)
Definition Abort (txn : TransactionContext) (w : world) : option (Z * list Z * world) :=
  let actions := abort_actions_ txn in
  let txn := clear_abort_actions txn in
  '(txn, m) ← rollback_all w (undo_buffer_ txn) ∅ txn (mem w);
  let '(abort_time, tm) := TimestampManager.CheckOutTimestamp (tm w) in
  let m := set_undos (store_timestamps abort_time (undo_buffer_ txn) (undos m)) m in
  let txn := set_aborted (set_finish_time abort_time txn) in
  txn ← GCLastUpdateOnAbort w txn m;
  let w := LogAbort txn (put_txn txn (set_mem m (set_tm tm w))) in
  Some (abort_time, actions, if gc_enabled_ then push_completed (start_time_ txn) w else w).

End manager.

(** The log serializer has written a finished transaction's records. *)
Definition serialize (w : world) : world :=
  match log_queue w with
  | [] => w
  | id :: rest =>
    World (mem w) (TimestampManager.RemoveTransaction id (tm w)) (tables w) (txns w) (completed_txns_ w) rest
      (txns_to_unlink_ w) (txns_to_deallocate_ w) (last_unlinked_ w)
  end.

Lemma store_timestamps_lookup c ps u p :
  store_timestamps c ps u !! p = if decide (p ∈ ps) then set_timestamp c <$> u !! p else u !! p.
Proof.
  revert u. induction ps as [|q ps IH]; intros u; [done|].
  change (store_timestamps c (q :: ps) u) with (store_timestamps c ps (alter (set_timestamp c) q u)). rewrite IH.
  destruct (decide (q = p)) as [->|Hne].
  - rewrite lookup_alter_eq. rewrite (decide_True (P := p ∈ p :: ps)) by left.
    case_decide; [|done]. by destruct (u !! p).
  - rewrite lookup_alter_ne by done. case_decide as H1; [by rewrite decide_True by by right|].
    rewrite decide_False; [done|]. intros [->|?]%elem_of_cons; done.
Qed.
