(* ===== verification/GarbageCollector.v ===== *)
(** * GarbageCollector

    [storage/garbage_collector.{h,cpp}]: unlinking the version chains of finished
    transactions that no running transaction can read, reclaiming deleted slots and
    buffers, and freeing the transactions later.  Freeing a transaction removes its
    undo records from memory.  Deferred actions are opaque (Timestamps); the observer
    and the garbage collection of indexes are not modelled. *)

From S2P Require Import Prelude Layout Varlen Timestamps DataTable TxnManager.
Import TransactionUtil.

Definition set_queues (unlink dealloc : list Z) (w : world) : world :=
  World (mem w) (tm w) (tables w) (txns w) (completed_txns_ w) (log_queue w) unlink dealloc (last_unlinked_ w).
Definition set_last_unlinked (t : Z) (w : world) : world :=
  World (mem w) (tm w) (tables w) (txns w) (completed_txns_ w) (log_queue w) (txns_to_unlink_ w)
    (txns_to_deallocate_ w) t.

(** [delete txn]: the context and its undo records are gone. *)
Definition delete_txn (id : Z) (w : world) : world :=
  match txns w !! id with
  | None => w
  | Some txn =>
    let u := foldl (fun u p => delete p u) (undos (mem w)) (undo_buffer_ txn) in
    set_txns (delete id (txns w)) (set_mem (set_undos u (mem w)) w)
  end.

Definition ProcessDeallocateQueue (oldest_txn : Z) (w : world) : Z * world :=
  if NewerThan oldest_txn (last_unlinked_ w) then
    (u32 (Z.of_nat (length (txns_to_deallocate_ w))),
     set_queues (txns_to_unlink_ w) [] (foldl (fun w id => delete_txn id w) w (txns_to_deallocate_ w)))
  else (0, w).

(** [TruncateVersionChain] behind the head: cut before the first record older than
    [oldest]. *)
Fixpoint truncate_behind (fuel : nat) (u : gmap Z UndoRecord) (oldest : Z) (curr : Z) : option (gmap Z UndoRecord) :=
  match fuel with
  | O => None
  | S fuel =>
    r ← u !! curr;
    match next_ r with
    | None => Some u
    | Some next =>
      r' ← u !! next;
      if NewerThan oldest (timestamp_ r') then Some (alter (set_next None) curr u)
      else truncate_behind fuel u oldest next
    end
  end.

Definition TruncateVersionChain (slot : TupleSlot) (oldest : Z) (m : memory) : option memory :=
  match AtomicallyReadVersionPtr m slot with
  | None => Some m
  | Some version_ptr =>
    r ← undos m !! version_ptr;
    if NewerThan oldest (timestamp_ r) then
      Some (CompareAndSwapVersionPtr slot (Some version_ptr) None m).2
    else
      u ← truncate_behind (S (size (undos m))) (undos m) oldest version_ptr;
      Some (set_undos u m)
  end.

(** [ReclaimSlotIfDeleted]; [undo_record->Table()] is dereferenced. *)
Definition ReclaimSlotIfDeleted (r : UndoRecord) (m : memory) : option memory :=
  match type_ r with
  | DELETE => _ ← table_ r; Some (set_tuple (slot_ r) (Deallocate (tuple_at m (slot_ r))) m)
  | _ => Some m
  end.

Definition ReclaimBufferIfVarlen (w : world) (r : UndoRecord) (m : memory) : option (list Z) :=
  table ← table_ r;
  l ← layout_of w table;
  Some match type_ r with
       | INSERT => []
       | DELETE => (Z.of_nat <$> seq 0 (length (BlockLayout.attr_sizes_ l))) ≫= fun c =>
           if BlockLayout.IsVarlen l c then reclaimable (attrs_ (tuple_at m (slot_ r)) !! c) else []
       | UPDATE => delta_ r ≫= fun p => if BlockLayout.IsVarlen l p.1 then reclaimable p.2 else []
       end.

(** The loop over the undo buffer of one transaction that can be unlinked. *)
Fixpoint unlink_records (w : world) (oldest_txn : Z) (ps : list Z) (visited_slots : gset TupleSlot)
    (txn : TransactionContext) (m : memory) : option (gset TupleSlot * TransactionContext * memory) :=
  match ps with
  | [] => Some (visited_slots, txn, m)
  | p :: ps =>
    r ← undos m !! p;
    '(visited_slots, m) ←
      match table_ r with
      | Some _ =>
        if decide (slot_ r ∈ visited_slots) then Some (visited_slots, m)
        else m ← TruncateVersionChain (slot_ r) oldest_txn m; Some ({[slot_ r]} ∪ visited_slots, m)
      | None => Some (visited_slots, m)
      end;
    if aborted_ txn then unlink_records w oldest_txn ps visited_slots txn m
    else
      m ← ReclaimSlotIfDeleted r m;
      loose ← ReclaimBufferIfVarlen w r m;
      unlink_records w oldest_txn ps visited_slots (add_loose_ptrs loose txn) m
  end.

(** The loop over the unlink queue: the number processed, the transactions to
    requeue (in queue order reversed, as [push_front] leaves them). *)
Fixpoint unlink_queue (oldest_txn : Z) (queue : list Z) (visited_slots : gset TupleSlot) (requeue : list Z)
    (w : world) : option (Z * list Z * world) :=
  match queue with
  | [] => Some (0, requeue, w)
  | id :: queue =>
    txn ← txns w !! id;
    if IsReadOnly txn then
      '(n, requeue, w) ← unlink_queue oldest_txn queue visited_slots requeue (delete_txn id w);
      Some (n + 1, requeue, w)
    else if NewerThan oldest_txn (finish_time_ txn) then
      '(visited_slots, txn, m) ← unlink_records w oldest_txn (undo_buffer_ txn) visited_slots txn (mem w);
      let w := put_txn txn (set_mem m w) in
      let w := set_queues (txns_to_unlink_ w) (id :: txns_to_deallocate_ w) w in
      '(n, requeue, w) ← unlink_queue oldest_txn queue visited_slots requeue w;
      Some (n + 1, requeue, w)
    else unlink_queue oldest_txn queue visited_slots (id :: requeue) w
  end.

Definition ProcessUnlinkQueue (oldest_txn : Z) (w : world) : option (Z * world) :=
  let queue := completed_txns_ w ++ txns_to_unlink_ w in
  let w := World (mem w) (tm w) (tables w) (txns w) [] (log_queue w) [] (txns_to_deallocate_ w) (last_unlinked_ w) in
  '(n, requeue, w) ← unlink_queue oldest_txn queue ∅ [] w;
  Some (u32 n, set_queues requeue (txns_to_deallocate_ w) w).

Section collector.
(** The deferred action manager, if there is one, and the actions its actions
    register. *)
Context {A : Type} (registers : A -> list A).
Abbreviation manager := (option (DeferredActionManager.DeferredActionManager A)).

Definition ProcessDeferredActions (oldest_txn now : Z) (m : manager) : list (Z * A) * manager :=
  match m with
  | None => ([], None)
  | Some m => let '(executed, _, m) := DeferredActionManager.Process registers oldest_txn now m in (executed, Some m)
  end.

(** The numbers of transactions freed and unlinked, the deferred actions run, and
    the new states. *)
Definition PerformGarbageCollection (dam : manager) (w : world) :
    option (Z * Z * list (Z * A) * manager * world) :=
  let w := set_tm (TimestampManager.CheckOutTimestamp (tm w)).2 w in
  let '(oldest_txn, tm') := TimestampManager.OldestTransactionStartTime (tm w) in
  let w := set_tm tm' w in
  let '(txns_deallocated, w) := ProcessDeallocateQueue oldest_txn w in
  '(txns_unlinked, w) ← ProcessUnlinkQueue oldest_txn w;
  let w :=
    if decide (0 < txns_unlinked)
    then let '(t, tm') := TimestampManager.CheckOutTimestamp (tm w) in set_last_unlinked t (set_tm tm' w)
    else w in
  let '(executed, dam) := ProcessDeferredActions oldest_txn (TimestampManager.CurrentTime (tm w)) dam in
  Some (txns_deallocated, txns_unlinked, executed, dam, w).

End collector.
