(* ===== verification/Mvcc.v ===== *)
(** * The multi-version state machine and its invariant

    The operations of [SqlTable] (storage/sql_table.h) over DataTable, the
    TransactionManager and the GarbageCollector as the steps of one state machine,
    [exec]; the calling conventions the code states in comments and assertions are
    [op_ok].  [winv] is the invariant of the reachable states: version chains are
    acyclic lists of live records, sorted newest first, whose uncommitted records
    form a prefix owned by one running transaction. *)

From S2P Require Import Prelude Layout Varlen Timestamps DataTable Versions TxnManager GarbageCollector.
Import TransactionUtil.

(** ** SqlTable *)

Definition SqlTable_Update (table : Z) (txn : TransactionContext) (slot : TupleSlot) (redo : row) (undo : Z)
    (w : world) : option (bool * world) :=
  '(result, txn, m) ← Update table txn slot redo undo (mem w);
  let txn := if result : bool then txn else SetMustAbort txn in
  Some (result, put_txn txn (set_mem m w)).

Definition SqlTable_Delete (table : Z) (txn : TransactionContext) (slot : TupleSlot) (undo : Z) (w : world) :
    option (bool * world) :=
  '(result, txn, m) ← Delete table txn slot undo (mem w);
  let txn := if result : bool then txn else SetMustAbort txn in
  Some (result, put_txn txn (set_mem m w)).

(** The slot of the staged record is set once it is known. *)
Definition SqlTable_Insert (table : Z) (txn : TransactionContext) (redo : row) (undo : Z) (w : world) :
    option (TupleSlot * world) :=
  t ← tables w !! table;
  '(slot, txn, t, m) ← Insert table txn redo undo t (mem w);
  Some (slot, put_txn (StageWrite slot redo txn) (set_tables (<[table := t]> (tables w)) (set_mem m w))).

(** ** Steps *)

Inductive op :=
| OBegin
| OUpdate (id table : Z) (slot : TupleSlot) (redo : row) (undo : Z)
| ODelete (id table : Z) (slot : TupleSlot) (undo : Z)
| OInsert (id table : Z) (redo : row) (undo : Z)
| OCommit (id : Z)
| OAbort (id : Z)
| OSerialize
| OGC
| OCreateTable (table : Z) (layout : BlockLayout.BlockLayout).

(** The transaction that acts. *)
Definition actor (o : op) : option Z :=
  match o with
  | OUpdate id _ _ _ _ | ODelete id _ _ _ | OInsert id _ _ _ | OCommit id | OAbort id => Some id
  | _ => None
  end.

Section machine.
Context (gc_enabled_ log_enabled : bool).

Definition exec (o : op) (w : world) : option world :=
  match o with
  | OBegin => Some (BeginTransaction w).2
  | OUpdate id table slot redo undo =>
    txn ← txns w !! id; snd <$> SqlTable_Update table (StageWrite slot redo txn) slot redo undo w
  | ODelete id table slot undo =>
    txn ← txns w !! id; snd <$> SqlTable_Delete table (StageDelete slot txn) slot undo w
  | OInsert id table redo undo =>
    txn ← txns w !! id; snd <$> SqlTable_Insert table txn redo undo w
  | OCommit id => txn ← txns w !! id; Some (Commit gc_enabled_ log_enabled txn w).2
  | OAbort id => txn ← txns w !! id; snd <$> Abort gc_enabled_ log_enabled txn w
  | OSerialize => Some (serialize w)
  | OGC => snd <$> PerformGarbageCollection (fun _ : unit => []) None w
  | OCreateTable table layout =>
    '(t, m) ← make_table table layout (mem w); Some (set_tables (<[table := t]> (tables w)) (set_mem m w))
  end.

End machine.

(** A transaction that has not finished: its finish time is not a commit time. *)
Definition active (t : TransactionContext) : Prop := 2 ^ 63 <= finish_time_ t.

Definition running (w : world) (id : Z) (t : TransactionContext) : Prop := txns w !! id = Some t /\ active t.

(** A row with all columns of the table: what [Insert] is given. *)
Definition takes_row (w : world) (table : Z) (redo : row) : Prop :=
  exists t, tables w !! table = Some t /\ redo.*1 = BlockLayout.AllColumns (layout_ t) /\
    Z.of_nat (length redo) = BlockLayout.NumColumns (layout_ t) - Z.of_nat NUM_RESERVED_COLUMNS.

#[export] Instance takes_row_dec w table redo : Decision (takes_row w table redo).
Proof.
  unfold takes_row. destruct (tables w !! table) as [t|]; [|right; by intros (? & ? & _)].
  destruct (decide (redo.*1 = BlockLayout.AllColumns (layout_ t) /\
    Z.of_nat (length redo) = BlockLayout.NumColumns (layout_ t) - Z.of_nat NUM_RESERVED_COLUMNS)) as [H|H]; [left; by exists t|right].
  intros (t' & [= <-] & H'). by apply H.
Defined.

(** What callers guarantee: a running transaction acts, one that has met a conflict
    only aborts, records get fresh memory, rows are sorted by column and leave the
    version column alone, inserted rows have all columns, slots are passed to the table they are in, and the clock
    is not about to wrap around. *)
Definition op_ok (o : op) (w : world) : Prop :=
  TimestampManager.time_ (tm w) + 2 < 2 ^ 63 /\
  match o with
  | OUpdate id table slot redo undo =>
    exists t, running w id t /\ must_abort_ t = false /\ undos (mem w) !! undo = None /\
      is_Some (tables w !! table) /\ data_tables (mem w) !! TupleSlot.GetBlock slot = Some table /\
      StronglySorted Z.lt (redo.*1) /\ redo ≠ [] /\ VERSION_POINTER_COLUMN_ID ∉ redo.*1
  | ODelete id table slot undo =>
    exists t, running w id t /\ must_abort_ t = false /\ undos (mem w) !! undo = None /\
      is_Some (tables w !! table) /\ data_tables (mem w) !! TupleSlot.GetBlock slot = Some table
  | OInsert id table redo undo =>
    exists t, running w id t /\ must_abort_ t = false /\ undos (mem w) !! undo = None /\
      takes_row w table redo /\ block_store (mem w) ≠ [] /\
      StronglySorted Z.lt (redo.*1) /\ VERSION_POINTER_COLUMN_ID ∉ redo.*1
  | OCommit id => exists t, running w id t /\ must_abort_ t = false
  | OAbort id => exists t, running w id t
  | OCreateTable table layout =>
    tables w !! table = None /\ block_store (mem w) ≠ [] /\ 0 < BlockLayout.num_slots_ layout < 2 ^ 20
  | _ => True
  end.

(** ** The invariant *)

Definition time (w : world) : Z := TimestampManager.time_ (tm w).
Definition heap (w : world) : gmap Z UndoRecord := undos (mem w).

(** Newest first; what is uncommitted belongs to one transaction. *)
Definition newer_or_own (r r' : UndoRecord) : Prop :=
  timestamp_ r' <= timestamp_ r /\ (2 ^ 63 <= timestamp_ r' -> timestamp_ r = timestamp_ r').

(** A record in a chain belongs to a transaction that is not about to be freed. *)
Definition owned (w : world) (p : Z) : Prop :=
  exists id t, txns w !! id = Some t /\ p ∈ undo_buffer_ t /\ id ∉ txns_to_deallocate_ w.

Record slot_inv (w : world) (sl : TupleSlot) (l : list Z) : Prop := {
  si_chain : is_chain (heap w) (version_ptr_ (tuple_at (mem w) sl)) l;
  si_nodup : NoDup l;
  si_rec : forall p r, p ∈ l -> heap w !! p = Some r ->
    slot_ r = sl /\ table_ r ≠ None /\ delta_sorted r /\ (type_ r = INSERT -> next_ r = None) /\ owned w p;
  si_sorted : StronglySorted newer_or_own (records (heap w) l);
  si_alloc : forall r, head (records (heap w) l) = Some r -> 2 ^ 63 <= timestamp_ r ->
    allocated_ (tuple_at (mem w) sl) = true;
}.

Record txn_inv (w : world) (id : Z) (t : TransactionContext) : Prop := {
  ti_start : start_time_ t = id /\ 0 <= id < time w;
  ti_active : active t -> finish_time_ t = id + 2 ^ 63 /\ aborted_ t = false /\
    id ∈ TimestampManager.curr_running_txns_ (tm w);
  ti_finished : ~ active t -> id < finish_time_ t < time w /\ (aborted_ t = false -> must_abort_ t = false);
  ti_nodup : NoDup (undo_buffer_ t);
  ti_undo : forall p, p ∈ undo_buffer_ t -> exists r, heap w !! p = Some r /\ timestamp_ r = finish_time_ t /\
    forall tb, table_ r = Some tb -> is_Some (tables w !! tb);
  ti_installed : active t -> forall p r, p ∈ undo_buffer_ t -> heap w !! p = Some r -> table_ r ≠ None ->
    exists l, slot_inv w (slot_ r) l /\ p ∈ l;
  ti_failed : forall p r, p ∈ undo_buffer_ t -> heap w !! p = Some r -> table_ r = None ->
    must_abort_ t = true /\ last (undo_buffer_ t) = Some p;
  ti_delete : aborted_ t = false -> forall p r, p ∈ undo_buffer_ t -> heap w !! p = Some r ->
    type_ r = DELETE -> table_ r ≠ None ->
    present_ (tuple_at (mem w) (slot_ r)) = false /\
    (version_ptr_ (tuple_at (mem w) (slot_ r)) = Some p \/ version_ptr_ (tuple_at (mem w) (slot_ r)) = None);
  ti_redo : forall sl d, last_log_record_ t = Some (RedoRecord sl d) ->
    undo_buffer_ t ≠ [] /\ exists tb, data_tables (mem w) !! TupleSlot.GetBlock sl = Some tb /\ is_Some (tables w !! tb);
}.

Record winv (w : world) : Prop := {
  wi_ts : ts_ok (tm w);
  wi_txn : forall id t, txns w !! id = Some t -> txn_inv w id t;
  wi_disjoint : forall id1 t1 id2 t2 p, txns w !! id1 = Some t1 -> txns w !! id2 = Some t2 ->
    p ∈ undo_buffer_ t1 -> p ∈ undo_buffer_ t2 -> id1 = id2;
  wi_slot : forall sl, exists l, slot_inv w sl l;
  wi_table : forall id t, tables w !! id = Some t -> table_ok (mem w) id t;
  wi_store : store_ok (mem w);
  wi_used : forall p r, heap w !! p = Some r -> table_ r ≠ None -> is_Some (tuples (mem w) !! slot_ r);
  wi_log : forall id, id ∈ log_queue w -> id < time w /\ forall t, txns w !! id = Some t -> ~ active t;
  wi_queues : NoDup (completed_txns_ w ++ txns_to_unlink_ w ++ txns_to_deallocate_ w) /\
    forall id, id ∈ completed_txns_ w ++ txns_to_unlink_ w ++ txns_to_deallocate_ w ->
      exists t, txns w !! id = Some t /\ ~ active t;
}.

Definition step (gc log : bool) (w w' : world) : Prop := exists o, op_ok o w /\ exec gc log o w = Some w'.

(** ** The empty system *)

Definition init_world (store : list Z) : world :=
  World (Memory ∅ ∅ ∅ ∅ store) TimestampManager.init ∅ ∅ [] [] [] [] 0.

Definition initial (w : world) : Prop := exists store, w = init_world store /\ NoDup store /\ Forall aligned store.

Definition reachable (gc log : bool) (w : world) : Prop := exists w0, initial w0 /\ rtc (step gc log) w0 w.

Lemma initial_winv w : initial w -> winv w.
Proof.
  intros (store & -> & Hn & Ha). unfold init_world. constructor; cbn; try done.
  - intros sl. exists []. constructor; cbn; [done|constructor| |constructor|done].
    intros p r Hp. by apply elem_of_nil in Hp.
  - split; [done|]. intros b Hb. rewrite Forall_forall in Ha. split; [auto|done].
  - intros id Hid. by apply elem_of_nil in Hid.
  - split; [constructor|]. intros id Hid. by apply elem_of_nil in Hid.
Qed.
