(* ===== verification/MvccWrite.v ===== *)
(** * Writes keep the invariant

    [Update], [Delete] and [Insert] of a running transaction, successful or not. *)

From S2P Require Import Prelude Layout Timestamps DataTable Versions TxnManager Mvcc.
Import TransactionUtil.

(** ** General facts about the invariant *)

Lemma slot_chain w sl l l' : slot_inv w sl l -> slot_inv w sl l' -> l = l'.
Proof. intros [H _ _ _ _] [H' _ _ _ _]. by eapply chain_det. Qed.

Lemma records_insert_fresh u p r l :
  u !! p = None -> Forall (fun q => is_Some (u !! q)) l -> records (<[p := r]> u) l = records u l.
Proof.
  intros Hp Hl. apply records_same. intros q Hq. rewrite Forall_forall in Hl. apply lookup_insert_ne. intros ->.
  destruct (Hl q Hq). congruence.
Qed.

Lemma chain_insert_fresh u p r ptr l : u !! p = None -> is_chain u ptr l -> is_chain (<[p := r]> u) ptr l.
Proof.
  intros Hp Hc. eapply chain_frame; [done|]. intros q s Hq Hs. exists s. split; [|done].
  rewrite lookup_insert_ne; [done|]. intros ->. congruence.
Qed.

Lemma sorted_head_all (r : UndoRecord) rs : StronglySorted newer_or_own (r :: rs) -> Forall (newer_or_own r) rs.
Proof. by intros [_ H]%StronglySorted_inv. Qed.

(** In a chain, a record with an uncommitted timestamp makes the head have it too. *)
Lemma head_own w sl l r r' :
  slot_inv w sl l -> head (records (heap w) l) = Some r -> r' ∈ records (heap w) l ->
  2 ^ 63 <= timestamp_ r' -> timestamp_ r = timestamp_ r'.
Proof.
  intros Hs Hh Hr' Ht. pose proof (si_sorted _ _ _ Hs) as HS. destruct (records (heap w) l) as [|r0 rs]; [done|].
  injection Hh as ->. apply elem_of_cons in Hr' as [->|Hr']; [done|].
  apply sorted_head_all in HS. rewrite Forall_forall in HS. by apply HS.
Qed.

(** ** What a write changes *)

Record write_effect (w : world) (id : Z) (t : TransactionContext) (undo : Z) (u : UndoRecord) (sl : TupleSlot)
    (tp : tuple) (t' : TransactionContext) (w' : world) : Prop := {
  we_run : running w id t;
  we_ok : must_abort_ t = false;
  we_fresh : heap w !! undo = None;
  we_heap : heap w' = <[undo := u]> (heap w);
  we_tuple : forall sl', tuple_at (mem w') sl' = if decide (sl' = sl) then tp else tuple_at (mem w) sl';
  we_txns : txns w' = <[id := t']> (txns w);
  we_start : start_time_ t' = start_time_ t;
  we_finish : finish_time_ t' = finish_time_ t;
  we_buffer : undo_buffer_ t' = undo_buffer_ t ++ [undo];
  we_aborted : aborted_ t' = aborted_ t;
  we_tm : tm w' = tm w;
  we_tables : forall tb, is_Some (tables w !! tb) -> is_Some (tables w' !! tb);
  we_data_tables : forall b tb, data_tables (mem w) !! b = Some tb -> data_tables (mem w') !! b = Some tb;
  we_completed : completed_txns_ w' = completed_txns_ w;
  we_unlink : txns_to_unlink_ w' = txns_to_unlink_ w;
  we_dealloc : txns_to_deallocate_ w' = txns_to_deallocate_ w;
  we_log : log_queue w' = log_queue w;
  we_slot : slot_ u = sl;
  we_used : forall sl', is_Some (tuples (mem w) !! sl') -> is_Some (tuples (mem w') !! sl');
  we_used_new : table_ u ≠ None -> is_Some (tuples (mem w') !! sl);
  we_ts : timestamp_ u = finish_time_ t;
  we_table : forall tb, table_ u = Some tb -> is_Some (tables w' !! tb);
  we_redo : forall s d, last_log_record_ t' = Some (RedoRecord s d) ->
    exists tb, data_tables (mem w') !! TupleSlot.GetBlock s = Some tb /\ is_Some (tables w' !! tb);
}.

Section effect.
Context (w : world) (id : Z) (t : TransactionContext) (undo : Z) (u : UndoRecord) (sl : TupleSlot).
Context (tp : tuple) (t' : TransactionContext) (w' : world).
Hypothesis Hinv : winv w.
Hypothesis We : write_effect w id t undo u sl tp t' w'.

Lemma we_heap_old p r : heap w !! p = Some r -> heap w' !! p = Some r.
Proof.
  intros Hp. rewrite (we_heap _ _ _ _ _ _ _ _ _ We). rewrite lookup_insert_ne; [done|].
  intros ->. pose proof (we_fresh _ _ _ _ _ _ _ _ _ We). congruence.
Qed.

Lemma we_heap_cases p r : heap w' !! p = Some r -> (p = undo /\ r = u) \/ (p ≠ undo /\ heap w !! p = Some r).
Proof.
  rewrite (we_heap _ _ _ _ _ _ _ _ _ We). intros [[<- <-]|[? ?]]%lookup_insert_Some; auto.
Qed.

Lemma we_in_heap id2 t2 p : txns w !! id2 = Some t2 -> p ∈ undo_buffer_ t2 -> is_Some (heap w !! p) /\ p ≠ undo.
Proof.
  intros Ht Hp. destruct (ti_undo _ _ _ (wi_txn _ Hinv _ _ Ht) _ Hp) as (r & Hr & _). split; [by rewrite Hr|].
  intros ->. pose proof (we_fresh _ _ _ _ _ _ _ _ _ We). congruence.
Qed.

Lemma we_owned p : owned w p -> owned w' p.
Proof.
  intros (id2 & t2 & Ht2 & Hp & Hd). destruct (decide (id2 = id)) as [->|Hne].
  - exists id, t'. rewrite (we_txns _ _ _ _ _ _ _ _ _ We), (we_dealloc _ _ _ _ _ _ _ _ _ We), lookup_insert_eq.
    destruct (we_run _ _ _ _ _ _ _ _ _ We) as [Ht _]. simplify_eq.
    rewrite (we_buffer _ _ _ _ _ _ _ _ _ We). split_and!; [done|apply elem_of_app; by left|done].
  - exists id2, t2. rewrite (we_txns _ _ _ _ _ _ _ _ _ We), (we_dealloc _ _ _ _ _ _ _ _ _ We), lookup_insert_ne by done.
    done.
Qed.

Lemma we_slot_frame sl' l : sl' ≠ sl -> slot_inv w sl' l -> slot_inv w' sl' l.
Proof.
  intros Hne [Hc Hn Hr Hs Ha]. pose proof (chain_lookup _ _ _ Hc) as Hl.
  pose proof (we_fresh _ _ _ _ _ _ _ _ _ We) as Hf.
  assert (tuple_at (mem w') sl' = tuple_at (mem w) sl') as Et.
  { rewrite (we_tuple _ _ _ _ _ _ _ _ _ We). by rewrite decide_False. }
  assert (records (heap w') l = records (heap w) l) as Er.
  { rewrite (we_heap _ _ _ _ _ _ _ _ _ We). by apply records_insert_fresh. }
  constructor; rewrite ?Et, ?Er; [|done| |done|done].
  - rewrite (we_heap _ _ _ _ _ _ _ _ _ We). by apply chain_insert_fresh.
  - intros p r Hp Hpr. apply we_heap_cases in Hpr as [[-> ->]|[_ Hpr]].
    + rewrite Forall_forall in Hl. specialize (Hl _ Hp). rewrite Hf in Hl. by destruct Hl.
    + destruct (Hr p r Hp Hpr) as (? & ? & ? & ? & ?). split_and!; try done. by apply we_owned.
Qed.

Lemma we_used_all p r : heap w' !! p = Some r -> table_ r ≠ None -> is_Some (tuples (mem w') !! slot_ r).
Proof.
  intros [[-> ->]|[_ Hp]]%we_heap_cases Ht.
  - rewrite (we_slot _ _ _ _ _ _ _ _ _ We). by apply (we_used_new _ _ _ _ _ _ _ _ _ We).
  - apply (we_used _ _ _ _ _ _ _ _ _ We). by eapply (wi_used _ Hinv).
Qed.

Lemma we_txn_old id2 t2 : id2 ≠ id -> txns w' !! id2 = Some t2 <-> txns w !! id2 = Some t2.
Proof. intros Hne. rewrite (we_txns _ _ _ _ _ _ _ _ _ We), lookup_insert_ne by done. done. Qed.

Lemma we_disjoint id1 t1 id2 t2 p :
  txns w' !! id1 = Some t1 -> txns w' !! id2 = Some t2 -> p ∈ undo_buffer_ t1 -> p ∈ undo_buffer_ t2 -> id1 = id2.
Proof.
  assert (forall i s, txns w' !! i = Some s -> forall q, q ∈ undo_buffer_ s ->
    (q = undo /\ i = id) \/ (q ≠ undo /\ exists s0, txns w !! i = Some s0 /\ q ∈ undo_buffer_ s0)) as Hc.
  { intros i s Hi q Hq. destruct (we_run _ _ _ _ _ _ _ _ _ We) as [Hrun _]. destruct (decide (i = id)) as [->|Hne].
    - rewrite (we_txns _ _ _ _ _ _ _ _ _ We), lookup_insert_eq in Hi. injection Hi as <-.
      rewrite (we_buffer _ _ _ _ _ _ _ _ _ We), elem_of_app, list_elem_of_singleton in Hq.
      destruct Hq as [Hq| ->]; [|by left]. right. split; [apply (we_in_heap _ _ _ Hrun Hq)|eauto].
    - apply we_txn_old in Hi; [|done]. right. split; [apply (we_in_heap _ _ _ Hi Hq)|eauto]. }
  intros H1 H2 Hp1 Hp2. destruct (Hc _ _ H1 _ Hp1) as [[-> ->]|[Hne (s1 & Hs1 & Hq1)]];
    destruct (Hc _ _ H2 _ Hp2) as [[? ?]|[Hne2 (s2 & Hs2 & Hq2)]]; try congruence.
  by eapply (wi_disjoint _ Hinv).
Qed.

Lemma we_log_ok i : i ∈ log_queue w' -> i < time w' /\ forall s, txns w' !! i = Some s -> ~ active s.
Proof.
  rewrite (we_log _ _ _ _ _ _ _ _ _ We). unfold time. rewrite (we_tm _ _ _ _ _ _ _ _ _ We). intros Hi.
  destruct (wi_log _ Hinv i Hi) as [H1 H2]. split; [done|]. intros s Hs.
  destruct (we_run _ _ _ _ _ _ _ _ _ We) as [Hrun Hact]. destruct (decide (i = id)) as [->|Hne].
  - by destruct (H2 t Hrun).
  - apply we_txn_old in Hs; [|done]. by apply H2.
Qed.

Lemma we_queues :
  NoDup (completed_txns_ w' ++ txns_to_unlink_ w' ++ txns_to_deallocate_ w') /\
  forall i, i ∈ completed_txns_ w' ++ txns_to_unlink_ w' ++ txns_to_deallocate_ w' ->
    exists s, txns w' !! i = Some s /\ ~ active s.
Proof.
  rewrite (we_completed _ _ _ _ _ _ _ _ _ We), (we_unlink _ _ _ _ _ _ _ _ _ We), (we_dealloc _ _ _ _ _ _ _ _ _ We).
  destruct (wi_queues _ Hinv) as [Hn Hq]. split; [done|]. intros i Hi. destruct (Hq i Hi) as (s & Hs & Ha).
  exists s. split; [|done]. apply we_txn_old; [|done]. intros ->.
  destruct (we_run _ _ _ _ _ _ _ _ _ We) as [Hrun Hact]. by simplify_eq.
Qed.

(** The facts about the writing transaction that every write keeps. *)
Lemma we_txn_inv_new :
  (table_ u ≠ None -> exists l, slot_inv w' sl l /\ undo ∈ l) ->
  (forall sl2 l p, slot_inv w sl2 l -> p ∈ l -> exists l', slot_inv w' sl2 l' /\ p ∈ l') ->
  (table_ u = None -> must_abort_ t' = true) ->
  (forall p r, heap w !! p = Some r -> p ∈ undo_buffer_ t -> type_ r = DELETE -> table_ r ≠ None ->
     tuple_at (mem w') (slot_ r) = tuple_at (mem w) (slot_ r)) ->
  (type_ u = DELETE -> table_ u ≠ None -> present_ tp = false /\ version_ptr_ tp = Some undo) ->
  txn_inv w' id t'.
Proof.
  intros Hnew Hold Hfail Hdel Hdelu. destruct (we_run _ _ _ _ _ _ _ _ _ We) as [Hrun Hact].
  pose proof (wi_txn _ Hinv _ _ Hrun) as [T1 T2 T3 T4 T5 T6 T7 T8 T9].
  pose proof (we_ok _ _ _ _ _ _ _ _ _ We) as Hok. pose proof (we_buffer _ _ _ _ _ _ _ _ _ We) as Hbuf.
  assert (heap w' !! undo = Some u) as Hu by (rewrite (we_heap _ _ _ _ _ _ _ _ _ We); apply lookup_insert_eq).
  assert (forall p, p ∈ undo_buffer_ t' -> p = undo \/ p ∈ undo_buffer_ t) as Hin.
  { intros p. rewrite Hbuf, elem_of_app, list_elem_of_singleton. tauto. }
  assert (forall p, p ∈ undo_buffer_ t -> p ≠ undo) as Hne by (intros p Hp; by apply (we_in_heap _ _ _ Hrun Hp)).
  unfold time, active in *.
  constructor; unfold time, active; rewrite ?(we_start _ _ _ _ _ _ _ _ _ We), ?(we_finish _ _ _ _ _ _ _ _ _ We),
    ?(we_aborted _ _ _ _ _ _ _ _ _ We), ?(we_tm _ _ _ _ _ _ _ _ _ We); try done.
  - rewrite Hbuf. apply NoDup_app. split_and!; [done| |apply NoDup_singleton].
    intros p Hp ->%list_elem_of_singleton. by eapply Hne.
  - intros p [->|Hp]%Hin.
    + exists u. split_and!; [done|apply (we_ts _ _ _ _ _ _ _ _ _ We)|apply (we_table _ _ _ _ _ _ _ _ _ We)].
    + destruct (T5 p Hp) as (r & Hr & Hts & Htb). exists r. split_and!; [by eapply we_heap_old|done|].
      intros tb E. apply (we_tables _ _ _ _ _ _ _ _ _ We). by eapply Htb.
  - intros _ p r [->|Hp]%Hin Hr Htab.
    + rewrite Hu in Hr. injection Hr as <-. rewrite (we_slot _ _ _ _ _ _ _ _ _ We). auto.
    + apply we_heap_cases in Hr as [[-> _]|[_ Hr]]; [by destruct (Hne _ Hp)|].
      destruct (T6 Hact p r Hp Hr Htab) as (l & Hl & Hpl). by eapply Hold.
  - intros p r [->|Hp]%Hin Hr Htab.
    + rewrite Hu in Hr. injection Hr as <-. split; [auto|]. rewrite Hbuf. apply last_snoc.
    + apply we_heap_cases in Hr as [[-> _]|[_ Hr]]; [by destruct (Hne _ Hp)|].
      destruct (T7 p r Hp Hr Htab) as [Hm _]. congruence.
  - intros Hab p r [->|Hp]%Hin Hr Hty Htab.
    + rewrite Hu in Hr. injection Hr as <-. rewrite (we_slot _ _ _ _ _ _ _ _ _ We), (we_tuple _ _ _ _ _ _ _ _ _ We).
      rewrite decide_True by done. destruct (Hdelu Hty Htab). auto.
    + apply we_heap_cases in Hr as [[-> _]|[_ Hr]]; [by destruct (Hne _ Hp)|].
      rewrite (Hdel p r Hr Hp Hty Htab). by eapply T8.
  - intros s d Hl. split; [rewrite Hbuf; by destruct (undo_buffer_ t)|]. by eapply (we_redo _ _ _ _ _ _ _ _ _ We).
Qed.

(** ... and about every other one. *)
Lemma we_txn_inv_old id2 t2 :
  id2 ≠ id -> txns w !! id2 = Some t2 ->
  (forall sl2 l p, slot_inv w sl2 l -> p ∈ l -> exists l', slot_inv w' sl2 l' /\ p ∈ l') ->
  (forall p r, heap w !! p = Some r -> p ∈ undo_buffer_ t2 -> aborted_ t2 = false -> type_ r = DELETE -> table_ r ≠ None ->
     tuple_at (mem w') (slot_ r) = tuple_at (mem w) (slot_ r)) ->
  txn_inv w' id2 t2.
Proof.
  intros Hne Ht2 Hold Hdel. pose proof (wi_txn _ Hinv _ _ Ht2) as [T1 T2 T3 T4 T5 T6 T7 T8 T9].
  assert (forall p r, p ∈ undo_buffer_ t2 -> heap w' !! p = Some r -> heap w !! p = Some r) as Hback.
  { intros p r Hp Hr. apply we_heap_cases in Hr as [[-> _]|[_ Hr]]; [|done].
    by destruct (proj2 (we_in_heap _ _ _ Ht2 Hp)). }
  constructor; unfold time; rewrite ?(we_tm _ _ _ _ _ _ _ _ _ We); try done.
  - intros p Hp. destruct (T5 p Hp) as (r & Hr & Hts & Htb). exists r. split_and!; [by apply we_heap_old|done|].
    intros tb E. apply (we_tables _ _ _ _ _ _ _ _ _ We). by eapply Htb.
  - intros Hact p r Hp Hr Htab. destruct (T6 Hact p r Hp (Hback _ _ Hp Hr) Htab) as (l & Hl & Hpl). by eapply Hold.
  - intros p r Hp Hr. apply T7; auto.
  - intros Hab p r Hp Hr Hty Htab. specialize (Hback _ _ Hp Hr). rewrite (Hdel p r) by done. by eapply T8.
  - intros s d Hl. destruct (T9 s d Hl) as (Hb & tb & H1 & H2). split; [done|]. exists tb.
    split; [by apply (we_data_tables _ _ _ _ _ _ _ _ _ We)|by apply (we_tables _ _ _ _ _ _ _ _ _ We)].
Qed.

End effect.

(** ** A write that fails *)

Lemma table_ok_undos u m id s : table_ok m id s -> table_ok (set_undos u m) id s.
Proof. intros [B1 B2 B3 B4]. by constructor. Qed.

Lemma failed_winv w id t undo u sl t' w' :
  winv w -> write_effect w id t undo u sl (tuple_at (mem w) sl) t' w' ->
  table_ u = None -> must_abort_ t' = true -> mem w' = set_undos (heap w') (mem w) -> tables w' = tables w ->
  winv w'.
Proof.
  intros Hinv We Hn Hm Hmem Htb.
  assert (forall sl', tuple_at (mem w') sl' = tuple_at (mem w) sl') as Et by (intros; by rewrite Hmem).
  assert (forall sl2 l, slot_inv w sl2 l -> slot_inv w' sl2 l) as Hslot.
  { intros sl2 l Hs. destruct Hs as [Hc Hnd Hr Hso Ha]. pose proof (chain_lookup _ _ _ Hc) as Hl.
    assert (records (heap w') l = records (heap w) l) as Er.
    { rewrite (we_heap _ _ _ _ _ _ _ _ _ We). apply records_insert_fresh; [apply (we_fresh _ _ _ _ _ _ _ _ _ We)|done]. }
    constructor; rewrite ?Et, ?Er; [|done| |done|done].
    - rewrite (we_heap _ _ _ _ _ _ _ _ _ We). apply chain_insert_fresh; [apply (we_fresh _ _ _ _ _ _ _ _ _ We)|done].
    - intros p r Hp Hpr. apply (we_heap_cases _ _ _ _ _ _ _ _ _ We) in Hpr as [[-> ->]|[_ Hpr]].
      + rewrite Forall_forall in Hl. specialize (Hl _ Hp). rewrite (we_fresh _ _ _ _ _ _ _ _ _ We) in Hl. by destruct Hl.
      + destruct (Hr p r Hp Hpr) as (? & ? & ? & ? & ?). split_and!; try done. by eapply we_owned. }
  constructor.
  - rewrite (we_tm _ _ _ _ _ _ _ _ _ We). apply Hinv.
  - intros i s Hi. destruct (decide (i = id)) as [->|Hne].
    + rewrite (we_txns _ _ _ _ _ _ _ _ _ We), lookup_insert_eq in Hi. injection Hi as <-.
      eapply we_txn_inv_new; eauto; intros; try congruence.
    + apply (we_txn_old _ _ _ _ _ _ _ _ _ We) in Hi; [|done].
      eapply (we_txn_inv_old _ _ _ _ _ _ _ _ _ Hinv We); [done|done|eauto|intros; apply Et].
  - exact (we_disjoint _ _ _ _ _ _ _ _ _ Hinv We).
  - intros sl2. destruct (wi_slot _ Hinv sl2) as [l Hl]. eauto.
  - intros i s Hi. rewrite Htb in Hi. rewrite Hmem. by apply table_ok_undos, (wi_table _ Hinv).
  - rewrite Hmem. exact (wi_store _ Hinv).
  - exact (we_used_all _ _ _ _ _ _ _ _ _ Hinv We).
  - exact (we_log_ok _ _ _ _ _ _ _ _ _ Hinv We).
  - exact (we_queues _ _ _ _ _ _ _ _ _ Hinv We).
Qed.

(** ** A write that is installed *)

(** No committed or running transaction deleted the tuple. *)
Definition not_deleted (w : world) (sl : TupleSlot) : Prop :=
  forall id t p r, txns w !! id = Some t -> aborted_ t = false -> p ∈ undo_buffer_ t -> heap w !! p = Some r ->
    type_ r = DELETE -> table_ r ≠ None -> slot_ r ≠ sl.

Section installed.
Context (w : world) (id : Z) (t : TransactionContext) (undo : Z) (u : UndoRecord) (sl : TupleSlot).
Context (tp : tuple) (t' : TransactionContext) (w' : world) (l : list Z).
Hypothesis Hinv : winv w.
Hypothesis We : write_effect w id t undo u sl tp t' w'.
Hypothesis Hsl : slot_inv w sl l.
Hypothesis Hnext : next_ u = version_ptr_ (tuple_at (mem w) sl).
Hypothesis Hptr : version_ptr_ tp = Some undo.
Hypothesis Htab : table_ u ≠ None.
Hypothesis Hsort : delta_sorted u.
Hypothesis Hins : type_ u = INSERT -> next_ u = None.
Hypothesis Halloc : allocated_ tp = true.
Hypothesis Hhead : forall r, head (records (heap w) l) = Some r -> timestamp_ r = finish_time_ t \/ timestamp_ r < 2 ^ 63.
Hypothesis Hnd : not_deleted w sl.
Hypothesis Hdel : type_ u = DELETE -> present_ tp = false.

Lemma installed_owned : owned w' undo.
Proof.
  exists id, t'. rewrite (we_txns _ _ _ _ _ _ _ _ _ We), (we_dealloc _ _ _ _ _ _ _ _ _ We), lookup_insert_eq.
  rewrite (we_buffer _ _ _ _ _ _ _ _ _ We). split_and!; [done|apply elem_of_app; right; by left|].
  intros Hd. destruct (wi_queues _ Hinv) as [_ Hq]. destruct (Hq id) as (s & Hs & Ha).
  { rewrite !elem_of_app. auto. }
  destruct (we_run _ _ _ _ _ _ _ _ _ We) as [Hrun Hact]. by simplify_eq.
Qed.

Lemma installed_slot : slot_inv w' sl (undo :: l).
Proof.
  destruct Hsl as [Hc Hn Hr Hs Ha]. pose proof (chain_lookup _ _ _ Hc) as Hl.
  pose proof (we_fresh _ _ _ _ _ _ _ _ _ We) as Hf.
  destruct (we_run _ _ _ _ _ _ _ _ _ We) as [Hrun Hact]. unfold active in Hact.
  assert (heap w' !! undo = Some u) as Hu by (rewrite (we_heap _ _ _ _ _ _ _ _ _ We); apply lookup_insert_eq).
  assert (records (heap w') (undo :: l) = u :: records (heap w) l) as Er.
  { rewrite (records_cons _ _ _ _ Hu). f_equal. rewrite (we_heap _ _ _ _ _ _ _ _ _ We). by apply records_insert_fresh. }
  assert (tuple_at (mem w') sl = tp) as Et by (rewrite (we_tuple _ _ _ _ _ _ _ _ _ We); by rewrite decide_True).
  assert (undo ∉ l) as Hnl.
  { intros Hin. rewrite Forall_forall in Hl. specialize (Hl _ Hin). rewrite Hf in Hl. by destruct Hl. }
  constructor; rewrite ?Et, ?Er.
  - cbn. split; [done|]. exists u. split; [done|]. rewrite Hnext, (we_heap _ _ _ _ _ _ _ _ _ We).
    by apply chain_insert_fresh.
  - by constructor.
  - intros p r Hp Hpr. apply (we_heap_cases _ _ _ _ _ _ _ _ _ We) in Hpr as [[-> ->]|[Hne Hpr]].
    + split_and!; [apply (we_slot _ _ _ _ _ _ _ _ _ We)|done..|apply installed_owned].
    + apply elem_of_cons in Hp as [->|Hp]; [done|]. destruct (Hr p r Hp Hpr) as (? & ? & ? & ? & ?).
      split_and!; try done. by eapply we_owned.
  - constructor; [done|]. unfold newer_or_own. rewrite (we_ts _ _ _ _ _ _ _ _ _ We).
    destruct (records (heap w) l) as [|r rs]; [constructor|]. specialize (Hhead r eq_refl).
    pose proof (sorted_head_all _ _ Hs) as HF. constructor; [lia|].
    eapply Forall_impl; [exact HF|]. intros r' [H1 H2]. lia.
  - done.
Qed.

Lemma installed_keeps sl2 l2 p : slot_inv w sl2 l2 -> p ∈ l2 -> exists l', slot_inv w' sl2 l' /\ p ∈ l'.
Proof.
  intros H2 Hp. destruct (decide (sl2 = sl)) as [->|Hne].
  - exists (undo :: l). split; [apply installed_slot|]. rewrite (slot_chain _ _ _ _ H2 Hsl) in Hp. by right.
  - exists l2. split; [by eapply we_slot_frame|done].
Qed.

Lemma installed_winv :
  (forall i s, tables w' !! i = Some s -> table_ok (mem w') i s) -> store_ok (mem w') -> winv w'.
Proof.
  intros Htables Hstore. constructor; [|..| |done|done|exact (we_used_all _ _ _ _ _ _ _ _ _ Hinv We)|exact (we_log_ok _ _ _ _ _ _ _ _ _ Hinv We)|].
  - rewrite (we_tm _ _ _ _ _ _ _ _ _ We). apply Hinv.
  - intros i s Hi. assert (forall p r s2 i2, txns w !! i2 = Some s2 -> heap w !! p = Some r -> p ∈ undo_buffer_ s2 ->
      aborted_ s2 = false -> type_ r = DELETE -> table_ r ≠ None ->
      tuple_at (mem w') (slot_ r) = tuple_at (mem w) (slot_ r)) as Hd.
    { intros p r s2 i2 Hi2 Hr Hp Hab Hty Htb. rewrite (we_tuple _ _ _ _ _ _ _ _ _ We), decide_False; [done|]. by eapply Hnd. }
    destruct (we_run _ _ _ _ _ _ _ _ _ We) as [Hrun Hact]. destruct (decide (i = id)) as [->|Hne].
    + rewrite (we_txns _ _ _ _ _ _ _ _ _ We), lookup_insert_eq in Hi. injection Hi as <-.
      eapply (we_txn_inv_new _ _ _ _ _ _ _ _ _ Hinv We); [|apply installed_keeps|done| |auto].
      * intros _. exists (undo :: l). split; [apply installed_slot|by left].
      * intros p r Hr Hp Hty Htb. eapply Hd; eauto. by apply (ti_active _ _ _ (wi_txn _ Hinv _ _ Hrun)).
    + apply (we_txn_old _ _ _ _ _ _ _ _ _ We) in Hi; [|done].
      eapply (we_txn_inv_old _ _ _ _ _ _ _ _ _ Hinv We); [done|done|apply installed_keeps|eauto].
  - exact (we_disjoint _ _ _ _ _ _ _ _ _ Hinv We).
  - intros sl2. destruct (decide (sl2 = sl)) as [->|Hne]; [eexists; apply installed_slot|].
    destruct (wi_slot _ Hinv sl2) as [l2 Hl2]. exists l2. by eapply we_slot_frame.
  - exact (we_queues _ _ _ _ _ _ _ _ _ Hinv We).
Qed.

End installed.

(** ** Timestamps of records and conflicts *)

Lemma txn_finish_range w id t :
  winv w -> txns w !! id = Some t -> 0 <= finish_time_ t < 2 ^ 64 /\ (~ active t -> finish_time_ t < time w) /\
  time w < 2 ^ 63.
Proof.
  intros Hinv Ht. pose proof (wi_txn _ Hinv _ _ Ht) as T. pose proof (wi_ts _ Hinv) as (Hts & _).
  destruct (ti_start _ _ _ T) as [_ H0]. unfold time in *. split; [|split; [intros Ha; by apply T|lia]].
  destruct (decide (active t)) as [Ha|Ha].
  - destruct (ti_active _ _ _ T Ha) as [-> _]. lia.
  - destruct (ti_finished _ _ _ T Ha) as [H1 _]. unfold time in *. lia.
Qed.

(** The timestamp of a record in a chain is the finish time of its transaction. *)
Lemma chain_record_txn w sl l p r :
  winv w -> slot_inv w sl l -> p ∈ l -> heap w !! p = Some r ->
  exists id t, txns w !! id = Some t /\ p ∈ undo_buffer_ t /\ timestamp_ r = finish_time_ t /\
    id ∉ txns_to_deallocate_ w.
Proof.
  intros Hinv Hs Hp Hr. destruct (si_rec _ _ _ Hs p r Hp Hr) as (_ & _ & _ & _ & id & t & Ht & Hpt & Hd).
  exists id, t. split_and!; try done.
  destruct (ti_undo _ _ _ (wi_txn _ Hinv _ _ Ht) p Hpt) as (r' & Hr' & Hts & _). by simplify_eq.
Qed.

Lemma head_in_chain u ptr l r :
  is_chain u ptr l -> head (records u l) = Some r -> exists p l', l = p :: l' /\ ptr = Some p /\ u !! p = Some r.
Proof.
  destruct l as [|p l]; [done|]. cbn. intros (-> & r' & Hr' & _). rewrite Hr'. intros [= <-]. eauto 6.
Qed.

(** [HasConflict] reads live memory, and is false exactly when the newest record is
    the transaction's own or was committed before it started. *)
Lemma HasConflict_spec w id t sl l m t' :
  winv w -> running w id t -> slot_inv w sl l ->
  (forall p r, heap w !! p = Some r -> undos m !! p = Some r) ->
  start_time_ t' = start_time_ t -> finish_time_ t' = finish_time_ t ->
  exists b, HasConflict m t' (version_ptr_ (tuple_at (mem w) sl)) = Some b /\
    (b = false <-> forall r, head (records (heap w) l) = Some r ->
       timestamp_ r = finish_time_ t \/ (timestamp_ r < 2 ^ 63 /\ timestamp_ r <= start_time_ t)).
Proof.
  intros Hinv [Hrun Hact] Hs Hm Est Efi. pose proof (si_chain _ _ _ Hs) as Hc. unfold HasConflict.
  destruct l as [|p l]; [cbn in Hc; rewrite Hc; by exists false|].
  cbn in Hc. destruct Hc as (Hp & r & Hr & Hc). rewrite Hp, (Hm p r Hr). cbn [mbind option_bind].
  eexists. split; [done|]. rewrite (records_cons _ _ _ _ Hr), Est, Efi. cbn [head].
  destruct (chain_record_txn w sl (p :: l) p r Hinv Hs ltac:(by left) Hr) as (i & s & Hi & _ & Ets & _).
  destruct (txn_finish_range w i s Hinv Hi) as (Hrange & _). rewrite <-Ets in Hrange. rewrite Committed_lt by done.
  unfold active in Hact. unfold NewerThan. split.
  - intros Hb r' [= <-]. apply orb_false_iff in Hb as [H1 H2].
    destruct (decide (timestamp_ r < 2 ^ 63)) as [Hlt|Hge].
    + rewrite (bool_decide_eq_true_2 _ Hlt) in H2. cbn in H2. apply bool_decide_eq_false in H2. right. lia.
    + rewrite (bool_decide_eq_false_2 _ Hge) in H1. cbn in H1. apply negb_false_iff, bool_decide_eq_true in H1. by left.
  - intros H. destruct (H r eq_refl) as [E|[H1 H2]]; apply orb_false_iff; split.
    + rewrite (bool_decide_eq_true_2 (timestamp_ r = _) E). by rewrite andb_false_r.
    + rewrite bool_decide_eq_false_2 by lia. done.
    + by rewrite bool_decide_eq_true_2.
    + rewrite (bool_decide_eq_false_2 (start_time_ t < timestamp_ r)) by lia. by rewrite andb_false_r.
Qed.

Lemma present_not_deleted w sl : winv w -> present_ (tuple_at (mem w) sl) = true -> not_deleted w sl.
Proof.
  intros Hinv Hp id t p r Ht Hab Hpt Hr Hty Htab <-.
  destruct (ti_delete _ _ _ (wi_txn _ Hinv _ _ Ht) Hab p r Hpt Hr Hty Htab) as [Hf _]. congruence.
Qed.

(** A write to a tuple that exists does not touch the free slots. *)
Lemma overwrite_tables m sl tp u id s :
  is_Some (tuples m !! sl) -> table_ok m id s -> table_ok (set_undos u (set_tuple sl tp m)) id s.
Proof.
  intros Hused [B1 B2 B3 B4]. constructor; [done|done| |done]. intros b Hb.
  destruct (B3 b Hb) as (H1 & H2 & H3 & h & H4 & H5 & H6). split; [done|]. split; [done|]. split; [done|].
  exists h. split; [done|]. split; [done|]. intros off Hoff. cbn. rewrite lookup_insert_ne; [auto|].
  intros ->. rewrite (H6 off Hoff) in Hused. by destruct Hused.
Qed.

Lemma overwrite_store m sl tp u : is_Some (tuples m !! sl) -> store_ok m -> store_ok (set_undos u (set_tuple sl tp m)).
Proof.
  intros Hused [S1 S2]. split; [done|]. intros b Hb. destruct (S2 b Hb) as (H1 & H2 & H3).
  split; [done|]. split; [done|]. intros sl2 Hsl2. cbn. rewrite lookup_insert_ne; [auto|].
  intros ->. rewrite (H3 _ Hsl2) in Hused. by destruct Hused.
Qed.

(** ** Update and Delete *)

Section write_ops.
Context (gc log : bool) (w : world) (id table : Z) (slot : TupleSlot) (undo : Z) (t : TransactionContext).
Hypothesis Hinv : winv w.
Hypothesis Hrun : running w id t.
Hypothesis Hok : must_abort_ t = false.
Hypothesis Hfresh : undos (mem w) !! undo = None.
Hypothesis Htab : is_Some (tables w !! table).
Hypothesis Hdt : data_tables (mem w) !! TupleSlot.GetBlock slot = Some table.

#[local] Abbreviation cur := (tuple_at (mem w) slot).

Lemma fresh_lookup r0 p r : heap w !! p = Some r -> <[undo := r0]> (heap w) !! p = Some r.
Proof. intros Hp. rewrite lookup_insert_ne; [done|]. intros <-. unfold heap in Hp. congruence. Qed.

Lemma visible_used : Visible (mem w) slot = true -> is_Some (tuples (mem w) !! slot).
Proof. unfold Visible, tuple_at. destruct (tuples (mem w) !! slot); [by eauto|done]. Qed.

(** The record and the tuple an update installs. *)
Definition update_record (redo : row) : UndoRecord :=
  Undo UPDATE (version_ptr_ cur) (finish_time_ t) (Some table) slot (project (redo.*1) (attrs_ cur)).
Definition update_tuple (redo : row) : tuple :=
  Tuple (allocated_ cur) (present_ cur) (Some undo) (write_row redo (attrs_ cur)).
Definition delete_record : UndoRecord :=
  Undo DELETE (version_ptr_ cur) (finish_time_ t) (Some table) slot [].
Definition delete_tuple : tuple := Tuple (allocated_ cur) false (Some undo) (attrs_ cur).

(** The outcome of a write: refused without a change, or installed. *)
Definition write_outcome (u : UndoRecord) (tp : tuple) (w' : world) : Prop :=
  exists l, slot_inv w slot l /\
  let free := (forall r, head (records (heap w) l) = Some r ->
                 timestamp_ r = finish_time_ t \/ (timestamp_ r < 2 ^ 63 /\ timestamp_ r <= start_time_ t)) in
  (free /\ Visible (mem w) slot = true /\
   exists t', write_effect w id t undo u slot tp t' w' /\ must_abort_ t' = false /\
     mem w' = set_undos (heap w') (set_tuple slot tp (mem w)) /\ tables w' = tables w) \/
  (~ (free /\ Visible (mem w) slot = true) /\
   exists u' t', write_effect w id t undo u' slot cur t' w' /\ table_ u' = None /\ must_abort_ t' = true /\
     mem w' = set_undos (heap w') (mem w) /\ tables w' = tables w).

Lemma write_outcome_winv u tp w' :
  write_outcome u tp w' -> next_ u = version_ptr_ cur -> version_ptr_ tp = Some undo ->
  table_ u ≠ None -> delta_sorted u -> type_ u ≠ INSERT -> allocated_ tp = allocated_ cur ->
  (type_ u = DELETE -> present_ tp = false) -> winv w'.
Proof.
  intros (l & Hl & [(Hfree & Hvis & t' & We & _ & Hmem & Htb)|(_ & u' & t' & We & Hn & Hm & Hmem & Htb)]) Hnext Hptr Ht Hs Hty Ha Hd.
  - apply andb_prop in Hvis as Hvis'. destruct Hvis' as [Hal Hpr].
    apply visible_used in Hvis as Hused.
    eapply (installed_winv w id t undo u slot tp t' w' l); try done; [congruence| |by apply present_not_deleted|..].
    + intros r Hr. destruct (Hfree r Hr) as [|[? _]]; auto.
    + intros i s Hi. rewrite Htb in Hi. rewrite Hmem. apply overwrite_tables; [done|]. by apply (wi_table _ Hinv).
    + rewrite Hmem. apply overwrite_store; [done|]. apply Hinv.
  - by eapply failed_winv.
Qed.

Lemma exec_update redo :
  exists w', exec gc log (OUpdate id table slot redo undo) w = Some w' /\
    write_outcome (update_record redo) (update_tuple redo) w'.
Proof.
  pose proof Hrun as [Ht Hact]. destruct (wi_slot _ Hinv slot) as [l Hl].
  pose proof (proj1 (ti_start _ _ _ (wi_txn _ Hinv _ _ Ht))) as Hst.
  cbn [exec]. rewrite Ht. cbn [mbind option_bind]. unfold SqlTable_Update, Update, UndoRecordForUpdate, new_undo.
  set (t1 := push_undo undo (StageWrite slot redo t)). set (m1 := set_undos _ (mem w)).
  destruct (HasConflict_spec w id t slot l m1 t1 Hinv Hrun Hl) as (b & Hb & Hfree);
    [intros p r; apply fresh_lookup|done|done|].
  change (AtomicallyReadVersionPtr m1 slot) with (version_ptr_ cur). rewrite Hb. cbn [mbind option_bind].
  change (Visible m1 slot) with (Visible (mem w) slot).
  destruct (b || negb (Visible (mem w) slot)) eqn:Ebv.
  - eexists. split; [reflexivity|]. exists l. split; [done|]. right. split.
    { intros [Hf Hv]. apply Hfree in Hf. by rewrite Hf, Hv in Ebv. }
    exists (set_table None (InitializeUpdate (finish_time_ t) slot table redo)), (SetMustAbort t1).
    split; [|done].
    constructor; try done; cbn.
    + unfold heap, alter_undo. cbn. by rewrite alter_insert_eq.
    + intros sl'. by case_decide; subst.
    + by rewrite Hst.
    + intros s d [= <- <-]. eauto.
  - apply orb_false_iff in Ebv as [-> Hv]. apply negb_false_iff in Hv.
    unfold CompareAndSwapVersionPtr. rewrite decide_True by done. cbn [mbind option_bind].
    eexists. split; [reflexivity|]. exists l. split; [done|]. left. split; [by apply Hfree|]. split; [done|].
    exists t1. split; [|split; [done|split; [|done]]].
    + constructor; try done; cbn.
      * unfold heap. cbn. by rewrite alter_insert_eq.
      * intros sl'. unfold tuple_at. cbn. rewrite insert_insert_eq. case_decide as E; subst.
        -- rewrite !lookup_insert_eq. done.
        -- by rewrite lookup_insert_ne.
      * by rewrite Hst.
      * intros sl' Hs. rewrite insert_insert_eq. destruct (decide (slot = sl')) as [->|];
          [by rewrite lookup_insert_eq|by rewrite lookup_insert_ne].
      * intros _. by rewrite lookup_insert_eq.
      * intros tb [= <-]. done.
      * intros s d [= <- <-]. eauto.
    + unfold set_tuple, set_undos, heap. cbn. rewrite insert_insert_eq. unfold tuple_at. cbn.
      by rewrite !lookup_insert_eq.
Qed.

Lemma exec_delete :
  exists w', exec gc log (ODelete id table slot undo) w = Some w' /\ write_outcome delete_record delete_tuple w'.
Proof.
  pose proof Hrun as [Ht Hact]. destruct (wi_slot _ Hinv slot) as [l Hl].
  pose proof (proj1 (ti_start _ _ _ (wi_txn _ Hinv _ _ Ht))) as Hst.
  cbn [exec]. rewrite Ht. cbn [mbind option_bind]. unfold SqlTable_Delete, Delete, UndoRecordForDelete, new_undo.
  set (t1 := push_undo undo (StageDelete slot t)). set (m1 := set_undos _ (mem w)).
  destruct (HasConflict_spec w id t slot l m1 t1 Hinv Hrun Hl) as (b & Hb & Hfree);
    [intros p r; apply fresh_lookup|done|done|].
  change (AtomicallyReadVersionPtr m1 slot) with (version_ptr_ cur). rewrite Hb. cbn [mbind option_bind].
  change (Visible m1 slot) with (Visible (mem w) slot).
  destruct (b || negb (Visible (mem w) slot)) eqn:Ebv.
  - eexists. split; [reflexivity|]. exists l. split; [done|]. right. split.
    { intros [Hf Hv]. apply Hfree in Hf. by rewrite Hf, Hv in Ebv. }
    exists (set_table None (InitializeDelete (finish_time_ t) slot table)), (SetMustAbort t1). split; [|done].
    constructor; try done; cbn.
    + unfold heap, alter_undo. cbn. by rewrite alter_insert_eq.
    + intros sl'. by case_decide; subst.
    + by rewrite Hst.
  - apply orb_false_iff in Ebv as [-> Hv]. apply negb_false_iff in Hv.
    unfold CompareAndSwapVersionPtr. rewrite decide_True by done. cbn [mbind option_bind].
    eexists. split; [reflexivity|]. exists l. split; [done|]. left. split; [by apply Hfree|]. split; [done|].
    exists t1. split; [|split; [done|split; [|done]]].
    + constructor; try done; cbn.
      * unfold heap. cbn. by rewrite alter_insert_eq.
      * intros sl'. unfold tuple_at. cbn. rewrite insert_insert_eq. case_decide as E; subst.
        -- rewrite !lookup_insert_eq. done.
        -- by rewrite lookup_insert_ne.
      * by rewrite Hst.
      * intros sl' Hs. rewrite insert_insert_eq. destruct (decide (slot = sl')) as [->|];
          [by rewrite lookup_insert_eq|by rewrite lookup_insert_ne].
      * intros _. by rewrite lookup_insert_eq.
      * intros tb [= <-]. done.
    + unfold set_tuple, set_undos, heap. cbn. rewrite insert_insert_eq. unfold tuple_at. cbn.
      by rewrite !lookup_insert_eq.
Qed.

End write_ops.

Lemma update_winv gc log w id table slot redo undo w' :
  winv w -> op_ok (OUpdate id table slot redo undo) w -> exec gc log (OUpdate id table slot redo undo) w = Some w' ->
  winv w'.
Proof.
  intros Hinv [_ (t & Hrun & Hok & Hf & Htab & Hdt & Hs & _)] He.
  destruct (exec_update gc log w id table slot undo t Hinv Hrun Hok Hf Htab Hdt redo) as (w2 & He2 & Hout).
  rewrite He2 in He. injection He as <-.
  eapply write_outcome_winv; [exact Hinv|exact Hout|..]; try done. unfold delta_sorted. cbn. by rewrite project_cols.
Qed.

Lemma delete_winv gc log w id table slot undo w' :
  winv w -> op_ok (ODelete id table slot undo) w -> exec gc log (ODelete id table slot undo) w = Some w' -> winv w'.
Proof.
  intros Hinv [_ (t & Hrun & Hok & Hf & Htab & Hdt)] He.
  destruct (exec_delete gc log w id table slot undo t Hinv Hrun Hok Hf Htab Hdt) as (w2 & He2 & Hout).
  rewrite He2 in He. injection He as <-.
  eapply write_outcome_winv; [exact Hinv|exact Hout|..]; try done. constructor.
Qed.

(** ** Insert *)

Section insert.
Context (gc log : bool) (w : world) (id table : Z) (undo : Z) (t : TransactionContext) (redo : row).
Hypothesis Hinv : winv w.
Hypothesis Hrun : running w id t.
Hypothesis Hok : must_abort_ t = false.
Hypothesis Hfresh : undos (mem w) !! undo = None.
Hypothesis Htab : takes_row w table redo.
Hypothesis Hstore : block_store (mem w) ≠ [].

Definition insert_record (sl : TupleSlot) : UndoRecord := InitializeInsert (finish_time_ t) sl table.
Definition insert_tuple : tuple := Tuple true true (Some undo) (write_row redo ∅).

(** Blocks of other tables are not affected. *)
Lemma insert_other_table tb' m0 b h i s :
  table_ok m0 table tb' -> grown table (mem w) m0 -> b ∈ blocks_ tb' -> 0 <= h < 2 ^ 20 ->
  tables w !! i = Some s -> i ≠ table -> table_ok (with_slot b h m0) i s.
Proof.
  intros Ht' Hg Hb Hh Hi Hne. destruct (grown_facts _ _ _ Hg) as (G1 & _ & G3 & G4 & G5 & _).
  destruct (to_blocks _ _ _ Ht' b Hb) as (Ha & Hd & _). pose proof (wi_table _ Hinv _ _ Hi) as [B1 B2 B3 B4].
  constructor; [done|done| |done]. intros b' Hb'. destruct (B3 b' Hb') as (H1 & H2 & H3 & h' & H4 & H5 & H6).
  assert (b ≠ b') as Hbb by (intros ->; rewrite (G3 b' i H2) in Hd; congruence).
  split; [done|]. split; [by apply G3|]. split; [intros Hin; by apply H3, G5|]. exists h'. cbn.
  rewrite lookup_insert_ne, G4 by (rewrite ?H2; done). split; [done|]. split; [done|]. intros off Hoff.
  rewrite lookup_insert_ne, G1; [auto|]. intros E. apply Hbb.
  destruct (make_parts b h Ha Hh) as [E1 _]. destruct (make_parts b' off H1) as [E2 _]; [lia|]. congruence.
Qed.

Lemma insert_runs :
  exists w' sl t', SqlTable_Insert table t redo undo w = Some (sl, w') /\
    tuples (mem w) !! sl = None /\ write_effect w id t undo (insert_record sl) sl insert_tuple t' w' /\
    must_abort_ t' = false /\ winv w' /\ data_tables (mem w') !! TupleSlot.GetBlock sl = Some table /\
    (forall tb, layout_of w' tb = layout_of w tb) /\ (length (block_store (mem w)) <= S (length (block_store (mem w'))))%nat.
Proof.
  pose proof Hrun as [Ht Hact]. pose proof (proj1 (ti_start _ _ _ (wi_txn _ Hinv _ _ Ht))) as Hst.
  destruct Htab as (tb & Htb & _ & Hcount). pose proof (wi_table _ Hinv _ _ Htb) as Hto. pose proof (to_head _ _ _ Hto) as Hhd.
  destruct (find_slot_spec table (length (blocks_ tb) + 2) (insertion_head_ tb) tb (mem w) Hto (wi_store _ Hinv) Hstore
    ltac:(lia) ltac:(lia)) as (b & h & tb' & m0 & m2 & Hf & Hc & Hg & Ht' & Hs' & El & Hb & Hh & Hr & Hlen).
  destruct (grown_facts _ _ _ Hg) as (G1 & G2 & G3 & _).
  destruct (with_slot_ok m0 table tb' b h Ht' Hs' Hb Hh) as [W1 W2]; [by rewrite El|].
  destruct (to_blocks _ _ _ Ht' b Hb) as (Ha & Hd & _ & h' & Hh' & _ & Hfree).
  rewrite Hh in Hh'. injection Hh' as <-. pose proof (to_slots _ _ _ Ht') as Hns. rewrite <-El in Hr. set (sl := TupleSlot.make b h) in *.
  assert (tuples (mem w) !! sl = None) as Hnone by (rewrite <-G1; apply Hfree; lia).
  set (t' := StageWrite sl redo (push_undo undo t)).
  set (m' := set_undos (<[undo := insert_record sl]> (undos (mem w))) (set_tuple sl insert_tuple (with_slot b h m0))).
  set (w' := put_txn t' (set_tables (<[table := tb']> (tables w)) (set_mem m' w))).
  exists w', sl, t'.
  assert (SqlTable_Insert table t redo undo w = Some (sl, w')) as He.
  { unfold SqlTable_Insert, Insert. rewrite Htb. cbn [mbind option_bind]. rewrite decide_False by (intros Hn; by apply Hn).
    rewrite Hf. cbn [mbind option_bind]. rewrite Hc. fold sl.
    unfold InsertInto, UndoRecordForInsert, new_undo, AtomicallyWriteVersionPtr. cbn [fmap option_fmap option_map snd mbind option_bind].
    do 2 f_equal. unfold w', m', set_tuple, with_slot, set_undos, tuple_at, set_mem, set_tables, set_insert_head. cbn.
    rewrite !lookup_insert_eq. cbn. rewrite !insert_insert_eq. rewrite G2. unfold insert_record, insert_tuple. done. }
  assert (write_effect w id t undo (insert_record sl) sl insert_tuple t' w') as We.
  { constructor; try done; cbn.
    - intros sl'. unfold tuple_at. cbn. rewrite insert_insert_eq, G1. case_decide as E; subst.
      + by rewrite lookup_insert_eq.
      + by rewrite lookup_insert_ne.
    - by rewrite Hst.
    - intros x [y Hx]. destruct (decide (x = table)) as [->|]; [by rewrite lookup_insert_eq|by rewrite lookup_insert_ne, Hx].
    - intros sl' Hs. rewrite insert_insert_eq, G1.
      destruct (decide (sl = sl')) as [<-|]; [by rewrite lookup_insert_eq|by rewrite lookup_insert_ne].
    - intros _. by rewrite lookup_insert_eq.
    - intros x [= <-]. by rewrite lookup_insert_eq.
    - intros s d [= <- <-]. exists table. destruct (make_parts b h Ha ltac:(lia)) as [Eb _].
      fold sl in Eb. rewrite Eb.
      split; [done|by rewrite lookup_insert_eq]. }
  split; [done|]. split; [done|]. split; [done|]. split; [done|]. assert (winv w') as Hw'; [|split; [done|]; split_and!].
  2: { destruct (make_parts b h Ha ltac:(lia)) as [Eb _]. fold sl in Eb. cbn. by rewrite Eb. }
  2: { intros x. unfold layout_of, w'. cbn. destruct (decide (x = table)) as [->|]; [|by rewrite lookup_insert_ne]. rewrite lookup_insert_eq, Htb. cbn. by rewrite El. }
  2: { unfold w', m'. cbn. lia. }
  destruct (wi_slot _ Hinv sl) as [l Hl].
  assert (tuple_at (mem w) sl = pristine) as Etp by (unfold tuple_at; by rewrite Hnone).
  assert (l = []) as ->.
  { eapply chain_det; [exact (si_chain _ _ _ Hl)|]. by rewrite Etp. }
  eapply (installed_winv w id t undo (insert_record sl) sl insert_tuple t' w' []); try done.
  - by rewrite Etp.
  - constructor.
  - intros i s p r Hi Hab Hp Hrr Hty Htt Hsl. pose proof (wi_used _ Hinv p r Hrr Htt) as Hu. rewrite Hsl, Hnone in Hu. by destruct Hu.
  - intros i s Hi. unfold w', m' in Hi |- *. cbn in Hi |- *. apply overwrite_tables; [cbn; by rewrite lookup_insert_eq|].
    destruct (decide (i = table)) as [->|Hne].
    + rewrite lookup_insert_eq in Hi. by injection Hi as <-.
    + rewrite lookup_insert_ne in Hi by done. by eapply insert_other_table; try done; lia.
  - unfold w', m'. cbn. apply overwrite_store; [cbn; by rewrite lookup_insert_eq|done].
Qed.

Lemma exec_insert :
  exists w' sl t', exec gc log (OInsert id table redo undo) w = Some w' /\
    tuples (mem w) !! sl = None /\ write_effect w id t undo (insert_record sl) sl insert_tuple t' w' /\
    must_abort_ t' = false /\ winv w'.
Proof.
  destruct insert_runs as (w' & sl & t' & He & H1 & H2 & H3 & H4 & _). exists w', sl, t'. split; [|done].
  cbn [exec]. rewrite (proj1 Hrun). cbn [mbind option_bind]. by rewrite He.
Qed.

End insert.

Lemma insert_winv gc log w id table redo undo w' :
  winv w -> op_ok (OInsert id table redo undo) w -> exec gc log (OInsert id table redo undo) w = Some w' -> winv w'.
Proof.
  intros Hinv [_ (t & Hrun & Hok & Hf & Htab & Hst & _)] He.
  destruct (exec_insert gc log w id table undo t redo Hinv Hrun Hok Hf Htab Hst) as (w2 & sl & t' & He2 & _ & _ & _ & H).
  rewrite He2 in He. by injection He as <-.
Qed.
