(* ===== verification/MvccFinish.v ===== *)
(** * Beginning and finishing transactions keep the invariant

    [BeginTransaction], [Commit], [Abort], the log serializer and table creation. *)

From S2P Require Import Prelude Layout Timestamps DataTable Versions TxnManager Mvcc MvccWrite.
Import TransactionUtil.

(** ** Storing timestamps *)

Lemma store_timestamps_chain c ps u ptr l : is_chain u ptr l -> is_chain (store_timestamps c ps u) ptr l.
Proof.
  intros Hc. eapply chain_frame; [done|]. intros p r _ Hr. rewrite store_timestamps_lookup, Hr.
  case_decide; eexists; (split; [done|done]).
Qed.

(** What a record looks like afterwards. *)
Definition restamp (c : Z) (ps : list Z) (p : Z) (r : UndoRecord) : UndoRecord :=
  if decide (p ∈ ps) then set_timestamp c r else r.

Lemma restamp_lookup c ps u p r' :
  store_timestamps c ps u !! p = Some r' <-> exists r, u !! p = Some r /\ r' = restamp c ps p r.
Proof.
  rewrite store_timestamps_lookup. unfold restamp. case_decide.
  - rewrite fmap_Some. naive_solver.
  - naive_solver.
Qed.

Lemma restamp_fields c ps p r :
  type_ (restamp c ps p r) = type_ r /\ next_ (restamp c ps p r) = next_ r /\ table_ (restamp c ps p r) = table_ r /\
  slot_ (restamp c ps p r) = slot_ r /\ delta_ (restamp c ps p r) = delta_ r /\
  timestamp_ (restamp c ps p r) = if decide (p ∈ ps) then c else timestamp_ r.
Proof. unfold restamp. by case_decide. Qed.

(** The records of a chain, restamped one by one. *)
Lemma records_restamp c ps u ptr l :
  is_chain u ptr l ->
  Forall2 (fun r r' => exists p, p ∈ l /\ u !! p = Some r /\ r' = restamp c ps p r)
    (records u l) (records (store_timestamps c ps u) l).
Proof.
  intros Hc. apply chain_lookup in Hc. induction l as [|p l IH]; [constructor|].
  inversion_clear Hc as [|?? [r Hr] Hc']. assert (store_timestamps c ps u !! p = Some (restamp c ps p r)) as Hr'.
  { apply restamp_lookup. eauto. }
  rewrite (records_cons _ _ _ _ Hr), (records_cons _ _ _ _ Hr'). constructor.
  - exists p. split_and!; [by left|done|done].
  - eapply Forall2_impl; [by apply IH|]. intros r1 r2 (q & Hq & ? & ?). exists q. split_and!; [by right|done|done].
Qed.

(** A record with the timestamp of a running transaction is that transaction's. *)
Lemma own_record w id t sl l p r :
  winv w -> running w id t -> slot_inv w sl l -> p ∈ l -> heap w !! p = Some r ->
  timestamp_ r = finish_time_ t <-> p ∈ undo_buffer_ t.
Proof.
  intros Hinv [Ht Hact] Hs Hp Hr. destruct (chain_record_txn w sl l p r Hinv Hs Hp Hr) as (i & s & Hi & Hps & Ets & _).
  pose proof (wi_txn _ Hinv _ _ Ht) as T. pose proof (wi_txn _ Hinv _ _ Hi) as S'. split.
  - intros E. rewrite E in Ets. assert (active s) as Hs' by (unfold active in *; by rewrite <-Ets).
    destruct (ti_active _ _ _ T Hact) as [E1 _]. destruct (ti_active _ _ _ S' Hs') as [E2 _].
    assert (i = id) as -> by lia. by simplify_eq.
  - intros Hpt. assert (i = id) as -> by (by eapply (wi_disjoint _ Hinv)). by simplify_eq.
Qed.

(** ** What finishing changes *)

Record finish_effect (w : world) (id : Z) (t t' : TransactionContext) (w' : world) : Prop := {
  fe_run : running w id t;
  fe_heap : heap w' = store_timestamps (time w) (undo_buffer_ t) (heap w);
  fe_ts : ts_ok (tm w');
  fe_time : time w' = time w + 1;
  fe_running : forall i, i ≠ id -> i ∈ TimestampManager.curr_running_txns_ (tm w) ->
    i ∈ TimestampManager.curr_running_txns_ (tm w');
  fe_ptr : forall sl, version_ptr_ (tuple_at (mem w') sl) = version_ptr_ (tuple_at (mem w) sl);
  fe_tuple : forall sl, tuple_at (mem w') sl = tuple_at (mem w) sl \/
    (aborted_ t' = true /\ exists p l, slot_inv w sl (p :: l) /\ p ∈ undo_buffer_ t);
  fe_some : forall sl, tuples (mem w') !! sl = None <-> tuples (mem w) !! sl = None;
  fe_heads : insert_heads (mem w') = insert_heads (mem w);
  fe_data : data_tables (mem w') = data_tables (mem w);
  fe_store : block_store (mem w') = block_store (mem w);
  fe_tables : tables w' = tables w;
  fe_txns : txns w' = <[id := t']> (txns w);
  fe_start : start_time_ t' = start_time_ t;
  fe_finish : finish_time_ t' = time w;
  fe_buffer : undo_buffer_ t' = undo_buffer_ t;
  fe_redo : last_log_record_ t' = last_log_record_ t;
  fe_must : must_abort_ t' = must_abort_ t;
  fe_aborted : aborted_ t' = false -> must_abort_ t = false;
  fe_completed : completed_txns_ w' = completed_txns_ w \/ completed_txns_ w' = id :: completed_txns_ w;
  fe_log : forall i, i ∈ log_queue w' -> i = id \/ i ∈ log_queue w;
  fe_unlink : txns_to_unlink_ w' = txns_to_unlink_ w;
  fe_dealloc : txns_to_deallocate_ w' = txns_to_deallocate_ w;
}.

Section finish.
Context (w : world) (id : Z) (t t' : TransactionContext) (w' : world).
Hypothesis Hinv : winv w.
Hypothesis Fe : finish_effect w id t t' w'.

#[local] Abbreviation F f := (f w id t t' w' Fe).
#[local] Abbreviation c := (time w).
#[local] Abbreviation ps := (undo_buffer_ t).

Lemma fe_lookup p r' : heap w' !! p = Some r' <-> exists r, heap w !! p = Some r /\ r' = restamp c ps p r.
Proof. rewrite (F fe_heap). apply restamp_lookup. Qed.

Lemma fe_owned p : owned w p -> owned w' p.
Proof.
  intros (i & s & Hs & Hp & Hd). rewrite <-(F fe_dealloc) in Hd. destruct (F fe_run) as [Ht _].
  destruct (decide (i = id)) as [->|Hne].
  - exists id, t'. rewrite (F fe_txns), lookup_insert_eq, (F fe_buffer). by simplify_eq.
  - exists i, s. by rewrite (F fe_txns), lookup_insert_ne.
Qed.

Lemma fe_time_lt : c < 2 ^ 63.
Proof. pose proof (wi_ts _ Hinv) as (H & _). unfold time. lia. Qed.

(** The order of two records of a chain is kept. *)
Lemma fe_newer sl l p q r s :
  slot_inv w sl l -> p ∈ l -> q ∈ l -> heap w !! p = Some r -> heap w !! q = Some s ->
  newer_or_own r s -> newer_or_own (restamp c ps p r) (restamp c ps q s).
Proof.
  intros Hs Hp Hq Hr Hrs [H1 H2]. pose proof fe_time_lt as Hc. destruct (F fe_run) as [Ht Hact].
  pose proof (own_record w id t sl l p r Hinv (F fe_run) Hs Hp Hr) as O1.
  pose proof (own_record w id t sl l q s Hinv (F fe_run) Hs Hq Hrs) as O2.
  unfold active in Hact. unfold newer_or_own.
  rewrite (proj2 (proj2 (proj2 (proj2 (proj2 (restamp_fields c ps p r))))))
        , (proj2 (proj2 (proj2 (proj2 (proj2 (restamp_fields c ps q s)))))).
  destruct (decide (p ∈ ps)) as [Hpp|Hpp], (decide (q ∈ ps)) as [Hqq|Hqq]; try lia.
  - split; [|intros Hge; exfalso; apply O1 in Hpp; rewrite H2, O2 in Hpp by done; done].
    destruct (chain_record_txn w sl l q s Hinv Hs Hq Hrs) as (i & x & Hi & Hqx & Ets & _).
    destruct (decide (active x)) as [Ha|Ha].
    + exfalso. apply Hqq, O2. rewrite <-H2 by (unfold active in Ha; lia). by apply O1.
    + destruct (ti_finished _ _ _ (wi_txn _ Hinv _ _ Hi) Ha). lia.
  - exfalso. apply Hpp, O1. apply O2 in Hqq. rewrite <-Hqq in *. apply H2. lia.
Qed.

Lemma sorted_forall2 (R : UndoRecord -> UndoRecord -> Prop) l1 l2 (P : UndoRecord -> UndoRecord -> Prop) :
  Forall2 P l1 l2 -> (forall a b a' b', P a a' -> P b b' -> R a b -> R a' b') ->
  StronglySorted R l1 -> StronglySorted R l2.
Proof.
  intros HF HP. induction HF as [|a a' l1 l2 Ha HF IH]; intros Hs; constructor; apply StronglySorted_inv in Hs as [Hs Hall].
  - by apply IH.
  - clear IH Hs. induction HF as [|b b' l1 l2 Hb HF IH]; constructor; inversion_clear Hall; eauto.
Qed.

Lemma fe_slot sl l : slot_inv w sl l -> slot_inv w' sl l.
Proof.
  intros Hs. pose proof Hs as [Hc Hn Hr Hso Ha].
  pose proof (records_restamp c ps _ _ _ Hc) as HF. rewrite <-(F fe_heap) in HF.
  constructor.
  - rewrite (F fe_ptr), (F fe_heap). by apply store_timestamps_chain.
  - done.
  - intros p r' Hp Hr'. apply fe_lookup in Hr' as (r & Hpr & ->).
    destruct (Hr p r Hp Hpr) as (H1 & H2 & H3 & H4 & H5). unfold delta_sorted.
    destruct (restamp_fields c ps p r) as (-> & -> & -> & -> & -> & _). split_and!; try done. by apply fe_owned.
  - eapply sorted_forall2; [exact HF| |done]. intros a b a' b' (p & Hp & Hpa & ->) (q & Hq & Hqb & ->). by eapply fe_newer.
  - intros r' Hh Ht'. destruct l as [|p l]; [done|]. cbn in Hc. destruct Hc as (Hptr & r & Hpr & Hc).
    rewrite (records_cons _ _ _ _ Hpr) in Ha.
    assert (heap w' !! p = Some (restamp c ps p r)) as Hp' by (apply fe_lookup; eauto).
    rewrite (records_cons _ _ _ _ Hp') in Hh. injection Hh as <-. pose proof fe_time_lt.
    rewrite (proj2 (proj2 (proj2 (proj2 (proj2 (restamp_fields c ps p r)))))) in Ht'.
    destruct (decide (p ∈ ps)) as [|Hnot]; [lia|]. destruct (F fe_tuple sl) as [->|(_ & q & l2 & Hs2 & Hq)]; [by eapply Ha|].
    pose proof (slot_chain _ _ _ _ Hs Hs2) as E. injection E as -> _. done.
Qed.

Lemma fe_table i s : table_ok (mem w) i s -> table_ok (mem w') i s.
Proof.
  intros [B1 B2 B3 B4]. constructor; [done|done| |done]. intros b Hb.
  destruct (B3 b Hb) as (H1 & H2 & H3 & h & H4 & H5 & H6). unfold block_ok.
  rewrite (F fe_heads), (F fe_data), (F fe_store). split; [done|]. split; [done|]. split; [done|].
  exists h. split; [done|]. split; [done|]. intros off Hoff. apply (F fe_some). auto.
Qed.

(** A delete record of a transaction that is not aborted is never rolled back by
    another one. *)
Lemma fe_delete i s p r :
  txns w !! i = Some s -> (i = id -> aborted_ t' = false) -> p ∈ undo_buffer_ s -> heap w !! p = Some r ->
  present_ (tuple_at (mem w) (slot_ r)) = false /\
    (version_ptr_ (tuple_at (mem w) (slot_ r)) = Some p \/ version_ptr_ (tuple_at (mem w) (slot_ r)) = None) ->
  present_ (tuple_at (mem w') (slot_ r)) = false /\
    (version_ptr_ (tuple_at (mem w') (slot_ r)) = Some p \/ version_ptr_ (tuple_at (mem w') (slot_ r)) = None).
Proof.
  intros Hi Hid Hp Hr [H1 H2]. destruct (F fe_tuple (slot_ r)) as [->|(Hab & q & l & Hs & Hq)]; [done|].
  exfalso. destruct (F fe_run) as [Ht _]. destruct (si_chain _ _ _ Hs) as (Hptr & _). rewrite Hptr in H2.
  destruct H2 as [[= ->]|?]; [|done]. assert (i = id) as -> by (by eapply (wi_disjoint _ Hinv)).
  specialize (Hid eq_refl). congruence.
Qed.

Lemma fe_txn_inv i s : txns w' !! i = Some s -> txn_inv w' i s.
Proof.
  intros Hi. destruct (F fe_run) as [Ht Hact]. pose proof fe_time_lt as Hlt. pose proof (F fe_time) as Etime.
  assert (exists s0, txns w !! i = Some s0 /\ start_time_ s = start_time_ s0 /\ undo_buffer_ s = undo_buffer_ s0 /\
    last_log_record_ s = last_log_record_ s0 /\ must_abort_ s = must_abort_ s0 /\
    ((i ≠ id /\ s = s0) \/ (i = id /\ s0 = t /\ s = t'))) as (s0 & Hs0 & Est & Ebuf & Ered & Emust & Hcase).
  { rewrite (F fe_txns) in Hi. destruct (decide (i = id)) as [->|Hne].
    - rewrite lookup_insert_eq in Hi. injection Hi as <-. exists t.
      rewrite (F fe_start), (F fe_buffer), (F fe_redo), (F fe_must). split_and!; auto.
    - rewrite lookup_insert_ne in Hi by done. exists s. split_and!; auto. }
  pose proof (wi_txn _ Hinv _ _ Hs0) as T.
  assert (forall p r', p ∈ undo_buffer_ s0 -> heap w' !! p = Some r' -> exists r, heap w !! p = Some r /\
    type_ r' = type_ r /\ table_ r' = table_ r /\ slot_ r' = slot_ r) as Hback.
  { intros p r' Hp (r & Hr & ->)%fe_lookup. exists r. destruct (restamp_fields c ps p r) as (? & ? & ? & ? & _). done. }
  constructor; rewrite ?Est, ?Ebuf, ?Ered, ?Emust, ?Etime.
  - destruct (ti_start _ _ _ T). split; [done|lia].
  - intros Ha. destruct Hcase as [[Hne ->]|(-> & -> & ->)].
    + destruct (ti_active _ _ _ T Ha) as (? & ? & ?). split_and!; try done. by apply (F fe_running).
    + unfold active in Ha. rewrite (F fe_finish) in Ha. lia.
  - intros Ha. destruct Hcase as [[Hne ->]|(-> & -> & ->)].
    + destruct (ti_finished _ _ _ T Ha) as [? ?]. split; [lia|done].
    + rewrite (F fe_finish). destruct (ti_start _ _ _ T). split; [lia|]. intros. by apply (F fe_aborted).
  - apply T.
  - intros p Hp. destruct (ti_undo _ _ _ T p Hp) as (r & Hr & Hts & Htb). exists (restamp c ps p r).
    split; [apply fe_lookup; eauto|]. destruct (restamp_fields c ps p r) as (_ & _ & -> & _ & _ & ->).
    rewrite (F fe_tables). split; [|done]. destruct Hcase as [[Hne ->]|(-> & -> & ->)].
    + rewrite decide_False; [done|]. intros Hpt. apply Hne. by eapply (wi_disjoint _ Hinv).
    + rewrite decide_True by done. by rewrite (F fe_finish).
  - intros Ha p r' Hp Hr' Htab. destruct (Hback p r' Hp Hr') as (r & Hr & _ & Et & ->). rewrite Et in Htab.
    destruct Hcase as [[Hne ->]|(-> & -> & ->)].
    + destruct (ti_installed _ _ _ T Ha p r Hp Hr Htab) as (l & Hl & Hpl). exists l. split; [by apply fe_slot|done].
    + unfold active in Ha. rewrite (F fe_finish) in Ha. lia.
  - intros p r' Hp Hr' Htab. destruct (Hback p r' Hp Hr') as (r & Hr & _ & Et & _). rewrite Et in Htab.
    by eapply (ti_failed _ _ _ T).
  - intros Hab p r' Hp Hr' Hty Htab. destruct (Hback p r' Hp Hr') as (r & Hr & Ety & Et & ->). rewrite Et in Htab.
    rewrite Ety in Hty. eapply (fe_delete i s0); [done| |done|done|].
    + intros ->. by destruct Hcase as [[? _]|(_ & _ & ->)].
    + eapply (ti_delete _ _ _ T); try done.
      destruct Hcase as [[Hne ->]|(-> & -> & ->)]; [done|]. by apply (ti_active _ _ _ T).
  - intros sl d Hl. rewrite (F fe_data), (F fe_tables). by apply (ti_redo _ _ _ T sl d).
Qed.

Lemma finish_winv : winv w'.
Proof.
  destruct (F fe_run) as [Ht Hact]. pose proof fe_time_lt as Hlt.
  assert (forall i s, txns w' !! i = Some s -> exists s0, txns w !! i = Some s0 /\ undo_buffer_ s = undo_buffer_ s0) as Hb.
  { intros i s Hi. rewrite (F fe_txns) in Hi. destruct (decide (i = id)) as [->|Hne].
    - rewrite lookup_insert_eq in Hi. injection Hi as <-. exists t. by rewrite (F fe_buffer).
    - rewrite lookup_insert_ne in Hi by done. eauto. }
  constructor.
  - apply Fe.
  - apply fe_txn_inv.
  - intros id1 t1 id2 t2 p (s1 & H1 & E1)%Hb (s2 & H2 & E2)%Hb. rewrite E1, E2. by eapply (wi_disjoint _ Hinv).
  - intros sl. destruct (wi_slot _ Hinv sl) as [l Hl]. exists l. by apply fe_slot.
  - intros i s Hi. rewrite (F fe_tables) in Hi. by apply fe_table, (wi_table _ Hinv).
  - destruct (wi_store _ Hinv) as [S1 S2]. unfold store_ok. rewrite (F fe_store), (F fe_data). split; [done|].
    intros b Hbs. destruct (S2 b Hbs) as (H1 & H2 & H3). split; [done|]. split; [done|].
    intros sl Hsl. apply (F fe_some). auto.
  - intros p r' (r & Hr & ->)%fe_lookup. destruct (restamp_fields c ps p r) as (_ & _ & -> & -> & _).
    intros Htab. pose proof (wi_used _ Hinv p r Hr Htab) as Hu.
    destruct (tuples (mem w') !! slot_ r) eqn:E; [done|]. apply (F fe_some) in E. rewrite E in Hu. by destruct Hu.
  - intros i Hi. rewrite (F fe_time), (F fe_txns). destruct (decide (i = id)) as [->|Hne].
    + destruct (ti_start _ _ _ (wi_txn _ Hinv _ _ Ht)). split; [lia|]. intros s. rewrite lookup_insert_eq. intros [= <-].
      unfold active. rewrite (F fe_finish). lia.
    + destruct (F fe_log i Hi) as [->|Hi']; [done|]. destruct (wi_log _ Hinv i Hi') as [H1 H2]. split; [lia|].
      by rewrite lookup_insert_ne.
  - rewrite (F fe_unlink), (F fe_dealloc). destruct (wi_queues _ Hinv) as [Q1 Q2].
    assert (forall i, i ∈ completed_txns_ w ++ txns_to_unlink_ w ++ txns_to_deallocate_ w ->
      exists s, txns w' !! i = Some s /\ ~ active s) as Hq.
    { intros i Hi. destruct (Q2 i Hi) as (s & Hs & Ha). exists s. split; [|done].
      rewrite (F fe_txns), lookup_insert_ne; [done|]. intros <-. by simplify_eq. }
    destruct (F fe_completed) as [->|E]; [done|]. rewrite E. split.
    + cbn. constructor; [|done]. intros Hin. destruct (Q2 id Hin) as (s & Hs & Ha). by simplify_eq.
    + intros i [->|Hi]%elem_of_cons; [|by apply Hq]. exists t'. rewrite (F fe_txns), lookup_insert_eq.
      split; [done|]. unfold active. rewrite (F fe_finish). lia.
Qed.

End finish.

(** ** Commit *)

Lemma checkout_ts m :
  ts_ok m -> TimestampManager.time_ m + 1 < 2 ^ 63 ->
  ts_ok (TimestampManager.CheckOutTimestamp m).2 /\
  TimestampManager.time_ (TimestampManager.CheckOutTimestamp m).2 = TimestampManager.time_ m + 1.
Proof.
  intros Hok Hlt. split; [eapply step_ok; [done|constructor; lia]|]. destruct Hok as (H & _). cbn.
  apply wrapu_small. unfold is_uint. lia.
Qed.

Lemma remove_ts m x : ts_ok m -> ts_ok (TimestampManager.RemoveTransaction x m).
Proof. intros Hok. eapply step_ok; [done|]. apply (TimestampManager.step_remove m [x]). Qed.

Lemma IsReadOnly_buffer t : IsReadOnly t = true -> undo_buffer_ t = [].
Proof. intros [H _]%andb_prop. by apply bool_decide_eq_true in H. Qed.

(** Both branches of [Commit] restamp the undo buffer, which is empty for a
    read-only transaction. *)
Lemma Commit_eq gc log t w :
  let c := time w in
  let tm1 := (TimestampManager.CheckOutTimestamp (tm w)).2 in
  let w1 := set_mem (set_undos (store_timestamps c (undo_buffer_ t) (heap w)) (mem w)) (set_tm tm1 w) in
  let t' := clear_commit_actions (set_finish_time c t) in
  let w2 := LogCommit log t' (put_txn t' w1) in
  Commit gc log t w = (c, commit_actions_ t, if gc then push_completed (start_time_ t) w2 else w2).
Proof.
  cbv zeta. unfold Commit. destruct (IsReadOnly t) eqn:Er; [|done].
  rewrite (IsReadOnly_buffer t Er). cbn. unfold heap, LogCommit. destruct w as [[] [] ? ? ? ? ? ?]. by destruct log.
Qed.

Lemma commit_effect gc log w id t :
  winv w -> running w id t -> must_abort_ t = false -> time w + 2 < 2 ^ 63 ->
  finish_effect w id t (clear_commit_actions (set_finish_time (time w) t)) (Commit gc log t w).2.
Proof.
  intros Hinv Hrun Hm Hlt. pose proof Hrun as [Ht Hact].
  pose proof (proj1 (ti_start _ _ _ (wi_txn _ Hinv _ _ Ht))) as Hst.
  destruct (checkout_ts (tm w) (wi_ts _ Hinv) ltac:(unfold time in Hlt; lia)) as [Hts Htime].
  rewrite Commit_eq. cbn [snd]. unfold LogCommit. constructor; try done.
  - by destruct gc, log.
  - destruct gc, log; cbn -[TimestampManager.CheckOutTimestamp TimestampManager.RemoveTransaction]; try done; by apply remove_ts.
  - unfold time in *. destruct gc, log; cbn -[TimestampManager.CheckOutTimestamp]; try done; cbn; exact Htime.
  - intros i Hne Hi. destruct gc, log; cbn; set_solver.
  - intros sl. by destruct gc, log.
  - intros sl. left. by destruct gc, log.
  - intros sl. by destruct gc, log.
  - by destruct gc, log.
  - by destruct gc, log.
  - by destruct gc, log.
  - by destruct gc, log.
  - destruct gc, log; cbn; by rewrite Hst.
  - cbn. destruct gc, log; cbn; rewrite ?Hst; auto.
  - intros i. destruct gc, log; cbn; rewrite ?elem_of_app, ?list_elem_of_singleton, ?Hst; tauto.
  - by destruct gc, log.
  - by destruct gc, log.
Qed.

Lemma commit_winv gc log w id w' :
  winv w -> op_ok (OCommit id) w -> exec gc log (OCommit id) w = Some w' -> winv w'.
Proof.
  intros Hinv [Hlt (t & Hrun & Hm)] He. pose proof Hrun as [Ht _]. cbn in He. rewrite Ht in He. injection He as <-.
  eapply finish_winv; [done|]. by apply commit_effect.
Qed.

(** ** Begin, the log serializer, new tables *)

(** Changes outside the records, tuples and finished transactions. *)
Lemma frame_winv w w' :
  winv w -> mem w' = mem w -> tables w' = tables w -> txns w' = txns w -> ts_ok (tm w') -> time w <= time w' ->
  completed_txns_ w' = completed_txns_ w -> txns_to_unlink_ w' = txns_to_unlink_ w ->
  txns_to_deallocate_ w' = txns_to_deallocate_ w -> (forall id, id ∈ log_queue w' -> id ∈ log_queue w) ->
  (forall id t, running w id t -> id ∈ TimestampManager.curr_running_txns_ (tm w')) -> winv w'.
Proof.
  intros Hinv Em Etb Etx Hts Htime Ec Eu Ed Hlog Hrun.
  assert (forall sl l, slot_inv w sl l -> slot_inv w' sl l) as Hslot.
  { intros sl l [H1 H2 H3 H4 H5]. unfold heap in *. constructor; unfold heap; rewrite ?Em; try done.
    intros p r Hp Hr. destruct (H3 p r Hp Hr) as (? & ? & ? & ? & Ho). split_and!; try done.
    unfold owned. by rewrite Etx, Ed. }
  constructor; unfold heap in *; rewrite ?Em, ?Etb, ?Etx, ?Ec, ?Eu, ?Ed; try apply Hinv; try done.
  - intros i s Hi. pose proof (wi_txn _ Hinv _ _ Hi) as [T1 T2 T3 T4 T5 T6 T7 T8 T9]. unfold heap in *.
    constructor; unfold heap; rewrite ?Em, ?Etb; try done.
    + destruct T1. split; [done|lia].
    + intros Ha. destruct (T2 Ha) as (? & ? & ?). split_and!; try done. by eapply Hrun.
    + intros Ha. destruct (T3 Ha) as [? ?]. split; [lia|done].
    + intros Ha p r Hp Hr Htab. destruct (T6 Ha p r Hp Hr Htab) as (l & Hl & ?). eauto.
  - intros sl. destruct (wi_slot _ Hinv sl) as [l Hl]. eauto.
  - intros id Hid. destruct (wi_log _ Hinv id (Hlog id Hid)). split; [lia|done].
Qed.

Lemma serialize_winv w : winv w -> winv (serialize w).
Proof.
  intros Hinv. unfold serialize. destruct (log_queue w) as [|x rest] eqn:E; [done|].
  eapply (frame_winv w); try done.
  - cbn. apply remove_ts, Hinv.
  - cbn. rewrite E. by right.
  - cbn. intros id t [Ht Ha]. destruct (wi_log _ Hinv x) as [_ Hx]; [rewrite E; by left|].
    destruct (ti_active _ _ _ (wi_txn _ Hinv _ _ Ht) Ha) as (_ & _ & Hin).
    assert (id ≠ x) by (intros ->; by eapply Hx). set_solver.
Qed.

Lemma begin_winv w : winv w -> time w + 2 < 2 ^ 63 -> winv (BeginTransaction w).2.
Proof.
  intros Hinv Hlt. pose proof (wi_ts _ Hinv) as Hts. pose proof Hts as (Hr & _). unfold time in Hlt.
  set (tm1 := (TimestampManager.BeginTransaction (tm w)).2).
  assert (ts_ok tm1) as Hts1 by (eapply step_ok; [done|constructor; lia]).
  assert (TimestampManager.time_ tm1 = time w + 1) as Ht1 by (cbn; apply wrapu_small; unfold is_uint, time; lia).
  assert (winv (set_tm tm1 w)) as Hinv1.
  { apply (frame_winv w); try done; [unfold time in *; cbn -[tm1]; lia|]. cbn. intros id t [Ht Ha].
    destruct (ti_active _ _ _ (wi_txn _ Hinv _ _ Ht) Ha) as (_ & _ & Hin). set_solver. }
  change (BeginTransaction w).2 with (put_txn (new_txn (time w) (u64 (time w + INT64_MIN_bits))) (set_tm tm1 w)).
  assert (txns w !! time w = None) as Hnew.
  { destruct (txns w !! time w) as [t|] eqn:E; [|done]. destruct (ti_start _ _ _ (wi_txn _ Hinv _ _ E)). lia. }
  assert (u64 (time w + INT64_MIN_bits) = time w + 2 ^ 63) as Hf.
  { apply wrapu_small. unfold is_uint, time. change INT64_MIN_bits with (2 ^ 63). change (2 ^ 64) with (2 ^ 63 + 2 ^ 63). lia. }
  rewrite Hf. set (t0 := new_txn _ _). set (w1 := set_tm tm1 w) in *.
  assert (time w1 = time w + 1) as Hw1 by done.
  assert (forall sl l, slot_inv w1 sl l -> slot_inv (put_txn t0 w1) sl l) as Hslot.
  { intros sl l [H1 H2 H3 H4 H5]. constructor; try done. intros p r Hp Hpr.
    destruct (H3 p r Hp Hpr) as (? & ? & ? & ? & i & s & Hi & ?). split_and!; try done. exists i, s. split; [|done].
    cbn. rewrite lookup_insert_ne; [done|]. intros <-. cbn in Hi. congruence. }
  constructor; try apply Hinv1.
  - intros i s Hi. cbn in Hi. destruct (decide (i = time w)) as [->|Hne].
    + rewrite lookup_insert_eq in Hi. injection Hi as <-. constructor; try done.
      * split; [done|]. change (time (put_txn t0 w1)) with (time w1). rewrite Hw1. unfold time. lia.
      * intros _. split; [done|]. split; [done|]. cbn. set_solver.
      * intros Ha. destruct Ha. unfold active, t0, time. cbn. lia.
      * constructor.
      * intros p Hp. by apply elem_of_nil in Hp.
      * intros _ p r Hp. by apply elem_of_nil in Hp.
      * intros p r Hp. by apply elem_of_nil in Hp.
      * intros _ p r Hp. by apply elem_of_nil in Hp.
    + rewrite lookup_insert_ne in Hi by done. pose proof (wi_txn _ Hinv1 _ _ Hi) as [T1 T2 T3 T4 T5 T6 T7 T8 T9].
      constructor; try done. intros Ha p r Hp Hpr Htab. destruct (T6 Ha p r Hp Hpr Htab) as (l & Hl & ?). eauto.
  - intros id1 t1 id2 t2 p H1 H2 Hp1 Hp2. cbn in H1, H2.
    apply lookup_insert_Some in H1 as [[_ <-]|[_ H1]]; [by apply elem_of_nil in Hp1|].
    apply lookup_insert_Some in H2 as [[_ <-]|[_ H2]]; [by apply elem_of_nil in Hp2|]. by eapply (wi_disjoint _ Hinv).
  - intros sl. destruct (wi_slot _ Hinv1 sl) as [l Hl]. eauto.
  - intros i Hi. destruct (wi_log _ Hinv i Hi) as [H1 H2]. split; [unfold time in *; cbn -[tm1]; lia|].
    cbn. intros s Hs. rewrite lookup_insert_ne in Hs by lia. by apply H2.
  - cbn. destruct (wi_queues _ Hinv) as [Q1 Q2]. split; [done|]. intros i Hi. destruct (Q2 i Hi) as (s & Hs & Ha).
    exists s. rewrite lookup_insert_ne; [done|]. intros <-. congruence.
Qed.

Lemma with_block_table id b rest m i s :
  store_ok m -> block_store m = b :: rest -> table_ok m i s -> table_ok (with_block id b rest m) i s.
Proof.
  intros [_ S2] E [B1 B2 B3 B4]. constructor; [done|done| |done]. intros b' Hb'.
  destruct (B3 b' Hb') as (H1 & H2 & H3 & h & H4 & H5 & H6). destruct (S2 b) as (_ & Hd & _); [rewrite E; by left|].
  assert (b ≠ b') by (intros ->; congruence). split; [done|]. cbn.
  split; [by rewrite lookup_insert_ne|]. split; [rewrite E in H3; set_solver|]. exists h. by rewrite lookup_insert_ne.
Qed.

Lemma create_winv gc log w table layout w' :
  winv w -> op_ok (OCreateTable table layout) w -> exec gc log (OCreateTable table layout) w = Some w' -> winv w'.
Proof.
  intros Hinv [_ (Hnew & Hst & Hns)] He. destruct (block_store (mem w)) as [|b rest] eqn:Est; [done|].
  pose proof (wi_store _ Hinv) as Hs. cbn [exec] in He. unfold make_table in He.
  rewrite (NewBlock_eq table b rest (mem w) Hs Est) in He. cbn in He. injection He as <-.
  assert (table_ok (mem w) table (Table layout [] 0)) as Ht0.
  { constructor; cbn; [done|constructor| |done]. intros x Hx. by apply elem_of_nil in Hx. }
  destruct (with_block_ok table b rest (mem w) _ Hs Est Ht0) as (Hs' & _).
  pose proof (add_block_ok table b rest (mem w) _ 0 Hs Est Ht0 ltac:(cbn; lia)) as Ht1. cbn in Ht1.
  set (w' := set_tables _ _).
  assert (forall x tb, data_tables (mem w) !! x = Some tb -> data_tables (mem w') !! x = Some tb) as Hdt.
  { intros x tb Hx. cbn. rewrite lookup_insert_ne; [done|]. intros <-.
    destruct Hs as [_ S2]. destruct (S2 b) as (_ & Hd & _); [rewrite Est; by left|]. congruence. }
  assert (forall tb, is_Some (tables w !! tb) -> is_Some (tables w' !! tb)) as Htb.
  { intros tb Hx. cbn. rewrite lookup_insert_ne; [done|]. intros <-. rewrite Hnew in Hx. by destruct Hx. }
  assert (forall sl l, slot_inv w sl l -> slot_inv w' sl l) as Hslot by (intros sl l [H1 H2 H3 H4 H5]; by constructor).
  constructor; try apply Hinv; try done.
  - intros i s Hi. pose proof (wi_txn _ Hinv _ _ Hi) as [T1 T2 T3 T4 T5 T6 T7 T8 T9]. constructor; try done.
    + intros p Hp. destruct (T5 p Hp) as (r & ? & ? & ?). exists r. split_and!; eauto.
    + intros Ha p r Hp Hr Ht. destruct (T6 Ha p r Hp Hr Ht) as (l & ? & ?). eauto.
    + intros sl d Hl. destruct (T9 sl d Hl) as (? & tb & ? & ?). split; [done|]. exists tb.
      split; [by apply Hdt|by apply Htb].
  - intros sl. destruct (wi_slot _ Hinv sl) as [l Hl]. eauto.
  - intros i s Hi. cbn in Hi |- *. destruct (decide (i = table)) as [->|Hne].
    + rewrite lookup_insert_eq in Hi. by injection Hi as <-.
    + rewrite lookup_insert_ne in Hi by done. apply with_block_table; [done|done|by apply (wi_table _ Hinv)].
Qed.

(** ** Abort *)

(** The newest records of a transaction in a chain. *)
Fixpoint own_prefix (finish : Z) (rs : list UndoRecord) : list UndoRecord :=
  match rs with
  | [] => []
  | r :: rs => if decide (timestamp_ r = finish) then r :: own_prefix finish rs else []
  end.

Lemma own_prefix_app finish rs : exists rest, rs = own_prefix finish rs ++ rest /\
  forall r, head rest = Some r -> timestamp_ r ≠ finish.
Proof.
  induction rs as [|r rs (rest & E & Hr)]; cbn; [by exists []|]. case_decide.
  - exists rest. cbn. by rewrite <-E.
  - exists (r :: rs). split; [done|]. by intros ? [= <-].
Qed.

Lemma own_prefix_Forall finish rs : Forall (fun r => timestamp_ r = finish) (own_prefix finish rs).
Proof. induction rs as [|r rs IH]; cbn; [constructor|]. case_decide; by constructor. Qed.

Lemma rollback_update_eq l delta t loose :
  fst (foldl (fun '(t, loose) p =>
    (set_attrs (write_attr (attrs_ t) p) t, loose ++ DeallocateColumnUpdateIfVarlen l p.1 t)) (t, loose) delta) =
  set_attrs (write_row delta (attrs_ t)) t.
Proof.
  revert t loose. induction delta as [|p delta IH]; intros t loose; [by destruct t|]. cbn [foldl]. by rewrite IH.
Qed.

Lemma rollback_chain_spec ly u finish : forall l fuel ptr t loose,
  is_chain u ptr l -> (length l <= fuel)%nat ->
  exists loose', rollback_chain fuel ly u finish ptr t loose =
    Some (rollback_records (own_prefix finish (records u l)) t, loose').
Proof.
  induction l as [|p l IH]; intros fuel ptr t loose Hc Hf; cbn in Hc.
  { subst. destruct fuel; cbn; eauto. }
  destruct Hc as (-> & r & Hr & Hc). destruct fuel as [|fuel]; [cbn in Hf; lia|]. cbn in Hf.
  rewrite (records_cons _ _ _ _ Hr). cbn [rollback_chain own_prefix]. rewrite Hr. cbn [mbind option_bind].
  destruct (decide (timestamp_ r = finish)); [|cbn; eauto].
  change (rollback_records (r :: ?os) t) with (rollback_records os (rollback_record t r)).
  unfold rollback_record. destruct (type_ r).
  - destruct (rollback_update ly (delta_ r) t) as [t' ps] eqn:E.
    pose proof (rollback_update_eq ly (delta_ r) t []) as E'. unfold rollback_update in E. rewrite E in E'. cbn in E'.
    subst t'. apply IH; [done|lia].
  - apply IH; [done|lia].
  - apply IH; [done|lia].
Qed.

Lemma rollback_records_ptr os t : version_ptr_ (rollback_records os t) = version_ptr_ t.
Proof.
  revert t. induction os as [|r os IH]; intros t; [done|].
  change (rollback_records (r :: os) t) with (rollback_records os (rollback_record t r)). rewrite IH.
  unfold rollback_record. by destruct (type_ r).
Qed.

(** Some record of [ps] is installed at the slot. *)
Definition installed_at (u : gmap Z UndoRecord) (ps : list Z) (sl : TupleSlot) : Prop :=
  exists p r, p ∈ ps /\ u !! p = Some r /\ table_ r ≠ None /\ slot_ r = sl.

Record rolled_back (finish : Z) (S : TupleSlot -> Prop) (m m' : memory) : Prop := {
  rb_undos : undos m' = undos m;
  rb_heads : insert_heads m' = insert_heads m;
  rb_data : data_tables m' = data_tables m;
  rb_store : block_store m' = block_store m;
  rb_some : forall sl, tuples m' !! sl = None <-> tuples m !! sl = None;
  rb_in : forall sl l, S sl -> is_chain (undos m) (version_ptr_ (tuple_at m sl)) l ->
    tuple_at m' sl = rollback_records (own_prefix finish (records (undos m) l)) (tuple_at m sl);
  rb_out : forall sl, ~ S sl -> tuple_at m' sl = tuple_at m sl;
}.

(** Contexts that differ in the buffers to free only. *)
Definition same_txn (t t' : TransactionContext) : Prop := exists ps, t' = add_loose_ptrs ps t.

Lemma same_txn_refl t : same_txn t t.
Proof. exists []. unfold add_loose_ptrs. rewrite app_nil_r. by destruct t. Qed.

Lemma same_txn_trans t1 t2 t3 : same_txn t1 t2 -> same_txn t2 t3 -> same_txn t1 t3.
Proof. intros [ps ->] [qs ->]. exists (ps ++ qs). unfold add_loose_ptrs. cbn. by rewrite app_assoc. Qed.

(** The loop of [Abort] terminates without touching freed memory, and rolls every
    slot back once. *)
Lemma rollback_all_spec w finish : forall ps visited t m,
  finish_time_ t = finish ->
  (forall sl, exists l, is_chain (undos m) (version_ptr_ (tuple_at m sl)) l /\ (length l <= size (undos m))%nat) ->
  (forall p, p ∈ ps -> exists r, undos m !! p = Some r /\
     (forall tb, table_ r = Some tb -> is_Some (tables w !! tb) /\ is_Some (tuples m !! slot_ r)) /\
     (table_ r = None -> last ps = Some p)) -> NoDup ps ->
  exists t' m', rollback_all w ps visited t m = Some (t', m') /\ same_txn t t' /\
    rolled_back finish (fun sl => installed_at (undos m) ps sl /\ sl ∉ visited) m m'.
Proof.
  induction ps as [|p ps IH]; intros visited t m Hfin Hch Hps Hnd; cbn [rollback_all].
  { exists t, m. split; [done|]. split; [apply same_txn_refl|]. constructor; try done.
    intros sl l [(p & r & Hp & _) _]. by apply elem_of_nil in Hp. }
  apply NoDup_cons in Hnd as [Hpn Hnd]. destruct (Hps p) as (r & Hr & Htab & Hlast); [by left|].
  rewrite Hr. cbn [mbind option_bind].
  assert (forall q, q ∈ ps -> exists r', undos m !! q = Some r' /\
     (forall tb, table_ r' = Some tb -> is_Some (tables w !! tb) /\ is_Some (tuples m !! slot_ r')) /\
     (table_ r' = None -> last ps = Some q)) as Hps'.
  { intros q Hq. destruct (Hps q) as (r' & Hr' & H1 & H2); [by right|]. exists r'. split_and!; try done.
    intros E. specialize (H2 E). destruct ps; [by apply elem_of_nil in Hq|done]. }
  assert (forall sl, installed_at (undos m) (p :: ps) sl <-> (table_ r ≠ None /\ slot_ r = sl) \/ installed_at (undos m) ps sl) as Hiff.
  { intros sl. unfold installed_at. split.
    - intros (q & s & [->|Hq]%elem_of_cons & Hs & H1 & H2); [simplify_eq; by left|]. right. eauto 8.
    - intros [[H1 H2]|(q & s & Hq & Hs & H1 & H2)]; [exists p, r|exists q, s]; (split_and!; [|done..]); [left|by right]. }
  destruct (decide (slot_ r ∈ visited)) as [Hv|Hv].
  - destruct (IH visited t m Hfin Hch Hps' Hnd) as (t' & m' & E & Hst & [R1 R2 R3 R4 R5 R6 R7]).
    exists t', m'. split_and!; try done. constructor; try done.
    + intros sl l [Hin Hnv] Hc. apply R6; [|done]. split; [|done]. apply Hiff in Hin as [[_ <-]|?]; done.
    + intros sl Hn. apply R7. intros [Hin Hnv]. apply Hn. split; [apply Hiff; by right|done].
  - unfold Rollback. destruct (table_ r) as [tb|] eqn:Et.
    + destruct (Htab tb eq_refl) as [[dt Hdt] [tp Htp]]. unfold layout_of. rewrite Hdt. cbn [fmap option_fmap option_map mbind option_bind].
      destruct (Hch (slot_ r)) as (l & Hl & Hlen).
      destruct (rollback_chain_spec (layout_ dt) (undos m) (finish_time_ t) l (S (size (undos m)))
        (AtomicallyReadVersionPtr m (slot_ r)) (tuple_at m (slot_ r)) []) as (loose & ->); [done|lia|]. cbn [mbind option_bind].
      set (os := own_prefix _ _). set (m1 := set_tuple (slot_ r) _ m).
      assert (forall sl, tuple_at m1 sl = if decide (sl = slot_ r) then rollback_records os (tuple_at m (slot_ r)) else tuple_at m sl) as Et1.
      { intros sl. unfold tuple_at at 1, m1. cbn. case_decide; [subst; by rewrite lookup_insert_eq|by rewrite lookup_insert_ne]. }
      assert (forall sl, version_ptr_ (tuple_at m1 sl) = version_ptr_ (tuple_at m sl)) as Ept.
      { intros sl. rewrite Et1. case_decide; [subst; apply rollback_records_ptr|done]. }
      destruct (IH ({[slot_ r]} ∪ visited) (add_loose_ptrs loose t) m1) as (t' & m' & E & Hst & [R1 R2 R3 R4 R5 R6 R7]); [done| | |done|].
      { intros sl. rewrite Ept. apply Hch. }
      { intros q Hq. destruct (Hps' q Hq) as (r' & Hr' & H1 & H2). exists r'. split_and!; try done. intros tb' Etb'.
        destruct (H1 tb' Etb') as [? Hs]. split; [done|]. cbn. destruct (decide (slot_ r = slot_ r')) as [->|];
          [by rewrite lookup_insert_eq|by rewrite lookup_insert_ne]. }
      exists t', m'. split; [done|]. split; [eapply same_txn_trans; [by exists loose|done]|]. constructor; try done.
      * intros sl. rewrite R5. cbn. destruct (decide (slot_ r = sl)) as [<-|];
          [rewrite lookup_insert_eq, Htp; done|by rewrite lookup_insert_ne].
      * intros sl l2 [Hin Hnv] Hc2. destruct (decide (sl = slot_ r)) as [->|Hne].
        -- rewrite R7 by set_solver. rewrite Et1, decide_True by done. unfold os. rewrite Hfin.
           by rewrite (chain_det _ _ _ _ Hc2 Hl).
        -- rewrite (R6 sl l2); [|split; [by apply Hiff in Hin as [[_ ?]|?]|set_solver]|by rewrite Ept].
           rewrite Et1, decide_False by done. done.
      * intros sl Hn. assert (sl ≠ slot_ r) as Hne by (intros ->; apply Hn; split; [apply Hiff; by left|done]).
        rewrite R7, Et1, decide_False; [done|done|]. intros [Hin Hnv]. apply Hn. split; [apply Hiff; by right|set_solver].
    + (* never installed: it is the last record *)
      specialize (Hlast eq_refl). destruct ps as [|q ps'].
      2:{ exfalso. apply Hpn. assert (last (q :: ps') = Some p) as El by done. by apply last_Some_elem_of in El. }
      cbn [mbind option_bind rollback_all]. exists t, m. split; [done|]. split; [apply same_txn_refl|]. constructor; try done.
      intros sl l [[[? _]|(q & s & Hq & _)]%Hiff _]; [done|by apply elem_of_nil in Hq].
Qed.

(** A transaction has the newest record of a slot exactly when it has installed
    one there. *)
Lemma own_head w id t sl l :
  winv w -> running w id t -> slot_inv w sl l ->
  installed_at (heap w) (undo_buffer_ t) sl <-> exists p l', l = p :: l' /\ p ∈ undo_buffer_ t.
Proof.
  intros Hinv Hrun Hs. pose proof Hrun as [Ht Hact]. pose proof (wi_txn _ Hinv _ _ Ht) as T. split.
  - intros (p & r & Hp & Hr & Htab & <-). destruct (ti_installed _ _ _ T Hact p r Hp Hr Htab) as (l2 & Hl2 & Hpl).
    rewrite (slot_chain _ _ _ _ Hl2 Hs) in Hpl. destruct l as [|q l']; [by apply elem_of_nil in Hpl|].
    exists q, l'. split; [done|]. destruct (si_chain _ _ _ Hs) as (_ & s & Hq & _).
    eapply (own_record w id t _ (q :: l') q s); try done; [by left|].
    assert (timestamp_ r = finish_time_ t) as E by (by eapply (own_record w id t _ (q :: l') p r)).
    rewrite <-E. eapply (head_own w _ (q :: l')); [done|by rewrite (records_cons _ _ _ _ Hq)| |unfold active in Hact; lia].
    apply (records_elem _ _ _ _ (si_chain _ _ _ Hs)). eauto.
  - intros (p & l' & -> & Hp). destruct (si_chain _ _ _ Hs) as (_ & r & Hr & _).
    destruct (si_rec _ _ _ Hs p r) as (H1 & H2 & _); [by left|done|]. exists p, r. done.
Qed.

Lemma own_prefix_none w id t sl l :
  winv w -> running w id t -> slot_inv w sl l -> ~ installed_at (heap w) (undo_buffer_ t) sl ->
  own_prefix (finish_time_ t) (records (heap w) l) = [].
Proof.
  intros Hinv Hrun Hs Hn. destruct l as [|p l]; [done|]. destruct (si_chain _ _ _ Hs) as (_ & r & Hr & _).
  rewrite (records_cons _ _ _ _ Hr). cbn. rewrite decide_False; [done|]. intros E. apply Hn.
  apply (own_head w id t sl (p :: l) Hinv Hrun Hs). exists p, l. split; [done|].
  eapply (own_record w id t _ (p :: l) p r); try done. by left.
Qed.

Lemma GCLast_ok w t m :
  (forall sl d, last_log_record_ t = Some (RedoRecord sl d) ->
     undo_buffer_ t ≠ [] /\ exists tb, data_tables m !! TupleSlot.GetBlock sl = Some tb /\ is_Some (tables w !! tb)) ->
  (forall p, p ∈ undo_buffer_ t -> is_Some (undos m !! p)) ->
  exists t', GCLastUpdateOnAbort w t m = Some t' /\ same_txn t t'.
Proof.
  intros Hredo Hp. unfold GCLastUpdateOnAbort.
  destruct (last_log_record_ t) as [[sl d|sl]|] eqn:E; [|exists t; split; [done|apply same_txn_refl]..].
  destruct (Hredo sl d eq_refl) as (Hne & tb & Htb & [dt Hdt]).
  destruct (last (undo_buffer_ t)) as [p|] eqn:El; [|by apply last_None in El].
  destruct (Hp p) as [r Hr]; [by apply last_Some_elem_of|]. cbn [mbind option_bind]. rewrite Hr. cbn [mbind option_bind].
  destruct (table_ r); [exists t; split; [done|apply same_txn_refl]|].
  rewrite Htb. unfold layout_of. cbn [mbind option_bind]. rewrite Hdt. cbn. eexists. split; [done|]. by eexists.
Qed.

(** [Abort] succeeds, and rolls every slot back by the transaction's own records. *)
Lemma exec_abort gc log w id t :
  winv w -> running w id t -> time w + 2 < 2 ^ 63 ->
  exists w' t', exec gc log (OAbort id) w = Some w' /\ finish_effect w id t t' w' /\ aborted_ t' = true /\
    forall sl l, slot_inv w sl l ->
      tuple_at (mem w') sl = rollback_records (own_prefix (finish_time_ t) (records (heap w) l)) (tuple_at (mem w) sl).
Proof.
  intros Hinv Hrun Hlt. pose proof Hrun as [Ht Hact]. pose proof (wi_txn _ Hinv _ _ Ht) as T.
  pose proof (proj1 (ti_start _ _ _ T)) as Hst. destruct (checkout_ts (tm w) (wi_ts _ Hinv) ltac:(unfold time in Hlt; lia)) as [Hts Htime].
  destruct (rollback_all_spec w (finish_time_ t) (undo_buffer_ t) ∅ (clear_abort_actions t) (mem w))
    as (t1 & m1 & E & [loose ->] & R); [done| | |apply T|].
  { intros sl. destruct (wi_slot _ Hinv sl) as [l Hl]. exists l. split; [apply Hl|].
    eapply chain_length; [apply Hl|apply Hl]. }
  { intros p Hp. destruct (ti_undo _ _ _ T p Hp) as (r & Hr & _ & Htb). exists r. split; [done|]. split.
    - intros tb Etb. split; [by apply Htb|]. apply (wi_used _ Hinv p r Hr). by rewrite Etb.
    - intros Hn. by apply (ti_failed _ _ _ T p r Hp Hr Hn). }
  set (m2 := set_undos (store_timestamps (time w) (undo_buffer_ t) (undos m1)) m1).
  set (t2 := set_aborted (set_finish_time (time w) (add_loose_ptrs loose (clear_abort_actions t)))).
  destruct (GCLast_ok w t2 m2) as (t3 & Egc & [loose2 ->]).
  { intros sl d Hl. cbn. rewrite (rb_data _ _ _ _ R). by apply (ti_redo _ _ _ T sl d). }
  { intros p Hp. cbn. rewrite store_timestamps_lookup, (rb_undos _ _ _ _ R).
    destruct (ti_undo _ _ _ T p Hp) as (r & Hr & _). unfold heap in Hr. rewrite Hr. by case_decide. }
  set (t' := add_loose_ptrs loose2 t2) in *.
  set (tm1 := (TimestampManager.CheckOutTimestamp (tm w)).2) in *.
  set (w2 := LogAbort log t' (put_txn t' (set_mem m2 (set_tm tm1 w)))).
  exists (if gc then push_completed (start_time_ t) w2 else w2), t'.
  assert (forall sl l, slot_inv w sl l ->
    tuple_at m2 sl = rollback_records (own_prefix (finish_time_ t) (records (heap w) l)) (tuple_at (mem w) sl)) as Htup.
  { intros sl l Hl. change (tuple_at m2 sl) with (tuple_at m1 sl). unfold heap.
    assert (installed_at (heap w) (undo_buffer_ t) sl \/ ~ installed_at (heap w) (undo_buffer_ t) sl) as [Hi|Hi].
    { rewrite (own_head w id t sl l Hinv Hrun Hl). destruct l as [|p l']; [right; naive_solver|].
      destruct (decide (p ∈ undo_buffer_ t)); [left; eauto|right; naive_solver]. }
    - apply (rb_in _ _ _ _ R); [split; [done|set_solver]|apply Hl].
    - rewrite (rb_out _ _ _ _ R) by (intros [? _]; done). fold (heap w).
      by rewrite (own_prefix_none w id t sl l Hinv Hrun Hl Hi). }
  split; [|split; [|split; [done|]]].
  - cbn [exec]. rewrite Ht. cbn [mbind option_bind]. unfold Abort. cbn [undo_buffer_ clear_abort_actions].
    rewrite E. cbn [mbind option_bind]. change (TimestampManager.CheckOutTimestamp (tm w)) with (time w, tm1).
    cbv beta iota zeta. change (GCLastUpdateOnAbort w _ _) with (GCLastUpdateOnAbort w t2 m2). rewrite Egc. by destruct gc.
  - assert (forall sl, version_ptr_ (tuple_at m2 sl) = version_ptr_ (tuple_at (mem w) sl)) as Hptr.
    { intros sl. destruct (wi_slot _ Hinv sl) as [l Hl]. rewrite (Htup sl l Hl). apply rollback_records_ptr. }
    assert (forall sl, tuple_at m2 sl = tuple_at (mem w) sl \/
      exists p l, slot_inv w sl (p :: l) /\ p ∈ undo_buffer_ t) as Hcase.
    { intros sl. destruct (wi_slot _ Hinv sl) as [l Hl]. destruct l as [|p l'].
      - left. by rewrite (Htup sl [] Hl).
      - destruct (decide (p ∈ undo_buffer_ t)) as [Hp|Hp]; [right; eauto|]. left. rewrite (Htup sl _ Hl).
        rewrite (own_prefix_none w id t sl (p :: l') Hinv Hrun Hl); [done|].
        rewrite (own_head w id t sl (p :: l') Hinv Hrun Hl). naive_solver. }
    unfold w2, LogAbort. cbn [has_flushed_ t' t2 add_loose_ptrs set_aborted set_finish_time clear_abort_actions].
    constructor; try done.
    + unfold heap. destruct gc, (log && has_flushed_ t); cbn; by rewrite (rb_undos _ _ _ _ R).
    + destruct gc, (log && has_flushed_ t); cbn -[tm1 TimestampManager.RemoveTransaction]; try done; by apply remove_ts.
    + unfold time in *. destruct gc, (log && has_flushed_ t); cbn -[tm1]; try done; cbn; exact Htime.
    + intros i Hne Hi. destruct gc, (log && has_flushed_ t); cbn; set_solver.
    + intros sl. destruct gc, (log && has_flushed_ t); apply Hptr.
    + intros sl. destruct (Hcase sl) as [Hc|Hc]; [left|right; split; [done|exact Hc]].
      by destruct gc, (log && has_flushed_ t).
    + intros sl. rewrite <-(rb_some _ _ _ _ R). by destruct gc, (log && has_flushed_ t).
    + rewrite <-(rb_heads _ _ _ _ R). by destruct gc, (log && has_flushed_ t).
    + rewrite <-(rb_data _ _ _ _ R). by destruct gc, (log && has_flushed_ t).
    + rewrite <-(rb_store _ _ _ _ R). by destruct gc, (log && has_flushed_ t).
    + by destruct gc, (log && has_flushed_ t).
    + destruct gc, (log && has_flushed_ t); cbn; by rewrite Hst.
    + cbn. destruct gc, (log && has_flushed_ t); cbn; rewrite ?Hst; auto.
    + intros i. destruct gc, (log && has_flushed_ t); cbn; rewrite ?elem_of_app, ?list_elem_of_singleton, ?Hst; tauto.
    + by destruct gc, (log && has_flushed_ t).
    + by destruct gc, (log && has_flushed_ t).
  - intros sl l Hl. rewrite <-(Htup sl l Hl). unfold w2, LogAbort. by destruct gc, (log && has_flushed_ t').
Qed.

Lemma abort_winv gc log w id w' :
  winv w -> op_ok (OAbort id) w -> exec gc log (OAbort id) w = Some w' -> winv w'.
Proof.
  intros Hinv [Hlt (t & Hrun)] He. destruct (exec_abort gc log w id t Hinv Hrun Hlt) as (w2 & t' & He2 & Fe & _).
  rewrite He2 in He. injection He as <-. by eapply finish_winv.
Qed.
