(* ===== verification/MvccGC.v ===== *)
(** * Garbage collection keeps the invariant and the reads

    Truncating version chains, reclaiming slots and freeing transactions: no
    pointer is left dangling, and a transaction that started no earlier than the
    oldest running one reads the same before and after. *)

From S2P Require Import Prelude Layout Timestamps DataTable Versions TxnManager GarbageCollector Mvcc MvccWrite MvccFinish.
Import TransactionUtil.

(** ** Reads at or after a time *)

Definition reads_same (oldest : Z) (w w' : world) : Prop :=
  forall sl l l' s f, slot_inv w sl l -> slot_inv w' sl l' -> oldest <= s -> s < f ->
    read s f (tuple_at (mem w') sl) (records (heap w') l') = read s f (tuple_at (mem w) sl) (records (heap w) l).

Lemma reads_same_trans oldest w1 w2 w3 :
  winv w2 -> reads_same oldest w1 w2 -> reads_same oldest w2 w3 -> reads_same oldest w1 w3.
Proof.
  intros Hinv H1 H2 sl l l' s f Hl Hl' Hs Hf. destruct (wi_slot _ Hinv sl) as [l2 Hl2].
  rewrite (H2 sl l2 l' s f); [|done..]. by apply (H1 sl l l2 s f).
Qed.

Lemma reads_same_mem oldest w w' : mem w' = mem w -> reads_same oldest w w'.
Proof.
  intros E sl l l' s f [Hc _ _ _ _] [Hc' _ _ _ _] _ _. unfold heap in *. rewrite E in *. by rewrite (chain_det _ _ _ _ Hc Hc').
Qed.

(** ** Slots without a tuple *)

(** The versions of an insert that was rolled back, or none. *)
Definition dead_chain (rs : list UndoRecord) : Prop :=
  rs = [] \/ exists c i, Forall (fun r => timestamp_ r = c) rs /\ last rs = Some i /\ type_ i = INSERT.

(** A tuple that is present has its slot, and a slot that is not allocated has no
    version that a transaction could read. *)
Definition slot_ok (t : tuple) (rs : list UndoRecord) : Prop :=
  (present_ t = true -> allocated_ t = true) /\ (allocated_ t = false -> dead_chain rs).

Definition slots_ok (w : world) : Prop := forall sl l, slot_inv w sl l -> slot_ok (tuple_at (mem w) sl) (records (heap w) l).

Lemma slots_ok_mem w w' :
  winv w -> tuples (mem w') = tuples (mem w) -> undos (mem w') = undos (mem w) -> slots_ok w -> slots_ok w'.
Proof.
  intros Hinv Et Eu Hok sl l' Hl'. destruct (wi_slot _ Hinv sl) as [l Hl]. pose proof (si_chain _ _ _ Hl) as Hc. pose proof (si_chain _ _ _ Hl') as Hc'.
  unfold heap, tuple_at in *. rewrite Et, Eu in *. rewrite <-(chain_det _ _ _ _ Hc Hc'). by apply Hok.
Qed.

Lemma dead_chain_same rs rs' :
  Forall2 (fun r r' => timestamp_ r' = timestamp_ r /\ type_ r' = type_ r) rs rs' -> dead_chain rs -> dead_chain rs'.
Proof.
  intros HF [-> |(c & i & Hc & Hl & Hi)]; [left; by inversion HF|right]. exists c.
  destruct (last rs') as [i'|] eqn:El'.
  - exists i'. split; [|split; [done|]].
    + clear -HF Hc. induction HF as [|r r' rs rs' [E _] _ IH]; constructor; inversion_clear Hc; [congruence|auto].
    + clear Hc. apply last_Some in Hl as [l0 ->]. apply Forall2_app_inv_l in HF as (k1 & k2 & _ & H2 & ->).
      apply Forall2_cons_inv_l in H2 as (x & k3 & [_ E] & H3 & ->). apply Forall2_nil_inv_l in H3 as ->.
      rewrite last_snoc in El'. injection El' as <-. congruence.
  - apply last_None in El' as ->. inversion HF; subst. done.
Qed.

(** ** Truncation *)

(** What [truncate_behind] does to the chain that starts at [curr]. *)
Lemma truncate_behind_spec u oldest : forall l fuel curr,
  is_chain u (Some curr) (curr :: l) -> (length l < fuel)%nat ->
  exists u', truncate_behind fuel u oldest curr = Some u' /\
    ((u' = u /\ Forall (fun p => forall r, u !! p = Some r -> oldest <= timestamp_ r) l) \/
     exists l1 q p l2 r, curr :: l = l1 ++ q :: p :: l2 /\ u' = alter (set_next None) q u /\
       Forall (fun p => forall r, u !! p = Some r -> oldest <= timestamp_ r) (tail (l1 ++ [q])) /\
       u !! p = Some r /\ timestamp_ r < oldest).
Proof.
  induction l as [|p l IH]; intros fuel curr Hc Hf; cbn in Hc; (destruct fuel as [|fuel]; [cbn in Hf; lia|]);
    destruct Hc as (_ & r & Hr & Hn); cbn [truncate_behind]; rewrite Hr; cbn [mbind option_bind].
  - rewrite Hn. exists u. split; [done|]. left. by split; [|constructor].
  - destruct Hn as (Hn & r' & Hr' & Hc'). rewrite Hn, Hr'. cbn [mbind option_bind].
    destruct (NewerThan oldest (timestamp_ r')) eqn:E.
    + apply NewerThan_true in E. eexists. split; [done|]. right. exists [], curr, p, l, r'. by split_and!.
    + apply NewerThan_false in E. destruct (IH fuel p) as (u' & Ht & Hcase); [cbn; eauto|cbn in Hf; lia|].
      exists u'. split; [done|]. destruct Hcase as [[-> HF]|(l1 & q & x & l2 & s & El & -> & HF & Hx)].
      * left. split; [done|]. constructor; [|done]. intros s Hs. by simplify_eq.
      * right. exists (curr :: l1), q, x, l2, s. rewrite El. split_and!; try done; [|apply Hx..].
        cbn [app tail]. assert (exists rest, l1 ++ [q] = p :: rest) as [rest Erest].
        { destruct l1 as [|y l1]; cbn in El |- *; injection El as -> _; eauto. }
        rewrite Erest in HF |- *. constructor; [|done]. intros s' Hs. by simplify_eq.
Qed.

Lemma chain_cut u ptr l1 q rest :
  is_chain u ptr (l1 ++ q :: rest) -> q ∉ l1 -> is_chain (alter (set_next None) q u) ptr (l1 ++ [q]).
Proof.
  revert ptr. induction l1 as [|p l1 IH]; intros ptr; cbn.
  - intros (-> & r & Hr & _) _. split; [done|]. exists (set_next None r). by rewrite lookup_alter_eq, Hr.
  - intros (-> & r & Hr & Hc) Hq. split; [done|]. exists r. rewrite lookup_alter_ne by set_solver.
    split; [done|]. apply IH; [done|set_solver].
Qed.

Lemma records_app u l1 l2 : records u (l1 ++ l2) = records u l1 ++ records u l2.
Proof. apply omap_app. Qed.

Lemma records_length u l : Forall (fun p => is_Some (u !! p)) l -> length (records u l) = length l.
Proof. induction 1 as [|p l [r Hr] _ IH]; [done|]. rewrite (records_cons _ _ _ _ Hr). cbn. by rewrite IH. Qed.

(** Records with a changed link are the same to a reader. *)
Lemma records_alter_same s f q u l :
  Forall2 (same_for s f) (records (alter (set_next None) q u) l) (records u l).
Proof.
  induction l as [|p l IH]; [constructor|]. unfold records in *. cbn.
  destruct (decide (p = q)) as [->|Hne].
  - rewrite lookup_alter_eq. destruct (u !! q); [|done]. constructor; [done|done].
  - rewrite lookup_alter_ne by done. destruct (u !! p); [|done]. constructor; [done|done].
Qed.

(** In a sorted chain everything behind an old record is old. *)
Lemma sorted_behind w sl l1 p l2 r q s :
  slot_inv w sl (l1 ++ p :: l2) -> heap w !! p = Some r -> q ∈ p :: l2 -> heap w !! q = Some s ->
  timestamp_ s <= timestamp_ r.
Proof.
  intros Hs Hr Hq Hsq. apply elem_of_cons in Hq as [->|Hq]; [simplify_eq; lia|].
  pose proof (si_sorted _ _ _ Hs) as HS. rewrite records_app, (records_cons _ _ _ _ Hr) in HS.
  assert (StronglySorted newer_or_own (r :: records (heap w) l2)) as HS2.
  { clear -HS. induction (records (heap w) l1); [done|]. apply IHl. by apply StronglySorted_inv in HS as [? _]. }
  apply sorted_head_all in HS2. rewrite Forall_forall in HS2. apply (HS2 s). apply list_elem_of_omap. eauto.
Qed.

(** ** What the collector does to a chain, as a change of the world *)

(** Slot [sl] keeps a prefix [l'] of its chain [l]; the rest was older than [oldest].
    A deleted tuple with no versions left may lose its slot. *)
Record cut_effect (oldest : Z) (w : world) (sl : TupleSlot) (l l' : list Z) (m' : memory) : Prop := {
  ce_old : slot_inv w sl l;
  ce_tuple : let t := tuple_at (mem w) sl in let t' := tuple_at m' sl in
    version_ptr_ t' = head l' /\ present_ t' = present_ t /\ attrs_ t' = attrs_ t /\
    (allocated_ t' = allocated_ t \/ (l' = [] /\ present_ t = false /\ allocated_ t' = false));
  ce_tuples : forall sl2, sl2 ≠ sl -> tuple_at m' sl2 = tuple_at (mem w) sl2;
  ce_some : forall sl2, tuples m' !! sl2 = None <-> tuples (mem w) !! sl2 = None;
  ce_heads : insert_heads m' = insert_heads (mem w);
  ce_data : data_tables m' = data_tables (mem w);
  ce_store : block_store m' = block_store (mem w);
  ce_heap : forall p, undos m' !! p = heap w !! p \/ (p ∈ l' /\ undos m' !! p = set_next None <$> heap w !! p);
  ce_chain : is_chain (undos m') (head l') l';
  ce_prefix : exists rest, l = l' ++ rest /\
    forall p r, p ∈ rest -> heap w !! p = Some r -> timestamp_ r < oldest;
  ce_kept : forall p r, p ∈ l' -> heap w !! p = Some r -> oldest <= timestamp_ r;
  ce_same : forall s f, Forall2 (same_for s f) (records (undos m') l') (records (heap w) l');
}.

Lemma truncate_effect oldest w sl l :
  winv w -> slot_inv w sl l ->
  exists m' l', TruncateVersionChain sl oldest (mem w) = Some m' /\ cut_effect oldest w sl l l' m'.
Proof.
  intros Hinv Hs. pose proof Hs as [Hc Hn Hr Hso Ha]. unfold TruncateVersionChain, AtomicallyReadVersionPtr.
  assert (forall p l0, p :: l0 = l -> version_ptr_ (tuple_at (mem w) sl) = Some p) as Hp0.
  { intros p l0 <-. apply Hc. }
  destruct l as [|p l].
  { cbn in Hc. rewrite Hc. exists (mem w), []. split; [done|]. constructor; try done.
    - cbn. auto.
    - by left.
    - exists []. split; [done|]. intros p r Hp. by apply elem_of_nil in Hp.
    - intros p r Hp. by apply elem_of_nil in Hp. }
  pose proof Hc as (Hp & r & Hpr & Hc'). rewrite Hp. unfold heap in Hpr. rewrite Hpr. cbn [mbind option_bind]. fold (heap w) in Hpr.
  assert (is_Some (tuples (mem w) !! sl)) as [tp Htp].
  { destruct (Hr p r) as (<- & Ht & _); [by left|done|]. by apply (wi_used _ Hinv p r). }
  destruct (NewerThan oldest (timestamp_ r)) eqn:E.
  - apply NewerThan_true in E. unfold CompareAndSwapVersionPtr, AtomicallyReadVersionPtr. rewrite decide_True by done.
    cbn [snd]. eexists _, []. split; [done|]. constructor; try done; cbn.
    + cbv zeta. unfold set_tuple. unfold tuple_at. cbn. rewrite lookup_insert_eq. cbn. auto.
    + intros sl2 Hne. unfold tuple_at. cbn. by rewrite lookup_insert_ne.
    + intros sl2. destruct (decide (sl = sl2)) as [<-|]; [rewrite lookup_insert_eq, Htp; done|by rewrite lookup_insert_ne].
    + by left.
    + exists (p :: l). split; [done|]. intros q s Hq Hqs.
      pose proof (sorted_behind w sl [] p l r q s Hs Hpr Hq Hqs). lia.
    + intros q s Hq. by apply elem_of_nil in Hq.
  - apply NewerThan_false in E. pose proof (chain_length _ _ _ Hc Hn) as Hlen. cbn in Hlen. unfold heap in Hlen.
    destruct (truncate_behind_spec (undos (mem w)) oldest l (S (size (undos (mem w)))) p) as (u' & Ht & Hcase);
      [by rewrite <-Hp|lia|]. rewrite Ht. cbn [mbind option_bind].
    assert (forall l1 l', p :: l = l' ++ l1 -> l' ≠ [] -> head l' = Some p) as Hhead.
    { intros l1 [|y l'] El Hne; [done|]. cbn in El. by injection El as -> _. }
    destruct Hcase as [[-> HF]|(l1 & q & x & l2 & s & El & -> & HF & Hx & Hts)].
    + exists (set_undos (undos (mem w)) (mem w)), (p :: l). split; [done|]. constructor; try done.
      * cbn. auto.
      * by left.
      * cbn [head]. by rewrite <-Hp.
      * exists []. split; [by rewrite app_nil_r|]. intros y z Hy. by apply elem_of_nil in Hy.
      * intros y z [->|Hy]%elem_of_cons Hz; [unfold heap in *; simplify_eq; lia|]. rewrite Forall_forall in HF. by eapply HF.
      * intros s f. change (undos (set_undos (undos (mem w)) (mem w))) with (heap w). apply Forall_Forall2_diag, Forall_true. done.
    + assert (p :: l = (l1 ++ [q]) ++ x :: l2) as El' by (rewrite <-app_assoc; done).
      assert (l1 ++ [q] ≠ []) as Hne by (by destruct l1).
      assert (q ∉ l1) as Hq.
      { rewrite El in Hn. apply NoDup_app in Hn as (_ & Hd & _). intros Hin. apply (Hd q Hin). by left. }
      exists (set_undos (alter (set_next None) q (undos (mem w))) (mem w)), (l1 ++ [q]). split; [done|].
      constructor; try done; rewrite ?(Hhead _ _ El' Hne).
      * cbn. auto.
      * intros y. cbn. destruct (decide (y = q)) as [->|]; [right|left; by rewrite lookup_alter_ne].
        rewrite lookup_alter_eq. split; [apply elem_of_app; right; by left|done].
      * cbn. rewrite <-Hp. eapply (chain_cut _ _ _ _ (x :: l2)); [|done]. rewrite El in Hc. exact Hc.
      * exists (x :: l2). split; [done|]. intros y z Hy Hz. rewrite El' in Hs.
        pose proof (sorted_behind w sl _ x l2 s y z Hs Hx Hy Hz). lia.
      * intros y z Hy Hz. assert (exists rest, l1 ++ [q] = p :: rest) as [rest Erest].
        { destruct (l1 ++ [q]) as [|y' rest]; [done|]. specialize (Hhead _ _ El' Hne). injection Hhead as ->. eauto. }
        rewrite Erest in HF, Hy. cbn in HF. apply elem_of_cons in Hy as [->|Hy]; [simplify_eq; lia|].
        rewrite Forall_forall in HF. by eapply HF.
      * intros s' f. cbn. apply records_alter_same.
Qed.

Section cut.
Context (oldest : Z) (w : world) (sl : TupleSlot) (l l' : list Z) (m' : memory).
Hypothesis Hinv : winv w.
Hypothesis Hold : oldest <= 2 ^ 63.
Hypothesis Ce : cut_effect oldest w sl l l' m'.

#[local] Abbreviation C f := (f oldest w sl l l' m' Ce).
#[local] Abbreviation w' := (set_mem m' w).

(** Every record is still there, at most with its link cut. *)
Lemma ce_back p r' :
  undos m' !! p = Some r' -> exists r, heap w !! p = Some r /\ (r' = r \/ (p ∈ l' /\ r' = set_next None r)).
Proof.
  intros H. destruct (C ce_heap p) as [E|[Hp E]]; rewrite E in H; [eauto|].
  apply fmap_Some in H as (r & Hr & ->). eauto.
Qed.

Lemma ce_forth p r :
  heap w !! p = Some r -> exists r', undos m' !! p = Some r' /\ (r' = r \/ (p ∈ l' /\ r' = set_next None r)).
Proof. intros H. destruct (C ce_heap p) as [->|[Hp ->]]; rewrite H; [eauto|]. cbn. eauto. Qed.

Lemma ce_in p : p ∈ l' -> p ∈ l.
Proof. destruct (C ce_prefix) as (rest & -> & _). intros. apply elem_of_app. by left. Qed.

Lemma ce_times k : Forall2 (fun r r' => timestamp_ r' = timestamp_ r) (records (heap w) k) (records (undos m') k).
Proof.
  induction k as [|p k IH]; [constructor|]. unfold records in *. cbn.
  destruct (C ce_heap p) as [->|[_ ->]]; destruct (heap w !! p); cbn; try done; by constructor.
Qed.

Lemma ce_stamps k :
  Forall2 (fun r r' => timestamp_ r' = timestamp_ r /\ type_ r' = type_ r) (records (heap w) k) (records (undos m') k).
Proof.
  induction k as [|p k IH]; [constructor|]. unfold records in *. cbn.
  destruct (C ce_heap p) as [->|[_ ->]]; destruct (heap w !! p); cbn; try done; by constructor.
Qed.

Lemma ce_slot_same : slot_inv w' sl l'.
Proof.
  destruct (C ce_old) as [H1 H2 H3 H4 H5]. destruct (C ce_prefix) as (rest & El & Hrest). constructor.
  - cbn. rewrite (proj1 (C ce_tuple)). apply Ce.
  - rewrite El in H2. by apply NoDup_app in H2 as [? _].
  - intros p r' Hp (r & Hr & Hcase)%ce_back. destruct (H3 p r) as (? & ? & ? & ? & ?); [by apply ce_in|done|].
    destruct Hcase as [->|[_ ->]]; [done|]. split_and!; try done.
  - rewrite El, records_app in H4.
    eapply (sorted_forall2 _ (records (heap w) l') _ (fun r r' => timestamp_ r' = timestamp_ r)).
    + apply ce_times.
    + unfold newer_or_own. intros a b a' b' -> ->. done.
    + clear -H4. induction (records (heap w) l'); [constructor|]. apply StronglySorted_inv in H4 as [? HF].
      constructor; [auto|]. by apply Forall_app in HF as [? _].
  - intros r' Hh Hts. destruct (proj2 (proj2 (proj2 (C ce_tuple)))) as [E|[E _]]; [|by rewrite E in Hh].
    change (heap w') with (undos m') in Hh. cbn. rewrite E. pose proof (ce_times l') as HF.
    rewrite El, records_app in H5. destruct HF as [|r r2 ? ? Ets _]; [done|]. injection Hh as ->.
    apply (H5 r); [done|lia].
Qed.

Lemma ce_other sl2 k p : sl2 ≠ sl -> slot_inv w sl2 k -> p ∈ k -> undos m' !! p = heap w !! p.
Proof.
  intros Hne [H1 H2 H3 H4 H5] Hp. destruct (C ce_old) as [_ _ K3 _ _]. destruct (C ce_heap p) as [->|[Hpl E]]; [done|].
  exfalso. pose proof (chain_lookup _ _ _ H1) as HF. rewrite Forall_forall in HF. destruct (HF p Hp) as [r Hr].
  destruct (H3 p r Hp Hr) as (<- & _). destruct (K3 p r (ce_in p Hpl) Hr) as (<- & _). done.
Qed.

Lemma ce_records_other sl2 k : sl2 ≠ sl -> slot_inv w sl2 k -> records (undos m') k = records (heap w) k.
Proof.
  intros Hne Hk. apply records_same. intros p. by eapply ce_other.
Qed.

Lemma ce_slot_other sl2 k : sl2 ≠ sl -> slot_inv w sl2 k -> slot_inv w' sl2 k.
Proof.
  intros Hne Hk. pose proof (ce_records_other _ _ Hne Hk) as Er. pose proof Hk as [H1 H2 H3 H4 H5].
  constructor; unfold heap; cbn; rewrite ?(C ce_tuples _ Hne), ?Er; try done.
  - eapply chain_frame; [exact H1|]. intros p r Hp Hr. exists r. by erewrite ce_other.
  - intros p r Hp Hr. erewrite ce_other in Hr by done. by apply H3.
Qed.

(** A slot that is not allocated stays dead. *)
Lemma cut_slots : slots_ok w -> slots_ok w'.
Proof.
  intros Hok sl2 k Hk. destruct (decide (sl2 = sl)) as [->|Hne].
  2: { destruct (wi_slot _ Hinv sl2) as [k0 Hk0]. rewrite (slot_chain _ _ _ _ Hk (ce_slot_other _ _ Hne Hk0)).
       unfold heap. cbn. rewrite (ce_records_other _ _ Hne Hk0), (C ce_tuples _ Hne). by apply Hok. }
  rewrite (slot_chain _ _ _ _ Hk ce_slot_same). destruct (Hok sl l (C ce_old)) as [H1 H2].
  destruct (C ce_tuple) as (_ & Hp & _ & Ha). destruct (C ce_prefix) as (rest & El & Hrest).
  split; cbn; [rewrite Hp; intros Hpt; destruct Ha as [->|(_ & Hf & _)]; [auto|congruence]|].
  intros Hal. assert (l' = [] \/ exists p0, p0 ∈ l') as [E0|[p0 Hp0]] by (clear; destruct l'; [by left|right; eexists; by left]).
  { left. by rewrite E0. }
  destruct Ha as [Ha|(E0 & _)]; [|rewrite E0 in Hp0; by apply elem_of_nil in Hp0]. rewrite Ha in Hal. specialize (H2 Hal).
  destruct rest as [|q rest].
  - rewrite app_nil_r in El. eapply dead_chain_same; [apply ce_stamps|]. by rewrite <-El.
  - exfalso. pose proof (chain_lookup _ _ _ (si_chain _ _ _ (C ce_old))) as HF. rewrite Forall_forall in HF.
    destruct (HF q) as [r Hr]; [rewrite El; set_solver|]. destruct (HF p0) as [r0 Hr0]; [by apply ce_in|].
    pose proof (Hrest q r ltac:(set_solver) Hr). pose proof (C ce_kept p0 r0 Hp0 Hr0).
    assert (r ∈ records (heap w) l /\ r0 ∈ records (heap w) l) as [Hin Hin0].
    { split; apply list_elem_of_omap; [exists q|exists p0]; (split; [|done]); rewrite El; set_solver. }
    destruct H2 as [E|(c & i & Hc & _)]; [rewrite E in Hin; by apply elem_of_nil in Hin|]. rewrite Forall_forall in Hc.
    rewrite (Hc r Hin) in *. rewrite (Hc r0 Hin0) in *. lia.
Qed.

Lemma ce_slot sl2 k : slot_inv w sl2 k -> exists k', slot_inv w' sl2 k' /\
  forall p r, p ∈ k -> heap w !! p = Some r -> oldest <= timestamp_ r -> p ∈ k'.
Proof.
  intros Hk. destruct (decide (sl2 = sl)) as [->|Hne].
  - exists l'. split; [apply ce_slot_same|]. intros p r Hp Hr Hts.
    rewrite (slot_chain _ _ _ _ Hk (C ce_old)) in Hp. destruct (C ce_prefix) as (rest & E & Hrest).
    rewrite E in Hp. apply elem_of_app in Hp as [|Hp]; [done|]. specialize (Hrest p r Hp Hr). lia.
  - exists k. split; [by apply ce_slot_other|done].
Qed.

Lemma ce_fields p r r' : undos m' !! p = Some r' -> heap w !! p = Some r ->
  timestamp_ r' = timestamp_ r /\ table_ r' = table_ r /\ slot_ r' = slot_ r /\ type_ r' = type_ r.
Proof. intros (s & Hs & Hcase)%ce_back Hr. simplify_eq. by destruct Hcase as [->|[_ ->]]. Qed.

Lemma ce_ptr sl2 : version_ptr_ (tuple_at m' sl2) = version_ptr_ (tuple_at (mem w) sl2) \/
  version_ptr_ (tuple_at m' sl2) = None.
Proof.
  destruct (decide (sl2 = sl)) as [->|Hne]; [|left; by rewrite (C ce_tuples _ Hne)].
  rewrite (proj1 (C ce_tuple)). destruct (C ce_prefix) as (rest & El & _). pose proof (si_chain _ _ _ (C ce_old)) as Hc.
  rewrite El in Hc. clear -Hc. destruct l' as [|p k]; [by right|left]. cbn in Hc. by destruct Hc as [-> _].
Qed.

Lemma ce_txn_inv i s : txns w !! i = Some s -> txn_inv w' i s.
Proof.
  intros Hi. pose proof (wi_txn _ Hinv _ _ Hi) as [T1 T2 T3 T4 T5 T6 T7 T8 T9]. constructor; try done.
  - intros p Hp. destruct (T5 p Hp) as (r & Hr & Hts & Htb). destruct (ce_forth p r Hr) as (r' & Hr' & _).
    destruct (ce_fields p r r' Hr' Hr) as (E1 & E2 & _). exists r'. rewrite E1, E2. done.
  - intros Ha p r' Hp Hr' Htab. cbn in Hr'. destruct (ce_back p r' Hr') as (r & Hr & _).
    destruct (ce_fields p r r' Hr' Hr) as (E1 & E2 & E3 & _). rewrite E2 in Htab. rewrite E3.
    destruct (T6 Ha p r Hp Hr Htab) as (k & Hk & Hpk). destruct (ce_slot _ _ Hk) as (k' & Hk' & Hin).
    exists k'. split; [done|]. eapply Hin; [done|done|]. destruct (T5 p Hp) as (r2 & Hr2 & Hts & _). simplify_eq.
    unfold active in Ha. lia.
  - intros p r' Hp Hr' Htab. cbn in Hr'. destruct (ce_back p r' Hr') as (r & Hr & _).
    destruct (ce_fields p r r' Hr' Hr) as (_ & E2 & _). rewrite E2 in Htab. by eapply T7.
  - intros Hab p r' Hp Hr' Hty Htab. cbn in Hr'. destruct (ce_back p r' Hr') as (r & Hr & _).
    destruct (ce_fields p r r' Hr' Hr) as (_ & E2 & E3 & E4). rewrite E2 in Htab. rewrite E4 in Hty. rewrite E3.
    destruct (T8 Hab p r Hp Hr Hty Htab) as [H1 H2]. cbn. split.
    + destruct (decide (slot_ r = sl)) as [E|Hne]; [|by rewrite (C ce_tuples _ Hne)].
      rewrite E. rewrite (proj1 (proj2 (C ce_tuple))). by rewrite <-E.
    + destruct (ce_ptr (slot_ r)) as [-> | ->]; [done|by right].
  - intros sl2 d Hl. cbn. rewrite (C ce_data). by apply (T9 sl2 d).
Qed.

Lemma cut_winv : winv w'.
Proof.
  constructor; try apply Hinv.
  - intros i s Hi. by apply ce_txn_inv.
  - intros sl2. destruct (wi_slot _ Hinv sl2) as [k Hk]. destruct (ce_slot _ _ Hk) as (k' & ? & _). eauto.
  - intros i s Hi. destruct (wi_table _ Hinv _ _ Hi) as [B1 B2 B3 B4]. constructor; try done. intros b Hb.
    destruct (B3 b Hb) as (H1 & H2 & H3 & h & H4 & H5 & H6). unfold block_ok. cbn.
    rewrite (C ce_heads), (C ce_data), (C ce_store). split; [done|]. split; [done|]. split; [done|].
    exists h. split; [done|]. split; [done|]. intros off Hoff. apply (C ce_some). auto.
  - destruct (wi_store _ Hinv) as [S1 S2]. unfold store_ok. cbn. rewrite (C ce_store), (C ce_data). split; [done|].
    intros b Hb. destruct (S2 b Hb) as (H1 & H2 & H3). split; [done|]. split; [done|]. intros sl2 Hsl. apply (C ce_some). auto.
  - intros p r' Hr' Htab. cbn in Hr'. destruct (ce_back p r' Hr') as (r & Hr & _).
    destruct (ce_fields p r r' Hr' Hr) as (_ & E2 & E3 & _). rewrite E2 in Htab. rewrite E3.
    pose proof (wi_used _ Hinv p r Hr Htab) as Hu. cbn. destruct (tuples m' !! slot_ r) eqn:E; [done|].
    apply (C ce_some) in E. rewrite E in Hu. by destruct Hu.
Qed.

(** A transaction that started at [oldest] or later does not notice. *)
Lemma cut_reads : reads_same oldest w w'.
Proof.
  intros sl2 k k' s f Hk Hk' Hs Hf. destruct (decide (sl2 = sl)) as [->|Hne].
  - pose proof (slot_chain _ _ _ _ Hk (C ce_old)) as ->. pose proof (slot_chain _ _ _ _ Hk' ce_slot_same) as ->.
    destruct (C ce_prefix) as (rest & El & Hrest). destruct (C ce_tuple) as (_ & Hpr & Hat & Hal).
    unfold heap. cbn [mem]. rewrite (read_same s f _ _ _ (C ce_same s f)).
    destruct Hal as [Hal|(-> & Hnp & Hal)].
    + assert (in_place (tuple_at m' sl) = in_place (tuple_at (mem w) sl)) as Eip by (unfold in_place; by rewrite Hal, Hpr, Hat).
      transitivity (read s f (tuple_at (mem w) sl) (records (heap w) l')).
      { unfold read, read_view. cbn [mem set_mem]. by rewrite Eip, Hal, Hat. }
      assert (Forall (fun p => is_Some (heap w !! p)) l') as HF.
      { pose proof (chain_lookup _ _ _ (si_chain _ _ _ (C ce_old))) as HF. rewrite El in HF. by apply Forall_app in HF as [? _]. }
      rewrite El, records_app.
      rewrite <-(read_take s f (length (records (heap w) l')) _ (records (heap w) l' ++ records (heap w) rest)); [by rewrite take_app_length| |done].
      intros r Hr. rewrite lookup_app_r, Nat.sub_diag in Hr by done.
      apply list_elem_of_lookup_2, list_elem_of_omap in Hr as (p & Hp & Hpr'). specialize (Hrest p r Hp Hpr'). lia.
    + cbn [app] in El. subst rest. unfold read at 1, read_view. cbn [mem set_mem]. rewrite Hal. cbn [fst].
      rewrite <-(read_take s f 0); [|intros r Hr; apply list_elem_of_lookup_2, list_elem_of_omap in Hr as (p & Hp & Hpr');
        specialize (Hrest p r Hp Hpr'); lia|done].
      unfold read, read_view, in_place. rewrite take_0. rewrite Hnp, andb_false_r. by destruct (allocated_ (tuple_at (mem w) sl)).
  - pose proof (slot_chain _ _ _ _ Hk' (ce_slot_other _ _ Hne Hk)) as ->. unfold heap. cbn [mem set_mem].
    by rewrite (C ce_tuples _ Hne), (ce_records_other sl2 k).
Qed.

End cut.

(** ** One transaction *)

(** Chains only lose records, and records keep what the collector looks at. *)
Record shrinks (w w' : world) : Prop := {
  sh_chain : forall sl k k' p, slot_inv w sl k -> slot_inv w' sl k' -> p ∈ k' -> p ∈ k;
  sh_rec : forall p r, heap w !! p = Some r -> exists r', heap w' !! p = Some r' /\ timestamp_ r' = timestamp_ r /\
    table_ r' = table_ r /\ slot_ r' = slot_ r /\ type_ r' = type_ r;
}.

Lemma shrinks_refl w : shrinks w w.
Proof. constructor; [|by eauto 10]. intros sl k k' p Hk Hk'. by rewrite (slot_chain _ _ _ _ Hk Hk'). Qed.

Lemma shrinks_trans w1 w2 w3 : winv w2 -> shrinks w1 w2 -> shrinks w2 w3 -> shrinks w1 w3.
Proof.
  intros Hinv [A1 A2] [B1 B2]. constructor.
  - intros sl k k' p Hk Hk' Hp. destruct (wi_slot _ Hinv sl) as [k2 Hk2]. eauto.
  - intros p r Hr. destruct (A2 p r Hr) as (r2 & Hr2 & E1 & E2 & E3 & E4).
    destruct (B2 p r2 Hr2) as (r3 & Hr3 & F1 & F2 & F3 & F4). exists r3. split_and!; congruence.
Qed.

Lemma cut_shrinks oldest w sl l l' m' : cut_effect oldest w sl l l' m' -> shrinks w (set_mem m' w).
Proof.
  intros Ce. constructor.
  - intros sl2 k k' p Hk Hk' Hp. destruct (decide (sl2 = sl)) as [->|Hne].
    + rewrite (slot_chain _ _ _ _ Hk (ce_old _ _ _ _ _ _ Ce)).
      rewrite (slot_chain _ _ _ _ Hk' (ce_slot_same _ _ _ _ _ _ Ce)) in Hp. by eapply ce_in.
    + by rewrite (slot_chain _ _ _ _ Hk' (ce_slot_other _ _ _ _ _ _ Ce _ _ Hne Hk)) in Hp.
  - intros p r Hr. destruct (ce_forth _ _ _ _ _ _ Ce p r Hr) as (r' & Hr' & _). exists r'. split; [done|].
    destruct (ce_fields _ _ _ _ _ _ Ce p r r' Hr' Hr) as (? & ? & ? & ?). done.
Qed.

(** No chain has [p]. *)
Definition unlinked (w : world) (p : Z) : Prop := forall sl l, slot_inv w sl l -> p ∉ l.

(** The chains of these slots have been truncated. *)
Definition truncated (oldest : Z) (w : world) (slots : gset TupleSlot) : Prop :=
  forall sl l p r, sl ∈ slots -> slot_inv w sl l -> p ∈ l -> heap w !! p = Some r -> oldest <= timestamp_ r.

Lemma shrinks_unlinked w w' p : winv w -> shrinks w w' -> unlinked w p -> unlinked w' p.
Proof. intros Hinv Sh Hu sl l Hl Hp. destruct (wi_slot _ Hinv sl) as [k Hk]. apply (Hu sl k Hk). by eapply sh_chain. Qed.

Lemma shrinks_truncated oldest w w' slots : winv w -> shrinks w w' -> truncated oldest w slots -> truncated oldest w' slots.
Proof.
  intros Hinv Sh Hu sl l p r Hsl Hl Hp Hr. destruct (wi_slot _ Hinv sl) as [k Hk].
  pose proof (sh_chain _ _ Sh sl k l p Hk Hl Hp) as Hpk.
  pose proof (chain_lookup _ _ _ (si_chain _ _ _ Hk)) as HF. rewrite Forall_forall in HF. destruct (HF p Hpk) as [r0 Hr0].
  destruct (sh_rec _ _ Sh p r0 Hr0) as (r' & Hr' & E & _). rewrite Hr in Hr'. injection Hr' as <-. rewrite E. by eapply Hu.
Qed.

(** A collector step: the invariant is kept, chains shrink, current readers see no
    change. *)
Definition gc_step (oldest : Z) (w w' : world) : Prop :=
  winv w' /\ shrinks w w' /\ reads_same oldest w w' /\ (slots_ok w -> slots_ok w').

Lemma gc_step_refl oldest w : winv w -> gc_step oldest w w.
Proof. intros Hinv. split; [done|]. split; [apply shrinks_refl|]. split; [by apply reads_same_mem|done]. Qed.

Lemma gc_step_trans oldest w1 w2 w3 : gc_step oldest w1 w2 -> gc_step oldest w2 w3 -> gc_step oldest w1 w3.
Proof.
  intros (I2 & S2 & R2 & K2) (I3 & S3 & R3 & K3). split; [done|]. split; [by apply (shrinks_trans w1 w2 w3)|].
  split; [by apply (reads_same_trans oldest w1 w2 w3)|auto].
Qed.

Lemma cut_gc_step oldest w sl l l' m' :
  winv w -> oldest <= 2 ^ 63 -> cut_effect oldest w sl l l' m' -> gc_step oldest w (set_mem m' w).
Proof.
  intros Hinv Ho Ce. split; [by eapply cut_winv|]. split; [by eapply cut_shrinks|]. split; [by eapply cut_reads|by eapply cut_slots].
Qed.

Lemma reclaim_effect oldest w sl :
  slot_inv w sl [] -> is_Some (tuples (mem w) !! sl) -> present_ (tuple_at (mem w) sl) = false ->
  cut_effect oldest w sl [] [] (set_tuple sl (Deallocate (tuple_at (mem w) sl)) (mem w)).
Proof.
  intros Hs [tp Htp] Hp. pose proof (si_chain _ _ _ Hs) as Hc. cbn in Hc. constructor; try done.
  - set (t := tuple_at (mem w) sl) in *. cbv zeta.
    assert (tuple_at (set_tuple sl (Deallocate t) (mem w)) sl = Deallocate t) as ->; [|cbn; auto 10].
    unfold tuple_at. cbn. by rewrite lookup_insert_eq.
  - intros sl2 Hne. unfold tuple_at. cbn. by rewrite lookup_insert_ne.
  - intros sl2. cbn. destruct (decide (sl = sl2)) as [<-|]; [by rewrite lookup_insert_eq, Htp|by rewrite lookup_insert_ne].
  - by left.
  - exists []. split; [done|]. intros p r Hin. by apply elem_of_nil in Hin.
  - intros p r Hin. by apply elem_of_nil in Hin.
Qed.

Section unlink.
Context (oldest : Z) (w0 : world) (id : Z) (t : TransactionContext).
Hypothesis Hold : oldest <= 2 ^ 63.
Hypothesis Ht : txns w0 !! id = Some t.
Hypothesis Hdone : finish_time_ t < oldest.

#[local] Abbreviation at_ m := (set_mem m w0).

(** A record of the transaction, once its slot is truncated, is in no chain. *)
Lemma truncated_unlinked m p r slots :
  winv (at_ m) -> p ∈ undo_buffer_ t -> undos m !! p = Some r ->
  (table_ r ≠ None -> slot_ r ∈ slots) -> truncated oldest (at_ m) slots -> unlinked (at_ m) p.
Proof.
  intros Hinv Hp Hr Hsl Htr sl l Hl Hpl. destruct (si_rec _ _ _ Hl p r Hpl Hr) as (<- & Htab & _).
  pose proof (Htr _ _ _ _ (Hsl Htab) Hl Hpl Hr).
  destruct (ti_undo _ _ _ (wi_txn _ Hinv id t Ht) p Hp) as (r' & Hr' & Hts & _).
  change (heap (at_ m)) with (undos m) in Hr'. simplify_eq. lia.
Qed.

(** The first half of the loop's body: the slot of the record is truncated. *)
Lemma visit_slot m p r slots :
  winv (at_ m) -> p ∈ undo_buffer_ t -> undos m !! p = Some r -> truncated oldest (at_ m) slots ->
  exists slots' m',
    match table_ r with
    | Some _ =>
      if decide (slot_ r ∈ slots) then Some (slots, m)
      else m ← TruncateVersionChain (slot_ r) oldest m; Some ({[slot_ r]} ∪ slots, m)
    | None => Some (slots, m)
    end = Some (slots', m') /\
    gc_step oldest (at_ m) (at_ m') /\ truncated oldest (at_ m') slots' /\ unlinked (at_ m') p.
Proof.
  intros Hinv Hp Hr Htr. destruct (table_ r) as [tb|] eqn:Etb.
  - destruct (decide (slot_ r ∈ slots)) as [Hin|Hout].
    + exists slots, m. split; [done|]. split; [by apply gc_step_refl|]. split; [done|]. by eapply truncated_unlinked.
    + destruct (wi_slot _ Hinv (slot_ r)) as [l Hl].
      destruct (truncate_effect oldest (at_ m) (slot_ r) l Hinv Hl) as (m' & l' & E & Ce).
      change (mem (at_ m)) with m in E. rewrite E. cbn [mbind option_bind]. exists ({[slot_ r]} ∪ slots), m'. split; [done|].
      pose proof (cut_gc_step _ _ _ _ _ _ Hinv Hold Ce) as Hg. change (set_mem m' (at_ m)) with (at_ m') in Hg.
      split; [done|]. destruct Hg as (Hinv' & Sh & _).
      assert (truncated oldest (at_ m') ({[slot_ r]} ∪ slots)) as Htr'.
      { intros sl k q s [Hsl%elem_of_singleton|Hsl]%elem_of_union Hk Hq Hs.
        - subst sl. pose proof (ce_slot_same _ _ _ _ _ _ Ce) as Hl'. change (set_mem m' (at_ m)) with (at_ m') in Hl'.
          rewrite (slot_chain _ _ _ _ Hk Hl') in Hq. destruct (ce_back _ _ _ _ _ _ Ce q s Hs) as (s0 & Hs0 & _).
          destruct (ce_fields _ _ _ _ _ _ Ce q s0 s Hs Hs0) as (-> & _). by eapply (ce_kept _ _ _ _ _ _ Ce).
        - by eapply (shrinks_truncated oldest (at_ m) (at_ m')). }
      split; [done|]. destruct (sh_rec _ _ Sh p r Hr) as (r' & Hr' & _ & _ & Esl & _).
      eapply (truncated_unlinked m' p r'); [done|done|done| |done]. intros _. rewrite Esl. set_solver.
  - exists slots, m. split; [done|]. split; [by apply gc_step_refl|]. split; [done|].
    by eapply (truncated_unlinked m p r slots); rewrite ?Etb.
Qed.

(** The second half: a deleted tuple loses its slot and its buffers are collected. *)
Lemma reclaim_record m p r0 r :
  winv (at_ m) -> p ∈ undo_buffer_ t -> undos m !! p = Some r0 ->
  table_ r0 = table_ r -> slot_ r0 = slot_ r -> type_ r0 = type_ r ->
  unlinked (at_ m) p -> aborted_ t = false -> ~ active t ->
  exists m' loose, ReclaimSlotIfDeleted r m = Some m' /\ ReclaimBufferIfVarlen w0 r m' = Some loose /\
    gc_step oldest (at_ m) (at_ m').
Proof.
  intros Hinv Hp Hr F2 F3 F4 Hun Hab Hact. pose proof (wi_txn _ Hinv id t Ht) as T.
  destruct (ti_undo _ _ _ T p Hp) as (r' & Hr' & _ & Htb). change (heap (at_ m)) with (undos m) in Hr'.
  rewrite Hr in Hr'. injection Hr' as <-. rewrite F2 in Htb.
  assert (exists tb, table_ r = Some tb) as [tb Etb].
  { destruct (table_ r) eqn:E; [eauto|]. destruct (ti_failed _ _ _ T p r0 Hp Hr F2) as [Hm _].
    destruct (ti_finished _ _ _ T Hact) as [_ Hf]. rewrite (Hf Hab) in Hm. done. }
  destruct (Htb tb Etb) as [s Hs]. cbn in Hs.
  assert (forall m', exists loose, ReclaimBufferIfVarlen w0 r m' = Some loose) as Hbuf.
  { intros m'. unfold ReclaimBufferIfVarlen, layout_of. rewrite Etb. cbn [mbind option_bind]. rewrite Hs. cbn. eauto. }
  unfold ReclaimSlotIfDeleted. destruct (type_ r) eqn:Ety.
  1,2: destruct (Hbuf m) as [loose Hl]; exists m, loose; split; [done|]; split; [done|]; by apply gc_step_refl.
  rewrite Etb. cbn [mbind option_bind]. set (m' := set_tuple _ _ m). destruct (Hbuf m') as [loose Hl].
  exists m', loose. split; [done|]. split; [done|].
  destruct (ti_delete _ _ _ T Hab p r0 Hp Hr F4) as [Hpres Hptr]; [by rewrite F2, Etb|]. rewrite F3 in Hpres, Hptr.
  destruct (wi_slot _ Hinv (slot_ r)) as [l Hl2]. pose proof (si_chain _ _ _ Hl2) as Hc.
  assert (l = []) as ->.
  { destruct l as [|q l]; [done|]. exfalso. cbn in Hc. destruct Hc as [Hq _]. cbn in Hptr. rewrite Hq in Hptr.
    destruct Hptr as [[= ->]|?]; [|done]. apply (Hun _ _ Hl2). by left. }
  apply (cut_gc_step oldest (at_ m) (slot_ r) [] []); [done|done|]. apply reclaim_effect; try done.
  rewrite <-F3. apply (wi_used _ Hinv p r0); [done|by rewrite F2, Etb].
Qed.

Definition like_txn (t t' : TransactionContext) : Prop :=
  start_time_ t' = start_time_ t /\ finish_time_ t' = finish_time_ t /\ undo_buffer_ t' = undo_buffer_ t /\
  aborted_ t' = aborted_ t /\ must_abort_ t' = must_abort_ t /\ last_log_record_ t' = last_log_record_ t.

Lemma unlink_records_spec : forall ps slots txn m,
  winv (at_ m) -> ~ active t -> (forall p, p ∈ ps -> p ∈ undo_buffer_ t) -> like_txn t txn -> truncated oldest (at_ m) slots ->
  exists slots' txn' m', unlink_records w0 oldest ps slots txn m = Some (slots', txn', m') /\
    gc_step oldest (at_ m) (at_ m') /\ truncated oldest (at_ m') slots' /\ like_txn t txn' /\
    forall p, p ∈ ps -> unlinked (at_ m') p.
Proof.
  induction ps as [|p ps IH]; intros slots txn m Hinv Hact Hps Hsame Htr.
  { exists slots, txn, m. split; [done|]. split; [by apply gc_step_refl|]. split; [done|]. split; [done|].
    intros p Hp. by apply elem_of_nil in Hp. }
  assert (p ∈ undo_buffer_ t) as Hp by (apply Hps; by left).
  destruct (ti_undo _ _ _ (wi_txn _ Hinv id t Ht) p Hp) as (r & Hr & _). change (heap (at_ m)) with (undos m) in Hr.
  destruct (visit_slot m p r slots Hinv Hp Hr Htr) as (slots1 & m1 & E1 & G1 & Htr1 & Hun1).
  cbn [unlink_records]. rewrite Hr. cbn [mbind option_bind]. rewrite E1. cbn [mbind option_bind].
  pose proof G1 as (Hinv1 & Sh1 & _).
  assert (forall m2 txn2, gc_step oldest (at_ m1) (at_ m2) -> like_txn t txn2 ->
    exists slots' txn' m', unlink_records w0 oldest ps slots1 txn2 m2 = Some (slots', txn', m') /\
      gc_step oldest (at_ m) (at_ m') /\ truncated oldest (at_ m') slots' /\ like_txn t txn' /\
      forall q, q ∈ p :: ps -> unlinked (at_ m') q) as Hrest.
  { intros m2 txn2 G2 Hs2. pose proof G2 as (Hinv2 & Sh2 & _).
    destruct (IH slots1 txn2 m2 Hinv2 Hact) as (slots' & txn' & m' & E & G3 & Htr3 & Hs3 & Hun3).
    - intros q Hq. apply Hps. by right.
    - done.
    - by eapply (shrinks_truncated oldest (at_ m1) (at_ m2)).
    - exists slots', txn', m'. split; [done|]. split; [by eapply gc_step_trans; [|eapply gc_step_trans]|].
      split; [done|]. split; [done|]. intros q [->|Hq]%elem_of_cons; [|by apply Hun3].
      eapply (shrinks_unlinked (at_ m2) (at_ m')); [done|apply G3|].
      by eapply (shrinks_unlinked (at_ m1) (at_ m2)). }
  rewrite (proj1 (proj2 (proj2 (proj2 Hsame)))). destruct (aborted_ t) eqn:Eab.
  - apply Hrest; [by apply gc_step_refl|done].
  - destruct (sh_rec _ _ Sh1 p r Hr) as (r1 & Hr1 & F1 & F2 & F3 & F4).
    destruct (reclaim_record m1 p r1 r Hinv1 Hp Hr1 F2 F3 F4 Hun1 Eab Hact) as (m2 & loose & -> & E3 & G2).
    cbn [mbind option_bind]. rewrite E3. cbn [mbind option_bind]. by apply Hrest.
Qed.

End unlink.

(** ** Queues and freed transactions *)

(** Transactions move between queues or are freed; with a freed transaction go
    records that no chain has. *)
Record retire (w w' : world) : Prop := {
  re_mem : exists u', mem w' = set_undos u' (mem w);
  re_heap : forall p, heap w' !! p = heap w !! p \/
    (unlinked w p /\ heap w' !! p = None /\ forall i s, txns w' !! i = Some s -> p ∉ undo_buffer_ s);
  re_tm : tm w' = tm w;
  re_tables : tables w' = tables w;
  re_log : log_queue w' = log_queue w;
  re_txns : forall i s', txns w' !! i = Some s' -> exists s, txns w !! i = Some s /\ like_txn s s';
  re_owned : forall p, owned w p -> owned w' p \/ unlinked w p;
  re_queues : NoDup (completed_txns_ w' ++ txns_to_unlink_ w' ++ txns_to_deallocate_ w') /\
    forall id, id ∈ completed_txns_ w' ++ txns_to_unlink_ w' ++ txns_to_deallocate_ w' ->
      exists t, txns w' !! id = Some t /\ ~ active t;
}.

Section retire.
Context (w w' : world).
Hypothesis Hinv : winv w.
Hypothesis Re : retire w w'.

#[local] Abbreviation R f := (f w w' Re).

Lemma re_tuple sl : tuple_at (mem w') sl = tuple_at (mem w) sl.
Proof. destruct (R re_mem) as [u' ->]. done. Qed.

Lemma re_chain sl l p : slot_inv w sl l -> p ∈ l -> heap w' !! p = heap w !! p.
Proof. intros Hl Hp. destruct (R re_heap p) as [->|(Hu & _)]; [done|]. by destruct (Hu sl l Hl). Qed.

Lemma re_sub p r : heap w' !! p = Some r -> heap w !! p = Some r.
Proof. intros H. destruct (R re_heap p) as [E|(_ & E & _)]; congruence. Qed.

Lemma re_buffer i s p : txns w' !! i = Some s -> p ∈ undo_buffer_ s -> heap w' !! p = heap w !! p.
Proof. intros Hi Hp. destruct (R re_heap p) as [->|(_ & _ & Hu)]; [done|]. by destruct (Hu i s Hi). Qed.

Lemma re_records sl l : slot_inv w sl l -> records (heap w') l = records (heap w) l.
Proof.
  intros Hl. apply records_same. intros p. by eapply re_chain.
Qed.

Lemma re_slot sl l : slot_inv w sl l -> slot_inv w' sl l.
Proof.
  intros Hl. pose proof Hl as [H1 H2 H3 H4 H5].
  constructor; rewrite ?re_tuple, ?(re_records _ _ Hl); try done.
  - eapply chain_frame; [exact H1|]. intros p r Hp Hr. exists r. by erewrite re_chain.
  - intros p r Hp Hr. erewrite re_chain in Hr by done. destruct (H3 p r Hp Hr) as (E1 & E2 & E3 & E4 & Ho).
    split_and!; try done. destruct (R re_owned p Ho) as [|Hu]; [done|]. by destruct (Hu sl l Hl).
Qed.

Lemma re_txn_inv i s' : txns w' !! i = Some s' -> txn_inv w' i s'.
Proof.
  intros Hi. destruct (R re_txns i s' Hi) as (s & Hs & E1 & E2 & E3 & E4 & E5 & E6).
  pose proof (wi_txn _ Hinv _ _ Hs) as [T1 T2 T3 T4 T5 T6 T7 T8 T9]. unfold active, time in *.
  assert (forall p, p ∈ undo_buffer_ s -> heap w' !! p = heap w !! p) as Hb.
  { intros p Hp. eapply re_buffer; [done|]. by rewrite E3. }
  constructor; unfold active, time; rewrite ?E1, ?E2, ?E3, ?E4, ?E5, ?E6, ?(R re_tm), ?(R re_tables); try done.
  - intros p Hp. rewrite Hb by done. auto.
  - intros Ha p r Hp Hr Htab. rewrite Hb in Hr by done. destruct (T6 Ha p r Hp Hr Htab) as (l & Hl & Hpl).
    exists l. split; [by apply re_slot|done].
  - intros p r Hp Hr. rewrite Hb in Hr by done. by apply T7.
  - intros Hab p r Hp Hr. rewrite Hb in Hr by done. rewrite re_tuple. by apply T8.
  - destruct (R re_mem) as [u' ->]. done.
Qed.

Lemma retire_winv : winv w'.
Proof.
  constructor.
  - rewrite (R re_tm). apply Hinv.
  - apply re_txn_inv.
  - intros id1 t1 id2 t2 p (s1 & H1 & _ & _ & E1 & _)%(R re_txns) (s2 & H2 & _ & _ & E2 & _)%(R re_txns).
    rewrite E1, E2. by eapply (wi_disjoint _ Hinv).
  - intros sl. destruct (wi_slot _ Hinv sl) as [l Hl]. exists l. by apply re_slot.
  - intros i s Hi. rewrite (R re_tables) in Hi. destruct (wi_table _ Hinv _ _ Hi). destruct (R re_mem) as [u' ->].
    by constructor.
  - destruct (R re_mem) as [u' ->]. apply (wi_store _ Hinv).
  - intros p r Hr Htab. pose proof (wi_used _ Hinv p r (re_sub p r Hr) Htab). by destruct (R re_mem) as [u' ->].
  - intros i Hi. rewrite (R re_log) in Hi. destruct (wi_log _ Hinv i Hi) as [H1 H2]. unfold time, active in *. rewrite (R re_tm).
    split; [done|]. intros s' (s & Hs & _ & E & _)%(R re_txns). rewrite E. by apply H2.
  - apply Re.
Qed.

Lemma retire_reads oldest : reads_same oldest w w'.
Proof.
  intros sl l l' s f Hl Hl' _ _. rewrite (slot_chain _ _ _ _ Hl' (re_slot _ _ Hl)), re_tuple.
  by rewrite (re_records _ _ Hl).
Qed.

Lemma retire_slots : slots_ok w -> slots_ok w'.
Proof.
  intros Hok sl l Hl. destruct (wi_slot _ Hinv sl) as [k Hk]. rewrite (slot_chain _ _ _ _ Hl (re_slot _ _ Hk)), re_tuple, (re_records _ _ Hk).
  by apply Hok.
Qed.

Lemma retire_truncated oldest slots : truncated oldest w slots -> truncated oldest w' slots.
Proof.
  intros Htr sl l p r Hsl Hl Hp Hr. destruct (wi_slot _ Hinv sl) as [k Hk].
  rewrite (slot_chain _ _ _ _ Hl (re_slot _ _ Hk)) in Hp. erewrite re_chain in Hr by done. by eapply Htr.
Qed.

End retire.

Lemma like_txn_refl t : like_txn t t.
Proof. done. Qed.

(** Moving a transaction, with the records it had in no chain. *)
Lemma move_retire w w' :
  winv w -> mem w' = mem w -> tm w' = tm w -> tables w' = tables w -> log_queue w' = log_queue w ->
  (forall i s', txns w' !! i = Some s' -> exists s, txns w !! i = Some s /\ like_txn s s') ->
  (forall i s, txns w !! i = Some s -> exists s', txns w' !! i = Some s' /\ like_txn s s') ->
  completed_txns_ w' ++ txns_to_unlink_ w' ++ txns_to_deallocate_ w' ≡ₚ
    completed_txns_ w ++ txns_to_unlink_ w ++ txns_to_deallocate_ w ->
  (forall i s p, i ∈ txns_to_deallocate_ w' -> i ∉ txns_to_deallocate_ w -> txns w !! i = Some s -> p ∈ undo_buffer_ s ->
    unlinked w p) ->
  retire w w'.
Proof.
  intros Hinv Em Etm Etb El Hback Hforth Hperm Hmoved. constructor; try done.
  - exists (undos (mem w)). rewrite Em. by destruct (mem w).
  - intros p. left. unfold heap. by rewrite Em.
  - intros p (i & s & Hs & Hp & Hd). destruct (Hforth i s Hs) as (s' & Hs' & Hsame).
    destruct (decide (i ∈ txns_to_deallocate_ w')) as [Hin|Hout]; [right; by eapply Hmoved|left].
    exists i, s'. split; [done|]. split; [|done]. destruct Hsame as (_ & _ & -> & _). done.
  - destruct (wi_queues _ Hinv) as [Q1 Q2]. split; [by rewrite Hperm|]. intros i Hi. rewrite Hperm in Hi.
    destruct (Q2 i Hi) as (s & Hs & Ha). destruct (Hforth i s Hs) as (s' & Hs' & Hsame). exists s'. split; [done|].
    unfold active in *. by destruct Hsame as (_ & -> & _).
Qed.

Lemma foldl_delete_lookup ps (u : gmap Z UndoRecord) p :
  foldl (fun u p => delete p u) u ps !! p = if decide (p ∈ ps) then None else u !! p.
Proof.
  revert u. induction ps as [|q ps IH]; intros u; [done|]. cbn. rewrite IH.
  destruct (decide (q = p)) as [->|Hne].
  - rewrite lookup_delete_eq. rewrite (decide_True (P := p ∈ p :: ps)) by left. by case_decide.
  - rewrite lookup_delete_ne by done. case_decide as H1; [by rewrite decide_True by by right|].
    rewrite decide_False; [done|]. intros [->|?]%elem_of_cons; done.
Qed.

(** Freeing a transaction whose records are in no chain. *)
Lemma delete_retire w id t u' d' :
  winv w -> txns w !! id = Some t -> (forall p, p ∈ undo_buffer_ t -> unlinked w p) ->
  completed_txns_ w ++ txns_to_unlink_ w ++ txns_to_deallocate_ w ≡ₚ id :: completed_txns_ w ++ u' ++ d' ->
  (forall i, i ∈ d' -> i ∈ txns_to_deallocate_ w) ->
  retire w (set_queues u' d' (delete_txn id w)).
Proof.
  intros Hinv Ht Hun Hperm Hd. unfold delete_txn. rewrite Ht. constructor; try done.
  - by eexists.
  - intros p. unfold heap. cbn. rewrite foldl_delete_lookup. case_decide as Hp; [right|by left].
    split; [by apply Hun|]. split; [done|]. intros i s Hi Hps. apply lookup_delete_Some in Hi as [Hne Hi].
    apply Hne. by eapply (wi_disjoint _ Hinv).
  - intros i s' Hi. cbn in Hi. apply lookup_delete_Some in Hi as [Hne Hi]. exists s'. by split.
  - intros p (i & s & Hs & Hp & Hout). destruct (decide (i = id)) as [->|Hne].
    + right. apply Hun. by simplify_eq.
    + left. exists i, s. cbn. rewrite lookup_delete_ne by done. split; [done|]. split; [done|]. intros Hin. by apply Hout, Hd.
  - destruct (wi_queues _ Hinv) as [Q1 Q2]. cbn. rewrite Hperm in Q1. apply NoDup_cons in Q1 as [Q3 Q1]. split; [done|].
    intros i Hi. destruct (Q2 i) as (s & Hs & Ha); [rewrite Hperm; by right|]. exists s.
    rewrite lookup_delete_ne; [done|]. by intros ->.
Qed.

(** The records of a transaction that waits to be freed are in no chain. *)
Lemma dealloc_unlinked w id t p :
  winv w -> id ∈ txns_to_deallocate_ w -> txns w !! id = Some t -> p ∈ undo_buffer_ t -> unlinked w p.
Proof.
  intros Hinv Hid Ht Hp sl l Hl Hpl.
  pose proof (chain_lookup _ _ _ (si_chain _ _ _ Hl)) as HF. rewrite Forall_forall in HF. destruct (HF p Hpl) as [r Hr].
  destruct (si_rec _ _ _ Hl p r Hpl Hr) as (_ & _ & _ & _ & i & s & Hi & Hps & Hd).
  assert (i = id) as -> by (by eapply (wi_disjoint _ Hinv)). done.
Qed.

(** What the collector achieves. *)
Definition collects (oldest : Z) (w w' : world) : Prop :=
  winv w' /\ reads_same oldest w w' /\ tm w' = tm w /\ tables w' = tables w /\
  (forall i s', txns w' !! i = Some s' -> exists s, txns w !! i = Some s /\ like_txn s s') /\
  (forall i s, txns w !! i = Some s -> active s -> exists s', txns w' !! i = Some s' /\ like_txn s s') /\
  (slots_ok w -> slots_ok w').

Lemma collects_trans oldest w1 w2 w3 : collects oldest w1 w2 -> collects oldest w2 w3 -> collects oldest w1 w3.
Proof.
  intros (I2 & R2 & M2 & T2 & B2 & F2 & K2) (I3 & R3 & M3 & T3 & B3 & F3 & K3). unfold collects.
  split; [done|]. split; [by apply (reads_same_trans oldest w1 w2 w3)|]. split; [congruence|]. split; [congruence|].
  assert (forall a b c, like_txn a b -> like_txn b c -> like_txn a c) as Htr.
  { intros a b c (A1 & A2 & A3 & A4 & A5 & A6) (C1 & C2 & C3 & C4 & C5 & C6). unfold like_txn. split_and!; congruence. }
  split.
  - intros i s3 (s2 & Hs2 & E3)%B3. apply B2 in Hs2 as (s1 & Hs1 & E2). eauto.
  - split; [|auto]. intros i s1 Hs1 Ha. destruct (F2 i s1 Hs1 Ha) as (s2 & Hs2 & E2). destruct (F3 i s2 Hs2) as (s3 & Hs3 & E3); [|by eauto].
    unfold active in *. by destruct E2 as (_ & -> & _).
Qed.

Lemma retire_collects oldest w w' :
  winv w -> retire w w' -> (forall i s, txns w !! i = Some s -> active s -> exists s', txns w' !! i = Some s' /\ like_txn s s') ->
  collects oldest w w'.
Proof.
  intros Hinv Re Hf. split; [by eapply retire_winv|]. split; [by apply retire_reads|].
  pose proof (retire_slots w w' Hinv Re). destruct Re. auto 10.
Qed.

(** ** The deallocation queue *)

Lemma dealloc_loop oldest : forall ids w,
  winv (set_queues (txns_to_unlink_ w) ids w) ->
  collects oldest (set_queues (txns_to_unlink_ w) ids w)
    (set_queues (txns_to_unlink_ w) [] (foldl (fun w id => delete_txn id w) w ids)).
Proof.
  induction ids as [|id ids IH]; intros w Hinv; cbn [foldl].
  { split; [done|]. split; [by apply reads_same_mem|]. split; [done|]. split; [done|]. split_and!; eauto using like_txn_refl. }
  set (w1 := set_queues (txns_to_unlink_ w) (id :: ids) w) in *.
  destruct (proj2 (wi_queues _ Hinv) id) as (t & Ht & Hact); [cbn; set_solver|].
  assert (retire w1 (set_queues (txns_to_unlink_ w) ids (delete_txn id w1))) as Re.
  { eapply delete_retire; [done|done| | |cbn; set_solver].
    - intros p Hp. eapply dealloc_unlinked; [done| |done|done]. cbn. by left.
    - cbn. solve_Permutation. }
  assert (set_queues (txns_to_unlink_ w) ids (delete_txn id w1) =
          set_queues (txns_to_unlink_ (delete_txn id w)) ids (delete_txn id w)) as E.
  { unfold delete_txn. cbn in Ht |- *. by rewrite Ht. }
  assert (txns_to_unlink_ (delete_txn id w) = txns_to_unlink_ w) as Eu by (unfold delete_txn; cbn in Ht; by rewrite Ht).
  rewrite E in Re. eapply collects_trans; [eapply (retire_collects oldest w1); [done|exact Re|]|].
  - intros i s Hi Ha. exists s. split; [|done]. unfold delete_txn. cbn in Ht, Hi. rewrite Ht. cbn.
    rewrite lookup_delete_ne; [done|]. intros ->. by simplify_eq.
  - specialize (IH (delete_txn id w)). rewrite Eu in IH, Re |- *. apply IH. by eapply retire_winv.
Qed.

Lemma gc_step_collects oldest w m :
  gc_step oldest w (set_mem m w) -> collects oldest w (set_mem m w).
Proof.
  intros (I & _ & R & K). split; [done|]. split; [done|]. split; [done|]. split; [done|]. split_and!; eauto using like_txn_refl.
Qed.

(** ** The unlink queue *)

(** The state of the loop: what is left of the local queue, and what goes back. *)
Abbreviation loop_world queue requeue w := (set_queues (queue ++ requeue) (txns_to_deallocate_ w) w).

Lemma permute_collects oldest w u' :
  winv w -> txns_to_unlink_ w ≡ₚ u' -> collects oldest w (set_queues u' (txns_to_deallocate_ w) w).
Proof.
  intros Hinv Hp. eapply retire_collects; [done| |by eauto using like_txn_refl].
  apply move_retire; try done; eauto using like_txn_refl. cbn. by rewrite Hp.
Qed.

Section queue.
Context (oldest : Z).
Hypothesis Hold : oldest <= 2 ^ 63.

(** A read-only transaction has no records. *)
Lemma free_read_only queue requeue id t w :
  winv (loop_world (id :: queue) requeue w) -> txns w !! id = Some t -> ~ active t -> IsReadOnly t = true ->
  retire (loop_world (id :: queue) requeue w) (loop_world queue requeue (delete_txn id w)) /\
  collects oldest (loop_world (id :: queue) requeue w) (loop_world queue requeue (delete_txn id w)).
Proof.
  intros Hinv Ht Hact Hro. set (w1 := loop_world (id :: queue) requeue w) in *.
  assert (loop_world queue requeue (delete_txn id w) = set_queues (queue ++ requeue) (txns_to_deallocate_ w) (delete_txn id w1)) as ->.
  { unfold delete_txn. cbn. by rewrite Ht. }
  assert (retire w1 (set_queues (queue ++ requeue) (txns_to_deallocate_ w) (delete_txn id w1))) as Re.
  { eapply (delete_retire w1 id t); [done|done| | |done].
    - intros p Hp. rewrite (IsReadOnly_buffer t Hro) in Hp. by apply elem_of_nil in Hp.
    - cbn. solve_Permutation. }
  split; [done|]. eapply retire_collects; [done|done|]. intros i s Hi Ha. exists s. split; [|done].
  unfold delete_txn. cbn in Hi |- *. rewrite Ht. cbn. rewrite lookup_delete_ne; [done|]. intros ->. by simplify_eq.
Qed.

(** A transaction whose records have been unlinked waits to be freed. *)
Lemma retire_unlinked queue requeue id t t' w :
  winv (loop_world (id :: queue) requeue w) -> txns w !! id = Some t -> like_txn t t' ->
  (forall p, p ∈ undo_buffer_ t -> unlinked (loop_world (id :: queue) requeue w) p) ->
  let w2 := put_txn t' w in let w' := set_queues (txns_to_unlink_ w2) (id :: txns_to_deallocate_ w2) w2 in
  retire (loop_world (id :: queue) requeue w) (loop_world queue requeue w') /\
  collects oldest (loop_world (id :: queue) requeue w) (loop_world queue requeue w').
Proof.
  intros Hinv Ht Hsame Hun w2 w'. set (w1 := loop_world (id :: queue) requeue w) in *.
  assert (start_time_ t' = id) as Est.
  { destruct Hsame as (-> & _). apply (ti_start _ _ _ (wi_txn _ Hinv id t Ht)). }
  assert (forall i s, txns w !! i = Some s -> exists s', <[id := t']> (txns w) !! i = Some s' /\ like_txn s s') as Hf.
  { intros i s Hi. destruct (decide (id = i)) as [<-|Hne].
    - rewrite lookup_insert_eq. exists t'. split; [done|]. by simplify_eq.
    - rewrite lookup_insert_ne by done. exists s. by split. }
  assert (retire w1 (loop_world queue requeue w')) as Re.
  { apply move_retire; try done; cbn; rewrite ?Est; try done.
    - intros i s' Hi. destruct (decide (id = i)) as [<-|Hne].
      + rewrite lookup_insert_eq in Hi. injection Hi as <-. eauto.
      + rewrite lookup_insert_ne in Hi by done. exists s'. by split.
    - solve_Permutation.
    - intros i s p [->|Hi]%elem_of_cons Hn Hs Hp; [|done]. apply Hun. by simplify_eq. }
  split; [done|]. eapply retire_collects; [done|done|]. intros i s Hi _. cbn. rewrite Est. by apply Hf.
Qed.

Lemma unlink_records_tables w w' ps slots t m :
  tables w' = tables w -> unlink_records w oldest ps slots t m = unlink_records w' oldest ps slots t m.
Proof.
  intros Htb. revert slots t m. induction ps as [|p ps IH]; intros slots t m; [done|]. cbn [unlink_records].
  destruct (undos m !! p) as [r|]; [|done]. cbn [mbind option_bind].
  set (v := match table_ r with Some _ => _ | None => _ end). destruct v as [[slots' m']|]; [|done]. cbn [mbind option_bind].
  destruct (aborted_ t); [by apply IH|]. destruct (ReclaimSlotIfDeleted r m') as [m2|]; [|done]. cbn [mbind option_bind].
  unfold ReclaimBufferIfVarlen, layout_of. rewrite Htb. destruct (_ ← table_ r; _) as [loose|]; [|done]. cbn [mbind option_bind].
  apply IH.
Qed.

Lemma unlink_queue_spec : forall queue slots requeue w,
  winv (loop_world queue requeue w) -> truncated oldest (loop_world queue requeue w) slots ->
  exists n requeue' w', unlink_queue oldest queue slots requeue w = Some (n, requeue', w') /\
    collects oldest (loop_world queue requeue w) (loop_world [] requeue' w').
Proof.
  induction queue as [|id queue IH]; intros slots requeue w Hinv Htr.
  { exists 0, requeue, w. split; [done|]. split; [done|]. split; [by apply reads_same_mem|]. split; [done|].
    split; [done|]. split_and!; eauto using like_txn_refl. }
  destruct (proj2 (wi_queues _ Hinv) id) as (t & Ht & Hact); [cbn; set_solver|]. cbn in Ht.
  cbn [unlink_queue]. rewrite Ht. cbn [mbind option_bind].
  destruct (IsReadOnly t) eqn:Ero; [|destruct (NewerThan oldest (finish_time_ t)) eqn:Enew].
  - destruct (free_read_only queue requeue id t w Hinv Ht Hact Ero) as [Re Co].
    destruct (IH slots requeue (delete_txn id w)) as (n & rq & w' & -> & Co').
    + apply Co.
    + by eapply retire_truncated; [|exact Re|].
    + cbn [mbind option_bind]. exists (n + 1), rq, w'. split; [done|]. by eapply collects_trans.
  - apply NewerThan_true in Enew. set (w1 := loop_world (id :: queue) requeue w) in *.
    destruct (unlink_records_spec oldest w1 id t Hold Ht Enew (undo_buffer_ t) slots t (mem w))
      as (slots' & t' & m' & E & G & Htr' & Hsame & Hun); [exact Hinv|done|done|done|exact Htr|].
    assert (unlink_records w oldest (undo_buffer_ t) slots t (mem w) = Some (slots', t', m')) as ->.
    { rewrite <-E. by apply unlink_records_tables. }
    cbn [mbind option_bind]. pose proof (gc_step_collects oldest w1 m' G) as Co1.
    destruct (retire_unlinked queue requeue id t t' (set_mem m' w)) as [Re Co2]; [apply Co1|done|done|exact Hun|].
    edestruct (IH slots' requeue) as (n & rq & w' & E' & Co3); [apply Co2| |].
    { eapply retire_truncated; [|exact Re|exact Htr']. apply Co1. }
    rewrite E'. cbn [mbind option_bind]. exists (n + 1), rq, w'. split; [done|].
    eapply collects_trans; [exact Co1|]. by eapply collects_trans.
  - assert (collects oldest (loop_world (id :: queue) requeue w) (loop_world queue (id :: requeue) w)) as Co.
    { apply (permute_collects oldest (loop_world (id :: queue) requeue w) (queue ++ id :: requeue) Hinv). cbn. solve_Permutation. }
    destruct (IH slots (id :: requeue) w) as (n & rq & w' & -> & Co').
    + apply Co.
    + eapply (retire_truncated (loop_world (id :: queue) requeue w)); [done| |exact Htr].
      apply move_retire; try done; eauto using like_txn_refl. cbn. solve_Permutation.
    + exists n, rq, w'. split; [done|]. by eapply collects_trans.
Qed.

End queue.

(** ** A whole run *)

Lemma ProcessDeallocateQueue_collects oldest w : winv w -> collects oldest w (ProcessDeallocateQueue oldest w).2.
Proof.
  intros Hinv. unfold ProcessDeallocateQueue. destruct (NewerThan _ _); cbn [snd].
  - pose proof (dealloc_loop oldest (txns_to_deallocate_ w) w) as H.
    assert (set_queues (txns_to_unlink_ w) (txns_to_deallocate_ w) w = w) as E by by destruct w.
    rewrite E in H. by apply H.
  - split; [done|]. split; [by apply reads_same_mem|]. split; [done|]. split; [done|]. split_and!; eauto using like_txn_refl.
Qed.

Lemma ProcessUnlinkQueue_collects oldest w :
  winv w -> oldest <= 2 ^ 63 -> exists n w', ProcessUnlinkQueue oldest w = Some (n, w') /\ collects oldest w w'.
Proof.
  intros Hinv Ho. unfold ProcessUnlinkQueue. set (queue := completed_txns_ w ++ txns_to_unlink_ w).
  set (w1 := World _ _ _ _ _ _ _ _ _).
  assert (collects oldest w (loop_world queue [] w1)) as Co.
  { eapply retire_collects; [done| |by eauto using like_txn_refl].
    apply move_retire; try done; eauto using like_txn_refl. cbn. unfold queue. solve_Permutation. }
  destruct (unlink_queue_spec oldest Ho queue ∅ [] w1) as (n & rq & w2 & -> & Co2); [apply Co|intros sl l p r Hsl; set_solver|].
  cbn [mbind option_bind]. exists (u32 n), (set_queues rq (txns_to_deallocate_ w2) w2). split; [done|]. by eapply collects_trans.
Qed.

(** Checking out timestamps on the way. *)
Lemma set_tm_winv w tm' :
  winv w -> ts_ok tm' -> time w <= TimestampManager.time_ tm' ->
  TimestampManager.curr_running_txns_ tm' = TimestampManager.curr_running_txns_ (tm w) -> winv (set_tm tm' w).
Proof.
  intros Hinv Hts Ht Hr. apply (frame_winv w); try done. intros id t [Hid Ha]. cbn. rewrite Hr.
  by apply (ti_active _ _ _ (wi_txn _ Hinv _ _ Hid)).
Qed.

Lemma set_last_unlinked_winv w x : winv w -> winv (set_last_unlinked x w).
Proof.
  intros Hinv. apply (frame_winv w); try done; [apply Hinv|]. intros id t [Hid Ha].
  by apply (ti_active _ _ _ (wi_txn _ Hinv _ _ Hid)).
Qed.

(** The outcome of a run, for transactions that started at [oldest] or later. *)
Definition collected (oldest : Z) (w w' : world) : Prop :=
  winv w' /\ reads_same oldest w w' /\ tables w' = tables w /\ oldest <= time w' /\ time w <= time w' /\
  (forall id t, running w id t -> oldest <= id /\ exists t', running w' id t' /\ like_txn t t') /\
  (forall id t', running w' id t' -> exists t, running w id t /\ like_txn t t') /\
  (slots_ok w -> slots_ok w').

Lemma exec_gc gc log w :
  winv w -> time w + 2 < 2 ^ 63 -> exists oldest w', exec gc log OGC w = Some w' /\ collected oldest w w'.
Proof.
  intros Hinv Hlt. cbn [exec]. unfold PerformGarbageCollection.
  destruct (checkout_ts (tm w) (wi_ts _ Hinv) ltac:(unfold time in Hlt; lia)) as [Hts1 Htime1].
  set (tm1 := (TimestampManager.CheckOutTimestamp (tm w)).2) in *.
  assert (winv (set_tm tm1 w)) as Hinv1 by (apply set_tm_winv; try done; unfold time; lia).
  destruct (TimestampManager.OldestTransactionStartTime (tm (set_tm tm1 w))) as [oldest tm2] eqn:Eo.
  pose proof (oldest_spec tm1 Hts1) as [Hr1 Hr2]. change (tm (set_tm tm1 w)) with tm1 in Eo. rewrite Eo in Hr1, Hr2. cbn [fst] in Hr1, Hr2.
  assert (tm2 = (TimestampManager.OldestTransactionStartTime tm1).2) as Etm2 by by rewrite Eo.
  assert (ts_ok tm2) as Hts2 by (rewrite Etm2; eapply step_ok; [exact Hts1|apply TimestampManager.step_oldest]).
  assert (winv (set_tm tm2 (set_tm tm1 w))) as Hinv2.
  { apply set_tm_winv; rewrite ?Etm2; try done. by rewrite <-Etm2. }
  set (w2 := set_tm tm2 (set_tm tm1 w)) in *. pose proof (ProcessDeallocateQueue_collects oldest w2 Hinv2) as Co3.
  destruct (ProcessDeallocateQueue oldest w2) as [freed w3]. cbn [snd] in Co3.
  assert (oldest <= 2 ^ 63) as Ho by (destruct Hts1; lia).
  destruct (ProcessUnlinkQueue_collects oldest w3) as (n & w4 & -> & Co4); [apply Co3|done|].
  cbn [mbind option_bind fmap option_fmap option_map snd]. pose proof (collects_trans _ _ _ _ Co3 Co4) as (I4 & R4 & M4 & T4 & B4 & F4 & K4).
  assert (time w4 = time w + 1) as Etime4 by (unfold time; rewrite M4; cbn; rewrite Etm2; exact Htime1).
  assert (forall w5, winv w5 -> mem w5 = mem w4 -> tables w5 = tables w4 -> txns w5 = txns w4 -> time w4 <= time w5 ->
    collected oldest w w5) as Hfin.
  { intros w5 I5 M5 T5 X5 Ht5. split; [done|]. split.
    { apply (reads_same_trans oldest w w4 w5); [done| |by apply reads_same_mem].
      by apply (reads_same_trans oldest w w2 w4); [|apply reads_same_mem|]. }
    split; [by rewrite T5, T4|]. split; [rewrite Etime4 in Ht5; unfold time in *; lia|]. split; [lia|]. unfold running. rewrite X5. split.
    - intros id t [Hid Ha]. split; [apply Hr2; by apply (ti_active _ _ _ (wi_txn _ Hinv1 _ _ Hid))|].
      destruct (F4 id t Hid Ha) as (t' & Hid' & Hs). exists t'. split; [|done]. split; [done|].
      unfold active in *. by destruct Hs as (_ & -> & _).
    - split; [|intros Hok; apply (slots_ok_mem w4); rewrite ?M5; try done; apply K4, (slots_ok_mem w); done].
      intros id t' [Hid Ha]. destruct (B4 id t' Hid) as (t & Hid' & Hs). exists t. split; [|done]. split; [done|].
      unfold active in *. by destruct Hs as (_ & <- & _). }
  exists oldest. eexists. split; [done|]. case_decide; [|by apply Hfin].
  destruct (checkout_ts (tm w4) (wi_ts _ I4)) as [Hts5 Htime5]; [fold (time w4); lia|].
  destruct (TimestampManager.CheckOutTimestamp (tm w4)) as [x tm5] eqn:E5. cbn [snd] in Hts5, Htime5.
  assert (tm5 = (TimestampManager.CheckOutTimestamp (tm w4)).2) as Etm5 by by rewrite E5.
  apply Hfin; try done; [|unfold time; cbn; lia].
  apply set_last_unlinked_winv, set_tm_winv; [done|done|unfold time; lia|by rewrite Etm5].
Qed.
