(* ===== verification/Snapshot.v ===== *)
(** * Snapshot isolation

    What the reachable states of the state machine of Mvcc guarantee to
    transactions: no operation touches freed memory or runs out of fuel, a running
    transaction reads the same whatever others do, it reads its own writes, a
    commit makes exactly its writes visible, an abort leaves no trace, and
    conflicting writers are refused. *)

From S2P Require Import Prelude Layout Timestamps DataTable Versions TxnManager Mvcc MvccWrite MvccFinish MvccGC.
Import TransactionUtil.

(** ** What one operation does to the reads of the others *)

(** A reader with these times reads the same everywhere. *)
Definition reads_kept (w w' : world) (s f : Z) : Prop :=
  forall sl l l', slot_inv w sl l -> slot_inv w' sl l' ->
    read s f (tuple_at (mem w') sl) (records (heap w') l') = read s f (tuple_at (mem w) sl) (records (heap w) l).

Lemma reads_kept_mem w w' s f : tuples (mem w') = tuples (mem w) -> undos (mem w') = undos (mem w) -> reads_kept w w' s f.
Proof.
  intros Et Eu sl l l' [Hc _ _ _ _] [Hc' _ _ _ _]. unfold heap, tuple_at in *. rewrite Et, Eu in *.
  by rewrite (chain_det _ _ _ _ Hc Hc').
Qed.

(** Distinct running transactions have distinct times. *)
Lemma running_times w id t : winv w -> running w id t ->
  start_time_ t = id /\ finish_time_ t = id + 2 ^ 63 /\ 0 <= id < time w /\ time w < 2 ^ 63.
Proof.
  intros Hinv [Ht Ha]. pose proof (wi_txn _ Hinv _ _ Ht) as T. destruct (ti_start _ _ _ T). destruct (ti_active _ _ _ T Ha).
  pose proof (wi_ts _ Hinv) as (? & _). unfold time in *. split_and!; try done; lia.
Qed.

Section write.
Context (w : world) (id : Z) (t : TransactionContext) (undo : Z) (u : UndoRecord) (sl : TupleSlot) (tp : tuple)
        (t' : TransactionContext) (w' : world).
Hypothesis Hinv : winv w.
Hypothesis We : write_effect w id t undo u sl tp t' w'.

#[local] Abbreviation W f := (f w id t undo u sl tp t' w' We).

Lemma write_records sl2 l : slot_inv w sl2 l -> records (heap w') l = records (heap w) l.
Proof.
  intros [Hc _ _ _ _]. rewrite (W we_heap). apply records_insert_fresh; [apply We|]. by eapply chain_lookup.
Qed.

(** Slots other than the written one. *)
Lemma write_reads_other s f sl2 l l' :
  sl2 ≠ sl \/ tp = tuple_at (mem w) sl -> slot_inv w sl2 l -> slot_inv w' sl2 l' ->
  read s f (tuple_at (mem w') sl2) (records (heap w') l') = read s f (tuple_at (mem w) sl2) (records (heap w) l).
Proof.
  intros Hne Hl Hl'. assert (tuple_at (mem w') sl2 = tuple_at (mem w) sl2) as E.
  { rewrite (W we_tuple). case_decide; [subst; by destruct Hne|done]. }
  assert (l' = l) as ->; [|by rewrite E, (write_records _ _ Hl)]. eapply chain_det; [exact (si_chain _ _ _ Hl')|].
  rewrite E, (W we_heap). apply chain_insert_fresh; [apply We|apply Hl].
Qed.

Lemma write_head l l' :
  slot_inv w sl l -> slot_inv w' sl l' -> version_ptr_ tp = Some undo -> next_ u = version_ptr_ (tuple_at (mem w) sl) ->
  records (heap w') l' = u :: records (heap w) l.
Proof.
  intros Hl Hl' Hp Hn. assert (l' = undo :: l) as ->.
  { eapply chain_det; [exact (si_chain _ _ _ Hl')|]. rewrite (W we_tuple), decide_True, (W we_heap) by done. cbn.
    split; [done|]. exists u. rewrite lookup_insert_eq. split; [done|]. rewrite Hn. apply chain_insert_fresh; [apply We|apply Hl]. }
  rewrite <-(write_records _ _ Hl). apply records_cons. rewrite (W we_heap). apply lookup_insert_eq.
Qed.

End write.

(** A running transaction other than the one that acts is not affected by a write
    or a finish in the map of transactions. *)
Lemma running_other w w' id t2 id2 t2' :
  id2 ≠ id -> txns w' = <[id := t2']> (txns w) -> running w id2 t2 -> running w' id2 t2.
Proof. intros Hne E [H Ha]. split; [|done]. by rewrite E, lookup_insert_ne. Qed.

(** Updates and deletes. *)
Lemma write_outcome_reads w id t slot undo u tp w' id2 t2 :
  winv w -> winv w' -> running w id t -> running w id2 t2 -> id2 ≠ id ->
  write_outcome w id slot undo t u tp w' -> timestamp_ u = finish_time_ t ->
  (Visible (mem w) slot = true -> version_ptr_ tp = Some undo /\ next_ u = version_ptr_ (tuple_at (mem w) slot) /\
     allocated_ tp = allocated_ (tuple_at (mem w) slot) /\ undo_view u (in_place tp) = in_place (tuple_at (mem w) slot)) ->
  running w' id2 t2 /\ reads_kept w w' (start_time_ t2) (finish_time_ t2).
Proof.
  intros Hinv Hinv' Hrun Hrun2 Hne (l0 & Hl0 & Hout) Hts Hu.
  destruct (running_times w id t Hinv Hrun) as (S1 & F1 & R1 & TL). destruct (running_times w id2 t2 Hinv Hrun2) as (S2 & F2 & R2 & _).
  destruct Hout as [(Hfree & Hvis & t' & We & _ & Hmem & _)|(_ & u' & t' & We & _ & _ & Hmem & _)].
  2: { split; [by eapply running_other; [|apply We|]|]. intros sl l l' Hl Hl'. eapply write_reads_other; try done. by right. }
  split; [by eapply running_other; [|apply We|]|]. intros sl l l' Hl Hl'. destruct (decide (sl = slot)) as [->|Hs].
  2: { eapply write_reads_other; try done. by left. }
  destruct (Hu Hvis) as (Hp & Hn & Ha & Huv). apply andb_prop in Hvis as [Hal _].
  rewrite (write_head _ _ _ _ _ _ _ _ _ We l l' Hl Hl' Hp Hn), (we_tuple _ _ _ _ _ _ _ _ _ We), decide_True by done.
  rewrite (slot_chain _ _ _ _ Hl0 Hl) in Hfree. apply read_push; [done|congruence|done|lia|lia|].
  intros r Hr. destruct (Hfree r Hr) as [->|[? _]]; lia.
Qed.

Lemma in_place_visible m sl : Visible m sl = true -> in_place (tuple_at m sl) = (true, attrs_ (tuple_at m sl)).
Proof. unfold Visible, in_place. by intros ->. Qed.

Lemma update_reads gc log w id table slot redo undo w' id2 t2 :
  winv w -> op_ok (OUpdate id table slot redo undo) w -> exec gc log (OUpdate id table slot redo undo) w = Some w' ->
  running w id2 t2 -> id2 ≠ id -> running w' id2 t2 /\ reads_kept w w' (start_time_ t2) (finish_time_ t2).
Proof.
  intros Hinv Hok He Hrun2 Hne. pose proof (update_winv _ _ _ _ _ _ _ _ _ Hinv Hok He) as Hinv'.
  destruct Hok as [_ (t & Hrun & Hm & Hf & Htab & Hdt & Hs & _)].
  destruct (exec_update gc log w id table slot undo t Hinv Hrun Hm Hf Htab Hdt redo) as (w2 & He2 & Hout).
  rewrite He2 in He. injection He as <-. eapply (write_outcome_reads w id t); try done.
  intros Hvis. split_and!; try done. rewrite (in_place_visible _ _ Hvis). apply andb_prop in Hvis as [H1 H2].
  unfold undo_view, in_place. cbn [update_record update_tuple type_ delta_ allocated_ present_ attrs_ fst snd]. rewrite H1, H2, write_before_image. done.
Qed.

Lemma delete_reads gc log w id table slot undo w' id2 t2 :
  winv w -> op_ok (ODelete id table slot undo) w -> exec gc log (ODelete id table slot undo) w = Some w' ->
  running w id2 t2 -> id2 ≠ id -> running w' id2 t2 /\ reads_kept w w' (start_time_ t2) (finish_time_ t2).
Proof.
  intros Hinv Hok He Hrun2 Hne. pose proof (delete_winv _ _ _ _ _ _ _ _ Hinv Hok He) as Hinv'.
  destruct Hok as [_ (t & Hrun & Hm & Hf & Htab & Hdt)].
  destruct (exec_delete gc log w id table slot undo t Hinv Hrun Hm Hf Htab Hdt) as (w2 & He2 & Hout).
  rewrite He2 in He. injection He as <-. eapply (write_outcome_reads w id t); try done.
  intros Hvis. split_and!; try done. by rewrite (in_place_visible _ _ Hvis).
Qed.

Lemma insert_reads gc log w id table redo undo w' id2 t2 :
  winv w -> op_ok (OInsert id table redo undo) w -> exec gc log (OInsert id table redo undo) w = Some w' ->
  running w id2 t2 -> id2 ≠ id -> running w' id2 t2 /\ reads_kept w w' (start_time_ t2) (finish_time_ t2).
Proof.
  intros Hinv Hok He Hrun2 Hne. destruct Hok as [_ (t & Hrun & Hm & Hf & Htab & Hst & _)].
  destruct (exec_insert gc log w id table undo t redo Hinv Hrun Hm Hf Htab Hst) as (w2 & slot & t' & He2 & Hnone & We & _ & Hinv').
  rewrite He2 in He. injection He as <-.
  destruct (running_times w id t Hinv Hrun) as (S1 & F1 & R1 & TL). destruct (running_times w id2 t2 Hinv Hrun2) as (S2 & F2 & R2 & _).
  split; [by eapply running_other; [|apply We|]|]. intros sl l l' Hl Hl'. destruct (decide (sl = slot)) as [->|Hs].
  2: { eapply write_reads_other; try done. by left. }
  assert (tuple_at (mem w) slot = pristine) as Etp by (unfold tuple_at; by rewrite Hnone).
  rewrite (write_head _ _ _ _ _ _ _ _ _ We l l' Hl Hl') by (done || by rewrite Etp).
  assert (l = []) as -> by (eapply chain_det; [exact (si_chain _ _ _ Hl)|by rewrite Etp]).
  rewrite (we_tuple _ _ _ _ _ _ _ _ _ We), decide_True, Etp by done. cbn [records omap list_omap].
  apply read_push_insert; try done; cbn; lia.
Qed.

(** ** Finishing *)

(** To another running transaction a record that gets the finish time looks the
    same. *)
Lemma finish_same w id t t' w' id2 t2 sl l :
  winv w -> finish_effect w id t t' w' -> running w id2 t2 -> id2 ≠ id -> slot_inv w sl l ->
  Forall2 (same_for (start_time_ t2) (finish_time_ t2)) (records (heap w) l) (records (heap w') l).
Proof.
  intros Hinv Fe Hrun2 Hne Hl. pose proof (fe_run _ _ _ _ _ Fe) as Hrun.
  destruct (running_times w id t Hinv Hrun) as (S1 & F1 & R1 & TL). destruct (running_times w id2 t2 Hinv Hrun2) as (S2 & F2 & R2 & _).
  rewrite (fe_heap _ _ _ _ _ Fe). eapply Forall2_impl; [apply (records_restamp _ _ _ _ _ (si_chain _ _ _ Hl))|].
  intros r r' (p & Hp & Hr & ->). unfold same_for.
  destruct (restamp_fields (time w) (undo_buffer_ t) p r) as (-> & _ & _ & _ & -> & ->). split; [done|]. split; [done|].
  case_decide as Hin; [|done]. apply (own_record w id t sl l p r Hinv Hrun Hl Hp Hr) in Hin. rewrite Hin. lia.
Qed.

Lemma commit_reads gc log w id w' id2 t2 :
  winv w -> op_ok (OCommit id) w -> exec gc log (OCommit id) w = Some w' ->
  running w id2 t2 -> id2 ≠ id -> running w' id2 t2 /\ reads_kept w w' (start_time_ t2) (finish_time_ t2).
Proof.
  intros Hinv [Hlt (t & Hrun & Hm)] He Hrun2 Hne. pose proof Hrun as [Ht _]. cbn [exec] in He. rewrite Ht in He. injection He as <-.
  pose proof (commit_effect gc log w id t Hinv Hrun Hm Hlt) as Fe.
  split; [by eapply running_other; [|apply Fe|]|]. intros sl l l' Hl Hl'.
  rewrite (slot_chain _ _ _ _ Hl' (fe_slot _ _ _ _ _ Hinv Fe sl l Hl)).
  destruct (fe_tuple _ _ _ _ _ Fe sl) as [->|[Hab _]]; [symmetry; apply read_same; by eapply finish_same|].
  cbn in Hab. destruct (ti_active _ _ _ (wi_txn _ Hinv _ _ Ht) (proj2 Hrun)) as (_ & E & _). congruence.
Qed.

(** An insert is the oldest record of its chain. *)
Lemma insert_last w sl l os i rest :
  slot_inv w sl l -> records (heap w) l = os ++ i :: rest -> type_ i = INSERT -> rest = [].
Proof.
  intros [Hc _ Hr _ _]. revert Hc Hr. generalize (version_ptr_ (tuple_at (mem w) sl)). revert os.
  induction l as [|p l IH]; intros os ptr Hc Hr E Hi; [by destruct os|]. destruct Hc as (_ & r & Hpr & Hc).
  rewrite (records_cons _ _ _ _ Hpr) in E. destruct os as [|o os]; cbn in E; injection E as -> E.
  - destruct (Hr p i) as (_ & _ & _ & Hn & _); [by left|done|]. rewrite (Hn Hi) in Hc.
    destruct l; [done|]. by destruct Hc.
  - eapply (IH os); [exact Hc| |exact E|done]. intros q s Hq. apply Hr. by right.
Qed.

Lemma own_prefix_nil w id t sl l p :
  winv w -> running w id t -> slot_inv w sl l -> [] = own_prefix (finish_time_ t) (records (heap w) l) ->
  p ∈ l -> p ∉ undo_buffer_ t.
Proof.
  intros Hinv Hrun Hl E Hp Hpt. pose proof (chain_lookup _ _ _ (si_chain _ _ _ Hl)) as HF. rewrite Forall_forall in HF.
  destruct (HF p Hp) as [r Hr]. destruct (si_rec _ _ _ Hl p r Hp Hr) as (Esl & Htab & _).
  assert (installed_at (heap w) (undo_buffer_ t) sl) as Hin by (exists p, r; done).
  apply (own_head w id t sl l Hinv Hrun Hl) in Hin as (q & l' & -> & Hq). destruct (si_chain _ _ _ Hl) as (_ & s & Hs & _).
  rewrite (records_cons _ _ _ _ Hs) in E. cbn in E. rewrite decide_True in E; [done|].
  eapply (own_record w id t sl (q :: l') q s); try done. by left.
Qed.

(** The own records of a transaction at a slot, split off. *)
Lemma own_split w id t sl l :
  winv w -> running w id t -> slot_inv w sl l ->
  exists os rest, records (heap w) l = os ++ rest /\ os = own_prefix (finish_time_ t) (records (heap w) l) /\
    Forall (fun r => timestamp_ r = finish_time_ t) os /\
    (no_insert os \/ exists os' i, os = os' ++ [i] /\ no_insert os' /\ type_ i = INSERT /\ rest = []) /\
    (os ≠ [] -> allocated_ (tuple_at (mem w) sl) = true /\ Forall (fun r => timestamp_ r < 2 ^ 63) rest).
Proof.
  intros Hinv Hrun Hl. destruct (running_times w id t Hinv Hrun) as (_ & F1 & R1 & TL).
  destruct (own_prefix_app (finish_time_ t) (records (heap w) l)) as (rest & E & Hrest).
  set (os := own_prefix _ _) in *. assert (Forall (fun r => timestamp_ r = finish_time_ t) os) as HF by apply own_prefix_Forall.
  exists os, rest. split; [done|]. split; [done|]. split; [done|]. split.
  - clear HF Hrest. assert (forall pre, records (heap w) l = pre ++ os ++ rest ->
      no_insert os \/ exists os' i, os = os' ++ [i] /\ no_insert os' /\ type_ i = INSERT /\ rest = []) as H; [|by apply (H [])].
    clearbody os. clear E. induction os as [|o os IH]; intros pre E; [left; constructor|].
    destruct (decide (type_ o = INSERT)) as [Ho|Ho].
    + right. pose proof (insert_last w sl l pre o (os ++ rest) Hl E Ho) as En. apply app_eq_nil in En as [-> ->].
      exists [], o. split_and!; try done. constructor.
    + destruct (IH (pre ++ [o])) as [Hn|(os' & i & -> & Hn & Hi & ->)]; [by rewrite <-app_assoc|left; by constructor|].
      right. exists (o :: os'), i. split_and!; try done. by constructor.
  - intros Hne. destruct os as [|o os'] eqn:Eo; [done|]. inversion_clear HF as [|?? Ho HF']. split.
    + apply (si_alloc _ _ _ Hl o); [by rewrite E|lia].
    + apply Forall_forall. intros r Hr. destruct (decide (timestamp_ r < 2 ^ 63)) as [|Hge]; [done|]. exfalso.
      destruct rest as [|r0 rest']; [by apply elem_of_nil in Hr|]. apply (Hrest r0 eq_refl).
      pose proof (si_sorted _ _ _ Hl) as HS. rewrite E in HS.
      assert (timestamp_ o = timestamp_ r) as E1.
      { eapply (head_own w sl l); [done|by rewrite E|rewrite E; set_solver|lia]. }
      assert (newer_or_own o r0) as [E2 _].
      { apply sorted_head_all in HS. rewrite Forall_forall in HS. apply HS. set_solver. }
      assert (timestamp_ r <= timestamp_ r0) as E3.
      { apply elem_of_cons in Hr as [->|Hr]; [done|]. clear -HS Hr. cbn in HS. apply StronglySorted_inv in HS as [HS _].
        induction os' as [|o' os' IH]; cbn in HS.
        - apply sorted_head_all in HS. rewrite Forall_forall in HS. by apply HS.
        - apply StronglySorted_inv in HS as [HS _]. auto. }
      lia.
Qed.

Lemma abort_reads gc log w id w' id2 t2 :
  winv w -> op_ok (OAbort id) w -> exec gc log (OAbort id) w = Some w' ->
  running w id2 t2 -> id2 ≠ id -> running w' id2 t2 /\ reads_kept w w' (start_time_ t2) (finish_time_ t2).
Proof.
  intros Hinv [Hlt (t & Hrun)] He Hrun2 Hne. destruct (exec_abort gc log w id t Hinv Hrun Hlt) as (w2 & t' & He2 & Fe & _ & Htup).
  rewrite He2 in He. injection He as <-. split; [by eapply running_other; [|apply Fe|]|]. intros sl l l' Hl Hl'.
  rewrite (slot_chain _ _ _ _ Hl' (fe_slot _ _ _ _ _ Hinv Fe sl l Hl)), (Htup sl l Hl).
  rewrite <-(read_same _ _ _ _ _ (finish_same w id t t' w2 id2 t2 sl l Hinv Fe Hrun2 Hne Hl)).
  destruct (own_split w id t sl l Hinv Hrun Hl) as (os & rest & E & Eos & HF & Hcase & Halloc). rewrite <-Eos, E.
  destruct os as [|o os'] eqn:Eo; [done|]. rewrite <-Eo in *. destruct Halloc as [Ha _]; [by rewrite Eo|].
  destruct (running_times w id t Hinv Hrun) as (S1 & F1 & R1 & TL). destruct (running_times w id2 t2 Hinv Hrun2) as (S2 & F2 & R2 & _).
  apply read_rollback; [done| |done]. eapply Forall_impl; [exact HF|]. intros r Hr. cbn beta in Hr. lia.
Qed.

(** ** Every operation *)

Lemma step_winv gc log o w : winv w -> op_ok o w -> exists w', exec gc log o w = Some w' /\ winv w'.
Proof.
  intros Hinv Hok. pose proof Hok as [Hlt Hpre]. destruct o as [|id table slot redo undo|id table slot undo|id table redo undo|id|id| | |table layout].
  - eexists. split; [done|]. by apply begin_winv.
  - destruct Hpre as (t & Hrun & Hm & Hf & Htab & Hdt & _).
    destruct (exec_update gc log w id table slot undo t Hinv Hrun Hm Hf Htab Hdt redo) as (w' & He & _).
    exists w'. split; [done|]. by eapply update_winv.
  - destruct Hpre as (t & Hrun & Hm & Hf & Htab & Hdt).
    destruct (exec_delete gc log w id table slot undo t Hinv Hrun Hm Hf Htab Hdt) as (w' & He & _).
    exists w'. split; [done|]. by eapply delete_winv.
  - destruct Hpre as (t & Hrun & Hm & Hf & Htab & Hst & _).
    destruct (exec_insert gc log w id table undo t redo Hinv Hrun Hm Hf Htab Hst) as (w' & sl & t' & He & _ & _ & _ & H). eauto.
  - destruct Hpre as (t & Hrun & Hm). assert (exists w', exec gc log (OCommit id) w = Some w') as [w' He].
    { cbn [exec]. rewrite (proj1 Hrun). cbn. eauto. }
    exists w'. split; [done|]. by eapply commit_winv.
  - destruct Hpre as (t & Hrun). destruct (exec_abort gc log w id t Hinv Hrun Hlt) as (w' & t' & He & _).
    exists w'. split; [done|]. by eapply abort_winv.
  - eexists. split; [done|]. by apply serialize_winv.
  - destruct (exec_gc gc log w Hinv Hlt) as (oldest & w' & He & Hc). exists w'. split; [done|apply Hc].
  - destruct (block_store (mem w)) as [|b rest] eqn:Est; [by destruct Hpre as (_ & ? & _)|].
    assert (exists w', exec gc log (OCreateTable table layout) w = Some w') as [w' He].
    { cbn [exec]. unfold make_table. rewrite (NewBlock_eq table b rest (mem w) (wi_store _ Hinv) Est). cbn. eauto. }
    exists w'. split; [done|]. by eapply create_winv.
Qed.

Lemma reachable_winv gc log w : reachable gc log w -> winv w.
Proof.
  intros (w0 & H0 & Hs). apply initial_winv in H0. induction Hs as [|w1 w2 w3 (o & Hok & He) _ IH]; [done|].
  apply IH. destruct (step_winv gc log o w1 H0 Hok) as (w' & He' & ?). congruence.
Qed.

(** The transaction is still running and has the same times. *)
Lemma step_reads gc log o w w' id t :
  winv w -> op_ok o w -> exec gc log o w = Some w' -> running w id t -> actor o ≠ Some id ->
  exists t', running w' id t' /\ start_time_ t' = start_time_ t /\ finish_time_ t' = finish_time_ t /\
    reads_kept w w' (start_time_ t) (finish_time_ t).
Proof.
  intros Hinv Hok He Hrun Hact. destruct (running_times w id t Hinv Hrun) as (Est & Efi & Hr & TL).
  assert (forall P : Prop, running w' id t /\ P -> exists t', running w' id t' /\ start_time_ t' = start_time_ t /\
    finish_time_ t' = finish_time_ t /\ P) as Hsame by (intros P [? ?]; eauto).
  destruct o as [|id1 table slot redo undo|id1 table slot undo|id1 table redo undo|id1|id1| | |table layout]; cbn in Hact.
  - apply Hsame. injection He as <-. split; [|by apply reads_kept_mem]. destruct Hrun as [Ht Ha]. split; [|done].
    cbn. rewrite lookup_insert_ne; [done|]. unfold time in Hr. intros <-. lia.
  - apply Hsame. by eapply update_reads; try done; congruence.
  - apply Hsame. by eapply delete_reads; try done; congruence.
  - apply Hsame. by eapply insert_reads; try done; congruence.
  - apply Hsame. by eapply commit_reads; try done; congruence.
  - apply Hsame. by eapply abort_reads; try done; congruence.
  - apply Hsame. injection He as <-. unfold serialize. destruct (log_queue w); (split; [done|]); by apply reads_kept_mem.
  - destruct Hok as [Hlt _]. destruct (exec_gc gc log w Hinv Hlt) as (oldest & w2 & He2 & _ & Hreads & _ & _ & _ & Hf & _).
    rewrite He2 in He. injection He as <-. destruct (Hf id t Hrun) as (Ho & t' & Hrun' & Hlike). exists t'. split; [done|].
    split; [apply Hlike|]. split; [apply Hlike|]. intros sl l l' Hl Hl'. apply Hreads; try done; lia.
  - apply Hsame. cbn [exec] in He. unfold make_table in He. destruct Hok as [_ (_ & Hst & _)].
    destruct (block_store (mem w)) as [|b rest] eqn:Est2; [done|].
    rewrite (NewBlock_eq table b rest (mem w) (wi_store _ Hinv) Est2) in He. cbn in He. injection He as <-.
    split; [done|]. by apply reads_kept_mem.
Qed.

(** [Select] in a state that satisfies the invariant. *)
Lemma Select_winv w t sl l cols :
  winv w -> slot_inv w sl l -> StronglySorted Z.lt cols ->
  Select (mem w) t sl cols =
    Some (project cols <$> read (start_time_ t) (finish_time_ t) (tuple_at (mem w) sl) (records (heap w) l)).
Proof.
  intros Hinv [H1 H2 H3 H4 H5] Hs. apply Select_read; try done. apply Forall_forall. intros r Hr.
  apply list_elem_of_omap in Hr as (p & Hp & Hr). by apply (H3 p r).
Qed.

(** Any number of steps of others. *)
Definition others_step (gc log : bool) (id : Z) (w w' : world) : Prop :=
  exists o, op_ok o w /\ actor o ≠ Some id /\ exec gc log o w = Some w'.

Lemma others_reads gc log id w w' t :
  rtc (others_step gc log id) w w' -> winv w -> running w id t ->
  winv w' /\ exists t', running w' id t' /\ start_time_ t' = start_time_ t /\ finish_time_ t' = finish_time_ t /\
    reads_kept w w' (start_time_ t) (finish_time_ t).
Proof.
  intros Hs. revert t. induction Hs as [w|w1 w2 w3 (o & Hok & Hact & He) _ IH]; intros t Hinv Hrun.
  - split; [done|]. exists t. split_and!; try done. intros sl l l' Hl Hl'. by rewrite (slot_chain _ _ _ _ Hl Hl').
  - destruct (step_reads gc log o w1 w2 id t Hinv Hok He Hrun Hact) as (t2 & Hrun2 & S2 & F2 & R2).
    destruct (step_winv gc log o w1 Hinv Hok) as (w2' & He' & Hinv2). assert (w2' = w2) as -> by congruence.
    destruct (IH t2 Hinv2 Hrun2) as (Hinv3 & t3 & Hrun3 & S3 & F3 & R3). split; [done|]. exists t3.
    split; [done|]. split; [congruence|]. split; [congruence|]. rewrite S2, F2 in R3. intros sl l l3 Hl Hl3.
    destruct (wi_slot _ Hinv2 sl) as [l2 Hl2]. rewrite (R3 sl l2 l3 Hl2 Hl3). by apply R2.
Qed.

(** ** Reading one's own writes *)

(** What a refused or successful write reports. *)
Lemma Update_flag table t slot redo undo w b w' t' :
  SqlTable_Update table (StageWrite slot redo t) slot redo undo w = Some (b, w') -> must_abort_ t = false ->
  txns w' !! start_time_ t = Some t' -> must_abort_ t' = negb b.
Proof.
  unfold SqlTable_Update, Update, UndoRecordForUpdate, new_undo. intros He Hm Ht.
  destruct (HasConflict _ _ _) as [c|]; [|done]. cbn [mbind option_bind] in He.
  destruct (c || _); [|destruct (CompareAndSwapVersionPtr _ _ _ _) as [[] m2]; [|done]]; cbn in He;
    injection He as <- <-; cbn in Ht; rewrite lookup_insert_eq in Ht; by injection Ht as <-.
Qed.

Lemma Delete_flag table t slot undo w b w' t' :
  SqlTable_Delete table (StageDelete slot t) slot undo w = Some (b, w') -> must_abort_ t = false ->
  txns w' !! start_time_ t = Some t' -> must_abort_ t' = negb b.
Proof.
  unfold SqlTable_Delete, Delete, UndoRecordForDelete, new_undo. intros He Hm Ht.
  destruct (HasConflict _ _ _) as [c|]; [|done]. cbn [mbind option_bind] in He.
  destruct (c || _); [|destruct (CompareAndSwapVersionPtr _ _ _ _) as [[] m2]; [|done]]; cbn in He;
    injection He as <- <-; cbn in Ht; rewrite lookup_insert_eq in Ht; by injection Ht as <-.
Qed.

(** No newer version of the slot exists that the transaction does not own. *)
Definition write_allowed (m : memory) (t : TransactionContext) (slot : TupleSlot) : Prop :=
  (forall p r, version_ptr_ (tuple_at m slot) = Some p -> undos m !! p = Some r ->
     timestamp_ r = finish_time_ t \/ timestamp_ r <= start_time_ t) /\ Visible m slot = true.

Lemma write_allowed_head w t slot l :
  winv w -> slot_inv w slot l -> time w <= 2 ^ 63 -> start_time_ t < 2 ^ 63 ->
  write_allowed (mem w) t slot <->
  (forall r, head (records (heap w) l) = Some r ->
     timestamp_ r = finish_time_ t \/ (timestamp_ r < 2 ^ 63 /\ timestamp_ r <= start_time_ t)) /\ Visible (mem w) slot = true.
Proof.
  intros Hinv Hl Hlt Hs. unfold write_allowed. apply and_iff_compat_r. pose proof (si_chain _ _ _ Hl) as Hc. destruct l as [|p l].
  - cbn in Hc. rewrite Hc. split; intros H; [intros r Hr|intros p r Hp]; done.
  - destruct Hc as (Hp & r & Hr & _). rewrite (records_cons _ _ _ _ Hr), Hp. unfold heap in Hr. split.
    + intros H r' [= <-]. destruct (H p r eq_refl Hr); [by left|right; lia].
    + intros H p' r' [= <-] Hr'. rewrite Hr in Hr'. injection Hr' as <-. destruct (H r eq_refl) as [|[_ ?]]; auto.
Qed.

(** A transaction without a conflict at a slot reads it in place. *)
Lemma read_free w t slot l :
  winv w -> slot_inv w slot l ->
  (forall r, head (records (heap w) l) = Some r ->
     timestamp_ r = finish_time_ t \/ (timestamp_ r < 2 ^ 63 /\ timestamp_ r <= start_time_ t)) ->
  read (start_time_ t) (finish_time_ t) (tuple_at (mem w) slot) (records (heap w) l) =
    if Visible (mem w) slot then Some (attrs_ (tuple_at (mem w) slot)) else None.
Proof.
  intros Hinv Hl Hfree. change (Visible (mem w) slot) with ((in_place (tuple_at (mem w) slot)).1).
  destruct (records (heap w) l) as [|r rs] eqn:E; [apply read_newest; constructor|].
  destruct (Hfree r eq_refl) as [Hr|[_ Hr]]; [by rewrite read_own|]. apply read_newest. constructor; [done|].
  pose proof (si_sorted _ _ _ Hl) as HS. rewrite E in HS. apply sorted_head_all in HS.
  eapply Forall_impl; [exact HS|]. intros r' [H _]. lia.
Qed.

Lemma read_allowed w t slot l :
  winv w -> slot_inv w slot l -> 
  (forall r, head (records (heap w) l) = Some r ->
     timestamp_ r = finish_time_ t \/ (timestamp_ r < 2 ^ 63 /\ timestamp_ r <= start_time_ t)) ->
  Visible (mem w) slot = true ->
  read (start_time_ t) (finish_time_ t) (tuple_at (mem w) slot) (records (heap w) l) = Some (attrs_ (tuple_at (mem w) slot)).
Proof. intros Hinv Hl Hfree Hvis. by rewrite read_free, Hvis. Qed.

(** ** Readers that start now *)

(** The context [BeginTransaction] makes. *)
Definition fresh_txn (w : world) : TransactionContext := new_txn (time w) (time w + 2 ^ 63).

Lemma begin_fresh w : winv w ->
  running (BeginTransaction w).2 (time w) (fresh_txn w) /\ mem (BeginTransaction w).2 = mem w.
Proof.
  intros Hinv. pose proof (wi_ts _ Hinv) as (Hr & _). split; [|done].
  split; [|unfold active, fresh_txn, time; cbn [new_txn finish_time_]; lia].
  cbn. unfold INT64_MIN_bits, fresh_txn, time.
  rewrite wrapu_small by (unfold is_uint; change (2 ^ 64) with (2 ^ 63 + 2 ^ 63); lia). by rewrite lookup_insert_eq.
Qed.

(** Timestamps in a chain are of the past or of running transactions. *)
Lemma chain_times w sl l p r :
  winv w -> slot_inv w sl l -> p ∈ l -> heap w !! p = Some r ->
  timestamp_ r < time w \/ (2 ^ 63 <= timestamp_ r < time w + 2 ^ 63).
Proof.
  intros Hinv Hl Hp Hr. destruct (chain_record_txn w sl l p r Hinv Hl Hp Hr) as (i & s & Hi & _ & -> & _).
  pose proof (wi_txn _ Hinv _ _ Hi) as T. destruct (ti_start _ _ _ T). destruct (decide (2 ^ 63 <= finish_time_ s)) as [Ha|Ha].
  - right. destruct (ti_active _ _ _ T Ha) as (-> & _). lia.
  - left. by apply (ti_finished _ _ _ T).
Qed.

(** Readers that start after everything committed so far read alike. *)
Lemma read_fresh w sl l s f :
  winv w -> slot_inv w sl l -> time w <= s < 2 ^ 63 -> time w + 2 ^ 63 <= f ->
  read s f (tuple_at (mem w) sl) (records (heap w) l) =
  read (time w) (time w + 2 ^ 63) (tuple_at (mem w) sl) (records (heap w) l).
Proof.
  intros Hinv Hl Hs Hf. unfold read, read_view.
  assert (forall r, r ∈ records (heap w) l -> timestamp_ r < time w \/ (2 ^ 63 <= timestamp_ r < time w + 2 ^ 63)) as HT.
  { intros r Hr. apply list_elem_of_omap in Hr as (p & Hp & Hr). by eapply chain_times. }
  assert (forall rs v, (forall r, r ∈ rs -> timestamp_ r < time w \/ (2 ^ 63 <= timestamp_ r < time w + 2 ^ 63)) ->
    reconstruct s rs v = reconstruct (time w) rs v) as Hrec.
  { induction rs as [|r rs IH]; intros v Hrs; [done|]. cbn [reconstruct].
    assert (NewerThan (timestamp_ r) s = NewerThan (timestamp_ r) (time w)) as ->.
    { apply bool_decide_ext. destruct (Hrs r); [by left|lia|lia]. }
    rewrite IH; [done|]. intros r' Hr'. apply Hrs. by right. }
  rewrite Hrec by done. destruct (records (heap w) l) as [|r rs]; [done|].
  destruct (HT r) as [H|H]; [by left| |]; rewrite !decide_False by lia; done.
Qed.

(** A reader that starts before an abort and one that reads the rolled back tuple. *)
Lemma read_rolled_back start finish t os rest :
  allocated_ t = true -> os ≠ [] -> Forall (fun r => start < timestamp_ r /\ timestamp_ r ≠ finish) os ->
  (no_insert os \/ exists os' i, os = os' ++ [i] /\ no_insert os' /\ type_ i = INSERT /\ rest = []) ->
  Forall (fun r => timestamp_ r <= start) rest ->
  read start finish t (os ++ rest) =
    if (in_place (rollback_records os t)).1 then Some (attrs_ (rollback_records os t)) else None.
Proof.
  intros Ha Hne HF Hcase Hrest. rewrite <-(read_rollback start finish t os rest) by done.
  destruct Hcase as [Hni|(os' & i & -> & Hni & Hi & ->)].
  - destruct (rollback_no_insert os t Hni Ha) as (Ha' & Hip & _). set (t' := rollback_records os t) in *.
    unfold read. rewrite read_view_app, Hip, undo_all_idemp, <-Hip by done.
    destruct Hrest as [|r rest Hr _]; [done|]. cbn [reconstruct]. by rewrite (proj2 (NewerThan_false _ _) Hr).
  - unfold read, read_view. assert (allocated_ (rollback_records (os' ++ [i]) t) = false) as E.
    { unfold rollback_records. rewrite foldl_app. cbn. unfold rollback_record at 1. by rewrite Hi. }
    unfold in_place. by rewrite E.
Qed.

(** After a finish, a later reader sees in place what the transaction left. *)
Lemma finished_in_place w id t t' w' sl p l :
  winv w -> finish_effect w id t t' w' -> slot_inv w sl (p :: l) -> p ∈ undo_buffer_ t ->
  read (time w') (time w' + 2 ^ 63) (tuple_at (mem w') sl) (records (heap w') (p :: l)) =
  if (in_place (tuple_at (mem w') sl)).1 then Some (attrs_ (tuple_at (mem w') sl)) else None.
Proof.
  intros Hinv Fe Hl Hp. pose proof (finish_winv w id t t' w' Hinv Fe) as Hinv'.
  pose proof (fe_slot w id t t' w' Hinv Fe sl (p :: l) Hl) as Hl'. pose proof (fe_time_lt w Hinv) as TL.
  pose proof (fe_time _ _ _ _ _ Fe) as Et. apply read_newest. pose proof (si_sorted _ _ _ Hl') as HS.
  destruct (si_chain _ _ _ Hl) as (_ & r & Hr & _).
  assert (heap w' !! p = Some (restamp (time w) (undo_buffer_ t) p r)) as Hr' by (apply (fe_lookup w id t t' w' Fe); eauto).
  rewrite (records_cons _ _ _ _ Hr') in HS |- *.
  assert (timestamp_ (restamp (time w) (undo_buffer_ t) p r) = time w) as Ets.
  { unfold restamp. by rewrite decide_True. }
  constructor; [lia|]. apply sorted_head_all in HS. eapply Forall_impl; [exact HS|]. intros r2 [H _]. lia.
Qed.

(** ** Runs *)

(** The calling conventions, decided. *)
Definition clean_txnb (w : world) (id : Z) : bool :=
  match txns w !! id with
  | Some t => bool_decide (2 ^ 63 <= finish_time_ t) && negb (must_abort_ t)
  | None => false
  end.

Definition op_okb (o : op) (w : world) : bool :=
  bool_decide (TimestampManager.time_ (tm w) + 2 < 2 ^ 63) &&
  match o with
  | OUpdate id table slot redo undo =>
    clean_txnb w id && bool_decide (undos (mem w) !! undo = None) && bool_decide (is_Some (tables w !! table)) &&
    bool_decide (data_tables (mem w) !! TupleSlot.GetBlock slot = Some table) &&
    bool_decide (StronglySorted Z.lt (redo.*1)) && bool_decide (redo ≠ []) && bool_decide (VERSION_POINTER_COLUMN_ID ∉ redo.*1)
  | ODelete id table slot undo =>
    clean_txnb w id && bool_decide (undos (mem w) !! undo = None) && bool_decide (is_Some (tables w !! table)) &&
    bool_decide (data_tables (mem w) !! TupleSlot.GetBlock slot = Some table)
  | OInsert id table redo undo =>
    clean_txnb w id && bool_decide (undos (mem w) !! undo = None) && bool_decide (takes_row w table redo) &&
    bool_decide (block_store (mem w) ≠ []) &&
    bool_decide (StronglySorted Z.lt (redo.*1)) && bool_decide (VERSION_POINTER_COLUMN_ID ∉ redo.*1)
  | OCommit id => clean_txnb w id
  | OAbort id => match txns w !! id with Some t => bool_decide (2 ^ 63 <= finish_time_ t) | None => false end
  | OCreateTable table layout =>
    bool_decide (tables w !! table = None) && bool_decide (block_store (mem w) ≠ []) &&
    bool_decide (0 < BlockLayout.num_slots_ layout < 2 ^ 20)
  | _ => true
  end.

Lemma op_okb_sound o w : op_okb o w = true -> op_ok o w.
Proof.
  unfold op_okb, op_ok, clean_txnb, running, active. intros [H1 H2]%andb_prop. split; [by apply bool_decide_eq_true in H1|].
  destruct o; try done; repeat (apply andb_prop in H2 as [H2 ?]); try (destruct (txns w !! _) as [t|]; [|done]; exists t);
    repeat match goal with
    | H : bool_decide _ = true |- _ => apply bool_decide_eq_true in H
    | H : _ && _ = true |- _ => apply andb_prop in H as [? ?]
    | H : negb _ = true |- _ => apply negb_true_iff in H
    end; tauto.
Qed.

Fixpoint run (gc log : bool) (os : list op) (w : world) : option world :=
  match os with
  | [] => Some w
  | o :: os => if op_okb o w then exec gc log o w ≫= run gc log os else None
  end.

Lemma run_steps gc log os w w' : run gc log os w = Some w' -> rtc (step gc log) w w'.
Proof.
  revert w. induction os as [|o os IH]; intros w; cbn; [by intros [= ->]|]. destruct (op_okb o w) eqn:E; [|done].
  destruct (exec gc log o w) as [w2|] eqn:E2; [|done]. intros H. eapply rtc_l; [|by apply IH]. exists o.
  split; [by apply op_okb_sound|done].
Qed.

Lemma run_reachable gc log store os w :
  NoDup store -> Forall aligned store -> run gc log os (init_world store) = Some w -> reachable gc log w.
Proof. intros Hn Ha H. exists (init_world store). split; [by exists store|]. by eapply run_steps. Qed.

Lemma run_others gc log id os w w' :
  run gc log os w = Some w' -> Forall (fun o => actor o ≠ Some id) os -> rtc (others_step gc log id) w w'.
Proof.
  intros H HF. revert w H. induction HF as [|o os Ho _ IH]; intros w; cbn; [by intros [= ->]|]. destruct (op_okb o w) eqn:E; [|done].
  destruct (exec gc log o w) as [w2|] eqn:E2; [|done]. intros H. eapply rtc_l; [|by apply IH]. exists o.
  split; [by apply op_okb_sound|done].
Qed.

(** A run with one committed tuple and two running transactions, 2 and 3. *)
Definition demo_store : list Z := [BLOCK_SIZE; 2 * BLOCK_SIZE; 3 * BLOCK_SIZE].
Definition demo_row (b : Z) : row := [(1, Some [b; 0; 0; 0; 0; 0; 0; 0])].
Definition demo_slot : TupleSlot := TupleSlot.make BLOCK_SIZE 0.
Definition demo_ops : list op :=
  [OCreateTable 1 (BlockLayout.make [8; 8]); OBegin; OInsert 0 1 (demo_row 1) 100; OCommit 0; OBegin; OBegin].
Definition after (os : list op) (w : world) : world := default w (run true false os w).
Definition demo : world := after demo_ops (init_world demo_store).
Definition txn_of (w : world) (id : Z) : TransactionContext := default (new_txn 0 0) (txns w !! id).

Lemma demo_store_ok : NoDup demo_store /\ Forall aligned demo_store.
Proof.
  split; [apply (bool_decide_unpack _); vm_compute; exact I|].
  repeat constructor; unfold is_uint; vm_compute; try reflexivity; discriminate.
Qed.

Lemma after_run os w : is_Some (run true false os w) -> run true false os w = Some (after os w).
Proof. unfold after. by intros [w' ->]. Qed.

Lemma demo_reachable : reachable true false demo.
Proof.
  apply (run_reachable true false demo_store demo_ops); [apply demo_store_ok..|].
  apply after_run. vm_compute. by eexists.
Qed.

Lemma after_reachable os : is_Some (run true false os demo) -> reachable true false (after os demo).
Proof.
  intros H%after_run%run_steps. destruct demo_reachable as (w0 & H0 & Hs). exists w0. split; [done|]. by etrans.
Qed.

Lemma txn_running w id :
  match txns w !! id with Some t => bool_decide (2 ^ 63 <= finish_time_ t) | None => false end = true ->
  running w id (txn_of w id).
Proof.
  unfold txn_of, running, active. destruct (txns w !! id) as [t|]; [|done]. intros H%bool_decide_eq_true. done.
Qed.

(** ** Theorems *)

(** C7: in every reachable state each operation its caller may perform runs to
    completion: no undo record is read after it was freed, no null version pointer
    or table is dereferenced, and the fuel of every loop over a version chain
    suffices; so does every read, at any slot and for any sorted list of columns. *)
Theorem reachable_progress (gc log : bool) (w : world) :
  reachable gc log w ->
  (forall o, op_ok o w -> exists w', exec gc log o w = Some w' /\ reachable gc log w') /\
  (forall id t sl cols, running w id t -> StronglySorted Z.lt cols -> exists r, Select (mem w) t sl cols = Some r).
Proof.
  intros Hr. pose proof (reachable_winv gc log w Hr) as Hinv. split.
  - intros o Hok. destruct (step_winv gc log o w Hinv Hok) as (w' & He & _). exists w'. split; [done|].
    destruct Hr as (w0 & H0 & Hs). exists w0. split; [done|]. eapply rtc_r; [done|]. by exists o.
  - intros id t sl cols _ Hs. destruct (wi_slot _ Hinv sl) as [l Hl]. rewrite (Select_winv w t sl l cols Hinv Hl Hs). eauto.
Qed.

Lemma reachable_progress_witness :
  exists w', exec true false (OUpdate 2 1 demo_slot (demo_row 7) 101) demo = Some w' /\ reachable true false w'.
Proof.
  apply (proj1 (reachable_progress true false demo demo_reachable)). apply op_okb_sound. vm_compute. reflexivity.
Defined.

(** C2: snapshot reads.  While a transaction runs, whatever other transactions, the
    garbage collector and the log do, in any number of steps, every tuple it selects
    has the same value, or is equally invisible. *)
Theorem snapshot_stable (gc log : bool) (w w' : world) (id : Z) (t : TransactionContext) :
  reachable gc log w -> running w id t -> rtc (others_step gc log id) w w' ->
  exists t', running w' id t' /\
    forall sl cols, StronglySorted Z.lt cols -> Select (mem w') t' sl cols = Select (mem w) t sl cols.
Proof.
  intros Hr Hrun Hs. pose proof (reachable_winv gc log w Hr) as Hinv.
  destruct (others_reads gc log id w w' t Hs Hinv Hrun) as (Hinv' & t' & Hrun' & S' & F' & R'). exists t'. split; [done|].
  intros sl cols Hcols. destruct (wi_slot _ Hinv sl) as [l Hl]. destruct (wi_slot _ Hinv' sl) as [l' Hl'].
  rewrite (Select_winv w t sl l cols Hinv Hl Hcols), (Select_winv w' t' sl l' cols Hinv' Hl' Hcols), S', F'.
  by rewrite (R' sl l l' Hl Hl').
Qed.

Lemma snapshot_stable_witness :
  let w' := after [OUpdate 3 1 demo_slot (demo_row 9) 101; OCommit 3; OGC] demo in
  exists t', running w' 2 t' /\ Select (mem w') t' demo_slot [1] = Some (Some (demo_row 1)).
Proof.
  cbv zeta. destruct (snapshot_stable true false demo (after [OUpdate 3 1 demo_slot (demo_row 9) 101; OCommit 3; OGC] demo)
    2 (txn_of demo 2)) as (t' & Hrun & Hsel).
  - apply demo_reachable.
  - apply txn_running. vm_compute. reflexivity.
  - eapply run_others; [apply after_run; vm_compute; by eexists|]. repeat constructor; discriminate.
  - exists t'. split; [exact Hrun|]. rewrite Hsel; [vm_compute; reflexivity|]. repeat constructor.
Defined.

(** C4: [SqlTable::Update] succeeds exactly when the tuple is visible in place and its
    newest version is the transaction's own or was committed before it started
    (first updater wins).  If it succeeds, the transaction then selects the old
    values with the columns of the redo overwritten; if it fails, no tuple has
    changed and the transaction must abort. *)
Theorem Update_outcome (gc log : bool) (w : world) (id table : Z) (slot : TupleSlot) (redo : row) (undo : Z)
    (t : TransactionContext) :
  reachable gc log w -> op_ok (OUpdate id table slot redo undo) w -> running w id t ->
  exists b w' t', SqlTable_Update table (StageWrite slot redo t) slot redo undo w = Some (b, w') /\ running w' id t' /\
    (b = true <-> write_allowed (mem w) t slot) /\
    (b = true -> must_abort_ t' = false /\ forall cols, StronglySorted Z.lt cols -> exists old,
       Select (mem w) t slot cols = Some (Some (project cols old)) /\
       Select (mem w') t' slot cols = Some (Some (project cols (write_row redo old)))) /\
    (b = false -> must_abort_ t' = true /\ tuples (mem w') = tuples (mem w)).
Proof.
  intros Hr Hok Hrun. pose proof (reachable_winv gc log w Hr) as Hinv. pose proof (running_times w id t Hinv Hrun) as (Est & _ & R1 & TL).
  destruct (step_winv gc log _ w Hinv Hok) as (w' & He & Hinv'). pose proof Hok as [_ (t0 & Hrun0 & Hm & Hf & Htab & Hdt & _)].
  assert (t0 = t) as -> by (destruct Hrun, Hrun0; congruence).
  destruct (exec_update gc log w id table slot undo t Hinv Hrun Hm Hf Htab Hdt redo) as (w2 & He2 & l & Hl & Hout).
  rewrite He2 in He. injection He as ->. cbn [exec] in He2. rewrite (proj1 Hrun) in He2. cbn [mbind option_bind] in He2.
  apply fmap_Some in He2 as ([b w2] & He2 & ->). cbn [snd] in *.
  pose proof (write_allowed_head w t slot l Hinv Hl ltac:(lia) ltac:(lia)) as Hwa.
  destruct Hout as [(Hfree & Hvis & t' & We & Hm' & Hmem & _)|(Hnot & u' & t' & We & _ & Hm' & Hmem & _)].
  all: assert (running w2 id t') as Hrun' by (split; [by rewrite (we_txns _ _ _ _ _ _ _ _ _ We), lookup_insert_eq|
    unfold active; rewrite (we_finish _ _ _ _ _ _ _ _ _ We); apply Hrun]).
  all: assert (must_abort_ t' = negb b) as Eb by (eapply Update_flag; [exact He2|done|rewrite Est; apply Hrun']).
  all: exists b, w2, t'; split; [done|]; split; [done|]; rewrite Hwa; rewrite Hm' in Eb; destruct b; try done.
  - split; [done|]. split; [|done]. intros _. split; [done|]. intros cols Hcols. exists (attrs_ (tuple_at (mem w) slot)).
    rewrite (Select_winv w t slot l cols Hinv Hl Hcols), (read_allowed w t slot l Hinv Hl Hfree Hvis). split; [done|].
    destruct (wi_slot _ Hinv' slot) as [l' Hl']. rewrite (Select_winv w2 t' slot l' cols Hinv' Hl' Hcols).
    rewrite (write_head _ _ _ _ _ _ _ _ _ We l l' Hl Hl' eq_refl eq_refl), (we_tuple _ _ _ _ _ _ _ _ _ We), decide_True by done.
    rewrite read_own by (cbn; by rewrite (we_finish _ _ _ _ _ _ _ _ _ We)).
    apply andb_prop in Hvis as [H1 H2]. unfold in_place. cbn [update_tuple allocated_ present_ attrs_ fst]. by rewrite H1, H2.
  - split; [done|]. split; [done|]. intros _. split; [done|]. by rewrite Hmem.
Qed.

Lemma Update_outcome_witness :
  exists w' t', SqlTable_Update 1 (StageWrite demo_slot (demo_row 7) (txn_of demo 2)) demo_slot (demo_row 7) 101 demo = Some (true, w') /\
    running w' 2 t' /\ Select (mem w') t' demo_slot [1] = Some (Some (demo_row 7)).
Proof.
  destruct (Update_outcome true false demo 2 1 demo_slot (demo_row 7) 101 (txn_of demo 2)) as (b & w' & t' & E & Hrun & Hiff & Hsucc & _).
  - apply demo_reachable.
  - apply op_okb_sound. vm_compute. reflexivity.
  - apply txn_running. vm_compute. reflexivity.
  - assert (b = true) as ->.
    { assert (fst <$> SqlTable_Update 1 (StageWrite demo_slot (demo_row 7) (txn_of demo 2)) demo_slot (demo_row 7) 101 demo = Some true) as E'
        by (vm_compute; reflexivity). rewrite E in E'. by injection E'. }
    exists w', t'. split; [exact E|]. split; [exact Hrun|]. destruct (Hsucc eq_refl) as [_ Hsel].
    destruct (Hsel [1]) as (old & H1 & H2); [repeat constructor|]. rewrite H2. unfold project. cbn. by rewrite lookup_partial_alter_eq.
Defined.

(** [SqlTable::Delete] succeeds under the same condition; then the transaction no
    longer sees the tuple.  If it fails, no tuple has changed and the transaction
    must abort. *)
Theorem Delete_outcome (gc log : bool) (w : world) (id table : Z) (slot : TupleSlot) (undo : Z) (t : TransactionContext) :
  reachable gc log w -> op_ok (ODelete id table slot undo) w -> running w id t ->
  exists b w' t', SqlTable_Delete table (StageDelete slot t) slot undo w = Some (b, w') /\ running w' id t' /\
    (b = true <-> write_allowed (mem w) t slot) /\
    (b = true -> must_abort_ t' = false /\ forall cols, StronglySorted Z.lt cols ->
       Select (mem w) t slot cols ≠ Some None /\ Select (mem w') t' slot cols = Some None) /\
    (b = false -> must_abort_ t' = true /\ tuples (mem w') = tuples (mem w)).
Proof.
  intros Hr Hok Hrun. pose proof (reachable_winv gc log w Hr) as Hinv. pose proof (running_times w id t Hinv Hrun) as (Est & _ & R1 & TL).
  destruct (step_winv gc log _ w Hinv Hok) as (w' & He & Hinv'). pose proof Hok as [_ (t0 & Hrun0 & Hm & Hf & Htab & Hdt)].
  assert (t0 = t) as -> by (destruct Hrun, Hrun0; congruence).
  destruct (exec_delete gc log w id table slot undo t Hinv Hrun Hm Hf Htab Hdt) as (w2 & He2 & l & Hl & Hout).
  rewrite He2 in He. injection He as ->. cbn [exec] in He2. rewrite (proj1 Hrun) in He2. cbn [mbind option_bind] in He2.
  apply fmap_Some in He2 as ([b w2] & He2 & ->). cbn [snd] in *.
  pose proof (write_allowed_head w t slot l Hinv Hl ltac:(lia) ltac:(lia)) as Hwa.
  destruct Hout as [(Hfree & Hvis & t' & We & Hm' & Hmem & _)|(Hnot & u' & t' & We & _ & Hm' & Hmem & _)].
  all: assert (running w2 id t') as Hrun' by (split; [by rewrite (we_txns _ _ _ _ _ _ _ _ _ We), lookup_insert_eq|
    unfold active; rewrite (we_finish _ _ _ _ _ _ _ _ _ We); apply Hrun]).
  all: assert (must_abort_ t' = negb b) as Eb by (eapply Delete_flag; [exact He2|done|rewrite Est; apply Hrun']).
  all: exists b, w2, t'; split; [done|]; split; [done|]; rewrite Hwa; rewrite Hm' in Eb; destruct b; try done.
  - split; [done|]. split; [|done]. intros _. split; [done|]. intros cols Hcols.
    rewrite (Select_winv w t slot l cols Hinv Hl Hcols), (read_allowed w t slot l Hinv Hl Hfree Hvis). split; [done|].
    destruct (wi_slot _ Hinv' slot) as [l' Hl']. rewrite (Select_winv w2 t' slot l' cols Hinv' Hl' Hcols).
    rewrite (write_head _ _ _ _ _ _ _ _ _ We l l' Hl Hl' eq_refl eq_refl), (we_tuple _ _ _ _ _ _ _ _ _ We), decide_True by done.
    rewrite read_own by (cbn; by rewrite (we_finish _ _ _ _ _ _ _ _ _ We)).
    unfold in_place. cbn [delete_tuple allocated_ present_ attrs_ fst]. by rewrite andb_false_r.
  - split; [done|]. split; [done|]. intros _. split; [done|]. by rewrite Hmem.
Qed.

Lemma Delete_outcome_witness :
  exists b w' t', SqlTable_Delete 1 (StageDelete demo_slot (txn_of demo 2)) demo_slot 101 demo = Some (b, w') /\
    running w' 2 t' /\ (b = true -> Select (mem w') t' demo_slot [1] = Some None).
Proof.
  destruct (Delete_outcome true false demo 2 1 demo_slot 101 (txn_of demo 2)) as (b & w' & t' & E & Hrun & _ & Hsucc & _).
  - apply demo_reachable.
  - apply op_okb_sound. vm_compute. reflexivity.
  - apply txn_running. vm_compute. reflexivity.
  - exists b, w', t'. split; [exact E|]. split; [exact Hrun|]. intros Hb. apply (Hsucc Hb). repeat constructor.
Defined.

(** C24: [SqlTable::Insert] of a row with all columns of the table returns a slot no
    transaction could see; from then on the transaction selects, in the slot it returned,
    exactly the inserted row, and for some of the columns exactly their values. *)
Theorem Insert_outcome (gc log : bool) (w : world) (id table : Z) (redo : row) (undo : Z) (t : TransactionContext) :
  reachable gc log w -> op_ok (OInsert id table redo undo) w -> running w id t ->
  exists slot w' t', SqlTable_Insert table t redo undo w = Some (slot, w') /\ exec gc log (OInsert id table redo undo) w = Some w' /\
    running w' id t' /\ undo_buffer_ t' = undo_buffer_ t ++ [undo] /\ slot_ <$> undos (mem w') !! undo = Some slot /\
    data_tables (mem w') !! TupleSlot.GetBlock slot = Some table /\
    (forall id2 t2 cols, running w id2 t2 -> StronglySorted Z.lt cols -> Select (mem w) t2 slot cols = Some None) /\
    Select (mem w') t' slot (redo.*1) = Some (Some redo) /\
    forall cols, StronglySorted Z.lt cols -> cols ⊆ redo.*1 -> Select (mem w') t' slot cols = Some (Some (filter (fun p => p.1 ∈ cols) redo)).
Proof.
  intros Hr Hok Hrun. pose proof (reachable_winv gc log w Hr) as Hinv. pose proof Hok as [_ (t0 & Hrun0 & Hm & Hf & Htab & Hst & Hsort & _)].
  assert (t0 = t) as -> by (destruct Hrun, Hrun0; congruence).
  destruct (insert_runs w id table undo t redo Hinv Hrun Hm Hf Htab Hst) as (w' & slot & t' & He & Hnone & We & Hm' & Hinv' & Hdt & _).
  exists slot, w', t'. split; [done|]. split; [cbn [exec]; rewrite (proj1 Hrun); cbn [mbind option_bind]; by rewrite He|].
  assert (tuple_at (mem w) slot = pristine) as Etp by (unfold tuple_at; by rewrite Hnone).
  split; [split; [by rewrite (we_txns _ _ _ _ _ _ _ _ _ We), lookup_insert_eq|
    unfold active; rewrite (we_finish _ _ _ _ _ _ _ _ _ We); apply Hrun]|].
  split; [apply We|]. split; [fold (heap w'); rewrite (we_heap _ _ _ _ _ _ _ _ _ We), lookup_insert_eq; done|]. split; [done|].
  destruct (wi_slot _ Hinv slot) as [l Hl]. destruct (wi_slot _ Hinv' slot) as [l' Hl'].
  assert (forall cols, StronglySorted Z.lt cols -> Select (mem w') t' slot cols = Some (Some (project cols (write_row redo ∅)))) as Hsel.
  { intros cols Hcols. rewrite (Select_winv w' t' slot l' cols Hinv' Hl' Hcols).
    rewrite (write_head _ _ _ _ _ _ _ _ _ We l l' Hl Hl') by (done || by rewrite Etp).
    rewrite (we_tuple _ _ _ _ _ _ _ _ _ We), decide_True by done.
    by rewrite read_own by (cbn; by rewrite (we_finish _ _ _ _ _ _ _ _ _ We)). }
  split; [intros id2 t2 cols _ Hcols; by rewrite (Select_winv w t2 slot l cols Hinv Hl Hcols), Etp|].
  split; [by rewrite Hsel, project_row|]. intros cols Hcols Hsub. by rewrite Hsel, project_part.
Qed.

Lemma Insert_outcome_witness :
  exists slot w' t', SqlTable_Insert 1 (txn_of demo 2) (demo_row 5) 101 demo = Some (slot, w') /\ running w' 2 t' /\
    Select (mem w') t' slot [1] = Some (Some (demo_row 5)).
Proof.
  destruct (Insert_outcome true false demo 2 1 (demo_row 5) 101 (txn_of demo 2)) as (slot & w' & t' & E & _ & Hrun & _ & _ & _ & _ & Hsel & _).
  - apply demo_reachable.
  - apply op_okb_sound. vm_compute. reflexivity.
  - apply txn_running. vm_compute. reflexivity.
  - exists slot, w', t'. split; [exact E|]. split; [exact Hrun|exact Hsel].
Defined.

(** C5: commit publishes.  A transaction that begins after the commit selects, in every
    slot the committed transaction wrote, what that transaction selected there. *)
Theorem commit_publishes (gc log : bool) (w : world) (id : Z) (t : TransactionContext) :
  reachable gc log w -> op_ok (OCommit id) w -> running w id t ->
  let w' := (Commit gc log t w).2 in
  running (BeginTransaction w').2 (time w') (fresh_txn w') /\
  forall sl cols, installed_at (undos (mem w)) (undo_buffer_ t) sl -> StronglySorted Z.lt cols ->
    Select (mem (BeginTransaction w').2) (fresh_txn w') sl cols = Select (mem w) t sl cols.
Proof.
  intros Hr Hok Hrun w'. pose proof (reachable_winv gc log w Hr) as Hinv. pose proof Hok as [Hlt (t0 & Hrun0 & Hm)].
  assert (t0 = t) as -> by (destruct Hrun, Hrun0; congruence).
  pose proof (commit_effect gc log w id t Hinv Hrun Hm Hlt) as Fe. fold w' in Fe.
  pose proof (finish_winv _ _ _ _ _ Hinv Fe) as Hinv'. pose proof (wi_ts _ Hinv') as (Hb & _).
  split; [by apply begin_fresh|]. intros sl cols Hin Hcols. change (mem (BeginTransaction w').2) with (mem w').
  destruct (wi_slot _ Hinv sl) as [l Hl]. pose proof (fe_slot _ _ _ _ _ Hinv Fe sl l Hl) as Hl'.
  rewrite (Select_winv w' _ sl l cols Hinv' Hl' Hcols), (Select_winv w t sl l cols Hinv Hl Hcols).
  apply (own_head w id t sl l Hinv Hrun Hl) in Hin as (p & l2 & -> & Hp). cbn [fresh_txn start_time_ finish_time_ new_txn].
  rewrite (finished_in_place w id t _ w' sl p l2 Hinv Fe Hl Hp).
  destruct (si_chain _ _ _ Hl) as (_ & r & Hr0 & _). rewrite (records_cons _ _ _ _ Hr0), read_own.
  - destruct (fe_tuple _ _ _ _ _ Fe sl) as [->|[Hab _]]; [done|]. cbn in Hab.
    destruct (ti_active _ _ _ (wi_txn _ Hinv _ _ (proj1 Hrun)) (proj2 Hrun)) as (_ & E & _). congruence.
  - eapply (own_record w id t sl (p :: l2) p r); try done. by left.
Qed.

Lemma commit_publishes_witness :
  let w := after [OUpdate 2 1 demo_slot (demo_row 7) 101] demo in
  let w' := (Commit true false (txn_of w 2) w).2 in
  Select (mem (BeginTransaction w').2) (fresh_txn w') demo_slot [1] = Some (Some (demo_row 7)).
Proof.
  cbv zeta. set (w := after _ demo).
  rewrite (proj2 (commit_publishes true false w 2 (txn_of w 2)
    ltac:(apply after_reachable; vm_compute; by eexists)
    ltac:(apply op_okb_sound; vm_compute; reflexivity)
    ltac:(apply txn_running; vm_compute; reflexivity))).
  - vm_compute. reflexivity.
  - exists 101. eexists. split; [apply (bool_decide_unpack _); vm_compute; exact I|]. split; [vm_compute; reflexivity|].
    split; [discriminate|reflexivity].
  - repeat constructor.
Defined.

(** C6: abort leaves no trace.  A transaction that begins after the abort selects the
    same in every slot as one that would have begun before it. *)
Theorem abort_traceless (gc log : bool) (w : world) (id : Z) (t : TransactionContext) :
  reachable gc log w -> op_ok (OAbort id) w -> running w id t ->
  exists w', exec gc log (OAbort id) w = Some w' /\
    forall sl cols, StronglySorted Z.lt cols ->
      Select (mem w') (fresh_txn w') sl cols = Select (mem w) (fresh_txn w) sl cols.
Proof.
  intros Hr [Hlt _] Hrun. pose proof (reachable_winv gc log w Hr) as Hinv.
  destruct (exec_abort gc log w id t Hinv Hrun Hlt) as (w' & t' & He & Fe & _ & Htup). exists w'. split; [done|].
  intros sl cols Hcols. destruct (wi_slot _ Hinv sl) as [l Hl]. pose proof (finish_winv _ _ _ _ _ Hinv Fe) as Hinv'.
  pose proof (fe_slot _ _ _ _ _ Hinv Fe sl l Hl) as Hl'. pose proof (fe_time _ _ _ _ _ Fe) as Et.
  rewrite (Select_winv w' _ sl l cols Hinv' Hl' Hcols), (Select_winv w _ sl l cols Hinv Hl Hcols).
  cbn [fresh_txn start_time_ finish_time_ new_txn]. do 2 f_equal.
  destruct (own_split w id t sl l Hinv Hrun Hl) as (os & rest & E & Eos & HF & Hcase & Halloc).
  pose proof (Htup sl l Hl) as Etup. rewrite <-Eos in Etup.
  destruct (running_times w id t Hinv Hrun) as (S1 & F1 & R1 & TL).
  destruct os as [|o os'] eqn:Eo.
  - rewrite Etup. cbn [rollback_records foldl].
    assert (records (heap w') l = records (heap w) l) as ->; [|apply (read_fresh w sl l (time w') (time w' + 2 ^ 63) Hinv Hl); unfold time in *; lia].
    rewrite (fe_heap _ _ _ _ _ Fe). apply records_same. intros p Hp. rewrite store_timestamps_lookup, decide_False; [done|].
    by apply (own_prefix_nil w id t sl l).
  - rewrite <-Eo in *. assert (os ≠ []) as Hne by by rewrite Eo. destruct (Halloc Hne) as [Ha Hrest].
    assert (exists p l2, l = p :: l2 /\ p ∈ undo_buffer_ t) as (p & l2 & -> & Hp).
    { destruct l as [|p l2]; [by rewrite Eo in E|]. destruct (si_chain _ _ _ Hl) as (_ & r & Hpr & _). exists p, l2. split; [done|].
      eapply (own_record w id t sl (p :: l2) p r); try done; [by left|]. rewrite (records_cons _ _ _ _ Hpr), Eo in E. cbn in E.
      injection E as -> _. rewrite Eo in HF. by inversion_clear HF. }
    rewrite (finished_in_place w id t t' w' sl p l2 Hinv Fe Hl Hp), Etup, E. symmetry. apply read_rolled_back; try done.
    + eapply Forall_impl; [exact HF|]. intros r Hrr. cbn beta in Hrr. lia.
    + rewrite Forall_forall in Hrest |- *. intros r Hrr. specialize (Hrest r Hrr).
      assert (r ∈ records (heap w) (p :: l2)) as Hin by (rewrite E; set_solver).
      apply list_elem_of_omap in Hin as (q & Hq & Hqr). destruct (chain_times w sl (p :: l2) q r Hinv Hl Hq Hqr); lia.
Qed.

Lemma abort_traceless_witness :
  let w := after [OUpdate 2 1 demo_slot (demo_row 7) 101] demo in
  exists w', exec true false (OAbort 2) w = Some w' /\ Select (mem w') (fresh_txn w') demo_slot [1] = Some (Some (demo_row 1)).
Proof.
  cbv zeta. set (w := after _ demo).
  destruct (abort_traceless true false w 2 (txn_of w 2)
    ltac:(apply after_reachable; vm_compute; by eexists)
    ltac:(apply op_okb_sound; vm_compute; reflexivity)
    ltac:(apply txn_running; vm_compute; reflexivity)) as (w' & E & Hsel).
  exists w'. split; [exact E|]. rewrite Hsel; [vm_compute; reflexivity|repeat constructor].
Defined.

(** C3: writers exclude each other.  Two different running transactions never both
    have a version of the same slot. *)
Theorem writers_exclusive (gc log : bool) (w : world) (id1 id2 : Z) (t1 t2 : TransactionContext) (sl : TupleSlot) :
  reachable gc log w -> running w id1 t1 -> running w id2 t2 ->
  installed_at (undos (mem w)) (undo_buffer_ t1) sl -> installed_at (undos (mem w)) (undo_buffer_ t2) sl -> id1 = id2.
Proof.
  intros Hr Hrun1 Hrun2 H1 H2. pose proof (reachable_winv gc log w Hr) as Hinv. destruct (wi_slot _ Hinv sl) as [l Hl].
  apply (own_head w id1 t1 sl l Hinv Hrun1 Hl) in H1 as (p & l' & -> & Hp1).
  apply (own_head w id2 t2 sl _ Hinv Hrun2 Hl) in H2 as (p2 & l2 & [= <- <-] & Hp2).
  eapply (wi_disjoint _ Hinv); [apply Hrun1|apply Hrun2|done|done].
Qed.

Lemma writers_exclusive_witness :
  let w := after [OUpdate 2 1 demo_slot (demo_row 7) 101] demo in
  installed_at (undos (mem w)) (undo_buffer_ (txn_of w 2)) demo_slot /\
  ~ installed_at (undos (mem w)) (undo_buffer_ (txn_of w 3)) demo_slot.
Proof.
  cbv zeta. set (w := after _ demo).
  assert (installed_at (undos (mem w)) (undo_buffer_ (txn_of w 2)) demo_slot) as H2.
  { exists 101. eexists. split; [apply (bool_decide_unpack _); vm_compute; exact I|]. split; [vm_compute; reflexivity|].
    split; [discriminate|reflexivity]. }
  split; [exact H2|]. intros H3.
  assert (2 = 3) as E; [|discriminate E].
  refine (writers_exclusive true false w 2 3 (txn_of w 2) (txn_of w 3) demo_slot _ _ _ H2 H3).
  - apply after_reachable. vm_compute. by eexists.
  - apply txn_running. vm_compute. reflexivity.
  - apply txn_running. vm_compute. reflexivity.
Defined.
