(* ===== verification/Readers.v ===== *)
(** * Concurrent readers

    [DataTable::SelectIntoBuffer] (storage/data_table.cpp) step by step, interleaved
    with the operations of other transactions, the log serializer and the garbage
    collector: it loads the allocation bit, the version pointer, the attributes one by
    one, the presence bit, and the version pointer again, and then walks the version
    chain, loading the timestamp and the next pointer of one record at a time.  The
    records it holds are protected by the delayed deallocation of the collector. *)

From S2P Require Import Prelude Layout Timestamps DataTable Versions TxnManager GarbageCollector Mvcc MvccWrite MvccFinish MvccGC Snapshot.
Import TransactionUtil.

(** ** The reader *)

Inductive reader :=
| RCheck
| RPtr
| RCopy (version_ptr : option Z) (todo : list Z) (out_buffer : row)
| RAllocated (version_ptr : option Z) (out_buffer : row)
| RPresent (version_ptr : option Z) (out_buffer : row) (present : bool)
| RRecheck (version_ptr : option Z) (out_buffer : row) (visible : bool)
| ROwn (version_ptr : option Z) (out_buffer : row) (visible : bool)
| RChase (version_ptr : option Z) (out_buffer : row) (visible : bool)
| RUndo (version_ptr : Z) (out_buffer : row) (visible : bool)
| RDone (visible : bool) (out_buffer : row).

(** One load and what follows on the reader's own data; [None] when it dereferences a
    pointer to freed memory. *)
Definition reader_step (m : memory) (start finish : Z) (slot : TupleSlot) (cols : list Z) (r : reader) : option reader :=
  match r with
  | RCheck => Some (if allocated_ (tuple_at m slot) then RPtr else RDone false [])
  | RPtr => Some (RCopy (AtomicallyReadVersionPtr m slot) cols [])
  | RCopy p (c :: todo) buf => Some (RCopy p todo (buf ++ [(c, attrs_ (tuple_at m slot) !! c)]))
  | RCopy p [] buf => Some (RAllocated p buf)
  | RAllocated p buf => Some (RPresent p buf (allocated_ (tuple_at m slot)))
  | RPresent p buf present => Some (RRecheck p buf (present && present_ (tuple_at m slot)))
  | RRecheck p buf visible => Some (if decide (p = AtomicallyReadVersionPtr m slot) then ROwn p buf visible else RPtr)
  | ROwn None buf visible => Some (RDone visible buf)
  | ROwn (Some p) buf visible =>
    version ← undos m !! p;
    Some (if decide (timestamp_ version = finish) then RDone visible buf else RChase (Some p) buf visible)
  | RChase None buf visible => Some (RDone visible buf)
  | RChase (Some p) buf visible =>
    version ← undos m !! p;
    Some (if NewerThan (timestamp_ version) start then RUndo p buf visible else RDone visible buf)
  | RUndo p buf visible =>
    version ← undos m !! p;
    Some (match type_ version with
          | UPDATE => RChase (next_ version) (ApplyDelta (delta_ version) buf) visible
          | INSERT => RChase (next_ version) buf false
          | DELETE => RChase (next_ version) buf true
          end)
  | RDone _ _ => None
  end.

(** The reader of transaction [id] between the operations of the others.  Fewer than
    [2 ^ 32] transactions exist at any time: the collector counts them in 32 bits. *)
Definition few_txns (w : world) : Prop := Z.of_nat (size (txns w)) < 2 ^ 32.

Inductive system_step (gc log : bool) (id start finish : Z) (slot : TupleSlot) (cols : list Z) :
    world * reader -> world * reader -> Prop :=
| system_others w w' r : few_txns w -> others_step gc log id w w' -> system_step gc log id start finish slot cols (w, r) (w', r)
| system_reader w r r' : reader_step (mem w) start finish slot cols r = Some r' ->
    system_step gc log id start finish slot cols (w, r) (w, r').

(** ** Records that a reader may hold *)

(** The record is in memory, and if its transaction waits to be freed, it was unlinked
    after [start]. *)
Definition guarded (start : Z) (w : world) (p : Z) : Prop :=
  exists r i t, heap w !! p = Some r /\ txns w !! i = Some t /\ p ∈ undo_buffer_ t /\
    (i ∈ txns_to_deallocate_ w -> start < last_unlinked_ w).

(** What a reader relies on about a record it holds. *)
Definition same_record (start finish : Z) (w : world) (r r' : UndoRecord) : Prop :=
  type_ r' = type_ r /\ delta_ r' = delta_ r /\ (start < timestamp_ r <-> start < timestamp_ r') /\
  (timestamp_ r = finish <-> timestamp_ r' = finish) /\
  (next_ r' = next_ r \/
   (next_ r' = None /\ forall q, next_ r = Some q -> exists rq, heap w !! q = Some rq /\ timestamp_ rq <= start)).

Definition records_kept (start finish : Z) (w w' : world) : Prop :=
  forall p r, heap w !! p = Some r -> guarded start w p ->
    guarded start w' p /\ exists r', heap w' !! p = Some r' /\ same_record start finish w r r'.

(** How the version pointer of a slot changes: it gets a new record that the reader
    does not see, or is cut when it was older than the reader. *)
Definition ptr_step (start : Z) (w w' : world) : Prop :=
  forall sl, let ptr := version_ptr_ (tuple_at (mem w) sl) in let ptr' := version_ptr_ (tuple_at (mem w') sl) in
    ptr' = ptr \/
    (exists u r, ptr' = Some u /\ heap w !! u = None /\ heap w' !! u = Some r /\ start < timestamp_ r) \/
    (ptr' = None /\ forall x r, ptr = Some x -> heap w !! x = Some r -> timestamp_ r <= start).

Lemma same_record_refl start finish w r : same_record start finish w r r.
Proof. unfold same_record. auto 10. Qed.

(** *** Operations of other transactions *)

Lemma exec_last_unlinked gc log o w w' : o ≠ OGC -> exec gc log o w = Some w' -> last_unlinked_ w' = last_unlinked_ w.
Proof.
  intros Ho. destruct o as [|id table slot redo undo|id table slot undo|id table redo undo|id|id| | |table layout]; cbn [exec]; try done.
  - by intros [= <-].
  - destruct (txns w !! id) as [t|]; [|done]. cbn [mbind option_bind]. unfold SqlTable_Update.
    destruct (Update _ _ _ _ _ _) as [[[b t'] m]|]; [|done]. cbn. by intros [= <-].
  - destruct (txns w !! id) as [t|]; [|done]. cbn [mbind option_bind]. unfold SqlTable_Delete.
    destruct (Delete _ _ _ _ _) as [[[b t'] m]|]; [|done]. cbn. by intros [= <-].
  - destruct (txns w !! id) as [t|]; [|done]. cbn [mbind option_bind]. unfold SqlTable_Insert.
    destruct (tables w !! table) as [tb|]; [|done]. cbn [mbind option_bind].
    destruct (Insert _ _ _ _ _ _) as [[[[sl t'] tb'] m]|]; [|done]. cbn. by intros [= <-].
  - destruct (txns w !! id) as [t|]; [|done]. cbn [mbind option_bind]. rewrite Commit_eq. cbn [snd]. intros [= <-]. by destruct gc, log.
  - destruct (txns w !! id) as [t|]; [|done]. cbn [mbind option_bind]. unfold Abort.
    destruct (rollback_all _ _ _ _ _) as [[t1 m]|]; [|done]. cbn [mbind option_bind].
    destruct (TimestampManager.CheckOutTimestamp (tm w)) as [x tm']. destruct (GCLastUpdateOnAbort _ _ _) as [t2|]; [|done].
    cbn [mbind option_bind fmap option_fmap option_map snd]. intros [= <-]. unfold LogAbort. by destruct gc, (log && _).
  - intros [= <-]. unfold serialize. by destruct (log_queue w).
  - destruct (make_table _ _ _) as [[tb m]|]; [|done]. cbn. by intros [= <-].
Qed.

Section kept.
Context (start finish : Z).

(** Changes that leave the records and the queues alone. *)
Lemma frame_kept w w' :
  heap w' = heap w -> txns_to_deallocate_ w' = txns_to_deallocate_ w -> last_unlinked_ w' = last_unlinked_ w ->
  (forall i t, txns w !! i = Some t -> txns w' !! i = Some t) -> records_kept start finish w w'.
Proof.
  intros Eh Ed El Ht p r Hr (r0 & i & t & _ & Hi & Hp & Hg). split.
  - exists r, i, t. rewrite Eh, Ed, El. auto.
  - exists r. rewrite Eh. split; [done|apply same_record_refl].
Qed.

Lemma write_kept w id t undo u sl tp t' w' :
  write_effect w id t undo u sl tp t' w' -> last_unlinked_ w' = last_unlinked_ w -> records_kept start finish w w'.
Proof.
  intros We El p r Hr (r0 & i & s & _ & Hi & Hp & Hg). assert (heap w' !! p = Some r) as Hr'.
  { rewrite (we_heap _ _ _ _ _ _ _ _ _ We), lookup_insert_ne; [done|]. intros <-. pose proof (we_fresh _ _ _ _ _ _ _ _ _ We). congruence. }
  split; [|exists r; split; [done|apply same_record_refl]]. destruct (decide (i = id)) as [->|Hne].
  - exists r, id, t'. rewrite (we_txns _ _ _ _ _ _ _ _ _ We), lookup_insert_eq, (we_buffer _ _ _ _ _ _ _ _ _ We), (we_dealloc _ _ _ _ _ _ _ _ _ We), El.
    pose proof (proj1 (we_run _ _ _ _ _ _ _ _ _ We)). simplify_eq. split_and!; try done. apply elem_of_app. by left.
  - exists r, i, s. rewrite (we_txns _ _ _ _ _ _ _ _ _ We), lookup_insert_ne, (we_dealloc _ _ _ _ _ _ _ _ _ We), El by done. auto.
Qed.

Lemma write_ptr w id t undo u sl tp t' w' :
  write_effect w id t undo u sl tp t' w' -> start < timestamp_ u ->
  version_ptr_ tp = Some undo \/ tp = tuple_at (mem w) sl -> ptr_step start w w'.
Proof.
  intros We Hts Htp sl2. cbv zeta. rewrite (we_tuple _ _ _ _ _ _ _ _ _ We). case_decide as E; [|by left].
  destruct Htp as [Hp| ->]; [|subst; by left]. right. left. exists undo, u. split; [done|]. split; [apply We|].
  split; [|done]. rewrite (we_heap _ _ _ _ _ _ _ _ _ We). apply lookup_insert_eq.
Qed.

(** Finishing another transaction restamps records the reader does not see. *)
Lemma finish_kept w id t t' w' :
  winv w -> finish_effect w id t t' w' -> last_unlinked_ w' = last_unlinked_ w ->
  start < time w -> time w < 2 ^ 63 -> 2 ^ 63 <= finish -> finish ≠ finish_time_ t -> records_kept start finish w w'.
Proof.
  intros Hinv Fe El Hs Ht Hf Hne p r Hr (r0 & i & s & _ & Hi & Hp & Hg).
  pose proof (fe_run _ _ _ _ _ Fe) as [Hid Hact].
  assert (exists r', heap w' !! p = Some r' /\ same_record start finish w r r') as (r' & Hr' & Hsame).
  { rewrite (fe_heap _ _ _ _ _ Fe), store_timestamps_lookup. case_decide as Hin; [|exists r; split; [done|apply same_record_refl]].
    rewrite Hr. exists (set_timestamp (time w) r). split; [done|]. destruct (ti_undo _ _ _ (wi_txn _ Hinv _ _ Hid) p Hin) as (r2 & Hr2 & Hts & _).
    rewrite Hr in Hr2. injection Hr2 as <-. unfold active in Hact. unfold same_record. cbn. rewrite Hts. split_and!; try done; [lia|lia|by left]. }
  split; [|eauto]. destruct (decide (i = id)) as [->|Hni].
  - exists r', id, t'. rewrite (fe_txns _ _ _ _ _ Fe), lookup_insert_eq, (fe_buffer _ _ _ _ _ Fe), (fe_dealloc _ _ _ _ _ Fe), El. simplify_eq. auto.
  - exists r', i, s. rewrite (fe_txns _ _ _ _ _ Fe), lookup_insert_ne, (fe_dealloc _ _ _ _ _ Fe), El by done. auto.
Qed.

End kept.

(** *** The garbage collector *)

(** Next pointers are cut before records older than [oldest] only. *)
Definition cuts (oldest : Z) (u u' : gmap Z UndoRecord) : Prop :=
  (forall p, u !! p = None -> u' !! p = None) /\
  forall p r, u !! p = Some r -> exists r', u' !! p = Some r' /\
    type_ r' = type_ r /\ delta_ r' = delta_ r /\ timestamp_ r' = timestamp_ r /\
    (next_ r' = next_ r \/ (next_ r' = None /\ exists q rq, next_ r = Some q /\ u !! q = Some rq /\ timestamp_ rq < oldest)).

(** And so are the version pointers of the slots. *)
Definition memory_cuts (oldest : Z) (m m' : memory) : Prop :=
  cuts oldest (undos m) (undos m') /\
  forall sl, version_ptr_ (tuple_at m' sl) = version_ptr_ (tuple_at m sl) \/
    (version_ptr_ (tuple_at m' sl) = None /\
     exists x r, version_ptr_ (tuple_at m sl) = Some x /\ undos m !! x = Some r /\ timestamp_ r < oldest).

Lemma cuts_refl oldest u : cuts oldest u u.
Proof. split; [done|]. intros p r Hr. exists r. auto 10. Qed.

Lemma cuts_back oldest u u' p r' : cuts oldest u u' -> u' !! p = Some r' -> exists r, u !! p = Some r /\ timestamp_ r' = timestamp_ r.
Proof.
  intros [Hn Hc] Hr'. destruct (u !! p) as [r|] eqn:E; [|rewrite Hn in Hr' by done; done].
  destruct (Hc p r E) as (r2 & Hr2 & _ & _ & Hts & _). simplify_eq. eauto.
Qed.

Lemma cuts_trans oldest u1 u2 u3 : cuts oldest u1 u2 -> cuts oldest u2 u3 -> cuts oldest u1 u3.
Proof.
  intros C1 C2. pose proof C1 as [N1 H1]. pose proof C2 as [N2 H2]. split; [auto|]. intros p r Hr.
  destruct (H1 p r Hr) as (r2 & Hr2 & A1 & A2 & A3 & A4). destruct (H2 p r2 Hr2) as (r3 & Hr3 & B1 & B2 & B3 & B4).
  exists r3. split; [done|]. split; [congruence|]. split; [congruence|]. split; [congruence|].
  destruct A4 as [A4|(A4 & Hq)]; [|right; split; [|done]; destruct B4 as [B4|(B4 & _)]; congruence].
  destruct B4 as [B4|(B4 & q & rq & Hq & Hrq & Hts)]; [left; congruence|right]. split; [done|].
  destruct (cuts_back _ _ _ _ _ C1 Hrq) as (rq1 & Hrq1 & E). exists q, rq1. split; [congruence|]. split; [done|lia].
Qed.

Lemma memory_cuts_refl oldest m : memory_cuts oldest m m.
Proof. split; [apply cuts_refl|by left]. Qed.

Lemma memory_cuts_trans oldest m1 m2 m3 : memory_cuts oldest m1 m2 -> memory_cuts oldest m2 m3 -> memory_cuts oldest m1 m3.
Proof.
  intros [C1 P1] [C2 P2]. split; [by eapply cuts_trans|]. intros sl. destruct (P2 sl) as [E2|(E2 & x & r & Hx & Hr & Hts)].
  - rewrite E2. apply P1.
  - right. split; [done|]. destruct (P1 sl) as [E1|(E1 & ?)]; [|congruence]. destruct (cuts_back _ _ _ _ _ C1 Hr) as (r1 & Hr1 & E).
    exists x, r1. split; [congruence|]. split; [done|lia].
Qed.

Lemma truncate_behind_cuts oldest fuel : forall u curr u', truncate_behind fuel u oldest curr = Some u' -> cuts oldest u u'.
Proof.
  induction fuel as [|fuel IH]; intros u curr u'; cbn [truncate_behind]; [done|].
  destruct (u !! curr) as [r|] eqn:Er; [|done]. cbn [mbind option_bind].
  destruct (next_ r) as [next|] eqn:En; [|intros [= <-]; apply cuts_refl].
  destruct (u !! next) as [r'|] eqn:Er'; [|done]. cbn [mbind option_bind]. destruct (NewerThan oldest (timestamp_ r')) eqn:E; [|by apply IH].
  apply NewerThan_true in E. intros [= <-]. split.
  - intros p Hp. destruct (decide (p = curr)) as [->|Hne]; [congruence|]. by rewrite lookup_alter_ne.
  - intros p s Hs. destruct (decide (p = curr)) as [->|Hne].
    + rewrite lookup_alter_eq, Hs. eexists. split; [done|]. simplify_eq. cbn. eauto 15.
    + rewrite lookup_alter_ne by done. exists s. auto 10.
Qed.

Lemma tuple_at_set sl t m sl2 : tuple_at (set_tuple sl t m) sl2 = if decide (sl2 = sl) then t else tuple_at m sl2.
Proof.
  unfold tuple_at, set_tuple. cbn. case_decide as E; [subst; by rewrite lookup_insert_eq|by rewrite lookup_insert_ne].
Qed.

Lemma truncate_cuts oldest slot m m' : TruncateVersionChain slot oldest m = Some m' -> memory_cuts oldest m m'.
Proof.
  unfold TruncateVersionChain. destruct (AtomicallyReadVersionPtr m slot) as [p|] eqn:Ep; [|intros [= <-]; apply memory_cuts_refl].
  destruct (undos m !! p) as [r|] eqn:Er; [|done]. cbn [mbind option_bind]. destruct (NewerThan oldest (timestamp_ r)) eqn:E.
  - apply NewerThan_true in E. unfold CompareAndSwapVersionPtr. rewrite Ep, decide_True by done. cbn [snd]. intros [= <-].
    split; [apply cuts_refl|]. intros sl. unfold AtomicallyWriteVersionPtr. rewrite tuple_at_set. case_decide as Hs; [subst|by left].
    right. split; [done|]. exists p, r. done.
  - destruct (truncate_behind _ _ _ _) as [u'|] eqn:Et; [|done]. cbn [mbind option_bind]. intros [= <-].
    split; [by eapply truncate_behind_cuts|]. by left.
Qed.

Lemma reclaim_cuts oldest r m m' : ReclaimSlotIfDeleted r m = Some m' -> memory_cuts oldest m m'.
Proof.
  unfold ReclaimSlotIfDeleted. destruct (type_ r); [intros [= <-]; apply memory_cuts_refl..|].
  destruct (table_ r); [|done]. cbn. intros [= <-]. split; [apply cuts_refl|]. intros sl. left. rewrite tuple_at_set. by case_decide; subst.
Qed.

Lemma unlink_records_cuts w oldest : forall ps slots t m slots' t' m',
  unlink_records w oldest ps slots t m = Some (slots', t', m') ->
  memory_cuts oldest m m' /\ undo_buffer_ t' = undo_buffer_ t /\ start_time_ t' = start_time_ t.
Proof.
  induction ps as [|p ps IH]; intros slots t m slots' t' m'; cbn [unlink_records].
  { intros [= <- <- <-]. split; [apply memory_cuts_refl|done]. }
  destruct (undos m !! p) as [r|]; [|done]. cbn [mbind option_bind].
  destruct (match table_ r with Some _ => _ | None => _ end) as [[slots1 m1]|] eqn:Ev; [|done]. cbn [mbind option_bind].
  assert (memory_cuts oldest m m1) as C1.
  { destruct (table_ r); [|injection Ev as <- <-; apply memory_cuts_refl]. case_decide; [injection Ev as <- <-; apply memory_cuts_refl|].
    destruct (TruncateVersionChain _ _ _) as [m2|] eqn:Et; [|done]. cbn in Ev. injection Ev as <- <-. by eapply truncate_cuts. }
  destruct (aborted_ t).
  - intros H. apply IH in H as (C2 & E1 & E2). split; [by eapply memory_cuts_trans|done].
  - destruct (ReclaimSlotIfDeleted r m1) as [m2|] eqn:Er; [|done]. cbn [mbind option_bind].
    destruct (ReclaimBufferIfVarlen w r m2) as [loose|]; [|done]. cbn [mbind option_bind].
    intros H. apply IH in H as (C2 & E1 & E2). split; [|done].
    eapply memory_cuts_trans; [exact C1|]. eapply memory_cuts_trans; [by eapply reclaim_cuts|done].
Qed.

(** What the unlink loop does to the state, whatever the state is. *)
Record unlinks (oldest : Z) (w w' : world) : Prop := {
  ul_mem : memory_cuts oldest (mem w) (mem w');
  ul_txns : forall i t, txns w !! i = Some t -> undo_buffer_ t ≠ [] -> exists t', txns w' !! i = Some t' /\ undo_buffer_ t' = undo_buffer_ t;
  ul_tm : tm w' = tm w;
  ul_last : last_unlinked_ w' = last_unlinked_ w;
}.

Lemma unlinks_refl oldest w : unlinks oldest w w.
Proof. split; [apply memory_cuts_refl|by eauto|done|done]. Qed.

Lemma unlinks_trans oldest w1 w2 w3 : unlinks oldest w1 w2 -> unlinks oldest w2 w3 -> unlinks oldest w1 w3.
Proof.
  intros [A1 A2 A3 A4] [B1 B2 B3 B4]. split; [by eapply memory_cuts_trans| |congruence|congruence].
  intros i t Hi Hne. destruct (A2 i t Hi Hne) as (t2 & Hi2 & E2). destruct (B2 i t2 Hi2) as (t3 & Hi3 & E3); [congruence|].
  exists t3. split; [done|congruence].
Qed.

Definition keyed (w : world) : Prop := forall i t, txns w !! i = Some t -> start_time_ t = i.

Lemma delete_read_only_unlinks oldest id t w :
  txns w !! id = Some t -> IsReadOnly t = true -> keyed w ->
  unlinks oldest w (delete_txn id w) /\ keyed (delete_txn id w) /\ txns_to_deallocate_ (delete_txn id w) = txns_to_deallocate_ w.
Proof.
  intros Ht Hro Hk. unfold delete_txn. rewrite Ht, (IsReadOnly_buffer t Hro). cbn [foldl]. split; [|split; [|done]].
  - split; [split; [apply cuts_refl|by left]| |done|done]. intros i s Hi Hne. exists s. split; [|done]. cbn.
    rewrite lookup_delete_ne; [done|]. intros ->. rewrite Ht in Hi. injection Hi as <-. by rewrite (IsReadOnly_buffer t Hro) in Hne.
  - intros i s Hi. cbn in Hi. apply lookup_delete_Some in Hi as [_ Hi]. by apply Hk.
Qed.

Lemma unlink_queue_unlinks oldest : forall queue slots requeue w n requeue' w',
  keyed w -> unlink_queue oldest queue slots requeue w = Some (n, requeue', w') ->
  unlinks oldest w w' /\ 0 <= n <= Z.of_nat (length queue) /\ (n = 0 -> txns_to_deallocate_ w' = txns_to_deallocate_ w).
Proof.
  induction queue as [|id queue IH]; intros slots requeue w n requeue' w' Hk; cbn [unlink_queue].
  { intros [= <- <- <-]. split; [apply unlinks_refl|]. split; [cbn; lia|done]. }
  destruct (txns w !! id) as [t|] eqn:Ht; [|done]. cbn [mbind option_bind length].
  destruct (IsReadOnly t) eqn:Hro; [|destruct (NewerThan oldest (finish_time_ t))].
  - destruct (unlink_queue _ _ _ _ _) as [[[n1 rq] w1]|] eqn:E; [|done]. cbn [mbind option_bind]. intros [= <- <- <-].
    destruct (delete_read_only_unlinks oldest id t w Ht Hro Hk) as (U & Hk' & _). apply IH in E as (U2 & Hn & _); [|done].
    split; [by eapply unlinks_trans|]. split; [lia|intros ?; exfalso; lia].
  - destruct (unlink_records _ _ _ _ _ _) as [[[slots1 t1] m1]|] eqn:Er; [|done]. cbn [mbind option_bind].
    apply unlink_records_cuts in Er as (C & Eb & Es). set (w1 := set_queues _ _ _).
    destruct (unlink_queue oldest queue slots1 requeue w1) as [[[n1 rq] w2]|] eqn:E; [|done]. cbn [mbind option_bind]. intros [= <- <- <-].
    assert (txns w1 = <[id := t1]> (txns w)) as Ew1 by (unfold w1; cbn; by rewrite Es, (Hk id t Ht)).
    apply IH in E as (U2 & Hn & _).
    + split; [|split; [lia|intros ?; exfalso; lia]]. eapply unlinks_trans; [|exact U2]. split; [done| |done|done]. intros i s Hi Hne. rewrite Ew1.
      destruct (decide (i = id)) as [->|Hi2]; [rewrite lookup_insert_eq; exists t1; split; [done|]; by simplify_eq|].
      rewrite lookup_insert_ne by done. eauto.
    + intros i s Hi. rewrite Ew1 in Hi. apply lookup_insert_Some in Hi as [[<- <-]|[_ Hi]]; [rewrite Es; by apply Hk|by apply Hk].
  - intros E. apply IH in E as (U & Hn & Hz); [|done]. split; [done|]. split; [lia|done].
Qed.

(** A pass of the unlink queue: what it puts into the deallocation queue makes the
    count positive, when fewer than [2 ^ 32] transactions are queued. *)
Lemma ProcessUnlinkQueue_unlinks oldest w n w' :
  keyed w -> Z.of_nat (length (completed_txns_ w ++ txns_to_unlink_ w)) < 2 ^ 32 ->
  ProcessUnlinkQueue oldest w = Some (n, w') ->
  unlinks oldest w w' /\ (0 < n \/ txns_to_deallocate_ w' = txns_to_deallocate_ w).
Proof.
  intros Hk Hl. unfold ProcessUnlinkQueue. set (w1 := World _ _ _ _ _ _ _ _ _).
  destruct (unlink_queue _ _ _ _ _) as [[[n1 rq] w2]|] eqn:E; [|done]. cbn [mbind option_bind]. intros [= <- <-].
  apply unlink_queue_unlinks in E as (U & Hn & Hz); [|done].
  assert (unlinks oldest w w1) as U1 by (split; [split; [apply cuts_refl|by left]|by eauto|done|done]).
  rewrite wrapu_small by (unfold is_uint; lia). split.
  - eapply unlinks_trans; [exact U1|]. eapply unlinks_trans; [exact U|]. split; [split; [apply cuts_refl|by left]|by eauto|done|done].
  - destruct (decide (n1 = 0)) as [->|]; [right; exact (Hz eq_refl)|left; lia].
Qed.

(** Freeing: a guarded record is not freed while a transaction that started at [start]
    runs. *)
Lemma foldl_delete_frame ids : forall w i t p,
  txns w !! i = Some t -> i ∉ ids -> (forall j s, j ∈ ids -> txns w !! j = Some s -> p ∉ undo_buffer_ s) ->
  let w' := foldl (fun w id => delete_txn id w) w ids in
  txns w' !! i = Some t /\ heap w' !! p = heap w !! p.
Proof.
  induction ids as [|j ids IH]; intros w i t p Hi Hni Hp; [done|]. cbn [foldl].
  apply not_elem_of_cons in Hni as [Hne Hni].
  assert (forall k s, txns (delete_txn j w) !! k = Some s -> txns w !! k = Some s) as Hsub.
  { intros k s. unfold delete_txn. destruct (txns w !! j); [|done]. cbn. by intros [_ ?]%lookup_delete_Some. }
  destruct (IH (delete_txn j w) i t p) as [H1 H2].
  - unfold delete_txn. destruct (txns w !! j); [|done]. cbn. by rewrite lookup_delete_ne by done.
  - done.
  - intros k s Hk Hs. apply (Hp k s); [by right|by apply Hsub].
  - split; [exact H1|]. rewrite H2. unfold delete_txn. destruct (txns w !! j) as [s|] eqn:Ej; [|done]. unfold heap. cbn.
    rewrite foldl_delete_lookup, decide_False; [done|]. apply (Hp j s); [by left|done].
Qed.

Lemma foldl_delete_mem ids : forall w, let w' := foldl (fun w id => delete_txn id w) w ids in
  tuples (mem w') = tuples (mem w) /\ (forall p r, heap w' !! p = Some r -> heap w !! p = Some r) /\
  tm w' = tm w /\ last_unlinked_ w' = last_unlinked_ w /\ completed_txns_ w' = completed_txns_ w /\ txns_to_unlink_ w' = txns_to_unlink_ w /\
  (forall i t, txns w' !! i = Some t -> txns w !! i = Some t).
Proof.
  induction ids as [|j ids IH]; intros w; [done|]. cbn [foldl]. destruct (IH (delete_txn j w)) as (E1 & E2 & E3 & E4 & E5 & E6 & E7).
  assert (tuples (mem (delete_txn j w)) = tuples (mem w) /\ (forall p r, heap (delete_txn j w) !! p = Some r -> heap w !! p = Some r) /\
    tm (delete_txn j w) = tm w /\ last_unlinked_ (delete_txn j w) = last_unlinked_ w /\ completed_txns_ (delete_txn j w) = completed_txns_ w /\
    txns_to_unlink_ (delete_txn j w) = txns_to_unlink_ w /\ (forall i t, txns (delete_txn j w) !! i = Some t -> txns w !! i = Some t))
    as (F1 & F2 & F3 & F4 & F5 & F6 & F7).
  { unfold delete_txn. destruct (txns w !! j) as [s|]; [|done]. cbn. split_and!; try done; unfold heap; cbn.
    - intros p r. rewrite foldl_delete_lookup. by case_decide.
    - by intros i t [_ ?]%lookup_delete_Some. }
  split_and!; try congruence; eauto.
Qed.

(** Deallocation keeps guarded records: if it frees anything, nothing guarded waits. *)
Lemma dealloc_kept oldest start w p r i t :
  winv w -> oldest <= start -> heap w !! p = Some r -> txns w !! i = Some t -> p ∈ undo_buffer_ t ->
  (i ∈ txns_to_deallocate_ w -> start < last_unlinked_ w) ->
  let w' := (ProcessDeallocateQueue oldest w).2 in
  heap w' !! p = Some r /\ txns w' !! i = Some t /\ (i ∈ txns_to_deallocate_ w' -> start < last_unlinked_ w').
Proof.
  intros Hinv Ho Hr Hi Hp Hg. unfold ProcessDeallocateQueue. destruct (NewerThan oldest (last_unlinked_ w)) eqn:E; cbn [snd]; [|done].
  apply NewerThan_true in E. assert (i ∉ txns_to_deallocate_ w) as Hni by (intros Hin; specialize (Hg Hin); lia).
  destruct (foldl_delete_frame (txns_to_deallocate_ w) w i t p Hi Hni) as [H1 H2].
  { intros j s Hj Hs Hps. apply Hni. by rewrite (wi_disjoint _ Hinv i t j s p Hi Hs Hp Hps). }
  split; [unfold heap in *; cbn; by rewrite H2|]. split; [exact H1|]. intros Hin. by apply elem_of_nil in Hin.
Qed.

Lemma dealloc_frame oldest w : let w' := (ProcessDeallocateQueue oldest w).2 in
  tuples (mem w') = tuples (mem w) /\ (forall p r, heap w' !! p = Some r -> heap w !! p = Some r) /\ tm w' = tm w /\
  completed_txns_ w' = completed_txns_ w /\ txns_to_unlink_ w' = txns_to_unlink_ w /\
  (forall i t, txns w' !! i = Some t -> txns w !! i = Some t).
Proof.
  unfold ProcessDeallocateQueue. destruct (NewerThan _ _); cbn [snd]; [|by auto 10].
  destruct (foldl_delete_mem (txns_to_deallocate_ w) w) as (E1 & E2 & E3 & E4 & E5 & E6 & E7). cbn. auto 10.
Qed.

(** No more transactions are queued than exist. *)
Lemma queue_length w : winv w -> (length (completed_txns_ w ++ txns_to_unlink_ w) <= size (txns w))%nat.
Proof.
  intros Hinv. destruct (wi_queues _ Hinv) as [Hn Hq]. rewrite app_assoc in Hn, Hq. apply NoDup_app in Hn as [Hn _].
  rewrite <-size_dom, <-(size_list_to_set (C := gset Z) (completed_txns_ w ++ txns_to_unlink_ w)) by done.
  apply subseteq_size. intros i Hi. apply elem_of_list_to_set in Hi. apply elem_of_dom.
  destruct (Hq i) as (t & Ht & _); [apply elem_of_app; by left|]. by rewrite Ht.
Qed.

Lemma gc_kept gc log finish w w' id t :
  winv w -> time w + 2 < 2 ^ 63 -> few_txns w -> running w id t -> exec gc log OGC w = Some w' ->
  records_kept id finish w w' /\ ptr_step id w w'.
Proof.
  intros Hinv Hlt Hfew Hrun He. pose proof (running_times w id t Hinv Hrun) as (_ & _ & Hid & _). cbn [exec] in He. unfold PerformGarbageCollection in He.
  destruct (checkout_ts (tm w) (wi_ts _ Hinv) ltac:(unfold time in Hlt; lia)) as [Hts1 Htime1].
  set (tm1 := (TimestampManager.CheckOutTimestamp (tm w)).2) in *. change (tm (set_tm tm1 w)) with tm1 in He.
  pose proof (oldest_spec tm1 Hts1) as [_ Hr2]. pose proof (step_ok _ _ Hts1 (TimestampManager.step_oldest tm1)) as Hts2.
  destruct (TimestampManager.OldestTransactionStartTime tm1) as [oldest tm2] eqn:Eo. cbn [fst snd] in Hr2, Hts2.
  assert (tm2 = (TimestampManager.OldestTransactionStartTime tm1).2) as Etm2 by by rewrite Eo.
  assert (winv (set_tm tm2 (set_tm tm1 w))) as Hinv2.
  { apply set_tm_winv; rewrite ?Etm2; try done; [|by rewrite <-Etm2]. apply set_tm_winv; try done. unfold time in *. lia. }
  assert (oldest <= id) as Ho by (apply Hr2, (ti_active _ _ _ (wi_txn _ Hinv _ _ (proj1 Hrun)) (proj2 Hrun))).
  set (w2 := set_tm tm2 (set_tm tm1 w)) in *. pose proof (fun p r i t => dealloc_kept oldest id w2 p r i t Hinv2 Ho) as Hd.
  pose proof (dealloc_frame oldest w2) as (D1 & D2 & D3 & D4 & D5 & D6). destruct (ProcessDeallocateQueue oldest w2) as [freed w3]. cbn [snd] in *.
  destruct (ProcessUnlinkQueue oldest w3) as [[n w4]|] eqn:Eu; [|done]. cbn [mbind option_bind fmap option_fmap option_map snd] in He.
  apply ProcessUnlinkQueue_unlinks in Eu as [U Hn].
  2: { intros i s Hs%D6. apply (ti_start _ _ _ (wi_txn _ Hinv2 _ _ Hs)). }
  2: { rewrite D4, D5. pose proof (queue_length _ Hinv2) as Hq. cbn [w2 set_tm completed_txns_ txns_to_unlink_ txns] in *. unfold few_txns in Hfew. lia. }
  assert (tm w4 = tm2) as E4 by (rewrite (ul_tm _ _ _ U), D3; done).
  assert (TimestampManager.time_ tm2 = time w + 1) as Et2 by (rewrite Etm2; exact Htime1).
  assert (mem w' = mem w4 /\ txns w' = txns w4 /\ txns_to_deallocate_ w' = txns_to_deallocate_ w4 /\
    (last_unlinked_ w' = last_unlinked_ w4 /\ ~ 0 < n \/ id < last_unlinked_ w')) as (M5 & X5 & Q5 & L5).
  { injection He as <-. case_decide; [|by auto 10]. destruct (TimestampManager.CheckOutTimestamp (tm w4)) as [x tm5] eqn:E5.
    cbn [mem txns txns_to_deallocate_ last_unlinked_ set_last_unlinked set_tm]. split_and!; try done. right.
    assert (x = (TimestampManager.CheckOutTimestamp (tm w4)).1) as -> by by rewrite E5. rewrite E4. cbn. rewrite Et2. lia. }
  pose proof (ul_mem _ _ _ U) as [[C1 C2] P].
  split.
  - intros p r Hr (r0 & i & s & _ & Hi & Hp & Hg). destruct (Hd p r i s Hr Hi Hp Hg) as (Hr3 & Hi3 & Hg3).
    destruct (C2 p r Hr3) as (r' & Hr' & E1 & E2 & E3 & En).
    destruct (ul_txns _ _ _ U i s Hi3) as (s' & Hs' & Es'); [intros E; rewrite E in Hp; by apply elem_of_nil in Hp|]. split.
    + exists r', i, s'. unfold heap. rewrite M5, X5, Q5, Es'. split_and!; try done. intros Hin.
      destruct L5 as [[L5 Hn0]|L5]; [|done]. destruct Hn as [Hn|Hn]; [lia|]. rewrite Hn in Hin. rewrite L5, (ul_last _ _ _ U). by apply Hg3.
    + exists r'. unfold heap. rewrite M5. split; [done|]. unfold same_record. rewrite E3. split_and!; try done.
      destruct En as [En|(En & q & rq & Hq & Hrq & Hts)]; [by left|right]. split; [done|]. intros q' Hq'.
      assert (q' = q) as -> by congruence. exists rq. split; [by apply D2|lia].
  - intros sl. cbv zeta. rewrite M5. assert (tuple_at (mem w3) sl = tuple_at (mem w) sl) as Etup by (unfold tuple_at; by rewrite D1).
    destruct (P sl) as [E|(E & x & r & Hx & Hr & Hts)]; rewrite E; rewrite ?Etup in *; [by left|right; right]. split; [done|].
    intros x' r' Hx' Hr'. assert (x' = x) as -> by congruence. apply D2 in Hr. unfold heap, w2 in *. cbn in Hr.
    assert (r' = r) as -> by congruence. lia.
Qed.

Lemma ptr_same start w w' : mem w' = mem w -> ptr_step start w w'.
Proof. intros E sl. left. by rewrite E. Qed.

(** Every operation of the others keeps what the reader of [id] holds. *)
Lemma others_kept gc log w w' id t :
  winv w -> few_txns w -> running w id t -> others_step gc log id w w' ->
  records_kept id (finish_time_ t) w w' /\ ptr_step id w w'.
Proof.
  intros Hinv Hfew Hrun (o & Hok & Hact & He). destruct (running_times w id t Hinv Hrun) as (Est & Efi & Hr & TL).
  pose proof Hok as [Hlt Hpre].
  assert (forall slot undo u t1 id1 tp, id1 ≠ id -> running w id1 t1 -> write_outcome w id1 slot undo t1 u tp w' -> timestamp_ u = finish_time_ t1 ->
    version_ptr_ tp = Some undo -> last_unlinked_ w' = last_unlinked_ w ->
    records_kept id (finish_time_ t) w w' /\ ptr_step id w w') as Hwrite.
  { intros slot undo u t1 id1 tp Hne Hrun1 (l & _ & [(_ & _ & t' & We & _)|(_ & u' & t' & We & _)]) Hts Hp El;
      destruct (running_times w id1 t1 Hinv Hrun1) as (_ & F1 & R1 & _); (split; [by eapply write_kept|]); eapply write_ptr; try done.
    - rewrite Hts. lia.
    - by left.
    - rewrite (we_ts _ _ _ _ _ _ _ _ _ We). lia.
    - by right. }
  destruct o as [|id1 table slot redo undo|id1 table slot undo|id1 table redo undo|id1|id1| | |table layout]; cbn in Hact.
  - cbn in He. injection He as <-. split; [|by apply ptr_same]. apply frame_kept; try done. intros i s Hi. cbn.
    rewrite lookup_insert_ne; [done|]. intros <-. destruct (ti_start _ _ _ (wi_txn _ Hinv _ _ Hi)) as [_ ?]. unfold time in *. lia.
  - assert (last_unlinked_ w' = last_unlinked_ w) as El by (eapply exec_last_unlinked; [|exact He]; done). destruct Hpre as (t1 & Hrun1 & Hm & Hf & Htab & Hdt & _).
    destruct (exec_update gc log w id1 table slot undo t1 Hinv Hrun1 Hm Hf Htab Hdt redo) as (w2 & He2 & Hout).
    rewrite He2 in He. injection He as <-. eapply Hwrite; try done. congruence.
  - assert (last_unlinked_ w' = last_unlinked_ w) as El by (eapply exec_last_unlinked; [|exact He]; done). destruct Hpre as (t1 & Hrun1 & Hm & Hf & Htab & Hdt).
    destruct (exec_delete gc log w id1 table slot undo t1 Hinv Hrun1 Hm Hf Htab Hdt) as (w2 & He2 & Hout).
    rewrite He2 in He. injection He as <-. eapply Hwrite; try done. congruence.
  - assert (last_unlinked_ w' = last_unlinked_ w) as El by (eapply exec_last_unlinked; [|exact He]; done). destruct Hpre as (t1 & Hrun1 & Hm & Hf & Htab & Hst & _).
    destruct (exec_insert gc log w id1 table undo t1 redo Hinv Hrun1 Hm Hf Htab Hst) as (w2 & sl & t' & He2 & _ & We & _).
    rewrite He2 in He. injection He as <-. destruct (running_times w id1 t1 Hinv Hrun1) as (_ & F1 & R1 & _).
    split; [by eapply write_kept|]. eapply write_ptr; [done| |by left]. rewrite (we_ts _ _ _ _ _ _ _ _ _ We). lia.
  - assert (last_unlinked_ w' = last_unlinked_ w) as El by (eapply exec_last_unlinked; [|exact He]; done). destruct Hpre as (t1 & Hrun1 & Hm).
    destruct (running_times w id1 t1 Hinv Hrun1) as (_ & F1 & R1 & _). cbn in He. rewrite (proj1 Hrun1) in He. injection He as <-.
    pose proof (commit_effect gc log w id1 t1 Hinv Hrun1 Hm Hlt) as Fe. split; [|intros sl; left; apply (fe_ptr _ _ _ _ _ Fe)].
    eapply finish_kept; try done; try lia. rewrite Efi, F1. intros E. apply Hact. f_equal. lia.
  - assert (last_unlinked_ w' = last_unlinked_ w) as El by (eapply exec_last_unlinked; [|exact He]; done). destruct Hpre as (t1 & Hrun1).
    destruct (running_times w id1 t1 Hinv Hrun1) as (_ & F1 & R1 & _).
    destruct (exec_abort gc log w id1 t1 Hinv Hrun1 Hlt) as (w2 & t' & He2 & Fe & _). rewrite He2 in He. injection He as <-.
    split; [|intros sl; left; apply (fe_ptr _ _ _ _ _ Fe)].
    eapply finish_kept; try done; try lia. rewrite Efi, F1. intros E. apply Hact. f_equal. lia.
  - injection He as <-. assert (mem (serialize w) = mem w) as Em by (unfold serialize; by destruct (log_queue w)). split; [|by apply ptr_same].
    unfold serialize. destruct (log_queue w); by apply frame_kept.
  - by eapply gc_kept.
  - assert (last_unlinked_ w' = last_unlinked_ w) as El by (eapply exec_last_unlinked; [|exact He]; done). cbn [exec] in He. unfold make_table in He. destruct Hpre as (_ & Hst & _).
    destruct (block_store (mem w)) as [|b rest] eqn:Est2; [done|].
    rewrite (NewBlock_eq table b rest (mem w) (wi_store _ Hinv) Est2) in He. cbn in He. injection He as <-.
    split; [by apply frame_kept|]. intros sl. by left.
Qed.

(** ** Slots without a tuple have nothing to read *)

Lemma write_slots w id t undo u sl tp t' w' :
  winv w -> write_effect w id t undo u sl tp t' w' -> tp = tuple_at (mem w) sl \/ allocated_ tp = true -> slots_ok w -> slots_ok w'.
Proof.
  intros Hinv We Htp Hok sl2 l' Hl'. destruct (wi_slot _ Hinv sl2) as [l Hl]. rewrite (we_tuple _ _ _ _ _ _ _ _ _ We).
  destruct (decide (sl2 = sl /\ allocated_ tp = true)) as [[-> Ha]|Hn].
  - rewrite decide_True by done. split; [done|congruence].
  - assert (tuple_at (mem w') sl2 = tuple_at (mem w) sl2) as E.
    { rewrite (we_tuple _ _ _ _ _ _ _ _ _ We). case_decide; [subst sl2|done]. destruct Htp as [->|Ha]; [done|]. by destruct Hn. }
    rewrite (we_tuple _ _ _ _ _ _ _ _ _ We) in E. rewrite E. assert (l' = l) as ->.
    { eapply chain_det; [exact (si_chain _ _ _ Hl')|]. rewrite (we_tuple _ _ _ _ _ _ _ _ _ We), E, (we_heap _ _ _ _ _ _ _ _ _ We).
      apply chain_insert_fresh; [apply We|apply Hl]. }
    rewrite (write_records _ _ _ _ _ _ _ _ _ We _ _ Hl). by apply Hok.
Qed.

(** A finished transaction restamps no record of a slot that is not allocated. *)
Lemma finish_dead w id t t' w' sl l :
  winv w -> finish_effect w id t t' w' -> slot_inv w sl l -> allocated_ (tuple_at (mem w) sl) = false ->
  records (heap w') l = records (heap w) l.
Proof.
  intros Hinv Fe Hl Ha. rewrite (fe_heap _ _ _ _ _ Fe). apply records_same. intros p Hp. rewrite store_timestamps_lookup.
  case_decide as Hin; [|done]. exfalso. pose proof (fe_run _ _ _ _ _ Fe) as [Hid Hact].
  destruct (ti_undo _ _ _ (wi_txn _ Hinv _ _ Hid) p Hin) as (r & Hr & Hts & _). unfold active in Hact.
  destruct (records (heap w) l) as [|r0 rs] eqn:Er.
  - assert (r ∈ records (heap w) l) as Hx by (apply list_elem_of_omap; eauto). rewrite Er in Hx. by apply elem_of_nil in Hx.
  - assert (timestamp_ r0 = timestamp_ r) as E by (eapply (head_own w sl l); [done|by rewrite Er|apply list_elem_of_omap; eauto|lia]).
    pose proof (si_alloc _ _ _ Hl r0 ltac:(by rewrite Er) ltac:(lia)). congruence.
Qed.

Lemma finish_slots w id t t' w' :
  winv w -> winv w' -> finish_effect w id t t' w' ->
  (forall sl l, slot_inv w sl l -> tuple_at (mem w') sl = tuple_at (mem w) sl \/
    tuple_at (mem w') sl = rollback_records (own_prefix (finish_time_ t) (records (heap w) l)) (tuple_at (mem w) sl)) ->
  slots_ok w -> slots_ok w'.
Proof.
  intros Hinv Hinv' Fe Htup Hok sl l' Hl'. destruct (wi_slot _ Hinv sl) as [l Hl].
  rewrite (slot_chain _ _ _ _ Hl' (fe_slot _ _ _ _ _ Hinv Fe sl l Hl)). pose proof (fe_run _ _ _ _ _ Fe) as Hrun.
  assert (tuple_at (mem w') sl = tuple_at (mem w) sl -> slot_ok (tuple_at (mem w') sl) (records (heap w') l)) as Hsame.
  { intros ->. destruct (Hok sl l Hl) as [H1 H2]. split; [done|]. intros Ha. rewrite (finish_dead _ _ _ _ _ _ _ Hinv Fe Hl Ha). auto. }
  destruct (Htup sl l Hl) as [E|E]; [auto|].
  destruct (own_split w id t sl l Hinv Hrun Hl) as (os & rest & Er & Eos & HF & Hcase & Halloc). rewrite <-Eos in E.
  destruct (decide (os = [])) as [E0|Hne]; [rewrite E0 in E; auto|]. destruct (Halloc Hne) as [Ha _].
  destruct Hcase as [Hni|(os' & i & Ei & _ & Hi & ->)].
  - destruct (rollback_no_insert os (tuple_at (mem w) sl) Hni Ha) as (Ha' & _). rewrite E. split; [done|congruence].
  - assert (present_ (tuple_at (mem w') sl) = false) as Hp.
    { rewrite E, Ei. unfold rollback_records. rewrite foldl_app. cbn [foldl]. unfold rollback_record at 1. by rewrite Hi. }
    split; [congruence|]. intros _. right. rewrite app_nil_r in Er.
    pose proof (records_restamp (time w) (undo_buffer_ t) _ _ _ (si_chain _ _ _ Hl)) as HR. rewrite <-(fe_heap _ _ _ _ _ Fe), Er in HR.
    assert (Forall2 (fun r r' => timestamp_ r' = time w /\ type_ r' = type_ r) os (records (heap w') l)) as HR2.
    { clear -HR HF Hinv Hrun Hl. revert HF HR. generalize (records (heap w') l). induction os as [|r os IH]; intros rs HF HR; [by inversion HR; constructor|].
      apply Forall2_cons_inv_l in HR as (r' & rs' & (p & Hp & Hr & ->) & HR & ->). inversion_clear HF as [|?? Hts HF'].
      constructor; [|by apply IH]. destruct (restamp_fields (time w) (undo_buffer_ t) p r) as (Et & _ & _ & _ & _). split; [|done].
      unfold restamp. rewrite decide_True; [done|]. by apply (own_record w id t sl l p r Hinv Hrun Hl Hp Hr). }
    rewrite Ei in HR2. apply Forall2_app_inv_l in HR2 as (k1 & k2 & H1 & H2 & Ek). apply Forall2_cons_inv_l in H2 as (i' & k3 & [Ts Ty] & H3 & ->).
    apply Forall2_nil_inv_l in H3 as ->. exists (time w), i'. rewrite Ek. split; [|split; [apply last_snoc|congruence]].
    apply Forall_app. split; [|by constructor]. clear -H1. induction H1 as [|? ? ? ? [? _] ? IH]; by constructor.
Qed.

Lemma step_slots gc log o w w' : winv w -> op_ok o w -> exec gc log o w = Some w' -> slots_ok w -> slots_ok w'.
Proof.
  intros Hinv Hok He Hs. destruct (step_winv gc log o w Hinv Hok) as (w2 & He2 & Hinv'). rewrite He2 in He. injection He as ->. rename He2 into He.
  pose proof Hok as [Hlt Hpre].
  assert (forall slot undo u t1 id1 tp, write_outcome w id1 slot undo t1 u tp w' -> allocated_ tp = allocated_ (tuple_at (mem w) slot) -> slots_ok w') as Hwrite.
  { intros slot undo u t1 id1 tp (l & _ & [(_ & Hv & t' & We & _)|(_ & u' & t' & We & _)]) Ha; (eapply (write_slots _ _ _ _ _ _ _ _ _ Hinv We); [|done]).
    - right. apply andb_prop in Hv as [Hv _]. congruence.
    - by left. }
  destruct o as [|id1 table slot redo undo|id1 table slot undo|id1 table redo undo|id1|id1| | |table layout].
  - cbn in He. injection He as <-. by apply (slots_ok_mem w).
  - destruct Hpre as (t1 & Hrun1 & Hm & Hf & Htab & Hdt & _).
    destruct (exec_update gc log w id1 table slot undo t1 Hinv Hrun1 Hm Hf Htab Hdt redo) as (w3 & He2 & Hout).
    rewrite He2 in He. injection He as <-. by eapply Hwrite.
  - destruct Hpre as (t1 & Hrun1 & Hm & Hf & Htab & Hdt).
    destruct (exec_delete gc log w id1 table slot undo t1 Hinv Hrun1 Hm Hf Htab Hdt) as (w3 & He2 & Hout).
    rewrite He2 in He. injection He as <-. by eapply Hwrite.
  - destruct Hpre as (t1 & Hrun1 & Hm & Hf & Htab & Hst & _).
    destruct (exec_insert gc log w id1 table undo t1 redo Hinv Hrun1 Hm Hf Htab Hst) as (w3 & sl & t' & He2 & _ & We & _).
    rewrite He2 in He. injection He as <-. eapply (write_slots _ _ _ _ _ _ _ _ _ Hinv We); [by right|done].
  - destruct Hpre as (t1 & Hrun1 & Hm). cbn in He. rewrite (proj1 Hrun1) in He. injection He as <-.
    pose proof (commit_effect gc log w id1 t1 Hinv Hrun1 Hm Hlt) as Fe. eapply (finish_slots w); try done. intros sl l Hl. left.
    destruct (fe_tuple _ _ _ _ _ Fe sl) as [E|[Ha _]]; [done|]. cbn in Ha.
    destruct (ti_active _ _ _ (wi_txn _ Hinv _ _ (proj1 Hrun1)) (proj2 Hrun1)) as (_ & E & _). congruence.
  - destruct Hpre as (t1 & Hrun1). destruct (exec_abort gc log w id1 t1 Hinv Hrun1 Hlt) as (w3 & t' & He2 & Fe & _ & Htup).
    rewrite He2 in He. injection He as <-. eapply (finish_slots w); try done. intros sl l Hl. right. by apply Htup.
  - injection He as <-. apply (slots_ok_mem w); try done; unfold serialize; by destruct (log_queue w).
  - destruct (exec_gc gc log w Hinv Hlt) as (oldest & w3 & He2 & Hc). rewrite He2 in He. injection He as <-. by apply Hc.
  - cbn [exec] in He. unfold make_table in He. destruct Hpre as (_ & Hst & _).
    destruct (block_store (mem w)) as [|b rest] eqn:Est2; [done|].
    rewrite (NewBlock_eq table b rest (mem w) (wi_store _ Hinv) Est2) in He. cbn in He. injection He as <-. by apply (slots_ok_mem w).
Qed.

Lemma reachable_slots gc log w : reachable gc log w -> slots_ok w.
Proof.
  intros (w0 & H0 & Hs). assert (slots_ok w0) as Hok.
  { destruct H0 as (store & -> & _). intros sl l Hl. split; [done|]. intros _. left. pose proof (si_chain _ _ _ Hl) as Hc.
    destruct l as [|p l]; [done|]. by destruct Hc. }
  apply initial_winv in H0. revert H0 Hok. induction Hs as [|w1 w2 w3 (o & Hop & He) _ IH]; [done|]. intros Hinv Hok. apply IH.
  - destruct (step_winv gc log o w1 Hinv Hop) as (w' & He' & ?). congruence.
  - by eapply step_slots.
Qed.

(** ** What is left of a walk along a version chain *)

Abbreviation undo_op := (DeltaRecordType * row)%type.

Inductive trail (start : Z) (w : world) : option Z -> list undo_op -> Prop :=
| trail_end : trail start w None []
| trail_stop p r : heap w !! p = Some r -> guarded start w p -> timestamp_ r <= start -> trail start w (Some p) []
| trail_undo p r us : heap w !! p = Some r -> guarded start w p -> start < timestamp_ r -> delta_sorted r ->
    trail start w (next_ r) us -> trail start w (Some p) ((type_ r, delta_ r) :: us).

Definition undo_visible (us : list undo_op) (visible : bool) : bool :=
  foldl (fun b u => match u.1 with UPDATE => b | INSERT => false | DELETE => true end) visible us.

Definition undo_value (us : list undo_op) (c : Z) (v : option (list Z)) : option (list Z) :=
  foldl (fun v u => match u.1 with UPDATE => default v (row_value u.2 c) | _ => v end) v us.

(** The walk is the same after a step of the others. *)
Lemma trail_kept start finish w w' ptr us : records_kept start finish w w' -> trail start w ptr us -> trail start w' ptr us.
Proof.
  intros Hk Ht. induction Ht as [|p r Hr Hg Hts|p r us Hr Hg Hts Hd Ht IH]; [constructor|..]; destruct (Hk p r Hr Hg) as (Hg' & r' & Hr' & E1 & E2 & E3 & _ & En).
  - eapply trail_stop; [done|done|lia].
  - rewrite <-E1, <-E2. apply trail_undo; [done|done|lia|unfold delta_sorted in *; by rewrite E2|].
    destruct En as [->|(-> & Hq)]; [done|]. destruct Ht as [|q rq Hrq|q rq us Hrq Hgq Htq]; [constructor|constructor|].
    destruct (Hq q eq_refl) as (rq' & Hrq' & Hle). simplify_eq. lia.
Qed.

(** The operations of the records newer than [start]. *)
Fixpoint newer_ops (start : Z) (rs : list UndoRecord) : list undo_op :=
  match rs with
  | [] => []
  | r :: rs => if NewerThan (timestamp_ r) start then (type_ r, delta_ r) :: newer_ops start rs else []
  end.

Lemma chain_guarded start w sl l p : slot_inv w sl l -> p ∈ l -> guarded start w p.
Proof.
  intros Hl Hp. pose proof (chain_lookup _ _ _ (si_chain _ _ _ Hl)) as HF. rewrite Forall_forall in HF. destruct (HF p Hp) as [r Hr].
  destruct (si_rec _ _ _ Hl p r Hp Hr) as (_ & _ & _ & _ & i & t & Hi & Hpt & Hd). exists r, i, t. done.
Qed.

Lemma chain_trail start w sl l : slot_inv w sl l -> trail start w (version_ptr_ (tuple_at (mem w) sl)) (newer_ops start (records (heap w) l)).
Proof.
  intros Hl. assert (forall k ptr, is_chain (heap w) ptr k -> (forall p, p ∈ k -> p ∈ l) -> trail start w ptr (newer_ops start (records (heap w) k))) as H.
  2: { apply H; [apply Hl|done]. }
  induction k as [|p k IH]; intros ptr Hc Hsub; cbn in Hc; [subst; constructor|]. destruct Hc as (-> & r & Hr & Hc).
  rewrite (records_cons _ _ _ _ Hr). cbn [newer_ops]. assert (guarded start w p) as Hg by (eapply chain_guarded; [done|apply Hsub; by left]).
  destruct (NewerThan (timestamp_ r) start) eqn:E.
  - apply NewerThan_true in E. apply trail_undo; try done; [|apply IH; [done|intros q Hq; apply Hsub; by right]].
    by apply (si_rec _ _ _ Hl p r (Hsub p ltac:(by left)) Hr).
  - apply NewerThan_false in E. by eapply trail_stop.
Qed.

Lemma reconstruct_ops start rs : forall v : view,
  (reconstruct start rs v).1 = undo_visible (newer_ops start rs) v.1 /\
  forall c, (reconstruct start rs v).2 !! c = undo_value (newer_ops start rs) c (v.2 !! c).
Proof.
  induction rs as [|r rs IH]; intros v; [done|]. cbn [reconstruct newer_ops]. destruct (NewerThan _ _); [|done].
  destruct (IH (undo_view r v)) as [H1 H2]. rewrite H1. split.
  - unfold undo_view. by destruct (type_ r).
  - intros c. rewrite H2. unfold undo_view, undo_value. cbn [foldl fst snd]. destruct (type_ r); cbn [snd]; try done. by rewrite write_row_lookup.
Qed.

(** ** The invariant of the reader *)

Section reader.
Context (id finish : Z) (sl : TupleSlot) (cols : list Z) (target : option attributes).
Hypothesis Hfinish : finish = id + 2 ^ 63.
Hypothesis Hcols : StronglySorted Z.lt cols.

Abbreviation ptr w := (version_ptr_ (tuple_at (mem w) sl)).

(** The reader's transaction runs, and what it is to read is [target]. *)
Record reading (w : world) : Prop := {
  rd_winv : winv w;
  rd_slots : slots_ok w;
  rd_run : exists t, running w id t /\ finish_time_ t = finish;
  rd_target : forall l, slot_inv w sl l -> read id finish (tuple_at (mem w) sl) (records (heap w) l) = target;
}.

(** The operations still to undo on what was read under version pointer [p]. *)
Definition window (w : world) (p : option Z) (us : list undo_op) : Prop :=
  match p with
  | None => us = []
  | Some q => exists r, heap w !! q = Some r /\ guarded id w q /\
      if decide (timestamp_ r = finish) then us = [] else trail id w (Some q) us
  end.

(** Undoing them gives the values and the visibility of the target. *)
Definition good (us : list undo_op) (buf : row) : Prop :=
  forall c v a, (c, v) ∈ buf -> target = Some a -> undo_value us c v = a !! c.
Definition good_visible (us : list undo_op) (visible : bool) : Prop := undo_visible us visible = bool_decide (is_Some target).

(** The version pointer is still [p], or it never will be again. *)
Definition held (w : world) (p : option Z) (P : list undo_op -> Prop) : Prop := ptr w = p /\ exists us, window w p us /\ P us.
Definition stale (w : world) (p : option Z) : Prop :=
  match p with
  | None => exists x r, ptr w = Some x /\ heap w !! x = Some r /\ guarded id w x /\ id < timestamp_ r
  | Some q => (exists r, heap w !! q = Some r) /\ guarded id w q /\ ptr w ≠ Some q
  end.

Definition reader_inv (w : world) (rd : reader) : Prop :=
  match rd with
  | RCheck | RPtr => True
  | RCopy p todo buf => buf.*1 ++ todo = cols /\ (stale w p \/ held w p (fun us => good us buf))
  | RAllocated p buf => buf.*1 = cols /\ (stale w p \/ held w p (fun us => good us buf))
  | RPresent p buf present => buf.*1 = cols /\
      (stale w p \/ held w p (fun us => good us buf /\ (present = false -> good_visible us false)))
  | RRecheck p buf visible => buf.*1 = cols /\ (stale w p \/ held w p (fun us => good us buf /\ good_visible us visible))
  | ROwn p buf visible => buf.*1 = cols /\ exists us, window w p us /\ good us buf /\ good_visible us visible
  | RChase p buf visible => buf.*1 = cols /\ exists us, trail id w p us /\ good us buf /\ good_visible us visible
  | RUndo q buf visible => buf.*1 = cols /\
      exists u us, trail id w (Some q) (u :: us) /\ good (u :: us) buf /\ good_visible (u :: us) visible
  | RDone visible buf => (if visible then Some buf else None) = project cols <$> target
  end.

Lemma dead_invisible rs : dead_chain rs -> undo_visible (newer_ops id rs) false = false.
Proof.
  intros [-> |(c & i & Hc & Hl & Hi)]; [done|]. destruct (decide (id < c)) as [Hlt|Hge].
  - assert (newer_ops id rs = (fun r => (type_ r, delta_ r)) <$> rs) as ->.
    { clear Hl. induction Hc as [|r rs Hr _ IH]; [done|]. cbn. rewrite (proj2 (NewerThan_true _ _)) by lia. by rewrite IH. }
    apply last_Some in Hl as [rs0 ->]. rewrite fmap_app. unfold undo_visible. rewrite foldl_app. cbn. by rewrite Hi.
  - destruct Hc as [|r rs Hr _]; [done|]. cbn. rewrite (proj2 (NewerThan_false _ _)) by lia. done.
Qed.

(** What the reader finds in a state: values and visibility that undoing corrects. *)
Lemma current w : reading w -> exists us, window w (ptr w) us /\
  (forall c a, target = Some a -> undo_value us c (attrs_ (tuple_at (mem w) sl) !! c) = a !! c) /\
  good_visible us (present_ (tuple_at (mem w) sl)) /\
  (allocated_ (tuple_at (mem w) sl) = false -> present_ (tuple_at (mem w) sl) = false /\ target = None).
Proof.
  intros G. pose proof (rd_winv _ G) as Hinv. destruct (wi_slot _ Hinv sl) as [l Hl]. pose proof (rd_target _ G l Hl) as Ht.
  pose proof (chain_trail id w sl l Hl) as Htr. pose proof (si_chain _ _ _ Hl) as Hc. destruct (rd_slots _ G sl l Hl) as [Hp Hd].
  destruct (rd_run _ G) as (t & Hrun & Eft). destruct (running_times w id t Hinv Hrun) as (_ & _ & Hid & _).
  unfold good_visible, read, read_view in *. set (tp := tuple_at (mem w) sl) in *.
  assert (allocated_ tp = false -> present_ tp = false /\ target = None) as Hna.
  { intros Ha. split; [destruct (present_ tp); [rewrite Hp in Ha by done; done|done]|]. rewrite Ha in Ht. by cbn in Ht. }
  assert (allocated_ tp = true -> in_place tp = (present_ tp, attrs_ tp)) as Hip by (unfold in_place; by intros ->).
  assert (forall v : view, (if v.1 then Some v.2 else None) = target -> v.1 = bool_decide (is_Some target) /\ forall a, target = Some a -> v.2 = a) as Hv.
  { intros [[|] a]; cbn; intros <-; (split; [done|]); by intros ? [= ->]. }
  destruct l as [|p k].
  - cbn in Hc. exists []. rewrite Hc. split; [done|]. cbn in Ht. destruct (allocated_ tp) eqn:Ha.
    + rewrite Hip in Ht by done. destruct (Hv (present_ tp, attrs_ tp) Ht) as [H1 H2]. split_and!; try done. intros c a Ea. by rewrite <-(H2 a Ea).
    + destruct (Hna eq_refl) as [-> ->]. done.
  - cbn in Hc. destruct Hc as (Hptr & r & Hr & Hc). rewrite (records_cons _ _ _ _ Hr) in Ht, Htr, Hd. rewrite Hptr in Htr |- *.
    assert (guarded id w p) as Hg by (eapply chain_guarded; [done|by left]).
    destruct (decide (timestamp_ r = finish)) as [Eo|Eo].
    + exists []. assert (allocated_ tp = true) as Ha by (apply (si_alloc _ _ _ Hl r); [by rewrite (records_cons _ _ _ _ Hr)|lia]).
      split; [exists r; by rewrite decide_True|]. rewrite Ha, Hip in Ht by done. destruct (Hv (present_ tp, attrs_ tp) Ht) as [H1 H2].
      split_and!; try done. intros c a Ea. by rewrite <-(H2 a Ea).
    + exists (newer_ops id (r :: records (heap w) k)). split; [exists r; by rewrite decide_False|].
      destruct (allocated_ tp) eqn:Ha.
      * rewrite Hip in Ht by done. destruct (reconstruct_ops id (r :: records (heap w) k) (present_ tp, attrs_ tp)) as [R1 R2].
        destruct (Hv _ Ht) as [H1 H2]. cbn [fst snd] in R1, R2. rewrite <-R1. split_and!; try done. intros c a Ea. etrans; [symmetry; apply R2|by rewrite (H2 a Ea)].
      * destruct (Hna eq_refl) as [-> ->]. split_and!; try done. by apply dead_invisible, Hd.
Qed.

(** *** Steps of the others *)

Lemma window_kept w w' p us : records_kept id finish w w' -> window w p us -> window w' p us.
Proof.
  intros Hk. destruct p as [q|]; [|done]. intros (r & Hr & Hg & Hw). destruct (Hk q r Hr Hg) as (Hg' & r' & Hr' & Hs).
  exists r'. split; [done|]. split; [done|]. destruct Hs as (_ & _ & _ & E & _).
  destruct (decide (timestamp_ r = finish)) as [Ef|Ef]; [by rewrite decide_True by by apply E|].
  rewrite decide_False by (by rewrite <-E). by eapply trail_kept.
Qed.

Lemma head_guarded w u : winv w -> ptr w = Some u -> guarded id w u.
Proof.
  intros Hinv Hu. destruct (wi_slot _ Hinv sl) as [l Hl]. pose proof (si_chain _ _ _ Hl) as Hc. rewrite Hu in Hc.
  destruct l as [|p l]; [done|]. destruct Hc as ([= ->] & _). eapply chain_guarded; [done|by left].
Qed.

Lemma stale_kept w w' p : winv w' -> records_kept id finish w w' -> ptr_step id w w' -> stale w p -> stale w' p.
Proof.
  intros Hinv' Hk Hp. destruct p as [q|]; cbn [stale].
  - intros ([r Hr] & Hg & Hne). destruct (Hk q r Hr Hg) as (Hg' & r' & Hr' & _). split; [by eauto|]. split; [done|].
    destruct (Hp sl) as [->|[(u & ru & -> & Hu & _)|[-> _]]]; [done| |done]. intros [= ->]. congruence.
  - intros (x & r & Hx & Hr & Hg & Hts). destruct (Hk x r Hr Hg) as (Hg' & r' & Hr' & _ & _ & Ets & _).
    destruct (Hp sl) as [E|[(u & ru & E & Hu & Hru & Hlt)|[_ Hle]]].
    + exists x, r'. rewrite E. split_and!; try done. by apply Ets.
    + exists u, ru. split; [done|]. split; [done|]. split; [|done]. by apply head_guarded.
    + specialize (Hle x r Hx Hr). lia.
Qed.

Lemma held_kept w w' p P : winv w -> winv w' -> records_kept id finish w w' -> ptr_step id w w' ->
  stale w p \/ held w p P -> stale w' p \/ held w' p P.
Proof.
  intros Hinv Hinv' Hk Hp [Hs|[Hptr (us & Hw & HP)]]; [left; by eapply stale_kept|].
  destruct (decide (ptr w' = p)) as [E|Hne]; [right; split; [done|]; exists us; split; [by eapply window_kept|done]|left].
  destruct p as [q|]; cbn [stale].
  - destruct Hw as (r & Hr & Hg & _). destruct (Hk q r Hr Hg) as (Hg' & r' & Hr' & _). split; [by eauto|done].
  - destruct (Hp sl) as [E|[(u & ru & E & Hu & Hru & Hlt)|[E _]]]; [congruence| |congruence].
    exists u, ru. split_and!; try done. by apply head_guarded.
Qed.

Lemma others_reader_inv w w' rd : winv w -> winv w' -> records_kept id finish w w' -> ptr_step id w w' ->
  reader_inv w rd -> reader_inv w' rd.
Proof.
  intros Hinv Hinv' Hk Hp. destruct rd as [| |p todo buf|p buf|p buf b|p buf b|p buf b|p buf b|q buf b|b buf]; cbn [reader_inv]; try done.
  1-4: intros [E H]; split; [done|]; by eapply (held_kept w).
  - intros (E & us & Hw & H). split; [done|]. exists us. split; [by eapply window_kept|done].
  - intros (E & us & Hw & H). split; [done|]. exists us. split; [by eapply trail_kept|done].
  - intros (E & u & us & Hw & H). split; [done|]. exists u, us. split; [by eapply trail_kept|done].
Qed.

(** *** Steps of the reader *)

Lemma trail_det w p us us' : trail id w p us -> trail id w p us' -> us = us'.
Proof.
  intros H. revert us'. induction H as [|p r Hr Hg Hts|p r us Hr Hg Hts Hd Ht IH]; intros us' H'; inversion H'; simplify_eq; try done; try lia.
  f_equal. by apply IH.
Qed.

Lemma window_det w p us us' : window w p us -> window w p us' -> us = us'.
Proof.
  destruct p as [q|]; cbn [window]; [|congruence]. intros (r & Hr & _ & H) (r' & Hr' & _ & H'). simplify_eq.
  case_decide; [congruence|by eapply trail_det].
Qed.

(** With nothing left to undo, the target has been read. *)
Lemma good_done buf visible : buf.*1 = cols -> good [] buf -> good_visible [] visible ->
  (if visible then Some buf else None) = project cols <$> target.
Proof.
  unfold good_visible, undo_visible. cbn [foldl]. intros E Hg ->. destruct target as [a|] eqn:Et; [|done]. cbn. f_equal. rewrite <-E.
  clear E. unfold project. rewrite <-list_fmap_compose. rewrite <-(list_fmap_id buf) at 1. apply list_fmap_ext. intros i [c v] Hi. cbn. f_equal.
  apply (Hg c v a); [by eapply list_elem_of_lookup_2|done].
Qed.

Lemma good_delta t d us buf : StronglySorted Z.lt (d.*1) -> buf.*1 = cols -> good ((t, d) :: us) buf ->
  good us (match t with UPDATE => ApplyDelta d buf | _ => buf end) /\
  (match t with UPDATE => ApplyDelta d buf | _ => buf end).*1 = cols.
Proof.
  intros Hd E Hg. destruct t; [|done..]. rewrite ApplyDelta_spec by (try rewrite E; done). split.
  - intros c v a Hin Ha. apply list_elem_of_fmap in Hin as ([c' v'] & [= -> ->] & Hin). exact (Hg c' v' a Hin Ha).
  - rewrite <-list_fmap_compose. exact E.
Qed.

(** What is found now joins what was read under the same pointer. *)
Lemma held_current w p P Q : reading w ->
  (forall us, window w p us -> ptr w = p -> P us ->
     (forall c a, target = Some a -> undo_value us c (attrs_ (tuple_at (mem w) sl) !! c) = a !! c) ->
     good_visible us (present_ (tuple_at (mem w) sl)) ->
     (allocated_ (tuple_at (mem w) sl) = false -> present_ (tuple_at (mem w) sl) = false /\ target = None) -> Q us) ->
  stale w p \/ held w p P -> stale w p \/ held w p Q.
Proof.
  intros G HQ [Hs|[E (us & Hw & HP)]]; [by left|right]. destruct (current w G) as (us' & Hw' & H1 & H2 & H3). rewrite E in Hw'.
  rewrite (window_det _ _ _ _ Hw' Hw) in *. split; [done|]. exists us. split; [done|]. by apply HQ.
Qed.

Lemma reader_step_inv w rd rd' : reading w -> reader_inv w rd ->
  reader_step (mem w) id finish sl cols rd = Some rd' -> reader_inv w rd'.
Proof.
  intros G. pose proof (rd_winv _ G) as Hinv.
  destruct rd as [| |p [|c todo] buf|p buf|p buf b|p buf b|[q|] buf b|[q|] buf b|q buf b|b buf]; cbn [reader_inv reader_step].
  - intros _ [= <-]. destruct (allocated_ _) eqn:Ha; cbn [reader_inv]; [done|].
    destruct (current w G) as (us & _ & _ & _ & H). by destruct (H Ha) as [_ ->].
  - intros _ [= <-]. split; [done|]. right. split; [done|]. destruct (current w G) as (us & Hw & _). exists us. split; [done|].
    intros c v a Hin. by apply elem_of_nil in Hin.
  - intros [E H] [= <-]. rewrite app_nil_r in E. done.
  - intros [E H] [= <-]. cbn [reader_inv]. split; [by rewrite fmap_app, <-app_assoc|]. eapply held_current; [done| |exact H].
    intros us Hw Ep Hg Hc _ _ c' v a Hin Ha. apply elem_of_app in Hin as [Hin|Hin]; [by apply (Hg c' v a)|].
    apply list_elem_of_singleton in Hin as [= -> ->]. by apply Hc.
  - intros [E H] [= <-]. cbn [reader_inv]. split; [done|]. eapply held_current; [done| |exact H].
    intros us Hw Ep Hg _ Hv Ha. split; [done|]. intros Hf. destruct (Ha Hf) as [Hp _]. by rewrite Hp in Hv.
  - intros [E H] [= <-]. cbn [reader_inv]. split; [done|]. eapply held_current; [done| |exact H].
    intros us Hw Ep [Hg Hb] _ Hv _. split; [done|]. destruct b; [done|]. by apply Hb.
  - intros [E H] [= <-]. case_decide as Ep; cbn [reader_inv]; [|done]. split; [done|]. destruct H as [Hs|[_ H]]; [|done].
    exfalso. unfold AtomicallyReadVersionPtr in Ep. destruct p as [q|]; cbn [stale] in Hs; [by destruct Hs as (_ & _ & Hne)|].
    destruct Hs as (x & r & Hx & _). congruence.
  - intros (E & us & (r & Hr & Hg & Hw) & Hgood & Hv). change (undos (mem w)) with (heap w). rewrite Hr. cbn [mbind option_bind]. intros [= <-].
    case_decide; cbn [reader_inv]; [subst us; by apply good_done|]. split; [done|]. by exists us.
  - intros (E & us & -> & Hgood & Hv) [= <-]. cbn [reader_inv]. by apply good_done.
  - intros (E & us & Ht & Hgood & Hv). inversion Ht as [|? r Hr Hg Hts Ep Eu|? r us' Hr Hg Hts Hd Ht' Ep Eu]; subst;
      change (undos (mem w)) with (heap w); rewrite Hr; cbn [mbind option_bind]; intros [= <-].
    + rewrite (proj2 (NewerThan_false _ _)) by done. cbn [reader_inv]. by apply good_done.
    + rewrite (proj2 (NewerThan_true _ _)) by done. cbn [reader_inv]. split; [done|]. by eauto.
  - intros (E & us & Ht & Hgood & Hv) [= <-]. inversion Ht; subst. cbn [reader_inv]. by apply good_done.
  - intros (E & u & us & Ht & Hgood & Hv). inversion Ht as [| |? r us' Hr Hg Hts Hd Ht' Ep Eu]; subst.
    change (undos (mem w)) with (heap w). rewrite Hr. cbn [mbind option_bind]. intros [= <-].
    destruct (good_delta _ _ us buf Hd E Hgood) as [Hg' E']. unfold good_visible, undo_visible in *. cbn [foldl fst] in Hv.
    destruct (type_ r); cbn [reader_inv]; (split; [done|]); by exists us.
  - done.
Qed.

(** The reader never dereferences freed memory. *)
Lemma reader_enabled w rd : reader_inv w rd -> (forall v buf, rd ≠ RDone v buf) ->
  is_Some (reader_step (mem w) id finish sl cols rd).
Proof.
  destruct rd as [| |p [|c todo] buf|p buf|p buf b|p buf b|[q|] buf b|[q|] buf b|q buf b|b buf]; cbn [reader_inv reader_step]; try by eexists.
  - intros (E & us & (r & Hr & _) & _) _. change (undos (mem w)) with (heap w). rewrite Hr. by eexists.
  - intros (E & us & Ht & _) _. inversion Ht as [|? r Hr|? r us' Hr]; subst; change (undos (mem w)) with (heap w); rewrite Hr; by eexists.
  - intros (E & u & us & Ht & _) _. inversion Ht as [| |? r us' Hr]; subst. change (undos (mem w)) with (heap w). rewrite Hr. by eexists.
  - intros _ H. by destruct (H b buf).
Qed.

(** *** The reader alone finishes *)

Definition alone (w : world) (rd rd' : reader) : Prop := reader_step (mem w) id finish sl cols rd = Some rd'.
Definition finishes (w : world) (rd : reader) : Prop := exists v buf, rtc (alone w) rd (RDone v buf).

Lemma finishes_step w rd rd' : alone w rd rd' -> finishes w rd' -> finishes w rd.
Proof. intros Hs (v & buf & H). exists v, buf. by eapply rtc_l. Qed.

Lemma chase_finishes w p us : trail id w p us -> forall buf v, finishes w (RChase p buf v).
Proof.
  intros H. induction H as [|p r Hr Hg Hts|p r us Hr Hg Hts Hd Ht IH]; intros buf v.
  - exists v, buf. by apply rtc_once.
  - exists v, buf. apply rtc_once. unfold alone. cbn. change (undos (mem w)) with (heap w). rewrite Hr. cbn. by rewrite (proj2 (NewerThan_false _ _)).
  - eapply finishes_step; [unfold alone; cbn; change (undos (mem w)) with (heap w); rewrite Hr; cbn; by rewrite (proj2 (NewerThan_true _ _))|].
    eapply finishes_step; [unfold alone; cbn; change (undos (mem w)) with (heap w); by rewrite Hr|]. destruct (type_ r); apply IH.
Qed.

Lemma window_finishes w p us buf v : window w p us -> finishes w (ROwn p buf v).
Proof.
  destruct p as [q|]; [|intros _; exists v, buf; by apply rtc_once]. intros (r & Hr & _ & H).
  eapply finishes_step; [unfold alone; cbn; change (undos (mem w)) with (heap w); by rewrite Hr|].
  case_decide; [exists v, buf; apply rtc_refl|by eapply chase_finishes].
Qed.

Lemma recheck_finishes w p buf v : reading w -> (p ≠ ptr w -> finishes w RPtr) -> finishes w (RRecheck p buf v).
Proof.
  intros G Hp. eapply finishes_step; [done|]. case_decide as E; [|by apply Hp]. destruct (current w G) as (us & Hw & _).
  eapply window_finishes. rewrite E. exact Hw.
Qed.

Lemma copy_finishes w p todo : forall buf, reading w -> (p ≠ ptr w -> finishes w RPtr) -> finishes w (RCopy p todo buf).
Proof.
  induction todo as [|c todo IH]; intros buf G Hp; (eapply finishes_step; [done|]); [|by apply IH].
  eapply finishes_step; [done|]. eapply finishes_step; [done|]. by apply recheck_finishes.
Qed.

Lemma reader_finishes w rd : reading w -> reader_inv w rd -> finishes w rd.
Proof.
  intros G. assert (finishes w RPtr) as Hptr by (eapply finishes_step; [done|]; by apply copy_finishes).
  destruct rd as [| |p todo buf|p buf|p buf b|p buf b|p buf b|p buf b|q buf b|b buf]; cbn [reader_inv].
  - intros _. eapply finishes_step; [done|]. destruct (allocated_ _); [done|]. eexists _, _. apply rtc_refl.
  - done.
  - intros _. by apply copy_finishes.
  - intros _. eapply finishes_step; [done|]. eapply finishes_step; [done|]. by apply recheck_finishes.
  - intros _. eapply finishes_step; [done|]. by apply recheck_finishes.
  - intros _. by apply recheck_finishes.
  - intros (_ & us & Hw & _). by eapply window_finishes.
  - intros (_ & us & Ht & _). by eapply chase_finishes.
  - intros (_ & u & us & Ht & _). inversion Ht as [| |? r us' Hr Hg Hts Hd Ht']; subst.
    eapply finishes_step; [unfold alone; cbn; change (undos (mem w)) with (heap w); by rewrite Hr|].
    destruct (type_ r); by eapply chase_finishes.
  - intros _. exists b, buf. apply rtc_refl.
Qed.

Lemma system_inv gc log x y :
  rtc (system_step gc log id id finish sl cols) x y -> reading x.1 /\ reader_inv x.1 x.2 -> reading y.1 /\ reader_inv y.1 y.2.
Proof.
  induction 1 as [|x y z Hs _ IH]; [done|]. intros [G R]. apply IH. clear IH. destruct Hs as [w w' rd Hfew Ho|w rd rd' Hstep]; cbn [fst snd] in *.
  2: { split; [done|]. by eapply reader_step_inv. }
  destruct (rd_run _ G) as (t & Hrun & Et). pose proof Ho as (o & Hok & Hact & He). pose proof (rd_winv _ G) as Hinv.
  destruct (step_winv gc log o w Hinv Hok) as (w2 & He2 & Hinv'). rewrite He2 in He. injection He as ->.
  destruct (others_kept gc log w w' id t Hinv Hfew Hrun Ho) as [Hk Hp]. rewrite Et in Hk.
  destruct (step_reads gc log o w w' id t Hinv Hok He2 Hrun Hact) as (t' & Hrun' & Es & Ef & Hreads).
  destruct (running_times w id t Hinv Hrun) as (Est & _). split; [|by eapply (others_reader_inv w)]. split; [done| | |].
  - exact (step_slots gc log o w w' Hinv Hok He2 (rd_slots _ G)).
  - exists t'. split; [done|congruence].
  - intros l' Hl'. destruct (wi_slot _ Hinv sl) as [l Hl]. rewrite <-(rd_target _ G l Hl). rewrite Est, Et in Hreads. by apply Hreads.
Qed.

End reader.

(** C1: a reader is not disturbed by concurrent operations: while transaction [id] runs
    [SelectIntoBuffer] load by load, interleaved in any way with the operations of other
    transactions, the log serializer and the garbage collector, it never dereferences a
    freed undo record, it can always finish when left alone, and whenever it finishes
    its result is the one the whole operation gave in the state where it began. *)
Theorem concurrent_select (gc log : bool) (w0 w : world) (id : Z) (t : TransactionContext) (slot : TupleSlot) (cols : list Z) (rd : reader) :
  reachable gc log w0 -> running w0 id t -> StronglySorted Z.lt cols ->
  rtc (system_step gc log id (start_time_ t) (finish_time_ t) slot cols) (w0, RCheck) (w, rd) ->
  ((forall v buf, rd ≠ RDone v buf) -> is_Some (reader_step (mem w) (start_time_ t) (finish_time_ t) slot cols rd)) /\
  (exists v buf, rtc (fun r r' => reader_step (mem w) (start_time_ t) (finish_time_ t) slot cols r = Some r') rd (RDone v buf)) /\
  (forall v buf, rd = RDone v buf -> Select (mem w0) t slot cols = Some (if v then Some buf else None)).
Proof.
  intros Hr Hrun Hcols Hs. pose proof (reachable_winv gc log w0 Hr) as Hinv. destruct (running_times w0 id t Hinv Hrun) as (Est & Efi & _).
  destruct (wi_slot _ Hinv slot) as [l Hl]. set (target := read id (finish_time_ t) (tuple_at (mem w0) slot) (records (heap w0) l)).
  rewrite Est in *. destruct (system_inv id (finish_time_ t) slot cols target Efi Hcols gc log _ _ Hs) as [G R].
  { split; [|done]. split; [done|by eapply reachable_slots|by exists t|]. intros l' Hl'. by rewrite (slot_chain _ _ _ _ Hl' Hl). }
  cbn [fst snd] in G, R. split_and!.
  - by eapply reader_enabled.
  - by eapply reader_finishes.
  - intros v buf ->. cbn [reader_inv] in R. rewrite (Select_winv w0 t slot l cols Hinv Hl Hcols), Est. by rewrite R.
Qed.

(** *** A run *)

(** A schedule: a step of the reader, or an operation. *)
Fixpoint run_system (gc log : bool) (id start finish : Z) (slot : TupleSlot) (cols : list Z) (schedule : list (option op)) (x : world * reader) :
    option (world * reader) :=
  match schedule with
  | [] => Some x
  | None :: schedule =>
    rd ← reader_step (mem x.1) start finish slot cols x.2; run_system gc log id start finish slot cols schedule (x.1, rd)
  | Some o :: schedule =>
    if op_okb o x.1 && bool_decide (actor o ≠ Some id) && bool_decide (Z.of_nat (size (txns x.1)) < 2 ^ 32) then
      w ← exec gc log o x.1; run_system gc log id start finish slot cols schedule (w, x.2)
    else None
  end.

Lemma run_system_rtc gc log id start finish slot cols schedule : forall x y,
  run_system gc log id start finish slot cols schedule x = Some y -> rtc (system_step gc log id start finish slot cols) x y.
Proof.
  induction schedule as [|[o|] schedule IH]; intros [w rd] y; cbn [run_system fst snd]; [by intros [= ->]|..].
  - destruct (_ && _) eqn:E; [|done]. destruct (exec gc log o w) as [w'|] eqn:He; [|done]. cbn. intros H.
    apply andb_prop in E as [[E1 E2]%andb_prop E3]. apply bool_decide_eq_true in E2, E3.
    eapply rtc_l; [|by apply IH]. apply system_others; [done|]. exists o. split; [by apply op_okb_sound|done].
  - destruct (reader_step _ _ _ _ _ _) as [rd'|] eqn:He; [|done]. cbn. intros H. eapply rtc_l; [|by apply IH]. by apply system_reader.
Qed.

(** The reader of transaction 2 starts, transaction 3 updates the tuple before and
    after the attribute is copied and commits, and the collector runs. *)
Definition demo_schedule : list (option op) :=
  [None; None; Some (OUpdate 3 1 demo_slot (demo_row 9) 101); None; None; None; Some (OUpdate 3 1 demo_slot (demo_row 8) 102);
   None; None; None; None; None; None; Some (OCommit 3); None; Some OGC; None; None; None; Some OGC; None; None; None; None].

Lemma concurrent_select_witness :
  exists w, rtc (system_step true false 2 (start_time_ (txn_of demo 2)) (finish_time_ (txn_of demo 2)) demo_slot [1]) (demo, RCheck)
      (w, RDone true (demo_row 1)) /\ Select (mem demo) (txn_of demo 2) demo_slot [1] = Some (Some (demo_row 1)).
Proof.
  destruct (run_system true false 2 (start_time_ (txn_of demo 2)) (finish_time_ (txn_of demo 2)) demo_slot [1] demo_schedule (demo, RCheck))
    as [[w rd]|] eqn:E; [|vm_compute in E; discriminate].
  assert (rd = RDone true (demo_row 1)) as ->.
  { assert (snd <$> run_system true false 2 (start_time_ (txn_of demo 2)) (finish_time_ (txn_of demo 2)) demo_slot [1] demo_schedule (demo, RCheck)
      = Some (RDone true (demo_row 1))) as H by (vm_compute; reflexivity). rewrite E in H. injection H as ->. reflexivity. }
  exists w. pose proof (run_system_rtc _ _ _ _ _ _ _ _ _ _ E) as Hs. split; [exact Hs|].
  destruct (concurrent_select true false demo w 2 (txn_of demo 2) demo_slot [1] (RDone true (demo_row 1))) as (_ & _ & H).
  - apply demo_reachable.
  - apply txn_running. vm_compute. reflexivity.
  - repeat constructor.
  - exact Hs.
  - exact (H true (demo_row 1) eq_refl).
Defined.
