(* ===== verification/LogIO.v ===== *)
(** * Log file input and output

    [storage/write_ahead_log/log_io.{h,cpp}]: the loops around the POSIX calls, the
    buffered writer and the buffered reader.  What a [read] or [write] system call does
    is an input: each attempt is interrupted, fails, or transfers some bytes, at least
    one when any can be transferred.  A file is the list of its bytes; the reader's file
    descriptor is the list of the bytes not read yet. *)

From S2P Require Import Prelude.

(** ** Results: a value, an exception, or a loop that has not finished *)

Inductive exception :=
| ReadFailed (errno : Z)
| WriteFailed (errno : Z)
| NoMoreBytes
| ShortRead
| AssertionFailed
| TooManyColumns
| UnknownRecordType (t : Z).

Inductive outcome (A : Type) := Ok (a : A) | Throw (e : exception) | Pending.
Arguments Ok {A} a.
Arguments Throw {A} e.
Arguments Pending {A}.

Definition obind {A B} (m : outcome A) (f : A -> outcome B) : outcome B :=
  match m with Ok a => f a | Throw e => Throw e | Pending => Pending end.

Notation "' p <~ m ; k" := (obind m (fun p => k)) (at level 20, p pattern, m at level 100, k at level 200, right associativity) : terrier_scope.
Notation "x <~ m ; k" := (obind m (fun x => k)) (at level 20, m at level 100, k at level 200, right associativity) : terrier_scope.
#[local] Open Scope terrier_scope.

Definition LOG_BUFFER_SIZE : nat := 4096.

(** ** PosixIoWrappers *)

(** [Transferred n]: the call transfers up to [n + 1] bytes. *)
Inductive attempt := Interrupted | Failed (errno : Z) | Transferred (n : nat).

Module PosixIoWrappers.

(** [ReadFully] with [buf] read so far: the bytes read and the rest of the file. *)
Fixpoint ReadFully (calls : list attempt) (file : list Z) (nbyte : nat) (buf : list Z) : outcome (list Z * list Z) :=
  if decide (length buf < nbyte)%nat then
    match calls with
    | [] => Pending
    | Interrupted :: calls => ReadFully calls file nbyte buf
    | Failed errno :: _ => Throw (ReadFailed errno)
    | Transferred n :: calls =>
      let ret := take (min (S n) (nbyte - length buf)) file in
      if decide (ret = []) then Ok (buf, file)
      else ReadFully calls (drop (length ret) file) nbyte (buf ++ ret)
    end
  else Ok (buf, file).

(** [WriteFully] with [written] bytes of [data] already appended to [file]. *)
Fixpoint WriteFully (calls : list attempt) (file data : list Z) (written : nat) : outcome (list Z) :=
  if decide (written < length data)%nat then
    match calls with
    | [] => Pending
    | Interrupted :: calls => WriteFully calls file data written
    | Failed errno :: _ => Throw (WriteFailed errno)
    | Transferred n :: calls =>
      let ret := take (min (S n) (length data - written)) (drop written data) in
      WriteFully calls (file ++ ret) data (written + length ret)
    end
  else Ok file.

End PosixIoWrappers.
Import PosixIoWrappers.

(** ** BufferedLogWriter *)

Module BufferedLogWriter.

(** [buffer_] up to [buffer_size_]. *)
Record t := mk { buffer_ : list Z }.

Definition empty : t := mk [].
Definition CanBuffer (w : t) (size : nat) : bool := bool_decide (size <= LOG_BUFFER_SIZE - length (buffer_ w))%nat.

(** The number of bytes written and the writer. *)
Definition BufferWrite (w : t) (data : list Z) : nat * t :=
  let size := if CanBuffer w (length data) then length data else (LOG_BUFFER_SIZE - length (buffer_ w))%nat in
  (size, mk (buffer_ w ++ take size data)).

Definition IsBufferFull (w : t) : bool := bool_decide (length (buffer_ w) = LOG_BUFFER_SIZE).

(** The amount flushed, the writer and the file. *)
Definition FlushBuffer (calls : list attempt) (w : t) (file : list Z) : outcome (nat * t * list Z) :=
  file <~ WriteFully calls file (buffer_ w) 0;
  Ok (length (buffer_ w), mk [], file).

End BufferedLogWriter.

(** ** BufferedLogReader *)

Module BufferedLogReader.

(** [in_] is [None] when closed; [filled_size_] is the length of [buffer_]. *)
Record t := mk { in_ : option (list Z); read_head_ : nat; buffer_ : list Z; refills_ : nat }.

Definition Open (file : list Z) : t := mk (Some file) 0 [] 0.

Definition HasMore (r : t) : bool := bool_decide (read_head_ r < length (buffer_ r))%nat || bool_decide (in_ r <> None).

Definition ReadFromBuffer (r : t) (size : nat) : list Z * t :=
  (slice (read_head_ r) size (buffer_ r), mk (in_ r) (read_head_ r + size) (buffer_ r) (refills_ r)).

Section reader.
(** The system calls made by each refill. *)
Context (calls : nat -> list attempt).

Definition RefillBuffer (r : t) : outcome t :=
  match in_ r with
  | None => Throw NoMoreBytes
  | Some file =>
    '(buf, rest) <~ ReadFully (calls (refills_ r)) file LOG_BUFFER_SIZE [];
    Ok (mk (if decide (length buf < LOG_BUFFER_SIZE)%nat then None else Some rest) 0 buf (S (refills_ r)))
  end.

(** The loop of [Read]: whether [size] bytes were read, and the bytes. *)
Fixpoint read_loop (fuel : nat) (r : t) (size : nat) (dest : list Z) : outcome (bool * list Z * t) :=
  match fuel with
  | O => Pending
  | S fuel =>
    if decide (length dest < size)%nat then
      if negb (HasMore r) then Ok (false, dest, r)
      else
        let read_size := min (size - length dest) (length (buffer_ r) - read_head_ r) in
        r <~ (if decide (read_size = 0%nat) then RefillBuffer r else Ok r);
        let '(bytes, r) := ReadFromBuffer r read_size in
        read_loop fuel r size (dest ++ bytes)
    else Ok (true, dest, r)
  end.

(** [Read]; the loop needs at most two rounds per byte and one to see the end. *)
Definition Read (r : t) (size : nat) : outcome (bool * list Z * t) :=
  if decide (u32 (Z.of_nat (read_head_ r) + Z.of_nat size) <= Z.of_nat (length (buffer_ r))) then
    let '(bytes, r) := ReadFromBuffer r size in Ok (true, bytes, r)
  else read_loop (2 * size + 2) r size [].

End reader.

(** The bytes not returned yet. *)
Definition unread (r : t) : list Z := drop (read_head_ r) (buffer_ r) ++ default [] (in_ r).

End BufferedLogReader.

(** ** The POSIX loops finish *)

Definition transfer (a : attempt) : bool := match a with Transferred _ => true | _ => false end.
Definition failure (a : attempt) : bool := match a with Failed _ => true | _ => false end.

(** System calls that do not fail and transfer at least [n] times. *)
Definition enough_calls (n : nat) (calls : list attempt) : Prop :=
  Forall (fun a => failure a = false) calls /\ (n <= length (filter (fun a => transfer a = true) calls))%nat.

Lemma enough_calls_cons n a calls : enough_calls n (a :: calls) ->
  (a = Interrupted /\ enough_calls n calls) \/ (exists k, a = Transferred k /\ enough_calls (n - 1) calls).
Proof.
  intros [Hf Hn]. apply Forall_cons in Hf as [Ha Hf]. destruct a as [|e|k]; [left|done|right].
  - rewrite filter_cons_False in Hn by done. done.
  - rewrite filter_cons_True in Hn by done. cbn in Hn. exists k. split; [done|]. split; [done|]. lia.
Qed.

Lemma take_length_take {A} n (l : list A) : take (length (take n l)) l = take n l.
Proof. rewrite length_take. destruct (decide (n <= length l)%nat); [by rewrite Nat.min_l by lia|]. by rewrite Nat.min_r, !take_ge by lia. Qed.

Lemma ReadFully_spec calls : forall file nbyte buf,
  enough_calls (S (nbyte - length buf)) calls -> (length buf <= nbyte)%nat ->
  ReadFully calls file nbyte buf = Ok (buf ++ take (nbyte - length buf) file, drop (nbyte - length buf) file).
Proof.
  induction calls as [|a calls IH]; intros file nbyte buf He Hl; [destruct He as [_ He]; cbn in He; lia|].
  cbn [ReadFully]. case_decide as Hd; [|replace (nbyte - length buf)%nat with 0%nat by lia; by rewrite take_0, drop_0, app_nil_r].
  destruct (enough_calls_cons _ _ _ He) as [[-> He']|(k & -> & He')]; [by apply IH|].
  set (ret := take (min (S k) (nbyte - length buf)) file). case_decide as Hr.
  - assert (file = []) as ->; [|by rewrite take_nil, drop_nil, app_nil_r].
    destruct file; [done|]. apply (f_equal length) in Hr. unfold ret in Hr. rewrite length_take in Hr. cbn [length] in Hr. lia.
  - assert (1 <= length ret)%nat as H1 by (destruct ret; [done|cbn; lia]).
    assert (length ret <= nbyte - length buf)%nat as H2 by (unfold ret; rewrite length_take; lia).
    assert (ret = take (length ret) file) as Er by (symmetry; apply take_length_take).
    rewrite IH; [|destruct He' as [? ?]; split; [done|]; rewrite length_app; lia|rewrite length_app; lia].
    rewrite length_app, drop_drop. f_equal. f_equal; [|f_equal; lia]. rewrite <-app_assoc. f_equal.
    rewrite Er at 1. rewrite take_take_drop. f_equal. lia.
Qed.

Lemma WriteFully_spec calls : forall file data written,
  enough_calls (length data - written) calls -> (written <= length data)%nat ->
  WriteFully calls file data written = Ok (file ++ drop written data).
Proof.
  induction calls as [|a calls IH]; intros file data written He Hl; cbn [WriteFully].
  - destruct He as [_ He]. cbn in He. rewrite decide_False by lia. by rewrite drop_ge, app_nil_r by lia.
  - case_decide as Hd; [|by rewrite drop_ge, app_nil_r by lia].
    destruct (enough_calls_cons _ _ _ He) as [[-> He']|(k & -> & He')]; [by apply IH|].
    set (ret := take _ _). assert (1 <= length ret <= length data - written)%nat as Hr by (unfold ret; rewrite length_take, length_drop; lia).
    rewrite IH; [|destruct He' as [? ?]; split; [done|]; lia|lia]. rewrite <-app_assoc, <-drop_drop. do 2 f_equal.
    rewrite <-(take_drop (length ret) (drop written data)) at 2. f_equal. unfold ret. by rewrite take_length_take.
Qed.

(** A write that ends without an exception has appended all of its data. *)
Lemma WriteFully_Ok calls : forall file data written file',
  (written <= length data)%nat -> WriteFully calls file data written = Ok file' -> file' = file ++ drop written data.
Proof.
  induction calls as [|a calls IH]; intros file data written file' Hl; cbn [WriteFully]; (case_decide as Hd; [|intros [= <-]; by rewrite drop_ge, app_nil_r by lia]).
  - done.
  - destruct a as [|e|k]; [by apply IH|done|]. set (ret := take _ _).
    assert (length ret <= length data - written)%nat as Hr by (unfold ret; rewrite length_take, length_drop; lia).
    intros E. apply IH in E as ->; [|lia]. rewrite <-app_assoc, <-drop_drop. f_equal.
    rewrite <-(take_drop (length ret) (drop written data)) at 2. f_equal. unfold ret. by rewrite take_length_take.
Qed.

(** The POSIX loops end with the whole transfer: whatever the lengths the system
    calls transfer and however often they are interrupted, if they do not fail and go on
    transferring, [ReadFully] returns the next [nbyte] bytes of the file, or all there
    are, and [WriteFully] appends all of its data. *)
Theorem posix_loops_complete (calls : list attempt) (file data : list Z) (nbyte : nat) :
  enough_calls (S (max nbyte (length data))) calls ->
  ReadFully calls file nbyte [] = Ok (take nbyte file, drop nbyte file) /\
  WriteFully calls file data 0 = Ok (file ++ data).
Proof.
  intros [Hf Hn]. split.
  - rewrite ReadFully_spec; [by rewrite Nat.sub_0_r|split; [done|]; cbn [length]; lia|cbn; lia].
  - rewrite WriteFully_spec; [done|split; [done|]; lia|lia].
Qed.

Lemma posix_loops_complete_witness :
  ReadFully [Interrupted; Transferred 0; Interrupted; Transferred 1; Transferred 5; Transferred 0] [1; 2; 3; 4; 5] 3 [] = Ok ([1; 2; 3], [4; 5]).
Proof.
  apply (posix_loops_complete [Interrupted; Transferred 0; Interrupted; Transferred 1; Transferred 5; Transferred 0] [1; 2; 3; 4; 5] [] 3).
  split; [repeat constructor|]. vm_compute. lia.
Defined.

(** ** The reader is a stream *)

Import BufferedLogReader.

Definition reader_ok (r : t) : Prop := (read_head_ r <= length (buffer_ r) <= LOG_BUFFER_SIZE)%nat.

Section stream.
Context (calls : nat -> list attempt).
Hypothesis Hcalls : forall n, enough_calls (S LOG_BUFFER_SIZE) (calls n).

Lemma RefillBuffer_spec r file :
  reader_ok r -> in_ r = Some file -> read_head_ r = length (buffer_ r) ->
  exists r', RefillBuffer calls r = Ok r' /\ reader_ok r' /\ unread r' = unread r /\ read_head_ r' = 0%nat /\
    buffer_ r' = take LOG_BUFFER_SIZE file /\ (buffer_ r' = [] -> in_ r' = None).
Proof.
  intros Hr Hi Hh. unfold RefillBuffer. rewrite Hi, ReadFully_spec; [|by rewrite Nat.sub_0_r|cbn; lia].
  cbn [obind app length]. rewrite Nat.sub_0_r. set (buf := take LOG_BUFFER_SIZE file).
  assert (length buf <= LOG_BUFFER_SIZE)%nat as Hb by (unfold buf; rewrite length_take; lia).
  eexists. split; [done|]. split; [unfold reader_ok; cbn [read_head_ buffer_]; lia|].
  split; [|split; [done|]; split; [done|]; cbn [buffer_ in_]; intros Eb; rewrite Eb; by rewrite decide_True by (cbn [length]; unfold LOG_BUFFER_SIZE; lia)].
  unfold unread. cbn [read_head_ buffer_ in_]. rewrite Hi, Hh, drop_all. cbn [app default from_option id]. rewrite drop_0.
  case_decide as Hl; cbn [default from_option id].
  - rewrite app_nil_r. unfold buf. apply take_ge. unfold buf in Hl. rewrite length_take in Hl. lia.
  - apply take_drop.
Qed.

(** One more round is needed when the buffer has to be refilled. *)
Definition rounds (r : t) : nat := if bool_decide (read_head_ r < length (buffer_ r))%nat || bool_decide (in_ r = None) then 1 else 2.

Lemma ReadFromBuffer_spec r size bytes r' :
  reader_ok r -> (size <= length (buffer_ r) - read_head_ r)%nat -> ReadFromBuffer r size = (bytes, r') ->
  reader_ok r' /\ bytes = take size (unread r) /\ length bytes = size /\ unread r' = drop size (unread r).
Proof.
  intros Hr Hs [= <- <-]. unfold reader_ok, unread, slice in *. cbn [read_head_ buffer_ in_].
  split; [lia|]. split; [by rewrite take_app_le by (rewrite length_drop; lia)|]. split; [rewrite length_take, length_drop; lia|].
  rewrite drop_app_le by (rewrite length_drop; lia). by rewrite drop_drop.
Qed.

(** The first [min size available] bytes of the stream, and whether they were enough. *)
Definition stream_read (size : nat) (stream : list Z) (res : outcome (bool * list Z * t)) : Prop :=
  exists r', res = Ok (bool_decide (size <= length stream)%nat, take size stream, r') /\ reader_ok r' /\
    unread r' = drop size stream /\ ((length stream < size)%nat -> HasMore r' = false).

Lemma read_loop_spec fuel : forall r size dest,
  reader_ok r -> (length dest <= size)%nat -> (2 * (size - length dest) + rounds r <= fuel)%nat ->
  exists r', read_loop calls fuel r size dest =
      Ok (bool_decide (size - length dest <= length (unread r))%nat, dest ++ take (size - length dest) (unread r), r') /\
    reader_ok r' /\ unread r' = drop (size - length dest) (unread r) /\
    ((length (unread r) < size - length dest)%nat -> HasMore r' = false).
Proof.
  induction fuel as [|fuel IH]; intros r size dest Hr Hl Hf; [unfold rounds in Hf; destruct (_ || _); lia|].
  cbn [read_loop]. case_decide as Hd.
  2: { replace (size - length dest)%nat with 0%nat by lia. exists r. rewrite take_0, app_nil_r, drop_0. split; [by rewrite bool_decide_eq_true_2 by lia|].
       split; [done|]. split; [done|]. lia. }
  destruct (HasMore r) eqn:Hm; cbn [negb].
  2: { apply orb_false_iff in Hm as [H1 H2]. apply bool_decide_eq_false in H1, H2.
       assert (unread r = []) as Hu.
       { unfold unread. rewrite drop_ge by lia. destruct (in_ r); [|done]. by destruct H2. }
       exists r. rewrite Hu, take_nil, drop_nil, app_nil_r. cbn [length]. split; [by rewrite bool_decide_eq_false_2 by lia|].
       split; [done|]. split; [done|]. intros _. unfold HasMore. by rewrite !bool_decide_eq_false_2 by done. }
  set (read_size := min _ _). destruct (decide (read_size = 0%nat)) as [E0|E0]; cbn [obind].
  - assert (read_head_ r = length (buffer_ r)) as Hh by (unfold reader_ok in Hr; lia).
    destruct (in_ r) as [file|] eqn:Ei.
    2: { unfold HasMore in Hm. rewrite Ei, Hh in Hm. rewrite bool_decide_eq_false_2 in Hm by lia. discriminate. }
    destruct (RefillBuffer_spec r file Hr Ei Hh) as (r' & -> & Hr' & Eu & Hh' & Eb & Hc). cbn [obind].
    unfold ReadFromBuffer. rewrite E0. unfold slice. rewrite take_0, app_nil_r, Nat.add_0_r.
    replace (mk (in_ r') (read_head_ r') (buffer_ r') (refills_ r')) with r' by (by destruct r').
    rewrite <-Eu. apply IH; [done|done|]. assert (rounds r = 2%nat) as R by (unfold rounds; by rewrite Ei, !bool_decide_eq_false_2 by (lia || done)).
    assert (rounds r' = 1%nat) as R'.
    { unfold rounds. rewrite Hh'. destruct (buffer_ r') eqn:E; [rewrite Hc by done; by rewrite (bool_decide_eq_true_2 (None = None))|].
      rewrite bool_decide_eq_true_2 by (cbn; lia). done. }
    lia.
  - destruct (ReadFromBuffer r read_size) as [bytes r'] eqn:Eb.
    destruct (ReadFromBuffer_spec r read_size bytes r' Hr ltac:(lia) Eb) as (Hr' & Ey & Ly & Eu).
    assert (1 <= read_size <= size - length dest)%nat as Hrs by lia.
    assert (read_size <= length (unread r))%nat as Hul by (unfold unread; rewrite length_app, length_drop; lia).
    destruct (IH r' size (dest ++ bytes)) as (r'' & E & Hr'' & Eu'' & Hmore); [done|rewrite length_app; lia| |].
    { rewrite length_app. assert (rounds r' <= 2)%nat by (unfold rounds; destruct (_ || _); lia). unfold rounds in Hf. destruct (_ || _); lia. }
    exists r''. rewrite E, Eu in *. rewrite length_app, Ly, length_drop, drop_drop in *. split; [|split; [done|split; [rewrite Eu''; f_equal; lia|]]].
    + f_equal. f_equal. f_equal; [apply bool_decide_ext; lia|]. rewrite <-app_assoc, Ey, take_take_drop. do 2 f_equal. lia.
    + intros Hlt. apply Hmore. lia.
Qed.

Lemma Read_spec r size : reader_ok r -> Z.of_nat size < 2 ^ 31 -> stream_read size (unread r) (Read calls r size).
Proof.
  intros Hr Hs. unfold Read, stream_read. assert (u32 (Z.of_nat (read_head_ r) + Z.of_nat size) = Z.of_nat (read_head_ r + size)) as ->.
  { unfold reader_ok, LOG_BUFFER_SIZE in Hr. rewrite wrapu_small by (unfold is_uint; lia). lia. }
  case_decide as Hd.
  - destruct (ReadFromBuffer r size) as [bytes r'] eqn:Eb.
    destruct (ReadFromBuffer_spec r size bytes r' Hr ltac:(lia) Eb) as (Hr' & Ey & Ly & Eu).
    assert (size <= length (unread r))%nat by (unfold unread; rewrite length_app, length_drop; lia).
    exists r'. rewrite Ey. split; [by rewrite bool_decide_eq_true_2 by lia|]. split; [done|]. split; [done|]. lia.
  - destruct (read_loop_spec (2 * size + 2) r size []) as (r' & E & ? & ? & ?); [done|cbn; lia| |].
    + assert (rounds r <= 2)%nat by (unfold rounds; destruct (_ || _); lia). cbn [length]. lia.
    + cbn [length app] in *. rewrite Nat.sub_0_r in *. exists r'. done.
Qed.

End stream.
