(* ===== verification/LogRecords.v ===== *)
(** * Log records

    [storage/write_ahead_log/log_record.h], [LogSerializerTask::SerializeRecord]
    (log_serializer_task.cpp) and [AbstractLogProvider::ReadNextRecord]
    (storage/recovery/abstract_log_provider.{h,cpp}), with the provider over a log file
    (storage/recovery/disk_log_provider.h).

    A redo record's row is its column ids and optional values; a value of a
    variable-length column is the 16 bytes of its entry, whose content may be in the
    buffers.  The provider is an interface: the record reader is proved against what
    [Read] promises, a stream of bytes, and the buffered reader of a file provides it. *)

From S2P Require Import Prelude Bitmap Layout TupleAccess ProjectedRow Varlen Timestamps DataTable LogIO.
#[local] Open Scope terrier_scope.

(** ** Records *)

Module LogRecord.

Inductive body :=
| RedoRecord (db_oid table_oid tuple_slot : Z) (delta : row)
| DeleteRecord (db_oid table_oid tuple_slot : Z)
| CommitRecord (txn_commit oldest_active_txn commit_callback : Z) (is_read_only : bool)
| AbortRecord.

Record LogRecord := mk { size_ : Z; txn_begin_ : Z; body_ : body }.

Definition REDO : Z := 1.
Definition DELETE : Z := 2.
Definition COMMIT : Z := 3.
Definition ABORT : Z := 4.

Definition RecordType (r : LogRecord) : Z :=
  match body_ r with
  | RedoRecord _ _ _ _ => REDO
  | DeleteRecord _ _ _ => DELETE
  | CommitRecord _ _ _ _ => COMMIT
  | AbortRecord => ABORT
  end.

Definition sizeof_LogRecord : Z := 16.
Definition sizeof_RedoRecord : Z := 16.
Definition sizeof_DeleteRecord : Z := 16.
Definition sizeof_CommitRecord : Z := 56.
Definition sizeof_AbortRecord : Z := 16.

Definition RedoRecord_Size (i : ProjectedRowInitializer.ProjectedRowInitializer) : Z :=
  u32 (sizeof_LogRecord + sizeof_RedoRecord + ProjectedRowInitializer.size_ i).
Definition DeleteRecord_Size : Z := u32 (sizeof_LogRecord + sizeof_DeleteRecord).
Definition CommitRecord_Size : Z := u32 (sizeof_LogRecord + sizeof_CommitRecord).
Definition AbortRecord_Size : Z := u32 (sizeof_LogRecord + sizeof_AbortRecord).

(** [Initialize]: a redo starts with every column null. *)
Definition InitializeRedo (txn_begin db_oid table_oid : Z) (i : ProjectedRowInitializer.ProjectedRowInitializer) : LogRecord :=
  mk (RedoRecord_Size i) txn_begin (RedoRecord db_oid table_oid 0 ((fun c => (c, None)) <$> ProjectedRowInitializer.col_ids_ i)).
Definition InitializeDelete (txn_begin db_oid table_oid slot : Z) : LogRecord :=
  mk DeleteRecord_Size txn_begin (DeleteRecord db_oid table_oid slot).
Definition InitializeCommit (txn_begin txn_commit commit_callback oldest_active_txn : Z) (is_read_only : bool) : LogRecord :=
  mk CommitRecord_Size txn_begin (CommitRecord txn_commit oldest_active_txn commit_callback is_read_only).
Definition InitializeAbort (txn_begin : Z) : LogRecord := mk AbortRecord_Size txn_begin AbortRecord.

End LogRecord.
Import LogRecord.

(** ** Serialization *)

(** The calls of [WriteValue], each with whether its size is added to [num_bytes]. *)
Abbreviation writes := (list (bool * list Z)).

Definition write (n : nat) (z : Z) : bool * list Z := (true, le_bytes n z).

(** The null bitmap of a row: bit [i] is set when column [i] has a value. *)
Fixpoint set_present (i : Z) (delta : row) (bits : list Z) : list Z :=
  match delta with
  | [] => bits
  | (_, v) :: delta => set_present (i + 1) delta (match v with Some _ => RawBitmap.SetBit bits i true | None => bits end)
  end.

Definition null_bitmap (delta : row) : list Z :=
  set_present 0 delta (RawBitmap.Allocate (Z.of_nat (length delta))).

(** The attribute values, in the order of the row. *)
Definition write_attribute (l : BlockLayout.BlockLayout) (mem : buffers) (p : Z * option (list Z)) : writes :=
  match p.2 with
  | None => []
  | Some bytes =>
    if BlockLayout.IsVarlen l p.1 then
      let e := entry_of_bytes bytes in
      let size := Z.to_nat (Size e) in
      [write 4 (Size e); (true, if IsInlined e then take size (payload_ e) else take size (Content mem e))]
    else [(true, take (Z.to_nat (BlockLayout.AttrSize l p.1)) bytes)]
  end.

Definition SerializeRecord (l : BlockLayout.BlockLayout) (mem : buffers) (r : LogRecord) : writes :=
  [write 4 (size_ r); write 1 (RecordType r); write 8 (txn_begin_ r)] ++
  match body_ r with
  | RedoRecord db_oid table_oid tuple_slot delta =>
    [write 4 db_oid; write 4 table_oid; write 8 tuple_slot; write 2 (Z.of_nat (length delta));
     (true, concat (le_bytes 2 <$> delta.*1));
     (false, concat (le_bytes 2 <$> ComputeAttributeSizeBoundaries l (delta.*1)));
     (true, null_bitmap delta)] ++ (delta ≫= write_attribute l mem)
  | DeleteRecord db_oid table_oid tuple_slot => [write 4 db_oid; write 4 table_oid; write 8 tuple_slot]
  | CommitRecord txn_commit oldest_active_txn _ _ => [write 8 txn_commit; write 8 oldest_active_txn]
  | AbortRecord => []
  end.

Definition bytes_of (ws : writes) : list Z := concat (ws.*2).

(** What [SerializeRecord] returns. *)
Definition num_bytes (ws : writes) : Z := foldr (fun w n => (if (w : bool * list Z).1 then Z.of_nat (length w.2) else 0) + n) 0 ws.

(** ** Reading *)

Class LogProvider (P : Type) := {
  HasMoreRecords : P -> bool;
  Read : P -> nat -> outcome (bool * list Z * P);
}.

(** What the readers rely on: [Read] returns the next bytes of a stream. *)
Class LogProviderStream (P : Type) `{LogProvider P} := {
  provider_ok : P -> Prop;
  stream : P -> list Z;
  Read_stream p size : provider_ok p -> Z.of_nat size < 2 ^ 31 ->
    exists p', Read p size = Ok (bool_decide (size <= length (stream p))%nat, take size (stream p), p') /\
      provider_ok p' /\ stream p' = drop size (stream p);
}.

(** The assertions of [ProjectedRowInitializer]'s constructor. *)
Definition row_asserts (attr_sizes col_ids : list Z) : Prop :=
  col_ids <> [] /\ length col_ids = length attr_sizes /\ StronglySorted (fun a b => b <= a) attr_sizes /\ NoDup col_ids.

#[export] Instance row_asserts_dec attr_sizes col_ids : Decision (row_asserts attr_sizes col_ids).
Proof. unfold row_asserts. apply _. Defined.

Section read.
Context `{LogProvider P}.

(** What uninitialised memory holds, and the allocator of varlen buffers. *)
Context (garbage : nat -> list Z) (alloc : buffers -> Z).

(** A failed [ReadValue] is an assertion failure. *)
Definition ReadValue (n : nat) (p : P) : outcome (Z * P) :=
  '(ret, bytes, p) <~ Read p n;
  if (ret : bool) then Ok (le_val bytes, p) else Throw ShortRead.

(** [Read] into fresh memory, ignoring whether there were enough bytes. *)
Definition ReadBytes (n : nat) (p : P) : outcome (list Z * P) :=
  '(_, bytes, p) <~ Read p n; Ok (bytes ++ garbage (n - length bytes), p).

Fixpoint ReadValues (count n : nat) (p : P) : outcome (list Z * P) :=
  match count with
  | O => Ok ([], p)
  | S count => '(v, p) <~ ReadValue n p; '(vs, p) <~ ReadValues count n p; Ok (v :: vs, p)
  end.

(** One variable-length value: the entry, the buffers and the allocated addresses. *)
Definition read_varlen (mem : buffers) (p : P) : outcome (list Z * buffers * list Z * P) :=
  '(size, p) <~ ReadValue 4 p;
  '(content, p) <~ ReadBytes (Z.to_nat size) p;
  if decide (size <= InlineThreshold) then
    Ok (bytes_of_entry (CreateInline (garbage 12) content size), mem, [], p)
  else
    let addr := alloc mem in
    Ok (bytes_of_entry (Create addr content size true), <[addr := content]> mem, [addr], p).

(** The loop over the columns, from column [i]. *)
Fixpoint read_columns (bitmap : list Z) (i : Z) (cols : list (Z * Z)) (mem : buffers) (p : P) :
    outcome (row * buffers * list Z * P) :=
  match cols with
  | [] => Ok ([], mem, [], p)
  | (col_id, attr_size) :: cols =>
    '(v, mem, varlen, p) <~
      (if negb (RawBitmap.Test bitmap i) then Ok (None, mem, [], p)
       else if decide (attr_size = AttrSizeBytes VARLEN_COLUMN) then
         '(entry, mem, varlen, p) <~ read_varlen mem p; Ok (Some entry, mem, varlen, p)
       else '(bytes, p) <~ ReadBytes (Z.to_nat attr_size) p; Ok (Some bytes, mem, [], p));
    '(delta, mem, varlens, p) <~ read_columns bitmap (i + 1) cols mem p;
    Ok ((col_id, v) :: delta, mem, varlen ++ varlens, p)
  end.

(** [ReadNextRecord]: the record, the buffers, the varlen contents to clean up. *)
Definition ReadNextRecord (mem : buffers) (p : P) : outcome (LogRecord * buffers * list Z * P) :=
  '(size, p) <~ ReadValue 4 p;
  '(record_type, p) <~ ReadValue 1 p;
  '(txn_begin, p) <~ ReadValue 8 p;
  if decide (record_type = COMMIT) then
    '(txn_commit, p) <~ ReadValue 8 p;
    '(oldest_active_txn, p) <~ ReadValue 8 p;
    if decide (oldest_active_txn = INVALID_TXN_TIMESTAMP) then Throw AssertionFailed else
    Ok (InitializeCommit txn_begin txn_commit 0 oldest_active_txn false, mem, [], p)
  else if decide (record_type = ABORT) then Ok (InitializeAbort txn_begin, mem, [], p)
  else if decide (record_type = DELETE) then
    '(database_oid, p) <~ ReadValue 4 p;
    '(table_oid, p) <~ ReadValue 4 p;
    '(tuple_slot, p) <~ ReadValue 8 p;
    Ok (InitializeDelete txn_begin database_oid table_oid tuple_slot, mem, [], p)
  else if decide (record_type = REDO) then
    '(database_oid, p) <~ ReadValue 4 p;
    '(table_oid, p) <~ ReadValue 4 p;
    '(tuple_slot, p) <~ ReadValue 8 p;
    '(num_cols, p) <~ ReadValue 2 p;
    if decide (MAX_COL < num_cols) then Throw TooManyColumns
    else
      '(col_ids, p) <~ ReadValues (Z.to_nat num_cols) 2 p;
      '(attr_size_boundaries, p) <~ ReadValues NUM_ATTR_BOUNDARIES 2 p;
      let attr_sizes := (fun i => AttrSizeFromBoundaries attr_size_boundaries (Z.of_nat i)) <$> seq 0 (Z.to_nat num_cols) in
      if decide (~ row_asserts attr_sizes col_ids) then Throw AssertionFailed else
      let initializer := ProjectedRowInitializer.Create_sizes attr_sizes col_ids in
      let result := InitializeRedo txn_begin database_oid table_oid initializer in
      '(bitmap, p) <~ ReadBytes (Z.to_nat (RawBitmap.SizeInBytes num_cols)) p;
      '(delta, mem, varlens, p) <~ read_columns bitmap 0 (zip col_ids attr_sizes) mem p;
      Ok (mk (size_ result) txn_begin (RedoRecord database_oid table_oid tuple_slot delta), mem, varlens, p)
  else Throw (UnknownRecordType record_type).

(** [GetNextRecord]: [None] when the provider has no more records. *)
Definition GetNextRecord (mem : buffers) (p : P) : outcome (option (LogRecord * buffers * list Z * P)) :=
  if HasMoreRecords p then r <~ ReadNextRecord mem p; Ok (Some r) else Ok None.

End read.

(** ** The provider over a log file *)

Module DiskLogProvider.

Record t := mk { calls : nat -> list attempt; in_ : BufferedLogReader.t }.

Definition Open (calls : nat -> list attempt) (file : list Z) : t := mk calls (BufferedLogReader.Open file).

Definition DiskHasMoreRecords (p : t) : bool := BufferedLogReader.HasMore (in_ p).
Definition DiskRead (p : t) (size : nat) : outcome (bool * list Z * t) :=
  '(ret, bytes, r) <~ BufferedLogReader.Read (calls p) (in_ p) size; Ok (ret, bytes, mk (calls p) r).

End DiskLogProvider.

#[global] Instance DiskLogProvider_provider : LogProvider DiskLogProvider.t := {|
  HasMoreRecords := DiskLogProvider.DiskHasMoreRecords; Read := DiskLogProvider.DiskRead |}.

#[global, refine] Instance DiskLogProvider_stream : LogProviderStream DiskLogProvider.t := {|
  provider_ok p := reader_ok (DiskLogProvider.in_ p) /\ forall n, enough_calls (S LOG_BUFFER_SIZE) (DiskLogProvider.calls p n);
  stream p := BufferedLogReader.unread (DiskLogProvider.in_ p) |}.
Proof.
  intros [calls r] size [Hr Hc] Hs. destruct (Read_spec calls Hc r size Hr Hs) as (r' & E & Hr' & Eu & _).
  exists (DiskLogProvider.mk calls r'). cbn in *. unfold DiskLogProvider.DiskRead. cbn. rewrite E. done.
Defined.

(** ** Round trip *)

(** Records as the transactions make them: a redo has columns, each once and in the order
    of descending sizes; only transactions that wrote something have a commit record in the
    log, and theirs has a valid bound on the running transactions. *)
Definition value_ok (l : BlockLayout.BlockLayout) (mem : buffers) (p : Z * option (list Z)) : Prop :=
  match p.2 with
  | None => True
  | Some bytes =>
    Z.of_nat (length bytes) = BlockLayout.AttrSize l p.1 /\ Forall is_byte bytes /\
    (BlockLayout.IsVarlen l p.1 = true -> entry_ok mem (entry_of_bytes bytes))
  end.

Definition record_ok (l : BlockLayout.BlockLayout) (mem : buffers) (r : LogRecord) : Prop :=
  is_uint 32 (size_ r) /\ is_uint 64 (txn_begin_ r) /\
  match body_ r with
  | RedoRecord db_oid table_oid tuple_slot delta =>
    is_uint 32 db_oid /\ is_uint 32 table_oid /\ is_uint 64 tuple_slot /\
    delta <> [] /\ NoDup (delta.*1) /\
    Z.of_nat (length delta) <= MAX_COL /\ Forall (is_uint 16) (delta.*1) /\
    size_classes (BlockLayout.AttrSize l <$> delta.*1) /\
    Forall (fun c => BlockLayout.IsVarlen l c = true <-> BlockLayout.AttrSize l c = 16) (delta.*1) /\
    Forall (value_ok l mem) delta
  | DeleteRecord db_oid table_oid tuple_slot => is_uint 32 db_oid /\ is_uint 32 table_oid /\ is_uint 64 tuple_slot
  | CommitRecord txn_commit oldest_active_txn _ _ => is_uint 64 txn_commit /\ is_uint 64 oldest_active_txn /\ oldest_active_txn <> INVALID_TXN_TIMESTAMP
  | AbortRecord => True
  end.

(** The same value, up to where variable-length content is stored. *)
Definition same_value (l : BlockLayout.BlockLayout) (mem mem' : buffers) (p p' : Z * option (list Z)) : Prop :=
  p.1 = p'.1 /\
  match p.2, p'.2 with
  | None, None => True
  | Some b, Some b' =>
    if BlockLayout.IsVarlen l p.1
    then StringView mem' (entry_of_bytes b') = StringView mem (entry_of_bytes b) /\
         NeedReclaim (entry_of_bytes b') = bool_decide (InlineThreshold < Size (entry_of_bytes b))
    else b' = b
  | _, _ => False
  end.

(** The record that is read back. *)
Definition same_record (l : BlockLayout.BlockLayout) (mem mem' : buffers) (r r' : LogRecord) : Prop :=
  txn_begin_ r' = txn_begin_ r /\
  match body_ r, body_ r' with
  | RedoRecord d t s delta, RedoRecord d' t' s' delta' =>
    d' = d /\ t' = t /\ s' = s /\ Forall2 (same_value l mem mem') delta delta' /\
    size_ r' = RedoRecord_Size (ProjectedRowInitializer.Create_sizes (BlockLayout.AttrSize l <$> delta.*1) (delta.*1))
  | DeleteRecord d t s, DeleteRecord d' t' s' => d' = d /\ t' = t /\ s' = s /\ size_ r' = DeleteRecord_Size
  | CommitRecord c o _ _, CommitRecord c' o' _ _ => c' = c /\ o' = o /\ size_ r' = CommitRecord_Size
  | AbortRecord, AbortRecord => size_ r' = AbortRecord_Size
  | _, _ => False
  end.

Lemma bytes_of_cons b bs ws : bytes_of ((b, bs) :: ws) = bs ++ bytes_of ws.
Proof. done. Qed.

Lemma bytes_of_app ws ws' : bytes_of (ws ++ ws') = bytes_of ws ++ bytes_of ws'.
Proof. unfold bytes_of. by rewrite fmap_app, concat_app. Qed.

Lemma set_present_spec delta : forall i bits,
  0 <= i -> i + Z.of_nat (length delta) <= 8 * Z.of_nat (length bits) -> Forall is_byte bits ->
  length (set_present i delta bits) = length bits /\
  forall q, 0 <= q -> RawBitmap.Test (set_present i delta bits) q =
    match (if decide (i <= q) then delta !! Z.to_nat (q - i) else None) with Some (_, Some _) => true | _ => RawBitmap.Test bits q end.
Proof.
  induction delta as [|[c v] delta IH]; intros i bits Hi Hl Hb; cbn [set_present length] in *.
  - split; [done|]. intros q Hq. by case_decide.
  - set (bits' := match v with Some _ => RawBitmap.SetBit bits i true | None => bits end).
    assert (length bits' = length bits) as Lb by (unfold bits'; destruct v; [apply length_SetBit|done]).
    destruct (IH (i + 1) bits') as [L T]; [lia|rewrite Lb; lia|unfold bits'; destruct v; [by apply SetBit_bytes|done]|].
    split; [by rewrite L|]. intros q Hq. rewrite T by done.
    assert (RawBitmap.Test bits' q = if decide (i = q) then (match v with Some _ => true | None => RawBitmap.Test bits q end) else RawBitmap.Test bits q) as Tq.
    { unfold bits'. destruct v; [rewrite Test_SetBit by (done || lia)|]; by case_decide. }
    destruct (decide (i = q)) as [<-|Hne].
    + rewrite decide_False, decide_True by lia. replace (i - i) with 0 by lia. cbn [Z.to_nat lookup list_lookup]. rewrite Tq. by destruct v.
    + destruct (decide (i <= q)).
      * rewrite decide_True by lia. replace (Z.to_nat (q - i)) with (S (Z.to_nat (q - (i + 1)))) by lia. cbn [lookup list_lookup].
        by rewrite Tq.
      * rewrite decide_False by lia. by rewrite Tq.
Qed.

Lemma null_bitmap_spec delta : Z.of_nat (length delta) <= MAX_COL ->
  Z.of_nat (length (null_bitmap delta)) = RawBitmap.SizeInBytes (Z.of_nat (length delta)) /\
  forall k q, delta !! k = Some q -> RawBitmap.Test (null_bitmap delta) (0 + Z.of_nat k) = bool_decide (is_Some q.2).
Proof.
  intros Hl. pose proof (SizeInBytes_bounds (Z.of_nat (length delta)) ltac:(lia)) as Hs. unfold null_bitmap.
  set (bits := RawBitmap.Allocate _). assert (Z.of_nat (length bits) = RawBitmap.SizeInBytes (Z.of_nat (length delta))) as Lb.
  { unfold bits, RawBitmap.Allocate. rewrite length_replicate. lia. }
  destruct (set_present_spec delta 0 bits) as [L T]; [lia|lia|by apply Forall_replicate|]. rewrite L. split; [done|].
  intros k [c v] Hk. rewrite T by lia. rewrite decide_True by lia. replace (Z.to_nat (0 + Z.of_nat k - 0)) with k by lia. rewrite Hk. cbn [snd].
  destruct v; [by rewrite bool_decide_eq_true_2|]. rewrite bool_decide_eq_false_2 by (by intros [? ?]).
  unfold RawBitmap.Test, bits, RawBitmap.Allocate, byte_at. destruct (replicate _ 0 !! _) as [z|] eqn:E; [|by rewrite Z.land_0_l].
  apply lookup_replicate in E as [-> _]. by rewrite Z.land_0_l.
Qed.

Definition words_ok (bs : list Z) : Prop := length bs = NUM_ATTR_BOUNDARIES /\ Forall (is_uint 16) bs.

Lemma words_ok_insert bs i z : words_ok bs -> is_uint 16 z -> words_ok (<[i := z]> bs).
Proof. intros [L F] Hz. split; [by rewrite length_insert|by apply Forall_insert]. Qed.

Lemma words_ok_total bs i : words_ok bs -> is_uint 16 (bs !!! i).
Proof.
  intros [_ F]. rewrite list_lookup_total_alt. destruct (bs !! i) as [z|] eqn:E; cbn; [by eapply Forall_lookup_1|split; vm_compute; congruence].
Qed.

Lemma boundaries_words l cols : words_ok (ComputeAttributeSizeBoundaries l cols).
Proof.
  unfold ComputeAttributeSizeBoundaries. assert (words_ok (replicate NUM_ATTR_BOUNDARIES 0)) as H0.
  { split; [done|]. apply Forall_replicate. split; vm_compute; congruence. }
  revert H0. generalize 0%nat as idx, (replicate NUM_ATTR_BOUNDARIES 0) as bs. induction (BlockLayout.AttrSize l <$> cols) as [|a sizes IH]; [done|].
  assert (forall fuel idx bs, words_ok bs -> words_ok (advance_boundary fuel a idx bs).2) as Ha.
  { induction fuel as [|fuel IHf]; intros idx bs Hb; [done|]. cbn [advance_boundary]. case_decide; [|done]. apply IHf.
    case_decide; [|done]. apply words_ok_insert; [done|by apply words_ok_total]. }
  intros idx bs Hb. cbn [boundaries_loop]. specialize (Ha 5%nat idx bs Hb). destruct (advance_boundary 5 a idx bs) as [idx' bs'].
  apply IH. case_decide; [|done]. apply words_ok_insert; [done|]. apply wrapu_bound. lia.
Qed.

Lemma sizes_from_boundaries l cols : size_classes (BlockLayout.AttrSize l <$> cols) -> Z.of_nat (length cols) <= MAX_COL ->
  (fun i => AttrSizeFromBoundaries (ComputeAttributeSizeBoundaries l cols) (Z.of_nat i)) <$> seq 0 (length cols) = BlockLayout.AttrSize l <$> cols.
Proof.
  intros Hc Hl. unfold MAX_COL in Hl. apply list_eq. intros k. rewrite !list_lookup_fmap. destruct (cols !! k) as [c|] eqn:E.
  - rewrite lookup_seq_lt by (by eapply lookup_lt_Some). cbn. f_equal. apply attr_size_boundaries_roundtrip; [done|lia|done].
  - rewrite lookup_seq_ge by (by apply lookup_ge_None). done.
Qed.

(** Addresses run out only after 2^62 buffers. *)
Definition address_space : Z := 2 ^ 62.
Definition fresh_allocator (alloc : buffers -> Z) : Prop :=
  forall mem, Z.of_nat (size mem) < address_space -> mem !! alloc mem = None /\ is_uint 64 (alloc mem).

Section roundtrip.
Context `{LogProviderStream P} (garbage : nat -> list Z) (alloc : buffers -> Z).
Hypothesis Hgarbage : forall n, length (garbage n) = n.
Hypothesis Halloc : fresh_allocator alloc.

#[local] Abbreviation at_ p s := (provider_ok p /\ stream p = s).

Lemma Read_bytes (p : P) bs rest : at_ p (bs ++ rest) -> Z.of_nat (length bs) < 2 ^ 31 ->
  exists p', Read p (length bs) = Ok (true, bs, p') /\ at_ p' rest.
Proof.
  intros [Hp Hs] Hl. destruct (Read_stream p (length bs) Hp Hl) as (p' & E & Hp' & Hs').
  exists p'. rewrite Hs in E, Hs'. rewrite take_app_length in E. rewrite drop_app_length in Hs'.
  rewrite bool_decide_eq_true_2 in E by (rewrite length_app; lia). done.
Qed.

Lemma ReadValue_spec (p : P) n z rest : at_ p (le_bytes n z ++ rest) -> Z.of_nat n < 2 ^ 31 -> 0 <= z < 2 ^ (8 * Z.of_nat n) ->
  exists p', ReadValue n p = Ok (z, p') /\ at_ p' rest.
Proof.
  intros Hp Hn Hz. destruct (Read_bytes p (le_bytes n z) rest Hp) as (p' & E & Hp'); [by rewrite length_le_bytes|].
  rewrite length_le_bytes in E. exists p'. unfold ReadValue. rewrite E. cbn [obind]. rewrite le_val_bytes. unfold wrapu. by rewrite Z.mod_small.
Qed.

Lemma ReadBytes_spec (p : P) bs rest n : at_ p (bs ++ rest) -> n = length bs -> Z.of_nat n < 2 ^ 31 ->
  exists p', ReadBytes garbage n p = Ok (bs, p') /\ at_ p' rest.
Proof.
  intros Hp -> Hn. destruct (Read_bytes p bs rest Hp Hn) as (p' & E & Hp'). exists p'. unfold ReadBytes. rewrite E. cbn [obind].
  by rewrite Nat.sub_diag, (nil_length_inv _ (Hgarbage 0)), app_nil_r.
Qed.

Lemma ReadValues_spec n vs : forall (p : P) rest,
  at_ p (concat (le_bytes n <$> vs) ++ rest) -> Z.of_nat n < 2 ^ 31 -> Forall (fun z => 0 <= z < 2 ^ (8 * Z.of_nat n)) vs ->
  exists p', ReadValues (length vs) n p = Ok (vs, p') /\ at_ p' rest.
Proof.
  induction vs as [|v vs IH]; intros p rest Hp Hn Hv; [by exists p|]. inv Hv. cbn [fmap list_fmap concat] in Hp. rewrite <-app_assoc in Hp.
  destruct (ReadValue_spec p n v _ Hp Hn) as (p1 & E1 & Hp1); [done|]. destruct (IH p1 rest Hp1 Hn) as (p2 & E2 & Hp2); [done|].
  exists p2. cbn [length ReadValues]. rewrite E1. cbn [obind]. rewrite E2. done.
Qed.

Lemma read_varlen_spec mem (p : P) content rest :
  at_ p (le_bytes 4 (Z.of_nat (length content)) ++ content ++ rest) -> Z.of_nat (length content) < 2 ^ 31 ->
  Z.of_nat (size mem) < address_space ->
  exists e mem' varlen p', read_varlen garbage alloc mem p = Ok (bytes_of_entry e, mem', varlen, p') /\ at_ p' rest /\
    mem ⊆ mem' /\ (size mem' <= S (size mem))%nat /\ entry_of_bytes (bytes_of_entry e) = e /\ StringView mem' e = content /\ Size e = Z.of_nat (length content) /\
    NeedReclaim e = bool_decide (InlineThreshold < Z.of_nat (length content)).
Proof.
  intros Hp Hl Hmem. set (len := Z.of_nat (length content)) in *.
  destruct (ReadValue_spec p 4 len _ Hp) as (p1 & E1 & Hp1); [lia|cbn; lia|].
  destruct (ReadBytes_spec p1 content rest (Z.to_nat len) Hp1) as (p2 & E2 & Hp2); [lia|lia|].
  unfold read_varlen. rewrite E1. cbn [obind]. rewrite E2. cbn [obind]. destruct (Halloc mem Hmem) as [Hfresh Haddr].
  pose proof (CreateVarlen_view (alloc mem) (garbage 12) mem content Haddr (Hgarbage 12) Hl) as Hv. unfold CreateVarlen in Hv.
  fold len in Hv. rewrite (u32_small len) in Hv by lia. unfold InlineThreshold in *.
  destruct (decide (len <= 16 - 4)) as [Hd|Hd]; [rewrite decide_False in Hv by lia|rewrite decide_True in Hv by lia];
    destruct Hv as (V1 & V2 & V3 & _); do 4 eexists; (split; [reflexivity|]); (split; [done|]).
  - split; [done|]. split; [lia|]. split; [|done]. apply entry_roundtrip; [apply wraps_bound; lia|]. by rewrite payload_CreateInline.
  - split; [by apply insert_subseteq|]. split; [by rewrite map_size_insert_None|]. split; [|done]. apply entry_roundtrip; [apply wraps_bound; lia|]. apply payload_Create. lia.
Qed.

(** The bytes of one attribute value. *)
Lemma write_attribute_varlen l mem c b : BlockLayout.IsVarlen l c = true -> entry_ok mem (entry_of_bytes b) ->
  let v := StringView mem (entry_of_bytes b) in
  bytes_of (write_attribute l mem (c, Some b)) = le_bytes 4 (Z.of_nat (length v)) ++ v /\
  Size (entry_of_bytes b) = Z.of_nat (length v) /\ Z.of_nat (length v) < 2 ^ 31.
Proof.
  intros Hv Hok v. set (e := entry_of_bytes b) in *. assert (length v = Z.to_nat (Size e)) as Lv by (by apply length_StringView).
  assert (0 <= Size e < 2 ^ 31) as HS.
  { unfold Size. rewrite Z.land_comm. change INT32_MAX with (Z.ones 31). rewrite Z.land_ones by lia.
    pose proof (Z.mod_pos_bound (Varlen.size_ e) (2 ^ 31) ltac:(lia)). rewrite u32_small by lia. lia. }
  unfold write_attribute. cbn [fst snd]. rewrite Hv. fold e. split; [|lia]. unfold bytes_of, write. cbn [fmap list_fmap fst snd concat].
  rewrite app_nil_r. f_equal; [f_equal; lia|]. unfold v, StringView, Content. by destruct (IsInlined e).
Qed.

Lemma same_value_mono l mem mem1 mem2 q q' : mem1 ⊆ mem2 -> value_ok l mem q ->
  same_value l mem mem1 q q' ->
  match q'.2 with Some b' => BlockLayout.IsVarlen l q'.1 = true -> length (StringView mem1 (entry_of_bytes b')) = Z.to_nat (Size (entry_of_bytes b')) | None => True end ->
  same_value l mem mem2 q q'.
Proof.
  intros Hsub Hok [E Hs] Hl. split; [done|]. destruct (q.2) as [b|], (q'.2) as [b'|]; try done. rewrite <-E in Hl.
  destruct (BlockLayout.IsVarlen l q.1); [|done]. by rewrite (StringView_mono mem1 mem2) by auto.
Qed.

Lemma read_columns_spec l mem0 bits delta : forall i mem (p : P) rest,
  at_ p (bytes_of (delta ≫= write_attribute l mem0) ++ rest) ->
  (forall k q, delta !! k = Some q -> RawBitmap.Test bits (i + Z.of_nat k) = bool_decide (is_Some q.2)) ->
  Forall (fun c => BlockLayout.IsVarlen l c = true <-> BlockLayout.AttrSize l c = 16) (delta.*1) ->
  Forall (fun c => BlockLayout.AttrSize l c <= 16) (delta.*1) ->
  Forall (value_ok l mem0) delta -> Z.of_nat (size mem) + Z.of_nat (length delta) < address_space ->
  exists delta' mem' varlens p',
    read_columns garbage alloc bits i (zip (delta.*1) (BlockLayout.AttrSize l <$> delta.*1)) mem p = Ok (delta', mem', varlens, p') /\
    at_ p' rest /\ mem ⊆ mem' /\ Forall2 (same_value l mem0 mem') delta delta'.
Proof.
  induction delta as [|[c v] delta IH]; intros i mem p rest Hp Hb Hvar Hsz Hok Hmem; [by exists [], mem, [], p|]. cbn [length] in Hmem.
  cbn [fmap list_fmap fst zip zip_with] in *. inv Hvar. inv Hsz. inv Hok. rename select (value_ok _ _ _) into Hv.
  rename select (_ <-> _) into Hiff. rename select (BlockLayout.AttrSize l c <= 16) into H16. rename select (Forall (value_ok _ _) _) into Hoks.
  rewrite bind_cons, bytes_of_app, <-app_assoc in Hp.
  assert (forall k q, delta !! k = Some q -> RawBitmap.Test bits (i + 1 + Z.of_nat k) = bool_decide (is_Some q.2)) as Hb'.
  { intros k q Hk. rewrite <-(Hb (S k) q Hk). f_equal. lia. }
  pose proof (Hb 0%nat (c, v) eq_refl) as Ht. cbn [snd] in Ht. replace (i + Z.of_nat 0) with i in Ht by lia.
  cbn [read_columns]. rewrite Ht. change (AttrSizeBytes VARLEN_COLUMN) with 16.
  destruct v as [b|]; [rewrite bool_decide_eq_true_2 by done|rewrite bool_decide_eq_false_2 by (by intros [? ?])]; cbn [negb].
  - pose proof Hv as (Hlb & Hbb & He). cbn [fst snd] in Hlb, Hbb, He. destruct (BlockLayout.IsVarlen l c) eqn:Ev.
    + rewrite decide_True by tauto. destruct (write_attribute_varlen l mem0 c b Ev (He eq_refl)) as (Ew & Es & Hs). rewrite Ew, <-app_assoc in Hp.
      destruct (read_varlen_spec mem p _ _ Hp Hs ltac:(lia)) as (e & mem1 & varlen & p1 & E1 & Hp1 & Hsub1 & Hsz1 & Ee & Ev1 & ES & EN).
      rewrite E1. cbn [obind]. destruct (IH (i + 1) mem1 p1 rest Hp1) as (delta' & mem' & varlens & p' & E2 & Hp' & Hsub & HF); [done|done|done|done|lia|].
      rewrite E2. cbn [obind]. do 4 eexists. split; [reflexivity|]. split; [done|]. split; [by etrans|]. constructor; [|done].
      apply (same_value_mono _ _ mem1); [done|done| |].
      * split; [done|]. cbn [fst snd]. rewrite Ev, Ee, Ev1, EN, Es. done.
      * cbn [fst snd]. intros _. rewrite Ee, Ev1, ES. lia.
    + rewrite decide_False by (intros E; destruct Hiff as [_ Hiff]; by specialize (Hiff E)).
      unfold write_attribute in Hp. cbn [fst snd] in Hp. rewrite Ev in Hp. cbn [bytes_of fmap list_fmap concat snd] in Hp. rewrite app_nil_r in Hp.
      rewrite take_ge in Hp by lia. destruct (ReadBytes_spec p b _ (Z.to_nat (BlockLayout.AttrSize l c)) Hp) as (p1 & E1 & Hp1); [lia|lia|].
      rewrite E1. cbn [obind]. destruct (IH (i + 1) mem p1 rest Hp1) as (delta' & mem' & varlens & p' & E2 & Hp' & Hsub & HF); [done|done|done|done|lia|].
      rewrite E2. cbn [obind]. do 4 eexists. split; [reflexivity|]. split; [done|]. split; [done|]. constructor; [|done].
      split; [done|]. cbn [fst snd]. by rewrite Ev.
  - cbn [obind]. destruct (IH (i + 1) mem p rest Hp) as (delta' & mem' & varlens & p' & E2 & Hp' & Hsub & HF); [done|done|done|done|lia|].
    rewrite E2. cbn [obind]. do 4 eexists. split; [reflexivity|]. split; [done|]. split; [done|]. by constructor.
Qed.

Ltac read_value := match goal with
  | Hp : provider_ok ?p /\ stream ?p = le_bytes ?n ?z ++ ?rest |- context [ReadValue ?n ?p] =>
    let p' := fresh "p" in let E := fresh "E" in let Hp' := fresh "Hp" in
    destruct (ReadValue_spec p n z rest Hp) as (p' & E & Hp'); [lia|cbn; unfold is_uint in *; lia|]; rewrite E; cbn [obind]; clear E Hp; rename Hp' into Hp
  end.

(** A redo record after its header. *)
Lemma read_redo_spec l mem0 begin_ db table slot delta mem (p : P) rest :
  Z.of_nat (size mem) + MAX_COL < address_space ->
  record_ok l mem0 (mk 0 begin_ (RedoRecord db table slot delta)) ->
  at_ p (le_bytes 2 (Z.of_nat (length delta)) ++ concat (le_bytes 2 <$> delta.*1) ++
         concat (le_bytes 2 <$> ComputeAttributeSizeBoundaries l (delta.*1)) ++ null_bitmap delta ++
         bytes_of (delta ≫= write_attribute l mem0) ++ rest) ->
  exists p1 p2 p3 p4 delta' mem' varlens p',
    ReadValue 2 p = Ok (Z.of_nat (length delta), p1) /\ ReadValues (length delta) 2 p1 = Ok (delta.*1, p2) /\
    ReadValues NUM_ATTR_BOUNDARIES 2 p2 = Ok (ComputeAttributeSizeBoundaries l (delta.*1), p3) /\
    ReadBytes garbage (Z.to_nat (RawBitmap.SizeInBytes (Z.of_nat (length delta)))) p3 = Ok (null_bitmap delta, p4) /\
    read_columns garbage alloc (null_bitmap delta) 0 (zip (delta.*1) (BlockLayout.AttrSize l <$> delta.*1)) mem p4 = Ok (delta', mem', varlens, p') /\
    at_ p' rest /\ mem ⊆ mem' /\ Forall2 (same_value l mem0 mem') delta delta'.
Proof.
  intros Hmem (_ & _ & _ & _ & _ & _ & _ & Hl & Hids & Hc & Hvar & Hok) Hp.
  pose proof (length_fmap fst delta) as Lf. destruct (null_bitmap_spec delta Hl) as [Lb Tb]. unfold MAX_COL in Hl, Hmem.
  pose proof (SizeInBytes_bounds (Z.of_nat (length delta)) ltac:(lia)) as Hs. destruct (boundaries_words l (delta.*1)) as [Lw Fw].
  destruct (ReadValue_spec p 2 _ _ Hp) as (p1 & E1 & Hp1); [lia|cbn; lia|].
  destruct (ReadValues_spec 2 (delta.*1) p1 _ Hp1) as (p2 & E2 & Hp2); [lia|done|].
  destruct (ReadValues_spec 2 (ComputeAttributeSizeBoundaries l (delta.*1)) p2 _ Hp2) as (p3 & E3 & Hp3); [lia|done|].
  destruct (ReadBytes_spec p3 (null_bitmap delta) _ (Z.to_nat (RawBitmap.SizeInBytes (Z.of_nat (length delta)))) Hp3) as (p4 & E4 & Hp4); [lia|lia|].
  destruct (read_columns_spec l mem0 (null_bitmap delta) delta 0 mem p4 rest Hp4 Tb Hvar) as (delta' & mem' & varlens & p' & E5 & Hp' & Hsub & HF); [|done|lia|].
  { destruct Hc as [_ Hc]. rewrite Forall_fmap in Hc. eapply Forall_impl; [exact Hc|]. intros c Hin. revert Hin. cbn. rewrite !elem_of_cons, elem_of_nil. lia. }
  rewrite Lf in E2. rewrite Lw in E3. exists p1, p2, p3, p4, delta', mem', varlens, p'. done.
Qed.

Lemma ReadNextRecord_spec l mem0 r mem (p : P) rest :
  Z.of_nat (size mem) + MAX_COL < address_space -> record_ok l mem0 r -> at_ p (bytes_of (SerializeRecord l mem0 r) ++ rest) ->
  exists r' mem' varlens p', ReadNextRecord garbage alloc mem p = Ok (r', mem', varlens, p') /\ at_ p' rest /\ mem ⊆ mem' /\
    same_record l mem0 mem' r r'.
Proof.
  intros Hmem (Hsz & Hbegin & Hbody) Hp. unfold SerializeRecord in Hp. rewrite bytes_of_app in Hp. unfold write in Hp.
  rewrite !bytes_of_cons in Hp. cbn [bytes_of fmap list_fmap concat] in Hp. rewrite app_nil_r, <-!app_assoc in Hp.
  assert (1 <= RecordType r <= 4) as Ht by (unfold RecordType, REDO, DELETE, COMMIT, ABORT; destruct (body_ r); lia).
  unfold ReadNextRecord. do 3 read_value. unfold RecordType, REDO, DELETE, COMMIT, ABORT, same_record in *. destruct (body_ r) as [db table slot delta|db table slot|commit oldest cb ro|].
  - rewrite !decide_False, decide_True by lia. pose proof Hbody as (Hdb & Htb & Hsl & Hne & Hnd & Hl & _ & Hc & _).
    rewrite bytes_of_app, !bytes_of_cons, <-!app_assoc in Hp. do 3 read_value. change (bytes_of [] ++ ?x) with x in Hp.
    assert (record_ok l mem0 (mk 0 (txn_begin_ r) (RedoRecord db table slot delta))) as Hrec by (split; [split; vm_compute; congruence|done]).
    destruct (read_redo_spec l mem0 _ db table slot delta mem _ rest Hmem Hrec Hp) as
      (q1 & q2 & q3 & q4 & delta' & mem' & varlens & p' & E1 & E2 & E3 & E4 & E5 & Hp' & Hsub & HF).
    rewrite E1. cbn [obind]. rewrite (decide_False (P := MAX_COL < _)) by lia. rewrite Nat2Z.id, E2. cbn [obind]. rewrite E3. cbn [obind].
    rewrite <-(length_fmap fst delta) in E4 |- *. rewrite sizes_from_boundaries by (done || rewrite length_fmap; done).
    rewrite decide_False; [|intros Hno; apply Hno; unfold row_asserts; split_and!; [by destruct delta|by rewrite !length_fmap|apply Hc|done]].
    rewrite E4. cbn [obind]. rewrite E5. cbn [obind].
    do 4 eexists. split; [reflexivity|]. done.
  - rewrite !decide_False, decide_True by lia. destruct Hbody as (Hdb & Htb & Hsl). rewrite !bytes_of_cons, <-!app_assoc in Hp.
    do 3 read_value. do 4 eexists. split; [reflexivity|]. done.
  - rewrite decide_True by lia. destruct Hbody as (Hc & Ho & Hinv). rewrite !bytes_of_cons, <-!app_assoc in Hp.
    do 2 read_value. rewrite decide_False by done. do 4 eexists. split; [reflexivity|]. done.
  - rewrite decide_False, decide_True by lia. do 4 eexists. split; [reflexivity|]. done.
Qed.

End roundtrip.

Lemma unread_HasMore (r : BufferedLogReader.t) : BufferedLogReader.unread r <> [] -> BufferedLogReader.HasMore r = true.
Proof.
  intros Hu. unfold BufferedLogReader.HasMore. apply orb_true_iff. rewrite !bool_decide_eq_true. unfold BufferedLogReader.unread in Hu.
  destruct (BufferedLogReader.in_ r); [by right|]. left. destruct (decide (BufferedLogReader.read_head_ r < length (BufferedLogReader.buffer_ r))%nat); [done|].
  rewrite drop_ge in Hu by lia. done.
Qed.

Lemma serialized_nonempty l mem r : bytes_of (SerializeRecord l mem r) <> [].
Proof. intros E. apply (f_equal length) in E. unfold SerializeRecord, write in E. cbn [app] in E. rewrite bytes_of_cons, length_app, length_le_bytes in E. cbn in E. lia. Qed.

(** A redo whose columns are a short string, an 8-byte integer and a null. *)
Definition example_layout : BlockLayout.BlockLayout := BlockLayout.make [8; VARLEN_COLUMN; 8; 4].
Definition example_record : LogRecord :=
  InitializeRedo 7 1 1001 (ProjectedRowInitializer.Create_sizes [16; 8; 4] [1; 2; 3]).
Definition example_redo : LogRecord :=
  mk (size_ example_record) 7 (RedoRecord 1 1001 4096 [(1, Some (bytes_of_entry (CreateInline (replicate 12 0) [104; 105; 33] 3)));
                                                        (2, Some [1; 2; 3; 4; 5; 6; 7; 8]); (3, None)]).

Lemma example_redo_ok : record_ok example_layout ∅ example_redo.
Proof.
  assert (BlockLayout.AttrSize example_layout 1 = 16 /\ BlockLayout.AttrSize example_layout 2 = 8 /\ BlockLayout.AttrSize example_layout 3 = 4 /\
    BlockLayout.IsVarlen example_layout 1 = true /\ BlockLayout.IsVarlen example_layout 2 = false /\ BlockLayout.IsVarlen example_layout 3 = false)
    as (S1 & S2 & S3 & V1 & V2 & V3) by (vm_compute; done).
  split; [split; vm_compute; congruence|]. split; [split; vm_compute; congruence|]. cbn [example_redo body_]. cbn [fmap list_fmap fst]. rewrite S1, S2, S3.
  split; [split; vm_compute; congruence|]. split; [split; vm_compute; congruence|]. split; [split; vm_compute; congruence|].
  split; [done|]. split; [by repeat constructor; set_solver|].
  split; [vm_compute; congruence|]. split; [repeat constructor; vm_compute; congruence|].
  split; [split; [repeat constructor; vm_compute; congruence|repeat constructor; set_solver]|].
  split; [repeat constructor; rewrite ?S1, ?S2, ?S3, ?V1, ?V2, ?V3; done|].
  repeat constructor; cbn [snd fst]; rewrite ?S1, ?S2, ?V1, ?V2; try (vm_compute; congruence); try done.
Qed.

(** C12: a record written to the log reads back: if the unread part of the log file
    starts with the bytes of a well-formed record (a redo with columns, each once, in the
    order of descending sizes; a commit with a valid bound on the running transactions),
    then however the system calls split the file and however often they are interrupted,
    as long as none fails, the next record is the same: header fields, every null, every
    fixed-size value and the content of every variable-length value, in new buffers that
    must be reclaimed exactly when they are out of line; the reader is left behind it.  No
    assertion on the way fails. *)
Theorem log_record_roundtrip (calls : nat -> list attempt) (garbage : nat -> list Z) (alloc : buffers -> Z)
    (l : BlockLayout.BlockLayout) (mem0 mem : buffers) (r : LogRecord) (reader : BufferedLogReader.t) (rest : list Z) :
  (forall n, enough_calls (S LOG_BUFFER_SIZE) (calls n)) -> (forall n, length (garbage n) = n) ->
  fresh_allocator alloc -> Z.of_nat (size mem) + MAX_COL < address_space ->
  record_ok l mem0 r -> reader_ok reader -> BufferedLogReader.unread reader = bytes_of (SerializeRecord l mem0 r) ++ rest ->
  exists r' mem' varlens p',
    GetNextRecord garbage alloc mem (DiskLogProvider.mk calls reader) = Ok (Some (r', mem', varlens, p')) /\
    same_record l mem0 mem' r r' /\ mem ⊆ mem' /\ provider_ok p' /\ BufferedLogReader.unread (DiskLogProvider.in_ p') = rest.
Proof.
  intros Hcalls Hg Ha Hmem Hr Hok Hu. unfold GetNextRecord. cbn [HasMoreRecords DiskLogProvider_provider].
  unfold DiskLogProvider.DiskHasMoreRecords. cbn [DiskLogProvider.in_]. rewrite unread_HasMore.
  - destruct (ReadNextRecord_spec (P := DiskLogProvider.t) garbage alloc Hg Ha l mem0 r mem (DiskLogProvider.mk calls reader) rest Hmem Hr)
      as (r' & mem' & varlens & p' & E & [Hp' Hs'] & Hsub & Hsame); [done|].
    rewrite E. cbn [obind]. exists r', mem', varlens, p'. done.
  - rewrite Hu. pose proof (serialized_nonempty l mem0 r). by destruct (bytes_of _).
Qed.

(** An allocator that takes the first free address. *)
Definition first_free (mem : buffers) : Z :=
  default 0 (head (filter (fun a => mem !! a = None) (seqZ 0 (Z.of_nat (S (size mem)))))).

Lemma first_free_fresh : fresh_allocator first_free.
Proof.
  intros mem Hm. unfold first_free. set (free := filter _ _).
  assert (forall a, a ∈ free -> mem !! a = None /\ is_uint 64 a) as Hfree.
  { intros a Ha. unfold free in Ha. apply list_elem_of_filter in Ha as [Hn Hs]. apply elem_of_seqZ in Hs. unfold is_uint, address_space in *. split; [done|]. lia. }
  destruct free as [|a free'] eqn:E; [|apply Hfree; set_solver]. exfalso.
  assert (list_to_set (seqZ 0 (Z.of_nat (S (size mem)))) ⊆ dom mem) as Hsub.
  { intros a Ha. apply elem_of_list_to_set in Ha. apply elem_of_dom. destruct (mem !! a) eqn:Ea; [done|]. exfalso.
    assert (a ∈ free) as Hin by (unfold free; apply list_elem_of_filter; done). rewrite E in Hin. by apply not_elem_of_nil in Hin. }
  apply subseteq_size in Hsub. rewrite size_list_to_set, length_seqZ, size_dom in Hsub by apply NoDup_seqZ. lia.
Qed.

Lemma log_record_roundtrip_witness :
  exists r' mem' varlens p',
    GetNextRecord (fun n => replicate n 0) first_free ∅
      (DiskLogProvider.Open (fun _ => replicate (S LOG_BUFFER_SIZE) (Transferred 6)) (bytes_of (SerializeRecord example_layout ∅ example_redo)))
      = Ok (Some (r', mem', varlens, p')) /\ same_record example_layout ∅ mem' example_redo r'.
Proof.
  destruct (log_record_roundtrip (fun _ => replicate (S LOG_BUFFER_SIZE) (Transferred 6)) (fun n => replicate n 0) first_free example_layout ∅ ∅
    example_redo (BufferedLogReader.Open (bytes_of (SerializeRecord example_layout ∅ example_redo))) []) as (r' & mem' & varlens & p' & E & Hs & _).
  - intros _. split; [by apply Forall_replicate|]. vm_compute. lia.
  - intros n. apply length_replicate.
  - apply first_free_fresh.
  - vm_compute. reflexivity.
  - apply example_redo_ok.
  - unfold reader_ok. cbn. lia.
  - cbn [BufferedLogReader.Open]. unfold BufferedLogReader.unread. cbn [BufferedLogReader.in_ BufferedLogReader.buffer_ BufferedLogReader.read_head_]. rewrite app_nil_r. reflexivity.
  - exists r', mem', varlens, p'. split; [exact E|exact Hs].
Defined.

(** A commit record without a valid bound, as a read-only transaction has, is refused. *)
Example read_only_commit_refused :
  GetNextRecord (fun n => replicate n 0) first_free ∅
    (DiskLogProvider.Open (fun _ => replicate (S LOG_BUFFER_SIZE) (Transferred 6))
       (bytes_of (SerializeRecord example_layout ∅ (InitializeCommit 7 8 0 INVALID_TXN_TIMESTAMP true)))) = Throw AssertionFailed.
Proof. vm_compute. reflexivity. Qed.

(** A reader over a file that ends with a full buffer, an empty file in particular, has
    more records by [HasMore], and reading one fails. *)
Lemma empty_log_short_read calls garbage alloc mem : (forall n, enough_calls (S LOG_BUFFER_SIZE) (calls n)) ->
  GetNextRecord garbage alloc mem (DiskLogProvider.Open calls []) = Throw ShortRead.
Proof.
  intros Hc. unfold GetNextRecord. cbn [HasMoreRecords DiskLogProvider_provider]. unfold DiskLogProvider.DiskHasMoreRecords, DiskLogProvider.Open. cbn [DiskLogProvider.in_].
  change (BufferedLogReader.HasMore (BufferedLogReader.Open [])) with true. unfold ReadNextRecord, ReadValue.
  destruct (Read_stream (P := DiskLogProvider.t) (DiskLogProvider.mk calls (BufferedLogReader.Open [])) 4) as (p' & E & _ & _).
  - split; [unfold reader_ok; cbn; lia|done].
  - lia.
  - rewrite E. done.
Qed.

(** [SerializeRecord] does not count the attribute size boundaries of a redo record. *)
Lemma num_bytes_redo l mem size begin_ db table slot delta :
  let ws := SerializeRecord l mem (mk size begin_ (RedoRecord db table slot delta)) in
  num_bytes ws = Z.of_nat (length (bytes_of ws)) - 8.
Proof.
  assert (forall ws, Forall (fun w => w.1 = true) ws -> num_bytes ws = Z.of_nat (length (bytes_of ws))) as Hall.
  { induction ws as [|[b bs] ws IH]; intros Hw; [done|]. inv Hw. rename select (_.1 = true) into E. cbn in E. subst b.
    rewrite bytes_of_cons, length_app, Nat2Z.inj_add, <-IH by done. done. }
  assert (Forall (fun w => w.1 = true) (delta ≫= write_attribute l mem)) as Ha.
  { apply Forall_bind, Forall_forall. intros [c v] _. unfold write_attribute. cbn. destruct v; [|done]. destruct (BlockLayout.IsVarlen l c); repeat constructor. }
  assert (forall a b, num_bytes (a ++ b) = num_bytes a + num_bytes b) as Happ
    by (induction a as [|w a IH]; intros b; [done|]; unfold num_bytes in *; cbn [app foldr]; rewrite IH; lia).
  cbv zeta. unfold SerializeRecord. cbn [size_ txn_begin_ body_]. rewrite app_assoc, Happ, bytes_of_app, length_app, (Hall _ Ha).
  destruct (boundaries_words l (delta.*1)) as [Lw _]. unfold write. cbn [app]. rewrite !bytes_of_cons. cbn [num_bytes foldr fst snd]. rewrite !length_app.
  assert (length (concat (le_bytes 2 <$> ComputeAttributeSizeBoundaries l delta.*1)) = 8%nat) as ->; [|cbn [length bytes_of concat fmap list_fmap]; lia].
  revert Lw. generalize (ComputeAttributeSizeBoundaries l delta.*1). intros [|? [|? [|? [|? [|]]]]]; try discriminate. intros _.
  cbn [fmap list_fmap concat]. rewrite !length_app, !length_le_bytes. done.
Qed.
