(* ===== verification/LogManager.v ===== *)
(** * Log manager

    The two threads of [storage/write_ahead_log]: [LogSerializerTask]
    (log_serializer_task.{h,cpp}) turns the record buffers that transactions hand over
    into bytes in [BufferedLogWriter]s, and [DiskLogConsumerTask]
    (disk_log_consumer_task.cpp) writes these to the log file, persists it and calls the
    commit callbacks.  [LogManager::Start], [AddBufferToFlushQueue] and [ForceFlush]
    (log_manager.cpp) tie them together.

    The threads are one transition system: a transaction hands over a segment, the
    serializer takes one step of [Process], or the consumer flushes one buffer or
    persists the file, in any order.  A step is what runs under a latch or on the
    thread's own data; the blocking [Dequeue] of an empty buffer is a step that is
    disabled while there is none. *)

From S2P Require Import Prelude Layout Varlen LogIO LogRecords.
Import LogRecord.

Module LogManager.

(** What is left of [SerializeBuffer] for the buffers taken from the flush queue. *)
Inductive action :=
| Write (bytes : list Z)
| Callback (commit_callback : Z)
| Serialized (txn_begin : Z).

Inductive phase := Idle | Serializing | HandingOver | Removing.

#[global] Instance phase_eq_dec : EqDecision phase.
Proof. solve_decision. Defined.

Record state := mk {
  flush_queue_ : list (list LogRecord);
  phase_ : phase;
  todo_ : list action;
  filled_buffer_ : option BufferedLogWriter.t;
  commits_in_buffer_ : list Z;
  serialized_txns_ : list Z;
  empty_buffer_queue_ : list BufferedLogWriter.t;
  filled_buffer_queue_ : list (option BufferedLogWriter.t * list Z);
  commit_callbacks_ : list Z;
  file_ : list Z;
  persisted_ : nat;
  invoked_ : list Z;
  removed_txns_ : list Z;
}.

(** [Start] with an empty log file. *)
Definition Start (num_buffers : nat) : state :=
  mk [] Idle [] None [] [] (replicate num_buffers BufferedLogWriter.empty) [] [] [] 0 [] [].

Definition AddBufferToFlushQueue (segment : list LogRecord) (s : state) : state :=
  mk (flush_queue_ s ++ [segment]) (phase_ s) (todo_ s) (filled_buffer_ s) (commits_in_buffer_ s) (serialized_txns_ s)
    (empty_buffer_queue_ s) (filled_buffer_queue_ s) (commit_callbacks_ s) (file_ s) (persisted_ s) (invoked_ s) (removed_txns_ s).

Section tasks.
(** The layout of a record's table, and the varlen buffers. *)
Context (layout_for : LogRecord -> BlockLayout.BlockLayout) (mem : buffers).

(** [SerializeBuffer] for one record. *)
Definition SerializeBuffer_record (r : LogRecord) : list action :=
  let writes := (fun w => Write w.2) <$> SerializeRecord (layout_for r) mem r in
  match body_ r with
  | CommitRecord _ _ commit_callback is_read_only =>
    (if is_read_only then [] else writes) ++ [Callback commit_callback; Serialized (txn_begin_ r)]
  | AbortRecord => writes ++ [Serialized (txn_begin_ r)]
  | _ => writes
  end.

Definition SerializeBuffer (segment : list LogRecord) : list action := segment ≫= SerializeBuffer_record.

(** Moving the flush queue to the temporary queue and going through it. *)
Definition take_flush_queue (s : state) : state :=
  mk [] Serializing (flush_queue_ s ≫= SerializeBuffer) (filled_buffer_ s) (commits_in_buffer_ s) (serialized_txns_ s)
    (empty_buffer_queue_ s) (filled_buffer_queue_ s) (commit_callbacks_ s) (file_ s) (persisted_ s) (invoked_ s) (removed_txns_ s).

Definition set_phase (p : phase) (s : state) : state :=
  mk (flush_queue_ s) p (todo_ s) (filled_buffer_ s) (commits_in_buffer_ s) (serialized_txns_ s)
    (empty_buffer_queue_ s) (filled_buffer_queue_ s) (commit_callbacks_ s) (file_ s) (persisted_ s) (invoked_ s) (removed_txns_ s).

Definition set_todo (todo : list action) (s : state) : state :=
  mk (flush_queue_ s) (phase_ s) todo (filled_buffer_ s) (commits_in_buffer_ s) (serialized_txns_ s)
    (empty_buffer_queue_ s) (filled_buffer_queue_ s) (commit_callbacks_ s) (file_ s) (persisted_ s) (invoked_ s) (removed_txns_ s).

Definition set_filled (w : BufferedLogWriter.t) (s : state) : state :=
  mk (flush_queue_ s) (phase_ s) (todo_ s) (Some w) (commits_in_buffer_ s) (serialized_txns_ s)
    (empty_buffer_queue_ s) (filled_buffer_queue_ s) (commit_callbacks_ s) (file_ s) (persisted_ s) (invoked_ s) (removed_txns_ s).

Definition add_commit (c : Z) (s : state) : state :=
  mk (flush_queue_ s) (phase_ s) (todo_ s) (filled_buffer_ s) (commits_in_buffer_ s ++ [c]) (serialized_txns_ s)
    (empty_buffer_queue_ s) (filled_buffer_queue_ s) (commit_callbacks_ s) (file_ s) (persisted_ s) (invoked_ s) (removed_txns_ s).

Definition add_serialized (t : Z) (s : state) : state :=
  mk (flush_queue_ s) (phase_ s) (todo_ s) (filled_buffer_ s) (commits_in_buffer_ s) (serialized_txns_ s ++ [t])
    (empty_buffer_queue_ s) (filled_buffer_queue_ s) (commit_callbacks_ s) (file_ s) (persisted_ s) (invoked_ s) (removed_txns_ s).

(** [GetCurrentWriteBuffer] when there is no current buffer; [None]: blocked. *)
Definition DequeueEmpty (s : state) : option state :=
  match empty_buffer_queue_ s with
  | [] => None
  | w :: queue =>
    Some (mk (flush_queue_ s) (phase_ s) (todo_ s) (Some w) (commits_in_buffer_ s) (serialized_txns_ s)
            queue (filled_buffer_queue_ s) (commit_callbacks_ s) (file_ s) (persisted_ s) (invoked_ s) (removed_txns_ s))
  end.

Definition HandFilledBufferToWriter (s : state) : state :=
  mk (flush_queue_ s) (phase_ s) (todo_ s) None [] (serialized_txns_ s)
    (empty_buffer_queue_ s) (filled_buffer_queue_ s ++ [(filled_buffer_ s, commits_in_buffer_ s)])
    (commit_callbacks_ s) (file_ s) (persisted_ s) (invoked_ s) (removed_txns_ s).

(** [RemoveTransactions] for the serialized transactions. *)
Definition RemoveSerialized (s : state) : state :=
  mk (flush_queue_ s) (phase_ s) (todo_ s) (filled_buffer_ s) (commits_in_buffer_ s) []
    (empty_buffer_queue_ s) (filled_buffer_queue_ s) (commit_callbacks_ s) (file_ s) (persisted_ s) (invoked_ s)
    (removed_txns_ s ++ serialized_txns_ s).

(** One round of the loop of [WriteValue] with [bytes] left: it gets a buffer, writes
    what fits and hands the buffer over when it is full, or ends. *)
Definition WriteValue (bytes : list Z) (rest : list action) (s : state) : option state :=
  match filled_buffer_ s with
  | None => DequeueEmpty s
  | Some out =>
    if decide (bytes = []) then Some (set_todo rest s)
    else
      let '(size_written, out) := BufferedLogWriter.BufferWrite out bytes in
      let s := set_todo (Write (drop size_written bytes) :: rest) (set_filled out s) in
      Some (if BufferedLogWriter.IsBufferFull out then HandFilledBufferToWriter s else s)
  end.

(** One step of [Process]. *)
Definition Process (s : state) : option state :=
  match phase_ s, todo_ s with
  | Idle, _ => if decide (flush_queue_ s = []) then None else Some (take_flush_queue s)
  | Serializing, Write bytes :: rest => WriteValue bytes rest s
  | Serializing, Callback c :: rest => Some (set_todo rest (add_commit c s))
  | Serializing, Serialized t :: rest => Some (set_todo rest (add_serialized t s))
  | Serializing, [] =>
    Some (if decide (flush_queue_ s = []) then set_phase HandingOver s else take_flush_queue s)
  | HandingOver, _ => Some (set_phase Removing (HandFilledBufferToWriter s))
  | Removing, _ => Some (set_phase Idle (RemoveSerialized s))
  end.

(** One round of [WriteBuffersToLogFile], with the system calls of its flush; [None]
    when the queue is empty or the flush does not end. *)
Definition WriteBufferToLogFile (calls : list attempt) (s : state) : option state :=
  let continue queue released commits file :=
    mk (flush_queue_ s) (phase_ s) (todo_ s) (filled_buffer_ s) (commits_in_buffer_ s) (serialized_txns_ s)
      (empty_buffer_queue_ s ++ released) queue (commit_callbacks_ s ++ commits) file (persisted_ s) (invoked_ s) (removed_txns_ s) in
  match filled_buffer_queue_ s with
  | [] => None
  | (None, commits) :: queue => Some (continue queue [] commits (file_ s))
  | (Some w, commits) :: queue =>
    match BufferedLogWriter.FlushBuffer calls w (file_ s) with
    | Ok (_, w, file) => Some (continue queue [w] commits file)
    | _ => None
    end
  end.

(** [PersistLogFile] *)
Definition PersistLogFile (s : state) : state :=
  mk (flush_queue_ s) (phase_ s) (todo_ s) (filled_buffer_ s) (commits_in_buffer_ s) (serialized_txns_ s)
    (empty_buffer_queue_ s) (filled_buffer_queue_ s) [] (file_ s) (length (file_ s)) (invoked_ s ++ commit_callbacks_ s) (removed_txns_ s).

(** ** The system: its state and the segments handed over so far *)

Inductive step : state * list (list LogRecord) -> state * list (list LogRecord) -> Prop :=
| step_client s h segment : step (s, h) (AddBufferToFlushQueue segment s, h ++ [segment])
| step_serializer s s' h : Process s = Some s' -> step (s, h) (s', h)
| step_write s s' calls h : WriteBufferToLogFile calls s = Some s' -> step (s, h) (s', h)
| step_persist s h : step (s, h) (PersistLogFile s, h).

Definition reachable (num_buffers : nat) : state * list (list LogRecord) -> Prop := rtc step (Start num_buffers, []).

(** The records' bytes, callbacks and transactions in the order they were handed over. *)
Definition record_bytes (r : LogRecord) : list Z :=
  match body_ r with CommitRecord _ _ _ true => [] | _ => bytes_of (SerializeRecord (layout_for r) mem r) end.
Definition record_callbacks (r : LogRecord) : list Z := match body_ r with CommitRecord _ _ c _ => [c] | _ => [] end.
Definition record_txns (r : LogRecord) : list Z := match body_ r with CommitRecord _ _ _ _ | AbortRecord => [txn_begin_ r] | _ => [] end.

End tasks.

End LogManager.

Import LogManager.

(** Reduces the fields of an updated state, and nothing else. *)
Ltac fields :=
  cbn [flush_queue_ phase_ todo_ filled_buffer_ commits_in_buffer_ serialized_txns_ empty_buffer_queue_ filled_buffer_queue_
       commit_callbacks_ file_ persisted_ invoked_ removed_txns_ Start AddBufferToFlushQueue take_flush_queue set_phase
       set_todo set_filled add_commit add_serialized HandFilledBufferToWriter RemoveSerialized PersistLogFile] in *.

(** ** What the tasks have to do, event by event *)

Inductive event := EByte (b : Z) | ECallback (c : Z) | ETxn (t : Z).

Definition action_events (a : action) : list event :=
  match a with Write bs => EByte <$> bs | Callback c => [ECallback c] | Serialized t => [ETxn t] end.
Definition events (todo : list action) : list event := todo ≫= action_events.

Definition event_byte (e : event) : option Z := match e with EByte b => Some b | _ => None end.
Definition event_callback (e : event) : option Z := match e with ECallback c => Some c | _ => None end.
Definition event_txn (e : event) : option Z := match e with ETxn t => Some t | _ => None end.

Abbreviation ebytes := (omap (M := list) event_byte).
Abbreviation ecallbacks := (omap (M := list) event_callback).
Abbreviation etxns := (omap (M := list) event_txn).

Lemma events_app a b : events (a ++ b) = events a ++ events b.
Proof. apply bind_app. Qed.

Lemma ebytes_bytes bs : ebytes (EByte <$> bs) = bs.
Proof. induction bs as [|b bs IH]; [done|]. cbn. by f_equal. Qed.

Lemma ecallbacks_bytes bs : ecallbacks (EByte <$> bs) = [].
Proof. by induction bs. Qed.

Lemma etxns_bytes bs : etxns (EByte <$> bs) = [].
Proof. by induction bs. Qed.

(** Callbacks with an index below [c] come after at most [b] bytes. *)
Definition covered (d : list event) (c b : nat) : Prop :=
  forall d1 x d2, d = d1 ++ ECallback x :: d2 -> (length (ecallbacks d1) < c)%nat -> (length (ebytes d1) <= b)%nat.

Lemma covered_mono d c b c' b' : covered d c b -> (c' <= c)%nat -> (b <= b')%nat -> covered d c' b'.
Proof. intros H Hc Hb d1 x d2 E Hx. specialize (H d1 x d2 E ltac:(lia)). lia. Qed.

Lemma covered_snoc d e c b : covered d c b -> (c <= length (ecallbacks d))%nat -> covered (d ++ [e]) c b.
Proof.
  intros H Hc d1 x d2 E Hx. destruct d2 as [|y d2 _] using rev_ind.
  - apply app_inj_tail in E as [<- _]. lia.
  - rewrite app_comm_cons, app_assoc in E. apply app_inj_tail in E as [-> _]. by eapply H.
Qed.

Lemma covered_app d d' c b : covered d c b -> (c <= length (ecallbacks d))%nat -> covered (d ++ d') c b.
Proof.
  induction d' as [|e d' IH] using rev_ind; intros H Hc; [by rewrite app_nil_r|].
  rewrite app_assoc. apply covered_snoc; [by apply IH|]. rewrite omap_app, length_app. lia.
Qed.

Lemma covered_all d c : covered d c (length (ebytes d)).
Proof. intros d1 x d2 -> _. rewrite omap_app, length_app. lia. Qed.

(** ** The invariant *)

Section proofs.
Context (layout_for : LogRecord -> BlockLayout.BlockLayout) (mem : buffers).

Definition writer_bytes (w : option BufferedLogWriter.t) : list Z := from_option BufferedLogWriter.buffer_ [] w.
Definition queue_bytes (q : list (option BufferedLogWriter.t * list Z)) : list Z := q ≫= (fun p => writer_bytes p.1).
Definition queue_callbacks (q : list (option BufferedLogWriter.t * list Z)) : list Z := q ≫= (fun p => p.2).
Definition queue_buffers (q : list (option BufferedLogWriter.t * list Z)) : nat := length (omap fst q).

Definition segment_events (segments : list (list LogRecord)) : list event :=
  events (segments ≫= SerializeBuffer layout_for mem).

(** [d]: the events gone through so far. *)
Record Inv (num_buffers : nat) (s : state) (h : list (list LogRecord)) (d : list event) : Prop := {
  inv_history : d ++ events (todo_ s) ++ segment_events (flush_queue_ s) = segment_events h;
  inv_bytes : ebytes d = file_ s ++ queue_bytes (filled_buffer_queue_ s) ++ writer_bytes (filled_buffer_ s);
  inv_callbacks : ecallbacks d = invoked_ s ++ commit_callbacks_ s ++ queue_callbacks (filled_buffer_queue_ s) ++ commits_in_buffer_ s;
  inv_txns : etxns d = removed_txns_ s ++ serialized_txns_ s;
  inv_invoked : covered d (length (invoked_ s)) (persisted_ s);
  inv_persisted : (persisted_ s <= length (file_ s))%nat;
  inv_queue k : covered d
    (length (invoked_ s) + length (commit_callbacks_ s) + length (queue_callbacks (take k (filled_buffer_queue_ s))))
    (length (file_ s) + length (queue_bytes (take k (filled_buffer_queue_ s))));
  inv_todo : phase_ s <> Serializing -> todo_ s = [];
  inv_filled : (phase_ s = Idle \/ phase_ s = Removing) -> filled_buffer_ s = None /\ commits_in_buffer_ s = [];
  inv_serialized : phase_ s = Idle -> serialized_txns_ s = [];
  inv_empty : Forall (fun w => w = BufferedLogWriter.empty) (empty_buffer_queue_ s);
  inv_buffers : (length (empty_buffer_queue_ s) + (if filled_buffer_ s then 1 else 0) + queue_buffers (filled_buffer_queue_ s) = num_buffers)%nat;
}.

(** Between two steps the current buffer has room. *)
Definition room (s : state) : Prop :=
  forall w, filled_buffer_ s = Some w -> (length (BufferedLogWriter.buffer_ w) < LOG_BUFFER_SIZE)%nat.

Lemma segment_events_app a b : segment_events (a ++ b) = segment_events a ++ segment_events b.
Proof. unfold segment_events. by rewrite bind_app, events_app. Qed.

Lemma queue_bytes_snoc q w cs : queue_bytes (q ++ [(w, cs)]) = queue_bytes q ++ writer_bytes w.
Proof. unfold queue_bytes. rewrite bind_app. f_equal. apply app_nil_r. Qed.

Lemma queue_bytes_cons q w cs : queue_bytes ((w, cs) :: q) = writer_bytes w ++ queue_bytes q.
Proof. done. Qed.

Lemma queue_callbacks_cons q w cs : queue_callbacks ((w, cs) :: q) = cs ++ queue_callbacks q.
Proof. done. Qed.

Lemma queue_callbacks_snoc q w cs : queue_callbacks (q ++ [(w, cs)]) = queue_callbacks q ++ cs.
Proof. unfold queue_callbacks. rewrite bind_app. f_equal. apply app_nil_r. Qed.

Lemma queue_buffers_snoc q w cs : queue_buffers (q ++ [(w, cs)]) = (queue_buffers q + if w : option _ then 1 else 0)%nat.
Proof. unfold queue_buffers. rewrite omap_app, length_app. by destruct w. Qed.

Lemma Inv_Start n : Inv n (Start n) [] [].
Proof.
  split; try done; cbn; try lia.
  - intros d1 x d2 E. by destruct d1.
  - intros k d1 x d2 E. by destruct d1.
  - apply Forall_replicate; done.
  - rewrite length_replicate. lia.
Qed.

Lemma Inv_client n s h d segment : Inv n s h d -> Inv n (AddBufferToFlushQueue segment s) (h ++ [segment]) d.
Proof.
  intros [I1 ? ? ? ? ? ? ? ? ? ? ?]. split; try done.
  fields.   by rewrite !segment_events_app, <-I1, <-!app_assoc.
Qed.

(** The checkpoints are reached by the callbacks gone through. *)
Lemma Inv_checkpoint n s h d k : Inv n s h d ->
  (length (invoked_ s) + length (commit_callbacks_ s) + length (queue_callbacks (take k (filled_buffer_queue_ s))) <= length (ecallbacks d))%nat.
Proof.
  intros I. rewrite (inv_callbacks _ _ _ _ I), !length_app.
  rewrite <-(take_drop k (filled_buffer_queue_ s)) at 2. unfold queue_callbacks. rewrite bind_app, length_app. lia.
Qed.

Lemma Inv_queue_app n s h d d' k : Inv n s h d -> covered (d ++ d')
  (length (invoked_ s) + length (commit_callbacks_ s) + length (queue_callbacks (take k (filled_buffer_queue_ s))))
  (length (file_ s) + length (queue_bytes (take k (filled_buffer_queue_ s)))).
Proof. intros I. apply covered_app; [apply (inv_queue _ _ _ _ I)|by eapply Inv_checkpoint]. Qed.

Lemma Inv_invoked_app n s h d d' : Inv n s h d -> covered (d ++ d') (length (invoked_ s)) (persisted_ s).
Proof.
  intros I. apply covered_app; [apply (inv_invoked _ _ _ _ I)|].
  rewrite (inv_callbacks _ _ _ _ I), length_app. lia.
Qed.

(** Handing the buffer over adds a checkpoint that covers everything. *)
Lemma Inv_hand_over n s h d : Inv n s h d -> Inv n (HandFilledBufferToWriter s) h d.
Proof.
  intros I. destruct I as [I1 I2 I3 I4 I5 I6 I7 I8 I9 I10 I11 I12]. split; try done; fields.
  - by rewrite I2, queue_bytes_snoc, app_nil_r.
  - by rewrite I3, queue_callbacks_snoc, app_nil_r.
  - intros k. destruct (decide (k <= length (filled_buffer_queue_ s))%nat) as [Hk|Hk].
    + rewrite take_app_le by lia. apply I7.
    + rewrite take_ge by (rewrite length_app; cbn; lia). eapply covered_mono; [apply (covered_all d)|done|].
      rewrite I2, queue_bytes_snoc, !length_app. lia.
  - rewrite <-I12, queue_buffers_snoc. lia.
Qed.

Lemma Inv_take n s h d : Inv n s h d -> todo_ s = [] -> Inv n (take_flush_queue layout_for mem s) h d.
Proof.
  intros [I1 ? ? ? ? ? ? ? I9 ? ? ?] Ht. split; try done; fields.
  - rewrite <-I1, Ht. by rewrite app_nil_r.
  - intros [? | ?]; done.
Qed.

Lemma Inv_phase n s h d p : Inv n s h d -> p <> Idle -> p <> Removing -> todo_ s = [] -> Inv n (set_phase p s) h d.
Proof. intros [? ? ? ? ? ? ? ? I9 ? ? ?] Hi Hr Ht. split; try done; fields; by intros [? | ?]. Qed.

Lemma Inv_dequeue n s s' h d :
  Inv n s h d -> phase_ s = Serializing -> filled_buffer_ s = None -> DequeueEmpty s = Some s' -> Inv n s' h d /\ room s'.
Proof.
  intros [? I2 ? ? ? ? ? ? ? ? I11 I12] Hp Hf. unfold DequeueEmpty. destruct (empty_buffer_queue_ s) as [|w q] eqn:Eq; [done|].
  intros [= <-]. apply Forall_cons in I11 as [-> I11]. split; [|intros w; fields; intros [= <-]; cbn; unfold LOG_BUFFER_SIZE; lia].
  split; try done; fields; rewrite ?Hp, ?Hf in *; try done; [by intros [? | ?]|]. rewrite <-I12. cbn [length]. lia.
Qed.

Lemma Inv_callback n s h d c rest :
  Inv n s h d -> phase_ s = Serializing -> todo_ s = Callback c :: rest -> Inv n (set_todo rest (add_commit c s)) h (d ++ [ECallback c]).
Proof.
  intros I Hp Ht. pose proof I as [I1 I2 I3 I4 I5 I6 I7 I8 I9 I10 I11 I12].
  split; try done; fields; rewrite ?Hp in *; try done; rewrite ?omap_app, ?app_nil_r; cbn [omap list_omap event_byte event_callback event_txn]; rewrite ?app_nil_r; try done.
  - rewrite <-I1, Ht, <-!app_assoc. done.
  - rewrite I3. by rewrite !app_assoc.
  - by eapply Inv_invoked_app.
  - intros k. by eapply Inv_queue_app.
  - by intros [? | ?].
Qed.

Lemma Inv_serialized n s h d t rest :
  Inv n s h d -> phase_ s = Serializing -> todo_ s = Serialized t :: rest -> Inv n (set_todo rest (add_serialized t s)) h (d ++ [ETxn t]).
Proof.
  intros I Hp Ht. pose proof I as [I1 I2 I3 I4 I5 I6 I7 I8 I9 I10 I11 I12].
  split; try done; fields; rewrite ?Hp in *; try done; rewrite ?omap_app, ?app_nil_r; cbn [omap list_omap event_byte event_callback event_txn]; rewrite ?app_nil_r; try done.
  - rewrite <-I1, Ht, <-!app_assoc. done.
  - by rewrite I4, app_assoc.
  - by eapply Inv_invoked_app.
  - intros k. by eapply Inv_queue_app.
Qed.

Lemma Inv_write n s h d w bs m rest :
  Inv n s h d -> phase_ s = Serializing -> filled_buffer_ s = Some w -> todo_ s = Write bs :: rest ->
  Inv n (set_todo (Write (drop m bs) :: rest) (set_filled (BufferedLogWriter.mk (BufferedLogWriter.buffer_ w ++ take m bs)) s)) h
    (d ++ (EByte <$> take m bs)).
Proof.
  intros I Hp Hf Ht. pose proof I as [I1 I2 I3 I4 I5 I6 I7 I8 I9 I10 I11 I12].
  split; try done; fields; rewrite ?Hp, ?Hf in *; try done;
    rewrite ?omap_app, ?ebytes_bytes, ?ecallbacks_bytes, ?etxns_bytes, ?app_nil_r; try done.
  - rewrite <-I1, Ht. cbn [events mbind list_bind action_events]. rewrite <-!app_assoc. f_equal. rewrite app_assoc. f_equal.
    by rewrite <-fmap_app, take_drop.
  - rewrite I2. cbn [writer_bytes from_option BufferedLogWriter.buffer_]. by rewrite <-!app_assoc.
  - by eapply Inv_invoked_app.
  - intros k. by eapply Inv_queue_app.
  - by intros [? | ?].
Qed.

Lemma BufferWrite_spec w bs : exists m, BufferedLogWriter.BufferWrite w bs =
    (m, BufferedLogWriter.mk (BufferedLogWriter.buffer_ w ++ take m bs)) /\ (m <= length bs)%nat /\
  ((length (BufferedLogWriter.buffer_ w) < LOG_BUFFER_SIZE)%nat ->
    (length (BufferedLogWriter.buffer_ w) + m <= LOG_BUFFER_SIZE)%nat /\ (bs <> [] -> 0 < m)%nat).
Proof.
  unfold BufferedLogWriter.BufferWrite. eexists. split; [done|]. unfold BufferedLogWriter.CanBuffer.
  assert (bs <> [] -> (0 < length bs)%nat) by (destruct bs; cbn; [done|lia]). case_bool_decide; split; intros; lia || split; intros; lia || auto; lia.
Qed.

Lemma Inv_WriteValue n s s' h d bs rest :
  Inv n s h d -> room s -> phase_ s = Serializing -> todo_ s = Write bs :: rest -> WriteValue bs rest s = Some s' ->
  exists d', Inv n s' h d' /\ room s'.
Proof.
  intros I R Hp Ht. unfold WriteValue. destruct (filled_buffer_ s) as [w|] eqn:Ef; [|intros E; exists d; by eapply Inv_dequeue].
  case_decide as Hb.
  - intros [= <-]. exists d. split; [|done]. pose proof I as [I1 ? ? ? ? ? ? ? ? ? ? ?]. split; try done; fields.
    by rewrite <-I1, Ht, Hb.
  - destruct (BufferWrite_spec w bs) as (m & -> & Hm & Hr). destruct (Hr (R w Ef)) as [Hroom Hpos]. intros [= <-].
    exists (d ++ (EByte <$> take m bs)). assert (I' := Inv_write n s h d w bs m rest I Hp Ef Ht).
    unfold BufferedLogWriter.IsBufferFull. case_bool_decide as Hfull; [split; [by apply Inv_hand_over|by intros ? ?]|].
    split; [done|]. intros w'. fields. intros [= <-]. cbn [BufferedLogWriter.buffer_] in *. rewrite length_app, length_take in *. lia.
Qed.

Lemma Inv_Process n s s' h d :
  Inv n s h d -> room s -> Process layout_for mem s = Some s' -> exists d', Inv n s' h d' /\ room s'.
Proof.
  intros I R. unfold Process. destruct (phase_ s) eqn:Hp.
  - case_decide; [done|]. intros [= <-]. exists d. split; [|done]. apply Inv_take; [done|]. apply I. by rewrite Hp.
  - destruct (todo_ s) as [|[bs|c|t] rest] eqn:Ht.
    + intros [= <-]. exists d. case_decide; (split; [|done]); [by apply Inv_phase|by apply Inv_take].
    + by apply (Inv_WriteValue n s s' h d).
    + intros [= <-]. eexists. split; [by apply Inv_callback|done].
    + intros [= <-]. eexists. split; [by apply Inv_serialized|done].
  - intros [= <-]. exists d. split; [|by intros ? ?]. apply Inv_hand_over in I as [? ? ? ? ? ? ? I8 ? ? ? ?].
    split; try done; fields. intros _. apply I8. by rewrite Hp.
  - intros [= <-]. exists d. split; [|done]. destruct I as [? ? ? I4 ? ? ? I8 I9 ? ? ?].
    split; try done; fields.
    + by rewrite I4, app_nil_r.
    + intros _. apply I8. by rewrite Hp.
    + intros _. apply I9. by right.
Qed.

Lemma WriteBuffer_spec calls s s' : WriteBufferToLogFile calls s = Some s' ->
  exists w commits queue, filled_buffer_queue_ s = (w, commits) :: queue /\
    s' = mk (flush_queue_ s) (phase_ s) (todo_ s) (filled_buffer_ s) (commits_in_buffer_ s) (serialized_txns_ s)
      (empty_buffer_queue_ s ++ if w then [BufferedLogWriter.empty] else []) queue (commit_callbacks_ s ++ commits)
      (file_ s ++ writer_bytes w) (persisted_ s) (invoked_ s) (removed_txns_ s).
Proof.
  unfold WriteBufferToLogFile. destruct (filled_buffer_queue_ s) as [|[[w|] commits] queue] eqn:Eq; [done| |].
  - unfold BufferedLogWriter.FlushBuffer. destruct (PosixIoWrappers.WriteFully _ _ _ _) as [file| |] eqn:Ew; [|done..]. cbn [obind].
    apply WriteFully_Ok in Ew; [|cbn; lia]. rewrite drop_0 in Ew. intros [= <-]. eexists _, _, _. split; [done|]. by rewrite Ew.
  - intros [= <-]. eexists _, _, _. split; [done|]. by rewrite !app_nil_r.
Qed.

Lemma Inv_write_file n s s' calls h d : Inv n s h d -> WriteBufferToLogFile calls s = Some s' -> Inv n s' h d.
Proof.
  intros [? I2 I3 ? ? I6 I7 ? ? ? I11 I12] E. apply WriteBuffer_spec in E as (w & commits & queue & Eq & ->). rewrite Eq in *.
  split; try done; fields.
  - by rewrite I2, queue_bytes_cons, <-!app_assoc.
  - by rewrite I3, queue_callbacks_cons, <-!app_assoc.
  - rewrite length_app. lia.
  - intros k. eapply covered_mono; [exact (I7 (S k))| |]; cbn [take]; rewrite ?queue_bytes_cons, ?queue_callbacks_cons, !length_app; lia.
  - apply Forall_app. split; [done|]. destruct w; by repeat constructor.
  - rewrite <-I12, length_app. unfold queue_buffers. destruct w; cbn [omap list_omap fst length]; lia.
Qed.

Lemma Inv_persist n s h d : Inv n s h d -> Inv n (PersistLogFile s) h d.
Proof.
  intros [? ? I3 ? ? ? I7 ? ? ? ? ?]. split; try done; fields.
  - by rewrite I3, <-app_assoc.
  - eapply covered_mono; [apply (I7 0%nat)| |]; rewrite ?length_app, take_0; cbn [queue_callbacks queue_bytes mbind list_bind length]; lia.
  - intros k. eapply covered_mono; [apply (I7 k)| |]; rewrite ?length_app; cbn [length]; lia.
Qed.

Lemma reachable_Inv n s h : reachable layout_for mem n (s, h) -> exists d, Inv n s h d /\ room s.
Proof.
  enough (forall x y, rtc (step layout_for mem) x y -> (exists d, Inv n x.1 x.2 d /\ room x.1) -> exists d, Inv n y.1 y.2 d /\ room y.1) as H.
  { intros Hr. apply (H _ _ Hr). exists []. split; [apply Inv_Start|by intros ? ?]. }
  intros x y Hxy. induction Hxy as [|x y z Hs _ IH]; [done|]. intros (d & I & R). apply IH. clear IH.
  destruct Hs; cbn [fst snd] in *.
  - exists d. split; [by apply Inv_client|done].
  - by eapply Inv_Process.
  - exists d. split; [by eapply Inv_write_file|]. match goal with H : _ = Some _ |- _ => apply WriteBuffer_spec in H as (? & ? & ? & ? & ->) end. done.
  - exists d. split; [by apply Inv_persist|done].
Qed.

(** ** The events of the records *)

Abbreviation rbytes := (record_bytes layout_for mem).

Definition record_events (r : LogRecord) : list event :=
  (EByte <$> rbytes r) ++ (ECallback <$> record_callbacks r) ++ (ETxn <$> record_txns r).

Lemma events_writes ws : events ((fun w : bool * list Z => Write w.2) <$> ws) = EByte <$> bytes_of ws.
Proof.
  unfold events, bytes_of. induction ws as [|w ws IH]; [done|]. cbn [fmap list_fmap concat mbind list_bind action_events].
  rewrite fmap_app. f_equal. exact IH.
Qed.

Lemma SerializeBuffer_record_events r : events (SerializeBuffer_record layout_for mem r) = record_events r.
Proof.
  unfold SerializeBuffer_record, record_events, record_bytes, record_callbacks, record_txns.
  destruct (body_ r) as [? ? ? ?|? ? ?|? ? c [|]|]; rewrite ?events_app, ?events_writes, ?app_nil_r; done.
Qed.

Lemma segment_events_records h : segment_events h = concat h ≫= record_events.
Proof.
  unfold segment_events, events. induction h as [|seg h IH]; [done|].
  cbn [mbind list_bind concat]. rewrite !bind_app. f_equal; [|exact IH].
  unfold SerializeBuffer. induction seg as [|r seg IHs]; [done|].
  cbn [mbind list_bind]. rewrite bind_app. f_equal; [apply SerializeBuffer_record_events|exact IHs].
Qed.

Lemma ebytes_records rs : ebytes (rs ≫= record_events) = rs ≫= rbytes.
Proof.
  induction rs as [|r rs IH]; [done|]. cbn [mbind list_bind]. rewrite omap_app. f_equal; [|exact IH].
  unfold record_events. rewrite !omap_app, ebytes_bytes. unfold record_callbacks, record_txns.
  destruct (body_ r); cbn; by rewrite app_nil_r.
Qed.

Lemma ecallbacks_records rs : ecallbacks (rs ≫= record_events) = rs ≫= record_callbacks.
Proof.
  induction rs as [|r rs IH]; [done|]. cbn [mbind list_bind]. rewrite omap_app. f_equal; [|exact IH].
  unfold record_events. rewrite !omap_app, ecallbacks_bytes. unfold record_callbacks, record_txns. by destruct (body_ r).
Qed.

Lemma etxns_records rs : etxns (rs ≫= record_events) = rs ≫= record_txns.
Proof.
  induction rs as [|r rs IH]; [done|]. cbn [mbind list_bind]. rewrite omap_app. f_equal; [|exact IH].
  unfold record_events. rewrite !omap_app, etxns_bytes. unfold record_callbacks, record_txns. by destruct (body_ r).
Qed.

(** ** Durability *)

(** The events gone through include a callback with an index below theirs. *)
Lemma done_callback d d1 c d2 l : d `prefix_of` l -> l = d1 ++ ECallback c :: d2 ->
  (length (ecallbacks d1) < length (ecallbacks d))%nat -> exists d2', d = d1 ++ ECallback c :: d2'.
Proof.
  intros Hd El Hlt. assert ((d1 ++ [ECallback c]) `prefix_of` l) as Hp by (rewrite El; exists d2; by rewrite <-app_assoc).
  destruct (prefix_weak_total _ _ _ Hd Hp) as [H|[k ->]]; [|exists k; by rewrite <-app_assoc].
  destruct H as [k Ek]. destruct k as [|e k _] using rev_ind; [exists []; by rewrite app_nil_r in Ek|].
  rewrite app_assoc in Ek. apply app_inj_tail in Ek as [-> _]. rewrite omap_app, length_app in Hlt. lia.
Qed.

Lemma callback_events pre r post : record_callbacks r <> [] -> exists c d2,
  (pre ++ r :: post) ≫= record_events = ((pre ≫= record_events) ++ (EByte <$> rbytes r)) ++ ECallback c :: d2.
Proof.
  intros Hc. destruct (record_callbacks r) as [|c cs] eqn:E; [done|]. eexists c, _. rewrite bind_app, <-app_assoc. f_equal.
  change ((r :: post) ≫= record_events) with (record_events r ++ (post ≫= record_events)).
  unfold record_events at 1. rewrite E, <-!app_assoc. done.
Qed.

Lemma prefix_take {A} (l k f : list A) n : l `prefix_of` k -> f `prefix_of` k -> (length l <= n)%nat -> (n <= length f)%nat -> l `prefix_of` take n f.
Proof.
  intros [l' ->] Hf Hl Hn. destruct (prefix_weak_total l f _ (ltac:(by eexists)) Hf) as [[f' ->]|Hp].
  - exists (take (n - length l) f'). by rewrite take_app_ge by lia.
  - pose proof (prefix_length _ _ Hp). rewrite take_ge by lia.
    destruct Hp as [p ->]. rewrite length_app in *. destruct p; [by rewrite app_nil_r|cbn in *; lia].
Qed.

(** C8: write-ahead logging: whatever the interleaving of the transactions, the
    serializer and the disk writer, and however the buffers fill, the commit callbacks
    are invoked in the order the commit records were handed over, each at most once, and
    when the callback of a commit record has been invoked, the bytes of every record up
    to and including it are in the persisted part of the log file, in order. *)
Theorem callbacks_after_persist (num_buffers : nat) (s : state) (h : list (list LogRecord)) :
  reachable layout_for mem num_buffers (s, h) ->
  invoked_ s `prefix_of` (concat h ≫= record_callbacks) /\
  file_ s `prefix_of` (concat h ≫= rbytes) /\
  forall pre r post, concat h = pre ++ r :: post -> record_callbacks r <> [] ->
    (length (pre ≫= record_callbacks) < length (invoked_ s))%nat ->
    ((pre ++ [r]) ≫= rbytes) `prefix_of` take (persisted_ s) (file_ s).
Proof.
  intros Hr. destruct (reachable_Inv _ _ _ Hr) as (d & I & _). destruct I as [I1 I2 I3 _ I5 I6 _ _ _ _ _ _].
  assert (Hd : d `prefix_of` (concat h ≫= record_events)) by (rewrite <-segment_events_records, <-I1; by eexists).
  assert (Hf : file_ s `prefix_of` ebytes d) by (rewrite I2; by eexists).
  assert (Hi : invoked_ s `prefix_of` ecallbacks d) by (rewrite I3; by eexists).
  assert (Hb : ebytes d `prefix_of` (concat h ≫= rbytes)).
  { rewrite <-ebytes_records. destruct Hd as [k ->]. rewrite omap_app. by eexists. }
  split; [|split; [by etrans|]].
  - etrans; [exact Hi|]. rewrite <-ecallbacks_records. destruct Hd as [k ->]. rewrite omap_app. by eexists.
  - intros pre r post Eh Hc Hlt. destruct (callback_events pre r post Hc) as (c & d2 & Ee). rewrite <-Eh in Ee.
    assert (Hcb : ecallbacks ((pre ≫= record_events) ++ (EByte <$> rbytes r)) = pre ≫= record_callbacks).
    { by rewrite omap_app, ecallbacks_records, ecallbacks_bytes, app_nil_r. }
    assert (Hby : ebytes ((pre ≫= record_events) ++ (EByte <$> rbytes r)) = (pre ++ [r]) ≫= rbytes).
    { rewrite omap_app, ebytes_records, ebytes_bytes, bind_app. f_equal. symmetry. apply app_nil_r. }
    apply prefix_length in Hi. destruct (done_callback _ _ _ _ _ Hd Ee) as [d2' Ed]; [rewrite Hcb; lia|].
    specialize (I5 _ _ _ Ed). rewrite Hcb, Hby in I5. eapply prefix_take; [|by etrans|by apply I5|done].
    rewrite Eh, !bind_app. apply prefix_app. exists (post ≫= rbytes). cbn [mbind list_bind]. by rewrite app_nil_r.
Qed.

(** ** A flush completes *)

(** A step of the serializer, or of the disk writer between two persists. *)
Inductive task_step : state -> state -> Prop :=
| task_serializer s s' : Process layout_for mem s = Some s' -> task_step s s'
| task_write s s' calls : WriteBufferToLogFile calls s = Some s' -> task_step s s'.

(** A bound on the steps left. *)
Definition action_work (a : action) : nat := match a with Write bs => 3 * length bs + 1 | _ => 1 end.
Definition todo_work (todo : list action) : nat := sum_list_with action_work todo.
Definition segment_work (segment : list LogRecord) : nat := 6 + todo_work (SerializeBuffer layout_for mem segment).
Definition phase_work (p : phase) : nat := match p with Idle => 0 | Removing => 1 | HandingOver => 4 | Serializing => 5 end.
Definition work (s : state) : nat :=
  sum_list_with segment_work (flush_queue_ s) + phase_work (phase_ s) + todo_work (todo_ s) +
  (if filled_buffer_ s then 0 else 1) + length (filled_buffer_queue_ s).

(** Nothing handed over is missing from the file, the callbacks or the removed transactions. *)
Definition drained (s : state) (h : list (list LogRecord)) : Prop :=
  flush_queue_ s = [] /\ filled_buffer_queue_ s = [] /\ file_ s = (concat h ≫= rbytes) /\ persisted_ s = length (file_ s) /\
  invoked_ s = (concat h ≫= record_callbacks) /\ removed_txns_ s = (concat h ≫= record_txns).

Lemma todo_work_app a b : todo_work (a ++ b) = (todo_work a + todo_work b)%nat.
Proof. apply sum_list_with_app. Qed.

Lemma flush_work q : (todo_work (q ≫= SerializeBuffer layout_for mem) + 6 * length q = sum_list_with segment_work q)%nat.
Proof.
  induction q as [|seg q IH]; [done|]. change ((seg :: q) ≫= SerializeBuffer layout_for mem) with
    (SerializeBuffer layout_for mem seg ++ (q ≫= SerializeBuffer layout_for mem)).
  rewrite todo_work_app. cbn [sum_list_with length]. unfold segment_work at 1. lia.
Qed.

Lemma WriteValue_work s s' bs rest : room s -> phase_ s = Serializing -> todo_ s = Write bs :: rest ->
  WriteValue bs rest s = Some s' -> (work s' < work s)%nat.
Proof.
  intros R Hp Ht. unfold WriteValue. destruct (filled_buffer_ s) as [w|] eqn:Ef.
  - case_decide as Hb.
    + intros [= <-]. unfold work. fields. rewrite Ht. cbn [todo_work sum_list_with action_work]. unfold todo_work. lia.
    + destruct (BufferWrite_spec w bs) as (m & -> & Hm & Hr). destruct (Hr (R w Ef)) as [_ Hpos]. specialize (Hpos Hb).
      intros [= <-]. unfold work. rewrite Ht, Ef. destruct (BufferedLogWriter.IsBufferFull _); fields;
        rewrite ?length_app; unfold todo_work; cbn [sum_list_with action_work length]; rewrite length_drop; lia.
  - unfold DequeueEmpty. destruct (empty_buffer_queue_ s); [done|]. intros [= <-]. unfold work. fields. rewrite Ef. lia.
Qed.

Lemma task_step_work n s s' h d : Inv n s h d -> room s -> task_step s s' -> (work s' < work s)%nat.
Proof.
  intros I R Hs. destruct Hs as [s1 s1' E|s1 s1' calls E].
  - unfold Process in E. destruct (phase_ s1) eqn:Hp.
    + case_decide as Hq; [done|]. injection E as <-. unfold work. fields. rewrite Hp. rewrite (inv_todo _ _ _ _ I) by (by rewrite Hp).
      pose proof (flush_work (flush_queue_ s1)). destruct (flush_queue_ s1); [done|]. cbn [sum_list_with length phase_work] in *.
      change (todo_work []) with 0%nat. lia.
    + destruct (todo_ s1) as [|[bs|c|t] rest] eqn:Ht.
      * injection E as <-. case_decide as Hq; unfold work; fields; rewrite ?Hp, ?Ht; cbn [phase_work]; [lia|].
        pose proof (flush_work (flush_queue_ s1)). destruct (flush_queue_ s1); [done|]. cbn [sum_list_with length] in *.
        change (todo_work []) with 0%nat. lia.
      * by eapply WriteValue_work.
      * injection E as <-. unfold work. fields. rewrite Ht. unfold todo_work. cbn [sum_list_with action_work]. lia.
      * injection E as <-. unfold work. fields. rewrite Ht. unfold todo_work. cbn [sum_list_with action_work]. lia.
    + injection E as <-. unfold work. fields. rewrite Hp, length_app. cbn [phase_work length]. destruct (filled_buffer_ s1); lia.
    + injection E as <-. unfold work. fields. rewrite Hp. cbn [phase_work]. lia.
  - apply WriteBuffer_spec in E as (w & commits & queue & Eq & ->). unfold work. fields. rewrite Eq. cbn [length]. lia.
Qed.

Lemma task_step_Inv n s s' h d : Inv n s h d -> room s -> task_step s s' -> exists d', Inv n s' h d' /\ room s'.
Proof.
  intros I R Hs. destruct Hs as [s1 s1' E|s1 s1' calls E]; [by eapply Inv_Process|].
  exists d. split; [by eapply Inv_write_file|]. apply WriteBuffer_spec in E as (? & ? & ? & ? & ->). done.
Qed.

(** The disk writer can always write the buffer at the front. *)
Lemma write_enabled s : filled_buffer_queue_ s <> [] -> exists calls s', WriteBufferToLogFile calls s = Some s'.
Proof.
  intros Hq. unfold WriteBufferToLogFile. destruct (filled_buffer_queue_ s) as [|[[w|] commits] q]; [done| |exists []; by eexists].
  exists (replicate (length (BufferedLogWriter.buffer_ w)) (Transferred 0)). unfold BufferedLogWriter.FlushBuffer.
  rewrite WriteFully_spec; [cbn [obind]; by eexists| |lia]. split; [by apply Forall_replicate|].
  rewrite Nat.sub_0_r. induction (length _) as [|n IH]; [done|]. cbn [replicate]. rewrite filter_cons_True by done. cbn [length]. lia.
Qed.

Lemma task_step_dec s : (exists s', task_step s s') \/ (forall s', ~ task_step s s').
Proof.
  destruct (Process layout_for mem s) as [s'|] eqn:E; [left; exists s'; by apply task_serializer|].
  destruct (decide (filled_buffer_queue_ s = [])) as [Hq|Hq].
  - right. intros s' Hs. destruct Hs as [? ? E'|? ? calls E']; [congruence|]. unfold WriteBufferToLogFile in E'. by rewrite Hq in E'.
  - left. destruct (write_enabled s Hq) as (calls & s' & E'). exists s'. by eapply task_write.
Qed.

(** With a buffer in circulation, the tasks stop only when everything is written. *)
Lemma stuck_drained n s h d : (0 < n)%nat -> Inv n s h d -> (forall s', ~ task_step s s') -> drained (PersistLogFile s) h.
Proof.
  intros Hn I Hstuck. assert (Hq : filled_buffer_queue_ s = []).
  { destruct (decide (filled_buffer_queue_ s = [])) as [|Hq]; [done|]. destruct (write_enabled s Hq) as (calls & s' & E).
    destruct (Hstuck s'). by eapply task_write. }
  assert (HP : Process layout_for mem s = None).
  { destruct (Process layout_for mem s) eqn:E; [|done]. edestruct Hstuck. by eapply task_serializer. }
  pose proof I as [I1 I2 I3 I4 I5 I6 I7 I8 I9 I10 I11 I12]. rewrite Hq in *. change (queue_buffers []) with 0%nat in I12.
  assert (Hp : phase_ s = Idle /\ flush_queue_ s = []).
  { unfold Process in HP. destruct (phase_ s) eqn:Hp; [case_decide; done| |done..].
    destruct (todo_ s) as [|[bs|c|t] rest]; [done| |done..]. unfold WriteValue in HP. destruct (filled_buffer_ s) as [w|].
    - case_decide; [done|]. by destruct (BufferedLogWriter.BufferWrite w bs).
    - unfold DequeueEmpty in HP. destruct (empty_buffer_queue_ s); [|done]. cbn in I12. lia. }
  destruct Hp as [Hp Hfq]. destruct (I9 (or_introl Hp)) as [Hf Hc]. rewrite (I8 ltac:(by rewrite Hp)), Hfq in I1.
  rewrite Hf, Hc, (I10 Hp) in *. change (segment_events []) with (@nil event) in I1. cbn [events mbind list_bind app] in I1.
  rewrite app_nil_r, segment_events_records in I1. cbn [queue_bytes queue_callbacks writer_bytes mbind list_bind from_option app] in *. rewrite app_nil_r in *.
  split; [done|]. split; [done|]. fields. split; [by rewrite <-I2, I1, ebytes_records|]. split; [done|].
  split; [by rewrite <-I3, I1, ecallbacks_records|by rewrite <-I4, I1, etxns_records].
Qed.

(** C10: a flush completes: from any reachable state with a buffer in circulation, the
    serializer and the disk writer can take at most [work] steps, however these
    interleave, before nothing is left to do, they never block each other before that,
    and a persist then leaves every record handed over in the persisted log file, every
    commit callback invoked, and every finished transaction removed from the timestamp
    manager. *)
Theorem flush_completes (num_buffers : nat) (s : state) (h : list (list LogRecord)) :
  (0 < num_buffers)%nat -> reachable layout_for mem num_buffers (s, h) ->
  (forall k s', nsteps task_step k s s' -> (k <= work s)%nat) /\
  (exists s', rtc task_step s s' /\ forall s'', ~ task_step s' s'') /\
  (forall s', rtc task_step s s' -> (forall s'', ~ task_step s' s'') -> drained (PersistLogFile s') h).
Proof.
  intros Hn Hr. destruct (reachable_Inv _ _ _ Hr) as (d & I & R). clear Hr. split; [|split].
  - intros k s' Hk. revert d I R. induction Hk as [|k x y z Hs _ IH]; intros d I R; [lia|].
    pose proof (task_step_work _ _ _ _ _ I R Hs). destruct (task_step_Inv _ _ _ _ _ I R Hs) as (d' & I' & R').
    specialize (IH _ I' R'). lia.
  - remember (work s) as m eqn:Em. revert s d I R Em. induction (lt_wf m) as [m _ IH]. intros s d I R ->.
    destruct (task_step_dec s) as [[s' Hs]|Hno]; [|by exists s].
    pose proof (task_step_work _ _ _ _ _ I R Hs). destruct (task_step_Inv _ _ _ _ _ I R Hs) as (d' & I' & R').
    destruct (IH _ H _ _ I' R' eq_refl) as (s'' & Hs'' & Hst). exists s''. split; [by eapply rtc_l|done].
  - intros s' Hs. revert d I R. induction Hs as [|x y z Hs _ IH]; intros d I R; [by eapply stuck_drained|].
    destruct (task_step_Inv _ _ _ _ _ I R Hs) as (d' & I' & R'). by eapply IH.
Qed.

End proofs.

(** ** A run *)

(** [k] steps of the serializer. *)
Fixpoint serialize_steps layout_for mem (k : nat) (s : state) : option state :=
  match k with O => Some s | S k => Process layout_for mem s ≫= serialize_steps layout_for mem k end.

Lemma serialize_steps_rtc layout_for mem k : forall s s' h,
  serialize_steps layout_for mem k s = Some s' -> rtc (step layout_for mem) (s, h) (s', h).
Proof.
  induction k as [|k IH]; intros s s' h; cbn [serialize_steps]; [by intros [= ->]|].
  destruct (Process layout_for mem s) as [s1|] eqn:E; [|done]. cbn. intros Hk. eapply rtc_l; [by apply step_serializer|by apply IH].
Qed.

(** A redo record and the commit of its transaction, then a read-only transaction. *)
Definition example_history : list (list LogRecord) :=
  [[example_redo; InitializeCommit 1 5 77 1 false]; [InitializeCommit 2 6 78 1 true]].

Definition example_layouts (_ : LogRecord) : BlockLayout.BlockLayout := example_layout.

Definition example_start : state :=
  AddBufferToFlushQueue [InitializeCommit 2 6 78 1 true]
    (AddBufferToFlushQueue [example_redo; InitializeCommit 1 5 77 1 false] (Start 1)).

Lemma example_start_reachable : reachable example_layouts ∅ 1 (example_start, example_history).
Proof. eapply rtc_l; [apply (step_client _ _ _ [])|]. eapply rtc_l; [apply step_client|]. apply rtc_refl. Qed.

(** The state after a flush, with the calls that write one byte each. *)
Definition example_flushed : option state :=
  s ← serialize_steps example_layouts ∅ 45 example_start;
  s ← WriteBufferToLogFile (replicate 200 (Transferred 0)) s;
  Some (PersistLogFile s).

Lemma example_flushed_reachable s : example_flushed = Some s -> reachable example_layouts ∅ 1 (s, example_history).
Proof.
  unfold example_flushed. destruct (serialize_steps _ _ _ _) as [s1|] eqn:E1; [|done]. cbn [mbind option_bind].
  destruct (WriteBufferToLogFile _ _) as [s2|] eqn:E2; [|done]. cbn [mbind option_bind]. intros [= <-].
  unfold reachable. eapply transitivity; [apply example_start_reachable|]. eapply transitivity; [by eapply serialize_steps_rtc|].
  eapply rtc_l; [by eapply step_write|]. apply rtc_once, step_persist.
Qed.

Lemma callbacks_after_persist_witness : exists s, reachable example_layouts ∅ 1 (s, example_history) /\
  invoked_ s = [77; 78] /\
  (([example_redo] ++ [InitializeCommit 1 5 77 1 false]) ≫= record_bytes example_layouts ∅) `prefix_of` take (persisted_ s) (file_ s).
Proof.
  destruct example_flushed as [s|] eqn:E; [|vm_compute in E; discriminate]. exists s.
  assert (Hr := example_flushed_reachable s E). split; [exact Hr|].
  assert (Hi : fmap invoked_ example_flushed = Some [77; 78]) by (vm_compute; reflexivity).
  rewrite E in Hi. injection Hi as Hi. split; [exact Hi|].
  destruct (callbacks_after_persist example_layouts ∅ 1 s example_history Hr) as (_ & _ & H).
  apply (H [example_redo] (InitializeCommit 1 5 77 1 false) [InitializeCommit 2 6 78 1 true]).
  - reflexivity.
  - discriminate.
  - rewrite Hi. vm_compute. lia.
Defined.

Lemma flush_completes_witness : exists s', rtc (task_step example_layouts ∅) example_start s' /\
  drained example_layouts ∅ (PersistLogFile s') example_history.
Proof.
  destruct (flush_completes example_layouts ∅ 1 example_start example_history) as (_ & (s' & Hs & Hst) & H);
    [lia|apply example_start_reachable|].
  exists s'. split; [exact Hs|]. apply H; [exact Hs|exact Hst].
Defined.
