(* ===== verification/SqlValue.v ===== *)
(** * SQL values

    [execution/sql/value.h], [execution/util/arithmetic_overflow.h] and
    [execution/sql/functions/{arithmetic,comparison}_functions.h]: nullable values,
    their comparison under three-valued logic, and arithmetic with overflow checks.
    Doubles are the IEEE 754 binary64 numbers of [SpecFloat]; the functions of the C
    mathematics library are arguments.  Signed additions, subtractions and products
    that overflow wrap around; a signed 64-bit division that overflows traps. *)

From Stdlib Require Import SpecFloat.
From S2P Require Import Prelude Layout Varlen.

(** ** Values *)

(** [Val] and the structs that extend it with one field. *)
Record SqlVal (T : Type) := Value { is_null_ : bool; val_ : T }.
Arguments Value {T} _ _.
Arguments is_null_ {T} _.
Arguments val_ {T} _.

Abbreviation double := spec_float.
Abbreviation BoolVal := (SqlVal bool).
Abbreviation Integer := (SqlVal Z).
Abbreviation Real := (SqlVal double).

Definition dadd : double -> double -> double := SFadd 53 1024.
Definition dsub : double -> double -> double := SFsub 53 1024.
Definition dmul : double -> double -> double := SFmul 53 1024.
Definition ddiv : double -> double -> double := SFdiv 53 1024.

(** The double nearest to an integer. *)
Definition double_of_Z (z : Z) : double := binary_normalize 53 1024 z 0 false.

Definition non_null {T} (v : T) : SqlVal T := Value false v.
Definition BoolVal_Null : BoolVal := Value true false.
Definition Integer_Null : Integer := Value true 0.
Definition Real_Null : Real := Value true (S754_zero false).

Definition ForceTruth (b : BoolVal) : bool := negb (is_null_ b) && val_ b.

(** *** Strings *)

Module StringVal.

(** [area_] is the 15 bytes of [prefix_] and [ptr_] together. *)
Record StringVal := mk { is_null_ : bool; area_ : list Z; len_ : Z }.

Definition ptr_ (s : StringVal) : Z := le_val (slice 7 8 (area_ s)).

(** The constructor for a string of [len] bytes at [addr] (0 for [nullptr]); the
    object's memory is [junk] before. *)
Definition make (mem : buffers) (junk : list Z) (addr len : Z) : StringVal :=
  if decide (addr = 0) then mk true junk len
  else if decide (len <= InlineThreshold) then mk false (splice 0 (take (Z.to_nat len) (default [] (mem !! addr))) junk) len
  else mk false (splice 7 (le_bytes 8 addr) junk) len.

Definition Null (junk : list Z) : StringVal := mk true junk 0.

Definition Content (mem : buffers) (s : StringVal) : list Z :=
  if decide (len_ s <= InlineThreshold) then area_ s else default [] (mem !! ptr_ s).

Definition StringView (mem : buffers) (s : StringVal) : list Z := take (Z.to_nat (len_ s)) (Content mem s).

(** [CreateVarlen]; [addr] is where the copy goes when the entry is to own it. *)
Definition CreateVarlen (addr : Z) (junk : list Z) (mem : buffers) (str : StringVal) (own : bool) : VarlenEntry * buffers :=
  if decide (InlineThreshold < len_ str) then
    if own then
      let contents := take (Z.to_nat (len_ str)) (Content mem str) in
      (Varlen.Create addr contents (len_ str) true, <[addr := contents]> mem)
    else (Varlen.Create (ptr_ str) (Content mem str) (len_ str) false, mem)
  else (Varlen.CreateInline junk (Content mem str) (len_ str), mem).

(** [operator==] *)
Definition eqb (mem : buffers) (a b : StringVal) : bool :=
  if negb (eqb (is_null_ a) (is_null_ b)) then false
  else if is_null_ a then true
  else if decide (len_ a ≠ len_ b) then false
  else if decide (len_ a <= InlineThreshold) then bool_decide (memcmp (area_ a) (area_ b) (Z.to_nat (len_ a)) = 0)
  else bool_decide (ptr_ a = ptr_ b) || bool_decide (memcmp (default [] (mem !! ptr_ a)) (default [] (mem !! ptr_ b)) (Z.to_nat (len_ a)) = 0).

End StringVal.
Abbreviation StringVal := StringVal.StringVal.

(** ** Comparison *)

Module ComparisonFunctions.

Inductive cmp_op := Eq | Ge | Gt | Le | Lt | Ne.

(** [a OP b] for integers, dates, timestamps and booleans (as 0 and 1). *)
Definition int_op (op : cmp_op) (a b : Z) : bool :=
  match op with
  | Eq => bool_decide (a = b) | Ge => bool_decide (b <= a) | Gt => bool_decide (b < a)
  | Le => bool_decide (a <= b) | Lt => bool_decide (a < b) | Ne => bool_decide (a ≠ b)
  end.

Definition bool_op (op : cmp_op) (a b : bool) : bool := int_op op (Z.b2z a) (Z.b2z b).

Definition double_op (op : cmp_op) (a b : double) : bool :=
  match op with
  | Eq => SFeqb a b | Ge => SFleb b a | Gt => SFltb b a
  | Le => SFleb a b | Lt => SFltb a b | Ne => negb (SFeqb a b)
  end.

(** [BINARY_COMPARISON_NUMERIC_FN_HIDE_NULL] *)
Definition numeric {T} (op : T -> T -> bool) (v1 v2 : SqlVal T) : BoolVal :=
  Value (is_null_ v1 || is_null_ v2) (op (val_ v1) (val_ v2)).

Definition CompareInteger (op : cmp_op) : Integer -> Integer -> BoolVal := numeric (int_op op).
Definition CompareBool (op : cmp_op) : BoolVal -> BoolVal -> BoolVal := numeric (bool_op op).
Definition CompareReal (op : cmp_op) : Real -> Real -> BoolVal := numeric (double_op op).

Definition RawStringCompare (s1 : list Z) (len1 : Z) (s2 : list Z) (len2 min_len : Z) : Z :=
  let result := if decide (min_len = 0) then 0 else memcmp s1 s2 (Z.to_nat min_len) in
  if decide (result ≠ 0) then result else s32 (s32 len1 - s32 len2).

Definition Compare (mem : buffers) (v1 v2 : StringVal) : Z :=
  let min_len := Z.min (StringVal.len_ v1) (StringVal.len_ v2) in
  if decide (min_len = 0) then
    if decide (StringVal.len_ v1 = StringVal.len_ v2) then 0
    else if decide (StringVal.len_ v1 = 0) then -1 else 1
  else RawStringCompare (StringVal.Content mem v1) (StringVal.len_ v1) (StringVal.Content mem v2) (StringVal.len_ v2) min_len.

(** [BINARY_COMPARISON_STRING_FN_HIDE_NULL] *)
Definition CompareStringVal (op : cmp_op) (mem : buffers) (v1 v2 : StringVal) : BoolVal :=
  if StringVal.is_null_ v1 || StringVal.is_null_ v2 then BoolVal_Null
  else non_null (int_op op (Compare mem v1 v2) 0).

End ComparisonFunctions.

(** ** Arithmetic with overflow checks *)

Module ArithmeticOverflow.

(** [__builtin_*_overflow] at a type given by its wrap-around: the stored result and
    whether it differs from the exact one. *)
Definition builtin (wrap : Z -> Z) (exact : Z) : bool * Z := (bool_decide (wrap exact ≠ exact), wrap exact).

Definition Add_i32 (a b : Z) : bool * Z := builtin s32 (a + b).
Definition Add_i64 (a b : Z) : bool * Z := builtin s64 (a + b).
Definition Add_u32 (a b : Z) : bool * Z := builtin u32 (a + b).
Definition Add_u64 (a b : Z) : bool * Z := builtin u64 (a + b).
Definition Sub_i32 (a b : Z) : bool * Z := builtin s32 (a - b).
Definition Sub_i64 (a b : Z) : bool * Z := builtin s64 (a - b).
Definition Sub_u32 (a b : Z) : bool * Z := builtin u32 (a - b).
Definition Sub_u64 (a b : Z) : bool * Z := builtin u64 (a - b).
Definition Mul_i32 (a b : Z) : bool * Z := builtin s32 (a * b).
Definition Mul_i64 (a b : Z) : bool * Z := builtin s64 (a * b).
Definition Mul_u32 (a b : Z) : bool * Z := builtin u32 (a * b).
Definition Mul_u64 (a b : Z) : bool * Z := builtin u64 (a * b).

Abbreviation s128 := (wraps 128).
Abbreviation u128 := (wrapu 128).

Definition K_MIN_INT128 : Z := - 2 ^ 127.
Definition K_MAX_INT128 : Z := 2 ^ 127 - 1.



Definition Add_u128 (a b : Z) : bool * Z := (bool_decide (u128 (K_MAX_INT128 - b) < a), u128 (a + b)).


Definition Sub_u128 (a b : Z) : bool * Z := (bool_decide (a < u128 (K_MIN_INT128 + b)), u128 (a + b)).


(** [None]: the division by zero traps. *)
Definition Mul_u128 (a b : Z) : option (bool * Z) :=
  let res := u128 (a * b) in
  if decide (b = 0) then None else Some (bool_decide (Z.quot res b ≠ a), res).

End ArithmeticOverflow.

Module ArithmeticFunctions.

(** The macros of the header. *)
Definition UNARY_MATH_EXPENSIVE_HIDE_NULL {A B} (null : SqlVal B) (FN : A -> B) (v : SqlVal A) : SqlVal B :=
  if is_null_ v then null else non_null (FN (val_ v)).

Definition BINARY_MATH_EXPENSIVE_HIDE_NULL {A B C} (null : SqlVal C) (FN : A -> B -> C) (a : SqlVal A) (b : SqlVal B) : SqlVal C :=
  if is_null_ a || is_null_ b then null else non_null (FN (val_ a) (val_ b)).

Definition BINARY_MATH_FAST_HIDE_NULL {A} (OP : A -> A -> A) (a b : SqlVal A) : SqlVal A :=
  Value (is_null_ a || is_null_ b) (OP (val_ a) (val_ b)).

(** The result and [*overflow]. *)
Definition BINARY_MATH_FAST_HIDE_NULL_OVERFLOW (FN : Z -> Z -> bool * Z) (a b : Integer) : Integer * bool :=
  let '(overflow, res) := FN (val_ a) (val_ b) in (Value (is_null_ a || is_null_ b) res, overflow).

(** The result and [*div_by_zero], which keeps its value [flag] on success; [None]
    when the operation traps. *)
Definition BINARY_OP_CHECK_ZERO {A} (null : SqlVal A) (is_zero : A -> bool) (OP : A -> A -> option A) (flag : bool)
    (a b : SqlVal A) : option (SqlVal A * bool) :=
  if is_null_ a || is_null_ b || is_zero (val_ b) then Some (null, true)
  else OP (val_ a) (val_ b) ≫= fun res => Some (non_null res, flag).

Definition Add (a b : Integer) : Integer := BINARY_MATH_FAST_HIDE_NULL (fun x y => s64 (x + y)) a b.
Definition Sub (a b : Integer) : Integer := BINARY_MATH_FAST_HIDE_NULL (fun x y => s64 (x - y)) a b.
Definition Mul (a b : Integer) : Integer := BINARY_MATH_FAST_HIDE_NULL (fun x y => s64 (x * y)) a b.
Definition Add_Real (a b : Real) : Real := BINARY_MATH_FAST_HIDE_NULL dadd a b.
Definition Sub_Real (a b : Real) : Real := BINARY_MATH_FAST_HIDE_NULL dsub a b.
Definition Mul_Real (a b : Real) : Real := BINARY_MATH_FAST_HIDE_NULL dmul a b.
Definition Add_overflow : Integer -> Integer -> Integer * bool := BINARY_MATH_FAST_HIDE_NULL_OVERFLOW ArithmeticOverflow.Add_i64.
Definition Sub_overflow : Integer -> Integer -> Integer * bool := BINARY_MATH_FAST_HIDE_NULL_OVERFLOW ArithmeticOverflow.Sub_i64.
Definition Mul_overflow : Integer -> Integer -> Integer * bool := BINARY_MATH_FAST_HIDE_NULL_OVERFLOW ArithmeticOverflow.Mul_i64.

Definition int_zero (z : Z) : bool := bool_decide (z = 0).
Definition double_zero (d : double) : bool := SFeqb d (S754_zero false).

(** [x / y] and [x % y] on [int64_t], for [y] not zero. *)
Definition op_div (x y : Z) : option Z := if decide (x = - 2 ^ 63 /\ y = -1) then None else Some (Z.quot x y).
Definition op_mod (x y : Z) : option Z := if decide (x = - 2 ^ 63 /\ y = -1) then None else Some (Z.rem x y).

Definition IntDiv : bool -> Integer -> Integer -> option (Integer * bool) := BINARY_OP_CHECK_ZERO Integer_Null int_zero op_div.
Definition IntMod : bool -> Integer -> Integer -> option (Integer * bool) := BINARY_OP_CHECK_ZERO Integer_Null int_zero op_mod.
Definition Div : bool -> Real -> Real -> option (Real * bool) :=
  BINARY_OP_CHECK_ZERO Real_Null double_zero (fun x y => Some (ddiv x y)).

(** [Mod] for reals sets the flag in every case; [fmod] is the C library's. *)
Definition Mod (fmod : double -> double -> double) (a b : Real) : Real * bool :=
  let div_by_zero := double_zero (val_ b) in
  if is_null_ a || is_null_ b || double_zero (val_ b) then (Real_Null, div_by_zero)
  else (non_null (fmod (val_ a) (val_ b)), div_by_zero).

Definition Abs (v : Integer) : Integer := UNARY_MATH_EXPENSIVE_HIDE_NULL Integer_Null (fun z => s64 (Z.abs z)) v.
Definition Abs_Real (v : Real) : Real := UNARY_MATH_EXPENSIVE_HIDE_NULL Real_Null SFabs v.

Definition one : double := double_of_Z 1.
Definition half : double := ddiv one (double_of_Z 2).

Definition Sign (v : Real) : Real :=
  if is_null_ v then Real_Null
  else non_null (if SFltb (S754_zero false) (val_ v) then one
                 else if SFltb (val_ v) (S754_zero false) then SFopp one else S754_zero false).

Definition Round (v : Real) : Real :=
  if is_null_ v then Real_Null
  else non_null (dadd (val_ v) (if SFltb (val_ v) (S754_zero false) then SFopp half else half)).

End ArithmeticFunctions.

(** ** Facts about overflow *)

Import ArithmeticOverflow.





(** The subtraction of unsigned 128-bit integers stores the sum of its operands:
    the stored result is the difference only when twice the second operand is a
    multiple of [2 ^ 128]. *)
Theorem Sub_u128_adds (a b : Z) :
  is_uint 128 a -> is_uint 128 b -> (Sub_u128 a b).2 = u128 (a - b) <-> b = 0 \/ b = 2 ^ 127.
Proof.
  intros Ha Hb. unfold Sub_u128, is_uint, wrapu in *. cbn [snd].
  assert (2 ^ 128 = 2 * 2 ^ 127) as E by reflexivity. split.
  - intros H. assert ((2 * b) `mod` 2 ^ 128 = 0) as Hm.
    { replace (2 * b) with ((a + b) - (a - b)) by lia. by rewrite Zminus_mod, H, Z.sub_diag. }
    apply Z.mod_divide in Hm as [k Hk]; [|lia]. assert (b = k * 2 ^ 127) as -> by lia.
    assert (k = 0 \/ k = 1) as [-> | ->] by nia; [left|right]; lia.
  - intros [->| ->]; [by rewrite Z.add_0_r, Z.sub_0_r|].
    replace (a + 2 ^ 127) with (a - 2 ^ 127 + 1 * 2 ^ 128) by lia. apply Z_mod_plus_full.
Qed.

Lemma Sub_u128_adds_witness : (Sub_u128 3 1).2 = 4 /\ (Sub_u128 3 1).2 ≠ u128 (3 - 1).
Proof.
  split; [vm_compute; reflexivity|]. intros H.
  destruct (proj1 (Sub_u128_adds 3 1 ltac:(split; vm_compute; congruence) ltac:(split; vm_compute; congruence)) H) as [E|E]; discriminate E.
Defined.

(** ** SQL arithmetic *)

Import ArithmeticFunctions.

(** Integer division and modulo of non-null operands: a zero divisor gives NULL
    and sets the flag; otherwise, unless the quotient does not fit, the flag is kept
    and the results are the quotient truncated toward zero and the remainder with
    the sign of the dividend, and both fit in 64 bits. *)
Theorem IntDiv_IntMod_spec (flag : bool) (a b : Z) :
  is_sint 64 a -> is_sint 64 b ->
  if decide (b = 0) then
    IntDiv flag (non_null a) (non_null b) = Some (Integer_Null, true) /\
    IntMod flag (non_null a) (non_null b) = Some (Integer_Null, true)
  else if decide (a = - 2 ^ 63 /\ b = -1) then IntDiv flag (non_null a) (non_null b) = None
  else exists q r,
    IntDiv flag (non_null a) (non_null b) = Some (non_null q, flag) /\
    IntMod flag (non_null a) (non_null b) = Some (non_null r, flag) /\
    a = b * q + r /\ Z.abs r < Z.abs b /\ 0 <= r * a /\ is_sint 64 q /\ is_sint 64 r.
Proof.
  intros Ha Hb. unfold IntDiv, IntMod, BINARY_OP_CHECK_ZERO, int_zero. cbn [is_null_ val_ non_null orb].
  destruct (decide (b = 0)) as [->|Hb0]; [done|]. rewrite bool_decide_eq_false_2 by done. unfold op_div, op_mod.
  destruct (decide _) as [Ho|Ho]; [done|]. exists (Z.quot a b), (Z.rem a b).
  pose proof (Z.quot_rem' a b) as E. pose proof (Z.rem_bound_abs a b Hb0) as Hr. pose proof (Z.rem_sign_mul a b Hb0) as Hs.
  split; [done|]. split; [done|]. split; [done|]. split; [done|]. split; [done|].
  unfold is_sint in *. change (2 ^ (64 - 1)) with (2 ^ 63) in *. split; [|split; lia].
  assert (Z.abs (a ÷ b) * Z.abs b <= Z.abs a) as Hq.
  { rewrite <-Z.quot_abs, Z.mul_comm by done. apply Z.mul_quot_le; lia. }
  destruct (decide (Z.abs b = 1)) as [H1|H1]; [|assert (2 * Z.abs (a ÷ b) <= Z.abs (a ÷ b) * Z.abs b) by nia; lia]. assert (b = 1 \/ b = -1) as [-> | ->] by lia; split; nia.
Qed.

Lemma IntDiv_IntMod_spec_witness :
  exists q r, IntDiv false (non_null (-7)) (non_null 2) = Some (non_null q, false) /\
              IntMod false (non_null (-7)) (non_null 2) = Some (non_null r, false) /\ -7 = 2 * q + r.
Proof.
  pose proof (IntDiv_IntMod_spec false (-7) 2 ltac:(split; vm_compute; congruence) ltac:(split; vm_compute; congruence)) as H.
  rewrite decide_False, decide_False in H by lia. destruct H as (q & r & H1 & H2 & H3 & _). exists q, r. split; [exact H1|]. split; [exact H2|exact H3].
Defined.

(** [Round] does not truncate: the value it returns for 2 is 2.5. *)
Lemma Round_two : Round (non_null (double_of_Z 2)) = non_null (ddiv (double_of_Z 5) (double_of_Z 2)).
Proof. vm_compute. reflexivity. Qed.

(** ** Strings *)

Import ComparisonFunctions.

(** A string value whose bytes are readable. *)
Definition string_ok (mem : buffers) (s : StringVal) : Prop :=
  StringVal.is_null_ s = false /\ 0 <= StringVal.len_ s < 2 ^ 31 /\ StringVal.len_ s <= Z.of_nat (length (StringVal.Content mem s)).

Lemma length_view mem s : string_ok mem s -> length (StringVal.StringView mem s) = Z.to_nat (StringVal.len_ s).
Proof. intros (_ & ? & ?). unfold StringVal.StringView. rewrite length_take. lia. Qed.

(** [Compare] is the comparison of the two views, as in [VarlenContentCompare]. *)
Lemma Compare_views mem v1 v2 :
  string_ok mem v1 -> string_ok mem v2 ->
  let a := StringVal.StringView mem v1 in let b := StringVal.StringView mem v2 in
  let c := memcmp a b (min (length a) (length b)) in
  Z.sgn (Compare mem v1 v2) = if decide (c = 0) then Z.sgn (Z.of_nat (length a) - Z.of_nat (length b)) else Z.sgn c.
Proof.
  intros H1 H2 a b. pose proof (length_view mem v1 H1) as L1. pose proof (length_view mem v2 H2) as L2. fold a in L1. fold b in L2.
  destruct H1 as (_ & R1 & C1). destruct H2 as (_ & R2 & C2). rewrite L1, L2, <-Z2Nat.inj_min. unfold Compare, RawStringCompare.
  set (l1 := StringVal.len_ v1) in *. set (l2 := StringVal.len_ v2) in *.
  assert (memcmp a b (Z.to_nat (Z.min l1 l2)) = memcmp (StringVal.Content mem v1) (StringVal.Content mem v2) (Z.to_nat (Z.min l1 l2))) as Em.
  { unfold a, b, StringVal.StringView. apply memcmp_take_min; fold l1 l2; lia. }
  cbv zeta. rewrite Em, !Z2Nat.id by lia. destruct (decide (Z.min l1 l2 = 0)) as [E0|E0].
  - assert (forall x y, memcmp x y (Z.to_nat (Z.min l1 l2)) = 0) as Hz by (intros [|??] [|??]; rewrite E0; done).
    rewrite Hz, (decide_True (P := 0 = 0)) by done. destruct (decide (l1 = l2)); [|destruct (decide (l1 = 0))]; lia.
  - set (c := memcmp _ _ _). destruct (decide (c = 0)) as [Ec|Ec].
    + rewrite decide_False by (intros H; by apply H). rewrite (s32_small l1), (s32_small l2) by lia. rewrite wraps_small; [done|lia|].
      unfold is_sint. change (2 ^ (32 - 1)) with (2 ^ 31). lia.
    + by rewrite decide_True.
Qed.

Lemma memcmp_sym a : forall b n, memcmp a b n = - memcmp b a n.
Proof.
  induction a as [|x a IH]; intros [|y b] [|n]; cbn [memcmp]; try done.
  destruct (decide (x = y)) as [->|Hne]; [rewrite decide_True by done; apply IH|]. rewrite (decide_False (P := y = x)) by congruence.
  destruct (decide (x < y)); [rewrite decide_False by lia|rewrite decide_True by lia]; done.
Qed.

Lemma eqb_views mem v1 v2 :
  string_ok mem v1 -> string_ok mem v2 ->
  StringVal.eqb mem v1 v2 = true <-> StringVal.StringView mem v1 = StringVal.StringView mem v2.
Proof.
  intros H1 H2. pose proof (length_view mem v1 H1) as L1. pose proof (length_view mem v2 H2) as L2.
  destruct H1 as (N1 & R1 & C1). destruct H2 as (N2 & R2 & C2). unfold StringVal.eqb. rewrite N1, N2. cbn [negb eqb].
  case_decide as El.
  - split; [done|]. intros E%(f_equal length). lia.
  - unfold StringVal.StringView, StringVal.Content in *. rewrite <-El in *. case_decide.
    + rewrite bool_decide_eq_true. apply memcmp_0; lia.
    + rewrite orb_true_iff, !bool_decide_eq_true, memcmp_0 by lia. split; [|by right]. intros [->|]; done.
Qed.

(** On readable strings, stored inline or not, [Compare] is the lexicographic order:
    negative, zero or positive as the first value is smaller, equal or greater; and
    [operator==] is equality of the values. *)
Theorem string_compare_lex (mem : buffers) (v1 v2 : StringVal) :
  string_ok mem v1 -> string_ok mem v2 ->
  let a := StringVal.StringView mem v1 in let b := StringVal.StringView mem v2 in
  (Compare mem v1 v2 < 0 <-> lex_lt a b) /\ (Compare mem v1 v2 = 0 <-> a = b) /\ (0 < Compare mem v1 v2 <-> lex_lt b a) /\
  (StringVal.eqb mem v1 v2 = true <-> a = b).
Proof.
  intros H1 H2 a b. pose proof (Compare_views mem v1 v2 H1 H2) as Hc. cbv zeta in Hc. fold a b in Hc.
  pose proof (memcmp_lex a b) as L1. pose proof (memcmp_lex b a) as L2. cbv zeta in L1, L2.
  rewrite (Nat.min_comm (length b)), (memcmp_sym b a) in L2. set (n := min (length a) (length b)) in *. set (c := memcmp a b n) in *.
  assert (c = 0 /\ length a = length b <-> a = b) as Heq.
  { unfold c, n. split; [|intros <-; split; [|done]; by apply memcmp_0; try lia]. intros [E El].
    apply memcmp_0 in E; [|lia..]. by rewrite !take_ge in E by lia. }
  split; [|split; [|split]].
  - rewrite <-L1, <-Z.sgn_neg_iff, Hc. destruct (decide (c = 0)); rewrite bool_decide_eq_true; [rewrite Z.sgn_neg_iff; lia|apply Z.sgn_neg_iff].
  - rewrite <-Heq, <-Z.sgn_null_iff, Hc. destruct (decide (c = 0)); rewrite Z.sgn_null_iff; [lia|tauto].
  - rewrite <-L2, <-Z.sgn_pos_iff, Hc. destruct (decide (c = 0)) as [E|E].
    + rewrite decide_True, bool_decide_eq_true, Z.sgn_pos_iff by lia. lia.
    + rewrite decide_False, bool_decide_eq_true, Z.sgn_pos_iff by lia. lia.
  - by apply eqb_views.
Qed.

Lemma string_compare_lex_witness :
  let mem := {[ 64 := replicate 20 65 ]} in
  let long := StringVal.make mem (replicate 15 0) 64 20 in
  let short := StringVal.make mem (replicate 15 0) 64 3 in
  0 < Compare mem long short /\ StringVal.eqb mem long short = false.
Proof.
  cbv zeta. set (mem := {[ 64 := replicate 20 65 ]}).
  destruct (string_compare_lex mem (StringVal.make mem (replicate 15 0) 64 20) (StringVal.make mem (replicate 15 0) 64 3))
    as (_ & _ & Hgt & Heq); [split; [reflexivity|]; split; [split|]; vm_compute; congruence..|]. split.
  - apply Hgt. vm_compute. do 3 apply lex_tail. apply lex_nil.
  - apply not_true_is_false. intros H%Heq. discriminate H.
Defined.

(** A varlen entry made from a readable string value, owning its bytes or not, has
    the same bytes, and exactly the owning out-of-line ones must be reclaimed. *)
Theorem StringVal_varlen_roundtrip (mem : buffers) (addr : Z) (junk : list Z) (s : StringVal) (own : bool) :
  string_ok mem s -> is_uint 64 addr -> Forall is_byte (StringVal.area_ s) -> length (StringVal.area_ s) = 15%nat ->
  length junk = 12%nat ->
  let '(e, mem') := StringVal.CreateVarlen addr junk mem s own in
  Varlen.StringView mem' e = StringVal.StringView mem s /\
  NeedReclaim e = own && bool_decide (InlineThreshold < StringVal.len_ s).
Proof.
  intros Hok Haddr Hb Hlen Hj. pose proof (length_view mem s Hok) as Lv. destruct Hok as (Hn & Hl & Hc).
  unfold StringVal.CreateVarlen, StringVal.StringView, Varlen.StringView in *. set (len := StringVal.len_ s) in *.
  destruct (decide (InlineThreshold < len)) as [Hin|Hin]; [destruct own|].
  - set (c := take _ _) in *. assert (len = Z.of_nat (length c)) as El by lia.
    destruct (Create_view addr c Haddr ltac:(lia)) as (HS & HI & HN & HC & _). rewrite El, HN, HS. split.
    + unfold Varlen.Content. by rewrite HI, HC, lookup_insert_eq, Nat2Z.id, firstn_all.
    + symmetry. apply bool_decide_eq_true. lia.
  - assert (is_uint 64 (StringVal.ptr_ s)) as Hp.
    { unfold StringVal.ptr_. assert (length (slice 7 8 (StringVal.area_ s)) = 8%nat) as L8 by (unfold slice; rewrite length_take, length_drop; lia).
      pose proof (le_val_bound (slice 7 8 (StringVal.area_ s))) as H. rewrite L8 in H. apply H. by apply Forall_take, Forall_drop. }
    destruct (Create_borrowed_view (StringVal.ptr_ s) (StringVal.Content mem s) len Hp ltac:(lia) Hc) as (HS & HI & HN & HC).
    rewrite HN, HS. split; [|done]. unfold Varlen.Content. rewrite HI, HC. unfold StringVal.Content.
    by rewrite decide_False by (fold len; lia).
  - set (c := take _ _) in *. assert (len = Z.of_nat (length c)) as El by lia.
    assert (Varlen.CreateInline junk (StringVal.Content mem s) len = Varlen.CreateInline junk c (Z.of_nat (length c))) as ->.
    { unfold Varlen.CreateInline. rewrite <-El. unfold c. by rewrite take_take, Nat.min_id. }
    destruct (CreateInline_view junk c mem Hj ltac:(lia)) as (HS & HI & HN & HC & _). rewrite HN, HS, Nat2Z.id. split; [done|].
    rewrite bool_decide_eq_false_2 by lia. by rewrite andb_false_r.
Qed.

Lemma StringVal_varlen_roundtrip_witness :
  let mem := {[ 64 := replicate 20 65 ]} in
  let s := StringVal.make mem (replicate 15 0) 64 20 in
  let '(e, mem') := StringVal.CreateVarlen 4096 (replicate 12 0) mem s true in Varlen.StringView mem' e = replicate 20 65.
Proof.
  cbv zeta. set (mem := {[ 64 := replicate 20 65 ]}). set (s := StringVal.make mem (replicate 15 0) 64 20).
  assert (string_ok mem s) as Hok by (split; [reflexivity|]; split; [split|]; vm_compute; congruence).
  assert (Forall is_byte (StringVal.area_ s)) as Hb.
  { apply Forall_forall. intros x Hx. assert (forallb (fun x => (0 <=? x) && (x <? 256)) (StringVal.area_ s) = true) as Hf by (vm_compute; reflexivity).
    rewrite forallb_forall in Hf. apply list_elem_of_In in Hx. apply Hf in Hx. apply andb_true_iff in Hx as [?%Z.leb_le ?%Z.ltb_lt]. split; assumption. }
  pose proof (StringVal_varlen_roundtrip mem 4096 (replicate 12 0) s true Hok ltac:(split; vm_compute; congruence) Hb eq_refl eq_refl) as H.
  destruct (StringVal.CreateVarlen 4096 (replicate 12 0) mem s true) as [e mem']. destruct H as [-> _]. vm_compute. reflexivity.
Defined.
