(* ===== verification/Aggregators.v ===== *)
(** * SQL aggregates

    [execution/sql/aggregators.h]: the state of each aggregate, [Advance] by one input
    value, [Merge] with another partial aggregate, [Reset] and the result.  The class
    [Aggregate] states what the operator that splits its input into partitions relies
    on: merging the partial aggregates gives the aggregate of the whole input. *)

From Stdlib Require Import SpecFloat.
From S2P Require Import Prelude Layout Varlen SqlValue.

Definition INT64_MIN : Z := - 2 ^ 63.
Definition INT64_MAX : Z := 2 ^ 63 - 1.

(** [std::numeric_limits<double>::min()], the smallest positive normal number, and
    [max()], the largest number. *)
Definition DBL_MIN : double := S754_finite false (2 ^ 52) (-1074).
Definition DBL_MAX : double := S754_finite false (2 ^ 53 - 1) 971.

(** [std::max] and [std::min] on doubles: the first argument unless the second one is
    strictly better. *)
Definition dmax (a b : double) : double := if SFltb a b then b else a.
Definition dmin (a b : double) : double := if SFltb b a then b else a.

(** ** The aggregates *)

Module CountAggregate.

Record t := mk { count_ : Z }.

Definition init : t := mk 0.
Definition Advance {T} (s : t) (val : SqlVal T) : t := mk (u64 (count_ s + Z.b2z (negb (is_null_ val)))).
Definition Merge (s that : t) : t := mk (u64 (count_ s + count_ that)).
Definition Reset (s : t) : t := mk 0.
Definition GetCountResult (s : t) : Integer := non_null (s64 (count_ s)).

End CountAggregate.

Module CountStarAggregate.

Record t := mk { count_ : Z }.

Definition init : t := mk 0.
Definition Advance {T} (s : t) (val : SqlVal T) : t := mk (u64 (count_ s + 1)).
Definition Merge (s that : t) : t := mk (u64 (count_ s + count_ that)).
Definition Reset (s : t) : t := mk 0.
Definition GetCountResult (s : t) : Integer := non_null (s64 (count_ s)).

End CountStarAggregate.

Module IntegerSumAggregate.

Record t := mk { sum_ : Z; null_ : bool }.

Definition init : t := mk 0 true.
Definition Advance (s : t) (val : Integer) : t :=
  if is_null_ val then s else mk (s64 (sum_ s + val_ val)) false.
Definition Merge (s that : t) : t :=
  if null_ that then s else mk (s64 (sum_ s + sum_ that)) false.
Definition Reset (s : t) : t := mk 0 true.
Definition GetResultSum (s : t) : Integer := Value (null_ s) (sum_ s).

End IntegerSumAggregate.

Module RealSumAggregate.

Record t := mk { sum_ : double; null_ : bool }.

Definition init : t := mk (S754_zero false) true.
Definition Advance (s : t) (val : Real) : t :=
  if is_null_ val then s else mk (dadd (sum_ s) (val_ val)) false.
Definition Merge (s that : t) : t :=
  if null_ that then s else mk (dadd (sum_ s) (sum_ that)) false.
Definition Reset (s : t) : t := mk (S754_zero false) true.
Definition GetResultSum (s : t) : Real := Value (null_ s) (sum_ s).

End RealSumAggregate.

Module IntegerMaxAggregate.

Record t := mk { max_ : Z; null_ : bool }.

Definition init : t := mk INT64_MIN true.
Definition Advance (s : t) (val : Integer) : t :=
  if is_null_ val then s else mk (Z.max (val_ val) (max_ s)) false.
Definition Merge (s that : t) : t :=
  if null_ that then s else mk (Z.max (max_ that) (max_ s)) false.
Definition Reset (s : t) : t := mk INT64_MIN true.
Definition GetResultMax (s : t) : Integer := Value (null_ s) (max_ s).

End IntegerMaxAggregate.

Module RealMaxAggregate.

Record t := mk { max_ : double; null_ : bool }.

Definition init : t := mk DBL_MIN true.
Definition Advance (s : t) (val : Real) : t :=
  if is_null_ val then s else mk (dmax (val_ val) (max_ s)) false.
Definition Merge (s that : t) : t :=
  if null_ that then s else mk (dmax (max_ that) (max_ s)) false.
Definition Reset (s : t) : t := mk DBL_MIN true.
Definition GetResultMax (s : t) : Real := Value (null_ s) (max_ s).

End RealMaxAggregate.

Module IntegerMinAggregate.

Record t := mk { min_ : Z; null_ : bool }.

Definition init : t := mk INT64_MAX true.
Definition Advance (s : t) (val : Integer) : t :=
  if is_null_ val then s else mk (Z.min (val_ val) (min_ s)) false.
Definition Merge (s that : t) : t :=
  if null_ that then s else mk (Z.min (min_ that) (min_ s)) false.
Definition Reset (s : t) : t := mk INT64_MAX true.
Definition GetResultMin (s : t) : Integer := Value (null_ s) (min_ s).

End IntegerMinAggregate.

Module RealMinAggregate.

Record t := mk { min_ : double; null_ : bool }.

Definition init : t := mk DBL_MAX true.
Definition Advance (s : t) (val : Real) : t :=
  if is_null_ val then s else mk (dmin (val_ val) (min_ s)) false.
Definition Merge (s that : t) : t :=
  if null_ that then s else mk (dmin (min_ that) (min_ s)) false.
Definition Reset (s : t) : t := mk DBL_MAX true.
Definition GetResultMin (s : t) : Real := Value (null_ s) (min_ s).

End RealMinAggregate.

Module AvgAggregate.

Record t := mk { sum_ : double; count_ : Z }.

Definition init : t := mk (S754_zero false) 0.

(** [Advance] is a template over the type of the value; [cast] converts it. *)
Definition Advance {T} (cast : T -> double) (s : t) (val : SqlVal T) : t :=
  if is_null_ val then s else mk (dadd (sum_ s) (cast (val_ val))) (u64 (count_ s + 1)).
Definition Merge (s that : t) : t := mk (dadd (sum_ s) (sum_ that)) (u64 (count_ s + count_ that)).
Definition Reset (s : t) : t := mk (S754_zero false) 0.
Definition GetResultAvg (s : t) : Real :=
  if decide (count_ s = 0) then Real_Null else non_null (ddiv (sum_ s) (double_of_Z (count_ s))).

End AvgAggregate.

(** ** What partitioned aggregation relies on *)

Class Aggregate (A V : Type) := {
  agg_init : A;
  agg_Advance : A -> V -> A;
  agg_Merge : A -> A -> A;
  agg_ok : A -> Prop;
  agg_val : V -> Prop;
}.

Class AggregateLaws (A V : Type) `{Aggregate A V} := {
  agg_init_ok : agg_ok agg_init;
  agg_Advance_ok a v : agg_ok a -> agg_val v -> agg_ok (agg_Advance a v);
  agg_Merge_init a : agg_ok a -> agg_Merge a agg_init = a;
  agg_Merge_Advance a b v : agg_ok a -> agg_ok b -> agg_val v ->
    agg_Merge a (agg_Advance b v) = agg_Advance (agg_Merge a b) v;
}.

Section partitioned.
Context `{AggregateLaws A V}.

Definition aggregate (a : A) (vs : list V) : A := foldl agg_Advance a vs.

(** Every partition aggregated on its own, the results merged in order. *)
Definition aggregate_partitions (parts : list (list V)) : A :=
  foldl (fun acc part => agg_Merge acc (aggregate agg_init part)) agg_init parts.

Lemma aggregate_ok vs : forall a, agg_ok a -> Forall agg_val vs -> agg_ok (aggregate a vs).
Proof.
  induction vs as [|v vs IH]; intros a Ha Hvs; [done|]. inv Hvs. apply IH; [by apply agg_Advance_ok|done].
Qed.

Lemma Merge_aggregate vs : forall a, agg_ok a -> Forall agg_val vs -> agg_Merge a (aggregate agg_init vs) = aggregate a vs.
Proof.
  induction vs as [|v vs IH] using rev_ind; intros a Ha Hvs; [by apply agg_Merge_init|].
  apply Forall_app in Hvs as [Hvs Hv]. inv Hv. unfold aggregate in *. rewrite !foldl_app. cbn [foldl].
  rewrite agg_Merge_Advance; [by rewrite IH|done|apply (aggregate_ok vs agg_init); [apply agg_init_ok|done]|done].
Qed.

Lemma Merge_partitions parts : forall a, agg_ok a -> Forall (Forall agg_val) parts ->
  foldl (fun acc part => agg_Merge acc (aggregate agg_init part)) a parts = aggregate a (concat parts).
Proof.
  induction parts as [|p parts IH]; intros a Ha Hp; [done|]. inv Hp. cbn [foldl concat].
  rewrite Merge_aggregate, IH by (done || by apply aggregate_ok). unfold aggregate. by rewrite foldl_app.
Qed.

Lemma partitions_whole parts : Forall (Forall agg_val) parts -> aggregate_partitions parts = aggregate agg_init (concat parts).
Proof. intros. apply Merge_partitions; [apply agg_init_ok|done]. Qed.

End partitioned.

(** ** The laws hold *)

(** An aggregate that has seen no value has its initial number; numbers are 64 bits. *)
Definition null_is (start : Z) (number : Z) (null : bool) : Prop := is_sint 64 number /\ (null = true -> number = start).

Definition int_val (v : Integer) : Prop := is_sint 64 (val_ v).

#[global] Instance Count_aggregate {T} : Aggregate CountAggregate.t (SqlVal T) := {|
  agg_init := CountAggregate.init; agg_Advance := CountAggregate.Advance; agg_Merge := CountAggregate.Merge;
  agg_ok s := is_uint 64 (CountAggregate.count_ s); agg_val _ := True |}.

#[global] Instance CountStar_aggregate {T} : Aggregate CountStarAggregate.t (SqlVal T) := {|
  agg_init := CountStarAggregate.init; agg_Advance := CountStarAggregate.Advance; agg_Merge := CountStarAggregate.Merge;
  agg_ok s := is_uint 64 (CountStarAggregate.count_ s); agg_val _ := True |}.

#[global] Instance IntegerSum_aggregate : Aggregate IntegerSumAggregate.t Integer := {|
  agg_init := IntegerSumAggregate.init; agg_Advance := IntegerSumAggregate.Advance; agg_Merge := IntegerSumAggregate.Merge;
  agg_ok s := null_is 0 (IntegerSumAggregate.sum_ s) (IntegerSumAggregate.null_ s); agg_val := int_val |}.

#[global] Instance IntegerMax_aggregate : Aggregate IntegerMaxAggregate.t Integer := {|
  agg_init := IntegerMaxAggregate.init; agg_Advance := IntegerMaxAggregate.Advance; agg_Merge := IntegerMaxAggregate.Merge;
  agg_ok s := null_is INT64_MIN (IntegerMaxAggregate.max_ s) (IntegerMaxAggregate.null_ s); agg_val := int_val |}.

#[global] Instance IntegerMin_aggregate : Aggregate IntegerMinAggregate.t Integer := {|
  agg_init := IntegerMinAggregate.init; agg_Advance := IntegerMinAggregate.Advance; agg_Merge := IntegerMinAggregate.Merge;
  agg_ok s := null_is INT64_MAX (IntegerMinAggregate.min_ s) (IntegerMinAggregate.null_ s); agg_val := int_val |}.

Lemma s64_bound z : is_sint 64 (s64 z).
Proof. by apply wraps_bound. Qed.

Lemma u64_bound z : is_uint 64 (u64 z).
Proof. by apply wrapu_bound. Qed.

Lemma wraps_add_l w a b : 0 <= w -> wraps w (wraps w a + b) = wraps w (a + b).
Proof.
  intros. rewrite <-(wraps_wrapu w (wraps w a + b)), <-(wraps_wrapu w (a + b)). f_equal.
  by rewrite <-wrapu_add_l, wrapu_wraps, wrapu_add_l.
Qed.

Lemma wraps_add_r w a b : 0 <= w -> wraps w (a + wraps w b) = wraps w (a + b).
Proof. intros. by rewrite (Z.add_comm a), wraps_add_l, Z.add_comm. Qed.

#[global] Instance Count_laws {T} : AggregateLaws CountAggregate.t (SqlVal T).
Proof.
  split.
  - split; vm_compute; congruence.
  - intros. apply u64_bound.
  - intros [a] Ha. cbn. unfold CountAggregate.Merge. cbn. rewrite Z.add_0_r. f_equal. by apply wrapu_small.
  - intros [a] [b] v _ _ _. cbn. unfold CountAggregate.Merge, CountAggregate.Advance. cbn. f_equal.
    by rewrite wrapu_add_l, wrapu_add_r, Z.add_assoc.
Qed.

#[global] Instance CountStar_laws {T} : AggregateLaws CountStarAggregate.t (SqlVal T).
Proof.
  split.
  - split; vm_compute; congruence.
  - intros. apply u64_bound.
  - intros [a] Ha. cbn. unfold CountStarAggregate.Merge. cbn. rewrite Z.add_0_r. f_equal. by apply wrapu_small.
  - intros [a] [b] v _ _ _. cbn. unfold CountStarAggregate.Merge, CountStarAggregate.Advance. cbn. f_equal.
    by rewrite wrapu_add_l, wrapu_add_r, Z.add_assoc.
Qed.

#[global] Instance IntegerSum_laws : AggregateLaws IntegerSumAggregate.t Integer.
Proof.
  split.
  - repeat split; vm_compute; congruence.
  - intros a v Ha _. cbn. unfold IntegerSumAggregate.Advance. destruct (is_null_ v); [done|]. split; [apply s64_bound|done].
  - done.
  - intros a [b nb] [nv v] Ha [_ Hb] _. cbn in *. unfold IntegerSumAggregate.Advance, IntegerSumAggregate.Merge. cbn.
    destruct nv; [done|]. cbn. destruct nb; [rewrite Hb by done; cbn|]; cbn; f_equal.
    + rewrite wraps_add_r by lia. done.
    + by rewrite wraps_add_l, wraps_add_r, Z.add_assoc by lia.
Qed.

#[global] Instance IntegerMax_laws : AggregateLaws IntegerMaxAggregate.t Integer.
Proof.
  split.
  - repeat split; vm_compute; congruence.
  - intros a v Ha Hv. cbn [agg_ok agg_Advance agg_val IntegerMax_aggregate] in *. unfold IntegerMaxAggregate.Advance.
    destruct (is_null_ v); [done|]. destruct Ha as [Ha _]. unfold int_val, is_sint in *. split; [|done].
    cbn [IntegerMaxAggregate.max_]. unfold is_sint. lia.
  - done.
  - intros [a na] [b nb] [nv v] [Ha _] [_ Hb] Hv. cbn in *. unfold IntegerMaxAggregate.Advance, IntegerMaxAggregate.Merge. cbn.
    destruct nv; [done|]. cbn. destruct nb; [rewrite Hb by done; cbn|]; cbn; f_equal; [|lia].
    unfold int_val, is_sint, INT64_MIN in *. change (2 ^ (64 - 1)) with (2 ^ 63) in *. cbn [val_] in *. lia.
Qed.

#[global] Instance IntegerMin_laws : AggregateLaws IntegerMinAggregate.t Integer.
Proof.
  split.
  - repeat split; vm_compute; congruence.
  - intros a v Ha Hv. cbn [agg_ok agg_Advance agg_val IntegerMin_aggregate] in *. unfold IntegerMinAggregate.Advance.
    destruct (is_null_ v); [done|]. destruct Ha as [Ha _]. unfold int_val, is_sint in *. split; [|done].
    cbn [IntegerMinAggregate.min_]. unfold is_sint. lia.
  - done.
  - intros [a na] [b nb] [nv v] [Ha _] [_ Hb] Hv. cbn in *. unfold IntegerMinAggregate.Advance, IntegerMinAggregate.Merge. cbn.
    destruct nv; [done|]. cbn. destruct nb; [rewrite Hb by done; cbn|]; cbn; f_equal; [|lia].
    unfold int_val, is_sint, INT64_MAX in *. change (2 ^ (64 - 1)) with (2 ^ 63) in *. cbn [val_] in *. lia.
Qed.

(** ** Results *)

Section results.

(** The non-null inputs. *)
Definition present {T} (vs : list (SqlVal T)) : list T := omap (fun v => if is_null_ v then None else Some (val_ v)) vs.

Lemma present_cons {T} (v : SqlVal T) vs : present (v :: vs) = (if is_null_ v then [] else [val_ v]) ++ present vs.
Proof. unfold present. cbn. by destruct (is_null_ v). Qed.

Lemma length_present {T} (vs : list (SqlVal T)) : (length (present vs) <= length vs)%nat.
Proof. induction vs as [|v vs IH]; [done|]. rewrite present_cons. destruct (is_null_ v); cbn; lia. Qed.

Lemma Count_run {T} (vs : list (SqlVal T)) : forall s, is_uint 64 (CountAggregate.count_ s) ->
  aggregate s vs = CountAggregate.mk (u64 (CountAggregate.count_ s + Z.of_nat (length (present vs)))).
Proof.
  induction vs as [|v vs IH]; intros s Hs.
  - destruct s as [s]. cbn. rewrite Z.add_0_r. f_equal. symmetry. by apply wrapu_small.
  - unfold aggregate in *. cbn [foldl]. rewrite IH by apply u64_bound. rewrite present_cons. cbn. f_equal.
    rewrite wrapu_add_l. f_equal. destruct (is_null_ v); cbn; lia.
Qed.

Lemma CountStar_run {T} (vs : list (SqlVal T)) : forall s, is_uint 64 (CountStarAggregate.count_ s) ->
  aggregate s vs = CountStarAggregate.mk (u64 (CountStarAggregate.count_ s + Z.of_nat (length vs))).
Proof.
  induction vs as [|v vs IH]; intros s Hs.
  - destruct s as [s]. cbn. rewrite Z.add_0_r. f_equal. symmetry. by apply wrapu_small.
  - unfold aggregate in *. cbn [foldl]. rewrite IH by apply u64_bound. cbn. f_equal.
    rewrite wrapu_add_l. f_equal. lia.
Qed.

Lemma Sum_run (vs : list Integer) : forall s, is_sint 64 (IntegerSumAggregate.sum_ s) ->
  aggregate s vs = IntegerSumAggregate.mk (s64 (IntegerSumAggregate.sum_ s + foldr Z.add 0 (present vs)))
                     (IntegerSumAggregate.null_ s && bool_decide (present vs = [])).
Proof.
  induction vs as [|v vs IH]; intros s Hs.
  - destruct s as [s n]. cbn. rewrite Z.add_0_r, andb_true_r. f_equal. symmetry. by apply wraps_small.
  - unfold aggregate in *. cbn [foldl agg_Advance IntegerSum_aggregate]. rewrite present_cons.
    unfold IntegerSumAggregate.Advance. destruct (is_null_ v); [by apply IH|].
    rewrite IH by apply s64_bound. cbn [IntegerSumAggregate.sum_ IntegerSumAggregate.null_]. f_equal.
    + rewrite wraps_add_l by lia. cbn [foldr app]. f_equal. lia.
    + by rewrite andb_false_r.
Qed.

Lemma foldr_max_start l v a : foldr Z.max (Z.max v a) l = Z.max v (foldr Z.max a l).
Proof. induction l as [|x l IH]; cbn [foldr]; [done|]. rewrite IH. lia. Qed.

Lemma foldr_min_start l v a : foldr Z.min (Z.min v a) l = Z.min v (foldr Z.min a l).
Proof. induction l as [|x l IH]; cbn [foldr]; [done|]. rewrite IH. lia. Qed.

Lemma Max_run (vs : list Integer) : forall s,
  aggregate s vs = IntegerMaxAggregate.mk (foldr Z.max (IntegerMaxAggregate.max_ s) (present vs))
                     (IntegerMaxAggregate.null_ s && bool_decide (present vs = [])).
Proof.
  induction vs as [|v vs IH]; intros s.
  - destruct s as [s n]. cbn. by rewrite andb_true_r.
  - unfold aggregate in *. cbn [foldl agg_Advance IntegerMax_aggregate]. rewrite present_cons.
    unfold IntegerMaxAggregate.Advance. destruct (is_null_ v); [by apply IH|].
    rewrite IH. cbn [IntegerMaxAggregate.max_ IntegerMaxAggregate.null_ foldr app]. f_equal.
    + apply foldr_max_start.
    + by rewrite andb_false_r.
Qed.

Lemma Min_run (vs : list Integer) : forall s,
  aggregate s vs = IntegerMinAggregate.mk (foldr Z.min (IntegerMinAggregate.min_ s) (present vs))
                     (IntegerMinAggregate.null_ s && bool_decide (present vs = [])).
Proof.
  induction vs as [|v vs IH]; intros s.
  - destruct s as [s n]. cbn. by rewrite andb_true_r.
  - unfold aggregate in *. cbn [foldl agg_Advance IntegerMin_aggregate]. rewrite present_cons.
    unfold IntegerMinAggregate.Advance. destruct (is_null_ v); [by apply IH|].
    rewrite IH. cbn [IntegerMinAggregate.min_ IntegerMinAggregate.null_ foldr app]. f_equal.
    + apply foldr_min_start.
    + by rewrite andb_false_r.
Qed.

Lemma foldr_max_spec l : forall a, Forall (fun x => a <= x) l -> l ≠ [] ->
  foldr Z.max a l ∈ l /\ Forall (fun x => x <= foldr Z.max a l) l.
Proof.
  induction l as [|x [|y l] IH]; intros a Ha Hne; [done| |]; inv Ha.
  - cbn [foldr]. rewrite Z.max_l by done. split; [set_solver|]. by constructor.
  - destruct (IH a) as [Hin Hle]; [done..|]. cbn [foldr] in *. set (m := Z.max y _) in *. split.
    + destruct (Z.max_dec x m) as [-> | ->]; set_solver.
    + constructor; [lia|]. eapply Forall_impl; [exact Hle|]. cbn. lia.
Qed.

Lemma foldr_min_spec l : forall a, Forall (fun x => x <= a) l -> l ≠ [] ->
  foldr Z.min a l ∈ l /\ Forall (fun x => foldr Z.min a l <= x) l.
Proof.
  induction l as [|x [|y l] IH]; intros a Ha Hne; [done| |]; inv Ha.
  - cbn [foldr]. rewrite Z.min_l by done. split; [set_solver|]. by constructor.
  - destruct (IH a) as [Hin Hle]; [done..|]. cbn [foldr] in *. set (m := Z.min y _) in *. split.
    + destruct (Z.min_dec x m) as [-> | ->]; set_solver.
    + constructor; [lia|]. eapply Forall_impl; [exact Hle|]. cbn. lia.
Qed.

Lemma present_val vs : Forall int_val vs -> Forall (is_sint 64) (present vs).
Proof.
  induction 1 as [|v vs Hv _ IH]; [constructor|]. rewrite present_cons. apply Forall_app. split; [|done].
  destruct (is_null_ v); [constructor|]. by constructor.
Qed.

End results.

(** C37: splitting the input of COUNT, COUNT-star and the integer SUM, MAX and MIN into any
    sequence of partitions, aggregating each on its own and merging the partial
    aggregates gives the aggregate of the whole input. *)
Theorem aggregates_partitioned (parts : list (list Integer)) :
  Forall (Forall int_val) parts ->
  aggregate_partitions (A := CountAggregate.t) parts = aggregate CountAggregate.init (concat parts) /\
  aggregate_partitions (A := CountStarAggregate.t) parts = aggregate CountStarAggregate.init (concat parts) /\
  aggregate_partitions (A := IntegerSumAggregate.t) parts = aggregate IntegerSumAggregate.init (concat parts) /\
  aggregate_partitions (A := IntegerMaxAggregate.t) parts = aggregate IntegerMaxAggregate.init (concat parts) /\
  aggregate_partitions (A := IntegerMinAggregate.t) parts = aggregate IntegerMinAggregate.init (concat parts).
Proof.
  intros Hp. assert (Forall (Forall (fun _ : Integer => True)) parts) as Ht.
  { eapply Forall_impl; [exact Hp|]. intros p Hq. by eapply Forall_impl; [exact Hq|]. }
  split; [exact (partitions_whole (A := CountAggregate.t) parts Ht)|].
  split; [exact (partitions_whole (A := CountStarAggregate.t) parts Ht)|].
  split; [exact (partitions_whole (A := IntegerSumAggregate.t) parts Hp)|].
  split; [exact (partitions_whole (A := IntegerMaxAggregate.t) parts Hp)|].
  exact (partitions_whole (A := IntegerMinAggregate.t) parts Hp).
Qed.

Lemma aggregates_partitioned_witness :
  aggregate_partitions (A := IntegerMaxAggregate.t) [[non_null (-3); Integer_Null]; []; [non_null (-5)]] = IntegerMaxAggregate.mk (-3) false.
Proof.
  destruct (aggregates_partitioned [[non_null (-3); Integer_Null]; []; [non_null (-5)]]) as (_ & _ & _ & H & _).
  - repeat constructor; vm_compute; congruence.
  - rewrite H. vm_compute. reflexivity.
Defined.

(** The results: COUNT and COUNT-star count the non-null values and the rows; SUM is
    the 64-bit sum of the non-null values; MAX and MIN are a greatest and a least
    non-null value; SUM, MAX and MIN are NULL exactly when every value is. *)
Theorem aggregates_results (vs : list Integer) :
  Forall int_val vs -> Z.of_nat (length vs) < 2 ^ 63 ->
  CountAggregate.GetCountResult (aggregate CountAggregate.init vs) = non_null (Z.of_nat (length (present vs))) /\
  CountStarAggregate.GetCountResult (aggregate CountStarAggregate.init vs) = non_null (Z.of_nat (length vs)) /\
  IntegerSumAggregate.GetResultSum (aggregate IntegerSumAggregate.init vs) =
    Value (bool_decide (present vs = [])) (s64 (foldr Z.add 0 (present vs))) /\
  let max := IntegerMaxAggregate.GetResultMax (aggregate IntegerMaxAggregate.init vs) in
  let min := IntegerMinAggregate.GetResultMin (aggregate IntegerMinAggregate.init vs) in
  (is_null_ max = true <-> present vs = []) /\ (is_null_ min = true <-> present vs = []) /\
  (present vs ≠ [] ->
   val_ max ∈ present vs /\ Forall (fun x => x <= val_ max) (present vs) /\
   val_ min ∈ present vs /\ Forall (fun x => val_ min <= x) (present vs)).
Proof.
  intros Hv Hl. assert (length (present vs) <= length vs)%nat as Hlen by apply length_present.
  assert (forall n, 0 <= n < 2 ^ 63 -> s64 (u64 (0 + n)) = n) as Hn.
  { intros n Hn. rewrite wraps_wrapu. apply wraps_small; [lia|]. unfold is_sint. change (2 ^ (64 - 1)) with (2 ^ 63). lia. }
  rewrite Count_run, CountStar_run, Sum_run, Max_run, Min_run by (split; vm_compute; congruence).
  unfold CountAggregate.GetCountResult, CountStarAggregate.GetCountResult, IntegerSumAggregate.GetResultSum.
  cbn [CountAggregate.count_ CountStarAggregate.count_ CountAggregate.init CountStarAggregate.init].
  rewrite !Hn by lia. split; [done|]. split; [done|]. split; [done|].
  cbn -[INT64_MAX INT64_MIN Z.max Z.min]. rewrite !bool_decide_eq_true. split; [done|]. split; [done|]. intros Hne.
  pose proof (present_val vs Hv) as Hp.
  destruct (foldr_max_spec (present vs) INT64_MIN) as [? ?]; [|done|]; [eapply Forall_impl; [exact Hp|]; by intros x [??]|].
  destruct (foldr_min_spec (present vs) INT64_MAX) as [? ?]; [|done|].
  { eapply Forall_impl; [exact Hp|]. intros x [??]. unfold INT64_MAX. change (2 ^ (64 - 1)) with (2 ^ 63) in *. lia. }
  done.
Qed.

Lemma aggregates_results_witness :
  IntegerSumAggregate.GetResultSum (aggregate IntegerSumAggregate.init [non_null 4; Integer_Null; non_null (-6)]) = non_null (-2).
Proof.
  destruct (aggregates_results [non_null 4; Integer_Null; non_null (-6)]) as (_ & _ & H & _).
  - repeat constructor; vm_compute; congruence.
  - vm_compute. reflexivity.
  - rewrite H. vm_compute. reflexivity.
Defined.

(** The maximum of reals starts from the smallest positive normal double, so on
    values that are all below it, negative ones in particular, the result is that
    double, which is not among the values. *)
Theorem RealMax_positive_floor (vs : list Real) :
  Forall (fun x => SFltb x DBL_MIN = true) (present vs) ->
  let s := foldl RealMaxAggregate.Advance RealMaxAggregate.init vs in
  RealMaxAggregate.max_ s = DBL_MIN /\ DBL_MIN ∉ present vs.
Proof.
  intros Hv s. split.
  - assert (RealMaxAggregate.max_ RealMaxAggregate.init = DBL_MIN) as Hi by done. revert Hi. unfold s. clear s.
    generalize RealMaxAggregate.init as s. induction vs as [|v vs IH]; intros s Hs; [done|]. cbn [foldl].
    rewrite present_cons in Hv. apply Forall_app in Hv as [Hv Hvs]. apply IH; [done|]. unfold RealMaxAggregate.Advance.
    destruct (is_null_ v); [done|]. inv Hv. cbn. unfold dmax. rewrite Hs. by case_match.
  - intros Hin. rewrite Forall_forall in Hv. apply Hv in Hin. vm_compute in Hin. discriminate.
Qed.

Lemma RealMax_positive_floor_witness :
  RealMaxAggregate.GetResultMax (foldl RealMaxAggregate.Advance RealMaxAggregate.init [non_null (double_of_Z (-3)); non_null (double_of_Z (-1))])
  = non_null DBL_MIN.
Proof.
  destruct (RealMax_positive_floor [non_null (double_of_Z (-3)); non_null (double_of_Z (-1))]) as [H _].
  - repeat constructor; vm_compute; congruence.
  - unfold RealMaxAggregate.GetResultMax. rewrite H. vm_compute. reflexivity.
Defined.
