(* ===== verification/Dates.v ===== *)
(** * Dates and timestamps

    [util/time_util.h] ([TimeConvertor]) and [execution/sql/runtime_types.{h,cpp}]:
    dates are Julian day numbers in 32 bits, timestamps Julian microseconds in 64
    bits.  Every arithmetic operation wraps at the width the code computes it in; the
    fields of a [year_month_day] are a 16-bit year and 8-bit month and day. *)

From S2P Require Import Prelude Layout.

Record year_month_day := YMD { year : Z; month : Z; day : Z }.

(** [date::year_month_day{date::year{y}, date::month{m}, date::day{d}}] *)
Definition make_ymd (y m d : Z) : year_month_day := YMD (s16 y) (u8 m) (u8 d).

Module TimeConvertor.

Definition MICROSECONDS_PER_SECOND : Z := 1000 * 1000.
Definition MICROSECONDS_PER_MINUTE : Z := 60 * MICROSECONDS_PER_SECOND.
Definition MICROSECONDS_PER_HOUR : Z := 60 * MICROSECONDS_PER_MINUTE.
Definition MICROSECONDS_PER_DAY : Z := 24 * MICROSECONDS_PER_HOUR.

Definition PostgresDate2J (year month day : Z) : Z :=
  let '(month, year) :=
    if decide (2 < month) then (u32 (month + 1), s32 (year + 4800)) else (u32 (month + 13), s32 (year + 4799)) in
  let century := u32 (Z.quot year 100) in
  let julian := u32 (s32 (s32 (year * 365) - 32167)) in
  let julian := u32 (julian + u32 (u32 (u32 (Z.quot year 4) - century) + century / 4)) in
  u32 (julian + u32 (u32 (7834 * month) / 256 + day)).

Definition PostgresJ2Date (julian_days : Z) : year_month_day :=
  let julian := u32 (julian_days + 32044) in
  let quad := julian / 146097 in
  let extra := u32 (u32 (u32 (julian - u32 (quad * 146097)) * 4) + 3) in
  let julian := u32 (julian + u32 (u32 (60 + u32 (quad * 3)) + extra / 146097)) in
  let quad := julian / 1461 in
  let julian := u32 (julian - u32 (quad * 1461)) in
  let y := s32 (u32 (julian * 4) / 1461) in
  let julian := u32 ((if decide (y ≠ 0) then u32 (julian + 305) `mod` 365 else u32 (julian + 306) `mod` 366) + 123) in
  let y := s32 (u32 (y + u32 (quad * 4))) in
  let quad := u32 (julian * 2141) / 65536 in
  make_ymd (s32 (y - 4800)) (u32 (u32 (quad + 10) `mod` 12 + 1)) (u32 (julian - u32 (7834 * quad) / 256)).

Definition DateFromYMD (ymd : year_month_day) : Z := PostgresDate2J (year ymd) (month ymd) (day ymd).
Definition YMDFromDate (date : Z) : year_month_day := PostgresJ2Date date.
Definition TimestampFromDate (date : Z) : Z := u64 (date * MICROSECONDS_PER_DAY).
Definition DateFromTimestamp (timestamp : Z) : Z := u32 (timestamp / MICROSECONDS_PER_DAY).
Definition ExtractJulianMicroseconds (timestamp : Z) : Z := timestamp.

Definition TimestampFromHMSu (year month day hour minute sec usec : Z) : Z :=
  let ts_val := TimestampFromDate (DateFromYMD (make_ymd year month day)) in
  let ts_val := u64 (ts_val + u64 (hour * MICROSECONDS_PER_HOUR)) in
  let ts_val := u64 (ts_val + u64 (minute * MICROSECONDS_PER_MINUTE)) in
  let ts_val := u64 (ts_val + u64 (sec * MICROSECONDS_PER_SECOND)) in
  u64 (ts_val + usec).

End TimeConvertor.
Import TimeConvertor.

Module Date.

(** A [Date] is its [value_]. *)
Record t := mk { value_ : Z }.

Definition K_US_PER_DAY : Z := 24 * 60 * 60 * 1000 * 1000.

Definition IsValidJulianDate (year month day : Z) : bool :=
  bool_decide (year <= 9999) && bool_decide (1 <= month) && bool_decide (month <= 12) &&
  bool_decide (1 <= day) && bool_decide (day <= 31).

Definition BuildJulianDate (year month day : Z) : Z := PostgresDate2J year month day.
Definition SplitJulianDate (julian_date : Z) : Z * Z * Z :=
  let ymd := PostgresJ2Date julian_date in (year ymd, month ymd, day ymd).

Definition IsValid (d : t) : bool :=
  let '(year, month, day) := SplitJulianDate (value_ d) in IsValidJulianDate year month day.
Definition ExtractYear (d : t) : Z := (SplitJulianDate (value_ d)).1.1.
Definition ExtractMonth (d : t) : Z := (SplitJulianDate (value_ d)).1.2.
Definition ExtractDay (d : t) : Z := (SplitJulianDate (value_ d)).2.
Definition ExtractComponents (d : t) : Z * Z * Z := SplitJulianDate (value_ d).
Definition ToNative (d : t) : Z := value_ d.
Definition FromNative (val : Z) : t := mk val.

(** [None]: the conversion exception. *)
Definition FromYMD (year month day : Z) : option t :=
  if IsValidJulianDate year month day then Some (mk (BuildJulianDate year month day)) else None.
Definition IsValidDate (year month day : Z) : bool := IsValidJulianDate year month day.

(** [operator<] and [operator==]; the others are their combinations. *)
Definition ltb (a b : t) : bool := bool_decide (value_ a < value_ b).
Definition eqb (a b : t) : bool := bool_decide (value_ a = value_ b).
Definition leb (a b : t) : bool := bool_decide (value_ a <= value_ b).

(** [ConvertToTimestamp]: the [value_] of the [Timestamp]. *)
Definition ConvertToTimestamp (d : t) : Z := u64 (value_ d * K_US_PER_DAY).

End Date.

Module Timestamp.

Record t := mk { value_ : Z }.

Definition ToNative (ts : t) : Z := value_ ts.
Definition FromNative (val : Z) : t := mk val.
Definition FromMicroseconds (usec : Z) : t := mk usec.
Definition FromHMSu (year month day hour minute sec usec : Z) : t :=
  mk (TimestampFromHMSu year month day hour minute sec usec).
Definition ltb (a b : t) : bool := bool_decide (value_ a < value_ b).
Definition eqb (a b : t) : bool := bool_decide (value_ a = value_ b).

End Timestamp.

(** [lia] with division by constants. *)
Ltac zlia := Z.div_mod_to_equations; lia.

(** ** The calendar *)

Definition leap (y : Z) : bool := (y `mod` 4 =? 0) && (negb (y `mod` 100 =? 0) || (y `mod` 400 =? 0)).

Definition month_length (y m : Z) : Z :=
  if decide (m = 2) then (if leap y then 29 else 28)
  else if decide (m = 4 \/ m = 6 \/ m = 9 \/ m = 11) then 30 else 31.

(** A date of the proleptic Gregorian calendar in the years the conversions cover. *)
Definition valid_date (y m d : Z) : Prop := -4799 <= y <= 32767 /\ 1 <= m <= 12 /\ 1 <= d <= month_length y m.

(** The year that starts in March, counted from -4800, the month in it and the day in
    that year, from 0. *)
Definition march_year (y m : Z) : Z := if decide (2 < m) then y + 4800 else y + 4799.
Definition march_month (m : Z) : Z := if decide (2 < m) then m + 1 else m + 13.
Definition march_day (m d : Z) : Z := 7834 * march_month m / 256 - 123 + d.

(** Days from 1 March -4800 to day [D] of the March-based year [Y]. *)
Definition days (Y D : Z) : Z := 365 * Y + Y / 4 - Y / 100 + Y / 400 + D.

Example date_2020 : PostgresDate2J 2020 2 29 = 2458909 /\ PostgresJ2Date 2458909 = YMD 2020 2 29.
Proof. vm_compute. split; reflexivity. Qed.

Lemma month_length_bound y m : 28 <= month_length y m <= 31.
Proof. unfold month_length. repeat case_decide; try destruct (leap y); lia. Qed.

Lemma march_year_bound y m : -4799 <= y <= 32767 -> 0 <= march_year y m <= 37567.
Proof. unfold march_year. case_decide; lia. Qed.

Lemma march_month_bound m : 1 <= m <= 12 -> 4 <= march_month m <= 15.
Proof. unfold march_month. case_decide; lia. Qed.

Lemma u32_small' z : 0 <= z < 2 ^ 32 -> u32 z = z.
Proof. intros. by apply wrapu_small. Qed.

Lemma s32_small' z : - 2 ^ 31 <= z < 2 ^ 31 -> s32 z = z.
Proof. intros. by apply wraps_small. Qed.

(** [PostgresDate2J] without its intermediate wrap-arounds. *)
Lemma Date2J_days y m d : -4799 <= y <= 32767 -> 1 <= m <= 12 -> 1 <= d <= 31 -> PostgresDate2J y m d = u32 (days (march_year y m) (march_day m d) - 32044).
Proof.
  intros Hy Hm Hd. pose proof (march_year_bound y m Hy) as HY.
  pose proof (march_month_bound m Hm) as HM.
  assert ((if decide (2 < m) then (u32 (m + 1), s32 (y + 4800)) else (u32 (m + 13), s32 (y + 4799)))
          = (march_month m, march_year y m)) as E.
  { unfold march_month, march_year in *. case_decide; rewrite u32_small', s32_small' by lia; done. }
  unfold PostgresDate2J. rewrite E. unfold days, march_day. set (Y := march_year y m) in *. set (M := march_month m) in *.
  rewrite !Z.quot_div_nonneg by lia. rewrite (s32_small' (Y * 365)), (s32_small' (Y * 365 - 32167)) by lia.
  rewrite (u32_small' (Y / 100)) by zlia. rewrite (u32_small' (Y / 4)) by zlia. rewrite (u32_small' (Y / 4 - Y / 100)) by zlia.
  rewrite (u32_small' (Y / 4 - Y / 100 + Y / 100 / 4)) by zlia. rewrite (u32_small' (7834 * M)) by zlia.
  rewrite (u32_small' (7834 * M / 256 + d)) by zlia. rewrite wrapu_add_l, <-Z.add_assoc, wrapu_add_l. f_equal. zlia.
Qed.

(** A day of the March-based year [Y]; the last one is 29 February. *)
Definition march_ok (Y D : Z) : Prop :=
  0 <= Y <= 37567 /\ 0 <= D <= 365 /\ (D = 365 -> (Y + 1) `mod` 4 = 0 /\ ((Y + 1) `mod` 100 <> 0 \/ (Y + 1) `mod` 400 = 0)).

(** The first half of [PostgresJ2Date] removes the century rule. *)
Lemma days_centuries Y D : march_ok Y D ->
  days Y D / 146097 = Y / 400 /\ ((days Y D - Y / 400 * 146097) * 4 + 3) / 146097 = Y `mod` 400 / 100.
Proof.
  intros (HY & HD & Hl). unfold days.
  assert (exists q c a b, Y = 400 * q + 100 * c + 4 * a + b /\ 0 <= c <= 3 /\ 0 <= a <= 24 /\ 0 <= b <= 3 /\ 0 <= q)
    as (q & c & a & b & -> & Hc & Ha & Hb & Hq).
  { exists (Y / 400), (Y `mod` 400 / 100), (Y `mod` 100 / 4), (Y `mod` 4). zlia. }
  assert (D <= 364 \/ (b = 3 /\ (a <> 24 \/ c = 3))) as Hlast by zlia.
  replace ((400 * q + 100 * c + 4 * a + b) / 4) with (100 * q + 25 * c + a) by zlia.
  replace ((400 * q + 100 * c + 4 * a + b) / 100) with (4 * q + c) by zlia.
  replace ((400 * q + 100 * c + 4 * a + b) / 400) with q by zlia.
  replace ((400 * q + 100 * c + 4 * a + b) `mod` 400 / 100) with c by zlia.
  split; zlia.
Qed.

(** The second half finds the civil year and the day of the March-based year. *)
Lemma days_year Y D : march_ok Y D ->
  let J := 365 * Y + Y / 4 + D + 60 in let r := J - J / 1461 * 1461 in let y := r * 4 / 1461 in
  0 <= r < 1461 /\ y + J / 1461 * 4 = (if decide (D < 306) then Y else Y + 1) /\
  (if decide (y ≠ 0) then (r + 305) `mod` 365 else (r + 306) `mod` 366) = D.
Proof.
  intros (HY & HD & Hl).
  assert (exists a b, Y = 4 * a + b /\ 0 <= b <= 3 /\ 0 <= a) as (a & b & -> & Hb & Ha).
  { exists (Y / 4), (Y `mod` 4). zlia. }
  assert (D <= 364 \/ b = 3) as Hlast by zlia.
  intros J r y. assert (J = 1461 * a + 365 * b + D + 60) as HJ by (unfold J; zlia).
  assert (r = J `mod` 1461) as Hr by (unfold r; zlia).
  destruct (decide (D < 306)) as [H|H].
  - assert (J / 1461 = a) as Ea by (rewrite HJ; zlia). assert (r = 365 * b + D + 60) as Er by (unfold r; lia).
    assert (y = b) as Ey by (unfold y; rewrite Er; zlia). rewrite Ea, Ey, Er. split; [lia|]. split; [lia|].
    case_decide; zlia.
  - destruct (decide (b = 3)) as [->|Hb3].
    + assert (J / 1461 = a + 1) as Ea by (rewrite HJ; zlia). assert (r = D - 306) as Er by (unfold r; lia).
      assert (y = 0) as Ey by (unfold y; rewrite Er; zlia). rewrite Ea, Ey, Er. split; [lia|]. split; [lia|].
      rewrite decide_False by lia. zlia.
    + assert (J / 1461 = a) as Ea by (rewrite HJ; zlia). assert (r = 365 * b + D + 60) as Er by (unfold r; lia).
      assert (y = b + 1) as Ey by (unfold y; rewrite Er; zlia). rewrite Ea, Ey, Er. split; [lia|]. split; [lia|].
      rewrite decide_True by lia. zlia.
Qed.

Lemma J2Date_days Y D : march_ok Y D ->
  let M := (D + 123) * 2141 / 65536 in
  PostgresJ2Date (u32 (days Y D - 32044)) =
  make_ymd ((if decide (D < 306) then Y else Y + 1) - 4800) ((M + 10) `mod` 12 + 1) (D + 123 - 7834 * M / 256).
Proof.
  intros Hok M. destruct (days_centuries Y D Hok) as [Eq Ee]. pose proof (days_year Y D Hok) as Hy. cbv zeta in Hy.
  destruct Hok as (HY & HD & _). assert (0 <= days Y D < 2 ^ 24) as HJ by (unfold days; zlia).
  assert (4 <= M <= 15) as HM by (unfold M; zlia).
  assert (u32 (u32 (days Y D - 32044) + 32044) = days Y D) as Es.
  { rewrite wrapu_add_l. replace (days Y D - 32044 + 32044) with (days Y D) by lia. apply u32_small'. lia. }
  unfold PostgresJ2Date. rewrite Es, Eq. rewrite (u32_small' (Y / 400 * 146097)) by zlia.
  rewrite (u32_small' (days Y D - Y / 400 * 146097)) by zlia.
  rewrite (u32_small' ((days Y D - Y / 400 * 146097) * 4)) by zlia.
  rewrite (u32_small' ((days Y D - Y / 400 * 146097) * 4 + 3)) by zlia. rewrite Ee.
  rewrite (u32_small' (Y / 400 * 3)) by zlia. rewrite (u32_small' (60 + Y / 400 * 3)) by zlia.
  rewrite (u32_small' (60 + Y / 400 * 3 + Y `mod` 400 / 100)) by zlia.
  replace (days Y D + (60 + Y / 400 * 3 + Y `mod` 400 / 100)) with (365 * Y + Y / 4 + D + 60) by (unfold days; zlia).
  set (J := 365 * Y + Y / 4 + D + 60) in *. assert (0 <= J < 2 ^ 25) as HJ' by (unfold J; zlia).
  rewrite (u32_small' J) by lia. rewrite (u32_small' (J / 1461 * 1461)) by zlia.
  set (r := J - J / 1461 * 1461) in *. destruct Hy as (Hr & Hy & Hd).
  rewrite (u32_small' r), (u32_small' (r * 4)), (u32_small' (r + 305)), (u32_small' (r + 306)) by lia.
  rewrite (s32_small' (r * 4 / 1461)) by zlia. rewrite Hd. rewrite (u32_small' (D + 123)) by lia.
  rewrite (u32_small' (J / 1461 * 4)) by zlia. rewrite Hy. rewrite (u32_small' ((D + 123) * 2141)) by lia. fold M.
  set (Y' := if decide (D < 306) then Y else Y + 1) in *. assert (0 <= Y' <= 37568) as HY' by (unfold Y'; destruct (decide (D < 306)); lia).
  rewrite (u32_small' Y'), (s32_small' Y'), (s32_small' (Y' - 4800)) by lia. rewrite (u32_small' (M + 10)) by lia.
  rewrite (u32_small' ((M + 10) `mod` 12 + 1)) by zlia. rewrite (u32_small' (7834 * M)) by lia.
  rewrite (u32_small' (D + 123 - 7834 * M / 256)); [done|]. unfold M. zlia.
Qed.

(** The months of the March-based year. *)
Lemma month_table m d : 1 <= m <= 12 -> 1 <= d <= (if decide (m = 2) then 29 else month_length 1 m) ->
  let D := march_day m d in let M := march_month m in
  (D + 123) * 2141 / 65536 = M /\ (M + 10) `mod` 12 + 1 = m /\ D + 123 - 7834 * M / 256 = d /\
  0 <= D <= 365 /\ (D < 306 <-> 2 < m) /\ (D = 365 <-> m = 2 /\ d = 29).
Proof.
  intros Hm Hd. assert (m = 1 \/ m = 2 \/ m = 3 \/ m = 4 \/ m = 5 \/ m = 6 \/ m = 7 \/ m = 8 \/ m = 9 \/ m = 10 \/ m = 11 \/ m = 12) as Hc by lia.
  destruct Hc as [->|[->|[->|[->|[->|[->|[->|[->|[->|[->|[->| ->]]]]]]]]]]];
    unfold march_day; match goal with |- context [march_month ?k] => let M := eval vm_compute in (march_month k) in change (march_month k) with M end;
    match type of Hd with _ <= _ <= ?e => let l := eval vm_compute in e in change e with l in Hd end;
    cbv zeta; split_and!; zlia.
Qed.

Lemma valid_month y m d : valid_date y m d -> 1 <= m <= 12 /\ 1 <= d <= (if decide (m = 2) then 29 else month_length 1 m).
Proof.
  intros (_ & Hm & Hd). split; [done|]. revert Hd. unfold month_length. repeat case_decide; try done; destruct (leap y); lia.
Qed.

Lemma leap_spec y : leap y = true <-> y `mod` 4 = 0 /\ (y `mod` 100 <> 0 \/ y `mod` 400 = 0).
Proof. unfold leap. rewrite andb_true_iff, orb_true_iff, negb_true_iff, !Z.eqb_eq, Z.eqb_neq. done. Qed.

Lemma valid_march y m d : valid_date y m d -> march_ok (march_year y m) (march_day m d).
Proof.
  intros Hv. destruct (valid_month _ _ _ Hv) as [Hm Hd]. destruct (month_table m d Hm Hd) as (_ & _ & _ & HD & _ & H29).
  destruct Hv as (Hy & _ & Hl). split; [by apply march_year_bound|]. split; [done|]. intros [-> ->]%H29.
  assert (leap y = true) as Hleap.
  { destruct (leap y) eqn:E; [done|]. unfold month_length in Hl. rewrite decide_True, E in Hl by done. lia. }
  apply leap_spec in Hleap. change (march_year y 2) with (y + 4799). zlia.
Qed.

Lemma Date2J_valid y m d : valid_date y m d -> PostgresDate2J y m d = u32 (days (march_year y m) (march_day m d) - 32044).
Proof. intros (Hy & Hm & Hd). pose proof (month_length_bound y m). apply Date2J_days; lia. Qed.

Lemma J2Date_Date2J y m d : valid_date y m d -> PostgresJ2Date (PostgresDate2J y m d) = YMD y m d.
Proof.
  intros Hv. rewrite (Date2J_valid _ _ _ Hv), (J2Date_days _ _ (valid_march _ _ _ Hv)).
  destruct (valid_month _ _ _ Hv) as [Hm Hd]. destruct (month_table m d Hm Hd) as (-> & -> & -> & _ & Hlt & _).
  pose proof (month_length_bound y m). destruct Hv as (Hy & _ & Hl). unfold make_ymd.
  replace ((if decide (march_day m d < 306) then _ else _) - 4800) with y.
  - f_equal; [apply wraps_small; [lia|]; unfold is_sint; lia|apply wrapu_small; unfold is_uint; lia..].
  - unfold march_year. destruct (decide (march_day m d < 306)), (decide (2 < m)); tauto || lia.
Qed.

(** [days] orders dates. *)
Lemma days_lt Y1 D1 Y2 D2 : march_ok Y1 D1 -> march_ok Y2 D2 ->
  days Y1 D1 < days Y2 D2 <-> Y1 < Y2 \/ (Y1 = Y2 /\ D1 < D2).
Proof.
  intros H1 H2. assert (forall Y D, march_ok Y D -> days Y D < days (Y + 1) 0) as Hnext.
  { intros Y D (HY & HD & Hl). unfold days. destruct (decide (D = 365)) as [->|]; [destruct Hl as [? ?]; [done|]|]; zlia. }
  assert (forall Y Y', 0 <= Y <= Y' -> days Y 0 <= days Y' 0) as Hmono by (intros; unfold days; zlia).
  assert (forall Y Y' D D', march_ok Y D -> march_ok Y' D' -> Y < Y' -> days Y D < days Y' D') as Hlt.
  { intros Y Y' D D' Hok Hok' Hl. pose proof (Hnext Y D Hok). destruct Hok as (? & _), Hok' as (? & ? & _).
    pose proof (Hmono (Y + 1) Y' ltac:(lia)). assert (days Y' D' = days Y' 0 + D') by (unfold days; lia). lia. }
  assert (forall Y D D', days Y D < days Y D' <-> D < D') as Hsame by (intros; unfold days; lia).
  split; [|intros [?|[-> ?]]; [by apply Hlt|by apply Hsame]].
  intros Hl. destruct (Z.lt_trichotomy Y1 Y2) as [?|[->|?]]; [by left|right; split; [done|by apply Hsame in Hl]|].
  pose proof (Hlt Y2 Y1 D2 D1 H2 H1). lia.
Qed.

Definition date_lt (y1 m1 d1 y2 m2 d2 : Z) : Prop := y1 < y2 \/ (y1 = y2 /\ (m1 < m2 \/ (m1 = m2 /\ d1 < d2))).

Lemma march_lex y1 m1 d1 y2 m2 d2 : valid_date y1 m1 d1 -> valid_date y2 m2 d2 ->
  march_year y1 m1 < march_year y2 m2 \/ (march_year y1 m1 = march_year y2 m2 /\ march_day m1 d1 < march_day m2 d2) <->
  date_lt y1 m1 d1 y2 m2 d2.
Proof.
  intros [H1 H1']%valid_month [H2 H2']%valid_month.
  destruct (month_table m1 d1 H1 H1') as (E1 & _ & F1 & _ & L1 & _). destruct (month_table m2 d2 H2 H2') as (E2 & _ & F2 & _ & L2 & _).
  assert (march_day m1 d1 < march_day m2 d2 <-> march_month m1 < march_month m2 \/ (march_month m1 = march_month m2 /\ d1 < d2)) as HD.
  { set (D1 := march_day m1 d1) in *. set (D2 := march_day m2 d2) in *. rewrite <-F1, <-F2, <-E1, <-E2. zlia. }
  rewrite HD. unfold date_lt, march_year, march_month. destruct (decide (2 < m1)), (decide (2 < m2)); lia.
Qed.

Lemma Date2J_nonneg y m d : valid_date y m d -> -4712 <= y ->
  PostgresDate2J y m d = days (march_year y m) (march_day m d) - 32044 /\ 0 <= PostgresDate2J y m d < 2 ^ 24.
Proof.
  intros Hv Hy. rewrite (Date2J_valid y m d Hv). assert (0 <= days (march_year y m) (march_day m d) - 32044 < 2 ^ 24) as Hb.
  { destruct (valid_march _ _ _ Hv) as (HY & HD & _). unfold days in *. destruct (valid_month _ _ _ Hv) as [Hm Hd].
    destruct (month_table m d Hm Hd) as (_ & _ & _ & _ & H306 & _). unfold march_year in *. destruct (decide (2 < m)); zlia. }
  rewrite u32_small' by lia. done.
Qed.

(** C38: every date of the Gregorian calendar up to the year 9999 can be built, and the
    year, month and day that [SplitJulianDate] extracts are the ones it was built
    from; the conversions [PostgresDate2J] and [PostgresJ2Date] are inverse on every
    date from year -4799 to 32767. *)
Theorem date_roundtrip (y m d : Z) :
  valid_date y m d ->
  YMDFromDate (DateFromYMD (YMD y m d)) = YMD y m d /\
  (y <= 9999 -> exists date, Date.FromYMD y m d = Some date /\ Date.ExtractComponents date = (y, m, d) /\
                              Date.IsValid date = true).
Proof.
  intros Hv. pose proof (J2Date_Date2J y m d Hv) as E. split; [done|]. intros Hy.
  destruct (valid_month _ _ _ Hv) as [Hm _]. pose proof (month_length_bound y m). destruct Hv as (_ & _ & Hd).
  assert (Date.IsValidJulianDate y m d = true) as Hb by (unfold Date.IsValidJulianDate; rewrite !bool_decide_eq_true_2 by lia; done).
  exists (Date.mk (PostgresDate2J y m d)). unfold Date.FromYMD, Date.IsValid, Date.ExtractComponents, Date.SplitJulianDate.
  cbn [Date.value_]. rewrite Hb, E. done.
Qed.

Lemma date_roundtrip_witness : YMDFromDate (DateFromYMD (YMD 2000 2 29)) = YMD 2000 2 29.
Proof. apply (date_roundtrip 2000 2 29). vm_compute. repeat split; congruence. Defined.

(** The order of [Date] values is the order of the calendar: for dates from year
    -4712 on, comparing the Julian day numbers compares (year, month, day). *)
Theorem date_order (y1 m1 d1 y2 m2 d2 : Z) :
  valid_date y1 m1 d1 -> valid_date y2 m2 d2 -> -4712 <= y1 -> -4712 <= y2 ->
  let a := Date.mk (DateFromYMD (YMD y1 m1 d1)) in let b := Date.mk (DateFromYMD (YMD y2 m2 d2)) in
  (Date.ltb a b = true <-> date_lt y1 m1 d1 y2 m2 d2) /\ (Date.eqb a b = true <-> (y1, m1, d1) = (y2, m2, d2)).
Proof.
  intros H1 H2 Hy1 Hy2. destruct (Date2J_nonneg _ _ _ H1 Hy1) as [E1 _], (Date2J_nonneg _ _ _ H2 Hy2) as [E2 _].
  cbv zeta. unfold Date.ltb, Date.eqb, DateFromYMD. cbn [Date.value_ year month day]. rewrite !bool_decide_eq_true. split.
  - rewrite E1, E2, <-(march_lex _ _ _ _ _ _ H1 H2), <-(days_lt _ _ _ _ (valid_march _ _ _ H1) (valid_march _ _ _ H2)). lia.
  - split; [|by intros [= -> -> ->]]. intros E. pose proof (J2Date_Date2J _ _ _ H1) as R. rewrite E, J2Date_Date2J in R by done.
    by injection R as -> -> ->.
Qed.

Lemma date_order_witness : Date.ltb (Date.mk (DateFromYMD (YMD 1999 12 31))) (Date.mk (DateFromYMD (YMD 2000 1 1))) = true.
Proof.
  apply (date_order 1999 12 31 2000 1 1).
  - vm_compute. repeat split; congruence.
  - vm_compute. repeat split; congruence.
  - vm_compute. congruence.
  - vm_compute. congruence.
  - left. reflexivity.
Defined.

(** A timestamp built from a date of year -4712 or later and a time of day converts
    back to that date, and what it has beyond midnight is the time of day; the
    timestamp of the date alone is its midnight. *)
Theorem timestamp_roundtrip (y m d hour minute sec usec : Z) :
  valid_date y m d -> -4712 <= y -> 0 <= hour < 24 -> 0 <= minute < 60 -> 0 <= sec < 60 -> 0 <= usec < 1000000 ->
  let date := DateFromYMD (YMD y m d) in
  let ts := TimestampFromHMSu y m d hour minute sec usec in
  DateFromTimestamp ts = date /\ DateFromTimestamp (Date.ConvertToTimestamp (Date.mk date)) = date /\
  ts - Date.ConvertToTimestamp (Date.mk date) = ((hour * 60 + minute) * 60 + sec) * 1000000 + usec.
Proof.
  intros Hv Hy Hh Hm Hs Hu. destruct (Date2J_nonneg _ _ _ Hv Hy) as [_ Hj]. cbv zeta.
  assert (make_ymd y m d = YMD y m d) as Em.
  { pose proof (month_length_bound y m). destruct (valid_month _ _ _ Hv) as [? _]. destruct Hv as (? & _ & ?). unfold make_ymd.
    f_equal; [apply wraps_small; [lia|]; unfold is_sint; lia|apply wrapu_small; unfold is_uint; lia..]. }
  unfold TimestampFromHMSu. rewrite Em. unfold DateFromTimestamp, Date.ConvertToTimestamp, TimestampFromDate, DateFromYMD.
  cbn [Date.value_ year month day]. set (j := PostgresDate2J y m d) in *. change (2 ^ 24) with 16777216 in Hj.
  change MICROSECONDS_PER_DAY with 86400000000. change MICROSECONDS_PER_HOUR with 3600000000.
  change MICROSECONDS_PER_MINUTE with 60000000. change MICROSECONDS_PER_SECOND with 1000000.
  change Date.K_US_PER_DAY with 86400000000.
  assert (forall z, 0 <= z < 2 ^ 64 -> u64 z = z) as Hs64 by (intros; by apply wrapu_small).
  rewrite (Hs64 (j * _)), (Hs64 (hour * _)), (Hs64 (minute * _)), (Hs64 (sec * _)) by lia.
  rewrite (Hs64 (j * _ + hour * _)) by lia. rewrite (Hs64 (_ + minute * _)) by lia. rewrite (Hs64 (_ + sec * _)) by lia.
  rewrite (Hs64 (_ + usec)) by lia.
  set (x := j * 86400000000 + hour * 3600000000 + minute * 60000000 + sec * 1000000 + usec).
  assert (x / 86400000000 = j) as -> by (unfold x; zlia). rewrite Z.div_mul, u32_small' by lia.
  split; [done|]. split; [done|]. unfold x. lia.
Qed.

Lemma timestamp_roundtrip_witness : DateFromTimestamp (TimestampFromHMSu 2020 2 29 23 59 59 999999) = DateFromYMD (YMD 2020 2 29).
Proof.
  apply (timestamp_roundtrip 2020 2 29 23 59 59 999999); [vm_compute; repeat split; congruence|vm_compute; congruence|split; reflexivity || (vm_compute; congruence)..].
Defined.

(** [IsValidDate] accepts days that the month does not have: the 31 February it
    accepts is the same date as 3 March, 2 March in a leap year. *)
Theorem invalid_day_accepted (y : Z) :
  -4799 <= y <= 9999 ->
  Date.IsValidDate y 2 31 = true /\ Date.FromYMD y 2 31 = Date.FromYMD y 3 (if leap y then 2 else 3) /\ ~ valid_date y 2 31.
Proof.
  intros Hy. assert (forall d, 1 <= d <= 31 -> forall m, 1 <= m <= 12 -> Date.IsValidJulianDate y m d = true) as Hb.
  { intros. unfold Date.IsValidJulianDate. by rewrite !bool_decide_eq_true_2 by lia. }
  split; [by apply Hb|]. split; [|intros (_ & _ & H); unfold month_length in H; rewrite decide_True in H by done; destruct (leap y); lia].
  unfold Date.FromYMD. rewrite !Hb by (try destruct (leap y); lia). do 2 f_equal. unfold Date.BuildJulianDate.
  rewrite !Date2J_days by (try destruct (leap y); lia). f_equal. pose proof (leap_spec y) as Hleap.
  unfold march_year, march_day, days. change (march_month 2) with 15. change (march_month 3) with 4.
  rewrite decide_False, decide_True by lia. destruct (leap y).
  - destruct Hleap as [[? ?] _]; [done|]. zlia.
  - destruct (decide (y `mod` 4 = 0)) as [E4|]; [|zlia].
    destruct (decide (y `mod` 100 <> 0 \/ y `mod` 400 = 0)) as [?|?]; [by assert (false = true) by (apply Hleap; done)|]. zlia.
Qed.

Lemma invalid_day_accepted_witness : Date.FromYMD 2021 2 31 = Date.FromYMD 2021 3 3.
Proof. apply (invalid_day_accepted 2021). vm_compute. split; congruence. Defined.
