(* ===== verification/IndexKeys.v ===== *)
(** * Index keys

    [storage/index]: [IndexMetadata] (index_metadata.h) precomputes the layout of an
    index's key rows; [CompactIntsKey] (compact_ints_key.h) packs integer attributes
    into bytes that memcmp orders; [HashKey] (hash_key.h) copies them.  Keys are made
    from projected rows, as [ProjectedRow] models them.

    The equivalence: the byte order of packed keys is the lexicographic order of the
    attributes' values. *)

From S2P Require Import Prelude Bitmap Layout TupleAccess ProjectedRow Varlen.
Import ProjectedRowInitializer.

(** ** Types and schemas *)

Inductive TypeId :=
| INVALID | BOOLEAN | TINYINT | SMALLINT | INTEGER | BIGINT | DECIMAL | TIMESTAMP | DATE
| VARCHAR | VARBINARY | PARAMETER_OFFSET.

#[export] Instance TypeId_eq_dec : EqDecision TypeId.
Proof. solve_decision. Defined.

(** [TypeUtil::GetTypeSize]; [None] where it throws. *)
Definition GetTypeSize (type_id : TypeId) : option Z :=
  match type_id with
  | BOOLEAN | TINYINT => Some 1
  | SMALLINT => Some 2
  | INTEGER | DATE | PARAMETER_OFFSET => Some 4
  | BIGINT | DECIMAL | TIMESTAMP => Some 8
  | VARCHAR | VARBINARY => Some VARLEN_COLUMN
  | INVALID => None
  end.

Inductive IndexType := BWTREE | HASHMAP | BPLUSTREE.
Inductive IndexKeyKind := COMPACTINTSKEY | GENERICKEY | HASHKEY.

(** [IndexSchema::Column], its packed type unpacked. *)
Record Column := Col { Oid : Z; Type_ : TypeId; Nullable : bool; MaxVarlenSize : Z }.
Record IndexSchema := Schema { GetColumns : list Column; SchemaType : IndexType; Unique : bool }.

Definition NUMERIC_KEY_TYPES : list TypeId := [TINYINT; SMALLINT; INTEGER; BIGINT].

(** ** IndexMetadata *)

Module IndexMetadata.

Definition ComputeAttributeSizes (cols : list Column) : option (list Z) :=
  mapM (fun key => GetTypeSize (Type_ key)) cols.

Definition ComputeKeySize (cols : list Column) : option Z :=
  foldl (fun acc key => key_size ← acc; size ← GetTypeSize (Type_ key); Some (u16 (key_size + AttrSizeBytes size)))
    (Some 0) cols.

(** Varlens count as a size field and their content, a [VarlenEntry] at least. *)
Definition inlined_size (key : Column) : option Z :=
  match Type_ key with
  | VARBINARY | VARCHAR => Some (Z.max (u16 (MaxVarlenSize key + 4)) 16)
  | t => GetTypeSize t
  end.
Definition ComputeInlinedAttributeSizes (cols : list Column) : option (list Z) := mapM inlined_size cols.

Definition ComputeMustInlineVarlen (cols : list Column) : bool :=
  existsb (fun key => match Type_ key with
                      | VARBINARY | VARCHAR => bool_decide (InlineThreshold < MaxVarlenSize key)
                      | _ => false
                      end) cols.

(** The exclusive scan, in 8-bit entries; one entry even for no attribute. *)
Fixpoint scan_from (acc : Z) (attr_sizes : list Z) : list Z :=
  match attr_sizes with
  | [] => []
  | s :: rest => acc :: scan_from (u8 (acc + s)) rest
  end.
Definition ComputeCompactIntsOffsets (attr_sizes : list Z) : list Z :=
  match attr_sizes with [] => [0] | _ => scan_from 0 attr_sizes end.

(** [std::stable_sort] by descending size: an element goes in front of the first one
    of those that followed it that is not larger. *)
Fixpoint stable_insert (x : Z * Z) (sorted : list (Z * Z)) : list (Z * Z) :=
  match sorted with
  | [] => [x]
  | y :: rest => if decide (x.1 < y.1) then y :: stable_insert x rest else x :: sorted
  end.
Definition stable_sort (size_idx : list (Z * Z)) : list (Z * Z) := foldr stable_insert [] size_idx.

Definition size_idx (attr_sizes : list Z) : list (Z * Z) := imap (fun i s => (s, Z.of_nat i)) attr_sizes.

(** [pr_offsets[size_idx[i].second] = i] for ascending [i]. *)
Fixpoint read_off (i : Z) (sorted : list (Z * Z)) (pr_offsets : list Z) : list Z :=
  match sorted with
  | [] => pr_offsets
  | x :: rest => read_off (i + 1) rest (<[Z.to_nat x.2 := i]> pr_offsets)
  end.
Definition ComputePROffsets (attr_sizes : list Z) : list Z :=
  read_off 0 (stable_sort (size_idx attr_sizes)) (replicate (length attr_sizes) 0).

Definition ComputeKeyOidToOffset (cols : list Column) (pr_offsets : list Z) : gmap Z Z :=
  foldl (fun m '(key, off) => <[Oid key := off]> m) ∅ (zip cols pr_offsets).

Definition GetRealAttrSizes (attr_sizes : list Z) : list Z := AttrSizeBytes <$> attr_sizes.

Record IndexMetadata := Metadata {
  key_schema_ : IndexSchema;
  attr_sizes_ : list Z;
  inlined_attr_sizes_ : list Z;
  must_inline_varlen_ : bool;
  compact_ints_offsets_ : list Z;
  key_oid_to_offset_ : gmap Z Z;
  initializer_ : ProjectedRowInitializer;
  inlined_initializer_ : ProjectedRowInitializer;
  key_size_ : Z
}.

(** The constructor; [None] when a type has no size. *)
Definition make (key_schema : IndexSchema) : option IndexMetadata :=
  let cols := GetColumns key_schema in
  attr_sizes ← ComputeAttributeSizes cols;
  inlined ← ComputeInlinedAttributeSizes cols;
  key_size ← ComputeKeySize cols;
  let pr_offsets := ComputePROffsets inlined in
  Some (Metadata key_schema attr_sizes inlined (ComputeMustInlineVarlen cols) (ComputeCompactIntsOffsets attr_sizes)
    (ComputeKeyOidToOffset cols pr_offsets) (Create_offsets (GetRealAttrSizes attr_sizes) pr_offsets)
    (Create_offsets inlined pr_offsets) key_size).

(** The examples of the source's comments. *)
Example offsets_examples :
  ComputeCompactIntsOffsets [4; 4; 8; 1; 2] = [0; 4; 8; 16; 17] /\ ComputePROffsets [4; 4; 8; 1; 2] = [1; 2; 0; 4; 3].
Proof. split; reflexivity. Qed.

End IndexMetadata.

(** ** CompactIntsKey *)

Module CompactIntsKey.

(** The sizes the switches of the key know; [None] where they throw. *)
Definition int_size (attr_size : Z) : option nat :=
  if decide (attr_size = 1) then Some 1%nat else if decide (attr_size = 2) then Some 2%nat
  else if decide (attr_size = 4) then Some 4%nat else if decide (attr_size = 8) then Some 8%nat else None.

(** [SignFlip] on an integer of [w] bits. *)
Definition SignFlip (w data : Z) : Z :=
  let mask := wraps w (Z.shiftl 1 (w - 1)) in wraps w (Z.lxor data mask).

(** [htobe16], [htobe32], [htobe64] and their inverses on a little-endian host. *)
Definition byte_swap (n : nat) (data : Z) : Z := le_val (rev (le_bytes n data)).

Definition ToBigEndian (n : nat) (data : Z) : Z :=
  let data := wrapu (8 * Z.of_nat n) data in if decide (n = 1%nat) then data else byte_swap n data.
Definition ToHostEndian (n : nat) (data : Z) : Z :=
  let data := wrapu (8 * Z.of_nat n) data in if decide (n = 1%nat) then data else byte_swap n data.

Section key.
Context (KeySize : nat).

Definition AddUnsignedInteger (n : nat) (data offset : Z) (key_data : list Z) : option (list Z) :=
  let big_endian := ToBigEndian n data in
  if decide (offset + Z.of_nat n <= Z.of_nat KeySize) then Some (wr key_data offset (le_bytes n big_endian)) else None.

Definition AddInteger (n : nat) (data offset : Z) (key_data : list Z) : option (list Z) :=
  let sign_flipped := SignFlip (8 * Z.of_nat n) data in AddUnsignedInteger n sign_flipped offset key_data.

Definition GetInteger (n : nat) (offset : Z) (key_data : list Z) : Z :=
  let w := 8 * Z.of_nat n in
  let host_endian := ToHostEndian n (wraps w (le_val (rd key_data offset (Z.of_nat n)))) in
  SignFlip w (wraps w host_endian).

Definition CopyAttrFromProjection (from : list Z) (projection_list_offset attr_size compact_ints_offset : Z)
    (key_data : list Z) : option (list Z) :=
  stored_attr ← ProjectedRow.AccessWithNullCheck from projection_list_offset;
  n ← int_size attr_size;
  let data := wraps (8 * Z.of_nat n) (le_val (rd from stored_attr (Z.of_nat n))) in
  AddInteger n data compact_ints_offset key_data.

(** The loop over the attributes from the [i]-th on, [k] of them. *)
Fixpoint copy_attrs (from : list Z) (m : IndexMetadata.IndexMetadata) (k i : nat) (key_data : list Z) : option (list Z) :=
  match k with
  | O => Some key_data
  | S k =>
    attr_size ← IndexMetadata.attr_sizes_ m !! i;
    offset ← IndexMetadata.compact_ints_offsets_ m !! i;
    if decide (offset + attr_size <= Z.of_nat KeySize) then
      key_data ← CopyAttrFromProjection from (u16 (ProjectedRow.ColumnId from (Z.of_nat i))) (u8 attr_size) offset key_data;
      copy_attrs from m k (S i) key_data
    else None
  end.

(** [None] where an assertion fails or a switch throws. *)
Definition SetFromProjectedRow (from : list Z) (m : IndexMetadata.IndexMetadata) (num_attrs : nat) : option (list Z) :=
  let n := ProjectedRow.NumColumns from in
  let attr_sizes := IndexMetadata.attr_sizes_ m in
  if decide (Z.of_nat (length attr_sizes) = n /\
             length attr_sizes = length (IndexMetadata.compact_ints_offsets_ m) /\ attr_sizes <> [] /\
             (0 < num_attrs)%nat /\ Z.of_nat num_attrs <= n)
  then
    if forallb (fun i => negb (ProjectedRow.IsNull from (Z.of_nat i))) (seq 0 num_attrs) &&
       forallb (fun c => negb (Nullable c)) (GetColumns (IndexMetadata.key_schema_ m))
    then copy_attrs from m num_attrs 0 (replicate KeySize 0)
    else None
  else None.

(** The loop of [PartialLessThan] from the [i]-th attribute on. *)
Fixpoint partial_less_than (lhs rhs : list Z) (m : IndexMetadata.IndexMetadata) (k i : nat) : option bool :=
  match k with
  | O => Some true
  | S k =>
    attr_size ← IndexMetadata.attr_sizes_ m !! i;
    offset ← IndexMetadata.compact_ints_offsets_ m !! i;
    n ← int_size attr_size;
    let cur := GetInteger n offset lhs in
    let other := GetInteger n offset rhs in
    if decide (cur < other) then Some true
    else if decide (other < cur) then Some false
    else partial_less_than lhs rhs m k (S i)
  end.
Definition PartialLessThan (lhs rhs : list Z) (m : IndexMetadata.IndexMetadata) (num_attrs : nat) : option bool :=
  partial_less_than lhs rhs m num_attrs 0.

(** [std::equal_to] and [std::less] *)
Definition equal_to (lhs rhs : list Z) : bool := bool_decide (memcmp lhs rhs KeySize = 0).
Definition less (lhs rhs : list Z) : bool := bool_decide (memcmp lhs rhs KeySize < 0).

End key.

Example key_example :
  AddInteger 8 4 (-2) 0 (replicate 8 0) = Some [127; 255; 255; 254; 0; 0; 0; 0] /\
  GetInteger 4 0 [127; 255; 255; 254; 0; 0; 0; 0] = -2.
Proof. split; reflexivity. Qed.

End CompactIntsKey.

(** ** HashKey *)

Module HashKey.

Definition smallest_attr_size (attr_sizes : list Z) : Z := u8 (foldr Z.min (attr_sizes !!! 0%nat) attr_sizes).

(** The assertion on padding: the last value ends [key_size] bytes after the first begins. *)
Definition no_padding (from : list Z) (m : IndexMetadata.IndexMetadata) : bool :=
  match ProjectedRow.AccessWithNullCheck from 0, ProjectedRow.AccessWithNullCheck from (ProjectedRow.NumColumns from - 1) with
  | Some start_address, Some last =>
    bool_decide (last + smallest_attr_size (IndexMetadata.attr_sizes_ m) = start_address + IndexMetadata.key_size_ m)
  | _, _ => false
  end.

(** [None] where an assertion fails. *)
Definition SetFromProjectedRow (KeySize : nat) (from : list Z) (m : IndexMetadata.IndexMetadata) (num_attrs : nat) : option (list Z) :=
  if forallb (fun i => negb (ProjectedRow.IsNull from (Z.of_nat i))) (seq 0 (Z.to_nat (ProjectedRow.NumColumns from))) &&
     forallb (fun c => negb (Nullable c)) (GetColumns (IndexMetadata.key_schema_ m)) && no_padding from m
  then
    first ← ProjectedRow.AccessWithNullCheck from 0;
    Some (wr (replicate KeySize 0) 0 (rd from first (IndexMetadata.key_size_ m)))
  else None.

Definition equal_to (KeySize : nat) (lhs rhs : list Z) : bool := bool_decide (memcmp lhs rhs KeySize = 0).

End HashKey.

(** [IndexBuilder::Build]'s test: no attribute nullable, all of them integers. *)
Definition simple_key (key_cols : list Column) : bool :=
  forallb (fun attr => negb (Nullable attr) && bool_decide (Type_ attr ∈ NUMERIC_KEY_TYPES)) key_cols.

(** ** Byte order *)

Lemma lex_app a b x y : length a = length b -> lex_lt (a ++ x) (b ++ y) <-> lex_lt a b \/ (a = b /\ lex_lt x y).
Proof.
  revert b. induction a as [|c a IH]; intros [|d b] Hl; try done.
  - split; [by right|]. intros [H|[_ H]]; [inversion H|done].
  - injection Hl as Hl. cbn. split.
    + inversion 1; subst; [left; by constructor|]. apply IH in H1 as [H1|[-> H1]]; [left; by constructor|by right|done].
    + intros [H|[[= -> ->] H]].
      * inversion H; subst; [by constructor|]. apply lex_tail, IH; [done|by left].
      * apply lex_tail, IH; [done|by right].
Qed.

(** On blocks of one length memcmp's sign is the lexicographic order. *)
Lemma memcmp_lt a : forall b, length a = length b -> memcmp a b (length a) < 0 <-> lex_lt a b.
Proof.
  intros b Hl. rewrite <-memcmp_lex. cbv zeta. rewrite Hl, Nat.min_id.
  case_decide as E; rewrite bool_decide_eq_true; [rewrite E; lia|done].
Qed.

Lemma le_val_cons x bs : is_byte x -> le_val (x :: bs) = x + 256 * le_val bs.
Proof.
  intros Hx. unfold le_val. cbn [little_endian_to_Z]. rewrite Z.lor_comm, lor_shift_add by (done || lia).
  rewrite Z.shiftl_mul_pow2 by lia. change (2 ^ 8) with 256. lia.
Qed.

(** Big-endian bytes order as the numbers. *)
Lemma big_endian_lt bs : forall bs', Forall is_byte bs -> Forall is_byte bs' -> length bs = length bs' ->
  lex_lt (rev bs) (rev bs') <-> le_val bs < le_val bs'.
Proof.
  induction bs as [|x bs IH]; intros [|y bs'] Hb Hb' Hl; try done; [split; [inversion 1|done]|]. injection Hl as Hl.
  apply Forall_cons in Hb as [Hx Hb], Hb' as [Hy Hb']. cbn [rev]. rewrite lex_app by (by rewrite !length_rev).
  rewrite IH, !le_val_cons by done. unfold is_uint in *. pow2. split.
  - intros [H|[E H]]; [lia|]. assert (bs = bs') as -> by (rewrite <-(rev_involutive bs), E; apply rev_involutive).
    inversion H as [|? ? ? ? H'|? ? ? H']; [lia|inversion H'].
  - intros H. destruct (Z.lt_trichotomy (le_val bs) (le_val bs')) as [|[E|]]; [by left| |lia]. right. split.
    + f_equal. rewrite <-(le_bytes_val bs), <-(le_bytes_val bs') by done. by rewrite E, Hl.
    + constructor. lia.
Qed.

(** ** Sign flip *)

Lemma lxor_top k u : 0 <= k -> 0 <= u < 2 ^ k -> Z.lxor u (2 ^ k) = u + 2 ^ k.
Proof.
  intros Hk Hu. symmetry. apply Z.add_nocarry_lxor. apply Z.bits_inj'. intros n Hn. rewrite Z.land_spec, Z.bits_0.
  destruct (decide (n < k)); [by rewrite Z.pow2_bits_false, andb_false_r by lia|].
  by rewrite (proj1 (is_uint_bits k u Hk) Hu n) by lia.
Qed.

Lemma lxor_top_high k u : 0 <= k -> 2 ^ k <= u < 2 * 2 ^ k -> Z.lxor u (2 ^ k) = u - 2 ^ k.
Proof.
  intros Hk Hu. replace u with (u - 2 ^ k + 2 ^ k) at 1 by lia. rewrite <-lxor_top by lia.
  by rewrite Z.lxor_assoc, Z.lxor_nilpotent, Z.lxor_0_r.
Qed.

Lemma wrapu_lxor w a b : 0 <= w -> wrapu w (Z.lxor a b) = Z.lxor (wrapu w a) (wrapu w b).
Proof.
  intros Hw. unfold wrapu. apply Z.bits_inj'. intros n Hn. rewrite Z.lxor_spec. destruct (decide (n < w)).
  - by rewrite !Z.mod_pow2_bits_low, Z.lxor_spec by lia.
  - by rewrite !Z.mod_pow2_bits_high by lia.
Qed.

(** Flipping the sign bit shifts the signed range onto the unsigned one... *)
Lemma SignFlip_unsigned w v : 1 < w -> is_sint w v -> wrapu w (CompactIntsKey.SignFlip w v) = v + 2 ^ (w - 1).
Proof.
  intros Hw [H1 H2]. pose proof (pow2_half w ltac:(lia)) as Hp. unfold CompactIntsKey.SignFlip.
  rewrite Z.shiftl_1_l, wrapu_wraps, wrapu_lxor, wrapu_wraps by lia. rewrite (wrapu_small w (2 ^ (w - 1))) by (unfold is_uint; lia).
  destruct (decide (0 <= v)).
  - rewrite wrapu_small by (unfold is_uint; lia). apply lxor_top; lia.
  - replace (wrapu w v) with (v + 2 ^ w).
    + rewrite lxor_top_high by lia. lia.
    + unfold wrapu. rewrite <-(Z.mod_small (v + 2 ^ w) (2 ^ w)) by lia. by rewrite <-Zplus_mod_idemp_r, Z_mod_same_full, Z.add_0_r.
Qed.

Lemma SignFlip_bound w v : 0 < w -> is_sint w (CompactIntsKey.SignFlip w v).
Proof. intros. by apply wraps_bound. Qed.

(** ... and back. *)
Lemma SignFlip_involutive w v : 1 < w -> is_sint w v -> CompactIntsKey.SignFlip w (CompactIntsKey.SignFlip w v) = v.
Proof.
  intros Hw Hv. set (u := CompactIntsKey.SignFlip w v). assert (is_sint w u) as Hu by (apply SignFlip_bound; lia).
  pose proof (SignFlip_unsigned w v Hw Hv) as E1. pose proof (SignFlip_unsigned w u Hw Hu) as E2. fold u in E1.
  assert (is_sint w (CompactIntsKey.SignFlip w u)) as Hf by (apply SignFlip_bound; lia).
  pose proof (pow2_half w ltac:(lia)).
  rewrite <-(wraps_small w v), <-(wraps_small w _ ltac:(lia) Hf), <-(wraps_wrapu w (CompactIntsKey.SignFlip w u)) by (done || lia).
  rewrite E2, <-(wraps_wrapu w v), <-(wraps_wrapu w (u + _)). f_equal.
  rewrite <-wrapu_add_l, E1. unfold wrapu. replace (v + 2 ^ (w - 1) + 2 ^ (w - 1)) with (v + 1 * 2 ^ w) by lia. by rewrite Z_mod_plus_full.
Qed.

(** ** Packed attributes *)

(** The bytes of one attribute: its value moved to the unsigned range, big-endian. *)
Definition packed_attr (n : nat) (v : Z) : list Z := rev (le_bytes n (v + 2 ^ (8 * Z.of_nat n - 1))).

Definition packed (ns : list nat) (vs : list Z) : list Z := concat (zip_with packed_attr ns vs).

(** Values that fit their attributes. *)
Definition fits (ns : list nat) (vs : list Z) : Prop := Forall2 (fun n v => (0 < n)%nat /\ is_sint (8 * Z.of_nat n) v) ns vs.

Lemma le_bytes_wrapu n z : le_bytes n (wrapu (8 * Z.of_nat n) z) = le_bytes n z.
Proof. rewrite <-le_val_bytes. rewrite <-(length_le_bytes n z) at 1. apply le_bytes_val, le_bytes_byte. Qed.

Lemma length_packed_attr n v : length (packed_attr n v) = n.
Proof. unfold packed_attr. by rewrite length_rev, length_le_bytes. Qed.

Lemma rev_bytes bs : Forall is_byte bs -> Forall is_byte (rev bs).
Proof. apply List.Forall_rev. Qed.

Lemma rev_byte u : rev (le_bytes 1 u) = le_bytes 1 u.
Proof. pose proof (length_le_bytes 1 u). by destruct (le_bytes 1 u) as [|? [|]]. Qed.

(** Reversed bytes are bytes of a number. *)
Lemma le_bytes_rev n u : le_bytes n (le_val (rev (le_bytes n u))) = rev (le_bytes n u).
Proof. rewrite <-(length_le_bytes n u) at 1. rewrite <-length_rev. apply le_bytes_val, rev_bytes, le_bytes_byte. Qed.

Lemma swapped_bytes n data : (0 < n)%nat -> le_bytes n (CompactIntsKey.ToBigEndian n data) = rev (le_bytes n data).
Proof.
  intros Hn. unfold CompactIntsKey.ToBigEndian, CompactIntsKey.byte_swap. case_decide as E.
  - subst. by rewrite le_bytes_wrapu, rev_byte.
  - by rewrite le_bytes_wrapu, le_bytes_rev.
Qed.

Lemma host_of_swapped n u : (0 < n)%nat ->
  CompactIntsKey.ToHostEndian n (wraps (8 * Z.of_nat n) (le_val (rev (le_bytes n u)))) = wrapu (8 * Z.of_nat n) u.
Proof.
  intros Hn. unfold CompactIntsKey.ToHostEndian, CompactIntsKey.byte_swap. rewrite wrapu_wraps by lia. case_decide as E.
  - subst. by rewrite rev_byte, le_val_bytes, wrapu_wrapu.
  - by rewrite le_bytes_wrapu, le_bytes_rev, rev_involutive, le_val_bytes.
Qed.

Lemma AddInteger_packed KeySize n v offset key_data :
  (0 < n)%nat -> is_sint (8 * Z.of_nat n) v -> offset + Z.of_nat n <= Z.of_nat KeySize ->
  CompactIntsKey.AddInteger KeySize n v offset key_data = Some (wr key_data offset (packed_attr n v)).
Proof.
  intros Hn Hv Ho. unfold CompactIntsKey.AddInteger, CompactIntsKey.AddUnsignedInteger. rewrite decide_True by done.
  do 2 f_equal. rewrite swapped_bytes by done. unfold packed_attr. f_equal.
  rewrite <-le_bytes_wrapu, SignFlip_unsigned by (done || lia). done.
Qed.

Lemma GetInteger_packed n v offset key_data :
  (0 < n)%nat -> is_sint (8 * Z.of_nat n) v -> rd key_data offset (Z.of_nat n) = packed_attr n v ->
  CompactIntsKey.GetInteger n offset key_data = v.
Proof.
  intros Hn Hv E. unfold CompactIntsKey.GetInteger. rewrite E. unfold packed_attr. rewrite host_of_swapped by done.
  set (w := 8 * Z.of_nat n) in *. pose proof (pow2_half w ltac:(lia)) as Hp. destruct Hv as [H1 H2].
  assert (wraps w (wrapu w (v + 2 ^ (w - 1))) = CompactIntsKey.SignFlip w v) as ->; [|apply SignFlip_involutive; [lia|done]].
  rewrite <-SignFlip_unsigned by (unfold is_sint; lia). rewrite wrapu_wrapu, wraps_wrapu. apply wraps_small; [lia|]. apply SignFlip_bound. lia.
Qed.

(** Packed attributes compare as their values. *)
Lemma packed_attr_lt n v v' : (0 < n)%nat -> is_sint (8 * Z.of_nat n) v -> is_sint (8 * Z.of_nat n) v' ->
  lex_lt (packed_attr n v) (packed_attr n v') <-> v < v'.
Proof.
  intros Hn Hv Hv'. unfold packed_attr. rewrite big_endian_lt by (apply le_bytes_byte || by rewrite !length_le_bytes).
  rewrite !le_val_bytes. set (w := 8 * Z.of_nat n) in *. pose proof (pow2_half w ltac:(lia)) as Hp. destruct Hv, Hv'.
  rewrite !wrapu_small by (unfold is_uint; lia). lia.
Qed.

Lemma packed_attr_inj n v v' : (0 < n)%nat -> is_sint (8 * Z.of_nat n) v -> is_sint (8 * Z.of_nat n) v' ->
  packed_attr n v = packed_attr n v' -> v = v'.
Proof.
  intros Hn Hv Hv' E. pose proof (packed_attr_lt n v v' Hn Hv Hv'). pose proof (packed_attr_lt n v' v Hn Hv' Hv).
  rewrite E in *. pose proof (lex_lt_irrefl (packed_attr n v')). destruct (Z.lt_trichotomy v v') as [|[|]]; tauto.
Qed.

Lemma packed_lt ns vs vs' : fits ns vs -> fits ns vs' -> lex_lt (packed ns vs) (packed ns vs') <-> lex_lt vs vs'.
Proof.
  intros H. revert vs'. induction H as [|n v ns vs [Hn Hv] _ IH]; intros vs' H'; inversion H' as [|? v' ? vs'' [_ Hv'] H'']; subst.
  - split; inversion 1.
  - change (packed (n :: ns) (v :: vs)) with (packed_attr n v ++ packed ns vs).
    change (packed (n :: ns) (v' :: vs'')) with (packed_attr n v' ++ packed ns vs'').
    rewrite lex_app, packed_attr_lt, IH by (done || by rewrite !length_packed_attr). split.
    + intros [H|[E H]]; [by constructor|]. apply packed_attr_inj in E as ->; [by constructor|done..].
    + inversion 1; subst; [by left|by right].
Qed.

Lemma packed_inj ns vs vs' : fits ns vs -> fits ns vs' -> packed ns vs = packed ns vs' -> vs = vs'.
Proof.
  intros H H' E. pose proof (packed_lt ns vs vs' H H'). pose proof (packed_lt ns vs' vs H' H). rewrite E in *.
  pose proof (lex_lt_irrefl (packed ns vs')). destruct (lex_total vs vs') as [|[|]]; tauto.
Qed.

(** ** Metadata *)

Section metadata.
Import IndexMetadata.

Lemma stable_insert_Permutation x l : stable_insert x l ≡ₚ x :: l.
Proof. induction l as [|y l IH]; cbn; [done|]. case_decide; [|done]. rewrite IH. constructor. Qed.

Lemma stable_sort_Permutation l : stable_sort l ≡ₚ l.
Proof. induction l as [|x l IH]; [done|]. cbn. by rewrite stable_insert_Permutation, IH. Qed.

Lemma stable_insert_sorted x l :
  StronglySorted (fun a b => b <= a) l.*1 -> StronglySorted (fun a b => b <= a) (stable_insert x l).*1.
Proof.
  induction l as [|y l IH]; cbn; intros H; [repeat constructor|]. inversion H as [|? ? Hs Hf]; subst. case_decide; cbn.
  - constructor; [by apply IH|]. rewrite (stable_insert_Permutation x l). cbn. constructor; [lia|done].
  - constructor; [done|]. constructor; [lia|]. eapply Forall_impl; [exact Hf|]. cbn. lia.
Qed.

Lemma stable_sort_sorted l : StronglySorted (fun a b => b <= a) (stable_sort l).*1.
Proof. induction l as [|x l IH]; [constructor|]. by apply stable_insert_sorted. Qed.

Lemma StronglySorted_mono {A} (R R' : relation A) l : (forall a b, R a b -> R' a b) -> StronglySorted R l -> StronglySorted R' l.
Proof. intros HR. induction 1 as [|a l _ IH Hf]; constructor; [done|]. eapply Forall_impl; [exact Hf|auto]. Qed.

Lemma size_idx_fst sizes : (size_idx sizes).*1 = sizes.
Proof. unfold size_idx. rewrite fmap_imap. apply list_eq. intros i. rewrite list_lookup_imap. by destruct (sizes !! i). Qed.

(** Sorting the sizes and sorting the pairs agree. *)
Lemma sort_sizes_fst sizes : merge_sort Z.ge sizes = (stable_sort (size_idx sizes)).*1.
Proof.
  assert (Transitive Z.ge) by (intros ???; lia). assert (Total Z.ge) by (intros ??; lia).
  assert (AntiSymm (=) Z.ge) by (intros ???; lia).
  apply (StronglySorted_unique Z.ge).
  - apply StronglySorted_merge_sort; apply _.
  - eapply StronglySorted_mono; [|apply stable_sort_sorted]. cbn. lia.
  - by rewrite merge_sort_Permutation, (stable_sort_Permutation (size_idx sizes)), size_idx_fst.
Qed.

Lemma size_idx_lookup sizes i : size_idx sizes !! i = (fun s => (s, Z.of_nat i)) <$> sizes !! i.
Proof. unfold size_idx. by rewrite list_lookup_imap. Qed.

Lemma size_idx_NoDup sizes : NoDup (size_idx sizes).*2.
Proof.
  apply NoDup_alt. intros i j x. rewrite !list_lookup_fmap, !size_idx_lookup.
  destruct (sizes !! i), (sizes !! j); cbn; intros; simplify_eq; lia.
Qed.

Lemma length_read_off l : forall i pr, length (read_off i l pr) = length pr.
Proof. induction l as [|x l IH]; intros i pr; cbn; [done|]. by rewrite IH, length_insert. Qed.

Lemma read_off_other l k : forall i pr, Z.of_nat k ∉ l.*2 -> Forall (fun x => 0 <= x) l.*2 -> read_off i l pr !! k = pr !! k.
Proof.
  induction l as [|x l IH]; intros i pr Hk Hf; cbn; [done|]. cbn in Hk, Hf. apply not_elem_of_cons in Hk as [Hne Hk].
  apply Forall_cons in Hf as [H0 Hf]. rewrite IH by done. apply list_lookup_insert_ne. lia.
Qed.

Lemma read_off_lookup l : forall i pr j x, l !! j = Some x -> NoDup l.*2 -> Forall (fun x => 0 <= x < Z.of_nat (length pr)) l.*2 ->
  read_off i l pr !! Z.to_nat x.2 = Some (i + Z.of_nat j).
Proof.
  induction l as [|y l IH]; intros i pr j x Hj Hn Hf; [done|]. cbn in Hn, Hf. apply NoDup_cons in Hn as [Hy Hn].
  apply Forall_cons in Hf as [H0 Hf]. destruct j as [|j]; cbn in Hj |- *.
  - injection Hj as ->. rewrite read_off_other.
    + rewrite list_lookup_insert_eq by lia. f_equal. lia.
    + by rewrite Z2Nat.id by lia.
    + eapply Forall_impl; [exact Hf|]. cbn. lia.
  - rewrite (IH (i + 1) _ j x Hj Hn); [f_equal; lia|]. by rewrite length_insert.
Qed.

Lemma stable_snd_bound sizes : Forall (fun x => 0 <= x < Z.of_nat (length sizes)) (stable_sort (size_idx sizes)).*2.
Proof.
  rewrite (stable_sort_Permutation (size_idx sizes)). apply Forall_lookup. intros i x. rewrite list_lookup_fmap, size_idx_lookup.
  destruct (sizes !! i) eqn:E; cbn; intros [= <-]. apply lookup_lt_Some in E. lia.
Qed.

(** [pr_offsets[i]] is where attribute [i] ends up in the sorted row. *)
Lemma PROffsets_sorted sizes k s : sizes !! k = Some s ->
  exists j, ComputePROffsets sizes !! k = Some (Z.of_nat j) /\ stable_sort (size_idx sizes) !! j = Some (s, Z.of_nat k).
Proof.
  intros Hk. assert ((s, Z.of_nat k) ∈ stable_sort (size_idx sizes)) as Hin.
  { rewrite (stable_sort_Permutation (size_idx sizes)). apply list_elem_of_lookup_2 with k. by rewrite size_idx_lookup, Hk. }
  apply list_elem_of_lookup_1 in Hin as [j Hj]. exists j. split; [|done].
  pose proof (read_off_lookup (stable_sort (size_idx sizes)) 0 (replicate (length sizes) 0) j _ Hj) as H. cbn [snd] in H.
  rewrite Nat2Z.id, Z.add_0_l in H. apply H; [|rewrite length_replicate; apply stable_snd_bound].
  rewrite (stable_sort_Permutation (size_idx sizes)). apply size_idx_NoDup.
Qed.

Lemma PROffsets_spec sizes k s : sizes !! k = Some s ->
  exists j, ComputePROffsets sizes !! k = Some (Z.of_nat j) /\ (j < length sizes)%nat /\ merge_sort Z.ge sizes !! j = Some s.
Proof.
  intros Hk. destruct (PROffsets_sorted sizes k s Hk) as (j & E & Hj). exists j. rewrite sort_sizes_fst, list_lookup_fmap, Hj. split; [done|].
  split; [|done]. apply lookup_lt_Some in Hj. rewrite (stable_sort_Permutation (size_idx sizes)) in Hj. unfold size_idx in Hj. by rewrite length_imap in Hj.
Qed.

(** No two attributes share a place. *)
Lemma PROffsets_inj sizes k k' p : ComputePROffsets sizes !! k = Some p -> ComputePROffsets sizes !! k' = Some p -> k = k'.
Proof.
  intros Hk Hk'. assert (forall k, is_Some (ComputePROffsets sizes !! k) -> is_Some (sizes !! k)) as Hs.
  { intros x Hx. apply lookup_lt_is_Some. rewrite <-(length_replicate (length sizes) 0), <-(length_read_off (stable_sort (size_idx sizes)) 0). by apply lookup_lt_is_Some. }
  destruct (Hs k) as [s E]; [done|]. destruct (Hs k') as [s' E']; [done|].
  destruct (PROffsets_sorted sizes k s E) as (j & P & J). destruct (PROffsets_sorted sizes k' s' E') as (j' & P' & J').
  assert (j = j') as <- by (rewrite P in Hk; rewrite P' in Hk'; simplify_eq; lia). rewrite J in J'. simplify_eq. lia.
Qed.

(** Every place has an attribute. *)
Lemma PROffsets_surj sizes j : (j < length sizes)%nat ->
  exists k s, sizes !! k = Some s /\ ComputePROffsets sizes !! k = Some (Z.of_nat j) /\ merge_sort Z.ge sizes !! j = Some s.
Proof.
  intros Hj. assert (length (stable_sort (size_idx sizes)) = length sizes) as L.
  { rewrite (stable_sort_Permutation (size_idx sizes)). apply length_imap. }
  destruct (lookup_lt_is_Some_2 (stable_sort (size_idx sizes)) j) as [x Hx]; [lia|].
  assert (x ∈ size_idx sizes) as Hin by (rewrite <-(stable_sort_Permutation (size_idx sizes)); by eapply list_elem_of_lookup_2).
  apply list_elem_of_lookup_1 in Hin as [k Hk]. rewrite size_idx_lookup in Hk. destruct (sizes !! k) as [s|] eqn:Es; [|done]. injection Hk as <-.
  exists k, s. split; [done|]. destruct (PROffsets_sorted sizes k s Es) as (j' & E & Hj'). rewrite E. rewrite sort_sizes_fst, list_lookup_fmap, Hx.
  split; [|done]. do 2 f_equal. assert (NoDup (stable_sort (size_idx sizes)).*2) as Hnd.
  { rewrite (stable_sort_Permutation (size_idx sizes)). apply size_idx_NoDup. }
  rewrite NoDup_alt in Hnd. apply (Hnd j' j (Z.of_nat k)); by rewrite list_lookup_fmap, ?Hj', ?Hx.
Qed.

Lemma length_PROffsets sizes : length (ComputePROffsets sizes) = length sizes.
Proof. unfold ComputePROffsets. by rewrite length_read_off, length_replicate. Qed.

(** The arguments of the row initializers are as their constructor expects them. *)
Lemma row_args_sizes sizes : sizes <> [] -> Z.of_nat (length sizes) <= MAX_COL -> Forall value_size sizes ->
  row_args (merge_sort Z.ge sizes) (ComputePROffsets sizes).
Proof.
  intros Hne Hm Hc. pose proof (merge_sort_Permutation Z.ge sizes) as HP. split_and!.
  - intros E. rewrite E in HP. by apply Permutation_nil_l in HP.
  - by rewrite length_PROffsets, HP.
  - by rewrite HP.
  - rewrite sort_sizes_fst. apply stable_sort_sorted.
  - by rewrite HP.
  - apply Forall_lookup. intros k p Hk. assert (k < length sizes)%nat as Hl by (rewrite <-length_PROffsets; by eapply lookup_lt_Some).
    apply lookup_lt_is_Some in Hl as [s Hs]. destruct (PROffsets_spec sizes k s Hs) as (j & E & Hj & _).
    rewrite E in Hk. injection Hk as <-. unfold MAX_COL in Hm. unfold is_uint. lia.
Qed.

Definition total (sizes : list Z) : Z := foldr Z.add 0 sizes.

Lemma total_nonneg sizes : Forall (fun s => 0 <= s) sizes -> 0 <= total sizes.
Proof. unfold total. induction 1; cbn; lia. Qed.

Lemma total_app l k : total (l ++ k) = total l + total k.
Proof. unfold total. induction l as [|x l IH]; cbn; lia. Qed.

Lemma total_Permutation l k : l ≡ₚ k -> total l = total k.
Proof. unfold total. induction 1; cbn; lia. Qed.

(** The offsets of packed attributes, while they fit in 8 bits. *)
Lemma scan_from_lookup sizes : forall acc i s, Forall (fun s => 0 <= s) sizes -> 0 <= acc -> acc + total sizes < 256 ->
  sizes !! i = Some s -> scan_from acc sizes !! i = Some (acc + total (take i sizes)).
Proof.
  induction sizes as [|a sizes IH]; intros acc i s Hf H0 Hb Hi; [done|]. apply Forall_cons in Hf as [Ha Hf].
  pose proof (total_nonneg sizes Hf). cbn [total foldr] in Hb. fold (total sizes) in Hb. destruct i as [|i]; cbn [scan_from lookup list_lookup take].
  - unfold total. cbn. f_equal. lia.
  - cbn in Hi. change (scan_from (u8 (acc + a)) sizes !! i = Some (acc + total (a :: take i sizes))).
    rewrite (wrapu_small 8) by (unfold is_uint; pow2; lia). rewrite (IH (acc + a) i s) by (done || lia). unfold total. cbn. f_equal. lia.
Qed.

Lemma length_scan_from sizes : forall acc, length (scan_from acc sizes) = length sizes.
Proof. induction sizes as [|s sizes IH]; intros acc; cbn; [done|]. by rewrite IH. Qed.

End metadata.

(** ** Keys of simple schemas *)

Lemma wr_pad pre bs m : (length bs <= m)%nat ->
  wr (pre ++ replicate m 0) (Z.of_nat (length pre)) bs = pre ++ bs ++ replicate (m - length bs) 0.
Proof.
  intros Hm. unfold wr, splice. rewrite Nat2Z.id, take_app_length, length_app, length_replicate. f_equal.
  rewrite take_ge by lia. f_equal. rewrite drop_app_ge, drop_replicate by lia. f_equal. lia.
Qed.

(** An attribute with the smallest value of its type is all zeros. *)
Lemma packed_attr_min n : packed_attr n (- 2 ^ (8 * Z.of_nat n - 1)) = replicate n 0.
Proof.
  unfold packed_attr. rewrite Z.add_opp_diag_l. assert (le_bytes n 0 = replicate n 0) as ->.
  - rewrite <-(length_replicate n 0) at 1. rewrite <-le_bytes_val by (apply Forall_replicate; split; pow2; lia). f_equal.
    induction n as [|n IH]; [done|]. cbn [replicate]. rewrite le_val_cons by (split; pow2; lia). lia.
  - rewrite rev_alt. apply reverse_replicate.
Qed.

Lemma sum_list_app (l k : list nat) : sum_list (l ++ k) = (sum_list l + sum_list k)%nat.
Proof. induction l as [|x l IH]; cbn; [done|]. rewrite IH. lia. Qed.

Lemma length_packed ns vs : length ns = length vs -> length (packed ns vs) = sum_list ns.
Proof.
  revert vs. induction ns as [|n ns IH]; intros [|v vs] Hl; try done. injection Hl as Hl.
  change (packed (n :: ns) (v :: vs)) with (packed_attr n v ++ packed ns vs). rewrite length_app, length_packed_attr, IH by done. done.
Qed.

Lemma packed_app ns ns' vs vs' : length ns = length vs -> packed (ns ++ ns') (vs ++ vs') = packed ns vs ++ packed ns' vs'.
Proof. intros Hl. unfold packed. by rewrite zip_with_app, concat_app. Qed.

Definition minimum (n : nat) : Z := - 2 ^ (8 * Z.of_nat n - 1).

Lemma packed_mins ns : packed ns (minimum <$> ns) = replicate (sum_list ns) 0.
Proof.
  induction ns as [|n ns IH]; [done|]. change (packed_attr n (minimum n) ++ packed ns (minimum <$> ns) = replicate (sum_list (n :: ns)) 0).
  unfold minimum at 1. rewrite packed_attr_min, IH. cbn. by rewrite replicate_add.
Qed.

Lemma fits_mins ns : Forall (fun n => (0 < n)%nat) ns -> fits ns (minimum <$> ns).
Proof.
  intros H. apply Forall2_fmap_r, Forall_Forall2_diag. eapply Forall_impl; [exact H|]. intros n Hn.
  change (0 < n)%nat in Hn. split; [done|]. unfold minimum, is_sint.
  assert (0 < 2 ^ (8 * Z.of_nat n - 1)) by (apply Z.pow_pos_nonneg; lia). lia.
Qed.

(** A key holds the values [vs] in [ns] bytes each. *)
Definition holds (KeySize : nat) (ns : list nat) (vs key : list Z) : Prop :=
  fits ns vs /\ (sum_list ns <= KeySize)%nat /\ key = packed ns vs ++ replicate (KeySize - sum_list ns) 0.

Section holds.
Context (KeySize : nat) (ns : list nat).

Lemma holds_length vs key : holds KeySize ns vs key -> length key = KeySize.
Proof.
  intros (Hf & Hs & ->). rewrite length_app, length_replicate, length_packed by (by apply Forall2_length in Hf). lia.
Qed.

Lemma holds_less vs vs' key key' : holds KeySize ns vs key -> holds KeySize ns vs' key' ->
  CompactIntsKey.less KeySize key key' = true <-> lex_lt vs vs'.
Proof.
  intros H H'. unfold CompactIntsKey.less. rewrite bool_decide_eq_true.
  pose proof (holds_length _ _ H) as L. pose proof (holds_length _ _ H') as L'. rewrite <-L, memcmp_lt by lia.
  destruct H as (Hf & _ & ->), H' as (Hf' & _ & ->). pose proof (Forall2_length _ _ _ Hf). pose proof (Forall2_length _ _ _ Hf').
  rewrite lex_app, packed_lt by (done || (rewrite !length_packed; done)). pose proof (lex_lt_irrefl (replicate (KeySize - sum_list ns) 0)). tauto.
Qed.

Lemma holds_equal vs vs' key key' : holds KeySize ns vs key -> holds KeySize ns vs' key' ->
  CompactIntsKey.equal_to KeySize key key' = true <-> vs = vs'.
Proof.
  intros H H'. unfold CompactIntsKey.equal_to. rewrite bool_decide_eq_true.
  pose proof (holds_length _ _ H) as L. pose proof (holds_length _ _ H') as L'. rewrite memcmp_0, !take_ge by lia.
  destruct H as (Hf & _ & ->), H' as (Hf' & _ & ->). split; [|by intros ->]. intros E. apply app_inj_2 in E as [E _]; [|done]. by apply (packed_inj ns).
Qed.

Lemma holds_get vs key i n v : holds KeySize ns vs key -> ns !! i = Some n -> vs !! i = Some v ->
  CompactIntsKey.GetInteger n (Z.of_nat (sum_list (take i ns))) key = v.
Proof.
  intros (Hf & _ & ->) Hn Hv. pose proof (Forall2_lookup_lr _ _ _ _ _ _ Hf Hn Hv) as [H0 Hs].
  apply GetInteger_packed; [done|done|]. pose proof (Forall2_length _ _ _ Hf) as Hl.
  assert (length (take i ns) = length (take i vs)) as Hli by (rewrite !length_take; lia).
  assert (packed ns vs = packed (take i ns) (take i vs) ++ packed_attr n v ++ packed (drop (S i) ns) (drop (S i) vs)) as ->.
  { rewrite <-(take_drop_middle ns i n Hn) at 1. rewrite <-(take_drop_middle vs i v Hv) at 1. by rewrite packed_app. }
  unfold rd. rewrite !Nat2Z.id, <-!app_assoc. apply slice_app_mid; [by rewrite length_packed|by rewrite length_packed_attr].
Qed.

End holds.

(** What the builder checks before it chooses integer keys of [KeySize] bytes. *)
Definition simple_index (schema : IndexSchema) (m : IndexMetadata.IndexMetadata) (KeySize : nat) : Prop :=
  IndexMetadata.make schema = Some m /\ simple_key (GetColumns schema) = true /\ GetColumns schema <> [] /\
  Z.of_nat (length (GetColumns schema)) < 2 ^ 13 /\ IndexMetadata.key_size_ m <= Z.of_nat KeySize.

(** A row of the index's initializer without nulls. *)
Definition key_row (m : IndexMetadata.IndexMetadata) (r : list Z) : Prop :=
  row_ok (merge_sort Z.ge (IndexMetadata.GetRealAttrSizes (IndexMetadata.attr_sizes_ m)))
    (IndexMetadata.ComputePROffsets (IndexMetadata.inlined_attr_sizes_ m)) r /\
  forall k, (k < length (IndexMetadata.attr_sizes_ m))%nat -> ProjectedRow.IsNull r (Z.of_nat k) = false.

(** The sizes in bytes, and the row's values in the order of the key's columns. *)
Definition attr_ns (m : IndexMetadata.IndexMetadata) : list nat := Z.to_nat <$> IndexMetadata.attr_sizes_ m.

Definition attr_value (m : IndexMetadata.IndexMetadata) (r : list Z) (i : nat) : Z :=
  let size := IndexMetadata.attr_sizes_ m !!! i in
  let off := IndexMetadata.ComputePROffsets (IndexMetadata.inlined_attr_sizes_ m) !!! i in
  wraps (8 * size) (le_val (default [] (ProjectedRow.Get r off size))).

(** The first [n] of them, and the smallest value for the others. *)
Definition key_values (m : IndexMetadata.IndexMetadata) (r : list Z) (n : nat) : list Z :=
  imap (fun i size => if decide (i < n)%nat then attr_value m r i else minimum size) (attr_ns m).

Section simple.
Import IndexMetadata.

Lemma make_schema schema m : make schema = Some m -> key_schema_ m = schema.
Proof.
  unfold make. destruct (ComputeAttributeSizes _); [|done]. destruct (ComputeInlinedAttributeSizes _); [|done].
  destruct (ComputeKeySize _); [|done]. by intros [= <-].
Qed.

Lemma key_size_total cols : forall acc sizes, 0 <= acc -> acc + total sizes < 2 ^ 16 -> ComputeAttributeSizes cols = Some sizes ->
  Forall (fun s => s ∈ [8; 4; 2; 1]) sizes ->
  foldl (fun acc key => key_size ← acc; size ← GetTypeSize (Type_ key); Some (u16 (key_size + AttrSizeBytes size))) (Some acc) cols = Some (acc + total sizes).
Proof.
  unfold ComputeAttributeSizes. setoid_rewrite mapM_Some. induction cols as [|c cols IH]; intros acc sizes H0 Hb Hm Hf.
  - inversion Hm. cbn. f_equal. lia.
  - inversion Hm as [|? s ? sizes' Es Hm']; subst. apply Forall_cons in Hf as [Hs Hf]. cbn [foldl].
    change (total (s :: sizes')) with (s + total sizes') in *. rewrite Es. cbn [mbind option_bind].
    assert (AttrSizeBytes s = s /\ 0 < s) as [-> Hs0] by (revert Hs; rewrite !elem_of_cons, elem_of_nil; intros [->|[->|[->|[->|[]]]]]; done).
    assert (0 <= total sizes') by (apply total_nonneg; eapply Forall_impl; [exact Hf|]; intros x; rewrite !elem_of_cons, elem_of_nil; lia).
    rewrite (wrapu_small 16) by (unfold is_uint; lia). rewrite (IH (acc + s) sizes') by (done || lia). f_equal. lia.
Qed.

Lemma simple_sizes cols : simple_key cols = true -> exists sizes,
  ComputeAttributeSizes cols = Some sizes /\ ComputeInlinedAttributeSizes cols = Some sizes /\ length sizes = length cols /\
  Forall (fun s => s ∈ [8; 4; 2; 1]) sizes /\ Forall (fun c => Nullable c = false) cols.
Proof.
  unfold ComputeAttributeSizes, ComputeInlinedAttributeSizes. setoid_rewrite mapM_Some. intros Hs.
  induction cols as [|c cols IH]; [by exists []|]. cbn [simple_key forallb] in Hs. rewrite !andb_true_iff, bool_decide_eq_true, negb_true_iff in Hs.
  destruct Hs as [[Hn Ht] Hs]. destruct (IH Hs) as (sizes & E1 & E2 & E3 & E4 & E5).
  assert (exists s, GetTypeSize (Type_ c) = Some s /\ inlined_size c = Some s /\ s ∈ [8; 4; 2; 1]) as (s & Es & Ei & Hin).
  { unfold inlined_size. revert Ht. unfold NUMERIC_KEY_TYPES. rewrite !elem_of_cons, elem_of_nil.
    intros [-> | [-> | [-> | [-> | []]]]]; eexists; split_and!; (done || set_solver). }
  exists (s :: sizes). cbn [length]. split_and!; try (by constructor); lia.
Qed.

Context (schema : IndexSchema) (m : IndexMetadata) (KeySize : nat).
Hypothesis Hm : simple_index schema m KeySize.

#[local] Abbreviation sizes := (attr_sizes_ m).
#[local] Abbreviation ns := (attr_ns m).

Lemma total_sum (l : list Z) : Forall (fun s => s ∈ [8; 4; 2; 1]) l -> total l = Z.of_nat (sum_list (Z.to_nat <$> l)).
Proof.
  induction 1 as [|s l Hs _ IH]; [done|]. change (s + total l = Z.of_nat (Z.to_nat s + sum_list (Z.to_nat <$> l))).
  revert Hs. rewrite !elem_of_cons, elem_of_nil. lia.
Qed.

Lemma simple_facts :
  Forall (fun s => s ∈ [8; 4; 2; 1]) sizes /\ sizes <> [] /\ inlined_attr_sizes_ m = sizes /\ GetRealAttrSizes sizes = sizes /\
  length sizes = length (GetColumns (key_schema_ m)) /\ Forall (fun c => Nullable c = false) (GetColumns (key_schema_ m)) /\
  (sum_list ns <= KeySize)%nat /\ Z.of_nat (length sizes) <= MAX_COL /\
  compact_ints_offsets_ m = scan_from 0 sizes /\ key_size_ m = Z.of_nat (sum_list ns) /\
  initializer_ m = ProjectedRowInitializer.make (merge_sort Z.ge sizes) (ComputePROffsets sizes).
Proof.
  destruct Hm as (Hmake & Hs & Hne & Hlen & Hk). destruct (simple_sizes _ Hs) as (l & E1 & E2 & E3 & E4 & E5).
  assert (total l <= 8 * Z.of_nat (length l)) as Ht.
  { clear - E4. induction E4 as [|s l Hs _ IH]; [done|]. change (s + total l <= 8 * Z.of_nat (S (length l))). revert Hs. rewrite !elem_of_cons, elem_of_nil. lia. }
  pose proof (key_size_total (GetColumns schema) 0 l ltac:(lia) ltac:(lia) E1 E4) as E6. fold (ComputeKeySize (GetColumns schema)) in E6.
  unfold make in Hmake. rewrite E1, E2, E6 in Hmake. cbn in Hmake. injection Hmake as <-. unfold attr_ns. cbn in *.
  rewrite (total_sum l E4) in *. assert (l <> []) as Hl by (intros ->; by destruct (GetColumns schema)).
  assert (GetRealAttrSizes l = l) as ER.
  { clear - E4. unfold GetRealAttrSizes. induction E4 as [|s l Hs _ IH]; [done|]. cbn. rewrite IH. f_equal.
    revert Hs. rewrite !elem_of_cons, elem_of_nil. intros [->|[->|[->|[->|[]]]]]; done. }
  assert (ComputeCompactIntsOffsets l = scan_from 0 l) as -> by (by destruct l).
  unfold Create_offsets. rewrite ER. split_and!; try done; unfold MAX_COL; lia.
Qed.

(** The value of one attribute, found through the column ids. *)
Lemma row_attr r i s : key_row m r -> sizes !! i = Some s ->
  exists stored, ProjectedRow.AccessWithNullCheck r (u16 (ProjectedRow.ColumnId r (Z.of_nat i))) = Some stored /\
    wraps (8 * s) (le_val (rd r stored s)) = attr_value m r i.
Proof.
  intros [Hr Hnn] Hi. destruct simple_facts as (Hc & Hne & Einl & EReal & _ & _ & _ & Hmax & _). rewrite EReal, Einl in Hr.
  destruct (PROffsets_spec sizes i s Hi) as (j & Hj & Hlt & Hs).
  assert (row_args (merge_sort Z.ge sizes) (ComputePROffsets sizes)) as Hargs.
  { apply row_args_sizes; [done|done|]. eapply Forall_impl; [exact Hc|]. by left. }
  unfold attr_value. rewrite Einl, (list_lookup_total_correct _ _ _ Hi), (list_lookup_total_correct _ _ _ Hj).
  pose proof Hr as (_ & _ & _ & _ & Hids & _). rewrite (Hids i _ Hj).
  rewrite (wrapu_small 16) by (unfold is_uint, MAX_COL in *; lia). specialize (Hnn j Hlt).
  unfold ProjectedRow.Get, ProjectedRow.IsNull, ProjectedRow.AccessWithNullCheck in *.
  destruct (RawBitmap.Test _ _); [|done]. eexists. split; [done|]. done.
Qed.

Lemma copy_attr r i s key : key_row m r -> sizes !! i = Some s -> Z.of_nat (sum_list (take i ns)) + s <= Z.of_nat KeySize ->
  CompactIntsKey.CopyAttrFromProjection KeySize r (u16 (ProjectedRow.ColumnId r (Z.of_nat i))) (u8 s) (Z.of_nat (sum_list (take i ns))) key
    = Some (wr key (Z.of_nat (sum_list (take i ns))) (packed_attr (Z.to_nat s) (attr_value m r i))).
Proof.
  intros Hr Hi Hfit. destruct (row_attr r i s Hr Hi) as (stored & Hst & Hv). destruct simple_facts as (Hc & _).
  assert (s ∈ [8; 4; 2; 1]) as Hs by (rewrite Forall_lookup in Hc; by eapply Hc).
  assert (CompactIntsKey.int_size (u8 s) = Some (Z.to_nat s) /\ 0 < s) as [Es H0].
  { revert Hs. rewrite !elem_of_cons, elem_of_nil. intros [->|[->|[->|[->|[]]]]]; split; (reflexivity || lia). }
  unfold CompactIntsKey.CopyAttrFromProjection. rewrite Hst. cbn [mbind option_bind]. rewrite Es. cbn [mbind option_bind].
  rewrite Z2Nat.id, Hv by lia. apply AddInteger_packed; [lia| |lia]. rewrite <-Hv, Z2Nat.id by lia. apply wraps_bound. lia.
Qed.

Lemma sum_take_S i s : sizes !! i = Some s -> (sum_list (take (S i) ns) = sum_list (take i ns) + Z.to_nat s /\ sum_list (take (S i) ns) <= sum_list ns)%nat.
Proof.
  intros Hi. assert (ns !! i = Some (Z.to_nat s)) as Hn by (unfold attr_ns; by rewrite list_lookup_fmap, Hi).
  pose proof (take_S_r _ _ _ Hn) as ->. assert (sum_list ns = sum_list (take i ns ++ Z.to_nat s :: drop (S i) ns)) as -> by (by rewrite (take_drop_middle ns i _ Hn)).
  rewrite !sum_list_app. cbn. lia.
Qed.

Hypothesis HK : (KeySize <= 32)%nat.

(** Offsets of keys that fit in 32 bytes do not wrap around. *)
Lemma simple_offsets :
  length (compact_ints_offsets_ m) = length sizes /\
  forall i s, sizes !! i = Some s -> compact_ints_offsets_ m !! i = Some (Z.of_nat (sum_list (take i ns))).
Proof.
  destruct simple_facts as (Hc & _ & _ & _ & _ & _ & Hsum & _ & -> & _). split; [apply length_scan_from|]. intros i s Hi. rewrite (scan_from_lookup sizes 0 i s).
  - rewrite total_sum by (by apply Forall_take). unfold attr_ns. by rewrite fmap_take.
  - eapply Forall_impl; [exact Hc|]. intros x. rewrite !elem_of_cons, elem_of_nil. lia.
  - lia.
  - rewrite total_sum by done. fold ns. lia.
  - done.
Qed.

(** The first [n] values of a row. *)
Definition prefix_values (r : list Z) (n : nat) : list Z := attr_value m r <$> seq 0 n.

Lemma copy_attrs_packed r k : forall i, key_row m r -> (i + k <= length sizes)%nat ->
  CompactIntsKey.copy_attrs KeySize r m k i
    (packed (take i ns) (prefix_values r i) ++ replicate (KeySize - sum_list (take i ns)) 0) =
  Some (packed (take (i + k) ns) (prefix_values r (i + k)) ++ replicate (KeySize - sum_list (take (i + k) ns)) 0).
Proof.
  induction k as [|k IH]; intros i Hr Hl; [by rewrite Nat.add_0_r|]. cbn [CompactIntsKey.copy_attrs].
  destruct simple_facts as (Hc & _ & _ & _ & _ & _ & Hsum & _). destruct simple_offsets as [_ Hoff].
  destruct (lookup_lt_is_Some_2 sizes i) as [s Hi]; [lia|]. rewrite Hi, (Hoff i s Hi). cbn [mbind option_bind].
  assert (0 < s) as H0. { rewrite Forall_lookup in Hc. specialize (Hc i s Hi). revert Hc. rewrite !elem_of_cons, elem_of_nil. lia. }
  destruct (sum_take_S i s Hi) as [E1 E2]. rewrite decide_True by lia. rewrite copy_attr by (done || lia). cbn [mbind option_bind].
  assert (ns !! i = Some (Z.to_nat s)) as Hn by (unfold attr_ns; by rewrite list_lookup_fmap, Hi).
  assert (length (take i ns) = length (prefix_values r i)) as Hlen.
  { unfold prefix_values, attr_ns. rewrite length_take, !length_fmap, length_seq. lia. }
  rewrite <-(length_packed (take i ns) (prefix_values r i) Hlen) at 2.
  rewrite wr_pad by (rewrite length_packed_attr; lia). rewrite length_packed_attr, app_assoc.
  replace (packed (take i ns) (prefix_values r i) ++ packed_attr (Z.to_nat s) (attr_value m r i))
    with (packed (take (S i) ns) (prefix_values r (S i))).
  - replace (KeySize - sum_list (take i ns) - Z.to_nat s)%nat with (KeySize - sum_list (take (S i) ns))%nat by lia.
    rewrite (IH (S i)) by (done || lia). by rewrite Nat.add_succ_r.
  - rewrite (take_S_r _ _ _ Hn). unfold prefix_values at 1. rewrite seq_S, fmap_app. cbn [fmap list_fmap plus].
    rewrite packed_app by done. f_equal. unfold packed. cbn. by rewrite app_nil_r.
Qed.

Lemma key_values_split r n : (n <= length sizes)%nat ->
  key_values m r n = prefix_values r n ++ (minimum <$> drop n ns).
Proof.
  intros Hn. unfold key_values, prefix_values. assert (length ns = length sizes) as L by apply length_fmap.
  apply list_eq. intros i. rewrite list_lookup_imap. destruct (decide (i < n)%nat).
  - rewrite lookup_app_l, list_lookup_fmap, lookup_seq_lt by (rewrite ?length_fmap, ?length_seq; lia).
    destruct (lookup_lt_is_Some_2 ns i) as [s ->]; [lia|]. done.
  - rewrite lookup_app_r, length_fmap, length_seq, list_lookup_fmap, lookup_drop by (rewrite length_fmap, length_seq; lia).
    replace (n + (i - n))%nat with i by lia. destruct (ns !! i); [|done]. done.
Qed.

(** [SetFromProjectedRow] does not fail, and its key holds the first values of the row. *)
Lemma SetFromProjectedRow_holds r n : key_row m r -> (0 < n <= length sizes)%nat ->
  exists key, CompactIntsKey.SetFromProjectedRow KeySize r m n = Some key /\ holds KeySize ns (key_values m r n) key.
Proof.
  intros Hr Hn. destruct simple_facts as (Hc & Hne & Einl & EReal & Elen & Hnull & Hsum & Hmax & _). destruct simple_offsets as [Eoff Hoff].
  exists (packed (take n ns) (prefix_values r n) ++ replicate (KeySize - sum_list (take n ns)) 0). split.
  - unfold CompactIntsKey.SetFromProjectedRow. pose proof Hr as [(_ & _ & _ & EN & _) Hnn]. rewrite EN, length_PROffsets, Einl.
    rewrite decide_True by (split_and!; (done || lia)). rewrite (proj2 (forallb_forall _ _)), (proj2 (forallb_forall _ _)).
    + pose proof (copy_attrs_packed r n 0 Hr) as H. rewrite take_0, Nat.sub_0_r in H. apply H. lia.
    + intros c Hin. rewrite Forall_forall in Hnull. rewrite Hnull; [done|]. by apply list_elem_of_In.
    + intros k Hin. apply in_seq in Hin. rewrite Hnn by lia. done.
  - assert (Forall (fun n => (0 < n)%nat) ns) as Hpos.
    { unfold attr_ns. apply Forall_fmap. eapply Forall_impl; [exact Hc|]. intros s. rewrite !elem_of_cons, elem_of_nil. cbn. lia. }
    assert (length ns = length sizes) as L by apply length_fmap.
    rewrite key_values_split by lia. split; [|split; [done|]].
    + rewrite <-(take_drop n ns) at 1. apply Forall2_app; [|by apply fits_mins, Forall_drop]. unfold prefix_values.
      apply Forall2_fmap_r, Forall2_same_length_lookup_2; [rewrite length_take, length_seq; lia|]. intros i x y Hx Hy.
      apply lookup_take_Some in Hx as [Hx Hi]. apply lookup_seq in Hy as [-> _]. cbn.
      split; [rewrite Forall_lookup in Hpos; by eapply Hpos|]. unfold attr_ns in Hx. rewrite list_lookup_fmap in Hx.
      destruct (sizes !! i) as [s|] eqn:Es; [|done]. injection Hx as <-. destruct (row_attr r i s Hr Es) as (st & _ & <-).
      rewrite Forall_lookup in Hc. specialize (Hc i s Es). assert (0 < s) by (revert Hc; rewrite !elem_of_cons, elem_of_nil; lia).
      rewrite Z2Nat.id by lia. apply wraps_bound. lia.
    + rewrite <-(take_drop n ns) at 3. rewrite packed_app.
      2:{ unfold prefix_values. rewrite length_take, length_fmap, length_seq. lia. }
      rewrite packed_mins, <-app_assoc, <-replicate_add. do 2 f_equal.
      rewrite <-(take_drop n ns) at 3. rewrite <-(take_drop n ns) in Hsum. rewrite sum_list_app in Hsum |- *. lia.
Qed.

Lemma partial_less_than_lex vs vs' key key' : holds KeySize ns vs key -> holds KeySize ns vs' key' -> forall k i,
  (i + k <= length sizes)%nat ->
  exists b, CompactIntsKey.partial_less_than key key' m k i = Some b /\ (b = true <-> ~ lex_lt (take k (drop i vs')) (take k (drop i vs))).
Proof.
  intros H H' k. destruct simple_facts as (Hc & _). destruct simple_offsets as [_ Hoff].
  assert (length ns = length sizes) as L by apply length_fmap.
  pose proof (Forall2_length _ _ _ (proj1 H)) as Lv. pose proof (Forall2_length _ _ _ (proj1 H')) as Lv'.
  induction k as [|k IH]; intros i Hi; cbn [CompactIntsKey.partial_less_than].
  { exists true. rewrite !take_0. split; [done|]. split; [intros _; apply lex_lt_irrefl|done]. }
  destruct (lookup_lt_is_Some_2 sizes i) as [s Hs]; [lia|]. rewrite Hs, (Hoff i s Hs). cbn [mbind option_bind].
  assert (CompactIntsKey.int_size s = Some (Z.to_nat s)) as ->.
  { rewrite Forall_lookup in Hc. specialize (Hc i s Hs). revert Hc. rewrite !elem_of_cons, elem_of_nil. intros [->|[->|[->|[->|[]]]]]; reflexivity. }
  cbn [mbind option_bind]. assert (ns !! i = Some (Z.to_nat s)) as Hn by (unfold attr_ns; by rewrite list_lookup_fmap, Hs).
  destruct (lookup_lt_is_Some_2 vs i) as [v Hv]; [lia|]. destruct (lookup_lt_is_Some_2 vs' i) as [v' Hv']; [lia|].
  rewrite (holds_get KeySize ns vs key i _ v H Hn Hv), (holds_get KeySize ns vs' key' i _ v' H' Hn Hv').
  rewrite (drop_S vs v i Hv), (drop_S vs' v' i Hv'). cbn [take].
  case_decide; [|case_decide].
  - exists true. split; [done|]. split; [|done]. intros _ HL. inversion HL; lia.
  - exists false. split; [done|]. split; [done|]. intros HL. destruct HL. by constructor.
  - assert (v = v') as <- by lia. destruct (IH (S i)) as (b & -> & Hb); [lia|]. exists b. split; [done|]. rewrite Hb.
    split; intros HL HL'; apply HL; [inversion HL'; [lia|done]|by constructor].
Qed.

End simple.

(** ** Hash keys *)

(** Values of descending sizes 8, 4, 2, 1 are laid out without padding. *)
Lemma value_offsets_packed l : forall start k s, Forall (fun s => s ∈ [8; 4; 2; 1]) l -> StronglySorted (fun a b => b <= a) l ->
  start `mod` next_align l = 0 -> 0 <= start -> start + 65544 * Z.of_nat (length l) < 2 ^ 31 -> l !! k = Some s ->
  (value_offsets start l).1 !! k = Some (start + total (take k l)).
Proof.
  induction l as [|a l IH]; intros start k s Hc Hs Hm H0 Hb Hk; [done|]. apply Forall_cons in Hc as [Ha Hc]. inversion Hs as [|? ? Hs' Hf]; subst.
  cbn [value_offsets]. change (match l with [] => 8 | s' :: _ => Z.min s' 8 end) with (next_align l).
  destruct (next_align_class l) as [Hn Hu]; [eapply Forall_impl; [exact Hc|by left]|]. rewrite Hu. cbn [length] in Hb.
  assert (1 <= a <= 8) by (revert Ha; rewrite !elem_of_cons, elem_of_nil; lia).
  rewrite (wrapu_small 32) by (unfold is_uint; lia). destruct k as [|k].
  { destruct (value_offsets _ l). cbn. f_equal. lia. }
  cbn in Hk. assert ((start + a) `mod` next_align l = 0) as Hnext.
  { destruct l as [|b l]; [done|]. apply Forall_cons in Hf as [Hba _]. apply Forall_cons in Hc as [Hb' _].
    change (next_align (b :: l)) with (Z.min b 8) in *. change (next_align (a :: b :: l)) with (Z.min a 8) in Hm.
    revert Ha Hb'. rewrite !elem_of_cons, !elem_of_nil. intros [->|[->|[->|[->|[]]]]] [->|[->|[->|[->|[]]]]]; try lia; cbn in *; Z.to_euclidean_division_equations; lia. }
  assert (PadUpToSize (next_align l) (start + a) = start + a) as ->.
  { destruct (PadUpToSize_align (next_align l) (start + a) Hn) as [P1 P2]; [lia|].
    assert (0 < next_align l) by (revert Hn; rewrite !elem_of_cons, elem_of_nil; lia).
    apply Z.mod_divide in P2 as [x Hx]; [|lia]. apply Z.mod_divide in Hnext as [y Hy]; [|lia]. assert (x = y) by nia. lia. }
  specialize (IH (start + a) k s Hc Hs' Hnext). destruct (value_offsets (start + a) l) as [offsets tot]. cbn [fst] in IH |- *.
  change ((start :: offsets) !! S k) with (offsets !! k). rewrite IH; [unfold total; cbn; f_equal; lia|lia|lia|done].
Qed.

Lemma rd_split m o a b : 0 <= o -> 0 <= a -> 0 <= b -> rd m o (a + b) = rd m o a ++ rd m (o + a) b.
Proof.
  intros Ho Ha Hb. unfold rd, slice. rewrite Z2Nat.inj_add, Z2Nat.inj_add by lia. rewrite <-drop_drop, <-take_take_drop. done.
Qed.

(** Blocks that agree on adjacent segments agree. *)
Lemma rd_segments r1 r2 l : forall o, 0 <= o -> Forall (fun s => 0 <= s) l ->
  (forall k s, l !! k = Some s -> rd r1 (o + total (take k l)) s = rd r2 (o + total (take k l)) s) -> rd r1 o (total l) = rd r2 o (total l).
Proof.
  induction l as [|s l IH]; intros o Ho Hf H; [done|]. apply Forall_cons in Hf as [Hs Hf]. pose proof (total_nonneg l Hf).
  change (total (s :: l)) with (s + total l). rewrite !rd_split by lia. f_equal.
  - specialize (H 0%nat s eq_refl). change (total (take 0 (s :: l))) with 0 in H. by rewrite Z.add_0_r in H.
  - apply IH; [lia|done|]. intros k s' Hk. specialize (H (S k) s' Hk). change (total (take (S k) (s :: l))) with (s + total (take k l)) in H. by rewrite Z.add_assoc in H.
Qed.

Section hashed.
Import IndexMetadata.
Context (schema : IndexSchema) (m : IndexMetadata) (KeySize : nat).
Hypothesis Hm : simple_index schema m KeySize.

#[local] Abbreviation sizes := (attr_sizes_ m).
#[local] Abbreviation sorted := (merge_sort Z.ge (attr_sizes_ m)).
#[local] Abbreviation places := (ComputePROffsets (attr_sizes_ m)).
#[local] Abbreviation header := (header_size sorted (Z.of_nat (length places))).

Lemma simple_args : row_args sorted places.
Proof. destruct (simple_facts schema m KeySize Hm) as (Hc & Hne & _ & _ & _ & _ & _ & Hmax & _). apply row_args_sizes; [done|done|]. eapply Forall_impl; [exact Hc|by left]. Qed.

Lemma sorted_sizes : Forall (fun s => s ∈ [8; 4; 2; 1]) sorted /\ StronglySorted (fun a b => b <= a) sorted /\ total sorted = key_size_ m /\ length sorted = length sizes.
Proof.
  destruct (simple_facts schema m KeySize Hm) as (Hc & _ & _ & _ & _ & _ & _ & _ & _ & Ek & _). pose proof (merge_sort_Permutation Z.ge sizes) as HP.
  split; [by rewrite HP|]. split; [rewrite sort_sizes_fst; apply stable_sort_sorted|]. split; [|by rewrite HP].
  rewrite Ek. unfold attr_ns. rewrite <-(total_sum sizes Hc). by apply total_Permutation.
Qed.

(** The values of a row, one after the other. *)
Lemma row_offset j s : sorted !! j = Some s -> offsets_ (ProjectedRowInitializer.make sorted places) !! j = Some (header + total (take j sorted)).
Proof.
  intros Hj. destruct sorted_sizes as (Hc & Hs & _). pose proof simple_args as Ha. destruct (header_bounds _ _ Ha) as [Hh1 Hh2]. pose proof (header_nonneg _ _ Ha).
  destruct (regions _ _ Ha) as (_ & _ & _ & R & _). destruct Ha as (_ & Hl & _). destruct (offsets_start_bounds _ _ simple_args) as [Hos _].
  pose proof (SizeInBytes_bounds (Z.of_nat (length places)) ltac:(lia)).
  pose proof (value_offsets_packed sorted header j s Hc Hs Hh2 ltac:(lia) ltac:(lia) Hj) as H'.
  unfold ProjectedRowInitializer.make. destruct (value_offsets header sorted). exact H'.
Qed.

(** Attribute [k] of a row, at its place. *)
Lemma hashed_attr r k s : key_row m r -> sizes !! k = Some s -> exists j,
  places !! k = Some (Z.of_nat j) /\ sorted !! j = Some s /\ 0 <= total (take j sorted) /\ header + total (take j sorted) + s <= Z.of_nat (length r) /\
  ProjectedRow.AccessWithNullCheck r (Z.of_nat j) = Some (header + total (take j sorted)) /\
  attr_value m r k = wraps (8 * s) (le_val (rd r (header + total (take j sorted)) s)).
Proof.
  intros [Hr Hnn] Hk. destruct (simple_facts schema m KeySize Hm) as (Hc & _ & Einl & EReal & _). rewrite EReal, Einl in Hr.
  destruct (PROffsets_spec sizes k s Hk) as (j & Hj & Hlt & Hs). exists j. split; [done|]. split; [done|].
  pose proof (row_offset j s Hs) as Ho. destruct (column _ _ simple_args j) as (o & Ho' & _ & ? & ? & ?); [by rewrite length_PROffsets|].
  rewrite Ho in Ho'. injection Ho' as <-. rewrite (list_lookup_total_correct _ _ _ Hs) in *. pose proof (header_nonneg _ _ simple_args).
  split; [lia|]. split; [destruct Hr as (? & _); lia|].
  assert (ProjectedRow.AccessWithNullCheck r (Z.of_nat j) = Some (header + total (take j sorted))) as E.
  { specialize (Hnn j Hlt). unfold ProjectedRow.IsNull in Hnn. unfold ProjectedRow.AccessWithNullCheck. destruct (RawBitmap.Test _ _); [|done].
    f_equal. destruct Hr as (_ & _ & _ & _ & _ & H'). by apply H'. }
  split; [done|]. unfold attr_value. rewrite Einl, (list_lookup_total_correct _ _ _ Hk), (list_lookup_total_correct _ _ _ Hj).
  unfold ProjectedRow.Get. by rewrite E.
Qed.

Lemma signed_bytes_inj bs bs' n : Z.of_nat (length bs) = n -> Z.of_nat (length bs') = n -> Forall is_byte bs -> Forall is_byte bs' -> 0 < n ->
  wraps (8 * n) (le_val bs) = wraps (8 * n) (le_val bs') -> bs = bs'.
Proof.
  intros Hl Hl' Hb Hb' Hn E. apply (f_equal (wrapu (8 * n))) in E. rewrite !wrapu_wraps in E by lia.
  pose proof (le_val_bound bs Hb) as B. pose proof (le_val_bound bs' Hb') as B'. rewrite Hl in B. rewrite Hl' in B'.
  rewrite !wrapu_small in E by done. rewrite <-(le_bytes_val bs Hb), <-(le_bytes_val bs' Hb'), E. f_equal. lia.
Qed.

(** The bytes of the values agree exactly if the values do. *)
Lemma hashed_bytes r1 r2 : key_row m r1 -> key_row m r2 ->
  rd r1 header (key_size_ m) = rd r2 header (key_size_ m) <-> (forall k, (k < length sizes)%nat -> attr_value m r1 k = attr_value m r2 k).
Proof.
  intros H1 H2. destruct sorted_sizes as (Hc & _ & Et & Ls). rewrite <-Et. pose proof (header_nonneg _ _ simple_args) as Hh.
  assert (Forall (fun s => 0 <= s) sorted) as Hpos by (eapply Forall_impl; [exact Hc|]; intros x; rewrite !elem_of_cons, elem_of_nil; lia).
  split.
  - intros E k Hk. destruct (lookup_lt_is_Some_2 sizes k Hk) as [s Hs].
    destruct (hashed_attr r1 k s H1 Hs) as (j & Hj & Hsj & P1 & L1 & _ & ->). destruct (hashed_attr r2 k s H2 Hs) as (j' & Hj' & _ & _ & L2 & _ & ->).
    rewrite Hj in Hj'. assert (j' = j) as -> by (simplify_eq; lia). do 2 f_equal.
    assert (total sorted = total (take j sorted) + (s + total (drop (S j) sorted))) as Et'.
    { rewrite <-(take_drop_middle sorted j s Hsj) at 1. apply total_app. }
    assert (0 <= s /\ 0 <= total (drop (S j) sorted)) as [P2 P3].
    { split; [rewrite Forall_lookup in Hpos; by eapply Hpos|by apply total_nonneg, Forall_drop]. }
    rewrite Et' in E. rewrite !rd_split in E by lia. apply app_inj_1 in E as [_ E].
    + apply app_inj_1 in E as [E _]; [done|]. apply Nat2Z.inj. rewrite !length_rd by lia. done.
    + apply Nat2Z.inj. rewrite !length_rd by lia. done.
  - intros E. apply rd_segments; [done|done|]. intros j s Hj. destruct (PROffsets_surj sizes j) as (k & s' & Hk & Hp & Hs'); [apply lookup_lt_Some in Hj; lia|].
    rewrite Hj in Hs'. injection Hs' as <-. specialize (E k ltac:(by eapply lookup_lt_Some)).
    destruct (hashed_attr r1 k s H1 Hk) as (j1 & E1 & _ & P1 & L1 & _ & V1). destruct (hashed_attr r2 k s H2 Hk) as (j2 & E2 & _ & _ & L2 & _ & V2).
    rewrite Hp in E1, E2. assert (j1 = j /\ j2 = j) as [-> ->] by (simplify_eq; lia). rewrite V1, V2 in E.
    assert (0 < s) by (rewrite Forall_lookup in Hc; specialize (Hc j s Hj); revert Hc; rewrite !elem_of_cons, elem_of_nil; lia).
    apply signed_bytes_inj in E; [done|apply length_rd; lia|apply length_rd; lia|apply rd_bytes; apply H1|apply rd_bytes; apply H2|done].
Qed.

Lemma foldr_min d l : (foldr Z.min d l = d \/ foldr Z.min d l ∈ l) /\ foldr Z.min d l <= d /\ Forall (fun x => foldr Z.min d l <= x) l.
Proof.
  induction l as [|x l (IH1 & IH2 & IH3)]; cbn; [split; [by left|split; [lia|constructor]]|]. set (f := foldr Z.min d l) in *. split; [|split].
  - destruct (Z.min_spec x f) as [[_ ->]|[_ ->]]; [right; set_solver|]. destruct IH1; [by left|right; set_solver].
  - lia.
  - constructor; [lia|]. eapply Forall_impl; [exact IH3|]. cbn. lia.
Qed.

Lemma smallest_last j s : S j = length sizes -> sorted !! j = Some s -> HashKey.smallest_attr_size sizes = s.
Proof.
  intros Hj Hs. destruct sorted_sizes as (Hc & Hsort & _ & Hl). pose proof (merge_sort_Permutation Z.ge sizes) as HP.
  assert (s ∈ [8; 4; 2; 1]) as Hcs by (rewrite Forall_lookup in Hc; by eapply Hc).
  assert (s ∈ sizes) as Hin by (rewrite <-HP; by eapply list_elem_of_lookup_2).
  assert (forall x, x ∈ sizes -> s <= x) as Hle.
  { intros x. rewrite <-HP. intros Hx. apply list_elem_of_lookup_1 in Hx as [i Hi]. destruct (decide (i = j)) as [->|Hne]; [rewrite Hs in Hi; by simplify_eq|].
    assert (i < j)%nat by (apply lookup_lt_Some in Hi; lia). rewrite <-(take_drop_middle _ i x Hi) in Hsort. apply StronglySorted_app_1_r in Hsort.
    inversion Hsort as [|? ? _ Hf]; subst. rewrite Forall_forall in Hf. apply Hf. apply list_elem_of_lookup_2 with (j - S i)%nat. rewrite lookup_drop. rewrite <-Hs. f_equal. lia. }
  destruct sizes as [|d l] eqn:E; [done|]. unfold HashKey.smallest_attr_size. change ((d :: l) !!! 0%nat) with d. destruct (foldr_min d (d :: l)) as (H1 & H2 & H3).
  assert (foldr Z.min d (d :: l) = s) as ->.
  - rewrite Forall_forall in H3. specialize (H3 s Hin). assert (s <= foldr Z.min d (d :: l)); [|lia]. destruct H1 as [-> | H1]; [apply Hle; set_solver|by apply Hle].
  - apply wrapu_small. revert Hcs. rewrite !elem_of_cons, elem_of_nil. unfold is_uint. pow2. lia.
Qed.

(** No assertion of [HashKey] fails, and the key is the row's values in their places. *)
Lemma hash_key_set r n : key_row m r ->
  HashKey.SetFromProjectedRow KeySize r m n = Some (rd r header (key_size_ m) ++ replicate (KeySize - Z.to_nat (key_size_ m)) 0).
Proof.
  intros Hr. destruct (simple_facts schema m KeySize Hm) as (_ & Hne & Einl & EReal & _ & Hnull & Hsum & _ & _ & Ek & _). destruct sorted_sizes as (_ & _ & Et & Ls).
  assert (ProjectedRow.NumColumns r = Z.of_nat (length sizes)) as EN.
  { destruct Hr as [(_ & _ & _ & EN & _) _]. by rewrite length_PROffsets, Einl in EN. }
  assert (0 < length sizes)%nat as Hpos by (destruct sizes; cbn; [done|lia]).
  assert (forall j, (j < length sizes)%nat -> exists s, sorted !! j = Some s /\ header + total (take j sorted) + s <= Z.of_nat (length r) /\ ProjectedRow.AccessWithNullCheck r (Z.of_nat j) = Some (header + total (take j sorted))) as Hacc.
  { intros j Hj. destruct (PROffsets_surj sizes j Hj) as (k & s & Hk & Hp & Hs). destruct (hashed_attr r k s Hr Hk) as (j' & Hj' & _ & _ & L & E & _).
    rewrite Hp in Hj'. assert (j' = j) as -> by (simplify_eq; lia). by exists s. }
  destruct (Hacc 0%nat Hpos) as (s0 & _ & L0 & E0). change (total (take 0 sorted)) with 0 in E0, L0. rewrite Z.add_0_r in E0, L0. change (Z.of_nat 0) with 0 in E0.
  destruct (Hacc (length sizes - 1)%nat ltac:(lia)) as (sl & Hsl & Ll & El).
  assert (total sorted = total (take (length sizes - 1) sorted) + sl) as Etot.
  { rewrite <-(take_drop_middle sorted _ sl Hsl) at 1. rewrite (drop_ge sorted), total_app by lia. cbn. lia. }
  unfold HashKey.SetFromProjectedRow. rewrite (proj2 (forallb_forall _ _)), (proj2 (forallb_forall _ _)).
  - assert (HashKey.no_padding r m = true) as ->.
    { unfold HashKey.no_padding. rewrite EN. replace (Z.of_nat (length sizes) - 1) with (Z.of_nat (length sizes - 1)) by lia.
      rewrite E0, El. apply bool_decide_eq_true. rewrite (smallest_last (length sizes - 1) sl) by (done || lia). lia. }
    cbn [andb]. rewrite E0. cbn [mbind option_bind]. f_equal. pose proof (header_nonneg _ _ simple_args) as Hh.
    assert (Z.of_nat (length (rd r header (key_size_ m))) = key_size_ m) as Lr by (apply length_rd; lia).
    pose proof (wr_pad [] (rd r header (key_size_ m)) KeySize ltac:(lia)) as Hw. cbn [app length] in Hw. change (Z.of_nat 0) with 0 in Hw. rewrite Hw. do 2 f_equal. lia.
  - intros c Hin. rewrite Forall_forall in Hnull. rewrite Hnull; [done|]. by apply list_elem_of_In.
  - intros k Hin. apply in_seq in Hin. destruct Hr as [_ Hnn]. rewrite Hnn by lia. done.
Qed.

Lemma hash_key_equal r1 r2 n : key_row m r1 -> key_row m r2 ->
  exists k1 k2, HashKey.SetFromProjectedRow KeySize r1 m n = Some k1 /\ HashKey.SetFromProjectedRow KeySize r2 m n = Some k2 /\
    (HashKey.equal_to KeySize k1 k2 = true <-> key_values m r1 (length sizes) = key_values m r2 (length sizes)).
Proof.
  intros H1 H2. do 2 eexists. split; [by apply hash_key_set|]. split; [by apply hash_key_set|].
  destruct (simple_facts schema m KeySize Hm) as (_ & _ & _ & _ & _ & _ & Hsum & _ & _ & Ek & _).
  assert (forall r, key_row m r -> Z.of_nat (length (rd r header (key_size_ m))) = key_size_ m) as HL.
  { intros r Hr. pose proof (hash_key_set r n Hr) as E. unfold HashKey.SetFromProjectedRow in E. destruct (_ && _); [|done].
    destruct (ProjectedRow.AccessWithNullCheck r 0); [|done]. injection E as E. apply (f_equal length) in E. rewrite length_wr, length_app, !length_replicate in E. lia. }
  pose proof (HL r1 H1) as L1. pose proof (HL r2 H2) as L2. unfold HashKey.equal_to. rewrite bool_decide_eq_true, memcmp_0, !take_ge by (rewrite length_app, length_replicate; lia).
  assert (length (attr_ns m) = length sizes) as Ln by apply length_fmap.
  etransitivity; [|etransitivity; [apply (hashed_bytes r1 r2 H1 H2)|]].
  - split; [intros E; by apply app_inj_2 in E as [E _]|by intros ->].
  - unfold key_values. split.
    + intros E. apply imap_ext. intros k x Hk. apply lookup_lt_Some in Hk. rewrite !decide_True by lia. apply E. lia.
    + intros E k Hk. destruct (lookup_lt_is_Some_2 (attr_ns m) k) as [x Hx]; [lia|]. apply (f_equal (.!! k)) in E. rewrite !list_lookup_imap, Hx in E.
      cbn in E. rewrite !decide_True in E by done. by injection E.
Qed.

End hashed.

(** C26: an index on integers orders its packed keys as their attributes.  For a schema the
    builder packs, with a key size that it fits, and rows without nulls: [SetFromProjectedRow]
    does not fail; the attributes read back are the row's first values, and the smallest
    values for those not set; [std::less] on the bytes is the lexicographic order of the
    attributes as signed integers, [std::equal_to] their equality, and
    [PartialLessThan] holds exactly if the first attributes of the left key are not larger. *)
Theorem compact_key_order (schema : IndexSchema) (m : IndexMetadata.IndexMetadata) (KeySize n1 n2 : nat) (r1 r2 : list Z) :
  simple_index schema m KeySize -> (KeySize <= 32)%nat -> key_row m r1 -> key_row m r2 ->
  (0 < n1 <= length (GetColumns schema))%nat -> (0 < n2 <= length (GetColumns schema))%nat ->
  exists k1 k2, let v1 := key_values m r1 n1 in let v2 := key_values m r2 n2 in
    CompactIntsKey.SetFromProjectedRow KeySize r1 m n1 = Some k1 /\ CompactIntsKey.SetFromProjectedRow KeySize r2 m n2 = Some k2 /\
    (forall i size offset, IndexMetadata.attr_sizes_ m !! i = Some size -> IndexMetadata.compact_ints_offsets_ m !! i = Some offset ->
      v1 !! i = Some (CompactIntsKey.GetInteger (Z.to_nat size) offset k1)) /\
    (CompactIntsKey.less KeySize k1 k2 = true <-> lex_lt v1 v2) /\
    (CompactIntsKey.equal_to KeySize k1 k2 = true <-> v1 = v2) /\
    forall n, (n <= length (GetColumns schema))%nat ->
      exists b, CompactIntsKey.PartialLessThan k1 k2 m n = Some b /\ (b = true <-> ~ lex_lt (take n v2) (take n v1)).
Proof.
  intros Hm HK Hr1 Hr2 Hn1 Hn2. destruct (simple_facts schema m KeySize Hm) as (_ & _ & _ & _ & Elen & _).
  destruct (simple_offsets schema m KeySize Hm HK) as [_ Hoff].
  rewrite (make_schema schema m) in Elen by apply Hm. rewrite <-Elen in *.
  destruct (SetFromProjectedRow_holds schema m KeySize Hm HK r1 n1 Hr1 Hn1) as (k1 & E1 & H1).
  destruct (SetFromProjectedRow_holds schema m KeySize Hm HK r2 n2 Hr2 Hn2) as (k2 & E2 & H2).
  exists k1, k2. split; [done|]. split; [done|]. split; [|split; [by apply (holds_less KeySize (attr_ns m))|split; [by apply (holds_equal KeySize (attr_ns m))|]]].
  - intros i size offset Hs Ho. rewrite (Hoff i size Hs) in Ho. injection Ho as <-.
    assert (attr_ns m !! i = Some (Z.to_nat size)) as Hn by (unfold attr_ns; by rewrite list_lookup_fmap, Hs).
    destruct (Forall2_lookup_l _ _ _ _ _ (proj1 H1) Hn) as (v & Hv & _). rewrite Hv. f_equal. symmetry. by eapply holds_get.
  - intros n Hn. by apply (partial_less_than_lex schema m KeySize Hm HK _ _ _ _ H1 H2 n 0).
Qed.

(** Keys (SMALLINT, INTEGER): the row stores the INTEGER first. *)
Definition example_schema : IndexSchema := Schema [Col 1 SMALLINT false 0; Col 2 INTEGER false 0] BPLUSTREE false.

Definition example_metadata : IndexMetadata.IndexMetadata :=
  IndexMetadata.Metadata example_schema [2; 4] [2; 4] false [0; 2] (IndexMetadata.ComputeKeyOidToOffset (GetColumns example_schema) [1; 0])
    (make [4; 2] [1; 0]) (make [4; 2] [1; 0]) 6.

Definition example_row (a b : Z) : list Z :=
  ProjectedRow.Set_ (ProjectedRow.Set_ (ProjectedRow.InitializeRow (make [4; 2] [1; 0]) (replicate 40 0)) 0 (Some (le_bytes 4 b))) 1 (Some (le_bytes 2 a)).

Lemma example_simple : simple_index example_schema example_metadata 8.
Proof. split_and!; [reflexivity|reflexivity|done|vm_compute; congruence|vm_compute; congruence]. Qed.

Lemma example_key_row a b : key_row example_metadata (example_row a b).
Proof.
  assert (row_args [4; 2] [1; 0]) as Ha.
  { split_and!; try done.
    - repeat constructor; lia.
    - repeat apply Forall_cons_2; [left; set_solver..|constructor].
    - repeat constructor; vm_compute; congruence. }
  destruct (InitializeRow_view [4; 2] [1; 0] Ha (replicate 40 0)) as (_ & H0 & _).
  { vm_compute. congruence. }
  { apply Forall_replicate. split; vm_compute; congruence. }
  destruct (Set_view [4; 2] [1; 0] Ha _ 0 (Some (le_bytes 4 b)) H0) as (H1 & V1 & _);
    [cbn; lia|split; [by rewrite length_le_bytes|apply le_bytes_byte]|].
  destruct (Set_view [4; 2] [1; 0] Ha _ 1 (Some (le_bytes 2 a)) H1) as (H2 & V2 & F);
    [cbn; lia|split; [by rewrite length_le_bytes|apply le_bytes_byte]|].
  split; [exact H2|]. specialize (F 0%nat ltac:(cbn; lia) ltac:(done)). rewrite V1 in F.
  assert (forall k v, value [4; 2] (example_row a b) k = Some v -> ProjectedRow.IsNull (example_row a b) (Z.of_nat k) = false) as Hn.
  { intros k v. unfold value, ProjectedRow.Get, ProjectedRow.AccessWithNullCheck, ProjectedRow.IsNull. by destruct (RawBitmap.Test _ _). }
  intros [|[|k]] Hk; [by apply (Hn 0%nat _ F)|by apply (Hn 1%nat _ V2)|cbn in Hk; lia].
Qed.

Lemma compact_key_order_witness : exists k1 k2,
  CompactIntsKey.SetFromProjectedRow 8 (example_row (-5) 100) example_metadata 2 = Some k1 /\
  CompactIntsKey.SetFromProjectedRow 8 (example_row 3 (-7)) example_metadata 2 = Some k2 /\ CompactIntsKey.less 8 k1 k2 = true.
Proof.
  destruct (compact_key_order example_schema example_metadata 8 2 2 (example_row (-5) 100) (example_row 3 (-7))) as (k1 & k2 & E1 & E2 & _ & H & _);
    [apply example_simple|lia|apply example_key_row..|cbn; lia|cbn; lia|].
  exists k1, k2. split; [exact E1|]. split; [exact E2|]. apply H. vm_compute. apply lex_head. reflexivity.
Defined.
