(* ===== verification/GenericKeys.v ===== *)
(** * Generic index keys

    [storage/index/generic_key.h]: keys with nullable and variable-length attributes.  A
    key holds a projected row in its bytes; when some varlen may be too long for an entry,
    [SetFromProjectedRow] rewrites the row with the strings' contents inlined.  The
    comparators walk the attributes in the order of the schema.

    The refinement: comparing keys is comparing the lists of the rows' values, null first,
    strings by their contents wherever they are stored. *)

From S2P Require Import Prelude Bitmap Layout TupleAccess ProjectedRow Varlen IndexKeys.

Module GenericKey.

Definition GENERICKEY_MAX_SIZE : Z := 256.

(** A key's bytes, which start 8-aligned because the object holds a pointer, and that
    pointer, to the index's metadata. *)
Record GenericKey := Key { key_data_ : list Z; metadata_ : IndexMetadata.IndexMetadata }.

(** *** TypeComparators *)

Inductive Op := LT | GT | EQ.

Definition op_Z (op : Op) (a b : Z) : bool :=
  match op with LT => bool_decide (a < b) | GT => bool_decide (b < a) | EQ => bool_decide (a = b) end.

(** Comparisons of doubles, on their 64 bits: no comparison with a NaN holds, others
    compare sign and magnitude. *)
Definition is_nan (bits : Z) : bool := bool_decide (0x7FF0000000000000 < bits `mod` 2 ^ 63).
Definition magnitude (bits : Z) : Z := if Z.testbit bits 63 then - (bits `mod` 2 ^ 63) else bits `mod` 2 ^ 63.
Definition op_double (op : Op) (a b : Z) : bool :=
  negb (is_nan a) && negb (is_nan b) && op_Z op (magnitude a) (magnitude b).

(** Inlined varlens: a 32-bit size, then the content. *)
Definition CompareVarlens (lhs : list Z) (lhs_attr : Z) (rhs : list Z) (rhs_attr : Z) : Z :=
  let lhs_size := le_val (rd lhs lhs_attr 4) in
  let rhs_size := le_val (rd rhs rhs_attr 4) in
  let smallest_size := Z.min lhs_size rhs_size in
  let result := memcmp (rd lhs (lhs_attr + 4) smallest_size) (rd rhs (rhs_attr + 4) smallest_size) (Z.to_nat smallest_size) in
  if decide (result = 0 /\ lhs_size <> rhs_size) then s32 (u32 (lhs_size - rhs_size)) else result.

(** [COMPARE_FUNC(OP)] on the attributes at offsets of two rows; [None] where it throws. *)
Definition Compare (op : Op) (type_id : TypeId) (lhs : list Z) (lhs_attr : Z) (rhs : list Z) (rhs_attr : Z) : option bool :=
  let unsigned n := op_Z op (le_val (rd lhs lhs_attr n)) (le_val (rd rhs rhs_attr n)) in
  let signed n := op_Z op (wraps (8 * n) (le_val (rd lhs lhs_attr n))) (wraps (8 * n) (le_val (rd rhs rhs_attr n))) in
  match type_id with
  | BOOLEAN | TINYINT => Some (signed 1)
  | SMALLINT => Some (signed 2)
  | INTEGER => Some (signed 4)
  | DATE => Some (unsigned 4)
  | BIGINT => Some (signed 8)
  | DECIMAL => Some (op_double op (le_val (rd lhs lhs_attr 8)) (le_val (rd rhs rhs_attr 8)))
  | TIMESTAMP => Some (unsigned 8)
  | VARCHAR | VARBINARY => Some (op_Z op (CompareVarlens lhs lhs_attr rhs rhs_attr) 0)
  | _ => None
  end.

Section key.
Context (KeySize : nat).

(** *** SetFromProjectedRow *)

(** The loop's body: attribute [i] of the row [from] into the key's row [pr]. *)
Definition copy_attr (mem : buffers) (from : list Z) (m : IndexMetadata.IndexMetadata) (i : nat) (pr : list Z) : option (list Z) :=
  let offset := u16 (ProjectedRow.ColumnId from (Z.of_nat i)) in
  if decide (offset = u16 (ProjectedRow.ColumnId pr (Z.of_nat i))) then
    match ProjectedRow.AccessWithNullCheck from offset with
    | None => Some (ProjectedRow.SetNull pr offset)
    | Some from_attr =>
      inlined_attr_size ← IndexMetadata.inlined_attr_sizes_ m !! i;
      if decide (inlined_attr_size <= 16) then
        let '(to_attr, pr) := ProjectedRow.AccessForceNotNull pr offset in
        Some (wr pr to_attr (rd from from_attr inlined_attr_size))
      else
        let varlen := entry_of_bytes (rd from from_attr 16) in
        let '(to_attr, pr) := ProjectedRow.AccessForceNotNull pr offset in
        let varlen_size := Size varlen in
        let pr := wr pr to_attr (le_bytes 4 varlen_size) in
        if decide (to_attr + 4 + varlen_size <= Z.of_nat KeySize) then
          Some (wr pr (to_attr + 4) (take (Z.to_nat varlen_size) (Content mem varlen)))
        else None
    end
  else None.

Fixpoint copy_attrs (mem : buffers) (from : list Z) (m : IndexMetadata.IndexMetadata) (k i : nat) (pr : list Z) : option (list Z) :=
  match k with
  | O => Some pr
  | S k => pr ← copy_attr mem from m i pr; copy_attrs mem from m k (S i) pr
  end.

(** [None] where an assertion fails. *)
Definition SetFromProjectedRow (mem : buffers) (from : list Z) (m : IndexMetadata.IndexMetadata) (num_attrs : nat) : option GenericKey :=
  let num_cols := length (GetColumns (IndexMetadata.key_schema_ m)) in
  if decide (ProjectedRow.NumColumns from = Z.of_nat num_cols) then
    let key_data := replicate KeySize 0 in
    if IndexMetadata.must_inline_varlen_ m then
      let pr := ProjectedRow.InitializeRow (IndexMetadata.inlined_initializer_ m) key_data in
      if decide (0 < num_attrs <= num_cols)%nat then
        pr ← copy_attrs mem from m num_attrs 0 pr; Some (Key pr m)
      else None
    else
      if decide (ProjectedRow.Size from <= Z.of_nat KeySize) then
        Some (Key (wr key_data 0 (rd from 0 (ProjectedRow.Size from))) m)
      else None
  else None.

(** *** Comparators *)

Definition GetProjectedRow (key : GenericKey) : option (list Z) :=
  if decide (ProjectedRow.Size (key_data_ key) <= Z.of_nat KeySize) then Some (key_data_ key) else None.

(** The pointers to attribute [i] of two keys, and its type. *)
Definition attr_pair (m : IndexMetadata.IndexMetadata) (lhs rhs : GenericKey) (i : nat) :
    option (list Z * list Z * option Z * option Z * TypeId) :=
  lhs_pr ← GetProjectedRow lhs;
  rhs_pr ← GetProjectedRow rhs;
  let offset := u16 (ProjectedRow.ColumnId lhs_pr (Z.of_nat i)) in
  if decide (ProjectedRow.ColumnId lhs_pr (Z.of_nat i) = ProjectedRow.ColumnId rhs_pr (Z.of_nat i)) then
    col ← GetColumns (IndexMetadata.key_schema_ m) !! i;
    Some (lhs_pr, rhs_pr, ProjectedRow.AccessWithNullCheck lhs_pr offset, ProjectedRow.AccessWithNullCheck rhs_pr offset, Type_ col)
  else None.

(** The loop of [std::less] and [PartialLessThan]; [final] is returned for equal keys. *)
Fixpoint less_loop (final : bool) (lhs rhs : GenericKey) (k i : nat) : option bool :=
  match k with
  | O => Some final
  | S k =>
    '(lhs_pr, rhs_pr, lhs_attr, rhs_attr, type_id) ← attr_pair (metadata_ lhs) lhs rhs i;
    match lhs_attr, rhs_attr with
    | None, None => less_loop final lhs rhs k (S i)
    | None, Some _ => Some true
    | Some _, None => Some false
    | Some lhs_attr, Some rhs_attr =>
      lt ← Compare LT type_id lhs_pr lhs_attr rhs_pr rhs_attr;
      if (lt : bool) then Some true else
      gt ← Compare GT type_id lhs_pr lhs_attr rhs_pr rhs_attr;
      if (gt : bool) then Some false else less_loop final lhs rhs k (S i)
    end
  end.

Definition num_cols (key : GenericKey) : nat := length (GetColumns (IndexMetadata.key_schema_ (metadata_ key))).

Definition PartialLessThan (lhs rhs : GenericKey) (num_attrs : nat) : option bool :=
  if decide (0 < num_attrs <= num_cols lhs)%nat then less_loop true lhs rhs num_attrs 0 else None.
Definition less (lhs rhs : GenericKey) : option bool := less_loop false lhs rhs (num_cols lhs) 0.

Fixpoint equal_loop (lhs rhs : GenericKey) (k i : nat) : option bool :=
  match k with
  | O => Some true
  | S k =>
    '(lhs_pr, rhs_pr, lhs_attr, rhs_attr, type_id) ← attr_pair (metadata_ lhs) lhs rhs i;
    match lhs_attr, rhs_attr with
    | None, None => equal_loop lhs rhs k (S i)
    | None, Some _ | Some _, None => Some false
    | Some lhs_attr, Some rhs_attr =>
      eq ← Compare EQ type_id lhs_pr lhs_attr rhs_pr rhs_attr;
      if (eq : bool) then equal_loop lhs rhs k (S i) else Some false
    end
  end.
Definition equal_to (lhs rhs : GenericKey) : option bool := equal_loop lhs rhs (num_cols lhs) 0.

(** [std::hash], with XXH3 as the function [xxh3] of the bytes and the seed. *)
Fixpoint hash_loop (xxh3 : list Z -> Z -> Z) (key : GenericKey) (k i : nat) (running_hash : Z) : option Z :=
  match k with
  | O => Some running_hash
  | S k =>
    pr ← GetProjectedRow key;
    match ProjectedRow.AccessWithNullCheck pr (u16 (ProjectedRow.ColumnId pr (Z.of_nat i))) with
    | None => hash_loop xxh3 key k (S i) running_hash
    | Some attr =>
      size ← IndexMetadata.inlined_attr_sizes_ (metadata_ key) !! i;
      hash_loop xxh3 key k (S i) (xxh3 (rd pr attr size) running_hash)
    end
  end.
Definition hash (xxh3 : list Z -> Z -> Z) (key : GenericKey) : option Z := hash_loop xxh3 key (num_cols key) 0 0.

End key.

End GenericKey.
Import GenericKey.

(** ** Comparison of values *)

(** The value of the attribute of type [t] at an offset of a key's row: a string's
    bytes, or one number that orders as the type does. *)
Definition key_attr_value (t : TypeId) (pr : list Z) (off : Z) : list Z :=
  match t with
  | BOOLEAN | TINYINT => [s8 (le_val (rd pr off 1))]
  | SMALLINT => [s16 (le_val (rd pr off 2))]
  | INTEGER => [s32 (le_val (rd pr off 4))]
  | DATE => [le_val (rd pr off 4)]
  | BIGINT => [s64 (le_val (rd pr off 8))]
  | DECIMAL => [magnitude (le_val (rd pr off 8))]
  | TIMESTAMP => [le_val (rd pr off 8)]
  | VARCHAR | VARBINARY => rd pr (off + 4) (le_val (rd pr off 4))
  | INVALID | PARAMETER_OFFSET => []
  end.

Definition key_attr_ok (t : TypeId) (pr : list Z) (off : Z) : Prop :=
  match t with
  | INVALID | PARAMETER_OFFSET => False
  | DECIMAL => is_nan (le_val (rd pr off 8)) = false
  | VARCHAR | VARBINARY =>
    0 <= off /\ 0 <= le_val (rd pr off 4) < 2 ^ 31 /\ off + 4 + le_val (rd pr off 4) <= Z.of_nat (length pr)
  | _ => True
  end.

Lemma lex_single a b : lex_lt [a] [b] <-> a < b.
Proof. split; [|by constructor]. inversion 1 as [|? ? ? ? H'|? ? ? H']; [done|inversion H']. Qed.

Lemma memcmp_opp a : forall b n, memcmp b a n = - memcmp a b n.
Proof.
  induction a as [|x a IH]; intros [|y b] [|n]; cbn [memcmp]; try done. repeat case_decide; try lia. apply IH.
Qed.

Lemma memcmp_range a : forall b n, -1 <= memcmp a b n <= 1.
Proof. induction a as [|x a IH]; intros [|y b] [|n]; cbn [memcmp]; try lia. repeat case_decide; (lia || apply IH). Qed.

(** The comparison of varlens is the lexicographic order of their contents. *)
Lemma varlen_result (a b : list Z) : Z.of_nat (length a) < 2 ^ 31 -> Z.of_nat (length b) < 2 ^ 31 ->
  let smallest := Z.min (Z.of_nat (length a)) (Z.of_nat (length b)) in
  let result := memcmp a b (Z.to_nat smallest) in
  let r := if decide (result = 0 /\ Z.of_nat (length a) <> Z.of_nat (length b)) then s32 (u32 (Z.of_nat (length a) - Z.of_nat (length b))) else result in
  (r < 0 <-> lex_lt a b) /\ (0 < r <-> lex_lt b a) /\ (r = 0 <-> a = b).
Proof.
  intros Ha Hb. cbv zeta.
  assert (Z.to_nat (Z.min (Z.of_nat (length a)) (Z.of_nat (length b))) = min (length a) (length b)) as -> by lia.
  pose proof (memcmp_lex a b) as L1. pose proof (memcmp_lex b a) as L2. cbv zeta in L1, L2.
  rewrite (Nat.min_comm (length b)), memcmp_opp in L2. pose proof (memcmp_0 a b (min (length a) (length b)) ltac:(lia) ltac:(lia)) as L0.
  set (result := memcmp a b (min (length a) (length b))) in *. set (r := if decide (result = 0 /\ _) then _ else _).
  assert (r = if decide (result = 0) then Z.of_nat (length a) - Z.of_nat (length b) else result) as ->.
  { subst r. rewrite wraps_wrapu. rewrite wraps_small by (unfold is_sint; change (2 ^ (32 - 1)) with (2 ^ 31); lia). repeat case_decide; lia. }
  rewrite (decide_ext (- result = 0) (result = 0)) in L2 by lia. destruct (decide (result = 0)) as [E|E].
  - rewrite bool_decide_eq_true in L1, L2. rewrite <-L1, <-L2. split; [lia|]. split; [lia|]. split.
    + intros El. assert (length a = length b) as El' by lia. apply L0 in E. rewrite El', Nat.min_id in E. by rewrite !take_ge in E by lia.
    + intros ->. lia.
  - rewrite bool_decide_eq_true in L1, L2. split; [done|]. split; [rewrite <-L2; lia|]. split; [done|].
    intros ->. destruct E. by apply L0.
Qed.

Lemma CompareVarlens_spec t lhs la rhs ra : t = VARCHAR \/ t = VARBINARY -> key_attr_ok t lhs la -> key_attr_ok t rhs ra ->
  let r := CompareVarlens lhs la rhs ra in let a := key_attr_value t lhs la in let b := key_attr_value t rhs ra in
  (r < 0 <-> lex_lt a b) /\ (0 < r <-> lex_lt b a) /\ (r = 0 <-> a = b).
Proof.
  intros Ht Hl Hr. assert (key_attr_ok VARCHAR lhs la /\ key_attr_ok VARCHAR rhs ra) as [(L0 & L1 & L2) (R0 & R1 & R2)] by (destruct Ht as [-> | ->]; done).
  assert (key_attr_value t lhs la = rd lhs (la + 4) (le_val (rd lhs la 4)) /\ key_attr_value t rhs ra = rd rhs (ra + 4) (le_val (rd rhs ra 4))) as [-> ->]
    by (destruct Ht as [-> | ->]; done).
  unfold CompareVarlens. set (ls := le_val (rd lhs la 4)) in *. set (rs := le_val (rd rhs ra 4)) in *.
  assert (Z.of_nat (length (rd lhs (la + 4) ls)) = ls) as El by (apply length_rd; lia).
  assert (Z.of_nat (length (rd rhs (ra + 4) rs)) = rs) as Er by (apply length_rd; lia).
  pose proof (varlen_result (rd lhs (la + 4) ls) (rd rhs (ra + 4) rs) ltac:(lia) ltac:(lia)) as H. cbv zeta in H |- *. rewrite El, Er in H.
  assert (memcmp (rd lhs (la + 4) (Z.min ls rs)) (rd rhs (ra + 4) (Z.min ls rs)) (Z.to_nat (Z.min ls rs)) =
          memcmp (rd lhs (la + 4) ls) (rd rhs (ra + 4) rs) (Z.to_nat (Z.min ls rs))) as ->; [|exact H].
  unfold rd, slice. by rewrite !memcmp_take_min by lia.
Qed.

Lemma op_single a b :
  (op_Z LT a b = true <-> lex_lt [a] [b]) /\ (op_Z GT a b = true <-> lex_lt [b] [a]) /\ (op_Z EQ a b = true <-> [a] = [b]).
Proof.
  cbn [op_Z]. rewrite !bool_decide_eq_true, !lex_single. split; [done|]. split; [done|]. split; [by intros ->|by intros [=]].
Qed.

(** The three comparisons of one attribute. *)
Lemma Compare_spec t lhs la rhs ra : key_attr_ok t lhs la -> key_attr_ok t rhs ra ->
  let a := key_attr_value t lhs la in let b := key_attr_value t rhs ra in
  exists lt gt eq, Compare LT t lhs la rhs ra = Some lt /\ Compare GT t lhs la rhs ra = Some gt /\ Compare EQ t lhs la rhs ra = Some eq /\
    (lt = true <-> lex_lt a b) /\ (gt = true <-> lex_lt b a) /\ (eq = true <-> a = b).
Proof.
  intros Hl Hr. cbv zeta.
  destruct t; try (destruct Hl; fail); try (do 3 eexists; split; [reflexivity|]; split; [reflexivity|]; split; [reflexivity|]; apply op_single).
  - do 3 eexists. split; [reflexivity|]. split; [reflexivity|]. split; [reflexivity|].
    unfold op_double. cbn [key_attr_ok] in Hl, Hr. rewrite Hl, Hr. apply op_single.
  - destruct (CompareVarlens_spec VARCHAR lhs la rhs ra) as (H1 & H2 & H3); [by left|done|done|].
    do 3 eexists. split; [reflexivity|]. split; [reflexivity|]. split; [reflexivity|]. cbn [op_Z]. by rewrite !bool_decide_eq_true.
  - destruct (CompareVarlens_spec VARBINARY lhs la rhs ra) as (H1 & H2 & H3); [by right|done|done|].
    do 3 eexists. split; [reflexivity|]. split; [reflexivity|]. split; [reflexivity|]. cbn [op_Z]. by rewrite !bool_decide_eq_true.
Qed.

(** Null comes first; lists compare by their first difference. *)
Inductive attr_lt : option (list Z) -> option (list Z) -> Prop :=
| null_lt b : attr_lt None (Some b)
| val_lt a b : lex_lt a b -> attr_lt (Some a) (Some b).

Inductive attrs_lt : list (option (list Z)) -> list (option (list Z)) -> Prop :=
| attrs_head a b l k : attr_lt a b -> attrs_lt (a :: l) (b :: k)
| attrs_tail a l k : attrs_lt l k -> attrs_lt (a :: l) (a :: k).

Lemma attrs_cons a b l k : attrs_lt (a :: l) (b :: k) <-> attr_lt a b \/ (a = b /\ attrs_lt l k).
Proof. split; [inversion 1; tauto|]. intros [?|[-> ?]]; [by constructor|by apply attrs_tail]. Qed.

Lemma val_lt_iff x y : attr_lt (Some x) (Some y) <-> lex_lt x y.
Proof. split; [by inversion 1|by constructor]. Qed.

Lemma cons_eq_iff {A} (a b : A) l k : a :: l = b :: k <-> a = b /\ l = k.
Proof. split; [by intros [= -> ->]|by intros [-> ->]]. Qed.

(** A key of the metadata [m] whose attributes have the values [vs]. *)
Definition key_view (KeySize : nat) (m : IndexMetadata.IndexMetadata) (key : GenericKey) (vs : list (option (list Z))) : Prop :=
  metadata_ key = m /\ ProjectedRow.Size (key_data_ key) <= Z.of_nat KeySize /\
  length vs = length (GetColumns (IndexMetadata.key_schema_ m)) /\
  forall i v, vs !! i = Some v -> exists col off,
    GetColumns (IndexMetadata.key_schema_ m) !! i = Some col /\
    IndexMetadata.ComputePROffsets (IndexMetadata.inlined_attr_sizes_ m) !! i = Some off /\
    ProjectedRow.ColumnId (key_data_ key) (Z.of_nat i) = off /\
    match v with
    | None => ProjectedRow.AccessWithNullCheck (key_data_ key) (u16 off) = None
    | Some a => exists p, ProjectedRow.AccessWithNullCheck (key_data_ key) (u16 off) = Some p /\
        key_attr_ok (Type_ col) (key_data_ key) p /\ key_attr_value (Type_ col) (key_data_ key) p = a
    end.

Section compare.
Context (KeySize : nat) (m : IndexMetadata.IndexMetadata).
Context (lhs rhs : GenericKey) (vs ws : list (option (list Z))).
Hypothesis Hl : key_view KeySize m lhs vs.
Hypothesis Hr : key_view KeySize m rhs ws.

(** One attribute of both keys. *)
Lemma attr_pair_view i v w : vs !! i = Some v -> ws !! i = Some w ->
  exists t l r, attr_pair KeySize (metadata_ lhs) lhs rhs i = Some (key_data_ lhs, key_data_ rhs, l, r, t) /\
    match v with
    | None => l = None
    | Some a => exists p, l = Some p /\ key_attr_ok t (key_data_ lhs) p /\ key_attr_value t (key_data_ lhs) p = a
    end /\
    match w with
    | None => r = None
    | Some b => exists p, r = Some p /\ key_attr_ok t (key_data_ rhs) p /\ key_attr_value t (key_data_ rhs) p = b
    end.
Proof.
  intros Hv Hw. destruct Hl as (El & Sl & _ & Vl), Hr as (_ & Sr & _ & Vr).
  destruct (Vl i v Hv) as (col & off & Hc & Ho & Il & Al). destruct (Vr i w Hw) as (col' & off' & Hc' & Ho' & Ir & Ar).
  rewrite Hc in Hc'. injection Hc' as <-. rewrite Ho in Ho'. injection Ho' as <-.
  unfold attr_pair, GetProjectedRow. rewrite El, !decide_True by done. cbn [mbind option_bind].
  rewrite Il, Ir, decide_True, Hc by done. cbn [mbind option_bind]. do 3 eexists. split; [reflexivity|]. done.
Qed.

(** The outcome of comparing the attributes from the [i]-th on. *)
Lemma less_loop_view final k : forall i, (i + k <= length vs)%nat ->
  exists b, less_loop KeySize final lhs rhs k i = Some b /\
    (b = true <-> attrs_lt (take k (drop i vs)) (take k (drop i ws)) \/ (final = true /\ take k (drop i vs) = take k (drop i ws))).
Proof.
  pose proof (proj1 (proj2 (proj2 Hl))) as Lv. pose proof (proj1 (proj2 (proj2 Hr))) as Lw.
  induction k as [|k IH]; intros i Hi; cbn [less_loop].
  { exists final. rewrite !take_0. split; [done|]. split; [by right|]. intros [H|[? _]]; [inversion H|done]. }
  destruct (lookup_lt_is_Some_2 vs i) as [v Hv]; [lia|]. destruct (lookup_lt_is_Some_2 ws i) as [w Hw]; [lia|].
  destruct (attr_pair_view i v w Hv Hw) as (t & l & r & -> & Pl & Pr). cbn [mbind option_bind].
  rewrite (drop_S vs v i Hv), (drop_S ws w i Hw). cbn [take]. setoid_rewrite attrs_cons. setoid_rewrite cons_eq_iff.
  destruct (IH (S i)) as (b & Eb & Hb); [lia|]. destruct v as [x|], w as [y|].
  - destruct Pl as (p & -> & Okp & Ex), Pr as (q & -> & Okq & Ey).
    destruct (Compare_spec t _ p _ q Okp Okq) as (lt & gt & eq & -> & -> & _ & Hlt & Hgt & _). rewrite Ex, Ey in Hlt, Hgt. cbn [mbind option_bind].
    pose proof (lex_lt_irrefl x) as Ix. setoid_rewrite val_lt_iff. destruct lt; [exists true; tauto|]. destruct gt.
    + pose proof (proj1 Hgt eq_refl) as HL. exists false. split; [done|]. split; [done|]. pose proof (lex_lt_trans x y x). intros [[?|[[= ->] _]]|[_ [[= ->] _]]]; tauto.
    + destruct (lex_total x y) as [HL|[->|HL]]; [apply Hlt in HL; done| |apply Hgt in HL; done]. exists b. split; [done|]. rewrite Hb. tauto.
  - destruct Pl as (p & -> & _). subst r. exists false. split; [done|]. split; [done|]. intros [[H|[[=] _]]|[_ [[=] _]]]. inversion H.
  - destruct Pr as (p & -> & _). subst l. exists true. split; [done|]. split; [|done]. intros _. left. left. constructor.
  - subst l r. exists b. split; [done|]. rewrite Hb. split; [tauto|]. intros [[H|?]|?]; [inversion H|tauto..].
Qed.

Lemma equal_loop_view k : forall i, (i + k <= length vs)%nat ->
  exists b, equal_loop KeySize lhs rhs k i = Some b /\ (b = true <-> take k (drop i vs) = take k (drop i ws)).
Proof.
  pose proof (proj1 (proj2 (proj2 Hl))) as Lv. pose proof (proj1 (proj2 (proj2 Hr))) as Lw.
  induction k as [|k IH]; intros i Hi; cbn [equal_loop]; [by exists true|].
  destruct (lookup_lt_is_Some_2 vs i) as [v Hv]; [lia|]. destruct (lookup_lt_is_Some_2 ws i) as [w Hw]; [lia|].
  destruct (attr_pair_view i v w Hv Hw) as (t & l & r & -> & Pl & Pr). cbn [mbind option_bind].
  rewrite (drop_S vs v i Hv), (drop_S ws w i Hw). cbn [take]. setoid_rewrite cons_eq_iff.
  destruct (IH (S i)) as (b & Eb & Hb); [lia|]. destruct v as [x|], w as [y|].
  - destruct Pl as (p & -> & Okp & Ex), Pr as (q & -> & Okq & Ey).
    destruct (Compare_spec t _ p _ q Okp Okq) as (lt & gt & eq & _ & _ & -> & _ & _ & Heq). rewrite Ex, Ey in Heq. cbn [mbind option_bind].
    destruct eq; [exists b; rewrite (proj1 Heq eq_refl), Hb; tauto|]. exists false. split; [done|]. split; [done|]. intros [[= ->] _]. by apply Heq.
  - destruct Pl as (p & -> & _). subst r. exists false. split; [done|]. split; [done|]. by intros [[=] _].
  - destruct Pr as (p & -> & _). subst l. exists false. split; [done|]. split; [done|]. by intros [[=] _].
  - subst l r. exists b. split; [done|]. rewrite Hb. tauto.
Qed.

End compare.

(** ** Keys hold the values of rows *)

(** The value of an attribute stored as [bs] in a table's row. *)
Definition row_attr_value (mem : buffers) (t : TypeId) (bs : list Z) : list Z :=
  match t with
  | VARCHAR | VARBINARY => StringView mem (entry_of_bytes bs)
  | _ => key_attr_value t bs 0
  end.

(** What a row's attribute must be: no NaN, a readable string of at most the declared
    length, short ones with the reclaim bit clear. *)
Definition row_attr_ok (mem : buffers) (col : Column) (bs : list Z) : Prop :=
  match Type_ col with
  | INVALID | PARAMETER_OFFSET => False
  | DECIMAL => is_nan (le_val bs) = false
  | VARCHAR | VARBINARY =>
    let e := entry_of_bytes bs in
    entry_ok mem e /\ Forall is_byte (Content mem e) /\ Size e <= MaxVarlenSize col /\ (IsInlined e = true -> 0 <= size_ e)
  | _ => True
  end.

Definition is_varlen (t : TypeId) : bool := match t with VARCHAR | VARBINARY => true | _ => false end.

(** How the key stores it: as the row does, or with the string's bytes in place. *)
Definition key_repr (mem : buffers) (t : TypeId) (bs kbs : list Z) : Prop :=
  (kbs = bs /\ (is_varlen t = true -> IsInlined (entry_of_bytes bs) = true)) \/
  (is_varlen t = true /\ exists tail, kbs = le_bytes 4 (Size (entry_of_bytes bs)) ++ StringView mem (entry_of_bytes bs) ++ tail).

Lemma rd_prefix data p bs k : 0 <= p -> rd data p (Z.of_nat (length bs)) = bs -> 0 <= k <= Z.of_nat (length bs) -> rd data p k = take (Z.to_nat k) bs.
Proof. intros Hp E Hk. rewrite <-E at 1. unfold rd, slice. rewrite take_take. f_equal. lia. Qed.

Lemma rd_at data p bs o k : 0 <= p -> 0 <= o -> rd data p (Z.of_nat (length bs)) = bs -> 0 <= k -> o + k <= Z.of_nat (length bs) ->
  rd data (p + o) k = take (Z.to_nat k) (drop (Z.to_nat o) bs).
Proof.
  intros Hp Ho E Hk Hl. rewrite <-E. unfold rd, slice. apply list_eq. intros i.
  destruct (decide (i < Z.to_nat k)%nat); [|by rewrite !lookup_take_ge by lia].
  rewrite !lookup_take_lt, !lookup_drop, lookup_take_lt, lookup_drop by lia. f_equal. lia.
Qed.

(** Attributes of fixed size are read from their bytes alone. *)
Lemma key_attr_fixed t n data p bs : GetTypeSize t = Some n -> is_varlen t = false -> 0 <= p -> Z.of_nat (length bs) = n ->
  rd data p (Z.of_nat (length bs)) = bs -> key_attr_value t data p = key_attr_value t bs 0.
Proof.
  intros Ht Hv Hp Hn E. rewrite Hn in E. assert (rd bs 0 n = bs) as E0 by (unfold rd, slice; rewrite drop_0; apply take_ge; lia).
  destruct t; try done; cbn in Ht; injection Ht as <-; cbn [key_attr_value]; by rewrite ?E, ?E0.
Qed.

Lemma inline_size bs : length bs = 16%nat -> Forall is_byte bs -> IsInlined (entry_of_bytes bs) = true -> 0 <= size_ (entry_of_bytes bs) ->
  le_val (take 4 bs) = Size (entry_of_bytes bs) /\ 0 <= Size (entry_of_bytes bs) <= 12.
Proof.
  intros Hl Hb Hi Hs. unfold IsInlined in Hi. apply bool_decide_eq_true in Hi. pose proof (Size_nonneg (entry_of_bytes bs)).
  split; [|unfold InlineThreshold in Hi; lia]. unfold Size. cbn [entry_of_bytes size_] in *. unfold slice in *. rewrite drop_0 in *.
  assert (is_uint 32 (le_val (take 4 bs))) as Hu.
  { pose proof (le_val_bound (take 4 bs) ltac:(by apply Forall_take)) as Hr. rewrite length_take, Hl in Hr. exact Hr. }
  revert Hs. unfold wraps. rewrite (wrapu_small 32 _ Hu). change (2 ^ (32 - 1)) with (2 ^ 31). destruct Hu as [Hu1 Hu2].
  case_decide; [|intros; lia]. intros _. rewrite Z.land_comm. change INT32_MAX with (Z.ones 31). rewrite Z.land_ones by lia.
  rewrite Z.mod_small by lia. symmetry. apply u32_small. lia.
Qed.

(** An entry stored inline is a size and its content, as an inlined string is. *)
Lemma repr_content mem t bs kbs : is_varlen t = true -> length bs = 16%nat -> Forall is_byte bs -> entry_ok mem (entry_of_bytes bs) ->
  (IsInlined (entry_of_bytes bs) = true -> 0 <= size_ (entry_of_bytes bs)) -> key_repr mem t bs kbs ->
  exists tail, kbs = le_bytes 4 (Size (entry_of_bytes bs)) ++ StringView mem (entry_of_bytes bs) ++ tail.
Proof.
  intros Hv L16 Hb Ho Hi [[-> Hinl]|[_ H]]; [|done]. set (e := entry_of_bytes bs) in *. specialize (Hinl Hv).
  destruct (inline_size bs L16 Hb Hinl (Hi Hinl)) as [Es Hs12]. fold e in Es, Hs12. exists (drop (4 + Z.to_nat (Size e)) bs).
  assert (length (take 4 bs) = 4%nat) as L4 by (rewrite length_take; lia).
  pose proof (le_bytes_val (take 4 bs) ltac:(by apply Forall_take)) as Eb. rewrite L4, Es in Eb. rewrite Eb.
  unfold StringView, Content. rewrite Hinl.
  change (payload_ e) with (slice 4 12 bs). unfold slice. rewrite take_take, Nat.min_l by lia. rewrite <-(take_drop 4 bs) at 1. f_equal. rewrite <-drop_drop, take_drop. done.
Qed.

(** The key's attribute has the value of the row's. *)
Lemma key_repr_value mem col n data p bs kbs :
  row_attr_ok mem col bs -> key_repr mem (Type_ col) bs kbs -> GetTypeSize (Type_ col) = Some n -> Z.of_nat (length bs) = AttrSizeBytes n ->
  Forall is_byte bs -> 0 <= MaxVarlenSize col < 2 ^ 16 -> 0 <= p -> p + Z.of_nat (length kbs) <= Z.of_nat (length data) -> rd data p (Z.of_nat (length kbs)) = kbs ->
  key_attr_ok (Type_ col) data p /\ key_attr_value (Type_ col) data p = row_attr_value mem (Type_ col) bs.
Proof.
  intros Hok Hrep Hn Hlen Hb Hmax Hp Hin E. destruct (is_varlen (Type_ col)) eqn:Hv.
  - assert (entry_ok mem (entry_of_bytes bs) /\ Size (entry_of_bytes bs) <= MaxVarlenSize col /\ (IsInlined (entry_of_bytes bs) = true -> 0 <= size_ (entry_of_bytes bs)))
      as (Ho & Hsz & Hi) by (unfold row_attr_ok in Hok; by destruct (Type_ col); try done; destruct Hok as (? & _ & ? & ?)).
    assert (length bs = 16%nat) as L16 by (destruct (Type_ col); try done; injection Hn as <-; change (AttrSizeBytes VARLEN_COLUMN) with 16 in Hlen; lia).
    destruct (repr_content mem _ bs kbs Hv L16 Hb Ho Hi Hrep) as [tail ->]. set (e := entry_of_bytes bs) in *.
    pose proof (Size_nonneg e). pose proof (length_StringView mem e Ho) as LS.
    assert (le_val (rd data p 4) = Size e) as E4.
    { rewrite (rd_prefix data p (le_bytes 4 (Size e) ++ StringView mem e ++ tail)) by first [exact E|lia|rewrite !length_app, length_le_bytes; lia].
      rewrite take_app_length' by (by rewrite length_le_bytes). rewrite le_val_bytes. apply wrapu_small. unfold is_uint. change (8 * Z.of_nat 4) with 32. lia. }
    assert (rd data (p + 4) (Size e) = StringView mem e) as E5.
    { rewrite (rd_at data p (le_bytes 4 (Size e) ++ StringView mem e ++ tail)) by first [exact E|lia|rewrite !length_app, length_le_bytes; lia].
      change (Z.to_nat 4) with 4%nat. rewrite drop_app_length' by (by rewrite length_le_bytes). apply take_app_length'. lia. }
    rewrite !length_app, length_le_bytes in Hin.
    destruct (Type_ col); try done; cbn [key_attr_ok key_attr_value row_attr_value]; rewrite E4; (split; [lia|exact E5]).
  - destruct Hrep as [[-> _]|[? _]]; [|congruence]. assert (AttrSizeBytes n = n) as En by (destruct (Type_ col); try done; by injection Hn as <-).
    rewrite En in Hlen. rewrite (key_attr_fixed _ n data p bs) by done. unfold row_attr_ok in Hok.
    destruct (Type_ col); try done. split; [|done]. injection Hn as <-. cbn [key_attr_ok]. rewrite Hlen in E. by rewrite E.
Qed.

(** ** Metadata of generic keys *)

(** What the builder needs of a schema for keys of [KeySize] bytes. *)
Definition generic_index (schema : IndexSchema) (m : IndexMetadata.IndexMetadata) (KeySize : nat) : Prop :=
  IndexMetadata.make schema = Some m /\ GetColumns schema <> [] /\ Z.of_nat (length (GetColumns schema)) <= MAX_COL /\
  Forall (fun c => 0 <= MaxVarlenSize c < 2 ^ 16 - 4) (GetColumns schema) /\
  ProjectedRowInitializer.size_ (IndexMetadata.inlined_initializer_ m) + 16 <= Z.of_nat KeySize.

Section metadata.
Import IndexMetadata.

Lemma sort_fmap (f : Z -> Z) l : (forall a b, a <= b -> f a <= f b) -> merge_sort Z.ge (f <$> l) = f <$> merge_sort Z.ge l.
Proof.
  intros Hf. assert (Transitive Z.ge) by (intros ???; lia). assert (Total Z.ge) by (intros ??; lia). assert (AntiSymm (=) Z.ge) by (intros ???; lia).
  apply (StronglySorted_unique Z.ge); [apply StronglySorted_merge_sort; apply _| |by rewrite !merge_sort_Permutation].
  pose proof (StronglySorted_merge_sort Z.ge l) as Hs. induction Hs as [|a k _ IH Hall]; [constructor|]. cbn. constructor; [done|].
  apply Forall_fmap. eapply Forall_impl; [exact Hall|]. intros b Hb. cbn. specialize (Hf b a). lia.
Qed.

(** The size of a column in rows and in keys. *)
Lemma column_sizes c n : 0 <= MaxVarlenSize c < 2 ^ 16 - 4 -> GetTypeSize (Type_ c) = Some n ->
  exists s, inlined_size c = Some s /\ value_size s /\ AttrSizeBytes n = Z.min s 16 /\
    (is_varlen (Type_ c) = true -> s = Z.max (MaxVarlenSize c + 4) 16) /\ (is_varlen (Type_ c) = false -> s = n /\ s <= 8).
Proof.
  intros Hm Hn. unfold inlined_size. destruct (is_varlen (Type_ c)) eqn:Hv.
  - exists (Z.max (u16 (MaxVarlenSize c + 4)) 16). rewrite (wrapu_small 16) by (unfold is_uint; lia).
    assert (n = VARLEN_COLUMN) as -> by (destruct (Type_ c); cbn in *; congruence). change (AttrSizeBytes VARLEN_COLUMN) with 16.
    split; [by destruct (Type_ c)|]. split; [right; lia|]. split; [lia|done].
  - exists n. split; [by destruct (Type_ c)|].
    destruct (Type_ c); cbn in Hn; try done; injection Hn as <-; (split; [left; set_solver|]); split; done.
Qed.

Context (schema : IndexSchema) (m : IndexMetadata) (KeySize : nat).
Hypothesis Hm : generic_index schema m KeySize.

#[local] Abbreviation cols := (GetColumns schema).
#[local] Abbreviation inl := (inlined_attr_sizes_ m).
#[local] Abbreviation pr_offsets := (ComputePROffsets inl).

Lemma generic_facts :
  key_schema_ m = schema /\ length inl = length cols /\ Forall value_size inl /\
  GetRealAttrSizes (attr_sizes_ m) = (fun s => Z.min s 16) <$> inl /\
  inlined_initializer_ m = ProjectedRowInitializer.make (merge_sort Z.ge inl) pr_offsets /\
  must_inline_varlen_ m = ComputeMustInlineVarlen cols /\
  forall i c, cols !! i = Some c -> exists n s, GetTypeSize (Type_ c) = Some n /\ attr_sizes_ m !! i = Some n /\ inl !! i = Some s /\
    AttrSizeBytes n = Z.min s 16 /\ 0 <= MaxVarlenSize c < 2 ^ 16 - 4 /\
    (is_varlen (Type_ c) = true -> s = Z.max (MaxVarlenSize c + 4) 16) /\ (is_varlen (Type_ c) = false -> s <= 8).
Proof.
  destruct Hm as (Hmake & _ & _ & Hmax & _). unfold make in Hmake.
  destruct (ComputeAttributeSizes cols) as [attr|] eqn:Ea; [|done]. destruct (ComputeInlinedAttributeSizes cols) as [inlined|] eqn:Ei; [|done].
  destruct (ComputeKeySize cols); [|done]. cbn in Hmake. injection Hmake as <-. cbn.
  apply mapM_Some in Ea, Ei.
  assert (forall i c, cols !! i = Some c -> exists n s, GetTypeSize (Type_ c) = Some n /\ attr !! i = Some n /\ inlined !! i = Some s /\ value_size s /\
    AttrSizeBytes n = Z.min s 16 /\ 0 <= MaxVarlenSize c < 2 ^ 16 - 4 /\
    (is_varlen (Type_ c) = true -> s = Z.max (MaxVarlenSize c + 4) 16) /\ (is_varlen (Type_ c) = false -> s <= 8)) as H.
  { intros i c Hc. destruct (Forall2_lookup_l _ _ _ _ _ Ea Hc) as (n & Hn & En). destruct (Forall2_lookup_l _ _ _ _ _ Ei Hc) as (s & Hs & Es).
    rewrite Forall_lookup in Hmax. specialize (Hmax i c Hc). destruct (column_sizes c n Hmax En) as (s' & Es' & H1 & H2 & H3 & H4).
    rewrite Es in Es'. injection Es' as <-. exists n, s. split_and!; try done; try lia. intros Hv. by destruct (H4 Hv). }
  pose proof (Forall2_length _ _ _ Ea) as La. pose proof (Forall2_length _ _ _ Ei) as Li.
  split; [done|]. split; [done|]. split; [|split; [|split; [done|split; [done|]]]].
  - apply Forall_lookup. intros i s Hs. destruct (lookup_lt_is_Some_2 cols i) as [c Hc]; [apply lookup_lt_Some in Hs; lia|].
    destruct (H i c Hc) as (n & s' & _ & _ & Hs' & Hv & _). congruence.
  - apply list_eq. intros i. unfold GetRealAttrSizes. rewrite !list_lookup_fmap. destruct (cols !! i) as [c|] eqn:Hc.
    + destruct (H i c Hc) as (n & s & _ & -> & -> & _ & E & _). cbn. by rewrite E.
    + apply lookup_ge_None in Hc. rewrite !lookup_ge_None_2 by lia. done.
  - intros i c Hc. destruct (H i c Hc) as (n & s & ? & ? & ? & _ & ? & ? & ? & ?). by exists n, s.
Qed.

Lemma inl_args : row_args (merge_sort Z.ge inl) pr_offsets.
Proof.
  destruct generic_facts as (_ & Hlen & Hv & _). destruct Hm as (_ & Hne & Hmax & _). apply row_args_sizes; [|lia|done].
  intros E. rewrite E in Hlen. by destruct cols.
Qed.

(** Rows of the table side: the same places, entries instead of inlined strings. *)
Lemma real_sizes : merge_sort Z.ge (GetRealAttrSizes (attr_sizes_ m)) = (fun s => Z.min s 16) <$> merge_sort Z.ge inl.
Proof. destruct generic_facts as (_ & _ & _ & -> & _). apply sort_fmap. lia. Qed.

Lemma real_args : row_args (merge_sort Z.ge (GetRealAttrSizes (attr_sizes_ m))) pr_offsets.
Proof.
  destruct inl_args as (H1 & H2 & H3 & H4 & H5 & H6). rewrite real_sizes. split_and!; try done.
  - by intros ?%fmap_nil_inv.
  - by rewrite length_fmap.
  - by rewrite length_fmap.
  - clear -H4. induction H4 as [|a k _ IH Hall]; cbn; constructor; [done|]. apply Forall_fmap. eapply Forall_impl; [exact Hall|]. cbn. lia.
  - apply Forall_fmap. eapply Forall_impl; [exact H5|]. intros s [Hs|Hs]; cbn; [left|right; lia].
    revert Hs. rewrite !elem_of_cons, elem_of_nil. intros [->|[->|[->|[->|[]]]]]; vm_compute; tauto || set_solver.
Qed.

End metadata.

(** ** From rows to keys *)

Lemma splice_fits {A} off (bs l : list A) : (off + length bs <= length l)%nat -> splice off bs l = take off l ++ bs ++ drop (off + length bs) l.
Proof. intros H. unfold splice. by rewrite (take_ge bs) by lia. Qed.

(** Two adjacent writes, and a write that leaves what follows, as one. *)
Lemma wr_wr l off a b : 0 <= off -> off + Z.of_nat (length a + length b) <= Z.of_nat (length l) ->
  wr (wr l off a) (off + Z.of_nat (length a)) b = wr l off (a ++ b).
Proof.
  intros H0 H. unfold wr. replace (Z.to_nat (off + Z.of_nat (length a))) with (Z.to_nat off + length a)%nat by lia.
  rewrite (splice_fits _ b) by (rewrite length_splice; lia). rewrite !splice_fits by (rewrite ?length_app; lia).
  assert (length (take (Z.to_nat off) l) = Z.to_nat off) as L by (rewrite length_take; lia).
  rewrite (app_assoc (take _ l) a). rewrite take_app_length' by (rewrite length_app; lia). rewrite drop_app_ge by (rewrite length_app; lia).
  rewrite drop_drop, !length_app, L, <-!app_assoc. do 4 f_equal. lia.
Qed.

Lemma wr_extend l off a k : 0 <= off -> 0 <= k -> off + Z.of_nat (length a) + k <= Z.of_nat (length l) ->
  wr l off a = wr l off (a ++ rd l (off + Z.of_nat (length a)) k).
Proof.
  intros H0 Hk H. pose proof (length_rd l (off + Z.of_nat (length a)) k ltac:(lia) ltac:(lia) ltac:(lia)) as Lr.
  unfold wr. rewrite !splice_fits by (rewrite ?length_app; lia). rewrite length_app, <-app_assoc. do 2 f_equal. unfold rd, slice in *.
  replace (Z.to_nat (off + Z.of_nat (length a))) with (Z.to_nat off + length a)%nat in * by lia.
  rewrite <-(take_drop (Z.to_nat k) (drop (Z.to_nat off + length a) l)) at 1. f_equal. rewrite drop_drop. f_equal. lia.
Qed.

(** Attribute [i] of a table's row, in the order of the schema. *)
Definition row_get (m : IndexMetadata.IndexMetadata) (r : list Z) (i : nat) : option (list Z) :=
  off ← IndexMetadata.ComputePROffsets (IndexMetadata.inlined_attr_sizes_ m) !! i;
  size ← IndexMetadata.attr_sizes_ m !! i;
  ProjectedRow.Get r off (AttrSizeBytes size).

Definition row_values (mem : buffers) (m : IndexMetadata.IndexMetadata) (r : list Z) : list (option (list Z)) :=
  imap (fun i c => row_attr_value mem (Type_ c) <$> row_get m r i) (GetColumns (IndexMetadata.key_schema_ m)).

(** A row of the index's initializer whose attributes can be keys. *)
Definition generic_row (mem : buffers) (m : IndexMetadata.IndexMetadata) (r : list Z) : Prop :=
  row_ok (merge_sort Z.ge (IndexMetadata.GetRealAttrSizes (IndexMetadata.attr_sizes_ m)))
    (IndexMetadata.ComputePROffsets (IndexMetadata.inlined_attr_sizes_ m)) r /\
  forall i c bs, GetColumns (IndexMetadata.key_schema_ m) !! i = Some c -> row_get m r i = Some bs -> row_attr_ok mem c bs.

Section rows.
Import IndexMetadata.
Context (schema : IndexSchema) (m : IndexMetadata) (KeySize : nat) (mem : buffers).
Hypothesis Hm : generic_index schema m KeySize.

#[local] Abbreviation cols := (GetColumns schema).
#[local] Abbreviation inl := (inlined_attr_sizes_ m).
#[local] Abbreviation pr_offsets := (ComputePROffsets inl).
#[local] Abbreviation sorted := (merge_sort Z.ge inl).
#[local] Abbreviation real_sorted := (merge_sort Z.ge (GetRealAttrSizes (attr_sizes_ m))).

(** Where attribute [i] is in the table's row and in the key's. *)
Lemma attr_place i c : cols !! i = Some c -> exists j n s,
  pr_offsets !! i = Some (Z.of_nat j) /\ (j < length pr_offsets)%nat /\ sorted !!! j = s /\ real_sorted !!! j = AttrSizeBytes n /\
  GetTypeSize (Type_ c) = Some n /\ attr_sizes_ m !! i = Some n /\ inl !! i = Some s /\ AttrSizeBytes n = Z.min s 16 /\ u16 (Z.of_nat j) = Z.of_nat j /\
  0 <= MaxVarlenSize c < 2 ^ 16 - 4 /\ (is_varlen (Type_ c) = true -> s = Z.max (MaxVarlenSize c + 4) 16) /\ (is_varlen (Type_ c) = false -> s <= 8).
Proof.
  intros Hc. destruct (generic_facts schema m KeySize Hm) as (_ & Hlen & _ & _ & _ & _ & H).
  destruct (H i c Hc) as (n & s & H1 & H2 & H3 & H4 & H5 & H6 & H7). destruct (PROffsets_spec inl i s H3) as (j & Hj & Hlt & Hs).
  exists j, n, s. rewrite length_PROffsets, (real_sizes schema m KeySize Hm). split_and!; try done; try lia.
  - by apply list_lookup_total_correct.
  - rewrite H4. apply list_lookup_total_correct. by rewrite list_lookup_fmap, Hs.
  - destruct Hm as (_ & _ & Hmax & _). unfold MAX_COL in Hmax. apply wrapu_small. unfold is_uint. lia.
Qed.

Lemma row_get_value r i c : cols !! i = Some c -> exists j, pr_offsets !! i = Some (Z.of_nat j) /\ (j < length pr_offsets)%nat /\ row_get m r i = value real_sorted r j.
Proof.
  intros Hc. destruct (attr_place i c Hc) as (j & n & s & Hj & Hlt & _ & Hr & _ & Hn & _). exists j. split; [done|]. split; [done|].
  unfold row_get. rewrite Hj, Hn. cbn [mbind option_bind]. unfold value. by rewrite Hr.
Qed.

(** A key whose row represents the values of a table's row. *)
Lemma key_view_of r d : generic_row mem m r -> row_ok sorted pr_offsets d -> length d = KeySize ->
  (forall i c j, cols !! i = Some c -> pr_offsets !! i = Some (Z.of_nat j) ->
    match row_get m r i with
    | None => value sorted d j = None
    | Some bs => exists kbs, value sorted d j = Some kbs /\ key_repr mem (Type_ c) bs kbs
    end) ->
  key_view KeySize m (Key d m) (row_values mem m r).
Proof.
  intros [Hr Hrow] Hd HlenK Hrep. destruct (generic_facts schema m KeySize Hm) as (Esch & _ & _ & _ & Einit & _).
  pose proof (inl_args schema m KeySize Hm) as Hargs. pose proof Hd as (Hsz & _ & ES & _ & Hids & _).
  destruct Hm as (_ & _ & _ & _ & Hfit). rewrite Einit in Hfit. unfold row_values, key_view. rewrite Esch in *.
  split; [done|]. cbn [key_data_]. split; [lia|]. split; [by rewrite length_imap|]. intros i v Hi. rewrite list_lookup_imap in Hi.
  destruct (cols !! i) as [c|] eqn:Hc; [|done]. injection Hi as <-. exists c, (pr_offsets !!! i).
  destruct (attr_place i c Hc) as (j & n & s & Hj & Hlt & Hs & Hrs & Hn & Ha & Hi & Hmin & Hu & Hmax & Hv1 & Hv2).
  rewrite (list_lookup_total_correct _ _ _ Hj). split; [done|]. split; [done|]. split; [by apply Hids|]. rewrite Hu.
  specialize (Hrep i c j Hc Hj). destruct (column _ _ Hargs j Hlt) as (o & Ho & _ & Hb1 & Ho1 & Ho2). rewrite (access_value _ _ d j o Hd Ho).
  destruct (row_get m r i) as [bs|] eqn:Eg; [|by rewrite Hrep]. destruct Hrep as (kbs & Hk & Hkr). rewrite Hk. exists o. split; [done|].
  specialize (Hrow i c bs Hc Eg). destruct (row_get_value r i c Hc) as (j' & Hj' & _ & Eg'). rewrite Hj in Hj'. assert (j' = j) as -> by (simplify_eq; lia).
  rewrite Eg in Eg'. symmetry in Eg'. pose proof (real_args schema m KeySize Hm) as Rargs.
  destruct (column _ _ Rargs j Hlt) as (o' & Ho' & _ & Hb1' & Ho1' & Ho2'). rewrite (value_eq _ _ r j o' Hr Ho') in Eg'. rewrite (value_eq _ _ d j o Hd Ho) in Hk.
  destruct (RawBitmap.Test _ (Z.of_nat j)) in Eg'; [|done]. destruct (RawBitmap.Test _ (Z.of_nat j)) in Hk; [|done].
  injection Eg' as Ebs. injection Hk as Ekbs. pose proof Hr as (Hrl & Hrb & _).
  assert (0 <= o' /\ 0 <= o) as [P1 P2] by (pose proof (header_nonneg _ _ Rargs); pose proof (header_nonneg _ _ Hargs); lia).
  assert (Z.of_nat (length bs) = AttrSizeBytes n) as Lbs by (rewrite <-Ebs, <-Hrs; apply length_rd; lia).
  assert (Z.of_nat (length kbs) = sorted !!! j) as Lkbs by (rewrite <-Ekbs; apply length_rd; lia).
  apply (key_repr_value mem c n d o bs kbs); try done; try lia; [rewrite <-Ebs; by apply rd_bytes|by rewrite Lkbs].
Qed.

(** Without long strings, rows and keys have the same layout. *)
Lemma short_sizes : must_inline_varlen_ m = false ->
  (forall i c, cols !! i = Some c -> is_varlen (Type_ c) = true -> MaxVarlenSize c <= 12) /\ real_sorted = sorted.
Proof.
  intros Hmust. destruct (generic_facts schema m KeySize Hm) as (Esch & Hlen & _ & Ereal & Einit & Emust & _).
  assert (forall i c, cols !! i = Some c -> is_varlen (Type_ c) = true -> MaxVarlenSize c <= 12) as Hshort.
  { intros i c Hc Hv. rewrite Emust in Hmust. unfold ComputeMustInlineVarlen in Hmust. destruct (decide (MaxVarlenSize c <= 12)) as [|Hn]; [done|].
    rewrite <-not_true_iff_false, existsb_exists in Hmust. destruct Hmust. exists c. split; [apply list_elem_of_In; by eapply list_elem_of_lookup_2|].
    destruct (Type_ c); try done; apply bool_decide_eq_true; unfold InlineThreshold; lia. }
  split; [done|]. f_equal. rewrite Ereal. apply list_eq. intros i. rewrite list_lookup_fmap. destruct (inl !! i) as [s|] eqn:Ei; [|done]. cbn. f_equal.
  destruct (lookup_lt_is_Some_2 cols i) as [c Hc]; [apply lookup_lt_Some in Ei; lia|].
  destruct (attr_place i c Hc) as (_ & n & s' & _ & _ & _ & _ & _ & _ & Hi & _ & _ & _ & Hv1 & Hv2). rewrite Ei in Hi. injection Hi as <-.
  destruct (is_varlen (Type_ c)) eqn:Hv; [rewrite (Hv1 eq_refl); pose proof (Hshort i c Hc Hv); lia|specialize (Hv2 eq_refl); lia].
Qed.

(** Rows without long strings are copied as they are. *)
Lemma copied_key r : generic_row mem m r -> must_inline_varlen_ m = false ->
  key_view KeySize m (Key (wr (replicate KeySize 0) 0 (rd r 0 (ProjectedRow.Size r))) m) (row_values mem m r).
Proof.
  intros Hrow Hmust. destruct (generic_facts schema m KeySize Hm) as (Esch & _ & _ & _ & Einit & _).
  destruct (short_sizes Hmust) as [Hshort Es].
  pose proof Hrow as [Hr Hvals]. pose proof (inl_args schema m KeySize Hm) as Hargs. rewrite Es in Hr. pose proof Hr as (Hl & Hb & ES & _).
  destruct Hm as (_ & _ & _ & _ & Hfit). rewrite Einit in Hfit. rewrite ES. set (S := ProjectedRowInitializer.size_ _) in *.
  assert (0 <= S) as HS by (destruct (regions _ _ Hargs) as (_ & ? & _); pose proof (header_nonneg _ _ Hargs); lia).
  assert (Z.of_nat (length (rd r 0 S)) = S) as LS by (apply length_rd; lia).
  destruct (agree_view sorted pr_offsets Hargs r (wr (replicate KeySize 0) 0 (rd r 0 S)) Hr) as [Hd Hv].
  - rewrite length_wr, length_replicate. fold S. lia.
  - apply wr_bytes; [apply Forall_replicate; split; pow2; lia|by apply rd_bytes].
  - intros o k H0 Hk Hok. fold S in Hok. rewrite <-(Z.add_0_l o) at 1. rewrite rd_wr_inside by (rewrite ?length_replicate; lia).
    unfold rd, slice. apply list_eq. intros x. destruct (decide (x < Z.to_nat k)%nat); [|by rewrite !lookup_take_ge by lia].
    rewrite !lookup_take_lt, !lookup_drop, lookup_take_lt, lookup_drop by lia. f_equal.
  - apply key_view_of; [done|done|by rewrite length_wr, length_replicate|]. intros i c j Hc Hj.
    destruct (row_get_value r i c Hc) as (j' & Hj' & Hlt & Eg). rewrite Hj in Hj'. assert (j' = j) as -> by (simplify_eq; lia).
    rewrite Es, <-Hv in Eg by done. destruct (row_get m r i) as [bs|] eqn:Erow; [|done]. exists bs. split; [done|]. left. split; [done|].
    intros Hvar. rewrite Esch in Hvals. specialize (Hvals i c bs Hc Erow). unfold row_attr_ok in Hvals. pose proof (Hshort i c Hc Hvar).
    unfold IsInlined. apply bool_decide_eq_true. unfold InlineThreshold. destruct (Type_ c); try done; destruct Hvals as (_ & _ & ? & _); lia.
Qed.

(** One attribute copied into the key's row. *)
Definition represents (r pr : list Z) (i j : nat) (c : Column) : Prop :=
  match row_get m r i with
  | None => value sorted pr j = None
  | Some bs => exists kbs, value sorted pr j = Some kbs /\ key_repr mem (Type_ c) bs kbs
  end.

Lemma copy_attr_view r pr i c j : generic_row mem m r -> row_ok sorted pr_offsets pr -> length pr = KeySize ->
  cols !! i = Some c -> pr_offsets !! i = Some (Z.of_nat j) ->
  exists pr', copy_attr KeySize mem r m i pr = Some pr' /\ length pr' = KeySize /\ row_ok sorted pr_offsets pr' /\ represents r pr' i j c /\
    forall k, (k < length pr_offsets)%nat -> k <> j -> value sorted pr' k = value sorted pr k.
Proof.
  intros [Hr Hvals] Hpr Hlen Hc Hj. pose proof (inl_args schema m KeySize Hm) as Hargs. pose proof (real_args schema m KeySize Hm) as Rargs.
  destruct (generic_facts schema m KeySize Hm) as (Esch & _ & _ & _ & Einit & _). rewrite Esch in Hvals.
  destruct (attr_place i c Hc) as (j0 & n & s & Hj0 & Hlt & Hs & Hrs & Hn & Ha & Hi & Hmin & Hu & Hmax & Hv1 & Hv2).
  rewrite Hj in Hj0. assert (j0 = j) as -> by (simplify_eq; lia). destruct (row_get_value r i c Hc) as (j1 & Hj1 & _ & Eg).
  rewrite Hj in Hj1. assert (j1 = j) as -> by (simplify_eq; lia). clear Hj0 Hj1.
  destruct (column _ _ Rargs j Hlt) as (o & Ho & _ & Hb1 & Ho1 & Ho2). pose proof Hr as (Hrl & Hrb & _ & _ & Rids & _). pose proof Hpr as (Hpl & _ & _ & _ & Pids & _).
  pose proof (access_value _ _ r j o Hr Ho) as Eacc. pose proof (value_eq _ _ r j o Hr Ho) as Ev. rewrite <-Eg, Hrs in Ev. rewrite <-Eg in Eacc.
  unfold copy_attr, represents. rewrite (Rids i _ Hj), (Pids i _ Hj), decide_True, Hu, Eacc by done.
  destruct (row_get m r i) as [bs|] eqn:Erow; cbn [fmap option_fmap option_map].
  2:{ destruct (SetNull_view _ _ Hargs pr j Hpr Hlt) as (H1 & H2 & H3). exists (ProjectedRow.SetNull pr (Z.of_nat j)).
      split; [done|]. split; [unfold ProjectedRow.SetNull, ProjectedRow.set_bitmap; by rewrite length_wr|]. done. }
  rewrite Hi. cbn [mbind option_bind]. destruct (RawBitmap.Test _ (Z.of_nat j)) in Ev; [|done]. injection Ev as Ebs. specialize (Hvals i c bs Hc Erow).
  assert (0 <= o) as P1 by (pose proof (header_nonneg _ _ Rargs); lia).
  assert (Z.of_nat (length bs) = AttrSizeBytes n) as Lbs by (rewrite Ebs; apply length_rd; lia).
  assert (Forall is_byte bs) as Bbs by (rewrite Ebs; by apply rd_bytes).
  pose proof (ForceNotNull_view _ _ Hargs pr j Hpr Hlt) as HF.
  assert (length (ProjectedRow.AccessForceNotNull pr (Z.of_nat j)).2 = length pr) as L1.
  { unfold ProjectedRow.AccessForceNotNull. destruct (RawBitmap.Test _ _); cbn; [done|]. apply length_wr. }
  destruct (ProjectedRow.AccessForceNotNull pr (Z.of_nat j)) as [to pr1]. cbn [snd] in L1. destruct HF as (Hto & Hok1 & Ht1 & F1).
  destruct (column _ _ Hargs j Hlt) as (o' & Ho' & _ & Hb1' & Ho1' & Ho2'). rewrite Hto in Ho'. injection Ho' as <-.
  assert (0 <= to) as P2 by (pose proof (header_nonneg _ _ Hargs); lia). rewrite Hs in Hb1', Ho2'.
  case_decide as Hs16.
  - assert (AttrSizeBytes n = s) as En by lia. rewrite <-En, <-Ebs.
    destruct (row_write_value_view _ _ Hargs pr1 j to bs Hok1 Hto ltac:(lia) Bbs Ht1) as (H1 & H2 & H3).
    exists (wr pr1 to bs). split; [done|]. split; [rewrite length_wr; lia|]. split; [done|]. split; [|intros k Hk Hne; rewrite H3 by done; by apply F1].
    exists bs. split; [done|]. left. split; [done|]. intros Hv. specialize (Hv1 Hv). unfold row_attr_ok in Hvals.
    unfold IsInlined. apply bool_decide_eq_true. unfold InlineThreshold. destruct (Type_ c); try done; destruct Hvals as (_ & _ & ? & _); lia.
  - assert (is_varlen (Type_ c) = true) as Hv by (destruct (is_varlen (Type_ c)) eqn:E; [done|specialize (Hv2 eq_refl); lia]).
    assert (AttrSizeBytes n = 16) as En by lia. rewrite <-En, <-Ebs. set (e := entry_of_bytes bs) in *. specialize (Hv1 Hv).
    assert (entry_ok mem e /\ Forall is_byte (Content mem e) /\ Size e <= MaxVarlenSize c) as (Hok & HB & Hsz)
      by (unfold row_attr_ok in Hvals; destruct (Type_ c); try done; by destruct Hvals as (? & ? & ? & _)).
    pose proof (Size_nonneg e). pose proof (length_StringView mem e Hok) as LS. fold (StringView mem e). rewrite decide_True.
    2:{ destruct Hm as (_ & _ & _ & _ & Hfit). rewrite Einit in Hfit. lia. }
    set (kbs := (le_bytes 4 (Size e) ++ StringView mem e) ++ rd pr1 (to + Z.of_nat (length (le_bytes 4 (Size e) ++ StringView mem e))) (s - 4 - Size e)).
    assert (wr (wr pr1 to (le_bytes 4 (Size e))) (to + 4) (StringView mem e) = wr pr1 to kbs) as ->.
    { change (to + 4) with (to + Z.of_nat 4). rewrite <-(length_le_bytes 4 (Size e)) at 2. rewrite wr_wr by (rewrite ?length_le_bytes; lia).
      apply wr_extend; [done|lia|]. rewrite length_app, length_le_bytes. lia. }
    assert (Z.of_nat (length kbs) = s) as Lk.
    { unfold kbs. rewrite length_app, Nat2Z.inj_add, length_rd; rewrite ?length_app, ?length_le_bytes; lia. }
    destruct (row_write_value_view _ _ Hargs pr1 j to kbs Hok1 Hto ltac:(lia)) as (H1 & H2 & H3); [|done|].
    { unfold kbs. rewrite !Forall_app. split; [split; [apply le_bytes_byte|by apply Forall_take]|]. apply rd_bytes. by destruct Hok1 as (_ & ? & _). }
    exists (wr pr1 to kbs). split; [done|]. split; [rewrite length_wr; lia|]. split; [done|]. split; [|intros k Hk Hne; rewrite H3 by done; by apply F1].
    exists kbs. split; [done|]. right. split; [done|]. eexists. unfold kbs. by rewrite <-app_assoc.
Qed.

Lemma copy_attrs_view r k : forall pr i, generic_row mem m r -> row_ok sorted pr_offsets pr -> length pr = KeySize -> (i + k = length cols)%nat ->
  (forall i' c j, (i' < i)%nat -> cols !! i' = Some c -> pr_offsets !! i' = Some (Z.of_nat j) -> represents r pr i' j c) ->
  exists pr', copy_attrs KeySize mem r m k i pr = Some pr' /\ length pr' = KeySize /\ row_ok sorted pr_offsets pr' /\
    forall i' c j, cols !! i' = Some c -> pr_offsets !! i' = Some (Z.of_nat j) -> represents r pr' i' j c.
Proof.
  induction k as [|k IH]; intros pr i Hr Hpr Hl Hk Hdone; cbn [copy_attrs].
  { exists pr. split; [done|]. split; [done|]. split; [done|]. intros i' c j Hc. apply Hdone; [|done]. apply lookup_lt_Some in Hc. lia. }
  destruct (lookup_lt_is_Some_2 cols i) as [c Hc]; [lia|]. destruct (attr_place i c Hc) as (j & _ & _ & Hj & _).
  destruct (copy_attr_view r pr i c j Hr Hpr Hl Hc Hj) as (pr1 & -> & L1 & Hok1 & Hrep & F). cbn [mbind option_bind].
  apply IH; [done..|lia|]. intros i' c' j' Hi' Hc' Hj'. destruct (decide (i' = i)) as [->|Hne].
  - rewrite Hj in Hj'. assert (j' = j) as -> by (simplify_eq; lia). rewrite Hc in Hc'. by injection Hc' as <-.
  - specialize (Hdone i' c' j' ltac:(lia) Hc' Hj'). unfold represents in *. rewrite F; [done| |].
    + destruct (attr_place i' c' Hc') as (j0 & _ & _ & Hj0 & Hlt & _). rewrite Hj' in Hj0. assert (j0 = j') as <- by (simplify_eq; lia). done.
    + intros ->. destruct Hne. by eapply PROffsets_inj.
Qed.

(** [SetFromProjectedRow] of all attributes does not fail, and its key has the row's values. *)
Lemma generic_key_view r : generic_row mem m r ->
  exists key, GenericKey.SetFromProjectedRow KeySize mem r m (length cols) = Some key /\ key_view KeySize m key (row_values mem m r).
Proof.
  intros Hr. destruct (generic_facts schema m KeySize Hm) as (Esch & Hlen & _ & _ & Einit & _). pose proof Hr as [(_ & _ & ES & EN & _) _].
  pose proof (inl_args schema m KeySize Hm) as Hargs. pose proof (copied_key r Hr) as HA. pose proof short_sizes as HS. destruct Hm as (_ & Hne & _ & _ & Hfit).
  unfold GenericKey.SetFromProjectedRow. rewrite EN, length_PROffsets, Hlen, Esch, decide_True by done.
  destruct (must_inline_varlen_ m).
  - rewrite decide_True by (destruct cols; cbn in *; [done|lia]). rewrite Einit in Hfit |- *.
    destruct (InitializeRow_view _ _ Hargs (replicate KeySize 0)) as (L & Hok & _);
      [rewrite length_replicate; lia|apply Forall_replicate; split; pow2; lia|]. rewrite length_replicate in L.
    destruct (copy_attrs_view r (length cols) _ 0 Hr Hok L) as (pr & -> & L' & Hok' & Hrep); [lia|intros; lia|]. cbn [mbind option_bind].
    exists (Key pr m). split; [done|]. by apply key_view_of.
  - destruct (HS eq_refl) as [_ Es]. rewrite decide_True; [by eexists; split; [|by apply HA]|]. rewrite ES, Es. rewrite Einit in Hfit. lia.
Qed.

End rows.

(** C27: generic keys compare as the rows they are made of.  For a schema whose keys fit
    [KeySize] bytes and rows whose attributes are null, numbers other than NaN, or strings of
    at most the declared length: [SetFromProjectedRow] does not fail, whether it inlines
    long strings or not, and on the keys of two rows [std::less] is the lexicographic order
    of the rows' values in the order of the schema (null first, strings by content wherever
    they are stored), [std::equal_to] is their equality, and [PartialLessThan] is the order
    of their first attributes, equal ones included. *)
Theorem generic_key_order (schema : IndexSchema) (m : IndexMetadata.IndexMetadata) (KeySize : nat) (mem : buffers) (r1 r2 : list Z) :
  generic_index schema m KeySize -> generic_row mem m r1 -> generic_row mem m r2 ->
  let n := length (GetColumns schema) in let v1 := row_values mem m r1 in let v2 := row_values mem m r2 in
  exists k1 k2, GenericKey.SetFromProjectedRow KeySize mem r1 m n = Some k1 /\ GenericKey.SetFromProjectedRow KeySize mem r2 m n = Some k2 /\
    (exists b, GenericKey.less KeySize k1 k2 = Some b /\ (b = true <-> attrs_lt v1 v2)) /\
    (exists b, GenericKey.equal_to KeySize k1 k2 = Some b /\ (b = true <-> v1 = v2)) /\
    forall k, (0 < k <= n)%nat ->
      exists b, GenericKey.PartialLessThan KeySize k1 k2 k = Some b /\ (b = true <-> attrs_lt (take k v1) (take k v2) \/ take k v1 = take k v2).
Proof.
  intros Hm H1 H2 n v1 v2. destruct (generic_key_view schema m KeySize mem Hm r1 H1) as (k1 & E1 & V1).
  destruct (generic_key_view schema m KeySize mem Hm r2 H2) as (k2 & E2 & V2). exists k1, k2. split; [done|]. split; [done|].
  assert (num_cols k1 = n) as En by (unfold num_cols; rewrite (proj1 V1); unfold n; by rewrite (make_schema schema m (proj1 Hm))).
  pose proof (proj1 (proj2 (proj2 V1))) as L1. pose proof (proj1 (proj2 (proj2 V2))) as L2. rewrite (make_schema schema m (proj1 Hm)) in L1, L2.
  split; [|split].
  - destruct (less_loop_view KeySize m k1 k2 _ _ V1 V2 false n 0) as (b & Eb & Hb); [unfold n; lia|]. exists b. unfold less. rewrite En. split; [done|].
    rewrite !drop_0, !take_ge in Hb by (unfold n; lia). rewrite Hb. split; [by intros [|[? _]]|by left].
  - destruct (equal_loop_view KeySize m k1 k2 _ _ V1 V2 n 0) as (b & Eb & Hb); [unfold n; lia|]. exists b. unfold equal_to. rewrite En. split; [done|].
    by rewrite !drop_0, !take_ge in Hb by (unfold n; lia).
  - intros k Hk. destruct (less_loop_view KeySize m k1 k2 _ _ V1 V2 true k 0) as (b & Eb & Hb); [unfold n in Hk; lia|]. exists b.
    unfold PartialLessThan. rewrite En, decide_True by done. split; [done|]. rewrite !drop_0 in Hb. rewrite Hb. split; [intros [|[_ ?]]; tauto|intros [|]; tauto].
Qed.

(** Keys (VARCHAR(20), INTEGER): the string is inlined, in 24 bytes. *)
Definition string_schema : IndexSchema := Schema [Col 1 VARCHAR true 20; Col 2 INTEGER true 0] BWTREE false.

Definition string_metadata : IndexMetadata.IndexMetadata :=
  IndexMetadata.Metadata string_schema [VARLEN_COLUMN; 4] [24; 4] true (IndexMetadata.ComputeCompactIntsOffsets [VARLEN_COLUMN; 4])
    (IndexMetadata.ComputeKeyOidToOffset (GetColumns string_schema) [0; 1])
    (ProjectedRowInitializer.make [16; 4] [0; 1]) (ProjectedRowInitializer.make [24; 4] [0; 1]) 20.

Definition string_row (entry : VarlenEntry) (b : Z) : list Z :=
  ProjectedRow.Set_ (ProjectedRow.Set_ (ProjectedRow.InitializeRow (ProjectedRowInitializer.make [16; 4] [0; 1]) (replicate 48 0))
    0 (Some (bytes_of_entry entry))) 1 (Some (le_bytes 4 b)).

(** A string of 14 bytes, in two buffers. *)
Definition example_string : list Z := seqZ 65 14.
Definition example_buffers : buffers := {[ 4096 := example_string; 8192 := example_string ]}.
Definition example_entry (addr : Z) : VarlenEntry := Create addr example_string 14 true.

Lemma string_index : generic_index string_schema string_metadata 128.
Proof.
  split_and!; [reflexivity|done|vm_compute; congruence|repeat constructor; vm_compute; congruence|vm_compute; congruence].
Qed.

Lemma string_row_ok addr b : addr = 4096 \/ addr = 8192 -> generic_row example_buffers string_metadata (string_row (example_entry addr) b).
Proof.
  intros Haddr. assert (row_args [16; 4] [0; 1]) as Ha.
  { split_and!; try done.
    - repeat constructor; lia.
    - repeat apply Forall_cons_2; [right; lia|left; set_solver|constructor].
    - repeat constructor; vm_compute; congruence. }
  destruct (InitializeRow_view [16; 4] [0; 1] Ha (replicate 48 0)) as (_ & H0 & _).
  { vm_compute. congruence. }
  { apply Forall_replicate. split; vm_compute; congruence. }
  assert (Forall is_byte (bytes_of_entry (example_entry addr)) /\ length (bytes_of_entry (example_entry addr)) = 16%nat) as [Be Le].
  { destruct Haddr as [-> | ->]; (split; [|reflexivity]); vm_compute; repeat constructor; congruence. }
  destruct (Set_view [16; 4] [0; 1] Ha _ 0 (Some (bytes_of_entry (example_entry addr))) H0) as (H1 & V1 & _);
    [cbn; lia|split; [by rewrite Le|done]|].
  destruct (Set_view [16; 4] [0; 1] Ha _ 1 (Some (le_bytes 4 b)) H1) as (H2 & V2 & F);
    [cbn; lia|split; [by rewrite length_le_bytes|apply le_bytes_byte]|].
  split; [exact H2|]. specialize (F 0%nat ltac:(cbn; lia) ltac:(done)). rewrite V1 in F.
  intros [|[|i]] c bs Hc Hg; cbn in Hc; [injection Hc as <-..|done]; [|done].
  change (row_get string_metadata (string_row (example_entry addr) b) 0) with (value [16; 4] (string_row (example_entry addr) b) 0) in Hg.
  unfold string_row in Hg. change (Z.of_nat 0) with 0 in F. change (Z.of_nat 1) with 1 in F. rewrite F in Hg. injection Hg as <-.
  destruct Haddr as [-> | ->]; vm_compute; (split; [congruence|]); (split; [repeat constructor; congruence|]); split; congruence.
Qed.

Lemma generic_key_order_witness : exists k1 k2,
  GenericKey.SetFromProjectedRow 128 example_buffers (string_row (example_entry 4096) 5) string_metadata 2 = Some k1 /\
  GenericKey.SetFromProjectedRow 128 example_buffers (string_row (example_entry 8192) 7) string_metadata 2 = Some k2 /\
  GenericKey.less 128 k1 k2 = Some true.
Proof.
  destruct (generic_key_order string_schema string_metadata 128 example_buffers (string_row (example_entry 4096) 5) (string_row (example_entry 8192) 7))
    as (k1 & k2 & E1 & E2 & (b & Eb & Hb) & _); [apply string_index|apply string_row_ok; by left|apply string_row_ok; by right|].
  exists k1, k2. split; [exact E1|]. split; [exact E2|]. rewrite Eb. f_equal. apply Hb. vm_compute. apply attrs_tail, attrs_head, val_lt, lex_head. reflexivity.
Defined.

Definition varchar_schema (max_varlen_size : Z) : IndexSchema := Schema [Col 1 VARCHAR true max_varlen_size] HASHMAP false.

Definition varchar_row (entry : VarlenEntry) : list Z :=
  ProjectedRow.Set_ (ProjectedRow.InitializeRow (ProjectedRowInitializer.make [16] [0]) (replicate 40 0)) 0 (Some (bytes_of_entry entry)).

(** Where generic keys fail.  For a VARCHAR(65535) column, the size of the inlined
    attribute wraps around to 16 and the key gets the entry with its pointer, so that equal
    strings in different buffers give different keys.  And [std::hash] covers the bytes
    behind a short string's content, which [VarlenEntry::CreateInline] leaves uninitialised
    and [std::equal_to] ignores: equal keys are hashed from different bytes. *)
Theorem varchar_key_hazards :
  (exists m k1 k2, IndexMetadata.make (varchar_schema 65535) = Some m /\ IndexMetadata.inlined_attr_sizes_ m = [16] /\
    let r1 := varchar_row (example_entry 4096) in let r2 := varchar_row (example_entry 8192) in
    row_values example_buffers m r1 = row_values example_buffers m r2 /\
    GenericKey.SetFromProjectedRow 64 example_buffers r1 m 1 = Some k1 /\ GenericKey.SetFromProjectedRow 64 example_buffers r2 m 1 = Some k2 /\
    GenericKey.equal_to 64 k1 k2 = Some false) /\
  (exists m k1 k2 bytes1 bytes2, IndexMetadata.make (varchar_schema 5) = Some m /\
    let r1 := varchar_row (CreateInline (replicate 12 0) [65; 66] 2) in let r2 := varchar_row (CreateInline (replicate 12 7) [65; 66] 2) in
    GenericKey.SetFromProjectedRow 64 ∅ r1 m 1 = Some k1 /\ GenericKey.SetFromProjectedRow 64 ∅ r2 m 1 = Some k2 /\
    GenericKey.equal_to 64 k1 k2 = Some true /\ bytes1 <> bytes2 /\
    forall xxh3, GenericKey.hash 64 xxh3 k1 = Some (xxh3 bytes1 0) /\ GenericKey.hash 64 xxh3 k2 = Some (xxh3 bytes2 0)).
Proof.
  split.
  - do 3 eexists. split; [reflexivity|]. split; [reflexivity|]. cbv zeta. split; [vm_compute; reflexivity|].
    split; [vm_compute; reflexivity|]. split; [vm_compute; reflexivity|]. vm_compute. reflexivity.
  - do 5 eexists. split; [reflexivity|]. cbv zeta. split; [vm_compute; reflexivity|]. split; [vm_compute; reflexivity|]. split; [vm_compute; reflexivity|].
    split; [|intros xxh3; split; vm_compute; reflexivity]. vm_compute. congruence.
Qed.
