(* ===== verification/Indexes.v ===== *)
(** * Indexes

    [storage/index]: [IndexBuilder] (index_builder.h) chooses the kind and size of an
    index's keys; [HashIndex] (hash_index.h) maps keys to one slot or a set of slots in a
    cuckoo hash map, with inserts undone on abort and deletes deferred to the garbage
    collector; uniqueness is decided by the table's visibility and conflict checks.

    The hash map is an interface ([CuckooMap]) with the behaviour its documentation states;
    the keys are an interface ([IndexKey]) that [HashKey] and [GenericKey] implement.  The
    refinement: the index is a map from key values to sets of slots. *)

From S2P Require Import Prelude Bitmap Layout TupleAccess ProjectedRow Varlen DataTable IndexKeys GenericKeys.
Import TupleSlot.

(** ** IndexBuilder *)

Module IndexBuilder.

Definition COMPACTINTSKEY_MAX_SIZE : Z := 32.
Definition HASHKEY_MAX_SIZE : Z := 256.

(** The index object built: its structure, and the kind and bytes of its keys. *)
Record Index := Built { Type_ : IndexType; KeyKind : IndexKeyKind; KeyBytes : nat }.

(** The chains of tests in [BuildBwTreeIntsKey], [BuildHashIntsKey] and the like: the
    first of the sizes that is large enough. *)
Fixpoint first_fit (key_size : Z) (sizes : list nat) : option nat :=
  match sizes with
  | [] => None
  | s :: rest => if decide (key_size <= Z.of_nat s) then Some s else first_fit key_size rest
  end.

Definition BuildIntsKey (t : IndexType) (m : IndexMetadata.IndexMetadata) : option Index :=
  Built t COMPACTINTSKEY <$> first_fit (IndexMetadata.key_size_ m) [8; 16; 24; 32]%nat.
Definition BuildHashIntsKey (t : IndexType) (m : IndexMetadata.IndexMetadata) : option Index :=
  Built t HASHKEY <$> first_fit (IndexMetadata.key_size_ m) [8; 16; 32; 64; 128; 256]%nat.
Definition BuildGenericKey (t : IndexType) (m : IndexMetadata.IndexMetadata) : option Index :=
  let pr_size := ProjectedRowInitializer.size_ (IndexMetadata.inlined_initializer_ m) in
  let key_size := (pr_size + 8) + 8 in
  Built t GENERICKEY <$> first_fit key_size [64; 128; 256]%nat.

(** [None] when the assertion on the schema fails, a type is unknown, or the key is too
    large for every size. *)
Definition Build (key_schema : IndexSchema) : option Index :=
  if decide (GetColumns key_schema <> []) then
    m ← IndexMetadata.make key_schema;
    let simple := simple_key (GetColumns key_schema) in
    let key_size := IndexMetadata.key_size_ m in
    match SchemaType key_schema with
    | (BWTREE | BPLUSTREE) as t =>
      if simple && bool_decide (key_size <= COMPACTINTSKEY_MAX_SIZE) then BuildIntsKey t m else BuildGenericKey t m
    | HASHMAP =>
      if simple && bool_decide (key_size <= HASHKEY_MAX_SIZE) then BuildHashIntsKey HASHMAP m else BuildGenericKey HASHMAP m
    end
  else None.

Example build_examples :
  Build example_schema = Some (Built BPLUSTREE COMPACTINTSKEY 8) /\ Build string_schema = Some (Built BWTREE GENERICKEY 128) /\
  Build (Schema [Col 1 VARCHAR true 300] HASHMAP false) = None.
Proof. split; [reflexivity|]. split; reflexivity. Qed.

End IndexBuilder.

(** ** Interfaces *)

(** Keys of type [K] stand for values of type [V]; [key_equal] is [std::equal_to]. *)
Class IndexKey (K V : Type) := {
  SetFromProjectedRow : buffers -> list Z -> option K;
  key_equal : K -> K -> bool;
  key_of : K -> V -> Prop;
  key_equal_iff k k' v v' : key_of k v -> key_of k' v' -> key_equal k k' = true <-> v = v'
}.

(** [cuckoohash_map<K, X>]: [find_fn] hands the value of a key to a function,
    [uprase_fn] changes or erases the value of a key that is there ([true] erases), or
    inserts a value and returns [true]. *)
Class CuckooMap (M K V X : Type) `{Countable V} `{IndexKey K V} := {
  find_fn : M -> K -> option X;
  uprase_fn : M -> K -> (X -> X * bool) -> X -> M * bool;
  contents : M -> gmap V X;
  find_contents m k v : key_of k v -> find_fn m k = contents m !! v;
  uprase_contents m k v f x : key_of k v ->
    contents (uprase_fn m k f x).1 =
      match contents m !! v with
      | Some y => let '(z, erase) := f y in if (erase : bool) then delete v (contents m) else <[v := z]> (contents m)
      | None => <[v := x]> (contents m)
      end;
  uprase_new m k v f x : key_of k v -> (uprase_fn m k f x).2 = bool_decide (contents m !! v = None)
}.

(** ** HashIndex *)

Module HashIndex.

(** [std::variant<TupleSlot, ValueMap>] *)
Inductive ValueType := Single (slot : TupleSlot) | ValueMap (slots : gset TupleSlot).

Section index.
Context {K V M : Type} `{Countable V, !IndexKey K V, !CuckooMap M K V ValueType}.

(** [ERASE_KEY_ACTION], with the key and the location it captures. *)
Record erase_action := EraseKey { index_key : K; location : TupleSlot }.

(** The value after the action, and whether the key is erased; [None] where the
    assertions in it fail. *)
Definition erase_fn (location : TupleSlot) (value : ValueType) : option (ValueType * bool) :=
  match value with
  | Single _ => Some (value, true)
  | ValueMap value_map =>
    match (if decide (size value_map = 2%nat) then list_find (fun i => i <> location) (elements value_map) else None) with
    | Some (_, i) => Some (Single i, false)
    | None =>
      let erased := value_map ∖ {[location]} in
      if decide (location ∈ value_map /\ (1 < size erased)%nat) then Some (ValueMap erased, false) else None
    end
  end.

(** A default-constructed [ValueType], for a key that is not there. *)
Definition default_value : ValueType := Single (Slot 0).

Definition run_erase (a : erase_action) (hash_map : M) : option M :=
  match find_fn hash_map (index_key a) with
  | None => None
  | Some value =>
    _ ← erase_fn (location a) value;
    let '(hash_map, uprase_result) :=
      uprase_fn hash_map (index_key a) (fun value => default (value, false) (erase_fn (location a) value)) default_value in
    if (uprase_result : bool) then None else Some hash_map
  end.

(** [Insert]'s [key_found_fn]: the value, and [insert_result]. *)
Definition insert_fn (location : TupleSlot) (value : ValueType) : ValueType * bool :=
  match value with
  | Single existing_location => (ValueMap {[location; existing_location]}, true)
  | ValueMap value_map => (ValueMap ({[location]} ∪ value_map), bool_decide (location ∉ value_map))
  end.

(** The transaction gets the abort action [a], which is the erasure returned.  [unique] is
    the schema's, here and below, for the assertions on it. *)
Definition Insert (mem : buffers) (txn : TransactionContext) (unique : bool) (tuple : list Z) (location : TupleSlot) (a : Z) (hash_map : M) :
    option (TransactionContext * erase_action * M) :=
  if unique then None else
  index_key ← SetFromProjectedRow mem tuple;
  let insert_result := match find_fn hash_map index_key with Some value => (insert_fn location value).2 | None => false end in
  let '(hash_map, uprase_result) := uprase_fn hash_map index_key (fun value => ((insert_fn location value).1, false)) (Single location) in
  if decide (insert_result <> uprase_result) then Some (RegisterAbortAction a txn, EraseKey index_key location, hash_map) else None.

(** The slots of a value, in the order of iteration. *)
Definition slots_list (value : ValueType) : list TupleSlot :=
  match value with Single s => [s] | ValueMap value_map => elements value_map end.

(** Whether a slot conflicts with the transaction or is visible to it. *)
Definition predicate (table : memory) (txn : TransactionContext) (slot : TupleSlot) : option bool :=
  has_conflict ← HasConflictSlot table txn slot;
  is_visible ← IsVisible table txn slot;
  Some (has_conflict || is_visible).

(** [std::any_of] *)
Fixpoint any_of (p : TupleSlot -> option bool) (slots : list TupleSlot) : option bool :=
  match slots with
  | [] => Some false
  | s :: rest => b ← p s; if (b : bool) then Some true else any_of p rest
  end.

(** Whether the slot was inserted, the transaction, the erasure registered if so. *)
Definition InsertUnique (mem : buffers) (table : memory) (txn : TransactionContext) (unique : bool) (tuple : list Z) (location : TupleSlot) (a : Z) (hash_map : M) :
    option (bool * TransactionContext * option erase_action * M) :=
  if negb unique then None else
  index_key ← SetFromProjectedRow mem tuple;
  predicate_satisfied ← match find_fn hash_map index_key with
                        | Some value => any_of (predicate table txn) (slots_list value)
                        | None => Some false
                        end;
  let insert_result := match find_fn hash_map index_key with
                       | Some value => if (predicate_satisfied : bool) then false else (insert_fn location value).2
                       | None => false
                       end in
  let key_found_fn value := (if (predicate_satisfied : bool) then value else (insert_fn location value).1, false) in
  let '(hash_map, uprase_result) := uprase_fn hash_map index_key key_found_fn (Single location) in
  let overall_result := insert_result || uprase_result in
  if decide (predicate_satisfied <> overall_result /\ (predicate_satisfied = true \/ insert_result <> uprase_result)) then
    if overall_result then Some (true, RegisterAbortAction a txn, Some (EraseKey index_key location), hash_map)
    else Some (false, SetMustAbort txn, None, hash_map)
  else None.

(** The commit action [a] registers the erasure as a deferred action. *)
Definition Delete (mem : buffers) (table : memory) (txn : TransactionContext) (tuple : list Z) (location : TupleSlot) (a : Z) :
    option (TransactionContext * erase_action) :=
  index_key ← SetFromProjectedRow mem tuple;
  p ← predicate table txn location;
  if (p : bool) then None else Some (RegisterCommitAction a txn, EraseKey index_key location).

(** The loop of [ScanKey] over the slots of a key. *)
Fixpoint filter_visible (table : memory) (txn : TransactionContext) (slots : list TupleSlot) : option (list TupleSlot) :=
  match slots with
  | [] => Some []
  | s :: rest => b ← IsVisible table txn s; l ← filter_visible table txn rest; Some (if (b : bool) then s :: l else l)
  end.

(** A unique index finds one slot at most. *)
Definition ScanKey (mem : buffers) (table : memory) (txn : TransactionContext) (unique : bool) (key : list Z) (hash_map : M) : option (list TupleSlot) :=
  index_key ← SetFromProjectedRow mem key;
  value_list ← filter_visible table txn (match find_fn hash_map index_key with Some value => slots_list value | None => [] end);
  if unique && bool_decide (1 < length value_list)%nat then None else Some value_list.

End index.

End HashIndex.
Import HashIndex.

(** ** The map from keys to sets of slots *)

Definition value_slots (value : ValueType) : gset TupleSlot :=
  match value with Single s => {[s]} | ValueMap value_map => value_map end.

(** A [ValueMap] has two elements at least. *)
Definition value_ok (value : ValueType) : Prop :=
  match value with Single _ => True | ValueMap value_map => (2 <= size value_map)%nat end.

Lemma value_slots_nonempty value : value_ok value -> value_slots value <> ∅.
Proof. destruct value as [s|S]; cbn; [set_solver|]. intros Hs ->. rewrite size_empty in Hs. lia. Qed.

Lemma slots_list_elements value : list_to_set (slots_list value) = value_slots value /\ NoDup (slots_list value).
Proof.
  destruct value as [s|S]; cbn; [split; [set_solver|apply NoDup_singleton]|]. split; [by rewrite list_to_set_elements_L|apply NoDup_elements].
Qed.

Lemma insert_fn_slots location value : value_ok value -> location ∉ value_slots value ->
  value_slots (insert_fn location value).1 = {[location]} ∪ value_slots value /\ value_ok (insert_fn location value).1 /\
  (insert_fn location value).2 = true.
Proof.
  destruct value as [s|S]; cbn; intros Hok Hn.
  - split; [done|]. split; [|done]. rewrite size_union, !size_singleton by set_solver. lia.
  - split; [done|]. split; [|by apply bool_decide_eq_true]. rewrite size_union, size_singleton by set_solver. lia.
Qed.

(** The erasure removes its location, and the key with the last one. *)
Lemma erase_fn_slots location value : value_ok value -> location ∈ value_slots value ->
  exists value' erase, erase_fn location value = Some (value', erase) /\
    if (erase : bool) then value_slots value = {[location]} else value_slots value' = value_slots value ∖ {[location]} /\ value_ok value'.
Proof.
  destruct value as [s|S]; cbn; intros Hok Hin; [exists (Single s), true; split; [done|set_solver]|].
  assert (size (S ∖ {[location]}) = size S - 1)%nat as Hsz by (rewrite size_difference, size_singleton by set_solver; done).
  destruct (decide (size S = 2%nat)) as [E2|E2].
  - destruct (list_find _ _) as [[n i]|] eqn:Ef.
    + exists (Single i), false. split; [done|]. cbn. split; [|done]. apply list_find_Some in Ef as (Hl & Hne & _).
      apply list_elem_of_lookup_2, elem_of_elements in Hl. symmetry. apply leibniz_equiv. rewrite E2 in Hsz.
      symmetry. apply set_subseteq_size_equiv; [set_solver|]. rewrite Hsz, size_singleton. done.
    + exfalso. assert (exists i, i ∈ S ∖ {[location]}) as [i Hi] by (apply size_pos_elem_of; lia).
      apply list_find_None in Ef. rewrite Forall_forall in Ef. assert (i ∈ elements S) as Hi' by set_solver. apply (Ef i Hi'). set_solver.
  - exists (ValueMap (S ∖ {[location]})), false. rewrite decide_True by (split; [done|lia]). split; [done|]. cbn. split; [done|lia].
Qed.

Section hash_index.
Context {K V M : Type} `{Countable V, !IndexKey K V, !CuckooMap M K V ValueType}.

(** What the index is: the slots of every key value. *)
Definition slots (hash_map : M) (v : V) : gset TupleSlot := default ∅ (value_slots <$> contents hash_map !! v).
Definition index_ok (hash_map : M) : Prop := forall v value, contents hash_map !! v = Some value -> value_ok value.

(** Changing the value of one key. *)
Lemma slots_changed (hash_map hash_map' : M) v (o : option ValueType) S :
  index_ok hash_map -> contents hash_map' = partial_alter (fun _ => o) v (contents hash_map) ->
  default ∅ (value_slots <$> o) = S -> (forall value, o = Some value -> value_ok value) ->
  index_ok hash_map' /\ slots hash_map' v = S /\ forall v', v' <> v -> slots hash_map' v' = slots hash_map v'.
Proof.
  intros Hok E ES Ho. unfold index_ok, slots in *. rewrite E. split; [|split].
  - intros v' value. destruct (decide (v' = v)) as [->|Hne]; [rewrite lookup_partial_alter_eq; apply Ho|rewrite lookup_partial_alter_ne by done; apply Hok].
  - by rewrite lookup_partial_alter_eq.
  - intros v' Hne. by rewrite lookup_partial_alter_ne by done.
Qed.

Lemma run_erase_slots (hash_map : M) k v loc : index_ok hash_map -> key_of k v -> loc ∈ slots hash_map v ->
  exists hash_map', run_erase (EraseKey k loc) hash_map = Some hash_map' /\ index_ok hash_map' /\
    slots hash_map' v = slots hash_map v ∖ {[loc]} /\ forall v', v' <> v -> slots hash_map' v' = slots hash_map v'.
Proof.
  intros Hok Hk Hin. unfold run_erase. cbn [index_key location]. rewrite (find_contents _ _ _ Hk). unfold slots in Hin |- * at 2.
  destruct (contents hash_map !! v) as [value|] eqn:E; [|set_solver]. cbn [fmap option_fmap option_map default from_option] in Hin |- *.
  destruct (erase_fn_slots loc value (Hok v value E) Hin) as (value' & erase & Ee & Hv). rewrite Ee. cbn [mbind option_bind].
  pose proof (uprase_contents hash_map k v (fun value => default (value, false) (erase_fn loc value)) default_value Hk) as Hc.
  pose proof (uprase_new hash_map k v (fun value => default (value, false) (erase_fn loc value)) default_value Hk) as Hn.
  destruct (uprase_fn _ _ _ _) as [hm' new]. cbn [fst snd] in Hc, Hn. rewrite E in Hc, Hn. subst new. cbn. rewrite Ee in Hc. cbn in Hc. exists hm'. split; [done|].
  destruct erase.
  - apply (slots_changed hash_map hm' v None); [done|done|rewrite Hv; set_solver|done].
  - destruct Hv as [Hv1 Hv2]. apply (slots_changed hash_map hm' v (Some value')); [done|done|done|by intros ? [= <-]].
Qed.

(** An insertion of a slot that is not there. *)
Lemma uprase_insert (hash_map : M) k v loc : index_ok hash_map -> key_of k v -> loc ∉ slots hash_map v ->
  let r := uprase_fn hash_map k (fun value => ((insert_fn loc value).1, false)) (Single loc) in
  index_ok r.1 /\ slots r.1 v = {[loc]} ∪ slots hash_map v /\ (forall v', v' <> v -> slots r.1 v' = slots hash_map v') /\
  match find_fn hash_map k with Some value => (insert_fn loc value).2 = true /\ r.2 = false | None => r.2 = true end.
Proof.
  intros Hok Hk Hn r. pose proof (uprase_contents hash_map k v (fun value => ((insert_fn loc value).1, false)) (Single loc) Hk) as Hc.
  pose proof (uprase_new hash_map k v (fun value => ((insert_fn loc value).1, false)) (Single loc) Hk) as Hnew. fold r in Hc, Hnew.
  rewrite (find_contents _ _ _ Hk). unfold slots in Hn. destruct (contents hash_map !! v) as [value|] eqn:E.
  - cbn in Hn. destruct (insert_fn_slots loc value (Hok v value E) Hn) as (H1 & H2 & H3).
    destruct (slots_changed hash_map r.1 v (Some (insert_fn loc value).1) ({[loc]} ∪ slots hash_map v)) as (A & B & C); [done|done| |by intros ? [= <-]|].
    { unfold slots. rewrite E. done. }
    split; [done|]. split; [done|]. split; [done|]. split; [done|]. rewrite Hnew. done.
  - destruct (slots_changed hash_map r.1 v (Some (Single loc)) ({[loc]} ∪ slots hash_map v)) as (A & B & C); [done|done| |by intros ? [= <-]|].
    { unfold slots. rewrite E. cbn. set_solver. }
    split; [done|]. split; [done|]. split; [done|]. rewrite Hnew. done.
Qed.

Lemma any_of_spec p l : (forall s, s ∈ l -> is_Some (p s)) -> exists b, any_of p l = Some b /\ (b = true <-> exists s, s ∈ l /\ p s = Some true).
Proof.
  induction l as [|s l IH]; intros Hp; cbn [any_of]; [exists false; split; [done|]; split; [done|]; intros (? & H' & _); by apply elem_of_nil in H'|].
  destruct (Hp s) as [b Hb]; [set_solver|]. rewrite Hb. cbn [mbind option_bind]. destruct b.
  - exists true. split; [done|]. split; [|done]. intros _. exists s. split; [set_solver|done].
  - destruct IH as (b & -> & Hb'); [set_solver|]. exists b. split; [done|]. rewrite Hb'. split; intros (x & Hx & Ex); exists x; (split; [|done]); [set_solver|].
    apply elem_of_cons in Hx as [->|]; [congruence|done].
Qed.

Lemma filter_visible_spec table txn l : (forall s, s ∈ l -> is_Some (IsVisible table txn s)) ->
  exists r, filter_visible table txn l = Some r /\ (forall s, s ∈ r <-> s ∈ l /\ IsVisible table txn s = Some true) /\ (NoDup l -> NoDup r).
Proof.
  induction l as [|s l IH]; intros Hp; cbn [filter_visible]; [exists []; split; [done|]; split; [set_solver|done]|].
  destruct (Hp s) as [b Hb]; [set_solver|]. destruct IH as (r & -> & Hr & Hn); [set_solver|]. rewrite Hb. cbn [mbind option_bind]. eexists. split; [reflexivity|]. split.
  - intros x. destruct b; rewrite ?elem_of_cons, Hr; split.
    + intros [->|[? ?]]; tauto.
    + intros [[->|?] ?]; tauto.
    + tauto.
    + intros [[->|?] ?]; [congruence|tauto].
  - intros [Hs Hl]%NoDup_cons. destruct b; [|auto]. apply NoDup_cons. split; [rewrite Hr; tauto|auto].
Qed.

(** The slots of a key as the code finds them. *)
Lemma found_slots (hash_map : M) k v : key_of k v ->
  let l := match find_fn hash_map k with Some value => slots_list value | None => [] end in
  (forall s, s ∈ l <-> s ∈ slots hash_map v) /\ NoDup l.
Proof.
  intros Hk. rewrite (find_contents _ _ _ Hk). unfold slots. destruct (contents hash_map !! v) as [value|]; cbn; [|split; [set_solver|constructor]].
  destruct (slots_list_elements value) as [E Hn]. split; [|done]. intros s. rewrite <-E. by rewrite elem_of_list_to_set.
Qed.

Lemma Insert_slots (hash_map : M) mem txn tuple k v loc a : index_ok hash_map -> SetFromProjectedRow mem tuple = Some k -> key_of k v -> loc ∉ slots hash_map v ->
  exists hash_map', Insert mem txn false tuple loc a hash_map = Some (RegisterAbortAction a txn, EraseKey k loc, hash_map') /\ index_ok hash_map' /\
    slots hash_map' v = {[loc]} ∪ slots hash_map v /\ forall v', v' <> v -> slots hash_map' v' = slots hash_map v'.
Proof.
  intros Hok Hset Hk Hn. unfold Insert. rewrite Hset. cbn [mbind option_bind].
  destruct (uprase_insert hash_map k v loc Hok Hk Hn) as (H1 & H2 & H3 & H4). destruct (uprase_fn _ _ _ _) as [hm' new]. cbn [fst snd] in *.
  exists hm'. split; [|done]. destruct (find_fn hash_map k) as [value|]; [destruct H4 as [-> ->]|subst new]; done.
Qed.

Lemma InsertUnique_slots (hash_map : M) mem table txn tuple k v loc a : index_ok hash_map -> SetFromProjectedRow mem tuple = Some k -> key_of k v ->
  loc ∉ slots hash_map v -> (forall s, s ∈ slots hash_map v -> is_Some (predicate table txn s)) ->
  exists inserted txn' action hash_map', InsertUnique mem table txn true tuple loc a hash_map = Some (inserted, txn', action, hash_map') /\ index_ok hash_map' /\
    (inserted = true <-> forall s, s ∈ slots hash_map v -> predicate table txn s = Some false) /\
    (if (inserted : bool) then txn' = RegisterAbortAction a txn /\ action = Some (EraseKey k loc) /\ slots hash_map' v = {[loc]} ∪ slots hash_map v
     else txn' = SetMustAbort txn /\ action = None /\ slots hash_map' v = slots hash_map v) /\
    forall v', v' <> v -> slots hash_map' v' = slots hash_map v'.
Proof.
  intros Hok Hset Hk Hn Hp. unfold InsertUnique. rewrite Hset. cbn [mbind option_bind negb].
  destruct (found_slots hash_map k v Hk) as [Hf _]. cbv zeta in Hf.
  assert (exists b, match find_fn hash_map k with Some value => any_of (predicate table txn) (slots_list value) | None => Some false end = Some b /\
    (b = true <-> exists s, s ∈ slots hash_map v /\ predicate table txn s = Some true)) as (b & -> & Hb).
  { destruct (find_fn hash_map k) as [value|].
    - destruct (any_of_spec (predicate table txn) (slots_list value)) as (b & E & Hb); [intros s Hs; apply Hp; by apply Hf|]. exists b. split; [done|].
      rewrite Hb. by setoid_rewrite Hf.
    - exists false. split; [done|]. split; [done|]. intros (s & Hs & _). apply Hf in Hs. by apply elem_of_nil in Hs. }
  cbn [mbind option_bind]. destruct b.
  - pose proof (proj1 Hb eq_refl) as (s & Hs & Es). destruct (find_fn hash_map k) as [value|] eqn:Ef; [|apply Hf in Hs; by apply elem_of_nil in Hs].
    rewrite (find_contents _ _ _ Hk) in Ef.
    pose proof (uprase_contents hash_map k v (fun value => (value, false)) (Single loc) Hk) as Hc. pose proof (uprase_new hash_map k v (fun value => (value, false)) (Single loc) Hk) as Hnew.
    destruct (uprase_fn _ _ _ _) as [hm' new]. cbn [fst snd] in *. rewrite Ef in Hc, Hnew. subst new. cbn.
    exists false, (SetMustAbort txn), None, hm'. split; [done|].
    destruct (slots_changed hash_map hm' v (Some value) (slots hash_map v)) as (A & B & C); [done|done|unfold slots; by rewrite Ef|intros ? [= <-]; by eapply Hok|].
    split; [done|]. split; [|done]. split; [done|]. intros HF. rewrite (HF s Hs) in Es. done.
  - destruct (uprase_insert hash_map k v loc Hok Hk Hn) as (H1 & H2 & H3 & H4). destruct (uprase_fn _ _ _ _) as [hm' new]. cbn [fst snd] in *.
    exists true, (RegisterAbortAction a txn), (Some (EraseKey k loc)), hm'.
    split; [destruct (find_fn hash_map k) as [value|]; [destruct H4 as [-> ->]|subst new]; done|]. split; [done|]. split; [|done]. split; [|done]. intros _ s Hs.
    destruct (Hp s Hs) as [c Hc]. destruct c; [|done]. assert (false = true); [|done]. apply Hb. eauto.
Qed.

End hash_index.

(** C25: a hash index is a map from key values to sets of slots.  For a key that stands for
    the value [v]: [Insert] adds its slot to those of [v], and the abort action it
    registers takes it out again; [InsertUnique] does so exactly if no slot of [v] is visible to the
    transaction or in conflict with it, and otherwise leaves the index and makes the
    transaction abort; [Delete] changes nothing until the deferred erasure removes the slot;
    [ScanKey] finds exactly the visible slots of [v], each once; no other key is affected
    and no assertion fails. *)
Theorem hash_index_refines {K V M : Type} `{Countable V, !IndexKey K V, !CuckooMap M K V ValueType}
    (hash_map : M) (mem : buffers) (table : memory) (txn : TransactionContext) (tuple : list Z) (k : K) (v : V) (loc : TupleSlot) (a : Z) :
  index_ok hash_map -> SetFromProjectedRow mem tuple = Some k -> key_of k v ->
  (forall s, s ∈ slots hash_map v -> is_Some (predicate table txn s)) ->
  let others_same hm hm' := forall v', v' <> v -> slots hm' v' = slots hm v' in
  (loc ∉ slots hash_map v ->
    (exists e hm', Insert mem txn false tuple loc a hash_map = Some (RegisterAbortAction a txn, e, hm') /\ index_ok hm' /\
      slots hm' v = {[loc]} ∪ slots hash_map v /\ others_same hash_map hm' /\
      exists hm'', run_erase e hm' = Some hm'' /\ forall v', slots hm'' v' = slots hash_map v') /\
    (exists inserted txn' e hm', InsertUnique mem table txn true tuple loc a hash_map = Some (inserted, txn', e, hm') /\ index_ok hm' /\
      (inserted = true <-> forall s, s ∈ slots hash_map v -> predicate table txn s = Some false) /\
      (if (inserted : bool) then txn' = RegisterAbortAction a txn /\ slots hm' v = {[loc]} ∪ slots hash_map v
       else must_abort_ txn' = true /\ slots hm' v = slots hash_map v) /\ others_same hash_map hm')) /\
  (loc ∈ slots hash_map v -> predicate table txn loc = Some false ->
    exists e hm', Delete mem table txn tuple loc a = Some (RegisterCommitAction a txn, e) /\ run_erase e hash_map = Some hm' /\ index_ok hm' /\
      slots hm' v = slots hash_map v ∖ {[loc]} /\ others_same hash_map hm') /\
  exists l, ScanKey mem table txn false tuple hash_map = Some l /\ NoDup l /\
    forall s, s ∈ l <-> s ∈ slots hash_map v /\ IsVisible table txn s = Some true.
Proof.
  intros Hok Hset Hk Hp others_same. split; [intros Hn; split|split].
  - destruct (Insert_slots hash_map mem txn tuple k v loc a Hok Hset Hk Hn) as (hm' & E & Hok' & H1 & H2). exists (EraseKey k loc), hm'. split; [done|].
    split; [done|]. split; [done|]. split; [done|]. destruct (run_erase_slots hm' k v loc Hok' Hk) as (hm'' & E' & _ & H3 & H4); [set_solver|].
    exists hm''. split; [done|]. intros v'. destruct (decide (v' = v)) as [->|Hne]; [rewrite H3, H1; set_solver|by rewrite H4, H2].
  - destruct (InsertUnique_slots hash_map mem table txn tuple k v loc a Hok Hset Hk Hn Hp) as (b & txn' & e & hm' & E & Hok' & H1 & H2 & H3).
    exists b, txn', e, hm'. split; [done|]. split; [done|]. split; [done|]. split; [|done]. destruct b; [by destruct H2 as (? & _ & ?)|]. by destruct H2 as (-> & _ & ?).
  - intros Hin Hpf. destruct (run_erase_slots hash_map k v loc Hok Hk Hin) as (hm' & E & Hok' & H1 & H2). exists (EraseKey k loc), hm'.
    unfold Delete. rewrite Hset. cbn [mbind option_bind]. rewrite Hpf. cbn [mbind option_bind]. done.
  - unfold ScanKey. rewrite Hset. cbn [mbind option_bind]. destruct (found_slots hash_map k v Hk) as [Hf Hnd]. cbv zeta in Hf, Hnd.
    set (found := match find_fn hash_map k with Some value => slots_list value | None => [] end) in *.
    destruct (filter_visible_spec table txn found) as (l & -> & Hl & Hn).
    { intros s Hs. apply Hf in Hs. destruct (Hp s Hs) as [b Hb]. unfold predicate in Hb. destruct (HasConflictSlot _ _ _); [|done]. by destruct (IsVisible _ _ _). }
    cbn. exists l. split; [done|]. split; [auto|]. intros s. by rewrite Hl, Hf.
Qed.

(** ** The interfaces are implemented *)

Section hash_keys.
Context (m : IndexMetadata.IndexMetadata) (KeySize : nat).

(** Hash keys stand for their bytes. *)
#[export, refine] Instance HashKey_IndexKey : IndexKey (list Z) (list Z) := {
  SetFromProjectedRow mem r := HashKey.SetFromProjectedRow KeySize r m (length (GetColumns (IndexMetadata.key_schema_ m)));
  key_equal := HashKey.equal_to KeySize;
  key_of k v := v = k /\ length k = KeySize
}.
Proof.
  intros k k' v v' [-> Hk] [-> Hk']. unfold HashKey.equal_to. rewrite bool_decide_eq_true, memcmp_0, !take_ge by lia. done.
Defined.

(** Generic keys stand for the values of their attributes. *)
#[export, refine] Instance GenericKey_IndexKey : IndexKey GenericKey.GenericKey (list (option (list Z))) := {
  SetFromProjectedRow mem r := GenericKey.SetFromProjectedRow KeySize mem r m (length (GetColumns (IndexMetadata.key_schema_ m)));
  key_equal k k' := default false (GenericKey.equal_to KeySize k k');
  key_of := key_view KeySize m
}.
Proof.
  intros k k' v v' Hk Hk'. pose proof (proj1 (proj2 (proj2 Hk))) as L. pose proof (proj1 (proj2 (proj2 Hk'))) as L'.
  destruct (equal_loop_view KeySize m k k' v v' Hk Hk' (GenericKey.num_cols k) 0) as (b & E & Hb); [unfold GenericKey.num_cols; rewrite (proj1 Hk); lia|].
  unfold GenericKey.equal_to. rewrite E. cbn. rewrite Hb, !drop_0, !take_ge; [done|unfold GenericKey.num_cols; rewrite (proj1 Hk); lia..].
Defined.

(** A map from the bytes of hash keys behaves as the hash map must. *)
#[export, refine] Instance gmap_CuckooMap X : CuckooMap (gmap (list Z) X) (list Z) (list Z) X := {
  find_fn hm k := hm !! k;
  uprase_fn hm k f x :=
    match hm !! k with
    | Some y => let '(z, erase) := f y in (if (erase : bool) then delete k hm else <[k := z]> hm, false)
    | None => (<[k := x]> hm, true)
    end;
  contents hm := hm
}.
Proof.
  - by intros hm k v [-> _].
  - intros hm k v f x [-> _]. destruct (hm !! k); [|done]. by destruct (f x0).
  - intros hm k v f x [-> _]. destruct (hm !! k); [|done]. by destruct (f x0).
Defined.

End hash_keys.

(** An index on (SMALLINT, INTEGER) with one entry for the key (3, 7). *)
Definition example_key : list Z := default [] (HashKey.SetFromProjectedRow 8 (example_row 3 7) example_metadata 2).
Definition example_index : gmap (list Z) ValueType := {[ example_key := Single (Slot 1) ]}.
Definition example_table : memory := Memory ∅ ∅ ∅ ∅ [].

Lemma singleton_index m KeySize (k : list Z) (slot : TupleSlot) :
  index_ok (CuckooMap0 := gmap_CuckooMap m KeySize ValueType) {[ k := Single slot ]} /\
  slots (CuckooMap0 := gmap_CuckooMap m KeySize ValueType) {[ k := Single slot ]} k = {[slot]}.
Proof.
  split.
  - intros v value Hv. change (({[ k := Single slot ]} : gmap (list Z) ValueType) !! v = Some value) in Hv. apply lookup_singleton_Some in Hv as [_ <-]. exact I.
  - unfold slots. change (default ∅ (value_slots <$> ({[ k := Single slot ]} : gmap (list Z) ValueType) !! k) = {[slot]}). by rewrite lookup_singleton_eq.
Qed.

Lemma hash_index_refines_witness :
  let txn := new_txn 5 (2 ^ 63 + 5) in
  exists e hm, @Insert _ _ _ _ _ (HashKey_IndexKey example_metadata 8) (gmap_CuckooMap example_metadata 8 ValueType)
      ∅ txn false (example_row 3 7) (Slot 2) 9 example_index = Some (RegisterAbortAction 9 txn, e, hm) /\
    slots (CuckooMap0 := gmap_CuckooMap example_metadata 8 ValueType) hm example_key = {[Slot 2]} ∪ {[Slot 1]}.
Proof.
  destruct (singleton_index example_metadata 8 example_key (Slot 1)) as [Hok Es].
  destruct (hash_index_refines (IndexKey0 := HashKey_IndexKey example_metadata 8) (CuckooMap0 := gmap_CuckooMap example_metadata 8 ValueType)
    example_index ∅ example_table (new_txn 5 (2 ^ 63 + 5)) (example_row 3 7) example_key example_key (Slot 2) 9 Hok) as (H1 & _).
  - vm_compute. reflexivity.
  - split; [reflexivity|]. vm_compute. reflexivity.
  - intros s Hs. unfold example_index in Hs. rewrite Es in Hs. apply elem_of_singleton in Hs as ->. vm_compute. eauto.
  - unfold example_index in *. rewrite Es in H1. destruct H1 as [(e & hm & E & _ & Hs & _) _]; [|exists e, hm; split; [exact E|exact Hs]].
    intros H2%elem_of_singleton. discriminate H2.
Defined.

(** ** The builder's choice *)

Lemma first_fit_spec key_size sizes s : IndexBuilder.first_fit key_size sizes = Some s -> key_size <= Z.of_nat s /\ s ∈ sizes.
Proof.
  induction sizes as [|x sizes IH]; cbn; [done|]. case_decide; [intros [= <-]; split; [done|set_solver]|]. intros H'. destruct (IH H') as [? ?]. split; [done|set_solver].
Qed.

Section built.
Context (schema : IndexSchema) (m : IndexMetadata.IndexMetadata) (idx : IndexBuilder.Index).
Hypothesis Hmake : IndexMetadata.make schema = Some m.
Hypothesis Hcols : GetColumns schema <> [].
Hypothesis Hlen : Z.of_nat (length (GetColumns schema)) < 2 ^ 13.

Lemma generic_built t : Forall (fun c => 0 <= MaxVarlenSize c < 2 ^ 16 - 4) (GetColumns schema) -> IndexBuilder.BuildGenericKey t m = Some idx ->
  idx = IndexBuilder.Built t GENERICKEY (IndexBuilder.KeyBytes idx) /\ (IndexBuilder.KeyBytes idx <= 256)%nat /\ generic_index schema m (IndexBuilder.KeyBytes idx).
Proof.
  intros Hv Hb. unfold IndexBuilder.BuildGenericKey in Hb. destruct (IndexBuilder.first_fit _ _) as [s|] eqn:E; [|done]. injection Hb as <-.
  apply first_fit_spec in E as [Hs Hin]. cbn [IndexBuilder.KeyBytes]. split; [done|]. split; [revert Hin; rewrite !elem_of_cons, elem_of_nil; lia|].
  split_and!; try done; [unfold MAX_COL; lia|lia].
Qed.

Lemma ints_built kind (sizes : list nat) (max : nat) t : simple_key (GetColumns schema) = true -> (forall s, s ∈ sizes -> s <= max)%nat ->
  IndexBuilder.Built t kind <$> IndexBuilder.first_fit (IndexMetadata.key_size_ m) sizes = Some idx ->
  idx = IndexBuilder.Built t kind (IndexBuilder.KeyBytes idx) /\ (IndexBuilder.KeyBytes idx <= max)%nat /\ simple_index schema m (IndexBuilder.KeyBytes idx).
Proof.
  intros Hs Hmax Hb. destruct (IndexBuilder.first_fit _ _) as [s|] eqn:E; [|done]. injection Hb as <-. apply first_fit_spec in E as [Hf Hin].
  cbn [IndexBuilder.KeyBytes]. split; [done|]. split; [by apply Hmax|]. done.
Qed.

End built.

(** The index [Build] makes has keys that hold its rows.  When it makes one, it is of the
    schema's type, and for rows of the schema every key can be set: packed integer keys of
    at most 32 bytes, for trees; hash keys of at most 256 bytes, which are equal exactly for
    rows of equal values; or generic keys of at most 256 bytes. *)
Theorem Build_keys_fit (schema : IndexSchema) (m : IndexMetadata.IndexMetadata) (idx : IndexBuilder.Index) :
  IndexBuilder.Build schema = Some idx -> IndexMetadata.make schema = Some m ->
  Z.of_nat (length (GetColumns schema)) < 2 ^ 13 -> Forall (fun c => 0 <= MaxVarlenSize c < 2 ^ 16 - 4) (GetColumns schema) ->
  let n := length (GetColumns schema) in let bytes := IndexBuilder.KeyBytes idx in
  IndexBuilder.Type_ idx = SchemaType schema /\
  match IndexBuilder.KeyKind idx with
  | COMPACTINTSKEY => SchemaType schema <> HASHMAP /\ (bytes <= 32)%nat /\
      forall r k, key_row m r -> (0 < k <= n)%nat -> is_Some (CompactIntsKey.SetFromProjectedRow bytes r m k)
  | HASHKEY => SchemaType schema = HASHMAP /\ (bytes <= 256)%nat /\
      forall r1 r2, key_row m r1 -> key_row m r2 -> exists k1 k2,
        HashKey.SetFromProjectedRow bytes r1 m n = Some k1 /\ HashKey.SetFromProjectedRow bytes r2 m n = Some k2 /\
        (HashKey.equal_to bytes k1 k2 = true <-> key_values m r1 n = key_values m r2 n)
  | GENERICKEY => (bytes <= 256)%nat /\ forall mem r, generic_row mem m r -> is_Some (GenericKey.SetFromProjectedRow bytes mem r m n)
  end.
Proof.
  intros Hb Hmake Hlen Hv n bytes. unfold IndexBuilder.Build in Hb. case_decide as Hne; [|done]. rewrite Hmake in Hb. cbn [mbind option_bind] in Hb.
  assert (forall t, IndexBuilder.BuildGenericKey t m = Some idx -> t = SchemaType schema -> IndexBuilder.Type_ idx = SchemaType schema /\ IndexBuilder.KeyKind idx = GENERICKEY /\
    (bytes <= 256)%nat /\ forall mem r, generic_row mem m r -> is_Some (GenericKey.SetFromProjectedRow bytes mem r m n)) as HG.
  { intros t Ht ->. destruct (generic_built schema m idx Hmake Hne Hlen _ Hv Ht) as (E & H1 & H2). rewrite E at 1 2. split; [done|]. split; [done|]. split; [done|].
    intros mem r Hr. destruct (generic_key_view schema m _ mem H2 r Hr) as (key & Ek & _). by exists key. }
  assert (forall t, IndexBuilder.BuildIntsKey t m = Some idx -> simple_key (GetColumns schema) = true -> t = SchemaType schema -> IndexBuilder.Type_ idx = SchemaType schema /\ IndexBuilder.KeyKind idx = COMPACTINTSKEY /\
    (bytes <= 32)%nat /\ forall r k, key_row m r -> (0 < k <= n)%nat -> is_Some (CompactIntsKey.SetFromProjectedRow bytes r m k)) as HC.
  { intros t Ht Hs ->. destruct (ints_built schema m idx Hmake Hne Hlen COMPACTINTSKEY [8; 16; 24; 32]%nat 32 (SchemaType schema) Hs) as (E & H1 & H2);
      [intros s; rewrite !elem_of_cons, elem_of_nil; lia|exact Ht|].
    rewrite E at 1 2. split; [done|]. split; [done|]. split; [done|]. intros r k Hr Hk.
    destruct (simple_facts schema m _ H2) as (_ & _ & _ & _ & Elen & _). rewrite (make_schema schema m Hmake) in Elen.
    destruct (SetFromProjectedRow_holds schema m _ H2 H1 r k Hr) as (key & Ek & _); [unfold n in Hk; lia|]. by exists key. }
  destruct (SchemaType schema) eqn:Et.
  - destruct (simple_key _ && _) eqn:Es; [apply andb_true_iff in Es as [Es _]; destruct (HC _ Hb Es eq_refl) as (H1 & H2 & H3)|destruct (HG _ Hb eq_refl) as (H1 & H2 & H3)]; by rewrite H2.
  - destruct (simple_key _ && _) eqn:Es; [apply andb_true_iff in Es as [Es _]|destruct (HG _ Hb eq_refl) as (H1 & H2 & H3); by rewrite H2].
    destruct (ints_built schema m idx Hmake Hne Hlen HASHKEY [8; 16; 32; 64; 128; 256]%nat 256 HASHMAP Es) as (E & H1 & H2);
      [intros s; rewrite !elem_of_cons, elem_of_nil; lia|exact Hb|].
    rewrite E at 1 2. split; [done|]. cbn [IndexBuilder.KeyKind]. split; [done|]. split; [done|]. intros r1 r2 Hr1 Hr2.
    destruct (simple_facts schema m _ H2) as (_ & _ & _ & _ & Elen & _). rewrite (make_schema schema m Hmake) in Elen.
    destruct (hash_key_equal schema m _ H2 r1 r2 n Hr1 Hr2) as (k1 & k2 & E1 & E2 & Hiff). exists k1, k2. unfold n in *. by rewrite <-Elen in *.
  - destruct (simple_key _ && _) eqn:Es; [apply andb_true_iff in Es as [Es _]; destruct (HC _ Hb Es eq_refl) as (H1 & H2 & H3)|destruct (HG _ Hb eq_refl) as (H1 & H2 & H3)]; by rewrite H2.
Qed.

Lemma Build_keys_fit_witness :
  IndexBuilder.Build example_schema = Some (IndexBuilder.Built BPLUSTREE COMPACTINTSKEY 8) /\
  is_Some (CompactIntsKey.SetFromProjectedRow 8 (example_row (-5) 100) example_metadata 1).
Proof.
  split; [reflexivity|].
  destruct (Build_keys_fit example_schema example_metadata (IndexBuilder.Built BPLUSTREE COMPACTINTSKEY 8)) as (_ & _ & _ & H);
    [reflexivity|reflexivity|vm_compute; reflexivity|repeat constructor; vm_compute; congruence|].
  apply H; [apply example_key_row|cbn; lia].
Defined.
