(* ===== verification/TreeIndex.v ===== *)
(** * Tree indexes

    [storage/index/bwtree_index.h]: an index on a BwTree, an ordered multimap from keys to
    slots, with scans of a key, and ascending and descending scans of a range.  The tree is
    an interface ([Tree]): the pairs it holds, in the order in which its iterators visit
    them; an iterator is a position among them.  Keys are an interface ([KeyOrder]) that
    [CompactIntsKey] and [GenericKey] implement.

    The theorems: updates change exactly the pair they name, [InsertUnique] succeeds exactly
    when no slot of its key is visible or in conflict, scans return the visible slots of
    their range, in the order of the keys but for [ScanKey]; a descending scan drops all
    but the first pair with the high key. *)

From S2P Require Import Prelude Bitmap Layout TupleAccess ProjectedRow Varlen DataTable IndexKeys GenericKeys Indexes.
Import TupleSlot.

(** ** Interfaces *)

(** Keys in a strict weak order, and the comparison of their first attributes. *)
Class KeyOrder (K : Type) := {
  set_key : buffers -> list Z -> nat -> option K;
  less : K -> K -> bool;
  partial_less : K -> K -> nat -> option bool;
  num_attrs : nat;
  valid : K -> Prop;
  less_irrefl k : valid k -> less k k = false;
  less_trans k1 k2 k3 : valid k1 -> valid k2 -> valid k3 -> less k1 k2 = true -> less k2 k3 = true -> less k1 k3 = true;
  less_negtrans k1 k2 k3 : valid k1 -> valid k2 -> valid k3 -> less k1 k2 = false -> less k2 k3 = false -> less k1 k3 = false;
  partial_total k h n : valid k -> valid h -> (0 < n <= num_attrs)%nat -> is_Some (partial_less k h n);
  partial_mono k1 k2 h n : valid k1 -> valid k2 -> valid h -> (0 < n <= num_attrs)%nat -> less k2 k1 = false ->
    partial_less k2 h n = Some true -> partial_less k1 h n = Some true
}.

(** Keys neither of which is smaller. *)
Definition same_key {K : Type} `{!KeyOrder K} (k k' : K) : bool := negb (less k k') && negb (less k' k).

(** [BwTree<K, TupleSlot>]: [Insert] and [ConditionalInsert] add a pair that is not there
    (the latter unless the predicate holds of a slot of the key, which it reports),
    [Delete] removes one; [GetValue] gives the slots of a key in an order of its own (values
    that were inserted lately come first), which need not be that of the iterators. *)
Class Tree (T K : Type) `{!KeyOrder K} := {
  pairs : T -> list (K * TupleSlot);
  tree_Insert : T -> K -> TupleSlot -> T * bool;
  tree_ConditionalInsert : T -> K -> TupleSlot -> (TupleSlot -> bool) -> T * bool * bool;
  tree_Delete : T -> K -> TupleSlot -> T * bool;
  tree_GetValue : T -> K -> list TupleSlot;
  tree_ok t := Forall (fun p => valid p.1) (pairs t) /\ StronglySorted (fun p q => less q.1 p.1 = false) (pairs t);
  has t k s := exists k', (k', s) ∈ pairs t /\ same_key k k' = true;
  Insert_pairs t k s : tree_ok t -> valid k ->
    let '(t', b) := tree_Insert t k s in tree_ok t' /\ (b = true <-> ~ has t k s) /\
      pairs t' ≡ₚ (if (b : bool) then (k, s) :: pairs t else pairs t);
  ConditionalInsert_pairs t k s p : tree_ok t -> valid k ->
    let '(t', b, satisfied) := tree_ConditionalInsert t k s p in tree_ok t' /\
      (satisfied = true <-> exists s', has t k s' /\ p s' = true) /\ (b = true <-> satisfied = false /\ ~ has t k s) /\
      pairs t' ≡ₚ (if (b : bool) then (k, s) :: pairs t else pairs t);
  Delete_pairs t k s : tree_ok t -> valid k ->
    let '(t', b) := tree_Delete t k s in tree_ok t' /\ (b = true <-> has t k s) /\
      if (b : bool) then exists k', same_key k k' = true /\ pairs t ≡ₚ (k', s) :: pairs t' else pairs t' ≡ₚ pairs t;
  GetValue_pairs t k : tree_ok t -> valid k -> tree_GetValue t k ≡ₚ (filter (fun p => same_key k p.1 = true) (pairs t)).*2
}.

Module BwTreeIndex.

Inductive ScanType := Closed | OpenLow | OpenHigh | OpenBoth.

Section index.
Context {K T : Type} `{!KeyOrder K, !Tree T K}.

(** The captured key and location of an action that deletes them. *)
Record delete_action := DeleteKey { index_key : K; location : TupleSlot }.

Definition run_delete (a : delete_action) (bwtree : T) : option T :=
  let '(bwtree, result) := tree_Delete bwtree (index_key a) (location a) in if (result : bool) then Some bwtree else None.

Definition Insert (mem : buffers) (txn : TransactionContext) (unique : bool) (tuple : list Z) (location : TupleSlot) (a : Z) (bwtree : T) :
    option (TransactionContext * delete_action * T) :=
  if unique then None else
  index_key ← set_key mem tuple num_attrs;
  let '(bwtree, result) := tree_Insert bwtree index_key location in
  if (result : bool) then Some (RegisterAbortAction a txn, DeleteKey index_key location, bwtree) else None.

(** The predicate is total on the slots of the tree when the table's checks are. *)
Definition InsertUnique (mem : buffers) (table : memory) (txn : TransactionContext) (unique : bool) (tuple : list Z) (location : TupleSlot) (a : Z) (bwtree : T) :
    option (bool * TransactionContext * option delete_action * T) :=
  if negb unique then None else
  index_key ← set_key mem tuple num_attrs;
  let predicate slot := default false (HashIndex.predicate table txn slot) in
  let '(bwtree, result, predicate_satisfied) := tree_ConditionalInsert bwtree index_key location predicate in
  if decide (predicate_satisfied <> result) then
    if (result : bool) then Some (true, RegisterAbortAction a txn, Some (DeleteKey index_key location), bwtree)
    else Some (false, SetMustAbort txn, None, bwtree)
  else None.

Definition Delete (mem : buffers) (table : memory) (txn : TransactionContext) (tuple : list Z) (location : TupleSlot) (a : Z) :
    option (TransactionContext * delete_action) :=
  index_key ← set_key mem tuple num_attrs;
  p ← HashIndex.predicate table txn location;
  if (p : bool) then None else Some (RegisterCommitAction a txn, DeleteKey index_key location).

Definition ScanKey (mem : buffers) (table : memory) (txn : TransactionContext) (unique : bool) (key : list Z) (bwtree : T) : option (list TupleSlot) :=
  index_key ← set_key mem key num_attrs;
  value_list ← HashIndex.filter_visible table txn (tree_GetValue bwtree index_key);
  if unique && bool_decide (1 < length value_list)%nat then None else Some value_list.

(** [Begin(key)]: the position of the first pair that is not smaller. *)
Fixpoint lower_bound (l : list (K * TupleSlot)) (k : K) : nat :=
  match l with
  | [] => 0
  | p :: rest => if less p.1 k then S (lower_bound rest k) else 0
  end.

(** The loop of [ScanAscending] over the pairs from the iterator on; a limit of 0 is none. *)
Fixpoint scan_ascending (table : memory) (txn : TransactionContext) (in_range : K -> option bool) (limit : nat) (itr : list (K * TupleSlot))
    (value_list : list TupleSlot) : option (list TupleSlot) :=
  match itr with
  | [] => Some value_list
  | (k, slot) :: itr =>
    if decide (limit = 0%nat \/ (length value_list < limit)%nat) then
      continue ← in_range k;
      if (continue : bool) then
        visible ← IsVisible table txn slot;
        scan_ascending table txn in_range limit itr (if (visible : bool) then value_list ++ [slot] else value_list)
      else Some value_list
    else Some value_list
  end.

Definition ScanAscending (mem : buffers) (table : memory) (txn : TransactionContext) (scan_type : ScanType) (n : nat) (low_key high_key : list Z)
    (limit : nat) (bwtree : T) : option (list TupleSlot) :=
  let low_key_exists := match scan_type with Closed | OpenHigh => true | _ => false end in
  let high_key_exists := match scan_type with Closed | OpenLow => true | _ => false end in
  low ← (if (low_key_exists : bool) then Some <$> set_key mem low_key n else Some None);
  high ← (if (high_key_exists : bool) then Some <$> set_key mem high_key n else Some None);
  let scan_itr := match low with Some k => drop (lower_bound (pairs bwtree) k) (pairs bwtree) | None => pairs bwtree end in
  let in_range k := match high with Some h => partial_less k h n | None => Some true end in
  scan_ascending table txn in_range limit scan_itr [].

(** The pairs before an iterator that [Begin(high)] gives and that backs up by one if
    there is no such key, last first. *)
Definition back_from (l : list (K * TupleSlot)) (high : K) : list (K * TupleSlot) :=
  let pos := lower_bound l high in
  match l !! pos with
  | None => rev (take pos l)
  | Some p => if less high p.1 then rev (take pos l) else rev (take (S pos) l)
  end.

(** The loops of [ScanDescending] (without a limit) and [ScanLimitDescending]. *)
Fixpoint scan_descending (table : memory) (txn : TransactionContext) (low : K) (limit : option nat) (itr : list (K * TupleSlot))
    (value_list : list TupleSlot) : option (list TupleSlot) :=
  match itr with
  | [] => Some value_list
  | (k, slot) :: itr =>
    if match limit with Some n => bool_decide (length value_list < n)%nat | None => true end then
      if less k low then Some value_list else
      visible ← IsVisible table txn slot;
      scan_descending table txn low limit itr (if (visible : bool) then value_list ++ [slot] else value_list)
    else Some value_list
  end.

Definition scan_down (mem : buffers) (table : memory) (txn : TransactionContext) (low_key high_key : list Z) (limit : option nat) (bwtree : T) :
    option (list TupleSlot) :=
  low ← set_key mem low_key num_attrs;
  high ← set_key mem high_key num_attrs;
  scan_descending table txn low limit (back_from (pairs bwtree) high) [].

Definition ScanDescending (mem : buffers) (table : memory) (txn : TransactionContext) (low_key high_key : list Z) (bwtree : T) : option (list TupleSlot) :=
  scan_down mem table txn low_key high_key None bwtree.

Definition ScanLimitDescending (mem : buffers) (table : memory) (txn : TransactionContext) (low_key high_key : list Z) (limit : nat) (bwtree : T) :
    option (list TupleSlot) :=
  if decide (0 < limit)%nat then scan_down mem table txn low_key high_key (Some limit) bwtree else None.

End index.

End BwTreeIndex.
Import BwTreeIndex.

(** ** Scans *)

(** The visible slots of pairs. *)
Definition visible_slots {K} (table : memory) (txn : TransactionContext) (l : list (K * TupleSlot)) : list TupleSlot :=
  filter (fun s => IsVisible table txn s = Some true) l.*2.

Definition take_limit {A} (limit : nat) (l : list A) : list A := if decide (limit = 0%nat) then l else take limit l.

Fixpoint take_while {A} (P : A -> bool) (l : list A) : list A :=
  match l with [] => [] | x :: l => if P x then x :: take_while P l else [] end.

Lemma visible_cons {K} table txn (k : K) s l :
  visible_slots table txn ((k, s) :: l) = if decide (IsVisible table txn s = Some true) then s :: visible_slots table txn l else visible_slots table txn l.
Proof. unfold visible_slots. by rewrite fmap_cons, filter_cons. Qed.

Section scans.
Context {K T : Type} `{!KeyOrder K, !Tree T K} (table : memory) (txn : TransactionContext).

Lemma scan_ascending_spec (in_range : K -> option bool) limit (l : list (K * TupleSlot)) : forall acc,
  (forall p, p ∈ l -> is_Some (in_range p.1) /\ is_Some (IsVisible table txn p.2)) -> limit = 0%nat \/ (length acc <= limit)%nat ->
  scan_ascending table txn in_range limit l acc =
    Some (take_limit limit (acc ++ visible_slots table txn (take_while (fun p => bool_decide (in_range p.1 = Some true)) l))).
Proof.
  induction l as [|[k s] l IH]; intros acc Hl Ha; cbn [scan_ascending take_while].
  { unfold take_limit. rewrite app_nil_r. case_decide; [done|]. rewrite take_ge; [done|lia]. }
  destruct (Hl (k, s)) as [[b Hb] [v Hv]]; [set_solver|]. cbn [fst snd] in Hb, Hv. case_decide as Hlim.
  - cbn [fst]. rewrite Hb. cbn [mbind option_bind]. destruct b; [rewrite bool_decide_true by done|rewrite bool_decide_false by done].
    + rewrite Hv. cbn [mbind option_bind]. rewrite IH; [|intros p Hp; apply Hl; set_solver|destruct v; rewrite ?length_app; cbn; lia].
      rewrite visible_cons, Hv. destruct v; [rewrite decide_True by done|by rewrite decide_False by done]. by rewrite <-app_assoc.
    + unfold take_limit. rewrite app_nil_r. case_decide; [done|]. rewrite take_ge; [done|lia].
  - assert (limit <> 0%nat /\ length acc = limit) as [H0 <-] by lia. unfold take_limit. rewrite decide_False by done. by rewrite take_app_length.
Qed.

Lemma scan_descending_spec low limit (l : list (K * TupleSlot)) : forall acc,
  (forall p, p ∈ l -> is_Some (IsVisible table txn p.2)) -> match limit with Some n => (length acc <= n)%nat | None => True end ->
  scan_descending table txn low limit l acc =
    let r := acc ++ visible_slots table txn (take_while (fun p => negb (less p.1 low)) l) in Some (match limit with Some n => take n r | None => r end).
Proof.
  induction l as [|[k s] l IH]; intros acc Hl Ha; cbn [scan_descending take_while].
  { rewrite app_nil_r. destruct limit; [|done]. rewrite take_ge; done. }
  destruct (Hl (k, s)) as [v Hv]; [set_solver|]. cbn [snd] in Hv.
  destruct (match limit with Some n => bool_decide (length acc < n)%nat | None => true end) eqn:Elim.
  - cbn [fst]. destruct (less k low); cbn [negb].
    + rewrite app_nil_r. destruct limit; [|done]. rewrite take_ge; done.
    + rewrite Hv. cbn [mbind option_bind]. rewrite IH; [|set_solver|].
      * rewrite visible_cons, Hv. destruct v; [rewrite decide_True by done|by rewrite decide_False by done]. by rewrite <-app_assoc.
      * destruct limit as [n|]; [|done]. apply bool_decide_eq_true in Elim. destruct v; rewrite ?length_app; cbn; lia.
  - destruct limit as [n|]; [|done]. apply bool_decide_eq_false in Elim. assert (length acc = n) as <- by lia. cbv zeta. by rewrite take_app_length.
Qed.

(** Scanning while a condition holds finds all pairs for which it does, when those come first. *)
Lemma take_while_filter {A} (P : A -> bool) l :
  (forall i j x y, (i < j)%nat -> l !! i = Some x -> l !! j = Some y -> P y = true -> P x = true) -> take_while P l = filter (fun x => P x = true) l.
Proof.
  induction l as [|x l IH]; intros H'; [done|]. cbn [take_while]. destruct (P x) eqn:E.
  - rewrite filter_cons_True by done. f_equal. apply IH. intros i j a b Hij Ha Hb. apply (H' (S i) (S j) a b); [lia|done|done].
  - rewrite filter_cons_False by congruence. symmetry. apply filter_none. apply Forall_lookup. intros j y Hy Hp.
    rewrite (H' 0%nat (S j) x y ltac:(lia) eq_refl Hy Hp) in E. done.
Qed.

Lemma sorted_lookup (l : list (K * TupleSlot)) i j p q : StronglySorted (fun p q => less q.1 p.1 = false) l -> (i < j)%nat ->
  l !! i = Some p -> l !! j = Some q -> less q.1 p.1 = false.
Proof.
  intros Hs. revert i j. induction Hs as [|a l _ IH Hf]; intros [|i] [|j] Hij Hi Hj; try done; try lia.
  - cbn in Hi, Hj. injection Hi as ->. rewrite Forall_lookup in Hf. by eapply Hf.
  - cbn in Hi, Hj. apply (IH i j); [lia|done|done].
Qed.

(** The pairs from [Begin(k)] on are those that are not smaller. *)
Lemma lower_bound_split (l : list (K * TupleSlot)) k : Forall (fun p => valid p.1) l -> StronglySorted (fun p q => less q.1 p.1 = false) l -> valid k ->
  Forall (fun p => less p.1 k = true) (take (lower_bound l k) l) /\ Forall (fun p => less p.1 k = false) (drop (lower_bound l k) l).
Proof.
  intros Hv Hs Hk. induction Hs as [|a l Hs IH Hf]; cbn [lower_bound]; [split; constructor|]. apply Forall_cons in Hv as [Ha Hv].
  destruct (less a.1 k) eqn:E; cbn [take drop].
  - destruct (IH Hv) as [H1 H2]. split; [by constructor|done].
  - split; [constructor|]. constructor; [done|]. rewrite Forall_lookup in Hf, Hv |- *. intros i q Hq. apply (less_negtrans q.1 a.1 k); eauto.
Qed.

Lemma filter_split {A} (P : A -> Prop) `{!forall x, Decision (P x)} (l1 l2 : list A) :
  Forall (fun x => ~ P x) l1 -> Forall P l2 -> filter P (l1 ++ l2) = l2.
Proof.
  intros H1 H2. by rewrite filter_app, filter_none, filter_all.
Qed.

Lemma drop_lower_bound (l : list (K * TupleSlot)) k : Forall (fun p => valid p.1) l -> StronglySorted (fun p q => less q.1 p.1 = false) l -> valid k ->
  drop (lower_bound l k) l = filter (fun p => less p.1 k = false) l.
Proof.
  intros Hv Hs Hk. destruct (lower_bound_split l k Hv Hs Hk) as [H1 H2]. rewrite <-(take_drop (lower_bound l k) l) at 3.
  rewrite filter_split; [done|eapply Forall_impl; [exact H1|]; congruence|done].
Qed.

(** The pairs below [high], and the first of those with that key. *)
Definition up_to (l : list (K * TupleSlot)) (high : K) : list (K * TupleSlot) :=
  filter (fun p => less p.1 high = true) l ++ take 1 (filter (fun p => same_key high p.1 = true) l).

(** Backing up visits these pairs, which are the first ones of the tree. *)
Lemma back_from_up_to (l : list (K * TupleSlot)) high : Forall (fun p => valid p.1) l -> StronglySorted (fun p q => less q.1 p.1 = false) l -> valid high ->
  back_from l high = rev (up_to l high) /\ exists n, up_to l high = take n l.
Proof.
  intros Hv Hs Hh. destruct (lower_bound_split l high Hv Hs Hh) as [H1 H2]. unfold back_from. set (pos := lower_bound l high) in *.
  assert (up_to l high = take pos l ++ take 1 (filter (fun p => same_key high p.1 = true) (drop pos l))) as E.
  { unfold up_to. rewrite <-(take_drop pos l) at 1 2. rewrite !filter_app, (filter_all _ (take pos l) H1).
    rewrite (filter_none (fun p => less p.1 high = true) (drop pos l)) by (eapply Forall_impl; [exact H2|]; cbn; congruence).
    rewrite (filter_none _ (take pos l)); [by rewrite app_nil_r|]. eapply Forall_impl; [exact H1|]. intros p Hp. unfold same_key. by rewrite Hp, andb_false_r. }
  destruct (l !! pos) as [p|] eqn:Ep.
  - rewrite (drop_S l p pos Ep) in *. apply Forall_cons in H2 as [Hp2 _]. destruct (less high p.1) eqn:El.
    + assert (up_to l high = take pos l) as ->; [|by eauto]. rewrite E, filter_none; [by rewrite app_nil_r|]. apply Forall_lookup. intros i q Hq Hsame.
      rewrite Forall_lookup in Hv. rewrite <-(drop_S l p pos Ep), lookup_drop in Hq.
      assert (less q.1 p.1 = false) as Hqp by (destruct i; [rewrite Nat.add_0_r, Ep in Hq; injection Hq as <-; apply less_irrefl; eauto|eapply (sorted_lookup l pos (pos + S i)); [done|lia|done|done]]).
      unfold same_key in Hsame. apply andb_true_iff in Hsame as [Hq1%negb_true_iff _]. rewrite (less_negtrans high q.1 p.1) in El; eauto; done.
    + assert (up_to l high = take (S pos) l) as ->; [|by eauto]. rewrite E, filter_cons_True by (unfold same_key; by rewrite El, Hp2). cbn [take].
      by rewrite (take_S_r _ _ _ Ep).
  - assert (up_to l high = take pos l) as ->; [|by eauto]. rewrite E, (drop_ge l) by (by apply lookup_ge_None). apply app_nil_r.
Qed.

(** Reading backwards while the key is not below [low]. *)
Lemma descending_filter (l : list (K * TupleSlot)) low : Forall (fun p => valid p.1) l -> StronglySorted (fun p q => less q.1 p.1 = false) l -> valid low ->
  take_while (fun p => negb (less p.1 low)) (rev l) = rev (filter (fun p => less p.1 low = false) l).
Proof.
  intros Hv Hs Hl. rewrite take_while_filter.
  - rewrite filter_rev. f_equal. apply list_filter_iff. intros p. apply negb_true_iff.
  - intros i j p q Hij Hp Hq. rewrite !negb_true_iff. intros Hq'. assert (length (rev l) = length l) as L by apply length_rev.
    pose proof (lookup_lt_Some _ _ _ Hp). pose proof (lookup_lt_Some _ _ _ Hq). rewrite rev_alt in Hp, Hq. change (reverse l !! i = Some p) in Hp. change (reverse l !! j = Some q) in Hq.
    rewrite reverse_lookup in Hp, Hq by lia. rewrite Forall_lookup in Hv.
    apply (less_negtrans p.1 q.1 low); [by eapply Hv|by eapply Hv|done| |done]. eapply (sorted_lookup l (length l - S j) (length l - S i)); [done|lia|done|done].
Qed.

Lemma filter_visible_eq (l : list TupleSlot) : (forall s, s ∈ l -> is_Some (IsVisible table txn s)) ->
  HashIndex.filter_visible table txn l = Some (filter (fun s => IsVisible table txn s = Some true) l).
Proof.
  induction l as [|s l IH]; intros Hs; [done|]. cbn [HashIndex.filter_visible]. destruct (Hs s) as [b Hb]; [set_solver|]. rewrite Hb, IH by set_solver. cbn [mbind option_bind].
  f_equal. destruct b; [by rewrite filter_cons_True|by rewrite filter_cons_False by congruence].
Qed.

End scans.

(** ** The index *)

(** The pairs of a range, as the scan type and the keys state it. *)
Definition in_bounds {K : Type} `{!KeyOrder K} (scan_type : ScanType) (low high : K) (n : nat) (p : K * TupleSlot) : bool :=
  match scan_type with Closed | OpenHigh => negb (less p.1 low) | _ => true end &&
  match scan_type with Closed | OpenLow => bool_decide (partial_less p.1 high n = Some true) | _ => true end.

Section ranges.
Context {K T : Type} `{!KeyOrder K, !Tree T K} (t : T) (mem : buffers) (table : memory) (txn : TransactionContext) (low_row high_row : list Z).
Hypothesis Hok : tree_ok t.
Hypothesis Hvis : forall p, p ∈ pairs t -> is_Some (IsVisible table txn p.2).

Lemma ScanAscending_range low high n limit scan_type : (0 < n <= num_attrs)%nat ->
  set_key mem low_row n = Some low -> valid low -> set_key mem high_row n = Some high -> valid high ->
  ScanAscending mem table txn scan_type n low_row high_row limit t =
    Some (take_limit limit (visible_slots table txn (filter (fun p => in_bounds scan_type low high n p = true) (pairs t)))).
Proof.
  intros Hn Elow Vlow Ehigh Vhigh. destruct Hok as [Hv Hs].
  set (lo := match scan_type with Closed | OpenHigh => true | _ => false end). set (hi := match scan_type with Closed | OpenLow => true | _ => false end).
  assert (ScanAscending mem table txn scan_type n low_row high_row limit t =
    scan_ascending table txn (fun k => if hi then partial_less k high n else Some true) limit (if lo then drop (lower_bound (pairs t) low) (pairs t) else pairs t) []) as ->.
  { unfold ScanAscending. destruct scan_type; rewrite ?Elow; cbn [mbind option_bind fmap option_fmap option_map]; rewrite ?Ehigh; cbn [mbind option_bind fmap option_fmap option_map]; done. }
  set (l := filter (fun p => (if lo then negb (less p.1 low) else true) = true) (pairs t)).
  assert ((if lo then drop (lower_bound (pairs t) low) (pairs t) else pairs t) = l) as ->.
  { unfold l. destruct lo; [|symmetry; apply filter_all; by apply Forall_true]. rewrite drop_lower_bound by done. apply list_filter_iff. intros p. symmetry. apply negb_true_iff. }
  assert (StronglySorted (fun p q => less q.1 p.1 = false) l) as Hsl by (by apply sorted_filter).
  assert (forall p, p ∈ l -> valid p.1 /\ is_Some (IsVisible table txn p.2)) as Hl.
  { intros p [_ Hp]%list_elem_of_filter. rewrite Forall_forall in Hv. auto. }
  rewrite scan_ascending_spec; [|intros p Hp; destruct (Hl p Hp); split; [|done]; destruct hi; [by apply partial_total|done]|by right; cbn; lia].
  do 2 f_equal. cbn [app]. f_equal. rewrite take_while_filter.
  - unfold l. rewrite list_filter_filter. apply list_filter_iff. intros p. unfold in_bounds. rewrite andb_true_iff, bool_decide_eq_true.
    destruct scan_type; subst lo hi; cbn; rewrite ?bool_decide_eq_true; tauto.
  - intros i j p q Hij Hp Hq. rewrite !bool_decide_eq_true. destruct hi; [|done].
    apply partial_mono; [apply Hl; by eapply list_elem_of_lookup_2|apply Hl; by eapply list_elem_of_lookup_2|done|done|]. by eapply (sorted_lookup l i j p q Hsl).
Qed.

Lemma scan_down_range low high max : set_key mem low_row num_attrs = Some low -> valid low -> set_key mem high_row num_attrs = Some high -> valid high ->
  scan_down mem table txn low_row high_row max t =
    let r := visible_slots table txn (rev (filter (fun p => less p.1 low = false) (up_to (pairs t) high))) in
    Some (match max with Some k => take k r | None => r end).
Proof.
  intros Elow Vlow Ehigh Vhigh. destruct Hok as [Hv Hs]. unfold scan_down. rewrite Elow. cbn [mbind option_bind]. rewrite Ehigh. cbn [mbind option_bind].
  destruct (back_from_up_to (pairs t) high Hv Hs Vhigh) as [-> [n ->]]. rewrite scan_descending_spec.
  - cbn [app]. cbv zeta. rewrite descending_filter; [done|by apply Forall_take| |done]. rewrite <-(take_drop n (pairs t)) in Hs. by eapply StronglySorted_app_1_l.
  - intros p Hp. apply list_elem_of_In, in_rev, list_elem_of_In, elem_of_take in Hp as (i & Hp & _). apply Hvis. by eapply list_elem_of_lookup_2.
  - destruct max; [cbn; lia|done].
Qed.

End ranges.

(** C28: scans of a tree index return the visible slots of their range, each as often as it
    is there.  [ScanKey]: of the pairs with the key, in any order (in a unique index it
    fails if there is more than one); the others in the order of the iterators, by keys.
    [ScanAscending]: of the pairs not below the low key whose first attributes do not exceed
    the high key's (either bound may be absent), the first [limit] of them if there is a
    limit; [ScanDescending] and [ScanLimitDescending]: of the pairs from the high key down to the low
    key, except that of several pairs with the high key they see the first only. *)
Theorem tree_scans {K T : Type} `{!KeyOrder K, !Tree T K} (t : T) (mem : buffers) (table : memory) (txn : TransactionContext)
    (low_row high_row : list Z) (low high full_low full_high : K) (n limit : nat) (scan_type : ScanType) (unique : bool) :
  tree_ok t -> (forall p, p ∈ pairs t -> is_Some (IsVisible table txn p.2)) -> (0 < n <= num_attrs)%nat ->
  set_key mem low_row n = Some low -> valid low -> set_key mem high_row n = Some high -> valid high ->
  set_key mem low_row num_attrs = Some full_low -> valid full_low -> set_key mem high_row num_attrs = Some full_high -> valid full_high ->
  (exists values, values ≡ₚ visible_slots table txn (filter (fun p => same_key full_low p.1 = true) (pairs t)) /\
    ScanKey mem table txn unique low_row t = if unique && bool_decide (1 < length values)%nat then None else Some values) /\
  ScanAscending mem table txn scan_type n low_row high_row limit t =
    Some (take_limit limit (visible_slots table txn (filter (fun p => in_bounds scan_type low high n p = true) (pairs t)))) /\
  let up_to_high := filter (fun p => less p.1 full_high = true) (pairs t) ++ take 1 (filter (fun p => same_key full_high p.1 = true) (pairs t)) in
  let r := visible_slots table txn (rev (filter (fun p => less p.1 full_low = false) up_to_high)) in
  ScanDescending mem table txn low_row high_row t = Some r /\
  ScanLimitDescending mem table txn low_row high_row limit t = if decide (0 < limit)%nat then Some (take limit r) else None.
Proof.
  intros Hok Hvis Hn Elow Vlow Ehigh Vhigh Eflow Vflow Efhigh Vfhigh. split; [|split; [by apply ScanAscending_range|split; [exact (scan_down_range t mem table txn low_row high_row Hok Hvis full_low full_high None Eflow Vflow Efhigh Vfhigh)|]]].
  2:{ unfold ScanLimitDescending. destruct (decide (0 < limit)%nat); [|done]. exact (scan_down_range t mem table txn low_row high_row Hok Hvis full_low full_high (Some limit) Eflow Vflow Efhigh Vfhigh). }
  pose proof (GetValue_pairs t full_low Hok Vflow) as HG.
  exists (filter (fun s => IsVisible table txn s = Some true) (tree_GetValue t full_low)). split; [unfold visible_slots; by rewrite HG|].
  unfold ScanKey. rewrite Eflow. cbn [mbind option_bind]. rewrite filter_visible_eq; [done|]. intros s Hin. rewrite HG in Hin.
  apply list_elem_of_fmap in Hin as (p & -> & Hp). apply list_elem_of_filter in Hp as [_ Hp]. auto.
Qed.

(** ** The keys are ordered *)

(** [R] orders lists of one length, by their first difference. *)
Record prefix_order {A} (R : list A -> list A -> Prop) (len : nat) : Prop := {
  po_irrefl a : ~ R a a;
  po_trans a b c : R a b -> R b c -> R a c;
  po_total a b : length a = len -> length b = len -> R a b \/ a = b \/ R b a;
  po_take a b k : length a = len -> length b = len -> R (take k a) (take k b) -> R a b;
  po_take_total a b k : length a = len -> length b = len -> R (take k a) (take k b) \/ take k a = take k b \/ R (take k b) (take k a)
}.

Lemma lex_order len : prefix_order lex_lt len.
Proof.
  split; [apply lex_lt_irrefl|apply lex_lt_trans|intros a b _ _; apply lex_total| |intros a b k _ _; apply lex_total].
  intros a b k Ha Hb Hl. rewrite <-(take_drop k a), <-(take_drop k b). apply lex_app; [rewrite !length_take; lia|by left].
Qed.

Lemma attr_lt_trans a b c : attr_lt a b -> attr_lt b c -> attr_lt a c.
Proof. intros [b'|a' b' H1]; inversion 1 as [|? ? H2]; subst; [constructor|]. constructor. by eapply lex_lt_trans. Qed.

Lemma attr_lt_irrefl a : ~ attr_lt a a.
Proof. inversion 1; subst. by eapply lex_lt_irrefl. Qed.

Lemma attrs_total a b : length a = length b -> attrs_lt a b \/ a = b \/ attrs_lt b a.
Proof.
  revert b. induction a as [|x a IH]; intros [|y b] Hl; try done; [by right; left|]. injection Hl as Hl. rewrite !attrs_cons.
  assert (attr_lt x y \/ x = y \/ attr_lt y x) as [|[->|]]; [|by left; left| |by right; right; left].
  { destruct x as [x|], y as [y|]; [|by right; right; constructor|by left; constructor|by right; left].
    destruct (lex_total x y) as [|[->|]]; [left; by constructor|by right; left|right; right; by constructor]. }
  destruct (IH b Hl) as [|[->|]]; [by left; right|by right; left|by right; right; right].
Qed.

Lemma attrs_take k a : forall b, length a = length b -> attrs_lt (take k a) (take k b) -> attrs_lt a b.
Proof.
  revert k. induction a as [|x a IH]; intros [|k] [|y b] Hl H'; try done; try (by inversion H'). injection Hl as Hl. cbn [take] in H'.
  rewrite attrs_cons in *. destruct H' as [|[-> ?]]; [by left|right; split; [done|by eapply IH]].
Qed.

Lemma attrs_order len : prefix_order attrs_lt len.
Proof.
  split.
  - intros a. induction a as [|x a IH]; [inversion 1|]. rewrite attrs_cons. intros [?%attr_lt_irrefl|[_ ?]]; auto.
  - intros a. induction a as [|x a IH]; intros [|y b] [|z c] H1 H2; try (by inversion H1); try (by inversion H2). rewrite attrs_cons in *.
    destruct H1 as [H1|[-> H1]], H2 as [H2|[-> H2]]; [left; by eapply attr_lt_trans|by left|by left|right; split; [done|by eapply IH]].
  - intros a b Ha Hb. apply attrs_total. lia.
  - intros a b k Ha Hb. apply attrs_take. lia.
  - intros a b k Ha Hb. apply attrs_total. rewrite !length_take. lia.
Qed.

(** Comparisons that decide such an order of the values have the laws of [KeyOrder]. *)
Section laws.
Context {K A : Type} (R : list A -> list A -> Prop) (len : nat) (view : K -> list A -> Prop) (lt : K -> K -> bool) (partial : K -> K -> nat -> option bool).
Hypothesis HR : prefix_order R len.
Hypothesis view_length : forall k v, view k v -> length v = len.
Hypothesis lt_iff : forall k k' v v', view k v -> view k' v' -> lt k k' = true <-> R v v'.
Hypothesis partial_iff : forall k k' v v' n, view k v -> view k' v' -> (0 < n <= len)%nat ->
  exists b, partial k k' n = Some b /\ (b = true <-> ~ R (take n v') (take n v)).

Lemma lt_negtrans k1 k2 k3 v1 v2 v3 : view k1 v1 -> view k2 v2 -> view k3 v3 -> lt k1 k2 = false -> lt k2 k3 = false -> lt k1 k3 = false.
Proof.
  rewrite <-!not_true_iff_false. intros H1 H2 H3. rewrite (lt_iff _ _ _ _ H1 H2), (lt_iff _ _ _ _ H2 H3), (lt_iff _ _ _ _ H1 H3). intros N1 N2 H'.
  destruct (po_total R len HR v2 v3) as [|[->|]]; [by apply view_length in H2|by apply view_length in H3|done|done|]. apply N1. by eapply (po_trans R len HR).
Qed.

Lemma partial_monotone k1 k2 h v1 v2 w n : view k1 v1 -> view k2 v2 -> view h w -> (0 < n <= len)%nat -> lt k2 k1 = false ->
  partial k2 h n = Some true -> partial k1 h n = Some true.
Proof.
  intros H1 H2 Hh Hn Hlt Hp. rewrite <-not_true_iff_false, (lt_iff _ _ _ _ H2 H1) in Hlt.
  destruct (partial_iff _ _ _ _ n H2 Hh Hn) as (b & E & Hb). rewrite E in Hp. injection Hp as ->. pose proof (proj1 Hb eq_refl) as N2.
  destruct (partial_iff _ _ _ _ n H1 Hh Hn) as (b1 & E1 & Hb1). rewrite E1. f_equal. apply Hb1. intros HR1. apply N2.
  pose proof (view_length _ _ H1). pose proof (view_length _ _ H2).
  destruct (po_take_total R len HR v1 v2 n) as [HT|[<-|HT]]; [done|done|by eapply (po_trans R len HR)|done|].
  destruct Hlt. by eapply (po_take R len HR).
Qed.

(** Keys with values in such an order. *)
#[refine] Definition ordered_keys (set : buffers -> list Z -> nat -> option K) : KeyOrder K := {|
  set_key := set; less := lt; partial_less := partial; num_attrs := len; valid k := exists v, view k v
|}.
Proof.
  - intros k [v Hv]. apply not_true_iff_false. rewrite (lt_iff _ _ _ _ Hv Hv). apply (po_irrefl R len HR).
  - intros k1 k2 k3 [v1 H1] [v2 H2] [v3 H3]. rewrite (lt_iff _ _ _ _ H1 H2), (lt_iff _ _ _ _ H2 H3), (lt_iff _ _ _ _ H1 H3). apply (po_trans R len HR).
  - intros k1 k2 k3 [v1 H1] [v2 H2] [v3 H3]. by apply (lt_negtrans k1 k2 k3 v1 v2 v3).
  - intros k h n [v Hv] [w Hw] Hn. destruct (partial_iff _ _ _ _ n Hv Hw Hn) as (b & -> & _). by eexists.
  - intros k1 k2 h n [v1 H1] [v2 H2] [w Hw] Hn. by apply (partial_monotone k1 k2 h v1 v2 w).
Defined.

End laws.

Section compact_keys.
Context (schema : IndexSchema) (m : IndexMetadata.IndexMetadata) (KeySize : nat).
Hypothesis Hm : simple_index schema m KeySize.
Hypothesis HK : (KeySize <= 32)%nat.

(** Packed integers *)
Definition CompactIntsKey_KeyOrder : KeyOrder (list Z).
Proof.
  refine (ordered_keys lex_lt (length (IndexMetadata.attr_sizes_ m)) (fun k vs => holds KeySize (attr_ns m) vs k) (CompactIntsKey.less KeySize)
    (fun k h n => CompactIntsKey.PartialLessThan k h m n) (lex_order _) _ _ _ (fun mem r n => CompactIntsKey.SetFromProjectedRow KeySize r m n)).
  - intros k v [Hf _]. apply Forall2_length in Hf. unfold attr_ns in Hf. rewrite length_fmap in Hf. lia.
  - intros k k' v v'. apply holds_less.
  - intros k k' v v' n H H' Hn. apply (partial_less_than_lex schema m KeySize Hm HK v v' k k' H H' n 0). lia.
Defined.

Lemma compact_valid r n : key_row m r -> (0 < n <= length (IndexMetadata.attr_sizes_ m))%nat ->
  exists k, set_key (KeyOrder := CompactIntsKey_KeyOrder) ∅ r n = Some k /\ valid (KeyOrder := CompactIntsKey_KeyOrder) k.
Proof.
  intros Hr Hn. destruct (SetFromProjectedRow_holds schema m KeySize Hm HK r n Hr Hn) as (k & E & Hk). exists k. split; [done|]. by exists (key_values m r n).
Qed.

End compact_keys.

Section generic_keys.
Context (m : IndexMetadata.IndexMetadata) (KeySize : nat).

(** Generic keys *)
Definition GenericKey_KeyOrder : KeyOrder GenericKey.GenericKey.
Proof.
  refine (ordered_keys attrs_lt (length (GetColumns (IndexMetadata.key_schema_ m))) (key_view KeySize m) (fun k k' => default false (GenericKey.less KeySize k k'))
    (GenericKey.PartialLessThan KeySize) (attrs_order _) _ _ _ (fun mem r n => GenericKey.SetFromProjectedRow KeySize mem r m n)).
  - intros k v Hv. apply Hv.
  - intros k k' v v' Hv Hv'. pose proof (proj1 (proj2 (proj2 Hv))) as L. pose proof (proj1 (proj2 (proj2 Hv'))) as L'.
    destruct (less_loop_view KeySize m k k' v v' Hv Hv' false (GenericKey.num_cols k) 0) as (b & E & Hb); [unfold GenericKey.num_cols; rewrite (proj1 Hv); lia|].
    unfold GenericKey.less. rewrite E. cbn. rewrite !drop_0, !take_ge in Hb by (unfold GenericKey.num_cols; rewrite (proj1 Hv); lia). rewrite Hb.
    split; [by intros [|[? _]]|by left].
  - intros k k' v v' n Hv Hv' Hn. pose proof (proj1 (proj2 (proj2 Hv))) as L. pose proof (proj1 (proj2 (proj2 Hv'))) as L'.
    destruct (less_loop_view KeySize m k k' v v' Hv Hv' true n 0) as (b & E & Hb); [lia|]. exists b. unfold GenericKey.PartialLessThan.
    rewrite decide_True by (unfold GenericKey.num_cols; by rewrite (proj1 Hv)). split; [done|]. rewrite Hb, !drop_0. destruct (attrs_order (length v)) as [I T _ _ TT].
    destruct (TT v v' n) as [Hl|[Hl|Hl]]; [done|lia| | |].
    + split; [|by left]. intros _ Hl'. by eapply I, T.
    + split; [|by right]. rewrite Hl. intros _. apply I.
    + split; [|done]. intros [Hl'|[_ Hl']] _; [by eapply I, T|rewrite Hl' in Hl; by eapply I].
Defined.

End generic_keys.

(** ** Updates *)

Section updates.
Context {K T : Type} `{!KeyOrder K, !Tree T K} (t : T) (k : K) (loc : TupleSlot).
Hypothesis Hok : tree_ok t.
Hypothesis Hk : valid k.

(** Taking out the pair just added gives the pairs from before. *)
Lemma run_delete_undo (t' : T) : ~ has t k loc -> tree_ok t' -> pairs t' ≡ₚ (k, loc) :: pairs t ->
  exists t'', run_delete (DeleteKey k loc) t' = Some t'' /\ tree_ok t'' /\ pairs t'' ≡ₚ pairs t.
Proof.
  intros Hn Hok' Hp. unfold run_delete. cbn [index_key location]. pose proof (Delete_pairs t' k loc Hok' Hk) as HD.
  destruct (tree_Delete t' k loc) as [t'' b]. destruct HD as (Hok'' & Hb & HP).
  assert (b = true) as ->. { apply Hb. exists k. split; [rewrite Hp; set_solver|]. unfold same_key. by rewrite less_irrefl. }
  destruct HP as (k' & Hsame & HP). exists t''. split; [done|]. split; [done|]. rewrite Hp in HP.
  assert ((k', loc) ∈ (k, loc) :: pairs t) as Hin by (rewrite HP; set_solver). apply elem_of_cons in Hin as [Heq|Hin]; [|destruct Hn; by exists k'].
  injection Heq as ->. symmetry. by eapply Permutation_cons_inv.
Qed.

Lemma run_delete_pair : has t k loc -> exists k' t', run_delete (DeleteKey k loc) t = Some t' /\ tree_ok t' /\ same_key k k' = true /\ pairs t ≡ₚ (k', loc) :: pairs t'.
Proof.
  intros Hh. unfold run_delete. cbn [index_key location]. pose proof (Delete_pairs t k loc Hok Hk) as HD.
  destruct (tree_Delete t k loc) as [t' b]. destruct HD as (Hok' & Hb & HP). rewrite (proj2 Hb Hh) in *. destruct HP as (k' & Hsame & HP). by exists k', t'.
Qed.

End updates.

(** Updates of a tree index.  [Insert] of a slot its key does not have adds this pair
    only, and the abort action it registers takes exactly that pair out again;
    [InsertUnique] does so exactly if no slot of the key is visible to the transaction or in
    conflict with it, and otherwise leaves the index and makes the transaction abort;
    [Delete] of a slot that is neither changes nothing until the deferred deletion removes
    one pair of the key and slot.  No assertion fails. *)
Theorem tree_index_updates {K T : Type} `{!KeyOrder K, !Tree T K} (t : T) (mem : buffers) (table : memory) (txn : TransactionContext)
    (tuple : list Z) (k : K) (loc : TupleSlot) (a : Z) :
  tree_ok t -> set_key mem tuple num_attrs = Some k -> valid k -> (forall s, has t k s -> is_Some (HashIndex.predicate table txn s)) ->
  (~ has t k loc ->
    (exists e t', Insert mem txn false tuple loc a t = Some (RegisterAbortAction a txn, e, t') /\ tree_ok t' /\ pairs t' ≡ₚ (k, loc) :: pairs t /\
      exists t'', run_delete e t' = Some t'' /\ tree_ok t'' /\ pairs t'' ≡ₚ pairs t) /\
    (exists inserted txn' e t', InsertUnique mem table txn true tuple loc a t = Some (inserted, txn', e, t') /\ tree_ok t' /\
      (inserted = true <-> forall s, has t k s -> HashIndex.predicate table txn s = Some false) /\
      (if (inserted : bool) then txn' = RegisterAbortAction a txn /\ pairs t' ≡ₚ (k, loc) :: pairs t
       else must_abort_ txn' = true /\ pairs t' ≡ₚ pairs t))) /\
  (has t k loc -> HashIndex.predicate table txn loc = Some false ->
    exists e k' t', Delete mem table txn tuple loc a = Some (RegisterCommitAction a txn, e) /\ run_delete e t = Some t' /\ tree_ok t' /\
      same_key k k' = true /\ pairs t ≡ₚ (k', loc) :: pairs t').
Proof.
  intros Hok Hset Hk Hp. split; [intros Hn; split|].
  - unfold Insert. rewrite Hset. cbn [mbind option_bind]. pose proof (Insert_pairs t k loc Hok Hk) as HI. destruct (tree_Insert t k loc) as [t' b].
    destruct HI as (Hok' & Hb & HP). rewrite (proj2 Hb Hn) in *. exists (DeleteKey k loc), t'. split; [done|]. split; [done|]. split; [done|].
    by apply run_delete_undo.
  - unfold InsertUnique. rewrite Hset. cbn [mbind option_bind negb]. set (p := fun slot => default false (HashIndex.predicate table txn slot)).
    pose proof (ConditionalInsert_pairs t k loc p Hok Hk) as HI. destruct (tree_ConditionalInsert t k loc p) as [[t' b] sat].
    destruct HI as (Hok' & Hsat & Hb & HP).
    assert (sat = false <-> forall s, has t k s -> HashIndex.predicate table txn s = Some false) as Hfree.
    { rewrite <-not_true_iff_false, Hsat. unfold p. split.
      - intros Hno s Hs. destruct (Hp s Hs) as [c Hc]. rewrite Hc. f_equal. apply not_true_iff_false. intros ->. apply Hno. exists s. by rewrite Hc.
      - intros Hall (s & Hs & E). by rewrite (Hall s Hs) in E. }
    destruct sat.
    + assert (b = false) as -> by (apply not_true_iff_false; rewrite Hb; by intros [? _]). rewrite decide_True by done.
      exists false, (SetMustAbort txn), None, t'. split; [done|]. split; [done|]. split; [by rewrite <-Hfree|done].
    + assert (b = true) as -> by (by apply Hb). rewrite decide_True by done.
      exists true, (RegisterAbortAction a txn), (Some (DeleteKey k loc)), t'. split; [done|]. split; [done|]. split; [by rewrite <-Hfree|done].
  - intros Hh Hpf. destruct (run_delete_pair t k loc Hok Hk Hh) as (k' & t' & E & Hok' & Hs & HP). exists (DeleteKey k loc), k', t'.
    unfold Delete. rewrite Hset. cbn [mbind option_bind]. rewrite Hpf. done.
Qed.

(** ** A sorted list is such a tree *)

Section sorted_list.
Context {K : Type} `{!KeyOrder K}.
#[local] Abbreviation tree := (list (K * TupleSlot)).

Definition matches (k : K) (s : TupleSlot) (p : K * TupleSlot) : bool := same_key k p.1 && bool_decide (p.2 = s).

Definition list_insert (l : tree) (k : K) (s : TupleSlot) : tree * bool :=
  if existsb (matches k s) l then (l, false) else (take (lower_bound l k) l ++ (k, s) :: drop (lower_bound l k) l, true).

Fixpoint list_delete (l : tree) (k : K) (s : TupleSlot) : tree * bool :=
  match l with
  | [] => ([], false)
  | p :: l => if matches k s p then (l, true) else let '(l', b) := list_delete l k s in (p :: l', b)
  end.

Definition list_ok (l : tree) : Prop := Forall (fun p => valid p.1) l /\ StronglySorted (fun p q => less q.1 p.1 = false) l.

Lemma existsb_matches l k s : existsb (matches k s) l = true <-> exists k', (k', s) ∈ l /\ same_key k k' = true.
Proof.
  rewrite existsb_exists. unfold matches. split.
  - intros ([k' s'] & Hin & Hm). cbn [fst snd] in Hm. apply andb_true_iff in Hm as [Hm ->%bool_decide_eq_true]. exists k'. split; [by apply list_elem_of_In|done].
  - intros (k' & Hin & Hm). exists (k', s). split; [by apply list_elem_of_In|]. cbn. rewrite Hm. by rewrite bool_decide_true.
Qed.

Lemma sorted_insert l k s : list_ok l -> valid k -> list_ok (take (lower_bound l k) l ++ (k, s) :: drop (lower_bound l k) l).
Proof.
  intros [Hv Hs] Hk. destruct (lower_bound_split l k Hv Hs Hk) as [H1 H2]. set (pos := lower_bound l k) in *.
  rewrite <-(take_drop pos l) in Hv, Hs. apply Forall_app in Hv as [V1 V2]. split; [by apply Forall_app; split; [|constructor]|].
  pose proof (StronglySorted_app_1_l _ _ _ Hs) as S1. pose proof (StronglySorted_app_1_r _ _ _ Hs) as S2.
  pose proof (fun p q Hp Hq => StronglySorted_app_1_elem_of _ _ _ p q Hs Hp Hq) as SX. cbn in SX.
  apply StronglySorted_app_2; [|done|by constructor]. intros p q Hp Hq. rewrite Forall_forall in H1, V1. apply elem_of_cons in Hq as [->|Hq]; [|auto].
  cbn. apply not_true_iff_false. intros E. pose proof (less_trans k p.1 k Hk (V1 p Hp) Hk E (H1 p Hp)) as Hc. by rewrite less_irrefl in Hc.
Qed.

Lemma list_insert_spec l k s : list_ok l -> valid k -> let '(l', b) := list_insert l k s in list_ok l' /\
  (b = true <-> ~ exists k', (k', s) ∈ l /\ same_key k k' = true) /\ l' ≡ₚ (if (b : bool) then (k, s) :: l else l).
Proof.
  intros Hok Hk. unfold list_insert. pose proof (existsb_matches l k s) as E. destruct (existsb _ l).
  { split; [done|]. split; [|done]. split; [done|]. intros Hn. destruct Hn. by apply E. }
  split; [by apply sorted_insert|]. split; [split; [|done]; intros _ Hn; by apply E in Hn|].
  rewrite <-Permutation_middle. constructor. by rewrite take_drop.
Qed.

Lemma list_delete_spec l k s : let '(l', b) := list_delete l k s in
  (b = true <-> exists k', (k', s) ∈ l /\ same_key k k' = true) /\ l' `sublist_of` l /\
  if (b : bool) then exists k', same_key k k' = true /\ l ≡ₚ (k', s) :: l' else l' = l.
Proof.
  cut (let '(l', b) := list_delete l k s in b = existsb (matches k s) l /\ l' `sublist_of` l /\
    if (b : bool) then exists k', same_key k k' = true /\ l ≡ₚ (k', s) :: l' else l' = l).
  { destruct (list_delete l k s). intros (-> & ? & ?). by rewrite <-existsb_matches. }
  induction l as [|[k' s'] l IH]; cbn [list_delete existsb]; [done|]. destruct (matches k s (k', s')) eqn:E; cbn [orb].
  - unfold matches in E. cbn [fst snd] in E. apply andb_true_iff in E as [E ->%bool_decide_eq_true]. split; [done|]. split; [by constructor|]. by exists k'.
  - destruct (list_delete l k s) as [l' b]. destruct IH as (H1 & H2 & H3). split; [done|]. split; [by constructor|]. destruct b; [|by rewrite H3].
    destruct H3 as (k'' & Hs & HP). exists k''. split; [done|]. rewrite HP. constructor.
Qed.

Lemma sublist_Forall {A} (P : A -> Prop) (l' l : list A) : l' `sublist_of` l -> Forall P l -> Forall P l'.
Proof. induction 1; intros Hf; [done|..]; apply Forall_cons in Hf as [? ?]; auto. Qed.

Lemma sublist_ok (l' l : tree) : l' `sublist_of` l -> list_ok l -> list_ok l'.
Proof.
  intros Hsub [Hv Hs]. split; [by eapply sublist_Forall|]. induction Hsub as [|p l' l Hsub IH|p l' l Hsub IH]; [constructor|..].
  - apply StronglySorted_inv in Hs as [Hs Hf]. apply Forall_cons in Hv as [_ Hv]. constructor; [auto|]. by eapply sublist_Forall.
  - apply StronglySorted_inv in Hs as [Hs _]. apply Forall_cons in Hv as [_ Hv]. auto.
Qed.

#[export, refine] Instance list_Tree : Tree tree K := {
  pairs l := l;
  tree_Insert := list_insert;
  tree_ConditionalInsert l k s p :=
    if existsb (fun q => same_key k q.1 && p q.2) l then (l, false, true) else let '(l, b) := list_insert l k s in (l, b, false);
  tree_Delete := list_delete;
  tree_GetValue l k := reverse (filter (fun p => same_key k p.1 = true) l).*2
}.
Proof.
  - intros l k s Hok Hk. apply (list_insert_spec l k s Hok Hk).
  - intros l k s p Hok Hk.
    assert (existsb (fun q => same_key k q.1 && p q.2) l = true <-> exists s', (exists k', (k', s') ∈ l /\ same_key k k' = true) /\ p s' = true) as He.
    { rewrite existsb_exists. split.
      - intros ([k' s'] & Hin & Hb). apply andb_true_iff in Hb as [H1 H2]. exists s'. split; [exists k'; split; [by apply list_elem_of_In|done]|done].
      - intros (s' & (k' & Hin & Hs) & Hp). exists (k', s'). split; [by apply list_elem_of_In|]. cbn. by rewrite Hs, Hp. }
    destruct (existsb _ l).
    + split; [done|]. split; [done|]. split; [|done]. split; [done|]. by intros [? _].
    + pose proof (list_insert_spec l k s Hok Hk) as HI. destruct (list_insert l k s) as [l' b]. destruct HI as (H1 & H2 & H3).
      split; [done|]. split; [done|]. split; [|done]. rewrite H2. split; [done|]. by intros [_ ?].
  - intros l k s Hok Hk. pose proof (list_delete_spec l k s) as HD. destruct (list_delete l k s) as [l' b]. destruct HD as (H1 & H2 & H3).
    split; [by eapply sublist_ok|]. split; [done|]. destruct b; [done|by rewrite H3].
  - intros l k _ _. apply reverse_Permutation.
Defined.

End sorted_list.

(** ** An index on (SMALLINT, INTEGER) *)

Definition example_order : KeyOrder (list Z) := CompactIntsKey_KeyOrder example_schema example_metadata 8 example_simple ltac:(lia).
#[local] Existing Instance example_order.

Definition tree_key (n : nat) (a b : Z) : list Z := default [] (CompactIntsKey.SetFromProjectedRow 8 (example_row a b) example_metadata n).

Lemma tree_key_ok n a b : (0 < n <= 2)%nat -> set_key ∅ (example_row a b) n = Some (tree_key n a b) /\ valid (tree_key n a b).
Proof.
  intros Hn. destruct (compact_valid example_schema example_metadata 8 example_simple ltac:(lia) (example_row a b) n (example_key_row a b) Hn) as (k & E & Hk).
  change (CompactIntsKey.SetFromProjectedRow 8 (example_row a b) example_metadata n = Some k) in E. unfold tree_key. rewrite E. split; [exact E|exact Hk].
Qed.

(** Two visible tuples with the key (3, 7), and one with (-1, 5). *)
Definition example_tree : list (list Z * TupleSlot) := [(tree_key 2 (-1) 5, Slot 1); (tree_key 2 3 7, Slot 2); (tree_key 2 3 7, Slot 3)].
Definition visible_table : memory :=
  Memory {[ Slot 1 := Tuple true true None ∅; Slot 2 := Tuple true true None ∅; Slot 3 := Tuple true true None ∅ ]} ∅ ∅ ∅ [].

Lemma example_tree_ok : tree_ok example_tree.
Proof.
  change (list_ok example_tree). unfold example_tree. split.
  - repeat apply Forall_cons_2; [apply tree_key_ok; lia..|constructor].
  - repeat constructor; vm_compute; reflexivity.
Qed.

Lemma example_visible p : p ∈ example_tree ->
  p.2 <> Slot 4 /\ is_Some (IsVisible visible_table (new_txn 5 (2 ^ 63 + 5)) p.2) /\ is_Some (HashIndex.predicate visible_table (new_txn 5 (2 ^ 63 + 5)) p.2).
Proof.
  assert (p.2 = Slot 1 \/ p.2 = Slot 2 \/ p.2 = Slot 3 ->
    p.2 <> Slot 4 /\ is_Some (IsVisible visible_table (new_txn 5 (2 ^ 63 + 5)) p.2) /\ is_Some (HashIndex.predicate visible_table (new_txn 5 (2 ^ 63 + 5)) p.2)) as H.
  { intros [-> | [-> | ->]]; (split; [discriminate|]); split; eexists; vm_compute; reflexivity. }
  unfold example_tree. rewrite !elem_of_cons, elem_of_nil. intros [-> | [-> | [-> | []]]]; apply H; cbn; tauto.
Qed.

Lemma tree_scans_witness :
  let txn := new_txn 5 (2 ^ 63 + 5) in
  ScanAscending ∅ visible_table txn Closed 1 (example_row (-1) 100) (example_row 3 0) 0 example_tree = Some [Slot 1; Slot 2; Slot 3] /\
  ScanDescending ∅ visible_table txn (example_row (-1) 5) (example_row 3 7) example_tree = Some [Slot 2; Slot 1].
Proof.
  destruct (tree_scans example_tree ∅ visible_table (new_txn 5 (2 ^ 63 + 5)) (example_row (-1) 100) (example_row 3 0)
    (tree_key 1 (-1) 100) (tree_key 1 3 0) (tree_key 2 (-1) 100) (tree_key 2 3 0) 1 0 Closed false) as (_ & E & _);
    [apply example_tree_ok| |cbn; lia|apply tree_key_ok; lia..|].
  { intros p Hp. apply (example_visible p Hp). }
  destruct (tree_scans example_tree ∅ visible_table (new_txn 5 (2 ^ 63 + 5)) (example_row (-1) 5) (example_row 3 7)
    (tree_key 1 (-1) 5) (tree_key 1 3 7) (tree_key 2 (-1) 5) (tree_key 2 3 7) 1 0 Closed false) as (_ & _ & D & _);
    [apply example_tree_ok| |cbn; lia|apply tree_key_ok; lia..|].
  { intros p Hp. apply (example_visible p Hp). }
  cbv zeta. split; [rewrite E|rewrite D]; vm_compute; reflexivity.
Defined.

Lemma tree_index_updates_witness :
  let txn := new_txn 5 (2 ^ 63 + 5) in
  exists txn' e t, InsertUnique ∅ visible_table txn true (example_row 3 7) (Slot 4) 9 example_tree = Some (false, txn', e, t) /\ must_abort_ txn' = true.
Proof.
  destruct (tree_index_updates example_tree ∅ visible_table (new_txn 5 (2 ^ 63 + 5)) (example_row 3 7) (tree_key 2 3 7) (Slot 4) 9) as [H _];
    [apply example_tree_ok|apply tree_key_ok; lia|apply tree_key_ok; lia| |].
  { intros s (k & Hk & _). apply (example_visible (k, s) Hk). }
  destruct H as [_ (b & txn' & e & t & E & _ & Hb & HP)].
  { intros (k & Hk & _). by apply (example_visible (k, Slot 4) Hk). }
  destruct b; [|exists txn', e, t; split; [exact E|apply HP]]. exfalso.
  assert (HashIndex.predicate visible_table (new_txn 5 (2 ^ 63 + 5)) (Slot 2) = Some false) as HF; [|vm_compute in HF; discriminate HF].
  apply Hb; [done|]. exists (tree_key 2 3 7). split; [|vm_compute; reflexivity]. change ((tree_key 2 3 7, Slot 2) ∈ example_tree). by apply (list_elem_of_lookup_2 example_tree 1).
Defined.
