(* ===== verification/Arrow.v ===== *)
(** * Arrow columns

    [storage/arrow_block_metadata.h] and the gathering phase of
    [storage/block_compactor.cpp]: when a block is frozen, the strings of its
    variable-length columns are copied into one buffer each, with an array of offsets
    ([CopyToArrowVarlen]) or as a sorted dictionary and an array of codes
    ([BuildDictionary]), and the table's entries are made to point into it.

    A column is the list of its records: the bit of the null bitmap and the entry.  A
    buffer is readable from each of its addresses.  Both phases keep the content of every
    value, the Arrow column decodes to it, codes order as the strings do; the null count
    stored is not the number of nulls. *)

From S2P Require Import Prelude Layout TupleAccess Varlen.

(** [ArrowVarlenColumn], with the address of its values. *)
Record ArrowVarlenColumn := ArrowVarlen {
  values_length_ : Z;
  offsets_length_ : Z;
  values_addr_ : Z;
  values_ : list Z;
  offsets_ : list Z
}.

(** The records of a column. *)
Abbreviation column := (list (bool * VarlenEntry)).

(** The buffer [bytes] at [addr], readable from every address in it. *)
Fixpoint map_buffer (addr : Z) (bytes : list Z) (mem : buffers) : buffers :=
  match bytes with
  | [] => mem
  | _ :: rest => <[addr := bytes]> (map_buffer (addr + 1) rest mem)
  end.

(** [AllocateAligned(n)]: [n] bytes with unknown content. *)
Definition fresh_bytes (junk : list Z) (n : Z) : list Z := resize (Z.to_nat n) 0 junk.

Module BlockCompactor.

(** The loop that counts: the null count, reset for every record, and the bytes. *)
Fixpoint count_varlens (col : column) (null_count varlen_size : Z) : Z * Z :=
  match col with
  | [] => (null_count, varlen_size)
  | (bit, entry) :: rest =>
    let null_count := 0 in
    if (bit : bool) then count_varlens rest null_count (u32 (varlen_size + Size entry))
    else count_varlens rest (u32 (null_count + 1)) varlen_size
  end.

(** The entry for a value that is now at [addr]. *)
Definition redirect (mem : buffers) (addr : Z) (entry : VarlenEntry) : VarlenEntry :=
  if decide (InlineThreshold < Size entry) then Create addr (StringView mem entry) (Size entry) false else entry.

Definition loose_ptr (entry : VarlenEntry) : list Z := if NeedReclaim entry then [content_ entry] else [].

(** The loop that copies: values, offsets, the column afterwards, pointers to free. *)
Fixpoint gather (mem : buffers) (addr : Z) (col : column) (acc : Z) (values : list Z) : list Z * list Z * column * list Z :=
  match col with
  | [] => (values, [], [], [])
  | (bit, entry) :: rest =>
    if (bit : bool) then
      let values := wr values acc (StringView mem entry) in
      let entry' := redirect mem (addr + acc) entry in
      let '(values, offsets, rest, loose_ptrs) := gather mem addr rest (u32 (acc + Size entry')) values in
      (values, acc :: offsets, (bit, entry') :: rest, loose_ptr entry ++ loose_ptrs)
    else
      let '(values, offsets, rest, loose_ptrs) := gather mem addr rest acc values in
      (values, acc :: offsets, (bit, entry) :: rest, loose_ptrs)
  end.

Definition CopyToArrowVarlen (addr : Z) (junk : list Z) (mem : buffers) (null_count : Z) (col : column) :
    Z * ArrowVarlenColumn * column * list Z * buffers :=
  let '(null_count, varlen_size) := count_varlens col null_count 0 in
  let '(values, offsets, col', loose_ptrs) := gather mem addr col 0 (fresh_bytes junk varlen_size) in
  let new_col := ArrowVarlen varlen_size (u32 (Z.of_nat (length col) + 1)) addr values (offsets ++ [varlen_size]) in
  (null_count, new_col, col', loose_ptrs, map_buffer addr values mem).

(** The loop that fills the dictionary, an [unordered_map] with deep equality. *)
Fixpoint build_dictionary (mem : buffers) (col : column) (null_count varlen_size : Z) (dictionary : list VarlenEntry) : Z * Z * list VarlenEntry :=
  match col with
  | [] => (null_count, varlen_size, dictionary)
  | (bit, entry) :: rest =>
    let null_count := 0 in
    if (bit : bool) then
      if existsb (VarlenContentDeepEqual mem entry) dictionary then build_dictionary mem rest null_count varlen_size dictionary
      else build_dictionary mem rest null_count (u32 (varlen_size + Size entry)) (dictionary ++ [entry])
    else build_dictionary mem rest (u32 (null_count + 1)) varlen_size dictionary
  end.

(** [std::sort] with [VarlenContentCompare]. *)
Fixpoint insert_word (mem : buffers) (entry : VarlenEntry) (corpus : list VarlenEntry) : list VarlenEntry :=
  match corpus with
  | [] => [entry]
  | e :: rest => if VarlenContentCompare mem e entry then e :: insert_word mem entry rest else entry :: corpus
  end.
Definition sort_corpus (mem : buffers) (dictionary : list VarlenEntry) : list VarlenEntry := foldr (insert_word mem) [] dictionary.

(** The dictionary's content: values and offsets. *)
Fixpoint write_words (mem : buffers) (corpus : list VarlenEntry) (acc : Z) (values : list Z) : list Z * list Z :=
  match corpus with
  | [] => (values, [])
  | entry :: rest =>
    let '(values, offsets) := write_words mem rest (u32 (acc + Size entry)) (wr values acc (StringView mem entry)) in
    (values, acc :: offsets)
  end.

(** [dictionary[entry]] *)
Definition code_of (mem : buffers) (corpus : list VarlenEntry) (entry : VarlenEntry) : option nat :=
  fst <$> list_find (fun e => VarlenContentDeepEqual mem entry e = true) corpus.

(** The loop that encodes: the codes (none for nulls), the column afterwards, pointers to
    free; [None] where the assertion fails. *)
Fixpoint encode (mem : buffers) (corpus : list VarlenEntry) (new_col : ArrowVarlenColumn) (col : column) : option (list (option Z) * column * list Z) :=
  match col with
  | [] => Some ([], [], [])
  | (bit, entry) :: rest =>
    if (bit : bool) then
      dictionary_code ← code_of mem corpus entry;
      offset ← offsets_ new_col !! dictionary_code;
      if decide (memcmp (drop (Z.to_nat offset) (values_ new_col)) (Content mem entry) (Z.to_nat (Size entry)) = 0) then
        '(indices, rest, loose_ptrs) ← encode mem corpus new_col rest;
        Some (Some (Z.of_nat dictionary_code) :: indices, (bit, redirect mem (values_addr_ new_col + offset) entry) :: rest, loose_ptr entry ++ loose_ptrs)
      else None
    else
      '(indices, rest, loose_ptrs) ← encode mem corpus new_col rest;
      Some (None :: indices, (bit, entry) :: rest, loose_ptrs)
  end.

Definition BuildDictionary (addr : Z) (junk : list Z) (mem : buffers) (null_count : Z) (col : column) :
    option (Z * ArrowVarlenColumn * list (option Z) * column * list Z * buffers) :=
  let '(null_count, varlen_size, dictionary) := build_dictionary mem col null_count 0 [] in
  let corpus := sort_corpus mem dictionary in
  let '(values, offsets) := write_words mem corpus 0 (fresh_bytes junk varlen_size) in
  let new_col := ArrowVarlen varlen_size (u32 (Z.of_nat (length dictionary) + 1)) addr values (offsets ++ [varlen_size]) in
  '(indices, col', loose_ptrs) ← encode mem corpus new_col col;
  Some (null_count, new_col, indices, col', loose_ptrs, map_buffer addr values mem).

End BlockCompactor.
Import BlockCompactor.

Example gather_example :
  let mem : buffers := {[ 64 := seqZ 97 14 ]} in
  let long := Create 64 (seqZ 97 14) 14 true in let short := CreateInline (replicate 12 0) [65; 66] 2 in
  let '(null_count, c, col, loose, mem') := CopyToArrowVarlen 4096 [] mem 0 [(true, short); (false, short); (true, long)] in
  null_count = 0 /\ offsets_ c = [0; 2; 2; 16] /\ values_ c = [65; 66] ++ seqZ 97 14 /\ loose = [64] /\ content_ <$> col.*2 !! 2%nat = Some 4098.
Proof. vm_compute. split_and!; reflexivity. Qed.

(** ** Buffers and positions *)

Lemma map_buffer_lookup bytes mem : forall addr i, (i < length bytes)%nat -> map_buffer addr bytes mem !! (addr + Z.of_nat i) = Some (drop i bytes).
Proof.
  induction bytes as [|b bytes IH]; intros addr i Hi; cbn [length] in Hi; [lia|]. cbn [map_buffer]. destruct i as [|i].
  - rewrite Z.add_0_r. by rewrite lookup_insert_eq.
  - rewrite lookup_insert_ne by lia. cbn [drop]. rewrite <-(IH (addr + 1) i) by lia. f_equal. lia.
Qed.

Lemma map_buffer_other bytes mem : forall addr a, a < addr \/ addr + Z.of_nat (length bytes) <= a -> map_buffer addr bytes mem !! a = mem !! a.
Proof.
  induction bytes as [|b bytes IH]; intros addr a Ha; cbn [length map_buffer] in *; [done|]. rewrite lookup_insert_ne by lia. apply IH. lia.
Qed.

(** A write behind what is written already. *)
Lemma wr_append pre bs junk : (length bs <= length junk)%nat ->
  wr (pre ++ junk) (Z.of_nat (length pre)) bs = (pre ++ bs) ++ drop (length bs) junk.
Proof.
  intros Hl. unfold wr, splice. rewrite Nat2Z.id, take_app_length, length_app, <-app_assoc. f_equal. rewrite take_ge by lia. f_equal.
  rewrite drop_app_ge by lia. f_equal. lia.
Qed.

(** Where the parts of a concatenation start. *)
Fixpoint starts (acc : Z) (parts : list (list Z)) : list Z :=
  match parts with [] => [] | p :: rest => acc :: starts (acc + Z.of_nat (length p)) rest end.

Lemma starts_lookup parts : forall acc i, (i < length parts)%nat -> starts acc parts !! i = Some (acc + Z.of_nat (length (concat (take i parts)))).
Proof.
  induction parts as [|p parts IH]; intros acc [|i] Hi; cbn [length] in Hi; [lia..|cbn; f_equal; lia|].
  cbn [starts lookup list_lookup take concat]. change (starts (acc + Z.of_nat (length p)) parts !! i = Some (acc + Z.of_nat (length (p ++ concat (take i parts))))).
  rewrite IH by lia. f_equal. rewrite length_app. lia.
Qed.

Lemma length_starts parts : forall acc, length (starts acc parts) = length parts.
Proof. induction parts as [|p parts IH]; intros acc; cbn; [done|]. by rewrite IH. Qed.

(** Each part can be cut out of the concatenation. *)
Lemma concat_part (parts : list (list Z)) i p : parts !! i = Some p ->
  slice (length (concat (take i parts))) (length p) (concat parts) = p /\
  (length (concat (take i parts)) + length p = length (concat (take (S i) parts)) /\ length (concat (take (S i) parts)) <= length (concat parts))%nat.
Proof.
  intros Hp. split.
  - rewrite <-(take_drop_middle parts i p Hp) at 2. rewrite concat_app. cbn [concat]. by apply slice_app_mid.
  - rewrite (take_S_r _ _ _ Hp), concat_app, length_app. cbn [concat]. rewrite app_nil_r. split; [done|].
    rewrite <-(take_drop_middle parts i p Hp) at 2. rewrite concat_app. cbn [concat]. rewrite !length_app. lia.
Qed.

(** The offsets array of an Arrow column with these parts. *)
Lemma offsets_parts (parts : list (list Z)) i p : parts !! i = Some p ->
  let offsets := starts 0 parts ++ [Z.of_nat (length (concat parts))] in
  exists lo hi, offsets !! i = Some lo /\ offsets !! S i = Some hi /\ 0 <= lo <= hi /\ hi <= Z.of_nat (length (concat parts)) /\
    lo = Z.of_nat (length (concat (take i parts))) /\ hi - lo = Z.of_nat (length p) /\ rd (concat parts) lo (hi - lo) = p.
Proof.
  intros Hp offsets. pose proof (lookup_lt_Some _ _ _ Hp) as Hi. destruct (concat_part parts i p Hp) as (Hs & Hl & Hb).
  exists (Z.of_nat (length (concat (take i parts)))), (Z.of_nat (length (concat (take (S i) parts)))).
  split; [|split; [|split; [lia|split; [lia|split; [done|split; [lia|]]]]]].
  - unfold offsets. rewrite lookup_app_l, starts_lookup by (rewrite ?length_starts; lia). done.
  - unfold offsets. destruct (decide (S i < length parts)%nat) as [Hlt|Hge].
    + rewrite lookup_app_l, starts_lookup by (rewrite ?length_starts; lia). done.
    + rewrite lookup_app_r by (rewrite length_starts; lia). rewrite length_starts. replace (S i - length parts)%nat with O by lia. cbn.
      do 3 f_equal. by rewrite take_ge by lia.
  - unfold rd. etransitivity; [|exact Hs]. f_equal; lia.
Qed.

(** ** Entries *)

(** An entry that can be read, with a size field of 32 bits. *)
Definition readable (mem : buffers) (e : VarlenEntry) : Prop := entry_ok mem e /\ is_sint 32 (size_ e).

Definition column_ok (mem : buffers) (col : column) : Prop := Forall (fun r => r.1 = true -> readable mem r.2) col.

(** The value of a record; a null has no bytes. *)
Definition value_of (mem : buffers) (r : bool * VarlenEntry) : list Z := if r.1 then StringView mem r.2 else [].

Lemma Size_bound e : 0 <= Size e < 2 ^ 31.
Proof.
  unfold Size. rewrite Z.land_comm. change INT32_MAX with (Z.ones 31). rewrite Z.land_ones by lia.
  pose proof (Z.mod_pos_bound (size_ e) (2 ^ 31)). rewrite u32_small by lia. lia.
Qed.

Lemma short_not_owned e : is_sint 32 (size_ e) -> Size e <= InlineThreshold -> NeedReclaim e = false.
Proof.
  intros [_ Hs] Hi. unfold NeedReclaim. apply bool_decide_eq_false. intros H. revert Hi. unfold Size. rewrite Z.land_comm.
  change INT32_MAX with (Z.ones 31). rewrite Z.land_ones by lia. change (2 ^ (32 - 1)) with (2 ^ 31) in Hs. unfold InlineThreshold in *.
  rewrite Z.mod_small, u32_small by lia. lia.
Qed.

(** Redirecting an entry to a copy of its value keeps the value and gives up the buffer. *)
Lemma redirect_view mem mem' addr e bytes : readable mem e -> is_uint 64 addr -> (InlineThreshold < Size e -> mem' !! addr = Some bytes) ->
  take (Z.to_nat (Size e)) bytes = StringView mem e ->
  StringView mem' (redirect mem addr e) = StringView mem e /\ Size (redirect mem addr e) = Size e /\ NeedReclaim (redirect mem addr e) = false.
Proof.
  intros [Hok Hsz] Ha Hm Hb. unfold redirect. pose proof (length_StringView mem e Hok) as L. pose proof (Size_bound e).
  destruct (decide (InlineThreshold < Size e)) as [Hl|Hl].
  - destruct (Create_borrowed_view addr (StringView mem e) (Size e) Ha) as (HS & HI & HN & HC); [lia|lia|]. split; [|done].
    unfold StringView, Content in *. rewrite HI, HC, HS, (Hm Hl). done.
  - split; [|split; [done|apply short_not_owned; [done|lia]]]. unfold StringView, Content.
    assert (IsInlined e = true) as -> by (apply bool_decide_eq_true; lia). done.
Qed.

Lemma redirect_size mem addr e : readable mem e -> is_uint 64 addr -> Size (redirect mem addr e) = Size e.
Proof.
  intros He Ha. destruct He as [Hok Hsz]. apply (redirect_view mem {[ addr := StringView mem e ]} addr e (StringView mem e)); [done|done|intros _; apply lookup_singleton_eq|].
  apply take_ge. rewrite length_StringView by done. lia.
Qed.

(** ** Gathering *)

(** The column with its entries redirected to the positions [os] of a buffer. *)
Definition redirected (mem : buffers) (addr : Z) (os : list Z) (col : column) : column :=
  zip_with (fun o r => (r.1, if (r.1 : bool) then redirect mem (addr + o) r.2 else r.2)) os col.

Definition loose_ptrs (col : column) : list Z := concat ((fun r => if (r.1 : bool) then loose_ptr r.2 else []) <$> col).

Lemma loose_ptrs_spec col p : p ∈ loose_ptrs col <-> exists e, (true, e) ∈ col /\ NeedReclaim e = true /\ p = content_ e.
Proof.
  unfold loose_ptrs. induction col as [|[bit e] col IH]; cbn.
  - split; [by intros ?%elem_of_nil|]. intros (e & He & _). by apply elem_of_nil in He.
  - rewrite elem_of_app. setoid_rewrite elem_of_cons. rewrite IH. split.
    + intros [Hp|(e' & He & H1 & H2)]; [|exists e'; tauto]. destruct bit; [|by apply elem_of_nil in Hp]. unfold loose_ptr in Hp.
      destruct (NeedReclaim e) eqn:E; [|by apply elem_of_nil in Hp]. apply list_elem_of_singleton in Hp. exists e. tauto.
    + intros (e' & [[= <- <-]|He] & H1 & H2); [left|right; exists e'; tauto]. unfold loose_ptr. rewrite H1. by apply list_elem_of_singleton.
Qed.

Section columns.
Context (mem : buffers) (addr : Z).
#[local] Abbreviation values_of col := (value_of mem <$> col).
#[local] Abbreviation bytes_of col := (concat (value_of mem <$> col)).

Lemma value_Size r : readable mem r.2 -> r.1 = true -> Z.of_nat (length (value_of mem r)) = Size r.2.
Proof. intros [Hok _] Hr. unfold value_of. rewrite Hr, length_StringView by done. pose proof (Size_nonneg r.2). lia. Qed.

Lemma gather_spec col : forall pre junk, column_ok mem col -> length junk = length (bytes_of col) ->
  0 <= addr -> Z.of_nat (length (pre ++ junk)) < 2 ^ 32 -> addr + Z.of_nat (length (pre ++ junk)) <= 2 ^ 64 ->
  let os := starts (Z.of_nat (length pre)) (values_of col) in
  gather mem addr col (Z.of_nat (length pre)) (pre ++ junk) = (pre ++ bytes_of col, os, redirected mem addr os col, loose_ptrs col).
Proof.
  induction col as [|[bit e] col IH]; intros pre junk Hok Hj Ha Hl Hm; cbn [gather fmap list_fmap concat starts] in *.
  { destruct junk; [|done]. done. }
  apply Forall_cons in Hok as [He Hok]. cbn [fst snd] in He. rewrite length_app in Hj, Hl, Hm. change (value_of mem (bit, e)) with (if bit then StringView mem e else []) in *.
  destruct bit.
  - specialize (He eq_refl). pose proof (value_Size (true, e) He eq_refl) as Hs. unfold value_of in Hs. cbn [fst snd] in Hs. pose proof (Size_nonneg e).
    rewrite wr_append by lia.
    assert (Size (redirect mem (addr + Z.of_nat (length pre)) e) = Size e) as ->.
    { unfold redirect. destruct (decide (InlineThreshold < Size e)) eqn:E; [|done].
      pose proof (redirect_size mem (addr + Z.of_nat (length pre)) e He) as HR. unfold redirect in HR. rewrite E in HR. apply HR. unfold InlineThreshold in *. split; lia. }
    assert (u32 (Z.of_nat (length pre) + Size e) = Z.of_nat (length (pre ++ StringView mem e))) as ->.
    { rewrite length_app, wrapu_small by (split; lia). lia. }
    rewrite IH; [|done|rewrite length_drop; lia|done|rewrite !length_app, length_drop; lia|rewrite !length_app, length_drop; lia].
    rewrite length_app, Nat2Z.inj_add. unfold redirected, loose_ptrs. cbn. by rewrite <-app_assoc.
  - cbn [length] in *. rewrite Z.add_0_r. rewrite IH by (rewrite ?length_app; done || lia). unfold redirected, loose_ptrs. cbn. done.
Qed.

(** The null count is that of the last record. *)
Definition last_null (null_count : Z) (col : column) : Z :=
  match last col with Some (bit, _) => if (bit : bool) then 0 else 1 | None => null_count end.

Lemma count_spec col : forall nc size, column_ok mem col -> 0 <= size -> size + Z.of_nat (length (bytes_of col)) < 2 ^ 32 ->
  count_varlens col nc size = (last_null nc col, size + Z.of_nat (length (bytes_of col))).
Proof.
  induction col as [|[bit e] col IH]; intros nc size Hok H0 Hl; cbn [count_varlens fmap list_fmap concat] in *.
  { cbn. f_equal. lia. }
  apply Forall_cons in Hok as [He Hok]. rewrite length_app in *. cbn [fst snd] in He.
  assert (forall nc', (if bit then 0 else 1) = nc' -> last_null nc' col = last_null nc ((bit, e) :: col)) as HL.
  { intros nc' <-. unfold last_null. rewrite last_cons. by destruct (last col). }
  destruct bit.
  - pose proof (value_Size (true, e) (He eq_refl) eq_refl) as Hs. cbn [snd] in Hs. pose proof (Size_nonneg e).
    rewrite wrapu_small by (split; lia). rewrite IH by (done || lia). rewrite (HL 0 eq_refl). f_equal. lia.
  - change (value_of mem (false, e)) with (@nil Z) in *. cbn [length] in *. change (u32 (0 + 1)) with 1. rewrite IH by (done || lia). rewrite (HL 1 eq_refl). f_equal.
Qed.

(** [bytes] has the values of the records at the positions [os]. *)
Definition placed (col : column) (bytes os : list Z) : Prop :=
  length os = length col /\ forall i e, col !! i = Some (true, e) -> exists o, os !! i = Some o /\ 0 <= o /\ o + Size e <= Z.of_nat (length bytes) /\ rd bytes o (Size e) = StringView mem e.

(** Redirected entries keep their values in a memory with the buffer. *)
Lemma redirected_view col bytes os i bit e : column_ok mem col -> col !! i = Some (bit, e) ->
  0 <= addr -> addr + Z.of_nat (length bytes) <= 2 ^ 64 -> placed col bytes os ->
  exists e', redirected mem addr os col !! i = Some (bit, e') /\
    (bit = true -> StringView (map_buffer addr bytes mem) e' = StringView mem e /\ Size e' = Size e /\ NeedReclaim e' = false /\
      (InlineThreshold < Size e -> entry_of_bytes (bytes_of_entry e') = e' /\ addr <= content_ e' < addr + Z.of_nat (length bytes))).
Proof.
  intros Hok Hi Ha Hl [Hlen Ho]. destruct (lookup_lt_is_Some_2 os i) as [o Hos]; [apply lookup_lt_Some in Hi; lia|].
  exists (if bit then redirect mem (addr + o) e else e). split; [unfold redirected; by rewrite lookup_zip_with, Hos, Hi|]. intros ->.
  destruct (Ho i e Hi) as (o' & Ho' & H0 & Hb & Hr). rewrite Hos in Ho'. injection Ho' as <-. unfold column_ok in Hok. rewrite Forall_lookup in Hok.
  pose proof (Hok i _ Hi eq_refl) as He. cbn [snd] in He.
  destruct (decide (InlineThreshold < Size e)) as [Hlong|Hshort].
  - destruct (redirect_view mem (map_buffer addr bytes mem) (addr + o) e (drop (Z.to_nat o) bytes) He) as (H1 & H2 & H3); [| |exact Hr|].
    + unfold InlineThreshold in *. split; lia.
    + intros _. unfold InlineThreshold in *. rewrite <-(map_buffer_lookup bytes mem addr (Z.to_nat o)) by lia. f_equal. lia.
    + split_and!; try done. intros _. pose proof (length_StringView mem e (proj1 He)) as Ls. unfold InlineThreshold in Hlong. unfold redirect. rewrite decide_True by (unfold InlineThreshold; lia).
      split; [apply entry_roundtrip; [by apply wraps_bound|apply payload_Create; lia]|]. pose proof (Size_bound e).
      destruct (Create_borrowed_view (addr + o) (StringView mem e) (Size e)) as (_ & _ & _ & ->); [split; lia|unfold InlineThreshold; lia|lia|lia].
  - unfold redirect. rewrite decide_False by done. split; [|split; [done|split; [apply short_not_owned; [apply He|lia]|lia]]]. unfold StringView, Content.
    assert (IsInlined e = true) as -> by (apply bool_decide_eq_true; lia). done.
Qed.

(** What gathering computes. *)
Lemma CopyToArrowVarlen_eq junk nc col (parts := values_of col) (total := Z.of_nat (length (concat parts))) : column_ok mem col -> total < 2 ^ 32 -> 0 <= addr -> addr + total <= 2 ^ 64 ->
  CopyToArrowVarlen addr junk mem nc col =
    (last_null nc col, ArrowVarlen total (u32 (Z.of_nat (length col) + 1)) addr (concat parts) (starts 0 parts ++ [total]), redirected mem addr (starts 0 parts) col, loose_ptrs col, map_buffer addr (concat parts) mem) /\
  placed col (concat parts) (starts 0 parts).
Proof.
  intros Hok Ht Ha Hm. assert (length parts = length col) as Lp by apply length_fmap. split.
  - unfold CopyToArrowVarlen. rewrite count_spec by (done || lia). rewrite Z.add_0_l. fold parts total.
    assert (length (fresh_bytes junk total) = length (concat parts)) as Lj by (unfold fresh_bytes; rewrite length_resize; lia).
    pose proof (gather_spec col [] (fresh_bytes junk total) Hok Lj Ha) as HG. cbn [app length] in HG. rewrite Lj in HG.
    specialize (HG ltac:(lia) ltac:(lia)). cbv zeta in HG. change (Z.of_nat 0) with 0 in HG. by rewrite HG.
  - split; [by rewrite length_starts|]. intros i e Hi. assert (parts !! i = Some (StringView mem e)) as Hp by (unfold parts; by rewrite list_lookup_fmap, Hi).
    destruct (offsets_parts parts i _ Hp) as (lo & hi & Hlo & Hhi & Hb & Hmax & El & Eh & Hr). unfold column_ok in Hok. rewrite Forall_lookup in Hok.
    pose proof (value_Size (true, e) (Hok i _ Hi eq_refl) eq_refl) as Hs. cbn [snd] in Hs. change (value_of mem (true, e)) with (StringView mem e) in Hs.
    exists lo. split; [rewrite starts_lookup by (apply lookup_lt_Some in Hp; done); by rewrite El|]. split; [lia|]. split; [lia|]. by rewrite <-Hs, <-Eh.
Qed.

End columns.

(** Gathering a column keeps its values.  For a column whose values can be read and
    whose bytes are fewer than [2 ^ 32]: the bytes between an offset and the next in the
    new Arrow column are the record's value (none for a null); every entry of the table
    reads the same value from the new buffer afterwards and owns no buffer; the pointers
    to be freed are those of the owned buffers.  The null count stored is 1 or 0 for a
    null or other last record, whatever the records before it are. *)
Theorem gathered_column (addr : Z) (junk : list Z) (mem : buffers) (null_count : Z) (col : column) :
  column_ok mem col -> Z.of_nat (length (concat (value_of mem <$> col))) < 2 ^ 32 ->
  0 <= addr -> addr + Z.of_nat (length (concat (value_of mem <$> col))) <= 2 ^ 64 ->
  let '(nulls, c, col', loose, mem') := CopyToArrowVarlen addr junk mem null_count col in
  length (offsets_ c) = S (length col) /\ Z.of_nat (length (values_ c)) = values_length_ c /\
  (forall i bit e, col !! i = Some (bit, e) -> exists lo hi e',
    offsets_ c !! i = Some lo /\ offsets_ c !! S i = Some hi /\ 0 <= lo <= hi /\
    rd (values_ c) lo (hi - lo) = (if (bit : bool) then StringView mem e else []) /\
    col' !! i = Some (bit, e') /\ (bit = true -> StringView mem' e' = StringView mem e /\ NeedReclaim e' = false)) /\
  (forall p, p ∈ loose <-> exists e, (true, e) ∈ col /\ NeedReclaim e = true /\ p = content_ e) /\
  nulls = last_null null_count col.
Proof.
  intros Hok Ht Ha Hm. destruct (CopyToArrowVarlen_eq mem addr junk null_count col Hok Ht Ha Hm) as [-> Hpl]. cbn [offsets_ values_ values_length_].
  set (parts := value_of mem <$> col) in *. assert (length parts = length col) as Lp by apply length_fmap.
  split; [rewrite length_app, length_starts; cbn; lia|]. split; [done|]. split; [|split; [apply loose_ptrs_spec|done]].
  intros i bit e Hi. assert (parts !! i = Some (value_of mem (bit, e))) as Hp by (unfold parts; by rewrite list_lookup_fmap, Hi).
  destruct (offsets_parts parts i _ Hp) as (lo & hi & Hlo & Hhi & Hb & Hmax & El & Eh & Hr).
  destruct (redirected_view mem addr col (concat parts) (starts 0 parts) i bit e Hok Hi Ha Hm Hpl) as (e' & He' & Hv).
  exists lo, hi, e'. do 5 (split; [done|]). intros Hbit. by destruct (Hv Hbit) as (? & ? & ? & ?).
Qed.

(** ** Dictionary *)

Section dictionary.
Context (mem : buffers).
#[local] Abbreviation words es := (StringView mem <$> es).

(** The dictionary has every value of the column, once. *)
Lemma build_dictionary_spec col : forall nc size dict, column_ok mem col -> Forall (readable mem) dict -> NoDup (words dict) ->
  size = Z.of_nat (length (concat (words dict))) -> size + Z.of_nat (length (concat (value_of mem <$> col))) < 2 ^ 32 ->
  exists dict', build_dictionary mem col nc size dict = (last_null nc col, Z.of_nat (length (concat (words dict'))), dict') /\
    Forall (readable mem) dict' /\ NoDup (words dict') /\ dict `prefix_of` dict' /\
    (forall e, (true, e) ∈ col -> StringView mem e ∈ words dict') /\
    Z.of_nat (length (concat (words dict'))) <= size + Z.of_nat (length (concat (value_of mem <$> col))).
Proof.
  induction col as [|[bit e] col IH]; intros nc size dict Hok Hd Hn -> Hl; cbn [build_dictionary fmap list_fmap concat] in *.
  { exists dict. split_and!; try done; [intros e He; by apply elem_of_nil in He|lia]. }
  apply Forall_cons in Hok as [He Hok]. cbn [fst snd] in He. rewrite length_app in Hl |- *.
  assert (forall nc', (if bit then 0 else 1) = nc' -> last_null nc' col = last_null nc ((bit, e) :: col)) as HL.
  { intros nc' <-. unfold last_null. rewrite last_cons. by destruct (last col). }
  destruct bit.
  - specialize (He eq_refl). change (value_of mem (true, e)) with (StringView mem e) in *.
    assert (existsb (VarlenContentDeepEqual mem e) dict = true <-> StringView mem e ∈ words dict) as Hex.
    { rewrite existsb_exists, list_elem_of_fmap. rewrite Forall_forall in Hd. split; intros (x & H1 & H2).
      - exists x. apply list_elem_of_In in H1. split; [|done]. apply DeepEqual_eq in H2; [done|apply He|by apply Hd].
      - exists x. split; [by apply list_elem_of_In|]. apply DeepEqual_eq; [apply He|by apply Hd|done]. }
    destruct (existsb _ dict).
    + destruct (IH 0 _ dict Hok Hd Hn eq_refl ltac:(lia)) as (dict' & -> & H1 & H2 & H3 & H4 & H5). exists dict'. rewrite (HL 0 eq_refl).
      split_and!; try done; [|lia]. intros e' [[= ->]|He']%elem_of_cons; [|by apply H4]. destruct H3 as [k ->]. rewrite fmap_app. apply elem_of_app. left. by apply Hex.
    + pose proof (length_StringView mem e (proj1 He)) as Ls. pose proof (Size_nonneg e).
      assert (words (dict ++ [e]) = words dict ++ [StringView mem e]) as Ew by (by rewrite fmap_app).
      assert (Z.of_nat (length (concat (words (dict ++ [e])))) = Z.of_nat (length (concat (words dict))) + Size e) as El.
      { rewrite Ew, concat_app, length_app. cbn. rewrite app_nil_r. lia. }
      rewrite wrapu_small by (split; lia).
      destruct (IH 0 (Z.of_nat (length (concat (words dict))) + Size e) (dict ++ [e])) as (dict' & -> & H1 & H2 & H3 & H4 & H5).
      { done. }
      { apply Forall_app. split; [done|by constructor]. }
      { rewrite Ew. apply NoDup_app. split; [done|]. split; [|apply NoDup_singleton]. intros w Hw ->%list_elem_of_singleton. apply Hex in Hw. done. }
      { done. }
      { lia. }
      exists dict'. rewrite (HL 0 eq_refl). split_and!; try done; [by eapply prefix_app_l| |lia].
      intros e' [[= ->]|He']%elem_of_cons; [|by apply H4]. destruct H3 as [k ->]. rewrite !fmap_app, !elem_of_app. left. right. by apply list_elem_of_singleton.
  - change (value_of mem (false, e)) with (@nil Z) in *. cbn [length] in *. change (u32 (0 + 1)) with 1.
    destruct (IH 1 _ dict Hok Hd Hn eq_refl ltac:(lia)) as (dict' & -> & H1 & H2 & H3 & H4 & H5). exists dict'. rewrite (HL 1 eq_refl).
    split_and!; try done. intros e' [[=]|He']%elem_of_cons. by apply H4.
Qed.

Lemma insert_word_Permutation e l : insert_word mem e l ≡ₚ e :: l.
Proof. induction l as [|x l IH]; cbn; [done|]. destruct (VarlenContentCompare mem x e); [|done]. rewrite IH. constructor. Qed.

Lemma sort_corpus_Permutation dict : sort_corpus mem dict ≡ₚ dict.
Proof. induction dict as [|e dict IH]; cbn; [done|]. by rewrite insert_word_Permutation, IH. Qed.

(** Strictly, because the values are distinct. *)
Lemma insert_word_sorted e l : Forall (readable mem) (e :: l) -> StringView mem e ∉ words l ->
  StronglySorted lex_lt (words l) -> StronglySorted lex_lt (words (insert_word mem e l)).
Proof.
  intros [He Hl]%Forall_cons Hn Hs. induction l as [|x l IH]; cbn [insert_word]; [by repeat constructor|].
  apply Forall_cons in Hl as [Hx Hl]. cbn in Hs. apply StronglySorted_inv in Hs as [Hs Hf]. rewrite fmap_cons, not_elem_of_cons in Hn. destruct Hn as [Hne Hn].
  pose proof (Compare_lex mem x e (proj1 Hx) (proj1 He)) as HC. destruct (VarlenContentCompare mem x e).
  - cbn. constructor; [by apply IH|]. rewrite insert_word_Permutation. cbn. constructor; [by apply HC|done].
  - assert (lex_lt (StringView mem e) (StringView mem x)) as Hlt.
    { destruct (lex_total (StringView mem e) (StringView mem x)) as [|[|H']]; [done|congruence|]. apply HC in H'. done. }
    cbn. constructor; [by constructor|]. constructor; [done|]. eapply Forall_impl; [exact Hf|]. intros w. by apply lex_lt_trans.
Qed.

Lemma sort_corpus_sorted dict : Forall (readable mem) dict -> NoDup (words dict) -> StronglySorted lex_lt (words (sort_corpus mem dict)).
Proof.
  induction dict as [|e dict IH]; intros Hd Hn; cbn [sort_corpus foldr]; [constructor|]. fold (sort_corpus mem dict).
  pose proof Hd as [He Hd']%Forall_cons. apply NoDup_cons in Hn as [Hn1 Hn2]. apply insert_word_sorted.
  - constructor; [done|]. by rewrite sort_corpus_Permutation.
  - by rewrite sort_corpus_Permutation.
  - by apply IH.
Qed.

Lemma words_written es : forall pre junk, Forall (readable mem) es -> length junk = length (concat (words es)) ->
  Z.of_nat (length (pre ++ junk)) < 2 ^ 32 ->
  write_words mem es (Z.of_nat (length pre)) (pre ++ junk) = (pre ++ concat (words es), starts (Z.of_nat (length pre)) (words es)).
Proof.
  induction es as [|e es IH]; intros pre junk Hok Hj Hl; cbn [write_words fmap list_fmap concat starts] in *; [by destruct junk|].
  apply Forall_cons in Hok as [He Hok]. rewrite length_app in Hj, Hl. pose proof (length_StringView mem e (proj1 He)) as Ls. pose proof (Size_nonneg e).
  rewrite wr_append by lia.
  assert (u32 (Z.of_nat (length pre) + Size e) = Z.of_nat (length (pre ++ StringView mem e))) as ->.
  { rewrite length_app, wrapu_small by (split; lia). lia. }
  rewrite IH; [|done|rewrite length_drop; lia|rewrite !length_app, length_drop; lia]. rewrite length_app, Nat2Z.inj_add. by rewrite <-app_assoc.
Qed.

(** The code of a value is its position among the sorted words. *)
Lemma code_of_spec corpus e : Forall (readable mem) corpus -> readable mem e -> StringView mem e ∈ words corpus ->
  exists c, code_of mem corpus e = Some c /\ words corpus !! c = Some (StringView mem e).
Proof.
  intros Hc He Hin. unfold code_of. destruct (list_find _ corpus) as [[c x]|] eqn:E.
  - apply list_find_Some in E as (Hx & Heq & _). exists c. split; [done|]. rewrite list_lookup_fmap, Hx. cbn. f_equal. symmetry.
    rewrite Forall_lookup in Hc. apply DeepEqual_eq in Heq; [done|apply He|by eapply Hc].
  - apply list_find_None in E. apply list_elem_of_fmap in Hin as (x & Hx & Hin). rewrite Forall_forall in E, Hc. destruct (E x Hin).
    apply DeepEqual_eq; [apply He|by apply Hc|done].
Qed.

(** Every record gets the code of its value, and its entry the word's place. *)
Lemma encode_spec corpus new_col col : Forall (readable mem) corpus -> column_ok mem col -> (forall e, (true, e) ∈ col -> StringView mem e ∈ words corpus) ->
  values_ new_col = concat (words corpus) -> offsets_ new_col = starts 0 (words corpus) ++ [Z.of_nat (length (concat (words corpus)))] ->
  exists indices os, encode mem corpus new_col col = Some (indices, redirected mem (values_addr_ new_col) os col, loose_ptrs col) /\ length os = length col /\
    forall i e, col !! i = Some (true, e) -> exists c, indices !! i = Some (Some (Z.of_nat c)) /\ words corpus !! c = Some (StringView mem e) /\
      os !! i = Some (Z.of_nat (length (concat (take c (words corpus))))).
Proof.
  intros Hc Hok Hin Hv Ho. induction col as [|[bit e] col IH]; cbn [encode]; [exists [], []; split_and!; done|].
  apply Forall_cons in Hok as [He Hok]. cbn [fst snd] in He. destruct (IH Hok) as (indices & os & E & Hl & Hi); [intros e' He'; apply Hin; set_solver|]. destruct bit.
  - specialize (He eq_refl). destruct (code_of_spec corpus e Hc He) as (c & Ec & Hw); [apply Hin; set_solver|].
    destruct (offsets_parts (words corpus) c _ Hw) as (lo & hi & Hlo & _ & _ & Hmax & El & Eh & Hr). rewrite Ec. cbn [mbind option_bind]. rewrite Ho, Hlo. cbn [mbind option_bind].
    pose proof (length_StringView mem e (proj1 He)) as Ls. pose proof (Size_nonneg e). rewrite decide_True.
    2:{ rewrite Hv. apply memcmp_0; [rewrite length_drop; lia|destruct He as [He _]; unfold entry_ok in He; lia|]. fold (StringView mem e).
        etransitivity; [|exact Hr]. unfold rd, slice. f_equal. lia. }
    rewrite E. cbn [mbind option_bind]. exists (Some (Z.of_nat c) :: indices), (lo :: os). split; [done|]. split; [cbn; lia|].
    intros [|i] e' Hi'; cbn in Hi'; [injection Hi' as <-; exists c; cbn; by rewrite El|by apply Hi].
  - rewrite E. cbn [mbind option_bind]. exists (None :: indices), (0 :: os). split; [done|]. split; [cbn; lia|].
    intros [|i] e' Hi'; cbn in Hi'; [done|by apply Hi].
Qed.

(** Positions in a strictly sorted list order as the elements. *)
Lemma sorted_position (l : list (list Z)) i j x y : StronglySorted lex_lt l -> l !! i = Some x -> l !! j = Some y -> (i < j)%nat <-> lex_lt x y.
Proof.
  intros Hs Hi Hj. assert (forall i j x y, l !! i = Some x -> l !! j = Some y -> (i < j)%nat -> lex_lt x y) as H.
  { clear -Hs. induction Hs as [|a l _ IH Hf]; [done|]. intros [|i] [|j] x y Hi Hj Hij; [lia| |lia|]; cbn in Hi, Hj.
    - injection Hi as ->. rewrite Forall_lookup in Hf. eauto.
    - apply (IH i j); [done..|lia]. }
  split; [by apply H|]. intros Hlt. destruct (Nat.lt_trichotomy i j) as [|[<-|Hji]]; [done| |].
  - rewrite Hi in Hj. injection Hj as <-. by apply lex_lt_irrefl in Hlt.
  - pose proof (H j i y x Hj Hi Hji) as Hgt. destruct (lex_lt_irrefl x). by eapply lex_lt_trans.
Qed.

(** What dictionary compression computes. *)
Lemma BuildDictionary_eq addr junk nc col : column_ok mem col -> Z.of_nat (length (concat (value_of mem <$> col))) < 2 ^ 32 ->
  exists ws indices os, let total := Z.of_nat (length (concat ws)) in
    (exists n, BuildDictionary addr junk mem nc col =
      Some (last_null nc col, ArrowVarlen total n addr (concat ws) (starts 0 ws ++ [total]), indices, redirected mem addr os col, loose_ptrs col, map_buffer addr (concat ws) mem)) /\
    placed mem col (concat ws) os /\ total <= Z.of_nat (length (concat (value_of mem <$> col))) /\ StronglySorted lex_lt ws /\
    (forall i e, col !! i = Some (true, e) -> exists c, indices !! i = Some (Some (Z.of_nat c)) /\ ws !! c = Some (StringView mem e)).
Proof.
  intros Hok Ht. unfold BuildDictionary.
  destruct (build_dictionary_spec col nc 0 [] Hok) as (dict & -> & Hd & Hn & _ & Hin & Hle); [constructor|constructor|done|lia|]. rewrite Z.add_0_l in Hle.
  set (corpus := sort_corpus mem dict). set (ws := StringView mem <$> corpus).
  assert (corpus ≡ₚ dict) as HP by apply sort_corpus_Permutation.
  assert (Forall (readable mem) corpus) as Hc by (by rewrite HP). assert (StronglySorted lex_lt ws) as Hs by (by apply sort_corpus_sorted).
  assert (length (concat ws) = length (concat (StringView mem <$> dict))) as El by (unfold ws; by rewrite HP).
  rewrite <-El in *. set (total := Z.of_nat (length (concat ws))) in *.
  assert (length (fresh_bytes junk total) = length (concat ws)) as Lj by (unfold fresh_bytes; rewrite length_resize; lia).
  pose proof (words_written corpus [] (fresh_bytes junk total) Hc Lj) as HW. cbn [app length] in HW. rewrite Lj in HW. specialize (HW ltac:(lia)).
  change (Z.of_nat 0) with 0 in HW. rewrite HW. fold ws. set (new_col := ArrowVarlen _ _ _ _ _).
  destruct (encode_spec corpus new_col col Hc Hok) as (indices & os & -> & Ho & Hi); [|done|done|].
  { intros e He. rewrite HP. by apply Hin. }
  exists ws, indices, os. cbn [mbind option_bind]. split; [by eexists|]. split; [|split; [done|split; [done|]]].
  - split; [done|]. intros i e He. destruct (Hi i e He) as (c & _ & E2 & E3). fold ws in E2, E3. destruct (offsets_parts ws c _ E2) as (lo & hi & _ & _ & Hb & Hmax & Elo & Eh & Hr).
    unfold column_ok in Hok. rewrite Forall_lookup in Hok. pose proof (Hok i _ He eq_refl) as [Hrd _]. cbn [snd] in Hrd. pose proof (length_StringView mem e Hrd). pose proof (Size_nonneg e).
    exists lo. rewrite E3, Elo. split; [done|]. split; [lia|]. split; [lia|]. etransitivity; [|exact Hr]. f_equal; lia.
  - intros i e He. destruct (Hi i e He) as (c & E1 & E2 & _). by exists c.
Qed.

End dictionary.

(** C32: dictionary compression keeps the values and their order.  Under the conditions of
    gathering: the compactor's assertion holds; every record's code leads, through the
    offsets, to the record's value in the dictionary, and codes compare as the values do,
    so that equal values have one code; the table's entries read the same values from the
    dictionary and own no buffer; the pointers to be freed are those of the owned
    buffers.  The null count is wrong as in gathering. *)
Theorem dictionary_column (addr : Z) (junk : list Z) (mem : buffers) (null_count : Z) (col : column) :
  column_ok mem col -> Z.of_nat (length (concat (value_of mem <$> col))) < 2 ^ 32 ->
  0 <= addr -> addr + Z.of_nat (length (concat (value_of mem <$> col))) <= 2 ^ 64 ->
  exists nulls c indices col' loose mem', BuildDictionary addr junk mem null_count col = Some (nulls, c, indices, col', loose, mem') /\
  (forall i e, col !! i = Some (true, e) -> exists code lo hi e',
    indices !! i = Some (Some (Z.of_nat code)) /\ offsets_ c !! code = Some lo /\ offsets_ c !! S code = Some hi /\
    rd (values_ c) lo (hi - lo) = StringView mem e /\
    col' !! i = Some (true, e') /\ StringView mem' e' = StringView mem e /\ NeedReclaim e' = false) /\
  (forall i j e e' code code', col !! i = Some (true, e) -> col !! j = Some (true, e') ->
    indices !! i = Some (Some code) -> indices !! j = Some (Some code') -> code < code' <-> lex_lt (StringView mem e) (StringView mem e')) /\
  (forall p, p ∈ loose <-> exists e, (true, e) ∈ col /\ NeedReclaim e = true /\ p = content_ e) /\
  nulls = last_null null_count col.
Proof.
  intros Hok Ht Ha Hm. destruct (BuildDictionary_eq mem addr junk null_count col Hok Ht) as (ws & indices & os & (n & E) & Hpl & Hle & Hs & Hi).
  do 6 eexists. split; [exact E|]. cbn [offsets_ values_]. split; [|split; [|split; [apply loose_ptrs_spec|done]]].
  - intros i e He. destruct (Hi i e He) as (c & E1 & E2). destruct (offsets_parts ws c _ E2) as (lo & hi & Hlo & Hhi & Hb & Hmax & Elo & Eh & Hr).
    destruct (redirected_view mem addr col (concat ws) os i true e Hok He Ha ltac:(lia) Hpl) as (e' & He' & Hv).
    exists c, lo, hi, e'. destruct (Hv eq_refl) as (? & ? & ? & ?). split_and!; done.
  - intros i j e e' k k' He He' Hk Hk'. destruct (Hi i e He) as (c & E1 & E2). destruct (Hi j e' He') as (c' & E1' & E2').
    rewrite E1 in Hk. rewrite E1' in Hk'. injection Hk as <-. injection Hk' as <-. rewrite <-(sorted_position ws c c' _ _ Hs E2 E2'). lia.
Qed.

(** A column of a short string, a null and two equal long strings in different buffers. *)
Definition arrow_buffers : buffers := {[ 64 := seqZ 97 14; 128 := seqZ 97 14 ]}.
Definition arrow_column : column :=
  [(true, CreateInline (replicate 12 0) [122] 1); (false, CreateInline (replicate 12 0) [] 0);
   (true, Create 64 (seqZ 97 14) 14 true); (true, Create 128 (seqZ 97 14) 14 true)].

Lemma arrow_column_ok : column_ok arrow_buffers arrow_column.
Proof. unfold arrow_column. repeat constructor; vm_compute; congruence. Qed.

Lemma gathered_column_witness :
  let '(nulls, c, col', loose, mem') := CopyToArrowVarlen 4096 [] arrow_buffers 0 arrow_column in
  (forall e', col' !! 3%nat = Some (true, e') -> StringView mem' e' = seqZ 97 14) /\ nulls = 0.
Proof.
  pose proof (gathered_column 4096 [] arrow_buffers 0 arrow_column arrow_column_ok) as H.
  specialize (H ltac:(vm_compute; reflexivity) ltac:(lia) ltac:(vm_compute; congruence)).
  destruct (CopyToArrowVarlen 4096 [] arrow_buffers 0 arrow_column) as [[[[nulls c] col'] loose] mem']. destruct H as (_ & _ & H & _ & Hn). split; [|exact Hn].
  intros e' He'. destruct (H 3%nat true (Create 128 (seqZ 97 14) 14 true) eq_refl) as (lo & hi & e'' & _ & _ & _ & _ & He'' & Hv).
  rewrite He' in He''. injection He'' as ->. rewrite (proj1 (Hv eq_refl)). vm_compute. reflexivity.
Defined.

Lemma dictionary_column_witness : exists nulls c indices col' loose mem',
  BuildDictionary 4096 [] arrow_buffers 0 arrow_column = Some (nulls, c, indices, col', loose, mem') /\
  (forall code code', indices !! 2%nat = Some (Some code) -> indices !! 0%nat = Some (Some code') -> code < code').
Proof.
  destruct (dictionary_column 4096 [] arrow_buffers 0 arrow_column arrow_column_ok) as (nulls & c & indices & col' & loose & mem' & E & _ & H & _);
    [vm_compute; reflexivity|lia|vm_compute; congruence|].
  exists nulls, c, indices, col', loose, mem'. split; [exact E|]. intros code code' H1 H2.
  apply (H 2%nat 0%nat (Create 64 (seqZ 97 14) 14 true) (CreateInline (replicate 12 0) [122] 1) code code' eq_refl eq_refl H1 H2).
  vm_compute. apply lex_head. reflexivity.
Defined.
