(* ===== verification/BlockAccess.v ===== *)
(** * Block access control

    [storage/block_access_controller.h]: a word per block, its state and a count of
    in-place readers, by which transactional writers, Arrow readers and the compactor
    exclude each other.  Every thread is a program counter that takes one atomic
    instruction (load, store, compare-exchange, fetch-and-subtract) at a time; all
    interleavings of any number of threads are runs of the system.

    The compactor's steps are those of [BlockCompactor::ProcessCompactionQueue] on the
    block's state.  After marking a block as cooling it makes a request to come back: a
    deferred action with the current time, or the commit of its transaction, whose
    records the garbage collector reports.  Either is due when no running transaction
    has begun before that time, by [TimestampManager].  The queue may also hold entries that
    older writes have left there, by which the compactor comes back earlier.

    The invariant, as long as it comes back by its request: while a transaction writes to
    the block, no reader reads it in place and the compactor does not transform it; the
    count is that of the readers.  Coming back earlier breaks this
    ([early_visit_races]). *)

From S2P Require Import Prelude Timestamps.

Inductive BlockState := HOT | COOLING | FREEZING | FROZEN.

#[export] Instance BlockState_eq_dec : EqDecision BlockState.
Proof. solve_decision. Defined.

Module BlockAccessController.

(** The two halves of [bytes_]. *)
Record BlockAccessController := Controller { state_ : BlockState; reader_count_ : Z }.

#[export] Instance BlockAccessController_eq_dec : EqDecision BlockAccessController.
Proof. solve_decision. Defined.

Definition Initialize : BlockAccessController := Controller HOT 0.

Definition set_state (s : BlockState) (c : BlockAccessController) : BlockAccessController := Controller s (reader_count_ c).

(** [compare_exchange_strong] on both halves, and on the state. *)
Definition UpdateAtomically (expected desired : BlockAccessController) (c : BlockAccessController) : bool * BlockAccessController :=
  if decide (c = expected) then (true, desired) else (false, c).
Definition exchange_state (expected desired : BlockState) (c : BlockAccessController) : bool * BlockAccessController :=
  if decide (state_ c = expected) then (true, set_state desired c) else (false, c).

(** *** In-place readers *)

(** Between calls; at the head of [TryAcquireInPlaceRead]'s loop; before its
    compare-exchange; reading; before [ReleaseInPlaceRead]'s subtraction. *)
Inductive reader := RIdle | RTrying | RLoaded (curr_state : BlockAccessController) | RReading | RReleasing.

(** [None] when the assertion in [ReleaseInPlaceRead] fails. *)
Definition reader_step (r : reader) (c : BlockAccessController) : option (reader * BlockAccessController) :=
  match r with
  | RIdle => Some (RTrying, c)
  | RTrying => Some (if decide (state_ c <> FROZEN) then RIdle else RLoaded c, c)
  | RLoaded curr_state =>
    let '(updated, c) := UpdateAtomically curr_state (Controller (state_ curr_state) (u32 (reader_count_ curr_state + 1))) c in
    Some (if updated then RReading else RTrying, c)
  | RReading => if decide (0 < reader_count_ c) then Some (RReleasing, c) else None
  | RReleasing => Some (RIdle, Controller (state_ c) (u32 (reader_count_ c - 1)))
  end.

(** *** Transactional writers *)

(** Not running; running; in [WaitUntilHot]: before the load of the state, the
    compare-exchange of a cooling block, the store, the loads of the count; writing. *)
Inductive writer := WIdle | WRunning | WLoad | WCooling | WStore | WSpin | WWriting.

#[export] Instance writer_eq_dec : EqDecision writer.
Proof. solve_decision. Defined.

(** The instructions of [WaitUntilHot]. *)
Definition writer_step (w : writer) (c : BlockAccessController) : writer * BlockAccessController :=
  match w with
  | WIdle => (WRunning, c)
  | WRunning => (WLoad, c)
  | WLoad =>
    (match state_ c with FREEZING => WLoad | COOLING => WCooling | FROZEN => WStore | HOT => WSpin end, c)
  | WCooling => let '(exchanged, c) := exchange_state COOLING HOT c in (if exchanged then WStore else WLoad, c)
  | WStore => (WSpin, set_state HOT c)
  | WSpin => (if decide (reader_count_ c <> 0) then WSpin else WWriting, c)
  | WWriting => (WRunning, c)
  end.

(** *** The compactor *)

(** Between blocks; after finding the block hot, moving tuples; after marking it, before
    the request; after finding it cooling, checking for versions; transforming it. *)
Inductive compactor := CIdle | CHot | CMarked | CCooling | CGather.

Definition compactor_step (p : compactor) (proceed : bool) (c : BlockAccessController) : compactor * BlockAccessController :=
  match p with
  | CIdle => (match state_ c with HOT => CHot | COOLING => CCooling | _ => CIdle end, c)
  | CHot => if (proceed : bool) then (CMarked, set_state COOLING c) else (CIdle, c)
  | CMarked => (CIdle, c)
  | CCooling =>
    if (proceed : bool) then let '(ret, c) := exchange_state COOLING FREEZING c in (if ret then CGather else CIdle, c) else (CIdle, c)
  | CGather => (CIdle, set_state FROZEN c)
  end.

End BlockAccessController.
Import BlockAccessController.

(** ** The system *)

(** A transaction with its start time. *)
Record transaction := Transaction { pc_ : writer; start_ : Z }.

(** [request_]: the time of the request that the last marking of the block made, once it
    has made it. *)
Record system := System {
  controller_ : BlockAccessController;
  readers_ : list reader;
  writers_ : list transaction;
  compactor_ : compactor;
  tm_ : TimestampManager.TimestampManager;
  request_ : option Z
}.

Definition holding (r : reader) : bool := match r with RReading | RReleasing => true | _ => false end.
Definition count_holding (l : list reader) : Z := foldr (fun r n => (if holding r then 1 else 0) + n) 0 l.

(** The condition on which a deferred action runs. *)
Definition due (tm : TimestampManager.TimestampManager) (request : option Z) : Prop :=
  exists ts, request = Some ts /\ ts <= (TimestampManager.OldestTransactionStartTime tm).1.

(** Marking the block is a new reason to come back, with its own request. *)
Definition next_request (p : compactor) (proceed : bool) (tm : TimestampManager.TimestampManager) (request : option Z) : option Z :=
  match p with
  | CHot => if (proceed : bool) then None else request
  | CMarked => Some (TimestampManager.CurrentTime tm)
  | _ => request
  end.

(** The steps: a reader's, a writer's (whose transaction also begins and ends), the
    clock's (another transaction commits), and the compactor's, which, unless [early],
    reaches a cooling block when the request is due. *)
Inductive step (early : bool) : system -> system -> Prop :=
| reader_steps c rs ws p tm q i r r' c' :
    rs !! i = Some r -> reader_step r c = Some (r', c') -> step early (System c rs ws p tm q) (System c' (<[i := r']> rs) ws p tm q)
| writer_begins c rs ws p tm q i st :
    ws !! i = Some (Transaction WIdle st) -> TimestampManager.time_ tm + 1 < 2 ^ 63 ->
    step early (System c rs ws p tm q)
      (System c rs (<[i := Transaction (writer_step WIdle c).1 (TimestampManager.BeginTransaction tm).1]> ws) p (TimestampManager.BeginTransaction tm).2 q)
| writer_steps c rs ws p tm q i w st w' c' :
    ws !! i = Some (Transaction w st) -> w <> WIdle -> writer_step w c = (w', c') ->
    step early (System c rs ws p tm q) (System c' rs (<[i := Transaction w' st]> ws) p tm q)
| writer_ends c rs ws p tm q i w st :
    ws !! i = Some (Transaction w st) -> w = WRunning \/ w = WWriting ->
    step early (System c rs ws p tm q) (System c rs (<[i := Transaction WIdle st]> ws) p (TimestampManager.RemoveTransaction st tm) q)
| clock_steps c rs ws p tm q : TimestampManager.time_ tm + 1 < 2 ^ 63 ->
    step early (System c rs ws p tm q) (System c rs ws p (TimestampManager.CheckOutTimestamp tm).2 q)
| compactor_steps c rs ws p tm q proceed p' c' :
    compactor_step p proceed c = (p', c') -> (p = CIdle -> state_ c = COOLING -> early = true \/ due tm q) ->
    step early (System c rs ws p tm q) (System c' rs ws p' tm (next_request p proceed tm q)).

Definition initial (s : system) : Prop :=
  controller_ s = Initialize /\ Forall (fun r => r = RIdle) (readers_ s) /\ Forall (fun t => pc_ t = WIdle) (writers_ s) /\
  compactor_ s = CIdle /\ tm_ s = TimestampManager.init /\ request_ s = None /\ Z.of_nat (length (readers_ s)) < 2 ^ 32.

(** ** The invariant *)

(** The transaction began before the request was made. *)
Definition before (q : option Z) (t : transaction) : Prop := match q with Some ts => start_ t < ts | None => True end.

(** What the state is while a writer has stored or seen HOT. *)
Definition writer_inv (c : BlockAccessController) (q : option Z) (t : transaction) : Prop :=
  match pc_ t with
  | WStore => state_ c = FROZEN \/ state_ c = HOT \/ (state_ c = COOLING /\ before q t)
  | WSpin | WWriting => state_ c = HOT \/ (state_ c = COOLING /\ before q t)
  | _ => True
  end.

(** Transactions that are running are known to the timestamp manager, by a time of their own. *)
Record clock_inv (tm : TimestampManager.TimestampManager) (ws : list transaction) : Prop := {
  ci_ok : ts_ok tm;
  ci_running : forall i t, ws !! i = Some t -> pc_ t <> WIdle -> start_ t ∈ TimestampManager.curr_running_txns_ tm;
  ci_inj : forall i j t t', ws !! i = Some t -> ws !! j = Some t' -> pc_ t <> WIdle -> pc_ t' <> WIdle -> start_ t = start_ t' -> i = j
}.

Definition compactor_inv (c : BlockAccessController) (ws : list transaction) (tm : TimestampManager.TimestampManager) (q : option Z) (p : compactor) : Prop :=
  match p with
  | CIdle => state_ c <> FREEZING
  | CHot => state_ c = HOT
  | CMarked => (state_ c = COOLING \/ state_ c = HOT) /\ q = None
  | CCooling => (state_ c = COOLING \/ state_ c = HOT) /\ exists ts, q = Some ts /\ ts <= TimestampManager.time_ tm /\
      forall i t, ws !! i = Some t -> pc_ t <> WIdle -> ts <= start_ t
  | CGather => state_ c = FREEZING
  end.

(** A reader goes on only with a frozen block. *)
Definition reader_inv (r : reader) : Prop := match r with RLoaded curr_state => state_ curr_state = FROZEN | _ => True end.

Record access_inv (s : system) : Prop := {
  ai_count : reader_count_ (controller_ s) = count_holding (readers_ s);
  ai_bound : Z.of_nat (length (readers_ s)) < 2 ^ 32;
  ai_readers : Forall reader_inv (readers_ s);
  ai_writers : Forall (writer_inv (controller_ s) (request_ s)) (writers_ s);
  ai_clock : clock_inv (tm_ s) (writers_ s);
  ai_compactor : compactor_inv (controller_ s) (writers_ s) (tm_ s) (request_ s) (compactor_ s);
  ai_writing : (exists t, t ∈ writers_ s /\ pc_ t = WWriting) -> count_holding (readers_ s) = 0
}.

Lemma count_bounds l : 0 <= count_holding l <= Z.of_nat (length l).
Proof. induction l as [|r l IH]; cbn [count_holding foldr length]; [lia|]. fold (count_holding l). destruct (holding r); lia. Qed.

Lemma count_insert l : forall i r r', l !! i = Some r ->
  count_holding (<[i := r']> l) = count_holding l - (if holding r then 1 else 0) + (if holding r' then 1 else 0).
Proof.
  induction l as [|x l IH]; intros [|i] r r' Hi; cbn in Hi; [done|done|injection Hi as ->; cbn; lia|].
  change (<[S i := r']> (x :: l)) with (x :: <[i := r']> l).
  cbn [count_holding foldr]. fold (count_holding l). fold (count_holding (<[i := r']> l)). rewrite (IH i r r' Hi). lia.
Qed.

Lemma holding_pos l i r : l !! i = Some r -> holding r = true -> 0 < count_holding l.
Proof. intros Hi Hr. pose proof (count_insert l i r RIdle Hi) as E. rewrite Hr in E. cbn in E. pose proof (count_bounds (<[i := RIdle]> l)). lia. Qed.

Lemma initial_inv s : initial s -> access_inv s.
Proof.
  intros (Hc & Hr & Hw & Hp & Ht & Hq & Hb). assert (count_holding (readers_ s) = 0) as Hz.
  { clear -Hr. induction Hr as [|r l -> _ IH]; [done|exact IH]. }
  split; [by rewrite Hc, Hz|done| | | |by rewrite Hp, Hc|done].
  - eapply Forall_impl; [exact Hr|]. by intros r ->.
  - eapply Forall_impl; [exact Hw|]. intros t E. unfold writer_inv. by rewrite E.
  - rewrite Ht. rewrite Forall_lookup in Hw. split; [apply reachable_ok, rtc_refl| |]; intros i; intros; exfalso; naive_solver.
Qed.

(** A change of the state keeps what writers know of it. *)
Lemma writers_same c c' q t : state_ c' = state_ c -> writer_inv c q t -> writer_inv c' q t.
Proof. intros E. unfold writer_inv. by rewrite E. Qed.

Lemma writers_hot c c' q t : state_ c' = HOT -> writer_inv c q t -> writer_inv c' q t.
Proof. intros E. unfold writer_inv. rewrite E. destruct (pc_ t); tauto. Qed.

Section preservation.
Context (c : BlockAccessController) (rs : list reader) (ws : list transaction) (p : compactor) (tm : TimestampManager.TimestampManager) (q : option Z).
Hypothesis HI : access_inv (System c rs ws p tm q).

Lemma reader_preserves i r r' c' : rs !! i = Some r -> reader_step r c = Some (r', c') -> access_inv (System c' (<[i := r']> rs) ws p tm q).
Proof.
  intros Hi Hs. destruct HI as [Hcount Hbound Hrs Hw Hck Hp Hwr]. cbn [controller_ readers_ writers_ compactor_ tm_ request_] in *. pose proof (count_insert rs i r r' Hi) as HC.
  assert (state_ c' = state_ c /\ reader_count_ c' = count_holding (<[i := r']> rs) /\ (count_holding (<[i := r']> rs) <= count_holding rs \/ state_ c = FROZEN)) as (Hst & Hcn & Hle).
  { rewrite HC. pose proof (count_bounds rs). destruct r as [| |curr| |]; cbn [reader_step] in Hs.
    - injection Hs as <- <-. cbn in *. split; [done|split; [lia|left; lia]].
    - injection Hs as <- <-. destruct (decide (state_ c <> FROZEN)); cbn in *; (split; [done|split; [lia|left; lia]]).
    - unfold UpdateAtomically in Hs. destruct (decide (c = curr)) as [<-|]; injection Hs as <- <-; cbn in *; [|split; [done|split; [lia|left; lia]]].
      assert (count_holding rs < Z.of_nat (length rs)) as Hlt.
      { assert (count_holding (<[i := RReading]> rs) <= Z.of_nat (length rs)) as Hb by (pose proof (count_bounds (<[i := RReading]> rs)) as Hb; rewrite length_insert in Hb; lia).
        rewrite (count_insert rs i _ RReading Hi) in Hb. cbn in Hb. lia. }
      rewrite wrapu_small by (split; lia). split; [done|]. split; [lia|]. right. rewrite Forall_lookup in Hrs. exact (Hrs i _ Hi).
    - destruct (decide (0 < reader_count_ c)); [|done]. injection Hs as <- <-. cbn in *. split; [done|split; [lia|left; lia]].
    - injection Hs as <- <-. cbn in *. pose proof (holding_pos rs i RReleasing Hi eq_refl). rewrite wrapu_small by (split; lia). split; [done|split; [lia|left; lia]]. }
  split; cbn [controller_ readers_ writers_ compactor_ tm_ request_]; [done|by rewrite length_insert| | |done| |].
  - apply Forall_insert; [done|]. destruct r as [| |curr| |]; cbn [reader_step] in Hs; [..|destruct (decide (0 < reader_count_ c)); [|done]|]; try (by injection Hs as <- <-).
    + injection Hs as <- <-. destruct (decide (state_ c <> FROZEN)) as [|Hf]; [done|]. cbn. by apply dec_stable.
    + unfold UpdateAtomically in Hs. destruct (decide (c = curr)); by injection Hs as <- <-.
  - eapply Forall_impl; [exact Hw|]. intros t. by apply writers_same.
  - unfold compactor_inv in *. by rewrite Hst.
  - intros Hex. pose proof (count_bounds (<[i := r']> rs)). specialize (Hwr Hex). destruct Hle as [|Hf]; [lia|]. exfalso.
    destruct Hex as (t & Ht & Hpc). rewrite Forall_forall in Hw. pose proof (Hw t Ht) as Hinv. unfold writer_inv in Hinv. rewrite Hpc, Hf in Hinv. destruct Hinv as [|[? _]]; done.
Qed.

(** Replacing a transaction by one at another instruction. *)
Lemma clock_insert i w st w' : ws !! i = Some (Transaction w st) -> (w' = WIdle \/ w <> WIdle) -> clock_inv tm (<[i := Transaction w' st]> ws).
Proof.
  intros Hi Hw. destruct (ai_clock _ HI) as [H1 H2 H3]. cbn [tm_ writers_] in *.
  assert (forall j t, <[i := Transaction w' st]> ws !! j = Some t -> pc_ t <> WIdle -> exists t0, ws !! j = Some t0 /\ pc_ t0 <> WIdle /\ start_ t0 = start_ t) as Hback.
  { intros j t Hj Hpc. destruct (decide (i = j)) as [<-|Hne]; [|rewrite list_lookup_insert_ne in Hj by done; eauto].
    rewrite list_lookup_insert_eq in Hj by (by eapply lookup_lt_Some). injection Hj as <-. destruct Hw as [-> |Hw]; [done|]. by exists (Transaction w st). }
  split; [done| |].
  - intros j t Hj Hpc. destruct (Hback j t Hj Hpc) as (t0 & E & Hp & <-). eauto.
  - intros j k t t' Hj Hk Hpc Hpc' E. destruct (Hback j t Hj Hpc) as (t0 & E0 & Hp0 & E1). destruct (Hback k t' Hk Hpc') as (t1 & E2 & Hp1 & E3).
    apply (H3 j k t0 t1); try done. congruence.
Qed.

(** A transaction that does not write yet, or any more. *)
Lemma writing_insert i w : (w <> WWriting) -> forall st, (exists t, t ∈ <[i := Transaction w st]> ws /\ pc_ t = WWriting) -> count_holding rs = 0.
Proof.
  intros Hw st (t & Ht & Hpc). apply list_elem_of_lookup_1 in Ht as [j Hj]. apply (ai_writing _ HI). cbn.
  destruct (decide (i = j)) as [<-|Hne].
  - rewrite list_lookup_insert_eq in Hj by (apply lookup_lt_Some in Hj; by rewrite length_insert in Hj). injection Hj as <-. done.
  - rewrite list_lookup_insert_ne in Hj by done. exists t. split; [by eapply list_elem_of_lookup_2|done].
Qed.

Lemma writer_begins_preserves i st : ws !! i = Some (Transaction WIdle st) -> TimestampManager.time_ tm + 1 < 2 ^ 63 ->
  access_inv (System c rs (<[i := Transaction WRunning (TimestampManager.BeginTransaction tm).1]> ws) p (TimestampManager.BeginTransaction tm).2 q).
Proof.
  intros Hi Ht. pose proof HI as [Hcount Hbound Hrs Hw [H1 H2 H3] Hp Hwr]. cbn [controller_ readers_ writers_ compactor_ tm_ request_] in *.
  pose proof (step_ok tm _ H1 (TimestampManager.step_begin tm Ht)) as Hok. pose proof H1 as (Hb & _ & Hrun).
  assert (TimestampManager.time_ (TimestampManager.BeginTransaction tm).2 = TimestampManager.time_ tm + 1) as Htime by (cbn; apply wrapu_small; unfold is_uint; lia).
  assert (forall j t, <[i := Transaction WRunning (TimestampManager.time_ tm)]> ws !! j = Some t -> pc_ t <> WIdle ->
    (j = i /\ start_ t = TimestampManager.time_ tm) \/ (j <> i /\ ws !! j = Some t)) as Hback.
  { intros j t Hj Hpc. destruct (decide (i = j)) as [<-|Hne]; [|right; by rewrite list_lookup_insert_ne in Hj].
    rewrite list_lookup_insert_eq in Hj by (by eapply lookup_lt_Some). injection Hj as <-. by left. }
  assert (forall j t, ws !! j = Some t -> pc_ t <> WIdle -> start_ t < TimestampManager.time_ tm) as Hlt by (intros j t Hj Hpc; apply Hrun; eauto).
  split; cbn [controller_ readers_ writers_ compactor_ tm_ request_]; [done|done|done|by apply Forall_insert| | |by eapply writing_insert].
  - split; [done| |]; cbn [TimestampManager.BeginTransaction fst].
    + intros j t Hj Hpc. cbn. destruct (Hback j t Hj Hpc) as [[_ ->]|[_ Hj']]; [set_solver|]. apply elem_of_union_r. eauto.
    + intros j k t t' Hj Hk Hpc Hpc' E. destruct (Hback j t Hj Hpc) as [[-> E1]|[N1 Hj']], (Hback k t' Hk Hpc') as [[-> E2]|[N2 Hk']]; [done| | |eauto].
      * specialize (Hlt k t' Hk' Hpc'). lia.
      * specialize (Hlt j t Hj' Hpc). lia.
  - destruct p; cbn [compactor_inv] in *; try done. destruct Hp as [Hst (ts & -> & Hts & Hall)]. split; [done|]. exists ts. split; [done|]. rewrite Htime. split; [lia|].
    intros j t Hj Hpc. destruct (Hback j t Hj Hpc) as [[_ ->]|[_ Hj']]; [done|eauto].
Qed.

Lemma writer_preserves i w st w' c' : ws !! i = Some (Transaction w st) -> w <> WIdle -> writer_step w c = (w', c') -> access_inv (System c' rs (<[i := Transaction w' st]> ws) p tm q).
Proof.
  intros Hi Hni Hs. pose proof HI as [Hcount Hbound Hrs Hw Hck Hp Hwr]. cbn [controller_ readers_ writers_ compactor_ tm_ request_] in *.
  pose proof Hw as Hw'. rewrite Forall_lookup in Hw'. pose proof (Hw' i _ Hi) as Hwi. unfold writer_inv in Hwi. cbn [pc_ start_] in Hwi.
  assert (reader_count_ c' = reader_count_ c /\ (c' = c \/ state_ c' = HOT) /\ writer_inv c' q (Transaction w' st) /\
    (w' = WWriting -> w = WSpin /\ reader_count_ c = 0) /\ (c' = c \/ state_ c <> FREEZING)) as (Hcn & Hcc & Hwi' & Hnew & Hnf).
  { unfold writer_inv. destruct w; cbn [writer_step] in Hs; [done|..].
    - injection Hs as <- <-. cbn. split_and!; try done; first [tauto|by right|by left|by right; left].
    - injection Hs as <- <-. destruct (state_ c) eqn:E; cbn; rewrite ?E; split_and!; try done; first [tauto|by right|by left|by right; left].
    - unfold exchange_state in Hs. destruct (decide (state_ c = COOLING)) as [E|]; injection Hs as <- <-; cbn; [rewrite E|]; split_and!; try done; first [tauto|by right|by left|by right; left].
    - injection Hs as <- <-. cbn. assert (state_ c <> FREEZING) by (destruct Hwi as [E|[E|[E _]]]; rewrite E; done). split_and!; try done; first [tauto|by right|by left|by right; left].
    - injection Hs as <- <-. destruct (decide (reader_count_ c <> 0)) as [|Hz]; cbn; [split_and!; try done; first [tauto|by right|by left|by right; left]|]. apply dec_stable in Hz. split_and!; try done; first [tauto|by right|by left|by right; left].
    - injection Hs as <- <-. cbn. split_and!; try done; first [tauto|by right|by left|by right; left]. }
  assert (Forall (writer_inv c' q) ws) as Hall.
  { eapply Forall_impl; [exact Hw|]. intros t. destruct Hcc as [->|Hh]; [done|by apply writers_hot]. }
  split; cbn [controller_ readers_ writers_ compactor_ tm_ request_]; [by rewrite Hcn|done|done|by apply Forall_insert|by apply (clock_insert i w st w' Hi); right| |].
  - assert (forall ts, (forall j t, ws !! j = Some t -> pc_ t <> WIdle -> ts <= start_ t) -> forall j t, <[i := Transaction w' st]> ws !! j = Some t -> pc_ t <> WIdle -> ts <= start_ t) as Hm.
    { intros ts Hm j t Hj Hpc. destruct (decide (i = j)) as [<-|Hne]; [|rewrite list_lookup_insert_ne in Hj by done; eauto].
      rewrite list_lookup_insert_eq in Hj by (by eapply lookup_lt_Some). injection Hj as <-. by apply (Hm i (Transaction w st)). }
    unfold compactor_inv in *. assert (state_ c' = state_ c \/ state_ c' = HOT) as Hst by (destruct Hcc as [->|]; tauto).
    destruct p; try (destruct Hst as [-> | ->]; done).
    + destruct Hp as [Hp1 Hp2]. split; [destruct Hst as [-> | ->]; tauto|done].
    + destruct Hp as [Hp1 (ts & Hq & Hts & Hp2)]. split; [destruct Hst as [-> | ->]; tauto|]. exists ts. split; [done|]. split; [done|]. by apply Hm.
    + destruct Hnf as [->|Hnf]; done.
  - destruct (decide (w' = WWriting)) as [E|E]; [|by apply (writing_insert i w' E st)]. intros _. destruct (Hnew E) as [_ Hz]. lia.
Qed.

Lemma writer_ends_preserves i w st : ws !! i = Some (Transaction w st) -> w <> WIdle -> access_inv (System c rs (<[i := Transaction WIdle st]> ws) p (TimestampManager.RemoveTransaction st tm) q).
Proof.
  intros Hi Hni. pose proof HI as [Hcount Hbound Hrs Hw Hck Hp Hwr]. cbn [controller_ readers_ writers_ compactor_ tm_ request_] in *.
  destruct (clock_insert i w st WIdle Hi ltac:(by left)) as [H1 H2 H3]. pose proof (step_ok tm _ H1 (TimestampManager.step_remove tm [st])) as Hok.
  split; cbn [controller_ readers_ writers_ compactor_ tm_ request_]; [done|done|done|by apply Forall_insert| | |by apply writing_insert].
  - split; [done| |done]. intros j t Hj Hpc. cbn. apply elem_of_difference. split; [eauto|]. intros E%elem_of_singleton.
    assert (j <> i) as Hne by (intros ->; rewrite list_lookup_insert_eq in Hj by (by eapply lookup_lt_Some); by injection Hj as <-).
    rewrite list_lookup_insert_ne in Hj by done. apply Hne. by eapply (ci_inj _ _ Hck j i t (Transaction w st)).
  - destruct p; cbn [compactor_inv] in *; try done. destruct Hp as [Hst (ts & -> & Hts & Hall)]. split; [done|]. exists ts. split; [done|]. split; [done|].
    intros j t Hj Hpc. assert (j <> i) as Hne by (intros ->; rewrite list_lookup_insert_eq in Hj by (by eapply lookup_lt_Some); by injection Hj as <-).
    rewrite list_lookup_insert_ne in Hj by done. eauto.
Qed.

Lemma clock_preserves : TimestampManager.time_ tm + 1 < 2 ^ 63 -> access_inv (System c rs ws p (TimestampManager.CheckOutTimestamp tm).2 q).
Proof.
  intros Ht. pose proof HI as [Hcount Hbound Hrs Hw [H1 H2 H3] Hp Hwr]. cbn [controller_ readers_ writers_ compactor_ tm_ request_] in *.
  pose proof (step_ok tm _ H1 (TimestampManager.step_checkout tm Ht)) as Hok. pose proof H1 as (Hb & _ & _).
  split; cbn [controller_ readers_ writers_ compactor_ tm_ request_]; [done..| | |done]; [by split|].
  destruct p; cbn [compactor_inv] in *; try done. destruct Hp as [Hst (ts & -> & Hts & Hall)]. split; [done|]. exists ts. split; [done|]. split; [|done].
  cbn. rewrite wrapu_small by (unfold is_uint; lia). lia.
Qed.

(** Freezing needs that the request is due: the writers past their store began before it,
    the running transactions after it. *)
Lemma compactor_preserves proceed p' c' : compactor_step p proceed c = (p', c') -> (p = CIdle -> state_ c = COOLING -> due tm q) ->
  access_inv (System c' rs ws p' tm (next_request p proceed tm q)).
Proof.
  intros Hs Hdue. pose proof HI as [Hcount Hbound Hrs Hw Hck Hp Hwr]. cbn [controller_ readers_ writers_ compactor_ tm_ request_] in *.
  destruct p; cbn [compactor_step compactor_inv next_request] in *.
  - injection Hs as <- <-. split; cbn [controller_ readers_ writers_ compactor_ tm_ request_]; [done..| |done]. destruct (state_ c) eqn:E; cbn; rewrite ?E; try done.
    split; [by left|]. destruct (Hdue eq_refl eq_refl) as (ts & -> & Hts). destruct (oldest_spec tm (ci_ok _ _ Hck)) as [[_ Ho1] Ho2]. exists ts. split; [done|]. split; [lia|].
    intros i t Hi Hpc. specialize (Ho2 _ (ci_running _ _ Hck i t Hi Hpc)). lia.
  - destruct proceed; injection Hs as <- <-; split; cbn [controller_ readers_ writers_ compactor_ tm_ request_ set_state reader_count_ state_]; try done.
    + eapply Forall_impl; [exact Hw|]. intros t Ht. unfold writer_inv in *. cbn. destruct (pc_ t); tauto.
    + by split; [left|].
    + cbn. by rewrite Hp.
  - destruct Hp as [Hp ->]. injection Hs as <- <-. split; cbn [controller_ readers_ writers_ compactor_ tm_ request_]; try done.
    + rewrite Forall_lookup in Hw |- *. intros i t Hi. specialize (Hw i t Hi). pose proof (ci_running _ _ Hck i t Hi) as Hr. unfold writer_inv, before, TimestampManager.CurrentTime in *.
      destruct (ci_ok _ _ Hck) as (_ & _ & Hlt). destruct (pc_ t); try done; (assert (start_ t < TimestampManager.time_ tm) by (apply Hlt, Hr; done)); tauto.
    + cbn. by destruct Hp as [-> | ->].
  - destruct Hp as [Hp (ts & -> & Hts & Hno)]. destruct proceed; [|injection Hs as <- <-; split; cbn; [done..| |done]; by destruct Hp as [-> | ->]].
    unfold exchange_state in Hs. destruct (decide (state_ c = COOLING)) as [E|E]; injection Hs as <- <-; [|split; cbn; [done..| |done]; by destruct Hp as [-> | ->]].
    split; cbn [controller_ readers_ writers_ compactor_ tm_ request_ set_state reader_count_ state_]; try done.
    rewrite Forall_lookup in Hw |- *. intros i t Hi. pose proof (Hw i t Hi) as Hwi. pose proof (Hno i t Hi) as Hge. unfold writer_inv, before in *. cbn.
    destruct (pc_ t); try done; exfalso; rewrite E in Hwi; specialize (Hge ltac:(done)); naive_solver lia.
  - injection Hs as <- <-. split; cbn [controller_ readers_ writers_ compactor_ tm_ request_ set_state reader_count_ state_]; try done.
    eapply Forall_impl; [exact Hw|]. intros t Hi. unfold writer_inv in *. rewrite Hp in Hi. cbn. destruct (pc_ t); try done; naive_solver.
Qed.

End preservation.

Lemma step_inv s s' : access_inv s -> step false s s' -> access_inv s'.
Proof.
  intros HI Hs. destruct Hs as [c rs ws p tm q i r r' c' Hi Hs|c rs ws p tm q i st Hi Ht|c rs ws p tm q i w st w' c' Hi Hn Hs|c rs ws p tm q i w st Hi Hw|c rs ws p tm q Ht|c rs ws p tm q proceed p' c' Hs Hd].
  - by eapply reader_preserves.
  - by eapply writer_begins_preserves.
  - by eapply writer_preserves.
  - eapply writer_ends_preserves; [done|done|]. by destruct Hw as [-> | ->].
  - by apply clock_preserves.
  - apply (compactor_preserves c rs ws p tm q HI); [done|]. intros E1 E2. by destruct (Hd E1 E2).
Qed.

(** C29: writers, in-place readers and the compactor exclude each other, provided the
    compactor comes back to a block it has marked as cooling only by the request it made
    then, when no transaction that had begun before is running.  In every state reachable
    by any such interleaving of the atomic instructions of fewer than [2 ^ 32] readers, any
    number of transactions and the compactor: while a transaction writes to the block,
    nobody reads it in place, and the block is neither being transformed nor frozen; the
    count in the block is the number of in-place readers; a reader that releases finds the
    count positive, so that the assertion holds and the next step exists. *)
Theorem block_access_exclusive (s0 s : system) : initial s0 -> rtc (step false) s0 s ->
  (forall t, t ∈ writers_ s -> pc_ t = WWriting ->
    (forall r, r ∈ readers_ s -> holding r = false) /\ state_ (controller_ s) <> FREEZING /\ state_ (controller_ s) <> FROZEN /\ compactor_ s <> CGather) /\
  reader_count_ (controller_ s) = count_holding (readers_ s) /\
  (forall i r, readers_ s !! i = Some r -> is_Some (reader_step r (controller_ s))).
Proof.
  intros H0 Hsteps. assert (access_inv s) as [Hcount Hbound Hrs Hw Hck Hp Hwr].
  { apply initial_inv in H0. induction Hsteps as [|s0 s1 s Hs _ IH]; [done|]. apply IH. by eapply step_inv. }
  split; [|split; [done|]].
  - intros t Ht Hpc. rewrite Forall_forall in Hw. pose proof (Hw t Ht) as Hi. unfold writer_inv in Hi. rewrite Hpc in Hi.
    split; [|assert (state_ (controller_ s) <> FREEZING /\ state_ (controller_ s) <> FROZEN) as [Hf Hz] by (destruct Hi as [E|[E _]]; rewrite E; done)].
    + intros r Hr. apply list_elem_of_lookup_1 in Hr as [i Hr]. apply not_true_iff_false. intros Hh. pose proof (holding_pos _ _ _ Hr Hh). rewrite (Hwr ltac:(by exists t)) in *. lia.
    + split; [done|]. split; [done|]. intros E. unfold compactor_inv in Hp. by rewrite E in Hp.
  - intros i r Hr. destruct r; cbn [reader_step]; try by eexists.
    + by destruct (UpdateAtomically _ _ _).
    + rewrite decide_True; [by eexists|]. rewrite Hcount. by eapply holding_pos.
Qed.

(** A run in which a transaction writes to a hot block while a reader is turned away. *)
Lemma block_access_exclusive_witness :
  let s := System Initialize [RTrying] [Transaction WWriting 0] CIdle (TimestampManager.mk 1 0 {[0]}) None in
  exists s0, initial s0 /\ rtc (step false) s0 s /\ forall r, r ∈ readers_ s -> holding r = false.
Proof.
  exists (System Initialize [RIdle] [Transaction WIdle 0] CIdle TimestampManager.init None).
  assert (initial (System Initialize [RIdle] [Transaction WIdle 0] CIdle TimestampManager.init None)) as H0 by (split_and!; cbn; [done|by repeat constructor|by repeat constructor|done|done|done|lia]).
  assert (rtc (step false) (System Initialize [RIdle] [Transaction WIdle 0] CIdle TimestampManager.init None)
    (System Initialize [RTrying] [Transaction WWriting 0] CIdle (TimestampManager.mk 1 0 {[0]}) None)) as Hs.
  { eapply rtc_l; [by eapply (reader_steps _ _ _ _ _ _ _ 0)|]. eapply rtc_l; [by eapply (writer_begins _ _ _ _ _ _ _ 0)|].
    do 3 (eapply rtc_l; [by eapply (writer_steps _ _ _ _ _ _ _ 0)|]). apply rtc_refl. }
  split; [exact H0|]. split; [exact Hs|].
  apply (block_access_exclusive _ _ H0 Hs) with (t := Transaction WWriting 0); [cbn; set_solver|done].
Defined.

(** ** Coming back too early *)

(** When the compactor comes back to a cooling block by an entry of the queue that an older
    write has left there, a transaction that has found the block hot before may still be
    about to write: the block is frozen, and read in place while it is written to. *)
Theorem early_visit_races :
  exists s0 s, initial s0 /\ rtc (step true) s0 s /\ RReading ∈ readers_ s /\ state_ (controller_ s) = FROZEN /\
    exists t, t ∈ writers_ s /\ pc_ t = WWriting.
Proof.
  exists (System Initialize [RIdle] [Transaction WIdle 0] CIdle TimestampManager.init None). eexists. split.
  { split_and!; cbn; [done|by repeat constructor|by repeat constructor|done|done|done|lia]. }
  split.
  { eapply rtc_l; [by eapply (writer_begins _ _ _ _ _ _ _ 0)|]. do 3 (eapply rtc_l; [by eapply (writer_steps _ _ _ _ _ _ _ 0)|]).
    eapply rtc_l; [by eapply (compactor_steps _ _ _ _ _ _ _ true)|]. eapply rtc_l; [by eapply (compactor_steps _ _ _ _ _ _ _ true)|].
    eapply rtc_l; [by eapply (compactor_steps _ _ _ _ _ _ _ true)|]. eapply rtc_l; [by eapply (compactor_steps _ _ _ _ _ _ _ true); [|left]|].
    eapply rtc_l; [by eapply (compactor_steps _ _ _ _ _ _ _ true)|]. eapply rtc_l; [by eapply (compactor_steps _ _ _ _ _ _ _ true)|].
    do 3 (eapply rtc_l; [by eapply (reader_steps _ _ _ _ _ _ _ 0)|]). apply rtc_refl. }
  cbn. split; [by left|]. split; [done|]. eexists. split; [by left|done].
Qed.
