(* ===== verification/Compaction.v ===== *)
(** * Compaction: which tuples move

    [storage/access_observer.cpp] and the first half of [storage/block_compactor.cpp]: the
    observer that queues blocks not written for a number of garbage collections, the search
    for empty slots, [EliminateGaps], which fills the first gaps with the last tuples, and
    [CheckForVersionsAndGaps].  The move itself ([MoveTuple]) is an argument here: an
    operation on a state that can fail; [CompactorMove] gives it.

    For a group of one block, the only ones the compactor makes, the moves are determined:
    they leave the tuples in the first slots.  They are followed by undefined behaviour
    when the tuples are all moved and gaps remain. *)

From S2P Require Import Prelude Layout DataTable BlockAccess.

(** ** The access observer *)

Module AccessObserver.

Definition COLD_DATA_EPOCH_THRESHOLD : Z := 10.

Record AccessObserver := Observer { gc_epoch_ : Z; last_touched_ : gmap Z Z }.

(** The observer afterwards, and the blocks put into the compactor's queue. *)
Definition ObserveGCInvocation (o : AccessObserver) : AccessObserver * list Z :=
  let gc_epoch := u64 (gc_epoch_ o + 1) in
  let cold (p : Z * Z) := u64 (p.2 + COLD_DATA_EPOCH_THRESHOLD) < gc_epoch in
  (Observer gc_epoch (filter (fun p => ~ cold p) (last_touched_ o)), (filter cold (map_to_list (last_touched_ o))).*1).

Definition ObserveWrite (l : BlockLayout.BlockLayout) (m : memory) (block : Z) (o : AccessObserver) : AccessObserver :=
  if decide (GetInsertHead (insert_head_of m block) = BlockLayout.num_slots_ l) then Observer (gc_epoch_ o) (<[block := gc_epoch_ o]> (last_touched_ o))
  else o.

End AccessObserver.

(** ** The compactor's plan *)

Module Plan.

(** The first pass over a block: the slots whose bit is not set. *)
Definition find_empty (bitmap : Z -> bool) (num_slots : Z) : list Z := filter (fun offset => bitmap offset = false) (seqZ 0 num_slots).

(** [ComputeFilled]'s loop: [k] offsets from [i] on, [empty] those not met yet. *)
Fixpoint compute_filled (k : nat) (i : Z) (empty : list Z) : list Z :=
  match k with
  | O => []
  | S k =>
    match empty with
    | e :: rest => if decide (e = i) then compute_filled k (i + 1) rest else i :: compute_filled k (i + 1) empty
    | [] => i :: compute_filled k (i + 1) []
    end
  end.

Definition ComputeFilled (num_slots : Z) (filled empty : list Z) : list Z := filled ++ compute_filled (Z.to_nat num_slots) 0 empty.

(** [std::sort] on the number of empty slots. *)
Fixpoint insert_block (x : Z * list Z) (l : list (Z * list Z)) : list (Z * list Z) :=
  match l with
  | [] => [x]
  | y :: rest => if decide (length y.2 < length x.2)%nat then y :: insert_block x rest else x :: l
  end.
Definition sort_blocks (l : list (Z * list Z)) : list (Z * list Z) := foldr insert_block [] l.

Section moves.
Context {St : Type} (num_slots : Z) (MoveTuple : TupleSlot -> TupleSlot -> St -> option (bool * St)).

(** The loop over a taker's empty slots: the giver's position and its filled slots
    afterwards, or nothing after a failed move.  [None] where the code is undefined: it
    steps in front of the first block, or takes the last slot of an empty list. *)
Fixpoint fill_gaps (all_blocks : list (Z * list Z)) (taker : nat) (block : Z) (taker_empty : list Z) (giver : nat) (filled : list Z) (s : St) :
    option (option (nat * list Z) * St) :=
  match taker_empty with
  | [] => Some (Some (giver, filled), s)
  | empty_offset :: rest =>
    '(giver, filled) ←
      match filled with
      | [] => match giver with O => None | S giver => '(_, empty) ← all_blocks !! giver; Some (giver, ComputeFilled num_slots [] empty) end
      | _ => Some (giver, filled)
      end;
    '(from_block, _) ← all_blocks !! giver;
    filled_offset ← last filled;
    let empty_slot := TupleSlot.make block empty_offset in
    let filled_slot := TupleSlot.make from_block filled_offset in
    let filled := take (pred (length filled)) filled in
    if decide (taker = giver /\ TupleSlot.GetOffset filled_slot < TupleSlot.GetOffset empty_slot) then Some (Some (giver, filled), s)
    else
      '(moved, s) ← MoveTuple filled_slot empty_slot s;
      if (moved : bool) then fill_gaps all_blocks taker block rest giver filled s else Some (None, s)
  end.

(** The loop over the takers. *)
Fixpoint take_blocks (all_blocks takers : list (Z * list Z)) (taker giver : nat) (filled : list Z) (s : St) : option (bool * St) :=
  match takers with
  | [] => Some (true, s)
  | (block, taker_empty) :: rest =>
    if decide (taker <= giver)%nat then
      '(r, s) ← fill_gaps all_blocks taker block taker_empty giver filled s;
      match r with
      | Some (giver, filled) => take_blocks all_blocks rest (S taker) giver filled s
      | None => Some (false, s)
      end
    else Some (true, s)
  end.

(** [EliminateGaps] after its first pass. *)
Definition fill_group (blocks_to_compact : list (Z * list Z)) (s : St) : option (bool * St) :=
  let all_blocks := sort_blocks blocks_to_compact in
  take_blocks all_blocks all_blocks 0 (length all_blocks) [] s.

End moves.

(** *** CheckForVersionsAndGaps *)

(** The loop over the slots, from [offset] on: the number of records, or nothing. *)
Fixpoint check_slots (k : nat) (t : Z -> tuple) (offset : Z) (num_records : Z) (unallocated_region_start : bool) : option Z :=
  match k with
  | O => Some num_records
  | S k =>
    if negb (allocated_ (t offset)) then
      check_slots k t (offset + 1) (if unallocated_region_start then num_records else offset) true
    else if unallocated_region_start then None
    else if decide (version_ptr_ (t offset) <> None) then None
    else check_slots k t (offset + 1) num_records unallocated_region_start
  end.

(** The result, the access controller and the number of records in the metadata
    afterwards. *)
Definition CheckForVersionsAndGaps (num_slots : Z) (t : Z -> tuple) (c : BlockAccessController.BlockAccessController) (NumRecords : Z) :
    bool * BlockAccessController.BlockAccessController * Z :=
  match check_slots (Z.to_nat num_slots) t 0 num_slots false with
  | None => (false, c, NumRecords)
  | Some num_records =>
    let '(ret, c) := BlockAccessController.exchange_state COOLING FREEZING c in
    (ret, c, if ret then num_records else NumRecords)
  end.

End Plan.
Import Plan.

(** ** Properties of the observer *)

Module ObserverFacts.
Import AccessObserver.

(** The blocks that leave are those not touched for more than the threshold. *)
Lemma observed_cold o block : 0 <= gc_epoch_ o -> gc_epoch_ o + 1 + COLD_DATA_EPOCH_THRESHOLD < 2 ^ 64 -> map_Forall (fun _ e => 0 <= e <= gc_epoch_ o) (last_touched_ o) ->
  let '(o', queued) := ObserveGCInvocation o in
  (block ∈ queued <-> exists e, last_touched_ o !! block = Some e /\ COLD_DATA_EPOCH_THRESHOLD <= gc_epoch_ o - e) /\
  (forall e, last_touched_ o' !! block = Some e <-> last_touched_ o !! block = Some e /\ gc_epoch_ o - e < COLD_DATA_EPOCH_THRESHOLD) /\
  map_Forall (fun _ e => 0 <= e <= gc_epoch_ o') (last_touched_ o') /\ gc_epoch_ o' = gc_epoch_ o + 1.
Proof.
  intros H0 Hm He. unfold ObserveGCInvocation, COLD_DATA_EPOCH_THRESHOLD in *.
  assert (u64 (gc_epoch_ o + 1) = gc_epoch_ o + 1) as -> by (apply wrapu_small; unfold is_uint; lia).
  assert (forall b e, last_touched_ o !! b = Some e -> 0 <= e <= gc_epoch_ o /\ u64 (e + 10) = e + 10) as Hu.
  { intros b e Hb. specialize (He b e Hb). split; [done|]. apply wrapu_small. unfold is_uint. cbn in He. lia. }
  cbn [gc_epoch_ last_touched_]. split_and!; [| | |done].
  - rewrite list_elem_of_fmap. setoid_rewrite list_elem_of_filter. split.
    + intros ([b e] & -> & Hc & Hin%elem_of_map_to_list). destruct (Hu _ _ Hin) as [_ E]. cbn in Hc |- *. rewrite E in Hc. exists e. split; [done|lia].
    + intros (e & Hb & Hc). exists (block, e). destruct (Hu _ _ Hb) as [_ E]. split; [done|]. split; [cbn; rewrite E; lia|by apply elem_of_map_to_list].
  - intros e. rewrite map_lookup_filter_Some. split.
    + intros [Hb Hc]. destruct (Hu _ _ Hb) as [_ E]. cbn in Hc. rewrite E in Hc. split; [done|lia].
    + intros [Hb Hc]. destruct (Hu _ _ Hb) as [_ E]. split; [done|]. cbn. rewrite E. lia.
  - intros b e Hb. apply map_lookup_filter_Some in Hb as [Hb _]. cbn. destruct (Hu _ _ Hb). lia.
Qed.

End ObserverFacts.

(** ** Properties of the plan *)

Lemma filter_swap {A} (P Q : A -> Prop) `{!forall x, Decision (P x), !forall x, Decision (Q x)} (l : list A) : filter P (filter Q l) = filter Q (filter P l).
Proof. rewrite !list_filter_filter. apply list_filter_iff. intros x. tauto. Qed.

Lemma length_filter_bool {A} (f : A -> bool) (l : list A) : (length (filter (fun x => f x = false) l) + length (filter (fun x => f x = true) l) = length l)%nat.
Proof. induction l as [|x l IH]; [done|]. rewrite !filter_cons. destruct (f x); repeat case_decide; cbn; try done; lia. Qed.

Lemma filter_below n k : 0 <= k <= n -> filter (fun i => i < k) (seqZ 0 n) = seqZ 0 k.
Proof.
  intros Hk. replace n with (k + (n - k)) by lia. rewrite seqZ_app, filter_app by lia. rewrite filter_all, filter_none, app_nil_r; [done| |].
  - apply Forall_forall. intros i Hi%elem_of_seqZ. lia.
  - apply Forall_forall. intros i Hi%elem_of_seqZ. lia.
Qed.

Definition filled_slots (bitmap : Z -> bool) (num_slots : Z) : list Z := filter (fun offset => bitmap offset = true) (seqZ 0 num_slots).

Lemma compute_filled_spec (bitmap : Z -> bool) k : forall i, compute_filled k i (filter (fun o => bitmap o = false) (seqZ i (Z.of_nat k))) = filter (fun o => bitmap o = true) (seqZ i (Z.of_nat k)).
Proof.
  induction k as [|k IH]; intros i; [done|]. rewrite seqZ_cons by lia. replace (Z.pred (Z.of_nat (S k))) with (Z.of_nat k) by lia.
  rewrite !filter_cons. change (Z.succ i) with (i + 1). destruct (bitmap i) eqn:E; cbn [compute_filled].
  - rewrite (decide_False (P := true = false)), (decide_True (P := true = true)) by done. destruct (filter (fun o => bitmap o = false) (seqZ (i + 1) _)) as [|e rest] eqn:Ef; cbn [compute_filled].
    + f_equal. rewrite <-IH, Ef. done.
    + assert (e <> i).
      { assert (e ∈ e :: rest) as Hin by left. rewrite <-Ef in Hin. apply list_elem_of_filter in Hin as [_ Hin%elem_of_seqZ]. lia. }
      rewrite decide_False by done. f_equal. rewrite <-IH, Ef. done.
  - rewrite (decide_True (P := false = false)), (decide_False (P := false = true)) by done. cbn [compute_filled]. rewrite decide_True by done. apply IH.
Qed.

Lemma ComputeFilled_spec bitmap n : 0 <= n -> ComputeFilled n [] (find_empty bitmap n) = filled_slots bitmap n.
Proof. intros Hn. unfold ComputeFilled, find_empty, filled_slots. cbn [app]. rewrite <-(Z2Nat.id n) at 2 3 by done. apply compute_filled_spec. Qed.

(** The moves for the empty slots [es] with the filled slots [fs], last first; and whether
    the filled slots run out. *)
Fixpoint plan (es fs : list Z) : list (Z * Z) * bool :=
  match es, fs with
  | [], _ => ([], false)
  | _ :: _, [] => ([], true)
  | e :: es, f :: fs => if decide (f < e) then ([], false) else let '(moves, undefined) := plan es fs in ((f, e) :: moves, undefined)
  end.

Lemma plan_app es1 fs1 : length es1 = length fs1 -> forall es fs, (forall e f, e ∈ es1 -> f ∈ fs1 -> e <= f) ->
  plan (es1 ++ es) (fs1 ++ fs) = (zip fs1 es1 ++ (plan es fs).1, (plan es fs).2).
Proof.
  revert fs1. induction es1 as [|e es1 IH]; intros [|f fs1] Hl es fs Hle; cbn in Hl; try lia.
  - cbn. by destruct (plan es fs).
  - cbn [app plan zip zip_with]. rewrite decide_False by (specialize (Hle e f ltac:(left) ltac:(left)); lia).
    rewrite IH by (try lia; intros e' f' He Hf; apply Hle; by right). done.
Qed.

(** A list of slots below and from [k] on. *)
Lemma slots_split (P : Z -> Prop) `{!forall x, Decision (P x)} n k : 0 <= k <= n ->
  filter P (seqZ 0 n) = filter (fun i => i < k) (filter P (seqZ 0 n)) ++ filter (fun i => k <= i) (filter P (seqZ 0 n)).
Proof.
  intros Hk. replace n with (k + (n - k)) by lia. rewrite seqZ_app by lia. rewrite !filter_app.
  rewrite (filter_all (fun i => i < k)), (filter_none (fun i => i < k)), (filter_none (fun i => k <= i)), (filter_all (fun i => k <= i)); cbn [app]; [by rewrite app_nil_r|..];
    apply Forall_forall; intros i [_ Hi%elem_of_seqZ]%list_elem_of_filter; lia.
Qed.

Lemma filled_count bitmap n (k := Z.of_nat (length (filled_slots bitmap n))) : 0 <= n ->
  0 <= k <= n /\ length (filter (fun e => e < k) (find_empty bitmap n)) = length (filter (fun f => k <= f) (filled_slots bitmap n)).
Proof.
  intros Hn. assert (0 <= k <= n) as Hk.
  { split; [lia|]. unfold k, filled_slots. pose proof (length_filter (fun o => bitmap o = true) (seqZ 0 n)) as L. rewrite length_seqZ in L. lia. }
  split; [done|]. pose proof (length_filter_bool bitmap (seqZ 0 k)) as L1. rewrite length_seqZ in L1.
  rewrite <-(filter_below n k Hk), !(filter_swap _ (fun i => i < k)) in L1. fold (find_empty bitmap n) (filled_slots bitmap n) in L1.
  pose proof (f_equal length (slots_split (fun o => bitmap o = true) n k Hk)) as L2. rewrite length_app in L2. fold (filled_slots bitmap n) in L2. unfold k in *. lia.
Qed.

Lemma plan_stop k es fs : Forall (fun e => k <= e) es -> Forall (fun f => f < k) fs -> plan es fs = ([], bool_decide (fs = [] /\ es <> [])).
Proof.
  intros He Hf. destruct es as [|e es]; cbn [plan]; [f_equal; symmetry; apply bool_decide_eq_false; by intros []|].
  destruct fs as [|f fs]; [done|]. apply Forall_cons in He as [He _], Hf as [Hf _]. by rewrite decide_True by lia.
Qed.

Lemma Forall_filter_nil k (l : list Z) : filter (fun f => f < k) l = [] <-> Forall (fun f => k <= f) l.
Proof. induction l as [|f l IH]; [by split|]. rewrite Forall_cons, filter_cons, <-IH. case_decide; [split; [done|lia]|]. split; [split; [lia|done]|tauto]. Qed.

Lemma Exists_filter_nonnil k (l : list Z) : filter (fun e => k <= e) l <> [] <-> Exists (fun e => k <= e) l.
Proof. induction l as [|e l IH]; [by rewrite Exists_nil|]. rewrite Exists_cons, filter_cons, <-IH. case_decide; [split; [by left|done]|]. split; [by right|intros [?|?]; [lia|done]]. Qed.

Lemma reverse_nil_iff {A} (l : list A) : reverse l = [] <-> l = [].
Proof. split; [|by intros ->]. intros H. rewrite <-(reverse_involutive l), H. done. Qed.

(** The plan for a block: with [k] filled slots, the filled slots from [k] on go to the
    empty ones below [k]. *)
Lemma plan_block bitmap n (k := Z.of_nat (length (filled_slots bitmap n))) : 0 <= n ->
  plan (find_empty bitmap n) (reverse (filled_slots bitmap n)) =
    (zip (reverse (filter (fun f => k <= f) (filled_slots bitmap n))) (filter (fun e => e < k) (find_empty bitmap n)),
     bool_decide (Forall (fun f => k <= f) (filled_slots bitmap n) /\ Exists (fun e => k <= e) (find_empty bitmap n))).
Proof.
  intros Hn. destruct (filled_count bitmap n Hn) as [Hk HL]. fold k in Hk, HL.
  unfold find_empty, filled_slots in *. rewrite (slots_split _ n k Hk) at 1. rewrite (slots_split (fun o => bitmap o = true) n k Hk) at 1.
  set (E := filter _ (seqZ 0 n)) in *. set (F := filter (fun o => bitmap o = true) (seqZ 0 n)) in *. rewrite reverse_app, plan_app.
  - rewrite (plan_stop k). 2-3: apply Forall_forall; intros x; rewrite ?elem_of_reverse; by intros [? _]%list_elem_of_filter.
    cbn [fst snd]. rewrite app_nil_r. f_equal. apply bool_decide_ext. rewrite <-Forall_filter_nil, <-Exists_filter_nonnil, reverse_nil_iff. tauto.
  - by rewrite length_reverse.
  - intros e f [He _]%list_elem_of_filter [Hf _]%elem_of_reverse%list_elem_of_filter. lia.
Qed.

Lemma sorted_seqZ i n : StronglySorted Z.lt (seqZ i n).
Proof.
  destruct (decide (n <= 0)); [rewrite seqZ_nil by done; constructor|]. rewrite <-(Z2Nat.id n) by lia. generalize (Z.to_nat n) as k. clear. intros k. revert i.
  induction k as [|k IH]; intros i; [constructor|]. rewrite seqZ_cons by lia. replace (Z.pred (Z.of_nat (S k))) with (Z.of_nat k) by lia.
  constructor; [apply IH|]. apply Forall_forall. intros j Hj%elem_of_seqZ. lia.
Qed.

Lemma sorted_reverse l : StronglySorted Z.lt l -> StronglySorted Z.gt (reverse l).
Proof.
  induction 1 as [|x l Hl IH Hx]; [constructor|]. rewrite reverse_cons. apply StronglySorted_app_2; [|exact IH|repeat constructor].
  intros y z Hy ->%list_elem_of_singleton. rewrite elem_of_reverse in Hy. rewrite Forall_forall in Hx. specialize (Hx y Hy). lia.
Qed.

Section one_block.
Context {St : Type} (num_slots : Z) (MoveTuple : TupleSlot -> TupleSlot -> St -> option (bool * St)).

(** Moves one after the other until one fails. *)
Fixpoint run_moves (moves : list (TupleSlot * TupleSlot)) (s : St) : option (bool * St) :=
  match moves with
  | [] => Some (true, s)
  | (from, to) :: moves => '(moved, s) ← MoveTuple from to s; if (moved : bool) then run_moves moves s else Some (false, s)
  end.

Definition in_block (b : Z) (moves : list (Z * Z)) : list (TupleSlot * TupleSlot) := (fun p => (TupleSlot.make b p.1, TupleSlot.make b p.2)) <$> moves.

(** Running a plan, with undefined behaviour at its end or not. *)
Definition run_plan (b : Z) (p : list (Z * Z) * bool) (s : St) : option (bool * St) :=
  '(moved, s) ← run_moves (in_block b p.1) s; if (moved : bool) && p.2 then None else Some (moved, s).

Lemma fill_gaps_plan b (all_blocks : list (Z * list Z)) E0 : aligned b -> all_blocks !! 0%nat = Some (b, E0) -> forall es filled s,
  Forall (fun o => 0 <= o < 2 ^ 20) es -> Forall (fun o => 0 <= o < 2 ^ 20) filled ->
  ('(r, s) ← fill_gaps num_slots MoveTuple all_blocks 0 b es 0 filled s; Some (match r with Some _ => true | None => false end, s)) =
  run_plan b (plan es (reverse filled)) s.
Proof.
  intros Hb H0 es. induction es as [|e es IH]; intros filled s He Hf; [done|]. cbn [fill_gaps].
  apply Forall_cons in He as [He Hes]. destruct filled as [|f filled _] using rev_ind; [done|].
  apply Forall_app in Hf as [Hfs [Hf _]%Forall_cons].
  destruct (filled ++ [f]) as [|x xs] eqn:Ex; [by destruct filled|]. rewrite <-Ex. clear Ex x xs. cbn [mbind option_bind]. rewrite H0. cbn [mbind option_bind].
  rewrite last_snoc. cbn [mbind option_bind]. rewrite length_app, Nat.add_comm. cbn [length Nat.add Nat.pred].
  rewrite take_app_length, reverse_snoc. cbn [plan]. rewrite (proj2 (make_parts b f Hb Hf)), (proj2 (make_parts b e Hb He)). destruct (decide (f < e)) as [Hlt|Hge].
  - by rewrite decide_True.
  - rewrite decide_False by tauto. specialize (IH filled). destruct (plan es (reverse filled)) as [moves undefined]. unfold run_plan in *. cbn [fst snd in_block fmap list_fmap run_moves] in *.
    destruct (MoveTuple _ _ s) as [[[] s']|]; cbn [mbind option_bind]; [|done|done]. by apply IH.
Qed.

Lemma fill_group_plan b bitmap s : aligned b -> 0 <= num_slots <= 2 ^ 20 ->
  fill_group num_slots MoveTuple [(b, find_empty bitmap num_slots)] s = run_plan b (plan (find_empty bitmap num_slots) (reverse (filled_slots bitmap num_slots))) s.
Proof.
  intros Hb Hn. unfold fill_group. cbn [sort_blocks foldr insert_block take_blocks length]. rewrite decide_True by lia.
  assert (forall P `{!forall x : Z, Decision (P x)}, Forall (fun o => 0 <= o < 2 ^ 20) (filter P (seqZ 0 num_slots))) as Hr.
  { intros P ?. apply Forall_forall. intros o [_ Ho%elem_of_seqZ]%list_elem_of_filter. lia. }
  rewrite <-(fill_gaps_plan b [(b, find_empty bitmap num_slots)] (find_empty bitmap num_slots) Hb eq_refl) by apply Hr.
  pose proof (Hr (fun o => bitmap o = false) _) as Hes. fold (find_empty bitmap num_slots) in Hes.
  set (F := filled_slots bitmap num_slots). assert (ComputeFilled num_slots [] (find_empty bitmap num_slots) = F) as EF by (apply ComputeFilled_spec; lia).
  set (E := find_empty bitmap num_slots) in *. set (blocks := [(b, E)]).
  assert (fill_gaps num_slots MoveTuple blocks 0 b E 1 [] s = if decide (E = []) then Some (Some (1%nat, []), s) else fill_gaps num_slots MoveTuple blocks 0 b E 0 F s) as ->.
  { assert (blocks !! 0%nat = Some (b, E)) as H0 by done. clearbody blocks. destruct E as [|e es]; [done|]. rewrite decide_False by done.
    cbn [fill_gaps]. rewrite H0. cbn [mbind option_bind]. rewrite EF. destruct F; cbn [mbind option_bind]; by rewrite ?H0. }
  case_decide as HE; [by rewrite HE|]. destruct (fill_gaps _ _ _ _ _ _ _ _ _) as [[[[giver filled]|] s']|]; done.
Qed.
End one_block.

(** Compacting a block moves its last tuples into its first gaps.  With [k] filled
    slots, [EliminateGaps] runs, in order and until one fails, the moves that take the
    filled slots from [k] on, last first, to the empty slots below [k], first first;
    afterwards the filled slots are exactly the first [k].  When the filled slots are all
    at [k] or behind it and an empty slot at [k] or behind it remains (for instance, a
    block without tuples), the code runs into undefined behaviour after the moves. *)
Theorem block_compaction {St : Type} (num_slots : Z) (MoveTuple : TupleSlot -> TupleSlot -> St -> option (bool * St)) (b : Z) (bitmap : Z -> bool) (s : St) :
  aligned b -> 0 <= num_slots <= 2 ^ 20 ->
  let filled i := 0 <= i < num_slots /\ bitmap i = true in
  let k := Z.of_nat (length (filled_slots bitmap num_slots)) in
  exists froms tos undefined,
    fill_group num_slots MoveTuple [(b, find_empty bitmap num_slots)] s =
      ('(moved, s) ← run_moves MoveTuple (in_block b (zip froms tos)) s; if (moved : bool) && undefined then None else Some (moved, s)) /\
    length froms = length tos /\ StronglySorted Z.gt froms /\ StronglySorted Z.lt tos /\
    (forall i, i ∈ froms -> filled i) /\ (forall i, i ∈ tos -> 0 <= i < num_slots /\ bitmap i = false) /\
    (forall i, filled i /\ i ∉ froms \/ i ∈ tos <-> 0 <= i < k) /\
    (undefined = true <-> (forall i, filled i -> k <= i) /\ exists i, k <= i < num_slots /\ bitmap i = false).
Proof.
  intros Hb Hn filled k. destruct (filled_count bitmap num_slots ltac:(lia)) as [Hk HL]. fold k in Hk, HL.
  assert (forall i, i ∈ filled_slots bitmap num_slots <-> filled i) as HF.
  { intros i. unfold filled_slots. rewrite list_elem_of_filter, elem_of_seqZ. unfold filled. split; intros []; split; done || lia. }
  assert (forall i, i ∈ find_empty bitmap num_slots <-> 0 <= i < num_slots /\ bitmap i = false) as HE.
  { intros i. unfold find_empty. rewrite list_elem_of_filter, elem_of_seqZ. split; intros []; split; done || lia. }
  do 3 eexists. split; [rewrite fill_group_plan, plan_block by (done || lia); reflexivity|]. fold k.
  split; [by rewrite length_reverse|]. split; [|split; [|split; [|split; [|split]]]].
  - apply sorted_reverse, sorted_filter, sorted_filter, sorted_seqZ.
  - apply sorted_filter, sorted_filter, sorted_seqZ.
  - intros i. rewrite elem_of_reverse. intros [_ Hi]%list_elem_of_filter. by apply HF.
  - intros i [_ Hi]%list_elem_of_filter. by apply HE.
  - intros i. rewrite elem_of_reverse, !list_elem_of_filter, HF, HE. unfold filled. destruct (bitmap i); split; [intros [[[? _] ?]|[_ [_ ?]]]; [|done]; lia| |intros [[[_ ?] _]|?]; [done|lia]|].
    + intros ?. left. split; [split; [lia|done]|]. intros [? _]. lia.
    + intros ?. right. split; [lia|]. split; [lia|done].
  - cbn [snd]. rewrite bool_decide_eq_true, Forall_forall, Exists_exists. setoid_rewrite HF. setoid_rewrite HE.
    split; intros [H1 (i & H2)]; (split; [exact H1|]); exists i; [split; [lia|tauto]|split; [split; [lia|tauto]|lia]].
Qed.

(** Four slots, the first and the last of them filled; then only the last. *)
Lemma block_compaction_witness :
  let record from to (s : list (TupleSlot * TupleSlot)) := Some (true, s ++ [(from, to)]) in
  let b := 2 ^ 20 in
  fill_group 4 record [(b, find_empty (fun i => negb (bool_decide (i = 1 \/ i = 2))) 4)] [] = Some (true, [(TupleSlot.make b 3, TupleSlot.make b 1)]) /\
  fill_group 4 record [(b, find_empty (fun i => bool_decide (i = 3)) 4)] [] = None.
Proof.
  intros record b. assert (aligned b) as Hb by (split; [split; reflexivity|reflexivity]).
  split.
  - destruct (block_compaction 4 record b (fun i => negb (bool_decide (i = 1 \/ i = 2))) [] Hb ltac:(lia)) as (froms & tos & ub & E & _). vm_compute. reflexivity.
  - destruct (block_compaction 4 record b (fun i => bool_decide (i = 3)) [] Hb ltac:(lia)) as (froms & tos & ub & E & _ & _ & _ & _ & _ & _ & Hu).
    assert (ub = true) as ->.
    { apply Hu. split; [|exists 1; split; [vm_compute; split; congruence|reflexivity]]. intros i [_ Hi%bool_decide_eq_true]. subst i. vm_compute. congruence. }
    rewrite E. assert (forall ms s, exists s', run_moves record ms s = Some (true, s')) as Hr.
    { induction ms as [|[f t] ms IH]; intros s; [by exists s|]. apply IH. }
    destruct (Hr (in_block b (zip froms tos)) []) as [s' ->]. reflexivity.
Defined.

(** ** The check before freezing *)

Lemma check_slots_true k t n : forall offset r, check_slots k t offset r true = Some n <-> n = r /\ forall i, offset <= i < offset + Z.of_nat k -> allocated_ (t i) = false.
Proof.
  induction k as [|k IH]; intros offset r; cbn [check_slots].
  - split; [intros [= ->]; split; [done|lia]|by intros [-> _]].
  - destruct (allocated_ (t offset)) eqn:Ea; cbn [negb].
    + split; [done|]. intros [_ H]. rewrite H in Ea by lia. done.
    + rewrite IH. split; intros [-> H]; (split; [done|]); intros i Hi; [destruct (decide (i = offset)) as [->|]; [done|]|]; apply H; lia.
Qed.

(** The check succeeds when the allocated slots are the first ones and have no versions. *)
Lemma check_slots_spec k t n : forall offset, check_slots k t offset (offset + Z.of_nat k) false = Some n <->
  offset <= n <= offset + Z.of_nat k /\ forall i, offset <= i < offset + Z.of_nat k -> (allocated_ (t i) = true <-> i < n) /\ (i < n -> version_ptr_ (t i) = None).
Proof.
  induction k as [|k IH]; intros offset; cbn [check_slots].
  - split; [intros [= <-]; split; lia|]. intros [? _]. f_equal. lia.
  - destruct (allocated_ (t offset)) eqn:Ea; cbn [negb].
    + case_decide as Hv.
      * split; [done|]. intros [_ H]. destruct (H offset) as [H1 H2]; [lia|]. destruct Hv. by apply H2, H1.
      * replace (offset + Z.of_nat (S k)) with (offset + 1 + Z.of_nat k) by lia. rewrite IH. split; intros [Hn H].
        -- split; [lia|]. intros i Hi. destruct (decide (i = offset)) as [->|]; [|apply H; lia]. split; [split; [lia|done]|]. intros _. destruct (version_ptr_ (t offset)); [by destruct Hv|done].
        -- split; [|intros i Hi; apply H; lia]. assert (offset < n) by (apply H; [lia|done]). lia.
    + rewrite check_slots_true. split.
      * intros [-> H]. split; [lia|]. intros i Hi. assert (allocated_ (t i) = false) as -> by (destruct (decide (i = offset)) as [->|]; [done|apply H; lia]). split; [split; [done|lia]|lia].
      * intros [Hn H]. assert (n = offset) as ->. { destruct (H offset) as [H1 _]; [lia|]. destruct (decide (offset < n)); [|lia]. rewrite Ea in H1. by apply H1 in l. }
        split; [done|]. intros i Hi. destruct (H i) as [H1 _]; [lia|]. destruct (allocated_ (t i)); [|done]. assert (i < offset) by by apply H1. lia.
Qed.
