(* ===== verification/Compactor.v ===== *)
(** * The block compactor

    [storage/block_compactor.{h,cpp}] on the memory of [DataTable]: the move of a tuple
    inside a transaction ([MoveTuple]), the pass that fills a block's gaps
    ([EliminateGaps]), the pass that gathers its strings into Arrow columns
    ([GatherVarlens]) and the queue ([ProcessCompactionQueue]).  The addresses that the
    undo buffer and [AllocateAligned] hand out are lists in the state.  [None] stands for
    a failed assertion, an exception or undefined behaviour. *)

From S2P Require Import Prelude Layout TupleAccess Varlen Timestamps DataTable TxnManager Arrow BlockAccess Compaction.
Import TransactionUtil BlockLayout Plan.
Abbreviation BlockAccessController := BlockAccessController.BlockAccessController.

(** ** Moving a tuple *)

(** A compaction group's transaction, the memory, and the addresses to come. *)
Record CompactionGroup := Group {
  txn_ : TransactionContext;
  memory_ : memory;
  buffers_ : buffers;
  undo_supply : list Z;
  buffer_supply : list Z
}.

Module MoveTuple.

(** One round of the loop over the variable-length columns: the value is copied. *)
Definition copy_varlen (junk : list Z) (value : option (list Z)) (b : buffers) (supply : list Z) : option (option (list Z) * buffers * list Z) :=
  match value with
  | None => Some (None, b, supply)
  | Some bytes =>
    let entry := entry_of_bytes bytes in
    if decide (Size entry <= InlineThreshold) then Some (Some (bytes_of_entry (CreateInline junk (Content b entry) (Size entry))), b, supply)
    else
      match supply with
      | [] => None
      | copied :: supply =>
        let bytes := StringView b entry in
        Some (Some (bytes_of_entry (Create copied bytes (Size entry) true)), <[copied := bytes]> b, supply)
      end
  end.

Fixpoint copy_varlens (junk : list Z) (varlens : list Z) (delta : row) (b : buffers) (supply : list Z) : option (row * buffers * list Z) :=
  match varlens with
  | [] => Some (delta, b, supply)
  | varlen_col_id :: rest =>
    let offset := Z.to_nat (u16 (varlen_col_id - Z.of_nat NUM_RESERVED_COLUMNS)) in
    '(col_id, value) ← delta !! offset;
    '(value, b, supply) ← copy_varlen junk value b supply;
    copy_varlens junk rest (<[offset := (col_id, value)]> delta) b supply
  end.

(** The redo record's slot stays null. *)
Definition MoveTuple (layout : BlockLayout) (table : Z) (junk : list Z) (from to : TupleSlot) (cg : CompactionGroup) : option (bool * CompactionGroup) :=
  read ← Select (memory_ cg) (txn_ cg) from (AllColumns layout);
  match read with
  | None => Some (false, cg)
  | Some read_buffer =>
    '(delta, b, supply) ← copy_varlens junk (varlens_ layout) read_buffer (buffers_ cg) (buffer_supply cg);
    let txn := StageWrite (TupleSlot.Slot 0) delta (txn_ cg) in
    if allocated_ (tuple_at (memory_ cg) to) then None
    else
      let m := set_tuple to (set_allocated (tuple_at (memory_ cg) to)) (memory_ cg) in
      match undo_supply cg with
      | undo1 :: undo2 :: undos =>
        let '(txn, m) := InsertInto table txn delta to undo1 m in
        '(deleted, txn, m) ← Delete table txn from undo2 m;
        Some (deleted, Group txn m b undos supply)
      | _ => None
      end
  end.

(** [EliminateGaps] for the blocks of a group; the assertion that they are full first. *)
Definition EliminateGaps (layout : BlockLayout) (table : Z) (junk : list Z) (blocks : list Z) (cg : CompactionGroup) : option (bool * CompactionGroup) :=
  if decide (Forall (fun block => GetInsertHead (insert_head_of (memory_ cg) block) = num_slots_ layout) blocks) then
    let bitmap block offset := allocated_ (tuple_at (memory_ cg) (TupleSlot.make block offset)) in
    fill_group (num_slots_ layout) (MoveTuple layout table junk) ((fun block => (block, find_empty (bitmap block) (num_slots_ layout))) <$> blocks) cg
  else None.

End MoveTuple.
Import MoveTuple.

(** ** Reads after a move *)

Lemma tuple_set m slot t s : tuple_at (set_tuple slot t m) s = if decide (s = slot) then t else tuple_at m s.
Proof.
  unfold tuple_at, set_tuple. cbn [tuples]. destruct (decide (s = slot)) as [->|Hs]; [by rewrite lookup_insert_eq|by rewrite lookup_insert_ne].
Qed.

Lemma tuple_set_undos u m s : tuple_at (set_undos u m) s = tuple_at m s.
Proof. done. Qed.

(** A longer walk over more records finds the same. *)
Lemma chase_mono (u u' : gmap Z UndoRecord) start : u ⊆ u' -> forall fuel fuel' p visible out r, (fuel <= fuel')%nat ->
  chase fuel u start p visible out = Some r -> chase fuel' u' start p visible out = Some r.
Proof.
  intros Hu fuel. induction fuel as [|fuel IH]; intros fuel' [p|] visible out r Hf; cbn [chase]; [done|by destruct fuel'| |by destruct fuel'].
  destruct fuel' as [|fuel']; [lia|]. cbn [chase]. destruct (u !! p) as [v|] eqn:E; [|done]. rewrite (lookup_weaken _ _ _ _ E Hu). cbn [mbind option_bind].
  destruct (NewerThan _ _); [|done]. destruct (type_ v); apply IH; lia.
Qed.

(** Without a conflict a transaction reads what is in place. *)
Lemma select_no_conflict m txn slot cols : HasConflictSlot m txn slot = Some false ->
  Select m txn slot cols = Some (if Visible m slot then Some (project cols (attrs_ (tuple_at m slot))) else None).
Proof.
  unfold HasConflictSlot, HasConflict, Select, SelectIntoBuffer, Visible. destruct (allocated_ (tuple_at m slot)) eqn:Ea; cbn [negb]; [|done].
  destruct (AtomicallyReadVersionPtr m slot) as [p|] eqn:Ep; [|done]. destruct (undos m !! p) as [v|] eqn:Ev; cbn [mbind option_bind]; [|done]. intros [= Hc].
  apply orb_false_iff in Hc as [H1 H2]. case_decide as Hd; [done|]. cbn [chase]. rewrite Ev. cbn [mbind option_bind].
  rewrite (bool_decide_eq_false_2 (timestamp_ v = finish_time_ txn) Hd) in H1. cbn in H1. rewrite andb_true_r in H1. apply negb_false_iff in H1. rewrite H1 in H2. cbn in H2.
  by rewrite H2.
Qed.

(** The memory after a move that succeeds, and after one that loses a conflict. *)
Definition inserted_memory (table finish : Z) (to : TupleSlot) (undo : Z) (delta : row) (m : memory) : memory :=
  Memory (<[to := Tuple true true (Some undo) (write_row delta (attrs_ (tuple_at m to)))]> (tuples m)) (<[undo := Undo INSERT None finish (Some table) to []]> (undos m))
    (insert_heads m) (data_tables m) (block_store m).

Definition deleted_memory (table finish : Z) (from : TupleSlot) (undo : Z) (m : memory) : memory :=
  Memory (<[from := Tuple true false (Some undo) (attrs_ (tuple_at m from))]> (tuples m)) (<[undo := Undo DELETE (version_ptr_ (tuple_at m from)) finish (Some table) from []]> (undos m))
    (insert_heads m) (data_tables m) (block_store m).

Definition moved_memory (table finish : Z) (from to : TupleSlot) (undo1 undo2 : Z) (delta : row) (m : memory) : memory :=
  deleted_memory table finish from undo2 (inserted_memory table finish to undo1 delta m).

Lemma reallocate_insert_eq table txn delta to undo m :
  InsertInto table txn delta to undo (set_tuple to (set_allocated (tuple_at m to)) m) = (push_undo undo txn, inserted_memory table (finish_time_ txn) to undo delta m).
Proof.
  unfold InsertInto, UndoRecordForInsert, new_undo, InitializeInsert, inserted_memory, AtomicallyWriteVersionPtr. f_equal.
  repeat (rewrite tuple_set, decide_True by done; cbn [set_version_ptr SetNotNull set_attrs set_undos set_tuple allocated_ present_ version_ptr_ attrs_]).
  unfold set_undos, set_tuple, tuple_at. cbn [tuples undos insert_heads data_tables block_store]. f_equal. rewrite !insert_insert_eq. f_equal. rewrite !lookup_insert_eq. done.
Qed.

Lemma Delete_eq table txn from undo m c : undos m !! undo = None -> HasConflictSlot m txn from = Some c ->
  Delete table txn from undo m = Some (if c || negb (Visible m from) then (false, push_undo undo txn, set_undos (<[undo := Undo DELETE None (finish_time_ txn) None from []]> (undos m)) m)
    else (true, push_undo undo txn, deleted_memory table (finish_time_ txn) from undo m)).
Proof.
  intros Hu Hc. unfold Delete, UndoRecordForDelete, new_undo. set (m1 := set_undos _ m).
  assert (HasConflict m1 (push_undo undo txn) (AtomicallyReadVersionPtr m1 from) = Some c) as ->.
  { revert Hc. unfold HasConflictSlot, HasConflict, AtomicallyReadVersionPtr. unfold m1. rewrite tuple_set_undos. destruct (version_ptr_ (tuple_at m from)) as [p|]; [|done].
    destruct (undos m !! p) as [v|] eqn:E; [|done]. cbn [undos set_undos]. rewrite lookup_insert_ne by (intros <-; congruence). by rewrite E. }
  cbn [mbind option_bind]. change (Visible m1 from) with (Visible m from). destruct (c || negb (Visible m from)) eqn:Eb.
  - do 2 f_equal. unfold m1, alter_undo, set_undos. cbn [tuples undos insert_heads data_tables block_store]. f_equal. by rewrite alter_insert_eq.
  - apply orb_false_iff in Eb as [_ Hv%negb_false_iff%andb_true_iff]. destruct Hv as [Ha _].
    unfold CompareAndSwapVersionPtr, AtomicallyReadVersionPtr, alter_undo, m1. rewrite !tuple_set_undos, decide_True by done. unfold AtomicallyWriteVersionPtr. rewrite !tuple_set_undos, tuple_set, decide_True by done.
    do 2 f_equal. unfold deleted_memory, set_tuple, set_undos. cbn [tuples undos insert_heads data_tables block_store]. f_equal.
    + rewrite insert_insert_eq. f_equal. unfold SetNull, set_version_ptr. cbn. by rewrite Ha.
    + by rewrite alter_insert_eq.
Qed.

Section delete.
Context (table : Z) (txn : TransactionContext) (from to : TupleSlot) (undo1 undo2 : Z) (delta : row) (m : memory).
Context (Hft : from <> to) (H1 : undos m !! undo1 = None) (H2 : undos m !! undo2 = None) (H12 : undo1 <> undo2).
#[local] Abbreviation m1 := (inserted_memory table (finish_time_ txn) to undo1 delta m).

Lemma inserted_from : tuple_at m1 from = tuple_at m from.
Proof. unfold tuple_at, inserted_memory. cbn [tuples]. by rewrite lookup_insert_ne. Qed.

Lemma inserted_undo2 : undos m1 !! undo2 = None.
Proof. unfold inserted_memory. cbn [undos]. by rewrite lookup_insert_ne. Qed.

Lemma conflict_inserted c t' : HasConflictSlot m txn from = Some c -> start_time_ t' = start_time_ txn -> finish_time_ t' = finish_time_ txn -> HasConflictSlot m1 t' from = Some c.
Proof.
  unfold HasConflictSlot, HasConflict, AtomicallyReadVersionPtr. rewrite inserted_from. intros H Hs Hf. destruct (version_ptr_ (tuple_at m from)) as [p|]; [|done].
  destruct (undos m !! p) as [v|] eqn:E; [|done]. unfold inserted_memory. cbn [undos]. rewrite lookup_insert_ne by (intros <-; congruence). rewrite E. cbn [mbind option_bind] in *. by rewrite Hs, Hf.
Qed.

(** The deletion at the end of a move. *)
Lemma delete_inserted (t' := push_undo undo1 txn) c : HasConflictSlot m txn from = Some c ->
  Delete table t' from undo2 m1 = Some (if c || negb (Visible m from) then (false, push_undo undo2 t', set_undos (<[undo2 := Undo DELETE None (finish_time_ txn) None from []]> (undos m1)) m1)
    else (true, push_undo undo2 t', moved_memory table (finish_time_ txn) from to undo1 undo2 delta m)).
Proof.
  intros Hc. rewrite (Delete_eq table t' from undo2 m1 c inserted_undo2) by (by apply conflict_inserted). unfold Visible. by rewrite inserted_from.
Qed.
End delete.

(** ** What others see *)

(** A read goes on as before when undo records are added. *)
Lemma select_mono m m' txn slot cols x : tuple_at m' slot = tuple_at m slot -> undos m ⊆ undos m' -> Select m txn slot cols = Some x -> Select m' txn slot cols = Some x.
Proof.
  intros Ht Hu. unfold Select, SelectIntoBuffer, Visible, AtomicallyReadVersionPtr. rewrite Ht. destruct (allocated_ (tuple_at m slot)); cbn [negb]; [|done].
  destruct (version_ptr_ (tuple_at m slot)) as [p|]; [|done]. destruct (undos m !! p) as [v|] eqn:Ev; [|done]. rewrite (lookup_weaken _ _ _ _ Ev Hu). cbn [mbind option_bind].
  case_decide; [done|]. destruct (chase (S (size (undos m))) _ _ _ _ _) as [[b out]|] eqn:E; [|done].
  assert (S (size (undos m)) <= S (size (undos m')))%nat as Hs by (apply le_n_S, map_subseteq_size, Hu). by rewrite (chase_mono _ _ _ Hu _ _ _ _ _ _ Hs E).
Qed.

(** What a transaction can read, it still reads. *)
Definition sees_as_before (other : TransactionContext) (m m' : memory) : Prop :=
  forall slot cols x, Select m other slot cols = Some x -> Select m' other slot cols = Some x.

(** A transaction other than the compacting one. *)
Definition concurrent (other txn : TransactionContext) : Prop :=
  Committed (finish_time_ other) = false /\ finish_time_ other <> finish_time_ txn /\ start_time_ other < finish_time_ txn.

Lemma inserted_invisible table txn to undo delta m other : allocated_ (tuple_at m to) = false -> undos m !! undo = None -> concurrent other txn ->
  sees_as_before other m (inserted_memory table (finish_time_ txn) to undo delta m).
Proof.
  intros Ha Hu (Ho & Hne & Hst) slot cols x. destruct (decide (slot = to)) as [->|Hs].
  - assert (tuple_at (inserted_memory table (finish_time_ txn) to undo delta m) to = Tuple true true (Some undo) (write_row delta (attrs_ (tuple_at m to)))) as Et.
    { unfold tuple_at, inserted_memory. cbn [tuples]. by rewrite lookup_insert_eq. }
    assert (undos (inserted_memory table (finish_time_ txn) to undo delta m) !! undo = Some (Undo INSERT None (finish_time_ txn) (Some table) to [])) as Eu by apply lookup_insert_eq.
    unfold Select, SelectIntoBuffer, AtomicallyReadVersionPtr. rewrite Ha, Et. cbn [negb allocated_ version_ptr_]. rewrite Eu. cbn [mbind option_bind timestamp_].
    rewrite decide_False by congruence. cbn [chase]. rewrite Eu. cbn [mbind option_bind timestamp_ type_ next_].
    assert (NewerThan (finish_time_ txn) (start_time_ other) = true) as -> by (unfold NewerThan; apply bool_decide_eq_true; lia). destruct (size _); done.
  - apply select_mono; [|by apply insert_subseteq]. unfold tuple_at, inserted_memory. cbn [tuples]. by rewrite lookup_insert_ne.
Qed.

Lemma deleted_invisible table txn from undo m other : undos m !! undo = None -> HasConflictSlot m txn from = Some false -> Visible m from = true -> concurrent other txn ->
  sees_as_before other m (deleted_memory table (finish_time_ txn) from undo m).
Proof.
  intros Hu Hc Hv (Ho & Hne & Hst) slot cols x. set (m' := deleted_memory _ _ _ _ _). assert (undos m ⊆ undos m') as Hsub by (by apply insert_subseteq).
  assert (size (undos m') = S (size (undos m))) as Hsize by (by apply map_size_insert_None).
  destruct (decide (slot = from)) as [->|Hs].
  2: { apply select_mono; [|done]. unfold tuple_at, m', deleted_memory. cbn [tuples]. by rewrite lookup_insert_ne. }
  assert (tuple_at m' from = Tuple true false (Some undo) (attrs_ (tuple_at m from))) as Et by (unfold tuple_at at 1; unfold m', deleted_memory; cbn [tuples]; by rewrite lookup_insert_eq).
  assert (undos m' !! undo = Some (Undo DELETE (version_ptr_ (tuple_at m from)) (finish_time_ txn) (Some table) from [])) as Eu by apply lookup_insert_eq.
  assert (allocated_ (tuple_at m from) = true) as Ha by (by apply andb_true_iff in Hv as [? _]). clearbody m'.
  intros Hsel. unfold Select, SelectIntoBuffer, AtomicallyReadVersionPtr in *. rewrite Et. rewrite Ha, Hv in Hsel. cbn [allocated_ version_ptr_ attrs_ negb] in *.
  rewrite Eu. cbn [mbind option_bind timestamp_]. rewrite decide_False by congruence.
  assert (exists k, size (undos m') = k /\ (S (size (undos m)) <= k)%nat) as (k & -> & Hk) by (eexists; split; [exact Hsize|lia]). cbn [chase]. rewrite Eu.
  cbn [mbind option_bind timestamp_ type_ next_]. assert (NewerThan (finish_time_ txn) (start_time_ other) = true) as -> by (unfold NewerThan; apply bool_decide_eq_true; lia).
  unfold HasConflictSlot, HasConflict, AtomicallyReadVersionPtr in Hc. destruct (version_ptr_ (tuple_at m from)) as [p|]; [|by destruct k].
  destruct (undos m !! p) as [v|] eqn:Ev; [|done]. cbn [mbind option_bind] in Hc, Hsel. injection Hc as Hc. apply orb_false_iff in Hc as [Hc1 Hc2]. rewrite decide_False in Hsel.
  2: { intros E. rewrite E, Ho in Hc1. cbn in Hc1. apply negb_false_iff, bool_decide_eq_true in Hc1. done. }
  destruct (chase (S (size (undos m))) (undos m) _ _ _ _) as [[v0 out]|] eqn:E; [|done]. by rewrite (chase_mono _ _ _ Hsub _ k _ _ _ _ Hk E).
Qed.

(** A move is invisible to others, whether it succeeds or not. *)
Lemma delete_inserted_invisible table txn from to undo1 undo2 delta m c other : from <> to -> undos m !! undo1 = None -> undos m !! undo2 = None -> undo1 <> undo2 ->
  allocated_ (tuple_at m to) = false -> HasConflictSlot m txn from = Some c -> concurrent other txn ->
  exists deleted m', Delete table (push_undo undo1 txn) from undo2 (inserted_memory table (finish_time_ txn) to undo1 delta m) = Some (deleted, push_undo undo2 (push_undo undo1 txn), m') /\
    sees_as_before other m m' /\ dom (undos m') = {[ undo2; undo1 ]} ∪ dom (undos m).
Proof.
  intros Hft H1 H2 H12 Ha Hc Ho. rewrite (delete_inserted table txn from to undo1 undo2 delta m Hft H1 H2 H12 c Hc). set (m1 := inserted_memory _ _ _ _ _ _).
  assert (sees_as_before other m m1) as Hi by (by apply inserted_invisible). assert (undos m1 !! undo2 = None) as H2' by (by apply inserted_undo2).
  destruct (c || negb (Visible m from)) eqn:Eb; do 2 eexists; (split; [reflexivity|]); split.
  - intros slot cols x Hx. eapply select_mono; [..|by apply Hi]; [done|]. by apply insert_subseteq.
  - cbn [undos set_undos]. rewrite dom_insert_L. unfold m1, inserted_memory. cbn [undos]. rewrite dom_insert_L. set_solver.
  - apply orb_false_iff in Eb as [-> Hv%negb_false_iff]. intros slot cols x Hx. apply (deleted_invisible table txn from undo2 m1); [done| | |done|by apply Hi].
    + by apply (conflict_inserted _ _ _ _ _ undo2).
    + unfold Visible in *. unfold m1. by rewrite inserted_from.
  - unfold moved_memory, deleted_memory. cbn [undos]. rewrite dom_insert_L. unfold inserted_memory. cbn [undos]. rewrite dom_insert_L. set_solver.
Qed.

Lemma select_conflict m txn slot cols r : Select m txn slot cols = Some (Some r) -> exists c, HasConflictSlot m txn slot = Some c.
Proof.
  unfold Select, SelectIntoBuffer, HasConflictSlot, HasConflict. destruct (allocated_ _); [|done]. cbn [negb]. destruct (AtomicallyReadVersionPtr m slot) as [p|]; [|by eexists].
  destruct (undos m !! p); [|done]. intros _. by eexists.
Qed.

(** ** The copies *)

Definition value_ok (b : buffers) (v : option (list Z)) : Prop := forall bytes, v = Some bytes -> entry_ok b (entry_of_bytes bytes).

(** The string a variable-length attribute stands for. *)
Definition value_string (b : buffers) (v : option (list Z)) : option (list Z) := (fun bytes => StringView b (entry_of_bytes bytes)) <$> v.

Lemma value_string_mono (b b' : buffers) v : b ⊆ b' -> value_ok b v -> value_string b' v = value_string b v /\ value_ok b' v.
Proof.
  intros Hb Hv. destruct v as [bytes|]; [|done]. specialize (Hv bytes eq_refl). pose proof (length_StringView b _ Hv) as L.
  pose proof (StringView_mono b b' _ Hb L) as E. cbn. rewrite E. split; [done|]. intros ? [= <-]. unfold entry_ok. rewrite <-E in L. unfold StringView in L. rewrite length_take in L.
  pose proof (Size_nonneg (entry_of_bytes bytes)). lia.
Qed.

(** A copy reads as the original, and owns a new buffer or none. *)
Lemma copy_varlen_spec junk v b supply : length junk = 12%nat -> value_ok b v -> supply <> [] -> Forall (is_uint 64) supply -> Forall (fun a => b !! a = None) supply ->
  exists v' b' k, copy_varlen junk v b supply = Some (v', b', drop k supply) /\ (k <= 1)%nat /\ b ⊆ b' /\ (forall a, a ∈ drop k supply -> NoDup supply -> b' !! a = None) /\
    value_string b' v' = value_string b v /\ value_ok b' v' /\ forall bytes, v' = Some bytes -> NeedReclaim (entry_of_bytes bytes) = true -> content_ (entry_of_bytes bytes) ∈ supply.
Proof.
  intros Hj Hv Hs Hu Hf. assert (forall a, a ∈ supply -> b !! a = None) as Hf' by (by apply Forall_forall). destruct v as [bytes|]; cbn [copy_varlen].
  2: { exists None, b, 0%nat. rewrite drop_0. split_and!; try done; [lia|auto]. }
  specialize (Hv bytes eq_refl). set (e := entry_of_bytes bytes) in *. pose proof (length_StringView b e Hv) as L. pose proof (Size_bound e) as Hb.
  destruct (decide (Size e <= InlineThreshold)) as [Hi|Hi].
  - assert (CreateInline junk (Content b e) (Size e) = CreateInline junk (StringView b e) (Z.of_nat (length (StringView b e)))) as ->.
    { rewrite L, Z2Nat.id by lia. unfold CreateInline, StringView. by rewrite take_take, Nat.min_id. }
    destruct (CreateInline_view junk (StringView b e) b Hj) as (HS & HI & HN & HC & HL); [lia|]. set (e' := CreateInline _ _ _) in *.
    assert (entry_of_bytes (bytes_of_entry e') = e') as Er.
    { apply entry_roundtrip; [|by etransitivity; [apply payload_CreateInline|]]. cbn [e' CreateInline size_]. by apply wraps_bound. }
    exists (Some (bytes_of_entry e')), b, 0%nat. rewrite drop_0. split_and!; try done; [lia|auto| |intros ? [= <-]|intros ? [= <-]].
    + cbn. rewrite Er. unfold StringView at 1. rewrite HS, Nat2Z.id, HC. done.
    + rewrite Er. unfold entry_ok. rewrite HS, HL, L. unfold InlineThreshold in Hi. lia.
    + by rewrite Er, HN.
  - destruct supply as [|addr supply]; [done|]. apply Forall_cons in Hu as [Ha Hu]. assert (InlineThreshold < Z.of_nat (length (StringView b e)) < 2 ^ 31) as Hl by lia.
    destruct (Create_view addr (StringView b e) Ha Hl) as (HS & HI & HN & HC & _). rewrite L, Z2Nat.id in HS, HI, HN, HC by lia. set (e' := Create _ _ _ _) in *.
    assert (entry_of_bytes (bytes_of_entry e') = e') as Er.
    { apply entry_roundtrip; [|apply payload_Create; unfold InlineThreshold in Hl; lia]. cbn [e' Create size_]. by apply wraps_bound. }
    assert (Content (<[addr := StringView b e]> b) e' = StringView b e) as Ec by (unfold Content; by rewrite HI, HC, lookup_insert_eq).
    exists (Some (bytes_of_entry e')), (<[addr := StringView b e]> b), 1%nat. cbn [drop].
    split_and!; try done; [apply insert_subseteq, Hf'; left| | |intros ? [= <-]|intros ? [= <-]].
    + intros a Hin [Hn _]%NoDup_cons. rewrite lookup_insert_ne by (intros ->; done). apply Hf'. by right.
    + cbn. rewrite Er. unfold StringView at 1. rewrite Ec, HS. rewrite take_ge by lia. done.
    + rewrite Er. unfold entry_ok. rewrite Ec, HS. lia.
    + rewrite Er, HC. intros _. left.
Qed.

(** A column of a row and its copy, for the variable-length columns [varlens]. *)
Definition copied (varlens supply : list Z) (b b' : buffers) (p q : Z * option (list Z)) : Prop :=
  q.1 = p.1 /\ (p.1 ∉ varlens -> q.2 = p.2) /\
  (p.1 ∈ varlens -> value_string b' q.2 = value_string b p.2 /\ forall bytes, q.2 = Some bytes -> NeedReclaim (entry_of_bytes bytes) = true -> content_ (entry_of_bytes bytes) ∈ supply).

(** The columns of a row are numbered from 1. *)
Definition numbered (delta : row) : Prop := forall i p, delta !! i = Some p -> p.1 = Z.of_nat i + 1.

Lemma copy_varlens_spec junk varlens : length junk = 12%nat -> forall delta b supply, numbered delta -> Forall (fun c => 1 <= c <= Z.of_nat (length delta) /\ c < 2 ^ 16) varlens ->
  (forall p, p ∈ delta -> p.1 ∈ varlens -> value_ok b p.2) -> (length varlens <= length supply)%nat -> Forall (is_uint 64) supply -> NoDup supply -> Forall (fun a => b !! a = None) supply ->
  exists delta' b' supply', copy_varlens junk varlens delta b supply = Some (delta', b', supply') /\ b ⊆ b' /\ Forall2 (copied varlens supply b b') delta delta'.
Proof.
  intros Hj. induction varlens as [|c varlens IH]; intros delta b supply Hn Hc Hok Hl Hu Hnd Hf; cbn [copy_varlens].
  { exists delta, b, supply. split; [done|]. split; [done|]. apply Forall_Forall2_diag, Forall_forall. intros p _. split; [done|]. split; [done|]. by intros ?%elem_of_nil. }
  apply Forall_cons in Hc as [Hc Hcs]. set (off := Z.to_nat (u16 (c - Z.of_nat NUM_RESERVED_COLUMNS))).
  assert (off = Z.to_nat (c - 1)) as Eo. { unfold off. f_equal. change (Z.of_nat NUM_RESERVED_COLUMNS) with 1. apply wrapu_small. unfold is_uint. lia. }
  destruct (delta !! off) as [[col v]|] eqn:Ed; [|apply lookup_ge_None in Ed; lia]. pose proof (Hn _ _ Ed) as Ecol. cbn in Ecol. assert (col = c) as -> by lia. cbn [mbind option_bind].
  assert (value_ok b v) as Hv by (apply (Hok (c, v)); [by eapply list_elem_of_lookup_2|left]).
  destruct (copy_varlen_spec junk v b supply Hj Hv) as (v1 & b1 & k & -> & Hk & Hb1 & Hf1 & Hs1 & Hv1 & Hr1); [intros ->; cbn in Hl; lia|done|done|]. cbn [mbind option_bind].
  destruct (IH (<[off := (c, v1)]> delta) b1 (drop k supply)) as (delta' & b' & supply' & -> & Hb' & HF).
  - intros i p. rewrite list_lookup_insert_Some. intros [(<- & <- & _)|[_ Hp]]; [done|by apply Hn].
  - by rewrite length_insert.
  - intros p [i Hp]%list_elem_of_lookup_1 Hin. rewrite list_lookup_insert_Some in Hp. destruct Hp as [(<- & <- & _)|[_ Hp]]; [done|].
    apply value_string_mono with b; [done|]. apply Hok; [by eapply list_elem_of_lookup_2|by right].
  - rewrite length_drop. cbn in Hl. lia.
  - by apply Forall_drop.
  - by eapply sublist_NoDup, sublist_drop.
  - apply Forall_forall. auto.
  - exists delta', b', supply'. split; [done|]. split; [by trans b1|]. apply Forall2_same_length_lookup_2.
    { rewrite <-(Forall2_length _ _ _ HF). by rewrite length_insert. }
    intros i p q Hp Hq. assert (forall a, a ∈ drop k supply -> a ∈ supply) as Hsub by (intros a [j Hj']%list_elem_of_lookup_1; rewrite lookup_drop in Hj'; by eapply list_elem_of_lookup_2).
    destruct (decide (i = off)) as [->|Hi].
    + rewrite Hp in Ed. injection Ed as ->. destruct (Forall2_lookup_lr _ _ _ _ _ _ HF (list_lookup_insert_eq _ _ _ (lookup_lt_Some _ _ _ Hp)) Hq) as (E1 & E2 & E3).
      cbn [fst snd] in *. split; [done|]. cbn [fst snd]. split; [intros Hnot; destruct Hnot; left|]. intros _.
      destruct (decide (c ∈ varlens)) as [Hin|Hin]; [destruct (E3 Hin) as [E4 E5]; split; [by rewrite E4|eauto]|]. rewrite (E2 Hin). split; [|done].
      rewrite (proj1 (value_string_mono b1 b' v1 Hb' Hv1)). done.
    + assert (<[off := (c, v1)]> delta !! i = Some p) as Hp' by (by rewrite list_lookup_insert_ne).
      destruct (Forall2_lookup_lr _ _ _ _ _ _ HF Hp' Hq) as (E1 & E2 & E3). assert (p.1 <> c) as Hpc by (rewrite (Hn _ _ Hp); lia).
      split; [done|]. split; [intros Hnot; apply E2; intros ?; apply Hnot; by right|]. intros [?|Hin]%elem_of_cons; [done|]. destruct (E3 Hin) as [E4 E5]. split; [|eauto].
      rewrite E4. apply value_string_mono; [done|]. apply Hok; [by eapply list_elem_of_lookup_2|by right].
Qed.

(** A row written to a tuple reads back. *)
Lemma project_write_row (r : row) a : NoDup (r.*1) -> project (r.*1) (write_row r a) = r.
Proof.
  intros Hn. unfold project. rewrite <-list_fmap_compose. etransitivity; [|apply list_fmap_id]. apply list_fmap_ext. intros i [c v] Hp. cbn. f_equal.
  rewrite write_row_lookup. assert (row_value r c = Some v) as ->; [|done]. apply list_elem_of_lookup_2 in Hp. clear -Hn Hp.
  induction r as [|[d w] r IH]; [by apply elem_of_nil in Hp|]. cbn [fmap list_fmap fst row_value snd] in *. apply NoDup_cons in Hn as [Hd Hn]. apply elem_of_cons in Hp as [[= -> ->]|Hp].
  - rewrite (proj2 (row_value_None r d) Hd), decide_True by done. done.
  - by rewrite IH.
Qed.

Lemma ApplyDelta_cols delta : forall buffer : row, (ApplyDelta delta buffer).*1 = buffer.*1.
Proof.
  induction delta as [|[dc dv] ds IH]; intros buffer; [by destruct buffer|]. induction buffer as [|[bc bv] bs IHb]; [done|].
  cbn [ApplyDelta]. destruct (decide (dc = bc)); [cbn; by rewrite IH|]. destruct (decide (dc > bc)); [cbn; f_equal; exact IHb|apply IH].
Qed.

Lemma chase_cols u start : forall fuel p visible out v r, chase fuel u start p visible out = Some (v, r) -> r.*1 = out.*1.
Proof.
  induction fuel as [|fuel IH]; intros [p|] visible out v r; cbn [chase]; [done|by intros [= _ ->]| |by intros [= _ ->]].
  destruct (u !! p) as [rec|]; [|done]. cbn [mbind option_bind]. destruct (NewerThan _ _); [|by intros [= _ ->]].
  destruct (type_ rec); intros H%IH; [by rewrite ApplyDelta_cols in H|done|done].
Qed.

Lemma Select_cols m txn slot cols r : Select m txn slot cols = Some (Some r) -> r.*1 = cols.
Proof.
  unfold Select, SelectIntoBuffer. destruct (allocated_ _); cbn [negb]; [|done].
  destruct (AtomicallyReadVersionPtr m slot) as [p|]; cbn [mbind option_bind].
  - destruct (undos m !! p) as [rec|]; [|done]. cbn [mbind option_bind]. case_decide; cbn [mbind option_bind].
    + destruct (Visible m slot); [|done]. intros [= <-]. apply project_cols.
    + destruct (chase _ _ _ _ _ _) as [[v out]|] eqn:E; [|done]. cbn. destruct v; [|done]. intros [= <-]. by rewrite (chase_cols _ _ _ _ _ _ _ _ E), project_cols.
  - destruct (Visible m slot); [|done]. intros [= <-]. apply project_cols.
Qed.

(** ** The move *)

(** What a move needs: the variable-length columns are columns of the layout, the target
    slot is free, the addresses to come are unused. *)
Record move_ok (layout : BlockLayout) (cg : CompactionGroup) (from to : TupleSlot) : Prop := {
  mo_varlens : Forall (fun c => 1 <= c < Z.of_nat (length (attr_sizes_ layout)) /\ c < 2 ^ 16) (varlens_ layout);
  mo_distinct : from <> to;
  mo_free : allocated_ (tuple_at (memory_ cg) to) = false;
  mo_undos : exists undo1 undo2 rest, undo_supply cg = undo1 :: undo2 :: rest /\ undo1 <> undo2 /\ undos (memory_ cg) !! undo1 = None /\ undos (memory_ cg) !! undo2 = None;
  mo_supply : (length (varlens_ layout) <= length (buffer_supply cg))%nat /\ NoDup (buffer_supply cg);
  mo_fresh : Forall (fun a => is_uint 64 a /\ buffers_ cg !! a = None) (buffer_supply cg)
}.

(** The variable-length values of a row can be read. *)
Definition readable_row (layout : BlockLayout) (b : buffers) (r : row) : Prop := forall p, p ∈ r -> p.1 ∈ varlens_ layout -> value_ok b p.2.

Lemma AllColumns_numbered layout (r : row) : r.*1 = AllColumns layout -> numbered r /\ NoDup (r.*1) /\ Z.of_nat (length r) = Z.max 0 (Z.of_nat (length (attr_sizes_ layout)) - 1).
Proof.
  intros E. split_and!.
  - intros i p Hp. assert (r.*1 !! i = Some p.1) as Hi by (by rewrite list_lookup_fmap, Hp). rewrite E in Hi. unfold AllColumns in Hi. rewrite list_lookup_fmap in Hi.
    destruct (seq _ _ !! i) as [j|] eqn:Ej; [|done]. apply lookup_seq in Ej as [-> _]. injection Hi as <-. unfold NUM_RESERVED_COLUMNS. lia.
  - rewrite E. unfold AllColumns. apply NoDup_fmap; [intros ???; lia|apply NoDup_seq].
  - pose proof (f_equal length E) as L. unfold AllColumns in L. rewrite !length_fmap, length_seq in L. unfold NUM_RESERVED_COLUMNS in L. lia.
Qed.

(** What a move does before it deletes the old tuple. *)
Lemma MoveTuple_eq layout table junk from to cg r : move_ok layout cg from to -> length junk = 12%nat -> Select (memory_ cg) (txn_ cg) from (AllColumns layout) = Some (Some r) ->
  readable_row layout (buffers_ cg) r ->
  exists undo1 undo2 rest delta b' supply', undo1 <> undo2 /\ undos (memory_ cg) !! undo1 = None /\ undos (memory_ cg) !! undo2 = None /\
    buffers_ cg ⊆ b' /\ Forall2 (copied (varlens_ layout) (buffer_supply cg) (buffers_ cg) b') r delta /\
    let txn := StageWrite (TupleSlot.Slot 0) delta (txn_ cg) in
    MoveTuple layout table junk from to cg =
      ('(deleted, txn, m) ← Delete table (push_undo undo1 txn) from undo2 (inserted_memory table (finish_time_ txn) to undo1 delta (memory_ cg)); Some (deleted, Group txn m b' rest supply')).
Proof.
  intros Hok Hj Hs Hr. destruct Hok as [Hv Hd Hf (u1 & u2 & rest & Eu & H12 & H1 & H2) [Hl Hn] Hfr].
  destruct (AllColumns_numbered layout r (Select_cols _ _ _ _ _ Hs)) as (Hnum & _ & Hlen).
  destruct (copy_varlens_spec junk (varlens_ layout) Hj r (buffers_ cg) (buffer_supply cg) Hnum) as (delta & b' & supply' & Ec & Hb & HF); [|done|done| |done| |].
  { eapply Forall_impl; [exact Hv|]. cbn. intros c Hc. lia. }
  { eapply Forall_impl; [exact Hfr|]. by intros a []. }
  { eapply Forall_impl; [exact Hfr|]. by intros a []. }
  exists u1, u2, rest, delta, b', supply'. split_and!; try done. cbv zeta. unfold MoveTuple. rewrite Hs. cbn [mbind option_bind]. rewrite Ec. cbn [mbind option_bind]. rewrite Hf, Eu.
  by rewrite reallocate_insert_eq.
Qed.

Section moved.
Context (table : Z) (txn : TransactionContext) (from to : TupleSlot) (undo1 undo2 : Z) (delta : row) (m : memory) (cols : list Z).
Context (Hft : from <> to) (H1 : undos m !! undo1 = None) (H2 : undos m !! undo2 = None) (H12 : undo1 <> undo2).
#[local] Abbreviation m' := (moved_memory table (finish_time_ txn) from to undo1 undo2 delta m).

Lemma moved_from : tuple_at m' from = Tuple true false (Some undo2) (attrs_ (tuple_at m from)).
Proof. rewrite <-(inserted_from table txn from to undo1 delta m Hft). unfold tuple_at at 1. unfold moved_memory, deleted_memory. cbn [tuples]. by rewrite lookup_insert_eq. Qed.

Lemma moved_to : tuple_at m' to = Tuple true true (Some undo1) (write_row delta (attrs_ (tuple_at m to))).
Proof. unfold tuple_at at 1. unfold moved_memory, deleted_memory, inserted_memory. cbn [tuples]. by rewrite lookup_insert_ne, lookup_insert_eq by done. Qed.

Lemma moved_other s : s <> from -> s <> to -> tuple_at m' s = tuple_at m s.
Proof. intros. unfold tuple_at at 1. unfold moved_memory, deleted_memory, inserted_memory. cbn [tuples]. by rewrite !lookup_insert_ne by done. Qed.

Lemma moved_undo1 : undos m' !! undo1 = Some (Undo INSERT None (finish_time_ txn) (Some table) to []).
Proof. unfold moved_memory, deleted_memory, inserted_memory. cbn [undos]. by rewrite lookup_insert_ne, lookup_insert_eq by done. Qed.

Lemma moved_undo2 : undos m' !! undo2 = Some (Undo DELETE (version_ptr_ (tuple_at m from)) (finish_time_ txn) (Some table) from []).
Proof. rewrite <-(inserted_from table txn from to undo1 delta m Hft). unfold moved_memory, deleted_memory. cbn [undos]. by rewrite lookup_insert_eq. Qed.

Lemma moved_undos : undos m ⊆ undos m' /\ size (undos m') = S (S (size (undos m))).
Proof.
  unfold moved_memory, deleted_memory. cbn [undos]. unfold inserted_memory. cbn [undos]. assert (<[undo1 := Undo INSERT None (finish_time_ txn) (Some table) to []]> (undos m) !! undo2 = None) as H by (by rewrite lookup_insert_ne).
  split; [|by rewrite !map_size_insert_None]. etransitivity; [|by apply insert_subseteq]. by apply insert_subseteq.
Qed.

(** The compacting transaction sees the tuple at its new place only. *)
Lemma moved_own txn' : finish_time_ txn' = finish_time_ txn ->
  Select m' txn' to cols = Some (Some (project cols (write_row delta (attrs_ (tuple_at m to))))) /\ Select m' txn' from cols = Some None.
Proof.
  intros E. unfold Select, SelectIntoBuffer, Visible, AtomicallyReadVersionPtr. rewrite moved_to, moved_from. cbn [allocated_ present_ version_ptr_ attrs_ negb andb].
  rewrite moved_undo1, moved_undo2. cbn [mbind option_bind timestamp_]. rewrite !decide_True by done. done.
Qed.

End moved.

(** Moving a tuple keeps the database's content.  When the compacting transaction reads
    a row and has no conflict on it, [MoveTuple] succeeds: the transaction then reads at
    the new slot a row with the same columns, the same fixed-length values and strings
    with the same characters, each long one in a buffer of its own, and nothing at the
    old slot; every other transaction reads at every slot what it read before, so the
    tuple at the old slot and nothing at the new one; no other tuple and no buffer changes. *)
Theorem move_tuple_moves (layout : BlockLayout) (table : Z) (junk : list Z) (from to : TupleSlot) (cg : CompactionGroup) (r : row) :
  move_ok layout cg from to -> length junk = 12%nat -> Select (memory_ cg) (txn_ cg) from (AllColumns layout) = Some (Some r) ->
  readable_row layout (buffers_ cg) r -> HasConflictSlot (memory_ cg) (txn_ cg) from = Some false ->
  exists cg' r', MoveTuple layout table junk from to cg = Some (true, cg') /\
    Select (memory_ cg') (txn_ cg') to (AllColumns layout) = Some (Some r') /\ Select (memory_ cg') (txn_ cg') from (AllColumns layout) = Some None /\
    Forall2 (copied (varlens_ layout) (buffer_supply cg) (buffers_ cg) (buffers_ cg')) r r' /\ buffers_ cg ⊆ buffers_ cg' /\
    (forall slot, slot <> from -> slot <> to -> tuple_at (memory_ cg') slot = tuple_at (memory_ cg) slot) /\ undos (memory_ cg) ⊆ undos (memory_ cg') /\
    (forall other, concurrent other (txn_ cg) -> sees_as_before other (memory_ cg) (memory_ cg')).
Proof.
  intros Hok Hj Hs Hr Hc. destruct (MoveTuple_eq layout table junk from to cg r Hok Hj Hs Hr) as (u1 & u2 & rest & delta & b' & supply' & H12 & H1 & H2 & Hb & HF & E).
  assert (Visible (memory_ cg) from = true) as Hv. { rewrite (select_no_conflict _ _ _ _ Hc) in Hs. by destruct (Visible (memory_ cg) from). }
  pose proof (mo_distinct _ _ _ _ Hok) as Hft. cbv zeta in E. set (txn := StageWrite _ _ _) in E.
  rewrite (delete_inserted table txn from to u1 u2 delta (memory_ cg) Hft H1 H2 H12 false Hc), Hv in E. cbn [mbind option_bind orb negb] in E.
  exists (Group (push_undo u2 (push_undo u1 txn)) (moved_memory table (finish_time_ txn) from to u1 u2 delta (memory_ cg)) b' rest supply'), delta.
  split; [exact E|]. cbn [memory_ txn_ buffers_]. destruct (AllColumns_numbered layout r (Select_cols _ _ _ _ _ Hs)) as (_ & Hnd & _).
  assert (delta.*1 = AllColumns layout) as Hcols.
  { rewrite <-(Select_cols _ _ _ _ _ Hs). clear -HF. induction HF as [|p q r delta (E & _) _ IH]; [done|]. cbn. by rewrite E, IH. }
  destruct (moved_own table txn from to u1 u2 delta (memory_ cg) (AllColumns layout) Hft H12 (push_undo u2 (push_undo u1 txn)) eq_refl) as [S1 S2].
  rewrite <-Hcols in S1 at 2. rewrite project_write_row in S1 by (rewrite Hcols, <-(Select_cols _ _ _ _ _ Hs); done).
  split_and!; [exact S1|exact S2|done|done| | |].
  - intros slot ? ?. by apply moved_other.
  - by apply moved_undos.
  - intros other Ho. destruct (delete_inserted_invisible table txn from to u1 u2 delta (memory_ cg) false other Hft H1 H2 H12 (mo_free _ _ _ _ Hok) Hc Ho) as (d & m2 & Ed & Hsee & _).
    rewrite (delete_inserted table txn from to u1 u2 delta (memory_ cg) Hft H1 H2 H12 false Hc), Hv in Ed. cbn [orb negb] in Ed. injection Ed as _ <-. exact Hsee.
Qed.

(** ** A failed move *)

Lemma rollback_all_keeps w : forall ps visited txn m txn' m', rollback_all w ps visited txn m = Some (txn', m') ->
  undos m' = undos m /\ data_tables m' = data_tables m /\ last_log_record_ txn' = last_log_record_ txn /\ undo_buffer_ txn' = undo_buffer_ txn.
Proof.
  induction ps as [|p ps IH]; intros visited txn m txn' m'; cbn [rollback_all]; [by intros [= -> ->]|].
  destruct (undos m !! p) as [r|]; [|done]. cbn [mbind option_bind]. case_decide as Hd; [apply IH|].
  destruct (Rollback w txn r m) as [[t1 m1]|] eqn:E; [|done]. cbn [mbind option_bind]. intros H%IH. revert E. unfold Rollback. destruct (table_ r); [|by intros [= <- <-]].
  destruct (layout_of w _); [|done]. cbn [mbind option_bind]. destruct (rollback_chain _ _ _ _ _ _ _) as [[t loose]|]; [|done]. intros [= <- <-]. exact H.
Qed.

Lemma store_timestamps_table t ps u p : table_ <$> (store_timestamps t ps u !! p) = table_ <$> (u !! p).
Proof. rewrite store_timestamps_lookup. case_decide; by destruct (u !! p). Qed.

(** C39: a failed move cannot be rolled back.  When the compacting transaction reads a tuple
    that another transaction has changed meanwhile, [MoveTuple] reports the failure, and
    the abort that [ProcessCompactionQueue] then makes dereferences the null slot of the
    staged redo record: there is no block at address 0. *)
Theorem failed_move_crashes (layout : BlockLayout) (table : Z) (junk : list Z) (from to : TupleSlot) (cg : CompactionGroup) (r : row) :
  move_ok layout cg from to -> length junk = 12%nat -> Select (memory_ cg) (txn_ cg) from (AllColumns layout) = Some (Some r) ->
  readable_row layout (buffers_ cg) r -> HasConflictSlot (memory_ cg) (txn_ cg) from = Some true -> data_tables (memory_ cg) !! 0 = None ->
  exists cg', MoveTuple layout table junk from to cg = Some (false, cg') /\ forall gc_enabled log_enabled w, mem w = memory_ cg' -> Abort gc_enabled log_enabled (txn_ cg') w = None.
Proof.
  intros Hok Hj Hs Hr Hc H0. destruct (MoveTuple_eq layout table junk from to cg r Hok Hj Hs Hr) as (u1 & u2 & rest & delta & b' & supply' & H12 & H1 & H2 & Hb & HF & E).
  pose proof (mo_distinct _ _ _ _ Hok) as Hft. cbv zeta in E. set (txn := StageWrite _ _ _) in E.
  rewrite (delete_inserted table txn from to u1 u2 delta (memory_ cg) Hft H1 H2 H12 true Hc) in E. cbn [mbind option_bind orb] in E. set (m2 := set_undos _ _) in E.
  assert (undos m2 !! u2 = Some (Undo DELETE None (finish_time_ txn) None from [])) as Hu2 by apply lookup_insert_eq. assert (data_tables m2 = data_tables (memory_ cg)) as Hdt by done.
  eexists. split; [exact E|]. intros gc log w Hw. cbn [txn_ memory_] in *. unfold Abort.
  destruct (rollback_all w _ ∅ _ _) as [[txn' m']|] eqn:Er; [|done]. cbn [mbind option_bind]. apply rollback_all_keeps in Er as (Eu & Edt & El & Eb). rewrite Hw in Eu, Edt.
  destruct (TimestampManager.CheckOutTimestamp (tm w)) as [abort_time tm'].
  assert (GCLastUpdateOnAbort w (set_aborted (set_finish_time abort_time txn')) (set_undos (store_timestamps abort_time (undo_buffer_ txn') (undos m')) m') = None) as ->; [|done].
  unfold GCLastUpdateOnAbort. cbn [last_log_record_ undo_buffer_ set_aborted set_finish_time]. rewrite El, Eb. cbn [last_log_record_ undo_buffer_ push_undo clear_abort_actions txn StageWrite set_last_log_record].
  rewrite last_snoc. cbn [mbind option_bind]. pose proof (store_timestamps_table abort_time (undo_buffer_ txn') (undos m') u2) as Ht. rewrite Eu, Hu2 in Ht.
  cbn [undos set_undos]. rewrite Eb, Eu in *. cbn [undo_buffer_ push_undo clear_abort_actions txn StageWrite set_last_log_record] in Ht.
  destruct (store_timestamps _ _ _ !! u2) as [rec|]; [|done]. cbn in Ht. injection Ht as Ht. cbn [mbind option_bind]. rewrite Ht. cbn [data_tables set_undos]. change (TupleSlot.GetBlock (TupleSlot.Slot 0)) with 0. by rewrite Edt, Hdt, H0.
Qed.

(** A table with a string and an integer column; a tuple in slot 3 of its block. *)
Definition demo_layout : BlockLayout := BlockLayout.make [8; 32784; 4].
Definition demo_block : Z := 2 ^ 20.
Definition demo_from : TupleSlot := TupleSlot.make demo_block 3.
Definition demo_to : TupleSlot := TupleSlot.make demo_block 1.
Definition demo_row : attributes := {[ 1 := bytes_of_entry (Create 64 (seqZ 97 14) 14 true); 2 := [1; 2; 3; 4] ]}.

(** The group of transaction 5, with the tuple's version pointer and the undo records. *)
Definition demo_group (version : option Z) (u : gmap Z UndoRecord) : CompactionGroup :=
  Group (new_txn 5 (2 ^ 63 + 5)) (Memory {[ demo_from := Tuple true true version demo_row ]} u {[ demo_block := num_slots_ demo_layout ]} {[ demo_block := 1 ]} [])
    {[ 64 := seqZ 97 14 ]} [100; 101] [4096].

(** Another transaction has changed the integer. *)
Definition demo_conflict : CompactionGroup :=
  demo_group (Some 7) {[ 7 := Undo UPDATE None (2 ^ 63 + 3) (Some 1) demo_from [(2, Some [9; 9; 9; 9])] ]}.

Lemma demo_ok version u : u !! 100 = None -> u !! 101 = None -> move_ok demo_layout (demo_group version u) demo_from demo_to.
Proof.
  intros H0 H1. split.
  - vm_compute. repeat constructor; congruence.
  - vm_compute. congruence.
  - vm_compute. reflexivity.
  - exists 100, 101, []. split; [done|]. split; [lia|]. by split.
  - split; [vm_compute; lia|]. repeat constructor. set_solver.
  - repeat constructor; vm_compute; congruence.
Qed.

Lemma demo_readable (i : list Z) : readable_row demo_layout {[ 64 := seqZ 97 14 ]} [(1, Some (bytes_of_entry (Create 64 (seqZ 97 14) 14 true))); (2, Some i)].
Proof.
  assert (varlens_ demo_layout = [1]) as E by (vm_compute; reflexivity). intros p Hp Hin. rewrite E in Hin. apply list_elem_of_singleton in Hin.
  apply elem_of_cons in Hp as [->|Hp]; [|apply list_elem_of_singleton in Hp; subst p; cbn in Hin; lia]. intros bytes [= <-]. vm_compute. congruence.
Qed.

Lemma move_tuple_moves_witness : exists cg' r', MoveTuple demo_layout 1 (replicate 12 0) demo_from demo_to (demo_group None ∅) = Some (true, cg') /\
  Select (memory_ cg') (txn_ cg') demo_to [1; 2] = Some (Some r') /\ (forall p, r' !! 0%nat = Some p -> value_string (buffers_ cg') p.2 = Some (seqZ 97 14)).
Proof.
  destruct (move_tuple_moves demo_layout 1 (replicate 12 0) demo_from demo_to (demo_group None ∅) [(1, Some (bytes_of_entry (Create 64 (seqZ 97 14) 14 true))); (2, Some [1; 2; 3; 4])])
    as (cg' & r' & E & S1 & _ & HF & _); [by apply demo_ok|reflexivity|vm_compute; reflexivity|apply demo_readable|vm_compute; reflexivity|].
  exists cg', r'. split; [exact E|]. split; [exact S1|]. intros p Hp.
  destruct (Forall2_lookup_lr _ _ _ 0%nat _ _ HF eq_refl Hp) as (_ & _ & H). destruct H as [H _]; [vm_compute; left|]. rewrite H. vm_compute. reflexivity.
Defined.

Lemma failed_move_crashes_witness : exists cg', MoveTuple demo_layout 1 (replicate 12 0) demo_from demo_to demo_conflict = Some (false, cg') /\
  forall w, mem w = memory_ cg' -> Abort true true (txn_ cg') w = None.
Proof.
  destruct (failed_move_crashes demo_layout 1 (replicate 12 0) demo_from demo_to demo_conflict [(1, Some (bytes_of_entry (Create 64 (seqZ 97 14) 14 true))); (2, Some [9; 9; 9; 9])])
    as (cg' & E & H); [by apply demo_ok|reflexivity|vm_compute; reflexivity|apply demo_readable|vm_compute; reflexivity|vm_compute; reflexivity|].
  exists cg'. split; [exact E|]. intros w Hw. exact (H true true w Hw).
Defined.

(** ** Compaction and other transactions *)

(** A property that moves keep is kept by the whole pass. *)
Lemma fill_group_keeps {St} n (move : TupleSlot -> TupleSlot -> St -> option (bool * St)) (P : St -> Prop) :
  (forall from to s ok s', P s -> move from to s = Some (ok, s') -> P s') -> forall blocks s ok s', P s -> fill_group n move blocks s = Some (ok, s') -> P s'.
Proof.
  intros Hm. assert (forall all taker b es giver filled s r s', P s -> fill_gaps n move all taker b es giver filled s = Some (r, s') -> P s') as Hg.
  { intros all taker b es. induction es as [|e es IH]; intros giver filled s r s' Hs; cbn [fill_gaps]; [by intros [= _ <-]|].
    destruct (match filled with [] => _ | _ => _ end) as [[g f]|]; [|done]. cbn [mbind option_bind]. destruct (all !! g) as [[fb x]|]; [|done]. cbn [mbind option_bind].
    destruct (last f) as [fo|]; [|done]. cbn [mbind option_bind]. case_decide; [by intros [= _ <-]|].
    destruct (move _ _ s) as [[ok s1]|] eqn:E; [|done]. cbn [mbind option_bind]. pose proof (Hm _ _ _ _ _ Hs E) as H1. destruct ok; [by apply IH|by intros [= _ <-]]. }
  assert (forall all takers taker giver filled s ok s', P s -> take_blocks n move all takers taker giver filled s = Some (ok, s') -> P s') as Ht.
  { intros all takers. induction takers as [|[b es] takers IH]; intros taker giver filled s ok s' Hs; cbn [take_blocks]; [by intros [= _ <-]|].
    case_decide; [|by intros [= _ <-]]. destruct (fill_gaps _ _ _ _ _ _ _ _ s) as [[r s1]|] eqn:E; [|done]. cbn [mbind option_bind]. pose proof (Hg _ _ _ _ _ _ _ _ _ Hs E) as H1.
    destruct r as [[g f]|]; [by apply IH|by intros [= _ <-]]. }
  intros blocks s ok s' Hs. apply Ht, Hs.
Qed.


(** Unused addresses for undo records. *)
Definition undo_supply_ok (cg : CompactionGroup) : Prop := NoDup (undo_supply cg) /\ Forall (fun u => undos (memory_ cg) !! u = None) (undo_supply cg).

(** The group's state later in the same compaction. *)
Definition later (other : TransactionContext) (cg cg' : CompactionGroup) : Prop :=
  undo_supply_ok cg' /\ finish_time_ (txn_ cg') = finish_time_ (txn_ cg) /\ sees_as_before other (memory_ cg) (memory_ cg').

Lemma move_later layout table junk from to other cg0 cg ok cg' : concurrent other (txn_ cg0) -> later other cg0 cg -> MoveTuple layout table junk from to cg = Some (ok, cg') -> later other cg0 cg'.
Proof.
  intros Hco ([Hnd Hfr] & Hft & Hsee) HM. unfold MoveTuple in HM. destruct (Select _ _ from _) as [[r|]|] eqn:Es; [| |done]; cbn [mbind option_bind] in HM; [|by injection HM as _ <-].
  destruct (copy_varlens _ _ _ _ _) as [[[delta b] supply]|]; [|done]. cbn [mbind option_bind] in HM. destruct (allocated_ (tuple_at (memory_ cg) to)) eqn:Ea; [done|].
  destruct (undo_supply cg) as [|u1 [|u2 us]] eqn:Eu; [done..|]. rewrite reallocate_insert_eq in HM. set (txn := StageWrite _ _ _) in HM.
  apply NoDup_cons in Hnd as [Hn1 Hnd]. apply NoDup_cons in Hnd as [Hn2 Hnd]. apply Forall_cons in Hfr as [H1 Hfr]. apply Forall_cons in Hfr as [H2 Hfr].
  destruct (select_conflict _ _ _ _ _ Es) as [c Hc].
  assert (from <> to) as Hne by (intros ->; unfold Select, SelectIntoBuffer in Es; rewrite Ea in Es; done).
  destruct (delete_inserted_invisible table txn from to u1 u2 delta (memory_ cg) c other Hne H1 H2) as (deleted & m' & Ed & Hsee' & Hdom); [set_solver|done|done| |].
  { unfold concurrent in *. cbn [txn StageWrite set_last_log_record finish_time_]. by rewrite Hft. }
  rewrite Ed in HM. cbn [mbind option_bind] in HM. injection HM as _ <-. split; [|split; [done|]]; cbn [undo_supply memory_].
  - split; [done|]. rewrite Forall_forall in Hfr. apply Forall_forall. intros u Hin. apply (not_elem_of_dom (D := gset Z)). cbn [undos memory_]. rewrite Hdom. specialize (Hfr u Hin). apply (not_elem_of_dom (D := gset Z)) in Hfr. set_solver.
  - intros slot cols x Hx. by apply Hsee', Hsee.
Qed.

(** C30: compaction is invisible to other transactions.  Whatever blocks [EliminateGaps]
    compacts together, and whether it succeeds or stops at a conflict, a transaction
    that runs at the same time reads at every slot what it read before. *)
Theorem compaction_invisible (layout : BlockLayout) (table : Z) (junk : list Z) (blocks : list Z) (cg cg' : CompactionGroup) (ok : bool) (other : TransactionContext) :
  undo_supply_ok cg -> concurrent other (txn_ cg) -> EliminateGaps layout table junk blocks cg = Some (ok, cg') ->
  forall slot cols x, Select (memory_ cg) other slot cols = Some x -> Select (memory_ cg') other slot cols = Some x.
Proof.
  intros Hu Hco. unfold EliminateGaps. case_decide; [|done]. intros HE.
  assert (later other cg cg') as (_ & _ & Hsee); [|exact Hsee].
  refine (fill_group_keeps _ _ (later other cg) _ _ _ _ _ _ HE); [|split; [done|split; [done|by intros slot cols x]]].
  intros from to s ok' s' Hs HM. by eapply move_later.
Qed.

(** The same columns in a block of four slots, full, with tuples in slots 0 and 3. *)
Definition small_layout : BlockLayout := BlockLayout.mk [8; 32784; 4] [1] 28 192 4 200.
Definition small_group : CompactionGroup :=
  Group (new_txn 5 (2 ^ 63 + 5))
    (Memory {[ demo_from := Tuple true true None demo_row; TupleSlot.make demo_block 0 := Tuple true true None demo_row ]} ∅ {[ demo_block := 4 ]} {[ demo_block := 1 ]} [])
    {[ 64 := seqZ 97 14 ]} [100; 101] [4096].

Lemma compaction_invisible_witness : exists cg', EliminateGaps small_layout 1 (replicate 12 0) [demo_block] small_group = Some (true, cg') /\
  Select (memory_ cg') (new_txn 6 (2 ^ 63 + 6)) demo_from [2] = Some (Some [(2, Some [1; 2; 3; 4])]) /\ Select (memory_ cg') (new_txn 6 (2 ^ 63 + 6)) demo_to [2] = Some None.
Proof.
  assert (exists cg', EliminateGaps small_layout 1 (replicate 12 0) [demo_block] small_group = Some (true, cg')) as [cg' E] by (eexists; vm_compute; reflexivity).
  exists cg'. split; [exact E|].
  assert (forall slot cols x, Select (memory_ small_group) (new_txn 6 (2 ^ 63 + 6)) slot cols = Some x -> Select (memory_ cg') (new_txn 6 (2 ^ 63 + 6)) slot cols = Some x) as H.
  { apply (compaction_invisible small_layout 1 (replicate 12 0) [demo_block] small_group cg' true (new_txn 6 (2 ^ 63 + 6))); [|vm_compute; split; [reflexivity|split; [congruence|reflexivity]]|exact E].
    split; cbn [undo_supply small_group]; [apply NoDup_cons; split; [by intros ?%list_elem_of_singleton|apply NoDup_singleton]|].
    apply Forall_cons. split; [vm_compute; reflexivity|]. apply Forall_cons. split; [vm_compute; reflexivity|constructor]. }
  split; apply H; vm_compute; reflexivity.
Defined.
