(* ===== verification/Freeze.v ===== *)
(** * Freezing a block

    The second half of [storage/block_compactor.cpp]: [GatherVarlens], which rewrites the
    variable-length columns of a cooling block into Arrow columns, and
    [ProcessCompactionQueue], which takes each queued block one step from hot over cooling
    to frozen; and the Arrow metadata of a block (storage/arrow_block_metadata.h).

    Gathering leaves the content of every tuple as it is, but deletes the Arrow storage of
    an earlier freeze at once ([refreeze_deletes_storage]).  A cooling block that still has
    a version or a gap keeps the loop over the queue running for ever. *)

From S2P Require Import Prelude Layout TupleAccess Varlen Timestamps DataTable TxnManager Arrow BlockAccess Compaction Compactor.
Import TransactionUtil BlockLayout Plan MoveTuple BlockCompactor.

(** ** Arrow metadata of a block *)

Inductive ArrowColumnType := FIXED_LENGTH | GATHERED_VARLEN | DICTIONARY_COMPRESSED.

Record ArrowColumnInfo := ColumnInfo { column_type_ : ArrowColumnType; varlen_column_ : ArrowVarlenColumn; indices_ : list (option Z) }.

(** What the zeroed memory of [Initialize] stands for. *)
Definition zero_column : ArrowColumnInfo := ColumnInfo FIXED_LENGTH (ArrowVarlen 0 0 0 [] []) [].

Record ArrowBlockMetadata := Metadata { num_records_ : Z; null_counts_ : gmap Z Z; column_infos_ : gmap Z ArrowColumnInfo }.

Definition Initialize_metadata : ArrowBlockMetadata := Metadata 0 ∅ ∅.
Definition NullCount (md : ArrowBlockMetadata) (col_id : Z) : Z := default 0 (null_counts_ md !! col_id).
Definition GetColumnInfo (md : ArrowBlockMetadata) (col_id : Z) : ArrowColumnInfo := default zero_column (column_infos_ md !! col_id).

(** [delete[]] of a column's values when another is moved into its place. *)
Definition free_values (c : ArrowVarlenColumn) (b : buffers) : buffers :=
  if decide (values_addr_ c = 0) then b else foldr delete b ((fun i => values_addr_ c + i) <$> seqZ 0 (Z.of_nat (length (values_ c)))).

Module GatherVarlens.

Record gathering := Gathering { g_memory : memory; g_metadata : ArrowBlockMetadata; g_buffers : buffers; g_loose : list Z; g_supply : list Z }.

(** The null bit and the entry of every record. *)
Definition read_column (m : memory) (block col_id num_records : Z) : column :=
  (fun i => let value := attrs_ (tuple_at m (TupleSlot.make block i)) !! col_id in (bool_decide (is_Some value), entry_of_bytes (default [] value))) <$> seqZ 0 num_records.

(** The entries that are assigned: the long ones. *)
Fixpoint write_column (block col_id i : Z) (col : column) (m : memory) : memory :=
  match col with
  | [] => m
  | (bit, entry) :: rest =>
    let slot := TupleSlot.make block i in
    let t := tuple_at m slot in
    write_column block col_id (i + 1) rest
      (if (bit : bool) && bool_decide (InlineThreshold < Size entry) then set_tuple slot (set_attrs (<[col_id := bytes_of_entry entry]> (attrs_ t)) t) m else m)
  end.

(** The loop over the records of a fixed-length column. *)
Definition count_nulls (col : column) : Z := foldl (fun n r => if (r.1 : bool) then n else u32 (n + 1)) 0 col.

(** One column; [None] for the exception on an unexpected column type. *)
Definition gather_column (layout : BlockLayout) (block : Z) (junk : list Z) (col_id : Z) (g : gathering) : option gathering :=
  let md := g_metadata g in
  let values := read_column (g_memory g) block col_id (num_records_ md) in
  if negb (IsVarlen layout col_id) then
    Some (Gathering (g_memory g) (Metadata (num_records_ md) (<[col_id := count_nulls values]> (null_counts_ md)) (column_infos_ md)) (g_buffers g) (g_loose g) (g_supply g))
  else
    let info := GetColumnInfo md col_id in
    match column_type_ info, g_supply g with
    | GATHERED_VARLEN, addr :: supply =>
      let '(nulls, new_col, values, loose_ptrs, b) := CopyToArrowVarlen addr junk (g_buffers g) (NullCount md col_id) values in
      Some (Gathering (write_column block col_id 0 values (g_memory g))
        (Metadata (num_records_ md) (<[col_id := nulls]> (null_counts_ md)) (<[col_id := ColumnInfo GATHERED_VARLEN new_col (indices_ info)]> (column_infos_ md)))
        (free_values (varlen_column_ info) b) (g_loose g ++ loose_ptrs) supply)
    | DICTIONARY_COMPRESSED, addr :: supply =>
      '(nulls, new_col, indices, values, loose_ptrs, b) ← BuildDictionary addr junk (g_buffers g) (NullCount md col_id) values;
      Some (Gathering (write_column block col_id 0 values (g_memory g))
        (Metadata (num_records_ md) (<[col_id := nulls]> (null_counts_ md)) (<[col_id := ColumnInfo DICTIONARY_COMPRESSED new_col indices]> (column_infos_ md)))
        (free_values (varlen_column_ info) b) (g_loose g ++ loose_ptrs) supply)
    | _, _ => None
    end.

Fixpoint gather_columns (layout : BlockLayout) (block : Z) (junk : list Z) (cols : list Z) (g : gathering) : option gathering :=
  match cols with
  | [] => Some g
  | col_id :: rest => g ← gather_column layout block junk col_id g; gather_columns layout block junk rest g
  end.

Definition GatherVarlens (layout : BlockLayout) (block : Z) (junk : list Z) (g : gathering) : option gathering :=
  gather_columns layout block junk (AllColumns layout) g.

End GatherVarlens.
Import GatherVarlens.

(** ** The queue *)

Module Queue.

(** What is registered with the deferred action manager. *)
Inductive deferred := PutInQueue (block : Z) | FreePointers (ptrs : list Z).

Record compactor := Compactor {
  world_ : world;
  controllers_ : gmap Z BlockAccessController;
  metadata_ : gmap Z ArrowBlockMetadata;
  store_ : buffers;
  undo_addresses : list Z;
  buffer_addresses : list Z;
  deferred_ : list deferred
}.

Section queue.
Context (gc_enabled log_enabled : bool) (junk : list Z).

Definition controller_of (s : compactor) (block : Z) : BlockAccessController := default BlockAccessController.Initialize (controllers_ s !! block).

(** A hot block: fill its gaps in a transaction of its own. *)
Definition process_hot (block : Z) (s : compactor) : option compactor :=
  let '(id, w) := BeginTransaction (world_ s) in
  txn ← txns w !! id;
  table ← data_tables (mem w) !! block;
  layout ← layout_of w table;
  '(compacted, cg) ← EliminateGaps layout table junk [block] (Group txn (mem w) (store_ s) (undo_addresses s) (buffer_addresses s));
  let w := set_mem (memory_ cg) w in
  if (compacted : bool) then
    let controllers := <[block := BlockAccessController.set_state COOLING (controller_of s block)]> (controllers_ s) in
    let '(_, _, w) := Commit gc_enabled log_enabled (txn_ cg) w in
    Some (Compactor w controllers (metadata_ s) (buffers_ cg) (undo_supply cg) (buffer_supply cg) (deferred_ s ++ if IsReadOnly (txn_ cg) then [PutInQueue block] else []))
  else
    '(_, _, w) ← Abort gc_enabled log_enabled (txn_ cg) w;
    Some (Compactor w (controllers_ s) (metadata_ s) (buffers_ cg) (undo_supply cg) (buffer_supply cg) (deferred_ s)).

(** A cooling block: freeze it, if nobody has touched it; whether it is popped. *)
Definition process_cooling (block : Z) (s : compactor) : option (bool * compactor) :=
  table ← data_tables (mem (world_ s)) !! block;
  layout ← layout_of (world_ s) table;
  let md := default Initialize_metadata (metadata_ s !! block) in
  let '(ok, c, n) := CheckForVersionsAndGaps (num_slots_ layout) (fun i => tuple_at (mem (world_ s)) (TupleSlot.make block i)) (controller_of s block) (num_records_ md) in
  if negb ok then Some (false, s)
  else
    g ← GatherVarlens layout block junk (Gathering (mem (world_ s)) (Metadata n (null_counts_ md) (column_infos_ md)) (store_ s) [] (buffer_addresses s));
    Some (true, Compactor (set_mem (g_memory g) (world_ s)) (<[block := BlockAccessController.set_state FROZEN c]> (controllers_ s)) (<[block := g_metadata g]> (metadata_ s))
      (g_buffers g) (undo_addresses s) (g_supply g) (deferred_ s ++ [FreePointers (g_loose g)])).

(** One round of the loop: whether the block is popped; [None] on an exception. *)
Definition process_block (block : Z) (s : compactor) : option (bool * compactor) :=
  match BlockAccessController.state_ (controller_of s block) with
  | HOT => s ← process_hot block s; Some (true, s)
  | COOLING => process_cooling block s
  | FROZEN => Some (true, s)
  | FREEZING => None
  end.

(** [ProcessCompactionQueue], at most [fuel] rounds: [Some None] when they do not suffice. *)
Fixpoint ProcessCompactionQueue (fuel : nat) (to_process : list Z) (s : compactor) : option (option compactor) :=
  match to_process with
  | [] => Some (Some s)
  | block :: rest =>
    match fuel with
    | O => Some None
    | S fuel =>
      '(popped, s) ← process_block block s;
      ProcessCompactionQueue fuel (if (popped : bool) then rest else to_process) s
    end
  end.

End queue.
End Queue.
Import Queue.

(** ** Storage of columns *)

(** [a] is an address of the column's values. *)
Definition in_storage (c : ArrowVarlenColumn) (a : Z) : Prop := values_addr_ c <> 0 /\ values_addr_ c <= a < values_addr_ c + Z.of_nat (length (values_ c)).

#[export] Instance in_storage_dec c a : Decision (in_storage c a).
Proof. unfold in_storage. apply _. Defined.

Lemma delete_range (b : buffers) a0 a : forall k i, foldr delete b ((fun i => a0 + i) <$> seqZ i (Z.of_nat k)) !! a = if decide (a0 + i <= a < a0 + i + Z.of_nat k) then None else b !! a.
Proof.
  induction k as [|k IH]; intros i; [by rewrite decide_False by lia|]. rewrite seqZ_cons by lia. replace (Z.pred (Z.of_nat (S k))) with (Z.of_nat k) by lia. cbn [fmap list_fmap foldr].
  destruct (decide (a = a0 + i)) as [->|Hne]; [by rewrite lookup_delete_eq, decide_True by lia|]. rewrite lookup_delete_ne by done. rewrite IH. repeat case_decide; try done; lia.
Qed.

Lemma free_values_lookup c b a : free_values c b !! a = if decide (in_storage c a) then None else b !! a.
Proof.
  unfold free_values. case_decide as H0; [rewrite decide_False; [done|intros [? _]; done]|]. rewrite delete_range, !Z.add_0_r.
  case_decide as H1; case_decide as H2; try done; [exfalso; by apply H2|exfalso; by apply H1, H2].
Qed.

(** A value that is a long string at [a]. *)
Definition points (v : option (list Z)) (a : Z) : Prop := exists bytes, v = Some bytes /\ InlineThreshold < Size (entry_of_bytes bytes) /\ content_ (entry_of_bytes bytes) = a.

Lemma StringView_local (b b' : buffers) e : (InlineThreshold < Size e -> b' !! content_ e = b !! content_ e) -> Content b' e = Content b e.
Proof. intros H. unfold Content. destruct (IsInlined e) eqn:E; [done|]. apply bool_decide_eq_false in E. by rewrite H by lia. Qed.

(** A value depends on nothing but the buffer it points to. *)
Lemma value_string_local (b b' : buffers) v : (forall a, points v a -> b' !! a = b !! a) -> value_ok b v -> value_string b' v = value_string b v /\ value_ok b' v.
Proof.
  intros H Hv. destruct v as [bytes|]; [|done]. assert (Content b' (entry_of_bytes bytes) = Content b (entry_of_bytes bytes)) as E.
  { apply StringView_local. intros Hl. apply H. by exists bytes. }
  cbn. unfold StringView. rewrite E. split; [done|]. intros ? [= <-]. specialize (Hv bytes eq_refl). unfold entry_ok in *. by rewrite E.
Qed.

(** ** Gathering a column *)

Section block.
Context (block n : Z) (Hb : aligned block) (Hn : 0 <= n <= 2 ^ 20).
#[local] Abbreviation slot i := (TupleSlot.make block i).

Lemma slot_inj i j : 0 <= i < 2 ^ 20 -> 0 <= j < 2 ^ 20 -> slot i = slot j -> i = j.
Proof. intros Hi Hj E. destruct (make_parts block i Hb Hi) as [_ <-], (make_parts block j Hb Hj) as [_ <-]. by rewrite E. Qed.

(** An entry assigned to a tuple. *)
Definition assign_entry (c : Z) (r : bool * VarlenEntry) (t : tuple) : tuple :=
  if (r.1 : bool) && bool_decide (InlineThreshold < Size r.2) then set_attrs (<[c := bytes_of_entry r.2]> (attrs_ t)) t else t.

Lemma write_column_spec c col : forall i m, 0 <= i -> i + Z.of_nat (length col) <= 2 ^ 20 ->
  (forall j r, col !! j = Some r -> tuple_at (write_column block c i col m) (slot (i + Z.of_nat j)) = assign_entry c r (tuple_at m (slot (i + Z.of_nat j)))) /\
  (forall s, (forall j, (j < length col)%nat -> s <> slot (i + Z.of_nat j)) -> tuple_at (write_column block c i col m) s = tuple_at m s).
Proof.
  induction col as [|[bit e] col IH]; intros i m Hi Hl; cbn [write_column length] in *; [done|].
  set (m1 := if _ && _ then _ else m). assert (forall s, tuple_at m1 s = if decide (s = slot i) then assign_entry c (bit, e) (tuple_at m s) else tuple_at m s) as H1.
  { intros s. unfold m1, assign_entry. cbn [fst snd]. destruct (_ && _); [rewrite tuple_set; by case_decide as Hs; [rewrite Hs|]|by case_decide]. }
  destruct (IH (i + 1) m1) as [Hin Hout]; [lia|lia|]. split.
  - intros [|j] r Hr; cbn in Hr.
    + injection Hr as <-. rewrite Z.add_0_r. rewrite Hout.
      * by rewrite H1, decide_True.
      * intros j Hj E. apply slot_inj in E; lia.
    + pose proof (lookup_lt_Some _ _ _ Hr) as Hj. replace (i + Z.of_nat (S j)) with (i + 1 + Z.of_nat j) by lia. rewrite (Hin j r Hr), H1, decide_False; [done|]. intros E. apply slot_inj in E; lia.
  - intros s Hs. rewrite Hout, H1.
    + rewrite decide_False; [done|]. specialize (Hs 0%nat). rewrite Z.add_0_r in Hs. apply Hs. lia.
    + intros j Hj. specialize (Hs (S j)). replace (i + Z.of_nat (S j)) with (i + 1 + Z.of_nat j) in Hs by lia. apply Hs. lia.
Qed.

Definition attr (m : memory) (i c : Z) : option (list Z) := attrs_ (tuple_at m (slot i)) !! c.

Lemma read_column_lookup m c j : read_column m block c n !! j = if decide (Z.of_nat j < n) then Some (bool_decide (is_Some (attr m (Z.of_nat j) c)), entry_of_bytes (default [] (attr m (Z.of_nat j) c))) else None.
Proof.
  unfold read_column. rewrite list_lookup_fmap. case_decide as Hj; [by rewrite lookup_seqZ_lt by done|by rewrite lookup_seqZ_ge by lia].
Qed.

Lemma length_read_column m c : length (read_column m block c n) = Z.to_nat n.
Proof. unfold read_column. by rewrite length_fmap, length_seqZ. Qed.

(** The strings of a column. *)
Definition column_strings (b : buffers) (m : memory) (c : Z) : list (list Z) := (fun i => default [] (value_string b (attr m i c))) <$> seqZ 0 n.

Lemma read_column_values b m c : value_of b <$> read_column m block c n = column_strings b m c.
Proof.
  unfold read_column, column_strings. rewrite <-list_fmap_compose. apply list_fmap_ext. intros _ i _. cbn. fold (attr m i c). unfold value_of, value_string. by destruct (attr m i c).
Qed.

Lemma read_column_ok b m c : (forall i, 0 <= i < n -> value_ok b (attr m i c)) -> column_ok b (read_column m block c n).
Proof.
  intros Hv. apply Forall_lookup. intros j r. rewrite read_column_lookup. case_decide as Hj; [|done]. intros [= <-]. cbn. intros Hs%bool_decide_eq_true. destruct Hs as [bytes E].
  split; [|by apply wraps_bound]. rewrite E. cbn. apply (Hv (Z.of_nat j)); [lia|done].
Qed.

(** What a step keeps: the buffers but the [freed] ones, the strings of variable-length
    columns, everything else literally. *)
Record keeps (varlen : Z -> bool) (freed : Z -> Prop) (b b' : buffers) (m m' : memory) : Prop := {
  k_buffers : forall a x, b !! a = Some x -> b' !! a = Some x \/ freed a;
  k_values : forall i c, 0 <= i < n -> if varlen c then value_string b' (attr m' i c) = value_string b (attr m i c) /\ value_ok b' (attr m' i c) else attr m' i c = attr m i c;
  k_status : forall s, allocated_ (tuple_at m' s) = allocated_ (tuple_at m s) /\ present_ (tuple_at m' s) = present_ (tuple_at m s) /\ version_ptr_ (tuple_at m' s) = version_ptr_ (tuple_at m s);
  k_outside : forall s, (forall i, 0 <= i < n -> s <> slot i) -> tuple_at m' s = tuple_at m s;
}.

(** The record of a slot after its column was redirected to a buffer. *)
Lemma redirected_slot b m c addr bytes os i (col := read_column m block c n) : column_ok b col -> placed b col bytes os -> 0 <= addr -> addr + Z.of_nat (length bytes) <= 2 ^ 64 -> 0 <= i < n ->
  exists e', tuple_at (write_column block c 0 (redirected b addr os col) m) (slot i) = assign_entry c (bool_decide (is_Some (attr m i c)), e') (tuple_at m (slot i)) /\
    forall bytes', attr m i c = Some bytes' -> let e := entry_of_bytes bytes' in
      StringView (map_buffer addr bytes b) e' = StringView b e /\ Size e' = Size e /\
      (InlineThreshold < Size e -> entry_of_bytes (bytes_of_entry e') = e' /\ addr <= content_ e' < addr + Z.of_nat (length bytes)).
Proof.
  intros Hok Hpl Ha Hm Hi. assert (length (redirected b addr os col) = Z.to_nat n) as Lr. { unfold redirected. rewrite length_zip_with, (proj1 Hpl). unfold col. rewrite length_read_column. lia. }
  destruct (write_column_spec c (redirected b addr os col) 0 m) as [Hin _]; [lia|lia|].
  assert (col !! Z.to_nat i = Some (bool_decide (is_Some (attr m i c)), entry_of_bytes (default [] (attr m i c)))) as Hci.
  { unfold col. rewrite read_column_lookup, Z2Nat.id by lia. by rewrite decide_True by lia. }
  destruct (redirected_view b addr col bytes os _ _ _ Hok Hci Ha Hm Hpl) as (e' & He' & Hview). exists e'. split.
  - specialize (Hin _ _ He'). rewrite Z.add_0_l, Z2Nat.id in Hin by lia. exact Hin.
  - intros bytes' E. rewrite E in Hview. destruct (Hview (bool_decide_eq_true_2 _ (ex_intro _ _ eq_refl))) as (H1 & H2 & _ & H4). done.
Qed.

(** Redirecting a column to a buffer with its strings. *)
Lemma redirect_column varlen b m c addr bytes os : varlen c = true -> (forall i d, 0 <= i < n -> varlen d = true -> value_ok b (attr m i d)) ->
  placed b (read_column m block c n) bytes os -> 0 <= addr -> addr + Z.of_nat (length bytes) <= 2 ^ 64 -> (forall i, 0 <= i < Z.of_nat (length bytes) -> b !! (addr + i) = None) ->
  keeps varlen (fun _ => False) b (map_buffer addr bytes b) m (write_column block c 0 (redirected b addr os (read_column m block c n)) m).
Proof.
  intros Hc Hv Hpl Ha Hm Hf. set (col := read_column m block c n) in *. set (b' := map_buffer addr bytes b). set (m' := write_column _ _ _ _ _).
  assert (b ⊆ b') as Hsub.
  { apply map_subseteq_spec. intros a x Hx. destruct (decide (addr <= a < addr + Z.of_nat (length bytes))) as [Hin|Hout].
    - specialize (Hf (a - addr)). replace (addr + (a - addr)) with a in Hf by lia. rewrite Hf in Hx by lia. done.
    - unfold b'. rewrite map_buffer_other by lia. done. }
  assert (column_ok b col) as Hok by (apply read_column_ok; auto).
  assert (length (redirected b addr os col) = Z.to_nat n) as Lr. { unfold redirected. rewrite length_zip_with, (proj1 Hpl). unfold col. rewrite length_read_column. lia. }
  destruct (write_column_spec c (redirected b addr os col) 0 m) as [Hin Hout]; [lia|lia|]. fold m' in Hin, Hout.
  pose proof (fun i => redirected_slot b m c addr bytes os i Hok Hpl Ha Hm) as Hrec. cbv zeta in Hrec. fold col m' b' in Hrec.
  split; [intros a x Hx; left; by apply (lookup_weaken _ _ _ _ Hx Hsub)| | |].
  - intros i d Hi. destruct (Hrec i Hi) as (e' & Et & Hview). assert (attr m' i d = attrs_ (assign_entry c (bool_decide (is_Some (attr m i c)), e') (tuple_at m (slot i))) !! d) as -> by (unfold attr at 1; by rewrite Et).
    unfold assign_entry. cbn [fst snd]. destruct (decide (d = c)) as [->|Hd].
    + rewrite Hc. pose proof (Hv i c Hi Hc) as Hvi. destruct (attr m i c) as [bytes'|] eqn:E.
      * destruct (Hview bytes' eq_refl) as (H1 & H2 & H3). specialize (Hvi bytes' eq_refl). pose proof (length_StringView b _ Hvi) as L. rewrite bool_decide_eq_true_2 by (by eexists). cbn [andb].
        destruct (bool_decide (InlineThreshold < Size e')) eqn:Hl; [apply bool_decide_eq_true in Hl|apply bool_decide_eq_false in Hl].
        -- cbn [attrs_ set_attrs]. rewrite lookup_insert_eq. cbn. rewrite (proj1 (H3 ltac:(lia))), H1. split; [done|]. intros ? [= <-]. rewrite (proj1 (H3 ltac:(lia))). unfold entry_ok.
           rewrite <-H1, <-H2 in L. unfold StringView in L. rewrite length_take in L. pose proof (Size_nonneg e'). lia.
        -- fold (attr m i c). rewrite E. apply (value_string_mono b b'); [done|]. by intros ? [= <-].
      * rewrite bool_decide_eq_false_2 by (by intros []). cbn [andb]. fold (attr m i c). rewrite E. done.
    + destruct (_ && _); cbn [attrs_ set_attrs]; rewrite ?lookup_insert_ne by done; fold (attr m i d);
        (destruct (varlen d) eqn:Ed; [apply value_string_mono; auto|done]).
  - intros s. destruct (decide (s ∈ (fun i => slot i) <$> seqZ 0 n)) as [(i & -> & Hi%elem_of_seqZ)%list_elem_of_fmap|Hno].
    + destruct (Hrec i ltac:(lia)) as (e' & -> & _). unfold assign_entry. by destruct (_ && _).
    + rewrite Hout; [done|]. intros j Hj E. rewrite Z.add_0_l in E. apply Hno. apply list_elem_of_fmap. exists (Z.of_nat j). split; [done|]. apply elem_of_seqZ. lia.
  - intros s Hs. apply Hout. intros j Hj. rewrite Z.add_0_l. apply Hs. lia.
Qed.

(** Long strings are afterwards where they were, or in the new buffer. *)
Lemma redirect_points b m c addr bytes os i d a (col := read_column m block c n) : column_ok b col -> placed b col bytes os -> 0 <= addr -> addr + Z.of_nat (length bytes) <= 2 ^ 64 -> 0 <= i < n ->
  points (attr (write_column block c 0 (redirected b addr os col) m) i d) a -> (d <> c /\ points (attr m i d) a) \/ addr <= a < addr + Z.of_nat (length bytes).
Proof.
  intros Hok Hpl Ha Hm Hi. destruct (redirected_slot b m c addr bytes os i Hok Hpl Ha Hm Hi) as (e' & Et & Hview). fold col in Et. unfold attr at 1. rewrite Et. unfold assign_entry. cbn [fst snd].
  destruct (decide (d = c)) as [->|Hd].
  - destruct (attr m i c) as [bytes'|] eqn:E.
    + destruct (Hview bytes' eq_refl) as (_ & H2 & H3). rewrite bool_decide_eq_true_2 by (by eexists). cbn [andb]. intros (bs & Hbs & Hl & <-). right. revert Hbs. destruct (bool_decide_reflect (InlineThreshold < Size e')) as [Hs|Hs].
      * cbn [attrs_ set_attrs]. rewrite lookup_insert_eq. intros [= <-]. destruct (H3 ltac:(lia)) as [-> H4]. done.
      * fold (attr m i c). rewrite E. intros [= ->]. lia.
    + rewrite bool_decide_eq_false_2 by (by intros []). cbn [andb]. fold (attr m i c). rewrite E. by intros (? & ? & _).
  - destruct (_ && _); cbn [attrs_ set_attrs]; rewrite ?lookup_insert_ne by done; by left.
Qed.

(** Freeing storage that no string is in. *)
Lemma keeps_free varlen freed old b b' m m' : keeps varlen freed b b' m m' -> (forall i d a, 0 <= i < n -> varlen d = true -> points (attr m' i d) a -> ~ in_storage old a) ->
  keeps varlen (fun a => freed a \/ in_storage old a) b (free_values old b') m m'.
Proof.
  intros [Kb Kv Ks Ko] Hno. split; try done.
  - intros a x Hx. rewrite free_values_lookup. case_decide; [by right; right|]. destruct (Kb a x Hx) as [|]; [by left|by right; left].
  - intros i d Hi. specialize (Kv i d Hi). destruct (varlen d) eqn:Ed; [|done]. destruct Kv as [<- Hok]. apply value_string_local; [|done].
    intros a Hp. rewrite free_values_lookup, decide_False by eauto. done.
Qed.

Lemma keeps_refl varlen b m : (forall i d, 0 <= i < n -> varlen d = true -> value_ok b (attr m i d)) -> keeps varlen (fun _ => False) b b m m.
Proof. intros Hv. split; try done; [by left|]. intros i c Hi. destruct (varlen c) eqn:E; [by split; [|auto]|done]. Qed.

Lemma keeps_trans varlen (f1 f2 f : Z -> Prop) b b1 b2 m m1 m2 : (forall a, f1 a \/ f2 a -> f a) -> keeps varlen f1 b b1 m m1 -> keeps varlen f2 b1 b2 m1 m2 -> keeps varlen f b b2 m m2.
Proof.
  intros Hf [Hb1 Hv1 Hs1 Ho1] [Hb2 Hv2 Hs2 Ho2]. split.
  - intros a x Hx. destruct (Hb1 a x Hx) as [Hx1|]; [|by right; apply Hf; left]. destruct (Hb2 a x Hx1) as [|]; [by left|by right; apply Hf; right].
  - intros i c Hi. specialize (Hv1 i c Hi). specialize (Hv2 i c Hi). destruct (varlen c); [|congruence]. destruct Hv1 as [E1 _], Hv2 as [E2 ?]. split; [congruence|done].
  - intros s. destruct (Hs1 s) as (<- & <- & <-). apply Hs2.
  - intros s Hs. rewrite <-(Ho1 s Hs). by apply Ho2.
Qed.

Lemma keeps_weaken varlen (f f' : Z -> Prop) b b' m m' : (forall a, f a -> f' a) -> keeps varlen f b b' m m' -> keeps varlen f' b b' m m'.
Proof. intros Hf [Kb Kv Ks Ko]. split; try done. intros a x Hx. destruct (Kb a x Hx); [by left|right; auto]. Qed.

Lemma keeps_strings varlen freed b b' m m' c : keeps varlen freed b b' m m' -> varlen c = true -> column_strings b' m' c = column_strings b m c.
Proof.
  intros [_ Hv _ _] Hc. apply list_fmap_ext. intros j i Hi. apply lookup_seqZ in Hi as [-> Hj]. specialize (Hv (0 + Z.of_nat j) c). rewrite Hc in Hv. by rewrite (proj1 (Hv ltac:(lia))).
Qed.

(** Room for a gathered column from address [a] on. *)
Definition room (b : buffers) (a : Z) : Prop := 0 <= a /\ a + 2 ^ 32 <= 2 ^ 64 /\ forall i, 0 <= i < 2 ^ 32 -> b !! (a + i) = None.

(** The Arrow storage that column [c] had before. *)
Definition old_column (md : ArrowBlockMetadata) (c : Z) : ArrowVarlenColumn := varlen_column_ (GetColumnInfo md c).

(** What gathering the columns [cols] needs: readable strings, less than [2 ^ 32] bytes of
    them in a column, columns configured as variable-length, and that the storage a column
    has from an earlier freeze overlaps neither new buffers nor strings of other columns. *)
Record gatherable (layout : BlockLayout) (cols : list Z) (g : gathering) : Prop := {
  ga_records : num_records_ (g_metadata g) = n;
  ga_values : forall i d, 0 <= i < n -> IsVarlen layout d = true -> value_ok (g_buffers g) (attr (g_memory g) i d);
  ga_columns : forall c, c ∈ cols -> IsVarlen layout c = true ->
    column_type_ (GetColumnInfo (g_metadata g) c) <> FIXED_LENGTH /\ Z.of_nat (length (concat (column_strings (g_buffers g) (g_memory g) c))) < 2 ^ 32;
  ga_apart : forall c, c ∈ cols -> IsVarlen layout c = true ->
    (forall i d a, 0 <= i < n -> IsVarlen layout d = true -> d <> c -> points (attr (g_memory g) i d) a -> ~ in_storage (old_column (g_metadata g) c) a) /\
    (forall addr i, addr ∈ g_supply g -> 0 <= i < 2 ^ 32 -> ~ in_storage (old_column (g_metadata g) c) (addr + i));
  ga_supply : (length (filter (fun c => IsVarlen layout c = true) cols) <= length (g_supply g))%nat /\ StronglySorted (fun a a' => a + 2 ^ 32 <= a') (g_supply g) /\ Forall (room (g_buffers g)) (g_supply g)
}.

(** A column has been gathered into the first free buffer. *)
Lemma gathered_next layout c cols g bytes os addr supply nulls info loose : gatherable layout (c :: cols) g -> c ∉ cols -> IsVarlen layout c = true -> g_supply g = addr :: supply ->
  placed (g_buffers g) (read_column (g_memory g) block c n) bytes os -> Z.of_nat (length bytes) < 2 ^ 32 ->
  let g' := Gathering (write_column block c 0 (redirected (g_buffers g) addr os (read_column (g_memory g) block c n)) (g_memory g))
    (Metadata (num_records_ (g_metadata g)) nulls (<[c := info]> (column_infos_ (g_metadata g)))) (free_values (old_column (g_metadata g) c) (map_buffer addr bytes (g_buffers g))) (g_loose g ++ loose) supply in
  keeps (IsVarlen layout) (in_storage (old_column (g_metadata g) c)) (g_buffers g) (g_buffers g') (g_memory g) (g_memory g') /\ gatherable layout cols g'.
Proof.
  intros [Hr Hv Hc Hap (Hl & Hs & Hf)] Hnin Hvar Es Hpl Hlen g'. rewrite Es in Hl, Hs, Hf. apply StronglySorted_inv in Hs as [Hs Hgap]. apply Forall_cons in Hf as [(Ha & Hmax & Hfree) Hf].
  assert (column_ok (g_buffers g) (read_column (g_memory g) block c n)) as Hok by (apply read_column_ok; auto).
  assert (forall i d a, 0 <= i < n -> points (attr (g_memory g') i d) a -> (d <> c /\ points (attr (g_memory g) i d) a) \/ addr <= a < addr + Z.of_nat (length bytes)) as Hpts.
  { intros i d a Hi. apply redirect_points; [done|done|lia|lia|lia]. }
  assert (forall e, e ∈ c :: cols -> IsVarlen layout e = true -> forall i d a, 0 <= i < n -> IsVarlen layout d = true -> e = c \/ d <> e -> points (attr (g_memory g') i d) a -> ~ in_storage (old_column (g_metadata g) e) a) as Hapart.
  { intros e He Hev i d a Hi Hd Hde Hp0. destruct (Hpts i d a Hi Hp0) as [[Hdc Hp]|Hin].
    - apply (proj1 (Hap e He Hev) i d a Hi Hd); [naive_solver|done].
    - pose proof (proj2 (Hap e He Hev) addr (a - addr)) as H. rewrite Es in H. replace (addr + (a - addr)) with a in H by lia. apply H; [left|lia]. }
  assert (keeps (IsVarlen layout) (in_storage (old_column (g_metadata g) c)) (g_buffers g) (g_buffers g') (g_memory g) (g_memory g')) as HK.
  { eapply keeps_weaken; [|apply keeps_free; [apply redirect_column; auto; [lia|]; intros i Hi; apply Hfree; lia|]]; [intros a [[]|]; done|].
    intros i d a Hi Hd Hp. by apply (Hapart c ltac:(left) Hvar i d a Hi Hd (or_introl eq_refl)). }
  assert (forall d, d ∈ cols -> GetColumnInfo (g_metadata g') d = GetColumnInfo (g_metadata g) d) as Einfo.
  { intros d Hd. unfold GetColumnInfo, g'. cbn [g_metadata column_infos_]. by rewrite lookup_insert_ne by (intros ->; done). }
  split; [done|]. split.
  - done.
  - intros i d Hi Hd. pose proof (k_values _ _ _ _ _ _ HK i d Hi) as Hk. rewrite Hd in Hk. apply Hk.
  - intros d Hd Hdv. rewrite (keeps_strings _ _ _ _ _ _ _ HK Hdv), Einfo by done. apply Hc; [by right|done].
  - intros e He Hev. unfold old_column. rewrite Einfo by done. split.
    + intros i d a Hi Hd Hde. apply Hapart; [by right|done|done|done|by right].
    + intros a i Hin. apply (proj2 (Hap e ltac:(by right) Hev)). rewrite Es. by right.
  - rewrite filter_cons_True in Hl by done. cbn [length] in Hl. unfold g' at 1. cbn [g_supply]. split; [lia|]. split; [done|]. rewrite Forall_forall in Hgap, Hf. apply Forall_forall. intros a Hin.
    destruct (Hf a Hin) as (H1 & H2 & H3). specialize (Hgap a Hin). split; [done|]. split; [done|]. intros i Hi. cbn [g_buffers g']. rewrite free_values_lookup. case_decide; [done|]. rewrite map_buffer_other by lia. by apply H3.
Qed.

(** The storage that gathering the columns [cols] deletes. *)
Definition old_storage (layout : BlockLayout) (md : ArrowBlockMetadata) (cols : list Z) (a : Z) : Prop :=
  exists c, c ∈ cols /\ IsVarlen layout c = true /\ in_storage (old_column md c) a.

Lemma gather_column_spec layout junk c cols g : gatherable layout (c :: cols) g -> c ∉ cols ->
  exists g', gather_column layout block junk c g = Some g' /\ (forall d, d ∈ cols -> GetColumnInfo (g_metadata g') d = GetColumnInfo (g_metadata g) d) /\
    keeps (IsVarlen layout) (old_storage layout (g_metadata g) [c]) (g_buffers g) (g_buffers g') (g_memory g) (g_memory g') /\ gatherable layout cols g'.
Proof.
  intros HG Hnin. unfold gather_column. rewrite (ga_records _ _ _ HG). destruct (IsVarlen layout c) eqn:Ev; cbn [negb].
  2: { eexists. split; [reflexivity|]. destruct HG as [Hr Hv Hc Hap Hs]. rewrite filter_cons_False in Hs by congruence. split; [done|]. split; [eapply keeps_weaken; [|by apply keeps_refl]; done|]. split; try done.
       - intros d Hd Hdv. apply Hc; [by right|done].
       - intros d Hd Hdv. apply Hap; [by right|done]. }
  destruct (ga_columns _ _ _ HG c ltac:(left) Ev) as (Ht & Hlen). destruct (ga_supply _ _ _ HG) as (Hl & _ & Hf). rewrite filter_cons_True in Hl by done.
  destruct (g_supply g) as [|addr supply] eqn:Es; [cbn in Hl; lia|]. apply Forall_cons in Hf as [(Ha & Hmax & _) _].
  set (col := read_column (g_memory g) block c n). assert (column_ok (g_buffers g) col) as Hok by (apply read_column_ok; intros i Hi; by apply (ga_values _ _ _ HG)).
  assert (value_of (g_buffers g) <$> col = column_strings (g_buffers g) (g_memory g) c) as Ecol by apply read_column_values. rewrite <-Ecol in Hlen.
  assert (forall os bytes nulls info loose, placed (g_buffers g) col bytes os -> Z.of_nat (length bytes) < 2 ^ 32 ->
    let g' := Gathering (write_column block c 0 (redirected (g_buffers g) addr os col) (g_memory g)) (Metadata n nulls (<[c := info]> (column_infos_ (g_metadata g))))
      (free_values (varlen_column_ (GetColumnInfo (g_metadata g) c)) (map_buffer addr bytes (g_buffers g))) (g_loose g ++ loose) supply in
    (forall d, d ∈ cols -> GetColumnInfo (g_metadata g') d = GetColumnInfo (g_metadata g) d) /\
    keeps (IsVarlen layout) (old_storage layout (g_metadata g) [c]) (g_buffers g) (g_buffers g') (g_memory g) (g_memory g') /\ gatherable layout cols g') as Hnext.
  { intros os bytes nulls info loose Hpl Hle. destruct (gathered_next layout c cols g bytes os addr supply nulls info loose HG Hnin Ev Es Hpl Hle) as [H1 H2]. rewrite (ga_records _ _ _ HG) in H1, H2.
    split; [intros d Hd; unfold GetColumnInfo; cbn [g_metadata column_infos_]; by rewrite lookup_insert_ne by (intros ->; done)|]. split; [|exact H2].
    eapply keeps_weaken; [|exact H1]. intros a Hin. exists c. split; [left|done]. }
  destruct (column_type_ (GetColumnInfo (g_metadata g) c)) eqn:Et; [done| |].
  - destruct (CopyToArrowVarlen_eq (g_buffers g) addr junk (NullCount (g_metadata g) c) col Hok Hlen Ha ltac:(lia)) as [-> Hpl]. eexists. split; [reflexivity|]. by apply Hnext.
  - destruct (BuildDictionary_eq (g_buffers g) addr junk (NullCount (g_metadata g) c) col Hok Hlen) as (ws & indices & os & (k & ->) & Hpl & Hle & _ & _). cbn [mbind option_bind]. eexists. split; [reflexivity|].
    apply Hnext; [done|lia].
Qed.

Lemma gather_columns_spec layout junk cols : forall g, gatherable layout cols g -> NoDup cols ->
  exists g', gather_columns layout block junk cols g = Some g' /\ keeps (IsVarlen layout) (old_storage layout (g_metadata g) cols) (g_buffers g) (g_buffers g') (g_memory g) (g_memory g') /\ num_records_ (g_metadata g') = n.
Proof.
  induction cols as [|c cols IH]; intros g HG Hnd; cbn [gather_columns].
  - exists g. split; [done|]. split; [eapply keeps_weaken; [|apply keeps_refl, HG]; done|apply HG].
  - apply NoDup_cons in Hnd as [Hc Hnd]. destruct (gather_column_spec layout junk c cols g HG Hc) as (g1 & -> & Einfo & H1 & HG1). cbn [mbind option_bind].
    destruct (IH g1 HG1 Hnd) as (g2 & -> & H2 & H3). exists g2. split; [done|]. split; [|done]. eapply keeps_trans; [|exact H1|exact H2].
    intros a [(d & ->%list_elem_of_singleton & Hd)|(d & Hd & Hdv & Hin)]; [exists c; by split; [left|]|]. exists d. split; [by right|]. split; [done|]. unfold old_column in *. by rewrite <-Einfo.
Qed.

End block.

(** ** The loop over the queue *)

(** C31: freezing a block keeps its content, the first time and later times.  A cooling block
    whose [n] tuples fill its first slots and have no versions becomes frozen, with [n]
    records in its metadata, when the types of its variable-length columns are set to
    gathered or dictionary (a new block's are not, and gathering throws): no tuple appears,
    vanishes or gets a version, every fixed-length value stays as it is, and every string
    has the same characters afterwards.  The buffers that are gone afterwards can only be
    the Arrow storage that the columns have from an earlier freeze, which is deleted at
    once; all others stay until the deferred action frees them. *)
Theorem freeze_keeps_content (gc_enabled log_enabled : bool) (junk : list Z) (block table n : Z) (s : compactor) (t : DataTable) :
  let m := mem (world_ s) in let layout := layout_ t in let md := default Initialize_metadata (metadata_ s !! block) in
  aligned block -> data_tables m !! block = Some table -> tables (world_ s) !! table = Some t -> num_slots_ layout <= 2 ^ 20 ->
  BlockAccessController.state_ (controller_of s block) = COOLING -> 0 <= n <= num_slots_ layout ->
  (forall i, 0 <= i < num_slots_ layout -> let u := tuple_at m (TupleSlot.make block i) in (allocated_ u = true <-> i < n) /\ (i < n -> version_ptr_ u = None)) ->
  gatherable block n layout (AllColumns layout) (Gathering m (Metadata n (null_counts_ md) (column_infos_ md)) (store_ s) [] (buffer_addresses s)) ->
  exists s' ptrs, process_block gc_enabled log_enabled junk block s = Some (true, s') /\ BlockAccessController.state_ (controller_of s' block) = FROZEN /\
    num_records_ (default Initialize_metadata (metadata_ s' !! block)) = n /\ deferred_ s' = deferred_ s ++ [FreePointers ptrs] /\
    keeps block n (IsVarlen layout) (old_storage layout md (AllColumns layout)) (store_ s) (store_ s') m (mem (world_ s')).
Proof.
  intros m layout md Hb Hdt Ht Hmax Hst Hn Hslots HG. unfold process_block. rewrite Hst. unfold process_cooling. fold m. rewrite Hdt. cbn [mbind option_bind].
  unfold layout_of. rewrite Ht. cbn [fmap option_fmap option_map mbind option_bind]. fold layout md. unfold CheckForVersionsAndGaps.
  assert (check_slots (Z.to_nat (num_slots_ layout)) (fun i => tuple_at m (TupleSlot.make block i)) 0 (num_slots_ layout) false = Some n) as ->.
  { pose proof (check_slots_spec (Z.to_nat (num_slots_ layout)) (fun i => tuple_at m (TupleSlot.make block i)) n 0) as H. rewrite Z.add_0_l, Z2Nat.id in H by lia. apply H. split; [lia|]. intros i Hi. by apply Hslots. }
  unfold BlockAccessController.exchange_state. rewrite decide_True by done. cbn [negb].
  destruct (gather_columns_spec block n Hb ltac:(lia) layout junk (AllColumns layout) _ HG) as (g' & Hg & HK & Hrec).
  { unfold AllColumns. apply NoDup_fmap; [intros ???; lia|apply NoDup_seq]. }
  unfold GatherVarlens. rewrite Hg. cbn [mbind option_bind]. do 2 eexists. split; [reflexivity|]. split_and!; [| |reflexivity|exact HK].
  - unfold controller_of. cbn [controllers_]. by rewrite lookup_insert_eq.
  - cbn [metadata_]. by rewrite lookup_insert_eq.
Qed.

(** C40: a cooling block that cannot be frozen keeps the compactor in its loop: when some
    allocated slot has a version, or an unallocated slot in front of it, no number of rounds
    empties the queue (the loop goes on without taking the block off it), unless another
    thread changes the block. *)
Theorem unfreezable_block_spins (gc_enabled log_enabled : bool) (junk : list Z) (block table i : Z) (rest : list Z) (s : compactor) (t : DataTable) (fuel : nat) :
  let u j := tuple_at (mem (world_ s)) (TupleSlot.make block j) in
  data_tables (mem (world_ s)) !! block = Some table -> tables (world_ s) !! table = Some t -> BlockAccessController.state_ (controller_of s block) = COOLING ->
  0 <= i < num_slots_ (layout_ t) -> allocated_ (u i) = true -> (version_ptr_ (u i) <> None \/ exists j, 0 <= j < i /\ allocated_ (u j) = false) ->
  ProcessCompactionQueue gc_enabled log_enabled junk fuel (block :: rest) s = Some None.
Proof.
  intros u Hdt Ht Hst Hi Ha Hbad. assert (process_block gc_enabled log_enabled junk block s = Some (false, s)) as E.
  { unfold process_block. rewrite Hst. unfold process_cooling. rewrite Hdt. cbn [mbind option_bind]. unfold layout_of. rewrite Ht. cbn [fmap option_fmap option_map mbind option_bind]. unfold CheckForVersionsAndGaps.
    destruct (check_slots _ _ _ _ _) as [n|] eqn:Ec; [|done]. exfalso.
    pose proof (check_slots_spec (Z.to_nat (num_slots_ (layout_ t))) u n 0) as H. rewrite Z.add_0_l, Z2Nat.id in H by lia. apply H in Ec as [Hn Hs]. destruct (Hs i Hi) as [H1 H2]. assert (i < n) as Hin by (by apply H1).
    destruct Hbad as [Hv|(j & Hj & Hun)]; [by apply Hv, H2|]. destruct (Hs j ltac:(lia)) as [H3 _]. rewrite (proj2 H3) in Hun by lia. done. }
  induction fuel as [|fuel IH]; [done|]. cbn [ProcessCompactionQueue]. rewrite E. exact IH.
Qed.

(** A cooling block of four slots with one tuple; with an undo record at its end. *)
Definition small_world (row : attributes) (version : option Z) : world :=
  World (Memory {[ TupleSlot.make demo_block 0 := Tuple true true version row ]} ∅ {[ demo_block := 4 ]} {[ demo_block := 1 ]} [])
    (TimestampManager.mk 10 0 ∅) {[ 1 := Table small_layout [demo_block] 0 ]} ∅ [] [] [] [] 0.
Definition small_compactor (version : option Z) : compactor :=
  Compactor (small_world demo_row version) {[ demo_block := BlockAccessController.Controller COOLING 0 ]}
    {[ demo_block := Metadata 0 ∅ {[ 1 := ColumnInfo GATHERED_VARLEN (ArrowVarlen 0 0 0 [] []) [] ]} ]} {[ 64 := seqZ 97 14 ]} [] [2 ^ 40] [].

(** The same block when it has been frozen before: the string is in the column's storage. *)
Definition frozen_row : attributes := {[ 1 := bytes_of_entry (Create 64 (seqZ 97 14) 14 false); 2 := [1; 2; 3; 4] ]}.
Definition frozen_metadata : ArrowBlockMetadata := Metadata 1 ∅ {[ 1 := ColumnInfo GATHERED_VARLEN (ArrowVarlen 14 2 64 (seqZ 97 14) [0; 14]) [] ]}.
Definition refrozen : compactor :=
  Compactor (small_world frozen_row None) {[ demo_block := BlockAccessController.Controller COOLING 0 ]} {[ demo_block := frozen_metadata ]} (map_buffer 64 (seqZ 97 14) ∅) [] [2 ^ 40] [].

(** Freezing it again deletes the old storage at once: nothing is left to the deferred
    action, and an entry that a reader copied before points to freed memory. *)
Example refreeze_deletes_storage :
  store_ refrozen !! 64 = Some (seqZ 97 14) /\
  ((fun r => (r.1, store_ r.2 !! 64, deferred_ r.2)) <$> process_block true true [] demo_block refrozen) = Some (true, None, [FreePointers []]).
Proof. split; vm_compute; reflexivity. Qed.

Lemma small_tuple row version i : tuple_at (mem (small_world row version)) (TupleSlot.make demo_block i) = if decide (TupleSlot.make demo_block i = TupleSlot.make demo_block 0) then Tuple true true version row else pristine.
Proof.
  unfold tuple_at, small_world. cbn [mem tuples]. case_decide as H; [by rewrite H, lookup_singleton_eq|by rewrite lookup_singleton_ne].
Qed.

Lemma small_slot i : 0 <= i < 4 -> TupleSlot.make demo_block i = TupleSlot.make demo_block 0 <-> i = 0.
Proof. intros Hi. split; [|by intros ->]. apply (slot_inj demo_block); [repeat split; reflexivity|lia|lia]. Qed.

Lemma refrozen_gatherable : gatherable demo_block 1 small_layout (AllColumns small_layout)
  (Gathering (mem (world_ refrozen)) (Metadata 1 ∅ (column_infos_ frozen_metadata)) (store_ refrozen) [] [2 ^ 40]).
Proof.
  assert (forall c, IsVarlen small_layout c = true -> c = 1) as Hv.
  { intros c Hc. destruct (decide (c <= 0)) as [Hle|]; [exfalso; revert Hc; unfold IsVarlen, attr_size_at; replace (Z.to_nat c) with O by lia; vm_compute; congruence|].
    destruct (decide (c = 1)) as [|]; [done|]. destruct (decide (c = 2)) as [->|]; [vm_compute in Hc; congruence|].
    exfalso. revert Hc. unfold IsVarlen, attr_size_at. rewrite lookup_ge_None_2 by (cbn; lia). vm_compute. congruence. }
  assert (old_column frozen_metadata 1 = ArrowVarlen 14 2 64 (seqZ 97 14) [0; 14]) as Eold by (vm_compute; reflexivity).
  split; cbn [g_metadata g_memory g_buffers g_supply num_records_].
  - done.
  - intros i d Hi ->%Hv. replace i with 0 by lia.
    assert (attr demo_block (mem (world_ refrozen)) 0 1 = Some (bytes_of_entry (Create 64 (seqZ 97 14) 14 false))) as -> by (vm_compute; reflexivity). intros bytes [= <-]. vm_compute. congruence.
  - intros c _ ->%Hv. split; [vm_compute; congruence|vm_compute; reflexivity].
  - intros c _ ->%Hv. split; [intros i d a _ ->%Hv; done|]. intros addr i ->%list_elem_of_singleton Hi. unfold old_column in *. unfold GetColumnInfo in *. cbn [column_infos_] in *. rewrite Eold.
    intros [_ Hin]. cbn [values_addr_ values_ length] in Hin. rewrite length_seqZ in Hin. lia.
  - split; [vm_compute; lia|]. split; [repeat constructor|]. constructor; [|constructor]. split; [lia|]. split; [lia|]. intros i Hi. cbn [store_ refrozen].
    rewrite map_buffer_other by (rewrite length_seqZ; lia). done.
Qed.

Lemma freeze_keeps_content_witness : exists s', process_block true true [] demo_block refrozen = Some (true, s') /\
  BlockAccessController.state_ (controller_of s' demo_block) = FROZEN /\ value_string (store_ s') (attrs_ (tuple_at (mem (world_ s')) (TupleSlot.make demo_block 0)) !! 1) = Some (seqZ 97 14).
Proof.
  destruct (freeze_keeps_content true true [] demo_block 1 1 refrozen (Table small_layout [demo_block] 0)) as (s' & ptrs & E & Hf & _ & _ & HK);
    [repeat split; reflexivity|vm_compute; reflexivity|vm_compute; reflexivity|vm_compute; congruence|vm_compute; reflexivity|vm_compute; split; congruence| |exact refrozen_gatherable|].
  - intros i Hi. cbn [num_slots_ small_layout layout_] in Hi. cbn [world_ refrozen]. rewrite small_tuple. pose proof (small_slot i Hi) as Hs.
    case_decide as Hd; cbn [allocated_ version_ptr_ pristine]; [apply Hs in Hd as ->; done|].
    assert (~ i < 1) by (intros ?; apply Hd, Hs; lia). split; [split; [done|lia]|lia].
  - exists s'. split; [exact E|]. split; [exact Hf|]. pose proof (k_values _ _ _ _ _ _ _ _ HK 0 1 ltac:(lia)) as H. assert (IsVarlen small_layout 1 = true) as Ev by (vm_compute; reflexivity). cbn [layout_] in H. rewrite Ev in H.
    etransitivity; [exact (proj1 H)|]. vm_compute. reflexivity.
Defined.

Lemma unfreezable_block_spins_witness : ProcessCompactionQueue true true [] 1000 [demo_block; 0] (small_compactor (Some 7)) = Some None.
Proof.
  apply (unfreezable_block_spins true true [] demo_block 1 0 [0] (small_compactor (Some 7)) (Table small_layout [demo_block] 0) 1000); [vm_compute; reflexivity|vm_compute; reflexivity|vm_compute; reflexivity|vm_compute; split; congruence|vm_compute; reflexivity|].
  left. vm_compute. congruence.
Defined.
