(* ===== verification/Recovery.v ===== *)
(** * Recovery

    [storage/recovery/recovery_manager.{h,cpp}]: replaying the log.  Changes are buffered
    per transaction until its commit record arrives; a commit record names the oldest
    transaction that was active, and the committed transactions that started no later are
    then replayed, oldest first.  A replayed change runs in a new transaction on the tables
    of [Mvcc], and [tuple_slot_map_] takes the slots of the log to the new ones.

    The catalog and the indexes are interfaces.  Records of [pg_database] and [pg_class]
    that create, rename or drop objects are handed to the catalog's interface.  [None] is a
    failed assertion, an exception or undefined behaviour. *)

From S2P Require Import Prelude Layout Varlen Timestamps DataTable Versions TxnManager GarbageCollector Mvcc LogRecords.
Import LogRecord.
Abbreviation slot_of := TupleSlot.Slot.

(** ** State *)

(** A record of the log with the buffers its variable-length values were read into. *)
Abbreviation change := (LogRecord * list Z)%type.

(** What the deferred actions delete: one record, or a transaction's changes, with
    their variable-length values or not. *)
Inductive cleanup :=
| DeleteRecordMemory (r : LogRecord)
| DeleteChanges (changes : list change) (delete_varlens : bool).

(** What replaying changes: the tables and transactions, the indexes by database and oid
    (those of [pg_database] under database 0), and the new slots of the log's slots. *)
Record replica (I : Type) := Replica {
  world_ : world;
  indexes_ : gmap (Z * Z) I;
  tuple_slot_map_ : gmap TupleSlot TupleSlot
}.
Arguments Replica {I}.
Arguments world_ {I}.
Arguments indexes_ {I}.
Arguments tuple_slot_map_ {I}.

Definition set_world {I} (w : world) (r : replica I) : replica I := Replica w (indexes_ r) (tuple_slot_map_ r).
Definition set_indexes {I} (i : gmap (Z * Z) I) (r : replica I) : replica I := Replica (world_ r) i (tuple_slot_map_ r).
Definition set_slot_map {I} (m : gmap TupleSlot TupleSlot) (r : replica I) : replica I := Replica (world_ r) (indexes_ r) m.

(** The deferred transactions are ascending, as a [std::set] is. *)
Record RecoveryManager (I : Type) := Manager {
  replica_ : replica I;
  deferred_txns_ : list Z;
  buffered_changes_map_ : gmap Z (list change);
  recovered_txns_ : Z;
  deferred_action_manager_ : DeferredActionManager.DeferredActionManager cleanup
}.
Arguments Manager {I}.
Arguments replica_ {I}.
Arguments deferred_txns_ {I}.
Arguments buffered_changes_map_ {I}.
Arguments recovered_txns_ {I}.
Arguments deferred_action_manager_ {I}.

Definition set_replica {I} (r : replica I) (s : RecoveryManager I) : RecoveryManager I :=
  Manager r (deferred_txns_ s) (buffered_changes_map_ s) (recovered_txns_ s) (deferred_action_manager_ s).
Definition set_deferred {I} (d : list Z) (s : RecoveryManager I) : RecoveryManager I :=
  Manager (replica_ s) d (buffered_changes_map_ s) (recovered_txns_ s) (deferred_action_manager_ s).
Definition set_buffered {I} (b : gmap Z (list change)) (s : RecoveryManager I) : RecoveryManager I :=
  Manager (replica_ s) (deferred_txns_ s) b (recovered_txns_ s) (deferred_action_manager_ s).
Definition set_recovered {I} (n : Z) (s : RecoveryManager I) : RecoveryManager I :=
  Manager (replica_ s) (deferred_txns_ s) (buffered_changes_map_ s) n (deferred_action_manager_ s).

Definition RegisterCleanup {I} (c : cleanup) (s : RecoveryManager I) : RecoveryManager I :=
  Manager (replica_ s) (deferred_txns_ s) (buffered_changes_map_ s) (recovered_txns_ s)
    (DeferredActionManager.RegisterDeferredAction (TimestampManager.CurrentTime (tm (world_ (replica_ s)))) c (deferred_action_manager_ s)).2.

(** ** Interfaces *)

(** An index, as recovery uses it.  A key column has its offset in the key's row and the
    table column it indexes. *)
Class Index (I : Type) := {
  key_columns : I -> list (Z * Z);
  Unique : I -> bool;
  Insert : memory -> row -> TupleSlot -> TransactionContext -> I -> option (bool * TransactionContext * I);
  InsertUnique : memory -> row -> TupleSlot -> TransactionContext -> I -> option (bool * TransactionContext * I);
  Delete : memory -> row -> TupleSlot -> TransactionContext -> I -> option (TransactionContext * I)
}.

(** The catalog: [pg_database], the catalog tables of a database by oid, the other tables
    and the oids of the indexes on them; the handlers of records
    that create, rename or drop a database, a table or an index, with the number of extra
    records they processed. *)
Class Catalog (I : Type) := {
  databases_ : Z;
  catalog_table : Z -> Z -> option Z;
  GetTable : world -> Z -> Z -> Z -> option Z;
  GetIndexes : world -> Z -> Z -> Z -> list Z;
  ProcessSpecialCasePGDatabaseRecord : Z -> LogRecord -> option LogRecord -> replica I -> option (nat * replica I);
  ProcessSpecialCasePGClassRecord : Z -> LogRecord -> option LogRecord -> replica I -> option (nat * replica I)
}.

(** ** Catalog oids *)

Definition DATABASE_TABLE_OID : Z := 1.
Definition NAMESPACE_TABLE_OID : Z := 11.
Definition CLASS_TABLE_OID : Z := 21.
Definition INDEX_TABLE_OID : Z := 31.
Definition COLUMN_TABLE_OID : Z := 41.
Definition TYPE_TABLE_OID : Z := 51.
Definition CONSTRAINT_TABLE_OID : Z := 61.
Definition LANGUAGE_TABLE_OID : Z := 71.
Definition PRO_TABLE_OID : Z := 81.

(** The tables of a database's catalog. *)
Definition catalog_oids : list Z :=
  [CLASS_TABLE_OID; NAMESPACE_TABLE_OID; COLUMN_TABLE_OID; CONSTRAINT_TABLE_OID; INDEX_TABLE_OID; TYPE_TABLE_OID;
   LANGUAGE_TABLE_OID; PRO_TABLE_OID].

Definition INVALID_DATABASE_OID : Z := 0.
Definition DATABASE_OID_INDEX_OID : Z := 2.
Definition DATABASE_NAME_INDEX_OID : Z := 3.
Definition NAMESPACE_OID_INDEX_OID : Z := 12.
Definition NAMESPACE_NAME_INDEX_OID : Z := 13.
Definition CLASS_OID_INDEX_OID : Z := 22.
Definition CLASS_NAME_INDEX_OID : Z := 23.
Definition CLASS_NAMESPACE_INDEX_OID : Z := 24.
Definition INDEX_OID_INDEX_OID : Z := 32.
Definition INDEX_TABLE_INDEX_OID : Z := 33.
Definition COLUMN_OID_INDEX_OID : Z := 42.
Definition COLUMN_NAME_INDEX_OID : Z := 43.
Definition TYPE_OID_INDEX_OID : Z := 52.
Definition TYPE_NAME_INDEX_OID : Z := 53.
Definition TYPE_NAMESPACE_INDEX_OID : Z := 54.
Definition CONSTRAINT_OID_INDEX_OID : Z := 62.
Definition CONSTRAINT_NAME_INDEX_OID : Z := 63.
Definition CONSTRAINT_NAMESPACE_INDEX_OID : Z := 64.
Definition CONSTRAINT_TABLE_INDEX_OID : Z := 65.
Definition CONSTRAINT_INDEX_INDEX_OID : Z := 66.
Definition CONSTRAINT_FOREIGNTABLE_INDEX_OID : Z := 67.
Definition LANGUAGE_OID_INDEX_OID : Z := 72.
Definition LANGUAGE_NAME_INDEX_OID : Z := 73.
Definition PRO_OID_INDEX_OID : Z := 82.
Definition PRO_NAME_INDEX_OID : Z := 83.

(** The indexes on a catalog table that [UpdateIndexesOnTable] names, in its order. *)
Definition catalog_indexes (table_oid : Z) : option (list Z) :=
  if decide (table_oid = DATABASE_TABLE_OID) then Some [DATABASE_NAME_INDEX_OID; DATABASE_OID_INDEX_OID]
  else if decide (table_oid = NAMESPACE_TABLE_OID) then Some [NAMESPACE_OID_INDEX_OID; NAMESPACE_NAME_INDEX_OID]
  else if decide (table_oid = CLASS_TABLE_OID) then Some [CLASS_OID_INDEX_OID; CLASS_NAME_INDEX_OID; CLASS_NAMESPACE_INDEX_OID]
  else if decide (table_oid = COLUMN_TABLE_OID) then Some [COLUMN_OID_INDEX_OID; COLUMN_NAME_INDEX_OID]
  else if decide (table_oid = CONSTRAINT_TABLE_OID) then
    Some [CONSTRAINT_OID_INDEX_OID; CONSTRAINT_NAME_INDEX_OID; CONSTRAINT_NAMESPACE_INDEX_OID; CONSTRAINT_INDEX_INDEX_OID; CONSTRAINT_FOREIGNTABLE_INDEX_OID]
  else if decide (table_oid = INDEX_TABLE_OID) then Some [INDEX_OID_INDEX_OID; INDEX_TABLE_INDEX_OID]
  else if decide (table_oid = TYPE_TABLE_OID) then Some [TYPE_OID_INDEX_OID; TYPE_NAME_INDEX_OID; TYPE_NAMESPACE_INDEX_OID]
  else if decide (table_oid = LANGUAGE_TABLE_OID) then Some [LANGUAGE_OID_INDEX_OID; LANGUAGE_NAME_INDEX_OID]
  else if decide (table_oid = PRO_TABLE_OID) then Some [PRO_OID_INDEX_OID; PRO_NAME_INDEX_OID]
  else None.

(** The catalog indexes of a database that [GetCatalogIndex] knows. *)
Definition catalog_index_oids : list Z :=
  [NAMESPACE_OID_INDEX_OID; NAMESPACE_NAME_INDEX_OID; CLASS_OID_INDEX_OID; CLASS_NAME_INDEX_OID; CLASS_NAMESPACE_INDEX_OID; INDEX_OID_INDEX_OID;
   INDEX_TABLE_INDEX_OID; COLUMN_OID_INDEX_OID; COLUMN_NAME_INDEX_OID; TYPE_OID_INDEX_OID; TYPE_NAME_INDEX_OID; TYPE_NAMESPACE_INDEX_OID;
   CONSTRAINT_OID_INDEX_OID; CONSTRAINT_NAME_INDEX_OID; CONSTRAINT_NAMESPACE_INDEX_OID; CONSTRAINT_TABLE_INDEX_OID; CONSTRAINT_INDEX_INDEX_OID;
   CONSTRAINT_FOREIGNTABLE_INDEX_OID; LANGUAGE_OID_INDEX_OID; LANGUAGE_NAME_INDEX_OID; PRO_OID_INDEX_OID; PRO_NAME_INDEX_OID].

Definition GetCatalogIndex {I} (db_oid oid : Z) (r : replica I) : option I :=
  if decide (oid ∈ catalog_index_oids) then indexes_ r !! (db_oid, oid) else None.

(** ** The manager *)

Module RecoveryManager.
Section recovery.
Context {I : Type} `{!Index I, !Catalog I}.
(** The transaction manager's settings, and the address the undo buffer hands out next. *)
Context (gc_enabled_ log_enabled : bool) (undo_address : gmap Z UndoRecord -> Z).
#[local] Abbreviation manager := (RecoveryManager I).
#[local] Abbreviation replica := (replica I).

Definition GetSqlTable (w : world) (txn db_oid table_oid : Z) : option Z :=
  if decide (table_oid = DATABASE_TABLE_OID) then Some databases_
  else if decide (table_oid ∈ catalog_oids) then catalog_table db_oid table_oid
  else GetTable w txn db_oid table_oid.

Definition GetTupleSlotMapping (slot : TupleSlot) (s : replica) : option TupleSlot := tuple_slot_map_ s !! slot.

Definition IsInsertRecord (slot : TupleSlot) (s : replica) : bool := bool_decide (tuple_slot_map_ s !! slot = None).

Definition IsSpecialCaseCatalogRecord (r : LogRecord) (s : replica) : option bool :=
  match body_ r with
  | RedoRecord _ table_oid slot _ =>
    Some (if IsInsertRecord (slot_of slot) s then bool_decide (table_oid = DATABASE_TABLE_OID) else bool_decide (table_oid = CLASS_TABLE_OID))
  | DeleteRecord _ table_oid _ =>
    Some (bool_decide (table_oid ∈ [DATABASE_TABLE_OID; CLASS_TABLE_OID; INDEX_TABLE_OID; COLUMN_TABLE_OID]))
  | _ => None
  end.

(** The key's row: every key column gets the value of its table column. *)
Definition index_key (i : I) (table_pr : row) : option row :=
  mapM (fun '(offset, col) => v ← row_value table_pr col; Some (offset, v)) (key_columns i).

Fixpoint update_indexes (insert : bool) (m : memory) (tuple_slot : TupleSlot) (table_pr : row) (index_objects : list (Z * Z))
    (txn : TransactionContext) (indexes : gmap (Z * Z) I) : option (TransactionContext * gmap (Z * Z) I) :=
  match index_objects with
  | [] => Some (txn, indexes)
  | o :: rest =>
    index ← indexes !! o;
    index_pr ← index_key index table_pr;
    if insert then
      '(result, txn, index) ← (if Unique index then InsertUnique else Insert) m index_pr tuple_slot txn index;
      if (result : bool) then update_indexes insert m tuple_slot table_pr rest txn (<[o := index]> indexes) else None
    else
      '(txn, index) ← Delete m index_pr tuple_slot txn index;
      update_indexes insert m tuple_slot table_pr rest txn (<[o := index]> indexes)
  end.

Definition UpdateIndexesOnTable (id db_oid table_oid : Z) (tuple_slot : TupleSlot) (table_pr : row) (insert : bool) (s : replica) : option replica :=
  let w := world_ s in
  let index_objects :=
    match catalog_indexes table_oid with
    | Some oids => pair (if decide (table_oid = DATABASE_TABLE_OID) then INVALID_DATABASE_OID else db_oid) <$> oids
    | None => pair db_oid <$> GetIndexes w id db_oid table_oid
    end in
  txn ← txns w !! id;
  '(txn, indexes) ← update_indexes insert (mem w) tuple_slot table_pr index_objects txn (indexes_ s);
  Some (set_indexes indexes (set_world (put_txn txn w) s)).

(** [TransactionContext::StageRecoveryWrite]: the copy is the last record staged. *)
Definition StageRecoveryWrite (slot : TupleSlot) (delta : row) (txn : TransactionContext) : TransactionContext := StageWrite slot delta txn.

Definition ReplayRedoRecord (id db_oid table_oid : Z) (slot : TupleSlot) (delta : row) (s : replica) : option replica :=
  let w := world_ s in
  let undo := undo_address (undos (mem w)) in
  sql_table ← GetSqlTable w id db_oid table_oid;
  txn ← txns w !! id;
  if IsInsertRecord slot s then
    '(new_tuple_slot, w) ← SqlTable_Insert sql_table (StageRecoveryWrite (slot_of 0) delta txn) delta undo w;
    s ← UpdateIndexesOnTable id db_oid table_oid new_tuple_slot delta true (set_world w s);
    Some (set_slot_map (<[slot := new_tuple_slot]> (tuple_slot_map_ s)) s)
  else
    new_tuple_slot ← tuple_slot_map_ s !! slot;
    '(result, w) ← SqlTable_Update sql_table (StageRecoveryWrite new_tuple_slot delta txn) new_tuple_slot delta undo w;
    if (result : bool) then Some (set_world w s) else None.

(** The row that is selected first has every column of the table; when the tuple is not
    there its content is undefined. *)
Definition ReplayDeleteRecord (id db_oid table_oid : Z) (slot : TupleSlot) (s : replica) : option replica :=
  let w := world_ s in
  let undo := undo_address (undos (mem w)) in
  new_tuple_slot ← GetTupleSlotMapping slot s;
  sql_table ← GetTable w id db_oid table_oid;
  txn ← txns w !! id;
  let txn := StageDelete new_tuple_slot txn in
  layout ← layout_of w sql_table;
  selected ← Select (mem w) txn new_tuple_slot (BlockLayout.AllColumns layout);
  pr ← selected;
  '(result, w) ← SqlTable_Delete sql_table txn new_tuple_slot undo w;
  if (result : bool) then
    s ← UpdateIndexesOnTable id db_oid table_oid new_tuple_slot pr false (set_world w s);
    Some (set_slot_map (delete slot (tuple_slot_map_ s)) s)
  else None.

(** A delete of a row of [pg_attribute] or [pg_index] is part of a drop: nothing is done. *)
Definition ProcessSpecialCaseCatalogRecord (id : Z) (r : LogRecord) (next : option LogRecord) (s : replica) : option (nat * replica) :=
  match body_ r with
  | RedoRecord _ table_oid _ _ =>
    if decide (table_oid = DATABASE_TABLE_OID) then ProcessSpecialCasePGDatabaseRecord id r next s
    else if decide (table_oid = CLASS_TABLE_OID) then ProcessSpecialCasePGClassRecord id r next s
    else None
  | DeleteRecord _ table_oid _ =>
    if decide (table_oid = DATABASE_TABLE_OID) then ProcessSpecialCasePGDatabaseRecord id r next s
    else if decide (table_oid = CLASS_TABLE_OID) then ProcessSpecialCasePGClassRecord id r next s
    else if decide (table_oid = COLUMN_TABLE_OID \/ table_oid = INDEX_TABLE_OID) then Some (0%nat, s)
    else None
  | _ => None
  end.

(** The loop over a transaction's changes; [skip] of them have been processed already. *)
Fixpoint replay_changes (id : Z) (changes : list change) (skip : nat) (s : replica) : option replica :=
  match changes, skip with
  | [], _ => Some s
  | _ :: rest, S skip => replay_changes id rest skip s
  | (r, _) :: rest, O =>
    special ← IsSpecialCaseCatalogRecord r s;
    if (special : bool) then
      '(extra, s) ← ProcessSpecialCaseCatalogRecord id r (fst <$> head rest) s;
      replay_changes id rest extra s
    else
      s ← match body_ r with
          | RedoRecord db_oid table_oid slot delta => ReplayRedoRecord id db_oid table_oid (slot_of slot) delta s
          | DeleteRecord db_oid table_oid slot => ReplayDeleteRecord id db_oid table_oid (slot_of slot) s
          | _ => None
          end;
      replay_changes id rest 0 s
  end.

(** [buffered_changes_map_[txn_id]], moved out; the entry is erased by the callers. *)
Definition DeferRecordDeletes (txn_id : Z) (delete_varlens : bool) (s : manager) : manager :=
  RegisterCleanup (DeleteChanges (default [] (buffered_changes_map_ s !! txn_id)) delete_varlens) s.

Definition erase_changes (txn_id : Z) (s : manager) : manager := set_buffered (delete txn_id (buffered_changes_map_ s)) s.

Definition ProcessCommittedTransaction (txn_id : Z) (s : manager) : option manager :=
  let '(id, w) := BeginTransaction (world_ (replica_ s)) in
  r ← replay_changes id (default [] (buffered_changes_map_ s !! txn_id)) 0 (set_world w (replica_ s));
  let s := erase_changes txn_id (DeferRecordDeletes txn_id false (set_replica r s)) in
  txn ← txns (world_ r) !! id;
  if must_abort_ txn then None
  else Some (set_replica (set_world (Commit gc_enabled_ log_enabled txn (world_ r)).2 r) s).

Fixpoint process_all (txn_ids : list Z) (s : manager) : option manager :=
  match txn_ids with
  | [] => Some s
  | txn_id :: rest => s ← ProcessCommittedTransaction txn_id s; process_all rest s
  end.

(** The transactions up to the bound, which are then removed from the set. *)
Definition ProcessDeferredTransactions (upper_bound_ts : Z) (s : manager) : option (Z * manager) :=
  let upper_bound_ts := if decide (upper_bound_ts = INVALID_TXN_TIMESTAMP) then 2 ^ 63 - 1 else upper_bound_ts in
  let due := filter (fun t => t <= upper_bound_ts) (deferred_txns_ s) in
  s ← process_all due s;
  Some (u32 (Z.of_nat (length due)), set_deferred (filter (fun t => ~ t <= upper_bound_ts) (deferred_txns_ s)) s).

(** [std::set::insert] *)
Fixpoint set_insert (t : Z) (l : list Z) : list Z :=
  match l with
  | [] => [t]
  | x :: rest => if decide (t < x) then t :: l else if decide (t = x) then l else x :: set_insert t rest
  end.

(** One round of the loop. *)
Definition ProcessLogRecord (c : change) (s : manager) : option manager :=
  let '(r, varlens) := c in
  match body_ r with
  | AbortRecord =>
    if decide (varlens = []) then
      Some (RegisterCleanup (DeleteRecordMemory r) (erase_changes (txn_begin_ r) (DeferRecordDeletes (txn_begin_ r) true s)))
    else None
  | CommitRecord _ oldest_active_txn _ _ =>
    if decide (varlens = []) then
      let s := set_deferred (set_insert (txn_begin_ r) (deferred_txns_ s)) s in
      '(processed, s) ← ProcessDeferredTransactions oldest_active_txn s;
      Some (RegisterCleanup (DeleteRecordMemory r) (set_recovered (u32 (recovered_txns_ s + processed)) s))
    else None
  | _ =>
    let txn := txn_begin_ r in
    Some (set_buffered (<[txn := default [] (buffered_changes_map_ s !! txn) ++ [c]]> (buffered_changes_map_ s)) s)
  end.

Fixpoint process_log (log : list change) (s : manager) : option manager :=
  match log with
  | [] => Some s
  | c :: rest => s ← ProcessLogRecord c s; process_log rest s
  end.

(** After the log: the transactions still deferred; the changes of the unfinished ones
    are given up. *)
Definition RecoverFromLogs (log : list change) (s : manager) : option manager :=
  s ← process_log log s;
  '(_, s) ← ProcessDeferredTransactions INVALID_TXN_TIMESTAMP s;
  if decide (deferred_txns_ s = []) then
    let s := foldl (fun s t => DeferRecordDeletes t true s) s (map_to_list (buffered_changes_map_ s)).*1 in
    Some (set_buffered ∅ s)
  else None.

End recovery.
End RecoveryManager.
Import RecoveryManager.

(** ** The order of replay *)

Definition is_change (r : LogRecord) : bool := match body_ r with RedoRecord _ _ _ _ | DeleteRecord _ _ _ => true | _ => false end.
Definition is_commit (r : LogRecord) : bool := match body_ r with CommitRecord _ _ _ _ => true | _ => false end.

(** The committed transactions in the order of their commits, and a transaction's changes. *)
Definition committed (log : list change) : list Z := (fun c => txn_begin_ c.1) <$> filter (fun c => is_commit c.1 = true) log.
Definition changes_of (log : list change) (id : Z) : list change :=
  filter (fun c => is_change c.1 = true /\ txn_begin_ c.1 = id) log.

(** Logs as the system writes them: a transaction's records come before its commit record,
    which is its last; transactions whose commit comes later did not start before the oldest
    active transaction the record names. *)
Record valid_log (log : list change) : Prop := {
  vl_commit : forall pre r vs post time oldest callback read_only, log = pre ++ (r, vs) :: post ->
    body_ r = CommitRecord time oldest callback read_only ->
    vs = [] /\ oldest <= txn_begin_ r < 2 ^ 63 /\
    (forall c, c ∈ pre -> txn_begin_ c.1 = txn_begin_ r -> is_change c.1 = true) /\
    (forall c, c ∈ post -> txn_begin_ c.1 <> txn_begin_ r) /\
    (forall c, c ∈ post -> is_commit c.1 = true -> oldest <= txn_begin_ c.1);
  vl_abort : forall r vs, (r, vs) ∈ log -> body_ r = AbortRecord -> vs = []
}.

Lemma ascending_unique (a b : list Z) : StronglySorted Z.lt a -> StronglySorted Z.lt b -> a ≡ₚ b -> a = b.
Proof. apply StronglySorted_unique_strong. lia. Qed.

Lemma ascending_NoDup (a : list Z) : StronglySorted Z.lt a -> NoDup a.
Proof. induction 1 as [|x l _ IH Hf]; constructor; [|done]. intros Hx. rewrite Forall_forall in Hf. specialize (Hf x Hx). lia. Qed.

(** The smaller part of a sorted list comes first. *)
Lemma ascending_split (ids due later : list Z) : StronglySorted Z.lt ids -> StronglySorted Z.lt due -> ids ≡ₚ due ++ later ->
  (forall x y, x ∈ due -> y ∈ later -> x < y) -> exists rest, ids = due ++ rest /\ rest ≡ₚ later /\ StronglySorted Z.lt rest.
Proof.
  intros Hs Hd Hp Hlt. set (rest := filter (fun x => x ∉ due) ids). assert (StronglySorted Z.lt rest) as Hr by by apply sorted_filter.
  assert (rest ≡ₚ later) as Hl.
  { unfold rest. rewrite Hp, filter_app, filter_none, filter_all; [done| |].
    - apply Forall_forall. intros y Hy Hin. specialize (Hlt y y Hin Hy). lia.
    - apply Forall_forall. auto. }
  exists rest. split; [|done]. apply ascending_unique; [done| |by rewrite Hl]. apply StronglySorted_app_2; [|done|done].
  intros x y Hx Hy. apply Hlt; [done|]. by rewrite <-Hl.
Qed.

Lemma set_insert_spec t l : StronglySorted Z.lt l -> t ∉ l -> StronglySorted Z.lt (set_insert t l) /\ set_insert t l ≡ₚ t :: l.
Proof.
  induction 1 as [|x l Hs IH Hf]; intros Hn; cbn [set_insert]; [by repeat constructor|]. apply not_elem_of_cons in Hn as [Hx Hn].
  case_decide as H1; [|rewrite decide_False by done].
  - split; [|done]. constructor; [by constructor|]. constructor; [done|]. eapply Forall_impl; [done|]. cbn. lia.
  - destruct (IH Hn) as [H2 H3]. split; [|by rewrite H3; constructor]. constructor; [done|]. rewrite H3. constructor; [lia|done].
Qed.

Section serial.
Context {I : Type} `{!Index I, !Catalog I} (gc log_on : bool) (undo_address : gmap Z UndoRecord -> Z).

(** One transaction: begin, its changes, commit. *)
Definition ReplayTransaction (changes : list change) (r : replica I) : option (replica I) :=
  let '(id, w) := BeginTransaction (world_ r) in
  r ← replay_changes undo_address id changes 0 (set_world w r);
  txn ← txns (world_ r) !! id;
  if must_abort_ txn then None else Some (set_world (Commit gc log_on txn (world_ r)).2 r).

Fixpoint replay_serially (txns : list (list change)) (r : replica I) : option (replica I) :=
  match txns with
  | [] => Some r
  | changes :: rest => r ← ReplayTransaction changes r; replay_serially rest r
  end.

#[local] Abbreviation PCT := (ProcessCommittedTransaction gc log_on undo_address).
#[local] Abbreviation recover := (RecoverFromLogs gc log_on undo_address).

(** The records whose memory the registered actions delete. *)
Definition cleanup_records (c : cleanup) : list LogRecord :=
  match c with DeleteRecordMemory r => [r] | DeleteChanges cs _ => cs.*1 end.
Definition cleaned (s : RecoveryManager I) : list LogRecord :=
  DeferredActionManager.new_deferred_actions_ (deferred_action_manager_ s) ≫= fun a => cleanup_records a.2.
Definition buffered_records (s : RecoveryManager I) : list LogRecord := map_to_list (buffered_changes_map_ s) ≫= fun p => p.2.*1.

Lemma cleaned_register c s : cleaned (RegisterCleanup c s) = cleaned s ++ cleanup_records c.
Proof. unfold cleaned. cbn. rewrite bind_app. cbn. by rewrite app_nil_r. Qed.

Lemma replay_serially_app a b r : replay_serially (a ++ b) r = replay_serially a r ≫= replay_serially b.
Proof. revert r. induction a as [|x a IH]; intros r; [done|]. cbn [app replay_serially]. destruct (ReplayTransaction x r) as [r'|]; cbn [mbind option_bind]; [apply IH|done]. Qed.

Lemma committed_txn_replica id s : replica_ <$> PCT id s = ReplayTransaction (default [] (buffered_changes_map_ s !! id)) (replica_ s).
Proof.
  unfold ProcessCommittedTransaction, ReplayTransaction. destruct (BeginTransaction (world_ (replica_ s))) as [t w].
  destruct (replay_changes _ _ _ _ _) as [r|]; [|done]. cbn [mbind option_bind]. destruct (txns (world_ r) !! t) as [txn|]; [|done]. cbn [mbind option_bind].
  by destruct (must_abort_ txn).
Qed.

Lemma committed_txn_state id s s' : PCT id s = Some s' -> deferred_txns_ s' = deferred_txns_ s /\
  buffered_changes_map_ s' = delete id (buffered_changes_map_ s) /\ cleaned s' = cleaned s ++ (default [] (buffered_changes_map_ s !! id)).*1.
Proof.
  unfold ProcessCommittedTransaction. destruct (BeginTransaction (world_ (replica_ s))) as [t w].
  destruct (replay_changes _ _ _ _ _) as [r|]; [|done]. cbn [mbind option_bind]. destruct (txns (world_ r) !! t) as [txn|]; [|done]. cbn [mbind option_bind].
  destruct (must_abort_ txn); [done|]. intros [= <-]. split; [done|]. split; [done|]. apply (cleaned_register (DeleteChanges _ _) (set_replica r s)).
Qed.

(** A buffer's records stay in the buffers or go to the cleanups. *)
Lemma buffered_take (b : gmap Z (list change)) id :
  (map_to_list b ≫= fun p => p.2.*1) ≡ₚ (default [] (b !! id)).*1 ++ (map_to_list (delete id b) ≫= fun p => p.2.*1).
Proof.
  destruct (b !! id) as [cs|] eqn:E; cbn.
  - rewrite <-(insert_delete_id b id cs E) at 1. rewrite map_to_list_insert by apply lookup_delete_eq. rewrite bind_cons. reflexivity.
  - by rewrite delete_id.
Qed.

Lemma process_all_spec ids (f : Z -> list change) : forall s, NoDup ids -> (forall id, id ∈ ids -> default [] (buffered_changes_map_ s !! id) = f id) ->
  replica_ <$> process_all gc log_on undo_address ids s = replay_serially (f <$> ids) (replica_ s) /\
  forall s', process_all gc log_on undo_address ids s = Some s' -> deferred_txns_ s' = deferred_txns_ s /\
    (forall id, id ∉ ids -> buffered_changes_map_ s' !! id = buffered_changes_map_ s !! id) /\
    cleaned s' ++ buffered_records s' ≡ₚ cleaned s ++ buffered_records s.
Proof.
  induction ids as [|id ids IH]; intros s Hn Hf; cbn [process_all fmap list_fmap replay_serially].
  { split; [done|]. intros s' [= <-]. done. }
  apply NoDup_cons in Hn as [Hid Hn]. rewrite <-(Hf id) by left. rewrite <-committed_txn_replica. destruct (PCT id s) as [s1|] eqn:E; [|done].
  destruct (committed_txn_state id s s1 E) as (D1 & B1 & C1). cbn [mbind option_bind fmap option_fmap option_map].
  destruct (IH s1 Hn) as [IH1 IH2].
  { intros i Hi. rewrite B1, lookup_delete_ne by (intros ->; done). apply Hf. by right. }
  split; [done|]. intros s' Hs'. destruct (IH2 s' Hs') as (-> & H2 & H3). split; [done|]. split.
  - intros i [Hne Hi]%not_elem_of_cons. rewrite H2, B1, lookup_delete_ne by done. done.
  - rewrite H3, C1, <-app_assoc. unfold buffered_records. rewrite B1. by rewrite <-(buffered_take (buffered_changes_map_ s) id).
Qed.

(** What the manager knows of the log read so far. *)
Record tracked (pre : list change) (s : RecoveryManager I) : Prop := {
  tr_sorted : StronglySorted Z.lt (deferred_txns_ s);
  tr_deferred : forall id, id ∈ deferred_txns_ s -> id ∈ committed pre;
  tr_buffer : forall id, id ∈ deferred_txns_ s \/ (forall c, c ∈ pre -> txn_begin_ c.1 = id -> is_change c.1 = true) ->
    default [] (buffered_changes_map_ s !! id) = changes_of pre id
}.

(** The records read are in the buffers or will be deleted. *)
Definition accounted (pre : list change) (s : RecoveryManager I) : Prop := cleaned s ++ buffered_records s ≡ₚ pre.*1.

Lemma changes_of_app a b id : changes_of (a ++ b) id = changes_of a id ++ changes_of b id.
Proof. apply filter_app. Qed.

Lemma committed_app a b : committed (a ++ b) = committed a ++ committed b.
Proof. unfold committed. by rewrite filter_app, fmap_app. Qed.

Lemma changes_of_none l id : (forall c, c ∈ l -> txn_begin_ c.1 <> id) -> changes_of l id = [].
Proof. intros H. apply filter_none, Forall_forall. intros c Hc [_ E]. by apply (H c). Qed.

Lemma committed_elem log id : id ∈ committed log -> exists pre r vs post time oldest callback read_only,
  log = pre ++ (r, vs) :: post /\ body_ r = CommitRecord time oldest callback read_only /\ txn_begin_ r = id.
Proof.
  intros ([r vs] & -> & [Hc [pre [post ->]]%list_elem_of_split]%list_elem_of_filter)%list_elem_of_fmap. unfold is_commit in Hc. cbn in Hc.
  destruct (body_ r) as [| |t o cb ro|] eqn:E; try done. by exists pre, r, vs, post, t, o, cb, ro.
Qed.

(** A committed transaction's records are complete. *)
Lemma committed_changes log pre post id : valid_log log -> log = pre ++ post -> id ∈ committed pre -> changes_of pre id = changes_of log id /\ id < 2 ^ 63 /\ id ∉ committed post.
Proof.
  intros V -> Hid. destruct (committed_elem pre id Hid) as (p1 & r & vs & p2 & t & o & cb & ro & -> & Hb & Hr).
  rewrite <-app_assoc in V. cbn in V. destruct (vl_commit _ V p1 r vs (p2 ++ post) t o cb ro eq_refl Hb) as (_ & Hlt & _ & Hpost & _). rewrite Hr in *.
  assert (forall c, c ∈ post -> txn_begin_ c.1 <> id) as Hp by (intros c Hc; apply Hpost, elem_of_app; by right).
  split_and!; [|lia|].
  - by rewrite (changes_of_app _ post), (changes_of_none post id Hp), app_nil_r.
  - intros (p & r' & vs' & q & ? & ? & ? & ? & -> & _ & Hr')%committed_elem. apply (Hp (r', vs')); [apply elem_of_app; right; left|done].
Qed.

Lemma deferred_done bound s (log : list change) : StronglySorted Z.lt (deferred_txns_ s) -> (forall id, id ∈ deferred_txns_ s -> default [] (buffered_changes_map_ s !! id) = changes_of log id) ->
  bound <> INVALID_TXN_TIMESTAMP -> let due := filter (fun t => t <= bound) (deferred_txns_ s) in
  replica_ <$> (snd <$> ProcessDeferredTransactions gc log_on undo_address bound s) = replay_serially (changes_of log <$> due) (replica_ s) /\
  forall n s', ProcessDeferredTransactions gc log_on undo_address bound s = Some (n, s') ->
    deferred_txns_ s' = filter (fun t => ~ t <= bound) (deferred_txns_ s) /\ (forall id, id ∉ due -> buffered_changes_map_ s' !! id = buffered_changes_map_ s !! id) /\
    cleaned s' ++ buffered_records s' ≡ₚ cleaned s ++ buffered_records s.
Proof.
  intros Hs Hb Hn due. unfold ProcessDeferredTransactions. rewrite decide_False by done. fold due.
  assert (NoDup due) as Hnd by by apply ascending_NoDup, sorted_filter.
  destruct (process_all_spec due (changes_of log) s Hnd) as [H1 H2]; [intros id [_ Hid]%list_elem_of_filter; auto|].
  destruct (process_all gc log_on undo_address due s) as [s1|] eqn:E; cbn [mbind option_bind fmap option_fmap option_map] in *; [|done].
  split; [done|]. intros n s' [= <- <-]. destruct (H2 s1 eq_refl) as (D & B & C). cbn. by rewrite D.
Qed.

(** *** One record *)

Lemma read_change log pre r vs post s : valid_log log -> log = pre ++ (r, vs) :: post -> is_change r = true -> tracked pre s -> accounted pre s ->
  exists s', ProcessLogRecord gc log_on undo_address (r, vs) s = Some s' /\ tracked (pre ++ [(r, vs)]) s' /\ accounted (pre ++ [(r, vs)]) s' /\
    deferred_txns_ s' = deferred_txns_ s /\ replica_ s' = replica_ s.
Proof.
  intros V E Hc [T1 T2 T3] A. set (b := txn_begin_ r). set (cs := default [] (buffered_changes_map_ s !! b)).
  set (s' := set_buffered (<[b := cs ++ [(r, vs)]]> (buffered_changes_map_ s)) s).
  assert (b ∉ deferred_txns_ s) as Hb.
  { intros (p1 & r1 & v1 & p2 & t & o & cb & ro & -> & Hb1 & Hr1)%T2%committed_elem. rewrite <-app_assoc in E. cbn in E.
    destruct (vl_commit _ V _ _ _ _ _ _ _ _ E Hb1) as (_ & _ & _ & Hp & _). apply (Hp (r, vs)); [apply elem_of_app; right; left|done]. }
  exists s'. split; [unfold is_change in Hc; cbn; by destruct (body_ r)|]. split; [|split; [|done]].
  - constructor; cbn; [done|intros id Hid; rewrite committed_app; apply elem_of_app; auto|]. intros id Hid. rewrite changes_of_app.
    assert (id ∈ deferred_txns_ s \/ (forall c, c ∈ pre -> txn_begin_ c.1 = id -> is_change c.1 = true)) as Hid'.
    { destruct Hid as [|H]; [by left|right]. intros c Hin. apply H, elem_of_app. by left. }
    destruct (decide (b = id)) as [<-|Hne].
    + assert (changes_of [(r, vs)] b = [(r, vs)]) as -> by (unfold changes_of; by rewrite filter_cons_True). by rewrite lookup_insert_eq, <-(T3 b Hid').
    + rewrite lookup_insert_ne by done. rewrite (T3 id Hid'), (changes_of_none [_]), app_nil_r; [done|]. by intros c ->%list_elem_of_singleton.
  - unfold accounted. rewrite fmap_app, <-A. change (cleaned s') with (cleaned s). rewrite <-app_assoc. f_equiv. unfold buffered_records.
    rewrite (buffered_take _ b), (buffered_take (buffered_changes_map_ s) b). cbn. rewrite lookup_insert_eq, delete_insert_eq. cbn. fold cs.
    rewrite fmap_app, <-!app_assoc. f_equiv. cbn. by rewrite (Permutation_app_comm _ [r]).
Qed.

Lemma read_abort log pre r vs post s : valid_log log -> log = pre ++ (r, vs) :: post -> body_ r = AbortRecord -> tracked pre s -> accounted pre s ->
  exists s', ProcessLogRecord gc log_on undo_address (r, vs) s = Some s' /\ tracked (pre ++ [(r, vs)]) s' /\ accounted (pre ++ [(r, vs)]) s' /\
    deferred_txns_ s' = deferred_txns_ s /\ replica_ s' = replica_ s.
Proof.
  intros V E Hr [T1 T2 T3] A. set (b := txn_begin_ r). assert (vs = []) as -> by (eapply (vl_abort _ V r vs); [|done]; rewrite E; apply elem_of_app; right; left).
  assert (b ∉ deferred_txns_ s) as Hb.
  { intros (p1 & r1 & v1 & p2 & t & o & cb & ro & -> & Hb1 & Hr1)%T2%committed_elem. rewrite <-app_assoc in E. cbn in E.
    destruct (vl_commit _ V _ _ _ _ _ _ _ _ E Hb1) as (_ & _ & _ & Hp & _). apply (Hp (r, [])); [apply elem_of_app; right; left|done]. }
  set (s' := RegisterCleanup (DeleteRecordMemory r) (erase_changes b (DeferRecordDeletes b true s))).
  exists s'. split; [cbn; by rewrite Hr|]. split; [|split; [|done]].
  - constructor; cbn; [done|intros id Hid; rewrite committed_app; apply elem_of_app; auto|]. intros id Hid. rewrite changes_of_app.
    assert (b <> id) as Hne.
    { intros <-. destruct Hid as [|H]; [done|]. specialize (H (r, []) ltac:(apply elem_of_app; right; left) eq_refl). unfold is_change in H. cbn in H. by rewrite Hr in H. }
    rewrite lookup_delete_ne by done. rewrite (changes_of_none [_]), app_nil_r; [|by intros c ->%list_elem_of_singleton].
    apply T3. destruct Hid as [|H]; [by left|right]. intros c Hin. apply H, elem_of_app. by left.
  - unfold accounted. rewrite fmap_app, <-A. unfold s'. rewrite cleaned_register. change (cleaned (erase_changes b (DeferRecordDeletes b true s))) with (cleaned (DeferRecordDeletes b true s)).
    unfold DeferRecordDeletes. rewrite cleaned_register. cbn [cleanup_records]. unfold buffered_records. cbn [buffered_changes_map_ RegisterCleanup erase_changes set_buffered].
    rewrite (buffered_take (buffered_changes_map_ s) b). cbn. rewrite <-!app_assoc. do 2 f_equiv. by rewrite (Permutation_app_comm _ [r]).
Qed.

(** A commit record makes the transactions up to its bound due. *)
Lemma read_commit log pre r post s ids time oldest callback read_only : valid_log log -> log = pre ++ (r, []) :: post -> body_ r = CommitRecord time oldest callback read_only ->
  tracked pre s -> accounted pre s -> StronglySorted Z.lt ids -> ids ≡ₚ deferred_txns_ s ++ committed ((r, []) :: post) ->
  exists due rest, ids = due ++ rest /\ StronglySorted Z.lt rest /\
    replica_ <$> ProcessLogRecord gc log_on undo_address (r, []) s = replay_serially (changes_of log <$> due) (replica_ s) /\
    forall s', ProcessLogRecord gc log_on undo_address (r, []) s = Some s' ->
      tracked (pre ++ [(r, [])]) s' /\ accounted (pre ++ [(r, [])]) s' /\ rest ≡ₚ deferred_txns_ s' ++ committed post.
Proof.
  intros V E Hr [T1 T2 T3] A Hs Hp. set (b := txn_begin_ r). destruct (vl_commit _ V _ _ _ _ _ _ _ _ E Hr) as (_ & Hbound & Hpre & Hpost & Hlater).
  fold b in Hbound, Hpre, Hpost. assert (is_commit r = true) as Hic by (unfold is_commit; by rewrite Hr).
  assert (b ∉ deferred_txns_ s) as Hb.
  { intros (p1 & r1 & v1 & p2 & t & o & cb & ro & -> & Hb1 & Hr1)%T2%committed_elem.
    specialize (Hpre (r1, v1) ltac:(apply elem_of_app; right; left) Hr1). unfold is_change in Hpre. cbn in Hpre. by rewrite Hb1 in Hpre. }
  destruct (set_insert_spec b _ T1 Hb) as [S1 S2]. set (s1 := set_deferred (set_insert b (deferred_txns_ s)) s).
  assert (log = (pre ++ [(r, [])]) ++ post) as E' by (by rewrite <-app_assoc). assert (committed (pre ++ [(r, [])]) = committed pre ++ [b]) as Ec.
  { rewrite committed_app. f_equal. unfold committed. by rewrite filter_cons_True. }
  assert (forall id, id ∈ deferred_txns_ s1 -> id ∈ committed (pre ++ [(r, [])])) as Hdef.
  { intros id Hid. cbn in Hid. rewrite S2 in Hid. rewrite Ec. apply elem_of_app. apply elem_of_cons in Hid as [->|Hid]; [right; left|left; auto]. }
  assert (forall id, changes_of (pre ++ [(r, [])]) id = changes_of pre id) as Hch.
  { intros id. rewrite changes_of_app. unfold changes_of at 2. rewrite filter_cons_False by (unfold is_change; cbn; rewrite Hr; naive_solver). apply app_nil_r. }
  assert (forall id, id ∈ deferred_txns_ s1 \/ (forall c, c ∈ pre ++ [(r, [])] -> txn_begin_ c.1 = id -> is_change c.1 = true) ->
    default [] (buffered_changes_map_ s1 !! id) = changes_of (pre ++ [(r, [])]) id) as Hbuf.
  { intros id Hid. rewrite Hch. apply T3. destruct Hid as [Hid|H]; [|right; intros c Hc; apply H, elem_of_app; by left].
    cbn in Hid. rewrite S2 in Hid. apply elem_of_cons in Hid as [->|Hid]; [by right|by left]. }
  assert (oldest <> INVALID_TXN_TIMESTAMP) as Hinv by (unfold INVALID_TXN_TIMESTAMP, INT64_MIN_bits; lia).
  destruct (deferred_done oldest s1 log S1) as [D1 D2]; [|done|].
  { intros id Hid. rewrite (Hbuf id (or_introl Hid)). by apply (committed_changes log _ post id V E'), Hdef. }
  set (due := filter (fun t => t <= oldest) (deferred_txns_ s1)) in *.
  destruct (ascending_split ids due (filter (fun t => ~ t <= oldest) (deferred_txns_ s1) ++ committed post) Hs) as (rest & -> & Hrest & Hrs).
  - by apply sorted_filter.
  - assert (committed ((r, []) :: post) = b :: committed post) as Ep by (unfold committed; by rewrite filter_cons_True).
    rewrite Hp, Ep, app_assoc. unfold due. rewrite filter_app_complement. change (deferred_txns_ s1) with (set_insert b (deferred_txns_ s)).
    by rewrite S2, <-Permutation_middle.
  - intros x y [Hx Hxd]%list_elem_of_filter [[Hy _]%list_elem_of_filter|Hy]%elem_of_app; [lia|].
    destruct (committed_changes log _ post x V E' (Hdef x Hxd)) as (_ & _ & Hnot). assert (x <> y) by (intros ->; done).
    apply list_elem_of_fmap in Hy as (c & -> & [Hc1 Hc2]%list_elem_of_filter). specialize (Hlater c Hc2 Hc1). lia.
  - exists due, rest. split; [done|]. split; [done|]. cbn [ProcessLogRecord]. rewrite Hr. cbn [decide]. fold b. fold s1.
    change (replica_ s1) with (replica_ s) in D1. destruct (ProcessDeferredTransactions gc log_on undo_address oldest s1) as [[n s2]|] eqn:EP; cbn [mbind option_bind fmap option_fmap option_map snd] in *; [|done].
    split; [done|]. intros s' [= <-]. destruct (D2 n s2 eq_refl) as (F1 & F2 & F3). split; [|split].
    + constructor; cbn.
      * rewrite F1. by apply sorted_filter.
      * rewrite F1. intros id [_ Hid]%list_elem_of_filter. by apply Hdef.
      * intros id Hid. rewrite F2.
        -- apply Hbuf. destruct Hid as [Hid|]; [left|by right]. rewrite F1 in Hid. by apply list_elem_of_filter in Hid as [_ ?].
        -- intros [Hle Hin]%list_elem_of_filter. destruct Hid as [Hid|H]; [rewrite F1 in Hid; by apply list_elem_of_filter in Hid as [? _]|].
           apply Hdef in Hin. destruct (committed_elem _ _ Hin) as (p1 & r1 & v1 & p2 & t & o & cb & ro & E1 & Hb1 & Hr1).
           specialize (H (r1, v1) ltac:(rewrite E1; apply elem_of_app; right; left) Hr1). unfold is_change in H. cbn in H. by rewrite Hb1 in H.
    + unfold accounted in *. rewrite fmap_app, <-A. rewrite cleaned_register. cbn [cleanup_records]. change (cleaned (set_recovered _ s2)) with (cleaned s2).
      change (buffered_records (RegisterCleanup _ (set_recovered _ s2))) with (buffered_records s2). cbn. change (cleaned s ++ buffered_records s) with (cleaned s1 ++ buffered_records s1).
      rewrite <-F3, <-!app_assoc. f_equiv. by rewrite (Permutation_app_comm _ [r]).
    + cbn. by rewrite F1.
Qed.

(** *** The whole log *)

Lemma process_all_deferred s : ProcessDeferredTransactions gc log_on undo_address INVALID_TXN_TIMESTAMP s = ProcessDeferredTransactions gc log_on undo_address (2 ^ 63 - 1) s.
Proof. unfold ProcessDeferredTransactions. rewrite decide_True by done. by rewrite decide_False by done. Qed.

Lemma give_up_spec (ids : list Z) : forall s : RecoveryManager I, let s' := foldl (fun s t => DeferRecordDeletes t true s) s ids in
  replica_ s' = replica_ s /\ deferred_txns_ s' = deferred_txns_ s /\
  cleaned s' = cleaned s ++ (ids ≫= fun id => (default [] (buffered_changes_map_ s !! id)).*1).
Proof.
  induction ids as [|id ids IH]; intros s; [cbn; by rewrite app_nil_r|]. cbn [foldl]. destruct (IH (DeferRecordDeletes id true s)) as (H1 & H2 & H3).
  cbv zeta in *. rewrite H1, H2, H3. split; [done|]. split; [done|]. unfold DeferRecordDeletes at 1. rewrite cleaned_register. by rewrite <-app_assoc.
Qed.

Lemma buffers_by_key (s : RecoveryManager I) :
  ((map_to_list (buffered_changes_map_ s)).*1 ≫= fun id => (default [] (buffered_changes_map_ s !! id)).*1) = buffered_records s.
Proof.
  unfold buffered_records. assert (Forall (fun p => buffered_changes_map_ s !! p.1 = Some p.2) (map_to_list (buffered_changes_map_ s))) as H.
  { apply Forall_forall. intros [id cs]. apply elem_of_map_to_list. }
  induction H as [|[id cs] l Hp _ IH]; [done|]. cbn in *. by rewrite Hp, <-IH.
Qed.

Lemma recover_end log s : valid_log log -> tracked log s -> accounted log s -> 
  replica_ <$> recover [] s = replay_serially (changes_of log <$> deferred_txns_ s) (replica_ s) /\
  forall s', recover [] s = Some s' -> deferred_txns_ s' = [] /\ buffered_changes_map_ s' = ∅ /\ cleaned s' ≡ₚ log.*1.
Proof.
  intros V [T1 T2 T3] A. assert (forall id, id ∈ deferred_txns_ s -> id <= 2 ^ 63 - 1) as Hle.
  { intros id Hid%T2. assert (log = log ++ []) as E by by rewrite app_nil_r. destruct (committed_changes log log [] id V E Hid) as (_ & ? & _). lia. }
  destruct (deferred_done (2 ^ 63 - 1) s log T1) as [D1 D2]; [auto|done|]. cbv zeta in D1, D2. rewrite filter_all in D1 by (by apply Forall_forall).
  unfold RecoverFromLogs. cbn [process_log mbind option_bind]. rewrite process_all_deferred.
  destruct (ProcessDeferredTransactions gc log_on undo_address (2 ^ 63 - 1) s) as [[n s1]|]; cbn [mbind option_bind fmap option_fmap option_map snd] in *; [|by rewrite <-D1].
  destruct (D2 n s1 eq_refl) as (F1 & _ & F3). rewrite filter_none in F1 by (apply Forall_forall; intros x Hx Hn; by apply Hn, Hle). rewrite decide_True by done.
  destruct (give_up_spec (map_to_list (buffered_changes_map_ s1)).*1 s1) as (G1 & G2 & G3). cbv zeta in *. set (s2 := foldl _ s1 _) in *.
  split; [cbn; by rewrite G1|]. intros s' [= <-]. cbn. split; [by rewrite G2|]. split; [done|]. change (cleaned (set_buffered ∅ s2)) with (cleaned s2).
  rewrite G3. unfold accounted in A. rewrite <-A, <-F3. f_equiv. by rewrite buffers_by_key.
Qed.

Lemma recover_tracked log : valid_log log -> forall post pre s ids, log = pre ++ post -> tracked pre s -> accounted pre s -> StronglySorted Z.lt ids ->
  ids ≡ₚ deferred_txns_ s ++ committed post ->
  replica_ <$> recover post s = replay_serially (changes_of log <$> ids) (replica_ s) /\
  forall s', recover post s = Some s' -> deferred_txns_ s' = [] /\ buffered_changes_map_ s' = ∅ /\ cleaned s' ≡ₚ log.*1.
Proof.
  intros V post. induction post as [|[r vs] post IH]; intros pre s ids E T A Hs Hp.
  { rewrite app_nil_r in E, Hp. subst pre. apply (ascending_unique _ _ Hs (tr_sorted _ _ T)) in Hp as ->. by apply recover_end. }
  assert (forall s, recover ((r, vs) :: post) s = ProcessLogRecord gc log_on undo_address (r, vs) s ≫= recover post) as Estep.
  { intros s0. unfold RecoverFromLogs. cbn [process_log]. by destruct (ProcessLogRecord _ _ _ _ s0). }
  rewrite Estep. assert (log = (pre ++ [(r, vs)]) ++ post) as E' by (by rewrite <-app_assoc). clear Estep.
  destruct (is_commit r) eqn:Ec.
  - unfold is_commit in Ec. destruct (body_ r) as [| |t o cb ro|] eqn:Er; try done. destruct (vl_commit _ V _ _ _ _ _ _ _ _ E Er) as (-> & _).
    destruct (read_commit log pre r post s ids t o cb ro V E Er T A Hs Hp) as (due & rest & -> & Hrs & H1 & H2).
    rewrite fmap_app, replay_serially_app, <-H1. destruct (ProcessLogRecord gc log_on undo_address (r, []) s) as [s1|]; cbn [mbind option_bind fmap option_fmap option_map]; [|done].
    destruct (H2 s1 eq_refl) as (T' & A' & Hp'). by eapply IH.
  - assert (committed ((r, vs) :: post) = committed post) as Ep by (unfold committed; rewrite filter_cons_False; [done|cbn; congruence]). rewrite Ep in Hp.
    destruct (is_change r) eqn:Eh.
    + destruct (read_change log pre r vs post s V E Eh T A) as (s1 & -> & T' & A' & Hd & <-). cbn [mbind option_bind]. eapply IH; try done. by rewrite Hd.
    + assert (body_ r = AbortRecord) as Er by (unfold is_change, is_commit in *; by destruct (body_ r)).
      destruct (read_abort log pre r vs post s V E Er T A) as (s1 & -> & T' & A' & Hd & <-). cbn [mbind option_bind]. eapply IH; try done. by rewrite Hd.
Qed.

(** A manager before recovery. *)
Definition idle (s : RecoveryManager I) : Prop := deferred_txns_ s = [] /\ buffered_changes_map_ s = ∅ /\ cleaned s = [].

End serial.

(** ** Deciding validity *)

Definition record_valid (pre : list change) (r : LogRecord) (vs : list Z) (post : list change) : bool :=
  match body_ r with
  | CommitRecord _ oldest _ _ =>
    bool_decide (vs = []) && bool_decide (oldest <= txn_begin_ r < 2 ^ 63) &&
    forallb (fun c => negb (bool_decide (txn_begin_ c.1 = txn_begin_ r)) || is_change c.1) pre &&
    forallb (fun c => negb (bool_decide (txn_begin_ c.1 = txn_begin_ r))) post &&
    forallb (fun c => negb (is_commit c.1) || bool_decide (oldest <= txn_begin_ c.1)) post
  | AbortRecord => bool_decide (vs = [])
  | _ => true
  end.

Fixpoint valid_from (pre post : list change) : bool :=
  match post with
  | [] => true
  | c :: rest => record_valid pre c.1 c.2 rest && valid_from (pre ++ [c]) rest
  end.

Lemma valid_from_at post : forall pre p r vs q, valid_from pre post = true -> post = p ++ (r, vs) :: q -> record_valid (pre ++ p) r vs q = true.
Proof.
  induction post as [|c post IH]; intros pre p r vs q; [by destruct p|]. cbn [valid_from]. intros [H1 H2]%andb_true_iff. destruct p as [|c' p]; intros [= -> E].
  - rewrite app_nil_r. by subst.
  - replace (pre ++ c' :: p) with ((pre ++ [c']) ++ p) by by rewrite <-app_assoc. by apply IH.
Qed.

Lemma forallb_elem {A} (f : A -> bool) l x : forallb f l = true -> x ∈ l -> f x = true.
Proof. intros H Hx. eapply forallb_forall in H; [done|]. by apply list_elem_of_In. Qed.

Lemma valid_from_sound log : valid_from [] log = true -> valid_log log.
Proof.
  intros V. constructor.
  - intros pre r vs post t o cb ro E Hb. pose proof (valid_from_at log [] pre r vs post V E) as H. cbn [app] in H. unfold record_valid in H. rewrite Hb in H.
    apply andb_true_iff in H as [[[[H1 H2]%andb_true_iff H3]%andb_true_iff H4]%andb_true_iff H5]. apply bool_decide_eq_true in H1, H2. split; [done|]. split; [done|].
    split_and!; intros c Hc.
    + pose proof (forallb_elem _ _ c H3 Hc) as G. cbn beta in G. intros Eq. rewrite bool_decide_eq_true_2 in G by done. done.
    + pose proof (forallb_elem _ _ c H4 Hc) as G. cbn beta in G. by apply negb_true_iff, bool_decide_eq_false in G.
    + pose proof (forallb_elem _ _ c H5 Hc) as G. cbn beta in G. intros Ec. rewrite Ec in G. by apply bool_decide_eq_true in G.
  - intros r vs (pre & post & E)%list_elem_of_split Hb. pose proof (valid_from_at log [] pre r vs post V E) as H. unfold record_valid in H. rewrite Hb in H. by apply bool_decide_eq_true in H.
Qed.

(** ** Examples *)

(** An index as a list of keys and slots, and a catalog with one table and one index. *)
Record list_index := ListIndex { columns_ : list (Z * Z); entries_ : list (row * TupleSlot) }.

#[export] Instance list_Index : Index list_index := {
  key_columns := columns_;
  Unique _ := false;
  Insert _ key slot t i := Some (true, RegisterAbortAction 0 t, ListIndex (columns_ i) ((key, slot) :: entries_ i));
  InsertUnique _ _ _ _ _ := None;
  Delete _ _ _ t i := Some (RegisterCommitAction 0 t, i)
}.

#[export] Instance demo_Catalog : Catalog list_index := {
  databases_ := 1;
  catalog_table _ _ := None;
  GetTable _ _ db_oid table_oid := if decide (db_oid = 1 /\ table_oid = 1001) then Some 1 else None;
  GetIndexes _ _ _ _ := [1];
  ProcessSpecialCasePGDatabaseRecord _ _ _ _ := None;
  ProcessSpecialCasePGClassRecord _ _ _ _ := None
}.

Definition demo_undo (u : gmap Z UndoRecord) : Z := 1 + foldr Z.max 0 (map_to_list u).*1.

Definition demo_world : world :=
  default (init_world []) (exec true false (OCreateTable 1 (BlockLayout.mk [8; 8; 8] [] 24 64 4 64)) (init_world [BLOCK_SIZE; 2 * BLOCK_SIZE; 3 * BLOCK_SIZE; 4 * BLOCK_SIZE; 5 * BLOCK_SIZE; 6 * BLOCK_SIZE])).
Definition demo_manager : RecoveryManager list_index :=
  Manager (Replica demo_world {[ (1, 1) := ListIndex [(0, 2)] [] ]} ∅) [] ∅ 0 (DeferredActionManager.mk [] []).

(** Transaction 12 commits before 10, which started earlier; 14 aborts, 16 changes rows of
    both, 18 does not finish. *)
Definition demo_redo (txn slot a b : Z) : change := (mk 0 txn (RedoRecord 1 1001 slot [(1, Some [a]); (2, Some [b])]), []).
Definition demo_commit (txn oldest : Z) : change := (InitializeCommit txn (txn + 100) 0 oldest false, []).
Definition demo_log : list change :=
  [demo_redo 12 256 1 2; demo_redo 10 512 3 4; demo_commit 12 10; demo_redo 14 768 0 0; demo_commit 10 10; (InitializeAbort 14, []);
   (mk 0 16 (RedoRecord 1 1001 256 [(2, Some [7])]), []); demo_redo 18 1024 9 9; (InitializeDelete 16 1 1001 512, []); demo_commit 16 16].

Example demo_log_recovers : exists s, RecoverFromLogs true false demo_undo demo_log demo_manager = Some s /\
  (dom (tuple_slot_map_ (replica_ s)) : gset TupleSlot) = {[slot_of 256]} /\ recovered_txns_ s = 3.
Proof. eexists. split; [vm_compute; reflexivity|]. split; vm_compute; reflexivity. Qed.

(** ** Theorems *)

(** C11: recovery is serial replay.  For a log as the system writes it, the tables, the
    indexes and the slot map after recovery are those of replaying the committed
    transactions one after the other in the order of their start, each with all its changes
    and nothing of aborted or unfinished ones, and recovery fails exactly when that does;
    afterwards no transaction is deferred, no change buffered, and every record read is
    registered for deletion exactly once. *)
Theorem recovery_serial {I : Type} `{!Index I, !Catalog I} (gc log_on : bool) (undo_address : gmap Z UndoRecord -> Z)
    (log : list change) (ids : list Z) (s : RecoveryManager I) :
  idle s -> valid_log log -> StronglySorted Z.lt ids -> ids ≡ₚ committed log ->
  replica_ <$> RecoverFromLogs gc log_on undo_address log s = replay_serially gc log_on undo_address (changes_of log <$> ids) (replica_ s) /\
  forall s', RecoverFromLogs gc log_on undo_address log s = Some s' ->
    deferred_txns_ s' = [] /\ buffered_changes_map_ s' = ∅ /\ cleaned s' ≡ₚ log.*1.
Proof.
  intros (H1 & H2 & H3) V Hs Hp. apply (recover_tracked gc log_on undo_address log V log []); [done| | |done|by rewrite H1].
  - constructor; rewrite ?H1; [constructor|by intros id ?%elem_of_nil|]. intros id _. by rewrite H2.
  - unfold accounted, buffered_records. by rewrite H2, H3.
Qed.

Lemma recovery_serial_witness : exists r, replay_serially true false demo_undo (changes_of demo_log <$> [10; 12; 16]) (replica_ demo_manager) = Some r /\
  replica_ <$> RecoverFromLogs true false demo_undo demo_log demo_manager = Some r.
Proof.
  eexists. split; [vm_compute; reflexivity|]. etransitivity; [|vm_compute; reflexivity].
  refine (proj1 (recovery_serial true false demo_undo demo_log [10; 12; 16] demo_manager _ _ _ _)).
  - split; [reflexivity|]. split; reflexivity.
  - apply valid_from_sound. vm_compute. reflexivity.
  - repeat constructor.
  - vm_compute. apply perm_swap.
Defined.

(** Recovery keeps every catalog index of a database up to date but one: the one on the
    table of a constraint. *)
Lemma catalog_index_not_updated (oid : Z) : oid ∈ catalog_index_oids ->
  (exists table_oid oids, table_oid ∈ catalog_oids /\ catalog_indexes table_oid = Some oids /\ oid ∈ oids) <-> oid <> CONSTRAINT_TABLE_INDEX_OID.
Proof.
  intros Hoid. set (updated := catalog_oids ≫= fun t => default [] (catalog_indexes t)).
  assert ((exists table_oid oids, table_oid ∈ catalog_oids /\ catalog_indexes table_oid = Some oids /\ oid ∈ oids) <-> oid ∈ updated) as ->.
  { unfold updated. rewrite list_elem_of_bind. split.
    - intros (t & oids & Ht & Ho & Hin). exists t. by rewrite Ho.
    - intros (t & Hin & Ht). destruct (catalog_indexes t) as [oids|] eqn:E; [by exists t, oids|by apply elem_of_nil in Hin]. }
  assert (Forall (fun o => o ∈ updated <-> o <> CONSTRAINT_TABLE_INDEX_OID) catalog_index_oids) as H; [|rewrite Forall_forall in H; auto].
  apply (bool_decide_unpack _). vm_compute. exact Logic.I.
Qed.

(** The transactions replayed at the end of the log are missing from the count. *)
Lemma recovered_txns_misses_last : exists s, RecoverFromLogs true false demo_undo [demo_commit 12 10] demo_manager = Some s /\
  committed [demo_commit 12 10] = [12] /\ time (world_ (replica_ s)) = time demo_world + 2 /\ recovered_txns_ s = 0.
Proof. eexists. split; [vm_compute; reflexivity|]. split_and!; vm_compute; reflexivity. Qed.
