(* ===== verification/Replay.v ===== *)
(** * What recovery restores

    The content of the database as the log describes it, a map from slots to rows, and the
    proof that replaying a committed transaction with [recovery_manager.cpp] on the
    multi-version tables changes the recovered tables the same way: no replayed change meets
    a conflict, inserts get fresh slots, the index assertions hold.  With the order of
    [Recovery], the recovered tables are the result of the committed transactions in the
    order of their commits. *)

From S2P Require Import Prelude Layout Varlen Timestamps DataTable Versions TxnManager GarbageCollector Mvcc MvccWrite MvccFinish Snapshot LogRecords Recovery.
Import LogRecord RecoveryManager.

(** ** The content a log describes *)

(** The table and the attributes of the tuple in each slot. *)
Abbreviation content := (gmap TupleSlot (Z * attributes)).

Section content.
Context (user_table : Z -> Z -> option Z) (columns : Z -> list Z).

(** The first redo of a slot inserts a whole row, later ones overwrite their columns. *)
Definition apply_change (r : LogRecord) (c : content) : option content :=
  match body_ r with
  | RedoRecord db_oid table_oid slot delta =>
    tb ← user_table db_oid table_oid;
    match c !! slot_of slot with
    | None => if decide (delta.*1 = columns tb) then Some (<[slot_of slot := (tb, write_row delta ∅)]> c) else None
    | Some (tb', a) => if decide (tb' = tb) then Some (<[slot_of slot := (tb, write_row delta a)]> c) else None
    end
  | DeleteRecord db_oid table_oid slot =>
    tb ← user_table db_oid table_oid;
    '(tb', _) ← c !! slot_of slot;
    if decide (tb' = tb) then Some (delete (slot_of slot) c) else None
  | _ => None
  end.

Fixpoint apply_changes (changes : list change) (c : content) : option content :=
  match changes with
  | [] => Some c
  | p :: rest => c ← apply_change p.1 c; apply_changes rest c
  end.

Definition apply_txns (txns : list (list change)) : content -> option content := apply_changes (concat txns).

End content.

Lemma apply_changes_app user_table columns a b c :
  apply_changes user_table columns (a ++ b) c = apply_changes user_table columns a c ≫= apply_changes user_table columns b.
Proof. revert c. induction a as [|p a IH]; intros c; [done|]. cbn [app apply_changes]. destruct (apply_change _ _ _ _); cbn [mbind option_bind]; [apply IH|done]. Qed.

(** ** Changes of different slots commute *)

Definition change_slot (r : LogRecord) : option TupleSlot :=
  match body_ r with RedoRecord _ _ slot _ | DeleteRecord _ _ slot => Some (slot_of slot) | _ => None end.

(** The slots a transaction changes. *)
Definition touched (changes : list change) : list TupleSlot := omap (fun p => change_slot p.1) changes.

Section commute.
Context (user_table : Z -> Z -> option Z) (columns : Z -> list Z).
#[local] Abbreviation apply1 := (apply_change user_table columns).
#[local] Abbreviation apply_all := (apply_changes user_table columns).

(** A change reads and writes its slot only. *)
Definition change_at (r : LogRecord) (v : option (Z * attributes)) : option (option (Z * attributes)) :=
  match body_ r with
  | RedoRecord db_oid table_oid _ delta =>
    tb ← user_table db_oid table_oid;
    match v with
    | None => if decide (delta.*1 = columns tb) then Some (Some (tb, write_row delta ∅)) else None
    | Some (tb', a) => if decide (tb' = tb) then Some (Some (tb, write_row delta a)) else None
    end
  | DeleteRecord db_oid table_oid _ =>
    tb ← user_table db_oid table_oid;
    '(tb', _) ← v;
    if decide (tb' = tb) then Some None else None
  | _ => None
  end.

Lemma apply_change_at r c : apply1 r c =
  match change_slot r with Some s => (fun v => partial_alter (fun _ => v) s c) <$> change_at r (c !! s) | None => None end.
Proof.
  unfold apply_change, change_slot, change_at. destruct (body_ r) as [db tbl slot delta|db tbl slot| |]; try done.
  - destruct (user_table db tbl); [|done]. cbn [mbind option_bind]. destruct (c !! slot_of slot) as [[tb' a]|]; by case_decide.
  - destruct (user_table db tbl); [|done]. cbn [mbind option_bind]. destruct (c !! slot_of slot) as [[tb' a]|]; [|done]. cbn [mbind option_bind]. by case_decide.
Qed.

Lemma change_commutes r1 r2 c : (forall s, change_slot r1 = Some s -> change_slot r2 = Some s -> False) -> apply1 r1 c ≫= apply1 r2 = apply1 r2 c ≫= apply1 r1.
Proof.
  intros Hd. assert (forall r r' s s', change_slot r = Some s -> change_slot r' = Some s' -> s <> s' -> apply1 r c ≫= apply1 r' =
    v ← change_at r (c !! s); v' ← change_at r' (c !! s'); Some (partial_alter (fun _ => v') s' (partial_alter (fun _ => v) s c))) as Hcomp.
  { intros r r' s s' E E' Hne. rewrite apply_change_at, E. destruct (change_at r (c !! s)) as [v|]; [|done]. cbn [fmap option_fmap option_map mbind option_bind].
    rewrite apply_change_at, E', lookup_partial_alter_ne by done. by destruct (change_at r' (c !! s')). }
  destruct (change_slot r1) as [s1|] eqn:E1, (change_slot r2) as [s2|] eqn:E2.
  - assert (s1 <> s2) as Hne by (intros ->; by eapply Hd). rewrite (Hcomp r1 r2 s1 s2 E1 E2 Hne), (Hcomp r2 r1 s2 s1 E2 E1 (not_eq_sym Hne)).
    destruct (change_at r1 (c !! s1)), (change_at r2 (c !! s2)); try done. cbn [mbind option_bind]. f_equal. by apply partial_alter_partial_alter_ne.
  - rewrite (apply_change_at r2 c), E2. destruct (apply1 r1 c) as [c1|]; [|done]. cbn [mbind option_bind]. by rewrite apply_change_at, E2.
  - rewrite (apply_change_at r1 c), E1. destruct (apply1 r2 c) as [c1|]; [|done]. cbn [mbind option_bind]. by rewrite apply_change_at, E1.
  - by rewrite (apply_change_at r1 c), (apply_change_at r2 c), E1, E2.
Qed.

(** One change past others. *)
Lemma change_past p b : forall c, (forall s, change_slot p.1 = Some s -> s ∉ touched b) -> apply_all (p :: b) c = apply_all (b ++ [p]) c.
Proof.
  induction b as [|q b IH]; intros c Hd; [done|]. cbn [app]. transitivity (apply1 q.1 c ≫= fun c => apply_all (p :: b) c).
  - transitivity ((apply1 p.1 c ≫= apply1 q.1) ≫= apply_all b).
    + cbn [apply_changes]. by destruct (apply1 p.1 c).
    + rewrite change_commutes; [by destruct (apply1 q.1 c)|]. intros s Hp Hq. apply (Hd s Hp). unfold touched. apply list_elem_of_omap. exists q. split; [left|done].
  - cbn [apply_changes]. destruct (apply1 q.1 c) as [c1|]; [|done]. cbn [mbind option_bind]. rewrite <-IH; [done|].
    intros s Hp [x [Hx Hxs]]%list_elem_of_omap. apply (Hd s Hp). apply list_elem_of_omap. exists x. split; [by right|done].
Qed.

(** Transactions that change different slots. *)
Lemma changes_commute a : forall b c, (forall s, s ∈ touched a -> s ∉ touched b) -> apply_all (a ++ b) c = apply_all (b ++ a) c.
Proof.
  induction a as [|p a IH]; intros b c Hd; [by rewrite app_nil_r|]. replace (b ++ p :: a) with ((b ++ [p]) ++ a) by by rewrite <-app_assoc.
  assert (forall s, s ∈ touched a -> s ∉ touched b) as Hd'.
  { intros s [x [Hx Hxs]]%list_elem_of_omap. apply Hd, list_elem_of_omap. exists x. split; [by right|done]. }
  rewrite (apply_changes_app _ _ (b ++ [p])), <-change_past.
  2: { intros s Hs. apply Hd, list_elem_of_omap. exists p. split; [left|done]. }
  cbn [app apply_changes]. destruct (apply1 p.1 c) as [c1|]; [|done]. cbn [mbind option_bind]. rewrite IH by done. apply apply_changes_app.
Qed.

(** Transactions may be reordered where those that are swapped change different slots. *)
Lemma reorder (f : Z -> list change) : forall ids sorted c, StronglySorted Z.lt sorted -> sorted ≡ₚ ids ->
  (forall pre x mid y post, ids = pre ++ x :: mid ++ y :: post -> y < x -> forall s, s ∈ touched (f x) -> s ∉ touched (f y)) ->
  apply_txns user_table columns (f <$> ids) c = apply_txns user_table columns (f <$> sorted) c.
Proof.
  unfold apply_txns. induction ids as [|x ids IH]; intros sorted c Hs Hp Hd.
  { symmetry in Hp. by apply Permutation_nil in Hp as ->. }
  assert (x ∈ sorted) as (l1 & l2 & ->)%list_elem_of_split by (rewrite Hp; left). apply StronglySorted_app in Hs as (H1 & Hs1 & Hs2).
  apply StronglySorted_inv in Hs2 as [Hs2 Hx]. rewrite <-Permutation_middle in Hp. apply Permutation_cons_inv in Hp.
  rewrite Forall_forall in Hx.
  assert (StronglySorted Z.lt (l1 ++ l2)) as Hs12. { apply StronglySorted_app_2; [|done|done]. intros y z Hy Hz. apply H1; [done|by right]. }
  assert (forall c, apply_all (concat (f <$> ids)) c = apply_all (concat (f <$> l1 ++ l2)) c) as IH'.
  { intros c0. apply IH; [done|done|]. intros pre y mid z post E. apply (Hd (x :: pre) y mid z post). cbn. by rewrite E. }
  cbn [fmap list_fmap concat]. rewrite apply_changes_app. transitivity (apply_all (f x ++ concat (f <$> l1 ++ l2)) c).
  { rewrite apply_changes_app. destruct (apply_all (f x) c); [apply IH'|done]. }
  rewrite !fmap_app, !concat_app. cbn [fmap list_fmap concat]. rewrite (app_assoc (f x)), (app_assoc (concat (f <$> l1)) (f x)).
  rewrite 2!(apply_changes_app _ _ _ (concat (f <$> l2))). f_equal. apply changes_commute. intros s Hsx [z [Hz Hzs]]%list_elem_of_omap.
  apply list_elem_of_In, in_concat in Hz as (zs & [y [<- Hy]]%in_map_iff & Hz). apply list_elem_of_In in Hz, Hy.
  assert (y ∈ ids) as (mid & post & ->)%list_elem_of_split by (rewrite <-Hp; apply elem_of_app; by left).
  apply (Hd [] x mid y post eq_refl (H1 y x Hy ltac:(left)) s Hsx), list_elem_of_omap. by exists z.
Qed.

End commute.

(** ** Actions do not matter to the multi-version state *)

(** The transaction with other actions registered. *)
Definition only_actions (t t' : TransactionContext) : Prop :=
  exists a c, t' = Txn (start_time_ t) (finish_time_ t) (undo_buffer_ t) (last_log_record_ t) (has_flushed_ t) (loose_ptrs_ t) a c (aborted_ t) (must_abort_ t).

Lemma only_actions_refl t : only_actions t t.
Proof. exists (abort_actions_ t), (commit_actions_ t). by destruct t. Qed.

Lemma only_actions_trans t1 t2 t3 : only_actions t1 t2 -> only_actions t2 t3 -> only_actions t1 t3.
Proof. intros (a & c & ->) (a' & c' & ->). by exists a', c'. Qed.

Lemma actions_winv w id t t' : winv w -> txns w !! id = Some t -> only_actions t t' -> winv (put_txn t' w).
Proof.
  intros Hinv Ht (a & c & ->). pose proof (wi_txn _ Hinv _ _ Ht) as T. pose proof (proj1 (ti_start _ _ _ T)) as Hst.
  set (t' := Txn _ _ _ _ _ _ a c _ _). set (w' := put_txn t' w). assert (txns w' = <[id := t']> (txns w)) as Etx by (unfold w', put_txn, t'; cbn; by rewrite Hst).
  assert (forall i s', txns w' !! i = Some s' -> exists s, txns w !! i = Some s /\ finish_time_ s' = finish_time_ s /\ undo_buffer_ s' = undo_buffer_ s /\
    start_time_ s' = start_time_ s /\ aborted_ s' = aborted_ s /\ must_abort_ s' = must_abort_ s /\ last_log_record_ s' = last_log_record_ s) as Hback.
  { intros i s'. rewrite Etx. destruct (decide (id = i)) as [<-|Hne]; [rewrite lookup_insert_eq; intros [= <-]; by exists t|rewrite lookup_insert_ne by done; by exists s']. }
  assert (forall p, owned w p -> owned w' p) as Hown.
  { intros p (i & s & Hi & Hp & Hd). exists i. rewrite Etx. destruct (decide (id = i)) as [<-|Hne]; [|rewrite lookup_insert_ne by done; by exists s].
    rewrite Ht in Hi. injection Hi as <-. exists t'. by rewrite lookup_insert_eq. }
  assert (forall sl l, slot_inv w sl l -> slot_inv w' sl l) as Hslot.
  { intros sl l [H1 H2 H3 H4 H5]. constructor; try done. intros p r Hp Hr. destruct (H3 p r Hp Hr) as (? & ? & ? & ? & ?). split_and!; auto. }
  constructor; try apply Hinv.
  - intros i s' Hs'. destruct (Hback i s' Hs') as (s & Hs & Ef & Eu & Es & Ea & Em & El). pose proof (wi_txn _ Hinv _ _ Hs) as [T1 T2 T3 T4 T5 T6 T7 T8 T9].
    constructor; unfold active in *; rewrite ?Ef, ?Eu, ?Es, ?Ea, ?Em, ?El; try done.
    intros Hact p r Hp Hr Htb. destruct (T6 Hact p r Hp Hr Htb) as (l & Hl & ?). eauto.
  - intros i1 t1 i2 t2 p H1 H2 Hp1 Hp2. destruct (Hback _ _ H1) as (s1 & G1 & _ & E1 & _). destruct (Hback _ _ H2) as (s2 & G2 & _ & E2 & _).
    rewrite E1 in Hp1. rewrite E2 in Hp2. by eapply (wi_disjoint _ Hinv).
  - intros sl. destruct (wi_slot _ Hinv sl) as [l Hl]. eauto.
  - intros i Hi. destruct (wi_log _ Hinv i Hi) as [H1 H2]. split; [done|]. intros s' Hs'. destruct (Hback _ _ Hs') as (s & Hs & Ef & _). unfold active. rewrite Ef. by apply H2.
  - destruct (wi_queues _ Hinv) as [Q1 Q2]. split; [done|]. intros i Hi. destruct (Q2 i Hi) as (s & Hs & Ha). destruct (decide (id = i)) as [<-|Hne].
    + exists t'. rewrite Etx, lookup_insert_eq. rewrite Ht in Hs. by injection Hs as <-.
    + exists s. by rewrite Etx, lookup_insert_ne.
Qed.

(** ** Recovered tuples *)

(** The slots of the content map to distinct new slots that hold its rows, and nothing else
    is visible. *)
Record rep (c : content) (slot_map : gmap TupleSlot TupleSlot) (m : memory) : Prop := {
  rep_dom : forall s, slot_map !! s = None <-> c !! s = None;
  rep_inj : forall s s' n, slot_map !! s = Some n -> slot_map !! s' = Some n -> s = s';
  rep_row : forall s tb a n, c !! s = Some (tb, a) -> slot_map !! s = Some n ->
    Visible m n = true /\ attrs_ (tuple_at m n) = a /\ data_tables m !! TupleSlot.GetBlock n = Some tb;
  rep_only : forall n, Visible m n = true -> exists s, slot_map !! s = Some n
}.

(** One tuple is written; blocks stay in their tables. *)
Definition tuple_written (m m' : memory) (n : TupleSlot) (tp : tuple) : Prop :=
  (forall n', tuple_at m' n' = if decide (n' = n) then tp else tuple_at m n') /\
  (forall b tb, data_tables m !! b = Some tb -> data_tables m' !! b = Some tb).

Lemma written_visible m m' n tp n' : tuple_written m m' n tp -> Visible m' n' = if decide (n' = n) then allocated_ tp && present_ tp else Visible m n'.
Proof. intros [H _]. unfold Visible. rewrite H. by case_decide. Qed.

Lemma rep_insert c sm m m' s n tb a p : rep c sm m -> tuple_written m m' n (Tuple true true p a) -> data_tables m' !! TupleSlot.GetBlock n = Some tb ->
  c !! s = None -> Visible m n = false -> rep (<[s := (tb, a)]> c) (<[s := n]> sm) m'.
Proof.
  intros [R1 R2 R3 R4] Hw Hd Hs Hv. pose proof Hw as [Ht Hdt]. assert (sm !! s = None) as Hsm by by apply R1.
  assert (forall s', sm !! s' = Some n -> False) as Hnew.
  { intros s' Hs'. destruct (c !! s') as [[tb' a']|] eqn:E; [|apply R1 in E; congruence]. destruct (R3 _ _ _ _ E Hs') as (? & _). congruence. }
  constructor.
  - intros s'. destruct (decide (s = s')) as [<-|]; [by rewrite !lookup_insert_eq|by rewrite !lookup_insert_ne].
  - intros s1 s2 n'. rewrite !lookup_insert_Some. intros [[<- <-]|[? H1]] [[<- E]|[? H2]]; try done; [by apply Hnew in H2|by subst; apply Hnew in H1|by eapply R2].
  - intros s' tb' a' n'. rewrite !lookup_insert_Some. intros [[<- [= <- <-]]|[? H1]] [[? <-]|[? H2]]; try done.
    + rewrite (written_visible _ _ _ _ n Hw), Ht, !decide_True by done. done.
    + destruct (R3 _ _ _ _ H1 H2) as (G1 & G2 & G3). assert (n' <> n) by (intros ->; by apply Hnew in H2).
      rewrite (written_visible _ _ _ _ n' Hw), Ht, !decide_False by done. split_and!; auto.
  - intros n'. rewrite (written_visible _ _ _ _ n' Hw). case_decide as E; [subst; intros _; exists s; by rewrite lookup_insert_eq|].
    intros [s' Hs']%R4. exists s'. rewrite lookup_insert_ne; [done|congruence].
Qed.

Lemma rep_update c sm m m' s n tb a a' p : rep c sm m -> c !! s = Some (tb, a) -> sm !! s = Some n -> tuple_written m m' n (Tuple true true p a') ->
  rep (<[s := (tb, a')]> c) sm m'.
Proof.
  intros [R1 R2 R3 R4] Hs Hn Hw. pose proof Hw as [Ht Hdt]. destruct (R3 _ _ _ _ Hs Hn) as (Hv & _ & Hd). constructor.
  - intros s'. destruct (decide (s = s')) as [<-|]; [rewrite Hn, lookup_insert_eq; done|by rewrite lookup_insert_ne].
  - done.
  - intros s' tb' b n'. rewrite lookup_insert_Some. intros [[<- [= <- <-]]|[Hne H1]] H2.
    + assert (n' = n) as -> by congruence. rewrite (written_visible _ _ _ _ n Hw), Ht, !decide_True by done. auto.
    + assert (n' <> n) by (intros ->; destruct Hne; by eapply R2). destruct (R3 _ _ _ _ H1 H2) as (G1 & G2 & G3).
      rewrite (written_visible _ _ _ _ n' Hw), Ht, !decide_False by done. split_and!; auto.
  - intros n'. rewrite (written_visible _ _ _ _ n' Hw). case_decide as E; [subst; by exists s|by apply R4].
Qed.

Lemma rep_delete c sm m m' s n tb a tp : rep c sm m -> c !! s = Some (tb, a) -> sm !! s = Some n -> present_ tp = false -> tuple_written m m' n tp ->
  rep (delete s c) (delete s sm) m'.
Proof.
  intros [R1 R2 R3 R4] Hs Hn Hp Hw. pose proof Hw as [Ht Hdt]. constructor.
  - intros s'. destruct (decide (s = s')) as [<-|]; [by rewrite !lookup_delete_eq|by rewrite !lookup_delete_ne].
  - intros s1 s2 n'. rewrite !lookup_delete_Some. intros [_ ?] [_ ?]. by eapply R2.
  - intros s' tb' b n'. rewrite !lookup_delete_Some. intros [Hne H1] [_ H2]. destruct (R3 _ _ _ _ H1 H2) as (G1 & G2 & G3).
    assert (n' <> n) by (intros ->; destruct Hne; by eapply R2). rewrite (written_visible _ _ _ _ n' Hw), Ht, !decide_False by done. split_and!; auto.
  - intros n'. rewrite (written_visible _ _ _ _ n' Hw). case_decide as E; [rewrite Hp, andb_false_r; done|].
    intros [s' Hs']%R4. exists s'. rewrite lookup_delete_ne; [done|congruence].
Qed.

(** ** A transaction without rivals *)

(** A running transaction that started after all others had finished. *)
Definition alone (w : world) (id : Z) (t : TransactionContext) : Prop :=
  running w id t /\ must_abort_ t = false /\ forall i s, txns w !! i = Some s -> i <> id -> finish_time_ s < id.

Lemma alone_free w id t sl l : winv w -> alone w id t -> slot_inv w sl l -> forall r, head (records (heap w) l) = Some r ->
  timestamp_ r = finish_time_ t \/ (timestamp_ r < 2 ^ 63 /\ timestamp_ r <= start_time_ t).
Proof.
  intros Hinv (Hrun & _ & Hold) Hl r Hr. destruct (head_in_chain _ _ _ _ (si_chain _ _ _ Hl) Hr) as (p & l' & -> & _ & Hp).
  destruct (chain_record_txn w sl _ p r Hinv Hl ltac:(left) Hp) as (i & s & Hi & _ & Ets & _). pose proof (wi_txn _ Hinv _ _ (proj1 Hrun)) as T.
  destruct (ti_start _ _ _ T) as [Est Hid]. pose proof (wi_ts _ Hinv) as (Hb & _). unfold time in Hid. destruct (decide (i = id)) as [->|Hne].
  - left. rewrite (proj1 Hrun) in Hi. injection Hi as <-. done.
  - right. specialize (Hold i s Hi Hne). lia.
Qed.

Lemma alone_write w id t t' w' : alone w id t -> txns w' = <[id := t']> (txns w) -> finish_time_ t' = finish_time_ t -> must_abort_ t' = false -> alone w' id t'.
Proof.
  intros ([Ht Ha] & _ & Hold) Etx Ef Hm. split; [split; [by rewrite Etx, lookup_insert_eq|unfold active; by rewrite Ef]|]. split; [done|].
  intros i s. rewrite Etx. intros Hi Hne. rewrite lookup_insert_ne in Hi by done. by eapply Hold.
Qed.

Lemma alone_actions w id t t' : alone w id t -> start_time_ t = id -> only_actions t t' -> alone (put_txn t' w) id t'.
Proof. intros Ha Hs (a & c & ->). eapply (alone_write w id t); [done| |done|apply Ha]. unfold put_txn. cbn. by rewrite Hs. Qed.

(** ** Indexes *)

(** The transaction neither sees nor conflicts with what is in the slot. *)
Definition unseen (m : memory) (t : TransactionContext) (slot : TupleSlot) : Prop :=
  HasConflictSlot m t slot = Some false /\ IsVisible m t slot = Some false.

(** What the indexes promise: an index that is not unique takes any slot it does not hold;
    a deletion is registered when the transaction does not see the tuple any more. *)
Class IndexLaws (I : Type) `{!Index I} := {
  slots : I -> gset TupleSlot;
  Insert_law m key slot t i : Unique i = false -> slot ∉ slots i ->
    exists t' i', Insert m key slot t i = Some (true, t', i') /\ only_actions t t' /\ key_columns i' = key_columns i /\ Unique i' = Unique i /\ slots i' ⊆ {[slot]} ∪ slots i;
  Delete_law m key slot t i : unseen m t slot ->
    exists t' i', Delete m key slot t i = Some (t', i') /\ only_actions t t' /\ key_columns i' = key_columns i /\ Unique i' = Unique i /\ slots i' ⊆ slots i
}.

Section replay.
Context {I : Type} `{!Index I, !Catalog I, !IndexLaws I} (gc log_on : bool) (undo_address : gmap Z UndoRecord -> Z).
Context (user_table : Z -> Z -> option Z) (user_indexes : Z -> Z -> list Z) (columns : Z -> list Z).

(** An index on columns [cols] of a table, whose slots satisfy [used]. *)
Definition index_on (cols : list Z) (used : TupleSlot -> Prop) (i : I) : Prop :=
  Unique i = false /\ (forall p, p ∈ key_columns i -> p.2 ∈ cols) /\ forall s, s ∈ slots i -> used s.

Lemma index_key_total i (pr : row) : (forall p, p ∈ key_columns i -> p.2 ∈ pr.*1) -> exists key, index_key i pr = Some key.
Proof.
  unfold index_key. induction (key_columns i) as [|[o c] l IH]; intros H; [by eexists|]. cbn [mapM].
  destruct (row_value pr c) as [v|] eqn:E; [|apply row_value_None in E; destruct E; apply (H (o, c)); left]. cbn [mbind option_bind].
  destruct IH as [key ->]; [intros p Hp; apply H; by right|]. by eexists.
Qed.

(** Updating the indexes of a table succeeds and changes no other index. *)
Lemma update_indexes_ok insert m slot (pr : row) cols (used : TupleSlot -> Prop) : pr.*1 = cols -> forall oids t ix, NoDup oids ->
  (forall o, o ∈ oids -> exists i, ix !! o = Some i /\ index_on cols used i) ->
  (if (insert : bool) then ~ used slot else forall t', only_actions t t' -> unseen m t' slot) ->
  exists t' ix', update_indexes insert m slot pr oids t ix = Some (t', ix') /\ only_actions t t' /\
    (forall o, o ∉ oids -> ix' !! o = ix !! o) /\
    forall o, o ∈ oids -> exists i i', ix !! o = Some i /\ ix' !! o = Some i' /\ key_columns i' = key_columns i /\ Unique i' = Unique i /\ slots i' ⊆ {[slot]} ∪ slots i.
Proof.
  intros Hcols oids. induction oids as [|o oids IH]; intros t ix Hn Hix Hs; cbn [update_indexes].
  { exists t, ix. split; [done|]. split; [apply only_actions_refl|]. split; [done|]. by intros o ?%elem_of_nil. }
  apply NoDup_cons in Hn as [Ho Hn]. destruct (Hix o ltac:(left)) as (i & Hi & Hu & Hk & Hsl). rewrite Hi. cbn [mbind option_bind].
  destruct (index_key_total i pr) as [key ->]; [by rewrite Hcols|]. cbn [mbind option_bind].
  assert (exists t1 i1, (if insert then '(result, txn, index) ← (if Unique i then InsertUnique else Insert) m key slot t i;
        if (result : bool) then update_indexes insert m slot pr oids txn (<[o := index]> ix) else None
      else '(txn, index) ← Delete m key slot t i; update_indexes insert m slot pr oids txn (<[o := index]> ix)) =
      update_indexes insert m slot pr oids t1 (<[o := i1]> ix) /\ only_actions t t1 /\ key_columns i1 = key_columns i /\ Unique i1 = Unique i /\ slots i1 ⊆ {[slot]} ∪ slots i)
    as (t1 & i1 & -> & Ht1 & Hk1 & Hu1 & Hs1).
  { destruct insert.
    - rewrite Hu. destruct (Insert_law m key slot t i Hu) as (t1 & i1 & -> & ? & ? & ? & ?); [auto|]. exists t1, i1. split_and!; try done. congruence.
    - destruct (Delete_law m key slot t i) as (t1 & i1 & -> & ? & ? & ? & ?); [apply Hs, only_actions_refl|]. exists t1, i1. split_and!; try done. set_solver. }
  destruct (IH t1 (<[o := i1]> ix) Hn) as (t' & ix' & -> & Ht' & Hout & Hin).
  { intros o' Ho'. rewrite lookup_insert_ne by (intros ->; done). apply Hix. by right. }
  { destruct insert; [done|]. intros t2 Ht2. apply Hs. by eapply only_actions_trans. }
  exists t', ix'. split; [done|]. split; [by eapply only_actions_trans|]. split.
  - intros o' [Hne Ho']%not_elem_of_cons. rewrite Hout, lookup_insert_ne by done. done.
  - intros o' [->|Ho']%elem_of_cons.
    + exists i, i1. rewrite Hout, lookup_insert_eq by done. done.
    + destruct (Hin o' Ho') as (j & j' & Hj & Hj' & ?). exists j, j'. rewrite lookup_insert_ne in Hj by (intros ->; done). done.
Qed.

(** ** Replaying one change *)

(** The catalog finds the tables of the log, which are no catalog tables, and their
    indexes throughout. *)
Record user_catalog : Prop := {
  uc_oid : forall db tbl tb, user_table db tbl = Some tb -> tbl <> DATABASE_TABLE_OID /\ tbl ∉ catalog_oids;
  uc_table : forall w id db tbl tb, user_table db tbl = Some tb -> GetTable w id db tbl = Some tb;
  uc_indexes : forall w id db tbl tb, user_table db tbl = Some tb -> GetIndexes w id db tbl = user_indexes db tbl;
  uc_nodup : forall db tbl, NoDup (user_indexes db tbl)
}.

Definition used (w : world) (s : TupleSlot) : Prop := is_Some (tuples (mem w) !! s).

Definition indexes_ok (w : world) (ix : gmap (Z * Z) I) : Prop :=
  forall db tbl tb o, user_table db tbl = Some tb -> o ∈ user_indexes db tbl -> exists i, ix !! (db, o) = Some i /\ index_on (columns tb) (used w) i.

Record replica_ok (c : content) (r : replica I) : Prop := {
  ro_inv : winv (world_ r);
  ro_tables : forall db tbl tb, user_table db tbl = Some tb -> exists l, layout_of (world_ r) tb = Some l /\ BlockLayout.AllColumns l = columns tb /\
    Z.of_nat (length (columns tb)) = BlockLayout.NumColumns l - Z.of_nat NUM_RESERVED_COLUMNS;
  ro_indexes : indexes_ok (world_ r) (indexes_ r);
  ro_rep : rep c (tuple_slot_map_ r) (mem (world_ r))
}.

Context (Hcat : user_catalog) (Hundo : forall u, u !! undo_address u = None).

Lemma user_sql_table w id db tbl tb : user_table db tbl = Some tb -> GetSqlTable w id db tbl = Some tb.
Proof. intros H. destruct (uc_oid Hcat _ _ _ H) as [H1 H2]. unfold GetSqlTable. rewrite decide_False, decide_False by done. by apply Hcat. Qed.

Lemma user_not_catalog tbl : tbl <> DATABASE_TABLE_OID -> tbl ∉ catalog_oids -> catalog_indexes tbl = None.
Proof. intros H1 H2. unfold catalog_indexes, catalog_oids in *. rewrite !decide_False by set_solver. done. Qed.

(** The indexes of a table after its change; the change has left every slot used. *)
Lemma update_table_indexes insert id db tbl tb slot pr (r : replica I) w' t' : user_table db tbl = Some tb -> indexes_ok (world_ r) (indexes_ r) ->
  winv w' -> txns w' !! id = Some t' -> pr.*1 = columns tb -> (forall s, used (world_ r) s -> used w' s) -> used w' slot ->
  (if (insert : bool) then ~ used (world_ r) slot else forall t2, only_actions t' t2 -> unseen (mem w') t2 slot) ->
  exists t2 ix, UpdateIndexesOnTable id db tbl slot pr insert (set_world w' r) = Some (Replica (put_txn t2 w') ix (tuple_slot_map_ r)) /\
    only_actions t' t2 /\ winv (put_txn t2 w') /\ indexes_ok (put_txn t2 w') ix.
Proof.
  intros Htb Hix Hinv Ht Hpr Hused Hslot Hpre. destruct (uc_oid Hcat _ _ _ Htb) as [O1 O2].
  destruct (update_indexes_ok insert (mem w') slot pr (columns tb) (used (world_ r)) Hpr (pair db <$> user_indexes db tbl) t' (indexes_ r)) as (t2 & ix & Hup & Ha & Hout & Hin);
    [apply NoDup_fmap; [by intros ?? [=]|apply Hcat]|intros o (o' & -> & Ho)%list_elem_of_fmap; by eapply Hix|done|].
  exists t2, ix. split; [|split; [done|split; [by eapply actions_winv|]]].
  - unfold UpdateIndexesOnTable. cbn [world_ set_world indexes_]. rewrite user_not_catalog by done. rewrite (uc_indexes Hcat _ _ _ _ tb Htb), Ht. cbn [mbind option_bind]. by rewrite Hup.
  - intros db' tbl' tb' o Htb' Ho. destruct (Hix db' tbl' tb' o Htb' Ho) as (i & Hi & Hu & Hk & Hs).
    assert (forall s, used w' s -> used (put_txn t2 w') s) as Hput by done. destruct (decide ((db', o) ∈ pair db <$> user_indexes db tbl)) as [Hin'|Hin'].
    + destruct (Hin _ Hin') as (i1 & i2 & E1 & E2 & E3 & E4 & E5). assert (i1 = i) as -> by congruence. exists i2. split; [done|]. split; [congruence|]. split; [by rewrite E3|].
      intros s [->%elem_of_singleton|Hsi]%E5%elem_of_union; auto.
    + exists i. rewrite Hout by done. split; [done|]. split; [done|]. split; [done|]. auto.
Qed.

Lemma stage_insert tb s d t redo undo w : SqlTable_Insert tb (StageWrite s d t) redo undo w = SqlTable_Insert tb t redo undo w.
Proof.
  unfold SqlTable_Insert, DataTable.Insert. destruct (tables w !! tb) as [dt|]; [|done]. cbn [mbind option_bind]. case_decide; [done|].
  by destruct (find_slot _ _ _ _ _) as [[[[b sl] dt'] m]|].
Qed.

Lemma replay_insert id db tbl tb slot delta c r t : replica_ok c r -> alone (world_ r) id t -> user_table db tbl = Some tb -> c !! slot = None -> delta.*1 = columns tb ->
  block_store (mem (world_ r)) <> [] ->
  exists r' t', ReplayRedoRecord undo_address id db tbl slot delta r = Some r' /\ replica_ok (<[slot := (tb, write_row delta ∅)]> c) r' /\ alone (world_ r') id t' /\
    time (world_ r') = time (world_ r) /\ (length (block_store (mem (world_ r))) <= S (length (block_store (mem (world_ r')))))%nat.
Proof.
  intros [Hinv Htabs Hix Hrep] Hal Htb Hc Hd Hst. set (w := world_ r) in *. set (undo := undo_address (undos (mem w))).
  destruct (Htabs _ _ _ Htb) as (l & Hl & Hcols & Hcount). assert (takes_row w tb delta) as Htw.
  { unfold layout_of in Hl. destruct (tables w !! tb) as [dt|] eqn:Edt; [|done]. injection Hl as <-. exists dt. rewrite Hd, <-(length_fmap fst delta), Hd. done. }
  pose proof Hal as (Hrun & Hm & Hold). pose proof (proj1 (ti_start _ _ _ (wi_txn _ Hinv _ _ (proj1 Hrun)))) as Hid.
  destruct (insert_runs w id tb undo t delta Hinv Hrun Hm (Hundo _) Htw Hst) as (w' & sl & t' & He & Hnone & We & Hm' & Hinv' & Hdt & Hlay & Hlen).
  pose proof (we_txns _ _ _ _ _ _ _ _ _ We) as Etx. pose proof (we_tuple _ _ _ _ _ _ _ _ _ We) as Etp. pose proof (we_used _ _ _ _ _ _ _ _ _ We) as Hused.
  assert (txns w' !! id = Some t') as Ht' by (by rewrite Etx, lookup_insert_eq).
  destruct (update_table_indexes true id db tbl tb sl delta r w' t' Htb Hix Hinv' Ht' Hd Hused) as (t2 & ix & Hup & Ha & Hinv2 & Hix2).
  { eapply (we_used_new _ _ _ _ _ _ _ _ _ We). done. }
  { intros [x Hx]. unfold w in Hnone. congruence. }
  assert (start_time_ t' = id) as Hid' by (by rewrite (we_start _ _ _ _ _ _ _ _ _ We)).
  exists (Replica (put_txn t2 w') ix (<[slot := sl]> (tuple_slot_map_ r))), t2. split_and!.
  - unfold ReplayRedoRecord. fold w undo. rewrite (user_sql_table w id db tbl tb Htb), (proj1 Hrun). cbn [mbind option_bind]. unfold IsInsertRecord.
    rewrite bool_decide_eq_true_2 by (by apply (rep_dom _ _ _ Hrep)). unfold StageRecoveryWrite. rewrite stage_insert, He. cbn [mbind option_bind]. by rewrite Hup.
  - constructor; cbn [world_ indexes_ tuple_slot_map_]; [done| |done|].
    + intros db' tbl' tb' Htb'. destruct (Htabs _ _ _ Htb') as (l' & Hl' & ?). exists l'. split; [|done]. change (layout_of (put_txn t2 w') tb') with (layout_of w' tb'). by rewrite Hlay.
    + eapply (rep_insert _ _ (mem w)); [done| |done|done|].
      * split; [intros n'; exact (Etp n')|]. apply We.
      * unfold Visible, tuple_at. by rewrite Hnone.
  - eapply alone_actions; [|done|done]. eapply (alone_write w id t); try done. apply We.
  - cbn. unfold time. cbn. by rewrite (we_tm _ _ _ _ _ _ _ _ _ We).
  - done.
Qed.

(** The new slot of a tuple of the content can be written by a transaction without rivals. *)
Lemma mapped_slot c r id t slot tb a : replica_ok c r -> alone (world_ r) id t -> c !! slot = Some (tb, a) ->
  exists n l, tuple_slot_map_ r !! slot = Some n /\ Visible (mem (world_ r)) n = true /\ attrs_ (tuple_at (mem (world_ r)) n) = a /\
    data_tables (mem (world_ r)) !! TupleSlot.GetBlock n = Some tb /\ slot_inv (world_ r) n l /\
    forall r0, head (records (heap (world_ r)) l) = Some r0 -> timestamp_ r0 = finish_time_ t \/ (timestamp_ r0 < 2 ^ 63 /\ timestamp_ r0 <= start_time_ t).
Proof.
  intros [Hinv _ _ Hrep] Hal Hc. destruct (tuple_slot_map_ r !! slot) as [n|] eqn:En; [|apply (rep_dom _ _ _ Hrep) in En; congruence].
  destruct (rep_row _ _ _ Hrep _ _ _ _ Hc En) as (H1 & H2 & H3). destruct (wi_slot _ Hinv n) as [l Hl]. exists n, l. split_and!; try done. by eapply alone_free.
Qed.

Lemma replay_update id db tbl tb slot delta a c r t : replica_ok c r -> alone (world_ r) id t -> user_table db tbl = Some tb -> c !! slot = Some (tb, a) ->
  StronglySorted Z.lt (delta.*1) ->
  exists r' t', ReplayRedoRecord undo_address id db tbl slot delta r = Some r' /\ replica_ok (<[slot := (tb, write_row delta a)]> c) r' /\ alone (world_ r') id t' /\
    time (world_ r') = time (world_ r) /\ block_store (mem (world_ r')) = block_store (mem (world_ r)).
Proof.
  intros Hok Hal Htb Hc Hd. destruct (mapped_slot c r id t slot tb a Hok Hal Hc) as (n & l & En & Hv & Ea & Hdt & Hl & Hfree).
  destruct Hok as [Hinv Htabs Hix Hrep]. set (w := world_ r) in *. set (undo := undo_address (undos (mem w))). pose proof Hal as (Hrun & Hm & _).
  destruct (Htabs _ _ _ Htb) as (lay & Hlay & _). assert (is_Some (tables w !! tb)) as Htw by (unfold layout_of in Hlay; destruct (tables w !! tb); [by eexists|done]).
  destruct (exec_update gc log_on w id tb n undo t Hinv Hrun Hm (Hundo _) Htw Hdt delta) as (w' & He & Hout).
  assert (winv w') as Hinv'.
  { eapply write_outcome_winv; [exact Hinv|exact Hout|..]; try done. unfold delta_sorted. cbn. by rewrite project_cols. }
  destruct Hout as (l' & Hl' & Hout). rewrite (slot_chain _ _ _ _ Hl' Hl) in Hout. destruct Hout as [(_ & _ & t' & We & Hm' & Hmem & Htbs)|(Hno & _)]; [|by destruct Hno].
  cbn [exec] in He. rewrite (proj1 Hrun) in He. cbn [mbind option_bind] in He.
  destruct (SqlTable_Update tb (StageWrite n delta t) n delta undo w) as [[b w1]|] eqn:Eu; [|done]. cbn in He. injection He as ->.
  pose proof (proj1 (ti_start _ _ _ (wi_txn _ Hinv _ _ (proj1 Hrun)))) as Hid.
  assert (b = true) as ->.
  { apply (Update_flag _ _ _ _ _ _ _ _ t') in Eu; [|done|by rewrite Hid, (we_txns _ _ _ _ _ _ _ _ _ We), lookup_insert_eq]. rewrite Hm' in Eu. by destruct b. }
  exists (Replica w' (indexes_ r) (tuple_slot_map_ r)), t'. split_and!.
  - unfold ReplayRedoRecord. fold w undo. rewrite (user_sql_table w id db tbl tb Htb), (proj1 Hrun). cbn [mbind option_bind]. unfold IsInsertRecord.
    rewrite bool_decide_eq_false_2 by congruence. rewrite En. cbn [mbind option_bind]. unfold StageRecoveryWrite. by rewrite Eu.
  - constructor; cbn [world_ indexes_ tuple_slot_map_]; [done| | |].
    + intros db' tbl' tb' Htb'. destruct (Htabs _ _ _ Htb') as (l2 & Hl2 & ?). exists l2. unfold layout_of in *. by rewrite Htbs.
    + intros db' tbl' tb' o H1 H2. destruct (Hix _ _ _ o H1 H2) as (i & Hi & Hu & Hk & Hs). exists i. split; [done|]. split; [done|]. split; [done|].
      intros s Hsi. apply (we_used _ _ _ _ _ _ _ _ _ We). by apply Hs.
    + apply andb_true_iff in Hv as [Hv1 Hv2]. eapply rep_update; [done|done|done|]. split; [|apply We]. intros n'. rewrite (we_tuple _ _ _ _ _ _ _ _ _ We n').
      unfold update_tuple. rewrite Hv1, Hv2, Ea. reflexivity.
  - eapply (alone_write w id t); try done; apply We.
  - cbn. unfold time. by rewrite (we_tm _ _ _ _ _ _ _ _ _ We).
  - cbn. by rewrite Hmem.
Qed.

Lemma AllColumns_sorted ly : StronglySorted Z.lt (BlockLayout.AllColumns ly).
Proof.
  unfold BlockLayout.AllColumns. set (n := (length _ - NUM_RESERVED_COLUMNS)%nat). clearbody n. generalize NUM_RESERVED_COLUMNS as k.
  induction n as [|n IH]; intros k; cbn; [constructor|]. constructor; [apply IH|].
  apply Forall_forall. intros x (i & -> & Hi%elem_of_seq)%list_elem_of_fmap. lia.
Qed.

Lemma replay_delete id db tbl tb slot a c r t : replica_ok c r -> alone (world_ r) id t -> user_table db tbl = Some tb -> c !! slot = Some (tb, a) ->
  exists r' t', ReplayDeleteRecord undo_address id db tbl slot r = Some r' /\ replica_ok (delete slot c) r' /\ alone (world_ r') id t' /\
    time (world_ r') = time (world_ r) /\ block_store (mem (world_ r')) = block_store (mem (world_ r)).
Proof.
  intros Hok Hal Htb Hc. destruct (mapped_slot c r id t slot tb a Hok Hal Hc) as (n & l & En & Hv & Ea & Hdt & Hl & Hfree).
  destruct Hok as [Hinv Htabs Hix Hrep]. set (w := world_ r) in *. set (undo := undo_address (undos (mem w))). pose proof Hal as (Hrun & Hm & _).
  destruct (Htabs _ _ _ Htb) as (lay & Hlay & Hcols & _). assert (is_Some (tables w !! tb)) as Htw by (unfold layout_of in Hlay; destruct (tables w !! tb); [by eexists|done]).
  destruct (exec_delete gc log_on w id tb n undo t Hinv Hrun Hm (Hundo _) Htw Hdt) as (w' & He & Hout).
  assert (winv w') as Hinv' by (eapply write_outcome_winv; [exact Hinv|exact Hout|..]; try done; constructor).
  destruct Hout as (l' & Hl' & Hout). rewrite (slot_chain _ _ _ _ Hl' Hl) in Hout. destruct Hout as [(_ & _ & t' & We & Hm' & Hmem & Htbs)|(Hno & _)]; [|by destruct Hno].
  cbn [exec] in He. rewrite (proj1 Hrun) in He. cbn [mbind option_bind] in He.
  destruct (SqlTable_Delete tb (StageDelete n t) n undo w) as [[b w1]|] eqn:Eu; [|done]. cbn in He. injection He as ->.
  pose proof (proj1 (ti_start _ _ _ (wi_txn _ Hinv _ _ (proj1 Hrun)))) as Hid. assert (txns w' !! id = Some t') as Ht' by (by rewrite (we_txns _ _ _ _ _ _ _ _ _ We), lookup_insert_eq).
  assert (b = true) as ->.
  { apply (Delete_flag _ _ _ _ _ _ _ t') in Eu; [|done|by rewrite Hid]. rewrite Hm' in Eu. by destruct b. }
  set (pr := project (BlockLayout.AllColumns lay) (attrs_ (tuple_at (mem w) n))).
  assert (tuple_at (mem w') n = delete_tuple w n undo) as Etp by (by rewrite (we_tuple _ _ _ _ _ _ _ _ _ We), decide_True).
  assert (undos (mem w') !! undo = Some (delete_record w tb n t)) as Eun.
  { change (undos (mem w')) with (heap w'). by rewrite (we_heap _ _ _ _ _ _ _ _ _ We), lookup_insert_eq. }
  destruct (update_table_indexes false id db tbl tb n pr r w' t' Htb Hix Hinv' Ht') as (t2 & ix & Hup & Ha & Hinv2 & Hix2).
  { unfold pr. by rewrite project_cols. }
  { apply We. }
  { eapply (we_used_new _ _ _ _ _ _ _ _ _ We). done. }
  { intros t2 (ac & cc & ->). unfold unseen, HasConflictSlot, IsVisible, AtomicallyReadVersionPtr, HasConflict, Visible. rewrite Etp. cbn. rewrite Eun. cbn.
    rewrite (we_finish _ _ _ _ _ _ _ _ _ We). rewrite bool_decide_eq_true_2, decide_True by done. rewrite !andb_false_r. split; [|done].
    pose proof (wi_txn _ Hinv _ _ (proj1 Hrun)) as T. destruct (txn_finish_range w id t Hinv (proj1 Hrun)) as (Hr & _). rewrite Committed_lt by done.
    rewrite bool_decide_eq_false_2; [done|]. destruct Hrun as [_ Hact]. unfold active in Hact. lia. }
  exists (Replica (put_txn t2 w') ix (delete slot (tuple_slot_map_ r))), t2. split_and!.
  - unfold ReplayDeleteRecord, GetTupleSlotMapping. fold w undo. rewrite En. cbn [mbind option_bind]. rewrite (uc_table Hcat _ _ _ _ tb Htb). cbn [mbind option_bind].
    rewrite (proj1 Hrun). cbn [mbind option_bind]. rewrite Hlay. cbn [mbind option_bind].
    rewrite (Select_winv w (StageDelete n t) n l _ Hinv Hl (AllColumns_sorted lay)), (read_allowed w (StageDelete n t) n l Hinv Hl Hfree Hv). cbn [fmap option_fmap option_map mbind option_bind].
    rewrite Eu. cbn [mbind option_bind]. fold pr. by rewrite Hup.
  - constructor; cbn [world_ indexes_ tuple_slot_map_]; [done| |done|].
    + intros db' tbl' tb' Htb'. destruct (Htabs _ _ _ Htb') as (l2 & Hl2 & ?). exists l2. unfold layout_of in *. cbn. by rewrite Htbs.
    + eapply (rep_delete _ _ (mem w)); [done|done|done| |]. 2: { split; [exact (we_tuple _ _ _ _ _ _ _ _ _ We)|apply We]. } done.
  - eapply alone_actions; [|by rewrite (we_start _ _ _ _ _ _ _ _ _ We)|done]. eapply (alone_write w id t); try done; apply We.
  - cbn. unfold time. cbn. by rewrite (we_tm _ _ _ _ _ _ _ _ _ We).
  - cbn. by rewrite Hmem.
Qed.

(** ** Replaying transactions *)

(** The columns of a redo record are in order, as they are in every row. *)
Definition sorted_redo (p : change) : Prop := match body_ p.1 with RedoRecord _ _ _ delta => StronglySorted Z.lt (delta.*1) | _ => True end.

Lemma replay_changes_ok id changes : forall c c' r t, replica_ok c r -> alone (world_ r) id t -> apply_changes user_table columns changes c = Some c' ->
  Forall sorted_redo changes -> (length changes <= length (block_store (mem (world_ r))))%nat ->
  exists r' t', replay_changes undo_address id changes 0 r = Some r' /\ replica_ok c' r' /\ alone (world_ r') id t' /\
    time (world_ r') = time (world_ r) /\ (length (block_store (mem (world_ r))) <= length changes + length (block_store (mem (world_ r'))))%nat.
Proof.
  induction changes as [|[rc vs] changes IH]; intros c c' r t Hok Hal Hap Hs Hlen; cbn [apply_changes replay_changes fst] in *.
  { injection Hap as <-. exists r, t. split_and!; try done. }
  apply Forall_cons in Hs as [Hs1 Hs]. cbn [length] in Hlen. destruct (apply_change user_table columns rc c) as [c1|] eqn:E1; [|done]. cbn [mbind option_bind] in Hap.
  enough (exists r1 t1, IsSpecialCaseCatalogRecord rc r = Some false /\
      match body_ rc with
      | RedoRecord db tbl slot delta => ReplayRedoRecord undo_address id db tbl (slot_of slot) delta r
      | DeleteRecord db tbl slot => ReplayDeleteRecord undo_address id db tbl (slot_of slot) r
      | _ => None
      end = Some r1 /\ replica_ok c1 r1 /\ alone (world_ r1) id t1 /\ time (world_ r1) = time (world_ r) /\
      (length (block_store (mem (world_ r))) <= S (length (block_store (mem (world_ r1)))))%nat) as (r1 & t1 & -> & E2 & Hok1 & Hal1 & Ht1 & Hl1).
  { cbn [mbind option_bind]. rewrite E2. cbn [mbind option_bind]. destruct (IH c1 c' r1 t1 Hok1 Hal1 Hap Hs ltac:(lia)) as (r' & t' & -> & H1 & H2 & H3 & H4).
    exists r', t'. split_and!; try done; [congruence|]. cbn [length]. lia. }
  unfold apply_change in E1. unfold IsSpecialCaseCatalogRecord, sorted_redo in *. cbn [fst] in Hs1. destruct (body_ rc) as [db tbl slot delta|db tbl slot| |]; try done.
  - destruct (user_table db tbl) as [tb|] eqn:Etb; [|done]. cbn [mbind option_bind] in E1. destruct (uc_oid Hcat _ _ _ Etb) as [O1 O2].
    assert (tbl <> CLASS_TABLE_OID) as O3 by (intros ->; apply O2; left). rewrite !bool_decide_eq_false_2 by done.
    destruct (c !! slot_of slot) as [[tb' a]|] eqn:Ec; (destruct (decide _) as [Hd|]; [|done]); injection E1 as <-.
    + subst tb'. destruct (replay_update id db tbl tb (slot_of slot) delta a c r t Hok Hal Etb Ec Hs1) as (r1 & t1 & -> & H1 & H2 & H3 & H4).
      exists r1, t1. rewrite H4. split_and!; try done; [by destruct (IsInsertRecord _ _)|lia].
    + destruct (replay_insert id db tbl tb (slot_of slot) delta c r t Hok Hal Etb Ec Hd) as (r1 & t1 & -> & H1 & H2 & H3 & H4); [intros E; rewrite E in Hlen; cbn in Hlen; lia|].
      exists r1, t1. split_and!; try done. by destruct (IsInsertRecord _ _).
  - destruct (user_table db tbl) as [tb|] eqn:Etb; [|done]. cbn [mbind option_bind] in E1. destruct (uc_oid Hcat _ _ _ Etb) as [O1 O2].
    destruct (c !! slot_of slot) as [[tb' a]|] eqn:Ec; [|done]. cbn [mbind option_bind] in E1. destruct (decide _) as [Hd|]; [|done]. injection E1 as <-. subst tb'.
    destruct (replay_delete id db tbl tb (slot_of slot) a c r t Hok Hal Etb Ec) as (r1 & t1 & -> & H1 & H2 & H3 & H4).
    exists r1, t1. rewrite H4. split_and!; try done; [|lia]. f_equal. apply bool_decide_eq_false. unfold catalog_oids in O2. set_solver.
Qed.

(** All transactions have finished. *)
Definition quiet (w : world) : Prop := forall id t, txns w !! id = Some t -> ~ active t.

Lemma quiet_alone w : winv w -> quiet w -> alone (BeginTransaction w).2 (time w) (fresh_txn w).
Proof.
  intros Hinv Hq. destruct (begin_fresh w Hinv) as [Hrun _]. split; [done|]. split; [done|]. intros i s Hi Hne.
  assert (txns w !! i = Some s) as Hi' by (revert Hi; cbn; by rewrite lookup_insert_ne). by apply (ti_finished _ _ _ (wi_txn _ Hinv _ _ Hi')), (Hq i).
Qed.

Lemma rep_ext c sm m m' : rep c sm m -> (forall n, tuple_at m' n = tuple_at m n) -> data_tables m' = data_tables m -> rep c sm m'.
Proof.
  intros [R1 R2 R3 R4] Ht Hd. assert (forall n, Visible m' n = Visible m n) as Hv by (intros n; unfold Visible; by rewrite Ht).
  constructor; [done|done| |].
  - intros s tb a n Hc Hs. rewrite Hv, Ht, Hd. eauto.
  - intros n. rewrite Hv. auto.
Qed.

Lemma replay_transaction_ok changes c c' r : replica_ok c r -> quiet (world_ r) -> apply_changes user_table columns changes c = Some c' -> Forall sorted_redo changes ->
  (length changes <= length (block_store (mem (world_ r))))%nat -> time (world_ r) + 4 < 2 ^ 63 ->
  exists r', ReplayTransaction gc log_on undo_address changes r = Some r' /\ replica_ok c' r' /\ quiet (world_ r') /\ time (world_ r') = time (world_ r) + 2 /\
    (length (block_store (mem (world_ r))) <= length changes + length (block_store (mem (world_ r'))))%nat.
Proof.
  intros Hok Hq Hap Hs Hlen Htime. pose proof Hok as [Hinv Htabs Hix Hrep]. set (w := world_ r) in *. set (w1 := (BeginTransaction w).2).
  destruct (begin_fresh w Hinv) as [Hrun Hmem]. fold w1 in Hrun, Hmem. pose proof (begin_winv w Hinv ltac:(lia)) as Hinv1. fold w1 in Hinv1.
  assert (time w1 = time w + 1) as Ht1.
  { unfold time, w1. cbn. rewrite wrapu_small; [done|]. pose proof (wi_ts _ Hinv) as (Hb & _). unfold is_uint, time in *. lia. }
  pose proof (quiet_alone w Hinv Hq) as Hal. fold w1 in Hal.
  assert (replica_ok c (set_world w1 r)) as Hok1.
  { constructor; cbn [world_ set_world indexes_ tuple_slot_map_]; [done|exact Htabs|exact Hix|by rewrite Hmem]. }
  destruct (replay_changes_ok (time w) changes c c' (set_world w1 r) (fresh_txn w) Hok1 Hal Hap Hs) as (r1 & t & Hr1 & Hok2 & Hal2 & Ht2 & Hl2);
    [cbn [world_ set_world]; by rewrite Hmem|]. cbn [world_ set_world] in Ht2, Hl2. rewrite Hmem in Hl2. destruct Hok2 as [Hinv2 Htabs2 Hix2 Hrep2]. set (w2 := world_ r1) in *.
  pose proof Hal2 as (Hrun2 & Hm2 & Hold2). pose proof (commit_effect gc log_on w2 (time w) t Hinv2 Hrun2 Hm2 ltac:(lia)) as Fe. set (w3 := (Commit gc log_on t w2).2) in *.
  pose proof (finish_winv _ _ _ _ _ Hinv2 Fe) as Hinv3.
  assert (forall n, tuple_at (mem w3) n = tuple_at (mem w2) n) as Htup.
  { intros n. destruct (fe_tuple _ _ _ _ _ Fe n) as [->|[Hab _]]; [done|]. cbn in Hab.
    destruct (ti_active _ _ _ (wi_txn _ Hinv2 _ _ (proj1 Hrun2)) (proj2 Hrun2)) as (_ & E & _). congruence. }
  exists (set_world w3 r1). split_and!.
  - unfold ReplayTransaction. change (BeginTransaction (world_ r)) with (time w, w1). cbv beta iota. rewrite Hr1. cbn [mbind option_bind]. fold w2. rewrite (proj1 Hrun2).
    cbn [mbind option_bind]. by rewrite Hm2.
  - constructor; cbn [world_ set_world indexes_ tuple_slot_map_]; [done| | |].
    + intros db tbl tb Htb. destruct (Htabs2 _ _ _ Htb) as (l & Hl & ?). exists l. unfold layout_of in *. by rewrite (fe_tables _ _ _ _ _ Fe).
    + intros db tbl tb o H1 H2. destruct (Hix2 _ _ _ o H1 H2) as (i & Hi & Hu & Hk & Hsl). exists i. split; [done|]. split; [done|]. split; [done|].
      intros s [x Hx]%Hsl. unfold used. destruct (tuples (mem w3) !! s) eqn:E; [by eexists|]. apply (fe_some _ _ _ _ _ Fe) in E. by discriminate (eq_trans (eq_sym Hx) E).
    + eapply rep_ext; [done|done|]. apply Fe.
  - cbn [world_ set_world]. intros i s. rewrite (fe_txns _ _ _ _ _ Fe). pose proof (wi_ts _ Hinv2) as (Hb & _). destruct (decide (time w = i)) as [<-|Hne].
    + rewrite lookup_insert_eq. intros [= <-]. unfold active. cbn. unfold time in *. lia.
    + rewrite lookup_insert_ne by done. intros Hi. specialize (Hold2 i s Hi ltac:(done)). unfold active. unfold time in *. lia.
  - cbn [world_ set_world]. rewrite (fe_time _ _ _ _ _ Fe). lia.
  - cbn [world_ set_world]. by rewrite (fe_store _ _ _ _ _ Fe).
Qed.

Lemma replay_serially_ok txns : forall c c' r, replica_ok c r -> quiet (world_ r) -> apply_txns user_table columns txns c = Some c' -> Forall sorted_redo (concat txns) ->
  (length (concat txns) <= length (block_store (mem (world_ r))))%nat -> time (world_ r) + 2 * Z.of_nat (length txns) + 2 < 2 ^ 63 ->
  exists r', replay_serially gc log_on undo_address txns r = Some r' /\ replica_ok c' r' /\ quiet (world_ r') /\
    time (world_ r') = time (world_ r) + 2 * Z.of_nat (length txns).
Proof.
  unfold apply_txns. induction txns as [|changes txns IH]; intros c c' r Hok Hq Hap Hs Hlen Htime; cbn [concat replay_serially] in *.
  { injection Hap as <-. exists r. split_and!; try done. cbn [length]. lia. }
  rewrite apply_changes_app in Hap. destruct (apply_changes user_table columns changes c) as [c1|] eqn:E1; [|done]. cbn [mbind option_bind] in Hap.
  apply Forall_app in Hs as [Hs1 Hs2]. rewrite length_app in Hlen. cbn [length] in Htime.
  destruct (replay_transaction_ok changes c c1 r Hok Hq E1 Hs1 ltac:(lia) ltac:(lia)) as (r1 & -> & Hok1 & Hq1 & Ht1 & Hl1). cbn [mbind option_bind].
  destruct (IH c1 c' r1 Hok1 Hq1 Hap Hs2 ltac:(lia) ltac:(lia)) as (r' & H1 & H2 & H3 & H4). exists r'. split_and!; try done. cbn [length]. lia.
Qed.

(** ** Reading the recovered tables *)

(** A transaction that begins when all others have finished reads in place. *)
Lemma quiet_select w n cols : winv w -> quiet w -> time w + 2 < 2 ^ 63 -> StronglySorted Z.lt cols ->
  Select (mem (BeginTransaction w).2) (fresh_txn w) n cols = Some (if Visible (mem w) n then Some (project cols (attrs_ (tuple_at (mem w) n))) else None).
Proof.
  intros Hinv Hq Ht Hc. pose proof (begin_winv w Hinv Ht) as Hinv1. destruct (wi_slot _ Hinv1 n) as [l Hl].
  rewrite (Select_winv _ _ n l cols Hinv1 Hl Hc), (read_free _ _ n l Hinv1 Hl).
  - destruct (begin_fresh w Hinv) as [_ ->]. by destruct (Visible (mem w) n).
  - eapply alone_free; [done|by apply quiet_alone|done].
Qed.

End replay.

(** Where a transaction commits before one that started earlier, they changed different
    slots: the first of two concurrent writers of a slot to write it wins, the other aborts. *)
Definition overtakers_disjoint (log : list change) : Prop :=
  forall pre x mid y post, committed log = pre ++ x :: mid ++ y :: post -> y < x ->
    forall s, s ∈ touched (changes_of log x) -> s ∉ touched (changes_of log y).

(** The length of the changes of a log's committed transactions. *)
Lemma changes_sorted log ids : Forall sorted_redo log -> Forall sorted_redo (concat (changes_of log <$> ids)).
Proof.
  intros H. induction ids as [|id ids IH]; cbn [fmap list_fmap concat]; [constructor|]. apply Forall_app. split; [|done].
  apply Forall_forall. intros c [_ Hc]%list_elem_of_filter. rewrite Forall_forall in H. by apply H.
Qed.

(** ** Theorems *)

(** C9: recovery restores user tables from a log of their changes.  Let the log be well
    formed, with changes of user tables only (no record of a database, table or index being
    created, renamed or dropped), their indexes not unique, and a transaction that
    overtakes an earlier one in the order of commits touching none of its slots; let the
    tables be empty, with one free block for each replayed change; and let applying the
    committed transactions in the order of their commits give the content [c].  Then
    recovery completes: every assertion on the way holds.  Afterwards a new transaction
    reads in the new slot of each tuple exactly its row in [c], distinct tuples have
    distinct slots, and it sees no other tuple. *)
Theorem recovery_restores {I : Type} `{!Index I, !Catalog I, !IndexLaws I} (gc log_on : bool) (undo_address : gmap Z UndoRecord -> Z)
    (user_table : Z -> Z -> option Z) (user_indexes : Z -> Z -> list Z) (columns : Z -> list Z)
    (log : list change) (ids : list Z) (s : RecoveryManager I) (c : content) :
  user_catalog user_table user_indexes -> (forall u, u !! undo_address u = None) ->
  idle s -> replica_ok user_table user_indexes columns ∅ (replica_ s) -> quiet (world_ (replica_ s)) ->
  valid_log log -> overtakers_disjoint log -> Forall sorted_redo log -> StronglySorted Z.lt ids -> ids ≡ₚ committed log ->
  (length (concat (changes_of log <$> ids)) <= length (block_store (mem (world_ (replica_ s)))))%nat ->
  time (world_ (replica_ s)) + 2 * Z.of_nat (length ids) + 4 < 2 ^ 63 ->
  apply_txns user_table columns (changes_of log <$> committed log) ∅ = Some c ->
  exists s', RecoverFromLogs gc log_on undo_address log s = Some s' /\
    let w := world_ (replica_ s') in let slot_map := tuple_slot_map_ (replica_ s') in
    (forall slot tb a, c !! slot = Some (tb, a) -> exists n, slot_map !! slot = Some n /\ data_tables (mem w) !! TupleSlot.GetBlock n = Some tb /\
      forall cols, StronglySorted Z.lt cols -> Select (mem (BeginTransaction w).2) (fresh_txn w) n cols = Some (Some (project cols a))) /\
    (forall slot slot' n, slot_map !! slot = Some n -> slot_map !! slot' = Some n -> slot = slot') /\
    (forall n cols, StronglySorted Z.lt cols -> (forall slot, is_Some (c !! slot) -> slot_map !! slot <> Some n) ->
      Select (mem (BeginTransaction w).2) (fresh_txn w) n cols = Some None).
Proof.
  intros Hcat Hundo Hidle Hok Hq V Hd Hsort Hs Hp Hlen Htime Hap.
  rewrite (reorder user_table columns (changes_of log) (committed log) ids ∅ Hs Hp Hd) in Hap.
  destruct (replay_serially_ok gc log_on undo_address user_table user_indexes columns Hcat Hundo (changes_of log <$> ids) ∅ c (replica_ s) Hok Hq Hap (changes_sorted _ _ Hsort) Hlen)
    as (r' & Hr & Hok' & Hq' & Ht'); [rewrite length_fmap; lia|]. rewrite length_fmap in Ht'.
  destruct Hidle as (I1 & I2 & I3). destruct (recover_tracked gc log_on undo_address log V log [] s ids) as [Hrec _];
    [done|constructor; rewrite ?I1; [constructor|by intros id ?%elem_of_nil|intros id _; by rewrite I2]|unfold accounted, buffered_records; by rewrite I2, I3|done|by rewrite I1|].
  rewrite Hr in Hrec. destruct (RecoverFromLogs gc log_on undo_address log s) as [s'|]; [|done]. cbn in Hrec. injection Hrec as <-. exists s'. split; [done|].
  destruct Hok' as [Hinv _ _ [R1 R2 R3 R4]]. cbv zeta. set (w := world_ (replica_ s')) in *. split_and!.
  - intros slot tb a Hc. destruct (tuple_slot_map_ (replica_ s') !! slot) as [n|] eqn:En; [|apply R1 in En; congruence]. exists n.
    destruct (R3 _ _ _ _ Hc En) as (Hv & Ha & Hdt). split; [done|]. split; [done|]. intros cols Hcols. rewrite (quiet_select w n cols Hinv Hq' ltac:(lia) Hcols). by rewrite Hv, Ha.
  - done.
  - intros n cols Hcols Hn. rewrite (quiet_select w n cols Hinv Hq' ltac:(lia) Hcols). destruct (Visible (mem w) n) eqn:Hv; [|done].
    destruct (R4 n Hv) as [slot Hslot]. exfalso. apply (Hn slot); [|done]. destruct (c !! slot) eqn:E; [by eexists|apply R1 in E; congruence].
Qed.

(** The example of [Recovery]. *)
#[export] Program Instance list_IndexLaws : IndexLaws list_index := { slots i := list_to_set (entries_ i).*2 }.
Next Obligation.
  intros m key slot t i _ _. do 2 eexists. split; [reflexivity|]. split; [by do 2 eexists|]. done.
Qed.
Next Obligation.
  intros m key slot t i _. do 2 eexists. split; [reflexivity|]. split; [by do 2 eexists|]. done.
Qed.

Definition demo_user_table (db tbl : Z) : option Z := if decide (db = 1 /\ tbl = 1001) then Some 1 else None.
Definition demo_columns (_ : Z) : list Z := [1; 2].

Lemma demo_user_catalog : user_catalog demo_user_table (fun _ _ => [1]).
Proof.
  constructor; unfold demo_user_table.
  - intros db tbl tb. case_decide as H; [|done]. intros _. destruct H as [_ ->]. split; [done|]. unfold catalog_oids. set_solver.
  - done.
  - done.
  - intros db tbl. apply NoDup_singleton.
Qed.

Lemma demo_undo_fresh u : u !! demo_undo u = None.
Proof.
  destruct (u !! demo_undo u) eqn:E; [|done]. apply elem_of_map_to_list in E. apply (list_elem_of_fmap_2 fst) in E. cbn [fst] in E.
  unfold demo_undo in E. set (l := (map_to_list u).*1) in *. assert (forall x, x ∈ l -> x <= foldr Z.max 0 l) as H; [|specialize (H _ E); lia].
  clear E. induction l as [|y l IH]; intros x; [by intros ?%elem_of_nil|]. cbn. intros [->|Hx]%elem_of_cons; [lia|]. specialize (IH x Hx). lia.
Qed.

Lemma demo_world_winv : winv demo_world.
Proof.
  apply (reachable_winv true false), (run_reachable true false [BLOCK_SIZE; 2 * BLOCK_SIZE; 3 * BLOCK_SIZE; 4 * BLOCK_SIZE; 5 * BLOCK_SIZE; 6 * BLOCK_SIZE]
    [OCreateTable 1 (BlockLayout.mk [8; 8; 8] [] 24 64 4 64)]).
  - apply (bool_decide_unpack _). vm_compute. exact Logic.I.
  - repeat constructor; unfold is_uint; vm_compute; try reflexivity; discriminate.
  - vm_compute. reflexivity.
Qed.

Lemma demo_replica_ok : replica_ok demo_user_table (fun _ _ => [1]) demo_columns ∅ (replica_ demo_manager).
Proof.
  constructor; cbn [replica_ demo_manager world_ indexes_ tuple_slot_map_].
  - apply demo_world_winv.
  - intros db tbl tb. unfold demo_user_table. case_decide; [|done]. intros [= <-]. eexists. split; [|split]; vm_compute; reflexivity.
  - intros db tbl tb o Htb ->%list_elem_of_singleton. assert (db = 1) as -> by (revert Htb; unfold demo_user_table; case_decide; [tauto|done]).
    exists (ListIndex [(0, 2)] []). split; [vm_compute; reflexivity|]. split; [done|]. split.
    + intros p ->%list_elem_of_singleton. unfold demo_columns. cbn. set_solver.
    + intros s. cbn. set_solver.
  - assert (forall n, Visible (mem demo_world) n = false) as Hv.
    { intros n. unfold Visible, tuple_at. assert (tuples (mem demo_world) = ∅) as -> by (vm_compute; reflexivity). by rewrite lookup_empty. }
    constructor; [done|done|done|]. intros n. by rewrite Hv.
Qed.

Lemma demo_disjoint : overtakers_disjoint demo_log.
Proof.
  intros pre x mid y post E Hyx. assert (committed demo_log = [12; 10; 16]) as E' by (vm_compute; reflexivity). rewrite E' in E.
  assert (x = 12 /\ y = 10) as [-> ->].
  { destruct pre as [|p1 [|p2 [|p3 pre]]]; [| | |by destruct pre]; injection E; intros; subst.
    - destruct mid as [|m1 [|m2 mid]]; [| |by destruct mid]; cbn in *; simplify_eq; lia.
    - destruct mid as [|m1 mid]; [|by destruct mid]; cbn in *; simplify_eq; lia.
    - by destruct mid. }
  intros s Hs. assert (touched (changes_of demo_log 12) = [slot_of 256]) as E2 by (vm_compute; reflexivity). assert (touched (changes_of demo_log 10) = [slot_of 512]) as E3 by (vm_compute; reflexivity).
  rewrite E2 in Hs. rewrite E3. apply list_elem_of_singleton in Hs as ->. by intros ?%list_elem_of_singleton.
Qed.

Lemma recovery_restores_witness : exists s' n, RecoverFromLogs true false demo_undo demo_log demo_manager = Some s' /\
  let w := world_ (replica_ s') in tuple_slot_map_ (replica_ s') !! slot_of 256 = Some n /\
  Select (mem (BeginTransaction w).2) (fresh_txn w) n [1; 2] = Some (Some [(1, Some [1]); (2, Some [7])]).
Proof.
  destruct (recovery_restores true false demo_undo demo_user_table (fun _ _ => [1]) demo_columns demo_log [10; 12; 16] demo_manager
    {[ slot_of 256 := (1, {[ 1 := [1]; 2 := [7] ]}) ]}) as (s' & Hs' & Hrow & _).
  - apply demo_user_catalog.
  - apply demo_undo_fresh.
  - split; [reflexivity|]. split; reflexivity.
  - apply demo_replica_ok.
  - intros id t. assert (txns demo_world = ∅) as E by (vm_compute; reflexivity). cbn [replica_ demo_manager world_]. rewrite E, lookup_empty. discriminate.
  - apply valid_from_sound. vm_compute. reflexivity.
  - apply demo_disjoint.
  - repeat constructor; cbn; try lia.
  - repeat constructor.
  - vm_compute. apply perm_swap.
  - vm_compute. lia.
  - vm_compute. reflexivity.
  - vm_compute. reflexivity.
  - destruct (Hrow (slot_of 256) 1 {[ 1 := [1]; 2 := [7] ]}) as (n & Hn & _ & Hsel); [vm_compute; reflexivity|].
    exists s', n. split; [exact Hs'|]. split; [exact Hn|]. rewrite (Hsel [1; 2]); [vm_compute; reflexivity|repeat constructor].
Defined.
