(* ===== verification/CommitOrder.v ===== *)
(** * The order of commit records

    What a commit record says about the transactions that commit later.  In any run of the
    multi-version system with logging ([transaction_manager.cpp] over
    [timestamp_manager.cpp], with the collector refreshing the cached oldest start time),
    the oldest active transaction named in a commit record started no later than any
    transaction whose commit record follows: the bound that [Recovery] replays by. *)

From S2P Require Import Prelude Layout Varlen Timestamps DataTable Versions TxnManager GarbageCollector Mvcc MvccWrite MvccFinish MvccGC Snapshot.
Import TimestampManager.
#[local] Abbreviation cached w := (CachedOldestTransactionStartTime (tm w)).

(** ** The timestamp manager in a run *)

Lemma checkout_step m : time_ m + 1 < 2 ^ 63 -> rtc TimestampManager.step m (CheckOutTimestamp m).2.
Proof. intros H. by apply rtc_once, step_checkout. Qed.

Lemma remove_step m t : rtc TimestampManager.step m (RemoveTransaction t m).
Proof. apply rtc_once, (step_remove m [t]). Qed.

(** Every operation uses the timestamp manager through its calls. *)
Lemma exec_tm gc log o w w' : winv w -> op_ok o w -> exec gc log o w = Some w' -> rtc TimestampManager.step (tm w) (tm w').
Proof.
  intros Hinv [Hlt Hok]. assert (time_ (tm w) + 1 < 2 ^ 63) as Hlt' by lia.
  assert (forall tm0, rtc TimestampManager.step (tm w) tm0 -> forall b t, rtc TimestampManager.step (tm w) (if (b : bool) then tm0 else RemoveTransaction t tm0)) as Hrem.
  { intros tm0 H [] t; [done|]. etrans; [exact H|apply remove_step]. }
  destruct o as [|id table slot redo undo|id table slot undo|id table redo undo|id|id| | |table layout]; cbn [exec].
  - intros [= <-]. by apply rtc_once, step_begin.
  - destruct (txns w !! id) as [t|]; [|done]. cbn [mbind option_bind]. unfold SqlTable_Update.
    destruct (Update _ _ _ _ _ _) as [[[b t'] m]|]; [|done]. cbn. by intros [= <-].
  - destruct (txns w !! id) as [t|]; [|done]. cbn [mbind option_bind]. unfold SqlTable_Delete.
    destruct (Delete _ _ _ _ _) as [[[b t'] m]|]; [|done]. cbn. by intros [= <-].
  - destruct (txns w !! id) as [t|]; [|done]. cbn [mbind option_bind]. unfold SqlTable_Insert.
    destruct (tables w !! table) as [tb|]; [|done]. cbn [mbind option_bind].
    destruct (Insert _ _ _ _ _ _) as [[[[sl t'] tb'] m]|]; [|done]. cbn. by intros [= <-].
  - destruct (txns w !! id) as [t|]; [|done]. cbn [mbind option_bind]. rewrite Commit_eq. cbn [snd]. intros [= <-].
    pose proof (checkout_step (tm w) Hlt') as H. pose proof (Hrem _ H log (start_time_ t)) as H'. unfold LogCommit. by destruct gc, log.
  - destruct (txns w !! id) as [t|]; [|done]. cbn [mbind option_bind]. unfold Abort.
    destruct (rollback_all _ _ _ _ _) as [[t1 m]|]; [|done]. cbn [mbind option_bind].
    pose proof (checkout_step (tm w) Hlt') as H. destruct (CheckOutTimestamp (tm w)) as [x tm'].
    destruct (GCLastUpdateOnAbort _ _ _) as [t2|]; [|done]. cbn [mbind option_bind fmap option_fmap option_map snd] in *. intros [= <-].
    pose proof (Hrem _ H (log && has_flushed_ t2) (start_time_ t2)) as H'. unfold LogAbort. by destruct gc, (log && has_flushed_ t2).
  - intros [= <-]. unfold serialize. destruct (log_queue w) as [|x rest]; [done|apply remove_step].
  - unfold PerformGarbageCollection. pose proof (checkout_step (tm w) Hlt') as H1.
    destruct (checkout_ts (tm w) (wi_ts _ Hinv) Hlt') as [Hts1 Htime1]. set (tm1 := (CheckOutTimestamp (tm w)).2) in *.
    assert (winv (set_tm tm1 w)) as Hinv1 by (apply set_tm_winv; try done; unfold time; lia). change (tm (set_tm tm1 w)) with tm1.
    destruct (OldestTransactionStartTime tm1) as [oldest tm2] eqn:Eo. assert (tm2 = (OldestTransactionStartTime tm1).2) as Etm2 by by rewrite Eo.
    assert (rtc TimestampManager.step (tm w) tm2) as H2 by (rewrite Etm2; etrans; [exact H1|apply rtc_once, step_oldest]).
    assert (ts_ok tm2) as Hts2 by (rewrite Etm2; eapply step_ok; [exact Hts1|apply step_oldest]). pose proof (oldest_spec tm1 Hts1) as [Hr1 _]. rewrite Eo in Hr1. cbn [fst] in Hr1.
    assert (winv (set_tm tm2 (set_tm tm1 w))) as Hinv2 by (apply set_tm_winv; rewrite ?Etm2; try done; by rewrite <-Etm2).
    set (w2 := set_tm tm2 (set_tm tm1 w)) in *. pose proof (ProcessDeallocateQueue_collects oldest w2 Hinv2) as Co3. destruct (ProcessDeallocateQueue oldest w2) as [freed w3]. cbn [snd] in Co3.
    destruct (ProcessUnlinkQueue_collects oldest w3) as (n & w4 & -> & Co4); [apply Co3|destruct Hts1; lia|].
    cbn [mbind option_bind fmap option_fmap option_map snd]. destruct (collects_trans _ _ _ _ Co3 Co4) as (I4 & _ & M4 & _). change (tm w2) with tm2 in M4.
    intros [= <-]. case_decide; [|by rewrite M4]. rewrite M4. etrans; [exact H2|]. apply checkout_step. rewrite Etm2. cbn. cbn in Htime1. lia.
  - destruct (make_table _ _ _) as [[tb m]|]; [|done]. cbn. by intros [= <-].
Qed.

(** The cached start time does not go back. *)
Lemma cached_grows m m' : rtc TimestampManager.step m m' -> ts_ok m -> CachedOldestTransactionStartTime m <= CachedOldestTransactionStartTime m'.
Proof.
  unfold CachedOldestTransactionStartTime. induction 1 as [m|m1 m2 m3 Hs _ IH]; intros Hok; [lia|]. specialize (IH (step_ok _ _ Hok Hs)).
  enough (cached_oldest_txn_start_time_ m1 <= cached_oldest_txn_start_time_ m2) by lia. destruct Hs as [m Hw|m Hw|m|m ts]; cbn; try lia.
  - destruct Hok as (Ht & Hc & Hr). pose proof (min_element_spec (curr_running_txns_ m)) as H. destruct (min_element _) as [r|]; cbn; [|lia]. apply Hr, H.
  - destruct (RemoveTransactions_spec ts m) as (_ & -> & _). lia.
Qed.

(** ** Who runs after a step *)

Lemma write_running w id t undo u sl tp t' w' : write_effect w id t undo u sl tp t' w' -> forall i s', running w' i s' -> exists s, running w i s.
Proof.
  intros We i s' [Hi Ha]. rewrite (we_txns _ _ _ _ _ _ _ _ _ We) in Hi. destruct (decide (id = i)) as [<-|Hne]; [exists t; apply We|].
  rewrite lookup_insert_ne in Hi by done. by exists s'.
Qed.

Lemma finish_running w id t t' w' : winv w -> finish_effect w id t t' w' -> forall i s', running w' i s' -> i <> id /\ running w i s'.
Proof.
  intros Hinv Fe i s' [Hi Ha]. rewrite (fe_txns _ _ _ _ _ Fe) in Hi. pose proof (wi_ts _ Hinv) as (Hb & _). destruct (decide (id = i)) as [<-|Hne].
  - rewrite lookup_insert_eq in Hi. injection Hi as <-. unfold active in Ha. rewrite (fe_finish _ _ _ _ _ Fe) in Ha. unfold time in Ha. lia.
  - rewrite lookup_insert_ne in Hi by done. done.
Qed.

(** A transaction that runs ran before, or has just begun. *)
Lemma exec_running gc log o w w' : winv w -> op_ok o w -> exec gc log o w = Some w' -> forall i s', running w' i s' -> i = time w \/ exists s, running w i s.
Proof.
  intros Hinv Hok He i s' Hr. destruct o as [|id table slot redo undo|id table slot undo|id table redo undo|id|id| | |table layout].
  - injection He as <-. destruct Hr as [Hi Ha]. cbn in Hi. destruct (decide (time w = i)) as [<-|Hne]; [by left|right]. rewrite lookup_insert_ne in Hi by done. by exists s'.
  - right. destruct Hok as [_ (t & Hrun & Hm & Hf & Htab & Hdt & _)]. destruct (exec_update gc log w id table slot undo t Hinv Hrun Hm Hf Htab Hdt redo) as (w2 & He2 & l & _ & Hout).
    rewrite He2 in He. injection He as ->. destruct Hout as [(_ & _ & t' & We & _)|(_ & u' & t' & We & _)]; by eapply write_running.
  - right. destruct Hok as [_ (t & Hrun & Hm & Hf & Htab & Hdt)]. destruct (exec_delete gc log w id table slot undo t Hinv Hrun Hm Hf Htab Hdt) as (w2 & He2 & l & _ & Hout).
    rewrite He2 in He. injection He as ->. destruct Hout as [(_ & _ & t' & We & _)|(_ & u' & t' & We & _)]; by eapply write_running.
  - right. destruct Hok as [_ (t & Hrun & Hm & Hf & Htab & Hst & _)]. destruct (exec_insert gc log w id table undo t redo Hinv Hrun Hm Hf Htab Hst) as (w2 & sl & t' & He2 & _ & We & _).
    rewrite He2 in He. injection He as ->. by eapply write_running.
  - right. destruct Hok as [Hlt (t & Hrun & Hm)]. cbn [exec] in He. rewrite (proj1 Hrun) in He. injection He as <-. exists s'. by eapply finish_running; [|by apply commit_effect|].
  - right. destruct Hok as [Hlt (t & Hrun)]. destruct (exec_abort gc log w id t Hinv Hrun Hlt) as (w2 & t' & He2 & Fe & _). rewrite He2 in He. injection He as ->. exists s'. by eapply finish_running.
  - right. injection He as <-. unfold serialize in Hr. exists s'. by destruct (log_queue w).
  - right. destruct Hok as [Hlt _]. destruct (exec_gc gc log w Hinv Hlt) as (oldest & w2 & He2 & _ & _ & _ & _ & _ & _ & Hback & _). rewrite He2 in He. injection He as ->.
    destruct (Hback i s' Hr) as (s & Hs & _). by exists s.
  - right. cbn [exec] in He. destruct (make_table _ _ _) as [[tb m]|]; [|done]. cbn in He. injection He as <-. by exists s'.
Qed.

Lemma exec_time gc log o w w' : winv w -> op_ok o w -> exec gc log o w = Some w' -> time w <= time w' /\ (o = OBegin -> time w < time w').
Proof.
  intros Hinv Hok He. pose proof (exec_tm gc log o w w' Hinv Hok He) as Hs. split.
  - unfold time. pose proof (wi_ts _ Hinv) as Hts. revert Hts. clear -Hs. induction Hs as [m|m1 m2 m3 Hs _ IH]; intros Hok; [lia|]. specialize (IH (step_ok _ _ Hok Hs)).
    enough (time_ m1 <= time_ m2) by lia. destruct Hok as (Hb & _). destruct Hs as [m Hw|m Hw|m|m ts]; cbn; rewrite ?(wrapu_small 64) by (unfold is_uint; lia); try lia.
    destruct (RemoveTransactions_spec ts m) as (-> & _). lia.
  - intros ->. injection He as <-. unfold time. cbn. pose proof (wi_ts _ Hinv) as (Hb & _). destruct Hok as [Hlt _]. rewrite wrapu_small by (unfold is_uint; lia). lia.
Qed.

(** ** Commit records *)

(** A run with logging, and the commit records it writes: the transaction and the oldest
    active one, for each commit of a transaction that is not read-only. *)
Inductive logged_run (gc : bool) : world -> list (Z * Z) -> Prop :=
| logged_start w : initial w -> logged_run gc w []
| logged_commit w w' records id t :
    logged_run gc w records -> op_ok (OCommit id) w -> exec gc true (OCommit id) w = Some w' -> txns w !! id = Some t -> IsReadOnly t = false ->
    logged_run gc w' (records ++ [(id, cached w)])
| logged_step w w' records o :
    logged_run gc w records -> op_ok o w -> exec gc true o w = Some w' ->
    (forall id t, o = OCommit id -> txns w !! id = Some t -> IsReadOnly t = true) -> logged_run gc w' records.

Record run_inv (w : world) (records : list (Z * Z)) : Prop := {
  ri_winv : winv w;
  ri_past : forall id oldest, (id, oldest) ∈ records -> (0 <= oldest <= id /\ id < time w) /\ oldest <= cached w /\ forall t, ~ running w id t;
  ri_order : forall pre id oldest post, records = pre ++ (id, oldest) :: post -> forall p, p ∈ post -> p.1 <> id /\ oldest <= p.1
}.

(** The records so far, after any step. *)
Lemma past_kept gc o w w' records : run_inv w records -> op_ok o w -> exec gc true o w = Some w' ->
  winv w' /\ forall id oldest, (id, oldest) ∈ records -> (0 <= oldest <= id /\ id < time w') /\ oldest <= cached w' /\ forall t, ~ running w' id t.
Proof.
  intros [Hinv Hp _] Hok He. split; [destruct (step_winv gc true o w Hinv Hok) as (w2 & He2 & ?); congruence|]. intros id oldest Hin. destruct (Hp id oldest Hin) as (H1 & H2 & H3).
  pose proof (exec_time gc true o w w' Hinv Hok He) as [Ht _]. pose proof (cached_grows _ _ (exec_tm gc true o w w' Hinv Hok He) (wi_ts _ Hinv)) as Hc.
  split; [lia|]. split; [lia|]. intros t Hr. destruct (exec_running gc true o w w' Hinv Hok He id t Hr) as [->|[s Hs]]; [lia|by apply (H3 s)].
Qed.

Lemma logged_run_inv gc w records : logged_run gc w records -> run_inv w records.
Proof.
  induction 1 as [w H|w w' records id t _ IH Hok He Ht Hro|w w' records o _ IH Hok He _].
  - constructor; [by apply initial_winv|by intros ?? ?%elem_of_nil|]. by intros [] ? ? ?.
  - destruct (past_kept gc _ w w' records IH Hok He) as [Hinv' Hpast]. pose proof IH as [Hinv Hp Ho]. pose proof Hok as [Hlt (t0 & Hrun & Hm)].
    assert (t0 = t) as -> by (destruct Hrun; congruence). pose proof (wi_txn _ Hinv _ _ Ht) as T. destruct (ti_active _ _ _ T (proj2 Hrun)) as (_ & _ & Hcur).
    pose proof (wi_ts _ Hinv) as (_ & Hc & Hcr). specialize (Hcr id Hcur). destruct (ti_start _ _ _ T) as [_ Hid]. unfold CachedOldestTransactionStartTime in *.
    constructor; [done| |].
    + intros i o [Hin|[= -> ->]%list_elem_of_singleton]%elem_of_app; [by apply Hpast|]. pose proof (exec_time gc true _ w w' Hinv Hok He) as [Htime _].
      pose proof (cached_grows _ _ (exec_tm gc true _ w w' Hinv Hok He) (wi_ts _ Hinv)) as Hcg. unfold CachedOldestTransactionStartTime in *.
      split; [lia|]. split; [lia|]. intros s Hs. cbn [exec] in He. rewrite Ht in He. injection He as <-.
      destruct (finish_running _ _ _ _ _ Hinv (commit_effect gc true w id t Hinv Hrun Hm Hlt) id s Hs) as [? _]. done.
    + intros pre i o post E p Hpp. destruct (decide (post = [])) as [->|Hne]; [by apply elem_of_nil in Hpp|].
      destruct (exists_last Hne) as (post' & q & ->). rewrite app_comm_cons, app_assoc in E. apply app_inj_tail in E as [E <-].
      apply elem_of_app in Hpp as [Hpp|Hpp]; [by eapply Ho|]. apply list_elem_of_singleton in Hpp as ->. cbn [fst].
      destruct (Hp i o) as (H1 & H2 & H3); [rewrite E; apply elem_of_app; right; left|]. split; [intros ->; by apply (H3 t)|lia].
  - destruct (past_kept gc _ w w' records IH Hok He) as [Hinv' Hpast]. constructor; [done|done|apply IH].
Qed.

(** Running a list of operations. *)
Fixpoint run_logged (gc : bool) (os : list op) (w : world) (records : list (Z * Z)) : option (world * list (Z * Z)) :=
  match os with
  | [] => Some (w, records)
  | o :: rest =>
    if op_okb o w then
      w' ← exec gc true o w;
      run_logged gc rest w' match o with
                            | OCommit id => match txns w !! id with Some t => if IsReadOnly t then records else records ++ [(id, cached w)] | None => records end
                            | _ => records
                            end
    else None
  end.

Lemma run_logged_sound gc os : forall w records w' records', logged_run gc w records -> run_logged gc os w records = Some (w', records') -> logged_run gc w' records'.
Proof.
  induction os as [|o os IH]; intros w records w' records' Hr; cbn [run_logged]; [by intros [= <- <-]|]. destruct (op_okb o w) eqn:Eok; [|done]. apply op_okb_sound in Eok.
  destruct (exec gc true o w) as [w1|] eqn:E; [|done]. cbn [mbind option_bind]. apply IH.
  destruct o as [| | | |id| | | |]; try (eapply logged_step; [exact Hr|exact Eok|exact E|]; discriminate). cbn [exec] in E.
  destruct (txns w !! id) as [t|] eqn:Et; [|done]. assert (exec gc true (OCommit id) w = Some w1) as E' by (cbn [exec]; by rewrite Et).
  destruct (IsReadOnly t) eqn:Ero; [|by eapply logged_commit]. eapply logged_step; [exact Hr|exact Eok|exact E'|]. intros i s [= <-] Hs. congruence.
Qed.

(** ** Theorems *)

(** C13: commit records order recovery.  In every run with logging, a commit record names an
    oldest active transaction that started no later than its own transaction nor than any
    transaction whose commit record is written later, and no transaction commits twice.  So
    whatever has been read of the log, the transactions up to the bound are complete. *)
Theorem commit_records_ordered (gc : bool) (w : world) (records : list (Z * Z)) :
  logged_run gc w records ->
  forall pre id oldest post, records = pre ++ (id, oldest) :: post ->
    0 <= oldest <= id /\ id < 2 ^ 63 /\ forall id' oldest', (id', oldest') ∈ post -> id' <> id /\ oldest <= id'.
Proof.
  intros Hr%logged_run_inv pre id oldest post E. destruct Hr as [Hinv Hp Ho]. pose proof (wi_ts _ Hinv) as (Hb & _).
  destruct (Hp id oldest) as (H1 & _); [rewrite E; apply elem_of_app; right; left|]. unfold time in H1. split; [lia|]. split; [lia|].
  intros id' o' Hin. by apply (Ho pre id oldest post E (id', o')).
Qed.

(** Transaction 5 started after 4 and commits first; a collection has refreshed the cached
    start time. *)
Definition commit_ops : list op :=
  [OCreateTable 1 (BlockLayout.mk [8; 8] [] 16 64 4 64); OBegin; OInsert 0 1 (demo_row 1) 100; OCommit 0; OSerialize; OGC; OBegin; OBegin;
   OInsert 5 1 (demo_row 5) 101; OGC; OInsert 4 1 (demo_row 6) 102; OCommit 5; OCommit 4].

Lemma commit_records_ordered_witness : exists w, logged_run true w [(0, 0); (5, 4); (4, 4)] /\ forall id' oldest', (id', oldest') ∈ [(4, 4)] -> id' <> 5 /\ 4 <= id'.
Proof.
  assert (exists w, run_logged true commit_ops (init_world demo_store) [] = Some (w, [(0, 0); (5, 4); (4, 4)])) as [w Hw] by (eexists; vm_compute; reflexivity).
  assert (logged_run true w [(0, 0); (5, 4); (4, 4)]) as Hr.
  { eapply run_logged_sound; [|exact Hw]. apply logged_start. exists demo_store. split; [reflexivity|apply demo_store_ok]. }
  exists w. split; [exact Hr|]. apply (proj2 (proj2 (commit_records_ordered true w _ Hr [(0, 0)] 5 4 [(4, 4)] eq_refl))).
Defined.
