(* ===== verification/ObjectPool.v ===== *)
(** * Object pools

    [common/object_pool.h]: [ObjectPool] hands out objects, keeps released ones in a queue
    for reuse and bounds how many there are.  The allocator behind it is an interface
    ([Allocator], with its laws), which the allocators of common/allocator.h,
    storage/storage_defs.h and storage/record_buffer.h implement; memory is abstract.

    Every operation runs under the pool's latch, so threads interleave by whole
    operations: a run is any sequence of them. *)

From S2P Require Import Prelude.

(** ** The interface of allocators

    An address of memory that is not there, or a failed assertion, gives [None]; [New] may
    also return a null pointer. *)
Class Allocator (M : Type) := {
  New : M -> option (option Z * M);
  Reuse : Z -> M -> option M;
  Delete : Z -> M -> option M;
}.

(** What the pool relies on: [New] gives memory that was not in use. *)
Class AllocatorLaws (M : Type) {A : Allocator M} := {
  live : M -> gset Z;
  New_law m : exists r m', New m = Some (r, m') /\
    match r with Some o => o ∉ live m /\ live m' = {[ o ]} ∪ live m | None => live m' = live m end;
  Reuse_law o m : o ∈ live m -> exists m', Reuse o m = Some m' /\ live m' = live m;
  Delete_law o m : o ∈ live m -> exists m', Delete o m = Some m' /\ live m' = live m ∖ {[ o ]};
}.

Module ObjectPool.

Inductive exception := NoMoreObjectException (limit : Z) | AllocatorFailureException.

Record t := mk {
  reuse_queue_ : list Z;
  size_limit_ : Z;
  reuse_limit_ : Z;
  current_size_ : Z;
}.

Definition make (size_limit reuse_limit : Z) : t := mk [] size_limit reuse_limit 0.

Definition GetSizeLimit (p : t) : Z := size_limit_ p.

Definition queue_size (q : list Z) : Z := Z.of_nat (length q).

(** Fails if the pool has more objects already. *)
Definition SetSizeLimit (new_size : Z) (p : t) : bool * t :=
  if decide (current_size_ p <= new_size) then (true, mk (reuse_queue_ p) new_size (reuse_limit_ p) (current_size_ p))
  else (false, p).

Section operations.
Context {M : Type} `{Allocator M}.

(** The object, or the exception thrown. *)
Definition Get (p : t) (m : M) : option ((Z + exception) * t * M) :=
  match reuse_queue_ p with
  | [] =>
    if decide (size_limit_ p <= current_size_ p) then Some (inr (NoMoreObjectException (size_limit_ p)), p, m)
    else
      '(result, m) ← New m;
      match result with
      | None => Some (inr AllocatorFailureException, p, m)
      | Some o =>
        let p := mk [] (size_limit_ p) (reuse_limit_ p) (u64 (current_size_ p + 1)) in
        if decide (current_size_ p <= size_limit_ p) then Some (inl o, p, m) else None
      end
  | o :: queue =>
    m ← Reuse o m;
    if decide (current_size_ p <= size_limit_ p) then
      Some (inl o, mk queue (size_limit_ p) (reuse_limit_ p) (current_size_ p), m)
    else None
  end.

(** Objects are not null: [New] gives null as [None]. *)
Definition Release (o : Z) (p : t) (m : M) : option (t * M) :=
  if decide (reuse_limit_ p <= queue_size (reuse_queue_ p)) then
    m ← Delete o m;
    Some (mk (reuse_queue_ p) (size_limit_ p) (reuse_limit_ p) (u64 (current_size_ p - 1)), m)
  else Some (mk (reuse_queue_ p ++ [o]) (size_limit_ p) (reuse_limit_ p) (current_size_ p), m).

(** The loop of [SetReuseLimit]. *)
Fixpoint drop_reusable (queue : list Z) (limit size : Z) (m : M) : option (list Z * Z * M) :=
  match queue with
  | [] => Some ([], size, m)
  | o :: rest =>
    if decide (queue_size queue > limit) then m ← Delete o m; drop_reusable rest limit (u64 (size - 1)) m
    else Some (queue, size, m)
  end.

Definition SetReuseLimit (new_reuse_limit : Z) (p : t) (m : M) : option (t * M) :=
  '(queue, size, m) ← drop_reusable (reuse_queue_ p) new_reuse_limit (current_size_ p) m;
  Some (mk queue (size_limit_ p) new_reuse_limit size, m).

(** The destructor: what is still in the queue is freed. *)
Fixpoint delete_all (os : list Z) (m : M) : option M :=
  match os with [] => Some m | o :: rest => m ← Delete o m; delete_all rest m end.

Definition Destroy (p : t) (m : M) : option M := delete_all (reuse_queue_ p) m.

End operations.
End ObjectPool.
Import ObjectPool.

(** ** Use of a pool *)

Section use.
Context {M : Type} `{!Allocator M, !AllocatorLaws M}.

(** Clients release what they hold, and write into it as they like. *)
Inductive pool_step : t * M * list Z -> t * M * list Z -> Prop :=
| pool_get p m held o p' m' : Get p m = Some (inl o, p', m') -> pool_step (p, m, held) (p', m', o :: held)
| pool_throw p m held e p' m' : Get p m = Some (inr e, p', m') -> pool_step (p, m, held) (p', m', held)
| pool_release p m held held' o p' m' : held ≡ₚ o :: held' -> Release o p m = Some (p', m') -> pool_step (p, m, held) (p', m', held')
| pool_size_limit p m held n b p' : is_uint 64 n -> SetSizeLimit n p = (b, p') -> pool_step (p, m, held) (p', m, held)
| pool_reuse_limit p m held n p' m' : is_uint 64 n -> SetReuseLimit n p m = Some (p', m') -> pool_step (p, m, held) (p', m', held)
| pool_write p m m' held : live m' = live m -> pool_step (p, m, held) (p, m', held).

(** [l0]: what was in use before the pool; [held]: the objects that clients have. *)
Record pool_inv (l0 : gset Z) (p : t) (m : M) (held : list Z) : Prop := {
  pi_nodup : NoDup (held ++ reuse_queue_ p);
  pi_fresh : list_to_set (held ++ reuse_queue_ p) ## l0;
  pi_live : live m = l0 ∪ list_to_set (held ++ reuse_queue_ p);
  pi_size : current_size_ p = queue_size (held ++ reuse_queue_ p);
  pi_limit : current_size_ p <= size_limit_ p < 2 ^ 64;
  pi_reuse : queue_size (reuse_queue_ p) <= reuse_limit_ p;
}.

Lemma pool_inv_make m n k : is_uint 64 n -> is_uint 64 k -> pool_inv (live m) (make n k) m [].
Proof. intros [] []. split; cbn; try done; [apply NoDup_nil_2|set_solver..]. Qed.

(** Nothing but the set of held objects matters. *)
Lemma pool_inv_perm l0 p m held held' : held ≡ₚ held' -> pool_inv l0 p m held -> pool_inv l0 p m held'.
Proof.
  intros E0 [I1 I2 I3 I4 I5 I6]. assert (held ++ reuse_queue_ p ≡ₚ held' ++ reuse_queue_ p) as E by by rewrite E0. split; try done.
  - by rewrite <-E.
  - by rewrite <-E.
  - by rewrite I3, (list_to_set_perm_L _ _ E).
  - rewrite I4. unfold queue_size. by rewrite E.
Qed.

Lemma pool_inv_live l0 p m m' held : live m' = live m -> pool_inv l0 p m held -> pool_inv l0 p m' held.
Proof. intros E [? ? I3 ? ? ?]. split; try done. by rewrite E. Qed.

Lemma held_live l0 p m held o : pool_inv l0 p m held -> o ∈ held -> o ∈ live m /\ o ∉ reuse_queue_ p /\ o ∉ l0.
Proof.
  intros I Ho. split; [rewrite (pi_live _ _ _ _ I); set_solver|]. split; [|pose proof (pi_fresh _ _ _ _ I); set_solver].
  pose proof (pi_nodup _ _ _ _ I) as Hn. apply NoDup_app in Hn. naive_solver.
Qed.

(** ** What the operations do *)

Lemma Get_spec l0 p m held : pool_inv l0 p m held -> exists r p' m', Get p m = Some (r, p', m') /\
  size_limit_ p' = size_limit_ p /\
  match r with
  | inl o => pool_inv l0 p' m' (o :: held) /\ o ∉ held /\ o ∉ l0
  | inr e => p' = p /\ pool_inv l0 p m' held /\ live m' = live m /\ reuse_queue_ p = [] /\
      match e with
      | NoMoreObjectException n => n = size_limit_ p /\ queue_size held = size_limit_ p
      | AllocatorFailureException => New m = Some (None, m')
      end
  end.
Proof.
  intros I. pose proof I as [I1 I2 I3 I4 I5 I6]. unfold Get. destruct (reuse_queue_ p) as [|o q] eqn:Eq.
  - rewrite app_nil_r in *. case_decide as Hl.
    + eexists _, _, _. split; [done|]. split; [done|]. split; [done|]. split; [done|]. split; [done|]. split; [done|]. split; [done|lia].
    + destruct (New_law m) as (r & m' & -> & Hr). cbn [mbind option_bind]. destruct r as [o|].
      * destruct Hr as [Hf Hlv]. cbn [current_size_ size_limit_]. rewrite (wrapu_small 64) by (unfold is_uint, queue_size in *; lia). rewrite decide_True by lia.
        eexists _, _, _. split; [done|]. split; [done|]. split; [|set_solver].
        split; cbn [reuse_queue_ size_limit_ reuse_limit_ current_size_]; rewrite ?app_nil_r; try done.
        -- apply NoDup_cons. set_solver.
        -- set_solver.
        -- rewrite Hlv, I3. set_solver.
        -- unfold queue_size in *. cbn [length]. lia.
        -- lia.
      * eexists _, _, _. split; [done|]. split; [done|]. split; [done|]. split; [by eapply pool_inv_live|]. done.
  - destruct (Reuse_law o m) as (m' & -> & Hlv); [rewrite I3; set_solver|]. cbn [mbind option_bind]. rewrite decide_True by lia.
    eexists _, _, _. split; [done|]. split; [done|]. assert ((o :: held) ++ q ≡ₚ held ++ o :: q) as E by apply Permutation_middle.
    split; [|split; [|set_solver]].
    + split; cbn [reuse_queue_ size_limit_ reuse_limit_ current_size_]; try done.
      * by rewrite E.
      * by rewrite E.
      * by rewrite Hlv, I3, (list_to_set_perm_L _ _ E).
      * rewrite I4. unfold queue_size. by rewrite E.
      * unfold queue_size in *. cbn [length] in *. lia.
    + rewrite NoDup_app in I1. set_solver.
Qed.

Lemma Release_spec l0 p m held o : pool_inv l0 p m (o :: held) -> exists p' m', Release o p m = Some (p', m') /\
  pool_inv l0 p' m' held /\ size_limit_ p' = size_limit_ p.
Proof.
  intros I. pose proof I as [I1 I2 I3 I4 I5 I6]. destruct (held_live _ _ _ _ o I) as (Ho & Hq & H0); [left|]. apply NoDup_cons in I1 as [Hn I1].
  unfold Release. case_decide as Hl.
  - destruct (Delete_law o m Ho) as (m' & -> & Hlv). cbn [mbind option_bind]. eexists _, _. split; [done|]. split; [|done].
    unfold queue_size in *. cbn [length app] in *. split; cbn [reuse_queue_ size_limit_ reuse_limit_ current_size_]; try done.
    + set_solver.
    + rewrite Hlv, I3. cbn [list_to_set] in *. fold (list_to_set (C := gset Z) (held ++ reuse_queue_ p)). set_solver.
    + unfold queue_size. rewrite I4, (wrapu_small 64) by (unfold is_uint; lia). lia.
    + rewrite (wrapu_small 64) by (unfold is_uint; lia). lia.
  - eexists _, _. split; [done|]. split; [|done]. assert (held ++ reuse_queue_ p ++ [o] ≡ₚ (o :: held) ++ reuse_queue_ p) as E by (rewrite app_assoc; cbn; symmetry; apply Permutation_cons_append).
    split; cbn [reuse_queue_ size_limit_ reuse_limit_ current_size_]; try done.
    + rewrite E. cbn. by apply NoDup_cons.
    + by rewrite E.
    + by rewrite I3, (list_to_set_perm_L _ _ E).
    + rewrite I4. unfold queue_size. by rewrite E.
    + unfold queue_size in *. rewrite length_app. cbn. lia.
Qed.

Lemma drop_reusable_spec l0 held n limit reuse : 0 <= limit -> forall q m size, pool_inv l0 (mk q n reuse size) m held ->
  exists q' size' m', drop_reusable q limit size m = Some (q', size', m') /\ pool_inv l0 (mk q' n limit size') m' held.
Proof.
  intros H0 q. induction q as [|o q IH]; intros m size I; cbn [drop_reusable].
  - eexists _, _, _. split; [done|]. destruct I as [I1 I2 I3 I4 I5 I6]. split; try done.
  - case_decide as Hl.
    + pose proof I as [I1 I2 I3 I4 I5 I6]. cbn in I1, I2, I3, I4, I5, I6. unfold queue_size in *.
      assert (held ++ o :: q ≡ₚ o :: held ++ q) as E by (symmetry; apply Permutation_middle).
      destruct (Delete_law o m) as (m' & -> & Hlv); [rewrite I3; set_solver|]. cbn [mbind option_bind]. apply IH.
      rewrite E in I1, I4. rewrite (list_to_set_perm_L _ _ E) in I2, I3. apply NoDup_cons in I1 as [Hn I1]. cbn [length] in *.
      split; cbn [reuse_queue_ size_limit_ reuse_limit_ current_size_]; unfold queue_size; try done.
      * set_solver.
      * rewrite Hlv, I3. set_solver.
      * rewrite I4, (wrapu_small 64) by (unfold is_uint; lia). lia.
      * rewrite (wrapu_small 64) by (unfold is_uint; lia). lia.
      * lia.
    + eexists _, _, _. split; [done|]. destruct I as [I1 I2 I3 I4 I5 I6]. split; try done.
Qed.

Lemma SetReuseLimit_spec l0 p m held n : 0 <= n -> pool_inv l0 p m held ->
  exists p' m', SetReuseLimit n p m = Some (p', m') /\ pool_inv l0 p' m' held.
Proof.
  intros Hn I. destruct (drop_reusable_spec l0 held (size_limit_ p) n (reuse_limit_ p) Hn (reuse_queue_ p) m (current_size_ p)) as (q & size & m' & E & I'); [by destruct p|].
  unfold SetReuseLimit. rewrite E. by eexists _, _.
Qed.

Lemma SetSizeLimit_inv l0 p m held n : is_uint 64 n -> pool_inv l0 p m held -> pool_inv l0 (SetSizeLimit n p).2 m held.
Proof. intros Hn I. unfold SetSizeLimit. case_decide; [|done]. destruct I as [I1 I2 I3 I4 I5 I6]. split; try done. cbn. unfold is_uint in Hn. lia. Qed.

Lemma pool_step_inv l0 s s' : pool_step s s' -> pool_inv l0 s.1.1 s.1.2 s.2 -> pool_inv l0 s'.1.1 s'.1.2 s'.2.
Proof.
  intros Hs I. destruct Hs as [p m held o p' m' E|p m held e p' m' E|p m held held' o p' m' Hp E|p m held n b p' Hn E|p m held n p' m' Hn E|p m m' held E]; cbn in *.
  - destruct (Get_spec _ _ _ _ I) as (r & p2 & m2 & E2 & _ & H2). rewrite E in E2. injection E2 as <- <- <-. apply H2.
  - destruct (Get_spec _ _ _ _ I) as (r & p2 & m2 & E2 & _ & H2). rewrite E in E2. injection E2 as <- <- <-. destruct H2 as (-> & H2 & _). done.
  - destruct (Release_spec l0 p m held' o) as (p2 & m2 & E2 & I2 & _); [by eapply pool_inv_perm|]. rewrite E in E2. by injection E2 as <- <-.
  - replace p' with (SetSizeLimit n p).2 by by rewrite E. by apply SetSizeLimit_inv.
  - destruct (SetReuseLimit_spec l0 p m held n) as (p2 & m2 & E2 & I2); [apply Hn|done|]. rewrite E in E2. by injection E2 as <- <-.
  - by eapply pool_inv_live.
Qed.

Definition pool_reachable (n k : Z) (m0 : M) : t * M * list Z -> Prop := rtc pool_step (make n k, m0, []).

Lemma pool_reachable_inv n k m0 s : is_uint 64 n -> is_uint 64 k -> pool_reachable n k m0 s -> pool_inv (live m0) s.1.1 s.1.2 s.2.
Proof.
  intros Hn Hk Hr. enough (forall s0, rtc pool_step s0 s -> pool_inv (live m0) s0.1.1 s0.1.2 s0.2 -> pool_inv (live m0) s.1.1 s.1.2 s.2) as H by (eapply H; [exact Hr|by apply pool_inv_make]).
  clear Hr. induction 1 as [|s1 s2 s3 Hs _ IH]; [done|]. intros I. by eapply IH, pool_step_inv.
Qed.

Lemma delete_all_live os : forall m, NoDup os -> list_to_set os ⊆ live m -> exists m', delete_all os m = Some m' /\ live m' = live m ∖ list_to_set os.
Proof.
  induction os as [|o os IH]; intros m Hn Hs; cbn [delete_all]; [exists m; split; [done|]; set_solver|]. apply NoDup_cons in Hn as [Hn1 Hn2].
  destruct (Delete_law o m) as (m1 & -> & Hl1); [set_solver|]. destruct (IH m1) as (m' & E & Hl); [done|set_solver|]. exists m'. split; [done|].
  rewrite Hl, Hl1. set_solver.
Qed.

End use.

(** ** Theorems *)

(** C33: accounting of object pools.  In every run of a pool by any number of clients, the
    objects that clients hold and the reusable ones are all different and in use, the
    size is their number and within the limit, and at most the reuse limit is kept.
    Getting an object never hands out one that is held; it throws only when there is
    nothing to reuse and the clients hold as many as the limit allows, or the allocator
    gives none.  Releasing a held object and changing the reuse limit always succeed, and
    destroying the pool leaves in use exactly what was before and what clients hold. *)
Theorem pool_accounting {M : Type} `{!Allocator M, !AllocatorLaws M} (size_limit reuse_limit : Z) (m0 : M) (p : t) (m : M) (held : list Z) :
  is_uint 64 size_limit -> is_uint 64 reuse_limit -> pool_reachable size_limit reuse_limit m0 (p, m, held) ->
  NoDup (held ++ reuse_queue_ p) /\ current_size_ p = queue_size (held ++ reuse_queue_ p) /\
  current_size_ p <= size_limit_ p /\ queue_size (reuse_queue_ p) <= reuse_limit_ p /\
  (exists r p' m', Get p m = Some (r, p', m') /\
     match r with
     | inl o => o ∉ held /\ o ∉ live m0 /\ o ∈ live m'
     | inr (NoMoreObjectException n) => n = size_limit_ p /\ queue_size held = size_limit_ p /\ p' = p /\ live m' = live m
     | inr AllocatorFailureException => New m = Some (None, m') /\ p' = p /\ live m' = live m
     end) /\
  (forall o, o ∈ held -> exists p' m', Release o p m = Some (p', m')) /\
  (forall n, 0 <= n -> exists p' m', SetReuseLimit n p m = Some (p', m')) /\
  exists m', Destroy p m = Some m' /\ live m' = live m0 ∪ list_to_set held.
Proof.
  intros Hn Hk Hr. pose proof (pool_reachable_inv _ _ _ _ Hn Hk Hr) as I. cbn in I. pose proof I as [I1 I2 I3 I4 I5 I6].
  split; [done|]. split; [done|]. split; [lia|]. split; [done|]. split; [|split; [|split]].
  - destruct (Get_spec _ _ _ _ I) as (r & p' & m' & E & _ & H). exists r, p', m'. split; [done|]. destruct r as [o|[n|]].
    + destruct H as (Io & ? & ?). split; [done|]. split; [done|]. apply (held_live _ _ _ _ o Io). left.
    + naive_solver.
    + naive_solver.
  - intros o Ho. apply list_elem_of_split in Ho as (h1 & h2 & ->).
    destruct (Release_spec (live m0) p m (h1 ++ h2) o) as (p' & m' & E & _); [|by eauto]. eapply pool_inv_perm; [|exact I]. symmetry. apply Permutation_middle.
  - intros n H0. destruct (SetReuseLimit_spec _ _ _ _ n H0 I) as (p' & m' & E & _). eauto.
  - apply NoDup_app in I1 as (_ & Hd & Hq). destruct (delete_all_live (reuse_queue_ p) m) as (m' & E & Hl); [done|set_solver|]. exists m'. split; [done|].
    rewrite Hl, I3, list_to_set_app_L. set_solver.
Qed.

(** ** Allocators *)

(** Byte arrays on the heap, by their address.  [new] is C++'s operator new: the address
    and the bytes that are there, or null. *)
Section raw_memory.
Context (new : Z -> gmap Z (list Z) -> option (Z * list Z)).
Hypothesis new_fresh : forall n h o bs, new n h = Some (o, bs) -> h !! o = None.

Definition allocate (n : Z) (h : gmap Z (list Z)) : option Z * gmap Z (list Z) :=
  match new n h with Some (o, bs) => (Some o, <[o := bs]> h) | None => (None, h) end.
Definition free (o : Z) (h : gmap Z (list Z)) : option (gmap Z (list Z)) :=
  match h !! o with Some _ => Some (delete o h) | None => None end.

(** [AllocationUtil::AllocateAligned] *)
Definition AllocateAligned (byte_size : Z) (h : gmap Z (list Z)) : option Z * gmap Z (list Z) :=
  allocate (8 * (u64 (byte_size + 7) / 8)) h.

Lemma raw_New n h : match allocate n h with
  | (Some o, h') => o ∉ dom h /\ dom h' = {[ o ]} ∪ dom h | (None, h') => dom h' = dom h end.
Proof.
  unfold allocate. destruct (new n h) as [[o bs]|] eqn:E; [|done]. apply new_fresh in E. split; [by apply not_elem_of_dom|]. by rewrite dom_insert_L.
Qed.

Lemma raw_Delete o h : o ∈ dom h -> exists h', free o h = Some h' /\ dom h' = dom h ∖ {[ o ]}.
Proof. intros [bs E]%elem_of_dom. unfold free. rewrite E. eexists. split; [done|]. by rewrite dom_delete_L. Qed.

(** [ByteAlignedAllocator], for objects of [sizeof_T] bytes. *)
Definition ByteAlignedAllocator (sizeof_T : Z) : Allocator (gmap Z (list Z)) :=
  {| New h := Some (AllocateAligned sizeof_T h); Reuse _ h := Some h; Delete := free |}.

(** [BlockAllocator] *)
Definition BlockAllocator (sizeof_RawBlock : Z) : Allocator (gmap Z (list Z)) :=
  {| New h := Some (allocate sizeof_RawBlock h); Reuse _ h := Some h; Delete := free |}.

Lemma ByteAlignedAllocator_laws n : @AllocatorLaws _ (ByteAlignedAllocator n).
Proof.
  refine (@Build_AllocatorLaws _ (ByteAlignedAllocator n) dom _ _ _).
  - intros h. cbn. pose proof (raw_New (8 * (u64 (n + 7) / 8)) h) as H. unfold AllocateAligned. destruct (allocate _ h) as [r h']. eexists _, _. split; [done|]. by destruct r.
  - intros o h _. cbn. eauto.
  - intros o h Ho. cbn. by apply raw_Delete.
Defined.

Lemma BlockAllocator_laws n : @AllocatorLaws _ (BlockAllocator n).
Proof.
  refine (@Build_AllocatorLaws _ (BlockAllocator n) dom _ _ _).
  - intros h. cbn. pose proof (raw_New n h) as H. destruct (allocate n h) as [r h']. eexists _, _. split; [done|]. by destruct r.
  - intros o h _. cbn. eauto.
  - intros o h Ho. cbn. by apply raw_Delete.
Defined.

End raw_memory.

(** An operator new that gives the next multiple of 4096. *)
Definition bump_new {A} (x : A) (h : gmap Z A) : option (Z * A) := Some (4096 * (1 + foldr Z.max 0 ((fun o => o / 4096) <$> (map_to_list h).*1)), x).

Lemma bump_fresh {A} (x : A) h o y : bump_new x h = Some (o, y) -> h !! o = None /\ o `mod` 8 = 0 /\ y = x.
Proof.
  unfold bump_new. set (M := foldr Z.max 0 _). intros [= <- <-]. split; [|split; [|done]].
  - apply eq_None_not_Some. intros [y Hy]. apply elem_of_map_to_list in Hy. enough (1 + M <= M) by lia.
    rewrite <-(Z.div_mul (1 + M) 4096) at 1 by lia. rewrite Z.mul_comm. set (o := 4096 * (1 + M)) in *. unfold M.
    assert (o / 4096 ∈ (fun o => o / 4096) <$> (map_to_list h).*1) as Hin by (apply (list_elem_of_fmap_2 (fun o => o / 4096) _ o), list_elem_of_fmap; by exists (o, y)).
    revert Hin. generalize ((fun o => o / 4096) <$> (map_to_list h).*1). intros l. induction l as [|z l IH]; [by intros ?%elem_of_nil|]. cbn. intros [->|Hin]%elem_of_cons; [lia|]. specialize (IH Hin). lia.
  - rewrite Z.mul_comm. replace ((1 + M) * 4096) with ((1 + M) * 512 * 8) by lia. by rewrite Z.mod_mul.
Qed.

Definition example_blocks : Allocator (gmap Z (list Z)) := BlockAllocator (fun _ => bump_new [0; 0]) 2.
Definition example_blocks_laws : @AllocatorLaws _ example_blocks :=
  BlockAllocator_laws (fun _ => bump_new [0; 0]) (fun n h o bs H => proj1 (bump_fresh _ h o bs H)) 2.

(** Two objects of a pool of two, one of them given back, and the limit lowered. *)
Lemma pool_accounting_witness : exists p m, @pool_reachable _ example_blocks example_blocks_laws 2 1 ∅ (p, m, [8192]) /\
  NoDup ([8192] ++ reuse_queue_ p) /\ reuse_queue_ p = [4096].
Proof.
  assert (exists p m, @pool_reachable _ example_blocks example_blocks_laws 2 1 ∅ (p, m, [8192]) /\ reuse_queue_ p = [4096]) as (p & m & Hr & Hq).
  { eexists _, _. split.
    - eapply rtc_l; [eapply pool_get; vm_compute; reflexivity|]. eapply rtc_l; [eapply pool_get; vm_compute; reflexivity|].
      eapply rtc_l; [eapply (pool_release _ _ _ [8192] 4096); [apply Permutation_swap|vm_compute; reflexivity]|]. apply rtc_refl.
    - reflexivity. }
  exists p, m. split; [done|]. split; [|done].
  refine (proj1 (@pool_accounting _ example_blocks example_blocks_laws 2 1 ∅ p m [8192] _ _ Hr)); unfold is_uint; lia.
Defined.
