(* ===== verification/Buffers.v ===== *)
(** * Record buffers

    [storage/record_buffer.{h,cpp}]: the segments in which transactions keep their undo and
    redo records, drawn from an object pool, and the loops over them; the calls of
    transaction_context.h and transaction_manager.cpp that use them (staging, the commit
    and abort records), and the log serializer's loop over the segments handed over.

    A segment is its bytes; a record is what [reinterpret_cast] sees at an offset, and its
    size is read from there.  Segments have addresses in a heap, so sharing and reuse of
    memory are visible; a pointer is a segment's address and an offset. *)

From S2P Require Import Prelude TupleAccess ProjectedRow LogRecords ObjectPool.

Definition BUFFER_SEGMENT_SIZE : Z := Z.shiftl 1 12.

(** ** Segments *)

Module RecordBufferSegment.

Record t := mk { bytes_ : list Z; size_ : Z }.

Definition HasBytesLeft (size : Z) (s : t) : bool := bool_decide (u32 (size_ s + size) <= BUFFER_SEGMENT_SIZE).

(** The offset of the reserved bytes. *)
Definition Reserve (size : Z) (s : t) : option (Z * t) :=
  if HasBytesLeft size s then Some (size_ s, mk (bytes_ s) (u32 (size_ s + size))) else None.

Definition Reset (s : t) : t := mk (bytes_ s) 0.

End RecordBufferSegment.
Abbreviation segment := RecordBufferSegment.t.
Abbreviation heap := (gmap Z RecordBufferSegment.t).
Abbreviation pointer := (Z * Z)%type.

(** [RecordBufferSegmentAllocator]; [new]: the address of a new segment and what is in its
    memory, or null. *)
Section allocator.
Context (new : heap -> option (Z * list Z)).

Definition RecordBufferSegmentAllocator : Allocator heap := {|
  New h :=
    match new h with
    | None => Some (None, h)
    | Some (result, bytes) =>
      if decide (result `mod` 8 = 0) then Some (Some result, <[result := RecordBufferSegment.mk bytes 0]> h) else None
    end;
  Reuse reused h := s ← h !! reused; Some (<[reused := RecordBufferSegment.Reset s]> h);
  Delete ptr h := match h !! ptr with Some _ => Some (delete ptr h) | None => None end;
|}.
End allocator.

(** Writing a record through a pointer. *)
Definition store (p : pointer) (r : list Z) (h : heap) : option heap :=
  s ← h !! p.1;
  if decide (0 <= p.2 /\ p.2 + Z.of_nat (length r) <= Z.of_nat (length (RecordBufferSegment.bytes_ s))) then
    Some (<[p.1 := RecordBufferSegment.mk (wr (RecordBufferSegment.bytes_ s) p.2 r) (RecordBufferSegment.size_ s)]> h)
  else None.

(** The memory from a pointer on. *)
Definition deref (p : pointer) (h : heap) : option (list Z) :=
  s ← h !! p.1; Some (drop (Z.to_nat p.2) (RecordBufferSegment.bytes_ s)).

(** ** Records in memory *)

(** A type of records: its [Size] method, and when bytes are such a record. *)
Class RecordType := {
  record_Size : list Z -> Z;
  record_ok : list Z -> bool;
  record_bounds r : record_ok r = true -> (0 < length r)%nat /\ Z.of_nat (length r) <= BUFFER_SEGMENT_SIZE;
  record_size r rest : record_ok r = true -> record_Size (r ++ rest) = Z.of_nat (length r);
}.

(** [UndoRecord]: type, next, timestamp, table and slot, 8 bytes each, then a row if it is
    an update. *)
Definition sizeof_UndoRecord : Z := 40.
Definition UndoRecord_Type (mem : list Z) : Z := le_val (rd mem 0 1).
Definition UPDATE_type : Z := 0.
Definition UndoRecord_Size (mem : list Z) : Z :=
  u32 (sizeof_UndoRecord + if decide (UndoRecord_Type mem = UPDATE_type) then ProjectedRow.Size (drop 40 mem) else 0).

Definition UndoRecord_ok (r : list Z) : bool :=
  bool_decide (40 <= length r)%nat && bool_decide (Z.of_nat (length r) <= BUFFER_SEGMENT_SIZE) &&
  bool_decide (UndoRecord_Size r = Z.of_nat (length r)) && (bool_decide (44 <= length r)%nat || bool_decide (UndoRecord_Type r <> UPDATE_type)).

(** [LogRecord]: the type and the size in the first 8 bytes, then the transaction. *)
Definition LogRecord_Size (mem : list Z) : Z := le_val (rd mem 4 4).
Definition LogRecord_TxnBegin (mem : list Z) : Z := le_val (rd mem 8 8).

Definition LogRecord_ok (r : list Z) : bool :=
  bool_decide (16 <= length r)%nat && bool_decide (Z.of_nat (length r) <= BUFFER_SEGMENT_SIZE) &&
  bool_decide (LogRecord_Size r = Z.of_nat (length r)).

Lemma rd_app_l a b off n : 0 <= off -> 0 <= n -> off + n <= Z.of_nat (length a) -> rd (a ++ b) off n = rd a off n.
Proof.
  intros. unfold rd, slice. rewrite drop_app_le by lia. rewrite take_app_le; [done|]. rewrite length_drop. lia.
Qed.

#[export] Program Instance UndoRecord_record : RecordType := {| record_Size := UndoRecord_Size; record_ok := UndoRecord_ok |}.
Next Obligation. unfold UndoRecord_ok. intros r (((H1%bool_decide_eq_true & H2%bool_decide_eq_true)%andb_true_iff & _)%andb_true_iff & _)%andb_true_iff. split; [lia|done]. Qed.
Next Obligation.
  unfold UndoRecord_ok. intros r rest (((H1%bool_decide_eq_true & H2%bool_decide_eq_true)%andb_true_iff & H3%bool_decide_eq_true)%andb_true_iff & H4)%andb_true_iff.
  rewrite <-H3. unfold UndoRecord_Size. assert (UndoRecord_Type (r ++ rest) = UndoRecord_Type r) as E by (unfold UndoRecord_Type; by rewrite rd_app_l by lia).
  rewrite E. destruct (decide (UndoRecord_Type r = UPDATE_type)); [|done]. apply orb_true_iff in H4 as [H4%bool_decide_eq_true|H4%bool_decide_eq_true]; [|done].
  unfold ProjectedRow.Size. rewrite drop_app_le by lia. by rewrite rd_app_l by (rewrite ?length_drop; lia).
Qed.

#[export] Program Instance LogRecord_record : RecordType := {| record_Size := LogRecord_Size; record_ok := LogRecord_ok |}.
Next Obligation. unfold LogRecord_ok. intros r ((H1%bool_decide_eq_true & H2%bool_decide_eq_true)%andb_true_iff & _)%andb_true_iff. split; [lia|done]. Qed.
Next Obligation.
  unfold LogRecord_ok. intros r rest ((H1%bool_decide_eq_true & H2%bool_decide_eq_true)%andb_true_iff & H3%bool_decide_eq_true)%andb_true_iff.
  rewrite <-H3. unfold LogRecord_Size. by rewrite rd_app_l by lia.
Qed.

(** ** Iterating over a segment *)

Module IterableBufferSegment.
Section iterate.
Context (R : RecordType) (s : segment).

(** An iterator is its offset. *)
Definition begin : Z := 0.
Definition end_ : Z := RecordBufferSegment.size_ s.
Definition me (segment_offset : Z) : list Z := drop (Z.to_nat segment_offset) (RecordBufferSegment.bytes_ s).
Definition next (segment_offset : Z) : Z := u32 (segment_offset + record_Size (me segment_offset)).

(** [for (auto &record : segment)]: the bytes of the records it goes through. *)
Fixpoint iterate (fuel : nat) (it : Z) : option (list (list Z)) :=
  if decide (it = end_) then Some []
  else match fuel with
       | O => None
       | S fuel => rest ← iterate fuel (next it); Some (take (Z.to_nat (record_Size (me it))) (me it) :: rest)
       end.

End iterate.
End IterableBufferSegment.

(** ** Undo buffers *)

Section buffers.
Context (new : heap -> option (Z * list Z)).
#[local] Abbreviation Get := (@ObjectPool.Get heap (RecordBufferSegmentAllocator new)).
#[local] Abbreviation Release := (@ObjectPool.Release heap (RecordBufferSegmentAllocator new)).
Abbreviation result := (pointer + ObjectPool.exception)%type.

(** [Reserve] on the segment at an address. *)
Definition reserve_in (o size : Z) (h : heap) : option (pointer * heap) :=
  s ← h !! o;
  '(off, s) ← RecordBufferSegment.Reserve size s;
  Some ((o, off), <[o := s]> h).

Definition has_bytes_left (o size : Z) (h : heap) : option bool := s ← h !! o; Some (RecordBufferSegment.HasBytesLeft size s).

Record UndoBuffer := Undo { buffers_ : list Z; undo_last_record_ : option pointer }.

Definition UndoBuffer_Empty (b : UndoBuffer) : bool := bool_decide (buffers_ b = []).

(** [buffers_.empty() || !buffers_.back()->HasBytesLeft(size)] *)
Definition undo_full (size : Z) (b : UndoBuffer) (h : heap) : option bool :=
  match last (buffers_ b) with None => Some true | Some o => negb <$> has_bytes_left o size h end.

Definition UndoBuffer_NewEntry (size : Z) (b : UndoBuffer) (p : ObjectPool.t) (h : heap) :
    option (result * UndoBuffer * ObjectPool.t * heap) :=
  let reserve (b : UndoBuffer) p h :=
    o ← last (buffers_ b);
    '(ptr, h) ← reserve_in o size h;
    Some (inl ptr, Undo (buffers_ b) (Some ptr), p, h) in
  full ← undo_full size b h;
  if full : bool then
    '(r, p, h) ← Get p h;
    match r with
    | inr e => Some (inr e, b, p, h)
    | inl new_segment =>
      if decide (new_segment `mod` 8 = 0) then reserve (Undo (buffers_ b ++ [new_segment]) (undo_last_record_ b)) p h else None
    end
  else reserve b p h.

(** The destructor gives all segments back. *)
Fixpoint release_all (os : list Z) (p : ObjectPool.t) (h : heap) : option (ObjectPool.t * heap) :=
  match os with [] => Some (p, h) | o :: rest => '(p, h) ← Release o p h; release_all rest p h end.
Definition UndoBuffer_Destroy (b : UndoBuffer) : ObjectPool.t -> heap -> option (ObjectPool.t * heap) := release_all (buffers_ b).

(** An iterator is the index of its segment and the offset in there. *)
Definition undo_begin : nat * Z := (0%nat, 0).
Definition undo_end (b : UndoBuffer) : nat * Z := (length (buffers_ b), 0).
Definition undo_me (b : UndoBuffer) (h : heap) (it : nat * Z) : option (list Z) := o ← buffers_ b !! it.1; deref (o, it.2) h.
Definition undo_next (b : UndoBuffer) (h : heap) (it : nat * Z) : option (nat * Z) :=
  o ← buffers_ b !! it.1;
  s ← h !! o;
  me ← undo_me b h it;
  let segment_offset := u32 (it.2 + UndoRecord_Size me) in
  Some (if decide (segment_offset = RecordBufferSegment.size_ s) then (S it.1, 0) else (it.1, segment_offset)).

(** [for (auto &record : undo_buffer)] *)
Fixpoint undo_iterate (b : UndoBuffer) (h : heap) (fuel : nat) (it : nat * Z) : option (list (list Z)) :=
  if decide (it = undo_end b) then Some []
  else match fuel with
       | O => None
       | S fuel =>
         me ← undo_me b h it;
         it ← undo_next b h it;
         rest ← undo_iterate b h fuel it;
         Some (take (Z.to_nat (UndoRecord_Size me)) me :: rest)
       end.

(** ** Redo buffers *)

Record RedoBuffer := Redo { has_flushed_ : bool; buffer_seg_ : option Z; redo_last_record_ : option pointer }.

(** Whether there is a log manager; the last component is its flush queue. *)
Context (log_enabled : bool).

Definition RedoBuffer_NewEntry (size : Z) (b : RedoBuffer) (p : ObjectPool.t) (h : heap) (queue : list Z) :
    option (result * RedoBuffer * ObjectPool.t * heap * list Z) :=
  let reserve has_flushed o p h queue :=
    '(ptr, h) ← reserve_in o size h;
    Some (inl ptr, Redo has_flushed (Some o) (Some ptr), p, h, queue) in
  let refill (b : RedoBuffer) p h queue :=
    '(r, p, h) ← Get p h;
    match r with
    | inr e => Some (inr e, b, p, h, queue)
    | inl o => reserve (has_flushed_ b) o p h queue
    end in
  match buffer_seg_ b with
  | None => refill b p h queue
  | Some o =>
    has ← has_bytes_left o size h;
    if has : bool then reserve (has_flushed_ b) o p h queue
    else if log_enabled then refill (Redo true (buffer_seg_ b) (redo_last_record_ b)) p h (queue ++ [o])
    else '(p, h) ← Release o p h; refill b p h queue
  end.

Definition RedoBuffer_Finalize (flush_buffer : bool) (b : RedoBuffer) (p : ObjectPool.t) (h : heap) (queue : list Z) :
    option (RedoBuffer * ObjectPool.t * heap * list Z) :=
  match buffer_seg_ b with
  | None => Some (b, p, h, queue)
  | Some o =>
    if log_enabled && flush_buffer then Some (Redo true (buffer_seg_ b) (redo_last_record_ b), p, h, queue ++ [o])
    else '(p, h) ← Release o p h; Some (b, p, h, queue)
  end.

Definition RedoBuffer_Reset (b : RedoBuffer) (h : heap) : option heap :=
  match buffer_seg_ b with None => Some h | Some o => s ← h !! o; Some (<[o := RecordBufferSegment.Reset s]> h) end.

(** ** Transactions over a shared pool *)

(** The pointers to undo records that have been handed out are with whoever uses them
    (the version chains); a finished transaction only waits to be destroyed. *)
Record txn := Txn { undo_ : UndoBuffer; redo_ : RedoBuffer; undo_ptrs : list pointer; finished : bool }.

(** [flush_queue] is [temp_flush_queue_] followed by [flush_queue_] of the serializer;
    [log]: the records it has gone through. *)
Record system := System {
  pool : ObjectPool.t;
  mem : heap;
  flush_queue : list Z;
  txns : gmap Z txn;
  log : list (list Z);
}.

Definition start (size_limit reuse_limit : Z) : system := System (ObjectPool.make size_limit reuse_limit) ∅ [] ∅ [].

Definition new_txn : txn := Txn (Undo [] None) (Redo false None None) [] false.

Inductive outcome := Done | Thrown (e : ObjectPool.exception).

Inductive op :=
| OBegin (id : Z)
| OUndo (id : Z) (r : list Z)
| OStore (id : Z) (i : nat) (r : list Z)
| OStage (id : Z) (r : list Z)
| OFill (id : Z) (r : list Z)
| OCommit (id : Z) (r : list Z)
| OAbort (id : Z) (r : list Z)
| OSerialize
| ODestroy (id : Z).

(** [UndoRecordForUpdate] and the like: an entry, then the record is written there. *)
Definition UndoRecordFor (id : Z) (r : list Z) (s : system) : option (outcome * system) :=
  t ← txns s !! id;
  '(res, b, p, h) ← UndoBuffer_NewEntry (Z.of_nat (length r)) (undo_ t) (pool s) (mem s);
  match res with
  | inr e => Some (Thrown e, System p h (flush_queue s) (<[id := Txn b (redo_ t) (undo_ptrs t) (finished t)]> (txns s)) (log s))
  | inl ptr =>
    h ← store ptr r h;
    Some (Done, System p h (flush_queue s) (<[id := Txn b (redo_ t) (undo_ptrs t ++ [ptr]) (finished t)]> (txns s)) (log s))
  end.

(** Changing an undo record in place. *)
Definition StoreUndo (id : Z) (i : nat) (r : list Z) (s : system) : option (outcome * system) :=
  t ← txns s !! id;
  ptr ← undo_ptrs t !! i;
  h ← store ptr r (mem s);
  Some (Done, System (pool s) h (flush_queue s) (txns s) (log s)).

(** An entry of the redo buffer, and the record is written there. *)
Definition stage (r : list Z) (t : txn) (p : ObjectPool.t) (h : heap) (queue : list Z) :
    option (outcome * RedoBuffer * ObjectPool.t * heap * list Z) :=
  '(res, b, p, h, queue) ← RedoBuffer_NewEntry (Z.of_nat (length r)) (redo_ t) p h queue;
  match res with
  | inr e => Some (Thrown e, b, p, h, queue)
  | inl ptr => h ← store ptr r h; Some (Done, b, p, h, queue)
  end.

(** [StageWrite], [StageDelete] *)
Definition Stage (id : Z) (r : list Z) (s : system) : option (outcome * system) :=
  t ← txns s !! id;
  '(res, b, p, h, queue) ← stage r t (pool s) (mem s) (flush_queue s);
  Some (res, System p h queue (<[id := Txn (undo_ t) b (undo_ptrs t) (finished t)]> (txns s)) (log s)).

(** The client fills in the record it has just staged. *)
Definition Fill (id : Z) (r : list Z) (s : system) : option (outcome * system) :=
  t ← txns s !! id;
  ptr ← redo_last_record_ (redo_ t);
  h ← store ptr r (mem s);
  Some (Done, System (pool s) h (flush_queue s) (txns s) (log s)).

(** [LogCommit], as far as the buffers go. *)
Definition LogCommit (id : Z) (r : list Z) (s : system) : option (outcome * system) :=
  t ← txns s !! id;
  '(res, b, p, h, queue) ← (if log_enabled then stage r t (pool s) (mem s) (flush_queue s)
                            else Some (Done, redo_ t, pool s, mem s, flush_queue s));
  match res with
  | Thrown e => Some (Thrown e, System p h queue (<[id := Txn (undo_ t) b (undo_ptrs t) (finished t)]> (txns s)) (log s))
  | Done =>
    '(b, p, h, queue) ← RedoBuffer_Finalize true b p h queue;
    Some (Done, System p h queue (<[id := Txn (undo_ t) b (undo_ptrs t) true]> (txns s)) (log s))
  end.

(** [LogAbort], with the assertion that the transaction has made updates. *)
Definition LogAbort (id : Z) (r : list Z) (s : system) : option (outcome * system) :=
  t ← txns s !! id;
  if log_enabled && has_flushed_ (redo_ t) then
    if UndoBuffer_Empty (undo_ t) then None
    else
      h ← RedoBuffer_Reset (redo_ t) (mem s);
      '(res, b, p, h, queue) ← stage r t (pool s) h (flush_queue s);
      match res with
      | Thrown e => Some (Thrown e, System p h queue (<[id := Txn (undo_ t) b (undo_ptrs t) (finished t)]> (txns s)) (log s))
      | Done =>
        '(b, p, h, queue) ← RedoBuffer_Finalize true b p h queue;
        Some (Done, System p h queue (<[id := Txn (undo_ t) b (undo_ptrs t) true]> (txns s)) (log s))
      end
  else
    '(b, p, h, queue) ← RedoBuffer_Finalize false (redo_ t) (pool s) (mem s) (flush_queue s);
    Some (Done, System p h queue (<[id := Txn (undo_ t) b (undo_ptrs t) true]> (txns s)) (log s)).

(** One round of the serializer's loop: it goes through a segment and releases it. *)
Definition Serialize (s : system) : option (outcome * system) :=
  match flush_queue s with
  | [] => Some (Done, s)
  | buffer :: rest =>
    seg ← mem s !! buffer;
    records ← IterableBufferSegment.iterate LogRecord_record seg (Z.to_nat BUFFER_SEGMENT_SIZE) IterableBufferSegment.begin;
    '(p, h) ← Release buffer (pool s) (mem s);
    Some (Done, System p h rest (txns s) (log s ++ records))
  end.

(** The garbage collector deletes the transaction. *)
Definition DestroyTxn (id : Z) (s : system) : option (outcome * system) :=
  t ← txns s !! id;
  '(p, h) ← UndoBuffer_Destroy (undo_ t) (pool s) (mem s);
  Some (Done, System p h (flush_queue s) (delete id (txns s)) (log s)).

Definition exec (o : op) (s : system) : option (outcome * system) :=
  match o with
  | OBegin id => Some (Done, System (pool s) (mem s) (flush_queue s) (<[id := new_txn]> (txns s)) (log s))
  | OUndo id r => UndoRecordFor id r s
  | OStore id i r => StoreUndo id i r s
  | OStage id r => Stage id r s
  | OFill id r => Fill id r s
  | OCommit id r => LogCommit id r s
  | OAbort id r => LogAbort id r s
  | OSerialize => Serialize s
  | ODestroy id => DestroyTxn id s
  end.

(** Running operations up to the first exception. *)
Fixpoint run (os : list op) (s : system) : option (outcome * system) :=
  match os with
  | [] => Some (Done, s)
  | o :: rest => '(res, s) ← exec o s; match res with Done => run rest s | Thrown e => Some (Thrown e, s) end
  end.

End buffers.
