(* ===== verification/BufferRuns.v ===== *)
(** * Record buffers as lists of records

    What transactions, the serializer and the collector rely on when they use the record
    buffers of [Buffers]: an undo buffer is the list of the records put into it, a redo
    segment the list of the records staged, and nobody's memory is changed by anybody
    else.  [spec_exec] says this on lists; the operations on segments, pointers and the
    pool refine it. *)

From S2P Require Import Prelude TupleAccess LogRecords ObjectPool Buffers.
Import RecordBufferSegment.

(** ** The specification *)

Definition total (rs : list (list Z)) : Z := Z.of_nat (length (concat rs)).

(** A transaction: its undo records, the redo records not yet handed over, if there are
    any, and whether some have been. *)
Record spec_txn := SpecTxn { s_undo : list (list Z); s_seg : option (list (list Z)); s_flushed : bool; s_finished : bool }.

Record spec := Spec { s_txns : gmap Z spec_txn; s_queue : list (list (list Z)); s_log : list (list Z) }.

Definition spec_start : spec := Spec ∅ [] [].

Section spec.
Context (log_enabled : bool).

(** Staging a record: the segment, the flag and the queue after it. *)
Definition spec_stage (r : list Z) (st : spec_txn) (queue : list (list (list Z))) : list (list Z) * bool * list (list (list Z)) :=
  match s_seg st with
  | None => ([r], s_flushed st, queue)
  | Some rs =>
    if decide (total rs + Z.of_nat (length r) <= BUFFER_SEGMENT_SIZE) then (rs ++ [r], s_flushed st, queue)
    else if log_enabled then ([r], true, queue ++ [rs]) else ([r], s_flushed st, queue)
  end.

Definition running (id : Z) (a : spec) : option spec_txn :=
  st ← s_txns a !! id; if s_finished st then None else Some st.

(** A log record of the transaction. *)
Definition log_record_of (id : Z) (r : list Z) : bool := LogRecord_ok r && bool_decide (LogRecord_TxnBegin r = id).

(** [None]: a call that clients do not make. *)
Definition spec_exec (o : op) (a : spec) : option spec :=
  match o with
  | OBegin id =>
    if decide (s_txns a !! id = None) then Some (Spec (<[id := SpecTxn [] None false false]> (s_txns a)) (s_queue a) (s_log a)) else None
  | OUndo id r =>
    st ← running id a;
    if UndoRecord_ok r then Some (Spec (<[id := SpecTxn (s_undo st ++ [r]) (s_seg st) (s_flushed st) false]> (s_txns a)) (s_queue a) (s_log a)) else None
  | OStore id i r =>
    st ← s_txns a !! id;
    r0 ← s_undo st !! i;
    if UndoRecord_ok r && bool_decide (length r = length r0) then
      Some (Spec (<[id := SpecTxn (<[i := r]> (s_undo st)) (s_seg st) (s_flushed st) (s_finished st)]> (s_txns a)) (s_queue a) (s_log a))
    else None
  | OStage id r =>
    st ← running id a;
    if log_record_of id r then
      let '(seg, flushed, queue) := spec_stage r st (s_queue a) in
      Some (Spec (<[id := SpecTxn (s_undo st) (Some seg) flushed false]> (s_txns a)) queue (s_log a))
    else None
  | OFill id r =>
    st ← running id a;
    rs ← s_seg st;
    r0 ← last rs;
    if log_record_of id r && bool_decide (length r = length r0) then
      Some (Spec (<[id := SpecTxn (s_undo st) (Some (<[pred (length rs) := r]> rs)) (s_flushed st) false]> (s_txns a)) (s_queue a) (s_log a))
    else None
  | OCommit id r =>
    st ← running id a;
    if log_record_of id r then
      if log_enabled then
        let '(seg, _, queue) := spec_stage r st (s_queue a) in
        Some (Spec (<[id := SpecTxn (s_undo st) None true true]> (s_txns a)) (queue ++ [seg]) (s_log a))
      else Some (Spec (<[id := SpecTxn (s_undo st) None (s_flushed st) true]> (s_txns a)) (s_queue a) (s_log a))
    else None
  | OAbort id r =>
    st ← running id a;
    if log_record_of id r then
      if log_enabled && s_flushed st then
        if decide (s_undo st = []) then None
        else Some (Spec (<[id := SpecTxn (s_undo st) None true true]> (s_txns a)) (s_queue a ++ [[r]]) (s_log a))
      else Some (Spec (<[id := SpecTxn (s_undo st) None (s_flushed st) true]> (s_txns a)) (s_queue a) (s_log a))
    else None
  | OSerialize =>
    match s_queue a with [] => Some a | rs :: rest => Some (Spec (s_txns a) rest (s_log a ++ rs)) end
  | ODestroy id =>
    st ← s_txns a !! id;
    if s_finished st then Some (Spec (delete id (s_txns a)) (s_queue a) (s_log a)) else None
  end.

Fixpoint spec_run (os : list op) (a : spec) : option spec :=
  match os with [] => Some a | o :: rest => a ← spec_exec o a; spec_run rest a end.

End spec.

(** ** Segments and the records they hold *)

Definition holds (s : segment) (rs : list (list Z)) : Prop :=
  Z.of_nat (length (bytes_ s)) = BUFFER_SEGMENT_SIZE /\ size_ s = total rs /\ total rs <= BUFFER_SEGMENT_SIZE /\
  take (length (concat rs)) (bytes_ s) = concat rs.

Definition seg_holds (h : heap) (o : Z) (rs : list (list Z)) : Prop := exists s, h !! o = Some s /\ holds s rs.

(** The pointers to the records of a segment. *)
Fixpoint ptrs_from (o off : Z) (rs : list (list Z)) : list pointer :=
  match rs with [] => [] | r :: rs => (o, off) :: ptrs_from o (off + Z.of_nat (length r)) rs end.
Abbreviation ptrs_of o rs := (ptrs_from o 0 rs).

Definition touches (o : Z) (h h' : heap) : Prop := dom h' = dom h /\ forall o', o' <> o -> h' !! o' = h !! o'.

Lemma BUFFER_SEGMENT_SIZE_eq : BUFFER_SEGMENT_SIZE = 4096.
Proof. done. Qed.

Lemma total_size_nonneg rs : 0 <= total rs.
Proof. unfold total. lia. Qed.

Lemma total_size_app a b : total (a ++ b) = total a + total b.
Proof. unfold total. rewrite concat_app, length_app. lia. Qed.

Lemma total_one r : total [r] = Z.of_nat (length r).
Proof. unfold total. cbn. by rewrite app_nil_r. Qed.

Lemma ptrs_from_app o a b : forall off, ptrs_from o off (a ++ b) = ptrs_from o off a ++ ptrs_from o (off + total a) b.
Proof.
  induction a as [|r a IH]; intros off; cbn [app ptrs_from]; [by unfold total; rewrite Z.add_0_r|]. rewrite IH. f_equal. f_equal. f_equal.
  unfold total. cbn. rewrite length_app. lia.
Qed.

Lemma ptrs_from_lengths o rs rs' : forall off, length <$> rs = length <$> rs' -> ptrs_from o off rs = ptrs_from o off rs'.
Proof.
  revert rs'. induction rs as [|r rs IH]; intros [|r' rs'] off E; try done. cbn in *. injection E as E1 E2. f_equal. rewrite E1. by apply IH.
Qed.

Lemma length_ptrs_from o rs : forall off, length (ptrs_from o off rs) = length rs.
Proof. induction rs as [|r rs IH]; intros off; cbn; [done|]. by rewrite IH. Qed.

Lemma ptrs_from_lookup o rs j : forall off r, rs !! j = Some r -> ptrs_from o off rs !! j = Some (o, off + total (take j rs)).
Proof.
  revert j. induction rs as [|r0 rs IH]; intros j off r Hj; [done|]. destruct j as [|j]; cbn; [by unfold total; rewrite Z.add_0_r|].
  rewrite (IH j _ r Hj). f_equal. f_equal. unfold total. cbn. rewrite length_app. lia.
Qed.

Lemma insert_lengths (rs : list (list Z)) j r r0 : rs !! j = Some r0 -> length r = length r0 -> length <$> <[j := r]> rs = length <$> rs.
Proof. intros Hj E. rewrite list_fmap_insert. apply list_insert_id. by rewrite list_lookup_fmap, Hj, E. Qed.

Lemma total_lengths rs rs' : length <$> rs = length <$> rs' -> total rs = total rs'.
Proof.
  unfold total. intros E. f_equal. revert rs' E. induction rs as [|r rs IH]; intros [|r' rs'] E; try done. cbn in *. injection E as E1 E2. rewrite !length_app, E1, (IH _ E2). done.
Qed.

(** Room in a segment, in 32-bit arithmetic. *)
Lemma HasBytesLeft_holds s rs n : holds s rs -> 0 <= n <= 2 ^ 31 -> HasBytesLeft n s = bool_decide (total rs + n <= BUFFER_SEGMENT_SIZE).
Proof.
  intros (_ & E & Hb & _) Hn. unfold HasBytesLeft. rewrite E. pose proof (total_size_nonneg rs). rewrite BUFFER_SEGMENT_SIZE_eq in *.
  by rewrite wrapu_small by (unfold is_uint; lia).
Qed.

(** A record behind the others. *)
Lemma append_holds h o rs r : seg_holds h o rs -> total rs + Z.of_nat (length r) <= BUFFER_SEGMENT_SIZE ->
  exists h1 h2, reserve_in o (Z.of_nat (length r)) h = Some ((o, total rs), h1) /\ store (o, total rs) r h1 = Some h2 /\
    seg_holds h2 o (rs ++ [r]) /\ touches o h h2.
Proof.
  intros (s & Hs & H) Hr. pose proof H as (H1 & H2 & H3 & H4). pose proof (total_size_nonneg rs). unfold reserve_in, Reserve. rewrite Hs. cbn [mbind option_bind].
  rewrite (HasBytesLeft_holds s rs) by (done || (rewrite BUFFER_SEGMENT_SIZE_eq in *; lia)). rewrite bool_decide_eq_true_2 by done. cbn [mbind option_bind]. rewrite H2.
  rewrite (wrapu_small 32) by (rewrite BUFFER_SEGMENT_SIZE_eq in *; unfold is_uint; lia).
  eexists _, _. split; [done|]. unfold store. cbn [fst snd]. rewrite lookup_insert_eq. cbn [mbind option_bind bytes_ size_]. rewrite decide_True by lia. split; [done|]. split.
  - eexists. split; [apply lookup_insert_eq|]. split; cbn [bytes_ size_]; [by rewrite length_wr|]. rewrite total_size_app, total_one. split; [done|]. split; [done|].
    rewrite concat_app, length_app. cbn [concat]. rewrite app_nil_r. unfold wr, splice. unfold total in *. rewrite Nat2Z.id, H4.
    rewrite (take_ge r) by lia. rewrite app_assoc. rewrite take_app_length' by (rewrite length_app; done). done.
  - split; [rewrite !dom_insert_L|intros o' Hne; by rewrite !lookup_insert_ne by done]. assert (o ∈ dom h) by (apply elem_of_dom; eauto). set_solver.
Qed.

(** Overwriting a record. *)
Lemma overwrite_holds h o rs j r0 r : seg_holds h o rs -> rs !! j = Some r0 -> length r = length r0 ->
  exists h', store (o, total (take j rs)) r h = Some h' /\ seg_holds h' o (<[j := r]> rs) /\ touches o h h'.
Proof.
  intros (s & Hs & H1 & H2 & H3 & H4) Hj E. pose proof (take_drop_middle rs j r0 Hj) as D. pose proof (total_size_nonneg (take j rs)).
  assert (total rs = total (take j rs) + Z.of_nat (length r) + total (drop (S j) rs)) as T.
  { rewrite <-D at 1. rewrite total_size_app. change (r0 :: drop (S j) rs) with ([r0] ++ drop (S j) rs). rewrite total_size_app, total_one, E. lia. }
  pose proof (total_size_nonneg (drop (S j) rs)). unfold store. cbn [fst snd]. rewrite Hs. cbn [mbind option_bind]. rewrite decide_True by lia.
  eexists. split; [done|]. split.
  - eexists. split; [apply lookup_insert_eq|]. split; cbn [bytes_ size_]; [by rewrite length_wr|]. rewrite (total_lengths (<[j := r]> rs) rs) by by eapply insert_lengths.
    split; [done|]. split; [done|]. rewrite insert_take_drop by (by eapply lookup_lt_Some). rewrite concat_app. cbn [concat].
    rewrite <-D, concat_app in H4. cbn [concat] in H4. unfold total in *. set (A := concat (take j rs)) in *. set (B := concat (drop (S j) rs)) in *.
    rewrite !length_app in *. rewrite <-(take_drop (length A + (length r0 + length B)) (bytes_ s)), H4. unfold wr, splice. rewrite Nat2Z.id.
    rewrite <-!app_assoc. rewrite take_app_length. rewrite (take_ge r) by (rewrite !length_app; lia). rewrite drop_app_ge by lia.
    replace (length A + length r - length A)%nat with (length r0) by lia. rewrite drop_app_length.
    rewrite !app_assoc. rewrite take_app_length' by (rewrite !length_app; lia). done.
  - split; [rewrite dom_insert_L|intros o' Hne; by rewrite lookup_insert_ne by done]. assert (o ∈ dom h) by (apply elem_of_dom; eauto). set_solver.
Qed.

(** ** Iterating over a segment *)

Lemma me_holds R s pre r post : holds s (pre ++ r :: post) -> record_ok (RecordType := R) r = true ->
  record_Size (RecordType := R) (IterableBufferSegment.me s (total pre)) = Z.of_nat (length r) /\ take (length r) (IterableBufferSegment.me s (total pre)) = r.
Proof.
  intros (H1 & H2 & H3 & H4) Hr. unfold IterableBufferSegment.me, total. rewrite Nat2Z.id.
  rewrite <-(take_drop (length (concat (pre ++ r :: post))) (bytes_ s)), H4, concat_app. cbn [concat]. rewrite <-!app_assoc, drop_app_length.
  split; [by rewrite record_size|by rewrite take_app_length].
Qed.

Lemma iterate_holds R s fuel : forall pre post, holds s (pre ++ post) -> Forall (fun r => record_ok (RecordType := R) r = true) post -> (length post <= fuel)%nat ->
  IterableBufferSegment.iterate R s fuel (total pre) = Some post.
Proof.
  induction fuel as [|fuel IH]; intros pre post H Hok Hl.
  - destruct post; [|cbn in Hl; lia]. rewrite app_nil_r in H. cbn. rewrite decide_True; [done|]. symmetry. apply H.
  - destruct post as [|r post]; [rewrite app_nil_r in H; cbn; rewrite decide_True; [done|symmetry; apply H]|].
    apply Forall_cons in Hok as [Hr Hok]. destruct (me_holds R s pre r post H Hr) as [Hm Ht]. pose proof (record_bounds r Hr) as [Hr0 Hr1]. pose proof H as (H1 & H2 & H3 & H4).
    assert (total (pre ++ r :: post) = total (pre ++ [r]) + total post) as T by (rewrite <-total_size_app, <-app_assoc; done).
    pose proof (total_size_nonneg pre). pose proof (total_size_nonneg post). rewrite (total_size_app pre [r]), total_one in T.
    cbn [IterableBufferSegment.iterate]. rewrite decide_False by (unfold IterableBufferSegment.end_; lia). unfold IterableBufferSegment.next.
    rewrite Hm, (wrapu_small 32) by (rewrite BUFFER_SEGMENT_SIZE_eq in *; unfold is_uint; lia). rewrite <-total_one, <-total_size_app.
    rewrite (IH (pre ++ [r]) post); [|by rewrite <-app_assoc|done|cbn in Hl; lia]. cbn [mbind option_bind]. by rewrite total_one, Nat2Z.id, Ht.
Qed.

Lemma length_le_total R rs : Forall (fun r => record_ok (RecordType := R) r = true) rs -> Z.of_nat (length rs) <= total rs.
Proof.
  induction 1 as [|r rs Hr _ IH]; [done|]. change (r :: rs) with ([r] ++ rs). rewrite total_size_app, total_one, length_app. pose proof (record_bounds r Hr). cbn [length]. lia.
Qed.

(** From the first record, with fuel for a full segment. *)
Lemma iterate_segment R s rs : holds s rs -> Forall (fun r => record_ok (RecordType := R) r = true) rs ->
  IterableBufferSegment.iterate R s (Z.to_nat BUFFER_SEGMENT_SIZE) IterableBufferSegment.begin = Some rs.
Proof.
  intros H Hok. apply (iterate_holds R s _ [] rs); [done|done|]. pose proof (length_le_total R rs Hok). destruct H as (_ & _ & H & _). lia.
Qed.

(** ** Iterating over an undo buffer *)

Section undo_iterate.
Context (b : UndoBuffer) (h : heap) (rss : list (list (list Z))).
Hypothesis Hseg : Forall2 (seg_holds h) (buffers_ b) rss.
Hypothesis Hne : Forall (fun rs => rs <> []) rss.
Hypothesis Hok : Forall (Forall (fun r => UndoRecord_ok r = true)) rss.

Lemma undo_position k pre r post : rss !! k = Some (pre ++ r :: post) -> exists s me, undo_me b h (k, total pre) = Some me /\
  UndoRecord_Size me = Z.of_nat (length r) /\ take (length r) me = r /\
  undo_next b h (k, total pre) = Some (match post with [] => (S k, 0) | _ => (k, total (pre ++ [r])) end) /\ holds s (pre ++ r :: post).
Proof.
  intros Hk. destruct (Forall2_lookup_r _ _ _ _ _ Hseg Hk) as (o & Ho & s & Hs & H). pose proof H as (H1 & H2 & H3 & _).
  assert (Forall (fun r => UndoRecord_ok r = true) (pre ++ r :: post)) as F by (rewrite Forall_lookup in Hok; by eapply Hok).
  apply Forall_app in F as [_ F]. apply Forall_cons in F as [Hr Fp]. destruct (me_holds UndoRecord_record s pre r post H Hr) as [Hm Ht].
  pose proof (total_size_nonneg pre). pose proof (record_bounds (RecordType := UndoRecord_record) r Hr) as [Hr0 Hr1]. cbn in Hm.
  assert (total (pre ++ r :: post) = total (pre ++ [r]) + total post) as T by (rewrite <-total_size_app, <-app_assoc; done).
  rewrite (total_size_app pre [r]), total_one in T. pose proof (total_size_nonneg post).
  exists s, (IterableBufferSegment.me s (total pre)). unfold undo_me, undo_next, undo_me. cbn [fst snd]. rewrite Ho. cbn [mbind option_bind]. unfold deref. cbn [fst snd]. rewrite Hs. cbn [mbind option_bind].
  split; [done|]. split; [done|]. split; [done|]. split; [|done]. fold (IterableBufferSegment.me s (total pre)). rewrite Hm, (wrapu_small 32) by (rewrite BUFFER_SEGMENT_SIZE_eq in *; unfold is_uint; lia).
  rewrite H2. destruct post as [|r' post].
  - rewrite decide_True; [done|]. unfold total in T at 3. cbn in T. lia.
  - pose proof (length_le_total UndoRecord_record _ Fp) as L. cbn [length] in L. rewrite decide_False by lia. by rewrite total_size_app, total_one.
Qed.

Lemma undo_iterate_from fuel : forall k pre post, rss !! k = Some (pre ++ post) -> post <> [] -> (length post + length (concat (drop (S k) rss)) <= fuel)%nat ->
  undo_iterate b h fuel (k, total pre) = Some (post ++ concat (drop (S k) rss)).
Proof.
  induction fuel as [|fuel IH]; intros k pre [|r post] Hk Hp Hf; try done; [cbn in Hf; lia|].
  destruct (undo_position k pre r post Hk) as (s & me & Em & Hm & Ht & En & _). cbn [undo_iterate].
  rewrite decide_False by (intros [= E _]; apply lookup_lt_Some in Hk; rewrite E in Hk; apply Forall2_length in Hseg; lia).
  rewrite Em, En. cbn [mbind option_bind]. rewrite Hm, Nat2Z.id, Ht. cbn [length] in Hf. destruct post as [|r' post].
  - destruct (rss !! S k) as [rs|] eqn:Ek.
    + assert (rs <> []) as Hrs by (rewrite Forall_lookup in Hne; by eapply Hne). rewrite (drop_S rss rs (S k) Ek) in Hf |- *. cbn [concat] in *. rewrite length_app in Hf.
      change (S k, 0) with (S k, total []). rewrite (IH (S k) [] rs); [done|done|done|cbn in Hf; lia].
    + apply lookup_ge_None in Ek. rewrite drop_ge by done. assert (length (buffers_ b) = S k) as El by (apply Forall2_length in Hseg; apply lookup_lt_Some in Hk; lia).
      assert (forall f, undo_iterate b h f (S k, 0) = Some []) as -> by (intros []; cbn; by rewrite decide_True by (unfold undo_end; by rewrite El)). done.
  - rewrite (IH k (pre ++ [r]) (r' :: post)); [done|by rewrite <-app_assoc|done|lia].
Qed.

(** The loop goes through all records, in the order they were put in. *)
Lemma undo_iterate_all : undo_iterate b h (length (concat rss)) undo_begin = Some (concat rss).
Proof.
  destruct (rss !! 0%nat) as [rs|] eqn:E0.
  - assert (rs <> []) as Hrs by (rewrite Forall_lookup in Hne; by eapply Hne). assert (concat rss = rs ++ concat (drop 1 rss)) as Ec by (rewrite <-(drop_0 rss) at 1; by rewrite (drop_S rss rs 0 E0)).
    change undo_begin with (0%nat, total []). rewrite (undo_iterate_from _ 0 [] rs E0 Hrs); [by rewrite Ec|]. rewrite Ec, length_app. lia.
  - apply lookup_ge_None in E0. assert (rss = []) as Er by (destruct rss; [done|cbn in E0; lia]). assert (buffers_ b = []) as Eb by (apply nil_length_inv; apply Forall2_length in Hseg; rewrite Hseg; lia).
    assert (undo_end b = undo_begin) as Ee by (unfold undo_end; by rewrite Eb). rewrite Er. cbn. by rewrite Ee, decide_True.
Qed.

End undo_iterate.

(** ** The pool of segments *)

Definition heap_ok (h : heap) : Prop := map_Forall (fun o s => o `mod` 8 = 0 /\ Z.of_nat (length (bytes_ s)) = BUFFER_SEGMENT_SIZE) h.

Definition keeps (os : list Z) (h h' : heap) : Prop := forall o, o ∈ os -> h' !! o = h !! o.

Lemma heap_keeps_refl os h : keeps os h h.
Proof. by intros o _. Qed.

Lemma heap_keeps_trans os h1 h2 h3 : keeps os h1 h2 -> keeps os h2 h3 -> keeps os h1 h3.
Proof. intros H1 H2 o Ho. by rewrite H2, H1. Qed.

Lemma seg_holds_keeps os h h' o rs : keeps os h h' -> o ∈ os -> seg_holds h o rs -> seg_holds h' o rs.
Proof. intros K Ho (s & Hs & H). exists s. by rewrite K. Qed.

Lemma Forall2_keeps os h h' bs rss : keeps os h h' -> (forall o, o ∈ bs -> o ∈ os) -> Forall2 (seg_holds h) bs rss -> Forall2 (seg_holds h') bs rss.
Proof.
  intros K Hb F. induction F as [|o rs bs rss H F IH]; constructor; [eapply seg_holds_keeps; [done|apply Hb; left|done]|]. apply IH. intros o' Ho'. apply Hb. by right.
Qed.

Lemma touches_heap_ok o h h' rs : touches o h h' -> seg_holds h' o rs -> heap_ok h -> heap_ok h'.
Proof.
  intros [Hd Ht] (s & Hs & Hl & _) H o' s' Hs'. destruct (decide (o' = o)) as [->|Hne]; [|rewrite Ht in Hs' by done; by apply H].
  rewrite Hs in Hs'. injection Hs' as <-. split; [|done]. assert (o ∈ dom h) as [s0 Hs0]%elem_of_dom by (rewrite <-Hd; apply elem_of_dom; eauto). apply (H o s0 Hs0).
Qed.

Lemma touches_keeps o h h' os : touches o h h' -> o ∉ os -> keeps os h h'.
Proof. intros [_ Ht] Ho o' Ho'. apply Ht. intros ->. done. Qed.

Section pool.
Context (new : heap -> option (Z * list Z)).
Hypothesis new_ok : forall h o bs, new h = Some (o, bs) -> h !! o = None /\ o `mod` 8 = 0 /\ Z.of_nat (length bs) = BUFFER_SEGMENT_SIZE.

#[local] Instance segment_allocator : Allocator heap := RecordBufferSegmentAllocator new.

#[local] Instance segment_laws : AllocatorLaws heap.
Proof using new_ok.
  refine (@Build_AllocatorLaws _ segment_allocator dom _ _ _).
  - intros h. cbn. destruct (new h) as [[o bs]|] eqn:E; [|by eexists None, h]. destruct (new_ok h o bs E) as (H1 & H2 & _). rewrite decide_True by done.
    eexists _, _. split; [done|]. split; [by apply not_elem_of_dom|]. by rewrite dom_insert_L.
  - intros o h [s Hs]%elem_of_dom. cbn. rewrite Hs. eexists. split; [done|]. rewrite dom_insert_L. assert (o ∈ dom h) by (apply elem_of_dom; eauto). set_solver.
  - intros o h [s Hs]%elem_of_dom. cbn. rewrite Hs. eexists. split; [done|]. by rewrite dom_delete_L.
Defined.

#[local] Abbreviation pinv p h held := (pool_inv (M := heap) ∅ p h held).

Lemma pinv_touches p h h' o held : touches o h h' -> pinv p h held -> pinv p h' held.
Proof. intros [Hd _]. apply pool_inv_live. exact Hd. Qed.

Lemma empty_holds s : Z.of_nat (length (bytes_ s)) = BUFFER_SEGMENT_SIZE -> holds (Reset s) [].
Proof. intros H. split; [done|]. split; [done|]. split; [done|]. by rewrite take_0. Qed.

(** A segment from the pool is empty and nobody else's. *)
Lemma Get_segment p h held : pinv p h held -> heap_ok h -> exists r p' h', ObjectPool.Get p h = Some (r, p', h') /\
  match r with
  | inl o => pinv p' h' (o :: held) /\ seg_holds h' o [] /\ o `mod` 8 = 0 /\ heap_ok h' /\ keeps held h h'
  | inr e => p' = p /\ h' = h
  end.
Proof using new_ok.
  intros I Hh. destruct (Get_spec _ _ _ _ I) as (r & p' & h' & E & _ & H). exists r, p', h'. split; [done|]. unfold ObjectPool.Get in E.
  destruct (ObjectPool.reuse_queue_ p) as [|o q] eqn:Eq.
  - case_decide; [by injection E as <- <- <-|]. cbn in E. destruct (new h) as [[o bs]|] eqn:En; [|by injection E as <- <- <-].
    destruct (new_ok h o bs En) as (H1 & H2 & H3). rewrite decide_True in E by done. cbn in E. case_decide; [|done]. injection E as <- <- <-. destruct H as (I' & Ho & _).
    split; [done|]. split; [eexists; split; [apply lookup_insert_eq|]; by apply (empty_holds (mk bs 0))|]. split; [done|]. split.
    + intros o' s. destruct (decide (o' = o)) as [->|Hne]; [rewrite lookup_insert_eq; by intros [= <-]|rewrite lookup_insert_ne by done; apply Hh].
    + intros o' Ho'. rewrite lookup_insert_ne; [done|]. by intros ->.
  - cbn in E. destruct (h !! o) as [s|] eqn:Es; [|done]. cbn in E. case_decide; [|done]. injection E as <- <- <-. destruct H as (I' & Ho & _). destruct (Hh o s Es) as [Ha Hl].
    split; [done|]. split; [eexists; split; [apply lookup_insert_eq|]; by apply empty_holds|]. split; [done|]. split.
    + intros o' s'. destruct (decide (o' = o)) as [->|Hne]; [rewrite lookup_insert_eq; by intros [= <-]|rewrite lookup_insert_ne by done; apply Hh].
    + intros o' Ho'. rewrite lookup_insert_ne; [done|]. by intros ->.
Qed.

Lemma Release_segment p h o held : pinv p h (o :: held) -> heap_ok h -> exists p' h', ObjectPool.Release o p h = Some (p', h') /\
  pinv p' h' held /\ heap_ok h' /\ keeps held h h'.
Proof using new_ok.
  intros I Hh. destruct (Release_spec _ _ _ _ _ I) as (p' & h' & E & I' & _). exists p', h'. split; [done|]. split; [done|]. assert (o ∉ held) as Ho by (pose proof (pi_nodup _ _ _ _ I) as N; cbn in N; apply NoDup_cons in N as [N _]; set_solver).
  unfold ObjectPool.Release in E. case_decide; [|injection E as <- <-; split; [done|apply heap_keeps_refl]]. cbn in E. destruct (h !! o); [|done]. cbn in E. injection E as <- <-. split.
  - intros o' s. destruct (decide (o' = o)) as [->|Hne]; [by rewrite lookup_delete_eq|rewrite lookup_delete_ne by done; apply Hh].
  - intros o' Ho'. rewrite lookup_delete_ne; [done|]. by intros ->.
Qed.

Lemma release_all_spec os : forall p h held, pinv p h (os ++ held) -> heap_ok h -> exists p' h', release_all new os p h = Some (p', h') /\
  pinv p' h' held /\ heap_ok h' /\ keeps held h h'.
Proof using new_ok.
  induction os as [|o os IH]; intros p h held I Hh; cbn [release_all]; [exists p, h; split; [done|]; split; [done|]; split; [done|apply heap_keeps_refl]|].
  destruct (Release_segment p h o (os ++ held) I Hh) as (p1 & h1 & E1 & I1 & Hh1 & K1). unfold segment_allocator in E1. rewrite E1. cbn [mbind option_bind].
  destruct (IH p1 h1 held I1 Hh1) as (p2 & h2 & E2 & I2 & Hh2 & K2). exists p2, h2. split; [done|]. split; [done|]. split; [done|].
  eapply heap_keeps_trans; [|exact K2]. intros o' Ho'. apply K1. set_solver.
Qed.

(** ** One undo buffer *)

(** [ptrs]: the pointers handed out for the records [rs]. *)
Definition undo_rel (h : heap) (b : UndoBuffer) (ptrs : list pointer) (rs : list (list Z)) : Prop :=
  exists rss, rs = concat rss /\ Forall2 (seg_holds h) (buffers_ b) rss /\ Forall (fun rs => rs <> []) rss /\
    ptrs = concat (zip_with (fun o rs => ptrs_of o rs) (buffers_ b) rss) /\ undo_last_record_ b = last ptrs.

Lemma undo_rel_keeps h h' b ptrs rs : keeps (buffers_ b) h h' -> undo_rel h b ptrs rs -> undo_rel h' b ptrs rs.
Proof. intros K (rss & E & F & H). exists rss. split; [done|]. split; [|done]. by eapply Forall2_keeps. Qed.

(** A record at the end of the last segment. *)
Lemma undo_append_last h b ptrs rs o r : undo_rel h b ptrs rs -> last (buffers_ b) = Some o -> NoDup (buffers_ b) ->
  (exists rs1, seg_holds h o rs1 /\ total rs1 + Z.of_nat (length r) <= BUFFER_SEGMENT_SIZE) ->
  exists h1 h2 off, reserve_in o (Z.of_nat (length r)) h = Some ((o, off), h1) /\ store (o, off) r h1 = Some h2 /\ touches o h h2 /\ (exists rs2, seg_holds h2 o rs2) /\
    undo_rel h2 (Undo (buffers_ b) (Some (o, off))) (ptrs ++ [(o, off)]) (rs ++ [r]).
Proof.
  intros (rss & -> & F & Hne & -> & Hl) Ho Hn (rs1 & H1 & Hr1). apply last_Some in Ho as [bs Eb]. rewrite Eb in *.
  apply Forall2_app_inv_l in F as (rss1 & rss2 & F1 & F2 & ->). inversion F2 as [|? rso ? ? Hso F3]; subst. inversion F3; subst.
  assert (rs1 = rso \/ total rs1 = total rso) as Et.
  { right. destruct H1 as (s1 & Hs1 & _ & E1 & _), Hso as (s2 & Hs2 & _ & E2 & _). rewrite Hs1 in Hs2. injection Hs2 as <-. lia. }
  destruct (append_holds h o rso r Hso) as (h1 & h2 & E1 & E2 & S2 & T2); [destruct Et as [<-|Et]; lia|].
  exists h1, h2, (total rso). split; [done|]. split; [done|]. split; [done|]. split; [by eauto|].
  apply NoDup_app in Hn as (_ & Hd & _). exists (rss1 ++ [rso ++ [r]]). cbn [buffers_ undo_last_record_]. split; [|split; [|split; [|split]]].
  - rewrite !concat_app. cbn [concat]. by rewrite !app_nil_r, <-app_assoc.
  - apply Forall2_app; [|by repeat constructor]. eapply (Forall2_keeps bs); [|done|exact F1]. apply (touches_keeps o); [done|]. intros Hin. apply (Hd o Hin). left.
  - apply Forall_app in Hne as [Hne _]. apply Forall_app. split; [done|]. repeat constructor. by destruct rso.
  - rewrite !(zip_with_app (fun o rs => ptrs_of o rs)) by by apply Forall2_length in F1. rewrite !concat_app. cbn [zip_with concat]. rewrite !app_nil_r, ptrs_from_app, <-app_assoc. done.
  - by rewrite last_snoc.
Qed.

Lemma undo_NewEntry p h b held ptrs rs r :
  undo_rel h b ptrs rs -> pinv p h (buffers_ b ++ held) -> heap_ok h -> UndoRecord_ok r = true ->
  exists res b' p' h1, UndoBuffer_NewEntry new (Z.of_nat (length r)) b p h = Some (res, b', p', h1) /\
    match res with
    | inr e => True
    | inl ptr => exists h2, store ptr r h1 = Some h2 /\ undo_rel h2 b' (ptrs ++ [ptr]) (rs ++ [r]) /\ pinv p' h2 (buffers_ b' ++ held) /\ heap_ok h2 /\ keeps held h h2
    end.
Proof using new_ok.
  intros Hu I Hh Hr. pose proof (record_bounds (RecordType := UndoRecord_record) r Hr) as [Hr0 Hr1]. pose proof Hu as (rss & -> & F & Hne & Ep & El).
  unfold UndoBuffer_NewEntry. assert (NoDup (buffers_ b ++ held)) as Hn by (pose proof (pi_nodup _ _ _ _ I) as N; by apply NoDup_app in N as [N _]).
  assert (exists full, undo_full (Z.of_nat (length r)) b h = Some full /\ (full = false -> exists o rs1, last (buffers_ b) = Some o /\ seg_holds h o rs1 /\ total rs1 + Z.of_nat (length r) <= BUFFER_SEGMENT_SIZE)) as (full & Ef & Hf).
  { unfold undo_full. destruct (last (buffers_ b)) as [o|] eqn:Eo; [|by exists true]. apply last_Some in Eo as [bs Eb]. rewrite Eb in F.
    apply Forall2_app_inv_l in F as (rss1 & rss2 & F1 & F2 & _). inversion F2 as [|? rso ? ? (s & Hs & H) F3]; subst. unfold has_bytes_left. rewrite Hs. cbn [mbind option_bind fmap option_fmap option_map].
    eexists. split; [done|]. intros Hb%negb_false_iff. exists o, rso. split; [done|]. split; [by exists s|]. rewrite (HasBytesLeft_holds s rso) in Hb by (done || (rewrite BUFFER_SEGMENT_SIZE_eq in *; lia)). by apply bool_decide_eq_true in Hb. }
  rewrite Ef. cbn [mbind option_bind]. destruct full.
  - destruct (Get_segment p h (buffers_ b ++ held) I Hh) as (g & p' & h' & Eg & Hg). unfold segment_allocator in Eg. rewrite Eg. cbn [mbind option_bind].
    destruct g as [o|e]; [|by eexists _, _, _, _]. destruct Hg as (I' & Ho & Ha & Hh' & K). rewrite decide_True by done. cbn [buffers_]. rewrite last_snoc. cbn [mbind option_bind].
    assert (o ∉ buffers_ b ++ held) as Hfresh by (pose proof (pi_nodup _ _ _ _ I') as N; cbn in N; apply NoDup_cons in N as [N _]; set_solver).
    destruct (append_holds h' o [] r Ho) as (h1 & h2 & E1 & E2 & S2 & T2); [change (total []) with 0; lia|]. change (total []) with 0 in *. rewrite E1. cbn [mbind option_bind].
    eexists _, _, _, _. split; [done|]. exists h2. split; [done|]. assert (keeps (buffers_ b ++ held) h h2) as K2 by (eapply heap_keeps_trans; [exact K|by apply (touches_keeps o)]).
    split; [|split; [|split]].
    + exists (rss ++ [[r]]). cbn [buffers_ undo_last_record_]. split; [|split; [|split; [|split]]].
      * by rewrite concat_app.
      * apply Forall2_app; [|by repeat constructor]. eapply Forall2_keeps; [exact K2|set_solver|exact F].
      * apply Forall_app. split; [done|by repeat constructor].
      * rewrite Ep, zip_with_app by by apply Forall2_length in F. rewrite concat_app. done.
      * by rewrite last_snoc.
    + cbn [buffers_]. eapply pinv_touches; [exact T2|]. eapply pool_inv_perm; [|exact I']. rewrite <-app_assoc. cbn [app]. apply Permutation_middle.
    + by eapply touches_heap_ok.
    + intros o' Ho'. apply K2. set_solver.
  - destruct (Hf eq_refl) as (o & rs1 & Eo & H1 & Hr2). rewrite Eo. cbn [mbind option_bind]. apply NoDup_app in Hn as (Hn1 & Hd & _).
    destruct (undo_append_last h b ptrs (concat rss) o r Hu Eo Hn1) as (h1 & h2 & off & E1 & E2 & T2 & (rs2 & S2) & Hu2); [by eauto|]. rewrite E1. cbn [mbind option_bind].
    eexists _, _, _, _. split; [done|]. exists h2. split; [done|]. split; [done|]. cbn [buffers_]. split; [by eapply pinv_touches|]. split; [by eapply touches_heap_ok|].
    apply (touches_keeps o); [done|]. apply Hd. apply last_Some in Eo as [bs ->]. set_solver.
Qed.

(** The place of a record in its segment. *)
Lemma undo_lookup h bs rss i r0 : Forall2 (seg_holds h) bs rss -> concat rss !! i = Some r0 -> exists k j o rs, bs !! k = Some o /\ rss !! k = Some rs /\ rs !! j = Some r0 /\
  concat (zip_with (fun o rs => ptrs_of o rs) bs rss) !! i = Some (o, total (take j rs)) /\
  forall r, <[i := r]> (concat rss) = concat (<[k := <[j := r]> rs]> rss).
Proof.
  intros F. revert i. induction F as [|o rs bs rss Ho F IH]; intros i Hi; [done|]. cbn [concat zip_with] in *. destruct (decide (i < length rs)%nat) as [Hlt|Hge].
  - rewrite lookup_app_l in Hi by done. exists 0%nat, i, o, rs. split; [done|]. split; [done|]. split; [done|]. split.
    + rewrite lookup_app_l by (rewrite length_ptrs_from; done). rewrite (ptrs_from_lookup o rs i 0 r0 Hi). done.
    + intros r. cbn. by rewrite insert_app_l.
  - rewrite lookup_app_r in Hi by lia. destruct (IH _ Hi) as (k & j & o' & rs' & H1 & H2 & H3 & H4 & H5). exists (S k), j, o', rs'. split; [done|]. split; [done|]. split; [done|]. split.
    + rewrite lookup_app_r; rewrite length_ptrs_from; [done|lia].
    + intros r. cbn. rewrite <-H5. rewrite <-(insert_app_r rs). f_equal. lia.
Qed.

Lemma undo_store h b ptrs rs i r0 r : undo_rel h b ptrs rs -> NoDup (buffers_ b) -> rs !! i = Some r0 -> length r = length r0 ->
  exists ptr h' o, ptrs !! i = Some ptr /\ store ptr r h = Some h' /\ undo_rel h' b ptrs (<[i := r]> rs) /\ touches o h h' /\ o ∈ buffers_ b /\ exists rs', seg_holds h' o rs'.
Proof.
  intros (rss & -> & F & Hne & -> & Hl) Hn Hi E. destruct (undo_lookup h _ _ i r0 F Hi) as (k & j & o & rs & Ho & Hk & Hj & Hp & Hins).
  assert (seg_holds h o rs) as Hs by (destruct (Forall2_lookup_l _ _ _ _ _ F Ho) as (rs' & Hk' & ?); congruence).
  destruct (overwrite_holds h o rs j r0 r Hs Hj E) as (h' & E' & S' & T'). exists (o, total (take j rs)), h', o. split; [done|]. split; [done|].
  split; [|split; [done|split; [by eapply list_elem_of_lookup_2|by eauto]]].
  exists (<[k := <[j := r]> rs]> rss). split; [by rewrite Hins|]. split; [|split; [|split; [|done]]].
  - apply Forall2_same_length_lookup. split; [rewrite length_insert; by eapply Forall2_length|]. intros k' o' rs' Ho' Hk'. destruct (decide (k' = k)) as [->|Hne'].
    + rewrite list_lookup_insert_eq in Hk' by (by eapply lookup_lt_Some). injection Hk' as <-. by simplify_eq.
    + rewrite list_lookup_insert_ne in Hk' by done. destruct (Forall2_lookup_lr _ _ _ _ _ _ F Ho' Hk') as (s & Hs' & Hh). exists s. destruct T' as [_ T']. rewrite T'; [done|].
      intros ->. apply Hne'. by eapply NoDup_lookup.
  - rewrite Forall_lookup in Hne. apply Forall_insert; [by apply Forall_lookup|]. intros En. apply (f_equal length) in En. rewrite length_insert in En. apply lookup_lt_Some in Hj. cbn in En. lia.
  - f_equal. apply list_eq. intros k'. destruct (decide (k' = k)) as [->|Hne'].
    + rewrite !lookup_zip_with, Ho, Hk, list_lookup_insert_eq by (by eapply lookup_lt_Some). cbn. f_equal. apply ptrs_from_lengths. symmetry. by eapply insert_lengths.
    + by rewrite !lookup_zip_with, list_lookup_insert_ne by done.
Qed.

(** ** One redo buffer *)

Context (log_enabled : bool).

Definition redo_rel (h : heap) (b : RedoBuffer) (seg : option (list (list Z))) : Prop :=
  match buffer_seg_ b, seg with
  | None, None => True
  | Some o, Some rs => seg_holds h o rs /\ rs <> [] /\ redo_last_record_ b = last (ptrs_of o rs)
  | _, _ => False
  end.

Lemma redo_rel_keeps h h' b seg : keeps (option_list (buffer_seg_ b)) h h' -> redo_rel h b seg -> redo_rel h' b seg.
Proof. unfold redo_rel. destruct (buffer_seg_ b), seg; try done. intros K (H & ?). split; [|done]. eapply seg_holds_keeps; [exact K|by left|done]. Qed.

(** A record in the current segment, or in a new one. *)
Lemma redo_append h o rs r flushed : seg_holds h o rs -> total rs + Z.of_nat (length r) <= BUFFER_SEGMENT_SIZE ->
  exists h1 h2, reserve_in o (Z.of_nat (length r)) h = Some ((o, total rs), h1) /\ store (o, total rs) r h1 = Some h2 /\
    redo_rel h2 (Redo flushed (Some o) (Some (o, total rs))) (Some (rs ++ [r])) /\ touches o h h2 /\ seg_holds h2 o (rs ++ [r]).
Proof.
  intros H Hr. destruct (append_holds h o rs r H Hr) as (h1 & h2 & E1 & E2 & S2 & T2). exists h1, h2. split; [done|]. split; [done|]. split; [|done].
  split; [done|]. split; [by destruct rs|]. cbn [redo_last_record_]. by rewrite ptrs_from_app, last_app.
Qed.

Lemma redo_refill p h held r flushed : pinv p h held -> heap_ok h -> LogRecord_ok r = true ->
  exists g p' h1, ObjectPool.Get p h = Some (g, p', h1) /\
    match g with
    | inr e => True
    | inl o => exists h2 h3, reserve_in o (Z.of_nat (length r)) h1 = Some ((o, 0), h2) /\ store (o, 0) r h2 = Some h3 /\
        redo_rel h3 (Redo flushed (Some o) (Some (o, 0))) (Some [r]) /\ pinv p' h3 (o :: held) /\ heap_ok h3 /\ keeps held h h3
    end.
Proof using new_ok.
  intros I Hh Hr. destruct (record_bounds (RecordType := LogRecord_record) r Hr) as [Hr0 Hr1]. destruct (Get_segment p h held I Hh) as (g & p' & h1 & Eg & Hg). exists g, p', h1. split; [done|].
  destruct g as [o|e]; [|done]. destruct Hg as (I' & Ho & _ & Hh' & K). destruct (redo_append h1 o [] r flushed Ho) as (h2 & h3 & E2 & E3 & R3 & T3 & S3); [change (total []) with 0; lia|].
  change (total []) with 0 in *. exists h2, h3. split; [done|]. split; [done|]. split; [done|]. split; [by eapply pinv_touches|]. split; [by eapply touches_heap_ok|].
  eapply heap_keeps_trans; [exact K|]. apply (touches_keeps o); [done|]. pose proof (pi_nodup _ _ _ _ I') as N. cbn in N. apply NoDup_cons in N as [N _]. set_solver.
Qed.

(** What an operation on the redo buffer of a transaction leaves. *)
Definition redo_effect (h : heap) (held : list Z) (seg : list (list Z)) (flushed : bool) (qs : list (list (list Z))) (b : RedoBuffer) (p' : ObjectPool.t) (h' : heap) (q' : list Z) : Prop :=
  redo_rel h' b (Some seg) /\ has_flushed_ b = flushed /\ Forall2 (seg_holds h') q' qs /\
  pinv p' h' (option_list (buffer_seg_ b) ++ q' ++ held) /\ heap_ok h' /\ keeps held h h'.

Lemma stage_rel t st p h q qs held r :
  redo_rel h (redo_ t) (s_seg st) -> has_flushed_ (redo_ t) = s_flushed st -> Forall2 (seg_holds h) q qs ->
  pinv p h (option_list (buffer_seg_ (redo_ t)) ++ q ++ held) -> heap_ok h -> LogRecord_ok r = true ->
  exists res b p' h' q', stage new log_enabled r t p h q = Some (res, b, p', h', q') /\
    (res = Done -> let '(seg, flushed, qs') := spec_stage log_enabled r st qs in redo_effect h held seg flushed qs' b p' h' q').
Proof using new_ok.
  intros Hrel Hfl Hq I Hh Hr. pose proof (record_bounds (RecordType := LogRecord_record) r Hr) as [Hr0 Hr1]. unfold stage, RedoBuffer_NewEntry, spec_stage, redo_rel in *.
  destruct (buffer_seg_ (redo_ t)) as [o|] eqn:Eo, (s_seg st) as [rs|] eqn:Es; try done; cbn [option_list from_option app] in *.
  - destruct Hrel as ((s & Hs & H) & Hne & Hl). unfold has_bytes_left. rewrite Hs. cbn [mbind option_bind]. rewrite (HasBytesLeft_holds s rs) by (done || (rewrite BUFFER_SEGMENT_SIZE_eq in *; lia)).
    assert (o ∉ q ++ held) as Ho by (pose proof (pi_nodup _ _ _ _ I) as N; cbn in N; apply NoDup_cons in N as [N _]; set_solver).
    case_decide as Hd; [rewrite bool_decide_eq_true_2 by done|rewrite bool_decide_eq_false_2 by done].
    + destruct (redo_append h o rs r (has_flushed_ (redo_ t))) as (h1 & h2 & E1 & E2 & R2 & T2 & S2); [by exists s|done|]. rewrite E1. cbn [mbind option_bind]. rewrite E2. cbn [mbind option_bind].
      eexists _, _, _, _, _. split; [done|]. intros _. assert (keeps (q ++ held) h h2) as K by by apply (touches_keeps o). split; [exact R2|]. split; [done|].
      split; [eapply Forall2_keeps; [exact K|set_solver|done]|]. split; [by eapply pinv_touches|]. split; [by eapply touches_heap_ok|]. intros o' Ho'. apply K. set_solver.
    + destruct log_enabled.
      * destruct (redo_refill p h (o :: q ++ held) r true I Hh Hr) as (g & p' & h1 & Eg & Hg). unfold segment_allocator in Eg. rewrite Eg. cbn [mbind option_bind]. destruct g as [o'|e]; [|by eexists _, _, _, _, _].
        destruct Hg as (h2 & h3 & E2 & E3 & R3 & I3 & Hh3 & K3). rewrite E2. cbn [mbind option_bind has_flushed_]. rewrite E3. cbn [mbind option_bind]. eexists _, _, _, _, _. split; [done|]. intros _.
        split; [exact R3|]. split; [done|]. split; [|split; [|split; [done|intros x Hx; apply K3; set_solver]]].
        -- apply Forall2_app; [eapply Forall2_keeps; [exact K3|set_solver|done]|]. repeat constructor. eapply seg_holds_keeps; [exact K3|left|by exists s].
        -- cbn [buffer_seg_ option_list from_option app]. eapply pool_inv_perm; [|exact I3]. apply perm_skip. rewrite <-app_assoc. cbn [app]. apply Permutation_middle.
      * destruct (Release_segment p h o (q ++ held) I Hh) as (p1 & h1 & E1 & I1 & Hh1 & K1). unfold segment_allocator in E1. rewrite E1. cbn [mbind option_bind].
        destruct (redo_refill p1 h1 (q ++ held) r (has_flushed_ (redo_ t)) I1 Hh1 Hr) as (g & p' & h2 & Eg & Hg). unfold segment_allocator in Eg. rewrite Eg. cbn [mbind option_bind]. destruct g as [o'|e]; [|by eexists _, _, _, _, _].
        destruct Hg as (h3 & h4 & E3 & E4 & R4 & I4 & Hh4 & K4). rewrite E3. cbn [mbind option_bind]. rewrite E4. cbn [mbind option_bind]. eexists _, _, _, _, _. split; [done|]. intros _.
        pose proof (heap_keeps_trans _ _ _ _ K1 K4) as K. split; [exact R4|]. split; [done|]. split; [eapply Forall2_keeps; [exact K|set_solver|done]|]. split; [done|]. split; [done|]. intros x Hx. apply K. set_solver.
  - destruct (redo_refill p h (q ++ held) r (has_flushed_ (redo_ t)) I Hh Hr) as (g & p' & h1 & Eg & Hg). unfold segment_allocator in Eg. rewrite Eg. cbn [mbind option_bind]. destruct g as [o'|e]; [|by eexists _, _, _, _, _].
    destruct Hg as (h2 & h3 & E2 & E3 & R3 & I3 & Hh3 & K3). rewrite E2. cbn [mbind option_bind]. rewrite E3. cbn [mbind option_bind]. eexists _, _, _, _, _. split; [done|]. intros _.
    split; [exact R3|]. split; [done|]. split; [eapply Forall2_keeps; [exact K3|set_solver|done]|]. split; [done|]. split; [done|]. intros x Hx. apply K3. set_solver.
Qed.

(** The last segment goes to the log, or back to the pool. *)
Lemma Finalize_rel b p h q qs held flush seg :
  redo_rel h b seg -> Forall2 (seg_holds h) q qs -> pinv p h (option_list (buffer_seg_ b) ++ q ++ held) -> heap_ok h ->
  exists b' p' h' q', RedoBuffer_Finalize new log_enabled flush b p h q = Some (b', p', h', q') /\
    Forall2 (seg_holds h') q' (if log_enabled && flush then qs ++ option_list seg else qs) /\ pinv p' h' (q' ++ held) /\ heap_ok h' /\ keeps held h h'.
Proof using new_ok.
  intros Hrel Hq I Hh. unfold RedoBuffer_Finalize, redo_rel in *. destruct (buffer_seg_ b) as [o|], seg as [rs|]; try done; cbn [option_list from_option app] in *.
  - destruct Hrel as (Hs & _). change (option_list (Some o) ++ q ++ held) with (o :: q ++ held) in I. destruct (log_enabled && flush).
    + eexists _, _, _, _. split; [done|]. split; [by apply Forall2_app; [|repeat constructor]|]. split; [|split; [done|apply heap_keeps_refl]].
      eapply pool_inv_perm; [|exact I]. rewrite <-app_assoc. cbn [app]. apply Permutation_middle.
    + destruct (Release_segment p h o (q ++ held) I Hh) as (p1 & h1 & E1 & I1 & Hh1 & K1). unfold segment_allocator in E1. rewrite E1. cbn [mbind option_bind].
      eexists _, _, _, _. split; [done|]. split; [eapply Forall2_keeps; [exact K1|set_solver|done]|]. split; [done|]. split; [done|]. intros x Hx. apply K1. set_solver.
  - eexists _, _, _, _. split; [done|]. rewrite app_nil_r. split; [by destruct (log_enabled && flush)|]. split; [done|]. split; [done|apply heap_keeps_refl].
Qed.

(** ** All transactions *)

Definition txn_segs (t : txn) : list Z := buffers_ (undo_ t) ++ if finished t then [] else option_list (buffer_seg_ (redo_ t)).
Definition owned (m : gmap Z txn) : list Z := map_to_list m ≫= fun x => txn_segs x.2.

Definition txn_rel (h : heap) (t : txn) (st : spec_txn) : Prop :=
  undo_rel h (undo_ t) (undo_ptrs t) (s_undo st) /\ finished t = s_finished st /\
  (finished t = false -> redo_rel h (redo_ t) (s_seg st) /\ has_flushed_ (redo_ t) = s_flushed st).

Record sys_rel (s : system) (a : spec) : Prop := {
  sr_pool : pinv (pool s) (mem s) (owned (txns s) ++ flush_queue s);
  sr_heap : heap_ok (mem s);
  sr_queue : Forall2 (seg_holds (mem s)) (flush_queue s) (s_queue a);
  sr_log : log s = s_log a;
  sr_txns : forall id, option_Forall2 (txn_rel (mem s)) (txns s !! id) (s_txns a !! id);
}.

Lemma owned_insert m id t : owned (<[id := t]> m) ≡ₚ txn_segs t ++ owned (delete id m).
Proof. unfold owned. rewrite <-insert_delete_eq, map_to_list_insert by apply lookup_delete_eq. done. Qed.

Lemma owned_lookup m id t : m !! id = Some t -> owned m ≡ₚ txn_segs t ++ owned (delete id m).
Proof. intros H. rewrite <-owned_insert. by rewrite insert_id. Qed.

Lemma txn_segs_owned m id t o : m !! id = Some t -> o ∈ txn_segs t -> o ∈ owned m.
Proof. intros H Ho. rewrite (owned_lookup m id t H). set_solver. Qed.

Lemma txn_rel_keeps h h' t st : keeps (txn_segs t) h h' -> txn_rel h t st -> txn_rel h' t st.
Proof.
  intros K (H1 & H2 & H3). split; [eapply undo_rel_keeps; [|done]; intros o Ho; apply K; unfold txn_segs; set_solver|]. split; [done|]. intros Hf. destruct (H3 Hf) as [H4 H5]. split; [|done].
  eapply redo_rel_keeps; [|done]. intros o Ho. apply K. unfold txn_segs. rewrite Hf. set_solver.
Qed.

(** One transaction changes: the others keep their records. *)
Lemma sys_update s a id t' st' p' h' q' qs' lg :
  sys_rel s a -> txn_rel h' t' st' -> pinv p' h' (txn_segs t' ++ q' ++ owned (delete id (txns s))) -> heap_ok h' ->
  keeps (owned (delete id (txns s))) (mem s) h' -> Forall2 (seg_holds h') q' qs' ->
  sys_rel (System p' h' q' (<[id := t']> (txns s)) lg) (Spec (<[id := st']> (s_txns a)) qs' lg).
Proof using new_ok.
  intros S Ht I Hh K Hq. split; cbn [pool mem flush_queue txns log s_txns s_queue s_log]; try done.
  - eapply pool_inv_perm; [|exact I]. rewrite owned_insert, <-app_assoc. f_equiv. apply Permutation_app_comm.
  - intros i. destruct (decide (i = id)) as [->|Hne]; [rewrite !lookup_insert_eq; by constructor|]. rewrite !lookup_insert_ne by done.
    pose proof (sr_txns _ _ S i) as R. destruct (txns s !! i) as [t|] eqn:Et; inversion R as [? st Hr|]; subst; constructor.
    eapply txn_rel_keeps; [|exact Hr]. intros o Ho. apply K. eapply txn_segs_owned; [|exact Ho]. by rewrite lookup_delete_ne.
Qed.

Lemma sys_lookup s a id st : sys_rel s a -> s_txns a !! id = Some st -> exists t, txns s !! id = Some t /\ txn_rel (mem s) t st /\
  pinv (pool s) (mem s) (txn_segs t ++ flush_queue s ++ owned (delete id (txns s))).
Proof using new_ok.
  intros S Hst. pose proof (sr_txns _ _ S id) as R. rewrite Hst in R. inversion R as [t ? Ht Et|]; subst. exists t. split; [done|]. split; [done|].
  eapply pool_inv_perm; [|apply (sr_pool _ _ S)]. rewrite (owned_lookup _ _ _ (eq_sym Et)), <-app_assoc. f_equiv. apply Permutation_app_comm.
Qed.

Lemma running_lookup id a st : running id a = Some st -> s_txns a !! id = Some st /\ s_finished st = false.
Proof. unfold running. destruct (s_txns a !! id) as [st0|]; [|done]. cbn. destruct (s_finished st0) eqn:E; [done|]. intros [= <-]. done. Qed.

Lemma log_record_ok id r : log_record_of id r = true -> LogRecord_ok r = true /\ LogRecord_TxnBegin r = id.
Proof. unfold log_record_of. intros [H1 H2%bool_decide_eq_true]%andb_true_iff. done. Qed.

(** ** The operations refine the specification *)

(** The outcome of an operation that the specification allows. *)
Definition refines (o : op) (s : system) (a' : spec) : Prop :=
  exists res s', exec new log_enabled o s = Some (res, s') /\ (res = Done -> sys_rel s' a').

Lemma begin_refines id s a a' : sys_rel s a -> spec_exec log_enabled (OBegin id) a = Some a' -> refines (OBegin id) s a'.
Proof using new_ok.
  intros S. cbn [spec_exec]. case_decide as Hn; [|done]. intros [= <-]. eexists _, _. split; [done|]. intros _. rewrite (sr_log _ _ S).
  pose proof (sr_txns _ _ S id) as R. rewrite Hn in R. assert (txns s !! id = None) as Et by by inversion R. eapply sys_update; [done| | |apply S|apply heap_keeps_refl|apply S].
  - split; [|done]. exists []. cbn. done.
  - cbn. rewrite delete_id by done. eapply pool_inv_perm; [apply Permutation_app_comm|apply S].
Qed.

Lemma undo_refines id r s a a' : sys_rel s a -> spec_exec log_enabled (OUndo id r) a = Some a' -> refines (OUndo id r) s a'.
Proof using new_ok.
  intros S. cbn [spec_exec]. destruct (running id a) as [st|] eqn:Er; [|done]. cbn [mbind option_bind]. destruct (UndoRecord_ok r) eqn:Hr; [|done]. intros [= <-].
  apply running_lookup in Er as [Hst Hrun]. destruct (sys_lookup s a id st S Hst) as (t & Et & (Hu & Hf & Hredo) & I). unfold refines. cbn [exec]. unfold UndoRecordFor. rewrite Et. cbn [mbind option_bind].
  rewrite Hrun in Hf. unfold txn_segs in I. rewrite Hf, <-app_assoc in I. destruct (undo_NewEntry _ _ _ _ _ _ r Hu I (sr_heap _ _ S) Hr) as (res & b' & p' & h1 & E & H). rewrite E. cbn [mbind option_bind].
  destruct res as [ptr|e]; [|by eexists _, _]. destruct H as (h2 & E2 & Hu2 & I2 & Hh2 & K2). rewrite E2. cbn [mbind option_bind]. eexists _, _. split; [done|]. intros _. rewrite (sr_log _ _ S), Hf.
  eapply sys_update; [done| | |done| |].
  - split; [done|]. split; [done|]. intros _. cbn. destruct (Hredo Hf) as [R1 R2]. split; [|done]. eapply redo_rel_keeps; [|done]. intros o Ho. apply K2. set_solver.
  - unfold txn_segs. cbn [undo_ redo_ finished]. by rewrite <-app_assoc.
  - intros o Ho. apply K2. set_solver.
  - eapply Forall2_keeps; [exact K2|set_solver|apply S].
Qed.

(** Memory of the transaction itself has been written to. *)
Lemma touched_refines s a id t st' h' o rs : sys_rel s a -> txns s !! id = Some t -> txn_rel h' t st' -> touches o (mem s) h' -> o ∈ txn_segs t -> seg_holds h' o rs ->
  pinv (pool s) (mem s) (txn_segs t ++ flush_queue s ++ owned (delete id (txns s))) ->
  sys_rel (System (pool s) h' (flush_queue s) (txns s) (s_log a)) (Spec (<[id := st']> (s_txns a)) (s_queue a) (s_log a)).
Proof using new_ok.
  intros S Et Ht T Ho Hs I. assert (keeps (flush_queue s ++ owned (delete id (txns s))) (mem s) h') as K.
  { apply (touches_keeps o); [done|]. pose proof (pi_nodup _ _ _ _ I) as N. apply NoDup_app in N as [N _]. apply NoDup_app in N as (_ & N & _). by apply N. }
  rewrite <-(insert_id (txns s) id t Et). eapply sys_update; [done|done| | | |].
  - by eapply pinv_touches.
  - eapply touches_heap_ok; [done|done|apply S].
  - intros x Hx. apply K. set_solver.
  - eapply Forall2_keeps; [exact K|set_solver|apply S].
Qed.

Lemma store_refines id i r s a a' : sys_rel s a -> spec_exec log_enabled (OStore id i r) a = Some a' -> refines (OStore id i r) s a'.
Proof using new_ok.
  intros S. cbn [spec_exec]. destruct (s_txns a !! id) as [st|] eqn:Hst; [|done]. cbn [mbind option_bind]. destruct (s_undo st !! i) as [r0|] eqn:Hi; [|done]. cbn [mbind option_bind].
  destruct (UndoRecord_ok r && _) eqn:Hr; [|done]. apply andb_true_iff in Hr as [Hr El%bool_decide_eq_true]. intros [= <-].
  destruct (sys_lookup s a id st S Hst) as (t & Et & (Hu & Hf & Hredo) & I). unfold refines. cbn [exec]. unfold StoreUndo. rewrite Et. cbn [mbind option_bind].
  pose proof (pi_nodup _ _ _ _ I) as N. unfold txn_segs in N. rewrite <-!app_assoc in N. pose proof N as N0. apply NoDup_app in N0 as (N1 & N2 & _).
  destruct (undo_store _ _ _ _ i r0 r Hu N1 Hi El) as (ptr & h' & o & Ep & Es & Hu' & T & Ho & rs' & Hs'). rewrite Ep. cbn [mbind option_bind]. rewrite Es. cbn [mbind option_bind].
  eexists _, _. split; [done|]. intros _. rewrite (sr_log _ _ S). eapply touched_refines; [done|exact Et| |exact T| |exact Hs'|exact I].
  - split; [done|]. split; [done|]. intros Hff. destruct (Hredo Hff) as [R1 R2]. split; [|done]. eapply redo_rel_keeps; [|done]. apply (touches_keeps o); [done|]. rewrite Hff in N2. specialize (N2 o Ho). set_solver.
  - unfold txn_segs. set_solver.
Qed.

Lemma last_insert_pred {A} (l : list A) x y : last l = Some y -> <[pred (length l) := x]> l = take (pred (length l)) l ++ [x] /\ l !! pred (length l) = Some y.
Proof.
  rewrite last_lookup. intros H. split; [|done]. apply lookup_lt_Some in H as L. rewrite insert_take_drop by done. replace (S (pred (length l))) with (length l) by lia. by rewrite drop_all.
Qed.

Lemma fill_refines id r s a a' : sys_rel s a -> spec_exec log_enabled (OFill id r) a = Some a' -> refines (OFill id r) s a'.
Proof using new_ok.
  intros S. cbn [spec_exec]. destruct (running id a) as [st|] eqn:Er; [|done]. cbn [mbind option_bind]. destruct (s_seg st) as [rs|] eqn:Es; [|done]. cbn [mbind option_bind].
  destruct (last rs) as [r0|] eqn:El; [|done]. cbn [mbind option_bind]. destruct (log_record_of id r && _) eqn:Hr; [|done]. apply andb_true_iff in Hr as [Hr Hlen%bool_decide_eq_true]. intros [= <-].
  apply running_lookup in Er as [Hst Hrun]. destruct (sys_lookup s a id st S Hst) as (t & Et & (Hu & Hf & Hredo) & I). unfold refines. cbn [exec]. unfold Fill. rewrite Et. cbn [mbind option_bind].
  rewrite Hrun in Hf. destruct (Hredo Hf) as [R1 R2]. unfold redo_rel in R1. rewrite Es in R1. destruct (buffer_seg_ (redo_ t)) as [o|] eqn:Eo; [|done]. destruct R1 as (Hs & Hne & Hl).
  destruct (last_insert_pred rs r r0 El) as [_ Hj]. destruct (overwrite_holds _ o rs _ r0 r Hs Hj Hlen) as (h' & E' & S' & T').
  assert (last (ptrs_of o rs) = Some (o, total (take (pred (length rs)) rs))) as Elp by (rewrite last_lookup, length_ptrs_from; apply (ptrs_from_lookup o rs _ 0 r0 Hj)).
  rewrite Hl, Elp. cbn [mbind option_bind]. rewrite E'. cbn [mbind option_bind]. eexists _, _. split; [done|]. intros _. rewrite (sr_log _ _ S).
  assert (o ∈ txn_segs t) as Ho by (unfold txn_segs; rewrite Hf, Eo; set_solver). eapply touched_refines; [done|exact Et| |exact T'|exact Ho|exact S'|exact I].
  pose proof (pi_nodup _ _ _ _ I) as N. unfold txn_segs in N. rewrite Hf, Eo in N. rewrite <-!app_assoc in N. apply NoDup_app in N as (_ & N & _).
  split; [eapply undo_rel_keeps; [|done]; apply (touches_keeps o); [done|]; intros Hin; apply (N o Hin); left|]. split; [done|]. intros _. split; [|done]. unfold redo_rel. rewrite Eo. cbn [s_seg]. split; [done|]. split.
  - intros E. apply (f_equal length) in E. rewrite length_insert in E. destruct rs; [done|]. cbn in E. lia.
  - rewrite Hl. f_equal. apply ptrs_from_lengths. symmetry. by eapply insert_lengths.
Qed.

Lemma app_rotate (a b c d : list Z) : a ++ b ++ c ++ d ≡ₚ (c ++ a) ++ b ++ d.
Proof. rewrite (Permutation_app_comm c a), <-app_assoc. f_equiv. rewrite !app_assoc. f_equiv. apply Permutation_app_comm. Qed.

(** What the redo buffer of a running transaction is given. *)
Lemma stage_ready s a id st t : sys_rel s a -> txn_rel (mem s) t st -> s_finished st = false ->
  pinv (pool s) (mem s) (txn_segs t ++ flush_queue s ++ owned (delete id (txns s))) ->
  finished t = false /\ redo_rel (mem s) (redo_ t) (s_seg st) /\ has_flushed_ (redo_ t) = s_flushed st /\
  pinv (pool s) (mem s) (option_list (buffer_seg_ (redo_ t)) ++ flush_queue s ++ buffers_ (undo_ t) ++ owned (delete id (txns s))).
Proof using new_ok.
  intros S (Hu & Hf & Hredo) Hrun I. rewrite Hrun in Hf. destruct (Hredo Hf) as [R1 R2]. split; [done|]. split; [done|]. split; [done|]. eapply pool_inv_perm; [|exact I].
  unfold txn_segs. rewrite Hf. symmetry. apply app_rotate.
Qed.

(** The transaction after its redo buffer has changed. *)
Lemma redo_update s a id t st b seg flushed fin p' h' q' qs' :
  sys_rel s a -> txn_rel (mem s) t st -> (fin = false -> redo_rel h' b seg /\ has_flushed_ b = flushed) ->
  pinv p' h' ((if fin then [] else option_list (buffer_seg_ b)) ++ q' ++ buffers_ (undo_ t) ++ owned (delete id (txns s))) -> heap_ok h' ->
  keeps (buffers_ (undo_ t) ++ owned (delete id (txns s))) (mem s) h' -> Forall2 (seg_holds h') q' qs' ->
  sys_rel (System p' h' q' (<[id := Txn (undo_ t) b (undo_ptrs t) fin]> (txns s)) (s_log a)) (Spec (<[id := SpecTxn (s_undo st) seg flushed fin]> (s_txns a)) qs' (s_log a)).
Proof using new_ok.
  intros S (Hu & _ & _) Hredo I Hh K Hq. eapply sys_update; [done| | |done| |done].
  - split; [eapply undo_rel_keeps; [|exact Hu]; intros o Ho; apply K; set_solver|]. split; [done|]. exact Hredo.
  - unfold txn_segs. cbn [undo_ redo_ finished]. eapply pool_inv_perm; [apply app_rotate|exact I].
  - intros o Ho. apply K. set_solver.
Qed.

Lemma stage_refines id r s a a' : sys_rel s a -> spec_exec log_enabled (OStage id r) a = Some a' -> refines (OStage id r) s a'.
Proof using new_ok.
  intros S. cbn [spec_exec]. destruct (running id a) as [st|] eqn:Er; [|done]. cbn [mbind option_bind]. destruct (log_record_of id r) eqn:Hr; [|done]. apply log_record_ok in Hr as [Hr _].
  apply running_lookup in Er as [Hst Hrun]. destruct (sys_lookup s a id st S Hst) as (t & Et & Ht & I). destruct (stage_ready s a id st t S Ht Hrun I) as (Hf & R1 & R2 & I1).
  destruct (stage_rel t st _ _ _ _ _ r R1 R2 (sr_queue _ _ S) I1 (sr_heap _ _ S) Hr) as (res & b & p' & h' & q' & E & H). destruct (spec_stage log_enabled r st (s_queue a)) as [[seg flushed] qs']. intros [= <-].
  unfold refines. cbn [exec]. unfold Stage. rewrite Et. cbn [mbind option_bind]. rewrite E. cbn [mbind option_bind]. eexists _, _. split; [done|]. intros Hd. destruct (H Hd) as (H1 & H2 & H3 & H4 & H5 & H6).
  rewrite (sr_log _ _ S), Hf. by apply redo_update.
Qed.

Lemma commit_refines id r s a a' : sys_rel s a -> spec_exec log_enabled (OCommit id r) a = Some a' -> refines (OCommit id r) s a'.
Proof using new_ok.
  intros S. cbn [spec_exec]. destruct (running id a) as [st|] eqn:Er; [|done]. cbn [mbind option_bind]. destruct (log_record_of id r) eqn:Hr; [|done]. apply log_record_ok in Hr as [Hr _].
  apply running_lookup in Er as [Hst Hrun]. destruct (sys_lookup s a id st S Hst) as (t & Et & Ht & I). destruct (stage_ready s a id st t S Ht Hrun I) as (Hf & R1 & R2 & I1).
  unfold refines. cbn [exec]. unfold LogCommit. rewrite Et. cbn [mbind option_bind]. destruct log_enabled eqn:El.
  - destruct (stage_rel t st _ _ _ _ _ r R1 R2 (sr_queue _ _ S) I1 (sr_heap _ _ S) Hr) as (res & b & p' & h' & q' & E & H). rewrite El in E, H. destruct (spec_stage true r st (s_queue a)) as [[seg flushed] qs']. intros [= <-].
    rewrite E. cbn [mbind option_bind]. destruct res as [|e]; [|by eexists _, _]. destruct (H eq_refl) as (H1 & H2 & H3 & H4 & H5 & H6).
    destruct (Finalize_rel b p' h' q' qs' _ true (Some seg) H1 H3 H4 H5) as (b2 & p2 & h2 & q2 & E2 & Q2 & I2 & Hh2 & K2). rewrite El in E2, Q2. rewrite E2. cbn [mbind option_bind]. eexists _, _. split; [done|]. intros _. rewrite (sr_log _ _ S).
    apply redo_update; [done|done|done|done|done| |exact Q2]. by eapply heap_keeps_trans.
  - intros [= <-]. cbn [mbind option_bind]. destruct (Finalize_rel (redo_ t) _ _ _ _ _ true _ R1 (sr_queue _ _ S) I1 (sr_heap _ _ S)) as (b2 & p2 & h2 & q2 & E2 & Q2 & I2 & Hh2 & K2). rewrite El in E2, Q2.
    rewrite E2. cbn [mbind option_bind]. eexists _, _. split; [done|]. intros _. rewrite (sr_log _ _ S). by apply redo_update.
Qed.

(** An undo buffer is empty exactly when it has no records. *)
Lemma UndoBuffer_Empty_rel h b ptrs rs : undo_rel h b ptrs rs -> UndoBuffer_Empty b = bool_decide (rs = []).
Proof.
  intros (rss & -> & F & Hne & _). unfold UndoBuffer_Empty. apply bool_decide_ext. destruct F as [|o rs bs rss _ F]; [done|]. apply Forall_cons in Hne as [Hne _]. split; [done|]. cbn. by destruct rs.
Qed.

Lemma abort_refines id r s a a' : sys_rel s a -> spec_exec log_enabled (OAbort id r) a = Some a' ->
  (forall st, s_txns a !! id = Some st -> s_flushed st = true -> s_finished st = false -> s_seg st <> None) -> refines (OAbort id r) s a'.
Proof using new_ok.
  intros S. cbn [spec_exec]. destruct (running id a) as [st|] eqn:Er; [|done]. cbn [mbind option_bind]. destruct (log_record_of id r) eqn:Hr; [|done]. apply log_record_ok in Hr as [Hr _].
  apply running_lookup in Er as [Hst Hrun]. destruct (sys_lookup s a id st S Hst) as (t & Et & Ht & I). destruct (stage_ready s a id st t S Ht Hrun I) as (Hf & R1 & R2 & I1).
  unfold refines. cbn [exec]. unfold LogAbort. rewrite Et. cbn [mbind option_bind]. rewrite R2. destruct (log_enabled && s_flushed st) eqn:Ef.
  - apply andb_true_iff in Ef as [El Hfl]. case_decide as Hu; [done|]. intros [= <-] Hseg. specialize (Hseg st Hst Hfl Hrun).
    rewrite (UndoBuffer_Empty_rel _ _ _ _ (proj1 Ht)), bool_decide_eq_false_2 by done. unfold redo_rel, RedoBuffer_Reset in *. destruct (buffer_seg_ (redo_ t)) as [o|] eqn:Eo, (s_seg st) as [rs|] eqn:Es; try done.
    destruct R1 as ((sg & Hsg & Hh) & _). rewrite Hsg. cbn [mbind option_bind]. set (h0 := <[o := Reset sg]> (mem s)).
    assert (seg_holds h0 o []) as S0 by (eexists; split; [apply lookup_insert_eq|]; apply empty_holds, Hh).
    assert (touches o (mem s) h0) as T0 by (split; [unfold h0; rewrite dom_insert_L; assert (o ∈ dom (mem s)) by (apply elem_of_dom; eauto); set_solver|intros o' Hne; unfold h0; by rewrite lookup_insert_ne]).
    change (option_list (Some o)) with [o] in I1. assert (keeps (flush_queue s ++ buffers_ (undo_ t) ++ owned (delete id (txns s))) (mem s) h0) as K0.
    { apply (touches_keeps o); [done|]. pose proof (pi_nodup _ _ _ _ I1) as N. cbn in N. apply NoDup_cons in N as [N _]. set_solver. }
    assert (heap_ok h0) as Hh0 by (eapply touches_heap_ok; [done|done|apply S]).
    destruct (redo_append h0 o [] r true S0) as (h1 & h2 & E1 & E2 & R3 & T2 & S2); [pose proof (record_bounds (RecordType := LogRecord_record) r Hr) as [_ ?]; change (total []) with 0; lia|].
    unfold stage, RedoBuffer_NewEntry. rewrite Eo. unfold has_bytes_left. assert (h0 !! o = Some (Reset sg)) as L0 by apply lookup_insert_eq. rewrite L0. cbn [mbind option_bind]. rewrite (HasBytesLeft_holds _ []) by (apply empty_holds, Hh || (pose proof (record_bounds (RecordType := LogRecord_record) r Hr) as [_ ?]; rewrite BUFFER_SEGMENT_SIZE_eq in *; lia)).
    rewrite bool_decide_eq_true_2 by (pose proof (record_bounds (RecordType := LogRecord_record) r Hr) as [_ ?]; change (total []) with 0; lia). change (total []) with 0 in *. rewrite E1. cbn [mbind option_bind]. rewrite E2. cbn [mbind option_bind].
    assert (keeps (flush_queue s ++ buffers_ (undo_ t) ++ owned (delete id (txns s))) (mem s) h2) as K2.
    { eapply heap_keeps_trans; [exact K0|]. apply (touches_keeps o); [done|]. pose proof (pi_nodup _ _ _ _ I1) as N. cbn in N. apply NoDup_cons in N as [N _]. set_solver. }
    rewrite R2, Hfl. destruct (Finalize_rel (Redo true (Some o) (Some (o, 0))) (pool s) h2 (flush_queue s) (s_queue a) (buffers_ (undo_ t) ++ owned (delete id (txns s))) true (Some [r])) as (b2 & p2 & h3 & q2 & E3 & Q3 & I3 & Hh3 & K3).
    + exact R3.
    + eapply Forall2_keeps; [exact K2|set_solver|apply S].
    + eapply pinv_touches; [exact T2|]. by eapply pinv_touches.
    + by eapply touches_heap_ok.
    + rewrite El in E3, Q3 |- *. rewrite E3. cbn [mbind option_bind]. eexists _, _. split; [done|]. intros _. rewrite (sr_log _ _ S). apply redo_update; [done|done|done|done|done| |exact Q3].
      eapply heap_keeps_trans; [|exact K3]. intros x Hx. apply K2. set_solver.
  - intros [= <-] _. destruct (Finalize_rel (redo_ t) _ _ _ _ _ false _ R1 (sr_queue _ _ S) I1 (sr_heap _ _ S)) as (b2 & p2 & h2 & q2 & E2 & Q2 & I2 & Hh2 & K2). rewrite andb_false_r in Q2.
    rewrite E2. cbn [mbind option_bind]. eexists _, _. split; [done|]. intros _. rewrite (sr_log _ _ S). by apply redo_update.
Qed.

Lemma Serialize_eq s o q sg rs p h : flush_queue s = o :: q -> mem s !! o = Some sg ->
  IterableBufferSegment.iterate LogRecord_record sg (Z.to_nat BUFFER_SEGMENT_SIZE) IterableBufferSegment.begin = Some rs ->
  ObjectPool.Release o (pool s) (mem s) = Some (p, h) -> Serialize new s = Some (Done, System p h q (txns s) (log s ++ rs)).
Proof.
  unfold Serialize, segment_allocator. generalize (Z.to_nat BUFFER_SEGMENT_SIZE) as fuel. intros fuel E1 E2 E3 E4. rewrite E1, E2. cbn [mbind option_bind]. rewrite E3. cbn [mbind option_bind]. by rewrite E4.
Qed.

Lemma serialize_refines s a a' : sys_rel s a -> spec_exec log_enabled OSerialize a = Some a' -> Forall (Forall (fun r => LogRecord_ok r = true)) (s_queue a) -> refines OSerialize s a'.
Proof using new_ok.
  intros S. cbn [spec_exec]. intros E Hok. unfold refines. cbn [exec]. pose proof (sr_queue _ _ S) as Q. pose proof (sr_pool _ _ S) as I.
  destruct (flush_queue s) as [|o q] eqn:Eq; inversion Q as [|? rs ? qs Ho Q' E1 E2]; subst; rewrite <-?H, <-?E2, <-?H0 in *; injection E as <-.
  - unfold Serialize. rewrite Eq. eexists _, _. split; [done|]. intros _. by destruct S.
  - pose proof Ho as (sg & Hsg & Hh). apply Forall_cons in Hok as [Hok _].
    destruct (Release_segment (pool s) (mem s) o (q ++ owned (txns s))) as (p' & h' & E' & I' & Hh' & K'); [eapply pool_inv_perm; [|exact I]; rewrite Permutation_app_comm; done|apply S|].
    rewrite (Serialize_eq s o q sg rs p' h' Eq Hsg (iterate_segment LogRecord_record sg rs Hh Hok) E'). eexists _, _. split; [done|]. intros _. split; cbn [pool mem flush_queue txns log s_txns s_queue s_log]; try done.
    + eapply pool_inv_perm; [|exact I']. apply Permutation_app_comm.
    + eapply Forall2_keeps; [exact K'|set_solver|done].
    + by rewrite (sr_log _ _ S).
    + intros i. pose proof (sr_txns _ _ S i) as R. destruct (txns s !! i) as [t|] eqn:Et; inversion R as [? st Hr|]; subst; constructor. eapply txn_rel_keeps; [|exact Hr]. intros x Hx. apply K'. apply elem_of_app. right. by eapply txn_segs_owned.
Qed.

Lemma destroy_refines id s a a' : sys_rel s a -> spec_exec log_enabled (ODestroy id) a = Some a' -> refines (ODestroy id) s a'.
Proof using new_ok.
  intros S. cbn [spec_exec]. destruct (s_txns a !! id) as [st|] eqn:Hst; [|done]. cbn [mbind option_bind]. destruct (s_finished st) eqn:Hfin; [|done]. intros [= <-].
  destruct (sys_lookup s a id st S Hst) as (t & Et & (Hu & Hf & _) & I). unfold refines. cbn [exec]. unfold DestroyTxn. rewrite Et. cbn [mbind option_bind]. unfold txn_segs in I. rewrite Hf, Hfin, app_nil_r in I.
  destruct (release_all_spec (buffers_ (undo_ t)) _ _ _ I (sr_heap _ _ S)) as (p' & h' & E & I' & Hh' & K). unfold UndoBuffer_Destroy. rewrite E. cbn [mbind option_bind]. eexists _, _. split; [done|]. intros _.
  split; cbn [pool mem flush_queue txns log s_txns s_queue s_log]; try done.
  - eapply pool_inv_perm; [|exact I']. apply Permutation_app_comm.
  - eapply Forall2_keeps; [exact K|set_solver|apply S].
  - apply S.
  - intros i. destruct (decide (i = id)) as [->|Hne]; [rewrite !lookup_delete_eq; constructor|]. rewrite !lookup_delete_ne by done. pose proof (sr_txns _ _ S i) as R.
    destruct (txns s !! i) as [t'|] eqn:Et'; inversion R as [? st' Hr|]; subst; constructor. eapply txn_rel_keeps; [|exact Hr]. intros x Hx. apply K, elem_of_app. right. eapply (txn_segs_owned _ i); [by rewrite lookup_delete_ne|done].
Qed.

End pool.
