(* ===== verification/BufferLog.v ===== *)
(** * What the record buffers give to the log

    Runs of the buffers of [Buffers] as lists of records ([BufferRuns]): the invariant of
    the specification, the refinement of whole runs, and which records of a transaction
    reach the log serializer. *)

From S2P Require Import Prelude TupleAccess ProjectedRow LogRecords ObjectPool Buffers BufferRuns.
Import RecordBufferSegment.

(** ** The specification's invariant *)

Record spec_inv (a : spec) : Prop := {
  si_undo : forall id st, s_txns a !! id = Some st -> Forall (fun r => UndoRecord_ok r = true) (s_undo st);
  si_seg : forall id st rs, s_txns a !! id = Some st -> s_seg st = Some rs -> rs <> [] /\ Forall (fun r => log_record_of id r = true) rs;
  si_flushed : forall id st, s_txns a !! id = Some st -> s_flushed st = true -> s_finished st = false -> s_seg st <> None;
  si_queue : Forall (Forall (fun r => LogRecord_ok r = true)) (s_queue a);
}.

Lemma log_records_ok id rs : Forall (fun r => log_record_of id r = true) rs -> Forall (fun r => LogRecord_ok r = true) rs.
Proof. induction 1 as [|r rs Hr _ IH]; constructor; [apply (log_record_ok _ _ Hr)|done]. Qed.

(** Changing one transaction. *)
Lemma spec_inv_update a id st qs lg : spec_inv a -> Forall (fun r => UndoRecord_ok r = true) (s_undo st) ->
  (forall rs, s_seg st = Some rs -> rs <> [] /\ Forall (fun r => log_record_of id r = true) rs) ->
  (s_flushed st = true -> s_finished st = false -> s_seg st <> None) -> Forall (Forall (fun r => LogRecord_ok r = true)) qs ->
  spec_inv (Spec (<[id := st]> (s_txns a)) qs lg).
Proof.
  intros [I1 I2 I3 I4] H1 H2 H3 H4. split; cbn [s_txns s_queue]; try done; intros i st'; destruct (decide (i = id)) as [->|Hne].
  all: try (rewrite lookup_insert_eq). all: try (rewrite lookup_insert_ne by done).
  - by intros [= <-].
  - apply I1.
  - intros rs [= <-]. apply H2.
  - intros rs. apply I2.
  - by intros [= <-].
  - apply I3.
Qed.

Lemma spec_stage_inv log_enabled id a st r seg flushed qs : spec_inv a -> s_txns a !! id = Some st -> log_record_of id r = true ->
  spec_stage log_enabled r st (s_queue a) = (seg, flushed, qs) ->
  seg <> [] /\ Forall (fun r => log_record_of id r = true) seg /\ Forall (Forall (fun r => LogRecord_ok r = true)) qs.
Proof.
  intros I Hst Hr. unfold spec_stage. destruct (s_seg st) as [rs|] eqn:Es.
  - destruct (si_seg _ I id st rs Hst Es) as [Hne Hrs]. case_decide.
    + intros [= <- <- <-]. split; [by destruct rs|]. split; [apply Forall_app; by repeat constructor|apply I].
    + destruct log_enabled; intros [= <- <- <-]; (split; [done|]; split; [by repeat constructor|]); [|apply I]. apply Forall_app. split; [apply I|]. repeat constructor. by eapply log_records_ok.
  - intros [= <- <- <-]. split; [done|]. split; [by repeat constructor|apply I].
Qed.

Lemma spec_exec_inv log_enabled o a a' : spec_inv a -> spec_exec log_enabled o a = Some a' -> spec_inv a'.
Proof.
  intros I. destruct o as [id|id r|id i r|id r|id r|id r|id r| |id]; cbn [spec_exec].
  - case_decide; [|done]. intros [= <-]. apply spec_inv_update; try done. apply I.
  - destruct (running id a) as [st|] eqn:Er; [|done]. apply running_lookup in Er as [Hst Hf]. cbn [mbind option_bind]. destruct (UndoRecord_ok r) eqn:Hr; [|done]. intros [= <-].
    apply spec_inv_update; cbn [s_undo s_seg s_flushed s_finished]; try done.
    + apply Forall_app. split; [by eapply si_undo|by repeat constructor].
    + intros rs. by apply (si_seg _ I id st).
    + intros H _. by apply (si_flushed _ I id st).
    + apply I.
  - destruct (s_txns a !! id) as [st|] eqn:Hst; [|done]. cbn [mbind option_bind]. destruct (s_undo st !! i) as [r0|]; [|done]. cbn [mbind option_bind]. destruct (UndoRecord_ok r) eqn:Hr; [|done]. cbn [andb]. case_bool_decide; [|done]. intros [= <-].
    apply spec_inv_update; cbn [s_undo s_seg s_flushed s_finished]; try done.
    + apply Forall_insert; [by eapply si_undo|done].
    + intros rs. by apply (si_seg _ I id st).
    + by apply (si_flushed _ I id st).
    + apply I.
  - destruct (running id a) as [st|] eqn:Er; [|done]. apply running_lookup in Er as [Hst Hf]. cbn [mbind option_bind]. destruct (log_record_of id r) eqn:Hr; [|done].
    destruct (spec_stage _ _ _ _) as [[seg flushed] qs] eqn:Es. intros [= <-]. destruct (spec_stage_inv _ _ _ _ _ _ _ _ I Hst Hr Es) as (H1 & H2 & H3).
    apply spec_inv_update; cbn [s_undo s_seg s_flushed s_finished]; try done; [by eapply si_undo|]. by intros rs [= <-].
  - destruct (running id a) as [st|] eqn:Er; [|done]. apply running_lookup in Er as [Hst Hf]. cbn [mbind option_bind]. destruct (s_seg st) as [rs|] eqn:Es; [|done]. cbn [mbind option_bind]. destruct (last rs) as [r0|]; [|done]. cbn [mbind option_bind].
    destruct (log_record_of id r) eqn:Hr; [|done]. cbn [andb]. case_bool_decide; [|done]. intros [= <-]. destruct (si_seg _ I id st rs Hst Es) as [Hne Hrs].
    apply spec_inv_update; cbn [s_undo s_seg s_flushed s_finished]; try done; [by eapply si_undo| |apply I]. intros rs' [= <-]. split; [|by apply Forall_insert].
    intros E. apply (f_equal length) in E. rewrite length_insert in E. by destruct rs.
  - destruct (running id a) as [st|] eqn:Er; [|done]. apply running_lookup in Er as [Hst Hf]. cbn [mbind option_bind]. destruct (log_record_of id r) eqn:Hr; [|done].
    destruct log_enabled; [destruct (spec_stage _ _ _ _) as [[seg flushed] qs] eqn:Es|]; intros [= <-]; apply spec_inv_update; cbn [s_undo s_seg s_flushed s_finished]; try done; try (by eapply si_undo); [|apply I].
    destruct (spec_stage_inv _ _ _ _ _ _ _ _ I Hst Hr Es) as (H1 & H2 & H3). apply Forall_app. split; [done|]. repeat constructor. by eapply log_records_ok.
  - destruct (running id a) as [st|] eqn:Er; [|done]. apply running_lookup in Er as [Hst Hf]. cbn [mbind option_bind]. destruct (log_record_of id r) eqn:Hr; [|done]. pose proof (proj1 (log_record_ok _ _ Hr)) as Hr'.
    destruct (log_enabled && s_flushed st); [case_decide; [done|]|]; intros [= <-]; apply spec_inv_update; cbn [s_undo s_seg s_flushed s_finished]; try done; try (by eapply si_undo); [|apply I].
    apply Forall_app. split; [apply I|]. by repeat constructor.
  - destruct (s_queue a) as [|rs rest] eqn:Eq; intros [= <-]; [done|]. destruct I as [I1 I2 I3 I4]. split; try done. rewrite Eq in I4. by apply Forall_cons in I4 as [_ I4].
  - destruct (s_txns a !! id) as [st|] eqn:Hst; [|done]. cbn [mbind option_bind]. destruct (s_finished st); [|done]. intros [= <-]. destruct I as [I1 I2 I3 I4].
    split; cbn [s_txns s_queue]; try done; intros i st'; (destruct (decide (i = id)) as [->|Hne]; [by rewrite lookup_delete_eq|rewrite lookup_delete_ne by done]); [apply I1|intros rs; apply I2|apply I3].
Qed.

Lemma spec_start_inv : spec_inv spec_start.
Proof. by split. Qed.

(** ** Runs *)

Section runs.
Context (new : heap -> option (Z * list Z)).
Hypothesis new_ok : forall h o bs, new h = Some (o, bs) -> h !! o = None /\ o `mod` 8 = 0 /\ Z.of_nat (length bs) = BUFFER_SEGMENT_SIZE.
Context (log_enabled : bool).
#[local] Abbreviation sys_rel := (sys_rel new new_ok).

Lemma exec_refines o s a a' : sys_rel s a -> spec_inv a -> spec_exec log_enabled o a = Some a' -> refines new new_ok log_enabled o s a'.
Proof.
  intros S I E. destruct o.
  - by eapply begin_refines.
  - by eapply undo_refines.
  - by eapply store_refines.
  - by eapply stage_refines.
  - by eapply fill_refines.
  - by eapply commit_refines.
  - eapply abort_refines; [done|done|]. intros st Hst. by apply (si_flushed _ I id).
  - eapply serialize_refines; [done|done|apply I].
  - by eapply destroy_refines.
Qed.

Lemma run_refines os : forall s a a', sys_rel s a -> spec_inv a -> spec_run log_enabled os a = Some a' ->
  exists res s', run new log_enabled os s = Some (res, s') /\ (res = Done -> sys_rel s' a' /\ spec_inv a').
Proof.
  induction os as [|o os IH]; intros s a a' S I; cbn [spec_run run]; [intros [= <-]; by eexists _, _|]. destruct (spec_exec log_enabled o a) as [a1|] eqn:E; [|done]. cbn [mbind option_bind]. intros Er.
  destruct (exec_refines o s a a1 S I E) as (res & s1 & -> & H). cbn [mbind option_bind]. destruct res as [|e]; [|by eexists _, _]. eapply IH; [by apply H|by eapply spec_exec_inv|done].
Qed.

Lemma start_rel n k : is_uint 64 n -> is_uint 64 k -> sys_rel (start n k) spec_start.
Proof.
  intros Hn Hk. split; cbn; try done.
  - pose proof (@pool_inv_make heap _ (segment_laws new new_ok) ∅ n k Hn Hk) as H. change (live ∅) with (dom (∅ : heap)) in H. rewrite dom_empty_L in H.
    unfold owned. by rewrite map_to_list_empty.
  - constructor.
Qed.

(** Reading through the pointers to undo records. *)
Lemma undo_ptrs_read h b ptrs rs : undo_rel h b ptrs rs -> Forall2 (fun ptr r => exists m, deref ptr h = Some m /\ take (length r) m = r) ptrs rs.
Proof.
  intros (rss & -> & F & _ & -> & _). apply Forall2_same_length_lookup. split.
  - induction F as [|o rs bs rss _ F IH]; [done|]. cbn. by rewrite !length_app, length_ptrs_from, IH.
  - intros i ptr r Hp Hr. destruct (undo_lookup h _ _ i r F Hr) as (k & j & o & rs & Ho & Hk & Hj & Hp' & _). rewrite Hp in Hp'. injection Hp' as ->.
    destruct (Forall2_lookup_lr _ _ _ _ _ _ F Ho Hk) as (s & Hs & _ & _ & _ & Ht). unfold deref. cbn [fst snd]. rewrite Hs. cbn [mbind option_bind]. eexists. split; [done|].
    rewrite <-(take_drop (length (concat rs)) (bytes_ s)), Ht. rewrite <-(take_drop_middle rs j r Hj) at 2. rewrite concat_app. cbn [concat]. unfold total. rewrite Nat2Z.id, <-!app_assoc, drop_app_length, take_app_length. done.
Qed.

(** A segment handed over is read as the records staged in it. *)
Lemma segment_read h o rs : seg_holds h o rs -> Forall (fun r => LogRecord_ok r = true) rs ->
  exists sg, h !! o = Some sg /\ IterableBufferSegment.iterate LogRecord_record sg (Z.to_nat BUFFER_SEGMENT_SIZE) IterableBufferSegment.begin = Some rs.
Proof.
  intros (sg & Hs & H) Hok. exists sg. split; [done|]. by apply iterate_segment.
Qed.

Lemma queue_read h q qs : Forall2 (seg_holds h) q qs -> Forall (Forall (fun r => LogRecord_ok r = true)) qs ->
  Forall2 (fun o rs => exists sg, h !! o = Some sg /\ IterableBufferSegment.iterate LogRecord_record sg (Z.to_nat BUFFER_SEGMENT_SIZE) IterableBufferSegment.begin = Some rs) q qs.
Proof. intros F Hok. induction F as [|o rs q qs Ho F IH]; constructor; apply Forall_cons in Hok as [? ?]; [by apply segment_read|by apply IH]. Qed.

End runs.

(** ** The records of one transaction *)

(** What has been staged by a transaction, as filled in. *)
Definition note (id : Z) (rs : list (list Z)) (o : op) : list (list Z) :=
  match o with
  | OStage i r => if decide (i = id) then rs ++ [r] else rs
  | OFill i r => if decide (i = id) then <[pred (length rs) := r]> rs else rs
  | _ => rs
  end.
Definition staged (id : Z) (os : list op) : list (list Z) := foldl (note id) [] os.

Definition begun (o : op) : option Z := match o with OBegin id => Some id | _ => None end.
Definition op_id (o : op) : option Z :=
  match o with OBegin id | OUndo id _ | OStore id _ _ | OStage id _ | OFill id _ | OCommit id _ | OAbort id _ | ODestroy id => Some id | OSerialize => None end.

(** The transaction's records among those handed over. *)
Definition records_of (id : Z) (rs : list (list Z)) : list (list Z) := filter (fun r => LogRecord_TxnBegin r = id) rs.
Definition handed (id : Z) (a : spec) : list (list Z) := records_of id (s_log a ++ concat (s_queue a)).

Definition outcome_ok (id : Z) (os : list op) (rs : list (list Z)) : Prop :=
  (forall r, OCommit id r ∈ os -> rs = staged id os ++ [r]) /\
  (forall r, OAbort id r ∈ os -> rs = [] \/ exists pre, pre <> [] /\ pre `prefix_of` staged id os /\ rs = pre ++ [r]) /\
  ((forall r, OCommit id r ∉ os /\ OAbort id r ∉ os) -> rs `prefix_of` staged id os).

Definition unfinished (id : Z) (os : list op) : Prop := forall r, OCommit id r ∉ os /\ OAbort id r ∉ os.

Definition history (id : Z) (os : list op) (a : spec) : Prop :=
  match s_txns a !! id with
  | Some st =>
    id ∈ omap begun os /\
    if s_finished st then outcome_ok id os (handed id a)
    else unfinished id os /\ handed id a ++ default [] (s_seg st) = staged id os /\ (s_flushed st = true <-> handed id a <> [])
  | None =>
    (id ∈ omap begun os /\ outcome_ok id os (handed id a)) \/
    (id ∉ omap begun os /\ unfinished id os /\ handed id a = [] /\ staged id os = [])
  end.

Lemma history_outcome id os a : history id os a -> outcome_ok id os (handed id a).
Proof.
  assert (forall rs, unfinished id os -> rs `prefix_of` staged id os -> outcome_ok id os rs) as H.
  { intros rs Hu Hp. split; [intros r Hr; by destruct (Hu r)|]. split; [intros r Hr; by destruct (Hu r)|done]. }
  unfold history. destruct (s_txns a !! id) as [st|].
  - destruct (s_finished st); [by intros [_ ?]|]. intros (_ & Hu & E & _). apply H; [done|]. by eexists.
  - intros [[_ ?]|(_ & Hu & -> & E)]; [done|]. apply H; [done|]. by apply prefix_nil.
Qed.

Lemma records_of_app id a b : records_of id (a ++ b) = records_of id a ++ records_of id b.
Proof. apply filter_app. Qed.

Lemma records_of_same id rs : Forall (fun r => log_record_of id r = true) rs -> records_of id rs = rs.
Proof. intros H. apply filter_all. induction H as [|r rs Hr _ IH]; constructor; [apply (log_record_ok _ _ Hr)|done]. Qed.

Lemma records_of_other id id' rs : id' <> id -> Forall (fun r => log_record_of id' r = true) rs -> records_of id rs = [].
Proof. intros Hne H. apply filter_none. induction H as [|r rs Hr _ IH]; constructor; [|done]. destruct (log_record_ok _ _ Hr) as [_ ->]. done. Qed.

Lemma handed_snoc id txns qs rs lg : handed id (Spec txns (qs ++ [rs]) lg) = handed id (Spec txns qs lg) ++ records_of id rs.
Proof. unfold handed. cbn [s_log s_queue]. rewrite concat_app. cbn [concat]. by rewrite app_nil_r, !records_of_app, app_assoc. Qed.

Lemma handed_txns id m m' qs lg : handed id (Spec m qs lg) = handed id (Spec m' qs lg).
Proof. done. Qed.

Lemma staged_snoc id os o : staged id (os ++ [o]) = note id (staged id os) o.
Proof. unfold staged. by rewrite foldl_app. Qed.

(** Operations of other transactions and the serializer change nothing for this one. *)
Lemma spec_stage_other id id' a st r seg flushed qs : spec_inv a -> s_txns a !! id' = Some st -> id' <> id -> log_record_of id' r = true -> spec_stage true r st (s_queue a) = (seg, flushed, qs) ->
  (forall m, handed id (Spec m qs (s_log a)) = handed id a) /\ records_of id seg = [].
Proof.
  intros I Hst Hne Hr E. pose proof (spec_stage_inv _ _ _ _ _ _ _ _ I Hst Hr E) as (_ & Hseg & _). split; [|by eapply records_of_other]. intros m. revert E. unfold spec_stage. destruct (s_seg st) as [rs|] eqn:Es; [|by intros [= <- <- <-]].
  case_decide; intros [= <- <- <-]; [done|]. rewrite handed_snoc. destruct (si_seg _ I id' st rs Hst Es) as [_ Hrs]. by rewrite (records_of_other id id') , app_nil_r.
Qed.

Lemma exec_other id o a a' : spec_inv a -> spec_exec true o a = Some a' -> op_id o <> Some id -> s_txns a' !! id = s_txns a !! id /\ handed id a' = handed id a.
Proof.
  intros I. destruct o as [i|i r|i j r|i r|i r|i r|i r| |i]; cbn [spec_exec op_id]; intros E Hid; try (assert (i <> id) as Hne by congruence).
  - case_decide; [|done]. injection E as <-. cbn [s_txns]. by rewrite lookup_insert_ne.
  - destruct (running i a) as [st|]; [|done]. cbn [mbind option_bind] in E. destruct (UndoRecord_ok r); [|done]. injection E as <-. cbn [s_txns]. by rewrite lookup_insert_ne.
  - destruct (s_txns a !! i) as [st|]; [|done]. cbn [mbind option_bind] in E. destruct (s_undo st !! j); [|done]. cbn [mbind option_bind] in E. destruct (UndoRecord_ok r && _); [|done]. injection E as <-. cbn [s_txns]. by rewrite lookup_insert_ne.
  - destruct (running i a) as [st|] eqn:Er; [|done]. apply running_lookup in Er as [Hst Hf]. cbn [mbind option_bind] in E. destruct (log_record_of i r) eqn:Hr; [|done].
    destruct (spec_stage _ _ _ _) as [[seg flushed] qs] eqn:Es. injection E as <-. cbn [s_txns]. rewrite lookup_insert_ne by done. split; [done|]. by apply (spec_stage_other id i a st r seg flushed).
  - destruct (running i a) as [st|]; [|done]. cbn [mbind option_bind] in E. destruct (s_seg st) as [rs|]; [|done]. cbn [mbind option_bind] in E. destruct (last rs); [|done]. cbn [mbind option_bind] in E. destruct (log_record_of i r && _); [|done]. injection E as <-. cbn [s_txns]. by rewrite lookup_insert_ne.
  - destruct (running i a) as [st|] eqn:Er; [|done]. apply running_lookup in Er as [Hst Hf]. cbn [mbind option_bind] in E. destruct (log_record_of i r) eqn:Hr; [|done].
    destruct (spec_stage _ _ _ _) as [[seg flushed] qs] eqn:Es. injection E as <-. cbn [s_txns]. rewrite lookup_insert_ne by done. split; [done|]. destruct (spec_stage_other id i a st r seg flushed qs I Hst Hne Hr Es) as [H1 H2]. rewrite handed_snoc, H2, app_nil_r. apply H1.
  - destruct (running i a) as [st|] eqn:Er; [|done]. cbn [mbind option_bind] in E. destruct (log_record_of i r) eqn:Hr; [|done]. destruct (true && s_flushed st); [case_decide; [done|]|]; injection E as <-; cbn [s_txns]; rewrite lookup_insert_ne by done; (split; [done|]); [|done].
    rewrite handed_snoc, (records_of_other id i), app_nil_r; [done|done|by repeat constructor].
  - destruct (s_queue a) as [|rs rest] eqn:Eq; injection E as <-; [done|]. split; [done|]. unfold handed. cbn [s_log s_queue]. rewrite Eq. cbn [concat]. by rewrite <-app_assoc.
  - destruct (s_txns a !! i) as [st|]; [|done]. cbn [mbind option_bind] in E. destruct (s_finished st); [|done]. injection E as <-. cbn [s_txns]. by rewrite lookup_delete_ne.
Qed.

(** Operations that stage nothing for the transaction, and do not begin or finish it. *)
Definition quiet (id : Z) (o : op) : bool :=
  match o with OBegin i | OStage i _ | OFill i _ | OCommit i _ | OAbort i _ => bool_decide (i <> id) | _ => true end.

Lemma quiet_facts id os o : quiet id o = true -> staged id (os ++ [o]) = staged id os /\ (id ∈ omap begun (os ++ [o]) <-> id ∈ omap begun os) /\
  (unfinished id (os ++ [o]) <-> unfinished id os) /\ forall rs, outcome_ok id (os ++ [o]) rs <-> outcome_ok id os rs.
Proof.
  intros Hq. assert (staged id (os ++ [o]) = staged id os) as Es by (rewrite staged_snoc; destruct o; cbn in *; try done; apply bool_decide_eq_true in Hq; by rewrite decide_False).
  assert (forall r, (OCommit id r ∈ os ++ [o] <-> OCommit id r ∈ os) /\ (OAbort id r ∈ os ++ [o] <-> OAbort id r ∈ os)) as Hm.
  { intros r. rewrite !elem_of_app, !list_elem_of_singleton. split; split; try tauto; intros [?|<-]; try done; cbn in Hq; by apply bool_decide_eq_true in Hq. }
  assert (unfinished id (os ++ [o]) <-> unfinished id os) as Hu by (unfold unfinished; split; intros H r; specialize (H r); destruct (Hm r); tauto).
  split; [done|]. split; [|split; [done|]].
  - rewrite omap_app, elem_of_app. split; [|by left]. intros [?|H]; [done|]. destruct o; cbn in H, Hq; try by apply elem_of_nil in H. apply list_elem_of_singleton in H as ->. by apply bool_decide_eq_true in Hq.
  - intros rs. unfold outcome_ok. rewrite Es. fold (unfinished id (os ++ [o])). fold (unfinished id os). rewrite Hu. split; intros (H1 & H2 & H3); (split; [|split; [|done]]); intros r Hr; (apply H1 || apply H2); by apply Hm.
Qed.

Lemma history_other id o os a a' : op_id o <> Some id -> s_txns a' !! id = s_txns a !! id -> handed id a' = handed id a -> history id os a -> history id (os ++ [o]) a'.
Proof.
  intros Hid Et Eh. destruct (quiet_facts id os o) as (Es & Hb & Hu & Ho); [destruct o; cbn in *; try done; apply bool_decide_eq_true; congruence|].
  unfold history. rewrite Et, Eh, Es. destruct (s_txns a !! id) as [st|]; [destruct (s_finished st)|]; rewrite ?Hb, ?Hu, ?Ho; done.
Qed.

(** The transaction goes on running. *)
Lemma history_running id o os a st st' qs : s_txns a !! id = Some st -> s_finished st = false -> s_finished st' = false -> (forall r, o <> OCommit id r /\ o <> OAbort id r) ->
  history id os a ->
  let a' := Spec (<[id := st']> (s_txns a)) qs (s_log a) in
  (handed id a ++ default [] (s_seg st) = staged id os -> (s_flushed st = true <-> handed id a <> []) ->
   handed id a' ++ default [] (s_seg st') = note id (staged id os) o /\ (s_flushed st' = true <-> handed id a' <> [])) ->
  history id (os ++ [o]) a'.
Proof.
  intros Hst Hf Hf' Ho H a' Hs. unfold history in *. rewrite Hst, Hf in H. cbn [s_txns a']. rewrite lookup_insert_eq, Hf'. destruct H as (Hb & Hu & H1 & H2). destruct (Hs H1 H2) as [H3 H4].
  split; [rewrite omap_app; apply elem_of_app; by left|]. split; [|split; [by rewrite staged_snoc|done]].
  intros r. destruct (Hu r), (Ho r). rewrite !elem_of_app, !list_elem_of_singleton. split; intros [?|?]; congruence.
Qed.

(** The transaction finishes. *)
Lemma history_finish id o os a st st' a' : s_txns a !! id = Some st -> s_finished st = false -> s_txns a' !! id = Some st' -> s_finished st' = true -> history id os a ->
  (handed id a ++ default [] (s_seg st) = staged id os -> (s_flushed st = true <-> handed id a <> []) -> unfinished id os -> outcome_ok id (os ++ [o]) (handed id a')) ->
  history id (os ++ [o]) a'.
Proof.
  intros Hst Hf Hst' Hf' H Hs. unfold history in *. rewrite Hst, Hf in H. rewrite Hst', Hf'. destruct H as (Hb & Hu & H1 & H2). split; [rewrite omap_app; apply elem_of_app; by left|]. by apply Hs.
Qed.

Lemma spec_stage_same id a st r seg flushed qs : spec_inv a -> s_txns a !! id = Some st -> log_record_of id r = true -> spec_stage true r st (s_queue a) = (seg, flushed, qs) ->
  (s_flushed st = true <-> handed id a <> []) ->
  forall m, handed id (Spec m qs (s_log a)) ++ seg = (handed id a ++ default [] (s_seg st)) ++ [r] /\ (flushed = true <-> handed id (Spec m qs (s_log a)) <> []).
Proof.
  intros I Hst Hr E Hfl m. revert E. unfold spec_stage. destruct (s_seg st) as [rs|] eqn:Es; [|intros [= <- <- <-]; cbn; by rewrite app_nil_r].
  destruct (si_seg _ I id st rs Hst Es) as [Hne Hrs]. case_decide; intros [= <- <- <-]; cbn [default].
  - change (handed id (Spec m (s_queue a) (s_log a))) with (handed id a). by rewrite app_assoc.
  - rewrite handed_snoc, records_of_same by done. split; [done|]. split; [|done]. intros _ E. apply app_eq_nil in E as [_ ->]. done.
Qed.

Lemma insert_app_last {A} (l k : list A) x : k <> [] -> <[pred (length (l ++ k)) := x]> (l ++ k) = l ++ <[pred (length k) := x]> k.
Proof. intros Hk. rewrite length_app. destruct k as [|y k]; [done|]. cbn [length]. replace (pred (length l + S (length k)))%nat with (length l + length k)%nat by lia. apply insert_app_r. Qed.

Lemma history_step id os o a a' : spec_inv a -> NoDup (omap begun (os ++ [o])) -> history id os a -> spec_exec true o a = Some a' -> history id (os ++ [o]) a'.
Proof.
  intros I Hn H E. destruct (decide (op_id o = Some id)) as [Hid|Hid]; [|by destruct (exec_other id o a a' I E Hid); eapply history_other].
  destruct o as [i|i r|i j r|i r|i r|i r|i r| |i]; cbn [op_id] in Hid; try injection Hid as ->; cbn [spec_exec] in E.
  - case_decide as Hnone; [|done]. injection E as <-. unfold history in *. rewrite Hnone in H. cbn [s_txns]. rewrite lookup_insert_eq. cbn [s_finished s_seg s_flushed default].
    rewrite omap_app in Hn |- *. apply NoDup_app in Hn as (_ & Hd & _). destruct H as [[Hb _]|(Hb & Hu & Hh & Hs)]; [exfalso; apply (Hd id Hb); left|].
    split; [set_solver|]. split; [intros r; destruct (Hu r); set_solver|]. rewrite staged_snoc. cbn [note]. change (handed id (Spec _ (s_queue a) (s_log a))) with (handed id a). rewrite Hh, Hs. done.
  - destruct (running id a) as [st|] eqn:Er; [|done]. apply running_lookup in Er as [Hst Hf]. cbn [mbind option_bind] in E. destruct (UndoRecord_ok r); [|done]. injection E as <-. by eapply history_running.
  - destruct (s_txns a !! id) as [st|] eqn:Hst; [|done]. cbn [mbind option_bind] in E. destruct (s_undo st !! j) as [r0|]; [|done]. cbn [mbind option_bind] in E. destruct (UndoRecord_ok r && _); [|done]. injection E as <-.
    destruct (quiet_facts id os (OStore id j r)) as (Es & Hb & Hu & Ho); [done|]. unfold history in *. rewrite Hst in H. cbn [s_txns]. rewrite lookup_insert_eq. cbn [s_finished s_seg s_flushed].
    change (handed id (Spec _ (s_queue a) (s_log a))) with (handed id a). destruct (s_finished st); [by rewrite Hb, Ho|by rewrite Hb, Hu, Es].
  - destruct (running id a) as [st|] eqn:Er; [|done]. apply running_lookup in Er as [Hst Hf]. cbn [mbind option_bind] in E. destruct (log_record_of id r) eqn:Hr; [|done].
    destruct (spec_stage _ _ _ _) as [[seg flushed] qs] eqn:Es. injection E as <-. eapply history_running; [done|done|done|done|done|]. intros H1 H2. cbn [s_seg s_flushed default note]. rewrite decide_True, <-H1 by done. by apply (spec_stage_same id a st r seg flushed qs).
  - destruct (running id a) as [st|] eqn:Er; [|done]. apply running_lookup in Er as [Hst Hf]. cbn [mbind option_bind] in E. destruct (s_seg st) as [rs|] eqn:Es; [|done]. cbn [mbind option_bind] in E. destruct (last rs) as [r0|] eqn:El; [|done]. cbn [mbind option_bind] in E.
    destruct (log_record_of id r && _); [|done]. injection E as <-. eapply history_running; [done|done|done|done|done|]. intros H1 H2. cbn [s_seg s_flushed default note]. rewrite Es in H1. cbn [default] in H1. rewrite decide_True, <-H1 by done. split; [|done].
    symmetry. apply (insert_app_last (handed id a)). by destruct rs.
  - destruct (running id a) as [st|] eqn:Er; [|done]. apply running_lookup in Er as [Hst Hf]. cbn [mbind option_bind] in E. destruct (log_record_of id r) eqn:Hr; [|done].
    destruct (spec_stage _ _ _ _) as [[seg flushed] qs] eqn:Es. injection E as <-. eapply history_finish; [exact Hst|exact Hf|apply lookup_insert_eq|done|exact H|]. intros H1 H2 Hu.
    destruct (spec_stage_same id a st r seg flushed qs I Hst Hr Es H2 (<[id := SpecTxn (s_undo st) None true true]> (s_txns a))) as [E1 _]. destruct (spec_stage_inv _ _ _ _ _ _ _ _ I Hst Hr Es) as (_ & Hseg & _).
    rewrite handed_snoc, records_of_same, E1, H1 by done. unfold outcome_ok. rewrite staged_snoc. cbn [note]. split; [|split].
    + intros r' [Hin|E'%list_elem_of_singleton]%elem_of_app; [by destruct (Hu r')|]. by injection E' as ->.
    + intros r' [Hin|E'%list_elem_of_singleton]%elem_of_app; [by destruct (Hu r')|done].
    + intros Hx. destruct (Hx r) as [Hx1 _]. exfalso. apply Hx1. set_solver.
  - destruct (running id a) as [st|] eqn:Er; [|done]. apply running_lookup in Er as [Hst Hf]. cbn [mbind option_bind] in E. destruct (log_record_of id r) eqn:Hr; [|done].
    assert (exists st', s_txns a' !! id = Some st' /\ s_finished st' = true /\ handed id a' = handed id a ++ if s_flushed st then [r] else []) as (st' & Hst' & Hf' & Eh).
    { destruct (s_flushed st); cbn [andb] in E; [case_decide; [done|]|]; injection E as <-; eexists; (split; [apply lookup_insert_eq|split; [done|]]); [|by rewrite app_nil_r].
      rewrite handed_snoc, (records_of_same id [r]) by by repeat constructor. done. }
    eapply history_finish; [exact Hst|exact Hf|exact Hst'|exact Hf'|exact H|]. intros H1 H2 Hu. rewrite Eh. unfold outcome_ok. rewrite staged_snoc. cbn [note]. split; [|split].
    + intros r' [Hin|E'%list_elem_of_singleton]%elem_of_app; [by destruct (Hu r')|done].
    + intros r' [Hin|E'%list_elem_of_singleton]%elem_of_app; [by destruct (Hu r')|]. injection E' as ->. destruct (s_flushed st).
      * right. exists (handed id a). split; [by apply H2|]. split; [by eexists|done].
      * left. rewrite app_nil_r. destruct (handed id a) eqn:Ed; [done|]. destruct H2 as [_ H2]. assert (false = true) by by apply H2. done.
    + intros Hx. destruct (Hx r) as [_ Hx2]. exfalso. apply Hx2. set_solver.
  - done.
  - destruct (s_txns a !! id) as [st|] eqn:Hst; [|done]. cbn [mbind option_bind] in E. destruct (s_finished st) eqn:Hf; [|done]. injection E as <-.
    destruct (quiet_facts id os (ODestroy id)) as (Es & Hb & Hu & Ho); [done|]. unfold history in *. rewrite Hst, Hf in H. cbn [s_txns]. rewrite lookup_delete_eq. left. by rewrite Hb, Ho.
Qed.

Lemma spec_run_snoc os o a : spec_run true (os ++ [o]) a = a1 ← spec_run true os a; spec_exec true o a1.
Proof. revert a. induction os as [|o' os IH]; intros a; cbn; [by destruct (spec_exec true o a)|]. destruct (spec_exec true o' a) as [a1|]; [|done]. cbn. apply IH. Qed.

Lemma run_history id os : forall a, NoDup (omap begun os) -> spec_run true os spec_start = Some a -> history id os a /\ spec_inv a.
Proof.
  induction os as [|o os IH] using rev_ind; intros a Hn.
  - intros [= <-]. split; [|apply spec_start_inv]. right. split; [by intros ?%elem_of_nil|]. split; [|done]. intros r. split; by intros ?%elem_of_nil.
  - rewrite spec_run_snoc. destruct (spec_run true os spec_start) as [a1|]; [|done]. cbn [mbind option_bind]. intros E. pose proof Hn as Hn'. rewrite omap_app in Hn'. apply NoDup_app in Hn' as [Hn' _].
    destruct (IH a1 Hn' eq_refl) as [H I]. split; [by eapply history_step|by eapply spec_exec_inv].
Qed.

(** ** Theorems *)

(** C14: record buffers are lists of records.  Whatever transactions, the serializer and the
    collector do with the buffers, every call completes, with all assertions holding and no
    access outside of live memory; it succeeds, or throws what the pool throws.  Up to an
    exception, iterating over an undo buffer gives the records put into it, in order and as
    last written, the pointers handed out still point to them, the last of them is
    [LastRecord]; the serializer has read, and will read, exactly the records staged; and
    when all transactions are gone and everything is serialized, every segment is back in
    the pool. *)
Theorem buffers_refine (new : heap -> option (Z * list Z)) (log_enabled : bool) (size_limit reuse_limit : Z) (os : list op) (a : spec) :
  (forall h o bs, new h = Some (o, bs) -> h !! o = None /\ o `mod` 8 = 0 /\ Z.of_nat (length bs) = BUFFER_SEGMENT_SIZE) ->
  is_uint 64 size_limit -> is_uint 64 reuse_limit -> spec_run log_enabled os spec_start = Some a ->
  exists res s, run new log_enabled os (start size_limit reuse_limit) = Some (res, s) /\
    (res = Done ->
      (forall id st, s_txns a !! id = Some st -> exists t, txns s !! id = Some t /\
         undo_iterate (undo_ t) (mem s) (length (s_undo st)) undo_begin = Some (s_undo st) /\
         Forall2 (fun ptr r => exists m, deref ptr (mem s) = Some m /\ take (length r) m = r) (undo_ptrs t) (s_undo st) /\
         undo_last_record_ (undo_ t) = last (undo_ptrs t)) /\
      log s = s_log a /\
      Forall2 (fun o rs => exists sg, mem s !! o = Some sg /\
         IterableBufferSegment.iterate LogRecord_record sg (Z.to_nat BUFFER_SEGMENT_SIZE) IterableBufferSegment.begin = Some rs) (flush_queue s) (s_queue a) /\
      (s_txns a = ∅ -> s_queue a = [] -> ObjectPool.current_size_ (pool s) = ObjectPool.queue_size (ObjectPool.reuse_queue_ (pool s)))).
Proof.
  intros Hnew Hn Hk E. destruct (run_refines new Hnew log_enabled os _ _ _ (start_rel new Hnew _ _ Hn Hk) spec_start_inv E) as (res & s & Er & H).
  exists res, s. split; [done|]. intros Hd. destruct (H Hd) as [S I]. split; [|split; [apply S|split; [apply queue_read; [apply S|apply I]|]]].
  - intros id st Hst. destruct (sys_lookup new Hnew s a id st S Hst) as (t & Et & (Hu & _) & _). exists t. split; [done|]. split; [|split; [by eapply undo_ptrs_read|by destruct Hu as (? & _ & _ & _ & _ & ?)]].
    pose proof (si_undo _ I id st Hst) as Hok. destruct Hu as (rss & Eu & F & Hne & _). rewrite Eu in *. apply undo_iterate_all; [done|done|]. by apply Forall_concat.
  - intros Ht Hq. pose proof (pi_size _ _ _ _ (sr_pool _ _ _ _ S)) as P. assert (txns s = ∅) as Et.
    { apply map_empty. intros i. pose proof (sr_txns _ _ _ _ S i) as R. rewrite Ht, lookup_empty in R. by inversion R. }
    pose proof (sr_queue _ _ _ _ S) as Q. rewrite Hq in Q. apply Forall2_nil_inv_r in Q. rewrite P, Et, Q. unfold owned. by rewrite map_to_list_empty.
Qed.

(** C15: what transactions hand to the log.  With logging, in every run in which
    transactions' ids are unique, among the records that the serializer has read or has
    been handed, those of a committed transaction are all that it staged, in order and as
    it filled them in, followed by its commit record; those of an aborted one are none,
    or a part of what it staged followed by the abort record; and those of a transaction
    that runs are the first ones it has staged. *)
Theorem log_complete (new : heap -> option (Z * list Z)) (size_limit reuse_limit : Z) (os : list op) (a : spec) (s : system) (segments : list (list (list Z))) :
  (forall h o bs, new h = Some (o, bs) -> h !! o = None /\ o `mod` 8 = 0 /\ Z.of_nat (length bs) = BUFFER_SEGMENT_SIZE) ->
  is_uint 64 size_limit -> is_uint 64 reuse_limit -> NoDup (omap begun os) -> spec_run true os spec_start = Some a ->
  run new true os (start size_limit reuse_limit) = Some (Done, s) ->
  Forall2 (fun o rs => exists sg, mem s !! o = Some sg /\
    IterableBufferSegment.iterate LogRecord_record sg (Z.to_nat BUFFER_SEGMENT_SIZE) IterableBufferSegment.begin = Some rs) (flush_queue s) segments ->
  forall id, let records := records_of id (log s ++ concat segments) in
  (forall r, OCommit id r ∈ os -> records = staged id os ++ [r]) /\
  (forall r, OAbort id r ∈ os -> records = [] \/ exists pre, pre <> [] /\ pre `prefix_of` staged id os /\ records = pre ++ [r]) /\
  ((forall r, OCommit id r ∉ os /\ OAbort id r ∉ os) -> records `prefix_of` staged id os).
Proof.
  intros Hnew Hn Hk Hb E Er Hseg id. destruct (run_refines new Hnew true os _ _ _ (start_rel new Hnew _ _ Hn Hk) spec_start_inv E) as (res & s' & Er' & H).
  rewrite Er in Er'. injection Er' as <- <-. destruct (H eq_refl) as [S I]. pose proof (queue_read _ _ _ (sr_queue _ _ _ _ S) (si_queue _ I)) as Q.
  assert (segments = s_queue a) as ->.
  { clear -Q Hseg. revert segments Hseg. induction Q as [|o rs q qs (sg & Hsg & Hi) _ IH]; intros segments Hseg; [by apply Forall2_nil_inv_l in Hseg|].
    apply Forall2_cons_inv_l in Hseg as (rs' & segments' & (sg' & Hsg' & Hi') & Hs & ->). rewrite Hsg in Hsg'. injection Hsg' as <-. rewrite Hi in Hi'. injection Hi' as <-. f_equal. by apply IH. }
  rewrite (sr_log _ _ _ _ S). apply history_outcome, (run_history id os a Hb E).
Qed.

(** ** Examples *)

(** An operator new for segments. *)
Definition segment_new (h : heap) : option (Z * list Z) :=
  match bump_new (mk (replicate (Z.to_nat BUFFER_SEGMENT_SIZE) 0) 0) h with Some (o, s) => Some (o, bytes_ s) | None => None end.

Lemma segment_new_ok h o bs : segment_new h = Some (o, bs) -> h !! o = None /\ o `mod` 8 = 0 /\ Z.of_nat (length bs) = BUFFER_SEGMENT_SIZE.
Proof.
  unfold segment_new. destruct (bump_new _ h) as [[o' s]|] eqn:E; [|done]. destruct (bump_fresh _ _ _ _ E) as (H1 & H2 & ->). intros [= <- <-]. split; [done|]. split; [done|].
  vm_compute. reflexivity.
Qed.

(** Records of a type, a transaction and a size; undo records of inserts. *)
Definition a_log_record (type id : Z) (size : nat) : list Z := le_bytes 4 type ++ le_bytes 4 (Z.of_nat size) ++ le_bytes 8 id ++ replicate (size - 16) 0.
Definition an_insert (timestamp : Z) : list Z := le_bytes 8 1 ++ replicate 8 0 ++ le_bytes 8 timestamp ++ replicate 16 0.

(** Two transactions; one fills more than a segment and commits, the other aborts. *)
Definition example_ops : list op :=
  [OBegin 7; OUndo 7 (an_insert 7); OStage 7 (a_log_record 1 7 3000); OBegin 8; OUndo 8 (an_insert 8); OStage 7 (a_log_record 2 7 3000);
   OStore 7 0 (an_insert 9); OFill 7 (a_log_record 1 7 3000); OSerialize; OStage 8 (a_log_record 1 8 100); OCommit 7 (a_log_record 3 7 72); OAbort 8 (a_log_record 4 8 32); ODestroy 8].


(** The run completes, and the specification allows it. *)
Definition completes (log_enabled : bool) (os : list op) : bool :=
  match run segment_new log_enabled os (start 10 10) with Some (Done, _) => true | _ => false end.

Lemma example_completes : completes true example_ops = true.
Proof. vm_compute. reflexivity. Qed.

Lemma example_allowed : (a ← spec_run true example_ops spec_start; st ← s_txns a !! 7; Some (s_undo st)) = Some [an_insert 9].
Proof. vm_compute. reflexivity. Qed.

Lemma example_run : exists s, run segment_new true example_ops (start 10 10) = Some (Done, s).
Proof. pose proof example_completes as H. unfold completes in H. destruct (run _ _ _ _) as [[[] s]|]; [by exists s|discriminate H..]. Qed.

Lemma example_spec : exists a st, spec_run true example_ops spec_start = Some a /\ s_txns a !! 7 = Some st /\ s_undo st = [an_insert 9].
Proof.
  pose proof example_allowed as H. destruct (spec_run true example_ops spec_start) as [a|]; [|discriminate H]. cbn [mbind option_bind] in H. destruct (s_txns a !! 7) as [st|] eqn:Hst; [|discriminate H].
  exists a, st. split; [reflexivity|]. split; [exact Hst|]. by injection H.
Qed.

Lemma small_limit : is_uint 64 10.
Proof. unfold is_uint. lia. Qed.

Lemma buffers_refine_witness : exists s t, run segment_new true example_ops (start 10 10) = Some (Done, s) /\ txns s !! 7 = Some t /\ undo_iterate (undo_ t) (mem s) 1 undo_begin = Some [an_insert 9].
Proof.
  destruct example_spec as (a & st & E & Hst & Hu). destruct example_run as [s Hs].
  destruct (buffers_refine segment_new true 10 10 example_ops a segment_new_ok small_limit small_limit E) as (res & s' & Er & H). rewrite Hs in Er. injection Er as <- <-.
  destruct (H eq_refl) as [H1 _]. destruct (H1 7 st Hst) as (t & Et & Hi & _). exists s, t. split; [exact Hs|]. split; [exact Et|]. rewrite Hu in Hi. exact Hi.
Defined.

Lemma example_begun : NoDup (omap begun example_ops).
Proof. change (omap begun example_ops) with [7; 8]. apply NoDup_cons. split; [set_solver|apply NoDup_singleton]. Qed.

Lemma example_queue a s : spec_run true example_ops spec_start = Some a -> run segment_new true example_ops (start 10 10) = Some (Done, s) ->
  Forall2 (fun o rs => exists sg, mem s !! o = Some sg /\ IterableBufferSegment.iterate LogRecord_record sg (Z.to_nat BUFFER_SEGMENT_SIZE) IterableBufferSegment.begin = Some rs) (flush_queue s) (s_queue a).
Proof.
  intros E Er. destruct (run_refines segment_new segment_new_ok true example_ops _ _ _ (start_rel segment_new segment_new_ok _ _ small_limit small_limit) spec_start_inv E) as (res & s' & Er' & H).
  rewrite Er in Er'. injection Er' as <- <-. destruct (H eq_refl) as [S I]. apply queue_read; [apply S|apply I].
Qed.

Lemma log_complete_witness : exists s segments, run segment_new true example_ops (start 10 10) = Some (Done, s) /\
  records_of 7 (log s ++ concat segments) = [a_log_record 1 7 3000; a_log_record 1 7 3000; a_log_record 3 7 72].
Proof.
  destruct example_spec as (a & st & E & _). destruct example_run as [s Hs]. exists s, (s_queue a). split; [exact Hs|].
  destruct (log_complete segment_new 10 10 example_ops a s (s_queue a) segment_new_ok small_limit small_limit example_begun E Hs (example_queue a s E Hs) 7) as [H7 _].
  rewrite (H7 (a_log_record 3 7 72)); [reflexivity|]. unfold example_ops. do 10 right. left.
Defined.


(** ** Where the buffers fail *)

(** Going on after exceptions. *)
Fixpoint continue (os : list op) (s : system) : option (list outcome * system) :=
  match os with
  | [] => Some ([], s)
  | o :: rest => '(res, s) ← exec segment_new true o s; '(ress, s) ← continue rest s; Some (res :: ress, s)
  end.

(** A full segment is handed to the log, and the pool has no other one. *)
Definition failing_ops : list op :=
  [OBegin 7; OUndo 7 (an_insert 7); OStage 7 (a_log_record 1 7 3000); OStage 7 (a_log_record 1 7 3000); OAbort 7 (a_log_record 4 7 32);
   OSerialize; OSerialize; OBegin 8; OBegin 9; OUndo 8 (an_insert 8); OUndo 9 (an_insert 9)].

(** When the pool throws after the full segment was handed over, the redo buffer still
    has it: aborting then overwrites the staged records with the abort record and hands
    the segment over again, it is released twice, and two transactions get it: the undo
    buffer of one has the other's record. *)
Lemma exception_shares_segment :
  ('(ress, s) ← continue failing_ops (start 2 10); t ← txns s !! 8; rs ← undo_iterate (undo_ t) (mem s) 1 undo_begin; Some (ress, log s, rs)) =
  Some ([Done; Done; Done; Thrown (ObjectPool.NoMoreObjectException 2); Done; Done; Done; Done; Done; Done; Done],
        [a_log_record 4 7 32; a_log_record 4 7 32], [an_insert 9]).
Proof. vm_compute. reflexivity. Qed.

(** A row of 190 variable-length columns, which a table may have, does not fit into a
    segment: staging its insertion fails. *)
Definition wide_row : ProjectedRowInitializer.ProjectedRowInitializer := ProjectedRowInitializer.make (replicate 190 16) (Z.of_nat <$> seq 1 190).

Lemma wide_row_does_not_fit : BUFFER_SEGMENT_SIZE < LogRecord.RedoRecord_Size wide_row /\
  RedoBuffer_NewEntry segment_new true (LogRecord.RedoRecord_Size wide_row) (Redo false None None) (ObjectPool.make 10 10) ∅ [] = None.
Proof. vm_compute. split; reflexivity. Qed.
