(* ===== verification/Tokens.v ===== *)
(** * Tokens of TPL

    [execution/parsing/token.h]: the token types in the order of the
    enumeration (the comparison operators are a range of it), their spelling and
    their precedence as binary operators. *)
From stdpp Require Export strings.
From S2P Require Import Prelude.

Module Token.

Inductive Type_ :=
  | LEFT_PAREN | RIGHT_PAREN | LEFT_BRACE | RIGHT_BRACE | LEFT_BRACKET | RIGHT_BRACKET
  | ARROW | BANG | BIT_NOT | COLON | DOT | SEMI | AT | EQUAL | COMMA | OR | AND | BIT_OR
  | BIT_XOR | AMPERSAND | PLUS | MINUS | STAR | SLASH | PERCENT | BANG_EQUAL
  | EQUAL_EQUAL | GREATER | GREATER_EQUAL | LESS | LESS_EQUAL | IDENTIFIER
  | BUILTIN_IDENTIFIER | INTEGER | FLOAT | STRING | ELSE | FALSE | FOR | FUN | IF | IN
  | MAP | NIL | RETURN | STRUCT | TRUE | VAR | UNINIITIALIZED | WHITESPACE | ERROR | EOS.

(** The position of a token in the enumeration. *)
Definition index (t : Type_) : nat :=
  match t with
  | LEFT_PAREN => 0 | RIGHT_PAREN => 1 | LEFT_BRACE => 2 | RIGHT_BRACE => 3
  | LEFT_BRACKET => 4 | RIGHT_BRACKET => 5 | ARROW => 6 | BANG => 7 | BIT_NOT => 8
  | COLON => 9 | DOT => 10 | SEMI => 11 | AT => 12 | EQUAL => 13 | COMMA => 14
  | OR => 15 | AND => 16 | BIT_OR => 17 | BIT_XOR => 18 | AMPERSAND => 19 | PLUS => 20
  | MINUS => 21 | STAR => 22 | SLASH => 23 | PERCENT => 24 | BANG_EQUAL => 25
  | EQUAL_EQUAL => 26 | GREATER => 27 | GREATER_EQUAL => 28 | LESS => 29
  | LESS_EQUAL => 30 | IDENTIFIER => 31 | BUILTIN_IDENTIFIER => 32 | INTEGER => 33
  | FLOAT => 34 | STRING => 35 | ELSE => 36 | FALSE => 37 | FOR => 38 | FUN => 39
  | IF => 40 | IN => 41 | MAP => 42 | NIL => 43 | RETURN => 44 | STRUCT => 45
  | TRUE => 46 | VAR => 47 | UNINIITIALIZED => 48 | WHITESPACE => 49 | ERROR => 50
  | EOS => 51
  end%nat.

#[global] Instance Type_eq_dec : EqDecision Type_.
Proof.
  refine (fun a b => cast_if (decide (index a = index b))).
  - destruct a, b; first [reflexivity | discriminate].
  - congruence.
Defined.

(** [K_TOKEN_PRECEDENCE]. *)
Definition GetPrecedence (t : Type_) : nat :=
  match t with
  | COMMA => 1 | OR => 3 | AND => 4 | BIT_OR => 6 | BIT_XOR => 7 | AMPERSAND => 8
  | PLUS => 9 | MINUS => 9 | STAR => 10 | SLASH => 10 | PERCENT => 10 | BANG_EQUAL => 5
  | EQUAL_EQUAL => 5 | GREATER => 6 | GREATER_EQUAL => 6 | LESS => 6 | LESS_EQUAL => 6
  | _ => 0
  end%nat.

Definition LowestPrecedence : nat := 0%nat.

(** [k_token_strings]; [nullptr] is [None]. *)
Definition GetString (t : Type_) : option string :=
  match t with
  | LEFT_PAREN => Some "(" | RIGHT_PAREN => Some ")" | LEFT_BRACE => Some "{"
  | RIGHT_BRACE => Some "}" | LEFT_BRACKET => Some "[" | RIGHT_BRACKET => Some "]"
  | ARROW => Some "->" | BANG => Some "!" | BIT_NOT => Some "~" | COLON => Some ":"
  | DOT => Some "." | SEMI => Some ";" | AT => Some "@" | EQUAL => Some "="
  | COMMA => Some "," | OR => Some "or" | AND => Some "and" | BIT_OR => Some "|"
  | BIT_XOR => Some "^" | AMPERSAND => Some "&" | PLUS => Some "+" | MINUS => Some "-"
  | STAR => Some "*" | SLASH => Some "/" | PERCENT => Some "%" | BANG_EQUAL => Some "!="
  | EQUAL_EQUAL => Some "==" | GREATER => Some ">" | GREATER_EQUAL => Some ">="
  | LESS => Some "<" | LESS_EQUAL => Some "<=" | IDENTIFIER => Some "[ident]"
  | BUILTIN_IDENTIFIER => Some "@[ident]" | INTEGER => Some "num"
  | FLOAT => Some "float" | STRING => Some "str" | ELSE => Some "else"
  | FALSE => Some "false" | FOR => Some "for" | FUN => Some "fun" | IF => Some "if"
  | IN => Some "in" | MAP => Some "map" | NIL => Some "nil" | RETURN => Some "return"
  | STRUCT => Some "struct" | TRUE => Some "true" | VAR => Some "var"
  | ERROR => Some "error" | EOS => Some "eos"
  | _ => None
  end.

Definition IsCompareOp (op : Type_) : bool :=
  bool_decide (index BANG_EQUAL <= index op /\ index op <= index LESS_EQUAL)%nat.

Definition IsCallOrMemberOrIndex (op : Type_) : bool :=
  bool_decide (op = LEFT_PAREN \/ op = DOT \/ op = LEFT_BRACKET).

Definition IsEqualityOp (op : Type_) : bool :=
  bool_decide (op = BANG_EQUAL \/ op = EQUAL_EQUAL).

End Token.
