(* ===== verification/TplTypes.v ===== *)
(** * The types of TPL

    [execution/ast/type.h], [type.cpp], [builtins.h] and the type tables of
    [context.cpp]: the builtin kinds and functions with their names, the type
    terms, the predicates the type checker asks of them, and the layout of
    struct types.

    A type is created once per [Context] and looked up afterwards
    ([PointerType::Get], [ArrayType::Get], ...: a hash table per constructor
    whose key is the constructor's arguments), so two types are the same object
    exactly when they are the same term; pointer equality of types is equality
    here.  An [Identifier] is an interned string compared by its pointer; the
    null identifier, which [GetIdentifier] returns for an empty string, is the
    empty string. *)
From stdpp Require Export strings.
From S2P Require Import Prelude.

Definition Identifier := string.

(** ** Builtin types *)

Module BuiltinType.

(** [BuiltinType::Kind], the list [BUILTIN_TYPE_LIST] in its order. *)
Inductive Kind :=
  | Nil | Bool | Int8 | Int16 | Int32 | Int64 | Uint8 | Uint16 | Uint32 | Uint64
  | Int128 | Uint128 | Float32 | Float64 | AggregationHashTable
  | AggregationHashTableIterator | AggOverflowPartIter | BloomFilter | ExecutionContext
  | FilterManager | HashTableEntry | JoinHashTable | JoinHashTableVectorProbe
  | JoinHashTableIterator | MemoryPool | Sorter | SorterIterator | TableVectorIterator
  | ThreadStateContainer | ProjectedColumnsIterator | IndexIterator | CountAggregate
  | CountStarAggregate | IntegerAvgAggregate | IntegerMaxAggregate | IntegerMinAggregate
  | IntegerSumAggregate | RealAvgAggregate | RealMaxAggregate | RealMinAggregate
  | RealSumAggregate | ProjectedRow | TupleSlot | StorageInterface | Boolean | Integer
  | Real | Decimal | StringVal | Date | Timestamp.

(** The position of a kind in the enumeration: the range tests of the code
    compare these numbers. *)
Definition index (k : Kind) : nat :=
  match k with
  | Nil => 0 | Bool => 1 | Int8 => 2 | Int16 => 3 | Int32 => 4 | Int64 => 5 | Uint8 => 6
  | Uint16 => 7 | Uint32 => 8 | Uint64 => 9 | Int128 => 10 | Uint128 => 11
  | Float32 => 12 | Float64 => 13 | AggregationHashTable => 14
  | AggregationHashTableIterator => 15 | AggOverflowPartIter => 16 | BloomFilter => 17
  | ExecutionContext => 18 | FilterManager => 19 | HashTableEntry => 20
  | JoinHashTable => 21 | JoinHashTableVectorProbe => 22 | JoinHashTableIterator => 23
  | MemoryPool => 24 | Sorter => 25 | SorterIterator => 26 | TableVectorIterator => 27
  | ThreadStateContainer => 28 | ProjectedColumnsIterator => 29 | IndexIterator => 30
  | CountAggregate => 31 | CountStarAggregate => 32 | IntegerAvgAggregate => 33
  | IntegerMaxAggregate => 34 | IntegerMinAggregate => 35 | IntegerSumAggregate => 36
  | RealAvgAggregate => 37 | RealMaxAggregate => 38 | RealMinAggregate => 39
  | RealSumAggregate => 40 | ProjectedRow => 41 | TupleSlot => 42
  | StorageInterface => 43 | Boolean => 44 | Integer => 45 | Real => 46 | Decimal => 47
  | StringVal => 48 | Date => 49 | Timestamp => 50
  end%nat.

(** [tpl_names]: primitive types carry a name of their own, the others the
    name of their kind. *)
Definition TplName (k : Kind) : string :=
  match k with
  | Nil => "nil" | Bool => "bool" | Int8 => "int8" | Int16 => "int16" | Int32 => "int32"
  | Int64 => "int64" | Uint8 => "uint8" | Uint16 => "uint16" | Uint32 => "uint32"
  | Uint64 => "uint64" | Int128 => "int128" | Uint128 => "uint128"
  | Float32 => "float32" | Float64 => "float64"
  | AggregationHashTable => "AggregationHashTable"
  | AggregationHashTableIterator => "AggregationHashTableIterator"
  | AggOverflowPartIter => "AggOverflowPartIter" | BloomFilter => "BloomFilter"
  | ExecutionContext => "ExecutionContext" | FilterManager => "FilterManager"
  | HashTableEntry => "HashTableEntry" | JoinHashTable => "JoinHashTable"
  | JoinHashTableVectorProbe => "JoinHashTableVectorProbe"
  | JoinHashTableIterator => "JoinHashTableIterator" | MemoryPool => "MemoryPool"
  | Sorter => "Sorter" | SorterIterator => "SorterIterator"
  | TableVectorIterator => "TableVectorIterator"
  | ThreadStateContainer => "ThreadStateContainer"
  | ProjectedColumnsIterator => "ProjectedColumnsIterator"
  | IndexIterator => "IndexIterator" | CountAggregate => "CountAggregate"
  | CountStarAggregate => "CountStarAggregate"
  | IntegerAvgAggregate => "IntegerAvgAggregate"
  | IntegerMaxAggregate => "IntegerMaxAggregate"
  | IntegerMinAggregate => "IntegerMinAggregate"
  | IntegerSumAggregate => "IntegerSumAggregate"
  | RealAvgAggregate => "RealAvgAggregate" | RealMaxAggregate => "RealMaxAggregate"
  | RealMinAggregate => "RealMinAggregate" | RealSumAggregate => "RealSumAggregate"
  | ProjectedRow => "ProjectedRow" | TupleSlot => "TupleSlot"
  | StorageInterface => "StorageInterface" | Boolean => "Boolean" | Integer => "Integer"
  | Real => "Real" | Decimal => "Decimal" | StringVal => "StringVal" | Date => "Date"
  | Timestamp => "Timestamp"
  end.

Definition all : list Kind :=
  [Nil; Bool; Int8; Int16; Int32; Int64; Uint8; Uint16; Uint32; Uint64; Int128; Uint128;
  Float32; Float64; AggregationHashTable; AggregationHashTableIterator;
  AggOverflowPartIter; BloomFilter; ExecutionContext; FilterManager; HashTableEntry;
  JoinHashTable; JoinHashTableVectorProbe; JoinHashTableIterator; MemoryPool; Sorter;
  SorterIterator; TableVectorIterator; ThreadStateContainer; ProjectedColumnsIterator;
  IndexIterator; CountAggregate; CountStarAggregate; IntegerAvgAggregate;
  IntegerMaxAggregate; IntegerMinAggregate; IntegerSumAggregate; RealAvgAggregate;
  RealMaxAggregate; RealMinAggregate; RealSumAggregate; ProjectedRow; TupleSlot;
  StorageInterface; Boolean; Integer; Real; Decimal; StringVal; Date; Timestamp].

#[global] Instance Kind_eq_dec : EqDecision Kind.
Proof.
  refine (fun a b => cast_if (decide (index a = index b))).
  - destruct a, b; first [reflexivity | discriminate].
  - congruence.
Defined.

(** [IsInteger], [IsFloatingPoint], [IsSqlValue], [IsSqlAggregatorType] of
    [BuiltinType].  [FLOATING_POINT_FLAGS] is [std::is_floating_point_v] of the
    C++ type. *)
Definition IsInteger (k : Kind) : bool :=
  bool_decide (index Int8 <= index k /\ index k <= index Uint128)%nat.

Definition IsFloatingPoint (k : Kind) : bool :=
  match k with Float32 | Float64 => true | _ => false end.

Definition IsSqlValue (k : Kind) : bool :=
  bool_decide (index Boolean <= index k /\ index k <= index Timestamp)%nat.

Definition IsSqlAggregator (k : Kind) : bool :=
  bool_decide (index CountAggregate <= index k /\ index k <= index RealSumAggregate)%nat.

(** [Size()] of an integer type, the size of its C++ type in bytes; the other
    kinds are C++ classes whose size is not part of the checker's logic. *)
Definition IntSize (k : Kind) : Z :=
  match k with
  | Int8 | Uint8 => 1 | Int16 | Uint16 => 2 | Int32 | Uint32 => 4
  | Int64 | Uint64 => 8 | Int128 | Uint128 => 16 | _ => 0
  end.

End BuiltinType.

(** ** Builtin functions *)

Module Builtins.

(** [Builtin], the list [BUILTINS_LIST] in its order. *)
Inductive Builtin :=
  | IntToSql | BoolToSql | FloatToSql | SqlToBool | StringToSql | VarlenToSql
  | DateToSql | TimestampToSql | TimestampToSqlHMSu | FilterEq | FilterGe | FilterGt
  | FilterLe | FilterLt | FilterNe | ExecutionContextGetMemoryPool
  | ThreadStateContainerInit | ThreadStateContainerReset | ThreadStateContainerIterate
  | ThreadStateContainerFree | TableIterInit | TableIterInitBind | TableIterAdvance
  | TableIterGetPCI | TableIterClose | TableIterReset | TableIterParallel
  | PCIIsFiltered | PCIHasNext | PCIHasNextFiltered | PCIAdvance | PCIAdvanceFiltered
  | PCIGetSlot | PCIMatch | PCIReset | PCIResetFiltered | PCIGetBool | PCIGetTinyInt
  | PCIGetSmallInt | PCIGetInt | PCIGetBigInt | PCIGetReal | PCIGetDouble | PCIGetDate
  | PCIGetTimestamp | PCIGetVarlen | PCIGetBoolNull | PCIGetTinyIntNull
  | PCIGetSmallIntNull | PCIGetIntNull | PCIGetBigIntNull | PCIGetRealNull
  | PCIGetDoubleNull | PCIGetDateNull | PCIGetTimestampNull | PCIGetVarlenNull | Hash
  | FilterManagerInit | FilterManagerInsertFilter | FilterManagerFinalize
  | FilterManagerRunFilters | FilterManagerFree | AggHashTableInit | AggHashTableInsert
  | AggHashTableLookup | AggHashTableProcessBatch | AggHashTableMovePartitions
  | AggHashTableParallelPartitionedScan | AggHashTableFree | AggHashTableIterInit
  | AggHashTableIterHasNext | AggHashTableIterNext | AggHashTableIterGetRow
  | AggHashTableIterClose | AggPartIterHasNext | AggPartIterNext | AggPartIterGetHash
  | AggPartIterGetRow | AggInit | AggAdvance | AggMerge | AggReset | AggResult
  | JoinHashTableInit | JoinHashTableInsert | JoinHashTableIterInit
  | JoinHashTableIterHasNext | JoinHashTableIterGetRow | JoinHashTableIterClose
  | JoinHashTableBuild | JoinHashTableBuildParallel | JoinHashTableFree | SorterInit
  | SorterInsert | SorterSort | SorterSortParallel | SorterSortTopKParallel | SorterFree
  | SorterIterInit | SorterIterHasNext | SorterIterNext | SorterIterGetRow
  | SorterIterClose | ACos | ASin | ATan | ATan2 | Cos | Cot | Sin | Tan | SizeOf
  | PtrCast | OutputAlloc | OutputFinalize | IndexIteratorInit | IndexIteratorInitBind
  | IndexIteratorScanKey | IndexIteratorScanAscending | IndexIteratorScanDescending
  | IndexIteratorScanLimitDescending | IndexIteratorAdvance | IndexIteratorGetPR
  | IndexIteratorGetLoPR | IndexIteratorGetHiPR | IndexIteratorGetSlot
  | IndexIteratorGetTablePR | IndexIteratorFree | PRSetBool | PRSetTinyInt
  | PRSetSmallInt | PRSetInt | PRSetBigInt | PRSetReal | PRSetDouble | PRSetDate
  | PRSetTimestamp | PRSetVarlen | PRSetBoolNull | PRSetTinyIntNull | PRSetSmallIntNull
  | PRSetIntNull | PRSetBigIntNull | PRSetRealNull | PRSetDoubleNull | PRSetDateNull
  | PRSetTimestampNull | PRSetVarlenNull | PRGetBool | PRGetTinyInt | PRGetSmallInt
  | PRGetInt | PRGetBigInt | PRGetReal | PRGetDouble | PRGetDate | PRGetTimestamp
  | PRGetVarlen | PRGetBoolNull | PRGetTinyIntNull | PRGetSmallIntNull | PRGetIntNull
  | PRGetBigIntNull | PRGetRealNull | PRGetDoubleNull | PRGetDateNull
  | PRGetTimestampNull | PRGetVarlenNull | StorageInterfaceInit
  | StorageInterfaceInitBind | GetTablePR | TableInsert | TableDelete | TableUpdate
  | GetIndexPR | GetIndexPRBind | IndexInsert | IndexInsertUnique | IndexDelete
  | StorageInterfaceFree | GetParamBool | GetParamTinyInt | GetParamSmallInt
  | GetParamInt | GetParamBigInt | GetParamReal | GetParamDouble | GetParamDate
  | GetParamTimestamp | GetParamString.

(** [Builtins::GetFunctionName]. *)
Definition GetFunctionName (b : Builtin) : string :=
  match b with
  | IntToSql => "intToSql" | BoolToSql => "boolToSql" | FloatToSql => "floatToSql"
  | SqlToBool => "sqlToBool" | StringToSql => "stringToSql"
  | VarlenToSql => "varlenToSql" | DateToSql => "dateToSql"
  | TimestampToSql => "timestampToSql" | TimestampToSqlHMSu => "timestampToSqlHMSu"
  | FilterEq => "filterEq" | FilterGe => "filterGe" | FilterGt => "filterGt"
  | FilterLe => "filterLe" | FilterLt => "filterLt" | FilterNe => "filterNe"
  | ExecutionContextGetMemoryPool => "execCtxGetMem"
  | ThreadStateContainerInit => "tlsInit" | ThreadStateContainerReset => "tlsReset"
  | ThreadStateContainerIterate => "tlsIterate" | ThreadStateContainerFree => "tlsFree"
  | TableIterInit => "tableIterInit" | TableIterInitBind => "tableIterInitBind"
  | TableIterAdvance => "tableIterAdvance" | TableIterGetPCI => "tableIterGetPCI"
  | TableIterClose => "tableIterClose" | TableIterReset => "tableIterReset"
  | TableIterParallel => "iterateTableParallel" | PCIIsFiltered => "pciIsFiltered"
  | PCIHasNext => "pciHasNext" | PCIHasNextFiltered => "pciHasNextFiltered"
  | PCIAdvance => "pciAdvance" | PCIAdvanceFiltered => "pciAdvanceFiltered"
  | PCIGetSlot => "pciGetSlot" | PCIMatch => "pciMatch" | PCIReset => "pciReset"
  | PCIResetFiltered => "pciResetFiltered" | PCIGetBool => "pciGetBool"
  | PCIGetTinyInt => "pciGetTinyInt" | PCIGetSmallInt => "pciGetSmallInt"
  | PCIGetInt => "pciGetInt" | PCIGetBigInt => "pciGetBigInt"
  | PCIGetReal => "pciGetReal" | PCIGetDouble => "pciGetDouble"
  | PCIGetDate => "pciGetDate" | PCIGetTimestamp => "pciGetTimestamp"
  | PCIGetVarlen => "pciGetVarlen" | PCIGetBoolNull => "pciGetBoolNull"
  | PCIGetTinyIntNull => "pciGetTinyIntNull"
  | PCIGetSmallIntNull => "pciGetSmallIntNull" | PCIGetIntNull => "pciGetIntNull"
  | PCIGetBigIntNull => "pciGetBigIntNull" | PCIGetRealNull => "pciGetRealNull"
  | PCIGetDoubleNull => "pciGetDoubleNull" | PCIGetDateNull => "pciGetDateNull"
  | PCIGetTimestampNull => "pciGetTimestampNull"
  | PCIGetVarlenNull => "pciGetVarlenNull" | Hash => "hash"
  | FilterManagerInit => "filterManagerInit"
  | FilterManagerInsertFilter => "filterManagerInsertFilter"
  | FilterManagerFinalize => "filterManagerFinalize"
  | FilterManagerRunFilters => "filtersRun" | FilterManagerFree => "filterManagerFree"
  | AggHashTableInit => "aggHTInit" | AggHashTableInsert => "aggHTInsert"
  | AggHashTableLookup => "aggHTLookup"
  | AggHashTableProcessBatch => "aggHTProcessBatch"
  | AggHashTableMovePartitions => "aggHTMoveParts"
  | AggHashTableParallelPartitionedScan => "aggHTParallelPartScan"
  | AggHashTableFree => "aggHTFree" | AggHashTableIterInit => "aggHTIterInit"
  | AggHashTableIterHasNext => "aggHTIterHasNext"
  | AggHashTableIterNext => "aggHTIterNext"
  | AggHashTableIterGetRow => "aggHTIterGetRow"
  | AggHashTableIterClose => "aggHTIterClose"
  | AggPartIterHasNext => "aggPartIterHasNext" | AggPartIterNext => "aggPartIterNext"
  | AggPartIterGetHash => "aggPartIterGetHash"
  | AggPartIterGetRow => "aggPartIterGetRow" | AggInit => "aggInit"
  | AggAdvance => "aggAdvance" | AggMerge => "aggMerge" | AggReset => "aggReset"
  | AggResult => "aggResult" | JoinHashTableInit => "joinHTInit"
  | JoinHashTableInsert => "joinHTInsert" | JoinHashTableIterInit => "joinHTIterInit"
  | JoinHashTableIterHasNext => "joinHTIterHasNext"
  | JoinHashTableIterGetRow => "joinHTIterGetRow"
  | JoinHashTableIterClose => "joinHTIterClose" | JoinHashTableBuild => "joinHTBuild"
  | JoinHashTableBuildParallel => "joinHTBuildParallel"
  | JoinHashTableFree => "joinHTFree" | SorterInit => "sorterInit"
  | SorterInsert => "sorterInsert" | SorterSort => "sorterSort"
  | SorterSortParallel => "sorterSortParallel"
  | SorterSortTopKParallel => "sorterSortTopKParallel" | SorterFree => "sorterFree"
  | SorterIterInit => "sorterIterInit" | SorterIterHasNext => "sorterIterHasNext"
  | SorterIterNext => "sorterIterNext" | SorterIterGetRow => "sorterIterGetRow"
  | SorterIterClose => "sorterIterClose" | ACos => "acos" | ASin => "asin"
  | ATan => "atan" | ATan2 => "atan2" | Cos => "cos" | Cot => "cot" | Sin => "sin"
  | Tan => "tan" | SizeOf => "sizeOf" | PtrCast => "ptrCast"
  | OutputAlloc => "outputAlloc" | OutputFinalize => "outputFinalize"
  | IndexIteratorInit => "indexIteratorInit"
  | IndexIteratorInitBind => "indexIteratorInitBind"
  | IndexIteratorScanKey => "indexIteratorScanKey"
  | IndexIteratorScanAscending => "indexIteratorScanAscending"
  | IndexIteratorScanDescending => "indexIteratorScanDescending"
  | IndexIteratorScanLimitDescending => "indexIteratorScanLimitDescending"
  | IndexIteratorAdvance => "indexIteratorAdvance"
  | IndexIteratorGetPR => "indexIteratorGetPR"
  | IndexIteratorGetLoPR => "indexIteratorGetLoPR"
  | IndexIteratorGetHiPR => "indexIteratorGetHiPR"
  | IndexIteratorGetSlot => "indexIteratorGetSlot"
  | IndexIteratorGetTablePR => "indexIteratorGetTablePR"
  | IndexIteratorFree => "indexIteratorFree" | PRSetBool => "prSetBool"
  | PRSetTinyInt => "prSetTinyInt" | PRSetSmallInt => "prSetSmallInt"
  | PRSetInt => "prSetInt" | PRSetBigInt => "prSetBigInt" | PRSetReal => "prSetReal"
  | PRSetDouble => "prSetDouble" | PRSetDate => "prSetDate"
  | PRSetTimestamp => "prSetTimestamp" | PRSetVarlen => "prSetVarlen"
  | PRSetBoolNull => "prSetBoolNull" | PRSetTinyIntNull => "prSetTinyIntNull"
  | PRSetSmallIntNull => "prSetSmallIntNull" | PRSetIntNull => "prSetIntNull"
  | PRSetBigIntNull => "prSetBigIntNull" | PRSetRealNull => "prSetRealNull"
  | PRSetDoubleNull => "prSetDoubleNull" | PRSetDateNull => "prSetDateNull"
  | PRSetTimestampNull => "prSetTimestampNull" | PRSetVarlenNull => "prSetVarlenNull"
  | PRGetBool => "prGetBool" | PRGetTinyInt => "prGetTinyInt"
  | PRGetSmallInt => "prGetSmallInt" | PRGetInt => "prGetInt"
  | PRGetBigInt => "prGetBigInt" | PRGetReal => "prGetReal"
  | PRGetDouble => "prGetDouble" | PRGetDate => "prGetDate"
  | PRGetTimestamp => "prGetTimestamp" | PRGetVarlen => "prGetVarlen"
  | PRGetBoolNull => "prGetBoolNull" | PRGetTinyIntNull => "prGetTinyIntNull"
  | PRGetSmallIntNull => "prGetSmallIntNull" | PRGetIntNull => "prGetIntNull"
  | PRGetBigIntNull => "prGetBigIntNull" | PRGetRealNull => "prGetRealNull"
  | PRGetDoubleNull => "prGetDoubleNull" | PRGetDateNull => "prGetDateNull"
  | PRGetTimestampNull => "prGetTimestampNull" | PRGetVarlenNull => "prGetVarlenNull"
  | StorageInterfaceInit => "storageInterfaceInit"
  | StorageInterfaceInitBind => "storageInterfaceInitBind" | GetTablePR => "getTablePR"
  | TableInsert => "tableInsert" | TableDelete => "tableDelete"
  | TableUpdate => "tableUpdate" | GetIndexPR => "getIndexPR"
  | GetIndexPRBind => "getIndexPRBind" | IndexInsert => "indexInsert"
  | IndexInsertUnique => "indexInsertUnique" | IndexDelete => "indexDelete"
  | StorageInterfaceFree => "storageInterfaceFree" | GetParamBool => "getParamBool"
  | GetParamTinyInt => "getParamTinyInt" | GetParamSmallInt => "getParamSmallInt"
  | GetParamInt => "getParamInt" | GetParamBigInt => "getParamBigInt"
  | GetParamReal => "getParamReal" | GetParamDouble => "getParamDouble"
  | GetParamDate => "getParamDate" | GetParamTimestamp => "getParamTimestamp"
  | GetParamString => "getParamString"
  end.

Definition builtins : list Builtin :=
  [IntToSql; BoolToSql; FloatToSql; SqlToBool; StringToSql; VarlenToSql; DateToSql;
  TimestampToSql; TimestampToSqlHMSu; FilterEq; FilterGe; FilterGt; FilterLe; FilterLt;
  FilterNe; ExecutionContextGetMemoryPool; ThreadStateContainerInit;
  ThreadStateContainerReset; ThreadStateContainerIterate; ThreadStateContainerFree;
  TableIterInit; TableIterInitBind; TableIterAdvance; TableIterGetPCI; TableIterClose;
  TableIterReset; TableIterParallel; PCIIsFiltered; PCIHasNext; PCIHasNextFiltered;
  PCIAdvance; PCIAdvanceFiltered; PCIGetSlot; PCIMatch; PCIReset; PCIResetFiltered;
  PCIGetBool; PCIGetTinyInt; PCIGetSmallInt; PCIGetInt; PCIGetBigInt; PCIGetReal;
  PCIGetDouble; PCIGetDate; PCIGetTimestamp; PCIGetVarlen; PCIGetBoolNull;
  PCIGetTinyIntNull; PCIGetSmallIntNull; PCIGetIntNull; PCIGetBigIntNull;
  PCIGetRealNull; PCIGetDoubleNull; PCIGetDateNull; PCIGetTimestampNull;
  PCIGetVarlenNull; Hash; FilterManagerInit; FilterManagerInsertFilter;
  FilterManagerFinalize; FilterManagerRunFilters; FilterManagerFree; AggHashTableInit;
  AggHashTableInsert; AggHashTableLookup; AggHashTableProcessBatch;
  AggHashTableMovePartitions; AggHashTableParallelPartitionedScan; AggHashTableFree;
  AggHashTableIterInit; AggHashTableIterHasNext; AggHashTableIterNext;
  AggHashTableIterGetRow; AggHashTableIterClose; AggPartIterHasNext; AggPartIterNext;
  AggPartIterGetHash; AggPartIterGetRow; AggInit; AggAdvance; AggMerge; AggReset;
  AggResult; JoinHashTableInit; JoinHashTableInsert; JoinHashTableIterInit;
  JoinHashTableIterHasNext; JoinHashTableIterGetRow; JoinHashTableIterClose;
  JoinHashTableBuild; JoinHashTableBuildParallel; JoinHashTableFree; SorterInit;
  SorterInsert; SorterSort; SorterSortParallel; SorterSortTopKParallel; SorterFree;
  SorterIterInit; SorterIterHasNext; SorterIterNext; SorterIterGetRow; SorterIterClose;
  ACos; ASin; ATan; ATan2; Cos; Cot; Sin; Tan; SizeOf; PtrCast; OutputAlloc;
  OutputFinalize; IndexIteratorInit; IndexIteratorInitBind; IndexIteratorScanKey;
  IndexIteratorScanAscending; IndexIteratorScanDescending;
  IndexIteratorScanLimitDescending; IndexIteratorAdvance; IndexIteratorGetPR;
  IndexIteratorGetLoPR; IndexIteratorGetHiPR; IndexIteratorGetSlot;
  IndexIteratorGetTablePR; IndexIteratorFree; PRSetBool; PRSetTinyInt; PRSetSmallInt;
  PRSetInt; PRSetBigInt; PRSetReal; PRSetDouble; PRSetDate; PRSetTimestamp; PRSetVarlen;
  PRSetBoolNull; PRSetTinyIntNull; PRSetSmallIntNull; PRSetIntNull; PRSetBigIntNull;
  PRSetRealNull; PRSetDoubleNull; PRSetDateNull; PRSetTimestampNull; PRSetVarlenNull;
  PRGetBool; PRGetTinyInt; PRGetSmallInt; PRGetInt; PRGetBigInt; PRGetReal; PRGetDouble;
  PRGetDate; PRGetTimestamp; PRGetVarlen; PRGetBoolNull; PRGetTinyIntNull;
  PRGetSmallIntNull; PRGetIntNull; PRGetBigIntNull; PRGetRealNull; PRGetDoubleNull;
  PRGetDateNull; PRGetTimestampNull; PRGetVarlenNull; StorageInterfaceInit;
  StorageInterfaceInitBind; GetTablePR; TableInsert; TableDelete; TableUpdate;
  GetIndexPR; GetIndexPRBind; IndexInsert; IndexInsertUnique; IndexDelete;
  StorageInterfaceFree; GetParamBool; GetParamTinyInt; GetParamSmallInt; GetParamInt;
  GetParamBigInt; GetParamReal; GetParamDouble; GetParamDate; GetParamTimestamp;
  GetParamString].

(** [Context::IsBuiltinFunction]: the table built from every builtin's name. *)
Definition IsBuiltinFunction (name : Identifier) : option Builtin :=
  snd <$> list_find (fun b => GetFunctionName b = name) builtins.

End Builtins.

#[global] Arguments Builtins.IsBuiltinFunction : simpl never.

(** No two builtins share a name: a builtin's name finds the builtin. *)
Lemma IsBuiltinFunction_name b :
  Builtins.IsBuiltinFunction (Builtins.GetFunctionName b) = Some b.
Proof. destruct b; vm_compute; reflexivity. Qed.

Lemma IsBuiltinFunction_Some name b :
  Builtins.IsBuiltinFunction name = Some b -> Builtins.GetFunctionName b = name.
Proof.
  unfold Builtins.IsBuiltinFunction. intros H.
  apply fmap_Some in H as ([i b'] & H & ->).
  by apply list_find_Some in H as (_ & H & _).
Qed.

#[global] Instance Builtin_eq_dec : EqDecision Builtins.Builtin.
Proof.
  refine (fun a b => cast_if (decide (Builtins.GetFunctionName a = Builtins.GetFunctionName b))).
  - pose proof (IsBuiltinFunction_name a). pose proof (IsBuiltinFunction_name b). congruence.
  - congruence.
Defined.

(** ** Type terms

    [TYPE_LIST]; a [Field] is a name with a type. *)

Inductive type :=
  | BuiltinTy (kind : BuiltinType.Kind)
  | StringType
  | PointerType (base : type)
  | ArrayType (length : Z) (elem : type)
  | MapType (key val : type)
  | StructType (fields : list (Identifier * type))
  | FunctionType (params : list (Identifier * type)) (ret : type).

Section type_ind.
Variable P : type -> Prop.
Hypothesis HB : forall k, P (BuiltinTy k).
Hypothesis HS : P StringType.
Hypothesis HP : forall t, P t -> P (PointerType t).
Hypothesis HA : forall n t, P t -> P (ArrayType n t).
Hypothesis HM : forall k v, P k -> P v -> P (MapType k v).
Hypothesis HT : forall fs, Forall (fun f => P (snd f)) fs -> P (StructType fs).
Hypothesis HF : forall ps r, Forall (fun f => P (snd f)) ps -> P r -> P (FunctionType ps r).

Fixpoint type_ind_nested (t : type) : P t :=
  let fix fields (l : list (Identifier * type)) : Forall (fun f => P (snd f)) l :=
    match l with
    | [] => Forall_nil_2 _
    | f :: l => Forall_cons_2 _ f l (type_ind_nested (snd f)) (fields l)
    end in
  match t with
  | BuiltinTy k => HB k
  | StringType => HS
  | PointerType t => HP t (type_ind_nested t)
  | ArrayType n t => HA n t (type_ind_nested t)
  | MapType k v => HM k v (type_ind_nested k) (type_ind_nested v)
  | StructType fs => HT fs (fields fs)
  | FunctionType ps r => HF ps r (fields ps) (type_ind_nested r)
  end.
End type_ind.

Fixpoint type_eqb (t u : type) : bool :=
  let fix fields_eqb (l m : list (Identifier * type)) : bool :=
    match l, m with
    | [], [] => true
    | (x, a) :: l, (y, b) :: m => bool_decide (x = y) && type_eqb a b && fields_eqb l m
    | _, _ => false
    end in
  match t, u with
  | BuiltinTy k, BuiltinTy k' => bool_decide (k = k')
  | StringType, StringType => true
  | PointerType t, PointerType u => type_eqb t u
  | ArrayType n t, ArrayType m u => bool_decide (n = m) && type_eqb t u
  | MapType k v, MapType k' v' => type_eqb k k' && type_eqb v v'
  | StructType fs, StructType gs => fields_eqb fs gs
  | FunctionType ps r, FunctionType qs s => fields_eqb ps qs && type_eqb r s
  | _, _ => false
  end.

Fixpoint fields_eqb (l m : list (Identifier * type)) : bool :=
  match l, m with
  | [], [] => true
  | (x, a) :: l, (y, b) :: m => bool_decide (x = y) && type_eqb a b && fields_eqb l m
  | _, _ => false
  end.

Lemma type_eqb_struct fs gs : type_eqb (StructType fs) (StructType gs) = fields_eqb fs gs.
Proof. reflexivity. Qed.

Lemma type_eqb_function ps qs r s :
  type_eqb (FunctionType ps r) (FunctionType qs s) = fields_eqb ps qs && type_eqb r s.
Proof. reflexivity. Qed.

Lemma fields_eqb_spec fs :
  Forall (fun f => forall u, type_eqb (snd f) u = true <-> snd f = u) fs ->
  forall gs, fields_eqb fs gs = true <-> fs = gs.
Proof.
  induction 1 as [|[x a] fs Ha _ IH]; intros [|[y b] gs]; cbn in *; try done.
  rewrite !andb_true_iff, bool_decide_eq_true, Ha, IH. naive_solver.
Qed.

Lemma type_eqb_spec t u : type_eqb t u = true <-> t = u.
Proof.
  revert u. induction t using type_ind_nested; intros u.
  6: { destruct u; try done. rewrite type_eqb_struct, fields_eqb_spec by done. naive_solver. }
  6: { destruct u; try done.
       rewrite type_eqb_function, andb_true_iff, fields_eqb_spec, IHt by done. naive_solver. }
  all: destruct u; cbn; try done;
    rewrite ?andb_true_iff, ?bool_decide_eq_true, ?IHt, ?IHt1, ?IHt2; naive_solver.
Qed.

#[global] Instance type_eq_dec : EqDecision type.
Proof.
  refine (fun t u => cast_if (decide (type_eqb t u = true))); by rewrite <-type_eqb_spec.
Defined.

(** [Context::LookupBuiltinType]: the kinds by their TPL name, then the aliases
    ([builtin_types_] is filled in this order, and no name repeats). *)
Definition builtin_types : list (Identifier * type) :=
  map (fun k => (BuiltinType.TplName k, BuiltinTy k)) BuiltinType.all ++
  [("int", BuiltinTy BuiltinType.Int32); ("float", BuiltinTy BuiltinType.Float32);
   ("void", BuiltinTy BuiltinType.Nil)].

Definition LookupBuiltinType (name : Identifier) : option type :=
  (fun p => snd (snd p)) <$> list_find (fun p => fst p = name) builtin_types.

#[global] Arguments LookupBuiltinType : simpl never.

Lemma builtin_types_names : NoDup (fst <$> builtin_types).
Proof. apply (bool_decide_eq_true_1 _). vm_compute. reflexivity. Qed.

(** ** The predicates of [Type] *)

Definition GetPointeeType (t : type) : option type :=
  match t with PointerType b => Some b | _ => None end.

Definition IsSpecificBuiltin (t : type) (k : BuiltinType.Kind) : bool :=
  match t with BuiltinTy k' => bool_decide (k' = k) | _ => false end.

Definition IsNilType (t : type) : bool := IsSpecificBuiltin t BuiltinType.Nil.
Definition IsBoolType (t : type) : bool := IsSpecificBuiltin t BuiltinType.Bool.

Definition IsIntegerType (t : type) : bool :=
  match t with BuiltinTy k => BuiltinType.IsInteger k | _ => false end.

Definition IsFloatType (t : type) : bool :=
  match t with BuiltinTy k => BuiltinType.IsFloatingPoint k | _ => false end.

Definition IsSqlValueType (t : type) : bool :=
  match t with BuiltinTy k => BuiltinType.IsSqlValue k | _ => false end.

Definition IsSqlAggregatorType (t : type) : bool :=
  match t with BuiltinTy k => BuiltinType.IsSqlAggregator k | _ => false end.

Definition IsArithmetic (t : type) : bool :=
  IsIntegerType t || IsFloatType t || IsSpecificBuiltin t BuiltinType.Integer ||
  IsSpecificBuiltin t BuiltinType.Real || IsSpecificBuiltin t BuiltinType.Decimal.

Definition IsPointerType (t : type) : bool :=
  match t with PointerType _ => true | _ => false end.
Definition IsArrayType (t : type) : bool :=
  match t with ArrayType _ _ => true | _ => false end.
Definition IsMapType (t : type) : bool :=
  match t with MapType _ _ => true | _ => false end.
Definition IsStructType (t : type) : bool :=
  match t with StructType _ => true | _ => false end.
Definition IsFunctionType (t : type) : bool :=
  match t with FunctionType _ _ => true | _ => false end.
Definition IsStringType (t : type) : bool :=
  match t with StringType => true | _ => false end.

Definition HasKnownLength (length : Z) : bool := bool_decide (length <> 0).
Definition HasUnknownLength (length : Z) : bool := negb (HasKnownLength length).

(** [StructType::LookupFieldByName]: the first field of that name. *)
Fixpoint LookupFieldByName (fields : list (Identifier * type)) (name : Identifier)
    : option type :=
  match fields with
  | [] => None
  | (x, t) :: fields => if decide (x = name) then Some t else LookupFieldByName fields name
  end.

(** [Type::Size] where the checker compares sizes: both types are integers. *)
Definition IntTypeSize (t : type) : Z :=
  match t with BuiltinTy k => BuiltinType.IntSize k | _ => 0 end.
