(* ===== verification/TplAst.v ===== *)
(** * The syntax trees of TPL

    [execution/ast/ast.h] and [ast.cpp]: expressions, statements and
    declarations, with the type the checker stores in an expression
    ([Expr::type_], [None] for the null pointer a fresh node has).  Source
    positions, which only messages show, are left out.  A node that must have a
    child but got none from a failed parse has [NullExpr] there; an optional
    child is an [option].  A [BlockStmt *] is its list of statements.  The double
    of a float literal is kept as the digits [strtod] reads it from. *)
From S2P Require Import Prelude Tokens TplTypes.

Inductive CallKind := Regular | BuiltinCall.

Inductive CastKind :=
  | IntToSqlInt | IntToSqlDecimal | SqlBoolToBool | BoolToSqlBool | IntegralCast
  | IntToFloat | FloatToInt | BitCast | FloatToSqlReal | SqlTimestampToTimestamp
  | TimestampToSqlTimestamp.

Inductive literal :=
  | LitNil | LitBool (b : bool) | LitInt (z : Z) | LitFloat (digits : string)
  | LitString (s : Identifier).

Inductive expr :=
  | NullExpr
  | Expr (type_ : option type) (node : expr_node)
with expr_node :=
  | BadExpr
  | BinaryOpExpr (op : Token.Type_) (left right : expr)
  | CallExpr (func : expr) (args : list expr) (call_kind : CallKind)
  | ComparisonOpExpr (op : Token.Type_) (left right : expr)
  | FunctionLitExpr (type_repr : expr) (body : list stmt)
  | IdentifierExpr (name : Identifier)
  | ImplicitCastExpr (cast_kind : CastKind) (input : expr)
  | IndexExpr (obj index : expr)
  | LitExpr (lit : literal)
  | MemberExpr (object member : expr)
  | UnaryOpExpr (op : Token.Type_) (e : expr)
  | ArrayTypeRepr (len : option expr) (elem_type : expr)
  | FunctionTypeRepr (params : list field_decl) (ret_type : expr)
  | MapTypeRepr (key val : expr)
  | PointerTypeRepr (base : expr)
  | StructTypeRepr (fields : list field_decl)
with field_decl :=
  | FieldDecl (name : Identifier) (type_repr : expr)
with stmt :=
  | AssignmentStmt (dest src : expr)
  | BlockStmt (statements : list stmt)
  | DeclStmt (d : decl)
  | ExpressionStmt (e : expr)
  | ForStmt (init : option stmt) (cond : option expr) (next : option stmt) (body : list stmt)
  | ForInStmt (target iter : expr) (body : list stmt)
  | IfStmt (cond : expr) (then_stmt : list stmt) (else_stmt : option stmt)
  | ReturnStmt (ret : option expr)
with decl :=
  | FunctionDecl (name : Identifier) (func : expr)
  | StructDecl (name : Identifier) (type_repr : expr)
  | VariableDecl (name : Identifier) (type_repr init : option expr).

(** [ast::File]. *)
Definition file := list decl.

(** The nodes [AstNodeFactory] creates: no type yet, except for a cast, which is
    created with its target type. *)
Definition NewExpr (n : expr_node) : expr := Expr None n.
Definition NewImplicitCastExpr (k : CastKind) (target : type) (input : expr) : expr :=
  Expr (Some target) (ImplicitCastExpr k input).

Definition GetType (e : expr) : option type :=
  match e with NullExpr => None | Expr t _ => t end.
Arguments GetType !e /.

(** [FieldDecl]'s [Name] and [TypeRepr]. *)
Definition field_name (f : field_decl) : Identifier := match f with FieldDecl x _ => x end.
Definition field_repr (f : field_decl) : expr := match f with FieldDecl _ e => e end.

Definition IsIntegerLiteral (e : expr) : bool :=
  match e with Expr _ (LitExpr (LitInt _)) => true | _ => false end.

Definition IsStringLiteral (e : expr) : bool :=
  match e with Expr _ (LitExpr (LitString _)) => true | _ => false end.

Definition IsNilLiteral (e : expr) : bool :=
  match e with Expr _ (LitExpr LitNil) => true | _ => false end.

(** [Stmt::IsTerminating].  A block asks its last statement; [back()] of an empty
    vector is undefined behaviour, [None] here. *)
Fixpoint IsTerminating (s : stmt) : option bool :=
  let fix back (l : list stmt) : option bool :=
    match l with
    | [] => None
    | [s] => IsTerminating s
    | _ :: l => back l
    end in
  match s with
  | BlockStmt l => back l
  | IfStmt _ t (Some e) =>
      match back t with
      | Some true => IsTerminating e
      | r => r
      end
  | IfStmt _ _ None => Some false
  | ReturnStmt _ => Some true
  | _ => Some false
  end.

(** [IsTerminating] of a block given by its statements. *)
Definition BlockTerminating (l : list stmt) : option bool := IsTerminating (BlockStmt l).

(** ** Induction over trees

    The trees are nested in lists and options; the principle gives the
    hypothesis for every node of a list. *)

Section ast_ind.
Variables (P : expr -> Prop) (F : field_decl -> Prop) (S : stmt -> Prop) (D : decl -> Prop).

Definition on_option {A} (Q : A -> Prop) (o : option A) : Prop :=
  match o with Some x => Q x | None => True end.

(** An argument of a call and, for [*e], its operand: [@ptrCast] reads [*e] as a
    type. *)
Definition with_operand (e : expr) : Prop :=
  P e /\ match e with Expr _ (UnaryOpExpr _ b) => P b | _ => True end.

(** A function type and its parts, which the checker declares. *)
Definition with_signature (e : expr) : Prop :=
  P e /\ match e with Expr _ (FunctionTypeRepr fs r) => Forall F fs /\ P r | _ => True end.

Hypothesis HNull : P NullExpr.
Hypothesis HBad : forall t, P (Expr t BadExpr).
Hypothesis HBin : forall t op l r, P l -> P r -> P (Expr t (BinaryOpExpr op l r)).
Hypothesis HCall : forall t f args k,
  P f -> Forall with_operand args -> P (Expr t (CallExpr f args k)).
Hypothesis HCmp : forall t op l r, P l -> P r -> P (Expr t (ComparisonOpExpr op l r)).
Hypothesis HLam : forall t tr b,
  with_signature tr -> Forall S b -> P (Expr t (FunctionLitExpr tr b)).
Hypothesis HIdent : forall t x, P (Expr t (IdentifierExpr x)).
Hypothesis HCast : forall t k e, P e -> P (Expr t (ImplicitCastExpr k e)).
Hypothesis HIndex : forall t o i, P o -> P i -> P (Expr t (IndexExpr o i)).
Hypothesis HLit : forall t l, P (Expr t (LitExpr l)).
Hypothesis HMember : forall t o m, P o -> P m -> P (Expr t (MemberExpr o m)).
Hypothesis HUnary : forall t op e, P e -> P (Expr t (UnaryOpExpr op e)).
Hypothesis HArray : forall t n e, on_option P n -> P e -> P (Expr t (ArrayTypeRepr n e)).
Hypothesis HFun : forall t ps r, Forall F ps -> P r -> P (Expr t (FunctionTypeRepr ps r)).
Hypothesis HMap : forall t k v, P k -> P v -> P (Expr t (MapTypeRepr k v)).
Hypothesis HPtr : forall t b, P b -> P (Expr t (PointerTypeRepr b)).
Hypothesis HStruct : forall t fs, Forall F fs -> P (Expr t (StructTypeRepr fs)).
Hypothesis HField : forall x e, P e -> F (FieldDecl x e).
Hypothesis HAssign : forall d s, P d -> P s -> S (AssignmentStmt d s).
Hypothesis HBlock : forall l, Forall S l -> S (BlockStmt l).
Hypothesis HDecl : forall d, D d -> S (DeclStmt d).
Hypothesis HExpr : forall e, P e -> S (ExpressionStmt e).
Hypothesis HFor : forall i c n b,
  on_option S i -> on_option P c -> on_option S n -> Forall S b -> S (ForStmt i c n b).
Hypothesis HForIn : forall t i b, P t -> P i -> Forall S b -> S (ForInStmt t i b).
Hypothesis HIf : forall c t e, P c -> Forall S t -> on_option S e -> S (IfStmt c t e).
Hypothesis HRet : forall r, on_option P r -> S (ReturnStmt r).
Hypothesis HFunDecl : forall x f,
  P f -> match f with Expr _ (FunctionLitExpr tr b) => with_signature tr /\ Forall S b | _ => True end ->
  D (FunctionDecl x f).
Hypothesis HStructDecl : forall x e, P e -> D (StructDecl x e).
Hypothesis HVarDecl : forall x t i, on_option P t -> on_option P i -> D (VariableDecl x t i).

Fixpoint expr_rect_ (e : expr) : P e :=
  let exprs := fix exprs (l : list expr) : Forall with_operand l :=
    match l with
    | [] => Forall_nil_2 _
    | e :: l =>
        Forall_cons_2 _ e l
          (conj (expr_rect_ e)
             (match e return match e with Expr _ (UnaryOpExpr _ b) => P b | _ => True end
              with Expr _ (UnaryOpExpr _ b) => expr_rect_ b | _ => Logic.I end))
          (exprs l)
    end in
  let fields := fix fields (l : list field_decl) : Forall F l :=
    match l with
    | [] => Forall_nil_2 _
    | f :: l => Forall_cons_2 _ f l (field_rect_ f) (fields l)
    end in
  let stmts := fix stmts (l : list stmt) : Forall S l :=
    match l with
    | [] => Forall_nil_2 _
    | s :: l => Forall_cons_2 _ s l (stmt_rect_ s) (stmts l)
    end in
  match e with
  | NullExpr => HNull
  | Expr t BadExpr => HBad t
  | Expr t (BinaryOpExpr op l r) => HBin t op l r (expr_rect_ l) (expr_rect_ r)
  | Expr t (CallExpr f args k) => HCall t f args k (expr_rect_ f) (exprs args)
  | Expr t (ComparisonOpExpr op l r) => HCmp t op l r (expr_rect_ l) (expr_rect_ r)
  | Expr t (FunctionLitExpr tr b) =>
      HLam t tr b
        (conj (expr_rect_ tr)
           (match tr return match tr with
                            | Expr _ (FunctionTypeRepr fs r) => Forall F fs /\ P r
                            | _ => True end
            with
            | Expr _ (FunctionTypeRepr fs r) => conj (fields fs) (expr_rect_ r)
            | _ => Logic.I
            end))
        (stmts b)
  | Expr t (IdentifierExpr x) => HIdent t x
  | Expr t (ImplicitCastExpr k e) => HCast t k e (expr_rect_ e)
  | Expr t (IndexExpr o i) => HIndex t o i (expr_rect_ o) (expr_rect_ i)
  | Expr t (LitExpr l) => HLit t l
  | Expr t (MemberExpr o m) => HMember t o m (expr_rect_ o) (expr_rect_ m)
  | Expr t (UnaryOpExpr op e) => HUnary t op e (expr_rect_ e)
  | Expr t (ArrayTypeRepr n e) =>
      HArray t n e
        (match n return on_option P n with Some x => expr_rect_ x | None => Logic.I end)
        (expr_rect_ e)
  | Expr t (FunctionTypeRepr ps r) => HFun t ps r (fields ps) (expr_rect_ r)
  | Expr t (MapTypeRepr k v) => HMap t k v (expr_rect_ k) (expr_rect_ v)
  | Expr t (PointerTypeRepr b) => HPtr t b (expr_rect_ b)
  | Expr t (StructTypeRepr fs) => HStruct t fs (fields fs)
  end
with field_rect_ (f : field_decl) : F f :=
  match f with FieldDecl x e => HField x e (expr_rect_ e) end
with stmt_rect_ (s : stmt) : S s :=
  let stmts := fix stmts (l : list stmt) : Forall S l :=
    match l with
    | [] => Forall_nil_2 _
    | s :: l => Forall_cons_2 _ s l (stmt_rect_ s) (stmts l)
    end in
  let opt_e (o : option expr) : on_option P o :=
    match o return on_option P o with Some x => expr_rect_ x | None => Logic.I end in
  let opt_s (o : option stmt) : on_option S o :=
    match o return on_option S o with Some x => stmt_rect_ x | None => Logic.I end in
  match s with
  | AssignmentStmt d s => HAssign d s (expr_rect_ d) (expr_rect_ s)
  | BlockStmt l => HBlock l (stmts l)
  | DeclStmt d => HDecl d (decl_rect_ d)
  | ExpressionStmt e => HExpr e (expr_rect_ e)
  | ForStmt i c n b => HFor i c n b (opt_s i) (opt_e c) (opt_s n) (stmts b)
  | ForInStmt t i b => HForIn t i b (expr_rect_ t) (expr_rect_ i) (stmts b)
  | IfStmt c t e => HIf c t e (expr_rect_ c) (stmts t) (opt_s e)
  | ReturnStmt r => HRet r (opt_e r)
  end
with decl_rect_ (d : decl) : D d :=
  let fields := fix fields (l : list field_decl) : Forall F l :=
    match l with
    | [] => Forall_nil_2 _
    | f :: l => Forall_cons_2 _ f l (field_rect_ f) (fields l)
    end in
  let stmts := fix stmts (l : list stmt) : Forall S l :=
    match l with
    | [] => Forall_nil_2 _
    | s :: l => Forall_cons_2 _ s l (stmt_rect_ s) (stmts l)
    end in
  let opt_e (o : option expr) : on_option P o :=
    match o return on_option P o with Some x => expr_rect_ x | None => Logic.I end in
  match d with
  | FunctionDecl x f =>
      HFunDecl x f (expr_rect_ f)
        (match f with
         | Expr _ (FunctionLitExpr tr b) =>
             conj
               (conj (expr_rect_ tr)
                  (match tr return match tr with
                                   | Expr _ (FunctionTypeRepr fs r) => Forall F fs /\ P r
                                   | _ => True end
                   with
                   | Expr _ (FunctionTypeRepr fs r) => conj (fields fs) (expr_rect_ r)
                   | _ => Logic.I
                   end))
               (stmts b)
         | _ => Logic.I
         end)
  | StructDecl x e => HStructDecl x e (expr_rect_ e)
  | VariableDecl x t i => HVarDecl x t i (opt_e t) (opt_e i)
  end.

Lemma ast_ind : (forall e, P e) /\ (forall f, F f) /\ (forall s, S s) /\ (forall d, D d).
Proof. auto using expr_rect_, field_rect_, stmt_rect_, decl_rect_. Qed.
End ast_ind.
