(* ===== verification/SemaChecks.v ===== *)
(** * The state and the checks of the type checker

    [execution/sema/sema.h], [scope.cpp], [error_reporter.h] and
    [sema_checking.cpp].  The state of [Sema] is its stack of scopes, the function
    being checked and the messages reported; an operation passes it on, and is
    [None] where the code fails an assertion, reaches [UNREACHABLE], throws or
    dereferences a null pointer.  A message is its id: its arguments and position
    only serve its text.  [EnterScope] recycles scopes from a cache, which [Init]
    empties before use; a recycled scope is a new one here. *)
From S2P Require Import Prelude Tokens TplTypes TplAst.

(** [MESSAGE_LIST]. *)
Inductive ErrorMessageId :=
  | kUnexpectedToken | kDuplicateArgName | kDuplicateStructFieldName
  | kAssignmentUsedAsValue | kInvalidAssignment | kExpectingExpression | kExpectingType
  | kInvalidOperation | kVariableRedeclared | kUndefinedVariable
  | kInvalidBuiltinFunction | kNonFunction | kMismatchedCallArgs | kIncorrectCallArgType
  | kIncorrectCallArgType2 | kNonBoolIfCondition | kNonBoolForCondition
  | kNonIntegerArrayLength | kNegativeArrayLength | kReturnOutsideFunction
  | kMissingTypeAndInitialValue | kIllegalTypesForBinary | kMismatchedTypesToBinary
  | kMismatchedReturnType | kNonIdentifierIterator | kNonIdentifierTargetInForInLoop
  | kNonExistingTable | kExpectedIdentifierForMember | kMemberObjectNotComposite
  | kFieldObjectDoesNotExist | kInvalidIndexOperation | kInvalidArrayIndexValue
  | kInvalidCastToSqlInt | kInvalidCastToSqlDecimal | kInvalidSqlCastToBool
  | kMissingReturn | kInvalidDeclaration | kBadComparisonFunctionForSorter
  | kBadArgToPtrCast | kBadHashArg | kMissingArrayLength | kNotASQLAggregate
  | kBadParallelScanFunction | kBadArgToOutputSetNull | kBadArgToIndexIteratorInit
  | kBadArgToIndexIteratorScanKey | kBadArgToIndexIteratorFree | kBadResultForJHTGetNext
  | kBadEqualityFunctionForJHTGetNext | kBadPointerForJHTGetNext.

Inductive ScopeKind := BlockScope | FunctionScope | FileScope | LoopScope.

Record Scope := mkScope { scope_kind_ : ScopeKind; decls_ : gmap Identifier type }.

(** [scope_] is the chain of scopes, innermost first; [curr_func_] is known by the
    type of its node, which is set before the function becomes the current one. *)
Record sema := mkSema {
  scope_ : list Scope;
  curr_func_ : option type;
  errors_ : list ErrorMessageId
}.

Definition init_sema : sema := mkSema [] None [].

(** ** The monad *)

Definition Sema (A : Type) : Type := sema -> option (A * sema).

#[global] Instance Sema_ret : MRet Sema := fun A x st => Some (x, st).
#[global] Instance Sema_bind : MBind Sema := fun A B k m st =>
  match m st with Some (x, st') => k x st' | None => None end.

Lemma bind_Some {A B} (m : Sema A) (k : A -> Sema B) st x st' :
  m st = Some (x, st') -> (m ≫= k) st = k x st'.
Proof. intros H. cbv [mbind Sema_bind]. by rewrite H. Qed.

Lemma bind_inv {A B} (m : Sema A) (k : A -> Sema B) st r :
  (m ≫= k) st = Some r -> exists x st', m st = Some (x, st') /\ k x st' = Some r.
Proof. cbv [mbind Sema_bind]. destruct (m st) as [[x st']|]; naive_solver. Qed.

(** A failed assertion, a null dereference, an exception. *)
Definition crash {A} : Sema A := fun _ => None.

Definition lift {A} (o : option A) : Sema A := fun st => (fun x => (x, st)) <$> o.

Definition Report (m : ErrorMessageId) : Sema () := fun st =>
  Some ((), mkSema (scope_ st) (curr_func_ st) (errors_ st ++ [m])).

Definition HasErrors (st : sema) : bool := bool_decide (errors_ st <> []).

(** ** Scopes *)

Definition LookupLocal (s : Scope) (name : Identifier) : option type := decls_ s !! name.

Fixpoint Lookup (scopes : list Scope) (name : Identifier) : option type :=
  match scopes with
  | [] => None
  | s :: outer =>
      match LookupLocal s name with Some t => Some t | None => Lookup outer name end
  end.

Definition CurrentScope : Sema (list Scope) := fun st => Some (scope_ st, st).

(** [Scope::Declare] on the current scope. *)
Definition Scope_Declare (name : Identifier) (t : type) : Sema bool := fun st =>
  match scope_ st with
  | [] => None
  | s :: outer =>
      match Lookup (s :: outer) name with
      | Some _ => Some (false, st)
      | None =>
          Some (true, mkSema (mkScope (scope_kind_ s) (<[name := t]> (decls_ s)) :: outer)
                        (curr_func_ st) (errors_ st))
      end
  end.

Definition EnterScope (k : ScopeKind) : Sema () := fun st =>
  Some ((), mkSema (mkScope k ∅ :: scope_ st) (curr_func_ st) (errors_ st)).

Definition ExitScope : Sema () := fun st =>
  match scope_ st with
  | [] => None
  | _ :: outer => Some ((), mkSema outer (curr_func_ st) (errors_ st))
  end.

Definition CurrentFunction : Sema (option type) := fun st => Some (curr_func_ st, st).

Definition SetCurrentFunction (f : option type) : Sema () := fun st =>
  Some ((), mkSema (scope_ st) f (errors_ st)).

(** [SemaScope]: the scope is left however the block ends. *)
Definition SemaScope {A} (k : ScopeKind) (body : Sema A) : Sema A :=
  EnterScope k;; r ← body; ExitScope;; mret r.

(** [FunctionSemaScope]: the current function is restored with the scope. *)
Definition FunctionSemaScope {A} (func : type) (body : Sema A) : Sema A :=
  prev_func ← CurrentFunction;
  EnterScope FunctionScope;; SetCurrentFunction (Some func);;
  r ← body;
  ExitScope;; SetCurrentFunction prev_func;; mret r.

(** ** Checks *)

Definition ImplCastExprToType (e : expr) (target : type) (k : CastKind) : expr :=
  NewImplicitCastExpr k target e.

(** [CallExpr::GetFuncName]: the function must be an identifier. *)
Definition GetFuncName (func : expr) : Sema Identifier :=
  match func with Expr _ (IdentifierExpr x) => mret x | _ => crash end.

Definition ReportIncorrectCallArg (func : expr) (args : list expr) (index : nat) : Sema () :=
  GetFuncName func;; lift (args !! index);; Report kIncorrectCallArgType.

(** The overload whose expected type is a text. *)
Definition ReportIncorrectCallArg2 (func : expr) (args : list expr) (index : nat) : Sema () :=
  GetFuncName func;; lift (args !! index);; Report kIncorrectCallArgType2.

#[global] Arguments ReportIncorrectCallArg : simpl never.
#[global] Arguments ReportIncorrectCallArg2 : simpl never.

Definition CheckArgCount (func : expr) (args : list expr) (expected : nat) : Sema bool :=
  if decide (length args <> expected)
  then GetFuncName func;; Report kMismatchedCallArgs;; mret false
  else mret true.

Definition CheckArgCountAtLeast (func : expr) (args : list expr) (expected : nat)
    : Sema bool :=
  if decide (length args < expected)%nat
  then GetFuncName func;; Report kMismatchedCallArgs;; mret false
  else mret true.

(** [CheckResult]. *)
Definition CheckResult : Type := option type * expr * expr.

Definition is_sql_boolean (t : type) : bool := IsSpecificBuiltin t BuiltinType.Boolean.

(** [left->GetType()] of a resolved operand; a null type is dereferenced. *)
Definition TypeOf (e : expr) : Sema type := lift (GetType e).

Definition CheckLogicalOperands (op : Token.Type_) (left right : expr) : Sema CheckResult :=
  lt ← TypeOf left; rt ← TypeOf right;
  let bool_type := BuiltinTy BuiltinType.Bool in
  let left := if is_sql_boolean lt then ImplCastExprToType left bool_type SqlBoolToBool else left in
  let right := if is_sql_boolean rt then ImplCastExprToType right bool_type SqlBoolToBool else right in
  lt ← TypeOf left; rt ← TypeOf right;
  if IsBoolType lt && IsBoolType rt then mret (Some bool_type, left, right)
  else Report kMismatchedTypesToBinary;; mret (None, left, right).

Definition CheckArithmeticOperands (op : Token.Type_) (left right : expr) : Sema CheckResult :=
  lt ← TypeOf left; rt ← TypeOf right;
  let fail : Sema CheckResult := Report kIllegalTypesForBinary;; mret (None, left, right) in
  let cast_left k : Sema CheckResult := mret (Some rt, ImplCastExprToType left rt k, right) in
  let cast_right k : Sema CheckResult := mret (Some lt, left, ImplCastExprToType right lt k) in
  if negb (IsArithmetic lt) || negb (IsArithmetic rt) then fail
  else if decide (lt = rt) then mret (Some lt, left, right)
  else if IsIntegerType lt && IsIntegerType rt then
    if decide (IntTypeSize lt < IntTypeSize rt)%Z then cast_left IntegralCast
    else cast_right IntegralCast
  else if IsIntegerType lt && IsSpecificBuiltin rt BuiltinType.Integer then cast_left IntToSqlInt
  else if IsSpecificBuiltin lt BuiltinType.Integer && IsIntegerType rt then cast_right IntToSqlInt
  else if IsFloatType lt && IsSpecificBuiltin rt BuiltinType.Real then cast_left FloatToSqlReal
  else if IsSpecificBuiltin lt BuiltinType.Real && IsFloatType rt then cast_right FloatToSqlReal
  else fail.

(** The lambda [built_ret_type]. *)
Definition built_ret_type (input : type) : type :=
  if IsSqlValueType input then BuiltinTy BuiltinType.Boolean else BuiltinTy BuiltinType.Bool.

Definition CheckComparisonOperands (op : Token.Type_) (left right : expr) : Sema CheckResult :=
  lt ← TypeOf left; rt ← TypeOf right;
  let bool_type := BuiltinTy BuiltinType.Bool in
  let fail : Sema CheckResult := Report kIllegalTypesForBinary;; mret (None, left, right) in
  let cast_left k t : Sema CheckResult := mret (Some t, ImplCastExprToType left rt k, right) in
  let cast_right k t : Sema CheckResult := mret (Some t, left, ImplCastExprToType right lt k) in
  if IsPointerType lt || IsPointerType rt then
    if negb (Token.IsEqualityOp op) then fail
    else
      let lhs := GetPointeeType lt in
      let rhs := GetPointeeType rt in
      let same_pointee_type := bool_decide (lhs <> None) && bool_decide (lhs = rhs) in
      let compare_with_nil :=
        (bool_decide (lhs = None) && IsNilType lt) || (bool_decide (rhs = None) && IsNilType rt) in
      if same_pointee_type || compare_with_nil then mret (Some bool_type, left, right)
      else fail
  else if decide (lt = rt) then mret (Some (built_ret_type lt), left, right)
  else if IsBoolType lt && is_sql_boolean rt then cast_left BoolToSqlBool (built_ret_type rt)
  else if is_sql_boolean lt && IsBoolType rt then cast_right BoolToSqlBool (built_ret_type lt)
  else if negb (IsArithmetic lt) || negb (IsArithmetic rt) then fail
  else if IsIntegerType lt && IsIntegerType rt then
    if decide (IntTypeSize lt < IntTypeSize rt)%Z then cast_left IntegralCast bool_type
    else cast_right IntegralCast bool_type
  else if IsFloatType lt && IsSpecificBuiltin rt BuiltinType.Real then
    cast_left FloatToSqlReal (built_ret_type rt)
  else if IsSpecificBuiltin lt BuiltinType.Real && IsFloatType rt then
    cast_right FloatToSqlReal (built_ret_type lt)
  else if IsIntegerType lt && IsSpecificBuiltin rt BuiltinType.Integer then
    cast_left IntToSqlInt (built_ret_type rt)
  else if IsSpecificBuiltin lt BuiltinType.Integer && IsIntegerType rt then
    cast_right IntToSqlInt (built_ret_type lt)
  else fail.

(** [CheckAssignmentConstraints]: the expression it may replace, or [None] where
    it returns false. *)
Definition CheckAssignmentConstraints (target : type) (e : expr) : Sema (option expr) :=
  et ← TypeOf e;
  let cast k : Sema (option expr) := mret (Some (ImplCastExprToType e target k)) in
  if decide (et = target) then mret (Some e)
  else if (IsBoolType target && is_sql_boolean et) || (is_sql_boolean target && IsBoolType et)
  then mret (Some e)
  else if IsIntegerType target && IsIntegerType et then cast IntegralCast
  else if IsIntegerType target && IsFloatType et then cast FloatToInt
  else if IsFloatType target && IsIntegerType et then cast IntToFloat
  else if (match target, GetPointeeType et with
           | ArrayType n _, Some (ArrayType m _) => HasUnknownLength n && HasKnownLength m
           | _, _ => false
           end) then cast BitCast
  else if IsPointerType target || IsPointerType et then cast BitCast
  else mret None.

(** ** Messages are never taken back

    [mono m]: the messages only grow.  [ok m st x st']: [m] returns [x] without a
    new message; for monotone computations it decomposes along a bind. *)

Definition mono {A} (m : Sema A) : Prop :=
  forall st x st', m st = Some (x, st') -> exists es, errors_ st' = errors_ st ++ es.

Definition ok {A} (m : Sema A) (st : sema) (x : A) (st' : sema) : Prop :=
  m st = Some (x, st') /\ errors_ st' = errors_ st.

Create HintDb mono discriminated.

Lemma mono_ret {A} (x : A) : mono (mret x).
Proof. intros st y st' [= <- <-]. exists []. by rewrite app_nil_r. Qed.

Lemma mono_crash {A} : mono (@crash A).
Proof. done. Qed.

Lemma mono_lift {A} (o : option A) : mono (lift o).
Proof. intros st x st'. unfold lift. destruct o; intros [= <- <-]. exists []. by rewrite app_nil_r. Qed.

Lemma mono_Report m : mono (Report m).
Proof. intros st x st' [= <- <-]. by exists [m]. Qed.

Lemma mono_bind {A B} (m : Sema A) (k : A -> Sema B) :
  mono m -> (forall x, mono (k x)) -> mono (m ≫= k).
Proof.
  intros Hm Hk st y st''. cbv [mbind Sema_bind]. destruct (m st) as [[x st']|] eqn:E; [|done].
  intros H. destruct (Hm _ _ _ E) as [es1 E1], (Hk _ _ _ _ H) as [es2 E2].
  exists (es1 ++ es2). by rewrite E2, E1, app_assoc.
Qed.

Lemma mono_CurrentScope : mono CurrentScope.
Proof. intros st x st' [= <- <-]. exists []. by rewrite app_nil_r. Qed.

Lemma mono_CurrentFunction : mono CurrentFunction.
Proof. intros st x st' [= <- <-]. exists []. by rewrite app_nil_r. Qed.

Lemma mono_SetCurrentFunction f : mono (SetCurrentFunction f).
Proof. intros st x st' [= <- <-]. exists []. by rewrite app_nil_r. Qed.

Lemma mono_EnterScope k : mono (EnterScope k).
Proof. intros st x st' [= <- <-]. exists []. by rewrite app_nil_r. Qed.

Lemma mono_ExitScope : mono ExitScope.
Proof.
  intros st x st'. unfold ExitScope. destruct (scope_ st); intros [= <- <-].
  exists []. by rewrite app_nil_r.
Qed.

Lemma mono_Declare x t : mono (Scope_Declare x t).
Proof.
  intros st r st'. unfold Scope_Declare. destruct (scope_ st); [done|].
  destruct (Lookup _ _); intros [= <- <-]; exists []; by rewrite app_nil_r.
Qed.

#[export] Hint Resolve mono_ret mono_crash mono_lift mono_Report mono_CurrentScope
  mono_CurrentFunction mono_SetCurrentFunction mono_EnterScope mono_ExitScope
  mono_Declare : mono.

(** [mono] of a computation built from binds, tests and the operations of the
    database. *)
Ltac mono_step :=
  match goal with
  | |- mono (_ ≫= _) => apply mono_bind; [|intros ?]
  | |- mono (match ?x with _ => _ end) => destruct x
  | |- mono (if ?x then _ else _) => destruct x
  | |- mono _ => solve [auto with mono]
  end.
Ltac solve_mono := repeat (cbv beta zeta; mono_step).

Lemma mono_SemaScope {A} k (m : Sema A) : mono m -> mono (SemaScope k m).
Proof. intros H. unfold SemaScope. solve_mono. Qed.

Lemma mono_FunctionSemaScope {A} f (m : Sema A) : mono m -> mono (FunctionSemaScope f m).
Proof. intros H. unfold FunctionSemaScope. solve_mono. Qed.

#[export] Hint Resolve mono_SemaScope mono_FunctionSemaScope : mono.

Lemma mono_TypeOf e : mono (TypeOf e).
Proof. apply mono_lift. Qed.

Lemma mono_GetFuncName f : mono (GetFuncName f).
Proof. unfold GetFuncName. solve_mono. Qed.

#[export] Hint Resolve mono_TypeOf mono_GetFuncName : mono.

Lemma mono_ReportIncorrectCallArg f args i : mono (ReportIncorrectCallArg f args i).
Proof. unfold ReportIncorrectCallArg. solve_mono. Qed.

Lemma mono_ReportIncorrectCallArg2 f args i : mono (ReportIncorrectCallArg2 f args i).
Proof. unfold ReportIncorrectCallArg2. solve_mono. Qed.

Lemma mono_CheckArgCount f args n : mono (CheckArgCount f args n).
Proof. unfold CheckArgCount. solve_mono. Qed.

Lemma mono_CheckArgCountAtLeast f args n : mono (CheckArgCountAtLeast f args n).
Proof. unfold CheckArgCountAtLeast. solve_mono. Qed.

Lemma mono_CheckLogicalOperands op l r : mono (CheckLogicalOperands op l r).
Proof. unfold CheckLogicalOperands. solve_mono. Qed.

Lemma mono_CheckArithmeticOperands op l r : mono (CheckArithmeticOperands op l r).
Proof. unfold CheckArithmeticOperands. solve_mono. Qed.

Lemma mono_CheckComparisonOperands op l r : mono (CheckComparisonOperands op l r).
Proof. unfold CheckComparisonOperands. solve_mono. Qed.

Lemma mono_CheckAssignmentConstraints t e : mono (CheckAssignmentConstraints t e).
Proof.
  unfold CheckAssignmentConstraints. apply mono_bind; [auto with mono|intros et].
  repeat case_match; auto with mono.
Qed.

#[export] Hint Resolve mono_ReportIncorrectCallArg mono_ReportIncorrectCallArg2
  mono_CheckArgCount mono_CheckArgCountAtLeast mono_CheckLogicalOperands
  mono_CheckArithmeticOperands mono_CheckComparisonOperands
  mono_CheckAssignmentConstraints : mono.

Lemma ok_ret {A} (x y : A) st st' : ok (mret x) st y st' -> y = x /\ st' = st.
Proof. by intros [[= <- <-] _]. Qed.

Lemma ok_bind {A B} (m : Sema A) (k : A -> Sema B) st y st'' :
  mono m -> (forall x, mono (k x)) -> ok (m ≫= k) st y st'' ->
  exists x st', ok m st x st' /\ ok (k x) st' y st''.
Proof.
  intros Hm Hk [H He]. cbv [mbind Sema_bind] in H.
  destruct (m st) as [[x st']|] eqn:E; [|done]. exists x, st'.
  destruct (Hm _ _ _ E) as [es1 E1], (Hk _ _ _ _ H) as [es2 E2].
  rewrite E2, E1, <-app_assoc in He.
  rewrite <-(app_nil_r (errors_ st)) in He at 2. apply app_inv_head in He.
  apply app_eq_nil in He as [-> ->]. rewrite app_nil_r in *. repeat split; congruence.
Qed.

Lemma ok_Report m st x st' : ~ ok (Report m) st x st'.
Proof.
  intros [[= <- <-] H]. cbn in H. rewrite <-(app_nil_r (errors_ st)) in H at 2.
  by apply app_inv_head in H.
Qed.

(** A computation that starts by reporting cannot end well. *)
Lemma ok_Report_bind {A} m (k : () -> Sema A) st x st' :
  (forall u, mono (k u)) -> ~ ok (Report m ≫= k) st x st'.
Proof.
  intros Hk H. apply ok_bind in H as (? & ? & H & _); [|auto with mono..].
  by apply ok_Report in H.
Qed.

Lemma ok_lift {A} (o : option A) st x st' : ok (lift o) st x st' -> o = Some x /\ st' = st.
Proof. intros [H _]. unfold lift in H. destruct o; by simplify_eq/=. Qed.

Lemma ok_TypeOf e st t st' : ok (TypeOf e) st t st' -> GetType e = Some t /\ st' = st.
Proof. apply ok_lift. Qed.
