(* ===== verification/SemaBuiltins.v ===== *)
(** * Calls of builtin functions

    [execution/sema/sema_builtin.cpp]: one function per family of builtins, which
    checks the arguments of a call, all of them resolved, and sets the type of the
    call.  An early [return] leaves the call without a type ([None]); each
    [if (!...) { ReportIncorrectCallArg(...); return; }] of the code is one
    [check_arg].  Indexing an argument that is not there is undefined behaviour,
    a crash. *)
From S2P Require Import Prelude Tokens TplTypes TplAst SemaChecks.

Import BuiltinType Builtins.

(** ** The shapes of a check *)

(** [call->SetType(...)], the last thing a check does. *)
Definition SetType (t : type) : Sema (option type) := mret (Some t).

(** [return] before the type is set. *)
Definition stop : Sema (option type) := mret None.

Definition with_arg_count (func : expr) (args : list expr) (n : nat)
    (k : Sema (option type)) : Sema (option type) :=
  ok ← CheckArgCount func args n; if (ok : bool) then k else stop.

Definition with_arg_count_at_least (func : expr) (args : list expr) (n : nat)
    (k : Sema (option type)) : Sema (option type) :=
  ok ← CheckArgCountAtLeast func args n; if (ok : bool) then k else stop.

(** [call->Arguments()[i]->GetType()], about to be dereferenced. *)
Definition ArgType (args : list expr) (i : nat) : Sema type :=
  a ← lift (args !! i); TypeOf a.

Definition check_arg (func : expr) (args : list expr) (i : nat) (p : type -> bool)
    (k : Sema (option type)) : Sema (option type) :=
  t ← ArgType args i; if p t then k else ReportIncorrectCallArg func args i;; stop.

Definition check_arg2 (func : expr) (args : list expr) (i : nat) (p : type -> bool)
    (k : Sema (option type)) : Sema (option type) :=
  t ← ArgType args i; if p t then k else ReportIncorrectCallArg2 func args i;; stop.

(** A check of the argument itself: a literal. *)
Definition check_arg_expr (func : expr) (args : list expr) (i : nat) (p : expr -> bool)
    (k : Sema (option type)) : Sema (option type) :=
  a ← lift (args !! i); if p a then k else ReportIncorrectCallArg func args i;; stop.

(** A check with a message of its own. *)
Definition check_arg_msg (args : list expr) (i : nat) (p : type -> bool)
    (m : ErrorMessageId) (k : Sema (option type)) : Sema (option type) :=
  t ← ArgType args i; if p t then k else Report m;; stop.

(** A check whose failure is reported without leaving the function. *)
Definition warn_arg2 (func : expr) (args : list expr) (i : nat) (p : type -> bool)
    (k : Sema (option type)) : Sema (option type) :=
  t ← ArgType args i; (if p t then mret () else ReportIncorrectCallArg2 func args i);; k.

Definition IsPointerToSpecificBuiltin (k : Kind) (t : type) : bool :=
  match GetPointeeType t with Some p => IsSpecificBuiltin p k | None => false end.

Definition IsPointerToSQLValue (t : type) : bool :=
  match GetPointeeType t with Some p => IsSqlValueType p | None => false end.

Definition IsPointerToAggregatorValue (t : type) : bool :=
  match GetPointeeType t with Some p => IsSqlAggregatorType p | None => false end.

Definition is_kind (k : Kind) (t : type) : bool := IsSpecificBuiltin t k.

(** [GetBuiltinType(k)] and [GetBuiltinType(k)->PointerTo()]. *)
Definition GetBuiltinType (k : Kind) : type := BuiltinTy k.
Definition PointerTo (k : Kind) : type := PointerType (BuiltinTy k).

(** A loop over all arguments that stops at the first that fails. *)
Fixpoint check_all_args (args : list expr) (p : type -> bool) (fail : Sema ())
    (k : Sema (option type)) : Sema (option type) :=
  match args with
  | [] => k
  | a :: args =>
      t ← TypeOf a; if p t then check_all_args args p fail k else fail;; stop
  end.

(** ** The families *)

Definition CheckBuiltinSqlConversionCall (func : expr) (args : list expr)
    (builtin : Builtin) : Sema (option type) :=
  match builtin with
  | DateToSql =>
      with_arg_count_at_least func args 3 $
      check_arg func args 0 IsIntegerType $
      check_arg func args 1 IsIntegerType $
      check_arg func args 2 IsIntegerType $
      SetType (GetBuiltinType Date)
  | TimestampToSql =>
      with_arg_count_at_least func args 1 $
      check_arg func args 0 IsIntegerType $
      SetType (GetBuiltinType Timestamp)
  | TimestampToSqlHMSu =>
      with_arg_count_at_least func args 7 $
      check_arg func args 0 IsIntegerType $
      check_arg func args 1 IsIntegerType $
      check_arg func args 2 IsIntegerType $
      check_arg func args 3 IsIntegerType $
      check_arg func args 4 IsIntegerType $
      check_arg func args 5 IsIntegerType $
      check_arg func args 6 IsIntegerType $
      SetType (GetBuiltinType Timestamp)
  | _ =>
      with_arg_count func args 1 $
      match builtin with
      | BoolToSql =>
          check_arg_msg args 0 (is_kind Bool) kInvalidSqlCastToBool $
          SetType (GetBuiltinType Boolean)
      | IntToSql =>
          check_arg_msg args 0 IsIntegerType kInvalidSqlCastToBool $
          SetType (GetBuiltinType Integer)
      | FloatToSql =>
          check_arg_msg args 0 IsFloatType kInvalidSqlCastToBool $
          SetType (GetBuiltinType Real)
      | SqlToBool =>
          check_arg_msg args 0 (is_kind Boolean) kInvalidSqlCastToBool $
          SetType (GetBuiltinType Bool)
      | StringToSql =>
          check_arg func args 0 IsStringType $
          SetType (GetBuiltinType StringVal)
      | VarlenToSql =>
          t ← ArgType args 0;
          (if IsIntegerType t then mret () else ReportIncorrectCallArg func args 0);;
          SetType (GetBuiltinType StringVal)
      | _ => crash
      end
  end.

Definition CheckBuiltinFilterCall (func : expr) (args : list expr) : Sema (option type) :=
  with_arg_count func args 4 $
  check_arg func args 0 (IsPointerToSpecificBuiltin ProjectedColumnsIterator) $
  check_arg_expr func args 1 IsIntegerLiteral $
  check_arg_expr func args 2 IsIntegerLiteral $
  SetType (GetBuiltinType Int64).

(** The test of the second argument of [@aggHTProcessBatch]: an error unless the
    argument is a pointer, and an error if what it points to is a pointer to a
    [Uint64]. *)
Definition ProcessBatchIterators (t : type) : bool :=
  negb (negb (IsPointerType t) ||
        match GetPointeeType t with
        | Some p => IsPointerToSpecificBuiltin Uint64 p
        | None => false
        end).

(** [AreAllFunctions] of the arguments [i], [i + 1], [i + 2], [i + 3]. *)
Definition check_functions (func : expr) (args : list expr) (i : nat)
    (k : Sema (option type)) : Sema (option type) :=
  t0 ← ArgType args i; t1 ← ArgType args (S i); t2 ← ArgType args (S (S i));
  t3 ← ArgType args (S (S (S i)));
  if IsFunctionType t0 && IsFunctionType t1 && IsFunctionType t2 && IsFunctionType t3
  then k else ReportIncorrectCallArg2 func args i;; stop.

Definition CheckBuiltinAggHashTableCall (func : expr) (args : list expr)
    (builtin : Builtin) : Sema (option type) :=
  with_arg_count_at_least func args 1 $
  check_arg func args 0 (IsPointerToSpecificBuiltin AggregationHashTable) $
  match builtin with
  | AggHashTableInit =>
      with_arg_count func args 3 $
      check_arg func args 1 (IsPointerToSpecificBuiltin MemoryPool) $
      check_arg func args 2 (is_kind Uint32) $
      SetType (GetBuiltinType Nil)
  | AggHashTableInsert =>
      with_arg_count func args 2 $
      check_arg func args 1 (is_kind Uint64) $
      SetType (PointerTo Uint8)
  | AggHashTableLookup =>
      with_arg_count func args 4 $
      check_arg func args 1 (is_kind Uint64) $
      check_arg func args 2 IsFunctionType $
      SetType (PointerTo Uint8)
  | AggHashTableProcessBatch =>
      with_arg_count func args 7 $
      check_arg func args 1 ProcessBatchIterators $
      check_functions func args 2 $
      check_arg func args 6 IsBoolType $
      SetType (GetBuiltinType Nil)
  | AggHashTableMovePartitions =>
      with_arg_count func args 4 $
      check_arg func args 1 (IsPointerToSpecificBuiltin ThreadStateContainer) $
      check_arg func args 2 (is_kind Uint32) $
      check_arg func args 3 IsFunctionType $
      SetType (GetBuiltinType Nil)
  | AggHashTableParallelPartitionedScan =>
      with_arg_count func args 4 $
      check_arg func args 1 IsPointerType $
      check_arg func args 2 (IsPointerToSpecificBuiltin ThreadStateContainer) $
      check_arg func args 3 IsFunctionType $
      SetType (GetBuiltinType Nil)
  | AggHashTableFree => SetType (GetBuiltinType Nil)
  | _ => crash
  end.

Definition CheckBuiltinAggHashTableIterCall (func : expr) (args : list expr)
    (builtin : Builtin) : Sema (option type) :=
  with_arg_count_at_least func args 1 $
  check_arg func args 0 (IsPointerToSpecificBuiltin AggregationHashTableIterator) $
  match builtin with
  | AggHashTableIterInit =>
      with_arg_count func args 2 $
      check_arg func args 1 (IsPointerToSpecificBuiltin AggregationHashTable) $
      SetType (GetBuiltinType Nil)
  | AggHashTableIterHasNext =>
      with_arg_count func args 1 $ SetType (GetBuiltinType Bool)
  | AggHashTableIterNext =>
      with_arg_count func args 1 $ SetType (GetBuiltinType Nil)
  | AggHashTableIterGetRow =>
      with_arg_count func args 1 $ SetType (PointerTo Uint8)
  | AggHashTableIterClose =>
      with_arg_count func args 1 $ SetType (GetBuiltinType Nil)
  | _ => crash
  end.

Definition CheckBuiltinAggPartIterCall (func : expr) (args : list expr)
    (builtin : Builtin) : Sema (option type) :=
  with_arg_count func args 1 $
  check_arg func args 0 (IsPointerToSpecificBuiltin AggOverflowPartIter) $
  match builtin with
  | AggPartIterHasNext => SetType (GetBuiltinType Bool)
  | AggPartIterNext => SetType (GetBuiltinType Nil)
  | AggPartIterGetRow => SetType (PointerTo Uint8)
  | AggPartIterGetHash => SetType (GetBuiltinType Uint64)
  | _ => crash
  end.

(** The result of an aggregate, by the kind the argument points to. *)
Definition AggregateResult (k : Kind) : option Kind :=
  match k with
  | CountAggregate | CountStarAggregate => Some Integer
  | IntegerAvgAggregate => Some Real
  | IntegerSumAggregate | IntegerMaxAggregate | IntegerMinAggregate => Some Integer
  | RealAvgAggregate | RealSumAggregate | RealMaxAggregate | RealMinAggregate => Some Real
  | _ => None
  end.

Definition CheckBuiltinAggregatorCall (func : expr) (args : list expr)
    (builtin : Builtin) : Sema (option type) :=
  match builtin with
  | AggInit | AggReset =>
      check_all_args args IsPointerToAggregatorValue (Report kNotASQLAggregate) $
      SetType (GetBuiltinType Nil)
  | AggAdvance =>
      with_arg_count func args 2 $
      check_arg_msg args 0 IsPointerToAggregatorValue kNotASQLAggregate $
      check_arg_msg args 1 IsPointerToSQLValue kNotASQLAggregate $
      SetType (GetBuiltinType Nil)
  | AggMerge =>
      with_arg_count func args 2 $
      t0 ← ArgType args 0; t1 ← ArgType args 1;
      if negb (IsPointerToAggregatorValue t0) || negb (IsPointerToAggregatorValue t1)
      then Report kNotASQLAggregate;; stop
      else SetType (GetBuiltinType Nil)
  | AggResult =>
      with_arg_count func args 1 $
      check_arg_msg args 0 IsPointerToAggregatorValue kNotASQLAggregate $
      t ← ArgType args 0;
      match GetPointeeType t with
      | Some (BuiltinTy k) =>
          r ← lift (AggregateResult k); SetType (GetBuiltinType r)
      | _ => crash
      end
  | _ => crash
  end.

Definition CheckBuiltinJoinHashTableInit (func : expr) (args : list expr) : Sema (option type) :=
  with_arg_count func args 3 $
  check_arg func args 0 (IsPointerToSpecificBuiltin JoinHashTable) $
  check_arg func args 1 (IsPointerToSpecificBuiltin MemoryPool) $
  check_arg func args 2 IsIntegerType $
  SetType (GetBuiltinType Nil).

Definition CheckBuiltinJoinHashTableInsert (func : expr) (args : list expr) : Sema (option type) :=
  with_arg_count func args 2 $
  check_arg func args 0 (IsPointerToSpecificBuiltin JoinHashTable) $
  check_arg func args 1 (is_kind Uint64) $
  SetType (PointerTo Uint8).

Definition CheckBuiltinJoinHashTableBuild (func : expr) (args : list expr)
    (builtin : Builtin) : Sema (option type) :=
  with_arg_count_at_least func args 1 $
  check_arg func args 0 (IsPointerToSpecificBuiltin JoinHashTable) $
  match builtin with
  | JoinHashTableBuild => SetType (GetBuiltinType Nil)
  | JoinHashTableBuildParallel =>
      with_arg_count func args 3 $
      check_arg func args 1 (IsPointerToSpecificBuiltin ThreadStateContainer) $
      check_arg func args 2 (is_kind Uint32) $
      SetType (GetBuiltinType Nil)
  | _ => crash
  end.

Definition CheckBuiltinJoinHashTableFree (func : expr) (args : list expr) : Sema (option type) :=
  with_arg_count func args 1 $
  check_arg func args 0 (IsPointerToSpecificBuiltin JoinHashTable) $
  SetType (GetBuiltinType Nil).

Definition CheckBuiltinJoinHashTableIterInit (func : expr) (args : list expr) : Sema (option type) :=
  with_arg_count func args 3 $
  check_arg func args 0 (IsPointerToSpecificBuiltin JoinHashTableIterator) $
  check_arg func args 1 (IsPointerToSpecificBuiltin JoinHashTable) $
  check_arg func args 2 (is_kind Uint64) $
  SetType (GetBuiltinType Nil).

(** The key equality function of [@joinHTIterHasNext]. *)
Definition IsKeyEqFunction (t : type) : bool :=
  match t with
  | FunctionType [(_, p0); (_, p1); (_, p2)] ret =>
      IsSpecificBuiltin ret Bool && IsPointerType p0 && IsPointerType p1 && IsPointerType p2
  | _ => false
  end.

Definition CheckBuiltinJoinHashTableIterHasNext (func : expr) (args : list expr) : Sema (option type) :=
  with_arg_count func args 4 $
  check_arg func args 0 (IsPointerToSpecificBuiltin JoinHashTableIterator) $
  check_arg_msg args 1 IsKeyEqFunction kBadEqualityFunctionForJHTGetNext $
  check_arg_msg args 2 IsPointerType kBadPointerForJHTGetNext $
  check_arg_msg args 3 IsPointerType kBadPointerForJHTGetNext $
  SetType (GetBuiltinType Bool).

Definition CheckBuiltinJoinHashTableIterGetRow (func : expr) (args : list expr) : Sema (option type) :=
  with_arg_count func args 1 $
  check_arg func args 0 (IsPointerToSpecificBuiltin JoinHashTableIterator) $
  SetType (PointerTo Uint8).

Definition CheckBuiltinJoinHashTableIterClose (func : expr) (args : list expr) : Sema (option type) :=
  with_arg_count func args 1 $
  check_arg func args 0 (IsPointerToSpecificBuiltin JoinHashTableIterator) $
  SetType (GetBuiltinType Nil).

Definition CheckBuiltinExecutionContextCall (func : expr) (args : list expr)
    (builtin : Builtin) : Sema (option type) :=
  with_arg_count func args 1 $
  check_arg func args 0 (IsPointerToSpecificBuiltin ExecutionContext) $
  SetType (PointerTo MemoryPool).

Definition CheckBuiltinThreadStateContainerCall (func : expr) (args : list expr)
    (builtin : Builtin) : Sema (option type) :=
  with_arg_count_at_least func args 1 $
  check_arg func args 0 (IsPointerToSpecificBuiltin ThreadStateContainer) $
  match builtin with
  | ThreadStateContainerInit =>
      with_arg_count func args 2 $
      check_arg func args 1 (IsPointerToSpecificBuiltin MemoryPool) $
      SetType (GetBuiltinType Nil)
  | ThreadStateContainerFree => SetType (GetBuiltinType Nil)
  | ThreadStateContainerReset =>
      with_arg_count func args 5 $
      check_arg func args 1 (is_kind Uint32) $
      t2 ← ArgType args 2; t3 ← ArgType args 3;
      if negb (IsFunctionType t2) || negb (IsFunctionType t3)
      then ReportIncorrectCallArg func args 2;; stop
      else
        check_arg func args 4 (fun t => IsPointerType t || IsNilType t) $
        SetType (GetBuiltinType Nil)
  | ThreadStateContainerIterate =>
      with_arg_count func args 3 $
      check_arg func args 1 IsPointerType $
      check_arg func args 2 IsFunctionType $
      SetType (GetBuiltinType Nil)
  | _ => crash
  end.

(** A [uint32] array, of a known length where the code asks for one. *)
Definition IsUint32Array (known : bool) (t : type) : bool :=
  match t with
  | ArrayType n e => IsSpecificBuiltin e Uint32 && (negb known || HasKnownLength n)
  | _ => false
  end.

Definition CheckBuiltinTableIterCall (func : expr) (args : list expr)
    (builtin : Builtin) : Sema (option type) :=
  check_arg func args 0 (IsPointerToSpecificBuiltin TableVectorIterator) $
  match builtin with
  | TableIterInit =>
      with_arg_count func args 4 $
      check_arg func args 1 (IsPointerToSpecificBuiltin ExecutionContext) $
      check_arg_expr func args 2 IsIntegerLiteral $
      check_arg2 func args 3 IsArrayType $
      warn_arg2 func args 3 (IsUint32Array true) $
      SetType (GetBuiltinType Nil)
  | TableIterInitBind =>
      with_arg_count func args 4 $
      check_arg func args 1 (IsPointerToSpecificBuiltin ExecutionContext) $
      check_arg_expr func args 2 IsStringLiteral $
      check_arg2 func args 3 IsArrayType $
      warn_arg2 func args 3 (IsUint32Array false) $
      SetType (GetBuiltinType Nil)
  | TableIterAdvance => SetType (GetBuiltinType Bool)
  | TableIterReset => SetType (GetBuiltinType Nil)
  | TableIterGetPCI => SetType (PointerTo ProjectedColumnsIterator)
  | TableIterClose => SetType (GetBuiltinType Nil)
  | _ => crash
  end.

(** The scan function of [@iterateTableParallel]. *)
Definition IsParallelScanFunction (t : type) : bool :=
  match t with
  | FunctionType [(_, p0); (_, p1); (_, p2)] _ =>
      IsPointerType p0 && IsPointerType p1 && IsPointerToSpecificBuiltin TableVectorIterator p2
  | _ => false
  end.

Definition CheckBuiltinTableIterParCall (func : expr) (args : list expr) : Sema (option type) :=
  with_arg_count func args 4 $
  check_arg_expr func args 0 IsStringLiteral $
  check_arg func args 1 IsPointerType $
  check_arg func args 2 (IsPointerToSpecificBuiltin ThreadStateContainer) $
  check_arg_msg args 3 IsParallelScanFunction kBadParallelScanFunction $
  SetType (GetBuiltinType Nil).

(** The arguments of the call with its type: [@pciMatch] may replace one. *)
Definition keep_args (args : list expr) (m : Sema (option type))
    : Sema (list expr * option type) :=
  t ← m; mret (args, t).

Definition CheckBuiltinPCICall (func : expr) (args : list expr) (builtin : Builtin)
    : Sema (list expr * option type) :=
  let first (k : Sema (option type)) : Sema (option type) :=
    with_arg_count_at_least func args 1 $
    check_arg func args 0 (IsPointerToSpecificBuiltin ProjectedColumnsIterator) k in
  match builtin with
  | PCIIsFiltered | PCIHasNext | PCIHasNextFiltered | PCIAdvance | PCIAdvanceFiltered
  | PCIReset | PCIResetFiltered =>
      keep_args args $ first $ SetType (GetBuiltinType Bool)
  | PCIMatch =>
      ok ← first $ with_arg_count func args 2 $ SetType (GetBuiltinType Nil);
      match ok with
      | None => mret (args, None)
      | Some _ =>
          match_arg ← lift (args !! 1%nat);
          t ← TypeOf match_arg;
          let match_arg :=
            if is_sql_boolean t
            then ImplCastExprToType match_arg (GetBuiltinType Bool) SqlBoolToBool
            else match_arg in
          let args := <[1%nat := match_arg]> args in
          t ← TypeOf match_arg;
          if negb (IsBoolType t) then ReportIncorrectCallArg func args 1;; mret (args, None)
          else mret (args, Some (GetBuiltinType Nil))
      end
  | PCIGetSlot =>
      keep_args args $ first $ with_arg_count func args 1 $ SetType (GetBuiltinType TupleSlot)
  | PCIGetBool | PCIGetBoolNull => keep_args args $ first $ SetType (GetBuiltinType Boolean)
  | PCIGetTinyInt | PCIGetTinyIntNull | PCIGetSmallInt | PCIGetSmallIntNull | PCIGetInt
  | PCIGetIntNull | PCIGetBigInt | PCIGetBigIntNull =>
      keep_args args $ first $ SetType (GetBuiltinType Integer)
  | PCIGetReal | PCIGetRealNull | PCIGetDouble | PCIGetDoubleNull =>
      keep_args args $ first $ SetType (GetBuiltinType Real)
  | PCIGetDate | PCIGetDateNull => keep_args args $ first $ SetType (GetBuiltinType Date)
  | PCIGetTimestamp | PCIGetTimestampNull =>
      keep_args args $ first $ SetType (GetBuiltinType Timestamp)
  | PCIGetVarlen | PCIGetVarlenNull =>
      keep_args args $ first $ SetType (GetBuiltinType StringVal)
  | _ => keep_args args $ first crash
  end.

Definition CheckBuiltinHashCall (func : expr) (args : list expr) (builtin : Builtin)
    : Sema (option type) :=
  with_arg_count_at_least func args 1 $
  check_all_args args IsSqlValueType (Report kBadHashArg) $
  SetType (GetBuiltinType Uint64).

(** A filter of [@filterManagerInsertFilter]. *)
Definition IsFilterFunction (t : type) : bool :=
  match t with
  | FunctionType [(_, p)] ret =>
      IsIntegerType ret && IsPointerToSpecificBuiltin ProjectedColumnsIterator p
  | _ => false
  end.

Definition CheckBuiltinFilterManagerCall (func : expr) (args : list expr)
    (builtin : Builtin) : Sema (option type) :=
  with_arg_count_at_least func args 1 $
  check_arg func args 0 (IsPointerToSpecificBuiltin FilterManager) $
  match builtin with
  | FilterManagerInit | FilterManagerFinalize | FilterManagerFree =>
      SetType (GetBuiltinType Nil)
  | FilterManagerInsertFilter =>
      check_all_args (drop 1 args) IsFilterFunction
        (GetFuncName func;; Report kIncorrectCallArgType) $
      SetType (GetBuiltinType Nil)
  | FilterManagerRunFilters =>
      check_arg func args 1 (IsPointerToSpecificBuiltin ProjectedColumnsIterator) $
      SetType (GetBuiltinType Nil)
  | _ => crash
  end.

Definition CheckMathTrigCall (func : expr) (args : list expr) (builtin : Builtin)
    : Sema (option type) :=
  match builtin with
  | ATan2 =>
      with_arg_count func args 2 $
      t0 ← ArgType args 0; t1 ← ArgType args 1;
      if negb (is_kind Real t0) || negb (is_kind Real t1)
      then ReportIncorrectCallArg func args 1;; stop
      else SetType (GetBuiltinType Real)
  | Cos | Cot | Sin | Tan | ACos | ASin | ATan =>
      with_arg_count func args 1 $
      check_arg func args 0 (is_kind Real) $
      SetType (GetBuiltinType Real)
  | _ => crash
  end.

Definition CheckBuiltinSizeOfCall (func : expr) (args : list expr) : Sema (option type) :=
  with_arg_count func args 1 $ SetType (GetBuiltinType Uint32).

(** The comparison function of [@sorterInit]. *)
Definition IsSorterComparison (t : type) : bool :=
  match t with
  | FunctionType [(_, p0); (_, p1)] ret =>
      IsSpecificBuiltin ret Int32 && IsPointerType p0 && IsPointerType p1
  | _ => false
  end.

Definition CheckBuiltinSorterInit (func : expr) (args : list expr) : Sema (option type) :=
  with_arg_count func args 4 $
  check_arg func args 0 (IsPointerToSpecificBuiltin Sorter) $
  check_arg func args 1 (IsPointerToSpecificBuiltin MemoryPool) $
  check_arg_msg args 2 IsSorterComparison kBadComparisonFunctionForSorter $
  check_arg func args 3 (is_kind Uint32) $
  SetType (GetBuiltinType Nil).

Definition CheckBuiltinSorterInsert (func : expr) (args : list expr) : Sema (option type) :=
  with_arg_count func args 1 $
  check_arg func args 0 (IsPointerToSpecificBuiltin Sorter) $
  SetType (PointerTo Uint8).

Definition CheckBuiltinSorterSort (func : expr) (args : list expr) (builtin : Builtin)
    : Sema (option type) :=
  with_arg_count_at_least func args 1 $
  check_arg func args 0 (IsPointerToSpecificBuiltin Sorter) $
  match builtin with
  | SorterSort => with_arg_count func args 1 $ SetType (GetBuiltinType Nil)
  | SorterSortParallel | SorterSortTopKParallel =>
      check_arg func args 1 (IsPointerToSpecificBuiltin ThreadStateContainer) $
      check_arg func args 2 (is_kind Uint32) $
      if decide (builtin = SorterSortTopKParallel) then
        with_arg_count func args 4 $
        check_arg func args 3 (is_kind Uint64) $
        SetType (GetBuiltinType Nil)
      else SetType (GetBuiltinType Nil)
  | _ => crash
  end.

Definition CheckBuiltinSorterFree (func : expr) (args : list expr) : Sema (option type) :=
  with_arg_count func args 1 $
  check_arg func args 0 (IsPointerToSpecificBuiltin Sorter) $
  SetType (GetBuiltinType Nil).

Definition CheckBuiltinSorterIterCall (func : expr) (args : list expr) (builtin : Builtin)
    : Sema (option type) :=
  with_arg_count_at_least func args 1 $
  check_arg func args 0 (IsPointerToSpecificBuiltin SorterIterator) $
  match builtin with
  | SorterIterInit =>
      with_arg_count func args 2 $
      check_arg func args 1 (IsPointerToSpecificBuiltin Sorter) $
      SetType (GetBuiltinType Nil)
  | SorterIterHasNext => SetType (GetBuiltinType Bool)
  | SorterIterNext => SetType (GetBuiltinType Nil)
  | SorterIterGetRow => SetType (PointerTo Uint8)
  | SorterIterClose => SetType (GetBuiltinType Nil)
  | _ => crash
  end.

Definition CheckBuiltinOutputAlloc (func : expr) (args : list expr) : Sema (option type) :=
  with_arg_count func args 1 $
  check_arg func args 0 (IsPointerToSpecificBuiltin ExecutionContext) $
  SetType (PointerTo Uint8).

Definition CheckBuiltinOutputFinalize (func : expr) (args : list expr) : Sema (option type) :=
  with_arg_count func args 1 $
  check_arg func args 0 (IsPointerToSpecificBuiltin ExecutionContext) $
  SetType (GetBuiltinType Nil).

Definition CheckBuiltinIndexIteratorInit (func : expr) (args : list expr)
    (builtin : Builtin) : Sema (option type) :=
  check_arg func args 0 (IsPointerToSpecificBuiltin IndexIterator) $
  match builtin with
  | IndexIteratorInit =>
      with_arg_count func args 6 $
      check_arg func args 1 (IsPointerToSpecificBuiltin ExecutionContext) $
      check_arg_expr func args 2 IsIntegerLiteral $
      check_arg_expr func args 3 IsIntegerLiteral $
      check_arg_expr func args 4 IsIntegerLiteral $
      check_arg2 func args 5 IsArrayType $
      warn_arg2 func args 5 (IsUint32Array true) $
      SetType (GetBuiltinType Nil)
  | IndexIteratorInitBind =>
      with_arg_count func args 6 $
      check_arg func args 1 (IsPointerToSpecificBuiltin ExecutionContext) $
      check_arg_expr func args 2 IsIntegerLiteral $
      check_arg func args 3 IsStringType $
      check_arg func args 4 IsStringType $
      check_arg2 func args 5 IsArrayType $
      warn_arg2 func args 5 (IsUint32Array true) $
      SetType (GetBuiltinType Nil)
  | _ => crash
  end.

Definition CheckBuiltinIndexIteratorScan (func : expr) (args : list expr)
    (builtin : Builtin) : Sema (option type) :=
  with_arg_count_at_least func args 1 $
  check_arg func args 0 (IsPointerToSpecificBuiltin IndexIterator) $
  match builtin with
  | IndexIteratorScanKey | IndexIteratorScanDescending =>
      with_arg_count func args 1 $ SetType (GetBuiltinType Nil)
  | IndexIteratorScanAscending =>
      with_arg_count func args 3 $ SetType (GetBuiltinType Nil)
  | IndexIteratorScanLimitDescending =>
      with_arg_count func args 2 $
      check_arg func args 1 IsIntegerType $
      SetType (GetBuiltinType Nil)
  | _ => crash
  end.

Definition CheckBuiltinIndexIteratorAdvance (func : expr) (args : list expr) : Sema (option type) :=
  with_arg_count func args 1 $
  check_arg func args 0 (IsPointerToSpecificBuiltin IndexIterator) $
  SetType (GetBuiltinType Bool).

Definition CheckBuiltinIndexIteratorFree (func : expr) (args : list expr) : Sema (option type) :=
  with_arg_count func args 1 $
  check_arg_msg args 0 (IsPointerToSpecificBuiltin IndexIterator) kBadArgToIndexIteratorFree $
  SetType (GetBuiltinType Nil).

Definition CheckBuiltinIndexIteratorPRCall (func : expr) (args : list expr)
    (builtin : Builtin) : Sema (option type) :=
  with_arg_count func args 1 $
  check_arg func args 0 (IsPointerToSpecificBuiltin IndexIterator) $
  match builtin with
  | IndexIteratorGetPR | IndexIteratorGetLoPR | IndexIteratorGetHiPR
  | IndexIteratorGetTablePR => SetType (PointerTo ProjectedRow)
  | IndexIteratorGetSlot => SetType (GetBuiltinType TupleSlot)
  | _ => crash
  end.

(** The switch of [CheckBuiltinPRCall]: [is_set_call], [is_set_varlen], [sql_type]. *)
Definition PRCallKind (builtin : Builtin) : option (bool * bool * Kind) :=
  match builtin with
  | PRSetBool | PRSetBoolNull => Some (true, false, Bool)
  | PRSetTinyInt | PRSetSmallInt | PRSetInt | PRSetBigInt
  | PRSetTinyIntNull | PRSetSmallIntNull | PRSetIntNull | PRSetBigIntNull =>
      Some (true, false, Integer)
  | PRSetReal | PRSetDouble | PRSetRealNull | PRSetDoubleNull => Some (true, false, Real)
  | PRSetDate | PRSetDateNull => Some (true, false, Date)
  | PRSetTimestamp | PRSetTimestampNull => Some (true, false, Timestamp)
  | PRSetVarlen | PRSetVarlenNull => Some (true, true, StringVal)
  | PRGetBool | PRGetBoolNull => Some (false, false, Bool)
  | PRGetTinyInt | PRGetSmallInt | PRGetInt | PRGetBigInt
  | PRGetTinyIntNull | PRGetSmallIntNull | PRGetIntNull | PRGetBigIntNull =>
      Some (false, false, Integer)
  | PRGetReal | PRGetDouble | PRGetRealNull | PRGetDoubleNull => Some (false, false, Real)
  | PRGetDate | PRGetDateNull => Some (false, false, Date)
  | PRGetTimestamp | PRGetTimestampNull => Some (false, false, Timestamp)
  | PRGetVarlen | PRGetVarlenNull => Some (false, false, StringVal)
  | _ => None
  end.

Definition CheckBuiltinPRCall (func : expr) (args : list expr) (builtin : Builtin)
    : Sema (option type) :=
  with_arg_count_at_least func args 2 $
  '(is_set_call, is_set_varlen, sql_type) ← lift (PRCallKind builtin);
  check_arg func args 0 (IsPointerToSpecificBuiltin ProjectedRow) $
  check_arg_expr func args 1 IsIntegerLiteral $
  if (is_set_call : bool) then
    with_arg_count func args (if (is_set_varlen : bool) then 4 else 3)%nat $
    check_arg func args 2 (fun t => bool_decide (GetBuiltinType sql_type = t)) $
    if (is_set_varlen : bool) then
      check_arg func args 3 (is_kind Bool) $ SetType (GetBuiltinType Nil)
    else SetType (GetBuiltinType Nil)
  else
    with_arg_count func args 2 $ SetType (GetBuiltinType sql_type).

Definition CheckBuiltinStorageInterfaceCall (func : expr) (args : list expr)
    (builtin : Builtin) : Sema (option type) :=
  with_arg_count_at_least func args 1 $
  check_arg func args 0 (IsPointerToSpecificBuiltin StorageInterface) $
  match builtin with
  | StorageInterfaceInit =>
      with_arg_count func args 5 $
      check_arg func args 1 (IsPointerToSpecificBuiltin ExecutionContext) $
      check_arg_expr func args 2 IsIntegerLiteral $
      check_arg2 func args 3 IsArrayType $
      warn_arg2 func args 3 (IsUint32Array true) $
      check_arg func args 4 IsBoolType $
      SetType (GetBuiltinType Nil)
  | StorageInterfaceInitBind =>
      with_arg_count func args 5 $
      check_arg func args 1 (IsPointerToSpecificBuiltin ExecutionContext) $
      check_arg_expr func args 2 IsStringLiteral $
      check_arg2 func args 3 IsArrayType $
      warn_arg2 func args 3 (IsUint32Array true) $
      check_arg func args 4 IsBoolType $
      SetType (GetBuiltinType Nil)
  | GetTablePR => with_arg_count func args 1 $ SetType (PointerTo ProjectedRow)
  | TableInsert => with_arg_count func args 1 $ SetType (GetBuiltinType TupleSlot)
  | TableDelete | TableUpdate =>
      with_arg_count func args 2 $
      check_arg func args 1 (IsPointerToSpecificBuiltin TupleSlot) $
      SetType (GetBuiltinType Bool)
  | GetIndexPR =>
      with_arg_count func args 2 $
      check_arg_expr func args 1 IsIntegerLiteral $
      SetType (PointerTo ProjectedRow)
  | GetIndexPRBind =>
      with_arg_count func args 2 $
      check_arg_expr func args 1 IsStringLiteral $
      SetType (PointerTo ProjectedRow)
  | IndexInsert | IndexInsertUnique =>
      with_arg_count func args 1 $ SetType (GetBuiltinType Bool)
  | IndexDelete =>
      with_arg_count func args 2 $
      check_arg func args 1 (IsPointerToSpecificBuiltin TupleSlot) $
      SetType (GetBuiltinType Nil)
  | StorageInterfaceFree => with_arg_count func args 1 $ SetType (GetBuiltinType Nil)
  | _ => crash
  end.

(** The switch of [CheckBuiltinParamCall]. *)
Definition ParamKind (builtin : Builtin) : option Kind :=
  match builtin with
  | GetParamBool => Some Bool
  | GetParamTinyInt | GetParamSmallInt | GetParamInt | GetParamBigInt => Some Integer
  | GetParamReal | GetParamDouble => Some Real
  | GetParamDate => Some Date
  | GetParamTimestamp => Some Timestamp
  | GetParamString => Some StringVal
  | _ => None
  end.

Definition CheckBuiltinParamCall (func : expr) (args : list expr) (builtin : Builtin)
    : Sema (option type) :=
  with_arg_count func args 2 $
  check_arg func args 0 (IsPointerToSpecificBuiltin ExecutionContext) $
  t1 ← ArgType args 1;
  if IsIntegerType t1 then sql_type ← lift (ParamKind builtin); SetType (GetBuiltinType sql_type)
  else ReportIncorrectCallArg func args 0;; stop.

(** The switch of [CheckBuiltinCall], after the arguments are resolved. *)
Definition CheckResolvedBuiltinCall (func : expr) (args : list expr) (builtin : Builtin)
    : Sema (list expr * option type) :=
  match builtin with
  | BoolToSql | IntToSql | FloatToSql | StringToSql | VarlenToSql | DateToSql
  | TimestampToSql | TimestampToSqlHMSu | SqlToBool =>
      keep_args args (CheckBuiltinSqlConversionCall func args builtin)
  | FilterEq | FilterGe | FilterGt | FilterLt | FilterNe | FilterLe =>
      keep_args args (CheckBuiltinFilterCall func args)
  | ExecutionContextGetMemoryPool =>
      keep_args args (CheckBuiltinExecutionContextCall func args builtin)
  | ThreadStateContainerInit | ThreadStateContainerReset | ThreadStateContainerIterate
  | ThreadStateContainerFree =>
      keep_args args (CheckBuiltinThreadStateContainerCall func args builtin)
  | TableIterInit | TableIterInitBind | TableIterAdvance | TableIterReset
  | TableIterGetPCI | TableIterClose =>
      keep_args args (CheckBuiltinTableIterCall func args builtin)
  | TableIterParallel =>
      keep_args args (CheckBuiltinTableIterParCall func args)
  | PCIIsFiltered | PCIHasNext | PCIHasNextFiltered | PCIAdvance | PCIAdvanceFiltered
  | PCIGetSlot | PCIMatch | PCIReset | PCIResetFiltered | PCIGetBool | PCIGetBoolNull
  | PCIGetTinyInt | PCIGetTinyIntNull | PCIGetSmallInt | PCIGetSmallIntNull | PCIGetInt
  | PCIGetIntNull | PCIGetBigInt | PCIGetBigIntNull | PCIGetReal | PCIGetRealNull
  | PCIGetDouble | PCIGetDoubleNull | PCIGetDate | PCIGetDateNull | PCIGetTimestamp
  | PCIGetTimestampNull | PCIGetVarlen | PCIGetVarlenNull =>
      CheckBuiltinPCICall func args builtin
  | Hash =>
      keep_args args (CheckBuiltinHashCall func args builtin)
  | FilterManagerInit | FilterManagerInsertFilter | FilterManagerFinalize
  | FilterManagerRunFilters | FilterManagerFree =>
      keep_args args (CheckBuiltinFilterManagerCall func args builtin)
  | AggHashTableInit | AggHashTableInsert | AggHashTableLookup
  | AggHashTableProcessBatch | AggHashTableMovePartitions
  | AggHashTableParallelPartitionedScan | AggHashTableFree =>
      keep_args args (CheckBuiltinAggHashTableCall func args builtin)
  | AggHashTableIterInit | AggHashTableIterHasNext | AggHashTableIterNext
  | AggHashTableIterGetRow | AggHashTableIterClose =>
      keep_args args (CheckBuiltinAggHashTableIterCall func args builtin)
  | AggPartIterHasNext | AggPartIterNext | AggPartIterGetRow | AggPartIterGetHash =>
      keep_args args (CheckBuiltinAggPartIterCall func args builtin)
  | AggInit | AggAdvance | AggMerge | AggReset | AggResult =>
      keep_args args (CheckBuiltinAggregatorCall func args builtin)
  | JoinHashTableInit =>
      keep_args args (CheckBuiltinJoinHashTableInit func args)
  | JoinHashTableInsert =>
      keep_args args (CheckBuiltinJoinHashTableInsert func args)
  | JoinHashTableIterInit =>
      keep_args args (CheckBuiltinJoinHashTableIterInit func args)
  | JoinHashTableIterHasNext =>
      keep_args args (CheckBuiltinJoinHashTableIterHasNext func args)
  | JoinHashTableIterGetRow =>
      keep_args args (CheckBuiltinJoinHashTableIterGetRow func args)
  | JoinHashTableIterClose =>
      keep_args args (CheckBuiltinJoinHashTableIterClose func args)
  | JoinHashTableBuild | JoinHashTableBuildParallel =>
      keep_args args (CheckBuiltinJoinHashTableBuild func args builtin)
  | JoinHashTableFree =>
      keep_args args (CheckBuiltinJoinHashTableFree func args)
  | SorterInit =>
      keep_args args (CheckBuiltinSorterInit func args)
  | SorterInsert =>
      keep_args args (CheckBuiltinSorterInsert func args)
  | SorterSort | SorterSortParallel | SorterSortTopKParallel =>
      keep_args args (CheckBuiltinSorterSort func args builtin)
  | SorterFree =>
      keep_args args (CheckBuiltinSorterFree func args)
  | SorterIterInit | SorterIterHasNext | SorterIterNext | SorterIterGetRow
  | SorterIterClose =>
      keep_args args (CheckBuiltinSorterIterCall func args builtin)
  | SizeOf =>
      keep_args args (CheckBuiltinSizeOfCall func args)
  | OutputAlloc =>
      keep_args args (CheckBuiltinOutputAlloc func args)
  | OutputFinalize =>
      keep_args args (CheckBuiltinOutputFinalize func args)
  | IndexIteratorInit | IndexIteratorInitBind =>
      keep_args args (CheckBuiltinIndexIteratorInit func args builtin)
  | IndexIteratorScanKey | IndexIteratorScanAscending | IndexIteratorScanDescending
  | IndexIteratorScanLimitDescending =>
      keep_args args (CheckBuiltinIndexIteratorScan func args builtin)
  | IndexIteratorAdvance =>
      keep_args args (CheckBuiltinIndexIteratorAdvance func args)
  | IndexIteratorGetPR | IndexIteratorGetLoPR | IndexIteratorGetHiPR
  | IndexIteratorGetSlot | IndexIteratorGetTablePR =>
      keep_args args (CheckBuiltinIndexIteratorPRCall func args builtin)
  | IndexIteratorFree =>
      keep_args args (CheckBuiltinIndexIteratorFree func args)
  | ACos | ASin | ATan | ATan2 | Cos | Cot | Sin | Tan =>
      keep_args args (CheckMathTrigCall func args builtin)
  | PRSetBool | PRSetTinyInt | PRSetSmallInt | PRSetInt | PRSetBigInt | PRSetReal
  | PRSetDouble | PRSetDate | PRSetTimestamp | PRSetVarlen | PRSetBoolNull
  | PRSetTinyIntNull | PRSetSmallIntNull | PRSetIntNull | PRSetBigIntNull
  | PRSetRealNull | PRSetDoubleNull | PRSetDateNull | PRSetTimestampNull
  | PRSetVarlenNull | PRGetBool | PRGetTinyInt | PRGetSmallInt | PRGetInt | PRGetBigInt
  | PRGetReal | PRGetDouble | PRGetDate | PRGetTimestamp | PRGetVarlen | PRGetBoolNull
  | PRGetTinyIntNull | PRGetSmallIntNull | PRGetIntNull | PRGetBigIntNull
  | PRGetRealNull | PRGetDoubleNull | PRGetDateNull | PRGetTimestampNull
  | PRGetVarlenNull =>
      keep_args args (CheckBuiltinPRCall func args builtin)
  | StorageInterfaceInit | StorageInterfaceInitBind | GetTablePR | TableInsert
  | TableDelete | TableUpdate | GetIndexPR | GetIndexPRBind | IndexInsert
  | IndexInsertUnique | IndexDelete | StorageInterfaceFree =>
      keep_args args (CheckBuiltinStorageInterfaceCall func args builtin)
  | GetParamBool | GetParamTinyInt | GetParamSmallInt | GetParamInt | GetParamBigInt
  | GetParamReal | GetParamDouble | GetParamDate | GetParamTimestamp | GetParamString =>
      keep_args args (CheckBuiltinParamCall func args builtin)
  | PtrCast => crash
  end.
