(* ===== verification/BuiltinSigs.v ===== *)
(** * The signatures of the builtin functions

    A table of what every builtin takes and returns, and the proof that the checks
    of [SemaBuiltins] implement it: a call passes without a message exactly when
    its arguments match the signature, and then has the type the table gives. *)
From S2P Require Import Prelude Tokens TplTypes TplAst SemaChecks SemaBuiltins.

Import BuiltinType Builtins.

(** ** The table *)

(** What the type of an argument may be. *)
Inductive ty_spec :=
  | TAny
  | TKind (k : Kind)
  | TPtr (s : ty_spec)
  | TInt | TFloat | TSql | TAgg | TStr | TArr | TFun
  | TFunOf (params : list ty_spec) (ret : ty_spec)
  | TU32Array (known_length : bool)
  | TOr (s1 s2 : ty_spec)
  | TNot (s : ty_spec).

Fixpoint ty_ok (s : ty_spec) (t : type) : bool :=
  let fix params_ok (ss : list ty_spec) (ps : list (Identifier * type)) : bool :=
    match ss, ps with
    | [], [] => true
    | s :: ss, (_, t) :: ps => ty_ok s t && params_ok ss ps
    | _, _ => false
    end in
  match s with
  | TAny => true
  | TKind k => IsSpecificBuiltin t k
  | TPtr s => match t with PointerType b => ty_ok s b | _ => false end
  | TInt => IsIntegerType t
  | TFloat => IsFloatType t
  | TSql => IsSqlValueType t
  | TAgg => IsSqlAggregatorType t
  | TStr => IsStringType t
  | TArr => IsArrayType t
  | TFun => IsFunctionType t
  | TFunOf ss r =>
      match t with FunctionType ps ret => params_ok ss ps && ty_ok r ret | _ => false end
  | TU32Array known =>
      match t with
      | ArrayType n e => IsSpecificBuiltin e Uint32 && (negb known || HasKnownLength n)
      | _ => false
      end
  | TOr s1 s2 => ty_ok s1 t || ty_ok s2 t
  | TNot s => negb (ty_ok s t)
  end.

(** What an argument may be: of a type, or a literal. *)
Inductive arg_spec := Ty (s : ty_spec) | IntLit | StrLit.

Definition arg_ok (s : arg_spec) (a : expr) : bool :=
  match s with
  | Ty s => match GetType a with Some t => ty_ok s t | None => false end
  | IntLit => IsIntegerLiteral a
  | StrLit => IsStringLiteral a
  end.

Inductive arity := Exactly (n : nat) | AtLeast (n : nat).

(** The type of the call: fixed, or the value of the aggregate it is given. *)
Inductive result := Ret (t : type) | AggregateValue.

Record signature := Sig {
  sig_arity : arity;
  sig_args : list arg_spec;       (* the first arguments *)
  sig_rest : arg_spec;            (* every further argument *)
  sig_result : result
}.

Definition pointer_to (k : Kind) : arg_spec := Ty (TPtr (TKind k)).
Definition of_kind (k : Kind) : arg_spec := Ty (TKind k).
Definition any : arg_spec := Ty TAny.
Definition integer : arg_spec := Ty TInt.
Definition any_pointer : arg_spec := Ty (TPtr TAny).
Definition function : arg_spec := Ty TFun.
Definition column_array (known : bool) : arg_spec := Ty (TU32Array known).

(** A builtin with a fixed number of arguments. *)
Definition takes (args : list arg_spec) (t : type) : signature :=
  Sig (Exactly (length args)) args any (Ret t).

(** A builtin whose further arguments are not looked at. *)
Definition takes_at_least (args : list arg_spec) (t : type) : signature :=
  Sig (AtLeast (length args)) args any (Ret t).

Definition nil_ty : type := BuiltinTy Nil.
Definition byte_ptr : type := PointerTo Uint8.

Definition pr_set (k : Kind) : signature :=
  takes [pointer_to ProjectedRow; IntLit; of_kind k] nil_ty.
Definition pr_get (k : Kind) : signature :=
  takes [pointer_to ProjectedRow; IntLit] (BuiltinTy k).
Definition pci_get (t : type) : signature :=
  takes_at_least [pointer_to ProjectedColumnsIterator] t.
Definition param (k : Kind) : signature :=
  takes [pointer_to ExecutionContext; integer] (BuiltinTy k).

Definition signature_of (b : Builtin) : signature :=
  match b with
  | IntToSql => takes [integer] (BuiltinTy Integer)
  | BoolToSql => takes [of_kind Bool] (BuiltinTy Boolean)
  | FloatToSql => takes [Ty TFloat] (BuiltinTy Real)
  | SqlToBool => takes [of_kind Boolean] (BuiltinTy Bool)
  | StringToSql => takes [Ty TStr] (BuiltinTy StringVal)
  | VarlenToSql => takes [integer] (BuiltinTy StringVal)
  | DateToSql => takes_at_least [integer; integer; integer] (BuiltinTy Date)
  | TimestampToSql => takes_at_least [integer] (BuiltinTy Timestamp)
  | TimestampToSqlHMSu => takes_at_least (replicate 7 integer) (BuiltinTy Timestamp)
  | FilterEq | FilterGe | FilterGt | FilterLe | FilterLt | FilterNe =>
      takes [pointer_to ProjectedColumnsIterator; IntLit; IntLit; any] (BuiltinTy Int64)
  | ExecutionContextGetMemoryPool => takes [pointer_to ExecutionContext] (PointerTo MemoryPool)
  | ThreadStateContainerInit =>
      takes [pointer_to ThreadStateContainer; pointer_to MemoryPool] nil_ty
  | ThreadStateContainerReset =>
      takes [pointer_to ThreadStateContainer; of_kind Uint32; function; function;
             Ty (TOr (TPtr TAny) (TKind Nil))] nil_ty
  | ThreadStateContainerIterate =>
      takes [pointer_to ThreadStateContainer; any_pointer; function] nil_ty
  | ThreadStateContainerFree => takes_at_least [pointer_to ThreadStateContainer] nil_ty
  | TableIterInit =>
      takes [pointer_to TableVectorIterator; pointer_to ExecutionContext; IntLit;
             column_array true] nil_ty
  | TableIterInitBind =>
      takes [pointer_to TableVectorIterator; pointer_to ExecutionContext; StrLit;
             column_array false] nil_ty
  | TableIterAdvance => takes_at_least [pointer_to TableVectorIterator] (BuiltinTy Bool)
  | TableIterGetPCI =>
      takes_at_least [pointer_to TableVectorIterator] (PointerTo ProjectedColumnsIterator)
  | TableIterClose | TableIterReset => takes_at_least [pointer_to TableVectorIterator] nil_ty
  | TableIterParallel =>
      takes [StrLit; any_pointer; pointer_to ThreadStateContainer;
             Ty (TFunOf [TPtr TAny; TPtr TAny; TPtr (TKind TableVectorIterator)] TAny)] nil_ty
  | PCIIsFiltered | PCIHasNext | PCIHasNextFiltered | PCIAdvance | PCIAdvanceFiltered
  | PCIReset | PCIResetFiltered => pci_get (BuiltinTy Bool)
  | PCIGetSlot => takes [pointer_to ProjectedColumnsIterator] (BuiltinTy TupleSlot)
  | PCIMatch => takes [pointer_to ProjectedColumnsIterator; of_kind Bool] nil_ty
  | PCIGetBool | PCIGetBoolNull => pci_get (BuiltinTy Boolean)
  | PCIGetTinyInt | PCIGetTinyIntNull | PCIGetSmallInt | PCIGetSmallIntNull | PCIGetInt
  | PCIGetIntNull | PCIGetBigInt | PCIGetBigIntNull => pci_get (BuiltinTy Integer)
  | PCIGetReal | PCIGetRealNull | PCIGetDouble | PCIGetDoubleNull => pci_get (BuiltinTy Real)
  | PCIGetDate | PCIGetDateNull => pci_get (BuiltinTy Date)
  | PCIGetTimestamp | PCIGetTimestampNull => pci_get (BuiltinTy Timestamp)
  | PCIGetVarlen | PCIGetVarlenNull => pci_get (BuiltinTy StringVal)
  | Hash => Sig (AtLeast 1) [] (Ty TSql) (Ret (BuiltinTy Uint64))
  | FilterManagerInit | FilterManagerFinalize | FilterManagerFree =>
      takes_at_least [pointer_to FilterManager] nil_ty
  | FilterManagerInsertFilter =>
      Sig (AtLeast 1) [pointer_to FilterManager]
        (Ty (TFunOf [TPtr (TKind ProjectedColumnsIterator)] TInt)) (Ret nil_ty)
  | FilterManagerRunFilters =>
      takes_at_least [pointer_to FilterManager; pointer_to ProjectedColumnsIterator] nil_ty
  | AggHashTableInit =>
      takes [pointer_to AggregationHashTable; pointer_to MemoryPool; of_kind Uint32] nil_ty
  | AggHashTableInsert => takes [pointer_to AggregationHashTable; of_kind Uint64] byte_ptr
  | AggHashTableLookup =>
      takes [pointer_to AggregationHashTable; of_kind Uint64; function; any] byte_ptr
  | AggHashTableProcessBatch =>
      takes [pointer_to AggregationHashTable; Ty (TPtr (TNot (TPtr (TKind Uint64))));
             function; function; function; function; of_kind Bool] nil_ty
  | AggHashTableMovePartitions =>
      takes [pointer_to AggregationHashTable; pointer_to ThreadStateContainer; of_kind Uint32;
             function] nil_ty
  | AggHashTableParallelPartitionedScan =>
      takes [pointer_to AggregationHashTable; any_pointer; pointer_to ThreadStateContainer;
             function] nil_ty
  | AggHashTableFree => takes_at_least [pointer_to AggregationHashTable] nil_ty
  | AggHashTableIterInit =>
      takes [pointer_to AggregationHashTableIterator; pointer_to AggregationHashTable] nil_ty
  | AggHashTableIterHasNext => takes [pointer_to AggregationHashTableIterator] (BuiltinTy Bool)
  | AggHashTableIterNext | AggHashTableIterClose =>
      takes [pointer_to AggregationHashTableIterator] nil_ty
  | AggHashTableIterGetRow => takes [pointer_to AggregationHashTableIterator] byte_ptr
  | AggPartIterHasNext => takes [pointer_to AggOverflowPartIter] (BuiltinTy Bool)
  | AggPartIterNext => takes [pointer_to AggOverflowPartIter] nil_ty
  | AggPartIterGetHash => takes [pointer_to AggOverflowPartIter] (BuiltinTy Uint64)
  | AggPartIterGetRow => takes [pointer_to AggOverflowPartIter] byte_ptr
  | AggInit | AggReset => Sig (AtLeast 0) [] (Ty (TPtr TAgg)) (Ret nil_ty)
  | AggAdvance => takes [Ty (TPtr TAgg); Ty (TPtr TSql)] nil_ty
  | AggMerge => takes [Ty (TPtr TAgg); Ty (TPtr TAgg)] nil_ty
  | AggResult => Sig (Exactly 1) [Ty (TPtr TAgg)] any AggregateValue
  | JoinHashTableInit => takes [pointer_to JoinHashTable; pointer_to MemoryPool; integer] nil_ty
  | JoinHashTableInsert => takes [pointer_to JoinHashTable; of_kind Uint64] byte_ptr
  | JoinHashTableIterInit =>
      takes [pointer_to JoinHashTableIterator; pointer_to JoinHashTable; of_kind Uint64] nil_ty
  | JoinHashTableIterHasNext =>
      takes [pointer_to JoinHashTableIterator;
             Ty (TFunOf [TPtr TAny; TPtr TAny; TPtr TAny] (TKind Bool));
             any_pointer; any_pointer] (BuiltinTy Bool)
  | JoinHashTableIterGetRow => takes [pointer_to JoinHashTableIterator] byte_ptr
  | JoinHashTableIterClose => takes [pointer_to JoinHashTableIterator] nil_ty
  | JoinHashTableBuild => takes_at_least [pointer_to JoinHashTable] nil_ty
  | JoinHashTableBuildParallel =>
      takes [pointer_to JoinHashTable; pointer_to ThreadStateContainer; of_kind Uint32] nil_ty
  | JoinHashTableFree => takes [pointer_to JoinHashTable] nil_ty
  | SorterInit =>
      takes [pointer_to Sorter; pointer_to MemoryPool;
             Ty (TFunOf [TPtr TAny; TPtr TAny] (TKind Int32)); of_kind Uint32] nil_ty
  | SorterInsert => takes [pointer_to Sorter] byte_ptr
  | SorterSort | SorterFree => takes [pointer_to Sorter] nil_ty
  | SorterSortParallel =>
      takes_at_least [pointer_to Sorter; pointer_to ThreadStateContainer; of_kind Uint32] nil_ty
  | SorterSortTopKParallel =>
      takes [pointer_to Sorter; pointer_to ThreadStateContainer; of_kind Uint32;
             of_kind Uint64] nil_ty
  | SorterIterInit => takes [pointer_to SorterIterator; pointer_to Sorter] nil_ty
  | SorterIterHasNext => takes_at_least [pointer_to SorterIterator] (BuiltinTy Bool)
  | SorterIterNext | SorterIterClose => takes_at_least [pointer_to SorterIterator] nil_ty
  | SorterIterGetRow => takes_at_least [pointer_to SorterIterator] byte_ptr
  | ACos | ASin | ATan | Cos | Cot | Sin | Tan => takes [of_kind Real] (BuiltinTy Real)
  | ATan2 => takes [of_kind Real; of_kind Real] (BuiltinTy Real)
  | SizeOf => takes [any] (BuiltinTy Uint32)
  | PtrCast => takes [any_pointer; any_pointer] nil_ty
  | OutputAlloc => takes [pointer_to ExecutionContext] byte_ptr
  | OutputFinalize => takes [pointer_to ExecutionContext] nil_ty
  | IndexIteratorInit =>
      takes [pointer_to IndexIterator; pointer_to ExecutionContext; IntLit; IntLit; IntLit;
             column_array true] nil_ty
  | IndexIteratorInitBind =>
      takes [pointer_to IndexIterator; pointer_to ExecutionContext; IntLit; Ty TStr; Ty TStr;
             column_array true] nil_ty
  | IndexIteratorScanKey | IndexIteratorScanDescending | IndexIteratorFree =>
      takes [pointer_to IndexIterator] nil_ty
  | IndexIteratorScanAscending => takes [pointer_to IndexIterator; any; any] nil_ty
  | IndexIteratorScanLimitDescending => takes [pointer_to IndexIterator; integer] nil_ty
  | IndexIteratorAdvance => takes [pointer_to IndexIterator] (BuiltinTy Bool)
  | IndexIteratorGetPR | IndexIteratorGetLoPR | IndexIteratorGetHiPR
  | IndexIteratorGetTablePR => takes [pointer_to IndexIterator] (PointerTo ProjectedRow)
  | IndexIteratorGetSlot => takes [pointer_to IndexIterator] (BuiltinTy TupleSlot)
  | PRSetBool | PRSetBoolNull => pr_set Bool
  | PRSetTinyInt | PRSetTinyIntNull | PRSetSmallInt | PRSetSmallIntNull | PRSetInt
  | PRSetIntNull | PRSetBigInt | PRSetBigIntNull => pr_set Integer
  | PRSetReal | PRSetRealNull | PRSetDouble | PRSetDoubleNull => pr_set Real
  | PRSetDate | PRSetDateNull => pr_set Date
  | PRSetTimestamp | PRSetTimestampNull => pr_set Timestamp
  | PRSetVarlen | PRSetVarlenNull =>
      takes [pointer_to ProjectedRow; IntLit; of_kind StringVal; of_kind Bool] nil_ty
  | PRGetBool | PRGetBoolNull => pr_get Bool
  | PRGetTinyInt | PRGetTinyIntNull | PRGetSmallInt | PRGetSmallIntNull | PRGetInt
  | PRGetIntNull | PRGetBigInt | PRGetBigIntNull => pr_get Integer
  | PRGetReal | PRGetRealNull | PRGetDouble | PRGetDoubleNull => pr_get Real
  | PRGetDate | PRGetDateNull => pr_get Date
  | PRGetTimestamp | PRGetTimestampNull => pr_get Timestamp
  | PRGetVarlen | PRGetVarlenNull => pr_get StringVal
  | StorageInterfaceInit =>
      takes [pointer_to StorageInterface; pointer_to ExecutionContext; IntLit;
             column_array true; of_kind Bool] nil_ty
  | StorageInterfaceInitBind =>
      takes [pointer_to StorageInterface; pointer_to ExecutionContext; StrLit;
             column_array true; of_kind Bool] nil_ty
  | GetTablePR => takes [pointer_to StorageInterface] (PointerTo ProjectedRow)
  | TableInsert => takes [pointer_to StorageInterface] (BuiltinTy TupleSlot)
  | TableDelete | TableUpdate =>
      takes [pointer_to StorageInterface; pointer_to TupleSlot] (BuiltinTy Bool)
  | GetIndexPR => takes [pointer_to StorageInterface; IntLit] (PointerTo ProjectedRow)
  | GetIndexPRBind => takes [pointer_to StorageInterface; StrLit] (PointerTo ProjectedRow)
  | IndexInsert | IndexInsertUnique => takes [pointer_to StorageInterface] (BuiltinTy Bool)
  | IndexDelete => takes [pointer_to StorageInterface; pointer_to TupleSlot] nil_ty
  | StorageInterfaceFree => takes [pointer_to StorageInterface] nil_ty
  | GetParamBool => param Bool
  | GetParamTinyInt | GetParamSmallInt | GetParamInt | GetParamBigInt => param Integer
  | GetParamReal | GetParamDouble => param Real
  | GetParamDate => param Date
  | GetParamTimestamp => param Timestamp
  | GetParamString => param StringVal
  end.

(** ** Matching a call against a signature *)

Definition arity_ok (a : arity) (n : nat) : Prop :=
  match a with Exactly m => n = m | AtLeast m => (m <= n)%nat end.

(** Argument [i] is there and meets its specification. *)
Definition arg_at (args : list expr) (i : nat) (s : arg_spec) : Prop :=
  exists a, args !! i = Some a /\ arg_ok s a = true.

Fixpoint args_from (args : list expr) (i : nat) (specs : list arg_spec) : Prop :=
  match specs with
  | [] => True
  | s :: specs => arg_at args i s /\ args_from args (S i) specs
  end.

Definition sig_match (s : signature) (args : list expr) : Prop :=
  arity_ok (sig_arity s) (length args) /\ args_from args 0 (sig_args s) /\
  Forall (fun a => arg_ok (sig_rest s) a = true) (drop (length (sig_args s)) args).

#[global] Instance arg_at_dec args i s : Decision (arg_at args i s).
Proof.
  refine (match args !! i as o return args !! i = o -> _ with
          | Some a => fun H => if decide (arg_ok s a = true) then left _ else right _
          | None => fun H => right _
          end eq_refl); unfold arg_at; naive_solver.
Defined.

#[global] Instance args_from_dec args i specs : Decision (args_from args i specs).
Proof. revert i. induction specs; intros i; cbn; apply _. Defined.

#[global] Instance sig_match_dec s args : Decision (sig_match s args).
Proof. unfold sig_match, arity_ok. destruct (sig_arity s); apply _. Defined.

Definition result_type (r : result) (args : list expr) : option type :=
  match r with
  | Ret t => Some t
  | AggregateValue =>
      match args with
      | a :: _ =>
          match GetType a with
          | Some (PointerType (BuiltinTy k)) => BuiltinTy <$> AggregateResult k
          | _ => None
          end
      | [] => None
      end
  end.

(** The one conversion: the SQL boolean given to [@pciMatch]. *)
Definition coerce_args (b : Builtin) (args : list expr) : list expr :=
  match b, args with
  | PCIMatch, [a0; a1] =>
      match GetType a1 with
      | Some (BuiltinTy Boolean) =>
          [a0; ImplCastExprToType a1 (BuiltinTy Bool) SqlBoolToBool]
      | _ => args
      end
  | _, _ => args
  end.

(** ** The checks implement the table *)

(** [m] is a check of [Q]: where it holds, [m] returns [t] and leaves the state;
    elsewhere a message is added (or the code fails). *)
Definition refines {A} (m : Sema A) (st : sema) (Q : Prop) (x : A) : Prop :=
  mono m /\ (Q -> m st = Some (x, st)) /\
  (~ Q -> forall r st', m st = Some (r, st') -> errors_ st' <> errors_ st).

Lemma refines_iff {A} (m : Sema A) st Q Q' t : refines m st Q t -> (Q <-> Q') -> refines m st Q' t.
Proof. intros (Hm & H1 & H2) HQ. split_and!; [done|tauto|]. intros HQ'. apply H2. tauto. Qed.

Lemma refines_keep args m st Q t :
  refines m st Q t -> refines (keep_args args m) st Q (args, t).
Proof.
  intros (Hm & H1 & H2). unfold keep_args. split_and!.
  - solve_mono.
  - intros HQ. erewrite bind_Some by (by apply H1). done.
  - intros HQ r st' H. apply bind_inv in H as (x & st1 & H & [= <- <-]). by eapply H2.
Qed.

Lemma refines_lift {A B} (x : A) (k : A -> Sema B) st Q r :
  refines (k x) st Q r -> refines (lift (Some x) ≫= k) st Q r.
Proof.
  intros (Hm & H1 & H2). split_and!; [|done..].
  intros s y s' H. by apply (Hm s y s').
Qed.

(** [p] tests what [s] specifies. *)
Definition spec (p : type -> bool) (s : ty_spec) : Prop := forall t, p t = ty_ok s t.

Create HintDb spec discriminated.

Lemma spec_kind k : spec (is_kind k) (TKind k). Proof. done. Qed.
Lemma spec_bool : spec IsBoolType (TKind Bool). Proof. done. Qed.
Lemma spec_int : spec IsIntegerType TInt. Proof. done. Qed.
Lemma spec_float : spec IsFloatType TFloat. Proof. done. Qed.
Lemma spec_sql : spec IsSqlValueType TSql. Proof. done. Qed.
Lemma spec_string : spec IsStringType TStr. Proof. done. Qed.
Lemma spec_array : spec IsArrayType TArr. Proof. done. Qed.
Lemma spec_function : spec IsFunctionType TFun. Proof. done. Qed.
Lemma spec_pointer : spec IsPointerType (TPtr TAny). Proof. by intros []. Qed.
Lemma spec_ptr k : spec (IsPointerToSpecificBuiltin k) (TPtr (TKind k)). Proof. by intros []. Qed.
Lemma spec_agg : spec IsPointerToAggregatorValue (TPtr TAgg). Proof. by intros []. Qed.
Lemma spec_ptr_sql : spec IsPointerToSQLValue (TPtr TSql). Proof. by intros []. Qed.
Lemma spec_u32_array known : spec (IsUint32Array known) (TU32Array known). Proof. by intros []. Qed.
Lemma spec_pointer_or_nil :
  spec (fun t => IsPointerType t || IsNilType t) (TOr (TPtr TAny) (TKind Nil)).
Proof. by intros []. Qed.
Lemma spec_iterators : spec ProcessBatchIterators (TPtr (TNot (TPtr (TKind Uint64)))).
Proof. by intros [| |[]| | | |]. Qed.
Lemma spec_same k : spec (fun t => bool_decide (GetBuiltinType k = t)) (TKind k).
Proof.
  intros []; cbn; try (apply bool_decide_eq_false; done).
  apply bool_decide_ext. unfold GetBuiltinType. naive_solver.
Qed.
Lemma spec_key_eq :
  spec IsKeyEqFunction (TFunOf [TPtr TAny; TPtr TAny; TPtr TAny] (TKind Bool)).
Proof.
  intros []; try done. cbn.
  destruct params as [|[? p0] [|[? p1] [|[? p2] [|[] ?]]]];
    try (destruct p0); try (destruct p1); try (destruct p2); cbn; try done; by destruct (IsSpecificBuiltin _ _).
Qed.
Lemma spec_scan : spec IsParallelScanFunction
  (TFunOf [TPtr TAny; TPtr TAny; TPtr (TKind TableVectorIterator)] TAny).
Proof.
  intros []; try done. cbn.
  destruct params as [|[? p0] [|[? p1] [|[? p2] [|[] ?]]]];
    try (destruct p0); try (destruct p1); try (destruct p2); cbn; try done;
    unfold IsPointerToSpecificBuiltin; cbn; by destruct (IsSpecificBuiltin _ _).
Qed.
Lemma spec_filter : spec IsFilterFunction (TFunOf [TPtr (TKind ProjectedColumnsIterator)] TInt).
Proof.
  intros []; try done. cbn. destruct params as [|[? p0] [|[] ?]]; try done;
    destruct p0; cbn; unfold IsPointerToSpecificBuiltin; cbn;
    rewrite ?andb_true_r, ?andb_false_r; try done; apply andb_comm.
Qed.
Lemma spec_comparison :
  spec IsSorterComparison (TFunOf [TPtr TAny; TPtr TAny] (TKind Int32)).
Proof.
  intros []; try done. cbn.
  destruct params as [|[? p0] [|[? p1] [|[] ?]]];
    try (destruct p0); try (destruct p1); cbn; try done; by destruct (IsSpecificBuiltin _ _).
Qed.

#[export] Hint Resolve spec_kind spec_bool spec_int spec_float spec_sql spec_string spec_array
  spec_function spec_pointer spec_ptr spec_agg spec_ptr_sql spec_u32_array
  spec_pointer_or_nil spec_iterators spec_same spec_key_eq spec_scan spec_filter
  spec_comparison : spec.

Lemma errors_grow (l es : list ErrorMessageId) m : l ++ [m] ++ es <> l.
Proof.
  intros H. rewrite <-(app_nil_r l) in H at 2. by apply app_inv_head in H.
Qed.

Section checks.
Context (name : Identifier) (fty : option type) (args : list expr) (st : sema).
Abbreviation func := (Expr fty (IdentifierExpr name)).
Hypothesis typed : Forall (fun a => is_Some (GetType a)) args.

Lemma arg_typed i a : args !! i = Some a -> exists t, GetType a = Some t.
Proof. intros H. apply (Forall_lookup_1 _ _ _ _ typed H). Qed.

Lemma arg_at_ty i a t s :
  args !! i = Some a -> GetType a = Some t -> arg_at args i (Ty s) <-> ty_ok s t = true.
Proof. intros H1 H2. unfold arg_at. rewrite H1. cbn. split; [intros (? & [= <-] & H)|]; 
  [by rewrite H2 in H|]. intros H. exists a. by rewrite H2. Qed.

Lemma ArgType_Some i a u :
  args !! i = Some a -> GetType a = Some u -> ArgType args i st = Some (u, st).
Proof.
  intros H1 H2. unfold ArgType, TypeOf, lift. erewrite bind_Some by (by rewrite H1). by rewrite H2.
Qed.

Lemma ArgType_inv i u st' :
  ArgType args i st = Some (u, st') ->
  st' = st /\ exists a, args !! i = Some a /\ GetType a = Some u.
Proof.
  intros H. apply bind_inv in H as (a & st1 & H1 & H2). unfold TypeOf, lift in *.
  destruct (args !! i) as [a'|] eqn:Ha; simplify_eq/=.
  destruct (GetType a) eqn:Ht; simplify_eq/=. eauto.
Qed.

Lemma arg_at_inv i s :
  arg_at args i (Ty s) ->
  exists u, ArgType args i st = Some (u, st) /\ ty_ok s u = true.
Proof.
  intros (a & Ha & Hs). cbn in Hs. destruct (GetType a) as [u|] eqn:Hu; [|done].
  exists u. eauto using ArgType_Some.
Qed.

Lemma arg_at_intro i s u st' :
  ArgType args i st = Some (u, st') -> ty_ok s u = true -> arg_at args i (Ty s).
Proof.
  intros (_ & a & Ha & Hu)%ArgType_inv Hs. exists a. cbn. by rewrite Hu.
Qed.

Lemma refines_set t : refines (SetType t) st True (Some t).
Proof. split_and!; [unfold SetType; auto with mono|done..]. Qed.

Lemma refines_count n k Q t :
  refines k st Q t ->
  refines (with_arg_count func args n k) st (length args = n /\ Q) t.
Proof.
  intros (Hm & H1 & H2). unfold with_arg_count, CheckArgCount, stop. split_and!.
  - solve_mono.
  - intros [Hn HQ]. rewrite decide_False by auto. by apply H1.
  - intros HQ r st'. destruct (decide _) as [Hn|Hn].
    + intros [= <- <-]. apply errors_grow with (es := []).
    + intros H. apply (H2 ltac:(tauto) _ _ H).
Qed.

Lemma refines_at_least n k Q t :
  refines k st Q t ->
  refines (with_arg_count_at_least func args n k) st ((n <= length args)%nat /\ Q) t.
Proof.
  intros (Hm & H1 & H2). unfold with_arg_count_at_least, CheckArgCountAtLeast, stop. split_and!.
  - solve_mono.
  - intros [Hn HQ]. rewrite decide_False by lia. by apply H1.
  - intros HQ r st'. destruct (decide _) as [Hn|Hn].
    + intros [= <- <-]. apply errors_grow with (es := []).
    + intros H. apply (H2 ltac:(intros ?; apply HQ; split; [lia|done]) _ _ H).
Qed.

(** A failing branch: it only returns after a message. *)
Definition fails {A} (m : Sema A) : Prop :=
  mono m /\ forall st' r st'', m st' = Some (r, st'') -> errors_ st'' <> errors_ st'.

Lemma fails_bind {A B} (m : Sema A) (k : A -> Sema B) :
  fails m -> (forall u, mono (k u)) -> fails (m ≫= k).
Proof.
  intros [Hm1 Hm2] Hk. split; [solve_mono|]. intros st' r st'' H He.
  destruct (ok_bind m k st' r st'') as (x & st1 & [H1 H2] & _); [done..|]. by eapply Hm2.
Qed.

Lemma fails_report m : fails (Report m).
Proof. split; [auto with mono|]. intros st' r st'' H He. by apply (ok_Report m st' r st''). Qed.

Lemma fails_incorrect i : fails (ReportIncorrectCallArg func args i).
Proof.
  split; [auto with mono|]. intros st' r st''.
  unfold ReportIncorrectCallArg. cbv [mbind Sema_bind GetFuncName mret Sema_ret lift].
  destruct (args !! i); [|done]. intros [= <- <-]. apply errors_grow with (es := []).
Qed.

Lemma fails_incorrect2 i : fails (ReportIncorrectCallArg2 func args i).
Proof.
  split; [auto with mono|]. intros st' r st''.
  unfold ReportIncorrectCallArg2. cbv [mbind Sema_bind GetFuncName mret Sema_ret lift].
  destruct (args !! i); [|done]. intros [= <- <-]. apply errors_grow with (es := []).
Qed.

Lemma mono_ArgType i : mono (ArgType args i).
Proof. unfold ArgType. solve_mono. Qed.
Hint Resolve mono_ArgType : mono.

Lemma mono_stop : mono stop.
Proof. apply mono_ret. Qed.
Hint Resolve mono_stop : mono.

(** One test of the type of an argument. *)
Lemma refines_test i p s (k fail : Sema (option type)) Q t :
  spec p s -> fails fail -> refines k st Q t ->
  refines (u ← ArgType args i; if p u then k else fail) st (arg_at args i (Ty s) /\ Q) t.
Proof.
  intros Hp [Hf1 Hf2] (Hm & H1 & H2). split_and!.
  - solve_mono.
  - intros [(u & Hu & Hs)%arg_at_inv HQ]. erewrite bind_Some by done.
    rewrite Hp, Hs. by apply H1.
  - intros HQ r st' H. apply bind_inv in H as (u & st1 & Hu & H). rewrite Hp in H.
    pose proof (ArgType_inv _ _ _ Hu) as [-> _].
    destruct (ty_ok s u) eqn:Hs; [|by eapply Hf2].
    eapply H2; [|done]. intros HQ'. apply HQ. eauto using arg_at_intro.
Qed.

Lemma refines_arg i p s k Q t :
  spec p s -> refines k st Q t ->
  refines (check_arg func args i p k) st (arg_at args i (Ty s) /\ Q) t.
Proof. intros Hp Hk. apply refines_test; auto using fails_bind, fails_incorrect, mono_stop. Qed.

Lemma refines_arg2 i p s k Q t :
  spec p s -> refines k st Q t ->
  refines (check_arg2 func args i p k) st (arg_at args i (Ty s) /\ Q) t.
Proof. intros Hp Hk. apply refines_test; auto using fails_bind, fails_incorrect2, mono_stop. Qed.

Lemma refines_msg i p s m k Q t :
  spec p s -> refines k st Q t ->
  refines (check_arg_msg args i p m k) st (arg_at args i (Ty s) /\ Q) t.
Proof. intros Hp Hk. apply refines_test; auto using fails_bind, fails_report, mono_stop. Qed.

(** Two tests with one message. *)
Lemma refines_test2 i j p s p' s' (k fail : Sema (option type)) Q t :
  spec p s -> spec p' s' -> fails fail -> refines k st Q t ->
  refines (u ← ArgType args i; v ← ArgType args j;
           if negb (p u) || negb (p' v) then fail else k) st
    (arg_at args i (Ty s) /\ arg_at args j (Ty s') /\ Q) t.
Proof.
  intros Hp Hp' [Hf1 Hf2] (Hm & H1 & H2). split_and!.
  - solve_mono.
  - intros [(u & Hu & Hs)%arg_at_inv [(v & Hv & Hs')%arg_at_inv HQ]].
    erewrite bind_Some by done. erewrite bind_Some by done.
    rewrite Hp, Hp', Hs, Hs'. by apply H1.
  - intros HQ r st' H. apply bind_inv in H as (u & st1 & Hu & H).
    pose proof (ArgType_inv _ _ _ Hu) as [-> _].
    apply bind_inv in H as (v & st1 & Hv & H).
    pose proof (ArgType_inv _ _ _ Hv) as [-> _]. rewrite Hp, Hp' in H.
    destruct (ty_ok s u) eqn:Hs, (ty_ok s' v) eqn:Hs'; [|by eapply Hf2..].
    eapply H2; [|done]. intros HQ'. apply HQ. eauto using arg_at_intro.
Qed.

Lemma refines_functions i k Q t :
  refines k st Q t ->
  refines (check_functions func args i k) st
    (arg_at args i (Ty TFun) /\ arg_at args (S i) (Ty TFun) /\
     arg_at args (S (S i)) (Ty TFun) /\ arg_at args (S (S (S i))) (Ty TFun) /\ Q) t.
Proof.
  intros (Hm & H1 & H2).
  destruct (fails_bind _ (fun _ => stop) (fails_incorrect2 i) (fun _ => mono_stop)) as [Hf1 Hf2].
  unfold check_functions. split_and!.
  - solve_mono.
  - intros ((t0 & A0 & B0)%arg_at_inv & (t1 & A1 & B1)%arg_at_inv &
            (t2 & A2 & B2)%arg_at_inv & (t3 & A3 & B3)%arg_at_inv & HQ).
    cbn in B0, B1, B2, B3. do 4 (erewrite bind_Some by done).
    rewrite B0, B1, B2, B3. by apply H1.
  - intros HQ r st' H. apply bind_inv in H as (t0 & st1 & A0 & H).
    pose proof (ArgType_inv _ _ _ A0) as [-> _]. apply bind_inv in H as (t1 & st1 & A1 & H).
    pose proof (ArgType_inv _ _ _ A1) as [-> _]. apply bind_inv in H as (t2 & st1 & A2 & H).
    pose proof (ArgType_inv _ _ _ A2) as [-> _]. apply bind_inv in H as (t3 & st1 & A3 & H).
    pose proof (ArgType_inv _ _ _ A3) as [-> _].
    destruct (_ && _) eqn:E; [|by eapply Hf2].
    eapply H2; [|done]. intros HQ'. apply HQ. rewrite !andb_true_iff in E.
    destruct E as [[[]]]. split_and!; eauto using arg_at_intro.
Qed.

Lemma refines_expr i p s k Q t :
  (forall a, p a = arg_ok s a) -> refines k st Q t ->
  refines (check_arg_expr func args i p k) st (arg_at args i s /\ Q) t.
Proof.
  intros Hp (Hm & H1 & H2).
  destruct (fails_bind _ (fun _ => stop) (fails_incorrect i) (fun _ => mono_stop)) as [Hf1 Hf2].
  unfold check_arg_expr. split_and!.
  - solve_mono.
  - intros [(a & Ha & Hs) HQ]. unfold lift. rewrite Ha.
    erewrite bind_Some by done. rewrite Hp, Hs. by apply H1.
  - intros HQ r st' H. apply bind_inv in H as (a & st1 & Ha & H).
    unfold lift in Ha. destruct (args !! i) as [a'|] eqn:Hi; simplify_eq/=.
    rewrite Hp in H. destruct (arg_ok s a) eqn:Hs; [|by eapply Hf2].
    eapply H2; [|done]. intros HQ'. apply HQ. split; [|done]. by exists a.
Qed.

(** A failing test that goes on: what follows cannot take the message back. *)
Lemma refines_warn i p s (k : Sema (option type)) Q t (report : Sema ()) :
  spec p s -> fails report -> refines k st Q t ->
  refines (u ← ArgType args i; (if p u then mret () else report);; k) st
    (arg_at args i (Ty s) /\ Q) t.
Proof.
  intros Hp Hf (Hm & H1 & H2). split_and!.
  - destruct Hf as [Hf1 _]. solve_mono.
  - intros [(u & Hu & Hs)%arg_at_inv HQ]. erewrite bind_Some by done.
    rewrite Hp, Hs. by apply H1.
  - intros HQ r st' H. apply bind_inv in H as (u & st1 & Hu & H).
    pose proof (ArgType_inv _ _ _ Hu) as [-> _]. rewrite Hp in H.
    destruct (ty_ok s u) eqn:Hs.
    + eapply H2; [|done]. intros HQ'. apply HQ. eauto using arg_at_intro.
    + by eapply (fails_bind report (fun _ => k) Hf (fun _ => Hm)).
Qed.

Lemma refines_warn2 i p s k Q t :
  spec p s -> refines k st Q t ->
  refines (warn_arg2 func args i p k) st (arg_at args i (Ty s) /\ Q) t.
Proof. intros Hp Hk. apply refines_warn; auto using fails_incorrect2. Qed.

Lemma refines_all l p s (fail : Sema ()) k Q t :
  spec p s -> fails fail -> Forall (fun a => is_Some (GetType a)) l -> refines k st Q t ->
  refines (check_all_args l p fail k) st
    (Forall (fun a => arg_ok (Ty s) a = true) l /\ Q) t.
Proof.
  intros Hp Hf Hl Hk. induction Hl as [|a l [u Hu] _ IH]; cbn.
  { eapply refines_iff; [done|]. split; [by split|tauto]. }
  destruct IH as (IH1 & IH2 & IH3). pose proof (proj1 Hf) as Hf0.
  destruct (fails_bind _ (fun _ => stop) Hf (fun _ => mono_stop)) as [Hf1 Hf2].
  assert (TypeOf a st = Some (u, st)) as Ha by (unfold TypeOf, lift; by rewrite Hu).
  split_and!.
  - solve_mono.
  - intros [H HQ]. apply Forall_cons in H as [Hs Hl']. cbn in Hs. rewrite Hu in Hs.
    erewrite bind_Some by done. rewrite Hp, Hs. by apply IH2.
  - intros HQ r st' H. erewrite bind_Some in H by done. rewrite Hp in H.
    destruct (ty_ok s u) eqn:Hs; [|by eapply Hf2].
    eapply IH3; [|done]. intros [Hl' HQ']. apply HQ. split; [|done].
    constructor; [|done]. cbn. by rewrite Hu.
Qed.
End checks.

(** The tactic that reads the condition off a check. *)
Ltac refine_checks :=
  repeat first
    [ apply refines_set
    | apply refines_count
    | apply refines_at_least
    | apply refines_lift
    | eapply refines_arg; [solve [eauto with spec]|]
    | eapply refines_arg2; [solve [eauto with spec]|]
    | eapply refines_msg; [solve [eauto with spec]|]
    | eapply (refines_expr _ _ _ _ _ IsIntegerLiteral IntLit); [done|]
    | eapply (refines_expr _ _ _ _ _ IsStringLiteral StrLit); [done|]
    | eapply refines_warn2; [solve [eauto with spec]|]
    | apply refines_functions
    | eapply refines_test2; [solve [eauto with spec]..|
        apply fails_bind; [first [apply fails_report | apply fails_incorrect]|intros; apply mono_ret]|]
    | eapply refines_test; [solve [eauto with spec]|
        apply fails_bind; [apply fails_incorrect|intros; apply mono_ret]|]
    | eapply refines_warn; [solve [eauto with spec]|apply fails_incorrect|] ].

Section matching.
Context (args : list expr).
Hypothesis typed : Forall (fun a => is_Some (GetType a)) args.

Lemma args_any n : Forall (fun a => arg_ok any a = true) (drop n args).
Proof.
  apply Forall_drop. eapply Forall_impl; [apply typed|]. intros a [t Ht]. cbn. by rewrite Ht.
Qed.

Lemma arg_at_any i : (i < length args)%nat -> arg_at args i any.
Proof.
  intros [a Ha]%lookup_lt_is_Some_2. exists a. split; [done|].
  destruct (Forall_lookup_1 _ _ _ _ typed Ha) as [t Ht]. cbn. by rewrite Ht.
Qed.

Lemma arg_at_length i s : arg_at args i s -> (i < length args)%nat.
Proof. intros (a & Ha & _). by eapply lookup_lt_Some. Qed.

Lemma arg_at_array i known : arg_at args i (Ty (TU32Array known)) -> arg_at args i (Ty TArr).
Proof.
  intros (a & Ha & Hs). exists a. split; [done|]. cbn in *. by destruct (GetType a) as [[]|].
Qed.
End matching.

(** The condition read off a check is the signature's. *)
Ltac solve_match :=
  unfold sig_match;
  cbn [signature_of pr_set pr_get pci_get param takes takes_at_least sig_arity sig_args sig_rest sig_result arity_ok args_from length replicate];
  split; intros ?; destruct_and?;
  repeat match goal with
    | H : arg_at ?l ?i ?s |- _ =>
        lazymatch goal with
        | _ : (i < length l)%nat |- _ => fail
        | _ => pose proof (arg_at_length l i s H)
        end
    end;
  split_and?; eauto using args_any, arg_at_array; try lia;
  try (apply arg_at_any; [done|lia]).

(** The second half of [@pciMatch]: the conversion and the test. *)
Definition pci_match_rest (func : expr) (args : list expr) : Sema (list expr * option type) :=
  match_arg ← lift (args !! 1%nat);
  t ← TypeOf match_arg;
  let match_arg :=
    if is_sql_boolean t
    then ImplCastExprToType match_arg (GetBuiltinType Bool) SqlBoolToBool
    else match_arg in
  let args := <[1%nat := match_arg]> args in
  t ← TypeOf match_arg;
  if negb (IsBoolType t) then ReportIncorrectCallArg func args 1;; mret (args, None)
  else mret (args, Some (GetBuiltinType Nil)).

Section signatures.
Context (name : Identifier) (fty : option type) (args : list expr) (st : sema).
Abbreviation func := (Expr fty (IdentifierExpr name)).
Hypothesis typed : Forall (fun a => is_Some (GetType a)) args.

Definition varied (b : Builtin) : bool :=
  match b with
  | PtrCast | PCIMatch | AggResult | Hash | AggInit | AggReset | FilterManagerInsertFilter => true
  | _ => false
  end.

(** A builtin whose arguments are not converted and whose further arguments and
    result do not vary. *)
Lemma fixed_implements b :
  varied b = false ->
  refines (CheckResolvedBuiltinCall func args b) st (sig_match (signature_of b) args)
    (args, result_type (sig_result (signature_of b)) args).
Proof.
  intros Hb. destruct b; try discriminate Hb; clear Hb; apply refines_keep.
  all: eapply refines_iff; [cbn; refine_checks|solve_match].
Qed.

Lemma hash_implements :
  refines (CheckResolvedBuiltinCall func args Hash) st
    (sig_match (signature_of Hash) args) (args, Some (BuiltinTy Uint64)).
Proof.
  apply refines_keep. eapply refines_iff.
  - apply refines_at_least. apply (refines_all _ _ _ TSql); [eauto with spec|apply fails_report|done|].
    apply refines_set.
  - unfold sig_match. cbn [signature_of sig_arity sig_args sig_rest arity_ok args_from length drop].
    tauto.
Qed.

Lemma agg_init_implements b :
  b = AggInit \/ b = AggReset ->
  refines (CheckResolvedBuiltinCall func args b) st (sig_match (signature_of b) args)
    (args, Some nil_ty).
Proof.
  intros Hb. assert (CheckResolvedBuiltinCall func args b =
    keep_args args (check_all_args args IsPointerToAggregatorValue (Report kNotASQLAggregate)
      (SetType nil_ty))) as -> by (by destruct Hb as [-> | ->]).
  assert (signature_of b = Sig (AtLeast 0) [] (Ty (TPtr TAgg)) (Ret nil_ty)) as ->
    by (by destruct Hb as [-> | ->]).
  apply refines_keep. eapply refines_iff.
  - apply (refines_all _ _ _ (TPtr TAgg)); [eauto with spec|apply fails_report|done|].
    apply refines_set.
  - unfold sig_match. cbn [sig_arity sig_args sig_rest arity_ok args_from length drop].
    split; [intros [? _]; split_and!; [lia|done|done]|tauto].
Qed.

Lemma insert_filter_implements :
  refines (CheckResolvedBuiltinCall func args FilterManagerInsertFilter) st
    (sig_match (signature_of FilterManagerInsertFilter) args) (args, Some nil_ty).
Proof.
  apply refines_keep. eapply refines_iff.
  - cbn. apply refines_at_least. eapply refines_arg; [eauto with spec|].
    apply (refines_all _ _ _ (TFunOf [TPtr (TKind ProjectedColumnsIterator)] TInt));
      [eauto with spec| |by apply Forall_drop|apply refines_set].
    split; [solve_mono|]. intros st' r st'' [= <- <-]. apply errors_grow with (es := []).
  - unfold sig_match. cbn [signature_of sig_arity sig_args sig_rest arity_ok args_from length].
    tauto.
Qed.

(** Every aggregate has a value. *)
Lemma AggregateResult_total k :
  IsSqlAggregator k = true -> exists r, AggregateResult k = Some r.
Proof. destruct k; intros H; try discriminate H; cbn; eauto. Qed.

Lemma agg_result_implements :
  refines (CheckResolvedBuiltinCall func args AggResult) st
    (sig_match (signature_of AggResult) args) (args, result_type AggregateValue args).
Proof.
  apply refines_keep. set (m := CheckBuiltinAggregatorCall func args AggResult).
  assert (mono m) as Hm.
  { unfold m. cbn. unfold with_arg_count, check_arg_msg, ArgType, stop, SetType. solve_mono. }
  split_and!; [done|..].
  - intros (Hn & [(a & Ha & Hs) _] & _). cbn in Hn, Hs. unfold m, result_type.
    destruct args as [|a' [|]]; try done. simplify_eq/=.
    destruct (GetType a) as [[]|] eqn:Ht; try done.
    destruct base; try done. destruct (AggregateResult_total kind Hs) as [r Hr].
    unfold with_arg_count, CheckArgCount, check_arg_msg. cbn.
    cbv [mbind Sema_bind mret Sema_ret ArgType TypeOf lift]. cbn. rewrite Ht. cbn.
    unfold IsPointerToAggregatorValue. cbn in Hs |- *. rewrite Hs. cbn.
    by rewrite Hr.
  - intros HQ r st' H He. apply HQ. revert H He. unfold m. cbn.
    intros H He.
    destruct (decide (length args = 1%nat)) as [Hn|Hn]; last first.
    { unfold with_arg_count, CheckArgCount in H. rewrite decide_True in H by done.
      injection H as <- <-. by destruct (errors_grow (errors_ st) [] kMismatchedCallArgs). }
    unfold with_arg_count, CheckArgCount in H. rewrite decide_False in H by lia.
    erewrite bind_Some in H by done. unfold check_arg_msg in H. apply bind_inv in H as (u & st1 & Hu & H).
    pose proof (ArgType_inv _ _ _ _ _ Hu) as [-> _].
    destruct (IsPointerToAggregatorValue u) eqn:Hp; last first.
    { injection H as <- <-. by destruct (errors_grow (errors_ st) [] kNotASQLAggregate). }
    rewrite spec_agg in Hp. pose proof (arg_at_intro _ _ _ _ _ _ Hu Hp).
    unfold sig_match. cbn. split_and!; [done..|]. apply args_any, typed.
Qed.

Lemma coerce_match a0 a1 u :
  GetType a1 = Some u ->
  coerce_args PCIMatch [a0; a1] =
    [a0; if is_sql_boolean u
         then ImplCastExprToType a1 (GetBuiltinType Bool) SqlBoolToBool else a1].
Proof. intros Hu. cbn. rewrite Hu. by destruct u as [[]| | | | | |]. Qed.

Lemma pci_match_rest_spec :
  length args = 2%nat ->
  refines (pci_match_rest func args) st
    (arg_at (coerce_args PCIMatch args) 1 (of_kind Bool)) (coerce_args PCIMatch args, Some nil_ty).
Proof.
  intros Hn. split_and!; [unfold pci_match_rest; solve_mono|..].
  all: destruct args as [|a0 [|a1 [|]]]; try done.
  all: apply Forall_cons in typed as [_ [[u Hu] _]%Forall_cons].
  all: rewrite (coerce_match _ _ _ Hu); unfold pci_match_rest, arg_at;
    cbv [lift TypeOf mbind Sema_bind mret Sema_ret]; cbn; rewrite Hu; cbn.
  all: destruct (is_sql_boolean u) eqn:Hb; cbn; rewrite ?Hu; cbn.
  - done.
  - intros (a & [= <-] & Hs). rewrite Hu in Hs. unfold IsBoolType. by rewrite Hs.
  - intros []. by eexists.
  - intros HQ r st' H He. destruct (IsBoolType u) eqn:Hbool.
    + apply HQ. exists a1. by rewrite Hu.
    + injection H as <- <-. by destruct (errors_grow (errors_ st) [] kIncorrectCallArgType).
Qed.

Lemma pci_match_implements :
  refines (CheckResolvedBuiltinCall func args PCIMatch) st
    (sig_match (signature_of PCIMatch) (coerce_args PCIMatch args))
    (coerce_args PCIMatch args, Some nil_ty).
Proof.
  assert (refines (with_arg_count_at_least func args 1 $
    check_arg func args 0 (IsPointerToSpecificBuiltin ProjectedColumnsIterator) $
    with_arg_count func args 2 $ SetType (GetBuiltinType Nil)) st
    ((1 <= length args)%nat /\ arg_at args 0 (pointer_to ProjectedColumnsIterator) /\
     length args = 2%nat /\ True) (Some nil_ty)) as (Hm & H1 & H2) by refine_checks.
  assert (mono (pci_match_rest func args)) as Hr by (unfold pci_match_rest; solve_mono).
  split_and!.
  - apply mono_bind; [apply Hm|]. intros [|]; [apply Hr|auto with mono].
  - intros (Hn & [H0 [Hb _]] & _). cbn in Hn, H0, Hb.
    assert (length args = 2%nat) as Hl by (revert Hn; cbn; repeat case_match; done).
    destruct (pci_match_rest_spec Hl) as (_ & R1 & _).
    assert (arg_at args 0 (pointer_to ProjectedColumnsIterator)).
    { destruct args as [|a0 [|a1 [|]]]; try done. destruct H0 as (a & Ha & Hs).
      exists a. split; [|done]. revert Ha. cbn. by repeat case_match. }
    unfold CheckResolvedBuiltinCall, CheckBuiltinPCICall.
    erewrite bind_Some by (apply H1; split_and!; [lia|done..]). by apply R1.
  - intros HQ r st' H He. unfold CheckResolvedBuiltinCall, CheckBuiltinPCICall in H.
    assert (forall o : option type, mono (match o with
      None => mret (args, None) | Some _ => pci_match_rest func args end)) as Hk
      by (intros []; auto with mono).
    pose proof (ok_bind _ _ _ _ _ Hm Hk (conj H He)) as (o & st1 & [E1 E2] & [E3 E4]).
    assert ((1 <= length args)%nat /\ arg_at args 0 (pointer_to ProjectedColumnsIterator) /\
      length args = 2%nat /\ True) as Hg.
    { destruct args as [|a0 [|a1 [|]]];
        try (by (exfalso; eapply H2; [|done..]; intros (? & ? & ? & _))).
      split_and!; [cbn; lia| |done..]. exists a0. split; [done|].
      destruct (arg_ok (pointer_to ProjectedColumnsIterator) a0) eqn:E; [done|].
      exfalso; eapply H2; [|done..]. intros (_ & (? & [= <-] & ?) & _). congruence. }
    rewrite (H1 Hg) in E1. injection E1 as <- <-. destruct Hg as (_ & H0 & Hl & _).
    destruct (pci_match_rest_spec Hl) as (_ & _ & R2).
    apply (fun nQ => R2 nQ r st' E3 E4). intros Hb. apply HQ.
    destruct args as [|a0 [|a1 [|]]]; try done.
    pose proof typed as [_ [[u Hu] _]%Forall_cons]%Forall_cons.
    rewrite (coerce_match _ _ _ Hu) in *. unfold sig_match. cbn. split_and!; try done.
Qed.

Lemma coerce_none b : b <> PCIMatch -> coerce_args b args = args.
Proof. by destruct b. Qed.

Lemma builtin_implements b :
  b <> PtrCast ->
  refines (CheckResolvedBuiltinCall func args b) st
    (sig_match (signature_of b) (coerce_args b args))
    (coerce_args b args, result_type (sig_result (signature_of b)) (coerce_args b args)).
Proof.
  intros Hp. destruct (decide (b = PCIMatch)) as [->|Hm]; [apply pci_match_implements|].
  rewrite coerce_none by done.
  destruct (varied b) eqn:Hv; [|by apply fixed_implements].
  destruct b; try discriminate Hv; try done.
  - apply hash_implements.
  - apply insert_filter_implements.
  - apply (agg_init_implements AggInit). auto.
  - apply (agg_init_implements AggReset). auto.
  - apply agg_result_implements.
Qed.
End signatures.

(** A call that matches its signature has a type. *)
Lemma result_type_total b args :
  sig_match (signature_of b) args ->
  exists t, result_type (sig_result (signature_of b)) args = Some t.
Proof.
  destruct (decide (b = AggResult)) as [->|Hb].
  - intros (_ & [(a & Ha & Hs) _] & _). destruct args as [|a' args]; [done|]. simplify_eq/=.
    destruct (GetType a) as [[]|]; try done. destruct base; try done.
    destruct (AggregateResult_total kind Hs) as [r ->]. eauto.
  - intros _. destruct b; try done; cbn; eauto.
Qed.

(** C17: a call of a builtin other than [@ptrCast], with its arguments resolved, is
    accepted by [CheckBuiltinCall] exactly when its arguments match the signature of
    the builtin (after a SQL boolean given to [@pciMatch] is converted): then no
    message is reported and the call has the type of the signature, otherwise a
    message is reported or the code runs into undefined behaviour. *)
Theorem builtin_signatures name fty args b st :
  Forall (fun a => is_Some (GetType a)) args -> b <> PtrCast ->
  let func := Expr fty (IdentifierExpr name) in
  let args' := coerce_args b args in
  (sig_match (signature_of b) args' ->
   exists t, result_type (sig_result (signature_of b)) args' = Some t /\
     CheckResolvedBuiltinCall func args b st = Some ((args', Some t), st)) /\
  (~ sig_match (signature_of b) args' ->
   forall r st', CheckResolvedBuiltinCall func args b st = Some (r, st') ->
   errors_ st' <> errors_ st).
Proof.
  intros Ht Hb func args'. destruct (builtin_implements name fty args st Ht b Hb) as (_ & H1 & H2).
  split; [|apply H2]. intros Hm. destruct (result_type_total b args' Hm) as [t Hr].
  exists t. split; [done|]. rewrite <-Hr. by apply H1.
Qed.

(** [@joinHTInsert(jht, hash)] of a join hash table and a 64-bit hash. *)
Definition join_insert_args : list expr :=
  [Expr (Some (PointerTo JoinHashTable)) (IdentifierExpr "jht");
   Expr (Some (BuiltinTy Uint64)) (IdentifierExpr "hash")].

Lemma builtin_signatures_witness :
  CheckResolvedBuiltinCall (Expr None (IdentifierExpr "joinHTInsert")) join_insert_args
    JoinHashTableInsert init_sema = Some ((join_insert_args, Some byte_ptr), init_sema).
Proof.
  destruct (builtin_signatures "joinHTInsert" None join_insert_args JoinHashTableInsert init_sema)
    as [H _].
  - repeat constructor; eexists; reflexivity.
  - discriminate.
  - destruct H as (t & [= <-] & H); [|exact H].
    unfold sig_match. cbn. split; [reflexivity|]. split; [|constructor].
    repeat split; eexists; split; reflexivity.
Defined.

(** ** What the checks miss *)

(** [@tableIterAdvance()] without an argument reads the first argument all the
    same: the count is not checked. *)
Lemma table_iter_without_arguments name st :
  CheckResolvedBuiltinCall (Expr None (IdentifierExpr name)) [] TableIterAdvance st = None.
Proof. reflexivity. Qed.

(** [@aggHTProcessBatch] takes any pointer for its iterators but a pointer to a
    pointer to [uint64]: a pointer to a [bool] passes. *)
Lemma process_batch_takes_any_pointer :
  ProcessBatchIterators (PointerTo Bool) = true /\
  ProcessBatchIterators (PointerType (PointerTo Uint64)) = false.
Proof. done. Qed.
