(* ===== verification/Sema.v ===== *)
(** * The type checker

    [execution/sema/sema_expr.cpp], [sema_stmt.cpp], [sema_decl.cpp],
    [sema_type.cpp] and [sema.cpp]: one definition per [Visit] method, which takes
    the visits of the children as computations and returns the node it was given
    with the types, casts and statements the code stores in it; [VisitExpr],
    [VisitFieldDecl], [VisitStmt] and [VisitDecl] are the dispatch of
    [AstVisitor].  [Resolve(e)] is the visit of [e] followed by [GetType]. *)
From S2P Require Import Prelude Tokens TplTypes TplAst SemaChecks SemaBuiltins.

(** ** Expressions *)

Definition VisitBinaryOpExpr (ty : option type) (op : Token.Type_)
    (visit_left visit_right : Sema expr) : Sema expr :=
  left ← visit_left; right ← visit_right;
  let set (r : CheckResult) : Sema expr :=
    let '(result_type, l, r) := r in mret (Expr result_type (BinaryOpExpr op l r)) in
  match GetType left, GetType right with
  | Some _, Some _ =>
      match op with
      | Token.AND | Token.OR => CheckLogicalOperands op left right ≫= set
      | Token.AMPERSAND | Token.BIT_XOR | Token.BIT_OR | Token.PLUS | Token.MINUS
      | Token.STAR | Token.SLASH | Token.PERCENT =>
          CheckArithmeticOperands op left right ≫= set
      | _ => mret (Expr ty (BinaryOpExpr op left right))
      end
  | _, _ => mret (Expr ty (BinaryOpExpr op left right))
  end.

Definition VisitComparisonOpExpr (ty : option type) (op : Token.Type_)
    (visit_left visit_right : Sema expr) : Sema expr :=
  left ← visit_left; right ← visit_right;
  match GetType left, GetType right with
  | Some _, Some _ =>
      match op with
      | Token.BANG_EQUAL | Token.EQUAL_EQUAL | Token.GREATER | Token.GREATER_EQUAL
      | Token.LESS | Token.LESS_EQUAL =>
          '(result_type, l, r) ← CheckComparisonOperands op left right;
          mret (Expr result_type (ComparisonOpExpr op l r))
      | _ => mret (Expr ty (ComparisonOpExpr op left right))
      end
  | _, _ => mret (Expr ty (ComparisonOpExpr op left right))
  end.

(** The loop that resolves the arguments of a call: it stops at the first argument
    that gets no type, which the boolean tells. *)
Fixpoint ResolveArgs (visit : expr -> Sema expr) (args : list expr) : Sema (list expr * bool) :=
  match args with
  | [] => mret ([], true)
  | a :: args =>
      a ← visit a;
      match GetType a with
      | None => mret (a :: args, false)
      | Some _ => '(args, ok) ← ResolveArgs visit args; mret (a :: args, ok)
      end
  end.

(** The loop that checks the arguments against the parameters; it goes on after
    an error. *)
Fixpoint CheckArgs (func : expr) (params : list (Identifier * type)) (args : list expr)
    : Sema (list expr * bool) :=
  match params, args with
  | (_, expected) :: params, arg :: args =>
      checked ← CheckAssignmentConstraints expected arg;
      match checked with
      | Some arg =>
          '(args, has_errors) ← CheckArgs func params args; mret (arg :: args, has_errors)
      | None =>
          GetFuncName func;; Report kIncorrectCallArgType;;
          '(args, _) ← CheckArgs func params args; mret (arg :: args, true)
      end
  | _, _ => mret (args, false)
  end.

Definition VisitRegularCall (ty : option type) (visit_func : Sema expr)
    (resolve_args : Sema (list expr * bool)) (args : list expr) : Sema expr :=
  func ← visit_func;
  match GetType func with
  | None => mret (Expr ty (CallExpr func args Regular))
  | Some (FunctionType params ret) =>
      ok ← CheckArgCount func args (length params);
      if negb ok then mret (Expr ty (CallExpr func args Regular)) else
      '(args, ok) ← resolve_args;
      if negb ok then mret (Expr ty (CallExpr func args Regular)) else
      '(args, has_errors) ← CheckArgs func params args;
      mret (Expr (if (has_errors : bool) then ty else Some ret) (CallExpr func args Regular))
  | Some _ =>
      Report kNonFunction;; mret (Expr ty (CallExpr func args Regular))
  end.

(** [CheckBuiltinPtrCastCall], given the visits of the replaced first argument and
    of the second. *)
Definition CheckBuiltinPtrCastCall (ty : option type) (func : expr) (args : list expr)
    (visit_target visit_arg : Sema expr) : Sema expr :=
  ok ← CheckArgCount func args 2;
  if negb ok then mret (Expr ty (CallExpr func args BuiltinCall)) else
  match args with
  | [Expr _ (UnaryOpExpr Token.STAR e); arg] =>
      a0 ← visit_target;
      match GetType a0 with
      | None => mret (Expr ty (CallExpr func [a0; arg] BuiltinCall))
      | Some t0 =>
          a1 ← visit_arg;
          match GetType a1 with
          | None => mret (Expr ty (CallExpr func [a0; a1] BuiltinCall))
          | Some t1 =>
              if negb (IsPointerType t0) || negb (IsPointerType t1)
              then Report kBadArgToPtrCast;; mret (Expr ty (CallExpr func [a0; a1] BuiltinCall))
              else mret (Expr (Some t0) (CallExpr func [a0; a1] BuiltinCall))
          end
      end
  | _ => Report kBadArgToPtrCast;; mret (Expr ty (CallExpr func args BuiltinCall))
  end.

(** [CheckBuiltinCall] of a builtin that is not [@ptrCast]. *)
Definition VisitBuiltinCall (ty : option type) (func : expr) (builtin : Builtins.Builtin)
    (resolve_args : Sema (list expr * bool)) : Sema expr :=
  '(args, ok) ← resolve_args;
  if negb ok then mret (Expr ty (CallExpr func args BuiltinCall)) else
  '(args, t) ← CheckResolvedBuiltinCall func args builtin;
  mret (Expr (match t with Some t => Some t | None => ty end) (CallExpr func args BuiltinCall)).

Definition VisitIdentifierExpr (ty : option type) (name : Identifier) : Sema expr :=
  scopes ← CurrentScope;
  match Lookup scopes name with
  | Some t => mret (Expr (Some t) (IdentifierExpr name))
  | None =>
      match LookupBuiltinType name with
      | Some t => mret (Expr (Some t) (IdentifierExpr name))
      | None => Report kUndefinedVariable;; mret (Expr ty (IdentifierExpr name))
      end
  end.

Definition VisitIndexExpr (ty : option type) (visit_obj visit_index : Sema expr) : Sema expr :=
  obj ← visit_obj; index ← visit_index;
  let node ty : Sema expr := mret (Expr ty (IndexExpr obj index)) in
  match GetType obj, GetType index with
  | Some obj_type, Some index_type =>
      if negb (IsArrayType obj_type) && negb (IsMapType obj_type)
      then Report kInvalidIndexOperation;; node ty
      else if negb (IsIntegerType index_type) then Report kInvalidArrayIndexValue;; node ty
      else
        match obj_type with
        | ArrayType _ elem => node (Some elem)
        | MapType _ val => node (Some val)
        | _ => crash
        end
  | _, _ => node ty
  end.

(** The type [VisitLitExpr] gives a literal. *)
Definition LitType (l : literal) : type :=
  match l with
  | LitNil => BuiltinTy BuiltinType.Nil
  | LitBool _ => BuiltinTy BuiltinType.Bool
  | LitFloat _ => BuiltinTy BuiltinType.Float64
  | LitInt _ => BuiltinTy BuiltinType.Int64
  | LitString _ => StringType
  end.

Definition VisitUnaryOpExpr (ty : option type) (op : Token.Type_) (visit : Sema expr)
    : Sema expr :=
  e ← visit;
  let node ty : Sema expr := mret (Expr ty (UnaryOpExpr op e)) in
  match GetType e with
  | None => node ty
  | Some t =>
      match op with
      | Token.BANG => if negb (IsBoolType t) then Report kInvalidOperation;; node ty else node (Some t)
      | Token.MINUS => if negb (IsArithmetic t) then Report kInvalidOperation;; node ty else node (Some t)
      | Token.STAR =>
          match t with
          | PointerType base => node (Some base)
          | _ => Report kInvalidOperation;; node ty
          end
      | Token.AMPERSAND =>
          if IsFunctionType t then Report kInvalidOperation;; node ty
          else node (Some (PointerType t))
      | _ => crash
      end
  end.

Definition VisitMemberExpr (ty : option type) (visit_object : Sema expr) (member : expr)
    : Sema expr :=
  object ← visit_object;
  let node ty : Sema expr := mret (Expr ty (MemberExpr object member)) in
  match GetType object with
  | None => node ty
  | Some t =>
      let obj_type := match t with PointerType base => base | _ => t end in
      match obj_type with
      | StructType fields =>
          match member with
          | NullExpr => crash
          | Expr _ (IdentifierExpr name) =>
              match LookupFieldByName fields name with
              | None => Report kFieldObjectDoesNotExist;; node ty
              | Some t => node (Some t)
              end
          | _ => Report kExpectedIdentifierForMember;; node ty
          end
      | _ => Report kMemberObjectNotComposite;; node ty
      end
  end.

(** Parameters are declared by the names of the function type; the result of
    [Scope::Declare] is ignored. *)
Fixpoint DeclareParams (params : list (Identifier * type)) : Sema () :=
  match params with
  | [] => mret ()
  | (name, t) :: params => Scope_Declare name t;; DeclareParams params
  end.

(** [VisitFunctionLitExpr] once the type is resolved; [visit_body] visits the
    block. *)
Definition VisitFunctionBody (type_repr : expr) (visit_body : Sema (list stmt)) : Sema expr :=
  func_type ← TypeOf type_repr;
  match func_type with
  | FunctionType params ret =>
      FunctionSemaScope func_type (
        DeclareParams params;;
        body ← visit_body;
        let node b : Sema expr := mret (Expr (Some func_type) (FunctionLitExpr type_repr b)) in
        terminating ← match body with [] => mret false | _ => lift (BlockTerminating body) end;
        if negb terminating then
          if negb (IsNilType ret) then Report kMissingReturn;; node body
          else node (body ++ [ReturnStmt None])
        else node body)
  | _ => crash
  end.

Definition VisitFunctionLitExpr (ty : option type) (type_repr : expr) (body : list stmt)
    (visit_type : Sema expr) (visit_body : Sema (list stmt)) : Sema expr :=
  type_repr ← match GetType type_repr with Some _ => mret type_repr | None => visit_type end;
  match GetType type_repr with
  | None => mret (Expr ty (FunctionLitExpr type_repr body))
  | Some _ => VisitFunctionBody type_repr visit_body
  end.

(** ** Types *)

(** The length of an array: [0] for [*]. *)
Definition ArrayLength (len : option expr) : Sema (option Z) :=
  match len with
  | None => mret (Some 0%Z)
  | Some (Expr _ (LitExpr (LitInt n))) =>
      if decide (n < 0)%Z then Report kNegativeArrayLength;; mret None else mret (Some n)
  | Some _ => Report kNonIntegerArrayLength;; mret None
  end.

Definition VisitArrayTypeRepr (ty : option type) (len : option expr) (elem : expr)
    (visit_elem : Sema expr) : Sema expr :=
  n ← ArrayLength len;
  match n with
  | None => mret (Expr ty (ArrayTypeRepr len elem))
  | Some n =>
      elem ← visit_elem;
      match GetType elem with
      | None => mret (Expr ty (ArrayTypeRepr len elem))
      | Some t => mret (Expr (Some (ArrayType n t)) (ArrayTypeRepr len elem))
      end
  end.

(** The loop over the fields of a function or struct type: their types, unless one
    of them has none. *)
Fixpoint ResolveFields (visit : field_decl -> Sema field_decl) (fields : list field_decl)
    : Sema (list field_decl * option (list (Identifier * type))) :=
  match fields with
  | [] => mret ([], Some [])
  | f :: fields =>
      f ← visit f;
      match GetType (field_repr f) with
      | None => mret (f :: fields, None)
      | Some t =>
          '(fields, types) ← ResolveFields visit fields;
          mret (f :: fields, cons (field_name f, t) <$> types)
      end
  end.

Definition VisitFunctionTypeRepr (ty : option type) (ret_type : expr)
    (resolve_params : Sema (list field_decl * option (list (Identifier * type))))
    (visit_ret : Sema expr) : Sema expr :=
  '(params, types) ← resolve_params;
  match types with
  | None => mret (Expr ty (FunctionTypeRepr params ret_type))
  | Some types =>
      ret_type ← visit_ret;
      match GetType ret_type with
      | None => mret (Expr ty (FunctionTypeRepr params ret_type))
      | Some ret => mret (Expr (Some (FunctionType types ret)) (FunctionTypeRepr params ret_type))
      end
  end.

Definition VisitPointerTypeRepr (ty : option type) (visit_base : Sema expr) : Sema expr :=
  base ← visit_base;
  match GetType base with
  | None => mret (Expr ty (PointerTypeRepr base))
  | Some t => mret (Expr (Some (PointerType t)) (PointerTypeRepr base))
  end.

Definition VisitStructTypeRepr (ty : option type)
    (resolve_fields : Sema (list field_decl * option (list (Identifier * type))))
    : Sema expr :=
  '(fields, types) ← resolve_fields;
  match types with
  | None => mret (Expr ty (StructTypeRepr fields))
  | Some types => mret (Expr (Some (StructType types)) (StructTypeRepr fields))
  end.

Definition VisitMapTypeRepr (ty : option type) (visit_key visit_val : Sema expr) : Sema expr :=
  key ← visit_key; val ← visit_val;
  match GetType key, GetType val with
  | Some k, Some v => mret (Expr (Some (MapType k v)) (MapTypeRepr key val))
  | _, _ => mret (Expr ty (MapTypeRepr key val))
  end.

(** ** Statements *)

Definition VisitAssignmentStmt (visit_src visit_dest : Sema expr) : Sema stmt :=
  src ← visit_src; dest ← visit_dest;
  match GetType src, GetType dest with
  | Some _, Some dest_type =>
      checked ← CheckAssignmentConstraints dest_type src;
      match checked with
      | Some src => mret (AssignmentStmt dest src)
      | None => Report kInvalidAssignment;; mret (AssignmentStmt dest src)
      end
  | _, _ => mret (AssignmentStmt dest src)
  end.

(** [VisitBlockStmt]; [visit_all] visits the statements in order. *)
Definition VisitBlockStmt (visit_all : Sema (list stmt)) : Sema (list stmt) :=
  SemaScope BlockScope visit_all.

Definition VisitForStmt (init : option (Sema stmt)) (cond : option (Sema expr))
    (next : option (Sema stmt)) (next0 : option stmt) (body : list stmt)
    (visit_body : Sema (list stmt)) : Sema stmt :=
  SemaScope LoopScope (
    init ← match init with Some v => s ← v; mret (Some s) | None => mret None end;
    let rest cond : Sema stmt :=
      next ← match next with Some v => s ← v; mret (Some s) | None => mret None end;
      body ← visit_body;
      mret (ForStmt init cond next body) in
    match cond with
    | None => rest None
    | Some v =>
        cond ← v;
        match GetType cond with
        | None => mret (ForStmt init (Some cond) next0 body)
        | Some t =>
            (if negb (IsBoolType t) then Report kNonBoolForCondition else mret ());;
            rest (Some cond)
        end
    end).

Definition VisitIfStmt (visit_cond : Sema expr) (then_stmt : list stmt)
    (else_stmt : option stmt) (visit_then : Sema (list stmt)) (visit_else : option (Sema stmt))
    : Sema stmt :=
  cond ← visit_cond;
  match GetType cond with
  | None => mret (IfStmt cond then_stmt else_stmt)
  | Some t =>
      let cond :=
        if is_sql_boolean t
        then NewImplicitCastExpr SqlBoolToBool (BuiltinTy BuiltinType.Bool) cond else cond in
      t ← TypeOf cond;
      (if negb (IsBoolType t) then Report kNonBoolIfCondition else mret ());;
      then_stmt ← visit_then;
      else_stmt ← match visit_else with Some v => s ← v; mret (Some s) | None => mret None end;
      mret (IfStmt cond then_stmt else_stmt)
  end.

Definition VisitReturnStmt (ret : option expr) (visit_ret : option (Sema expr)) : Sema stmt :=
  func ← CurrentFunction;
  match func with
  | None => Report kReturnOutsideFunction;; mret (ReturnStmt ret)
  | Some (FunctionType _ ret_type) =>
      ret ← match visit_ret with Some v => e ← v; mret (Some e) | None => mret None end;
      let return_type := ret ≫= GetType in
      if IsNilType ret_type then
        match return_type with
        | Some _ => Report kMismatchedReturnType;; mret (ReturnStmt ret)
        | None => mret (ReturnStmt ret)
        end
      else
        match ret, return_type with
        | Some e, Some _ =>
            checked ← CheckAssignmentConstraints ret_type e;
            match checked with
            | Some e => mret (ReturnStmt (Some e))
            | None => Report kMismatchedReturnType;; mret (ReturnStmt ret)
            end
        | _, _ => Report kMissingReturn;; mret (ReturnStmt ret)
        end
  | Some _ => crash
  end.

(** ** Declarations *)

Definition VisitVariableDecl (name : Identifier) (type_repr init : option expr)
    (visit_type visit_init : option (Sema expr)) : Sema decl :=
  scopes ← CurrentScope;
  match scopes with
  | [] => crash
  | s :: _ =>
      match LookupLocal s name with
      | Some _ => Report kVariableRedeclared;; mret (VariableDecl name type_repr init)
      | None =>
          if (match type_repr, init with None, None => true | _, _ => false end) then crash else
          type_repr ← match visit_type with Some v => e ← v; mret (Some e) | None => mret None end;
          init ← match visit_init with Some v => e ← v; mret (Some e) | None => mret None end;
          match type_repr ≫= GetType, init, init ≫= GetType with
          | Some declared, Some e, Some _ =>
              checked ← CheckAssignmentConstraints declared e;
              match checked with
              | None =>
                  Report kInvalidAssignment;; mret (VariableDecl name type_repr init)
              | Some e =>
                  Scope_Declare name declared;; mret (VariableDecl name type_repr (Some e))
              end
          | Some t, _, _ | None, _, Some t =>
              Scope_Declare name t;; mret (VariableDecl name type_repr init)
          | None, _, None => mret (VariableDecl name type_repr init)
          end
      end
  end.

Definition VisitStructDecl (name : Identifier) (visit_type : Sema expr) : Sema decl :=
  type_repr ← visit_type;
  match GetType type_repr with
  | None => mret (StructDecl name type_repr)
  | Some t => Scope_Declare name t;; mret (StructDecl name type_repr)
  end.

(** The type of the function is resolved and declared before its body: the node
    that declares the type is the one of the function literal. *)
Definition VisitFunctionDecl (name : Identifier) (ty : option type) (body : list stmt)
    (visit_type : Sema expr) (visit_body : Sema (list stmt)) : Sema decl :=
  type_repr ← visit_type;
  match GetType type_repr with
  | None => mret (FunctionDecl name (Expr ty (FunctionLitExpr type_repr body)))
  | Some t =>
      Scope_Declare name t;;
      func ← VisitFunctionLitExpr ty type_repr body crash visit_body;
      mret (FunctionDecl name func)
  end.

(** ** The visitor *)

Fixpoint VisitExpr (e : expr) : Sema expr :=
  let stmts := fix stmts (l : list stmt) : Sema (list stmt) :=
    match l with
    | [] => mret []
    | s :: l => s ← VisitStmt s; l ← stmts l; mret (s :: l)
    end in
  match e with
  | NullExpr => crash
  | Expr ty BadExpr => crash
  | Expr ty (BinaryOpExpr op l r) => VisitBinaryOpExpr ty op (VisitExpr l) (VisitExpr r)
  | Expr ty (CallExpr func args Regular) =>
      VisitRegularCall ty (VisitExpr func) (ResolveArgs VisitExpr args) args
  | Expr ty (CallExpr func args BuiltinCall) =>
      name ← GetFuncName func;
      match Builtins.IsBuiltinFunction name with
      | None => Report kInvalidBuiltinFunction;; mret e
      | Some Builtins.PtrCast =>
          match args with
          | [Expr _ (UnaryOpExpr Token.STAR base); arg] =>
              CheckBuiltinPtrCastCall ty func args
                (VisitPointerTypeRepr None (VisitExpr base)) (VisitExpr arg)
          | _ => CheckBuiltinPtrCastCall ty func args crash crash
          end
      | Some builtin => VisitBuiltinCall ty func builtin (ResolveArgs VisitExpr args)
      end
  | Expr ty (ComparisonOpExpr op l r) => VisitComparisonOpExpr ty op (VisitExpr l) (VisitExpr r)
  | Expr ty (FunctionLitExpr tr body) =>
      VisitFunctionLitExpr ty tr body (VisitExpr tr) (VisitBlockStmt (stmts body))
  | Expr ty (IdentifierExpr name) => VisitIdentifierExpr ty name
  | Expr ty (ImplicitCastExpr _ _) => crash
  | Expr ty (IndexExpr o i) => VisitIndexExpr ty (VisitExpr o) (VisitExpr i)
  | Expr ty (LitExpr l) => mret (Expr (Some (LitType l)) (LitExpr l))
  | Expr ty (MemberExpr o m) => VisitMemberExpr ty (VisitExpr o) m
  | Expr ty (UnaryOpExpr op e) => VisitUnaryOpExpr ty op (VisitExpr e)
  | Expr ty (ArrayTypeRepr n t) => VisitArrayTypeRepr ty n t (VisitExpr t)
  | Expr ty (FunctionTypeRepr ps r) =>
      VisitFunctionTypeRepr ty r (ResolveFields VisitFieldDecl ps) (VisitExpr r)
  | Expr ty (MapTypeRepr k v) => VisitMapTypeRepr ty (VisitExpr k) (VisitExpr v)
  | Expr ty (PointerTypeRepr b) => VisitPointerTypeRepr ty (VisitExpr b)
  | Expr ty (StructTypeRepr fs) => VisitStructTypeRepr ty (ResolveFields VisitFieldDecl fs)
  end
with VisitFieldDecl (f : field_decl) : Sema field_decl :=
  match f with FieldDecl x e => e ← VisitExpr e; mret (FieldDecl x e) end
with VisitStmt (s : stmt) : Sema stmt :=
  let stmts := fix stmts (l : list stmt) : Sema (list stmt) :=
    match l with
    | [] => mret []
    | s :: l => s ← VisitStmt s; l ← stmts l; mret (s :: l)
    end in
  match s with
  | AssignmentStmt d s => VisitAssignmentStmt (VisitExpr s) (VisitExpr d)
  | BlockStmt l => l ← VisitBlockStmt (stmts l); mret (BlockStmt l)
  | DeclStmt d => d ← VisitDecl d; mret (DeclStmt d)
  | ExpressionStmt e => e ← VisitExpr e; mret (ExpressionStmt e)
  | ForStmt i c n b =>
      VisitForStmt (match i with Some s => Some (VisitStmt s) | None => None end)
        (match c with Some e => Some (VisitExpr e) | None => None end)
        (match n with Some s => Some (VisitStmt s) | None => None end)
        n b (VisitBlockStmt (stmts b))
  | ForInStmt _ _ _ => crash
  | IfStmt c t e =>
      VisitIfStmt (VisitExpr c) t e (VisitBlockStmt (stmts t))
        (match e with Some s => Some (VisitStmt s) | None => None end)
  | ReturnStmt r =>
      VisitReturnStmt r (match r with Some e => Some (VisitExpr e) | None => None end)
  end
with VisitDecl (d : decl) : Sema decl :=
  let stmts := fix stmts (l : list stmt) : Sema (list stmt) :=
    match l with
    | [] => mret []
    | s :: l => s ← VisitStmt s; l ← stmts l; mret (s :: l)
    end in
  match d with
  | FunctionDecl x (Expr ty (FunctionLitExpr tr body)) =>
      VisitFunctionDecl x ty body (VisitExpr tr) (VisitBlockStmt (stmts body))
  | FunctionDecl x _ => crash
  | StructDecl x e => VisitStructDecl x (VisitExpr e)
  | VariableDecl x t i =>
      VisitVariableDecl x t i (match t with Some e => Some (VisitExpr e) | None => None end)
        (match i with Some e => Some (VisitExpr e) | None => None end)
  end.

(** The statements of a block, in order. *)
Fixpoint VisitStmts (l : list stmt) : Sema (list stmt) :=
  match l with
  | [] => mret []
  | s :: l => s ← VisitStmt s; l ← VisitStmts l; mret (s :: l)
  end.

Fixpoint VisitDecls (l : list decl) : Sema (list decl) :=
  match l with
  | [] => mret []
  | d :: l => d ← VisitDecl d; l ← VisitDecls l; mret (d :: l)
  end.

Definition VisitFile (f : file) : Sema file := SemaScope FileScope (VisitDecls f).

(** [Sema::Run]: the annotated file and whether there were errors. *)
Definition Run (f : file) : option (file * bool) :=
  match VisitFile f init_sema with
  | Some (f, st) => Some (f, HasErrors st)
  | None => None
  end.
