(* ===== verification/TplTyping.v ===== *)
(** * The typing rules of TPL

    Rules for annotated trees: what the code generator may rely on after the type
    checker has run.  Every expression carries its type; the operands of an
    operation have the same type, every conversion being an explicit cast whose
    kind fits its source and target; a function body returns on every path; a name
    has the type of its innermost declaration.  The rules know no scopes, no
    messages and no visiting order. *)
From S2P Require Import Prelude Tokens TplTypes TplAst SemaChecks SemaBuiltins BuiltinSigs Sema.

(** The names in scope with their types. *)
Abbreviation env := (gmap Identifier type).

(** A name stands for what it is declared as, or else for a builtin type. *)
Definition name_type (Γ : env) (x : Identifier) : option type :=
  match Γ !! x with Some t => Some t | None => LookupBuiltinType x end.

Abbreviation bool_ty := (BuiltinTy BuiltinType.Bool).
Abbreviation sql_bool_ty := (BuiltinTy BuiltinType.Boolean).
Abbreviation nil_ty := (BuiltinTy BuiltinType.Nil).

(** What a variable, a parameter or a result of type [to] may be given: its type,
    or the other of the two boolean types. *)
Definition assignable (from to : type) : Prop :=
  from = to \/ (from = sql_bool_ty /\ to = bool_ty) \/ (from = bool_ty /\ to = sql_bool_ty).

(** The casts and what they convert. *)
Inductive cast_ok : CastKind -> type -> type -> Prop :=
  | cast_SqlBoolToBool : cast_ok SqlBoolToBool sql_bool_ty bool_ty
  | cast_BoolToSqlBool : cast_ok BoolToSqlBool bool_ty sql_bool_ty
  | cast_Integral a b :
      IsIntegerType a = true -> IsIntegerType b = true -> cast_ok IntegralCast a b
  | cast_IntToFloat a b :
      IsIntegerType a = true -> IsFloatType b = true -> cast_ok IntToFloat a b
  | cast_FloatToInt a b :
      IsFloatType a = true -> IsIntegerType b = true -> cast_ok FloatToInt a b
  | cast_IntToSqlInt a :
      IsIntegerType a = true -> cast_ok IntToSqlInt a (BuiltinTy BuiltinType.Integer)
  | cast_FloatToSqlReal a :
      IsFloatType a = true -> cast_ok FloatToSqlReal a (BuiltinTy BuiltinType.Real)
  | cast_BitCast a b :
      IsPointerType a = true \/ IsPointerType b = true -> cast_ok BitCast a b.

Definition logical_op (op : Token.Type_) : bool :=
  match op with Token.AND | Token.OR => true | _ => false end.

Definition arithmetic_op (op : Token.Type_) : bool :=
  match op with
  | Token.AMPERSAND | Token.BIT_XOR | Token.BIT_OR | Token.PLUS | Token.MINUS | Token.STAR
  | Token.SLASH | Token.PERCENT => true
  | _ => false
  end.

Fixpoint add_params (ps : list (Identifier * type)) (Γ : env) : env :=
  match ps with
  | [] => Γ
  | (x, t) :: ps => add_params ps (<[x := t]> Γ)
  end.

(** The type behind at most one pointer, where a member is looked up. *)
Definition member_base (t : type) : type :=
  match t with PointerType b => b | _ => t end.

Definition array_len (n : option expr) : option Z :=
  match n with
  | None => Some 0%Z
  | Some (Expr _ (LitExpr (LitInt z))) => if decide (0 <= z)%Z then Some z else None
  | Some _ => None
  end.

(** [has_type Γ e t]; [wt_stmt Γ F s Γ']: in a function that returns [F], the
    statement is well typed and the statements after it see [Γ']. *)
Inductive has_type : env -> expr -> type -> Prop :=
  | T_Lit Γ l : has_type Γ (Expr (Some (LitType l)) (LitExpr l)) (LitType l)
  | T_Name Γ x t :
      name_type Γ x = Some t -> has_type Γ (Expr (Some t) (IdentifierExpr x)) t
  | T_Logical Γ op l r :
      logical_op op = true -> has_type Γ l bool_ty -> has_type Γ r bool_ty ->
      has_type Γ (Expr (Some bool_ty) (BinaryOpExpr op l r)) bool_ty
  | T_Arithmetic Γ op l r t :
      arithmetic_op op = true -> IsArithmetic t = true -> has_type Γ l t -> has_type Γ r t ->
      has_type Γ (Expr (Some t) (BinaryOpExpr op l r)) t
  | T_Compare Γ op l r t :
      Token.IsCompareOp op = true -> IsPointerType t = false ->
      has_type Γ l t -> has_type Γ r t ->
      has_type Γ (Expr (Some (built_ret_type t)) (ComparisonOpExpr op l r)) (built_ret_type t)
  | T_ComparePointers Γ op l r t :
      Token.IsEqualityOp op = true -> has_type Γ l (PointerType t) -> has_type Γ r (PointerType t) ->
      has_type Γ (Expr (Some bool_ty) (ComparisonOpExpr op l r)) bool_ty
  | T_CompareNil Γ op l r t u :
      Token.IsEqualityOp op = true -> has_type Γ l t -> has_type Γ r u ->
      (t = nil_ty /\ IsPointerType u = true) \/ (IsPointerType t = true /\ u = nil_ty) ->
      has_type Γ (Expr (Some bool_ty) (ComparisonOpExpr op l r)) bool_ty
  | T_Call Γ f args ts ps ret :
      has_type Γ f (FunctionType ps ret) -> Forall2 (has_type Γ) args ts ->
      Forall2 assignable ts (snd <$> ps) ->
      has_type Γ (Expr (Some ret) (CallExpr f args Regular)) ret
  | T_Builtin Γ fty x b args ts t :
      Builtins.IsBuiltinFunction x = Some b -> b <> Builtins.PtrCast ->
      Forall2 (has_type Γ) args ts -> sig_match (signature_of b) args ->
      result_type (sig_result (signature_of b)) args = Some t ->
      has_type Γ (Expr (Some t) (CallExpr (Expr fty (IdentifierExpr x)) args BuiltinCall)) t
  | T_PtrCast Γ fty x a e t u :
      Builtins.IsBuiltinFunction x = Some Builtins.PtrCast ->
      has_type Γ a (PointerType t) -> has_type Γ e (PointerType u) ->
      has_type Γ (Expr (Some (PointerType t))
        (CallExpr (Expr fty (IdentifierExpr x)) [a; e] BuiltinCall)) (PointerType t)
  | T_Function Γ tr body ps ret Γ' :
      has_type Γ tr (FunctionType ps ret) ->
      wt_stmts (add_params ps Γ) (Some ret) body Γ' -> BlockTerminating body = Some true ->
      has_type Γ (Expr (Some (FunctionType ps ret)) (FunctionLitExpr tr body)) (FunctionType ps ret)
  | T_IndexArray Γ o i n t u :
      has_type Γ o (ArrayType n t) -> has_type Γ i u -> IsIntegerType u = true ->
      has_type Γ (Expr (Some t) (IndexExpr o i)) t
  | T_IndexMap Γ o i k v u :
      has_type Γ o (MapType k v) -> has_type Γ i u -> IsIntegerType u = true ->
      has_type Γ (Expr (Some v) (IndexExpr o i)) v
  | T_Member Γ o ty x t fs u :
      has_type Γ o t -> member_base t = StructType fs -> LookupFieldByName fs x = Some u ->
      has_type Γ (Expr (Some u) (MemberExpr o (Expr ty (IdentifierExpr x)))) u
  | T_Not Γ e :
      has_type Γ e bool_ty -> has_type Γ (Expr (Some bool_ty) (UnaryOpExpr Token.BANG e)) bool_ty
  | T_Minus Γ e t :
      IsArithmetic t = true -> has_type Γ e t ->
      has_type Γ (Expr (Some t) (UnaryOpExpr Token.MINUS e)) t
  | T_Deref Γ e t :
      has_type Γ e (PointerType t) -> has_type Γ (Expr (Some t) (UnaryOpExpr Token.STAR e)) t
  | T_AddressOf Γ e t :
      IsFunctionType t = false -> has_type Γ e t ->
      has_type Γ (Expr (Some (PointerType t)) (UnaryOpExpr Token.AMPERSAND e)) (PointerType t)
  | T_Cast Γ k e t u :
      has_type Γ e t -> cast_ok k t u -> has_type Γ (Expr (Some u) (ImplicitCastExpr k e)) u
  | T_ArrayRepr Γ n e z t :
      array_len n = Some z -> has_type Γ e t ->
      has_type Γ (Expr (Some (ArrayType z t)) (ArrayTypeRepr n e)) (ArrayType z t)
  | T_FunctionRepr Γ fs r ps ret :
      fields_typed Γ fs ps -> has_type Γ r ret ->
      has_type Γ (Expr (Some (FunctionType ps ret)) (FunctionTypeRepr fs r)) (FunctionType ps ret)
  | T_MapRepr Γ k v tk tv :
      has_type Γ k tk -> has_type Γ v tv ->
      has_type Γ (Expr (Some (MapType tk tv)) (MapTypeRepr k v)) (MapType tk tv)
  | T_PointerRepr Γ b t :
      has_type Γ b t -> has_type Γ (Expr (Some (PointerType t)) (PointerTypeRepr b)) (PointerType t)
  | T_StructRepr Γ fs ps :
      fields_typed Γ fs ps ->
      has_type Γ (Expr (Some (StructType ps)) (StructTypeRepr fs)) (StructType ps)
with fields_typed : env -> list field_decl -> list (Identifier * type) -> Prop :=
  | F_nil Γ : fields_typed Γ [] []
  | F_cons Γ x e t fs ps :
      has_type Γ e t -> fields_typed Γ fs ps ->
      fields_typed Γ (FieldDecl x e :: fs) ((x, t) :: ps)
with wt_stmt : env -> option type -> stmt -> env -> Prop :=
  | S_Assign Γ F d s t u :
      has_type Γ d t -> has_type Γ s u -> assignable u t -> wt_stmt Γ F (AssignmentStmt d s) Γ
  | S_Block Γ F l Γ' : wt_stmts Γ F l Γ' -> wt_stmt Γ F (BlockStmt l) Γ
  | S_Decl Γ F d Γ' : wt_decl Γ d Γ' -> wt_stmt Γ F (DeclStmt d) Γ'
  | S_Expr Γ F e t : has_type Γ e t -> wt_stmt Γ F (ExpressionStmt e) Γ
  | S_For Γ F i c n b Γ1 Γ2 Γ3 :
      wt_opt Γ F i Γ1 -> (forall e, c = Some e -> has_type Γ1 e bool_ty) ->
      wt_opt Γ1 F n Γ2 -> wt_stmts Γ2 F b Γ3 -> wt_stmt Γ F (ForStmt i c n b) Γ
  | S_If Γ F c t e Γ1 Γ2 :
      has_type Γ c bool_ty -> wt_stmts Γ F t Γ1 -> wt_opt Γ F e Γ2 ->
      wt_stmt Γ F (IfStmt c t e) Γ
  | S_ReturnNil Γ : wt_stmt Γ (Some nil_ty) (ReturnStmt None) Γ
  | S_Return Γ e t ret :
      ret <> nil_ty -> has_type Γ e t -> assignable t ret ->
      wt_stmt Γ (Some ret) (ReturnStmt (Some e)) Γ
with wt_opt : env -> option type -> option stmt -> env -> Prop :=
  | O_None Γ F : wt_opt Γ F None Γ
  | O_Some Γ F s Γ' : wt_stmt Γ F s Γ' -> wt_opt Γ F (Some s) Γ'
with wt_stmts : env -> option type -> list stmt -> env -> Prop :=
  | L_nil Γ F : wt_stmts Γ F [] Γ
  | L_cons Γ F s l Γ1 Γ2 :
      wt_stmt Γ F s Γ1 -> wt_stmts Γ1 F l Γ2 -> wt_stmts Γ F (s :: l) Γ2
with wt_decl : env -> decl -> env -> Prop :=
  | D_Function Γ x tr body ps ret Γ' :
      has_type Γ tr (FunctionType ps ret) ->
      wt_stmts (add_params ps (<[x := FunctionType ps ret]> Γ)) (Some ret) body Γ' ->
      BlockTerminating body = Some true ->
      wt_decl Γ (FunctionDecl x (Expr (Some (FunctionType ps ret)) (FunctionLitExpr tr body)))
        (<[x := FunctionType ps ret]> Γ)
  | D_Struct Γ x e t :
      has_type Γ e t -> wt_decl Γ (StructDecl x e) (<[x := t]> Γ)
  | D_Type Γ x e t :
      has_type Γ e t -> wt_decl Γ (VariableDecl x (Some e) None) (<[x := t]> Γ)
  | D_Init Γ x e t :
      has_type Γ e t -> wt_decl Γ (VariableDecl x None (Some e)) (<[x := t]> Γ)
  | D_Both Γ x e i t u :
      has_type Γ e t -> has_type Γ i u -> assignable u t ->
      wt_decl Γ (VariableDecl x (Some e) (Some i)) (<[x := t]> Γ).

Inductive wt_decls : env -> list decl -> env -> Prop :=
  | Ds_nil Γ : wt_decls Γ [] Γ
  | Ds_cons Γ d l Γ1 Γ2 : wt_decl Γ d Γ1 -> wt_decls Γ1 l Γ2 -> wt_decls Γ (d :: l) Γ2.

(** A whole program. *)
Definition wt_file (f : file) : Prop := exists Γ, wt_decls ∅ f Γ.

Lemma has_type_GetType Γ e t : has_type Γ e t -> GetType e = Some t.
Proof. by intros []. Qed.

Lemma has_types_GetType Γ args ts :
  Forall2 (has_type Γ) args ts -> Forall (fun a => is_Some (GetType a)) args.
Proof. induction 1; constructor; [|done]. erewrite has_type_GetType by done. eauto. Qed.
