(* ===== verification/SemaSound.v ===== *)
(** * Soundness of the type checker

    A program the parser can produce and in which no declaration reuses a visible
    name is well typed by the rules of [TplTyping] once [Sema::Run] returns without
    an error, and it is still the same program: only types, casts and final
    [return]s were added. *)
From S2P Require Import Prelude Tokens TplTypes TplAst SemaChecks SemaBuiltins BuiltinSigs Sema TplTyping.

(** ** The programs the theorem is about *)

(** A declaration, the only statement that adds a name to its scope. *)
Definition is_decl (s : stmt) : bool := match s with DeclStmt _ => true | _ => false end.

(** What the parser builds: no types yet, no casts, operators in the nodes that can
    have them, and no declaration as an [else] branch. *)
Fixpoint parsed_expr (e : expr) : bool :=
  match e with
  | Expr None (BinaryOpExpr op l r) =>
      (logical_op op || arithmetic_op op) && parsed_expr l && parsed_expr r
  | Expr None (ComparisonOpExpr op l r) =>
      Token.IsCompareOp op && parsed_expr l && parsed_expr r
  | Expr None (CallExpr f args _) => parsed_expr f && forallb parsed_expr args
  | Expr None (FunctionLitExpr tr b) => parsed_expr tr && forallb parsed_stmt b
  | Expr None (IdentifierExpr _) | Expr None (LitExpr _) => true
  | Expr None (IndexExpr o i) => parsed_expr o && parsed_expr i
  | Expr None (MemberExpr o _) => parsed_expr o
  | Expr None (UnaryOpExpr _ e) => parsed_expr e
  | Expr None (ArrayTypeRepr _ e) => parsed_expr e
  | Expr None (FunctionTypeRepr fs r) => forallb parsed_field fs && parsed_expr r
  | Expr None (MapTypeRepr k v) => parsed_expr k && parsed_expr v
  | Expr None (PointerTypeRepr b) => parsed_expr b
  | Expr None (StructTypeRepr fs) => forallb parsed_field fs
  | _ => false
  end
with parsed_field (f : field_decl) : bool :=
  match f with FieldDecl _ e => parsed_expr e end
with parsed_stmt (s : stmt) : bool :=
  let opt_e (o : option expr) := match o with Some e => parsed_expr e | None => true end in
  let opt_s (o : option stmt) := match o with Some s => parsed_stmt s | None => true end in
  match s with
  | AssignmentStmt d s => parsed_expr d && parsed_expr s
  | BlockStmt l => forallb parsed_stmt l
  | DeclStmt d => parsed_decl d
  | ExpressionStmt e => parsed_expr e
  | ForStmt i c n b => opt_s i && opt_e c && opt_s n && forallb parsed_stmt b
  | ForInStmt t i b => parsed_expr t && parsed_expr i && forallb parsed_stmt b
  | IfStmt c t e =>
      parsed_expr c && forallb parsed_stmt t && opt_s e &&
      match e with Some s => negb (is_decl s) | None => true end
  | ReturnStmt r => opt_e r
  end
with parsed_decl (d : decl) : bool :=
  match d with
  | FunctionDecl _ f => parsed_expr f
  | StructDecl _ e => parsed_expr e
  | VariableDecl _ t i =>
      match t with Some e => parsed_expr e | None => true end &&
      match i with Some e => parsed_expr e | None => true end
  end.

(** Names, each of them new among those visible. *)
Fixpoint new_names (V : gset Identifier) (l : list Identifier) : option (gset Identifier) :=
  match l with
  | [] => Some V
  | x :: l => if decide (x ∈ V) then None else new_names ({[x]} ∪ V) l
  end.

(** [fresh_expr V e]: under the visible names [V], no declaration inside [e] reuses
    a visible name.  A statement returns the names visible after it. *)
Fixpoint fresh_expr (V : gset Identifier) (e : expr) : bool :=
  let stmts := fix stmts (V : gset Identifier) (l : list stmt) : option (gset Identifier) :=
    match l with
    | [] => Some V
    | s :: l => match fresh_stmt V s with Some V => stmts V l | None => None end
    end in
  match e with
  | NullExpr => true
  | Expr _ n =>
      match n with
      | BinaryOpExpr _ l r | ComparisonOpExpr _ l r => fresh_expr V l && fresh_expr V r
      | CallExpr f args _ => fresh_expr V f && forallb (fresh_expr V) args
      | FunctionLitExpr tr b =>
          fresh_expr V tr &&
          match tr with
          | Expr _ (FunctionTypeRepr fs _) =>
              match new_names V (field_name <$> fs) with
              | Some V => bool_decide (is_Some (stmts V b))
              | None => false
              end
          | _ => false
          end
      | IndexExpr o i => fresh_expr V o && fresh_expr V i
      | MemberExpr o _ => fresh_expr V o
      | UnaryOpExpr _ e | ArrayTypeRepr _ e | PointerTypeRepr e | ImplicitCastExpr _ e =>
          fresh_expr V e
      | FunctionTypeRepr fs r => forallb (fresh_field V) fs && fresh_expr V r
      | MapTypeRepr k v => fresh_expr V k && fresh_expr V v
      | StructTypeRepr fs => forallb (fresh_field V) fs
      | BadExpr | IdentifierExpr _ | LitExpr _ => true
      end
  end
with fresh_field (V : gset Identifier) (f : field_decl) : bool :=
  match f with FieldDecl _ e => fresh_expr V e end
with fresh_stmt (V : gset Identifier) (s : stmt) : option (gset Identifier) :=
  let stmts := fix stmts (V : gset Identifier) (l : list stmt) : option (gset Identifier) :=
    match l with
    | [] => Some V
    | s :: l => match fresh_stmt V s with Some V => stmts V l | None => None end
    end in
  let opt_e (V : gset Identifier) (o : option expr) :=
    match o with Some e => fresh_expr V e | None => true end in
  let opt_s (V : gset Identifier) (o : option stmt) :=
    match o with Some s => fresh_stmt V s | None => Some V end in
  match s with
  | AssignmentStmt d s => if fresh_expr V d && fresh_expr V s then Some V else None
  | BlockStmt l => match stmts V l with Some _ => Some V | None => None end
  | DeclStmt d => fresh_decl V d
  | ExpressionStmt e => if fresh_expr V e then Some V else None
  | ForStmt i c n b =>
      match opt_s V i with
      | Some V1 =>
          if opt_e V1 c then
            match opt_s V1 n with
            | Some V2 => match stmts V2 b with Some _ => Some V | None => None end
            | None => None
            end
          else None
      | None => None
      end
  | ForInStmt t i b => None
  | IfStmt c t e =>
      if fresh_expr V c then
        match stmts V t, opt_s V e with Some _, Some _ => Some V | _, _ => None end
      else None
  | ReturnStmt r => if opt_e V r then Some V else None
  end
with fresh_decl (V : gset Identifier) (d : decl) : option (gset Identifier) :=
  let stmts := fix stmts (V : gset Identifier) (l : list stmt) : option (gset Identifier) :=
    match l with
    | [] => Some V
    | s :: l => match fresh_stmt V s with Some V => stmts V l | None => None end
    end in
  match d with
  | FunctionDecl x (Expr _ (FunctionLitExpr tr b)) =>
      if decide (x ∈ V) then None
      else if fresh_expr V tr then
        match tr with
        | Expr _ (FunctionTypeRepr fs r) =>
            match new_names ({[x]} ∪ V) (field_name <$> fs) with
            | Some V' => match stmts V' b with Some _ => Some ({[x]} ∪ V) | None => None end
            | None => None
            end
        | _ => None
        end
      else None
  | FunctionDecl _ _ => None
  | StructDecl x e =>
      if decide (x ∈ V) then None
      else if fresh_expr V e then Some ({[x]} ∪ V) else None
  | VariableDecl x t i =>
      if decide (x ∈ V) then None
      else if match t with Some e => fresh_expr V e | None => true end &&
              match i with Some e => fresh_expr V e | None => true end
      then Some ({[x]} ∪ V) else None
  end.

Fixpoint fresh_stmts (V : gset Identifier) (l : list stmt) : option (gset Identifier) :=
  match l with
  | [] => Some V
  | s :: l => match fresh_stmt V s with Some V => fresh_stmts V l | None => None end
  end.

Fixpoint fresh_decls (V : gset Identifier) (l : list decl) : option (gset Identifier) :=
  match l with
  | [] => Some V
  | d :: l => match fresh_decl V d with Some V => fresh_decls V l | None => None end
  end.

Definition parsed_file (f : file) : bool := forallb parsed_decl f.
Definition no_shadowing (f : file) : bool := bool_decide (is_Some (fresh_decls ∅ f)).

(** ** The program without what the checker adds *)

(** A body without its final [return]. *)
Fixpoint drop_return (l : list stmt) : list stmt :=
  match l with
  | [] => []
  | [ReturnStmt None] => []
  | s :: l => s :: drop_return l
  end.

(** Types, casts and final [return]s removed; the target of a [@ptrCast] is an
    expression to the parser and a type to the checker, both written [*e]. *)
Fixpoint strip (e : expr) : expr :=
  match e with
  | NullExpr => NullExpr
  | Expr _ n =>
      match n with
      | BadExpr => NewExpr BadExpr
      | BinaryOpExpr op l r => NewExpr (BinaryOpExpr op (strip l) (strip r))
      | CallExpr f args k => NewExpr (CallExpr (strip f) (map strip args) k)
      | ComparisonOpExpr op l r => NewExpr (ComparisonOpExpr op (strip l) (strip r))
      | FunctionLitExpr tr b => NewExpr (FunctionLitExpr (strip tr) (drop_return (map strip_stmt b)))
      | IdentifierExpr x => NewExpr (IdentifierExpr x)
      | ImplicitCastExpr _ e => strip e
      | IndexExpr o i => NewExpr (IndexExpr (strip o) (strip i))
      | LitExpr l => NewExpr (LitExpr l)
      | MemberExpr o m => NewExpr (MemberExpr (strip o) m)
      | UnaryOpExpr op e => NewExpr (UnaryOpExpr op (strip e))
      | ArrayTypeRepr n e => NewExpr (ArrayTypeRepr n (strip e))
      | FunctionTypeRepr fs r => NewExpr (FunctionTypeRepr (map strip_field fs) (strip r))
      | MapTypeRepr k v => NewExpr (MapTypeRepr (strip k) (strip v))
      | PointerTypeRepr b => NewExpr (UnaryOpExpr Token.STAR (strip b))
      | StructTypeRepr fs => NewExpr (StructTypeRepr (map strip_field fs))
      end
  end
with strip_field (f : field_decl) : field_decl :=
  match f with FieldDecl x e => FieldDecl x (strip e) end
with strip_stmt (s : stmt) : stmt :=
  let opt_e (o : option expr) := match o with Some e => Some (strip e) | None => None end in
  let opt_s (o : option stmt) := match o with Some s => Some (strip_stmt s) | None => None end in
  match s with
  | AssignmentStmt d s => AssignmentStmt (strip d) (strip s)
  | BlockStmt l => BlockStmt (map strip_stmt l)
  | DeclStmt d => DeclStmt (strip_decl d)
  | ExpressionStmt e => ExpressionStmt (strip e)
  | ForStmt i c n b => ForStmt (opt_s i) (opt_e c) (opt_s n) (map strip_stmt b)
  | ForInStmt t i b => ForInStmt (strip t) (strip i) (map strip_stmt b)
  | IfStmt c t e => IfStmt (strip c) (map strip_stmt t) (opt_s e)
  | ReturnStmt r => ReturnStmt (opt_e r)
  end
with strip_decl (d : decl) : decl :=
  let opt_e (o : option expr) := match o with Some e => Some (strip e) | None => None end in
  match d with
  | FunctionDecl x f => FunctionDecl x (strip f)
  | StructDecl x e => StructDecl x (strip e)
  | VariableDecl x t i => VariableDecl x (opt_e t) (opt_e i)
  end.

Definition strip_file (f : file) : file := map strip_decl f.

(** ** Messages are never taken back *)

Lemma mono_SetType t : mono (SetType t).
Proof. apply mono_ret. Qed.

Lemma mono_with_arg_count f args n k : mono k -> mono (with_arg_count f args n k).
Proof. intros H. unfold with_arg_count, stop. solve_mono. Qed.

Lemma mono_with_arg_count_at_least f args n k : mono k -> mono (with_arg_count_at_least f args n k).
Proof. intros H. unfold with_arg_count_at_least, stop. solve_mono. Qed.

#[local] Hint Resolve mono_SetType mono_with_arg_count mono_with_arg_count_at_least
  mono_ArgType mono_stop : mono.

Lemma mono_check_arg f args i p k : mono k -> mono (check_arg f args i p k).
Proof. intros H. unfold check_arg. solve_mono. Qed.

Lemma mono_check_arg2 f args i p k : mono k -> mono (check_arg2 f args i p k).
Proof. intros H. unfold check_arg2. solve_mono. Qed.

Lemma mono_check_arg_expr f args i p k : mono k -> mono (check_arg_expr f args i p k).
Proof. intros H. unfold check_arg_expr. solve_mono. Qed.

Lemma mono_check_arg_msg args i p m k : mono k -> mono (check_arg_msg args i p m k).
Proof. intros H. unfold check_arg_msg. solve_mono. Qed.

Lemma mono_warn_arg2 f args i p k : mono k -> mono (warn_arg2 f args i p k).
Proof. intros H. unfold warn_arg2. solve_mono. Qed.

Lemma mono_check_functions f args i k : mono k -> mono (check_functions f args i k).
Proof. intros H. unfold check_functions. solve_mono. Qed.

Lemma mono_check_all_args args p fail k : mono fail -> mono k -> mono (check_all_args args p fail k).
Proof. intros Hf Hk. induction args; cbn; solve_mono. Qed.

Lemma mono_keep_args args m : mono m -> mono (keep_args args m).
Proof. intros H. unfold keep_args. solve_mono. Qed.

#[local] Hint Unfold
  CheckBuiltinSqlConversionCall CheckBuiltinFilterCall CheckBuiltinAggHashTableCall
  CheckBuiltinAggHashTableIterCall CheckBuiltinAggPartIterCall
  CheckBuiltinAggregatorCall CheckBuiltinJoinHashTableInit
  CheckBuiltinJoinHashTableInsert CheckBuiltinJoinHashTableBuild
  CheckBuiltinJoinHashTableFree CheckBuiltinJoinHashTableIterInit
  CheckBuiltinJoinHashTableIterHasNext CheckBuiltinJoinHashTableIterGetRow
  CheckBuiltinJoinHashTableIterClose CheckBuiltinExecutionContextCall
  CheckBuiltinThreadStateContainerCall CheckBuiltinTableIterCall
  CheckBuiltinTableIterParCall CheckBuiltinPCICall CheckBuiltinHashCall
  CheckBuiltinFilterManagerCall CheckMathTrigCall CheckBuiltinSizeOfCall
  CheckBuiltinSorterInit CheckBuiltinSorterInsert CheckBuiltinSorterSort
  CheckBuiltinSorterFree CheckBuiltinSorterIterCall CheckBuiltinOutputAlloc
  CheckBuiltinOutputFinalize CheckBuiltinIndexIteratorInit CheckBuiltinIndexIteratorScan
  CheckBuiltinIndexIteratorAdvance CheckBuiltinIndexIteratorFree
  CheckBuiltinIndexIteratorPRCall CheckBuiltinPRCall CheckBuiltinStorageInterfaceCall
  CheckBuiltinParamCall : families.

Ltac check_mono_step :=
  first
    [ apply mono_keep_args | apply mono_with_arg_count | apply mono_with_arg_count_at_least
    | apply mono_check_arg | apply mono_check_arg2 | apply mono_check_arg_expr
    | apply mono_check_arg_msg | apply mono_warn_arg2 | apply mono_check_functions
    | apply mono_check_all_args | mono_step ].

Lemma mono_CheckResolvedBuiltinCall f args b : mono (CheckResolvedBuiltinCall f args b).
Proof.
  unfold CheckResolvedBuiltinCall.
  destruct b; autounfold with families; repeat (cbv beta zeta iota; check_mono_step).
Qed.

#[local] Hint Resolve mono_CheckResolvedBuiltinCall : mono.

Lemma mono_VisitBinaryOpExpr ty op l r : mono l -> mono r -> mono (VisitBinaryOpExpr ty op l r).
Proof. intros Hl Hr. unfold VisitBinaryOpExpr. solve_mono. Qed.

Lemma mono_VisitComparisonOpExpr ty op l r :
  mono l -> mono r -> mono (VisitComparisonOpExpr ty op l r).
Proof. intros Hl Hr. unfold VisitComparisonOpExpr. solve_mono. Qed.

Lemma mono_ResolveArgs visit args : Forall (fun a => mono (visit a)) args -> mono (ResolveArgs visit args).
Proof. induction 1; cbn; solve_mono. Qed.

Lemma mono_CheckArgs f ps args : mono (CheckArgs f ps args).
Proof. revert args. induction ps as [|[x t] ps IH]; intros [|a args]; cbn; solve_mono. Qed.

#[local] Hint Resolve mono_CheckArgs : mono.

Lemma mono_VisitRegularCall ty f r args : mono f -> mono r -> mono (VisitRegularCall ty f r args).
Proof. intros Hf Hr. unfold VisitRegularCall. solve_mono. Qed.

Lemma mono_CheckBuiltinPtrCastCall ty f args a b :
  mono a -> mono b -> mono (CheckBuiltinPtrCastCall ty f args a b).
Proof. intros Ha Hb. unfold CheckBuiltinPtrCastCall. solve_mono. Qed.

Lemma mono_VisitBuiltinCall ty f b r : mono r -> mono (VisitBuiltinCall ty f b r).
Proof. intros Hr. unfold VisitBuiltinCall. solve_mono. Qed.

Lemma mono_VisitIdentifierExpr ty x : mono (VisitIdentifierExpr ty x).
Proof. unfold VisitIdentifierExpr. solve_mono. Qed.

Lemma mono_VisitIndexExpr ty o i : mono o -> mono i -> mono (VisitIndexExpr ty o i).
Proof. intros Ho Hi. unfold VisitIndexExpr. solve_mono. Qed.

Lemma mono_VisitUnaryOpExpr ty op e : mono e -> mono (VisitUnaryOpExpr ty op e).
Proof. intros He. unfold VisitUnaryOpExpr. solve_mono. Qed.

Lemma mono_VisitMemberExpr ty o m : mono o -> mono (VisitMemberExpr ty o m).
Proof. intros Ho. unfold VisitMemberExpr. solve_mono. Qed.

Lemma mono_DeclareParams ps : mono (DeclareParams ps).
Proof. induction ps as [|[x t] ps IH]; cbn; solve_mono. Qed.

#[local] Hint Resolve mono_DeclareParams : mono.

Lemma mono_VisitFunctionBody tr b : mono b -> mono (VisitFunctionBody tr b).
Proof.
  intros Hb. unfold VisitFunctionBody. apply mono_bind; [auto with mono|intros []; auto with mono].
  apply mono_FunctionSemaScope. solve_mono.
Qed.

#[local] Hint Resolve mono_VisitFunctionBody : mono.

Lemma mono_VisitFunctionLitExpr ty tr b vt vb :
  mono vt -> mono vb -> mono (VisitFunctionLitExpr ty tr b vt vb).
Proof. intros Ht Hb. unfold VisitFunctionLitExpr. solve_mono. Qed.

Lemma mono_VisitArrayTypeRepr ty n e v : mono v -> mono (VisitArrayTypeRepr ty n e v).
Proof. intros Hv. unfold VisitArrayTypeRepr, ArrayLength. solve_mono. Qed.

Lemma mono_ResolveFields visit fs : Forall (fun f => mono (visit f)) fs -> mono (ResolveFields visit fs).
Proof. induction 1; cbn; solve_mono. Qed.

Lemma mono_VisitFunctionTypeRepr ty r ps v : mono ps -> mono v -> mono (VisitFunctionTypeRepr ty r ps v).
Proof. intros Hp Hv. unfold VisitFunctionTypeRepr. solve_mono. Qed.

Lemma mono_VisitPointerTypeRepr ty v : mono v -> mono (VisitPointerTypeRepr ty v).
Proof. intros Hv. unfold VisitPointerTypeRepr. solve_mono. Qed.

Lemma mono_VisitStructTypeRepr ty v : mono v -> mono (VisitStructTypeRepr ty v).
Proof. intros Hv. unfold VisitStructTypeRepr. solve_mono. Qed.

Lemma mono_VisitMapTypeRepr ty k v : mono k -> mono v -> mono (VisitMapTypeRepr ty k v).
Proof. intros Hk Hv. unfold VisitMapTypeRepr. solve_mono. Qed.

Lemma mono_VisitAssignmentStmt s d : mono s -> mono d -> mono (VisitAssignmentStmt s d).
Proof. intros Hs Hd. unfold VisitAssignmentStmt. solve_mono. Qed.

Lemma mono_VisitBlockStmt v : mono v -> mono (VisitBlockStmt v).
Proof. apply mono_SemaScope. Qed.

Lemma mono_VisitForStmt i c n n0 b0 b :
  on_option mono i -> on_option mono c -> on_option mono n -> mono b ->
  mono (VisitForStmt i c n n0 b0 b).
Proof.
  intros Hi Hc Hn Hb. apply mono_SemaScope. destruct i, c, n; cbn in *; solve_mono.
Qed.

Lemma mono_VisitIfStmt c t e vt ve :
  mono c -> mono vt -> on_option mono ve -> mono (VisitIfStmt c t e vt ve).
Proof. intros Hc Ht He. unfold VisitIfStmt. destruct ve; cbn in *; solve_mono. Qed.

Lemma mono_VisitReturnStmt r v : on_option mono v -> mono (VisitReturnStmt r v).
Proof. intros Hv. unfold VisitReturnStmt. destruct v; cbn in *; solve_mono. Qed.

Lemma mono_VisitVariableDecl x t i vt vi :
  on_option mono vt -> on_option mono vi -> mono (VisitVariableDecl x t i vt vi).
Proof. intros Ht Hi. unfold VisitVariableDecl. destruct vt, vi; cbn in *; solve_mono. Qed.

Lemma mono_VisitStructDecl x v : mono v -> mono (VisitStructDecl x v).
Proof. intros Hv. unfold VisitStructDecl. solve_mono. Qed.

Lemma mono_VisitFunctionDecl x ty b vt vb : mono vt -> mono vb -> mono (VisitFunctionDecl x ty b vt vb).
Proof.
  intros Ht Hb. unfold VisitFunctionDecl. pose proof (fun tr => mono_VisitFunctionLitExpr ty tr b crash vb).
  solve_mono; auto with mono.
Qed.

Lemma mono_VisitStmts l : Forall (fun s => mono (VisitStmt s)) l -> mono (VisitStmts l).
Proof. induction 1; cbn; solve_mono. Qed.

#[local] Hint Resolve mono_VisitBinaryOpExpr mono_VisitComparisonOpExpr mono_ResolveArgs
  mono_VisitRegularCall mono_CheckBuiltinPtrCastCall mono_VisitBuiltinCall
  mono_VisitIdentifierExpr mono_VisitIndexExpr mono_VisitUnaryOpExpr mono_VisitMemberExpr
  mono_VisitFunctionLitExpr mono_VisitArrayTypeRepr mono_ResolveFields
  mono_VisitFunctionTypeRepr mono_VisitPointerTypeRepr mono_VisitStructTypeRepr
  mono_VisitMapTypeRepr mono_VisitAssignmentStmt mono_VisitBlockStmt mono_VisitForStmt
  mono_VisitIfStmt mono_VisitReturnStmt mono_VisitVariableDecl mono_VisitStructDecl
  mono_VisitFunctionDecl mono_VisitStmts : mono.

(** The visitor equations, with the statements of a block folded. *)
Lemma VisitExpr_function ty tr b :
  VisitExpr (Expr ty (FunctionLitExpr tr b)) =
  VisitFunctionLitExpr ty tr b (VisitExpr tr) (VisitBlockStmt (VisitStmts b)).
Proof. reflexivity. Qed.

Lemma VisitStmt_block l :
  VisitStmt (BlockStmt l) = (l ← VisitBlockStmt (VisitStmts l); mret (BlockStmt l)).
Proof. reflexivity. Qed.

Lemma visit_mono :
  (forall e, mono (VisitExpr e)) /\ (forall f, mono (VisitFieldDecl f)) /\
  (forall s, mono (VisitStmt s)) /\ (forall d, mono (VisitDecl d)).
Proof.
  apply ast_ind; intros; cbn [VisitExpr VisitFieldDecl VisitStmt VisitDecl].
  all: try solve [auto with mono | solve_mono].
  - assert (Forall (fun a => mono (VisitExpr a)) args) as Hargs
      by (eapply Forall_impl; [done|by intros ? []]).
    destruct k; [auto with mono|]. apply mono_bind; [auto with mono|intros x].
    destruct (Builtins.IsBuiltinFunction x) as [b|]; [|solve_mono].
    destruct b; try solve [auto with mono].
    assert (mono (CheckBuiltinPtrCastCall t f args crash crash)) by auto with mono.
    destruct args as [|[|ty []] [|arg []]]; try done;
      destruct op; try done.
    apply Forall_cons in H0 as [[_ Hb] H0]. apply Forall_cons in H0 as [[Ha _] _].
    cbn in Hb. auto with mono.
  - destruct H as [??]. auto with mono.
  - destruct i, c, n; cbn in *; apply mono_VisitForStmt; cbn; auto with mono.
  - destruct e; cbn in *; apply mono_VisitIfStmt; cbn; auto with mono.
  - destruct r; cbn in *; apply mono_VisitReturnStmt; cbn; auto with mono.
  - destruct f as [|ty []]; auto with mono. destruct H0 as [[??]?]. auto with mono.
  - destruct t, i; cbn in *; apply mono_VisitVariableDecl; cbn; auto with mono.
Qed.

Lemma mono_VisitExpr e : mono (VisitExpr e).
Proof. apply visit_mono. Qed.
Lemma mono_VisitFieldDecl f : mono (VisitFieldDecl f).
Proof. apply visit_mono. Qed.
Lemma mono_VisitStmt s : mono (VisitStmt s).
Proof. apply visit_mono. Qed.
Lemma mono_VisitDecl d : mono (VisitDecl d).
Proof. apply visit_mono. Qed.
Lemma mono_VisitBlock l : mono (VisitStmts l).
Proof. apply mono_VisitStmts, Forall_forall. intros. apply mono_VisitStmt. Qed.

#[local] Hint Resolve mono_VisitExpr mono_VisitFieldDecl mono_VisitStmt mono_VisitDecl
  mono_VisitBlock : mono.

(** ** The checks *)

Lemma ok_TypeOf_bind {A} Γ e t (k : type -> Sema A) st x st' :
  has_type Γ e t -> ok (TypeOf e ≫= k) st x st' -> ok (k t) st x st'.
Proof.
  intros He [H ?]. split; [|done]. rewrite <-H. symmetry. apply bind_Some.
  unfold TypeOf, lift. by rewrite (has_type_GetType _ _ _ He).
Qed.

(** A branch that reports is not taken. *)
Ltac ok_report :=
  match goal with
  | H : ok (Report _ ≫= _) _ _ _ |- _ =>
      exfalso; apply ok_Report_bind in H; [exact H|intros; solve_mono]
  end.

(** The end of a computation. *)
Ltac ok_done :=
  match goal with
  | H : ok (mret _) _ _ _ |- _ => apply ok_ret in H as [-> ->]
  end.

Lemma is_builtin t k : IsSpecificBuiltin t k = true -> t = BuiltinTy k.
Proof. destruct t; try done. cbn. by intros ->%bool_decide_eq_true. Qed.

Lemma strip_cast_if (b : bool) e t k : strip (if b then ImplCastExprToType e t k else e) = strip e.
Proof. by destruct b. Qed.

Lemma CheckLogicalOperands_ok Γ op l r lt rt st res st' :
  has_type Γ l lt -> has_type Γ r rt -> ok (CheckLogicalOperands op l r) st res st' ->
  st' = st /\ exists l' r', res = (Some bool_ty, l', r') /\
    has_type Γ l' bool_ty /\ has_type Γ r' bool_ty /\ strip l' = strip l /\ strip r' = strip r.
Proof.
  intros Hl Hr H. unfold CheckLogicalOperands in H.
  do 2 (eapply ok_TypeOf_bind in H; [|done]).
  assert (forall e t, has_type Γ e t -> exists t', has_type Γ
    (if is_sql_boolean t then ImplCastExprToType e bool_ty SqlBoolToBool else e) t') as Hc.
  { intros e t He. destruct (is_sql_boolean t) eqn:E; [|eauto]. apply is_builtin in E as ->.
    eexists. eapply T_Cast; [done|constructor]. }
  destruct (Hc _ _ Hl) as [lt' Hl'], (Hc _ _ Hr) as [rt' Hr'].
  do 2 (eapply ok_TypeOf_bind in H; [|done]). cbv beta in H.
  destruct (IsBoolType lt' && IsBoolType rt') eqn:E; [|ok_report].
  apply andb_true_iff in E as [->%is_builtin ->%is_builtin]. ok_done.
  split; [done|]. do 2 eexists. split_and!; [done|done|done|apply strip_cast_if..].
Qed.

(** An operand cast by the check. *)
Lemma cast_typed Γ k e t u : has_type Γ e t -> cast_ok k t u -> has_type Γ (ImplCastExprToType e u k) u.
Proof. intros He Hk. by eapply T_Cast. Qed.

Lemma arithmetic_of_int t : IsIntegerType t = true -> IsArithmetic t = true.
Proof. intros H. unfold IsArithmetic. by rewrite H. Qed.

Lemma CheckArithmeticOperands_ok Γ op l r lt rt st res st' :
  has_type Γ l lt -> has_type Γ r rt -> ok (CheckArithmeticOperands op l r) st res st' ->
  st' = st /\ exists t l' r', res = (Some t, l', r') /\ IsArithmetic t = true /\
    has_type Γ l' t /\ has_type Γ r' t /\ strip l' = strip l /\ strip r' = strip r.
Proof.
  intros Hl Hr H. unfold CheckArithmeticOperands in H.
  do 2 (eapply ok_TypeOf_bind in H; [|done]). cbv beta zeta in H.
  destruct (IsArithmetic lt) eqn:Al, (IsArithmetic rt) eqn:Ar; cbn [negb orb] in H; try ok_report.
  repeat case_match; simplify_eq; try ok_report; ok_done; (split; [done|]);
    repeat match goal with
      | H : _ && _ = true |- _ => apply andb_true_iff in H as [??]
      | H : IsSpecificBuiltin _ _ = true |- _ => apply is_builtin in H as ->
      end;
    do 3 eexists; split_and!; try done; eapply cast_typed; try done; by constructor.
Qed.

Lemma pointee_pointer t : IsPointerType t = true -> exists u, t = PointerType u.
Proof. destruct t; try done. eauto. Qed.

(** Two arguments of a comparison once they have the same type. *)
Lemma compare_same Γ op l r t u :
  Token.IsCompareOp op = true -> has_type Γ l t -> has_type Γ r t -> IsPointerType t = false ->
  u = built_ret_type t -> has_type Γ (Expr (Some u) (ComparisonOpExpr op l r)) u.
Proof. intros ? ? ? ? ->. by apply T_Compare. Qed.

Lemma compare_pointers Γ op l r lt rt :
  Token.IsEqualityOp op = true -> has_type Γ l lt -> has_type Γ r rt ->
  IsPointerType lt || IsPointerType rt = true ->
  (bool_decide (GetPointeeType lt <> None) && bool_decide (GetPointeeType lt = GetPointeeType rt)) ||
  ((bool_decide (GetPointeeType lt = None) && IsNilType lt) ||
   (bool_decide (GetPointeeType rt = None) && IsNilType rt)) = true ->
  has_type Γ (Expr (Some bool_ty) (ComparisonOpExpr op l r)) bool_ty.
Proof.
  intros Hop Hl Hr Hp. rewrite !orb_true_iff, !andb_true_iff, !bool_decide_eq_true.
  intros [[Hn He]|[[_ ->%is_builtin]|[_ ->%is_builtin]]].
  - destruct lt as [| |u| | | |]; try done. destruct rt as [| |v| | | |]; simplify_eq/=.
    by eapply T_ComparePointers.
  - eapply T_CompareNil; [done..|]. left. split; [done|]. by rewrite orb_false_l in Hp.
  - eapply T_CompareNil; [done..|]. right. split; [|done]. by rewrite orb_false_r in Hp.
Qed.

Lemma int_not_pointer t : IsIntegerType t = true -> IsPointerType t = false.
Proof. by destruct t. Qed.

Lemma int_ret t : IsIntegerType t = true -> built_ret_type t = bool_ty.
Proof. destruct t; try done. by destruct kind. Qed.

Lemma CheckComparisonOperands_ok Γ op l r lt rt st res st' :
  Token.IsCompareOp op = true ->
  has_type Γ l lt -> has_type Γ r rt -> ok (CheckComparisonOperands op l r) st res st' ->
  st' = st /\ exists t l' r', res = (Some t, l', r') /\
    has_type Γ (Expr (Some t) (ComparisonOpExpr op l' r')) t /\
    strip l' = strip l /\ strip r' = strip r.
Proof.
  intros Hop Hl Hr H. unfold CheckComparisonOperands in H.
  do 2 (eapply ok_TypeOf_bind in H; [|done]). cbv beta zeta in H.
  destruct (IsPointerType lt || IsPointerType rt) eqn:Hp.
  { destruct (Token.IsEqualityOp op) eqn:Heq; cbn [negb] in H; [|ok_report].
    destruct (_ || _) eqn:E in H; [|ok_report]. ok_done. split; [done|].
    do 3 eexists. split_and!; [done| |done|done]. by eapply compare_pointers. }
  apply orb_false_iff in Hp as [Hlp Hrp].
  repeat case_match; simplify_eq; try ok_report; ok_done; (split; [done|]);
    repeat match goal with
      | H : _ && _ = true |- _ => apply andb_true_iff in H as [??]
      | H : IsSpecificBuiltin _ _ = true |- _ => apply is_builtin in H as ->
      | H : IsBoolType _ = true |- _ => apply is_builtin in H as ->
      | H : is_sql_boolean _ = true |- _ => apply is_builtin in H as ->
      end;
    do 3 eexists; split_and!; try done;
    eapply compare_same; try done; try (eapply cast_typed; [done|by constructor]).
  all: symmetry; by apply int_ret.
Qed.

Lemma CheckAssignmentConstraints_ok Γ target e t st res st' :
  has_type Γ e t -> ok (CheckAssignmentConstraints target e) st res st' ->
  st' = st /\ forall e', res = Some e' ->
    exists t', has_type Γ e' t' /\ assignable t' target /\ strip e' = strip e.
Proof.
  intros He H. unfold CheckAssignmentConstraints in H.
  eapply ok_TypeOf_bind in H; [|done]. cbv beta zeta in H.
  destruct (decide (t = target)) as [->|Hne].
  { ok_done. split; [done|]. intros e' [= <-]. eexists. split_and!; [done|by left|done]. }
  destruct (_ || _) eqn:Hb in H.
  { ok_done. split; [done|]. intros e' [= <-]. exists t. split_and!; [done| |done].
    apply orb_true_iff in Hb as [Hb|Hb]; apply andb_true_iff in Hb as [->%is_builtin ->%is_builtin];
      unfold assignable; auto. }
  assert (forall k, cast_ok k t target -> ok (mret (Some (ImplCastExprToType e target k))) st res st' ->
    st' = st /\ forall e', res = Some e' ->
    exists t', has_type Γ e' t' /\ assignable t' target /\ strip e' = strip e) as Hcast.
  { intros k Hk Hok. apply ok_ret in Hok as [-> ->]. split; [done|]. intros e' [= <-].
    exists target. split_and!; [by eapply cast_typed|by left|done]. }
  destruct (IsIntegerType target && IsIntegerType t) eqn:E1.
  { apply andb_true_iff in E1 as [??]. by apply (Hcast IntegralCast); [constructor|]. }
  destruct (IsIntegerType target && IsFloatType t) eqn:E2.
  { apply andb_true_iff in E2 as [??]. by apply (Hcast FloatToInt); [constructor|]. }
  destruct (IsFloatType target && IsIntegerType t) eqn:E3.
  { apply andb_true_iff in E3 as [??]. by apply (Hcast IntToFloat); [constructor|]. }
  destruct (match target, GetPointeeType t with
            | ArrayType n _, Some (ArrayType m _) => HasUnknownLength n && HasKnownLength m
            | _, _ => false end) eqn:E4.
  { apply (Hcast BitCast); [|done]. constructor. left. by destruct target, t; cbn in E4. }
  destruct (IsPointerType target || IsPointerType t) eqn:E5.
  { apply (Hcast BitCast); [|done]. constructor. apply orb_true_iff in E5 as [|]; auto. }
  ok_done. by split.
Qed.

(** ** Scopes and environments *)

(** The chain of scopes shows the names of [Γ], all of them in [V]. *)
Definition in_scope (st : sema) (Γ : env) (V : gset Identifier) : Prop :=
  scope_ st <> [] /\ (forall x, Lookup (scope_ st) x = Γ !! x) /\ dom Γ ⊆ V.

(** The function being checked returns [F]. *)
Definition returns (st : sema) (F : option type) : Prop :=
  match curr_func_ st with
  | Some (FunctionType _ ret) => F = Some ret
  | Some _ => False
  | None => F = None
  end.

(** What a statement may change: the innermost scope. *)
Definition after (st st' : sema) : Prop :=
  errors_ st' = errors_ st /\ curr_func_ st' = curr_func_ st /\
  tail (scope_ st') = tail (scope_ st) /\ scope_ st' <> [].

Lemma after_refl st : scope_ st <> [] -> after st st.
Proof. done. Qed.

Lemma after_trans st1 st2 st3 : after st1 st2 -> after st2 st3 -> after st1 st3.
Proof. intros (?&?&?&?) (?&?&?&?). split_and!; congruence. Qed.

Lemma returns_after st st' F : after st st' -> returns st F -> returns st' F.
Proof. intros (_ & H & _) HF. unfold returns. by rewrite H. Qed.

Lemma in_scope_weaken st Γ V V' : in_scope st Γ V -> V ⊆ V' -> in_scope st Γ V'.
Proof. intros (?&?&?) ?. split_and!; [done..|set_solver]. Qed.

Lemma Lookup_insert s outer x t y :
  Lookup (s :: outer) x = None ->
  Lookup (mkScope (scope_kind_ s) (<[x := t]> (decls_ s)) :: outer) y =
    if decide (x = y) then Some t else Lookup (s :: outer) y.
Proof.
  intros Hx. cbn [Lookup decls_]. unfold LookupLocal. cbn [decls_].
  destruct (decide (x = y)) as [->|Hne].
  - by rewrite lookup_insert_eq.
  - by rewrite lookup_insert_ne by done.
Qed.

Lemma Declare_fresh st Γ V x t :
  in_scope st Γ V -> x ∉ V ->
  exists st', Scope_Declare x t st = Some (true, st') /\
    in_scope st' (<[x := t]> Γ) ({[x]} ∪ V) /\ after st st'.
Proof.
  intros (Hs & HΓ & HV) Hx. unfold Scope_Declare, after.
  destruct (scope_ st) as [|s outer] eqn:E; [done|].
  assert (Lookup (s :: outer) x = None) as Hn.
  { rewrite HΓ. apply not_elem_of_dom. set_solver. }
  rewrite Hn. eexists. split; [done|]. split; [|done]. split_and!; [done| |].
  - intros y. cbn [scope_]. rewrite Lookup_insert by done.
    destruct (decide (x = y)) as [->|]; [by rewrite lookup_insert_eq|].
    by rewrite lookup_insert_ne, HΓ by done.
  - rewrite dom_insert. set_solver.
Qed.

Lemma DeclareParams_fresh ps st Γ V V' :
  in_scope st Γ V -> new_names V (fst <$> ps) = Some V' ->
  exists st', DeclareParams ps st = Some ((), st') /\
    in_scope st' (add_params ps Γ) V' /\ after st st'.
Proof.
  revert st Γ V. induction ps as [|[x t] ps IH]; intros st Γ V Hst HV; cbn in *.
  { simplify_eq. exists st. split_and!; [done..|]. apply after_refl, Hst. }
  case_decide as Hx; [done|].
  destruct (Declare_fresh st Γ V x t Hst Hx) as (st1 & H1 & Hst1 & Ha1).
  destruct (IH st1 _ _ Hst1 HV) as (st2 & H2 & Hst2 & Ha2).
  exists st2. split_and!; [|done|by eapply after_trans].
  erewrite bind_Some by done. done.
Qed.

(** Entering a scope shows the same names. *)
Definition enter (k : ScopeKind) (st : sema) : sema :=
  mkSema (mkScope k ∅ :: scope_ st) (curr_func_ st) (errors_ st).

Lemma in_scope_enter k st Γ V : in_scope st Γ V -> in_scope (enter k st) Γ V.
Proof.
  intros (_ & HΓ & HV). split_and!; [done| |done]. intros x. cbn. unfold LookupLocal. cbn.
  by rewrite lookup_empty, HΓ.
Qed.

Lemma SemaScope_ok {A} k (m : Sema A) st x st' :
  mono m -> ok (SemaScope k m) st x st' ->
  exists st1, ok m (enter k st) x st1 /\ (after (enter k st) st1 -> st' = st).
Proof.
  intros Hm H. unfold SemaScope in H.
  apply ok_bind in H as (u & st0 & [H0 _] & H); [|auto with mono|intros; solve_mono].
  injection H0 as <- <-.
  apply ok_bind in H as (y & st1 & H1 & H); [|auto with mono|intros; solve_mono].
  apply ok_bind in H as (u & st2 & [H2 _] & H); [|auto with mono|intros; solve_mono].
  ok_done. exists st1. split; [done|]. intros (He & Hf & Ht & Hs). unfold ExitScope in H2.
  destruct (scope_ st1) as [|s outer]; [done|]. injection H2 as <- <-. cbn in *.
  destruct st; cbn in *. congruence.
Qed.

(** A function is checked with its type as the current one. *)
Definition enter_function (f : type) (st : sema) : sema :=
  mkSema (mkScope FunctionScope ∅ :: scope_ st) (Some f) (errors_ st).

Lemma in_scope_enter_function f st Γ V : in_scope st Γ V -> in_scope (enter_function f st) Γ V.
Proof. apply (in_scope_enter FunctionScope). Qed.

Lemma FunctionSemaScope_ok {A} f (m : Sema A) st x st' :
  mono m -> ok (FunctionSemaScope f m) st x st' ->
  exists st1, ok m (enter_function f st) x st1 /\ (after (enter_function f st) st1 -> st' = st).
Proof.
  intros Hm H. unfold FunctionSemaScope in H.
  apply ok_bind in H as (u & st0 & [H0 _] & H); [|auto with mono|intros; solve_mono].
  injection H0 as <- <-.
  apply ok_bind in H as (y & st1 & [H1 _] & H); [|auto with mono|intros; solve_mono].
  injection H1 as <- <-.
  apply ok_bind in H as (y & st1 & [H1 _] & H); [|auto with mono|intros; solve_mono].
  injection H1 as <- <-.
  apply ok_bind in H as (y & st1 & H1 & H); [|auto with mono|intros; solve_mono].
  apply ok_bind in H as (u & st2 & [H2 _] & H); [|auto with mono|intros; solve_mono].
  apply ok_bind in H as (u' & st3 & [H3 _] & H); [|auto with mono|intros; solve_mono].
  injection H3 as <- <-. ok_done. exists st1. split; [done|]. intros (He & Hf & Ht & Hs).
  unfold ExitScope in H2. destruct (scope_ st1) as [|s outer]; [done|].
  injection H2 as <- <-. cbn in *. destruct st; cbn in *. congruence.
Qed.

(** ** The visitor, node by node *)

Definition expr_sound (e : expr) : Prop :=
  forall st e' st' Γ V, parsed_expr e = true -> fresh_expr V e = true -> in_scope st Γ V ->
  ok (VisitExpr e) st e' st' -> st' = st /\ exists t, has_type Γ e' t /\ strip e' = strip e.

Definition field_sound (f : field_decl) : Prop :=
  forall st f' st' Γ V, parsed_field f = true -> fresh_field V f = true -> in_scope st Γ V ->
  ok (VisitFieldDecl f) st f' st' ->
  st' = st /\ exists e' t, f' = FieldDecl (field_name f) e' /\ has_type Γ e' t /\
    strip_field f' = strip_field f.

Definition stmt_sound (s : stmt) : Prop :=
  forall st s' st' Γ V V' F, parsed_stmt s = true -> fresh_stmt V s = Some V' ->
  in_scope st Γ V -> returns st F -> ok (VisitStmt s) st s' st' ->
  exists Γ', wt_stmt Γ F s' Γ' /\ in_scope st' Γ' V' /\ after st st' /\
    strip_stmt s' = strip_stmt s /\ (is_decl s = false -> st' = st).

Definition decl_sound (d : decl) : Prop :=
  forall st d' st' Γ V V', parsed_decl d = true -> fresh_decl V d = Some V' ->
  in_scope st Γ V -> ok (VisitDecl d) st d' st' ->
  exists Γ', wt_decl Γ d' Γ' /\ in_scope st' Γ' V' /\ after st st' /\
    strip_decl d' = strip_decl d.

(** Splits the conjunctions of the two conditions on a program. *)
Ltac bools :=
  repeat match goal with
  | H : _ && _ = true |- _ => apply andb_true_iff in H as [??]
  | H : (if ?b then Some _ else None) = Some _ |- _ => destruct b eqn:?; [|done]
  end.

(** One step of a computation without messages. *)
Ltac ok_step H x st :=
  let H1 := fresh "H" x in
  apply ok_bind in H as (x & st & H1 & H); [|solve [solve_mono]|intros; solve [solve_mono]].

Lemma binary_sound op l r :
  expr_sound l -> expr_sound r -> expr_sound (Expr None (BinaryOpExpr op l r)).
Proof.
  intros IHl IHr st e' st' Γ V Hp Hf Hst H. cbn in Hp, Hf. bools. cbn in H.
  unfold VisitBinaryOpExpr in H. ok_step H l' st1. ok_step H r' st2.
  eapply IHl in Hl' as [-> (lt & Hlt & Hls)]; [|done..].
  eapply IHr in Hr' as [-> (rt & Hrt & Hrs)]; [|done..].
  rewrite (has_type_GetType _ _ _ Hlt), (has_type_GetType _ _ _ Hrt) in H.
  assert (logical_op op = true \/ (logical_op op = false /\ arithmetic_op op = true)) as [Hop|[Hop Hop']].
  { destruct (logical_op op); auto. }
  - assert (ok (CheckLogicalOperands op l' r' ≫= fun res : CheckResult =>
      let '(t, l, r) := res in mret (Expr t (BinaryOpExpr op l r))) st e' st') as H'
      by (by destruct op). clear H.
    ok_step H' res st3. eapply CheckLogicalOperands_ok in Hres as [-> (l2 & r2 & -> & ? & ? & ? & ?)]; [|done..].
    ok_done. split; [done|]. eexists. split; [by apply T_Logical|]. cbn. congruence.
  - assert (ok (CheckArithmeticOperands op l' r' ≫= fun res : CheckResult =>
      let '(t, l, r) := res in mret (Expr t (BinaryOpExpr op l r))) st e' st') as H'
      by (by destruct op). clear H.
    ok_step H' res st3.
    eapply CheckArithmeticOperands_ok in Hres as [-> (t & l2 & r2 & -> & ? & ? & ? & ? & ?)]; [|done..].
    ok_done. split; [done|]. eexists. split; [by apply T_Arithmetic|]. cbn. congruence.
Qed.

Lemma comparison_sound op l r :
  expr_sound l -> expr_sound r -> expr_sound (Expr None (ComparisonOpExpr op l r)).
Proof.
  intros IHl IHr st e' st' Γ V Hp Hf Hst H. cbn in Hp, Hf. bools. cbn in H.
  unfold VisitComparisonOpExpr in H. ok_step H l' st1. ok_step H r' st2.
  eapply IHl in Hl' as [-> (lt & Hlt & Hls)]; [|done..].
  eapply IHr in Hr' as [-> (rt & Hrt & Hrs)]; [|done..].
  rewrite (has_type_GetType _ _ _ Hlt), (has_type_GetType _ _ _ Hrt) in H.
  assert (ok (CheckComparisonOperands op l' r' ≫= fun res : CheckResult =>
    let '(t, l, r) := res in mret (Expr t (ComparisonOpExpr op l r))) st e' st') as H'
    by (by destruct op). clear H.
  ok_step H' res st3.
  eapply CheckComparisonOperands_ok in Hres as [-> (t & l2 & r2 & -> & ? & ? & ?)]; [|done..].
  ok_done. split; [done|]. eexists. split; [done|]. cbn. congruence.
Qed.

Lemma identifier_sound x : expr_sound (Expr None (IdentifierExpr x)).
Proof.
  intros st e' st' Γ V _ _ (_ & HΓ & _) H. cbn in H. unfold VisitIdentifierExpr in H.
  ok_step H scopes st1. destruct Hscopes as [[= <- <-] _]. rewrite HΓ in H.
  assert (exists t, name_type Γ x = Some t /\ e' = Expr (Some t) (IdentifierExpr x) /\ st' = st)
    as (t & Ht & -> & ->).
  { unfold name_type. destruct (Γ !! x) as [t|]; [ok_done; eauto|].
    destruct (LookupBuiltinType x) as [t|]; [ok_done; eauto|ok_report]. }
  split; [done|]. eexists. by split; [apply T_Name|].
Qed.

Lemma index_sound o i : expr_sound o -> expr_sound i -> expr_sound (Expr None (IndexExpr o i)).
Proof.
  intros IHo IHi st e' st' Γ V Hp Hf Hst H. cbn in Hp, Hf. bools. cbn in H.
  unfold VisitIndexExpr in H. ok_step H o' st1. ok_step H i' st2.
  eapply IHo in Ho' as [-> (ot & Hot & Hos)]; [|done..].
  eapply IHi in Hi' as [-> (it & Hit & His)]; [|done..].
  rewrite (has_type_GetType _ _ _ Hot), (has_type_GetType _ _ _ Hit) in H. cbv beta zeta in H.
  destruct (negb (IsArrayType ot) && negb (IsMapType ot)) eqn:E1; [ok_report|].
  destruct (IsIntegerType it) eqn:E2; cbn [negb] in H; [|ok_report].
  destruct ot; try done; ok_done; (split; [done|]); eexists;
    (split; [first [by eapply T_IndexArray | by eapply T_IndexMap]|]); cbn; congruence.
Qed.

Lemma unary_sound op e : expr_sound e -> expr_sound (Expr None (UnaryOpExpr op e)).
Proof.
  intros IH st e' st' Γ V Hp Hf Hst H. cbn in Hp, Hf, H.
  unfold VisitUnaryOpExpr in H. ok_step H e2 st1.
  eapply IH in He2 as [-> (t & Ht & Hs)]; [|done..].
  rewrite (has_type_GetType _ _ _ Ht) in H. cbv beta zeta in H.
  destruct op; try (by destruct H).
  - destruct (IsBoolType t) eqn:E; cbn [negb] in H; [|ok_report]. apply is_builtin in E as ->.
    ok_done. split; [done|]. eexists. split; [by apply T_Not|]. cbn. congruence.
  - destruct (IsFunctionType t) eqn:E; [ok_report|]. ok_done. split; [done|]. eexists.
    split; [by apply T_AddressOf|]. cbn. congruence.
  - destruct (IsArithmetic t) eqn:E; cbn [negb] in H; [|ok_report]. ok_done. split; [done|].
    eexists. split; [by apply T_Minus|]. cbn. congruence.
  - destruct t; try ok_report. ok_done. split; [done|]. eexists. split; [by apply T_Deref|].
    cbn. congruence.
Qed.

Lemma member_sound o m : expr_sound o -> expr_sound (Expr None (MemberExpr o m)).
Proof.
  intros IH st e' st' Γ V Hp Hf Hst H. cbn in Hp, Hf, H.
  unfold VisitMemberExpr in H. ok_step H o' st1.
  eapply IH in Ho' as [-> (t & Ht & Hs)]; [|done..].
  rewrite (has_type_GetType _ _ _ Ht) in H. cbv beta zeta in H.
  change (match t with PointerType base => base | _ => t end) with (member_base t) in H.
  destruct (member_base t) eqn:Hb; try ok_report.
  destruct m as [|ty []]; try (by destruct H); try ok_report.
  destruct (LookupFieldByName fields name) eqn:Hl; [|ok_report]. ok_done. split; [done|].
  eexists. split; [by eapply T_Member|]. cbn. congruence.
Qed.

Lemma resolve_args_sound args st args' b st' Γ V :
  Forall expr_sound args -> forallb parsed_expr args = true ->
  forallb (fresh_expr V) args = true -> in_scope st Γ V ->
  ok (ResolveArgs VisitExpr args) st (args', b) st' ->
  st' = st /\ b = true /\ map strip args' = map strip args /\
  exists ts, Forall2 (has_type Γ) args' ts.
Proof.
  intros Hs. revert args' b. induction Hs as [|a args Ha _ IH]; intros args' b Hp Hf Hst H; cbn in *.
  { apply ok_ret in H as [[= -> ->] ->]. split_and!; eauto. }
  bools. assert (mono (ResolveArgs VisitExpr args)) as Hm
    by (apply mono_ResolveArgs, Forall_forall; auto using mono_VisitExpr).
  ok_step H a' st1. eapply Ha in Ha' as [-> (t & Ht & Hs)]; [|done..].
  rewrite (has_type_GetType _ _ _ Ht) in H. ok_step H res st2. destruct res as [args2 b2].
  apply ok_ret in H as [[= -> ->] ->].
  eapply IH in Hres as (-> & -> & Hs2 & ts & Hts); [|done..].
  split_and!; [done..|cbn; congruence|]. exists (t :: ts). by constructor.
Qed.

Lemma CheckArgs_sound f ps args ts st args' b st' Γ :
  length args = length ps -> Forall2 (has_type Γ) args ts ->
  ok (CheckArgs f ps args) st (args', b) st' ->
  st' = st /\ b = false /\ map strip args' = map strip args /\
  exists ts', Forall2 (has_type Γ) args' ts' /\ Forall2 assignable ts' (snd <$> ps).
Proof.
  revert args ts args' b. induction ps as [|[x t] ps IH]; intros args ts args' b Hlen Hts H.
  { destruct args; [|done]. apply ok_ret in H as [[= -> ->] ->]. split_and!; [done..|]. by exists []. }
  destruct args as [|a args]; [done|]. inversion Hts as [|? u ? us Hu Hus]; subst. cbn in H.
  ok_step H res st1. eapply CheckAssignmentConstraints_ok in Hres as [-> Hres]; [|done].
  destruct res as [a'|].
  - destruct (Hres a' eq_refl) as (u' & Hu' & Hass & Hs). ok_step H res2 st2.
    destruct res2 as [args2 b2]. apply ok_ret in H as [[= -> ->] ->].
    eapply IH in Hres2 as (-> & -> & Hs2 & ts' & Hts' & Hass'); [|cbn in Hlen; lia|done].
    split_and!; [done..|cbn; congruence|]. exists (u' :: ts'). by split; constructor.
  - exfalso. ok_step H y st2. ok_step H z st3. by apply ok_Report in Hz.
Qed.

(** A call whose arguments are resolved keeps the name of its function. *)
Lemma regular_call_sound f args :
  expr_sound f -> Forall expr_sound args -> expr_sound (Expr None (CallExpr f args Regular)).
Proof.
  intros IHf IHargs st e' st' Γ V Hp Hf Hst H. cbn in Hp, Hf. bools. cbn in H.
  assert (mono (ResolveArgs VisitExpr args)) as Hm
    by (apply mono_ResolveArgs, Forall_forall; auto using mono_VisitExpr).
  unfold VisitRegularCall in H. ok_step H f' st1.
  eapply IHf in Hf' as [-> (ft & Hft & Hfs)]; [|done..].
  rewrite (has_type_GetType _ _ _ Hft) in H. destruct ft; try ok_report.
  ok_step H b st1. unfold CheckArgCount in Hb.
  destruct (decide (length args <> length params)) as [Hn|Hn].
  { exfalso. ok_step Hb y st2. ok_step Hb z st3. by apply ok_Report in Hz. }
  apply ok_ret in Hb as [-> ->]. cbn [negb] in H. ok_step H res st1. destruct res as [args1 b].
  eapply resolve_args_sound in Hres as (-> & -> & Hs1 & ts & Hts); [|done..].
  cbn [negb] in H. ok_step H res st1. destruct res as [args2 b].
  assert (length args1 = length args) as Hl
    by (rewrite <-(length_map strip args1), Hs1; apply length_map).
  eapply CheckArgs_sound in Hres as (-> & -> & Hs2 & ts' & Hts' & Hass); [|lia|done].
  ok_done. split; [done|]. eexists. split; [by eapply T_Call|]. cbn. congruence.
Qed.

Lemma coerce_args_typed Γ b args ts :
  Forall2 (has_type Γ) args ts ->
  (exists ts', Forall2 (has_type Γ) (coerce_args b args) ts') /\
  map strip (coerce_args b args) = map strip args.
Proof.
  intros H. assert ((exists ts', Forall2 (has_type Γ) args ts') /\ map strip args = map strip args)
    as Hdef by eauto.
  destruct (decide (b = Builtins.PCIMatch)) as [->|Hb]; [|by rewrite coerce_none].
  destruct args as [|a0 [|a1 [|]]]; try done.
  inversion H as [|? t0 ? ts0 H0 H1]; subst. inversion H1 as [|? t1 ? ts1 H2 H3]; subst.
  rewrite (coerce_match _ _ _ (has_type_GetType _ _ _ H2)).
  destruct (is_sql_boolean t1) eqn:E; [|done]. apply is_builtin in E as ->. split; [|done].
  exists [t0; bool_ty]. repeat constructor; [done|]. eapply cast_typed; [done|constructor].
Qed.

(** The rules of a builtin call other than [@ptrCast]. *)
Lemma builtin_call_sound x b args st e' st' Γ V :
  Builtins.IsBuiltinFunction x = Some b -> b <> Builtins.PtrCast ->
  Forall expr_sound args -> forallb parsed_expr args = true ->
  forallb (fresh_expr V) args = true -> in_scope st Γ V ->
  ok (VisitBuiltinCall None (Expr None (IdentifierExpr x)) b (ResolveArgs VisitExpr args)) st e' st' ->
  st' = st /\ exists t, has_type Γ e' t /\
    strip e' = strip (Expr None (CallExpr (Expr None (IdentifierExpr x)) args BuiltinCall)).
Proof.
  intros Hx Hb IH Hp Hf Hst H.
  assert (mono (ResolveArgs VisitExpr args)) as Hm
    by (apply mono_ResolveArgs, Forall_forall; auto using mono_VisitExpr).
  unfold VisitBuiltinCall in H. ok_step H res st1. destruct res as [args1 b1].
  eapply resolve_args_sound in Hres as (-> & -> & Hs1 & ts & Hts); [|done..].
  cbn [negb] in H. ok_step H res st1. destruct res as [args2 t].
  destruct (builtin_implements x None args1 st (has_types_GetType _ _ _ Hts) b Hb) as (_ & B1 & B2).
  destruct Hres as [R1 R2].
  destruct (coerce_args_typed Γ b args1 ts Hts) as [[ts' Hts'] Hs2].
  assert (sig_match (signature_of b) (coerce_args b args1) ->
    args2 = coerce_args b args1 /\ t = result_type (sig_result (signature_of b)) (coerce_args b args1) /\
    st1 = st) as Hmatch.
  { intros Hmt. rewrite (B1 Hmt) in R1. by injection R1 as <- <- <-. }
  destruct (sig_match_dec (signature_of b) (coerce_args b args1)) as [Hmt|Hn]; last first.
  { exfalso. by eapply B2. }
  destruct (Hmatch Hmt) as (-> & -> & ->). destruct (result_type_total b _ Hmt) as [t Ht].
  rewrite Ht in H. ok_done. split; [done|]. exists t. split; [by eapply T_Builtin|].
  cbn. congruence.
Qed.

Lemma pointer_repr_sound b st e' st' Γ V :
  expr_sound b -> parsed_expr b = true -> fresh_expr V b = true -> in_scope st Γ V ->
  ok (VisitPointerTypeRepr None (VisitExpr b)) st e' st' ->
  st' = st /\ exists t b', e' = Expr (Some (PointerType t)) (PointerTypeRepr b') /\
    has_type Γ e' (PointerType t) /\ strip b' = strip b.
Proof.
  intros IH Hp Hf Hst H. unfold VisitPointerTypeRepr in H. ok_step H b' st1.
  eapply IH in Hb' as [-> (t & Ht & Hs)]; [|done..].
  rewrite (has_type_GetType _ _ _ Ht) in H. ok_done. split; [done|].
  exists t, b'. split_and!; [done| |done]. by apply T_PointerRepr.
Qed.

Lemma ptr_cast_sound x args st e' st' Γ V :
  Builtins.IsBuiltinFunction x = Some Builtins.PtrCast ->
  Forall (with_operand expr_sound) args -> forallb parsed_expr args = true ->
  forallb (fresh_expr V) args = true -> in_scope st Γ V ->
  ok (VisitExpr (Expr None (CallExpr (Expr None (IdentifierExpr x)) args BuiltinCall))) st e' st' ->
  st' = st /\ exists t, has_type Γ e' t /\
    strip e' = strip (Expr None (CallExpr (Expr None (IdentifierExpr x)) args BuiltinCall)).
Proof.
  intros Hx IH Hp Hf Hst [H He]. cbn in H. erewrite bind_Some in H by done. rewrite Hx in H.
  pose proof (conj H He : ok _ st e' st') as H'. clear H. rename H' into H.
  assert (exists ty base arg, args = [Expr ty (UnaryOpExpr Token.STAR base); arg]) as (ty & base & arg & ->).
  { assert (forall c1 c2 : Sema expr, mono c1 -> mono c2 ->
      ok (CheckBuiltinPtrCastCall None (Expr None (IdentifierExpr x)) args c1 c2) st e' st' ->
      exists ty base arg, args = [Expr ty (UnaryOpExpr Token.STAR base); arg]) as Hc.
    { intros c1 c2 M1 M2 Hok. unfold CheckBuiltinPtrCastCall in Hok.
      ok_step Hok b st1. unfold CheckArgCount in Hb. destruct (decide _) as [Hn|Hn].
      { exfalso. ok_step Hb u st2. ok_step Hb v st3. by apply ok_Report in Hv. }
      apply ok_ret in Hb as [-> ->]. cbn [negb] in Hok.
      destruct args as [|a0 [|a1 [|]]]; try (exfalso; cbn in Hn; lia).
      destruct a0 as [|ty []]; try ok_report. destruct op; try ok_report. eauto. }
    destruct args as [|[|ty []] [|arg []]]; try (by eapply Hc; [| |apply H]; auto with mono).
    all: destruct op; by eapply Hc; [| |apply H]; auto with mono. }
  cbn in Hp, Hf. apply Forall_cons in IH as [[_ IHb] IH]. apply Forall_cons in IH as [[IHa _] _].
  cbn in IHb. bools. unfold CheckBuiltinPtrCastCall in H. ok_step H b st1.
  unfold CheckArgCount in Hb. rewrite decide_False in Hb by (cbn; lia).
  apply ok_ret in Hb as [-> ->]. cbn [negb] in H. destruct ty; [done|].
  ok_step H a0 st1. eapply pointer_repr_sound in Ha0 as (-> & t & b' & -> & Ht & Hs); [|done..].
  cbn [GetType] in H. ok_step H a1 st1. eapply IHa in Ha1 as [-> (u & Hu & Hs1)]; [|done..].
  rewrite (has_type_GetType _ _ _ Hu) in H. cbn [IsPointerType negb orb] in H.
  destruct (IsPointerType u) eqn:Hpu; cbn [negb] in H; [|ok_report].
  apply pointee_pointer in Hpu as [v ->]. ok_done. split; [done|]. eexists.
  split; [by eapply T_PtrCast|]. cbn. congruence.
Qed.

Lemma call_sound f args k :
  expr_sound f -> Forall (with_operand expr_sound) args -> expr_sound (Expr None (CallExpr f args k)).
Proof.
  intros IHf IHargs. assert (Forall expr_sound args) as IH
    by (eapply Forall_impl; [done|by intros ? []]).
  destruct k; [by apply regular_call_sound|]. intros st e' st' Γ V Hp Hf Hst H.
  cbn in Hp, Hf. bools.
  assert (exists x, f = Expr None (IdentifierExpr x)) as [x ->].
  { destruct H as [H _]. cbn in H. destruct f as [|[] []]; try done. eauto. }
  destruct (Builtins.IsBuiltinFunction x) as [b|] eqn:Hx; last first.
  { exfalso. cbn in H. destruct H as [H He]. erewrite bind_Some in H by done. rewrite Hx in H.
    eapply ok_Report_bind; [intros; apply mono_ret|]. by split; [apply H|]. }
  destruct (decide (b = Builtins.PtrCast)) as [->|Hb]; [by eapply ptr_cast_sound|].
  eapply builtin_call_sound; [done..|]. destruct H as [H He]. split; [|done].
  rewrite <-H. cbn. erewrite bind_Some by done. rewrite Hx. by destruct b.
Qed.

Lemma field_decl_sound x e : expr_sound e -> field_sound (FieldDecl x e).
Proof.
  intros IH st f' st' Γ V Hp Hf Hst H. cbn in *. ok_step H e2 st1.
  eapply IH in He2 as [-> (t & Ht & Hs)]; [|done..]. ok_done. split; [done|].
  exists e2, t. split_and!; [done..|]. cbn. congruence.
Qed.

Lemma fields_sound fs st fs' types st' Γ V :
  Forall field_sound fs -> forallb parsed_field fs = true ->
  forallb (fresh_field V) fs = true -> in_scope st Γ V ->
  ok (ResolveFields VisitFieldDecl fs) st (fs', types) st' ->
  st' = st /\ exists ps, types = Some ps /\ fields_typed Γ fs' ps /\
    fst <$> ps = field_name <$> fs /\ map strip_field fs' = map strip_field fs.
Proof.
  intros IH. revert fs' types. induction IH as [|f fs Hf _ IH]; intros fs' types Hp Hfr Hst H; cbn in *.
  { apply ok_ret in H as [[= -> ->] ->]. split; [done|]. exists []. split_and!; [done|constructor|done..]. }
  bools. assert (mono (ResolveFields VisitFieldDecl fs)) as Hm
    by (apply mono_ResolveFields, Forall_forall; auto using mono_VisitFieldDecl).
  ok_step H f' st1. eapply Hf in Hf' as [-> (e' & t & -> & Ht & Hs)]; [|done..].
  cbn [field_repr field_name] in H. rewrite (has_type_GetType _ _ _ Ht) in H.
  ok_step H res st2. destruct res as [fs2 types2]. apply ok_ret in H as [[= -> ->] ->].
  eapply IH in Hres as (-> & ps & -> & Hps & Hn & Hs2); [|done..]. split; [done|].
  exists ((field_name f, t) :: ps). split_and!; [done|by constructor| |cbn in *; congruence].
  cbn. by rewrite Hn.
Qed.

Lemma array_repr_sound n e : expr_sound e -> expr_sound (Expr None (ArrayTypeRepr n e)).
Proof.
  intros IH st e' st' Γ V Hp Hf Hst H. cbn in Hp, Hf, H. unfold VisitArrayTypeRepr in H.
  apply ok_bind in H as (z & st1 & Hz & H); [|unfold ArrayLength; solve_mono|intros; solve_mono].
  assert (st1 = st /\ z = array_len n /\ is_Some z) as (-> & -> & [len Hlen]).
  { unfold ArrayLength in Hz. unfold array_len. destruct n as [[|ty node]|]; [ok_report| |].
    - destruct node; try ok_report. destruct lit; try ok_report.
      destruct (decide (z0 < 0)%Z); [ok_report|]. ok_done. rewrite decide_True by lia. eauto.
    - ok_done. eauto. }
  rewrite Hlen in H. ok_step H e2 st1. eapply IH in He2 as [-> (t & Ht & Hs)]; [|done..].
  rewrite (has_type_GetType _ _ _ Ht) in H. ok_done. split; [done|]. eexists.
  split; [by apply T_ArrayRepr|]. cbn. congruence.
Qed.

Lemma map_repr_sound k v : expr_sound k -> expr_sound v -> expr_sound (Expr None (MapTypeRepr k v)).
Proof.
  intros IHk IHv st e' st' Γ V Hp Hf Hst H. cbn in Hp, Hf. bools. cbn in H.
  unfold VisitMapTypeRepr in H. ok_step H k' st1. ok_step H v' st2.
  eapply IHk in Hk' as [-> (tk & Htk & Hsk)]; [|done..].
  eapply IHv in Hv' as [-> (tv & Htv & Hsv)]; [|done..].
  rewrite (has_type_GetType _ _ _ Htk), (has_type_GetType _ _ _ Htv) in H. ok_done.
  split; [done|]. eexists. split; [by apply T_MapRepr|]. cbn. congruence.
Qed.

Lemma struct_repr_sound fs : Forall field_sound fs -> expr_sound (Expr None (StructTypeRepr fs)).
Proof.
  intros IH st e' st' Γ V Hp Hf Hst H. cbn in Hp, Hf, H. unfold VisitStructTypeRepr in H.
  assert (mono (ResolveFields VisitFieldDecl fs)) as Hm
    by (apply mono_ResolveFields, Forall_forall; auto using mono_VisitFieldDecl).
  ok_step H res st1. destruct res as [fs' types].
  eapply fields_sound in Hres as (-> & ps & -> & Hps & _ & Hs); [|done..]. ok_done.
  split; [done|]. eexists. split; [by apply T_StructRepr|]. cbn. congruence.
Qed.

(** The type of a function literal has the names of its parameters. *)
Lemma function_repr_sound fs r st e' st' Γ V :
  Forall field_sound fs -> expr_sound r -> parsed_expr (Expr None (FunctionTypeRepr fs r)) = true ->
  fresh_expr V (Expr None (FunctionTypeRepr fs r)) = true -> in_scope st Γ V ->
  ok (VisitExpr (Expr None (FunctionTypeRepr fs r))) st e' st' ->
  st' = st /\ exists ps ret, has_type Γ e' (FunctionType ps ret) /\
    fst <$> ps = field_name <$> fs /\ strip e' = strip (Expr None (FunctionTypeRepr fs r)).
Proof.
  intros IHf IHr Hp Hf Hst H. cbn in Hp, Hf. bools. cbn in H. unfold VisitFunctionTypeRepr in H.
  assert (mono (ResolveFields VisitFieldDecl fs)) as Hm
    by (apply mono_ResolveFields, Forall_forall; auto using mono_VisitFieldDecl).
  ok_step H res st1. destruct res as [fs' types].
  eapply fields_sound in Hres as (-> & ps & -> & Hps & Hn & Hs); [|done..].
  ok_step H r' st1. eapply IHr in Hr' as [-> (t & Ht & Hsr)]; [|done..].
  rewrite (has_type_GetType _ _ _ Ht) in H. ok_done. split; [done|]. exists ps, t.
  split_and!; [by apply T_FunctionRepr|done|]. cbn. congruence.
Qed.

(** ** Statements *)

Lemma fresh_expr_function V ty tr b :
  fresh_expr V (Expr ty (FunctionLitExpr tr b)) =
  fresh_expr V tr &&
  match tr with
  | Expr _ (FunctionTypeRepr fs _) =>
      match new_names V (field_name <$> fs) with
      | Some V => bool_decide (is_Some (fresh_stmts V b))
      | None => false
      end
  | _ => false
  end.
Proof. reflexivity. Qed.

Lemma fresh_stmt_block V l :
  fresh_stmt V (BlockStmt l) = match fresh_stmts V l with Some _ => Some V | None => None end.
Proof. reflexivity. Qed.

Lemma new_names_grow V l V' : new_names V l = Some V' -> V ⊆ V'.
Proof.
  revert V. induction l as [|x l IH]; intros V; cbn; [by intros [= ->]|].
  case_decide as Hx; [done|]. intros H%IH. set_solver.
Qed.

Lemma stmts_sound l st l' st' Γ V V' F :
  Forall stmt_sound l -> forallb parsed_stmt l = true -> fresh_stmts V l = Some V' ->
  in_scope st Γ V -> returns st F -> ok (VisitStmts l) st l' st' ->
  exists Γ', wt_stmts Γ F l' Γ' /\ in_scope st' Γ' V' /\ after st st' /\
    map strip_stmt l' = map strip_stmt l.
Proof.
  intros IH. revert st l' Γ V. induction IH as [|s l Hs _ IH]; intros st l' Γ V Hp Hf Hst HF H; cbn in *.
  { ok_done. simplify_eq. exists Γ. split_and!; [apply L_nil|done|apply after_refl, Hst|done]. }
  bools. destruct (fresh_stmt V s) as [V1|] eqn:HV1; [|done].
  ok_step H s' st1. eapply Hs in Hs' as (Γ1 & Hw1 & Hst1 & Ha1 & Hs1 & _); [|done..].
  ok_step H l2 st2. ok_done.
  eapply IH in Hl2 as (Γ2 & Hw2 & Hst2 & Ha2 & Hs2); [|try done..|by eapply returns_after].
  exists Γ2. split_and!; [by econstructor|done|by eapply after_trans|cbn; congruence].
Qed.

Lemma block_sound l st l' st' Γ V F :
  Forall stmt_sound l -> forallb parsed_stmt l = true -> is_Some (fresh_stmts V l) ->
  in_scope st Γ V -> returns st F -> ok (VisitBlockStmt (VisitStmts l)) st l' st' ->
  st' = st /\ exists Γ', wt_stmts Γ F l' Γ' /\ map strip_stmt l' = map strip_stmt l.
Proof.
  intros IH Hp [V' Hf] Hst HF H. apply SemaScope_ok in H as (st1 & H & Hback); [|auto with mono].
  eapply stmts_sound in H as (Γ' & Hw & _ & Ha & Hs);
    [|done..|by apply in_scope_enter|by apply HF].
  split; [by apply Hback|]. eauto.
Qed.

Lemma wt_stmts_snoc Γ F l s Γ1 Γ2 :
  wt_stmts Γ F l Γ1 -> wt_stmt Γ1 F s Γ2 -> wt_stmts Γ F (l ++ [s]) Γ2.
Proof.
  revert Γ. induction l as [|a l IH]; intros Γ Hl Hs; inversion Hl; subst; cbn.
  - eapply L_cons; [done|apply L_nil].
  - eapply L_cons; [done|]. by apply IH.
Qed.

Lemma BlockTerminating_last l : BlockTerminating l = last l ≫= IsTerminating.
Proof.
  unfold BlockTerminating. cbn. induction l as [|a [|b l] IH]; [done..|]. rewrite IH. done.
Qed.

Lemma drop_return_snoc l : drop_return (l ++ [ReturnStmt None]) = l.
Proof.
  induction l as [|a l IH]; [done|]. cbn. rewrite IH.
  destruct a as [| | | | | | |[]], l; try done; by destruct s as [| | | | | | |[]].
Qed.

Lemma drop_return_id l : last l <> Some (ReturnStmt None) -> drop_return l = l.
Proof.
  induction l as [|a l IH]; [done|]. intros H. cbn. destruct l as [|b l].
  - by destruct a as [| | | | | | |[]].
  - rewrite IH by done. by destruct a as [| | | | | | |[]].
Qed.

Lemma last_map {A B} (f : A -> B) l : last (map f l) = f <$> last l.
Proof. induction l as [|a [|b l] IH]; [done..|]. apply IH. Qed.

(** A body that does not terminate does not end with a [return]. *)
Lemma drop_return_open l :
  l = [] \/ BlockTerminating l = Some false ->
  drop_return (map strip_stmt l) = map strip_stmt l.
Proof.
  intros Hl. apply drop_return_id. rewrite last_map. intros H.
  apply fmap_Some in H as (s & Hs & Hr). destruct Hl as [->|Hl]; [done|].
  rewrite BlockTerminating_last, Hs in Hl. by destruct s.
Qed.

Lemma function_body_sound tr b ps ret st e' st' Γ0 Γ V V' :
  has_type Γ0 tr (FunctionType ps ret) -> new_names V (fst <$> ps) = Some V' ->
  is_Some (fresh_stmts V' b) -> Forall stmt_sound b -> forallb parsed_stmt b = true ->
  in_scope st Γ V -> ok (VisitFunctionBody tr (VisitBlockStmt (VisitStmts b))) st e' st' ->
  st' = st /\ exists b' Γ', e' = Expr (Some (FunctionType ps ret)) (FunctionLitExpr tr b') /\
    wt_stmts (add_params ps Γ) (Some ret) b' Γ' /\ BlockTerminating b' = Some true /\
    drop_return (map strip_stmt b') = drop_return (map strip_stmt b).
Proof.
  intros Ht HV Hf IH Hp Hst H. unfold VisitFunctionBody in H. eapply ok_TypeOf_bind in H; [|done].
  apply FunctionSemaScope_ok in H as (st1 & H & Hback); [|solve_mono; auto with mono].
  assert (mono (VisitBlockStmt (VisitStmts b))) by auto with mono.
  ok_step H u st2.
  destruct (DeclareParams_fresh ps _ _ _ _ (in_scope_enter_function (FunctionType ps ret) _ _ _ Hst) HV)
    as (st3 & H3 & Hst3 & Ha3).
  destruct Hu as [Hu _]. rewrite H3 in Hu. injection Hu as <- <-.
  ok_step H b1 st2. eapply block_sound in Hb1 as [-> (Γ' & Hw & Hs)];
    [|done..|by eapply returns_after; [apply Ha3|]].
  ok_step H term st2.
  assert (st2 = st3 /\ ((term = true /\ BlockTerminating b1 = Some true) \/
    (term = false /\ (b1 = [] \/ BlockTerminating b1 = Some false)))) as [-> Hcase].
  { destruct b1 as [|s1 b1]; [ok_done; auto|]. apply ok_lift in Hterm as [E ->]. split; [done|].
    destruct term; auto. }
  clear Hterm. destruct Hcase as [[-> Hterm]|[-> Hterm]]; cbn [negb] in H.
  - ok_done. split; [by apply Hback|]. exists b1, Γ'. split_and!; [done..|congruence].
  - destruct (IsNilType ret) eqn:Hnil; cbn [negb] in H; [|ok_report].
    apply is_builtin in Hnil as ->. ok_done. split; [by apply Hback|].
    exists (b1 ++ [ReturnStmt None]), Γ'. split_and!; [done|eapply wt_stmts_snoc; [done|constructor]| |].
    + rewrite BlockTerminating_last, last_snoc. done.
    + rewrite map_app. cbn [map strip_stmt]. rewrite drop_return_snoc, <-Hs.
      symmetry. by apply drop_return_open.
Qed.

Lemma function_sound tr b :
  with_signature expr_sound field_sound tr -> Forall stmt_sound b -> expr_sound (Expr None (FunctionLitExpr tr b)).
Proof.
  intros [_ IHt] IHb st e' st' Γ V Hp Hf Hst H. rewrite fresh_expr_function in Hf. cbn in Hp. bools.
  destruct tr as [|[ty|] node]; try done. destruct node; try done. destruct IHt as [IHfs IHr].
  destruct (new_names V _) as [V'|] eqn:HV; [|done]. rewrite bool_decide_eq_true in *.
  rewrite VisitExpr_function in H. unfold VisitFunctionLitExpr in H. cbn [GetType] in H.
  apply ok_bind in H as (tr' & st1 & Htr & H); [|auto with mono|].
  2: { intros tr'. destruct (GetType tr'); auto with mono. }
  eapply function_repr_sound in Htr as (-> & ps & ret & Ht & Hn & Hs); [|done..].
  rewrite (has_type_GetType _ _ _ Ht) in H. rewrite <-Hn in HV.
  eapply function_body_sound in H as (-> & b' & Γ' & -> & Hw & Hterm & Hsb); [|done..].
  split; [done|]. eexists. split; [by eapply T_Function|]. cbn in *. congruence.
Qed.

Lemma assignment_sound d s : expr_sound d -> expr_sound s -> stmt_sound (AssignmentStmt d s).
Proof.
  intros IHd IHs st s' st' Γ V V' F Hp Hf Hst HF H. cbn in Hp, Hf. bools. simplify_eq. bools.
  cbn in H. unfold VisitAssignmentStmt in H. ok_step H s2 st1. ok_step H d2 st2.
  eapply IHs in Hs2 as [-> (ts & Hts & Hss)]; [|done..].
  eapply IHd in Hd2 as [-> (td & Htd & Hsd)]; [|done..].
  rewrite (has_type_GetType _ _ _ Hts), (has_type_GetType _ _ _ Htd) in H. ok_step H res st1.
  eapply CheckAssignmentConstraints_ok in Hres as [-> Hres]; [|done].
  destruct res as [s3|]; [|ok_report]. destruct (Hres s3 eq_refl) as (t' & Ht' & Hass & Hs3).
  ok_done. exists Γ. split_and!; [by eapply S_Assign|done|apply after_refl, Hst|cbn; congruence|done].
Qed.

Lemma block_stmt_sound l : Forall stmt_sound l -> stmt_sound (BlockStmt l).
Proof.
  intros IH st s' st' Γ V V' F Hp Hf Hst HF H. rewrite fresh_stmt_block in Hf. cbn in Hp.
  rewrite VisitStmt_block in H. destruct (fresh_stmts V l) as [V1|] eqn:HV1; [|done]. simplify_eq.
  assert (mono (VisitBlockStmt (VisitStmts l))) by auto with mono. ok_step H l' st1.
  eapply block_sound in Hl' as [-> (Γ' & Hw & Hs)]; [|eauto..]. ok_done.
  exists Γ. split_and!; [by eapply S_Block|done|apply after_refl, Hst|cbn; congruence|done].
Qed.

Lemma expression_stmt_sound e : expr_sound e -> stmt_sound (ExpressionStmt e).
Proof.
  intros IH st s' st' Γ V V' F Hp Hf Hst HF H. cbn in Hp, Hf, H. bools. simplify_eq.
  ok_step H e2 st1. eapply IH in He2 as [-> (t & Ht & Hs)]; [|done..]. ok_done.
  exists Γ. split_and!; [by eapply S_Expr|done|apply after_refl, Hst|cbn; congruence|done].
Qed.

(** An optional statement. *)
Definition fresh_opt (V : gset Identifier) (o : option stmt) : option (gset Identifier) :=
  match o with Some s => fresh_stmt V s | None => Some V end.
Definition visit_opt (o : option stmt) : Sema (option stmt) :=
  match o with Some s => s ← VisitStmt s; mret (Some s) | None => mret None end.
Definition strip_opt (o : option stmt) : option stmt :=
  match o with Some s => Some (strip_stmt s) | None => None end.

Lemma mono_visit_opt o : mono (visit_opt o).
Proof. unfold visit_opt. solve_mono. Qed.
#[local] Hint Resolve mono_visit_opt : mono.

Lemma opt_sound o st o' st' Γ V V' F :
  on_option stmt_sound o -> match o with Some s => parsed_stmt s | None => true end = true ->
  fresh_opt V o = Some V' -> in_scope st Γ V -> returns st F -> ok (visit_opt o) st o' st' ->
  exists Γ', wt_opt Γ F o' Γ' /\ in_scope st' Γ' V' /\ after st st' /\ strip_opt o' = strip_opt o /\
    (match o with Some s => negb (is_decl s) | None => true end = true -> st' = st).
Proof.
  intros IH Hp Hf Hst HF H. destruct o as [s|]; cbn in *.
  - ok_step H s' st1. ok_done. eapply IH in Hs' as (Γ' & Hw & Hst1 & Ha & Hs & Hd); [|done..].
    exists Γ'. split_and!; [by apply O_Some|done|done|cbn; congruence|].
    by intros Hn%negb_true_iff%Hd.
  - ok_done. simplify_eq. exists Γ. split_and!; [apply O_None|done|apply after_refl, Hst|done|done].
Qed.

Lemma fresh_stmt_if V c t e :
  fresh_stmt V (IfStmt c t e) =
  if fresh_expr V c then
    match fresh_stmts V t, fresh_opt V e with Some _, Some _ => Some V | _, _ => None end
  else None.
Proof. reflexivity. Qed.

Lemma VisitStmt_if c t e :
  VisitStmt (IfStmt c t e) =
  (cond ← VisitExpr c;
   match GetType cond with
   | None => mret (IfStmt cond t e)
   | Some ty =>
       let cond :=
         if is_sql_boolean ty then NewImplicitCastExpr SqlBoolToBool bool_ty cond else cond in
       ty ← TypeOf cond;
       (if negb (IsBoolType ty) then Report kNonBoolIfCondition else mret ());;
       t ← VisitBlockStmt (VisitStmts t); e ← visit_opt e; mret (IfStmt cond t e)
   end).
Proof. by destruct e. Qed.

Lemma if_sound c t e :
  expr_sound c -> Forall stmt_sound t -> on_option stmt_sound e -> stmt_sound (IfStmt c t e).
Proof.
  intros IHc IHt IHe st s' st' Γ V V' F Hp Hf Hst HF H. rewrite fresh_stmt_if in Hf.
  cbn in Hp. bools. destruct (fresh_expr V c) eqn:Hfc; [|done].
  destruct (fresh_stmts V t) as [V1|] eqn:HV1; [|done].
  destruct (fresh_opt V e) as [V2|] eqn:HV2; [|done]. simplify_eq.
  rewrite VisitStmt_if in H. assert (mono (VisitBlockStmt (VisitStmts t))) by auto with mono.
  ok_step H c2 st1. eapply IHc in Hc2 as [-> (tc & Htc & Hsc)]; [|done..].
  rewrite (has_type_GetType _ _ _ Htc) in H. cbv zeta in H.
  set (c3 := if is_sql_boolean tc then _ else c2) in H.
  assert (exists t3, has_type Γ c3 t3 /\ strip c3 = strip c) as (t3 & Ht3 & Hs3).
  { unfold c3. destruct (is_sql_boolean tc) eqn:E; [|by exists tc]. apply is_builtin in E as ->.
    eexists. split; [eapply T_Cast; [done|constructor]|done]. }
  eapply ok_TypeOf_bind in H; [|done]. cbv beta in H.
  destruct (IsBoolType t3) eqn:Hb; cbn [negb] in H; [|ok_report].
  apply is_builtin in Hb as ->. ok_step H u st1. ok_done. ok_step H t2 st1.
  eapply block_sound in Ht2 as [-> (Γ1 & Hw1 & Hs1)]; [|eauto..]. ok_step H e2 st1.
  eapply opt_sound in He2 as (Γ2 & Hw2 & Hst2 & Ha2 & Hs2 & Hd2); [|done..]. ok_done.
  rewrite (Hd2 ltac:(done)) in *. exists Γ.
  split_and!; [by eapply S_If|done|apply after_refl, Hst|cbn; unfold strip_opt in Hs2; congruence|done].
Qed.

Lemma fresh_stmt_for V i c n b :
  fresh_stmt V (ForStmt i c n b) =
  match fresh_opt V i with
  | Some V1 =>
      if match c with Some e => fresh_expr V1 e | None => true end then
        match fresh_opt V1 n with
        | Some V2 => match fresh_stmts V2 b with Some _ => Some V | None => None end
        | None => None
        end
      else None
  | None => None
  end.
Proof. reflexivity. Qed.

Lemma VisitStmt_for i c n b :
  VisitStmt (ForStmt i c n b) =
  SemaScope LoopScope (
    init ← visit_opt i;
    match c with
    | None => next ← visit_opt n; body ← VisitBlockStmt (VisitStmts b); mret (ForStmt init None next body)
    | Some e =>
        cond ← VisitExpr e;
        match GetType cond with
        | None => mret (ForStmt init (Some cond) n b)
        | Some t =>
            (if negb (IsBoolType t) then Report kNonBoolForCondition else mret ());;
            next ← visit_opt n; body ← VisitBlockStmt (VisitStmts b);
            mret (ForStmt init (Some cond) next body)
        end
    end).
Proof. by destruct i, c, n. Qed.

(** What comes after the condition of a loop. *)
Lemma for_rest_sound i0 i c n b st s' st' Γ Γ1 V1 V2 V3 F :
  on_option stmt_sound n -> Forall stmt_sound b ->
  match n with Some s => parsed_stmt s | None => true end = true -> forallb parsed_stmt b = true ->
  fresh_opt V1 n = Some V2 -> fresh_stmts V2 b = Some V3 -> wt_opt Γ F i Γ1 ->
  strip_opt i = strip_opt i0 -> in_scope st Γ1 V1 -> returns st F ->
  (forall e, c = Some e -> has_type Γ1 e bool_ty) ->
  ok (next ← visit_opt n; body ← VisitBlockStmt (VisitStmts b); mret (ForStmt i c next body)) st s' st' ->
  wt_stmt Γ F s' Γ /\ after st st' /\ strip_stmt s' = strip_stmt (ForStmt i0 c n b).
Proof.
  intros IHn IHb Hpn Hpb HV2 HV3 Hwi Hsi Hst HF Hc H.
  assert (mono (VisitBlockStmt (VisitStmts b))) by auto with mono. ok_step H n2 st1.
  eapply opt_sound in Hn2 as (Γ2 & Hw2 & Hst2 & Ha2 & Hs2 & _); [|done..]. ok_step H b2 st2.
  eapply block_sound in Hb2 as [-> (Γ3 & Hw3 & Hs3)]; [|eauto using returns_after..]. ok_done.
  split_and!; [by eapply S_For|done|]. cbn. unfold strip_opt in *. congruence.
Qed.

Lemma for_sound i c n b :
  on_option stmt_sound i -> on_option expr_sound c -> on_option stmt_sound n ->
  Forall stmt_sound b -> stmt_sound (ForStmt i c n b).
Proof.
  intros IHi IHc IHn IHb st s' st' Γ V V' F Hp Hf Hst HF H. rewrite fresh_stmt_for in Hf.
  cbn in Hp. bools. destruct (fresh_opt V i) as [V1|] eqn:HV1; [|done].
  destruct (match c with Some e => _ | None => _ end) eqn:Hfc in Hf; [|done].
  destruct (fresh_opt V1 n) as [V2|] eqn:HV2; [|done].
  destruct (fresh_stmts V2 b) as [V3|] eqn:HV3; [|done]. simplify_eq.
  rewrite VisitStmt_for in H. assert (mono (VisitBlockStmt (VisitStmts b))) by auto with mono.
  apply SemaScope_ok in H as (st1 & H & Hback); [|solve_mono]. ok_step H i2 st2.
  eapply opt_sound in Hi2 as (Γ1 & Hw1 & Hst1 & Ha1 & Hs1 & _); [|eauto using in_scope_enter..|by apply HF].
  assert (returns st2 F) as HF2 by (eapply returns_after; [done|by apply HF]).
  assert (wt_stmt Γ F s' Γ /\ after st2 st1 /\ strip_stmt s' = strip_stmt (ForStmt i c n b))
    as (Hw & Ha & Hs).
  - destruct c as [e|]; [|by eapply for_rest_sound]. ok_step H e2 st3.
    eapply IHc in He2 as [-> (t & Ht & Hse)]; [|done..].
    rewrite (has_type_GetType _ _ _ Ht) in H. destruct (IsBoolType t) eqn:E; cbn [negb] in H; [|ok_report].
    apply is_builtin in E as ->. ok_step H u st3. ok_done.
    eapply (for_rest_sound i) in H as (? & ? & Hs); [|try done..].
    + split_and!; [done..|]. rewrite Hs. cbn. congruence.
    + by intros ? [= <-].
  - exists Γ. assert (st' = st) as -> by (apply Hback; by eapply after_trans).
    split_and!; [done|done|apply after_refl, Hst|done|done].
Qed.

Lemma return_sound r : on_option expr_sound r -> stmt_sound (ReturnStmt r).
Proof.
  intros IH st s' st' Γ V V' F Hp Hf Hst HF H. destruct r as [e|]; cbn in Hp, Hf, H;
    bools; simplify_eq; unfold VisitReturnStmt in H; ok_step H f st1;
    destruct Hf as [[= <- <-] _]; unfold returns in HF; destruct (curr_func_ st) as [f|];
    try ok_report; destruct f as [| | | | | |ps ret]; try done; subst F; cbv beta in H.
  - apply ok_bind in H as (r2 & st1 & Hr2 & H); [|solve_mono|intros; solve_mono].
    ok_step Hr2 e2 st2. ok_done. eapply IH in He2 as [-> (t & Ht & Hs)]; [|done..].
    cbn [mbind option_bind] in H. rewrite (has_type_GetType _ _ _ Ht) in H.
    destruct (IsNilType ret) eqn:En; [ok_report|]. ok_step H res st1.
    eapply CheckAssignmentConstraints_ok in Hres as [-> Hres]; [|done].
    destruct res as [e3|]; [|ok_report]. destruct (Hres e3 eq_refl) as (t' & Ht' & Hass & Hs3).
    ok_done. exists Γ. split_and!; [|done|apply after_refl, Hst|cbn; congruence|done].
    eapply S_Return; [|done..]. by intros ->.
  - ok_step H r2 st1. ok_done. cbn [mbind option_bind] in H.
    destruct (IsNilType ret) eqn:En; [|ok_report]. apply is_builtin in En as ->. ok_done.
    exists Γ. split_and!; [apply S_ReturnNil|done|apply after_refl, Hst|done|done].
Qed.

Lemma decl_stmt_sound d : decl_sound d -> stmt_sound (DeclStmt d).
Proof.
  intros IH st s' st' Γ V V' F Hp Hf Hst HF H. cbn in Hp, Hf, H. ok_step H d2 st1. ok_done.
  eapply IH in Hd2 as (Γ' & Hw & Hst' & Ha & Hs); [|done..].
  exists Γ'. split_and!; [by apply S_Decl|done|done|cbn; congruence|done].
Qed.

(** ** Declarations *)

Lemma Declare_ok {A} x t (k : Sema A) st Γ V r st' :
  in_scope st Γ V -> x ∉ V -> mono k -> ok (Scope_Declare x t;; k) st r st' ->
  exists st1, in_scope st1 (<[x := t]> Γ) ({[x]} ∪ V) /\ after st st1 /\ ok k st1 r st'.
Proof.
  intros Hst Hx Hm H. ok_step H b st1. destruct (Declare_fresh st Γ V x t Hst Hx) as (st2 & H2 & ? & ?).
  destruct Hb as [Hb _]. rewrite H2 in Hb. injection Hb as <- <-. eauto.
Qed.

Lemma struct_decl_sound x e : expr_sound e -> decl_sound (StructDecl x e).
Proof.
  intros IH st d' st' Γ V V' Hp Hf Hst H. cbn in Hp, Hf, H. case_decide as Hx; [done|].
  bools. simplify_eq. unfold VisitStructDecl in H. ok_step H e2 st1.
  eapply IH in He2 as [-> (t & Ht & Hs)]; [|done..]. rewrite (has_type_GetType _ _ _ Ht) in H.
  eapply Declare_ok in H as (st1 & Hst1 & Ha & H); [|done|done|solve_mono]. ok_done.
  eexists. split_and!; [by apply D_Struct|done|done|cbn; congruence].
Qed.

(** The optional type and the optional value of a variable. *)
Definition visit_opt_expr (o : option expr) : Sema (option expr) :=
  match o with Some e => e ← VisitExpr e; mret (Some e) | None => mret None end.

Lemma opt_expr_sound o st o' st' Γ V :
  on_option expr_sound o -> match o with Some e => parsed_expr e | None => true end = true ->
  match o with Some e => fresh_expr V e | None => true end = true -> in_scope st Γ V ->
  ok (visit_opt_expr o) st o' st' ->
  st' = st /\
  match o with
  | Some e => exists e' t, o' = Some e' /\ has_type Γ e' t /\ strip e' = strip e
  | None => o' = None
  end.
Proof.
  intros IH Hp Hf Hst H. destruct o as [e|]; cbn in *.
  - ok_step H e2 st1. ok_done. eapply IH in He2 as [-> (t & Ht & Hs)]; [|done..]. eauto 6.
  - ok_done. done.
Qed.

Lemma mono_visit_opt_expr o : mono (visit_opt_expr o).
Proof. unfold visit_opt_expr. solve_mono. Qed.
#[local] Hint Resolve mono_visit_opt_expr : mono.

Lemma VisitDecl_variable x t i :
  VisitDecl (VariableDecl x t i) =
  (scopes ← CurrentScope;
   match scopes with
   | [] => crash
   | s :: _ =>
       match LookupLocal s x with
       | Some _ => Report kVariableRedeclared;; mret (VariableDecl x t i)
       | None =>
           if (match t, i with None, None => true | _, _ => false end) then crash else
           t ← visit_opt_expr t; i ← visit_opt_expr i;
           match t ≫= GetType, i, i ≫= GetType with
           | Some declared, Some e, Some _ =>
               checked ← CheckAssignmentConstraints declared e;
               match checked with
               | None => Report kInvalidAssignment;; mret (VariableDecl x t i)
               | Some e => Scope_Declare x declared;; mret (VariableDecl x t (Some e))
               end
           | Some ty, _, _ | None, _, Some ty => Scope_Declare x ty;; mret (VariableDecl x t i)
           | None, _, None => mret (VariableDecl x t i)
           end
       end
   end).
Proof. by destruct t, i. Qed.

Lemma variable_decl_sound x t i :
  on_option expr_sound t -> on_option expr_sound i -> decl_sound (VariableDecl x t i).
Proof.
  intros IHt IHi st d' st' Γ V V' Hp Hf Hst H. cbn in Hp, Hf. case_decide as Hx; [done|].
  bools. simplify_eq. rewrite VisitDecl_variable in H. ok_step H scopes st1.
  destruct Hscopes as [[= <- <-] _]. destruct (scope_ st) as [|s outer] eqn:Es; [by destruct H|].
  destruct (LookupLocal s x); [ok_report|].
  destruct (match t, i with None, None => true | _, _ => false end) eqn:Eb; [by destruct H|].
  ok_step H t2 st1. eapply opt_expr_sound in Ht2 as [-> Ht2]; [|done..].
  ok_step H i2 st1. eapply opt_expr_sound in Hi2 as [-> Hi2]; [|done..].
  destruct t as [te|], i as [ie|]; try done; simplify_eq.
  - destruct Ht2 as (t3 & ty & -> & Hty & Hst3), Hi2 as (i3 & tyi & -> & Htyi & Hsi3).
    cbn [mbind option_bind] in H.
    rewrite (has_type_GetType _ _ _ Hty), (has_type_GetType _ _ _ Htyi) in H. ok_step H res st1.
    eapply CheckAssignmentConstraints_ok in Hres as [-> Hres]; [|done].
    destruct res as [e3|]; [|ok_report]. destruct (Hres e3 eq_refl) as (t' & Ht' & Hass & Hs3).
    eapply Declare_ok in H as (st1 & Hst1 & Ha & H); [|done|done|solve_mono]. ok_done.
    eexists. split_and!; [by eapply D_Both|done|done|cbn; congruence].
  - destruct Ht2 as (t3 & ty & -> & Hty & Hst3). cbn [mbind option_bind] in H.
    rewrite (has_type_GetType _ _ _ Hty) in H.
    eapply Declare_ok in H as (st1 & Hst1 & Ha & H); [|done|done|solve_mono]. ok_done.
    eexists. split_and!; [by apply D_Type|done|done|cbn; congruence].
  - destruct Hi2 as (i3 & tyi & -> & Htyi & Hsi3). cbn [mbind option_bind] in H.
    rewrite (has_type_GetType _ _ _ Htyi) in H.
    eapply Declare_ok in H as (st1 & Hst1 & Ha & H); [|done|done|solve_mono]. ok_done.
    eexists. split_and!; [by apply D_Init|done|done|cbn; congruence].
Qed.

Lemma fresh_decl_function V x ty tr b :
  fresh_decl V (FunctionDecl x (Expr ty (FunctionLitExpr tr b))) =
  if decide (x ∈ V) then None
  else if fresh_expr V tr then
    match tr with
    | Expr _ (FunctionTypeRepr fs r) =>
        match new_names ({[x]} ∪ V) (field_name <$> fs) with
        | Some V' => match fresh_stmts V' b with Some _ => Some ({[x]} ∪ V) | None => None end
        | None => None
        end
    | _ => None
    end
  else None.
Proof. reflexivity. Qed.

Lemma VisitDecl_function x ty tr b :
  VisitDecl (FunctionDecl x (Expr ty (FunctionLitExpr tr b))) =
  VisitFunctionDecl x ty b (VisitExpr tr) (VisitBlockStmt (VisitStmts b)).
Proof. reflexivity. Qed.

Lemma function_decl_sound x tr b :
  with_signature expr_sound field_sound tr -> Forall stmt_sound b ->
  decl_sound (FunctionDecl x (Expr None (FunctionLitExpr tr b))).
Proof.
  intros [_ IHt] IHb st d' st' Γ V V' Hp Hf Hst H. rewrite fresh_decl_function in Hf. cbn in Hp.
  case_decide as Hx; [done|]. destruct (fresh_expr V tr) eqn:Hft; [|done]. bools.
  destruct tr as [|[ty|] node]; try done. destruct node; try done. destruct IHt as [IHfs IHr].
  destruct (new_names _ _) as [V1|] eqn:HV; [|done]. destruct (fresh_stmts V1 b) eqn:Hfb; [|done].
  simplify_eq. rewrite VisitDecl_function in H. unfold VisitFunctionDecl in H.
  assert (mono (VisitBlockStmt (VisitStmts b))) by auto with mono.
  assert (mono (@crash expr)) by auto with mono.
  ok_step H tr' st1.
  eapply function_repr_sound in Htr' as (-> & ps & ret & Ht & Hn & Hs); [|done..].
  rewrite (has_type_GetType _ _ _ Ht) in H. rewrite <-Hn in HV.
  eapply Declare_ok in H as (st1 & Hst1 & Ha & H); [|done|done|solve_mono]. ok_step H f st2. ok_done.
  unfold VisitFunctionLitExpr in Hf. rewrite (has_type_GetType _ _ _ Ht) in Hf.
  ok_step Hf tr2 st3. ok_done. rewrite (has_type_GetType _ _ _ Ht) in Hf.
  eapply function_body_sound in Hf as (-> & b' & Γ' & -> & Hw & Hterm & Hsb); [|done..].
  eexists. split_and!; [by eapply D_Function|done|done|]. cbn in *. congruence.
Qed.

(** ** Programs *)

Lemma visit_sound :
  (forall e, expr_sound e) /\ (forall f, field_sound f) /\
  (forall s, stmt_sound s) /\ (forall d, decl_sound d).
Proof.
  apply ast_ind.
  - by intros ????? Hp.
  - by intros [] ????? Hp.
  - intros [] op l r; [intros ??????? Hp; discriminate Hp|apply binary_sound].
  - intros [] f args k; [intros ??????? Hp; discriminate Hp|apply call_sound].
  - intros [] op l r; [intros ??????? Hp; discriminate Hp|apply comparison_sound].
  - intros [] tr b; [intros ??????? Hp; discriminate Hp|apply function_sound].
  - intros [] x; [intros ????? Hp; discriminate Hp|apply identifier_sound].
  - by intros [] k e _ ????? Hp.
  - intros [] o i; [intros ??????? Hp; discriminate Hp|apply index_sound].
  - intros [] l st e' st' Γ V Hp _ _ H; [done|]. cbn in H. ok_done. split; [done|].
    eexists. split; [apply T_Lit|done].
  - intros [] o m; [intros ??????? Hp; discriminate Hp|intros ? _; by apply member_sound].
  - intros [] op e; [intros ?????? Hp; discriminate Hp|apply unary_sound].
  - intros [] n e; [intros ??????? Hp; discriminate Hp|intros _; apply array_repr_sound].
  - intros [] fs r IHf IHr st e' st' Γ V Hp Hf Hst H; [done|].
    eapply function_repr_sound in H as (-> & ps & ret & Ht & _ & Hs); [|done..]. eauto.
  - intros [] k v; [intros ??????? Hp; discriminate Hp|apply map_repr_sound].
  - intros [] b IH st e' st' Γ V Hp Hf Hst H; [done|]. cbn in Hp, Hf, H.
    eapply pointer_repr_sound in H as [-> (t & b' & -> & Ht & Hs)]; [|done..]. split; [done|].
    eexists. split; [done|]. cbn. congruence.
  - intros [] fs; [intros ?????? Hp; discriminate Hp|apply struct_repr_sound].
  - apply field_decl_sound.
  - apply assignment_sound.
  - apply block_stmt_sound.
  - apply decl_stmt_sound.
  - apply expression_stmt_sound.
  - apply for_sound.
  - by intros t i b _ _ _ ??????? _ Hf.
  - apply if_sound.
  - apply return_sound.
  - intros x f _ IH. destruct f as [|[ty|] []]; try (intros ?????? Hp Hf; done).
    destruct IH. by apply function_decl_sound.
  - apply struct_decl_sound.
  - apply variable_decl_sound.
Qed.

Lemma decls_sound l st l' st' Γ V V' :
  forallb parsed_decl l = true -> fresh_decls V l = Some V' -> in_scope st Γ V ->
  ok (VisitDecls l) st l' st' ->
  exists Γ', wt_decls Γ l' Γ' /\ map strip_decl l' = map strip_decl l.
Proof.
  revert st l' Γ V. induction l as [|d l IH]; intros st l' Γ V Hp Hf Hst H; cbn in *.
  { ok_done. exists Γ. split; [constructor|done]. }
  assert (mono (VisitDecls l)) by (clear; induction l; cbn; solve_mono).
  bools. destruct (fresh_decl V d) as [V1|] eqn:HV1; [|done]. ok_step H d2 st1.
  eapply visit_sound in Hd2 as (Γ1 & Hw1 & Hst1 & Ha1 & Hs1); [|done..]. ok_step H l2 st2. ok_done.
  eapply IH in Hl2 as (Γ2 & Hw2 & Hs2); [|done..].
  exists Γ2. split; [by econstructor|cbn; congruence].
Qed.

(** C16: a program of the parser in which no declaration reuses a visible name is well
    typed by the typing rules when [Sema::Run] ends without an error: every
    expression carries the type the rules give it, every conversion is an explicit
    cast, calls of builtins match their signatures, conditions are booleans and
    functions return on every path; and apart from types, casts and a final
    [return] it is the program that was given. *)
Theorem sema_sound f f' :
  parsed_file f = true -> no_shadowing f = true -> Run f = Some (f', false) ->
  wt_file f' /\ strip_file f' = strip_file f.
Proof.
  unfold parsed_file, no_shadowing, Run, wt_file, strip_file. rewrite bool_decide_eq_true.
  intros Hp [V' Hf] H. destruct (VisitFile f init_sema) as [[f2 st]|] eqn:E; [|done].
  injection H as -> He. apply bool_decide_eq_false, dec_stable in He.
  assert (mono (VisitDecls f)) by (clear; induction f; cbn; solve_mono).
  assert (ok (VisitFile f) init_sema f' st) as Hok by (split; [done|by rewrite He]).
  apply SemaScope_ok in Hok as (st1 & Hok & _); [|done].
  eapply decls_sound in Hok as (Γ & Hw & Hs); [by split; [eexists|]|done|done|].
  split_and!; [done| |set_solver]. intros x. cbn. unfold LookupLocal. cbn. by rewrite !lookup_empty.
Qed.

(** A program: a struct, a function with a declared variable, a loop, a condition of
    type [Boolean] behind a pointer, a call of a builtin and a recursive call. *)
Definition name_expr (x : Identifier) : expr := NewExpr (IdentifierExpr x).
Definition int_expr (n : Z) : expr := NewExpr (LitExpr (LitInt n)).
Definition sample_body : list stmt :=
  [DeclStmt (VariableDecl "y" (Some (name_expr "int64")) (Some (name_expr "x")));
   ForStmt None (Some (NewExpr (ComparisonOpExpr Token.LESS (name_expr "y") (int_expr 10)))) None
     [AssignmentStmt (name_expr "y") (NewExpr (BinaryOpExpr Token.PLUS (name_expr "y") (name_expr "x")))];
   IfStmt (NewExpr (MemberExpr (name_expr "s") (name_expr "b")))
     [ReturnStmt (Some (NewExpr (MemberExpr (name_expr "s") (name_expr "a"))))] None;
   ExpressionStmt (NewExpr (CallExpr (name_expr "intToSql") [name_expr "x"] BuiltinCall));
   ReturnStmt (Some (NewExpr (CallExpr (name_expr "f") [name_expr "x"; name_expr "s"] Regular)))].
Definition sample_program : file :=
  [StructDecl "S"
     (NewExpr (StructTypeRepr [FieldDecl "a" (name_expr "int32"); FieldDecl "b" (name_expr "Boolean")]));
   FunctionDecl "f" (NewExpr (FunctionLitExpr
     (NewExpr (FunctionTypeRepr
       [FieldDecl "x" (name_expr "int32"); FieldDecl "s" (NewExpr (PointerTypeRepr (name_expr "S")))]
       (name_expr "int64")))
     sample_body))].
Definition checked_sample : file := default [] (fst <$> Run sample_program).

Lemma sema_sound_witness :
  wt_file checked_sample /\ strip_file checked_sample = strip_file sample_program.
Proof. apply (sema_sound sample_program checked_sample); vm_compute; reflexivity. Defined.
