(* ===== verification/SemaLimits.v ===== *)
(** * What the type checker lets through

    Behaviours of [Sema] the soundness theorem excludes or allows knowingly:
    declarations that reuse a visible name, assignments through pointers, booleans
    without a cast, and trees on which a visit fails instead of reporting. *)
From S2P Require Import Prelude Tokens TplTypes TplAst SemaChecks SemaBuiltins Sema TplTyping SemaSound.

(** ** Shadowing *)

(** [Scope::Declare] refuses a name an enclosing scope declares, and its callers do
    not look at the result: the new declaration is lost. *)
Lemma shadowing_declares_nothing x t u s outer f errs :
  LookupLocal s x = None -> Lookup outer x = Some u ->
  Scope_Declare x t (mkSema (s :: outer) f errs) = Some (false, mkSema (s :: outer) f errs).
Proof. intros Hs Ho. unfold Scope_Declare. cbn [scope_ Lookup]. by rewrite Hs, Ho. Qed.

(** A function returning nothing with the given body. *)
Definition procedure (body : list stmt) : file :=
  [FunctionDecl "main" (NewExpr (FunctionLitExpr
     (NewExpr (FunctionTypeRepr [] (name_expr "nil"))) body))].

(** [var x : float64 = 1  if (true) { var x : bool = true  var y : bool = x }]: the
    inner [x] is a [bool] to its reader and a [float64] to the checker, which
    rejects the program. *)
Definition shadowing_program : file :=
  procedure
    [DeclStmt (VariableDecl "x" (Some (name_expr "float64")) (Some (int_expr 1)));
     BlockStmt
       [DeclStmt (VariableDecl "x" (Some (name_expr "bool")) (Some (NewExpr (LitExpr (LitBool true)))));
        DeclStmt (VariableDecl "y" (Some (name_expr "bool")) (Some (name_expr "x")))]].

Lemma shadowing_rejected :
  no_shadowing shadowing_program = false /\
  snd <$> Run shadowing_program = Some true /\
  errors_ <$> (snd <$> VisitFile shadowing_program init_sema) = Some [kInvalidAssignment].
Proof. by vm_compute. Qed.

(** ** Assignments *)

(** An expression of any other type may be assigned to a pointer, and a pointer to a
    struct: the test for [*T] to [*U] is a disjunction. *)
Lemma anything_to_pointer e t u :
  GetType e = Some t -> t <> PointerType u ->
  forall st, CheckAssignmentConstraints (PointerType u) e st =
    Some (Some (ImplCastExprToType e (PointerType u) BitCast), st).
Proof.
  intros He Hne st. unfold CheckAssignmentConstraints, TypeOf.
  cbv [mbind Sema_bind lift]. rewrite He. cbn [fmap option_fmap option_map].
  rewrite decide_False by done. done.
Qed.

Lemma pointer_to_struct e u fs :
  GetType e = Some (PointerType u) ->
  forall st, CheckAssignmentConstraints (StructType fs) e st =
    Some (Some (ImplCastExprToType e (StructType fs) BitCast), st).
Proof.
  intros He st. unfold CheckAssignmentConstraints, TypeOf.
  cbv [mbind Sema_bind lift]. by rewrite He.
Qed.

(** A [bool] becomes a [Boolean] and a [Boolean] a [bool] with no cast. *)
Lemma booleans_not_cast e st :
  (GetType e = Some bool_ty -> CheckAssignmentConstraints sql_bool_ty e st = Some (Some e, st)) /\
  (GetType e = Some sql_bool_ty -> CheckAssignmentConstraints bool_ty e st = Some (Some e, st)).
Proof.
  split; intros He; unfold CheckAssignmentConstraints, TypeOf; cbv [mbind Sema_bind lift];
    by rewrite He.
Qed.

(** Integers and floats of any sizes are assignable to each other, narrowing
    included. *)
Lemma int_float_any_size e t u st :
  GetType e = Some t -> IsIntegerType t = true -> IsFloatType u = true ->
  CheckAssignmentConstraints u e st = Some (Some (ImplCastExprToType e u IntToFloat), st) /\
  forall e', GetType e' = Some u ->
  CheckAssignmentConstraints t e' st = Some (Some (ImplCastExprToType e' t FloatToInt), st).
Proof.
  intros He Ht Hu. destruct t as [k| | | | | |]; try done; destruct u as [k'| | | | | |]; try done.
  cbn in Ht, Hu. split; [|intros e' He']; unfold CheckAssignmentConstraints, TypeOf;
    cbv [mbind Sema_bind lift]; [rewrite He|rewrite He']; by destruct k, k'.
Qed.

(** ** Comparisons and indexes *)

(** Two values of the same type may be compared with any operator, structs,
    strings and functions included. *)
Lemma same_types_compare op l r t st :
  GetType l = Some t -> GetType r = Some t -> IsPointerType t = false ->
  CheckComparisonOperands op l r st = Some ((Some (built_ret_type t), l, r), st).
Proof.
  intros Hl Hr Hp. unfold CheckComparisonOperands, TypeOf. cbv [mbind Sema_bind lift].
  rewrite Hl, Hr. cbn [fmap option_fmap option_map]. rewrite Hp. cbn [orb].
  by rewrite decide_True.
Qed.

(** The key of a map may only be read with an integer, whatever its key type. *)
Lemma map_index_needs_integer k v o i ty st :
  IsIntegerType k = false ->
  errors_ <$> (snd <$> VisitIndexExpr ty (mret (Expr (Some (MapType k v)) o)) (mret (Expr (Some k) i)) st)
    = Some (errors_ st ++ [kInvalidArrayIndexValue]).
Proof. intros Hk. unfold VisitIndexExpr. cbv [mbind Sema_bind mret Sema_ret]. cbn. by rewrite Hk. Qed.

(** ** Types as values *)

(** [var x = int32] declares a variable of type [int32]: a type name is an
    expression of that type. *)
Lemma type_name_as_value :
  snd <$> Run (procedure [DeclStmt (VariableDecl "x" None (Some (name_expr "int32")))]) = Some false.
Proof. by vm_compute. Qed.

(** ** Visits that fail *)

(** [~e] is an operator of the scanner and the parser; the checker has no case for
    it, whatever its operand. *)
Lemma bit_not_fails ty e t st :
  GetType e = Some t -> VisitUnaryOpExpr ty Token.BIT_NOT (mret e) st = None.
Proof. intros He. unfold VisitUnaryOpExpr. cbv [mbind Sema_bind mret Sema_ret]. by rewrite He. Qed.

(** A function body that ends with an empty block asks for the last statement of
    the empty list. *)
Lemma empty_block_at_end : Run (procedure [BlockStmt []]) = None.
Proof. by vm_compute. Qed.

(** The count of the arguments of a call is reported with the name of the called
    function, which must then be an identifier: [(a.f)(1)] with [f] a function
    without parameters fails the cast. *)
Lemma wrong_count_needs_name o m ty args n st :
  length args <> n -> CheckArgCount (Expr ty (MemberExpr o m)) args n st = None.
Proof. intros Hn. unfold CheckArgCount. by rewrite decide_True. Qed.
