(* ===== verification/HashTables.v ===== *)
(** * Bucket-chained hash tables

    [execution/sql/hash_table_entry.h] and [execution/sql/generic_hash_table.{h,cpp}]:
    a directory of bucket heads whose chains run through the entries themselves.  The
    entries live in a heap of their own; a pointer is its address, [0] the null
    pointer.  The first word of an entry is a union of the next pointer, a slot of a
    concise table and a count: one 64-bit word.

    The arithmetic of LLVM (powers of two, population count) is an interface with its
    documented laws. *)
From S2P Require Import Prelude.

(** ** The arithmetic of LLVM *)

Class LlvmMath := {
  PowerOf2Ceil : Z -> Z;
  PowerOf2Floor : Z -> Z;
  countPopulation : Z -> Z;
}.

(** The positions of the bits set in a 64-bit word. *)
Definition set_bits (w : Z) : list Z := filter (fun i => Z.testbit w i = true) (seqZ 0 64).

Class LlvmMathLaws {L : LlvmMath} := {
  PowerOf2Ceil_zero : PowerOf2Ceil 0 = 0;
  PowerOf2Ceil_law v : 0 < v <= 2 ^ 62 ->
    exists k, 0 <= k <= 62 /\ PowerOf2Ceil v = 2 ^ k /\ v <= 2 ^ k < 2 * v;
  PowerOf2Floor_law v : 0 < v < 2 ^ 64 ->
    exists k, 0 <= k <= 63 /\ PowerOf2Floor v = 2 ^ k /\ 2 ^ k <= v;
  countPopulation_law v : 0 <= v < 2 ^ 64 -> countPopulation v = Z.of_nat (length (set_bits v));
}.

#[export] Instance llvm_math : LlvmMath := {
  PowerOf2Ceil v := if decide (v = 0) then 0 else 2 ^ Z.log2_up v;
  PowerOf2Floor v := if decide (v = 0) then 0 else 2 ^ Z.log2 v;
  countPopulation v := Z.of_nat (length (set_bits v));
}.

#[export] Instance llvm_math_laws : LlvmMathLaws.
Proof.
  split; cbn.
  - done.
  - intros v Hv. rewrite decide_False by lia. exists (Z.log2_up v).
    pose proof (Z.log2_up_nonneg v). pose proof (Z.log2_log2_up_spec v ltac:(lia)) as [_ ?].
    pose proof (Z.log2_up_le_mono v (2 ^ 62) ltac:(lia)). rewrite Z.log2_up_pow2 in * by lia.
    split_and!; try lia. destruct (decide (v = 1)) as [->|Hv1]; [done|].
    pose proof (Z.log2_up_spec v ltac:(lia)). pose proof (Z.log2_up_pos v ltac:(lia)).
    replace (Z.log2_up v) with (Z.succ (Z.pred (Z.log2_up v))) by lia. rewrite Z.pow_succ_r by lia. lia.
  - intros v Hv. rewrite decide_False by lia. exists (Z.log2 v).
    pose proof (Z.log2_nonneg v). pose proof (Z.log2_spec v ltac:(lia)).
    pose proof (proj1 (Z.log2_lt_pow2 v 64 ltac:(lia)) ltac:(lia)). lia.
  - done.
Qed.

(** ** Entries *)

Record HashTableEntry {A : Type} := mkEntry {
  word_ : Z;
  hash_ : Z;
  payload_ : A;
}.
Arguments HashTableEntry A : clear implicits.
Arguments mkEntry {A}.

Abbreviation entries A := (gmap Z (HashTableEntry A)).

Definition set_word {A} (w : Z) (e : HashTableEntry A) : HashTableEntry A :=
  mkEntry w (hash_ e) (payload_ e).

(** ** The table *)

Module GenericHashTable.

Definition K_NUM_TAG_BITS : Z := 16.
Definition K_NUM_POINTER_BITS : Z := 64 - K_NUM_TAG_BITS.
Definition K_MASK_POINTER : Z := Z.shiftr (2 ^ 64 - 1) K_NUM_TAG_BITS.
Definition K_MASK_TAG : Z := wrapu 64 (Z.shiftl (2 ^ 64 - 1) K_NUM_POINTER_BITS).

Record t := mk {
  entries_ : list Z;
  mask_ : Z;
  capacity_ : Z;
  num_elems_ : Z;
}.

(** [SetSize]; the comparison of the size with the load factor is one of doubles,
    whose outcome is [exceeds]. *)
Definition SetSize `{LlvmMath} (exceeds : Z -> Z -> bool) (new_size : Z) : option t :=
  if decide (new_size > 0) then
    let next_size := PowerOf2Ceil new_size in
    let next_size := if exceeds next_size new_size then next_size * 2 else next_size in
    Some (mk (replicate (Z.to_nat next_size) 0) (wrapu 64 (next_size - 1)) next_size 0)
  else None.

Section heap.
Context {A : Type}.
Implicit Types (h : entries A) (x : t).

Definition bucket (hash : Z) x : nat := Z.to_nat (Z.land hash (mask_ x)).

(** A position beyond the directory is a read of foreign memory. *)
Definition FindChainHead (hash : Z) x : option Z := entries_ x !! bucket hash x.

(** [Insert<false>]. *)
Definition Insert (new_entry hash : Z) h x : option (entries A * t) :=
  e ← h !! new_entry;
  if decide (Z.land hash (mask_ x) < capacity_ x /\ hash_ e = hash) then
    old_entry ← entries_ x !! bucket hash x;
    Some (<[new_entry := set_word old_entry e]> h,
          mk (<[bucket hash x := new_entry]> (entries_ x)) (mask_ x) (capacity_ x) (num_elems_ x + 1))
  else None.

(** *** Tags *)

Definition UntagPointer (p : Z) : Z := Z.land p K_MASK_POINTER.

Definition TagHash (hash : Z) : Z := Z.shiftl 1 (Z.shiftr hash 60 + K_NUM_POINTER_BITS).

(** The hash is read through the pointer to the new entry. *)
Definition UpdateTag h (tagged_old_entry untagged_new_entry : Z) : option Z :=
  e ← h !! untagged_new_entry;
  Some (Z.lor (Z.lor (Z.land untagged_new_entry K_MASK_POINTER) (Z.land tagged_old_entry K_MASK_TAG))
          (TagHash (hash_ e))).

Definition FindChainHeadWithTag (hash : Z) x : option Z :=
  candidate ← FindChainHead hash x;
  Some (if decide (Z.land candidate (TagHash hash) = 0) then 0 else UntagPointer candidate).

(** [InsertTagged<false>]. *)
Definition InsertTagged (new_entry hash : Z) h x : option (entries A * t) :=
  e ← h !! new_entry;
  if decide (Z.land hash (mask_ x) < capacity_ x /\ hash_ e = hash) then
    old_entry ← entries_ x !! bucket hash x;
    let h := <[new_entry := set_word (UntagPointer old_entry) e]> h in
    head ← UpdateTag h old_entry new_entry;
    Some (h, mk (<[bucket hash x := head]> (entries_ x)) (mask_ x) (capacity_ x) (num_elems_ x + 1))
  else None.

(** *** Emptying the table

    Every entry is handed to [sink] after its next pointer is read, as the sink may
    change it.  [fuel] bounds the length of a chain. *)
Section flush.
Context {S : Type} (heap_of : S -> entries A) (sink : Z -> S -> option S).

Fixpoint flush_chain (fuel : nat) (entry : Z) (s : S) : option S :=
  if decide (entry = 0) then Some s else
  match fuel with
  | O => None
  | Datatypes.S fuel =>
      e ← heap_of s !! entry;
      let next := word_ e in
      s ← sink entry s;
      flush_chain fuel next s
  end.

Fixpoint flush_buckets (fuel : nat) (heads : list Z) (s : S) : option S :=
  match heads with
  | [] => Some s
  | entry :: heads => s ← flush_chain fuel entry s; flush_buckets fuel heads s
  end.

Definition FlushEntries (x : t) (s : S) : option (t * S) :=
  s ← flush_buckets (size (heap_of s)) (entries_ x) s;
  Some (mk (replicate (length (entries_ x)) 0) (mask_ x) (capacity_ x) 0, s).
End flush.

(** *** Iterators *)

(** [GenericHashTableIterator<UseTag>]. *)
Record Iterator := mkIterator { entries_index_ : nat; curr_entry_ : Z }.

(** The search for the next bucket that is not empty. *)
Fixpoint next_bucket (use_tag : bool) (fuel : nat) x (i : nat) : option Iterator :=
  match fuel with
  | O => Some (mkIterator i 0)
  | S fuel =>
      if decide (Z.of_nat i < capacity_ x) then
        p ← entries_ x !! i;
        let p := if use_tag then UntagPointer p else p in
        if decide (p = 0) then next_bucket use_tag fuel x (S i) else Some (mkIterator (S i) p)
      else Some (mkIterator i 0)
  end.

Definition Next (use_tag : bool) h x (it : Iterator) : option Iterator :=
  let search := next_bucket use_tag (Z.to_nat (capacity_ x)) x (entries_index_ it) in
  if decide (curr_entry_ it = 0) then search else
  e ← h !! curr_entry_ it;
  if decide (word_ e = 0) then search else Some (mkIterator (entries_index_ it) (word_ e)).

Definition begin (use_tag : bool) h x : option Iterator := Next use_tag h x (mkIterator 0 0).

(** The entries the loop [while (it.HasNext()) { it.GetCurrentEntry(); it.Next(); }]
    visits. *)
Fixpoint iterate (use_tag : bool) (fuel : nat) h x (it : Iterator) : option (list Z) :=
  if decide (curr_entry_ it = 0) then Some [] else
  match fuel with
  | O => None
  | S fuel =>
      it' ← Next use_tag h x it;
      l ← iterate use_tag fuel h x it';
      Some (curr_entry_ it :: l)
  end.

Definition entries_of (use_tag : bool) h x : option (list Z) :=
  it ← begin use_tag h x; iterate use_tag (size h) h x it.

End heap.
End GenericHashTable.

(** ** Chains *)

(** [chain h p l]: from [p] the entries [l] are linked, in this order. *)
Inductive chain {A} (h : entries A) : Z -> list Z -> Prop :=
  | chain_nil : chain h 0 []
  | chain_cons p e l : p <> 0 -> h !! p = Some e -> chain h (word_ e) l -> chain h p (p :: l).

(** What an entry holds apart from its link. *)
Definition data {A} (e : HashTableEntry A) : Z * A := (hash_ e, payload_ e).

(** The two heaps hold the same entries, linked in any way. *)
Definition same_data {A} (h h' : entries A) : Prop := forall p, data <$> h' !! p = data <$> h !! p.

#[export] Instance same_data_equiv {A} : Equivalence (@same_data A).
Proof.
  split.
  - by intros h p.
  - intros h h' H p. by rewrite H.
  - intros h1 h2 h3 H1 H2 p. by rewrite H2.
Qed.

Lemma same_data_lookup {A} (h h' : entries A) p e :
  same_data h h' -> h !! p = Some e ->
  exists e', h' !! p = Some e' /\ hash_ e' = hash_ e /\ payload_ e' = payload_ e.
Proof.
  intros Hs Hp. specialize (Hs p). rewrite Hp in Hs. cbn in Hs.
  destruct (h' !! p) as [e'|]; cbn in Hs; [|done]. unfold data in Hs. simplify_eq. eauto.
Qed.

Lemma same_data_set_word {A} (h : entries A) p e w :
  h !! p = Some e -> same_data h (<[p := set_word w e]> h).
Proof.
  intros Hp q. destruct (decide (p = q)) as [<-|Hne].
  - by rewrite lookup_insert_eq, Hp.
  - by rewrite lookup_insert_ne by done.
Qed.

Section chains.
Context {A : Type}.
Implicit Types (h : entries A).

Lemma bucket_chain_frame h h' p l :
  (forall q, q ∈ l -> h' !! q = h !! q) -> chain h p l -> chain h' p l.
Proof.
  intros Hq Hc. induction Hc as [|p e l Hp Hl Hc IH]; [constructor|].
  econstructor; [done| |].
  - rewrite Hq; [done|by left].
  - apply IH. intros q Hin. apply Hq. by right.
Qed.

Lemma chain_insert h p l q e : q ∉ l -> chain h p l -> chain (<[q := e]> h) p l.
Proof.
  intros Hq. apply bucket_chain_frame. intros r Hr. rewrite lookup_insert_ne; [done|]. by intros ->.
Qed.

Lemma bucket_chain_det h p l l' : chain h p l -> chain h p l' -> l = l'.
Proof.
  intros Hc. revert l'. induction Hc as [|p e l Hp Hl Hc IH]; intros l' Hc'; inversion Hc'; simplify_eq; [done|].
  f_equal. auto.
Qed.

Lemma chain_in_dom h p l q : chain h p l -> q ∈ l -> is_Some (h !! q).
Proof.
  induction 1 as [|p e l Hp Hl Hc IH]; intros Hin; [by apply not_elem_of_nil in Hin|].
  apply elem_of_cons in Hin as [->|Hin]; eauto.
Qed.

Lemma chain_nonzero h p l q : chain h p l -> q ∈ l -> q <> 0.
Proof.
  induction 1 as [|p e l Hp Hl Hc IH]; intros Hin; [by apply not_elem_of_nil in Hin|].
  apply elem_of_cons in Hin as [->|Hin]; eauto.
Qed.

Lemma chain_from h p l q : chain h p l -> q ∈ l -> exists l', chain h q l' /\ (length l' <= length l)%nat.
Proof.
  induction 1 as [|p e l Hp Hl Hc IH]; intros Hin; [by apply not_elem_of_nil in Hin|].
  apply elem_of_cons in Hin as [->|Hin].
  - exists (p :: l). split; [by econstructor|done].
  - destruct (IH Hin) as (l' & Hc' & Hle). exists l'. split; [done|]. cbn. lia.
Qed.

(** A chain that ends has no entry twice. *)
Lemma chain_NoDup h p l : chain h p l -> NoDup l.
Proof.
  induction 1 as [|p e l Hp Hl Hc IH]; constructor; [|done]. intros Hin.
  destruct (chain_from _ _ _ _ Hc Hin) as (l' & Hc' & Hle).
  rewrite (bucket_chain_det h p l' (p :: l)) in Hle by (done || by econstructor). cbn in Hle. lia.
Qed.

Lemma bucket_chain_length h p l : chain h p l -> (length l <= size h)%nat.
Proof.
  intros Hc. rewrite <-size_dom, <-(size_list_to_set (C := gset Z)) by (by eapply chain_NoDup).
  apply subseteq_size. intros q Hq%elem_of_list_to_set. apply elem_of_dom. eauto using chain_in_dom.
Qed.
End chains.

(** ** The table as a list of chains *)

Module GenericTable.
Import GenericHashTable.

Definition wf (x : t) : Prop :=
  exists k, 0 <= k <= 63 /\ capacity_ x = 2 ^ k /\ mask_ x = 2 ^ k - 1 /\
  Z.of_nat (length (entries_ x)) = 2 ^ k.

Lemma mask_mod hash k : 0 <= k -> Z.land hash (2 ^ k - 1) = hash `mod` 2 ^ k.
Proof. intros Hk. replace (2 ^ k - 1) with (Z.ones k) by (rewrite Z.ones_equiv; lia). by apply Z.land_ones. Qed.

Lemma bucket_in x hash :
  wf x -> (bucket hash x < length (entries_ x))%nat /\ Z.land hash (mask_ x) < capacity_ x.
Proof.
  intros (k & Hk & Hc & Hm & Hl). unfold bucket. rewrite Hm, Hc, mask_mod by lia.
  pose proof (Z.mod_pos_bound hash (2 ^ k) ltac:(pow2; lia)). lia.
Qed.

Lemma generic_SetSize_wf `{LlvmMathLaws} exceeds n :
  0 < n <= 2 ^ 62 -> exists x, SetSize exceeds n = Some x /\ wf x /\
    entries_ x = replicate (length (entries_ x)) 0 /\ num_elems_ x = 0 /\ n <= capacity_ x < 4 * n.
Proof.
  intros Hn. unfold SetSize. rewrite decide_True by lia. eexists. split; [done|].
  cbn. rewrite length_replicate. destruct (PowerOf2Ceil_law n Hn) as (k & Hk & -> & Hle).
  assert (forall j, 0 <= j <= 63 -> wf (mk (replicate (Z.to_nat (2 ^ j)) 0) (wrapu 64 (2 ^ j - 1)) (2 ^ j) 0)) as Hj.
  { intros j Hj. exists j. cbn. rewrite length_replicate. split_and!; [lia|lia|done| |].
    - apply wrapu_small. assert (2 ^ j <= 2 ^ 63) by (apply Z.pow_le_mono_r; lia).
      pose proof (Z.pow_pos_nonneg 2 j). unfold is_uint. lia.
    - pose proof (Z.pow_pos_nonneg 2 j). lia. }
  destruct (exceeds _ _); [|split_and!; [apply Hj; lia|done|done|lia|lia]].
  replace (2 ^ k * 2) with (2 ^ (k + 1)) by (rewrite Z.pow_add_r; lia).
  split_and!; [apply Hj; lia|done|done| |]; rewrite Z.pow_add_r by lia; lia.
Qed.

Section table.
Context {A : Type}.
Implicit Types (h : entries A) (x : t) (cs : list (list Z)).

(** [holds h x cs]: bucket [i] is the chain [cs !! i], of entries whose hash belongs
    there, and no entry is in two places. *)
Definition holds h x cs : Prop :=
  wf x /\ length cs = length (entries_ x) /\ NoDup (concat cs) /\
  forall i p l, entries_ x !! i = Some p -> cs !! i = Some l ->
    chain h p l /\ forall q e, q ∈ l -> h !! q = Some e -> bucket (hash_ e) x = i.

Lemma elem_of_concat cs (q : Z) : q ∈ concat cs <-> exists i l, cs !! i = Some l /\ q ∈ l.
Proof.
  rewrite list_elem_of_In, in_concat. split.
  - intros (l & Hl%list_elem_of_In & Hq%list_elem_of_In). apply list_elem_of_lookup in Hl as [i Hi]. eauto.
  - intros (i & l & Hi & Hq). exists l. rewrite <-!list_elem_of_In. split; [|done].
    by eapply list_elem_of_lookup_2.
Qed.

Lemma concat_disjoint cs i j l l' (q : Z) :
  NoDup (concat cs) -> cs !! i = Some l -> cs !! j = Some l' -> q ∈ l -> q ∈ l' -> i = j.
Proof.
  revert i j. induction cs as [|c cs IH]; intros i j Hnd Hi Hj Hq Hq'; [done|]. cbn in Hnd.
  apply NoDup_app in Hnd as (_ & Hd & Hnd). destruct i as [|i], j as [|j]; cbn in *; simplify_eq; [done| | |].
  - destruct (Hd q Hq). apply elem_of_concat. eauto.
  - destruct (Hd q Hq'). apply elem_of_concat. eauto.
  - f_equal. by eapply IH.
Qed.

Lemma concat_alter_cons cs i l (q : Z) :
  cs !! i = Some l -> concat (<[i := q :: l]> cs) ≡ₚ q :: concat cs.
Proof.
  revert i. induction cs as [|c cs IH]; intros i Hi; [done|]. destruct i as [|i]; cbn in *.
  - by simplify_eq.
  - rewrite IH by done. by rewrite Permutation_middle.
Qed.

Lemma concat_replicate_nil n : concat (replicate n (@nil Z)) = [].
Proof. induction n; [done|]. cbn. done. Qed.

Lemma holds_empty h x :
  wf x -> entries_ x = replicate (length (entries_ x)) 0 ->
  holds h x (replicate (length (entries_ x)) []).
Proof.
  intros Hwf He. split_and!; [done|by rewrite length_replicate| |].
  - rewrite concat_replicate_nil. constructor.
  - intros i p l Hp Hl. rewrite He in Hp. apply lookup_replicate in Hp as [-> _].
    apply lookup_replicate in Hl as [-> _]. split; [constructor|]. intros q e Hq. by apply not_elem_of_nil in Hq.
Qed.

Lemma holds_bucket h x cs hash :
  holds h x cs -> exists p l, FindChainHead hash x = Some p /\ cs !! bucket hash x = Some l /\ chain h p l.
Proof.
  intros (Hwf & Hlen & _ & Hb). destruct (bucket_in x hash Hwf) as [Hlt _].
  destruct (lookup_lt_is_Some_2 (entries_ x) _ Hlt) as [p Hp].
  destruct (lookup_lt_is_Some_2 cs (bucket hash x) ltac:(lia)) as [l Hl].
  exists p, l. unfold FindChainHead. split_and!; [done..|]. by apply (Hb _ _ _ Hp Hl).
Qed.

Lemma holds_frame h h' x cs :
  (forall q, q ∈ concat cs -> h' !! q = h !! q) -> holds h x cs -> holds h' x cs.
Proof.
  intros Hq (Hwf & Hlen & Hnd & Hb). split_and!; [done..|]. intros i p l Hp Hl. destruct (Hb i p l Hp Hl) as [Hc Hh].
  assert (forall q, q ∈ l -> h' !! q = h !! q) as Hql by (intros q Hin; apply Hq, elem_of_concat; eauto).
  split; [by eapply bucket_chain_frame|]. intros q e Hin He. rewrite Hql in He by done. by apply (Hh q).
Qed.

(** The entries with a hash are in its bucket. *)
Lemma holds_find h x cs q e l :
  holds h x cs -> q ∈ concat cs -> h !! q = Some e -> cs !! bucket (hash_ e) x = Some l -> q ∈ l.
Proof.
  intros (_ & Hlen & _ & Hb) Hq He Hl. apply elem_of_concat in Hq as (i & l' & Hi & Hq).
  destruct (lookup_lt_is_Some_2 (entries_ x) i) as [p Hp].
  { rewrite <-Hlen. by apply lookup_lt_is_Some_1. }
  destruct (Hb _ _ _ Hp Hi) as [_ Hh]. rewrite (Hh q e Hq He) in Hl. by simplify_eq.
Qed.

Lemma Insert_holds h x cs p e :
  holds h x cs -> h !! p = Some e -> p <> 0 -> p ∉ concat cs ->
  exists old x' l, Insert p (hash_ e) h x = Some (<[p := set_word old e]> h, x') /\
    cs !! bucket (hash_ e) x = Some l /\
    holds (<[p := set_word old e]> h) x' (<[bucket (hash_ e) x := p :: l]> cs) /\
    mask_ x' = mask_ x /\ capacity_ x' = capacity_ x /\ num_elems_ x' = num_elems_ x + 1.
Proof.
  intros Hh Hp H0 Hnew. destruct (holds_bucket h x cs (hash_ e) Hh) as (old & l & Hold & Hl & Hc).
  destruct Hh as (Hwf & Hlen & Hnd & Hb). destruct (bucket_in x (hash_ e) Hwf) as [Hlt Hcap].
  unfold FindChainHead in Hold. unfold Insert. rewrite Hp. cbn [mbind option_bind].
  rewrite decide_True by done. rewrite Hold. cbn [mbind option_bind].
  do 3 eexists. split; [done|]. split; [done|]. split; [|done].
  assert (forall q, bucket q (mk (<[bucket (hash_ e) x := p]> (entries_ x)) (mask_ x) (capacity_ x)
    (num_elems_ x + 1)) = bucket q x) as Hbk by done.
  split_and!.
  - destruct Hwf as (k & ? & ? & ? & ?). exists k. cbn. by rewrite length_insert.
  - cbn. by rewrite !length_insert.
  - rewrite concat_alter_cons by done. by constructor.
  - cbn [entries_]. intros i q l' Hq Hl'. destruct (decide (i = bucket (hash_ e) x)) as [->|Hi].
    + rewrite list_lookup_insert_eq in Hq by done. rewrite list_lookup_insert_eq in Hl' by lia.
      injection Hq as <-. injection Hl' as <-. assert (p ∉ l).
      { intros Hin. apply Hnew, elem_of_concat. eauto. }
      split.
      * econstructor; [done|by rewrite lookup_insert_eq|]. by apply chain_insert.
      * intros r e' Hr He'. rewrite Hbk. destruct (decide (p = r)) as [<-|Hne].
        -- rewrite lookup_insert_eq in He'. by simplify_eq.
        -- rewrite lookup_insert_ne in He' by done. apply elem_of_cons in Hr as [->|Hr]; [done|].
           by apply (proj2 (Hb _ _ _ Hold Hl) r).
    + rewrite list_lookup_insert_ne in Hq by done. rewrite list_lookup_insert_ne in Hl' by done.
      assert (p ∉ l').
      { intros Hin. apply Hnew, elem_of_concat. eauto. }
      destruct (Hb _ _ _ Hq Hl') as [Hc' Hh']. split; [by apply chain_insert|].
      intros r e' Hr He'. rewrite Hbk. rewrite lookup_insert_ne in He' by (by intros ->). by apply (Hh' r).
Qed.

(** *** Iteration *)

Lemma next_bucket_spec h x cs fuel i :
  holds h x cs -> (length (entries_ x) - i <= fuel)%nat ->
  (exists it, next_bucket false fuel x i = Some it /\ curr_entry_ it = 0 /\ concat (drop i cs) = []) \/
  (exists j p l, next_bucket false fuel x i = Some (mkIterator (S j) p) /\ p <> 0 /\
     entries_ x !! j = Some p /\ cs !! j = Some l /\ concat (drop i cs) = l ++ concat (drop (S j) cs)).
Proof.
  intros Hh. pose proof Hh as ((k & _ & Hc & _ & Hl) & Hlen & _ & Hb). revert i.
  induction fuel as [|fuel IH]; intros i Hi; cbn [next_bucket].
  - left. eexists. split; [done|]. split; [done|]. by rewrite drop_ge by lia.
  - case_decide as Hlt.
    + destruct (lookup_lt_is_Some_2 (entries_ x) i ltac:(lia)) as [p Hp].
      destruct (lookup_lt_is_Some_2 cs i ltac:(lia)) as [l Hl'].
      rewrite Hp. cbn [mbind option_bind]. destruct (Hb _ _ _ Hp Hl') as [Hch _].
      rewrite (drop_S cs _ _ Hl'). cbn [concat]. case_decide as H0.
      * subst p. inversion Hch; [|done]. subst l. apply IH. lia.
      * right. exists i, p, l. done.
    + left. eexists. split; [done|]. split; [done|]. by rewrite drop_ge by lia.
Qed.

Lemma iterate_spec h x cs fuel i p l :
  holds h x cs -> chain h p l -> p <> 0 -> (length (l ++ concat (drop i cs)) <= fuel)%nat ->
  iterate false fuel h x (mkIterator i p) = Some (l ++ concat (drop i cs)).
Proof.
  intros Hh. pose proof Hh as ((k & _ & Hcap & _ & Hlen') & Hlen & _ & Hb).
  assert (length (entries_ x) - i <= Z.to_nat (capacity_ x))%nat as _ by lia.
  revert i p l. induction fuel as [|fuel IH]; intros i p l Hc H0 Hf.
  { inversion Hc; subst; [done|]. cbn in Hf. lia. }
  inversion Hc as [|p' e l' _ He Hc' E1 E2]; [done|]. subst p' l. cbn in Hf. cbn [iterate curr_entry_].
  rewrite decide_False by done. unfold Next. cbn [curr_entry_ entries_index_].
  rewrite decide_False, He by done. cbn [mbind option_bind].
  assert (length (entries_ x) - i <= Z.to_nat (capacity_ x))%nat as Hfuel by lia.
  case_decide as Hw.
  - rewrite Hw in Hc'. inversion Hc'; [|done]. subst l'.
    destruct (next_bucket_spec h x cs _ i Hh Hfuel) as [(it & -> & Hit & Hnil)|(j & q & l & -> & Hq & Hqj & Hlj & Hcat)].
    + cbn [mbind option_bind]. rewrite Hnil. destruct fuel; cbn [iterate]; by rewrite Hit.
    + cbn [mbind option_bind]. rewrite Hcat in Hf |- *. rewrite (IH _ _ l); [done|by apply (Hb j)|done|].
      cbn [length app] in Hf. lia.
  - cbn [mbind option_bind]. rewrite (IH _ _ l'); [done|done|done|lia].
Qed.

Lemma entries_length h x cs : holds h x cs -> (length (concat cs) <= size h)%nat.
Proof.
  intros (Hwf & Hlen & Hnd & Hb).
  rewrite <-size_dom, <-(size_list_to_set (C := gset Z)) by done. apply subseteq_size.
  intros q Hq%elem_of_list_to_set%elem_of_concat. destruct Hq as (i & l & Hl & Hq).
  destruct (lookup_lt_is_Some_2 (entries_ x) i) as [p Hp].
  { rewrite <-Hlen. by apply lookup_lt_is_Some_1. }
  apply elem_of_dom. eapply chain_in_dom; [by apply (Hb i p)|done].
Qed.

(** The iterator visits every entry once, bucket by bucket. *)
Lemma entries_of_spec h x cs : holds h x cs -> entries_of false h x = Some (concat cs).
Proof.
  intros Hh. pose proof Hh as (Hwf & Hlen & Hnd & Hb). pose proof Hwf as (k & _ & Hcap & _ & Hlen').
  pose proof (entries_length _ _ _ Hh) as Hsz.
  unfold entries_of, begin, Next. cbn [curr_entry_ entries_index_]. rewrite decide_True by done.
  assert (length (entries_ x) - 0 <= Z.to_nat (capacity_ x))%nat as Hfuel by lia.
  change (concat cs) with (concat (drop 0 cs)) in Hsz |- *.
  destruct (next_bucket_spec h x cs _ 0 Hh Hfuel) as [(it & -> & Hit & Hnil)|(j & q & l & -> & Hq & Hqj & Hlj & Hcat)].
  - cbn [mbind option_bind]. rewrite Hnil. destruct (size h); cbn [iterate]; by rewrite Hit.
  - cbn [mbind option_bind]. rewrite Hcat in Hsz |- *. by apply iterate_spec; [|apply (Hb j)| |].
Qed.

(** *** Emptying *)

Section flush.
Context {S : Type} (heap_of : S -> entries A) (sink : Z -> S -> option S).

Fixpoint sink_all (l : list Z) (s : S) : option S :=
  match l with [] => Some s | p :: l => s ← sink p s; sink_all l s end.

(** The sink changes no entry but the one it is given. *)
Hypothesis sink_local : forall p s s' q,
  sink p s = Some s' -> q <> p -> heap_of s' !! q = heap_of s !! q.

Lemma sink_all_local l s s' q : sink_all l s = Some s' -> q ∉ l -> heap_of s' !! q = heap_of s !! q.
Proof.
  revert s. induction l as [|p l IH]; intros s H Hq; cbn in H; [by simplify_eq|].
  destruct (sink p s) as [s1|] eqn:Hs; [|done]. cbn in H. apply not_elem_of_cons in Hq as [Hp Hq].
  rewrite (IH _ H Hq). by eapply sink_local.
Qed.

Lemma sink_all_app l1 l2 s : sink_all (l1 ++ l2) s = (s ← sink_all l1 s; sink_all l2 s).
Proof. revert s. induction l1 as [|p l1 IH]; intros s; cbn; [done|]. destruct (sink p s) as [s'|]; [apply IH|done]. Qed.

Lemma flush_chain_spec fuel p l s :
  chain (heap_of s) p l -> NoDup l -> (length l <= fuel)%nat ->
  flush_chain heap_of sink fuel p s = sink_all l s.
Proof.
  revert fuel p s. induction l as [|q l IH]; intros fuel p s Hc Hnd Hf.
  { inversion Hc. destruct fuel; cbn; by rewrite decide_True. }
  inversion Hc as [|q' e l' H0 He Hc' E1 E2]. subst q' l' p. destruct fuel as [|fuel]; [cbn in Hf; lia|].
  cbn [flush_chain sink_all]. rewrite decide_False, He by done. cbn [mbind option_bind].
  destruct (sink q s) as [s1|] eqn:Hs; [|done]. cbn [mbind option_bind].
  apply NoDup_cons in Hnd as [Hq Hnd]. apply IH; [|done|cbn in Hf; lia].
  eapply bucket_chain_frame; [|done]. intros r Hr. eapply sink_local; [done|]. by intros ->.
Qed.

Lemma flush_buckets_spec fuel heads cs s :
  Forall2 (chain (heap_of s)) heads cs -> NoDup (concat cs) -> (length (concat cs) <= fuel)%nat ->
  flush_buckets heap_of sink fuel heads s = sink_all (concat cs) s.
Proof.
  revert heads s. induction cs as [|c cs IH]; intros heads s Hc Hnd Hf; inversion Hc as [|p c' ps cs' H1 H2]; subst;
    [done|].
  cbn in Hnd, Hf. rewrite length_app in Hf. apply NoDup_app in Hnd as (Hn1 & Hd & Hn2).
  cbn [flush_buckets concat]. rewrite sink_all_app, (flush_chain_spec fuel p c) by (done || lia).
  destruct (sink_all c s) as [s1|] eqn:Hs; [|done]. cbn [mbind option_bind]. apply IH; [|done|lia].
  clear -H2 Hd Hs sink_local. induction H2 as [|q l qs ls Hq Hqs IH]; constructor.
  - eapply bucket_chain_frame; [|done]. intros r Hr. eapply sink_all_local; [done|]. intros Hin.
    apply (Hd r Hin). cbn. apply elem_of_app. by left.
  - apply IH. intros r Hr Hin. apply (Hd r Hr). cbn. apply elem_of_app. by right.
Qed.

(** [FlushEntries] hands every entry to the sink once and leaves an empty table. *)
Lemma FlushEntries_spec x cs s :
  holds (heap_of s) x cs ->
  FlushEntries heap_of sink x s =
    (s ← sink_all (concat cs) s;
     Some (mk (replicate (length (entries_ x)) 0) (mask_ x) (capacity_ x) 0, s)).
Proof.
  intros Hh. pose proof (entries_length _ _ _ Hh) as Hsz. destruct Hh as (Hwf & Hlen & Hnd & Hb).
  unfold FlushEntries. rewrite (flush_buckets_spec _ _ cs); [done| |done|done].
  apply Forall2_same_length_lookup_2; [done|]. intros i p l Hp Hl. by apply (Hb i).
Qed.
End flush.
End table.
End GenericTable.
