(* ===== verification/JoinTable.v ===== *)
(** * Join hash tables

    [execution/sql/concise_hash_table.{h,cpp}] and [execution/sql/join_hash_table.{h,cpp}]:
    the build side of a hash join.  Tuples are appended to a vector of entries; [Build]
    links them into a bucket-chained table, or reorders them in place after the bits
    of a concise table, main entries first and the overflow entries of each slot
    behind them.

    The addresses of the entries are those the vector gives out: an argument of
    [AllocInputTuple].  Prefetching and the statistics of the tables are left out. *)
From S2P Require Import Prelude HashTables.

(** ** Concise tables *)

Module ConciseHashTable.

Definition K_LOAD_FACTOR : Z := 8.
Definition K_MIN_NUM_SLOTS : Z := 2 ^ 12.
Definition K_LOG_SLOTS_PER_GROUP : Z := 6.
Definition K_SLOTS_PER_GROUP : Z := 2 ^ K_LOG_SLOTS_PER_GROUP.
Definition K_GROUP_BIT_MASK : Z := K_SLOTS_PER_GROUP - 1.

Record SlotGroup := mkGroup { bits_ : Z; count_ : Z }.

Record t := mk {
  slot_groups_ : list SlotGroup;
  slot_mask_ : Z;
  probe_limit_ : Z;
  num_overflow_ : Z;
  built_ : bool;
}.

Definition make (probe_threshold : Z) : t := mk [] 0 probe_threshold 0 false.

(** [BitUtil::Test] and [BitUtil::Set] on the two 32-bit words of a group. *)
Definition Test (bits idx : Z) : bool :=
  bool_decide (Z.land (wrapu 32 (Z.shiftr bits (32 * (idx `div` 32)))) (Z.shiftl 1 (idx `mod` 32)) <> 0).
Definition Set_ (bits idx : Z) : Z :=
  Z.lor bits (Z.shiftl (Z.shiftl 1 (idx `mod` 32)) (32 * (idx `div` 32))).

(** The do-while loop of [Insert]: the bit it ends with and whether that is free. *)
Fixpoint probe (fuel : nat) (bits bit_idx max_bit_idx : Z) : Z * bool :=
  if negb (Test bits bit_idx) then (bit_idx, true) else
  match fuel with
  | O => (bit_idx + 1, false)
  | S fuel =>
      if decide (bit_idx + 1 <= max_bit_idx) then probe fuel bits (bit_idx + 1) max_bit_idx
      else (bit_idx + 1, false)
  end.

Section concise.
Context `{LlvmMath}.
Implicit Types (x : t).

Definition SetSize (num_elems : Z) x : t :=
  let capacity := K_MIN_NUM_SLOTS `max` PowerOf2Floor (wrapu 32 (num_elems * K_LOAD_FACTOR)) in
  mk (replicate (Z.to_nat (Z.shiftr capacity K_LOG_SLOTS_PER_GROUP)) (mkGroup 0 0)) (capacity - 1)
     (probe_limit_ x) (num_overflow_ x) (built_ x).

(** The slot the entry is given. *)
Definition Insert (hash : Z) x : option (Z * t) :=
  let slot_idx := Z.land hash (slot_mask_ x) in
  let group_idx := Z.shiftr slot_idx K_LOG_SLOTS_PER_GROUP in
  let num_bits_to_group := Z.shiftl group_idx K_LOG_SLOTS_PER_GROUP in
  g ← slot_groups_ x !! Z.to_nat group_idx;
  let bit_idx := Z.land slot_idx K_GROUP_BIT_MASK in
  let max_bit_idx := 63 `min` (bit_idx + probe_limit_ x) in
  let '(bit_idx, free) := probe 64 (bits_ g) bit_idx max_bit_idx in
  if (free : bool) then
    Some (num_bits_to_group + bit_idx,
          mk (<[Z.to_nat group_idx := mkGroup (Set_ (bits_ g) bit_idx) (count_ g)]> (slot_groups_ x))
             (slot_mask_ x) (probe_limit_ x) (num_overflow_ x) (built_ x))
  else
    Some (num_bits_to_group + bit_idx - 1,
          mk (slot_groups_ x) (slot_mask_ x) (probe_limit_ x) (wrapu 32 (num_overflow_ x + 1)) (built_ x)).

(** The counts of a group are those of the groups up to it. *)
Fixpoint prefix_counts (count : Z) (groups : list SlotGroup) : list SlotGroup :=
  match groups with
  | [] => []
  | g :: groups =>
      let count := wrapu 32 (count + countPopulation (bits_ g)) in
      mkGroup (bits_ g) count :: prefix_counts count groups
  end.

Definition Build x : option t :=
  if built_ x then Some x else
  match slot_groups_ x with
  | [] => None
  | groups => Some (mk (prefix_counts 0 groups) (slot_mask_ x) (probe_limit_ x) (num_overflow_ x) true)
  end.

(** The bits of the word from a position on. *)
Definition bits_after (bits bit_idx : Z) : Z :=
  Z.land bits (wrapu 64 (Z.shiftl (2 ^ 64 - 1) bit_idx)).

Definition NumFilledSlotsBefore (slot : Z) x : option Z :=
  if built_ x then
    g ← slot_groups_ x !! Z.to_nat (Z.shiftr slot K_LOG_SLOTS_PER_GROUP);
    Some (wrapu 32 (count_ g - countPopulation (bits_after (bits_ g) (Z.land slot K_GROUP_BIT_MASK))))
  else None.

Definition Lookup (hash : Z) x : option (bool * Z) :=
  let slot_idx := Z.land hash (slot_mask_ x) in
  let bit_idx := Z.land slot_idx K_GROUP_BIT_MASK in
  g ← slot_groups_ x !! Z.to_nat (Z.shiftr slot_idx K_LOG_SLOTS_PER_GROUP);
  Some (bool_decide (Z.land (bits_ g) (Z.shiftl 1 bit_idx) <> 0),
        wrapu 32 (count_ g - countPopulation (bits_after (bits_ g) bit_idx))).
End concise.
End ConciseHashTable.

(** ** Reordering entries in place *)

Module Reorder.

Definition K_BUFFERED_BIT : Z := 2 ^ 62.
Definition K_PROCESSED_BIT : Z := 2 ^ 63.
Definition K_DEFAULT_VECTOR_SIZE : Z := 2048.
Definition K_BUFFER_SIZE_IN_BYTES : Z := 16 * 1024.

Section reorder.
Context {A : Type}.
Implicit Types (h : entries A) (e : HashTableEntry A).

Definition IsProcessed e : bool := bool_decide (Z.land (word_ e) K_PROCESSED_BIT <> 0).
Definition SetProcessed e : HashTableEntry A := set_word (Z.lor (word_ e) K_PROCESSED_BIT) e.
Definition IsBuffered e : bool := bool_decide (Z.land (word_ e) K_BUFFERED_BIT <> 0).
Definition SetBuffered e : HashTableEntry A := set_word (Z.lor (word_ e) K_BUFFERED_BIT) e.

(** [ReorderBuffer]: copies of entries, by their position in the buffer. *)
Record ReorderBuffer := mkBuffer {
  entry_size_ : Z;
  buffer_ : gmap nat (HashTableEntry A);
  buf_idx_ : nat;
  max_elems_ : Z;
  read_idx_ : nat;
  end_read_idx_ : nat;
}.

Definition NewReorderBuffer (entry_size max_elems : Z) (begin_read_idx end_read_idx : nat) : ReorderBuffer :=
  mkBuffer entry_size ∅ 0 (wrapu 64 (max_elems `min` (K_BUFFER_SIZE_IN_BYTES `div` entry_size) - 1))
    begin_read_idx end_read_idx.

Implicit Types (rb : ReorderBuffer).

(** A copy into the buffer; beyond its end is foreign memory. *)
Definition BufWrite (idx : nat) e rb : option ReorderBuffer :=
  if decide ((Z.of_nat idx + 1) * entry_size_ rb <= K_BUFFER_SIZE_IN_BYTES) then
    Some (mkBuffer (entry_size_ rb) (<[idx := e]> (buffer_ rb)) (buf_idx_ rb) (max_elems_ rb)
            (read_idx_ rb) (end_read_idx_ rb))
  else None.

Definition Reset (new_buf_idx : nat) rb : ReorderBuffer :=
  mkBuffer (entry_size_ rb) (buffer_ rb) new_buf_idx (max_elems_ rb) (read_idx_ rb) (end_read_idx_ rb).

(** [Fill]: [n] entries are left to read. *)
Fixpoint fill (n : nat) (vec : list Z) h rb : option (entries A * ReorderBuffer) :=
  match n with
  | O => Some (h, rb)
  | S n =>
      if decide (Z.of_nat (buf_idx_ rb) < max_elems_ rb) then
        p ← vec !! read_idx_ rb;
        e ← h !! p;
        let rb := mkBuffer (entry_size_ rb) (buffer_ rb) (buf_idx_ rb) (max_elems_ rb)
                    (S (read_idx_ rb)) (end_read_idx_ rb) in
        if IsProcessed e then fill n vec h rb else
        rb ← BufWrite (buf_idx_ rb) e rb;
        fill n vec (<[p := SetBuffered e]> h) (Reset (S (buf_idx_ rb)) rb)
      else Some (h, rb)
  end.

Definition Fill (vec : list Z) h rb : option (entries A * ReorderBuffer * bool) :=
  '(h, rb) ← fill (end_read_idx_ rb - read_idx_ rb) vec h rb;
  Some (h, rb, bool_decide (0 < buf_idx_ rb)%nat).

(** The copies that put the buffered entry [idx] into [dest]: over a buffered entry,
    or by moving what is there into the buffer, through the space after its last
    element when the place for it is the buffered entry's own. *)
Definition store (idx : nat) (dest : Z) h rb (buf_write_idx : nat)
    : option (entries A * ReorderBuffer * nat) :=
  d ← h !! dest;
  buf_entry ← buffer_ rb !! idx;
  if IsBuffered d then Some (<[dest := buf_entry]> h, rb, buf_write_idx)
  else if decide (buf_write_idx < idx)%nat then
    rb ← BufWrite buf_write_idx d rb;
    buf_entry ← buffer_ rb !! idx;
    Some (<[dest := buf_entry]> h, rb, S buf_write_idx)
  else
    let tmp := Z.to_nat (max_elems_ rb) in
    rb ← BufWrite tmp d rb;
    let h := <[dest := buf_entry]> h in
    saved ← buffer_ rb !! tmp;
    rb ← BufWrite buf_write_idx saved rb;
    Some (h, rb, S buf_write_idx).

End reorder.
Arguments ReorderBuffer A : clear implicits.
End Reorder.

(** ** Join tables *)

Module JoinHashTable.
Import Reorder.

Record t := mk {
  entries_ : list Z;
  entry_size_ : Z;
  generic_hash_table_ : GenericHashTable.t;
  concise_hash_table_ : ConciseHashTable.t;
  built_ : bool;
  use_concise_ht_ : bool;
}.

(** The entry is 16 bytes longer than the tuple. *)
Definition make (tuple_size : Z) (use_concise_ht : bool) : t :=
  mk [] (16 + tuple_size) (GenericHashTable.mk [] 0 0 0) (ConciseHashTable.make 0) false use_concise_ht.

Definition set_entries (l : list Z) (x : t) : t :=
  mk l (entry_size_ x) (generic_hash_table_ x) (concise_hash_table_ x) (built_ x) (use_concise_ht_ x).
Definition set_generic (g : GenericHashTable.t) (x : t) : t :=
  mk (entries_ x) (entry_size_ x) g (concise_hash_table_ x) (built_ x) (use_concise_ht_ x).
Definition set_concise (c : ConciseHashTable.t) (x : t) : t :=
  mk (entries_ x) (entry_size_ x) (generic_hash_table_ x) c (built_ x) (use_concise_ht_ x).
Definition set_built (x : t) : t :=
  mk (entries_ x) (entry_size_ x) (generic_hash_table_ x) (concise_hash_table_ x) true (use_concise_ht_ x).

Section join.
Context {A : Type} `{LlvmMath} (exceeds : Z -> Z -> bool).
Implicit Types (h : entries A) (x : t).

Definition NumElements x : Z := Z.of_nat (length (entries_ x)).

(** The vector gives the entry the address [p]; the caller then writes the tuple. *)
Definition AllocInputTuple (p hash : Z) (tuple : A) h x : entries A * t :=
  (<[p := mkEntry 0 hash tuple]> h, set_entries (entries_ x ++ [p]) x).

(** [EntryAt] and the entry there. *)
Definition entry_at (vec : list Z) (idx : nat) h : option (HashTableEntry A) := p ← vec !! idx; h !! p.

Definition write_at (vec : list Z) (idx : nat) (w : Z) h : option (entries A) :=
  p ← vec !! idx; e ← h !! p; Some (<[p := set_word w e]> h).

(** *** The bucket-chained index *)

Fixpoint insert_all (ps : list Z) h (g : GenericHashTable.t) : option (entries A * GenericHashTable.t) :=
  match ps with
  | [] => Some (h, g)
  | p :: ps => e ← h !! p; '(h, g) ← GenericHashTable.Insert p (hash_ e) h g; insert_all ps h g
  end.

Definition BuildGenericHashTable h x : option (entries A * t) :=
  g ← GenericHashTable.SetSize exceeds (NumElements x);
  '(h, g) ← insert_all (entries_ x) h g;
  Some (h, set_generic g x).

(** *** The concise index *)

Fixpoint InsertIntoConciseHashTable (ps : list Z) h (c : ConciseHashTable.t)
    : option (entries A * ConciseHashTable.t) :=
  match ps with
  | [] => Some (h, c)
  | p :: ps =>
      e ← h !! p;
      '(slot, c) ← ConciseHashTable.Insert (hash_ e) c;
      InsertIntoConciseHashTable ps (<[p := set_word slot e]> h) c
  end.

(** Where the buffered entries belong, as indexes of the vector. *)
Definition parent_of (c : ConciseHashTable.t) (vec : list Z) (e : HashTableEntry A) : option Z :=
  i ← ConciseHashTable.NumFilledSlotsBefore (word_ e) c; vec !! Z.to_nat i.

Fixpoint targets (n : nat) (idx : nat) (c : ConciseHashTable.t) (vec : list Z)
    (rb : ReorderBuffer A) : option (list Z) :=
  match n with
  | O => Some []
  | S n =>
      e ← buffer_ rb !! idx;
      p ← parent_of c vec e;
      l ← targets n (S idx) c vec rb;
      Some (p :: l)
  end.

(** One buffered entry of [ReorderMainEntries]. *)
Definition main_step (vec : list Z) (idx : nat) (target : Z) h (rb : ReorderBuffer A)
    (overflow_idx buf_write_idx : nat) : option (entries A * ReorderBuffer A * nat * nat) :=
  d ← h !! target;
  if IsProcessed d then
    dest ← vec !! overflow_idx;
    '(h, rb, w) ← store idx dest h rb buf_write_idx;
    Some (h, rb, S overflow_idx, w)
  else
    e ← buffer_ rb !! idx;
    rb ← BufWrite idx (SetProcessed e) rb;
    '(h, rb, w) ← store idx target h rb buf_write_idx;
    Some (h, rb, overflow_idx, w).

Fixpoint main_steps (vec : list Z) (idx : nat) (ts : list Z) h (rb : ReorderBuffer A)
    (overflow_idx buf_write_idx : nat) : option (entries A * ReorderBuffer A * nat * nat) :=
  match ts with
  | [] => Some (h, rb, overflow_idx, buf_write_idx)
  | target :: ts =>
      '(h, rb, o, w) ← main_step vec idx target h rb overflow_idx buf_write_idx;
      main_steps vec (S idx) ts h rb o w
  end.

Fixpoint main_loop (fuel : nat) (c : ConciseHashTable.t) (vec : list Z) h (rb : ReorderBuffer A)
    (overflow_idx : nat) : option (entries A) :=
  match fuel with
  | O => None
  | S fuel =>
      '(h, rb, more) ← Fill vec h rb;
      if (more : bool) then
        ts ← targets (buf_idx_ rb) 0 c vec rb;
        '(h, rb, o, w) ← main_steps vec 0 ts h rb overflow_idx 0;
        main_loop fuel c vec h (Reset w rb) o
      else Some h
  end.

Definition ReorderMainEntries h x : option (entries A) :=
  let c := concise_hash_table_ x in
  let vec := entries_ x in
  let num_main := (length vec - Z.to_nat (ConciseHashTable.num_overflow_ c))%nat in
  if decide (num_main = 0%nat) then Some h else
  main_loop (S (length vec)) c vec h
    (NewReorderBuffer (entry_size_ x) K_DEFAULT_VECTOR_SIZE 0 num_main) num_main.

(** *** Overflow entries *)

(** Step 1. *)
Fixpoint clear_counts (n idx : nat) (vec : list Z) h : option (entries A) :=
  match n with
  | O => Some h
  | S n => h ← write_at vec idx 0 h; clear_counts n (S idx) vec h
  end.

(** Step 2: a vector of overflow entries finds its parents, then their counts grow. *)
Fixpoint parents_of (c : ConciseHashTable.t) (vec idxs : list Z) h : option (list Z) :=
  match idxs with
  | [] => Some []
  | p :: idxs =>
      e ← h !! p; q ← parent_of c vec e; l ← parents_of c vec idxs h; Some (q :: l)
  end.

Fixpoint count_parents (ps : list Z) h : option (entries A) :=
  match ps with
  | [] => Some h
  | p :: ps => e ← h !! p; count_parents ps (<[p := set_word (wrapu 64 (word_ e + 1)) e]> h)
  end.

Fixpoint count_vectors (fuel : nat) (c : ConciseHashTable.t) (vec overflow : list Z) h
    : option (entries A) :=
  match overflow, fuel with
  | [], _ => Some h
  | _, O => None
  | _, S fuel =>
      ps ← parents_of c vec (take (Z.to_nat K_DEFAULT_VECTOR_SIZE) overflow) h;
      h ← count_parents ps h;
      count_vectors fuel c vec (drop (Z.to_nat K_DEFAULT_VECTOR_SIZE) overflow) h
  end.

Definition no_overflow : Z := 2 ^ 64 - 1.

(** Step 3: the counts become the ends of the ranges of the overflow entries. *)
Fixpoint sum_counts (n idx : nat) (num_main count : Z) (vec : list Z) h : option (entries A) :=
  match n with
  | O => Some h
  | S n =>
      e ← entry_at vec idx h;
      let count := wrapu 64 (count + word_ e) in
      h ← write_at vec idx (if decide (word_ e = 0) then no_overflow else wrapu 64 (num_main + count)) h;
      sum_counts n (S idx) num_main count vec h
  end.

(** Step 4: one buffered overflow entry. *)
Definition overflow_step (vec : list Z) (idx : nat) (parent : Z) h (rb : ReorderBuffer A)
    (buf_write_idx : nat) : option (entries A * ReorderBuffer A * nat) :=
  e ← buffer_ rb !! idx;
  rb ← BufWrite idx (SetProcessed e) rb;
  m ← h !! parent;
  let count := wrapu 64 (word_ m - 1) in
  let h := <[parent := set_word count m]> h in
  target ← vec !! Z.to_nat count;
  store idx target h rb buf_write_idx.

Fixpoint overflow_steps (vec : list Z) (idx : nat) (ps : list Z) h (rb : ReorderBuffer A)
    (buf_write_idx : nat) : option (entries A * ReorderBuffer A * nat) :=
  match ps with
  | [] => Some (h, rb, buf_write_idx)
  | parent :: ps =>
      '(h, rb, w) ← overflow_step vec idx parent h rb buf_write_idx;
      overflow_steps vec (S idx) ps h rb w
  end.

Fixpoint overflow_loop (fuel : nat) (c : ConciseHashTable.t) (vec : list Z) h
    (rb : ReorderBuffer A) : option (entries A) :=
  match fuel with
  | O => None
  | S fuel =>
      '(h, rb, more) ← Fill vec h rb;
      if (more : bool) then
        ps ← targets (buf_idx_ rb) 0 c vec rb;
        '(h, rb, w) ← overflow_steps vec 0 ps h rb 0;
        overflow_loop fuel c vec h (Reset w rb)
      else Some h
  end.

(** Step 5: the chains, of the main entries and of the overflow entries. *)
Fixpoint link_main (n idx : nat) (vec : list Z) h : option (entries A) :=
  match n with
  | O => Some h
  | S n =>
      e ← entry_at vec idx h;
      next ← (if decide (word_ e = no_overflow) then Some 0 else vec !! Z.to_nat (word_ e));
      h ← write_at vec idx next h;
      link_main n (S idx) vec h
  end.

Fixpoint link_overflow (n idx : nat) (vec : list Z) h : option (entries A) :=
  match n with
  | O => Some h
  | S n =>
      prev ← entry_at vec (idx - 1) h;
      curr ← entry_at vec idx h;
      q ← vec !! idx;
      h ← write_at vec (idx - 1) (if decide (word_ prev = word_ curr) then q else 0) h;
      link_overflow n (S idx) vec h
  end.

Definition ReorderOverflowEntries h x : option (entries A) :=
  let c := concise_hash_table_ x in
  let vec := entries_ x in
  let num_entries := length vec in
  let num_overflow := Z.to_nat (ConciseHashTable.num_overflow_ c) in
  let num_main := (num_entries - num_overflow)%nat in
  h ← clear_counts num_main 0 vec h;
  if decide (num_overflow = 0%nat) then Some h else
  h ← count_vectors (S num_overflow) c vec (drop num_main vec) h;
  h ← sum_counts num_main 0 (Z.of_nat num_main) 0 vec h;
  h ← overflow_loop (S num_entries) c vec h
        (NewReorderBuffer (entry_size_ x) K_DEFAULT_VECTOR_SIZE num_main num_entries);
  h ← link_main num_main 0 vec h;
  h ← link_overflow (num_overflow - 1) (S num_main) vec h;
  write_at vec (num_entries - 1) 0 h.

Definition BuildConciseHashTable h x : option (entries A * t) :=
  let c := ConciseHashTable.SetSize (wrapu 32 (NumElements x)) (concise_hash_table_ x) in
  '(h, c) ← InsertIntoConciseHashTable (entries_ x) h c;
  c ← ConciseHashTable.Build c;
  let x := set_concise c x in
  h ← ReorderMainEntries h x;
  h ← ReorderOverflowEntries h x;
  Some (h, x).

Definition Build h x : option (entries A * t) :=
  if built_ x then Some (h, x) else
  '(h, x) ← (if use_concise_ht_ x then BuildConciseHashTable h x else BuildGenericHashTable h x);
  Some (h, set_built x).

(** *** Lookups *)

(** [Lookup<false>] skips to the first entry with the hash. *)
Fixpoint skip_to (fuel : nat) (hash p : Z) h : option Z :=
  if decide (p = 0) then Some 0 else
  match fuel with
  | O => None
  | S fuel =>
      e ← h !! p;
      if decide (hash_ e = hash) then Some p else skip_to fuel hash (word_ e) h
  end.

(** The first entry of the iterator. *)
Definition Lookup (hash : Z) h x : option Z :=
  if use_concise_ht_ x then
    '(found, idx) ← ConciseHashTable.Lookup hash (concise_hash_table_ x);
    if (found : bool) then entries_ x !! Z.to_nat idx else Some 0
  else
    p ← GenericHashTable.FindChainHead hash (generic_hash_table_ x);
    skip_to (size h) hash p h.

(** [JoinHashTableIterator::HasNext]: the match it stops at, null if there is none. *)
Fixpoint HasNext (fuel : nat) (key_eq : A -> bool) (hash next : Z) h : option Z :=
  if decide (next = 0) then Some 0 else
  match fuel with
  | O => None
  | S fuel =>
      e ← h !! next;
      if decide (hash_ e = hash /\ key_eq (payload_ e) = true) then Some next
      else HasNext fuel key_eq hash (word_ e) h
  end.

(** The tuples of the loop [while (it.HasNext(key_eq, ...)) it.NextMatch();]. *)
Fixpoint matches (fuel : nat) (key_eq : A -> bool) (hash next : Z) h : option (list A) :=
  p ← HasNext (size h) key_eq hash next h;
  if decide (p = 0) then Some [] else
  match fuel with
  | O => None
  | S fuel =>
      e ← h !! p;
      l ← matches fuel key_eq hash (word_ e) h;
      Some (payload_ e :: l)
  end.

Definition probe (key_eq : A -> bool) (hash : Z) h x : option (list A) :=
  p ← Lookup hash h x; matches (size h) key_eq hash p h.

(** [LookupBatch]: the heads of the chains. *)
Definition LookupBatch (hashes : list Z) h x : option (list Z) :=
  if built_ x then
    mapM (fun hash =>
      if use_concise_ht_ x then
        '(found, idx) ← ConciseHashTable.Lookup hash (concise_hash_table_ x);
        if (found : bool) then entries_ x !! Z.to_nat idx else Some 0
      else GenericHashTable.FindChainHead hash (generic_hash_table_ x)) hashes
  else None.

End join.
End JoinHashTable.
