(* ===== verification/ConciseBits.v ===== *)
(** * The bits and counts of concise tables

    What [ConciseHashTable] promises with a probe limit of zero, as join tables use
    it: an entry is given the slot of its hash, a slot is filled iff an entry has it,
    and the number of filled slots before a slot is its rank among them. *)
From S2P Require Import Prelude HashTables JoinTable.
Import ConciseHashTable.

(** ** Counting in intervals *)

Definition cnt (P : Z -> bool) (a n : Z) : Z := Z.of_nat (length (filter (fun i => P i = true) (seqZ a n))).

Lemma cnt_bound P a n : 0 <= n -> 0 <= cnt P a n <= n.
Proof.
  intros Hn. unfold cnt. split; [lia|]. etransitivity; [apply inj_le, length_filter|].
  rewrite length_seqZ. lia.
Qed.

Lemma cnt_app P a n m : 0 <= n -> 0 <= m -> cnt P a (n + m) = cnt P a n + cnt P (a + n) m.
Proof. intros Hn Hm. unfold cnt. rewrite seqZ_app, filter_app, length_app by done. lia. Qed.

Lemma cnt_shift P Q a b n :
  (forall i, 0 <= i < n -> P (a + i) = Q (b + i)) -> cnt P a n = cnt Q b n.
Proof.
  intros H. unfold cnt. f_equal. destruct (decide (n <= 0)) as [Hn|Hn].
  { by rewrite !(seqZ_nil) by done. }
  revert H. assert (0 <= n) as Hn' by lia. clear Hn. revert a b.
  apply (Zlt_0_ind (fun n => forall a b, (forall i, 0 <= i < n -> P (a + i) = Q (b + i)) ->
    length (filter (fun i => P i = true) (seqZ a n)) = length (filter (fun i => Q i = true) (seqZ b n)))); [|done].
  clear n Hn'. intros n IH Hn a b H. destruct (decide (n = 0)) as [->|Hne]; [done|].
  rewrite (seqZ_cons a), (seqZ_cons b) by lia. rewrite !filter_cons.
  pose proof (H 0 ltac:(lia)) as H0. rewrite !Z.add_0_r in H0.
  assert (length (filter (fun i => P i = true) (seqZ (Z.succ a) (Z.pred n))) =
    length (filter (fun i => Q i = true) (seqZ (Z.succ b) (Z.pred n)))) as Htl.
  { apply IH; [lia|]. intros i Hi. rewrite !Z.add_succ_l, <-!Z.add_succ_r. apply H. lia. }
  repeat case_decide; cbn; congruence.
Qed.

Lemma cnt_one P a : cnt P a 1 = if P a then 1 else 0.
Proof.
  unfold cnt. rewrite seqZ_cons by lia. change (Z.pred 1) with 0. rewrite seqZ_nil by lia.
  rewrite filter_cons. by destruct (P a) eqn:E; [rewrite decide_True by done|rewrite decide_False by congruence].
Qed.

Lemma cnt_add P Q s a n :
  0 <= n -> a <= s < a + n -> P s = false -> (forall i, Q i = P i || bool_decide (i = s)) ->
  cnt Q a n = cnt P a n + 1.
Proof.
  intros Hn Hs HPs HQ. replace n with ((s - a) + (1 + (a + n - s - 1))) by lia.
  rewrite !cnt_app by lia. replace (a + (s - a)) with s by lia. rewrite !cnt_one, HQ, HPs, bool_decide_true by done.
  rewrite (cnt_shift Q P a a), (cnt_shift Q P (s + 1) (s + 1)); [cbn; lia| |].
  - intros i Hi. rewrite HQ, bool_decide_false by lia. apply orb_false_r.
  - intros i Hi. rewrite HQ, bool_decide_false by lia. apply orb_false_r.
Qed.

(** ** Words *)

Lemma group_Test_testbit bits idx : 0 <= idx < 64 -> Test bits idx = Z.testbit bits idx.
Proof.
  intros Hi. unfold Test. pose proof (Z.mod_pos_bound idx 32 ltac:(lia)).
  pose proof (Z.div_mod idx 32 ltac:(lia)). assert (0 <= idx `div` 32) by (apply Z.div_pos; lia).
  rewrite testbit_mask by lia. unfold wrapu. rewrite Z.mod_pow2_bits_low, Z.shiftr_spec by lia.
  f_equal. lia.
Qed.

Lemma Set_spec bits idx i :
  0 <= idx < 64 -> Z.testbit (Set_ bits idx) i = Z.testbit bits i || bool_decide (i = idx).
Proof.
  intros Hi. unfold Set_. pose proof (Z.mod_pos_bound idx 32 ltac:(lia)).
  pose proof (Z.div_mod idx 32 ltac:(lia)). assert (0 <= idx `div` 32) by (apply Z.div_pos; lia).
  rewrite Z.shiftl_shiftl by lia. replace (idx `mod` 32 + 32 * (idx `div` 32)) with idx by lia.
  rewrite Z.lor_spec, Z.shiftl_1_l. f_equal.
  destruct (decide (i = idx)) as [->|Hne].
  - by rewrite Z.pow2_bits_true, bool_decide_true by lia.
  - by rewrite Z.pow2_bits_false, bool_decide_false by lia.
Qed.

Lemma Set_uint bits idx : 0 <= idx < 64 -> is_uint 64 bits -> is_uint 64 (Set_ bits idx).
Proof.
  intros Hi Hb. apply is_uint_bits; [lia|]. intros n Hn. rewrite Set_spec by done.
  rewrite bool_decide_false by lia. by rewrite (proj1 (is_uint_bits 64 bits ltac:(lia)) Hb n Hn).
Qed.

Lemma set_bits_cnt w : Z.of_nat (length (set_bits w)) = cnt (Z.testbit w) 0 64.
Proof. done. Qed.

Lemma bits_after_testbit bits b i :
  0 <= b -> 0 <= i < 64 -> Z.testbit (bits_after bits b) i = Z.testbit bits i && bool_decide (b <= i).
Proof.
  intros Hb Hi. unfold bits_after. rewrite Z.land_spec. f_equal. unfold wrapu.
  rewrite Z.mod_pow2_bits_low by lia. destruct (decide (b <= i)) as [Hle|Hlt].
  - rewrite Z.shiftl_spec by lia. change (2 ^ 64 - 1) with (Z.ones 64).
    by rewrite Z.ones_spec_low, bool_decide_true by lia.
  - by rewrite Z.shiftl_spec_low, bool_decide_false by lia.
Qed.

Lemma bits_after_uint bits b : is_uint 64 (bits_after bits b).
Proof. unfold bits_after. auto with bits zarith. Qed.

Lemma bits_after_cnt bits b :
  0 <= b <= 64 -> cnt (Z.testbit (bits_after bits b)) 0 64 = cnt (Z.testbit bits) b (64 - b).
Proof.
  intros Hb. replace 64 with (b + (64 - b)) at 1 by lia. rewrite cnt_app by lia.
  rewrite (cnt_shift _ (fun _ => false) 0 0 b).
  - rewrite (cnt_shift _ (Z.testbit bits) (0 + b) b).
    + unfold cnt at 1. rewrite filter_none by (by apply Forall_true). cbn. lia.
    + intros i Hi. rewrite bits_after_testbit, bool_decide_true, andb_true_r by lia. done.
  - intros i Hi. by rewrite bits_after_testbit, bool_decide_false, andb_false_r by lia.
Qed.

(** ** Filled slots *)

Definition filled (gs : list SlotGroup) (s : Z) : bool :=
  match gs !! Z.to_nat (s `div` 64) with Some g => Z.testbit (bits_ g) (s `mod` 64) | None => false end.

(** The rank of a slot, and the filled slots in order. *)
Definition rank (gs : list SlotGroup) (s : Z) : Z := cnt (filled gs) 0 s.
Definition slots (gs : list SlotGroup) : Z := 64 * Z.of_nat (length gs).
Definition filled_slots (gs : list SlotGroup) : list Z := filter (fun s => filled gs s = true) (seqZ 0 (slots gs)).

Lemma length_filled_slots gs : Z.of_nat (length (filled_slots gs)) = cnt (filled gs) 0 (slots gs).
Proof. done. Qed.

Lemma NoDup_filled_slots gs : NoDup (filled_slots gs).
Proof. apply NoDup_filter, NoDup_seqZ. Qed.

Lemma elem_of_filled_slots gs s : s ∈ filled_slots gs <-> filled gs s = true /\ 0 <= s < slots gs.
Proof. unfold filled_slots. rewrite list_elem_of_filter, elem_of_seqZ. naive_solver lia. Qed.

Lemma filled_bound gs s : filled gs s = true -> 0 <= s -> s < slots gs.
Proof.
  unfold filled, slots. intros Hf Hs. destruct (gs !! _) as [g|] eqn:E; [|done]. apply lookup_lt_Some in E.
  pose proof (Z.mod_pos_bound s 64 ltac:(lia)). pose proof (Z.div_mod s 64 ltac:(lia)).
  assert (0 <= s `div` 64) by (apply Z.div_pos; lia). lia.
Qed.

(** A filled slot is found at its rank. *)
Lemma filled_slots_rank gs s :
  filled gs s = true -> 0 <= s < slots gs -> filled_slots gs !! Z.to_nat (rank gs s) = Some s.
Proof.
  intros Hf Hs. unfold filled_slots, rank, cnt. rewrite Nat2Z.id.
  replace (slots gs) with (s + (slots gs - s)) by lia. rewrite seqZ_app, filter_app by lia.
  rewrite lookup_app_r, Nat.sub_diag by lia. rewrite seqZ_cons, filter_cons by lia.
  rewrite Z.add_0_l, decide_True by done. done.
Qed.

Lemma rank_bound gs s :
  filled gs s = true -> 0 <= s < slots gs -> 0 <= rank gs s < Z.of_nat (length (filled_slots gs)).
Proof.
  intros Hf Hs. pose proof (filled_slots_rank gs s Hf Hs) as H%lookup_lt_Some.
  pose proof (cnt_bound (filled gs) 0 s ltac:(lia)). unfold rank in *. lia.
Qed.

Lemma rank_inj gs s s' :
  filled gs s = true -> 0 <= s < slots gs -> filled gs s' = true -> 0 <= s' < slots gs ->
  rank gs s = rank gs s' -> s = s'.
Proof.
  intros Hf Hs Hf' Hs' Hr. apply filled_slots_rank in Hf, Hf'; [|done..]. rewrite Hr in Hf. congruence.
Qed.

(** ** Building *)

Definition wf (c : t) : Prop :=
  probe_limit_ c = 0 /\ Forall (fun g => is_uint 64 (bits_ g)) (slot_groups_ c) /\
  exists k, 12 <= k <= 62 /\ slot_mask_ c = 2 ^ k - 1 /\ slots (slot_groups_ c) = 2 ^ k.

Definition slot_of (c : t) (hash : Z) : Z := Z.land hash (slot_mask_ c).

Lemma slot_of_bound c hash : wf c -> 0 <= slot_of c hash < slots (slot_groups_ c).
Proof.
  intros (_ & _ & k & Hk & Hm & Hs). unfold slot_of. rewrite Hm, Hs, GenericTable.mask_mod by lia.
  apply Z.mod_pos_bound. pow2. lia.
Qed.

Lemma group_bits s : 0 <= s -> Z.shiftr s K_LOG_SLOTS_PER_GROUP = s `div` 64 /\ Z.land s K_GROUP_BIT_MASK = s `mod` 64.
Proof.
  intros Hs. split; [by rewrite Z.shiftr_div_pow2|]. change K_GROUP_BIT_MASK with (2 ^ 6 - 1).
  by rewrite GenericTable.mask_mod.
Qed.

Lemma group_lookup gs s : 0 <= s < slots gs -> exists g, gs !! Z.to_nat (s `div` 64) = Some g.
Proof.
  intros Hs. apply lookup_lt_is_Some_2. unfold slots in Hs.
  assert (s `div` 64 < Z.of_nat (length gs)) by (apply Z.div_lt_upper_bound; lia).
  assert (0 <= s `div` 64) by (apply Z.div_pos; lia). lia.
Qed.

Lemma SetSize_wf `{LlvmMathLaws} n c :
  0 < n < 2 ^ 29 -> probe_limit_ c = 0 -> wf (SetSize n c) /\ filled_slots (slot_groups_ (SetSize n c)) = [].
Proof.
  intros Hn Hp. unfold SetSize. cbn [slot_groups_].
  set (cap := K_MIN_NUM_SLOTS `max` _).
  assert (exists k, 12 <= k <= 62 /\ cap = 2 ^ k) as (k & Hk & Hcap).
  { unfold cap, K_MIN_NUM_SLOTS, K_LOAD_FACTOR. rewrite wrapu_small by (unfold is_uint; lia).
    destruct (PowerOf2Floor_law (n * 8) ltac:(lia)) as (k & Hk & -> & Hle).
    assert (k < 32) by (apply (Z.pow_lt_mono_r_iff 2); lia).
    destruct (decide (k <= 12)).
    - exists 12. split; [lia|]. assert (2 ^ k <= 2 ^ 12) by (apply Z.pow_le_mono_r; lia). lia.
    - exists k. split; [lia|]. assert (2 ^ 12 <= 2 ^ k) by (apply Z.pow_le_mono_r; lia). lia. }
  assert (slots (replicate (Z.to_nat (Z.shiftr cap K_LOG_SLOTS_PER_GROUP)) (mkGroup 0 0)) = 2 ^ k) as Hslots.
  { unfold slots. rewrite length_replicate, Hcap. change K_LOG_SLOTS_PER_GROUP with 6.
    rewrite Z.shiftr_div_pow2 by lia. replace k with ((k - 6) + 6) by lia. rewrite Z.pow_add_r by lia.
    rewrite Z.div_mul by lia. pose proof (Z.pow_pos_nonneg 2 (k - 6)). lia. }
  split.
  - split; [done|]. split.
    + apply Forall_replicate. cbn. unfold is_uint. lia.
    + exists k. split_and!; [lia|lia|cbn [slot_mask_]; by rewrite Hcap|exact Hslots].
  - unfold filled_slots. apply filter_none, Forall_forall. intros s _. unfold filled.
    destruct (replicate _ _ !! _) as [g|] eqn:E; [|discriminate]. apply lookup_replicate in E as [-> _].
    cbn. by rewrite Z.bits_0.
Qed.

Lemma filled_set gs i g b s :
  gs !! Z.to_nat (s `div` 64) = Some g -> 0 <= s -> b = s `mod` 64 -> 0 <= i ->
  filled (<[Z.to_nat (s `div` 64) := mkGroup (Set_ (bits_ g) b) (count_ g)]> gs) i =
    filled gs i || bool_decide (i = s).
Proof.
  intros Hg Hs -> Hi. unfold filled.
  pose proof (Z.mod_pos_bound s 64 ltac:(lia)). pose proof (Z.mod_pos_bound i 64 ltac:(lia)).
  pose proof (Z.div_mod s 64 ltac:(lia)). pose proof (Z.div_mod i 64 ltac:(lia)).
  assert (0 <= s `div` 64) by (apply Z.div_pos; lia). assert (0 <= i `div` 64) by (apply Z.div_pos; lia).
  destruct (decide (i `div` 64 = s `div` 64)) as [He|He].
  - rewrite He, Hg, list_lookup_insert_eq by (by eapply lookup_lt_Some). cbn [bits_].
    rewrite Set_spec by lia. f_equal. apply bool_decide_ext. lia.
  - rewrite list_lookup_insert_ne by lia. rewrite bool_decide_false by (intros ->; lia). by rewrite orb_false_r.
Qed.

(** An entry gets the slot of its hash, and counts as overflow if that is filled. *)
Lemma Insert_spec `{LlvmMathLaws} hash c :
  wf c -> exists c', Insert hash c = Some (slot_of c hash, c') /\ wf c' /\ slot_mask_ c' = slot_mask_ c /\
    slots (slot_groups_ c') = slots (slot_groups_ c) /\ built_ c' = built_ c /\
    (forall s, 0 <= s -> filled (slot_groups_ c') s = filled (slot_groups_ c) s || bool_decide (s = slot_of c hash)) /\
    num_overflow_ c' = if filled (slot_groups_ c) (slot_of c hash) then wrapu 32 (num_overflow_ c + 1) else num_overflow_ c.
Proof.
  intros Hwf. pose proof (slot_of_bound c hash Hwf) as Hs. destruct (group_lookup _ _ Hs) as [g Hg].
  pose proof Hwf as (Hp & Hb & k & Hk & Hm & Hsl). unfold Insert. fold (slot_of c hash).
  set (s := slot_of c hash) in *. destruct (group_bits s ltac:(lia)) as [-> ->]. rewrite Hg. cbn [mbind option_bind].
  pose proof (Z.mod_pos_bound s 64 ltac:(lia)). pose proof (Z.div_mod s 64 ltac:(lia)).
  assert (Z.shiftl (s `div` 64) K_LOG_SLOTS_PER_GROUP = 64 * (s `div` 64)) as ->
    by (rewrite Z.shiftl_mul_pow2 by done; change (2 ^ K_LOG_SLOTS_PER_GROUP) with 64; lia).
  cbn [probe]. rewrite Hp, group_Test_testbit, decide_False by lia.
  assert (filled (slot_groups_ c) s = Z.testbit (bits_ g) (s `mod` 64)) as Hfs by (unfold filled; by rewrite Hg).
  destruct (Z.testbit (bits_ g) (s `mod` 64)) eqn:Ht; cbn [negb].
  - eexists. split; [do 2 f_equal; lia|]. cbn. rewrite Hfs. split_and!; [by split; [|split; [|exists k]]|done|done|done| |done].
    intros i Hi. destruct (decide (i = s)) as [->|Hne]; [by rewrite Hfs|].
    by rewrite bool_decide_false, orb_false_r.
  - eexists. split; [do 2 f_equal; lia|]. cbn. rewrite Hfs. split_and!; [|done| |done| |done].
    + split; [done|]. cbn. split.
      * apply Forall_insert; [done|]. cbn. apply Set_uint; [lia|].
        by apply (Forall_lookup_1 _ _ _ _ Hb Hg).
      * exists k. unfold slots. by rewrite length_insert.
    + unfold slots. by rewrite length_insert.
    + intros i Hi. apply filled_set; [done|lia|done|done].
Qed.

Lemma Insert_count `{LlvmMathLaws} hash c c' n :
  wf c -> Insert hash c = Some (slot_of c hash, c') ->
  cnt (filled (slot_groups_ c)) 0 (slots (slot_groups_ c)) + num_overflow_ c = n -> 0 <= num_overflow_ c ->
  n + 1 < 2 ^ 32 ->
  cnt (filled (slot_groups_ c')) 0 (slots (slot_groups_ c')) + num_overflow_ c' = n + 1 /\ 0 <= num_overflow_ c'.
Proof.
  intros Hwf Hins Hn H0 Hlt. destruct (Insert_spec hash c Hwf) as (c2 & H2 & _ & _ & Hsl & _ & Hf & Ho).
  rewrite Hins in H2. simplify_eq. pose proof (slot_of_bound c hash Hwf) as Hs.
  pose proof (cnt_bound (filled (slot_groups_ c)) 0 (slots (slot_groups_ c)) ltac:(lia)).
  rewrite Hsl. destruct (filled (slot_groups_ c) (slot_of c hash)) eqn:Hfs.
  - rewrite Ho, wrapu_small by (unfold is_uint; lia).
    rewrite (cnt_shift _ (filled (slot_groups_ c)) 0 0); [lia|]. intros i Hi. rewrite Hf by lia.
    destruct (decide (0 + i = slot_of c hash)) as [->|Hne]; [by rewrite Hfs|].
    by rewrite bool_decide_false, orb_false_r.
  - rewrite Ho. rewrite (cnt_shift _ (fun i => filled (slot_groups_ c) i || bool_decide (i = slot_of c hash)) 0 0).
    + erewrite cnt_add; [| | |apply Hfs|]; [lia|lia|lia|done].
    + intros i Hi. by rewrite Hf by lia.
Qed.

(** ** Prefix counts *)

Section counts.
Context `{LlvmMathLaws}.

Lemma prefix_counts_lookup c gs i g :
  gs !! i = Some g -> exists n, prefix_counts c gs !! i = Some (mkGroup (bits_ g) n).
Proof.
  revert c i. induction gs as [|g' gs IH]; intros c [|i] Hi; simplify_eq/=; eauto.
Qed.

Lemma length_prefix_counts c gs : length (prefix_counts c gs) = length gs.
Proof. revert c. induction gs as [|g gs IH]; intros c; cbn; [done|]. by rewrite IH. Qed.

Lemma filled_prefix_counts c gs s : filled (prefix_counts c gs) s = filled gs s.
Proof.
  unfold filled. destruct (gs !! _) as [g|] eqn:E.
  - by destruct (prefix_counts_lookup c gs _ _ E) as [n ->].
  - assert (prefix_counts c gs !! Z.to_nat (s `div` 64) = None) as ->; [|done].
    apply lookup_ge_None. rewrite length_prefix_counts. by apply lookup_ge_None.
Qed.

(** The slots of one group. *)
Lemma filled_group gs i g b n :
  gs !! i = Some g -> 0 <= b -> b + n <= 64 -> cnt (filled gs) (64 * Z.of_nat i + b) n = cnt (Z.testbit (bits_ g)) b n.
Proof.
  intros Hg Hb Hn. apply cnt_shift. intros j Hj. unfold filled.
  replace ((64 * Z.of_nat i + b + j) `div` 64) with (Z.of_nat i)
    by (apply (Z.div_unique _ _ _ (b + j)); lia).
  replace ((64 * Z.of_nat i + b + j) `mod` 64) with (b + j) by (apply (Z.mod_unique _ _ (Z.of_nat i)); lia).
  by rewrite Nat2Z.id, Hg.
Qed.

Lemma prefix_counts_count c gs i g :
  Forall (fun g => is_uint 64 (bits_ g)) gs ->
  0 <= c -> c + cnt (filled gs) 0 (slots gs) < 2 ^ 32 ->
  prefix_counts c gs !! i = Some g -> count_ g = c + cnt (filled gs) 0 (64 * (Z.of_nat i + 1)).
Proof.
  revert c i. induction gs as [|g' gs IH]; intros c i Hb Hc Hlt Hi; [done|].
  apply Forall_cons in Hb as [Hb Hbs].
  assert (countPopulation (bits_ g') = cnt (Z.testbit (bits_ g')) 0 64) as Hpop
    by (rewrite countPopulation_law by done; apply set_bits_cnt).
  assert (cnt (filled (g' :: gs)) 0 64 = cnt (Z.testbit (bits_ g')) 0 64) as H0
    by (apply (filled_group (g' :: gs) 0 g' 0 64); [done|lia|lia]).
  assert (forall n, 0 <= n -> cnt (filled (g' :: gs)) 64 n = cnt (filled gs) 0 n) as Hshift.
  { intros n Hn. apply cnt_shift. intros j Hj. unfold filled.
    replace (64 + j) with (j + 1 * 64) by lia. rewrite Z.div_add, Z.mod_add by lia.
    assert (0 <= j `div` 64) by (apply Z.div_pos; lia).
    replace (Z.to_nat (j `div` 64 + 1)) with (S (Z.to_nat (j `div` 64))) by lia. done. }
  assert (slots (g' :: gs) = 64 + slots gs) as Hsl by (unfold slots; cbn [length]; lia).
  assert (0 <= slots gs) as Hpos by (unfold slots; lia).
  rewrite Hsl, cnt_app, H0 in Hlt by lia. change (0 + 64) with 64 in Hlt. rewrite Hshift in Hlt by done.
  pose proof (cnt_bound (Z.testbit (bits_ g')) 0 64 ltac:(lia)).
  pose proof (cnt_bound (filled gs) 0 (slots gs) Hpos).
  cbn [prefix_counts] in Hi. rewrite Hpop, wrapu_small in Hi by (unfold is_uint; lia).
  destruct i as [|i]; cbn in Hi.
  - injection Hi as <-. cbn [count_]. change (64 * (Z.of_nat 0 + 1)) with 64. by rewrite H0.
  - apply IH in Hi; [|done|lia|lia]. rewrite Hi.
    replace (64 * (Z.of_nat (S i) + 1)) with (64 + 64 * (Z.of_nat i + 1)) by lia.
    rewrite cnt_app, H0 by lia. change (0 + 64) with 64. rewrite Hshift by lia. lia.
Qed.

(** A built table. *)
Definition built (c c' : t) : Prop :=
  Build c = Some c' /\ built_ c' = true /\ slot_mask_ c' = slot_mask_ c /\
  num_overflow_ c' = num_overflow_ c /\ slots (slot_groups_ c') = slots (slot_groups_ c) /\
  (forall s, filled (slot_groups_ c') s = filled (slot_groups_ c) s) /\
  forall i g, slot_groups_ c' !! i = Some g ->
    is_uint 64 (bits_ g) /\ count_ g = cnt (filled (slot_groups_ c)) 0 (64 * (Z.of_nat i + 1)).

Lemma Build_spec c :
  wf c -> built_ c = false -> cnt (filled (slot_groups_ c)) 0 (slots (slot_groups_ c)) < 2 ^ 32 ->
  exists c', built c c'.
Proof.
  intros (Hp & Hb & k & Hk & Hm & Hs) Hnb Hlt. unfold built, Build. rewrite Hnb.
  destruct (slot_groups_ c) as [|g gs] eqn:E.
  { unfold slots in Hs. cbn in Hs. pose proof (Z.pow_pos_nonneg 2 k). lia. }
  rewrite <-E in *. eexists. split; [done|]. cbn [built_ slot_mask_ num_overflow_ slot_groups_].
  split_and!; [done|done|done| | |].
  - unfold slots. by rewrite length_prefix_counts.
  - intros s. apply filled_prefix_counts.
  - intros i g' Hg'. split.
    + destruct (lookup_lt_is_Some_2 (slot_groups_ c) i) as [g0 Hg0].
      { rewrite <-(length_prefix_counts 0). by eapply lookup_lt_Some. }
      destruct (prefix_counts_lookup 0 _ _ _ Hg0) as [n Hn]. rewrite Hn in Hg'. injection Hg' as <-. cbn [bits_].
      by apply (Forall_lookup_1 _ _ _ _ Hb Hg0).
    + by rewrite (prefix_counts_count 0 (slot_groups_ c) i g').
Qed.

(** The number of filled slots before a slot, as the two lookups compute it. *)
Lemma count_before c c' s g :
  built c c' -> 0 <= s < slots (slot_groups_ c) -> slot_groups_ c' !! Z.to_nat (s `div` 64) = Some g ->
  cnt (filled (slot_groups_ c)) 0 (slots (slot_groups_ c)) < 2 ^ 32 ->
  wrapu 32 (count_ g - countPopulation (bits_after (bits_ g) (s `mod` 64))) = rank (slot_groups_ c) s.
Proof.
  intros (_ & _ & _ & _ & Hsl & Hf & Hg) Hs Hgs Hlt. destruct (Hg _ _ Hgs) as [Hu ->].
  pose proof (Z.mod_pos_bound s 64 ltac:(lia)). pose proof (Z.div_mod s 64 ltac:(lia)).
  assert (0 <= s `div` 64) by (apply Z.div_pos; lia).
  rewrite countPopulation_law, set_bits_cnt, bits_after_cnt by (apply bits_after_uint || lia).
  rewrite <-(filled_group (slot_groups_ c') _ _ _ _ Hgs) by lia.
  rewrite (cnt_shift _ (filled (slot_groups_ c)) (64 * Z.of_nat (Z.to_nat (s `div` 64)) + s `mod` 64) s)
    by (intros i Hi; rewrite Hf; f_equal; lia).
  replace (64 * (Z.of_nat (Z.to_nat (s `div` 64)) + 1)) with (s + (64 - s `mod` 64)) by lia.
  rewrite cnt_app by lia. change (0 + s) with s. unfold rank.
  replace (cnt (filled (slot_groups_ c)) 0 s + _ - _) with (cnt (filled (slot_groups_ c)) 0 s) by lia.
  apply wrapu_small. pose proof (cnt_bound (filled (slot_groups_ c)) 0 s ltac:(lia)).
  replace (slots (slot_groups_ c)) with (s + (slots (slot_groups_ c) - s)) in Hlt by lia.
  rewrite cnt_app in Hlt by lia.
  pose proof (cnt_bound (filled (slot_groups_ c)) (0 + s) (slots (slot_groups_ c) - s) ltac:(lia)).
  unfold is_uint. lia.
Qed.

Lemma NumFilledSlotsBefore_spec c c' s :
  built c c' -> 0 <= s < slots (slot_groups_ c) ->
  cnt (filled (slot_groups_ c)) 0 (slots (slot_groups_ c)) < 2 ^ 32 ->
  NumFilledSlotsBefore s c' = Some (rank (slot_groups_ c) s).
Proof.
  intros Hb Hs Hlt. pose proof Hb as (_ & Hbt & _ & _ & Hsl & _). unfold NumFilledSlotsBefore. rewrite Hbt.
  destruct (group_bits s ltac:(lia)) as [-> ->].
  destruct (group_lookup (slot_groups_ c') s ltac:(lia)) as [g Hg]. rewrite Hg. cbn [mbind option_bind].
  f_equal. by eapply count_before.
Qed.

Lemma Lookup_spec c c' hash :
  built c c' -> wf c -> cnt (filled (slot_groups_ c)) 0 (slots (slot_groups_ c)) < 2 ^ 32 ->
  Lookup hash c' = Some (filled (slot_groups_ c) (slot_of c hash), rank (slot_groups_ c) (slot_of c hash)).
Proof.
  intros Hb Hwf Hlt. pose proof (slot_of_bound c hash Hwf) as Hs.
  pose proof Hb as (_ & _ & Hm & _ & Hsl & Hf & _). unfold Lookup. rewrite Hm. fold (slot_of c hash).
  destruct (group_bits (slot_of c hash) ltac:(lia)) as [-> ->].
  destruct (group_lookup (slot_groups_ c') (slot_of c hash) ltac:(lia)) as [g Hg]. rewrite Hg. cbn [mbind option_bind].
  f_equal. f_equal; [|by eapply count_before]. rewrite testbit_mask by (apply Z.mod_pos_bound; lia).
  rewrite <-Hf. unfold filled. by rewrite Hg.
Qed.
End counts.
