(* ===== verification/ReorderCells.v ===== *)
(** * Reordering through a buffer

    The moves of [ReorderBuffer] on a more abstract state: each place of the vector is
    live, done (its entry is final) or a hole (its entry is in the buffer).  [Fill]
    digs holes, a store fills one or moves what is there into the buffer. *)
From S2P Require Import Prelude HashTables JoinTable.
Import Reorder.

(** ** Places of a vector *)

Section view.
Context {A : Type}.
Implicit Types (h : entries A) (vec : list Z) (es : list (HashTableEntry A)).

(** The entries of the vector, in order. *)
Definition view vec h es : Prop := Forall2 (fun p e => h !! p = Some e) vec es.

Lemma view_lookup vec h es i p :
  view vec h es -> vec !! i = Some p -> exists e, es !! i = Some e /\ h !! p = Some e.
Proof. intros Hv Hp. apply (Forall2_lookup_l _ _ _ _ _ Hv Hp). Qed.

Lemma view_lookup_r vec h es i e :
  view vec h es -> es !! i = Some e -> exists p, vec !! i = Some p /\ h !! p = Some e.
Proof. intros Hv He. apply (Forall2_lookup_r _ _ _ _ _ Hv He). Qed.

Lemma view_length vec h es : view vec h es -> length vec = length es.
Proof. apply Forall2_length. Qed.

Lemma view_frame vec h h' es :
  (forall p, p ∈ vec -> h' !! p = h !! p) -> view vec h es -> view vec h' es.
Proof.
  intros Hp Hv. apply Forall2_same_length_lookup. apply Forall2_same_length_lookup in Hv as [Hl Hv].
  split; [done|]. intros i p e Hi He. rewrite Hp by (by eapply list_elem_of_lookup_2). by eapply Hv.
Qed.

Lemma view_insert vec h es i p e :
  NoDup vec -> view vec h es -> vec !! i = Some p -> view vec (<[p := e]> h) (<[i := e]> es).
Proof.
  intros Hnd Hv Hp. apply Forall2_same_length_lookup in Hv as [Hl Hv]. apply Forall2_same_length_lookup.
  split; [by rewrite length_insert|]. intros j q x Hq Hx. destruct (decide (i = j)) as [<-|Hne].
  - rewrite list_lookup_insert_eq in Hx by (rewrite <-Hl; by eapply lookup_lt_Some). simplify_eq.
    by rewrite lookup_insert_eq.
  - rewrite list_lookup_insert_ne in Hx by done. rewrite lookup_insert_ne; [by eapply Hv|].
    intros ->. apply Hne. by eapply NoDup_lookup.
Qed.

Lemma view_app vec1 vec2 h es :
  view (vec1 ++ vec2) h es <-> exists es1 es2, es = es1 ++ es2 /\ view vec1 h es1 /\ view vec2 h es2.
Proof.
  split.
  - intros Hv. apply Forall2_app_inv_l in Hv as (es1 & es2 & H1 & H2 & ->). eauto 6.
  - intros (es1 & es2 & -> & H1 & H2). by apply Forall2_app.
Qed.
End view.

(** ** Cells *)

Section cells.
Context {A : Type}.
Notation entry := (HashTableEntry A).

(** A fixed place is not part of the reordering. *)
Inductive cell := Live (e : entry) | Done (e : entry) | Hole (e : entry) | Fixed (e : entry).

Definition concrete (c : cell) : entry :=
  match c with Live e | Fixed e => e | Done e => SetProcessed e | Hole e => SetBuffered e end.

(** The word of an entry is a slot, without a mark. *)
Definition clean (e : entry) : Prop := 0 <= word_ e < 2 ^ 62.

Definition moving (c : cell) : Prop :=
  match c with Live e | Done e | Hole e => clean e | Fixed _ => False end.

Lemma testbit_clean e n : clean e -> 62 <= n -> Z.testbit (word_ e) n = false.
Proof. intros He Hn. apply (proj1 (is_uint_bits 62 (word_ e) ltac:(lia)) He n Hn). Qed.

Lemma mark_test e k k' :
  clean e -> 62 <= k -> 62 <= k' ->
  bool_decide (Z.land (Z.lor (word_ e) (2 ^ k)) (2 ^ k') <> 0) = bool_decide (k = k').
Proof.
  intros He Hk Hk'. rewrite <-(Z.shiftl_1_l k'), testbit_mask, Z.lor_spec, testbit_clean by done || lia.
  rewrite orb_false_l. destruct (decide (k = k')) as [<-|Hne].
  - by rewrite Z.pow2_bits_true, bool_decide_true by lia.
  - by rewrite Z.pow2_bits_false, bool_decide_false by lia.
Qed.

Lemma clean_test e k : clean e -> 62 <= k -> bool_decide (Z.land (word_ e) (2 ^ k) <> 0) = false.
Proof. intros He Hk. rewrite <-(Z.shiftl_1_l k), testbit_mask by lia. by apply testbit_clean. Qed.

Lemma IsProcessed_concrete c :
  moving c -> IsProcessed (concrete c) = match c with Done _ => true | _ => false end.
Proof.
  intros Hc. unfold IsProcessed, K_PROCESSED_BIT. destruct c as [e|e|e|e]; cbn in *; [| | |done].
  - by apply clean_test.
  - unfold K_PROCESSED_BIT. by rewrite mark_test.
  - unfold K_BUFFERED_BIT. by rewrite mark_test.
Qed.

Lemma IsBuffered_concrete c :
  moving c -> IsBuffered (concrete c) = match c with Hole _ => true | _ => false end.
Proof.
  intros Hc. unfold IsBuffered, K_BUFFERED_BIT. destruct c as [e|e|e|e]; cbn in *; [| | |done].
  - by apply clean_test.
  - unfold K_PROCESSED_BIT. by rewrite mark_test.
  - unfold K_BUFFERED_BIT. by rewrite mark_test.
Qed.

Lemma SetProcessed_inj e e' :
  clean e -> clean e' -> word_ (SetProcessed e) = word_ (SetProcessed e') <-> word_ e = word_ e'.
Proof.
  assert (forall x, clean x -> Z.land (word_ (SetProcessed x)) (Z.ones 62) = word_ x) as Hcl.
  { intros x Hx. cbn. rewrite Z.land_lor_distr_l. change (Z.land K_PROCESSED_BIT (Z.ones 62)) with 0.
    rewrite Z.lor_0_r, Z.land_ones by lia. by apply Z.mod_small. }
  intros He He'. split; [|by intros E; cbn; rewrite E]. intros E. by rewrite <-(Hcl e), <-(Hcl e'), E.
Qed.

(** What the places hold: nothing in a hole. *)
Definition held (c : cell) : list entry := match c with Live e | Done e => [e] | Hole _ | Fixed _ => [] end.
Definition content (cs : list cell) : list entry := concat (held <$> cs).

Lemma content_app cs1 cs2 : content (cs1 ++ cs2) = content cs1 ++ content cs2.
Proof. unfold content. by rewrite fmap_app, concat_app. Qed.

Lemma content_insert cs i c c' :
  cs !! i = Some c -> exists rest, content cs ≡ₚ held c ++ rest /\ content (<[i := c']> cs) ≡ₚ held c' ++ rest.
Proof.
  intros Hi. exists (content (take i cs) ++ content (drop (S i) cs)).
  rewrite insert_take_drop by (by eapply lookup_lt_Some).
  rewrite <-(take_drop_middle _ _ _ Hi) at 1. rewrite !content_app.
  change (content (c :: drop (S i) cs)) with (held c ++ content (drop (S i) cs)).
  change (content (c' :: drop (S i) cs)) with (held c' ++ content (drop (S i) cs)).
  split; by rewrite Permutation_app_swap_app.
Qed.

Lemma content_place cs i c c' e P :
  cs !! i = Some c -> held c' = [e] -> content (<[i := c']> cs) ++ P ++ held c ≡ₚ content cs ++ e :: P.
Proof.
  intros Hi Hc'. destruct (content_insert cs i c c' Hi) as (rest & -> & ->). rewrite Hc'.
  rewrite <-Permutation_middle. cbn. constructor. solve_Permutation.
Qed.

Lemma content_elem cs i c e : cs !! i = Some c -> e ∈ held c -> e ∈ content cs.
Proof.
  intros Hi He. unfold content. apply list_elem_of_In, in_concat. exists (held c). split; [|by apply list_elem_of_In].
  apply list_elem_of_In, list_elem_of_fmap. exists c. split; [done|]. by eapply list_elem_of_lookup_2.
Qed.

Definition full (c : cell) : Prop := length (held c) = 1%nat.

Lemma length_content_full cs : Forall full cs -> length (content cs) = length cs.
Proof. induction 1 as [|x cs Hx _ IH]; [done|]. unfold content in *. cbn. by rewrite length_app, Hx, IH. Qed.

Lemma length_content_le cs : (length (content cs) <= length cs)%nat.
Proof.
  induction cs as [|x cs IH]; [done|]. unfold content in *. cbn. rewrite length_app. destruct x; cbn; lia.
Qed.

(** With as many entries as places, nothing is missing. *)
Lemma content_all_full cs : length (content cs) = length cs -> Forall full cs.
Proof.
  induction cs as [|x cs IH]; [done|]. pose proof (length_content_le cs). unfold content, full in *. cbn in *.
  rewrite length_app. intros Hl. assert (length (held x) = 1%nat) by (destruct x; cbn in *; lia).
  constructor; [done|]. apply IH. lia.
Qed.

Lemma content_live es : content (Live <$> es) = es.
Proof. unfold content. induction es as [|e es IH]; [done|]. cbn in *. by rewrite IH. Qed.

Lemma content_done es : content (Done <$> es) = es.
Proof. unfold content. induction es as [|e es IH]; [done|]. cbn in *. by rewrite IH. Qed.

Lemma cells_all_live cs : Forall (fun c => exists e, c = Live e) cs -> exists es, cs = Live <$> es.
Proof. induction 1 as [|c cs [e ->] _ [es ->]]; [by exists []|by exists (e :: es)]. Qed.

Lemma cells_all_done cs : Forall (fun c => exists e, c = Done e) cs -> exists es, cs = Done <$> es.
Proof. induction 1 as [|c cs [e ->] _ [es ->]]; [by exists []|by exists (e :: es)]. Qed.

Lemma is_done c : (exists e, c = Done e) \/ forall e, c <> Done e.
Proof. destruct c; eauto; by right. Qed.

(** The entries in their final places. *)
Definition final (c : cell) : list entry := match c with Done e => [e] | _ => [] end.
Definition finals (cs : list cell) : list entry := concat (final <$> cs).
Definition dones (cs : list cell) : nat := length (finals cs).

Lemma dones_app cs1 cs2 : dones (cs1 ++ cs2) = (dones cs1 + dones cs2)%nat.
Proof. unfold dones, finals. by rewrite fmap_app, concat_app, length_app. Qed.

Lemma dones_cons c cs : dones (c :: cs) = (length (final c) + dones cs)%nat.
Proof. unfold dones, finals. cbn. by rewrite length_app. Qed.

Lemma dones_le cs : (dones cs <= length cs)%nat.
Proof. induction cs as [|c cs IH]; [done|]. rewrite dones_cons. destruct c; cbn; lia. Qed.

Lemma dones_insert cs i c c' :
  cs !! i = Some c -> (dones (<[i := c']> cs) + length (final c) = dones cs + length (final c'))%nat.
Proof.
  intros Hi. rewrite insert_take_drop by (by eapply lookup_lt_Some).
  rewrite <-(take_drop_middle _ _ _ Hi) at 3. rewrite !dones_app.
  rewrite !dones_cons. lia.
Qed.

Lemma finals_insert cs i c e :
  cs !! i = Some c -> (forall d, c <> Done d) -> finals (<[i := Done e]> cs) ≡ₚ e :: finals cs.
Proof.
  intros Hi Hc. rewrite insert_take_drop by (by eapply lookup_lt_Some).
  rewrite <-(take_drop_middle _ _ _ Hi) at 3. unfold finals. rewrite !fmap_app, !concat_app. cbn.
  replace (final c) with (@nil entry) by (by destruct c as [|d| |]; [|destruct (Hc d)|..]).
  by rewrite <-Permutation_middle.
Qed.

Lemma finals_content cs : finals cs ⊆+ content cs.
Proof.
  unfold finals, content. induction cs as [|c cs IH]; [done|]. cbn.
  apply submseteq_app; [|done]. destruct c; cbn; (done || apply submseteq_nil_l).
Qed.

Lemma finals_done es : finals (Done <$> es) = es.
Proof. unfold finals. induction es as [|e es IH]; [done|]. cbn in *. by rewrite IH. Qed.

Lemma finals_live es : finals (Live <$> es) = [].
Proof. unfold finals. by induction es as [|e es IH]. Qed.

Lemma content_fixed es : content (Fixed <$> es) = [].
Proof. unfold content. induction es as [|e es IH]; [done|]. done. Qed.

(** ** The buffer *)

Notation buffer := (ReorderBuffer A).

(** The entries from a position of the buffer on. *)
Definition stored (rb : buffer) (a : nat) (l : list entry) : Prop :=
  forall j e, l !! j = Some e -> buffer_ rb !! (a + j)%nat = Some e.

(** The same buffer apart from its contents. *)
Definition same_bounds (rb rb' : buffer) : Prop :=
  Reorder.entry_size_ rb' = Reorder.entry_size_ rb /\ buf_idx_ rb' = buf_idx_ rb /\ max_elems_ rb' = max_elems_ rb /\
  read_idx_ rb' = read_idx_ rb /\ end_read_idx_ rb' = end_read_idx_ rb.

#[export] Instance same_bounds_equiv : Equivalence same_bounds.
Proof.
  unfold same_bounds. split; [done|by intros ?? (?&?&?&?&?)|].
  intros ??? (?&?&?&?&?) (?&?&?&?&?). split_and!; congruence.
Qed.

(** Room for the buffered elements and one more. *)
Definition sized (rb : buffer) : Prop :=
  0 < Reorder.entry_size_ rb /\ 1 <= max_elems_ rb /\
  (max_elems_ rb + 1) * Reorder.entry_size_ rb <= K_BUFFER_SIZE_IN_BYTES.

(** An entry of up to half the buffer leaves room for two. *)
Lemma NewReorderBuffer_sized entry_size a b :
  0 < entry_size <= 8192 -> sized (NewReorderBuffer entry_size K_DEFAULT_VECTOR_SIZE a b).
Proof.
  intros He. unfold sized, NewReorderBuffer. cbn [Reorder.entry_size_ max_elems_].
  change K_DEFAULT_VECTOR_SIZE with 2048. change K_BUFFER_SIZE_IN_BYTES with 16384.
  assert (2 <= 16384 `div` entry_size) by (apply Z.div_le_lower_bound; lia).
  pose proof (Z.mul_div_le 16384 entry_size ltac:(lia)).
  rewrite wrapu_small by (unfold is_uint; lia). split_and!; [lia|lia|]. nia.
Qed.

Lemma sized_same rb rb' : same_bounds rb rb' -> sized rb -> sized rb'.
Proof. intros (Hs & _ & Hm & _) H. unfold sized. by rewrite Hs, Hm. Qed.

Lemma BufWrite_ok idx e rb :
  sized rb -> Z.of_nat idx <= max_elems_ rb ->
  exists rb', BufWrite idx e rb = Some rb' /\ same_bounds rb rb' /\ buffer_ rb' = <[idx := e]> (buffer_ rb).
Proof.
  intros (H0 & H1 & H2) Hi. unfold BufWrite. rewrite decide_True by nia. eexists. by split.
Qed.

Lemma stored_other rb rb' idx e a l :
  buffer_ rb' = <[idx := e]> (buffer_ rb) -> (idx < a \/ a + length l <= idx)%nat ->
  stored rb a l -> stored rb' a l.
Proof.
  intros Hb Hi Hs j x Hx. rewrite Hb, lookup_insert_ne; [by apply Hs|].
  apply lookup_lt_Some in Hx. lia.
Qed.

Lemma stored_snoc rb rb' e l a :
  buffer_ rb' = <[(a + length l)%nat := e]> (buffer_ rb) -> stored rb a l -> stored rb' a (l ++ [e]).
Proof.
  intros Hb Hs j x Hx. rewrite Hb. apply lookup_app_Some in Hx as [Hx|[Hj Hx]].
  - rewrite lookup_insert_ne; [by apply Hs|]. apply lookup_lt_Some in Hx. lia.
  - apply list_lookup_singleton_Some in Hx as [Hj' <-]. replace j with (length l) by lia.
    by rewrite lookup_insert_eq.
Qed.

(** ** Storing a buffered entry *)

Section moves.
Context (vec : list Z) (vec_nodup : NoDup vec).
Implicit Types (h : entries A) (cs : list cell).

Notation shows h cs := (view vec h (concrete <$> cs)).

Lemma shows_insert h cs i p c :
  shows h cs -> vec !! i = Some p -> shows (<[p := concrete c]> h) (<[i := c]> cs).
Proof. intros Hv Hp. rewrite list_fmap_insert. by apply view_insert. Qed.

Lemma shows_lookup h cs i p c : shows h cs -> vec !! i = Some p -> cs !! i = Some c -> h !! p = Some (concrete c).
Proof.
  intros Hv Hp Hc. destruct (view_lookup _ _ _ _ _ Hv Hp) as (e & He & Hh).
  rewrite list_lookup_fmap, Hc in He. cbn in He. by simplify_eq.
Qed.

(** The copies put the entry into its place; what was there is at the end of the
    entries written back. *)
Lemma store_spec h cs rb d dest c idx bc W B :
  shows h cs -> vec !! d = Some dest -> cs !! d = Some c -> moving c -> (forall e, c <> Done e) ->
  sized rb -> (length W <= idx)%nat -> Z.of_nat (S idx + length B) <= max_elems_ rb ->
  stored rb 0 W -> buffer_ rb !! idx = Some (concrete bc) -> stored rb (S idx) B ->
  exists h' rb', store idx dest h rb (length W) = Some (h', rb', length (W ++ held c)) /\
    shows h' (<[d := bc]> cs) /\ same_bounds rb rb' /\ stored rb' 0 (W ++ held c) /\ stored rb' (S idx) B.
Proof.
  intros Hv Hd Hc Hm Hnd Hsz Hw Hb HW Hbuf HB. unfold store.
  rewrite (shows_lookup _ _ _ _ _ Hv Hd Hc), Hbuf. cbn [mbind option_bind].
  rewrite IsBuffered_concrete by done. destruct c as [e|e|e|e]; [|by destruct (Hnd e)| |done]; cbn [held].
  - rewrite length_app. cbn [length concrete]. rewrite Nat.add_1_r. case_decide as Hlt.
    + destruct (BufWrite_ok (length W) e rb Hsz ltac:(lia)) as (rb1 & -> & Hs1 & Hb1). cbn [mbind option_bind].
      rewrite Hb1, lookup_insert_ne, Hbuf by lia. cbn [mbind option_bind]. do 2 eexists. split; [done|].
      split; [by apply shows_insert|]. split; [done|]. split; [by eapply stored_snoc|].
      eapply stored_other; [done|lia|done].
    + assert (idx = length W) as -> by lia.
      destruct (BufWrite_ok (Z.to_nat (max_elems_ rb)) e rb Hsz ltac:(destruct Hsz; lia)) as (rb1 & -> & Hs1 & Hb1).
      cbn [mbind option_bind]. rewrite Hb1, lookup_insert_eq. cbn [mbind option_bind].
      pose proof (sized_same _ _ Hs1 Hsz) as Hsz1.
      destruct (BufWrite_ok (length W) e rb1 Hsz1) as (rb2 & -> & Hs2 & Hb2).
      { destruct Hs1 as (_ & _ & -> & _). lia. }
      cbn [mbind option_bind]. do 2 eexists. split; [done|]. split; [by apply shows_insert|].
      split; [by etransitivity|]. split.
      * eapply stored_snoc; [done|]. eapply stored_other; [done|lia|done].
      * eapply stored_other; [done|lia|]. eapply stored_other; [done|lia|done].
  - rewrite app_nil_r. do 2 eexists. split; [done|]. split_and!; [by apply shows_insert|done..].
Qed.

(** ** Filling the buffer *)

Definition dig (c : cell) : cell := match c with Live e => Hole e | _ => c end.

(** The places from [r] on are dug, [k] of them. *)
Definition dug (r k : nat) cs cs' : Prop :=
  forall i, cs' !! i = if decide (r <= i < r + k)%nat then dig <$> cs !! i else cs !! i.

Lemma dug_nil r cs : dug r 0 cs cs.
Proof. intros i. by rewrite decide_False by lia. Qed.

Lemma dug_step r k cs cs' c :
  cs !! r = Some c -> dug (S r) k (<[r := dig c]> cs) cs' -> dug r (S k) cs cs'.
Proof.
  intros Hc Hd i. rewrite Hd. destruct (decide (i = r)) as [->|Hne].
  - rewrite decide_False, decide_True by lia. rewrite list_lookup_insert_eq by (by eapply lookup_lt_Some). by rewrite Hc.
  - rewrite list_lookup_insert_ne by done. destruct (decide (S r <= i < S r + k)%nat).
    + by rewrite decide_True by lia.
    + by rewrite decide_False by lia.
Qed.

Lemma dug_inv r k cs cs' i c' :
  dug r k cs cs' -> cs' !! i = Some c' ->
  exists c, cs !! i = Some c /\ ((r <= i < r + k)%nat /\ c' = dig c \/ (i < r \/ r + k <= i)%nat /\ c' = c).
Proof.
  intros Hd Hi. rewrite Hd in Hi. case_decide.
  - apply fmap_Some in Hi as (c & Hc & ->). eauto.
  - exists c'. split; [done|]. right. split; [lia|done].
Qed.

Lemma dug_length r k cs cs' : dug r k cs cs' -> length cs' = length cs.
Proof.
  intros Hd. apply Nat.le_antisymm; apply Nat.nlt_ge; intros Hlt.
  - apply lookup_lt_is_Some_2 in Hlt as [c Hc].
    destruct (dug_inv _ _ _ _ _ _ Hd Hc) as (? & Hc'%lookup_lt_Some & _). lia.
  - apply lookup_lt_is_Some_2 in Hlt as [c Hc]. pose proof (Hd (length cs')) as H.
    rewrite (proj2 (lookup_ge_None cs' _)), Hc in H by lia. by case_decide.
Qed.

Lemma dug_app_r r k cs1 cs2 cs' :
  dug r k (cs1 ++ cs2) cs' -> (length cs1 <= r)%nat ->
  exists cs2', cs' = cs1 ++ cs2' /\ dug (r - length cs1) k cs2 cs2'.
Proof.
  intros Hd Hr. exists (drop (length cs1) cs'). split.
  - rewrite <-(take_drop (length cs1) cs') at 1. f_equal. apply list_eq. intros i.
    destruct (decide (i < length cs1)%nat) as [Hi|Hi].
    + rewrite lookup_take_lt, Hd, decide_False, lookup_app_l by lia. done.
    + by rewrite lookup_take_ge, (proj2 (lookup_ge_None cs1 i)) by lia.
  - intros i. rewrite lookup_drop, Hd, lookup_app_r by lia. replace (length cs1 + i - length cs1)%nat with i by lia.
    destruct (decide (r - length cs1 <= i < r - length cs1 + k)%nat).
    + by rewrite decide_True by lia.
    + by rewrite decide_False by lia.
Qed.

Lemma dug_final r k cs cs' : dug r k cs cs' -> final <$> cs' = final <$> cs.
Proof.
  intros Hd. apply list_eq. intros i. rewrite !list_lookup_fmap, Hd. case_decide; [|done].
  by destruct (cs !! i) as [[]|].
Qed.

Definition same_size (rb rb' : buffer) : Prop :=
  Reorder.entry_size_ rb' = Reorder.entry_size_ rb /\ max_elems_ rb' = max_elems_ rb /\
  end_read_idx_ rb' = end_read_idx_ rb.

Lemma fill_spec n h cs rb W :
  shows h cs -> sized rb -> length W = buf_idx_ rb -> Z.of_nat (buf_idx_ rb) <= max_elems_ rb -> stored rb 0 W ->
  (read_idx_ rb + n <= length vec)%nat ->
  (forall i c, (read_idx_ rb <= i < read_idx_ rb + n)%nat -> cs !! i = Some c -> moving c /\ forall e, c <> Hole e) ->
  exists k L h' rb' cs', fill n vec h rb = Some (h', rb') /\ (k <= n)%nat /\ shows h' cs' /\ same_size rb rb' /\
    read_idx_ rb' = (read_idx_ rb + k)%nat /\ buf_idx_ rb' = length (W ++ L) /\
    Z.of_nat (buf_idx_ rb') <= max_elems_ rb /\ stored rb' 0 (W ++ L) /\
    (k = n \/ Z.of_nat (buf_idx_ rb') = max_elems_ rb) /\ dug (read_idx_ rb) k cs cs' /\
    content cs ≡ₚ content cs' ++ L.
Proof.
  revert h cs rb W. induction n as [|n IH]; intros h cs rb W Hv Hsz HW Hb Hst Hr Hcs; cbn [fill].
  - exists 0%nat, [], h, rb, cs. rewrite !app_nil_r, Nat.add_0_r. split_and!; auto using dug_nil. by split.
  - case_decide as Hlt; cycle 1.
    { exists 0%nat, [], h, rb, cs. rewrite !app_nil_r, Nat.add_0_r.
      split_and!; auto using dug_nil with lia; by split. }
    destruct (lookup_lt_is_Some_2 vec (read_idx_ rb) ltac:(lia)) as [p Hp]. rewrite Hp. cbn [mbind option_bind].
    destruct (view_lookup _ _ _ _ _ Hv Hp) as (x & Hx & Hhx). rewrite Hhx. cbn [mbind option_bind].
    rewrite list_lookup_fmap in Hx. apply fmap_Some in Hx as (c & Hc & ->).
    destruct (Hcs (read_idx_ rb) _ ltac:(lia) Hc) as [Hm Hnh]. rewrite IsProcessed_concrete by done.
    destruct c as [e|e|e|e]; [| |by destruct (Hnh e)|done].
    + cbn [buf_idx_ concrete]. set (rb0 := mkBuffer _ _ _ _ _ _).
      destruct (BufWrite_ok (buf_idx_ rb) e rb0) as (rb1 & -> & (Hs1 & Hi1 & Hm1 & Hr1 & He1) & Hb1);
        [done|cbn; lia|]. cbn in Hs1, Hi1, Hm1, Hr1, He1, Hb1. cbn [mbind option_bind].
      destruct (IH (<[p := SetBuffered e]> h) (<[read_idx_ rb := Hole e]> cs) (Reset (S (buf_idx_ rb1)) rb1) (W ++ [e]))
        as (k & L & h' & rb' & cs' & Hf & Hk & Hv' & (Hz1 & Hz2 & Hz3) & Hr' & Hb' & Hle & Hst' & Hor & Hd & Hcont).
      * by apply (shows_insert _ _ _ _ (Hole e)).
      * unfold sized. cbn. by rewrite Hs1, Hm1.
      * rewrite length_app. cbn. lia.
      * cbn. lia.
      * change (stored rb1 0 (W ++ [e])). eapply stored_snoc; [|exact Hst]. cbn. by rewrite HW.
      * cbn. lia.
      * cbn. intros i c Hi Hic. rewrite list_lookup_insert_ne in Hic by lia. apply (Hcs i); [lia|done].
      * cbn in *. exists (S k), (e :: L), h', rb', cs'. rewrite (cons_middle e W L), app_assoc.
        split_and!; [done|lia|done|split_and!; congruence|lia|done|lia|done| | |].
        -- destruct Hor; [left; lia|right; lia].
        -- eapply dug_step; [done|]. by rewrite <-Hr1.
        -- destruct (content_insert cs (read_idx_ rb) (Live e) (Hole e) Hc) as (rest & -> & H2).
           cbn in H2 |- *. rewrite <-H2, Hcont. by rewrite Permutation_middle.
    + set (rb0 := mkBuffer _ _ _ _ _ _).
      destruct (IH h cs rb0 W) as (k & L & h' & rb' & cs' & Hf & Hk & Hv' & Hss & Hr' & Hb' & Hle & Hst' & Hor & Hd & Hcont);
        [done..|cbn; lia| |].
      * cbn. intros i c Hi. apply Hcs. lia.
      * cbn in *. exists (S k), L, h', rb', cs'. split_and!; [done|lia|done|done|lia|done|done|done| | |done].
        -- destruct Hor; [left; lia|by right].
        -- eapply dug_step; [done|]. cbn. by rewrite list_insert_id.
Qed.
End moves.
(** ** Finding the parents *)

Lemma targets_spec `{LlvmMath} c vec (rk : entry -> nat) B idx rb :
  stored rb idx B ->
  Forall (fun e => JoinHashTable.parent_of c vec e = vec !! rk e /\ (rk e < length vec)%nat) B ->
  exists ts, JoinHashTable.targets (length B) idx c vec rb = Some ts /\
    Forall2 (fun e t => vec !! rk e = Some t) B ts.
Proof.
  revert idx. induction B as [|e B IH]; intros idx Hs HB; cbn; [eauto|].
  apply Forall_cons in HB as [[Hp Hlt] HB]. pose proof (Hs 0%nat e eq_refl) as He. rewrite Nat.add_0_r in He.
  rewrite He. cbn. rewrite Hp. destruct (lookup_lt_is_Some_2 vec _ Hlt) as [t Ht]. rewrite Ht. cbn.
  destruct (IH (S idx)) as (ts & -> & Hts); [|done|].
  - intros j z Hz. rewrite Nat.add_succ_comm. by apply Hs.
  - cbn. exists (t :: ts). split; [done|]. by constructor.
Qed.

Lemma stored_tail rb idx e B : stored rb idx (e :: B) -> buffer_ rb !! idx = Some e /\ stored rb (S idx) B.
Proof.
  intros Hs. split.
  - rewrite <-(Nat.add_0_r idx). by apply Hs.
  - intros j z Hz. rewrite Nat.add_succ_comm. by apply Hs.
Qed.

End cells.
Arguments cell A : clear implicits.
