(* ===== verification/ReorderMain.v ===== *)
(** * Reordering the main entries

    [JoinHashTable::ReorderMainEntries]: every filled slot of the concise table has
    one entry in the main arena, at the rank of the slot; the other entries of the
    slots are behind the main arena. *)
From S2P Require Import Prelude HashTables JoinTable ReorderCells.
Import Reorder JoinHashTable.

Section main.
Context {A : Type} `{LlvmMath}.
Notation entry := (HashTableEntry A).
Implicit Types (h : entries A) (cs : list (cell A)) (e : entry) (P W B : list entry).

(** The entries [orig] of the vector have ranks [rk] below the size [m] of the main
    arena, every one of them taken. *)
Context (vec : list Z) (vec_nodup : NoDup vec) (orig : list entry) (rk : entry -> nat) (m : nat)
  (c : ConciseHashTable.t).
Context (orig_length : length orig = length vec) (main_le : (m <= length vec)%nat).
Context (orig_clean : forall e, e ∈ orig -> clean e /\ (rk e < m)%nat).
Context (orig_cover : forall r, (r < m)%nat -> exists e, e ∈ orig /\ rk e = r).
Context (orig_parent : forall e, e ∈ orig -> parent_of c vec e = vec !! rk e).

Notation shows h cs := (view vec h (concrete <$> cs)).

(** ** The state of the two arenas

    [P] are the buffered entries, [o] the next place for an overflow entry and [r] the
    next place to read. *)
Record main_ok cs P (o r : nat) : Prop := {
  ok_length : length cs = length vec;
  ok_overflow : (m <= o <= length vec)%nat;
  ok_read : (r <= m)%nat;
  ok_moving : forall i x, cs !! i = Some x -> moving x;
  ok_content : content cs ++ P ≡ₚ orig;
  ok_done : forall i e, cs !! i = Some (Done e) -> rk e = i /\ (i < m)%nat;
  ok_hole : forall i e, cs !! i = Some (Hole e) -> (i < r)%nat;
  ok_live : forall i e, cs !! i = Some (Live e) -> (r <= i)%nat;
  ok_behind : forall i x, (m <= i < o)%nat -> cs !! i = Some x ->
    exists e d, x = Live e /\ cs !! rk e = Some (Done d);
}.

Lemma ok_orig cs P o r e : main_ok cs P o r -> e ∈ P -> e ∈ orig.
Proof. intros Hok He. rewrite <-(ok_content _ _ _ _ Hok). apply elem_of_app. by right. Qed.

Lemma ok_perm cs P P' o r : main_ok cs P o r -> P ≡ₚ P' -> main_ok cs P' o r.
Proof. intros [] HP. split; try done. by rewrite <-HP. Qed.

(** Beyond the overflow entries found so far, every place is live. *)
Lemma ok_beyond cs P o r i : main_ok cs P o r -> (m <= i < length vec)%nat -> exists e, cs !! i = Some (Live e).
Proof.
  intros Hok Hi. destruct (lookup_lt_is_Some_2 cs i) as [x Hx]; [rewrite (ok_length _ _ _ _ Hok); lia|].
  pose proof (ok_moving _ _ _ _ Hok _ _ Hx) as Hm. pose proof (ok_read _ _ _ _ Hok).
  destruct x as [e|e|e|e]; [by exists e| | |done].
  - pose proof (ok_done _ _ _ _ Hok _ _ Hx). lia.
  - pose proof (ok_hole _ _ _ _ Hok _ _ Hx). lia.
Qed.

(** A slot that is taken leaves room for one more overflow entry: an entry of every
    rank is neither among the overflow entries nor the one at hand. *)
Lemma overflow_room cs e P o r d :
  main_ok cs (e :: P) o r -> cs !! rk e = Some (Done d) -> (o < length vec)%nat.
Proof.
  intros Hok Hd. set (main := content (take m cs) ++ content (drop o cs) ++ P).
  set (over := content (drop m (take o cs))).
  pose proof (ok_overflow _ _ _ _ Hok) as Ho. pose proof (ok_length _ _ _ _ Hok) as Hlen.
  assert (e :: over ++ main ≡ₚ orig) as Hperm.
  { rewrite <-(ok_content _ _ _ _ Hok). rewrite <-(take_drop o cs) at 1.
    rewrite <-(take_drop m (take o cs)), take_take, Nat.min_l by lia. rewrite !content_app.
    unfold main, over. solve_Permutation. }
  assert (length over = o - m)%nat as Hover.
  { unfold over. assert (Forall (fun x => length (held x) = 1%nat) (drop m (take o cs))) as Hall.
    { apply Forall_lookup. intros i x Hx. rewrite lookup_drop in Hx.
      apply lookup_take_Some in Hx as [Hx Hi].
      destruct (ok_behind _ _ _ _ Hok _ _ ltac:(split; [|exact Hi]; lia) Hx) as (? & ? & -> & _). done. }
    replace (o - m)%nat with (length (drop m (take o cs))) by (rewrite length_drop, length_take; lia).
    by apply length_content_full. }
  assert (forall d', d' ∈ content (take m cs) -> d' ∈ main) as Hin by (intros; apply elem_of_app; by left).
  assert (forall i d', cs !! i = Some (Done d') -> i ∈ rk <$> main) as Hdone.
  { intros i d' Hi. destruct (ok_done _ _ _ _ Hok _ _ Hi) as [Hr Hi'].
    apply list_elem_of_fmap. exists d'. split; [done|]. apply Hin.
    apply (content_elem _ i (Done d')); [|by left]. by rewrite lookup_take_lt by lia. }
  assert (seq 0 m ⊆+ rk <$> main) as Hsub.
  { apply NoDup_submseteq; [apply NoDup_seq|]. intros x Hx%elem_of_seq.
    destruct (orig_cover x ltac:(lia)) as (e' & He' & <-). rewrite <-Hperm in He'.
    apply elem_of_cons in He' as [->|He']; [by eapply Hdone|].
    apply elem_of_app in He' as [He'|He']; [|by apply list_elem_of_fmap_2].
    unfold over, content in He'. apply list_elem_of_In, in_concat in He' as (l & Hl & He'%list_elem_of_In).
    apply list_elem_of_In, list_elem_of_fmap in Hl as (x & -> & Hx'). apply list_elem_of_lookup in Hx' as [i Hi].
    rewrite lookup_drop in Hi. apply lookup_take_Some in Hi as [Hi Hlt].
    destruct (ok_behind _ _ _ _ Hok _ _ ltac:(split; [|exact Hlt]; lia) Hi) as (e'' & d' & -> & Hd').
    apply list_elem_of_singleton in He' as ->. by eapply Hdone. }
  apply submseteq_length in Hsub. rewrite length_seq, length_fmap in Hsub.
  apply Permutation_length in Hperm. cbn in Hperm. rewrite length_app in Hperm. lia.
Qed.

(** ** One entry *)

Lemma place_overflow cs e P o r d :
  main_ok cs (e :: P) o r -> cs !! rk e = Some (Done d) ->
  exists e', cs !! o = Some (Live e') /\ main_ok (<[o := Live e]> cs) (P ++ [e']) (S o) r.
Proof.
  intros Hok Hd. pose proof (overflow_room _ _ _ _ _ _ Hok Hd) as Hroom.
  destruct (orig_clean e) as [Hclean Hrk]; [eapply ok_orig; [done|by left]|].
  pose proof (ok_overflow _ _ _ _ Hok) as Ho. pose proof (ok_length _ _ _ _ Hok) as Hlen.
  destruct (ok_beyond _ _ _ _ o Hok ltac:(lia)) as [e' He']. exists e'. split; [done|].
  pose proof (ok_read _ _ _ _ Hok). destruct Hok as [_ _ _ Hm Hc Hdn Hh Hl Hb]. split.
  - by rewrite length_insert.
  - lia.
  - done.
  - intros i x Hx. apply list_lookup_insert_Some in Hx as [(-> & <- & _)|[_ Hx]]; [done|by eapply Hm].
  - rewrite <-Hc. by apply (content_place cs o (Live e')).
  - intros i x Hx. apply list_lookup_insert_Some in Hx as [(_ & ? & _)|[_ Hx]]; [done|by eapply Hdn].
  - intros i x Hx. apply list_lookup_insert_Some in Hx as [(_ & ? & _)|[_ Hx]]; [done|by eapply Hh].
  - intros i x Hx. apply list_lookup_insert_Some in Hx as [(-> & _ & _)|[_ Hx]]; [lia|by eapply Hl].
  - intros i x Hi Hx. apply list_lookup_insert_Some in Hx as [(-> & <- & _)|[Hne Hx]].
    + exists e, d. by rewrite list_lookup_insert_ne by lia.
    + destruct (Hb i x ltac:(lia) Hx) as (e1 & d1 & -> & Hd1). exists e1, d1. split; [done|].
      destruct (Hdn _ _ Hd1). by rewrite list_lookup_insert_ne by lia.
Qed.

Lemma place_main cs e P o r x :
  main_ok cs (e :: P) o r -> cs !! rk e = Some x -> (forall d, x <> Done d) ->
  main_ok (<[rk e := Done e]> cs) (P ++ held x) o r.
Proof.
  intros Hok Hx Hnd. destruct (orig_clean e) as [Hclean Hrk]; [eapply ok_orig; [done|by left]|].
  destruct Hok as [Hlen Ho Hr Hm Hc Hdn Hh Hl Hb]. split; [by rewrite length_insert|done|done| | | | | |].
  - intros i y Hy. apply list_lookup_insert_Some in Hy as [(<- & <- & _)|[_ Hy]]; [done|by eapply Hm].
  - rewrite <-Hc. by apply content_place.
  - intros i y Hy. apply list_lookup_insert_Some in Hy as [(<- & [= <-] & _)|[_ Hy]]; [done|by eapply Hdn].
  - intros i y Hy. apply list_lookup_insert_Some in Hy as [(_ & ? & _)|[_ Hy]]; [done|by eapply Hh].
  - intros i y Hy. apply list_lookup_insert_Some in Hy as [(_ & ? & _)|[_ Hy]]; [done|by eapply Hl].
  - intros i y Hi Hy. rewrite list_lookup_insert_ne in Hy by lia.
    destruct (Hb i y Hi Hy) as (e1 & d1 & -> & Hd1). exists e1. destruct (decide (rk e1 = rk e)) as [E|Hne].
    + exists e. split; [done|]. rewrite E, list_lookup_insert_eq; [done|]. rewrite Hlen. lia.
    + exists d1. by rewrite list_lookup_insert_ne by done.
Qed.

(** The entries in their final arena, of those that have one. *)
Definition placed cs (o : nat) : nat := (dones (take m cs) + (o - m))%nat.


Lemma main_step_spec h cs rb idx t e W B o r :
  shows h cs -> main_ok cs (e :: B ++ W) o r -> vec !! rk e = Some t -> sized rb ->
  (length W <= idx)%nat -> Z.of_nat (S idx + length B) <= max_elems_ rb ->
  stored rb 0 W -> stored rb idx (e :: B) ->
  exists h' rb' cs' o' W', main_step vec idx t h rb o (length W) = Some (h', rb', o', length W') /\
    shows h' cs' /\ main_ok cs' (B ++ W') o' r /\ same_bounds rb rb' /\ (length W' <= S idx)%nat /\
    stored rb' 0 W' /\ stored rb' (S idx) B /\ placed cs' o' = S (placed cs o).
Proof.
  intros Hv Hok Ht Hsz HW Hmax HsW HsB. destruct (view_lookup _ _ _ _ _ Hv Ht) as (y & Hy & Hh).
  rewrite list_lookup_fmap in Hy. apply fmap_Some in Hy as (x & Hx & ->).
  pose proof (ok_moving _ _ _ _ Hok _ _ Hx) as Hmv. pose proof (ok_overflow _ _ _ _ Hok) as Ho.
  destruct (orig_clean e) as [Hclean Hrk]; [eapply ok_orig; [done|by left]|].
  destruct (stored_tail _ _ _ _ HsB) as [He HsB'].
  unfold main_step. rewrite Hh. cbn [mbind option_bind]. rewrite IsProcessed_concrete by done.
  destruct (is_done x) as [[d ->]|Hnd].
  - destruct (place_overflow _ _ _ _ _ _ Hok Hx) as (e' & He' & Hok').
    assert (o < length vec)%nat as Hlt by (rewrite <-(ok_length _ _ _ _ Hok); by eapply lookup_lt_Some).
    destruct (lookup_lt_is_Some_2 vec o Hlt) as [dest Hdest]. rewrite Hdest. cbn [mbind option_bind].
    destruct (store_spec vec vec_nodup h cs rb o dest (Live e') idx (Live e) W B)
      as (h' & rb' & -> & Hv' & Hsb & HsW' & HsB''); try done; [by apply (ok_moving _ _ _ _ Hok _ _ He')|].
    cbn [mbind option_bind]. do 5 eexists. split; [done|]. split; [done|].
    split; [by rewrite app_assoc|]. split; [done|].
    split; [rewrite length_app; cbn; lia|]. split; [done|]. split; [done|].
    unfold placed. rewrite take_insert_ge by lia. lia.
  - assert (match x with Done _ => true | _ => false end = false) as ->.
    { destruct x; try done. by destruct (Hnd e0). }
    rewrite He. cbn [mbind option_bind].
    destruct (BufWrite_ok idx (SetProcessed e) rb Hsz ltac:(lia)) as (rb1 & -> & Hs1 & Hb1). cbn [mbind option_bind].
    pose proof (sized_same _ _ Hs1 Hsz) as Hsz1. pose proof Hs1 as (_ & _ & Hm1 & _).
    destruct (store_spec vec vec_nodup h cs rb1 (rk e) t x idx (Done e) W B)
      as (h' & rb' & -> & Hv' & Hsb & HsW' & HsB''); try done.
    + by rewrite Hm1.
    + eapply stored_other; [done|lia|done].
    + by rewrite Hb1, lookup_insert_eq.
    + eapply stored_other; [done|lia|done].
    + cbn [mbind option_bind]. do 5 eexists. split; [done|]. split; [done|].
      split; [rewrite app_assoc; by apply place_main|].
      split; [by etransitivity|].
      split; [rewrite length_app; destruct x; cbn; lia|]. split; [done|]. split; [done|].
      unfold placed. rewrite take_insert_lt by lia.
      pose proof (dones_insert (take m cs) (rk e) x (Done e)) as Hdn.
      rewrite lookup_take_lt in Hdn by lia. specialize (Hdn Hx).
      destruct x as [| d | |]; cbn in Hdn; try lia. by destruct (Hnd d).
Qed.

(** ** The loops *)

Lemma main_steps_spec B h cs rb idx ts W o r :
  shows h cs -> main_ok cs (B ++ W) o r -> Forall2 (fun e t => vec !! rk e = Some t) B ts -> sized rb ->
  (length W <= idx)%nat -> Z.of_nat (idx + length B) <= max_elems_ rb ->
  stored rb 0 W -> stored rb idx B ->
  exists h' rb' cs' o' W', main_steps vec idx ts h rb o (length W) = Some (h', rb', o', length W') /\
    shows h' cs' /\ main_ok cs' W' o' r /\ same_bounds rb rb' /\ (length W' <= idx + length B)%nat /\
    stored rb' 0 W' /\ placed cs' o' = (length B + placed cs o)%nat.
Proof.
  revert h cs rb idx ts W o. induction B as [|e B IH]; intros h cs rb idx ts W o Hv Hok Hts Hsz HW Hmax HsW HsB;
    inversion Hts as [|e' t B' ts' Ht Hts']; subst; cbn [main_steps].
  - do 5 eexists. split; [done|]. split_and!; try done. cbn. lia.
  - cbn [length] in Hmax.
    destruct (main_step_spec h cs rb idx t e W B o r Hv Hok Ht Hsz HW ltac:(lia) HsW HsB)
      as (h1 & rb1 & cs1 & o1 & W1 & -> & Hv1 & Hok1 & Hsb1 & HW1 & HsW1 & HsB1 & Hpl1).
    cbn [mbind option_bind].
    destruct (IH h1 cs1 rb1 (S idx) ts' W1 o1) as (h2 & rb2 & cs2 & o2 & W2 & -> & Hv2 & Hok2 & Hsb2 & HW2 & HsW2 & Hpl2);
      try done; [by eapply sized_same|destruct Hsb1 as (_ & _ & -> & _); lia|].
    do 5 eexists. split; [done|]. split_and!; try done; [by etransitivity|cbn; lia|cbn; lia].
Qed.

Lemma main_ok_dug cs cs' P L o r k :
  main_ok cs P o r -> dug r k cs cs' -> (r + k <= m)%nat -> content cs ≡ₚ content cs' ++ L ->
  main_ok cs' (P ++ L) o (r + k).
Proof.
  intros Hok Hd Hk Hcont. pose proof Hok as [Hlen Ho Hr Hm Hc Hdn Hh Hl Hb]. split.
  - by rewrite (dug_length _ _ _ _ Hd).
  - done.
  - done.
  - intros i x Hx. destruct (dug_inv _ _ _ _ _ _ Hd Hx) as (y & Hy%Hm & [[_ ->]|[_ ->]]); [|done]. by destruct y.
  - rewrite <-Hc, Hcont. solve_Permutation.
  - intros i e Hx. destruct (dug_inv _ _ _ _ _ _ Hd Hx) as (y & Hy & [[_ E]|[_ E]]); destruct y; naive_solver.
  - intros i e Hx. destruct (dug_inv _ _ _ _ _ _ Hd Hx) as (y & Hy & [[? E]|[_ E]]); [lia|]. subst y. apply Hh in Hy. lia.
  - intros i e Hx. destruct (dug_inv _ _ _ _ _ _ Hd Hx) as (y & Hy & [[? E]|[Hi E]]); [by destruct y|].
    subst y. apply Hl in Hy. lia.
  - intros i x Hi Hx. destruct (dug_inv _ _ _ _ _ _ Hd Hx) as (y & Hy & [[? E]|[_ ->]]); [lia|].
    destruct (Hb i y Hi Hy) as (e & d & -> & Hdd). exists e, d. split; [done|]. rewrite Hd, Hdd. by case_decide.
Qed.

Lemma placed_le cs P o r : main_ok cs P o r -> (placed cs o <= length vec)%nat.
Proof.
  intros Hok. pose proof (ok_overflow _ _ _ _ Hok). unfold placed.
  pose proof (dones_le (take m cs)). rewrite length_take in *. lia.
Qed.

Lemma main_loop_spec fuel h cs rb P o :
  shows h cs -> main_ok cs P o (read_idx_ rb) -> sized rb -> stored rb 0 P -> length P = buf_idx_ rb ->
  Z.of_nat (buf_idx_ rb) <= max_elems_ rb -> end_read_idx_ rb = m -> (length vec - placed cs o < fuel)%nat ->
  exists h' cs' o', main_loop fuel c vec h rb o = Some h' /\ shows h' cs' /\ main_ok cs' [] o' m.
Proof.
  revert h cs rb P o. induction fuel as [|fuel IH]; intros h cs rb P o Hv Hok Hsz HsP HP Hmax Hend Hfuel; [lia|].
  cbn [main_loop]. unfold Fill. pose proof (ok_read _ _ _ _ Hok) as Hr.
  destruct (fill_spec vec vec_nodup (end_read_idx_ rb - read_idx_ rb) h cs rb P)
    as (k & L & h1 & rb1 & cs1 & -> & Hk & Hv1 & (Hz1 & Hz2 & Hz3) & Hr1 & Hb1 & Hle1 & Hs1 & Hor & Hd & Hcont);
    try done; [lia| |].
  { intros i x Hi Hx. split; [by apply (ok_moving _ _ _ _ Hok _ _ Hx)|]. intros e ->.
    pose proof (ok_hole _ _ _ _ Hok _ _ Hx). lia. }
  cbn [mbind option_bind]. pose proof (main_ok_dug _ _ _ _ _ _ _ Hok Hd ltac:(lia) Hcont) as Hok1.
  rewrite <-Hr1 in Hok1. case_bool_decide as Hpos.
  - destruct (targets_spec c vec rk (P ++ L) 0 rb1) as (ts & Hts & HF); [done| |].
    { apply Forall_forall. intros e He. pose proof (ok_orig _ _ _ _ _ Hok1 He) as Ho.
      split; [by apply orig_parent|]. pose proof (orig_clean _ Ho). lia. }
    rewrite Hb1, Hts. cbn [mbind option_bind].
    destruct (main_steps_spec (P ++ L) h1 cs1 rb1 0 ts [] o (read_idx_ rb1))
      as (h2 & rb2 & cs2 & o2 & W & Hsteps & Hv2 & Hok2 & Hsb & HW & HsW & Hpl); try done.
    { by rewrite app_nil_r. }
    { unfold sized. by rewrite Hz1, Hz2. }
    { rewrite Hb1 in Hle1. rewrite Hz2. lia. }
    cbn [length] in Hsteps. rewrite Hsteps. cbn [mbind option_bind]. pose proof Hsb as (Hq1 & Hq2 & Hq3 & Hq4 & Hq5).
    apply (IH h2 cs2 (Reset (length W) rb2) W o2); cbn; try done.
    + by rewrite Hq4.
    + unfold sized. cbn. by rewrite Hq1, Hq3, Hz1, Hz2.
    + rewrite Hq3, Hz2. rewrite Hb1 in Hle1. lia.
    + congruence.
    + pose proof (placed_le _ _ _ _ Hok2). assert (placed cs1 o = placed cs o) as Hpl1.
      { unfold placed, dones, finals. by rewrite !fmap_take, (dug_final _ _ _ _ Hd). }
      lia.
  - do 3 eexists. split; [done|]. split; [done|]. assert (P ++ L = []) as HPL by (apply nil_length_inv; lia).
    rewrite HPL in Hok1. assert (read_idx_ rb1 = m) as <-; [|done].
    destruct Hor as [->|Hfull]; [lia|]. destruct Hsz as (_ & ? & _). lia.
Qed.

(** ** The whole phase *)

Lemma main_end cs o :
  main_ok cs [] o m ->
  exists mains overs, cs = (Done <$> mains) ++ (Live <$> overs) /\ length mains = m /\ mains ++ overs ≡ₚ orig /\
    forall i e, mains !! i = Some e -> rk e = i.
Proof.
  intros Hok. pose proof (ok_length _ _ _ _ Hok) as Hlen. pose proof (ok_content _ _ _ _ Hok) as Hc.
  rewrite app_nil_r in Hc. assert (Forall full cs) as Hfull.
  { apply content_all_full. by rewrite Hc, Hlen. }
  assert (exists mains, take m cs = Done <$> mains) as [mains Hm].
  { apply cells_all_done, Forall_lookup. intros i x Hx. apply lookup_take_Some in Hx as [Hx Hi].
    pose proof (Forall_lookup_1 _ _ _ _ Hfull Hx) as Hf. destruct x as [e|e|e|e]; [|by exists e|done|done].
    pose proof (ok_live _ _ _ _ Hok _ _ Hx). lia. }
  assert (exists overs, drop m cs = Live <$> overs) as [overs Ho].
  { apply cells_all_live, Forall_lookup. intros i x Hx. rewrite lookup_drop in Hx.
    pose proof (Forall_lookup_1 _ _ _ _ Hfull Hx) as Hf. destruct x as [e|e|e|e]; [by exists e| |done|done].
    pose proof (ok_done _ _ _ _ Hok _ _ Hx). lia. }
  exists mains, overs. assert (length mains = m) as Hlm.
  { rewrite <-(length_fmap Done mains), <-Hm, length_take. lia. }
  assert (cs = (Done <$> mains) ++ (Live <$> overs)) as Hcs by (by rewrite <-Hm, <-Ho, take_drop).
  split_and!; [done|done| |].
  - by rewrite <-Hc, Hcs, content_app, content_done, content_live.
  - intros i e Hi. apply (ok_done _ _ _ _ Hok i e). rewrite Hcs, lookup_app_l.
    + by rewrite list_lookup_fmap, Hi.
    + rewrite length_fmap. by eapply lookup_lt_Some.
Qed.

Lemma main_start : main_ok (Live <$> orig) [] m 0.
Proof.
  assert (forall i (x : cell A), (Live <$> orig) !! i = Some x -> exists e, x = Live e /\ e ∈ orig) as Hlk.
  { intros i x Hx. rewrite list_lookup_fmap in Hx. apply fmap_Some in Hx as (e & He & ->).
    exists e. split; [done|]. by eapply list_elem_of_lookup_2. }
  split; [by rewrite length_fmap|lia|lia| |by rewrite app_nil_r, content_live| | |lia|lia].
  - intros i x Hx. destruct (Hlk i x Hx) as (e & -> & He). by apply orig_clean.
  - intros i e Hx. by destruct (Hlk _ _ Hx) as (? & ? & _).
  - intros i e Hx. by destruct (Hlk _ _ Hx) as (? & ? & _).
Qed.

Lemma ReorderMainEntries_spec h x :
  view vec h orig -> 0 < entry_size_ x <= 8192 -> entries_ x = vec -> concise_hash_table_ x = c ->
  (length vec - Z.to_nat (ConciseHashTable.num_overflow_ c))%nat = m ->
  exists h' mains overs, ReorderMainEntries h x = Some h' /\
    view vec h' ((SetProcessed <$> mains) ++ overs) /\ length mains = m /\ mains ++ overs ≡ₚ orig /\
    forall i e, mains !! i = Some e -> rk e = i.
Proof.
  intros Hv Hes Hvec Hc Hm. unfold ReorderMainEntries. rewrite Hvec, Hc, Hm. case_decide as Hm0.
  - assert (orig = []) as E.
    { destruct orig as [|e l]; [done|]. destruct (orig_clean e) as [_ ?]; [by left|]. lia. }
    exists h, [], []. rewrite E in *. done.
  - assert (shows h (Live <$> orig)) as Hv0 by (by rewrite <-list_fmap_compose, list_fmap_id).
    destruct (main_loop_spec (S (length vec)) h (Live <$> orig)
      (NewReorderBuffer (entry_size_ x) K_DEFAULT_VECTOR_SIZE 0 m) [] m Hv0 main_start) as (h' & cs & o & Hloop & Hv' & Hok).
    + by apply NewReorderBuffer_sized.
    + intros j e Hj. done.
    + done.
    + by apply (Z.le_trans _ 1), NewReorderBuffer_sized.
    + done.
    + lia.
    + destruct (main_end _ _ Hok) as (mains & overs & -> & Hlm & Hperm & Hrk).
      exists h', mains, overs. split_and!; try done.
      rewrite fmap_app, <-!list_fmap_compose in Hv'. by replace (concrete ∘ Live <$> overs) with overs in Hv' by (symmetry; apply list_fmap_id).
Qed.
End main.
