(* ===== verification/ReorderOverflow.v ===== *)
(** * Reordering the overflow entries

    [JoinHashTable::ReorderOverflowEntries]: the entries behind the main arena are
    moved so that those of one slot are next to each other, in the order of the
    slots, and chained behind the main entry of their slot. *)
From S2P Require Import Prelude HashTables JoinTable ReorderCells ReorderMain.
Import Reorder JoinHashTable.

(** ** Counts and their sums *)

(** How often a rank occurs. *)
Definition occ (i : nat) (rs : list nat) : Z := Z.of_nat (length (filter (eq i) rs)).

Lemma occ_cons i r rs : occ i (r :: rs) = (if decide (i = r) then 1 else 0) + occ i rs.
Proof. unfold occ. rewrite filter_cons. case_decide; cbn; lia. Qed.

Lemma occ_app i rs rs' : occ i (rs ++ rs') = occ i rs + occ i rs'.
Proof. unfold occ. rewrite filter_app, length_app. lia. Qed.

Lemma occ_bound i rs : 0 <= occ i rs <= Z.of_nat (length rs).
Proof. unfold occ. pose proof (length_filter (eq i) rs). lia. Qed.

#[export] Instance occ_perm i : Proper ((≡ₚ) ==> eq) (occ i).
Proof. intros rs rs' Hp. unfold occ. by rewrite Hp. Qed.

Lemma occ_submseteq i rs rs' : rs ⊆+ rs' -> occ i rs <= occ i rs'.
Proof.
  intros [k ->]%submseteq_Permutation. rewrite occ_app. pose proof (occ_bound i k). lia.
Qed.

Lemma occ_pos i rs : i ∈ rs -> 0 < occ i rs.
Proof.
  intros Hi. unfold occ. assert (i ∈ filter (eq i) rs) as H by (by apply list_elem_of_filter).
  destruct (filter (eq i) rs); [by apply not_elem_of_nil in H|]. cbn. lia.
Qed.

Fixpoint psum (f : nat -> Z) (i : nat) : Z :=
  match i with O => 0 | S i => psum f i + f i end.

Lemma psum_mono f i j : (forall k, 0 <= f k) -> (i <= j)%nat -> psum f i <= psum f j.
Proof. intros Hf. induction 1 as [|j Hle IH]; [lia|]. cbn. specialize (Hf j). lia. Qed.

Lemma psum_nonneg f i : (forall k, 0 <= f k) -> 0 <= psum f i.
Proof. intros Hf. by apply (psum_mono f 0 i Hf); lia. Qed.

Lemma psum_interval f m q :
  0 <= q < psum f m -> exists i, (i < m)%nat /\ psum f i <= q < psum f (S i).
Proof.
  induction m as [|m IH]; cbn; intros Hq; [lia|]. destruct (decide (q < psum f m)) as [Hlt|Hge].
  - destruct (IH ltac:(lia)) as (i & Hi & Hi'). exists i. split; [lia|done].
  - exists m. split; [lia|]. cbn. lia.
Qed.

Lemma psum_add f g i : psum (fun k => f k + g k) i = psum f i + psum g i.
Proof. induction i as [|i IH]; cbn; [done|]. rewrite IH. lia. Qed.

Lemma psum_ext f g i : (forall k, (k < i)%nat -> f k = g k) -> psum f i = psum g i.
Proof. induction i as [|i IH]; intros H; cbn; [done|]. rewrite IH by auto with lia. by rewrite H by lia. Qed.

(** Counting every rank counts everything. *)
Lemma psum_occ m rs : Forall (fun r => (r < m)%nat) rs -> psum (fun i => occ i rs) m = Z.of_nat (length rs).
Proof.
  assert (forall r, psum (fun i => if decide (i = r) then 1 else 0) m = if decide (r < m)%nat then 1 else 0) as Hone.
  { intros r. induction m as [|m IH]; cbn; [done|]. rewrite IH. repeat case_decide; lia. }
  induction 1 as [|r rs Hr _ IH].
  - clear Hone. induction m as [|m IH]; [done|]. cbn [psum]. by rewrite IH.
  - rewrite (psum_ext _ (fun i => (if decide (i = r) then 1 else 0) + occ i rs)) by (intros; apply occ_cons).
    rewrite psum_add, IH, Hone, decide_True by done. cbn [length]. lia.
Qed.

(** ** Entries with given words *)

Section words.
Context {A : Type}.
Notation entry := (HashTableEntry A).
Implicit Types (f g : nat -> Z) (es : list entry).

Definition with_words f es : list entry := imap (fun i e => set_word (f i) e) es.

Lemma length_with_words f es : length (with_words f es) = length es.
Proof. apply length_imap. Qed.

Lemma lookup_with_words f es i : with_words f es !! i = set_word (f i) <$> es !! i.
Proof. unfold with_words. by rewrite list_lookup_imap. Qed.

Lemma with_words_ext f g es : (forall i, (i < length es)%nat -> f i = g i) -> with_words f es = with_words g es.
Proof.
  intros H. apply list_eq. intros i. rewrite !lookup_with_words. destruct (es !! i) as [e|] eqn:He; [|done].
  cbn. rewrite H; [done|]. by eapply lookup_lt_Some.
Qed.

Lemma with_words_insert f es i v e :
  es !! i = Some e ->
  <[i := set_word v (set_word (f i) e)]> (with_words f es) =
    with_words (fun j => if decide (j = i) then v else f j) es.
Proof.
  intros He. apply list_eq. intros j. rewrite lookup_with_words. destruct (decide (i = j)) as [<-|Hne].
  - rewrite list_lookup_insert_eq by (rewrite length_with_words; by eapply lookup_lt_Some).
    rewrite He, decide_True by done. done.
  - by rewrite list_lookup_insert_ne, lookup_with_words, decide_False by done.
Qed.

Lemma with_words_own es : with_words (fun i => from_option word_ 0 (es !! i)) es = es.
Proof.
  apply list_eq. intros i. rewrite lookup_with_words. destruct (es !! i) as [e|] eqn:He; [|done].
  cbn. rewrite ?He. by destruct e.
Qed.

Lemma data_with_words f es : data <$> with_words f es = data <$> es.
Proof.
  apply list_eq. intros i. rewrite !list_lookup_fmap, lookup_with_words. by destruct (es !! i) as [[]|].
Qed.
End words.

(** ** Reading and writing the vector *)

Section vector.
Context {A : Type} (vec : list Z) (vec_nodup : NoDup vec).
Implicit Types (h : entries A) (es : list (HashTableEntry A)).

Lemma entry_at_view h es i : view vec h es -> entry_at vec i h = es !! i.
Proof.
  intros Hv. unfold entry_at. destruct (vec !! i) as [p|] eqn:Hp.
  - destruct (view_lookup _ _ _ _ _ Hv Hp) as (e & He & Hh). by rewrite He.
  - apply lookup_ge_None in Hp. rewrite (view_length _ _ _ Hv) in Hp. by rewrite (proj2 (lookup_ge_None es i) Hp).
Qed.

Lemma write_at_view h es i e w :
  view vec h es -> es !! i = Some e ->
  exists h', write_at vec i w h = Some h' /\ view vec h' (<[i := set_word w e]> es).
Proof.
  intros Hv He. destruct (view_lookup_r _ _ _ _ _ Hv He) as (p & Hp & Hh). unfold write_at.
  rewrite Hp. cbn. rewrite Hh. cbn. eexists. split; [done|]. by apply view_insert.
Qed.

(** The words of the first entries are rewritten one by one. *)
Lemma write_main h f ms es i w :
  view vec h (with_words f ms ++ es) -> (i < length ms)%nat ->
  exists h', write_at vec i w h = Some h' /\
    view vec h' (with_words (fun j => if decide (j = i) then w else f j) ms ++ es).
Proof.
  intros Hv Hi. destruct (lookup_lt_is_Some_2 ms i Hi) as [e He].
  assert ((with_words f ms ++ es) !! i = Some (set_word (f i) e)) as Hlk.
  { rewrite lookup_app_l by (by rewrite length_with_words). by rewrite lookup_with_words, He. }
  destruct (write_at_view _ _ _ _ w Hv Hlk) as (h' & Hw & Hv'). exists h'. split; [done|].
  rewrite insert_app_l in Hv' by (by rewrite length_with_words). by rewrite with_words_insert in Hv'.
Qed.

Lemma write_behind h es f us i w :
  view vec h (es ++ with_words f us) -> (i < length us)%nat ->
  exists h', write_at vec (length es + i) w h = Some h' /\
    view vec h' (es ++ with_words (fun j => if decide (j = i) then w else f j) us).
Proof.
  intros Hv Hi. destruct (lookup_lt_is_Some_2 us i Hi) as [e He].
  assert ((es ++ with_words f us) !! (length es + i)%nat = Some (set_word (f i) e)) as Hlk.
  { rewrite lookup_app_r by lia. by rewrite Nat.add_comm, Nat.add_sub, lookup_with_words, He. }
  destruct (write_at_view _ _ _ _ w Hv Hlk) as (h' & Hw & Hv'). exists h'. split; [done|].
  rewrite insert_app_r_alt in Hv' by lia. rewrite Nat.add_comm, Nat.add_sub in Hv'.
  by rewrite with_words_insert in Hv'.
Qed.

Lemma clear_counts_spec n idx h f ms es :
  view vec h (with_words f ms ++ es) -> (idx + n <= length ms)%nat ->
  exists h', clear_counts n idx vec h = Some h' /\
    view vec h' (with_words (fun j => if decide (idx <= j < idx + n)%nat then 0 else f j) ms ++ es).
Proof.
  revert idx h f. induction n as [|n IH]; intros idx h f Hv Hn; cbn [clear_counts].
  - exists h. split; [done|]. rewrite (with_words_ext _ f); [done|]. intros i _. by rewrite decide_False by lia.
  - destruct (write_main h f ms es idx 0 Hv ltac:(lia)) as (h1 & -> & Hv1). cbn.
    destruct (IH (S idx) h1 _ Hv1 ltac:(lia)) as (h2 & -> & Hv2). exists h2. split; [done|].
    rewrite (with_words_ext _ (fun j => if decide (S idx <= j < S idx + n)%nat then 0 else if decide (j = idx) then 0 else f j));
      [done|]. intros i _. repeat case_decide; try done; lia.
Qed.
End vector.

Section overflow.
Context {A : Type} `{LlvmMath}.
Notation entry := (HashTableEntry A).
Implicit Types (h : entries A) (e : entry) (w : nat -> Z).

(** [mains] are in their places and [overs] behind them. *)
Context (vec : list Z) (vec_nodup : NoDup vec) (mains overs : list entry) (rk : entry -> nat)
  (c : ConciseHashTable.t).
Notation m := (length mains).
Context (vec_length : length vec = (m + length overs)%nat) (vec_bound : Z.of_nat (length vec) < 2 ^ 62).
Context (over_clean : forall e, e ∈ overs -> clean e /\ (rk e < m)%nat).
Context (over_parent : forall e, e ∈ overs -> parent_of c vec e = vec !! rk e).

(** The number of overflow entries of each main entry. *)
Definition count_of (i : nat) : Z := occ i (rk <$> overs).

Lemma count_nonneg i : 0 <= count_of i.
Proof. apply occ_bound. Qed.

Lemma count_sum : psum count_of m = Z.of_nat (length overs).
Proof.
  unfold count_of. rewrite psum_occ; [by rewrite length_fmap|]. apply Forall_fmap, Forall_forall.
  intros e He. by apply over_clean.
Qed.

Lemma count_pos e : e ∈ overs -> 0 < count_of (rk e).
Proof. intros He. by apply occ_pos, list_elem_of_fmap_2. Qed.

(** *** Counting *)

Lemma parents_of_spec (ps : list Z) h es :
  view ps h es -> Forall (fun e => e ∈ overs) es ->
  exists qs, parents_of c vec ps h = Some qs /\ Forall2 (fun r q => vec !! r = Some q) (rk <$> es) qs.
Proof.
  induction 1 as [|p e ps es Hp _ IH]; intros Hes; cbn [parents_of]; [exists []; by split|].
  apply Forall_cons in Hes as [He Hes]. rewrite Hp. cbn [mbind option_bind]. rewrite over_parent by done.
  destruct (lookup_lt_is_Some_2 vec (rk e)) as [q Hq]; [pose proof (over_clean e He); lia|]. rewrite Hq.
  cbn [mbind option_bind]. destruct (IH Hes) as (qs & -> & HF). exists (q :: qs). split; [done|]. cbn. by constructor.
Qed.

Lemma count_parents_spec (rs : list nat) (ps : list Z) h w es :
  view vec h (with_words w mains ++ es) -> Forall2 (fun r p => vec !! r = Some p) rs ps ->
  Forall (fun r => (r < m)%nat) rs -> (forall i, 0 <= w i /\ w i + Z.of_nat (length rs) < 2 ^ 64) ->
  exists h', count_parents ps h = Some h' /\ view vec h' (with_words (fun i => w i + occ i rs) mains ++ es).
Proof.
  intros Hv HF. revert h w Hv. induction HF as [|r p rs ps Hp HF IH]; intros h w Hv Hrs Hw; cbn [count_parents].
  - exists h. split; [done|]. rewrite (with_words_ext _ w); [done|]. intros i _. unfold occ. cbn. lia.
  - apply Forall_cons in Hrs as [Hr Hrs]. destruct (lookup_lt_is_Some_2 mains r Hr) as [e He].
    assert ((with_words w mains ++ es) !! r = Some (set_word (w r) e)) as Hlk.
    { rewrite lookup_app_l by (by rewrite length_with_words). by rewrite lookup_with_words, He. }
    destruct (view_lookup _ _ _ _ _ Hv Hp) as (x & Hx & Hhp). rewrite Hlk in Hx. injection Hx as <-.
    rewrite Hhp. cbn [mbind option_bind word_ set_word]. cbn [length] in Hw.
    rewrite wrapu_small by (unfold is_uint; specialize (Hw r); lia).
    assert (view vec (<[p := set_word (w r + 1) (set_word (w r) e)]> h)
      (with_words (fun j => if decide (j = r) then w r + 1 else w j) mains ++ es)) as Hv1.
    { rewrite <-(with_words_insert w _ _ _ e), <-insert_app_l by (done || by rewrite length_with_words). by apply view_insert. }
    destruct (IH _ _ Hv1 Hrs) as (h' & Hc & Hv').
    { intros i. specialize (Hw i). case_decide; subst; lia. }
    exists h'. split; [exact Hc|]. rewrite (with_words_ext _ (fun i => (if decide (i = r) then w r + 1 else w i) + occ i rs));
      [done|]. intros i _. rewrite occ_cons. case_decide; subst; lia.
Qed.

Lemma behind_view h w k : view vec h (with_words w mains ++ overs) -> view (drop (m + k) vec) h (drop k overs).
Proof.
  intros Hv. assert (drop (m + k) (with_words w mains ++ overs) = drop k overs) as <-.
  { rewrite drop_app_ge by (rewrite length_with_words; lia). f_equal. rewrite length_with_words. lia. }
  by apply Forall2_drop.
Qed.

Lemma count_vectors_spec fuel k h w :
  view vec h (with_words w mains ++ overs) -> (length overs - k < fuel)%nat ->
  (forall i, 0 <= w i /\ w i + Z.of_nat (length overs - k) < 2 ^ 64) ->
  exists h', count_vectors fuel c vec (drop (m + k) vec) h = Some h' /\
    view vec h' (with_words (fun i => w i + occ i (rk <$> drop k overs)) mains ++ overs).
Proof.
  revert k h w. induction fuel as [|fuel IH]; intros k h w Hv Hf Hw; [lia|].
  pose proof (behind_view _ _ k Hv) as Hb. destruct (drop (m + k) vec) as [|p ov] eqn:Hov.
  - inversion Hb. exists h. split; [done|]. rewrite (with_words_ext _ w); [done|].
    intros i _. unfold occ. cbn. lia.
  - assert (k < length overs)%nat as Hk.
    { apply (f_equal length) in Hov. rewrite length_drop in Hov. cbn in Hov. lia. }
    cbn [count_vectors]. rewrite <-Hov in *. clear Hov p ov. set (C := Z.to_nat K_DEFAULT_VECTOR_SIZE).
    assert (0 < C)%nat as HC by (unfold C, K_DEFAULT_VECTOR_SIZE; lia). clearbody C.
    pose proof (Forall2_take _ _ _ C Hb) as Ht. set (chunk := take C (drop k overs)) in *.
    assert (Forall (fun e => e ∈ overs) chunk) as Hin.
    { apply Forall_take, Forall_drop, Forall_forall. done. }
    destruct (parents_of_spec _ _ _ Ht Hin) as (qs & -> & HF). cbn [mbind option_bind].
    assert (length chunk + (length overs - (k + C)) = length overs - k)%nat as Hlc.
    { unfold chunk. rewrite length_take, length_drop. lia. }
    destruct (count_parents_spec (rk <$> chunk) qs h w overs Hv HF) as (h1 & -> & Hv1).
    { apply Forall_fmap. eapply Forall_impl; [done|]. intros e He. by apply over_clean. }
    { intros i. rewrite length_fmap. specialize (Hw i). lia. }
    cbn [mbind option_bind]. rewrite drop_drop, <-Nat.add_assoc.
    destruct (IH (k + C)%nat h1 _ Hv1) as (h2 & -> & Hv2); [lia| |].
    { intros i. specialize (Hw i). pose proof (occ_bound i (rk <$> chunk)) as Ho. rewrite length_fmap in Ho. lia. }
    exists h2. split; [done|].
    rewrite (with_words_ext _ (fun i => w i + occ i (rk <$> chunk) + occ i (rk <$> drop (k + C) overs))); [done|].
    intros i _. rewrite <-Z.add_assoc, <-occ_app, <-fmap_app. unfold chunk. by rewrite <-drop_drop, take_drop.
Qed.

(** *** The ends of the ranges *)

Definition end_of (i : nat) : Z :=
  if decide (count_of i = 0) then no_overflow else Z.of_nat m + psum count_of (S i).

Lemma sum_counts_spec n idx h :
  view vec h (with_words (fun i => if decide (i < idx)%nat then end_of i else count_of i) mains ++ overs) ->
  (idx + n = m)%nat ->
  exists h', sum_counts n idx (Z.of_nat m) (psum count_of idx) vec h = Some h' /\
    view vec h' (with_words end_of mains ++ overs).
Proof.
  revert idx h. induction n as [|n IH]; intros idx h Hv Hn; cbn [sum_counts].
  - exists h. split; [done|]. rewrite (with_words_ext _ (fun i => if decide (i < idx)%nat then end_of i else count_of i)); [done|].
    intros i Hi. by rewrite decide_True by lia.
  - rewrite (entry_at_view vec _ _ _ Hv). destruct (lookup_lt_is_Some_2 mains idx ltac:(lia)) as [e He].
    rewrite lookup_app_l, lookup_with_words, He by (rewrite length_with_words; lia).
    cbn [fmap option_fmap option_map mbind option_bind word_ set_word]. rewrite decide_False by lia.
    pose proof (psum_nonneg count_of idx count_nonneg). pose proof (count_nonneg idx).
    pose proof (psum_mono count_of (S idx) m count_nonneg ltac:(lia)) as Hmono. cbn [psum] in Hmono.
    rewrite count_sum in Hmono. rewrite !wrapu_small by (unfold is_uint; rewrite ?wrapu_small by (unfold is_uint; lia); lia).
    fold (psum count_of (S idx)).
    destruct (write_main vec vec_nodup h _ _ _ idx (end_of idx) Hv ltac:(lia)) as (h1 & Hw & Hv1).
    unfold end_of in Hw at 1. cbn [psum] in Hw. rewrite Hw. cbn [mbind option_bind].
    apply (IH (S idx)); [|lia].
    rewrite (with_words_ext _ (fun j => if decide (j = idx) then end_of idx else
      if decide (j < idx)%nat then end_of j else count_of j)); [done|].
    intros i _. repeat case_decide; subst; try done; lia.
Qed.

(** *** Moving the entries

    [ds] are the places behind the main arena, [P] the buffered entries, [w] the words
    of the main entries: the place the last entry of their range was put into. *)
Notation entry_range i q := (psum count_of i <= Z.of_nat q < psum count_of (S i)).
Notation place w i := (w i - Z.of_nat m).

Record over_ok (ds : list (cell A)) (P : list entry) w (r : nat) : Prop := {
  ov_length : length ds = length overs;
  ov_read : (r <= length overs)%nat;
  ov_moving : forall q x, ds !! q = Some x -> moving x;
  ov_content : content ds ++ P ≡ₚ overs;
  ov_hole : forall q e, ds !! q = Some (Hole e) -> (q < r)%nat;
  ov_live : forall q e, ds !! q = Some (Live e) -> (r <= q)%nat;
  ov_none : forall i, (i < m)%nat -> count_of i = 0 -> w i = no_overflow;
  ov_words : forall i, (i < m)%nat -> count_of i <> 0 ->
    place w i + occ i (rk <$> finals ds) = psum count_of (S i);
  ov_done : forall i q x, (i < m)%nat -> count_of i <> 0 -> entry_range i q -> ds !! q = Some x ->
    if decide (place w i <= Z.of_nat q) then exists e, x = Done e /\ rk e = i else forall e, x <> Done e;
}.

Lemma ov_elem ds P w r e : over_ok ds P w r -> e ∈ P -> e ∈ overs.
Proof. intros Hok He. rewrite <-(ov_content _ _ _ _ Hok). apply elem_of_app. by right. Qed.

(** The next place for an entry is in the range of its main entry and not taken. *)
Lemma next_place ds e P w r :
  over_ok ds (e :: P) w r ->
  exists q x, Z.of_nat q = place w (rk e) - 1 /\ entry_range (rk e) q /\ ds !! q = Some x /\ forall d, x <> Done d.
Proof.
  intros Hok. assert (e ∈ overs) as He by (eapply ov_elem; [done|by left]).
  destruct (over_clean e He) as [_ Hlt]. pose proof (count_pos e He) as Hpos.
  pose proof (ov_words _ _ _ _ Hok (rk e) Hlt ltac:(lia)) as Hw.
  assert (occ (rk e) (rk <$> finals ds) + 1 <= count_of (rk e)) as Hocc.
  { unfold count_of. rewrite <-(ov_content _ _ _ _ Hok).
    transitivity (occ (rk e) (rk <$> (e :: finals ds))); [cbn [fmap list_fmap]; rewrite occ_cons, decide_True by done; lia|].
    apply occ_submseteq, fmap_submseteq. rewrite <-Permutation_middle. apply submseteq_skip.
    apply submseteq_inserts_r, finals_content. }
  pose proof (occ_bound (rk e) (rk <$> finals ds)). pose proof (psum_nonneg count_of (rk e) count_nonneg).
  pose proof (psum_mono count_of (S (rk e)) m count_nonneg Hlt) as Hm. rewrite count_sum in Hm.
  cbn [psum] in Hw, Hm. pose proof (ov_length _ _ _ _ Hok).
  destruct (lookup_lt_is_Some_2 ds (Z.to_nat (place w (rk e) - 1)) ltac:(lia)) as [x Hx].
  exists (Z.to_nat (place w (rk e) - 1)), x. assert (entry_range (rk e) (Z.to_nat (place w (rk e) - 1))) as Hr by (cbn [psum]; lia).
  split; [lia|]. split; [done|]. split; [done|].
  pose proof (ov_done _ _ _ _ Hok (rk e) _ x Hlt ltac:(lia) Hr Hx) as Hdn. by rewrite decide_False in Hdn by lia.
Qed.

Lemma place_behind ds e P w r q x :
  over_ok ds (e :: P) w r -> Z.of_nat q = place w (rk e) - 1 -> entry_range (rk e) q ->
  ds !! q = Some x -> (forall d, x <> Done d) ->
  over_ok (<[q := Done e]> ds) (P ++ held x) (fun i => if decide (i = rk e) then w (rk e) - 1 else w i) r.
Proof.
  intros Hok Hq Hr Hx Hnd. assert (e ∈ overs) as He by (eapply ov_elem; [done|by left]).
  destruct (over_clean e He) as [Hcl Hlt]. pose proof (count_pos e He) as Hpos.
  destruct Hok as [Hlen Hrd Hm Hc Hh Hl Hn Hw Hd]. split; [by rewrite length_insert|done| | | | | | |].
  - intros i y Hy. apply list_lookup_insert_Some in Hy as [(-> & <- & _)|[_ Hy]]; [done|by eapply Hm].
  - rewrite <-Hc. by apply content_place.
  - intros i y Hy. apply list_lookup_insert_Some in Hy as [(_ & ? & _)|[_ Hy]]; [done|by eapply Hh].
  - intros i y Hy. apply list_lookup_insert_Some in Hy as [(_ & ? & _)|[_ Hy]]; [done|by eapply Hl].
  - intros i Hi H0. rewrite decide_False; [by apply Hn|]. intros ->. lia.
  - intros i Hi H0. rewrite (finals_insert _ _ x) by done. cbn [fmap list_fmap]. rewrite occ_cons.
    specialize (Hw i Hi H0). case_decide; subst; lia.
  - intros i q' y Hi H0 Hr' Hy. specialize (Hd i q').
    destruct (decide (i = rk e)) as [->|Hne].
    + apply list_lookup_insert_Some in Hy as [(-> & <- & _)|[Hqq Hy]].
      * rewrite decide_True by lia. eauto.
      * specialize (Hd y Hi H0 Hr' Hy). destruct (decide (place w (rk e) <= Z.of_nat q')) as [H1|H1].
        -- by rewrite decide_True by lia.
        -- by rewrite decide_False by lia.
    + assert (q <> q') as Hqq.
      { intros ->. destruct (Nat.lt_trichotomy i (rk e)) as [Hl'|[|Hl']]; [|done|].
        - pose proof (psum_mono count_of (S i) (rk e) count_nonneg Hl'). lia.
        - pose proof (psum_mono count_of (S (rk e)) i count_nonneg Hl'). lia. }
      rewrite list_lookup_insert_ne in Hy by done. by apply Hd.
Qed.

Definition arenas w (ds : list (cell A)) : list (cell A) := (Fixed <$> with_words w mains) ++ ds.
Notation shows h w ds := (view vec h (concrete <$> arenas w ds)).

Lemma arenas_concrete w ds : concrete <$> arenas w ds = with_words w mains ++ (concrete <$> ds).
Proof. unfold arenas. rewrite fmap_app, <-list_fmap_compose. f_equal. apply list_fmap_id. Qed.

Lemma length_arenas w : length (Fixed <$> with_words w mains : list (cell A)) = m.
Proof. by rewrite length_fmap, length_with_words. Qed.

Lemma arenas_lookup w ds q : arenas w ds !! (m + q)%nat = ds !! q.
Proof. unfold arenas. rewrite lookup_app_r, length_arenas by (rewrite length_arenas; lia). f_equal. lia. Qed.

Lemma arenas_insert w ds q x : <[(m + q)%nat := x]> (arenas w ds) = arenas w (<[q := x]> ds).
Proof.
  unfold arenas. rewrite insert_app_r_alt, length_arenas by (rewrite length_arenas; lia).
  f_equal. f_equal. lia.
Qed.

Lemma overflow_step_spec h ds rb idx p e w W B r :
  shows h w ds -> over_ok ds (e :: B ++ W) w r -> vec !! rk e = Some p -> sized rb ->
  (length W <= idx)%nat -> Z.of_nat (S idx + length B) <= max_elems_ rb ->
  stored rb 0 W -> stored rb idx (e :: B) ->
  exists h' rb' ds' w' W', overflow_step vec idx p h rb (length W) = Some (h', rb', length W') /\
    shows h' w' ds' /\ over_ok ds' (B ++ W') w' r /\ same_bounds rb rb' /\ (length W' <= S idx)%nat /\
    stored rb' 0 W' /\ stored rb' (S idx) B /\ dones ds' = S (dones ds).
Proof.
  intros Hv Hok Hp Hsz HW Hmax HsW HsB. destruct (next_place _ _ _ _ _ Hok) as (q & x & Hq & Hr & Hx & Hnd).
  assert (e ∈ overs) as He by (eapply ov_elem; [done|by left]). destruct (over_clean e He) as [Hcl Hlt].
  pose proof (ov_length _ _ _ _ Hok) as Hlen. apply lookup_lt_Some in Hx as Hql.
  destruct (stored_tail _ _ _ _ HsB) as [Hbe HsB']. unfold overflow_step. rewrite Hbe. cbn [mbind option_bind].
  destruct (BufWrite_ok idx (SetProcessed e) rb Hsz ltac:(lia)) as (rb1 & -> & Hs1 & Hb1). cbn [mbind option_bind].
  destruct (lookup_lt_is_Some_2 mains (rk e) Hlt) as [d Hd].
  assert (h !! p = Some (set_word (w (rk e)) d)) as ->.
  { destruct (view_lookup _ _ _ _ _ Hv Hp) as (y & Hy & ->). rewrite arenas_concrete in Hy.
    by rewrite lookup_app_l, lookup_with_words, Hd in Hy by (rewrite length_with_words; lia). }
  cbn [mbind option_bind word_ set_word]. rewrite wrapu_small by (unfold is_uint; lia).
  set (w' := fun i => if decide (i = rk e) then w (rk e) - 1 else w i).
  assert (shows (<[p := set_word (w (rk e) - 1) (set_word (w (rk e)) d)]> h) w' ds) as Hv1.
  { rewrite arenas_concrete in Hv |- *. unfold w'. rewrite <-(with_words_insert w _ _ _ d) by done.
    rewrite <-insert_app_l by (rewrite length_with_words; lia). by apply view_insert. }
  replace (Z.to_nat (w (rk e) - 1)) with (m + q)%nat by lia.
  destruct (lookup_lt_is_Some_2 vec (m + q) ltac:(lia)) as [t Ht]. rewrite Ht. cbn [mbind option_bind].
  pose proof (sized_same _ _ Hs1 Hsz) as Hsz1. pose proof Hs1 as (_ & _ & Hm1 & _).
  destruct (store_spec vec vec_nodup (<[p := set_word (w (rk e) - 1) (set_word (w (rk e)) d)]> h) (arenas w' ds) rb1
    (m + q) t x idx (Done e) W B) as (h' & rb' & Hst & Hv' & Hsb & HsW' & HsB''); try done.
  - by rewrite arenas_lookup.
  - by apply (ov_moving _ _ _ _ Hok _ _ Hx).
  - by rewrite Hm1.
  - eapply stored_other; [done|lia|done].
  - by rewrite Hb1, lookup_insert_eq.
  - eapply stored_other; [done|lia|done].
  - rewrite arenas_insert in Hv'. do 5 eexists. split; [exact Hst|]. split; [exact Hv'|].
    split; [rewrite app_assoc; by apply place_behind|]. split; [by etransitivity|].
    split; [rewrite length_app; destruct x; cbn; lia|]. split; [done|]. split; [done|].
    unfold dones. by rewrite (finals_insert _ _ x).
Qed.

Lemma overflow_steps_spec B h ds rb idx ps w W r :
  shows h w ds -> over_ok ds (B ++ W) w r -> Forall2 (fun e t => vec !! rk e = Some t) B ps -> sized rb ->
  (length W <= idx)%nat -> Z.of_nat (idx + length B) <= max_elems_ rb ->
  stored rb 0 W -> stored rb idx B ->
  exists h' rb' ds' w' W', overflow_steps vec idx ps h rb (length W) = Some (h', rb', length W') /\
    shows h' w' ds' /\ over_ok ds' W' w' r /\ same_bounds rb rb' /\ (length W' <= idx + length B)%nat /\
    stored rb' 0 W' /\ dones ds' = (length B + dones ds)%nat.
Proof.
  revert h ds rb idx ps w W. induction B as [|e B IH]; intros h ds rb idx ps w W Hv Hok Hts Hsz HW Hmax HsW HsB;
    inversion Hts as [|e' t B' ts' Ht Hts']; subst; cbn [overflow_steps].
  - do 5 eexists. split; [done|]. split_and!; try done. cbn. lia.
  - cbn [length] in Hmax.
    destruct (overflow_step_spec h ds rb idx t e w W B r Hv Hok Ht Hsz HW ltac:(lia) HsW HsB)
      as (h1 & rb1 & ds1 & w1 & W1 & -> & Hv1 & Hok1 & Hsb1 & HW1 & HsW1 & HsB1 & Hpl1).
    cbn [mbind option_bind].
    destruct (IH h1 ds1 rb1 (S idx) ts' w1 W1) as (h2 & rb2 & ds2 & w2 & W2 & -> & Hv2 & Hok2 & Hsb2 & HW2 & HsW2 & Hpl2);
      try done; [by eapply sized_same|destruct Hsb1 as (_ & _ & -> & _); lia|].
    do 5 eexists. split; [done|]. split; [exact Hv2|]. split_and!; try done; [by etransitivity|cbn; lia|cbn; lia].
Qed.

Lemma over_ok_dug ds ds' P L w r k :
  over_ok ds P w r -> dug r k ds ds' -> (r + k <= length overs)%nat -> content ds ≡ₚ content ds' ++ L ->
  over_ok ds' (P ++ L) w (r + k).
Proof.
  intros Hok Hd Hk Hcont. pose proof Hok as [Hlen Hrd Hm Hc Hh Hl Hn Hw Hdn].
  split; [by rewrite (dug_length _ _ _ _ Hd)|done| | | | |done| |].
  - intros i x Hx. destruct (dug_inv _ _ _ _ _ _ Hd Hx) as (y & Hy%Hm & [[_ ->]|[_ ->]]); [|done]. by destruct y.
  - rewrite <-Hc, Hcont. solve_Permutation.
  - intros i e Hx. destruct (dug_inv _ _ _ _ _ _ Hd Hx) as (y & Hy & [[? E]|[_ E]]); [lia|]. subst y. apply Hh in Hy. lia.
  - intros i e Hx. destruct (dug_inv _ _ _ _ _ _ Hd Hx) as (y & Hy & [[? E]|[Hi E]]); [by destruct y|].
    subst y. apply Hl in Hy. lia.
  - intros i Hi H0. unfold finals. rewrite (dug_final _ _ _ _ Hd). by apply Hw.
  - intros i q x Hi H0 Hq Hx. destruct (dug_inv _ _ _ _ _ _ Hd Hx) as (y & Hy & Hor).
    specialize (Hdn i q y Hi H0 Hq Hy). destruct Hor as [[_ ->]|[_ ->]]; [|done].
    case_decide; [destruct Hdn as (e & -> & ?); by exists e|]. intros e. destruct y; naive_solver.
Qed.

Lemma overflow_loop_spec fuel h ds rb P w r :
  shows h w ds -> over_ok ds P w r -> read_idx_ rb = (m + r)%nat -> sized rb -> stored rb 0 P ->
  length P = buf_idx_ rb -> Z.of_nat (buf_idx_ rb) <= max_elems_ rb -> end_read_idx_ rb = length vec ->
  (length overs - dones ds < fuel)%nat ->
  exists h' ds' w', overflow_loop fuel c vec h rb = Some h' /\ shows h' w' ds' /\ over_ok ds' [] w' (length overs).
Proof.
  revert h ds rb P w r. induction fuel as [|fuel IH]; intros h ds rb P w r Hv Hok Hr Hsz HsP HP Hmax Hend Hfuel; [lia|].
  cbn [overflow_loop]. unfold Fill. pose proof (ov_read _ _ _ _ Hok) as Hrd.
  destruct (fill_spec vec vec_nodup (end_read_idx_ rb - read_idx_ rb) h (arenas w ds) rb P)
    as (k & L & h1 & rb1 & cs1 & -> & Hk & Hv1 & (Hz1 & Hz2 & Hz3) & Hr1 & Hb1 & Hle1 & Hs1 & Hor & Hd & Hcont);
    try done; [lia| |].
  { intros i x Hi Hx. replace i with (m + (i - m))%nat in Hx by lia. rewrite arenas_lookup in Hx.
    split; [by apply (ov_moving _ _ _ _ Hok _ _ Hx)|]. intros e ->.
    pose proof (ov_hole _ _ _ _ Hok _ _ Hx). lia. }
  cbn [mbind option_bind]. apply dug_app_r in Hd as (ds1 & -> & Hd); [|rewrite length_arenas; lia].
  rewrite length_arenas in Hd. replace (read_idx_ rb - m)%nat with r in Hd by lia.
  unfold arenas in Hcont. rewrite !content_app, content_fixed in Hcont.
  pose proof (over_ok_dug _ _ _ _ _ _ _ Hok Hd ltac:(lia) Hcont) as Hok1.
  case_bool_decide as Hpos.
  - destruct (targets_spec c vec rk (P ++ L) 0 rb1) as (ts & Hts & HF); [done| |].
    { apply Forall_forall. intros e He. pose proof (ov_elem _ _ _ _ _ Hok1 He) as Ho.
      split; [by apply over_parent|]. pose proof (over_clean _ Ho). lia. }
    rewrite Hb1, Hts. cbn [mbind option_bind].
    destruct (overflow_steps_spec (P ++ L) h1 ds1 rb1 0 ts w [] (r + k))
      as (h2 & rb2 & ds2 & w2 & W & Hsteps & Hv2 & Hok2 & Hsb & HW & HsW & Hpl); try done.
    { by rewrite app_nil_r. }
    { unfold sized. by rewrite Hz1, Hz2. }
    { rewrite Hb1 in Hle1. rewrite Hz2. lia. }
    cbn [length] in Hsteps. rewrite Hsteps. cbn [mbind option_bind]. pose proof Hsb as (Hq1 & Hq2 & Hq3 & Hq4 & Hq5).
    apply (IH h2 ds2 (Reset (length W) rb2) W w2 (r + k)%nat); cbn; try done.
    + rewrite Hq4. lia.
    + unfold sized. cbn. by rewrite Hq1, Hq3, Hz1, Hz2.
    + rewrite Hq3, Hz2. rewrite Hb1 in Hle1. lia.
    + congruence.
    + pose proof (dones_le ds2). rewrite (ov_length _ _ _ _ Hok2) in *. assert (dones ds1 = dones ds) as Hpl1.
      { unfold dones, finals. by rewrite (dug_final _ _ _ _ Hd). }
      lia.
  - do 3 eexists. split; [done|]. split; [exact Hv1|]. assert (P ++ L = []) as HPL by (apply nil_length_inv; lia).
    rewrite HPL in Hok1. assert (r + k = length overs)%nat as <-; [|done].
    destruct Hor as [->|Hfull]; [lia|]. destruct Hsz as (_ & ? & _). lia.
Qed.

Lemma over_start : over_ok (Live <$> overs) [] end_of 0.
Proof.
  assert (forall i (x : cell A), (Live <$> overs) !! i = Some x -> exists e, x = Live e /\ e ∈ overs) as Hlk.
  { intros i x Hx. rewrite list_lookup_fmap in Hx. apply fmap_Some in Hx as (e & He & ->).
    exists e. split; [done|]. by eapply list_elem_of_lookup_2. }
  assert (finals (Live <$> overs) = []) as Hf by apply finals_live.
  split; [by rewrite length_fmap|lia| |by rewrite app_nil_r, content_live| |lia| | |].
  - intros i x Hx. destruct (Hlk i x Hx) as (e & -> & He). by apply over_clean.
  - intros i e Hx. by destruct (Hlk _ _ Hx) as (? & ? & _).
  - intros i Hi H0. unfold end_of. by rewrite decide_True.
  - intros i Hi H0. unfold end_of. rewrite decide_False, Hf by done. cbn. unfold occ. cbn. lia.
  - intros i q x Hi H0 Hq Hx. unfold end_of. rewrite (decide_False (P := count_of i = 0)) by done.
    rewrite decide_False by (cbn [psum] in *; lia).
    intros e ->. by destruct (Hlk _ _ Hx) as (? & ? & _).
Qed.

(** At the end every entry is in the range of its main entry, and the main entries have
    the start of their range. *)
Definition start_of (i : nat) : Z :=
  if decide (count_of i = 0) then no_overflow else Z.of_nat m + psum count_of i.

Lemma over_end ds w :
  over_ok ds [] w (length overs) ->
  exists fs, ds = Done <$> fs /\ fs ≡ₚ overs /\ (forall i, (i < m)%nat -> w i = start_of i) /\
    forall i q, (i < m)%nat -> entry_range i q -> exists e, fs !! q = Some e /\ rk e = i.
Proof.
  intros Hok. pose proof (ov_length _ _ _ _ Hok) as Hlen. pose proof (ov_content _ _ _ _ Hok) as Hc.
  rewrite app_nil_r in Hc. assert (Forall full ds) as Hfull.
  { apply content_all_full. by rewrite Hc, Hlen. }
  assert (exists fs, ds = Done <$> fs) as [fs ->].
  { apply cells_all_done, Forall_lookup. intros i x Hx.
    pose proof (Forall_lookup_1 _ _ _ _ Hfull Hx) as Hf. destruct x as [e|e|e|e]; [|by exists e|done|done].
    pose proof (ov_live _ _ _ _ Hok _ _ Hx). apply lookup_lt_Some in Hx. lia. }
  rewrite content_done in Hc. exists fs. split; [done|]. split; [done|].
  assert (forall i, (i < m)%nat -> w i = start_of i) as Hw.
  { intros i Hi. unfold start_of. case_decide as H0; [by apply (ov_none _ _ _ _ Hok)|].
    pose proof (ov_words _ _ _ _ Hok i Hi H0) as Hw. rewrite finals_done, Hc in Hw. fold (count_of i) in Hw.
    cbn [psum] in Hw. lia. }
  split; [done|]. intros i q Hi Hq. assert (count_of i <> 0) as H0 by (cbn [psum] in Hq; lia).
  pose proof (psum_mono count_of (S i) m count_nonneg Hi) as Hm. rewrite count_sum in Hm.
  rewrite length_fmap in Hlen. destruct (lookup_lt_is_Some_2 fs q ltac:(lia)) as [e He]. exists e. split; [done|].
  assert ((Done <$> fs) !! q = Some (Done e)) as Hd by (by rewrite list_lookup_fmap, He).
  pose proof (ov_done _ _ _ _ Hok i q _ Hi H0 Hq Hd) as Hdn. rewrite decide_True in Hdn.
  - by destruct Hdn as (e' & [= ->] & ?).
  - rewrite (Hw i Hi). unfold start_of. rewrite decide_False by done. lia.
Qed.

(** *** The chains *)

Context (over_words : forall e e', e ∈ overs -> e' ∈ overs -> rk e = rk e' <-> word_ e = word_ e').

Definition next_main (i : nat) : Z :=
  if decide (count_of i = 0) then 0 else default 0 (vec !! Z.to_nat (Z.of_nat m + psum count_of i)).

Lemma link_main_spec n idx h es :
  view vec h (with_words (fun i => if decide (i < idx)%nat then next_main i else start_of i) mains ++ es) ->
  (idx + n = m)%nat ->
  exists h', link_main n idx vec h = Some h' /\ view vec h' (with_words next_main mains ++ es).
Proof.
  revert idx h. induction n as [|n IH]; intros idx h Hv Hn; cbn [link_main].
  - exists h. split; [done|]. rewrite (with_words_ext _ (fun i => if decide (i < idx)%nat then next_main i else start_of i)); [done|].
    intros i Hi. by rewrite decide_True by lia.
  - rewrite (entry_at_view vec _ _ _ Hv). destruct (lookup_lt_is_Some_2 mains idx ltac:(lia)) as [e He].
    rewrite lookup_app_l, lookup_with_words, He by (rewrite length_with_words; lia).
    cbn [fmap option_fmap option_map mbind option_bind word_ set_word]. rewrite (decide_False (P := (idx < idx)%nat)) by lia.
    pose proof (psum_nonneg count_of idx count_nonneg). pose proof (count_nonneg idx).
    pose proof (psum_mono count_of (S idx) m count_nonneg ltac:(lia)) as Hmono. cbn [psum] in Hmono.
    rewrite count_sum in Hmono.
    assert ((if decide (start_of idx = no_overflow) then Some 0 else vec !! Z.to_nat (start_of idx)) = Some (next_main idx)) as ->.
    { unfold start_of, next_main. destruct (decide (count_of idx = 0)) as [Hz|Hz]; [by rewrite decide_True|].
      rewrite decide_False by (unfold no_overflow; lia).
      by destruct (lookup_lt_is_Some_2 vec (Z.to_nat (Z.of_nat m + psum count_of idx)) ltac:(lia)) as [p ->]. }
    cbn [mbind option_bind].
    destruct (write_main vec vec_nodup h _ _ _ idx (next_main idx) Hv ltac:(lia)) as (h1 & -> & Hv1).
    cbn [mbind option_bind]. apply (IH (S idx)); [|lia].
    rewrite (with_words_ext _ (fun j => if decide (j = idx) then next_main idx else
      if decide (j < idx)%nat then next_main j else start_of j)); [done|].
    intros i _. repeat case_decide; subst; try done; lia.
Qed.

Section links.
Context (fs : list entry) (fs_overs : fs ≡ₚ overs).

Definition next_over (q : nat) : Z :=
  match fs !! q, fs !! S q with
  | Some e, Some e' => if decide (rk e = rk e') then default 0 (vec !! (m + S q)%nat) else 0
  | _, _ => 0
  end.

Definition marked (q : nat) : Z := from_option word_ 0 ((SetProcessed <$> fs) !! q).

Lemma with_words_marked : with_words marked fs = SetProcessed <$> fs.
Proof.
  apply list_eq. intros q. unfold marked. rewrite lookup_with_words, list_lookup_fmap.
  by destruct (fs !! q) as [e|].
Qed.

Lemma link_overflow_spec n q h es :
  length es = m ->
  view vec h (es ++ with_words (fun i => if decide (i < q)%nat then next_over i else marked i) fs) ->
  (S q + n = length fs)%nat ->
  exists h', (h ← link_overflow n (S (m + q)) vec h; write_at vec (length vec - 1) 0 h) = Some h' /\
    view vec h' (es ++ with_words next_over fs).
Proof.
  intros Hes. assert (length vec = m + length fs)%nat as Hvl by (by rewrite fs_overs). revert q h.
  induction n as [|n IH]; intros q h Hv Hn; cbn [link_overflow].
  - cbn [mbind option_bind]. destruct (write_behind vec vec_nodup h es _ fs q 0 Hv ltac:(lia)) as (h1 & Hw & Hv1).
    replace (length vec - 1)%nat with (length es + q)%nat by lia. exists h1. split; [done|].
    rewrite (with_words_ext _ (fun j => if decide (j = q) then 0 else if decide (j < q)%nat then next_over j else marked j));
      [done|]. intros i Hi. case_decide as Hiq; [|by rewrite decide_True by lia].
    subst i. unfold next_over. rewrite (proj2 (lookup_ge_None fs (S q))) by lia. by destruct (fs !! q).
  - destruct (lookup_lt_is_Some_2 fs q ltac:(lia)) as [e He].
    destruct (lookup_lt_is_Some_2 fs (S q) ltac:(lia)) as [e' He'].
    rewrite !(entry_at_view vec _ _ _ Hv). cbn [Nat.sub]. rewrite Nat.sub_0_r.
    rewrite !lookup_app_r, Hes by lia. replace (m + q - m)%nat with q by lia. replace (S (m + q) - m)%nat with (S q) by lia.
    rewrite !lookup_with_words, He, He', !decide_False by lia.
    destruct (lookup_lt_is_Some_2 vec (S (m + q)) ltac:(lia)) as [p Hp]. rewrite Hp.
    cbn [fmap option_fmap option_map mbind option_bind word_ set_word].
    assert ((if decide (marked q = marked (S q)) then p else 0) = next_over q) as ->.
    { unfold marked, next_over. rewrite !list_lookup_fmap, He, He', Nat.add_succ_r, Hp. cbn [fmap option_fmap option_map from_option].
      apply list_elem_of_lookup_2 in He, He'. rewrite fs_overs in He, He'.
      assert (word_ (SetProcessed e) = word_ (SetProcessed e') <-> rk e = rk e') as Hiff.
      { rewrite SetProcessed_inj by (by apply over_clean). by rewrite over_words. }
      by destruct (decide (rk e = rk e')) as [E|E]; [rewrite decide_True by (by apply Hiff)|rewrite decide_False by (by rewrite Hiff)]. }
    destruct (write_behind vec vec_nodup h es _ fs q (next_over q) Hv ltac:(lia)) as (h1 & Hw & Hv1).
    rewrite Hes in Hw. rewrite Hw. cbn [mbind option_bind]. rewrite <-Nat.add_succ_r. apply IH; [|lia].
    rewrite (with_words_ext _ (fun j => if decide (j = q) then next_over q else
      if decide (j < q)%nat then next_over j else marked j)); [done|].
    intros i _. repeat case_decide; subst; try done; lia.
Qed.
End links.

Lemma ReorderOverflowEntries_spec h x :
  view vec h ((SetProcessed <$> mains) ++ overs) -> 0 < entry_size_ x <= 8192 -> entries_ x = vec ->
  concise_hash_table_ x = c -> Z.to_nat (ConciseHashTable.num_overflow_ c) = length overs ->
  exists h' fs, ReorderOverflowEntries h x = Some h' /\ fs ≡ₚ overs /\
    view vec h' (with_words next_main mains ++ with_words (next_over fs) fs) /\
    forall i q, (i < m)%nat -> entry_range i q -> exists e, fs !! q = Some e /\ rk e = i.
Proof.
  intros Hv Hes Hvec Hc Hov. unfold ReorderOverflowEntries. rewrite Hvec, Hc, Hov.
  replace (length vec - length overs)%nat with m by lia. rewrite <-with_words_marked in Hv.
  destruct (clear_counts_spec vec vec_nodup m 0 h _ _ _ Hv ltac:(lia)) as (h1 & -> & Hv1). cbn [mbind option_bind].
  rewrite (with_words_ext _ (fun _ => 0)) in Hv1 by (intros i Hi; by rewrite decide_True by lia).
  case_decide as H0.
  - apply nil_length_inv in H0. assert (forall i, count_of i = 0) as Hz by (intros i; unfold count_of; by rewrite H0).
    exists h1, []. split; [done|]. split; [by rewrite H0|]. split.
    + rewrite (with_words_ext _ (fun _ => 0)) by (intros i _; unfold next_main; by rewrite decide_True).
      by rewrite H0 in Hv1.
    + intros i q Hi Hq. cbn [psum] in Hq. rewrite Hz in Hq. lia.
  - pose proof (count_vectors_spec (S (length overs)) 0 h1 _ Hv1 ltac:(lia)) as (h2 & Hcv & Hv2); [cbn; lia|].
    rewrite Nat.add_0_r in Hcv. rewrite Hcv. cbn [mbind option_bind drop] in *.
    destruct (sum_counts_spec m 0 h2) as (h3 & Hsc & Hv3); [|lia|].
    { rewrite (with_words_ext _ (fun i => 0 + occ i (rk <$> overs))); [done|]. intros i _. by rewrite decide_False by lia. }
    cbn [psum] in Hsc. rewrite Hsc. cbn [mbind option_bind].
    assert (shows h3 end_of (Live <$> overs)) as Hsh.
    { rewrite arenas_concrete, <-list_fmap_compose. by replace (concrete ∘ Live <$> overs) with overs by (symmetry; apply list_fmap_id). }
    destruct (overflow_loop_spec (S (length vec)) h3 (Live <$> overs)
      (NewReorderBuffer (entry_size_ x) K_DEFAULT_VECTOR_SIZE m (length vec)) [] end_of 0 Hsh over_start)
      as (h4 & ds & w & -> & Hv4 & Hok); [cbn; lia|by apply NewReorderBuffer_sized|by intros j e Hj|done| |done|lia|].
    { by apply (Z.le_trans _ 1), NewReorderBuffer_sized. }
    cbn [mbind option_bind]. destruct (over_end _ _ Hok) as (fs & -> & Hfs & Hw & Hrange).
    rewrite arenas_concrete, <-list_fmap_compose in Hv4.
    change (concrete ∘ Done <$> fs) with (SetProcessed <$> fs : list entry) in Hv4.
    destruct (link_main_spec m 0 h4 (SetProcessed <$> fs)) as (h5 & -> & Hv5); [|lia|].
    { rewrite (with_words_ext _ w); [done|]. intros i Hi. by rewrite decide_False, Hw by lia. }
    cbn [mbind option_bind].
    destruct (link_overflow_spec fs Hfs (length overs - 1) 0 h5 (with_words next_main mains)) as (h6 & Hlk & Hv6).
    { apply length_with_words. }
    { rewrite (with_words_ext _ (marked fs) fs) by (intros i Hi; by rewrite decide_False by lia). by rewrite with_words_marked. }
    { rewrite Hfs. lia. }
    rewrite Nat.add_0_r in Hlk. exists h6, fs. split; [exact Hlk|]. done.
Qed.

(** *** Following the chains *)

Section linked.
Context (fs : list entry) (h : entries A) (fs_overs : fs ≡ₚ overs).
Context (linked : view vec h (with_words next_main mains ++ with_words (next_over fs) fs)).
Context (ranged : forall i q, (i < m)%nat -> entry_range i q -> exists e, fs !! q = Some e /\ rk e = i).
Context (vec_nonzero : forall p, p ∈ vec -> p <> 0).

(** The entries of a rank are in its chain. *)
Lemma chain_ranks i q e :
  (i < m)%nat -> fs !! q = Some e -> rk e = i ->
  (Z.to_nat (psum count_of i) <= q < Z.to_nat (psum count_of i) + Z.to_nat (count_of i))%nat.
Proof.
  intros Hi Hq He. assert (Z.of_nat q < psum count_of m) as Hqm.
  { rewrite count_sum. apply lookup_lt_Some in Hq. rewrite fs_overs in Hq. lia. }
  destruct (psum_interval count_of m (Z.of_nat q) ltac:(lia)) as (j & Hj & Hr).
  destruct (ranged j q Hj Hr) as (e' & He' & Hrk). rewrite Hq in He'. injection He' as <-. rewrite He in Hrk. subst j.
  pose proof (psum_nonneg count_of i count_nonneg). cbn [psum] in Hr. lia.
Qed.
Lemma over_chain i k q :
  (i < m)%nat -> psum count_of i <= Z.of_nat q -> Z.of_nat q + Z.of_nat (S k) = psum count_of (S i) ->
  exists p, vec !! (m + q)%nat = Some p /\ chain h p (take (S k) (drop (m + q) vec)).
Proof.
  intros Hi. revert q. induction k as [|k IH]; intros q Hge Hk.
  all: destruct (ranged i q Hi ltac:(lia)) as (e & He & Hrk).
  all: assert (length fs = length overs) as Hlf by (by rewrite fs_overs); apply lookup_lt_Some in He as Hql.
  all: destruct (lookup_lt_is_Some_2 vec (m + q) ltac:(lia)) as [p Hp]; exists p; split; [done|].
  all: rewrite (drop_S _ _ _ Hp); cbn [take].
  all: assert (h !! p = Some (set_word (next_over fs q) e)) as Hhp
    by (destruct (view_lookup _ _ _ _ _ linked Hp) as (y & Hy & ->); rewrite lookup_app_r in Hy by (rewrite length_with_words; lia);
        rewrite length_with_words in Hy; replace (m + q - m)%nat with q in Hy by lia; by rewrite lookup_with_words, He in Hy).
  all: econstructor; [eapply vec_nonzero, list_elem_of_lookup_2; done|exact Hhp|]; cbn [word_ set_word]; unfold next_over; rewrite He.
  - destruct (fs !! S q) as [e'|] eqn:He'; [|constructor]. rewrite decide_False; [constructor|].
    intros E. pose proof (chain_ranks i (S q) e' Hi He' ltac:(congruence)). pose proof (psum_nonneg count_of i count_nonneg).
    pose proof (count_nonneg i). cbn [psum] in Hk. lia.
  - destruct (ranged i (S q) Hi ltac:(lia)) as (e' & -> & Hrk'). rewrite decide_True by congruence.
    destruct (IH (S q) ltac:(lia) ltac:(lia)) as (p' & -> & Hc). cbn [default]. by rewrite Nat.add_succ_r in Hc.
Qed.

Definition chain_of (i : nat) : list Z :=
  take (Z.to_nat (count_of i)) (drop (m + Z.to_nat (psum count_of i)) vec).

Lemma main_chain i p : (i < m)%nat -> vec !! i = Some p -> chain h p (p :: chain_of i).
Proof.
  intros Hi Hp. destruct (lookup_lt_is_Some_2 mains i Hi) as [e He].
  assert (h !! p = Some (set_word (next_main i) e)) as Hhp.
  { destruct (view_lookup _ _ _ _ _ linked Hp) as (y & Hy & ->).
    rewrite lookup_app_l in Hy by (rewrite length_with_words; lia). by rewrite lookup_with_words, He in Hy. }
  econstructor; [by eapply vec_nonzero, list_elem_of_lookup_2|exact Hhp|]. cbn [word_ set_word].
  unfold next_main, chain_of. pose proof (count_nonneg i). pose proof (psum_nonneg count_of i count_nonneg). case_decide as Hz.
  - rewrite Hz. constructor.
  - destruct (over_chain i (Z.to_nat (count_of i) - 1) (Z.to_nat (psum count_of i)) Hi) as (q & Hq & Hc); [lia|cbn [psum]; lia|].
    replace (Z.to_nat (Z.of_nat m + psum count_of i)) with (m + Z.to_nat (psum count_of i))%nat by lia.
    rewrite Hq. cbn [default]. by replace (S (Z.to_nat (count_of i) - 1)) with (Z.to_nat (count_of i)) in Hc by lia.
Qed.

(** What the chain holds. *)
Lemma chain_view i p e :
  vec !! i = Some p -> mains !! i = Some e ->
  exists es, view (p :: chain_of i) h es /\
    data <$> es = data <$> (e :: take (Z.to_nat (count_of i)) (drop (Z.to_nat (psum count_of i)) fs)).
Proof.
  intros Hp He. apply lookup_lt_Some in He as Hi.
  exists (set_word (next_main i) e :: take (Z.to_nat (count_of i)) (drop (Z.to_nat (psum count_of i)) (with_words (next_over fs) fs))).
  split.
  - constructor.
    + destruct (view_lookup _ _ _ _ _ linked Hp) as (y & Hy & ->).
      rewrite lookup_app_l in Hy by (rewrite length_with_words; lia). by rewrite lookup_with_words, He in Hy.
    + apply Forall2_take. assert (drop (m + Z.to_nat (psum count_of i)) (with_words next_main mains ++ with_words (next_over fs) fs) =
        drop (Z.to_nat (psum count_of i)) (with_words (next_over fs) fs)) as <-; [|by apply Forall2_drop].
      rewrite drop_app_ge by (rewrite length_with_words; lia). f_equal. rewrite length_with_words. lia.
  - cbn [fmap list_fmap]. f_equal. by rewrite !fmap_take, !fmap_drop, data_with_words.
Qed.

(** The chain of a main entry: the entry and the part of the entries behind the main
    arena that have its rank. *)
Lemma linked_chain i p e :
  vec !! i = Some p -> mains !! i = Some e ->
  exists l es a b, chain h p l /\ view l h es /\ data <$> es = data <$> (e :: take b (drop a fs)) /\
    forall q e', fs !! q = Some e' -> rk e' = i -> (a <= q < a + b)%nat.
Proof.
  intros Hp He. apply lookup_lt_Some in He as Hi. destruct (chain_view i p e Hp He) as (es & Hv & Hd).
  do 4 eexists. split; [by apply main_chain|]. split; [exact Hv|]. split; [exact Hd|].
  intros q e' Hq Hr. by eapply chain_ranks.
Qed.
End linked.
End overflow.
