(* ===== verification/JoinProbe.v ===== *)
(** * What a join table finds

    Probing a built [JoinHashTable] yields the tuples inserted with the hash that the
    key comparison accepts, whichever of the two indexes was built. *)
From S2P Require Import Prelude HashTables JoinTable ConciseBits ReorderCells ReorderMain ReorderOverflow.
Import JoinHashTable.

(** ** Walking a chain *)

Section probing.
Context {A : Type}.
Implicit Types (h : entries A) (l : list Z) (rows : list (Z * A)).

(** The tuples of [rows] a probe selects. *)
Definition selected (key_eq : A -> bool) (hash : Z) rows : list A :=
  snd <$> filter (fun r => r.1 = hash /\ key_eq r.2 = true) rows.

Definition data_at h (l : list Z) : list (Z * A) := omap (fun p => data <$> h !! p) l.

Lemma data_at_app h l l' : data_at h (l ++ l') = data_at h l ++ data_at h l'.
Proof. apply omap_app. Qed.

Lemma data_at_same h h' l : same_data h h' -> data_at h' l = data_at h l.
Proof. intros Hs. apply list_omap_ext. apply Forall_Forall2_diag, Forall_forall. intros p _. apply Hs. Qed.

Lemma data_at_view h l es : view l h es -> data_at h l = data <$> es.
Proof. induction 1 as [|p e l es Hp _ IH]; [done|]. cbn. rewrite Hp. cbn. f_equal. exact IH. Qed.

Lemma selected_app key_eq hash rows rows' :
  selected key_eq hash (rows ++ rows') = selected key_eq hash rows ++ selected key_eq hash rows'.
Proof. unfold selected. by rewrite filter_app, fmap_app. Qed.

#[export] Instance selected_perm key_eq hash : Proper ((≡ₚ) ==> (≡ₚ)) (selected key_eq hash).
Proof. intros rows rows' Hp. unfold selected. by rewrite Hp. Qed.

Lemma selected_none key_eq hash rows : (forall r, r ∈ rows -> r.1 <> hash) -> selected key_eq hash rows = [].
Proof.
  intros Hr. unfold selected. rewrite filter_none; [done|]. apply Forall_forall. intros r Hin [E _]. by apply (Hr r).
Qed.

Lemma selected_cons key_eq hash h p e l :
  h !! p = Some e ->
  selected key_eq hash (data_at h (p :: l)) =
    if decide (hash_ e = hash /\ key_eq (payload_ e) = true) then payload_ e :: selected key_eq hash (data_at h l)
    else selected key_eq hash (data_at h l).
Proof.
  intros Hp. unfold data_at, selected. cbn [omap list_omap]. rewrite Hp. cbn [fmap option_fmap option_map].
  rewrite filter_cons. cbn [data fst snd]. by case_decide.
Qed.

Lemma HasNext_spec fuel key_eq hash p h l :
  chain h p l -> (length l <= fuel)%nat ->
  (HasNext fuel key_eq hash p h = Some 0 /\ selected key_eq hash (data_at h l) = []) \/
  exists q e l', HasNext fuel key_eq hash p h = Some q /\ q <> 0 /\ h !! q = Some e /\ chain h (word_ e) l' /\
    (length l' < length l)%nat /\
    selected key_eq hash (data_at h l) = payload_ e :: selected key_eq hash (data_at h l').
Proof.
  intros Hc. revert fuel. induction Hc as [|p e l Hp Hl Hc IH]; intros fuel Hf.
  - left. by destruct fuel.
  - destruct fuel as [|fuel]; [cbn in Hf; lia|]. cbn [HasNext]. rewrite decide_False, Hl by done. cbn [mbind option_bind].
    rewrite (selected_cons _ _ _ _ _ _ Hl).
    destruct (decide (hash_ e = hash /\ key_eq (payload_ e) = true)) as [Hm|Hm].
    + right. exists p, e, l. split_and!; try done. cbn. lia.
    + cbn in Hf. destruct (IH fuel ltac:(lia)) as [Hn|(q & e' & l' & Hq & Hq0 & He' & Hc' & Hlt & Hs)]; [by left|].
      right. exists q, e', l'. split_and!; try done. cbn. lia.
Qed.

Lemma matches_spec fuel key_eq hash p h l :
  chain h p l -> (length l <= fuel)%nat -> (length l <= size h)%nat ->
  matches fuel key_eq hash p h = Some (selected key_eq hash (data_at h l)).
Proof.
  revert p l. induction fuel as [|fuel IH]; intros p l Hc Hf Hs; cbn [matches].
  all: destruct (HasNext_spec _ key_eq hash p h l Hc Hs) as [[-> ->]|(q & e & l' & -> & Hq & He & Hc' & Hlt & ->)];
    [done|]; cbn [mbind option_bind]; rewrite decide_False by done.
  - lia.
  - rewrite He. cbn [mbind option_bind]. rewrite (IH _ _ Hc') by lia. done.
Qed.

(** [Lookup] skips entries with other hashes. *)
Lemma skip_to_spec fuel hash p h l :
  chain h p l -> (length l <= fuel)%nat ->
  exists q l', skip_to fuel hash p h = Some q /\ chain h q l' /\ (length l' <= length l)%nat /\
    forall key_eq, selected key_eq hash (data_at h l) = selected key_eq hash (data_at h l').
Proof.
  intros Hc. revert fuel. induction Hc as [|p e l Hp Hl Hc IH]; intros fuel Hf.
  - exists 0, []. destruct fuel; split_and!; try done; constructor.
  - destruct fuel as [|fuel]; [cbn in Hf; lia|]. cbn [skip_to]. rewrite decide_False, Hl by done. cbn [mbind option_bind].
    case_decide as Hh.
    + exists p, (p :: l). split_and!; try done. by econstructor.
    + cbn in Hf. destruct (IH fuel ltac:(lia)) as (q & l' & -> & Hc' & Hlt & Hs). exists q, l'.
      split_and!; try done; [cbn; lia|]. intros key_eq. rewrite <-Hs.
      by rewrite (selected_cons _ _ _ _ _ _ Hl), decide_False by (by intros [? _]).
Qed.
End probing.

(** ** The bucket-chained index *)

Section generic.
Context {A : Type} `{LlvmMathLaws}.
Implicit Types (h : entries A) (g : GenericHashTable.t).

Lemma insert_all_spec ps h g cs :
  GenericTable.holds h g cs -> NoDup ps ->
  Forall (fun p => p <> 0 /\ p ∉ concat cs /\ is_Some (h !! p)) ps ->
  exists h' g' cs', insert_all ps h g = Some (h', g') /\ GenericTable.holds h' g' cs' /\
    concat cs' ≡ₚ concat cs ++ ps /\ same_data h h' /\ (forall q, q ∉ ps -> h' !! q = h !! q) /\
    GenericHashTable.capacity_ g' = GenericHashTable.capacity_ g /\
    GenericHashTable.num_elems_ g' = GenericHashTable.num_elems_ g + Z.of_nat (length ps).
Proof.
  revert h g cs. induction ps as [|p ps IH]; intros h g cs Hh Hnd Hps; cbn [insert_all].
  - exists h, g, cs. rewrite app_nil_r. cbn. by rewrite Z.add_0_r.
  - apply NoDup_cons in Hnd as [Hp Hnd]. apply Forall_cons in Hps as [(Hp0 & Hpc & [e He]) Hps].
    rewrite He. cbn [mbind option_bind].
    destruct (GenericTable.Insert_holds _ _ _ _ _ Hh He Hp0 Hpc) as (old & g1 & l & -> & Hl & Hh1 & _ & Hcap & Hnum).
    cbn [mbind option_bind]. pose proof (GenericTable.concat_alter_cons cs _ _ p Hl) as Hperm.
    destruct (IH _ _ _ Hh1 Hnd) as (h2 & g2 & cs2 & -> & Hh2 & Hp2 & Hs2 & Hfr & Hcap2 & Hnum2).
    + rewrite Forall_forall in Hps. apply Forall_forall. intros q Hq. destruct (Hps q Hq) as (Hq0 & Hqc & Hqs).
      split; [done|]. split.
      * rewrite Hperm, not_elem_of_cons. split; [|done]. by intros ->.
      * rewrite lookup_insert_ne; [done|]. by intros ->.
    + exists h2, g2, cs2. split; [done|]. split; [done|]. split_and!.
      * rewrite Hp2, Hperm. by rewrite <-Permutation_middle.
      * etransitivity; [|done]. by apply same_data_set_word.
      * intros q [Hqp Hq]%not_elem_of_cons. rewrite Hfr by done. by rewrite lookup_insert_ne.
      * congruence.
      * rewrite Hnum2, Hnum. cbn [length]. lia.
Qed.

(** Only the bucket of a hash has entries with it. *)
Lemma selected_bucket h g cs hash l key_eq :
  GenericTable.holds h g cs -> cs !! GenericHashTable.bucket hash g = Some l ->
  selected key_eq hash (data_at h (concat cs)) = selected key_eq hash (data_at h l).
Proof.
  intros (Hwf & Hlen & Hnd & Hb) Hl. pose proof (take_drop_middle _ _ _ Hl) as Hmid.
  assert (forall i l', cs !! i = Some l' -> i <> GenericHashTable.bucket hash g ->
    forall r, r ∈ data_at h l' -> r.1 <> hash) as Hother.
  { intros i l' Hi Hne r Hr. apply list_elem_of_omap in Hr as (q & Hq & Hd).
    apply fmap_Some in Hd as (e & He & ->). cbn. intros <-. apply Hne. symmetry.
    destruct (lookup_lt_is_Some_2 (GenericHashTable.entries_ g) i) as [p Hp].
    { rewrite <-Hlen. by eapply lookup_lt_Some. }
    by apply (proj2 (Hb i p l' Hp Hi) q). }
  assert (forall ls, (forall l', l' ∈ ls -> exists i, cs !! i = Some l' /\ i <> GenericHashTable.bucket hash g) ->
    selected key_eq hash (data_at h (concat ls)) = []) as Hnone.
  { induction ls as [|l' ls IH]; intros Hls; [done|]. cbn [concat]. rewrite data_at_app, selected_app.
    rewrite IH by (intros; apply Hls; by right). destruct (Hls l' ltac:(by left)) as (i & Hi & Hne).
    by rewrite (selected_none _ _ (data_at h l')) by (by eapply Hother). }
  rewrite <-Hmid, concat_app. cbn [concat]. rewrite !data_at_app, !selected_app, !Hnone; [by rewrite app_nil_r| |].
  - intros l' [i Hi]%list_elem_of_lookup. rewrite lookup_drop in Hi. eexists. split; [done|lia].
  - intros l' [i Hi]%list_elem_of_lookup. apply lookup_take_Some in Hi as [Hi Hlt]. eexists. split; [done|lia].
Qed.

Lemma probe_holds h x cs key_eq hash :
  GenericTable.holds h (generic_hash_table_ x) cs -> use_concise_ht_ x = false ->
  probe key_eq hash h x = Some (selected key_eq hash (data_at h (concat cs))).
Proof.
  intros Hh Hu. unfold probe, Lookup. rewrite Hu.
  destruct (GenericTable.holds_bucket _ _ _ hash Hh) as (p & l & -> & Hl & Hc). cbn [mbind option_bind].
  pose proof (bucket_chain_length _ _ _ Hc) as Hsz.
  destruct (skip_to_spec _ hash _ _ _ Hc Hsz) as (q & l' & -> & Hc' & Hlen & Hs). cbn [mbind option_bind].
  rewrite (matches_spec _ _ _ _ _ _ Hc') by lia. rewrite (selected_bucket _ _ _ _ _ _ Hh Hl). by rewrite Hs.
Qed.
End generic.

(** ** The concise index *)

Section concise.
Context {A : Type} `{LlvmMathLaws}.
Notation entry := (HashTableEntry A).
Implicit Types (h : entries A) (es : list entry).
Import ConciseHashTable.

Notation total c := (cnt (filled (slot_groups_ c)) 0 (slots (slot_groups_ c)) + num_overflow_ c).

(** An entry with its slot. *)
Definition slotted (mask : Z) (e : entry) : entry := set_word (Z.land (hash_ e) mask) e.

Lemma InsertInto_spec ps h c es :
  NoDup ps -> view ps h es -> wf c -> 0 <= num_overflow_ c -> total c + Z.of_nat (length ps) < 2 ^ 32 ->
  exists h' c', InsertIntoConciseHashTable ps h c = Some (h', c') /\
    view ps h' (slotted (slot_mask_ c) <$> es) /\ (forall p, p ∉ ps -> h' !! p = h !! p) /\
    wf c' /\ slot_mask_ c' = slot_mask_ c /\ slots (slot_groups_ c') = slots (slot_groups_ c) /\
    built_ c' = built_ c /\ 0 <= num_overflow_ c' /\ total c' = total c + Z.of_nat (length ps) /\
    forall s, 0 <= s -> filled (slot_groups_ c') s = true <->
      filled (slot_groups_ c) s = true \/ exists e, e ∈ es /\ slot_of c (hash_ e) = s.
Proof.
  revert es h c. induction ps as [|p ps IH]; intros es h c Hnd Hv Hwf H0 Hlt; inversion Hv as [|p' e ps' es' Hp Hv']; subst;
    cbn [InsertIntoConciseHashTable].
  - exists h, c. split_and!; try done; [cbn; lia|]. intros s Hs. split; [by left|].
    intros [|(e & He & _)]; [done|]. by apply not_elem_of_nil in He.
  - apply NoDup_cons in Hnd as [Hpn Hnd]. rewrite Hp. cbn [mbind option_bind].
    destruct (Insert_spec (hash_ e) c Hwf) as (c1 & Hins & Hwf1 & Hm1 & Hs1 & Hb1 & Hf1 & _). cbn [length] in Hlt.
    destruct (Insert_count (hash_ e) c c1 _ Hwf Hins eq_refl H0 ltac:(lia)) as [Ht1 H01]. rewrite Hins. cbn [mbind option_bind].
    set (h1 := <[p := set_word (slot_of c (hash_ e)) e]> h).
    assert (view ps h1 es') as Hv1.
    { eapply view_frame; [|done]. intros q Hq. unfold h1. rewrite lookup_insert_ne; [done|]. by intros ->. }
    destruct (IH es' h1 c1 Hnd Hv1 Hwf1 H01 ltac:(lia)) as (h2 & c2 & -> & Hv2 & Hfr & Hwf2 & Hm2 & Hs2 & Hb2 & H02 & Ht2 & Hf2).
    exists h2, c2. split; [done|]. split.
    { cbn [fmap list_fmap]. constructor; [|by rewrite <-Hm1]. rewrite Hfr by done. unfold h1. by rewrite lookup_insert_eq. }
    split.
    { intros q Hq. apply not_elem_of_cons in Hq as [Hqp Hq]. rewrite Hfr by done. unfold h1. by rewrite lookup_insert_ne. }
    split_and!; [done|congruence|congruence|congruence|done|cbn [length]; lia|].
    assert (forall x, slot_of c1 x = slot_of c x) as Hso by (intros x; unfold slot_of; by rewrite Hm1).
    intros s Hs. rewrite Hf2, Hf1 by done. rewrite orb_true_iff, bool_decide_eq_true. setoid_rewrite Hso.
    setoid_rewrite elem_of_cons. naive_solver.
Qed.

Lemma slotted_filled c c' es s :
  filled_slots (slot_groups_ c) = [] -> 0 <= s ->
  (forall s, 0 <= s -> filled (slot_groups_ c') s = true <->
      filled (slot_groups_ c) s = true \/ exists e, e ∈ es /\ slot_of c (hash_ e) = s) ->
  filled (slot_groups_ c') s = true <-> exists e, e ∈ slotted (slot_mask_ c) <$> es /\ word_ e = s.
Proof.
  intros Hempty Hs ->; [|done]. split.
  - intros [Hf|(e & He & Hes')].
    + pose proof (filled_bound _ _ Hf Hs). assert (s ∈ filled_slots (slot_groups_ c)) as Hin by (by apply elem_of_filled_slots).
      rewrite Hempty in Hin. by apply not_elem_of_nil in Hin.
    + exists (slotted (slot_mask_ c) e). split; [by apply list_elem_of_fmap_2|done].
  - intros (e & (e0 & -> & He0)%list_elem_of_fmap & <-). right. by exists e0.
Qed.

(** *** Ranks *)

Section ranks.
Context (vec : list Z) (orig : list entry) (c c' : t).
Context (c_wf : wf c) (c_built : built c c').
Context (c_total : cnt (filled (slot_groups_ c)) 0 (slots (slot_groups_ c)) < 2 ^ 32).
Context (orig_slot : forall e, e ∈ orig -> word_ e = slot_of c (hash_ e)).
Context (orig_filled : forall s, 0 <= s -> filled (slot_groups_ c) s = true <-> exists e, e ∈ orig /\ word_ e = s).

Definition rank_of (e : entry) : nat := Z.to_nat (rank (slot_groups_ c) (word_ e)).
Notation m := (length (filled_slots (slot_groups_ c))).

Lemma slot_bounds e : e ∈ orig -> 0 <= word_ e < slots (slot_groups_ c) /\ filled (slot_groups_ c) (word_ e) = true.
Proof.
  intros He. pose proof (slot_of_bound c (hash_ e) c_wf) as Hb. rewrite <-orig_slot in Hb by done.
  split; [done|]. apply orig_filled; [lia|eauto].
Qed.

Lemma rank_of_spec e : e ∈ orig -> Z.of_nat (rank_of e) = rank (slot_groups_ c) (word_ e) /\ (rank_of e < m)%nat.
Proof.
  intros He. destruct (slot_bounds e He) as [Hb Hf]. pose proof (rank_bound _ _ Hf Hb). unfold rank_of. lia.
Qed.

Lemma rank_clean e : e ∈ orig -> clean e /\ (rank_of e < m)%nat.
Proof.
  intros He. split; [|by apply rank_of_spec]. destruct (slot_bounds e He) as [Hb _].
  destruct c_wf as (_ & _ & k & Hk & _ & Hs). unfold clean. rewrite Hs in Hb.
  assert (2 ^ k <= 2 ^ 62) by (apply Z.pow_le_mono_r; lia). lia.
Qed.

Lemma rank_cover r : (r < m)%nat -> exists e, e ∈ orig /\ rank_of e = r.
Proof.
  intros Hr. destruct (lookup_lt_is_Some_2 _ _ Hr) as [s Hs].
  assert (filled (slot_groups_ c) s = true /\ 0 <= s < slots (slot_groups_ c)) as [Hf Hb]
    by (apply elem_of_filled_slots; by eapply list_elem_of_lookup_2).
  destruct (proj1 (orig_filled s ltac:(lia)) Hf) as (e & He & Hw). exists e. split; [done|].
  pose proof (filled_slots_rank _ _ Hf Hb) as Hrk. unfold rank_of. rewrite Hw.
  by eapply NoDup_lookup; [apply NoDup_filled_slots|..].
Qed.

Lemma rank_parent e : e ∈ orig -> parent_of c' vec e = vec !! rank_of e.
Proof.
  intros He. destruct (slot_bounds e He) as [Hb _]. unfold parent_of.
  by rewrite (NumFilledSlotsBefore_spec c c').
Qed.

Lemma rank_words e e' : e ∈ orig -> e' ∈ orig -> rank_of e = rank_of e' <-> word_ e = word_ e'.
Proof.
  intros He He'. split; [|by intros E; unfold rank_of; rewrite E]. intros E.
  destruct (slot_bounds e He) as [Hb Hf], (slot_bounds e' He') as [Hb' Hf'].
  eapply rank_inj; try done. rewrite <-(proj1 (rank_of_spec e He)), <-(proj1 (rank_of_spec e' He')). congruence.
Qed.

(** *** Looking up *)

Lemma selected_slice (l : list entry) hash key_eq a b :
  (forall q e, l !! q = Some e -> hash_ e = hash -> (a <= q < a + b)%nat) ->
  selected key_eq hash (data <$> l) = selected key_eq hash (data <$> take b (drop a l)).
Proof.
  intros Hq. rewrite <-(take_drop a l) at 1. rewrite <-(take_drop b (drop a l)) at 1.
  rewrite !fmap_app, !selected_app. rewrite (selected_none _ _ (data <$> take a l)), (selected_none _ _ (data <$> drop b _));
    [by rewrite app_nil_r| |].
  - intros r (e & -> & He)%list_elem_of_fmap. apply list_elem_of_lookup in He as [i Hi].
    rewrite drop_drop, lookup_drop in Hi. intros E. apply (Hq _ _ Hi) in E. lia.
  - intros r (e & -> & He)%list_elem_of_fmap. apply list_elem_of_lookup in He as [i Hi].
    apply lookup_take_Some in Hi as [Hi Hlt]. intros E. apply (Hq _ _ Hi) in E. lia.
Qed.
End ranks.

(** *** The whole build *)

Context (vec : list Z) (vec_nodup : NoDup vec) (vec_nonzero : forall p, p ∈ vec -> p <> 0).
Context (vec_size : 0 < Z.of_nat (length vec) < 2 ^ 29).

(** The index [c'] of the entries [mains] and [fs] behind them: a filled slot is at its
    rank in [mains], and the chain from there has all entries of the slot. *)
Record indexed h (c c' : t) (mains fs : list entry) : Prop := {
  ix_wf : wf c;
  ix_built : built c c';
  ix_total : cnt (filled (slot_groups_ c)) 0 (slots (slot_groups_ c)) < 2 ^ 32;
  ix_slot : forall e, e ∈ mains ++ fs -> word_ e = slot_of c (hash_ e);
  ix_filled : forall s, 0 <= s -> filled (slot_groups_ c) s = true <-> exists e, e ∈ mains ++ fs /\ word_ e = s;
  ix_mains : forall i e, mains !! i = Some e -> rank_of c e = i;
  ix_length : length mains = length (filled_slots (slot_groups_ c)) /\ (length mains <= length vec)%nat;
  ix_chain : forall i p e, vec !! i = Some p -> mains !! i = Some e ->
    exists l es a b, chain h p l /\ view l h es /\ data <$> es = data <$> (e :: take b (drop a fs)) /\
      forall q e', fs !! q = Some e' -> rank_of c e' = i -> (a <= q < a + b)%nat;
}.

Lemma BuildConcise_indexed h x es :
  view vec h es -> entries_ x = vec -> 0 < entry_size_ x <= 8192 -> concise_hash_table_ x = make 0 ->
  exists h' c c' mains fs, BuildConciseHashTable h x = Some (h', set_concise c' x) /\
    indexed h' c c' mains fs /\ data <$> (mains ++ fs) ≡ₚ data <$> es.
Proof.
  intros Hv Hvec Hes Hc. unfold BuildConciseHashTable, NumElements. rewrite Hvec, Hc, wrapu_small by (unfold is_uint; lia).
  destruct (SetSize_wf (Z.of_nat (length vec)) (make 0) vec_size eq_refl) as [Hwf0 Hempty].
  set (c0 := SetSize (Z.of_nat (length vec)) (make 0)) in *.
  assert (cnt (filled (slot_groups_ c0)) 0 (slots (slot_groups_ c0)) = 0) as Hc0
    by (rewrite <-length_filled_slots, Hempty; done).
  destruct (InsertInto_spec vec h c0 es vec_nodup Hv Hwf0) as
    (h1 & c1 & -> & Hv1 & _ & Hwf1 & Hm1 & _ & Hb1 & H01 & Ht1 & Hf1); [done|rewrite Hc0; cbn; lia|].
  assert (num_overflow_ c0 = 0) as Hn0 by done. rewrite Hc0, Hn0 in Ht1. cbn [mbind option_bind].
  destruct (Build_spec c1 Hwf1) as (c2 & Hbuilt); [by rewrite Hb1|lia|].
  pose proof Hbuilt as (-> & _ & _ & Hn2 & _). cbn [mbind option_bind].
  set (orig := slotted (slot_mask_ c0) <$> es) in *. set (gs := slot_groups_ c1) in *.
  assert (length orig = length vec) as Hlen by (unfold orig; rewrite length_fmap; symmetry; by eapply view_length).
  assert (forall e, e ∈ orig -> word_ e = slot_of c1 (hash_ e)) as Hslot.
  { intros e (e0 & -> & _)%list_elem_of_fmap. unfold slot_of. by rewrite Hm1. }
  assert (forall s, 0 <= s -> filled gs s = true <-> exists e, e ∈ orig /\ word_ e = s) as Hfill
    by (intros s Hs; by apply slotted_filled).
  assert (cnt (filled gs) 0 (slots gs) < 2 ^ 32) as Htot by lia.
  pose proof (length_filled_slots gs) as Hlf.
  pose proof (rank_clean orig c1 Hwf1 Hslot Hfill) as Hclean.
  pose proof (rank_parent vec orig c1 c2 Hwf1 Hbuilt Htot Hslot Hfill) as Hparent.
  destruct (ReorderMainEntries_spec vec vec_nodup orig (rank_of c1) (length (filled_slots gs)) c2 Hlen ltac:(lia)
    Hclean (rank_cover orig c1 Hfill) Hparent h1 (set_concise c2 x) Hv1 Hes Hvec eq_refl)
    as (h2 & mains & overs & -> & Hv2 & Hlm & Hperm & Hrk); [lia|]. cbn [mbind option_bind].
  assert (length vec = length mains + length overs)%nat as Hvl by (by rewrite <-Hlen, <-Hperm, length_app).
  assert (forall e, e ∈ overs -> e ∈ orig) as Hov by (intros e He; rewrite <-Hperm; apply elem_of_app; by right).
  assert (forall e, e ∈ overs -> clean e /\ (rank_of c1 e < length mains)%nat) as Hoc
    by (intros e He; rewrite Hlm; apply Hclean, Hov, He).
  destruct (ReorderOverflowEntries_spec vec vec_nodup mains overs (rank_of c1) c2 Hvl ltac:(lia) Hoc
    (fun e He => Hparent e (Hov e He)) (fun e e' He He' => rank_words orig c1 Hwf1 Hslot Hfill e e' (Hov e He) (Hov e' He'))
    h2 (set_concise c2 x) Hv2 Hes Hvec eq_refl) as (h3 & fs & -> & Hfs & Hv3 & Hrange); [lia|].
  assert (mains ++ fs ≡ₚ orig) as Hmf by (by rewrite Hfs).
  exists h3, c1, c2, mains, fs. split; [done|]. split; [split; try done|].
  - intros e. rewrite Hmf. apply Hslot.
  - intros s Hs. etransitivity; [exact (Hfill s Hs)|]. by setoid_rewrite Hmf.
  - split; [done|lia].
  - intros i p e Hp He. by eapply linked_chain.
  - rewrite Hmf. unfold orig. rewrite <-list_fmap_compose. done.
Qed.

Lemma indexed_probe h x c mains fs key_eq hash :
  indexed h c (concise_hash_table_ x) mains fs -> entries_ x = vec -> use_concise_ht_ x = true ->
  exists l, JoinHashTable.probe key_eq hash h x = Some l /\ l ≡ₚ selected key_eq hash (data <$> (mains ++ fs)).
Proof.
  intros Hix Hvec Hu. unfold JoinHashTable.probe, JoinHashTable.Lookup. rewrite Hu, Hvec.
  rewrite (Lookup_spec c _ hash (ix_built _ _ _ _ _ Hix) (ix_wf _ _ _ _ _ Hix) (ix_total _ _ _ _ _ Hix)).
  cbn [mbind option_bind]. pose proof (slot_of_bound c hash (ix_wf _ _ _ _ _ Hix)) as Hb.
  destruct (filled (slot_groups_ c) (slot_of c hash)) eqn:Hf.
  - pose proof (rank_bound _ _ Hf Hb) as Hrb. destruct (ix_length _ _ _ _ _ Hix) as [Hl1 Hl2].
    set (i := Z.to_nat (rank (slot_groups_ c) (slot_of c hash))).
    destruct (lookup_lt_is_Some_2 vec i ltac:(lia)) as [p Hp].
    destruct (lookup_lt_is_Some_2 mains i ltac:(lia)) as [e He]. rewrite Hp. cbn [mbind option_bind].
    destruct (ix_chain _ _ _ _ _ Hix i p e Hp He) as (l & es & a & b & Hc & Hv & Hd & Hq).
    pose proof (bucket_chain_length _ _ _ Hc). rewrite (matches_spec _ _ _ _ _ _ Hc) by done. eexists. split; [done|].
    rewrite (data_at_view _ _ _ Hv), Hd. cbn [fmap list_fmap].
    assert (forall e', e' ∈ mains ++ fs -> hash_ e' = hash -> rank_of c e' = i) as Hri.
    { intros e' He' <-. unfold rank_of, i. by rewrite (ix_slot _ _ _ _ _ Hix). }
    rewrite fmap_app, selected_app, (selected_slice mains _ _ i 1), (selected_slice fs _ _ a b).
    + rewrite (drop_S _ _ _ He), <-selected_app. done.
    + intros q e' Hqe Hh. eapply Hq; [done|]. apply Hri; [|done]. apply elem_of_app. right. by eapply list_elem_of_lookup_2.
    + intros q e' Hqe Hh. rewrite <-(ix_mains _ _ _ _ _ Hix _ _ Hqe), (Hri e'); [lia| |done].
      apply elem_of_app. left. by eapply list_elem_of_lookup_2.
  - cbn [mbind option_bind]. rewrite (matches_spec _ _ _ _ _ []) by (constructor || cbn; lia). eexists. split; [done|].
    rewrite (selected_none _ _ (data <$> (mains ++ fs))); [done|]. intros r (e & -> & He)%list_elem_of_fmap Hh. cbn in Hh.
    assert (filled (slot_groups_ c) (slot_of c hash) = true) as Ht; [|congruence].
    apply (ix_filled _ _ _ _ _ Hix); [lia|]. exists e. split; [done|]. rewrite (ix_slot _ _ _ _ _ Hix) by done. by rewrite Hh.
Qed.
End concise.

(** ** Building and probing *)

Section joins.
Context {A : Type} `{LlvmMathLaws} (exceeds : Z -> Z -> bool).
Implicit Types (h : entries A) (ins : list (Z * (Z * A))).

(** The build side: the entries at the addresses the vector gives out, with the hashes
    and tuples written to them. *)
Fixpoint build_side ins h x : entries A * t :=
  match ins with
  | [] => (h, x)
  | (p, (hash, tuple)) :: ins => let '(h, x) := AllocInputTuple p hash tuple h x in build_side ins h x
  end.

Lemma build_side_spec ins h x h' x' es :
  build_side ins h x = (h', x') -> NoDup (entries_ x ++ ins.*1) -> view (entries_ x) h es ->
  exists es', view (entries_ x') h' es' /\ data <$> es' = (data <$> es) ++ ins.*2 /\
    x' = set_entries (entries_ x ++ ins.*1) x.
Proof.
  revert h x es. induction ins as [|[p [hash tuple]] ins IH]; intros h x es Hb Hnd Hv; cbn in Hb.
  - simplify_eq. exists es. rewrite !app_nil_r. by destruct x'.
  - cbn in Hnd. assert (p ∉ entries_ x) as Hp.
    { apply NoDup_app in Hnd as (_ & Hd & _). intros Hin. apply (Hd p Hin). by left. }
    destruct (IH _ _ (es ++ [mkEntry 0 hash tuple]) Hb) as (es' & Hv' & Hd & ->).
    + cbn. by rewrite <-app_assoc.
    + cbn. apply view_app. exists es, [mkEntry 0 hash tuple]. split; [done|]. split.
      * eapply view_frame; [|done]. intros q Hq. rewrite lookup_insert_ne; [done|]. by intros ->.
      * constructor; [|constructor]. by rewrite lookup_insert_eq.
    + exists es'. split; [done|]. rewrite Hd, fmap_app. cbn. rewrite <-!app_assoc. done.
Qed.

Lemma Build_generic_probe h x es :
  NoDup (entries_ x) -> (forall p, p ∈ entries_ x -> p <> 0) -> view (entries_ x) h es ->
  0 < Z.of_nat (length (entries_ x)) < 2 ^ 29 -> use_concise_ht_ x = false ->
  exists h' x', BuildGenericHashTable exceeds h x = Some (h', x') /\ forall key_eq hash,
    exists l, probe key_eq hash h' (set_built x') = Some l /\ l ≡ₚ selected key_eq hash (data <$> es).
Proof.
  intros Hnd H0 Hv Hlen Hu. unfold BuildGenericHashTable, NumElements.
  destruct (GenericTable.generic_SetSize_wf exceeds (Z.of_nat (length (entries_ x))) ltac:(lia)) as (g & -> & Hwf & He & _).
  cbn [mbind option_bind]. pose proof (GenericTable.holds_empty h g Hwf He) as Hh.
  destruct (insert_all_spec (entries_ x) h g _ Hh Hnd) as (h' & g' & cs & -> & Hh' & Hp & Hs & _).
  { apply Forall_forall. intros p Hin. split; [by apply H0|]. split.
    - rewrite GenericTable.concat_replicate_nil. apply not_elem_of_nil.
    - apply list_elem_of_lookup in Hin as [i Hi]. destruct (view_lookup _ _ _ _ _ Hv Hi) as (e & _ & ->). eauto. }
  cbn [mbind option_bind]. do 2 eexists. split; [done|]. intros key_eq hash.
  rewrite (probe_holds h' _ cs) by done. eexists. split; [done|].
  rewrite GenericTable.concat_replicate_nil in Hp. cbn in Hp.
  rewrite (data_at_same h h') by done. rewrite <-(data_at_view _ _ _ Hv). unfold data_at. by rewrite Hp.
Qed.

(** C18: Whatever index is built, probing a join table yields exactly the tuples of the
    build side that have the hash and that the key comparison accepts, each as often as
    it was inserted. *)
Theorem join_probe (tuple_size : Z) (use_concise_ht : bool) (ins : list (Z * (Z * A))) (h0 h : entries A) (x : t) :
  NoDup ins.*1 -> Forall (fun p => p <> 0) ins.*1 -> 0 < Z.of_nat (length ins) < 2 ^ 29 -> 0 <= tuple_size <= 8176 ->
  build_side ins h0 (make tuple_size use_concise_ht) = (h, x) ->
  exists h' x', Build exceeds h x = Some (h', x') /\ built_ x' = true /\
    forall key_eq hash, exists l, probe key_eq hash h' x' = Some l /\ l ≡ₚ selected key_eq hash ins.*2.
Proof.
  intros Hnd H0 Hlen Hts Hb.
  destruct (build_side_spec ins h0 _ h x [] Hb Hnd ltac:(constructor)) as (es & Hv & Hd & Hx).
  cbn [entries_ make app] in Hx. rewrite Forall_forall in H0.
  assert (entries_ x = ins.*1) as Hvec by (by rewrite Hx). rewrite Hvec in Hv. unfold Build.
  replace (built_ x) with false by (by rewrite Hx). replace (use_concise_ht_ x) with use_concise_ht by (by rewrite Hx).
  rewrite <-(length_fmap fst) in Hlen. cbn in Hd. rewrite <-Hd. destruct use_concise_ht.
  - destruct (BuildConcise_indexed ins.*1 Hnd H0 Hlen h x es Hv Hvec) as (h' & c & c' & mains & fs & -> & Hix & Hperm);
      [rewrite Hx; cbn; lia|by rewrite Hx|].
    cbn [mbind option_bind]. do 2 eexists. split; [done|]. split; [done|]. intros key_eq hash.
    destruct (indexed_probe ins.*1 Hlen h' (set_built (set_concise c' x)) c mains fs key_eq hash) as (l & Hl & Hpl);
      [exact Hix|by rewrite Hx|by rewrite Hx|]. exists l. split; [exact Hl|]. by rewrite <-Hperm.
  - destruct (Build_generic_probe h x es) as (h' & x' & -> & Hp); [by rewrite Hvec|by rewrite Hvec|by rewrite Hvec|by rewrite Hvec|by rewrite Hx|].
    cbn [mbind option_bind]. do 2 eexists. split; [done|]. split; [done|]. apply Hp.
Qed.
End joins.

(** The join of three tuples, two of which share a slot of the concise table. *)
Lemma join_probe_witness :
  exists h' x', Build (fun _ _ => false) (build_side [(16, (5, 10)); (48, (4101, 20)); (80, (5, 30))] ∅ (make 8 true)).1
      (build_side [(16, (5, 10)); (48, (4101, 20)); (80, (5, 30))] ∅ (make 8 true)).2 = Some (h', x') /\
    exists l, probe (fun _ => true) 5 h' x' = Some l /\ l ≡ₚ [10; 30].
Proof.
  destruct (join_probe (fun _ _ => false) 8 true [(16, (5, 10)); (48, (4101, 20)); (80, (5, 30))] ∅
    (build_side [(16, (5, 10)); (48, (4101, 20)); (80, (5, 30))] ∅ (make 8 true)).1
    (build_side [(16, (5, 10)); (48, (4101, 20)); (80, (5, 30))] ∅ (make 8 true)).2) as (h' & x' & HB & _ & Hp).
  - cbn. by repeat constructor; set_solver.
  - by repeat constructor.
  - done.
  - done.
  - done.
  - exists h', x'. split; [exact HB|]. exact (Hp (fun _ => true) 5).
Defined.
