(* ===== verification/JoinMerge.v ===== *)
(** * Merging join tables in parallel

    [JoinHashTable::MergeParallel]: one task for each thread-local table inserts its
    entries into the directory of the global table, with a compare-and-swap of the
    bucket head.  The steps of the tasks are interleaved in any order; the swap may
    fail without reason, as the weak one does.  The count of elements is no atomic
    variable: reading and writing it are two steps.

    The estimate of the number of elements is the estimator's. *)
From S2P Require Import Prelude HashTables JoinTable ReorderCells JoinProbe.

Module MergeParallel.
Import GenericHashTable.

(** Where a task is in [Insert<true>] for the first of its entries: the head it loaded,
    the head it linked the entry to, or after the swap, at the count. *)
Inductive phase := Idle | Loaded (old_entry : Z) | Linked (old_entry : Z) | Swapped | Counting (n : Z).

Record task := mkTask { todo : list Z; at_ : phase }.

Record state (A : Type) := mkState { heap : entries A; table : GenericHashTable.t; tasks : list task }.
Arguments mkState {A}.
Arguments heap {A}.
Arguments table {A}.
Arguments tasks {A}.

Section steps.
Context {A : Type}.
Implicit Types (h : entries A) (s : state A).

Definition set_num (n : Z) (x : t) : t := mk (entries_ x) (mask_ x) (capacity_ x) n.
Definition set_head (hash p : Z) (x : t) : t :=
  mk (<[bucket hash x := p]> (entries_ x)) (mask_ x) (capacity_ x) (num_elems_ x).

(** One step of task [i]. *)
Inductive step : state A -> state A -> Prop :=
  | step_load h x ts i p rest e old :
      ts !! i = Some (mkTask (p :: rest) Idle) -> h !! p = Some e -> FindChainHead (hash_ e) x = Some old ->
      step (mkState h x ts) (mkState h x (<[i := mkTask (p :: rest) (Loaded old)]> ts))
  | step_link h x ts i p rest e old :
      ts !! i = Some (mkTask (p :: rest) (Loaded old)) -> h !! p = Some e ->
      step (mkState h x ts) (mkState (<[p := set_word old e]> h) x (<[i := mkTask (p :: rest) (Linked old)]> ts))
  | step_swap h x ts i p rest e old :
      ts !! i = Some (mkTask (p :: rest) (Linked old)) -> h !! p = Some e -> FindChainHead (hash_ e) x = Some old ->
      step (mkState h x ts) (mkState h (set_head (hash_ e) p x) (<[i := mkTask rest Swapped]> ts))
  | step_retry h x ts i p rest e old old' :
      ts !! i = Some (mkTask (p :: rest) (Linked old)) -> h !! p = Some e -> FindChainHead (hash_ e) x = Some old' ->
      step (mkState h x ts) (mkState h x (<[i := mkTask (p :: rest) (Loaded old')]> ts))
  | step_read h x ts i rest :
      ts !! i = Some (mkTask rest Swapped) ->
      step (mkState h x ts) (mkState h x (<[i := mkTask rest (Counting (num_elems_ x))]> ts))
  | step_write h x ts i rest n :
      ts !! i = Some (mkTask rest (Counting n)) ->
      step (mkState h x ts) (mkState h (set_num (wrapu 64 (n + 1)) x) (<[i := mkTask rest Idle]> ts)).

(** The start of the merge of tables with the given entries. *)
Definition start `{LlvmMath} (exceeds : Z -> Z -> bool) (estimate : Z) (sources : list (list Z)) h : option (state A) :=
  x ← SetSize exceeds estimate; Some (mkState h x ((fun ps => mkTask ps Idle) <$> sources)).

Definition finished s : Prop := Forall (fun k => k = mkTask [] Idle) (tasks s).
End steps.
End MergeParallel.

Section merge.
Context {A : Type} `{LlvmMathLaws}.
Import GenericHashTable MergeParallel.
Implicit Types (h : entries A) (s : state A) (ts : list task).

(** ** The invariant *)

Definition pending ts : list Z := concat (todo <$> ts).

(** A task that has linked its entry has the head it saw in it. *)
Definition task_ok h (k : task) : Prop :=
  match at_ k with
  | Idle | Swapped | Counting _ => True
  | Loaded _ => exists p rest, todo k = p :: rest
  | Linked old => exists p rest e, todo k = p :: rest /\ h !! p = Some e /\ word_ e = old
  end.

(** [all] are the entries of the sources, as they are in [h0]. *)
Record merging (h0 : entries A) (all : list Z) s : Prop := {
  mg_all : exists cs, GenericTable.holds (heap s) (table s) cs /\ concat cs ++ pending (tasks s) ≡ₚ all;
  mg_data : same_data h0 (heap s);
  mg_tasks : Forall (task_ok (heap s)) (tasks s);
}.

Lemma pending_lookup ts i k p : ts !! i = Some k -> p ∈ todo k -> p ∈ pending ts.
Proof.
  intros Hi Hp. apply GenericTable.elem_of_concat. exists i, (todo k). by rewrite list_lookup_fmap, Hi.
Qed.

Lemma pending_same ts i k k' : ts !! i = Some k -> todo k' = todo k -> pending (<[i := k']> ts) = pending ts.
Proof.
  intros Hi Ht. unfold pending. f_equal. rewrite list_fmap_insert, Ht. apply list_insert_id.
  by rewrite list_lookup_fmap, Hi.
Qed.

Lemma pending_pop ts i p rest f f' :
  ts !! i = Some (mkTask (p :: rest) f) -> pending ts ≡ₚ p :: pending (<[i := mkTask rest f']> ts).
Proof.
  intros Hi. unfold pending. rewrite list_fmap_insert. cbn [todo].
  rewrite <-(GenericTable.concat_alter_cons _ i rest p).
  - rewrite list_insert_insert_eq. rewrite list_insert_id; [done|]. by rewrite list_lookup_fmap, Hi.
  - rewrite list_lookup_insert_eq; [done|]. rewrite length_fmap. by eapply lookup_lt_Some.
Qed.

(** Two tasks have no entry in common. *)
Lemma pending_disjoint ts i j k k' p :
  NoDup (pending ts) -> ts !! i = Some k -> ts !! j = Some k' -> p ∈ todo k -> p ∈ todo k' -> i = j.
Proof.
  intros Hnd Hi Hj Hp Hp'. apply (GenericTable.concat_disjoint (todo <$> ts) i j (todo k) (todo k') p); try done.
  - by rewrite list_lookup_fmap, Hi.
  - by rewrite list_lookup_fmap, Hj.
Qed.

Lemma holds_num h x cs n : GenericTable.holds h x cs -> GenericTable.holds h (set_num n x) cs.
Proof. done. Qed.

(** The swap is the plain insertion: the entry is linked to the head. *)
Lemma swap_holds h x cs p e old :
  GenericTable.holds h x cs -> h !! p = Some e -> p <> 0 -> p ∉ concat cs ->
  FindChainHead (hash_ e) x = Some old -> word_ e = old ->
  exists cs', GenericTable.holds h (set_head (hash_ e) p x) cs' /\ concat cs' ≡ₚ p :: concat cs.
Proof.
  intros Hh Hp H0 Hnew Hold Hw.
  destruct (GenericTable.Insert_holds h x cs p e Hh Hp H0 Hnew) as (old' & x' & l & Hins & Hl & Hh' & _).
  unfold Insert in Hins. rewrite Hp in Hins. cbn [mbind option_bind] in Hins. case_decide; [|done].
  unfold FindChainHead in Hold. rewrite Hold in Hins. cbn [mbind option_bind] in Hins. injection Hins as E <-.
  assert (<[p := set_word old' e]> h = h) as Eh.
  { rewrite <-E. apply insert_id. rewrite Hp. by destruct e; cbn in Hw; subst. }
  rewrite Eh in Hh'. eexists. split; [exact (holds_num _ _ _ (num_elems_ x) Hh')|]. by apply GenericTable.concat_alter_cons.
Qed.

Lemma tasks_frame h h' ts i k p e e' :
  NoDup (pending ts) -> ts !! i = Some k -> p ∈ todo k -> Forall (task_ok h) ts ->
  h !! p = Some e -> h' = <[p := e']> h -> (forall j kj, j <> i -> ts !! j = Some kj -> task_ok h' kj).
Proof.
  intros Hnd Hi Hp Hok He -> j kj Hj Hkj. pose proof (Forall_lookup_1 _ _ _ _ Hok Hkj) as Hkok.
  unfold task_ok in *. destruct (at_ kj); try done. destruct Hkok as (q & rest & eq & Ht & Hq & Hw).
  exists q, rest, eq. split; [done|]. split; [|done]. rewrite lookup_insert_ne; [done|]. intros ->. apply Hj.
  symmetry. eapply (pending_disjoint ts i j k kj); try done. rewrite Ht. by left.
Qed.

Lemma Forall_insert_task (P : task -> Prop) ts i k :
  (forall j kj, j <> i -> ts !! j = Some kj -> P kj) -> P k -> Forall P (<[i := k]> ts).
Proof.
  intros Hj Hk. apply Forall_lookup. intros j kj Hkj.
  apply list_lookup_insert_Some in Hkj as [(-> & -> & _)|[Hne Hkj]]; [done|by eapply Hj].
Qed.

Lemma step_merging h0 all s s' :
  NoDup all -> Forall (fun p => p <> 0) all -> merging h0 all s -> step s s' -> merging h0 all s'.
Proof.
  intros Hnd Hz [(cs & Hh & Hall) Hd Hts] Hs.
  assert (NoDup (concat cs ++ pending (tasks s))) as Hn by (by rewrite Hall).
  apply NoDup_app in Hn as (_ & Hdis & Hnp). rewrite Forall_forall in Hz.
  assert (forall j kj, tasks s !! j = Some kj -> task_ok (heap s) kj) as Hts' by (intros; by eapply Forall_lookup_1).
  destruct Hs as [h x ts i p rest e old Hi He Hold|h x ts i p rest e old Hi He|h x ts i p rest e old Hi He Hold
    |h x ts i p rest e old old' Hi He Hold|h x ts i rest Hi|h x ts i rest n Hi]; cbn [heap table tasks] in *.
  - split; cbn [heap table tasks]; [|done|].
    + exists cs. split; [done|]. by rewrite (pending_same _ _ _ _ Hi).
    + apply Forall_insert_task; [by eauto|]. cbn. eauto.
  - assert (p ∈ pending ts) as Hp by (eapply pending_lookup; [done|by left]). split; cbn [heap table tasks].
    + exists cs. split; [|by rewrite (pending_same _ _ _ _ Hi)].
      eapply GenericTable.holds_frame; [|done]. intros q Hq. rewrite lookup_insert_ne; [done|]. intros ->. by apply (Hdis q).
    + etransitivity; [done|]. by apply same_data_set_word.
    + apply Forall_insert_task.
      * eapply tasks_frame; try done. by left.
      * exists p, rest, (set_word old e). split_and!; [done|by rewrite lookup_insert_eq|done].
  - assert (p ∈ pending ts) as Hp by (eapply pending_lookup; [done|by left]).
    destruct (Hts' _ _ Hi) as (p' & rest' & e' & [= <- <-] & He' & Hw). rewrite He in He'. injection He' as <-.
    destruct (swap_holds h x cs p e old Hh He) as (cs' & Hh' & Hcs'); try done.
    { apply Hz. rewrite <-Hall. apply elem_of_app. by right. }
    { intros Hin. by apply (Hdis p). }
    split; cbn [heap table tasks]; [|done|apply Forall_insert_task; [by eauto|done]].
    exists cs'. split; [done|]. rewrite Hcs', <-Hall, (pending_pop _ _ _ _ _ Swapped Hi). by rewrite <-Permutation_middle.
  - split; cbn [heap table tasks]; [|done|].
    + exists cs. split; [done|]. by rewrite (pending_same _ _ _ _ Hi).
    + apply Forall_insert_task; [by eauto|]. cbn. eauto.
  - split; cbn [heap table tasks]; [|done|apply Forall_insert_task; [by eauto|done]].
    exists cs. split; [done|]. by rewrite (pending_same _ _ _ _ Hi).
  - split; cbn [heap table tasks]; [|done|apply Forall_insert_task; [by eauto|done]].
    exists cs. split; [by apply holds_num|]. by rewrite (pending_same _ _ _ _ Hi).
Qed.

Lemma run_merging h0 all s s' :
  NoDup all -> Forall (fun p => p <> 0) all -> merging h0 all s -> rtc step s s' -> merging h0 all s'.
Proof. intros Hnd Hz Hm Hr. induction Hr; [done|]. eauto using step_merging. Qed.

Lemma start_merging exceeds estimate sources h s :
  0 < estimate <= 2 ^ 62 -> start exceeds estimate sources h = Some s -> merging h (concat sources) s.
Proof.
  intros He Hs. unfold start in Hs. destruct (GenericTable.generic_SetSize_wf exceeds estimate He) as (x & Hx & Hwf & Hrep & _).
  rewrite Hx in Hs. injection Hs as <-. split; cbn [heap table tasks].
  - eexists. split; [by apply GenericTable.holds_empty|]. rewrite GenericTable.concat_replicate_nil.
    unfold pending. rewrite <-list_fmap_compose. change (todo ∘ (fun ps => mkTask ps Idle)) with (@id (list Z)).
    by rewrite list_fmap_id.
  - done.
  - apply Forall_fmap, Forall_true. done.
Qed.

(** ** Finishing *)

Section finishing.
Context (h0 : entries A) (all : list Z) (all_nodup : NoDup all) (all_nonzero : Forall (fun p => p <> 0) all).
Context (all_there : forall p, p ∈ all -> is_Some (h0 !! p)).

Lemma merging_entry s i k p :
  merging h0 all s -> tasks s !! i = Some k -> p ∈ todo k ->
  exists e old, heap s !! p = Some e /\ FindChainHead (hash_ e) (table s) = Some old.
Proof.
  intros [(cs & Hh & Hall) Hd _] Hi Hp. assert (p ∈ all) as Hin.
  { rewrite <-Hall. apply elem_of_app. right. by eapply pending_lookup. }
  destruct (all_there p Hin) as [e0 He0]. destruct (same_data_lookup _ _ _ _ Hd He0) as (e & He & _).
  destruct (GenericTable.holds_bucket _ _ _ (hash_ e) Hh) as (old & l & Hold & _). eauto.
Qed.

(** A task that has just loaded the head goes through undisturbed. *)
Lemma loaded_path h x ts i p rest e old :
  ts !! i = Some (mkTask (p :: rest) (Loaded old)) -> h !! p = Some e -> FindChainHead (hash_ e) x = Some old ->
  exists h' x', rtc step (mkState h x ts) (mkState h' x' (<[i := mkTask rest Idle]> ts)).
Proof.
  intros Hi He Hold. apply lookup_lt_Some in Hi as Hlt. do 2 eexists.
  eapply rtc_l; [by eapply step_link|].
  eapply rtc_l; [eapply (step_swap _ _ _ i p rest (set_word old e)); [by rewrite list_lookup_insert_eq|by rewrite lookup_insert_eq|done]|].
  rewrite list_insert_insert_eq. eapply rtc_l; [eapply (step_read _ _ _ i); by rewrite list_lookup_insert_eq|].
  rewrite list_insert_insert_eq. eapply rtc_l; [eapply (step_write _ _ _ i); by rewrite list_lookup_insert_eq|].
  rewrite list_insert_insert_eq. apply rtc_refl.
Qed.

Lemma linked_path h x ts i p rest e old old' :
  ts !! i = Some (mkTask (p :: rest) (Linked old)) -> h !! p = Some e -> FindChainHead (hash_ e) x = Some old' ->
  exists h' x', rtc step (mkState h x ts) (mkState h' x' (<[i := mkTask rest Idle]> ts)).
Proof.
  intros Hi He Hold. apply lookup_lt_Some in Hi as Hlt.
  destruct (loaded_path h x (<[i := mkTask (p :: rest) (Loaded old')]> ts) i p rest e old') as (h' & x' & Hr);
    [by rewrite list_lookup_insert_eq|done|done|].
  exists h', x'. rewrite list_insert_insert_eq in Hr. eapply rtc_l; [by eapply step_retry|done].
Qed.

(** Any task can finish its insertion. *)
Lemma insert_path s i k :
  merging h0 all s -> tasks s !! i = Some k ->
  (exists p rest s', todo k = p :: rest /\ rtc step s s' /\ tasks s' = <[i := mkTask rest Idle]> (tasks s)) \/
  exists s', rtc step s s' /\ tasks s' = <[i := mkTask (todo k) Idle]> (tasks s).
Proof.
  intros Hm Hi. destruct s as [h x ts], k as [[|p rest] f]; cbn [todo heap table tasks] in *; apply lookup_lt_Some in Hi as Hlt.
  - right. pose proof (Forall_lookup_1 _ _ _ _ (mg_tasks _ _ _ Hm) Hi) as Hok. destruct f; cbn in Hok.
    + eexists. split; [apply rtc_refl|]. cbn. by rewrite list_insert_id.
    + by destruct Hok as (? & ? & ?).
    + by destruct Hok as (? & ? & ? & ? & _).
    + eexists. split.
      * eapply rtc_l; [by eapply step_read|]. eapply rtc_l; [eapply (step_write _ _ _ i); by rewrite list_lookup_insert_eq|apply rtc_refl].
      * cbn. by rewrite list_insert_insert_eq.
    + eexists. split; [eapply rtc_l; [by eapply step_write|apply rtc_refl]|done].
  - destruct (merging_entry _ _ _ p Hm Hi) as (e & old & He & Hold); [by left|]. cbn [heap table] in He, Hold. destruct f as [|old'|old'| |].
    + left. destruct (loaded_path h x (<[i := mkTask (p :: rest) (Loaded old)]> ts) i p rest e old) as (h' & x' & Hr);
        [by rewrite list_lookup_insert_eq|done|done|]. rewrite list_insert_insert_eq in Hr.
      do 3 eexists. split; [done|]. split; [eapply rtc_l; [by eapply step_load|exact Hr]|done].
    + left. destruct (linked_path (<[p := set_word old' e]> h) x (<[i := mkTask (p :: rest) (Linked old')]> ts) i p rest (set_word old' e) old' old)
        as (h' & x' & Hr); [by rewrite list_lookup_insert_eq|by rewrite lookup_insert_eq|done|]. rewrite list_insert_insert_eq in Hr.
      do 3 eexists. split; [done|]. split; [eapply rtc_l; [by eapply step_link|exact Hr]|done].
    + left. destruct (linked_path h x ts i p rest e old' old) as (h' & x' & Hr); [done..|].
      do 3 eexists. split; [done|]. by split; [exact Hr|].
    + right. eexists. split.
      * eapply rtc_l; [by eapply step_read|]. eapply rtc_l; [eapply (step_write _ _ _ i); by rewrite list_lookup_insert_eq|apply rtc_refl].
      * cbn. by rewrite list_insert_insert_eq.
    + right. eexists. split; [eapply rtc_l; [by eapply step_write|apply rtc_refl]|done].
Qed.

(** Left alone, a task finishes, and so do all of them one after the other. *)
Lemma idle_path todo_i s i :
  merging h0 all s -> tasks s !! i = Some (mkTask todo_i Idle) ->
  exists s', rtc step s s' /\ tasks s' = <[i := mkTask [] Idle]> (tasks s).
Proof.
  revert s. induction todo_i as [|p rest IH]; intros s Hm Hi.
  - exists s. split; [apply rtc_refl|]. by rewrite list_insert_id.
  - destruct (merging_entry _ _ _ p Hm Hi) as (e & old & He & Hold); [by left|].
    destruct s as [h x ts]. cbn [heap table tasks] in *. apply lookup_lt_Some in Hi as Hlt.
    destruct (loaded_path h x (<[i := mkTask (p :: rest) (Loaded old)]> ts) i p rest e old) as (h' & x' & Hr);
      [by rewrite list_lookup_insert_eq|done|done|]. rewrite list_insert_insert_eq in Hr.
    assert (rtc step (mkState h x ts) (mkState h' x' (<[i := mkTask rest Idle]> ts))) as Hr'
      by (eapply rtc_l; [by eapply step_load|exact Hr]).
    destruct (IH (mkState h' x' (<[i := mkTask rest Idle]> ts))) as (s' & Hs' & Ht');
      [by eapply run_merging|cbn; by rewrite list_lookup_insert_eq|].
    exists s'. split; [by etransitivity|]. cbn in Ht'. by rewrite list_insert_insert_eq in Ht'.
Qed.

Lemma task_path s i k :
  merging h0 all s -> tasks s !! i = Some k ->
  exists s', rtc step s s' /\ tasks s' = <[i := mkTask [] Idle]> (tasks s).
Proof.
  intros Hm Hi. apply lookup_lt_Some in Hi as Hlt.
  assert (exists rest s1, rtc step s s1 /\ tasks s1 = <[i := mkTask rest Idle]> (tasks s)) as (rest & s1 & Hr1 & Ht1).
  { destruct (insert_path s i k Hm Hi) as [(p & rest & s1 & _ & ? & ?)|(s1 & ? & ?)]; eauto. }
  destruct (idle_path rest s1 i) as (s2 & Hr2 & Ht2); [by eapply run_merging|rewrite Ht1; by rewrite list_lookup_insert_eq|].
  exists s2. split; [by etransitivity|]. by rewrite Ht2, Ht1, list_insert_insert_eq.
Qed.

Lemma tasks_path n s :
  merging h0 all s -> (n <= length (tasks s))%nat ->
  exists s', rtc step s s' /\ tasks s' = replicate n (mkTask [] Idle) ++ drop n (tasks s).
Proof.
  intros Hm. induction n as [|n IH]; intros Hn; [exists s; split; [apply rtc_refl|done]|].
  destruct (IH ltac:(lia)) as (s1 & Hr1 & Ht1). destruct (lookup_lt_is_Some_2 (tasks s) n ltac:(lia)) as [k Hk].
  assert (tasks s1 !! n = Some k) as Hk1.
  { rewrite Ht1, lookup_app_r by (rewrite length_replicate; lia). by rewrite length_replicate, Nat.sub_diag, lookup_drop, Nat.add_0_r. }
  destruct (task_path s1 n k) as (s2 & Hr2 & Ht2); [by eapply run_merging|done|].
  exists s2. split; [by etransitivity|]. rewrite Ht2, Ht1. rewrite (drop_S _ _ _ Hk).
  rewrite insert_app_r_alt by (rewrite length_replicate; lia). rewrite length_replicate, Nat.sub_diag. cbn.
  by rewrite cons_middle, app_assoc, <-replicate_cons_app.
Qed.

Lemma merge_finishes s : merging h0 all s -> exists s', rtc step s s' /\ finished s'.
Proof.
  intros Hm. destruct (tasks_path (length (tasks s)) s Hm ltac:(lia)) as (s' & Hr & Ht). exists s'. split; [done|].
  unfold finished. rewrite Ht, drop_ge, app_nil_r by lia. by apply Forall_replicate.
Qed.
End finishing.

(** C20: However the tasks of a parallel merge interleave, the merge can always run to its
    end, and then a probe yields exactly the tuples of all merged tables with the hash
    that the key comparison accepts. *)
Theorem merge_parallel (exceeds : Z -> Z -> bool) (estimate : Z) (sources : list (list Z)) h es s0 s :
  NoDup (concat sources) -> Forall (fun p => p <> 0) (concat sources) -> view (concat sources) h es ->
  0 < estimate <= 2 ^ 62 -> start exceeds estimate sources h = Some s0 -> rtc step s0 s ->
  (exists s', rtc step s s' /\ finished s') /\
  (finished s -> forall x key_eq hash,
    JoinHashTable.generic_hash_table_ x = table s -> JoinHashTable.use_concise_ht_ x = false ->
    exists l, JoinHashTable.probe key_eq hash (heap s) x = Some l /\ l ≡ₚ selected key_eq hash (data <$> es)).
Proof.
  intros Hnd Hz Hv He Hs Hr. pose proof (start_merging _ _ _ _ _ He Hs) as Hm0.
  pose proof (run_merging _ _ _ _ Hnd Hz Hm0 Hr) as Hm. split.
  - eapply merge_finishes; try done. intros p [i Hi]%list_elem_of_lookup.
    destruct (view_lookup _ _ _ _ _ Hv Hi) as (e & _ & ->). eauto.
  - intros Hf x key_eq hash Hx Hu. destruct Hm as [(cs & Hh & Hall) Hd _].
    rewrite (probe_holds _ _ cs) by (done || by rewrite Hx). eexists. split; [done|].
    assert (pending (tasks s) = []) as Hp.
    { revert Hf. unfold finished. generalize (tasks s). clear. by induction 1 as [|k ts -> _ IH]. }
    rewrite Hp, app_nil_r in Hall. rewrite (data_at_same h) by done. rewrite <-(data_at_view _ _ _ Hv).
    unfold data_at. by rewrite Hall.
Qed.
End merge.

(** Two tables of one tuple each. *)
Lemma merge_parallel_witness :
  exists s0, MergeParallel.start (fun _ _ => false) 2 [[16]; [48]]
      (<[48 := mkEntry 0 9 20]> {[16 := mkEntry 0 5 10]}) = Some s0 /\
    exists s, rtc MergeParallel.step s0 s /\ MergeParallel.finished s.
Proof.
  eexists. split; [reflexivity|].
  refine (proj1 (merge_parallel (fun _ _ => false) 2 [[16]; [48]] (<[48 := mkEntry 0 9 20]> {[16 := mkEntry 0 5 10]})
    [mkEntry 0 5 10; mkEntry 0 9 20] _ _ _ _ _ _ eq_refl (rtc_refl _ _))).
  - cbn. by repeat constructor; set_solver.
  - by repeat constructor.
  - by repeat constructor.
  - done.
Defined.

(** ** The count of elements *)

(** Two tasks that read the count before either writes it count one element. *)
Example merge_loses_count :
  exists s0 s, MergeParallel.start (fun _ _ => false) 2 [[16]; [48]]
      (<[48 := mkEntry 0 9 20]> {[16 := mkEntry 0 5 10]}) = Some s0 /\
    rtc MergeParallel.step s0 s /\ MergeParallel.finished s /\ GenericHashTable.num_elems_ (MergeParallel.table s) = 1.
Proof.
  do 2 eexists. split; [reflexivity|]. split.
  - eapply rtc_l; [eapply (MergeParallel.step_load _ _ _ 0); reflexivity|].
    eapply rtc_l; [eapply (MergeParallel.step_link _ _ _ 0); reflexivity|].
    eapply rtc_l; [eapply (MergeParallel.step_swap _ _ _ 0); reflexivity|].
    eapply rtc_l; [eapply (MergeParallel.step_load _ _ _ 1); reflexivity|].
    eapply rtc_l; [eapply (MergeParallel.step_link _ _ _ 1); reflexivity|].
    eapply rtc_l; [eapply (MergeParallel.step_swap _ _ _ 1); reflexivity|].
    eapply rtc_l; [eapply (MergeParallel.step_read _ _ _ 0); reflexivity|].
    eapply rtc_l; [eapply (MergeParallel.step_read _ _ _ 1); reflexivity|].
    eapply rtc_l; [eapply (MergeParallel.step_write _ _ _ 0); reflexivity|].
    eapply rtc_l; [eapply (MergeParallel.step_write _ _ _ 1); reflexivity|]. apply rtc_refl.
  - split; [by repeat constructor|reflexivity].
Qed.
