(* ===== verification/JoinLimits.v ===== *)
(** * Limits of join tables

    What the code does outside the bounds of [join_probe]: wide tuples, which do not
    fit the reorder buffer twice, and an empty build side. *)
From S2P Require Import Prelude HashTables JoinTable JoinProbe.
Import JoinHashTable.

(** An entry of more than half the buffer leaves no room beside the space for swaps:
    nothing is ever buffered. *)
Lemma wide_entries_not_buffered {A} entry_size a b (vec : list Z) (h : entries A) :
  8192 < entry_size <= 16384 -> (a <= b)%nat ->
  Reorder.Fill vec h (Reorder.NewReorderBuffer entry_size Reorder.K_DEFAULT_VECTOR_SIZE a b) =
    Some (h, Reorder.NewReorderBuffer entry_size Reorder.K_DEFAULT_VECTOR_SIZE a b, false).
Proof.
  intros He Hab. unfold Reorder.Fill, Reorder.NewReorderBuffer. cbn [Reorder.end_read_idx_ Reorder.read_idx_].
  assert (16384 `div` entry_size = 1) as Hd by (symmetry; apply (Z.div_unique _ _ 1 (16384 - entry_size)); lia).
  change Reorder.K_BUFFER_SIZE_IN_BYTES with 16384. rewrite Hd. cbn. by destruct (b - a)%nat.
Qed.

(** The tuple with hash 5 is then not found. *)
Example wide_tuple_lost :
  (let '(h, x) := build_side [(16, (7, 10)); (48, (5, 20))] ∅ (make 8192 true) in
   '(h, x) ← Build (fun _ _ => false) h x; probe (fun _ => true) 5 h x) = Some [].
Proof. vm_compute. reflexivity. Qed.

Example narrow_tuple_found :
  (let '(h, x) := build_side [(16, (7, 10)); (48, (5, 20))] ∅ (make 8 true) in
   '(h, x) ← Build (fun _ _ => false) h x; probe (fun _ => true) 5 h x) = Some [20].
Proof. vm_compute. reflexivity. Qed.

(** The size of a bucket-chained table must be positive. *)
Lemma empty_build_side `{LlvmMath} {A} exceeds (h : entries A) tuple_size :
  Build exceeds h (make tuple_size false) = None.
Proof. done. Qed.
