(* ===== verification/AggTable.v ===== *)
(** * Aggregation hash tables

    [execution/sql/aggregation_hash_table.{h,cpp}]: the groups of an aggregation in a
    bucket-chained table that grows, the overflow partitions into which a thread-local
    table is emptied, their transfer to a global table, and the processing of a vector
    of tuples at a time.

    The addresses of new entries are those the vector gives out.  The aggregate is
    written to the entry when it is made: the caller does that right after [Insert],
    and no operation of the table reads it before.  Estimators, statistics and timers
    are left out. *)
From S2P Require Import Prelude HashTables JoinTable.

Module AggregationHashTable.

Definition K_DEFAULT_INITIAL_TABLE_SIZE : Z := 256.
Definition K_DEFAULT_NUM_PARTITIONS : nat := 512.

Record t := mk {
  entries_ : list Z;
  owned_entries_ : list (list Z);
  hash_table_ : GenericHashTable.t;
  max_fill_ : Z;
  flush_threshold_ : Z;
  partitions_ : option (list Z * list Z);
}.

(** The heads and tails of the overflow partitions are allocated together. *)
Definition set_table (g : GenericHashTable.t) (max_fill : Z) (x : t) : t :=
  mk (entries_ x) (owned_entries_ x) g max_fill (flush_threshold_ x) (partitions_ x).
Definition set_entries (l : list Z) (x : t) : t :=
  mk l (owned_entries_ x) (hash_table_ x) (max_fill_ x) (flush_threshold_ x) (partitions_ x).
Definition set_partitions (p : list Z * list Z) (x : t) : t :=
  mk (entries_ x) (owned_entries_ x) (hash_table_ x) (max_fill_ x) (flush_threshold_ x) (Some p).
Definition set_owned (l : list (list Z)) (x : t) : t :=
  mk (entries_ x) l (hash_table_ x) (max_fill_ x) (flush_threshold_ x) (partitions_ x).

(** [llround] of the capacity, a power of two, times the load factor [0.7f], which is
    [11744051 / 2^24]. *)
Definition fill_of (capacity : Z) : Z := (11744051 * capacity + 2 ^ 23) `div` 2 ^ 24.

(** The leading zeros of [K_DEFAULT_NUM_PARTITIONS - 1]. *)
Definition partition_shift_bits : Z := 64 - (Z.log2 (Z.of_nat K_DEFAULT_NUM_PARTITIONS - 1) + 1).

Section table.
Context {A : Type} `{LlvmMath} (exceeds : Z -> Z -> bool).
Implicit Types (h : entries A) (x : t).

(** [l2_fill] is the number of entries that fill the cache to the load factor. *)
Definition make (initial_size l2_fill : Z) : option t :=
  g ← GenericHashTable.SetSize exceeds initial_size;
  Some (mk [] [] g (fill_of (GenericHashTable.capacity_ g)) (256 `max` PowerOf2Floor l2_fill) None).

Definition NumElements x : Z := GenericHashTable.num_elems_ (hash_table_ x).
Definition NeedsToGrow x : bool := bool_decide (max_fill_ x <= NumElements x).

Definition Grow h x : option (entries A * t) :=
  g ← GenericHashTable.SetSize exceeds (wrapu 64 (GenericHashTable.capacity_ (hash_table_ x) * 2));
  '(h, g) ← JoinHashTable.insert_all (entries_ x) h g;
  Some (h, set_table g (fill_of (GenericHashTable.capacity_ g)) x).

Definition Insert (p hash : Z) (payload : A) h x : option (entries A * t) :=
  '(h, x) ← (if NeedsToGrow x then Grow h x else Some (h, x));
  let h := <[p := mkEntry 0 hash payload]> h in
  let x := set_entries (entries_ x ++ [p]) x in
  '(h, g) ← GenericHashTable.Insert p hash h (hash_table_ x);
  Some (h, set_table g (max_fill_ x) x).

(** The first entry of the chain that matches. *)
Fixpoint find_entry (fuel : nat) (key_eq : A -> bool) (hash entry : Z) h : option Z :=
  if decide (entry = 0) then Some 0 else
  match fuel with
  | O => None
  | S fuel =>
      e ← h !! entry;
      if decide (hash_ e = hash /\ key_eq (payload_ e) = true) then Some entry
      else find_entry fuel key_eq hash (word_ e) h
  end.

Definition LookupEntryInternal (key_eq : A -> bool) (hash : Z) h x : option Z :=
  entry ← GenericHashTable.FindChainHead hash (hash_table_ x); find_entry (size h) key_eq hash entry h.

Definition Lookup (key_eq : A -> bool) (hash : Z) h x : option (option A) :=
  entry ← LookupEntryInternal key_eq hash h x;
  if decide (entry = 0) then Some None else e ← h !! entry; Some (Some (payload_ e)).

(** *** Overflow partitions *)

Definition AllocateOverflowPartitions x : t :=
  match partitions_ x with
  | Some _ => x
  | None => set_partitions (replicate K_DEFAULT_NUM_PARTITIONS 0, replicate K_DEFAULT_NUM_PARTITIONS 0) x
  end.

Definition partition_of (hash : Z) : nat := Z.to_nat (Z.shiftr hash partition_shift_bits).

(** What [FlushEntries] does with an entry. *)
Definition push_partition (entry : Z) (s : entries A * (list Z * list Z))
    : option (entries A * (list Z * list Z)) :=
  let '(h, (heads, tails)) := s in
  e ← h !! entry;
  let part_idx := partition_of (hash_ e) in
  head ← heads !! part_idx;
  tail ← tails !! part_idx;
  Some (<[entry := set_word head e]> h,
        (<[part_idx := entry]> heads, if decide (tail = 0) then <[part_idx := entry]> tails else tails)).

Definition FlushToOverflowPartitions h x : option (entries A * t) :=
  let x := AllocateOverflowPartitions x in
  ps ← partitions_ x;
  '(g, (h, ps)) ← GenericHashTable.FlushEntries fst push_partition (hash_table_ x) (h, ps);
  Some (h, set_partitions ps (set_table g (max_fill_ x) x)).

Definition InsertPartitioned (p hash : Z) (payload : A) h x : option (entries A * t) :=
  '(h, x) ← Insert p hash payload h x;
  if decide (flush_threshold_ x <= NumElements x) then FlushToOverflowPartitions h x else Some (h, x).

(** The list of a partition of a thread-local table is put before the global one. *)
Definition link_partition (part_idx : nat) (source : list Z * list Z) (s : entries A * (list Z * list Z))
    : option (entries A * (list Z * list Z)) :=
  let '(h, (heads, tails)) := s in
  source_head ← source.1 !! part_idx;
  if decide (source_head = 0) then Some s else
  source_tail ← source.2 !! part_idx;
  e ← h !! source_tail;
  head ← heads !! part_idx;
  tail ← tails !! part_idx;
  Some (<[source_tail := set_word head e]> h,
        (<[part_idx := source_head]> heads, if decide (tail = 0) then <[part_idx := source_tail]> tails else tails)).

Fixpoint link_partitions (n part_idx : nat) (source : list Z * list Z) (s : entries A * (list Z * list Z))
    : option (entries A * (list Z * list Z)) :=
  match n with
  | O => Some s
  | S n => s ← link_partition part_idx source s; link_partitions n (S part_idx) source s
  end.

Definition take_table h x (table : t) : option (entries A * t) :=
  '(h, table) ← FlushToOverflowPartitions h table;
  source ← partitions_ table;
  ps ← partitions_ x;
  '(h, ps) ← link_partitions K_DEFAULT_NUM_PARTITIONS 0 source (h, ps);
  Some (h, set_partitions ps (set_owned (owned_entries_ x ++ [entries_ table]) x)).

Fixpoint take_tables (tables : list t) h x : option (entries A * t) :=
  match tables with
  | [] => Some (h, x)
  | table :: tables => '(h, x) ← take_table h x table; take_tables tables h x
  end.

Definition TransferMemoryAndPartitions (tables : list t) h x : option (entries A * t) :=
  let x := AllocateOverflowPartitions x in
  '(h, x) ← (if decide (NumElements x > 0) then FlushToOverflowPartitions h x else Some (h, x));
  take_tables tables h x.

(** *** Iterating over partitions *)

(** [AggregationOverflowPartitionIterator]: the heads that are left and the entry it is
    at. *)
Record PartitionIterator := mkIter { partitions_iter_ : list Z; curr_ : Z }.

Fixpoint next_partition (heads : list Z) : PartitionIterator :=
  match heads with
  | [] => mkIter [] 0
  | head :: heads => if decide (head = 0) then next_partition heads else mkIter heads head
  end.

Definition Next h (it : PartitionIterator) : option PartitionIterator :=
  if decide (curr_ it = 0) then Some (next_partition (partitions_iter_ it)) else
  e ← h !! curr_ it;
  Some (if decide (word_ e = 0) then next_partition (partitions_iter_ it) else mkIter (partitions_iter_ it) (word_ e)).

(** The hashes and aggregates the iterator gives. *)
Fixpoint iterate (fuel : nat) h (it : PartitionIterator) : option (list (Z * A)) :=
  if decide (curr_ it = 0) then Some [] else
  match fuel with
  | O => None
  | S fuel =>
      e ← h !! curr_ it;
      it ← Next h it;
      l ← iterate fuel h it;
      Some (data e :: l)
  end.

(** What [BuildTableOverPartition] hands to the merging function. *)
Definition partition_rows (part_idx : nat) h x : option (list (Z * A)) :=
  ps ← partitions_ x;
  head ← ps.1 !! part_idx;
  if decide (head = 0) then None else
  it ← Next h (mkIter [head] 0);
  iterate (size h) h it.

(** The partitions of [ExecuteParallelPartitionedScan]. *)
Definition nonempty_parts x : option (list nat) :=
  ps ← partitions_ x; Some (filter (fun i => ps.1 !! i <> Some 0) (seq 0 K_DEFAULT_NUM_PARTITIONS)).

(** *** A vector of tuples at a time

    [tuples] are the selected tuples of the projection, the callbacks functions on a
    tuple and on an aggregate and a tuple. *)
Section batch.
Context {T : Type} (hash_fn : T -> Z) (key_eq_fn : A -> T -> bool) (init_agg_fn : T -> A) (advance_agg_fn : A -> T -> A).
Implicit Types (tuples : list T) (es ps : list Z) (sel : list nat).

Definition ComputeHashAndLoadInitial tuples x : option (list Z) :=
  mapM (fun tuple => GenericHashTable.FindChainHead (hash_fn tuple) (hash_table_ x)) tuples.

(** [VectorUtil::FilterNe] and [VectorUtil::FilterEq] with null. *)
Definition non_null es : list nat := filter (fun i => es !! i <> Some 0) (seq 0 (length es)).
Definition null es : list nat := filter (fun i => es !! i = Some 0) (seq 0 (length es)).

(** The positions whose keys do not match and whose chains go on. *)
Fixpoint mismatches sel tuples es h : option (list nat) :=
  match sel with
  | [] => Some []
  | idx :: sel =>
      tuple ← tuples !! idx;
      p ← es !! idx;
      e ← h !! p;
      let keys_match := bool_decide (hash_ e = hash_fn tuple) && key_eq_fn (payload_ e) tuple in
      let has_next := bool_decide (word_ e <> 0) in
      sel ← mismatches sel tuples es h;
      Some (if negb keys_match && has_next then idx :: sel else sel)
  end.

Fixpoint follow_next sel es h : option (list Z) :=
  match sel with
  | [] => Some es
  | idx :: sel => p ← es !! idx; e ← h !! p; follow_next sel (<[idx := word_ e]> es) h
  end.

Fixpoint FollowNextLoop (fuel : nat) sel tuples es h : option (list Z) :=
  match sel, fuel with
  | [], _ => Some es
  | _, O => None
  | _, S fuel =>
      sel ← mismatches sel tuples es h;
      es ← follow_next sel es h;
      FollowNextLoop fuel sel tuples es h
  end.

Definition LookupBatch tuples h x : option (list Z) :=
  es ← ComputeHashAndLoadInitial tuples x; FollowNextLoop (S (size h)) (non_null es) tuples es h.

(** [ps] are the addresses the vector gives out. *)
Fixpoint create_groups sel ps tuples es h x : option (list Z * (entries A * t)) :=
  match sel with
  | [] => Some (es, (h, x))
  | idx :: sel =>
      tuple ← tuples !! idx;
      entry ← LookupEntryInternal (fun a => key_eq_fn a tuple) (hash_fn tuple) h x;
      if decide (entry = 0) then
        p ← head ps;
        '(h, x) ← Insert p (hash_fn tuple) (init_agg_fn tuple) h x;
        create_groups sel (tail ps) tuples es h x
      else create_groups sel ps tuples (<[idx := entry]> es) h x
  end.

Definition CreateMissingGroups ps tuples es h x : option (list Z * (entries A * t)) :=
  create_groups (null es) ps tuples es h x.

Fixpoint advance_groups sel tuples es h : option (entries A) :=
  match sel with
  | [] => Some h
  | idx :: sel =>
      tuple ← tuples !! idx;
      p ← es !! idx;
      e ← h !! p;
      advance_groups sel tuples es (<[p := mkEntry (word_ e) (hash_ e) (advance_agg_fn (payload_ e) tuple)]> h)
  end.

Definition AdvanceGroups tuples es h : option (entries A) := advance_groups (non_null es) tuples es h.

Definition ProcessBatch ps tuples h x : option (entries A * t) :=
  if decide (Z.of_nat (length tuples) <= Reorder.K_DEFAULT_VECTOR_SIZE) then
    es ← LookupBatch tuples h x;
    '(es, (h, x)) ← CreateMissingGroups ps tuples es h x;
    h ← AdvanceGroups tuples es h;
    Some (h, x)
  else None.
End batch.
End table.
End AggregationHashTable.
