(* ===== verification/AggPartitions.v ===== *)
(** * Overflow partitions

    Thread-local aggregation tables are emptied into overflow partitions, which the
    global table takes over: a partition then has every entry of every thread whose
    hash belongs to it.  A table that has been emptied into its partitions does not
    grow any more, which would link the entries into the directory again. *)
From S2P Require Import Prelude HashTables JoinTable AggTable ReorderCells JoinProbe.
Import AggregationHashTable.

(** ** Partition lists *)

Section partitions.
Context {A : Type}.
Implicit Types (h : entries A) (ps : list Z * list Z) (ls : list (list Z)).

Definition has_partition h (i : nat) (q : Z) : Prop := exists e, h !! q = Some e /\ partition_of (hash_ e) = i.

(** The lists [ls] of the partitions, with their tails. *)
Record parts h ps ls : Prop := {
  pt_heads : length ps.1 = length ls;
  pt_tails : length ps.2 = length ls;
  pt_count : length ls = K_DEFAULT_NUM_PARTITIONS;
  pt_nodup : NoDup (concat ls);
  pt_list : forall i head tail l, ps.1 !! i = Some head -> ps.2 !! i = Some tail -> ls !! i = Some l ->
    chain h head l /\ tail = default 0 (last l) /\ forall q, q ∈ l -> has_partition h i q;
}.

Lemma parts_lookup h ps ls i :
  parts h ps ls -> (i < K_DEFAULT_NUM_PARTITIONS)%nat ->
  exists head tail l, ps.1 !! i = Some head /\ ps.2 !! i = Some tail /\ ls !! i = Some l /\
    chain h head l /\ tail = default 0 (last l) /\ forall q, q ∈ l -> has_partition h i q.
Proof.
  intros Hp Hi. pose proof (pt_count _ _ _ Hp). pose proof (pt_heads _ _ _ Hp). pose proof (pt_tails _ _ _ Hp).
  destruct (lookup_lt_is_Some_2 ps.1 i ltac:(lia)) as [head Hh]. destruct (lookup_lt_is_Some_2 ps.2 i ltac:(lia)) as [tail Ht].
  destruct (lookup_lt_is_Some_2 ls i ltac:(lia)) as [l Hl].
  pose proof (pt_list _ _ _ Hp i _ _ _ Hh Ht Hl) as (? & ? & ?). eauto 12.
Qed.

Lemma parts_empty h :
  parts h (replicate K_DEFAULT_NUM_PARTITIONS 0, replicate K_DEFAULT_NUM_PARTITIONS 0) (replicate K_DEFAULT_NUM_PARTITIONS []).
Proof.
  split; cbn [fst snd]; rewrite ?length_replicate; try done.
  - rewrite GenericTable.concat_replicate_nil. constructor.
  - intros i head tail l [-> _]%lookup_replicate [-> _]%lookup_replicate [-> _]%lookup_replicate.
    split_and!; [constructor|done|]. intros q Hq. by apply not_elem_of_nil in Hq.
Qed.

Lemma partition_bound hash : is_uint 64 hash -> (partition_of hash < K_DEFAULT_NUM_PARTITIONS)%nat.
Proof.
  intros Hh. unfold is_uint in Hh. unfold partition_of. change partition_shift_bits with 55.
  rewrite Z.shiftr_div_pow2 by lia. assert (hash `div` 2 ^ 55 < 512) by (apply Z.div_lt_upper_bound; lia).
  assert (0 <= hash `div` 2 ^ 55) by (apply Z.div_pos; lia). unfold K_DEFAULT_NUM_PARTITIONS. lia.
Qed.

Lemma parts_frame h h' ps ls : (forall q, q ∈ concat ls -> h' !! q = h !! q) -> parts h ps ls -> parts h' ps ls.
Proof.
  intros Hq [H1 H2 H3 H4 H5]. split; try done. intros i head tail l Hh Ht Hl.
  destruct (H5 i head tail l Hh Ht Hl) as (Hc & Htl & Hp).
  assert (forall q, q ∈ l -> h' !! q = h !! q) as Hql by (intros q Hin; apply Hq, GenericTable.elem_of_concat; eauto).
  split_and!; [by eapply bucket_chain_frame|done|]. intros q Hin. destruct (Hp q Hin) as (e & He & ?). exists e. by rewrite Hql.
Qed.

Lemma parts_elem h ps ls i l q : parts h ps ls -> ls !! i = Some l -> q ∈ l -> q ∈ concat ls.
Proof. intros _ Hl Hq. apply GenericTable.elem_of_concat. eauto. Qed.

(** A list is replaced: the others stay as they are, when the heap changes at its
    entries only. *)
Lemma parts_set h h' ps ls i head tail l tails' head' tail' l' :
  parts h ps ls -> ps.1 !! i = Some head -> ps.2 !! i = Some tail -> ls !! i = Some l ->
  tails' = <[i := tail']> ps.2 -> NoDup (concat (<[i := l']> ls)) ->
  (forall q, q ∈ concat ls -> q ∉ l -> h' !! q = h !! q) ->
  chain h' head' l' -> tail' = default 0 (last l') -> (forall q, q ∈ l' -> has_partition h' i q) ->
  parts h' (<[i := head']> ps.1, tails') (<[i := l']> ls).
Proof.
  intros [H1 H2 H3 H4 H5] Hh Ht Hl -> Hnd Hfr Hc Htl Hp. split; cbn [fst snd]; rewrite ?length_insert; try done.
  intros j hd tl lj Hhj Htj Hlj. destruct (decide (i = j)) as [<-|Hne].
  - rewrite list_lookup_insert_eq in Hhj, Htj by (by eapply lookup_lt_Some).
    rewrite list_lookup_insert_eq in Hlj by (by eapply lookup_lt_Some). by simplify_eq.
  - rewrite list_lookup_insert_ne in Hhj, Htj by done. rewrite list_lookup_insert_ne in Hlj by done. destruct (H5 j hd tl lj Hhj Htj Hlj) as (Hcj & Htlj & Hpj).
    assert (forall q, q ∈ lj -> h' !! q = h !! q) as Hql.
    { intros q Hin. apply Hfr; [apply GenericTable.elem_of_concat; eauto|]. intros Hin'. apply Hne.
      by eapply (GenericTable.concat_disjoint ls). }
    split_and!; [by eapply bucket_chain_frame|done|]. intros q Hin. destruct (Hpj q Hin) as (e & He & ?). exists e. by rewrite Hql.
Qed.

Lemma push_partition_spec h ps ls p e :
  parts h ps ls -> h !! p = Some e -> p <> 0 -> p ∉ concat ls -> is_uint 64 (hash_ e) ->
  exists w ps' ls', push_partition p (h, ps) = Some (<[p := set_word w e]> h, ps') /\
    parts (<[p := set_word w e]> h) ps' ls' /\ concat ls' ≡ₚ p :: concat ls.
Proof.
  intros Hp He H0 Hnew Hu. pose proof (partition_bound _ Hu) as Hb.
  destruct (parts_lookup _ _ _ _ Hp Hb) as (head & tail & l & Hh & Ht & Hl & Hc & Htl & Hpl).
  destruct ps as [heads tails]. cbn [fst snd] in *. cbn [push_partition]. rewrite He. cbn [mbind option_bind].
  rewrite Hh, Ht. cbn [mbind option_bind]. do 3 eexists. split; [done|].
  assert (p ∉ l) as Hpn by (intros Hin; apply Hnew; by eapply parts_elem).
  assert (concat (<[partition_of (hash_ e) := p :: l]> ls) ≡ₚ p :: concat ls) as Hperm by (by apply GenericTable.concat_alter_cons).
  split; [|exact Hperm].
  eapply (parts_set h _ (heads, tails) ls _ head tail l _ _ (if decide (tail = 0) then p else tail)); try done.
  - case_decide as Ht0; [done|]. symmetry. by apply list_insert_id.
  - rewrite Hperm. constructor; [done|]. by apply (pt_nodup _ _ _ Hp).
  - intros q Hq _. rewrite lookup_insert_ne; [done|]. by intros ->.
  - econstructor; [done|by rewrite lookup_insert_eq|]. by apply chain_insert.
  - rewrite last_cons, Htl. destruct (last l) as [z|] eqn:Hz; [|done]. cbn. rewrite decide_False; [done|].
    eapply chain_nonzero; [done|]. by apply last_Some_elem_of.
  - intros q Hq. destruct (decide (p = q)) as [<-|Hne].
    + exists (set_word head e). by rewrite lookup_insert_eq.
    + apply elem_of_cons in Hq as [->|Hq]; [done|]. destruct (Hpl q Hq) as (e' & ? & ?). exists e'. by rewrite lookup_insert_ne.
Qed.

(** Emptying the table pushes all its entries. *)
Lemma push_all_spec l h ps ls :
  parts h ps ls -> NoDup l -> Forall (fun p => p <> 0 /\ p ∉ concat ls /\ exists e, h !! p = Some e /\ is_uint 64 (hash_ e)) l ->
  exists h' ps' ls', GenericTable.sink_all push_partition l (h, ps) = Some (h', ps') /\ parts h' ps' ls' /\
    concat ls' ≡ₚ concat ls ++ l /\ same_data h h' /\ forall q, q ∉ l -> h' !! q = h !! q.
Proof.
  revert h ps ls. induction l as [|p l IH]; intros h ps ls Hp Hnd Hl; cbn [GenericTable.sink_all].
  - exists h, ps, ls. by rewrite app_nil_r.
  - apply NoDup_cons in Hnd as [Hpn Hnd]. apply Forall_cons in Hl as [(H0 & Hpl & e & He & Hu) Hl].
    destruct (push_partition_spec h ps ls p e Hp He H0 Hpl Hu) as (w & ps1 & ls1 & -> & Hp1 & Hc1). cbn [mbind option_bind].
    destruct (IH _ _ _ Hp1 Hnd) as (h2 & ps2 & ls2 & -> & Hp2 & Hc2 & Hs2 & Hf2).
    + rewrite Forall_forall in Hl. apply Forall_forall. intros q Hq. destruct (Hl q Hq) as (Hq0 & Hqn & e' & He' & Hu').
      assert (q <> p) as Hne by (by intros ->). split; [done|]. split.
      * rewrite Hc1. by apply not_elem_of_cons.
      * exists e'. by rewrite lookup_insert_ne.
    + exists h2, ps2, ls2. split; [done|]. split; [done|]. split_and!.
      * rewrite Hc2, Hc1. by rewrite <-Permutation_middle.
      * etransitivity; [|done]. by apply same_data_set_word.
      * intros q [Hqp Hq]%not_elem_of_cons. rewrite Hf2 by done. by rewrite lookup_insert_ne.
Qed.
End partitions.

(** ** A table and its partitions *)

Section table.
Context {A : Type} `{LlvmMathLaws} (exceeds : Z -> Z -> bool).
Implicit Types (h : entries A) (x : t) (cs ls : list (list Z)).
Notation num x := (GenericHashTable.num_elems_ (hash_table_ x)).
Notation cap x := (GenericHashTable.capacity_ (hash_table_ x)).

(** The entries of a table are in its directory ([cs]) or its partitions ([ls]). *)
Record agg_ok h x cs ls : Prop := {
  ag_holds : GenericTable.holds h (hash_table_ x) cs;
  ag_num : num x = Z.of_nat (length (concat cs));
  ag_parts : match partitions_ x with
             | None => ls = replicate K_DEFAULT_NUM_PARTITIONS []
             | Some ps => parts h ps ls
             end;
  ag_entries : entries_ x ≡ₚ concat cs ++ concat ls;
  ag_nodup : NoDup (entries_ x);
  ag_nonzero : Forall (fun p => p <> 0) (entries_ x);
  ag_hashes : Forall (fun p => exists e, h !! p = Some e /\ is_uint 64 (hash_ e)) (entries_ x);
  ag_cap : 2 <= cap x <= 2 ^ 54;
  ag_fill : max_fill_ x = fill_of (cap x) /\ num x <= max_fill_ x;
}.

Lemma fill_half n : 0 <= n -> n <= 2 * fill_of n.
Proof.
  intros Hn. unfold fill_of. pose proof (Z.div_mod (11744051 * n + 2 ^ 23) (2 ^ 24) ltac:(lia)).
  pose proof (Z.mod_pos_bound (11744051 * n + 2 ^ 23) (2 ^ 24) ltac:(lia)). lia.
Qed.

Lemma fill_double n n' : 2 <= n -> 2 * n <= n' -> fill_of n < fill_of n'.
Proof.
  intros Hn Hn'. unfold fill_of. pose proof (Z.div_mod (11744051 * n + 2 ^ 23) (2 ^ 24) ltac:(lia)).
  pose proof (Z.mod_pos_bound (11744051 * n + 2 ^ 23) (2 ^ 24) ltac:(lia)).
  pose proof (Z.div_mod (11744051 * n' + 2 ^ 23) (2 ^ 24) ltac:(lia)).
  pose proof (Z.mod_pos_bound (11744051 * n' + 2 ^ 23) (2 ^ 24) ltac:(lia)). lia.
Qed.

Lemma make_ok size l2 (h : entries A) :
  2 <= size < 2 ^ 32 ->
  exists x, make exceeds size l2 = Some x /\ agg_ok h x (replicate (Z.to_nat (cap x)) []) (replicate K_DEFAULT_NUM_PARTITIONS []) /\
    entries_ x = [] /\ num x = 0 /\ partitions_ x = None /\ 256 <= flush_threshold_ x.
Proof.
  intros Hs. unfold make. destruct (GenericTable.generic_SetSize_wf exceeds size ltac:(lia)) as (g & -> & Hwf & He & Hn & Hc).
  cbn [mbind option_bind]. eexists. split; [done|]. split; [|split_and!; [done|done|done|cbn; lia]].
  pose proof (GenericTable.holds_empty h g Hwf He) as Hh. destruct Hwf as (k & Hk & Hcap & _ & Hlen). rewrite <-Hcap in Hlen.
  split; cbn [hash_table_ partitions_ entries_ max_fill_]; rewrite ?GenericTable.concat_replicate_nil; try done.
  - by replace (Z.to_nat (GenericHashTable.capacity_ g)) with (length (GenericHashTable.entries_ g)) by lia.
  - constructor.
  - lia.
  - split; [done|]. rewrite Hn. pose proof (fill_half (GenericHashTable.capacity_ g)). lia.
Qed.

Lemma ag_disjoint h x cs ls p : agg_ok h x cs ls -> p ∈ concat cs -> p ∈ concat ls -> False.
Proof.
  intros Hok Hc Hl. pose proof (ag_nodup _ _ _ _ Hok) as Hnd. rewrite (ag_entries _ _ _ _ Hok) in Hnd.
  apply NoDup_app in Hnd as (_ & Hd & _). by apply (Hd p).
Qed.

Lemma agg_ok_frame h h' x cs ls :
  (forall q, q ∈ entries_ x -> h' !! q = h !! q) -> agg_ok h x cs ls -> agg_ok h' x cs ls.
Proof.
  intros Hq [Hh Hn Hp He Hnd Hz Hha Hc Hf]. split; try done.
  - eapply GenericTable.holds_frame; [|done]. intros q Hin. apply Hq. rewrite He. apply elem_of_app. by left.
  - destruct (partitions_ x) as [ps|]; [|done]. eapply parts_frame; [|done].
    intros q Hin. apply Hq. rewrite He. apply elem_of_app. by right.
  - rewrite Forall_forall in Hha. apply Forall_forall. intros p Hp'. rewrite Hq by done. by apply Hha.
Qed.

(** Growing is safe only while nothing is in the partitions. *)
Lemma Grow_ok h x cs ls :
  agg_ok h x cs ls -> concat ls = [] -> NeedsToGrow x = true -> num x < 2 ^ 50 ->
  exists h' x' cs', Grow exceeds h x = Some (h', x') /\ agg_ok h' x' cs' ls /\ same_data h h' /\
    (forall q, q ∉ entries_ x -> h' !! q = h !! q) /\ num x' = num x /\ num x' < max_fill_ x' /\
    x' = set_table (hash_table_ x') (max_fill_ x') x.
Proof.
  intros [Hh Hn Hp He Hnd Hz Hha Hc [Hf Hle]] Hls Hg Hnum. unfold NeedsToGrow, NumElements in Hg. apply bool_decide_eq_true in Hg.
  pose proof (fill_half (cap x) ltac:(lia)) as Hhalf. unfold Grow. rewrite wrapu_small by (unfold is_uint; lia).
  destruct (GenericTable.generic_SetSize_wf exceeds (cap x * 2) ltac:(lia)) as (g & -> & Hwf & Hrep & Hg0 & Hgc). cbn [mbind option_bind].
  pose proof (GenericTable.holds_empty h g Hwf Hrep) as Hh0.
  destruct (insert_all_spec (entries_ x) h g _ Hh0 Hnd) as (h' & g' & cs' & -> & Hh' & Hcs' & Hs & Hfr & Hcap & Hnum').
  { rewrite Forall_forall in Hz, Hha. apply Forall_forall. intros p Hin. split; [by apply Hz|]. split.
    - rewrite GenericTable.concat_replicate_nil. apply not_elem_of_nil.
    - destruct (Hha p Hin) as (e & He' & _). eauto. }
  rewrite GenericTable.concat_replicate_nil in Hcs'. cbn [app] in Hcs'. cbn [mbind option_bind].
  assert (length (entries_ x) = length (concat cs)) as Hlen by (by rewrite He, Hls, app_nil_r).
  do 3 eexists. split; [done|]. cbn [set_table hash_table_ max_fill_].
  assert (num x < fill_of (GenericHashTable.capacity_ g')) as Hlt.
  { rewrite Hcap. pose proof (fill_double (cap x) (GenericHashTable.capacity_ g) ltac:(lia) ltac:(lia)). lia. }
  assert (GenericHashTable.num_elems_ g' = num x) as Hnn by (rewrite Hnum', Hg0, Hn; lia).
  split; [|split_and!; [done|done|done|lia|by destruct x]].
  split; cbn [set_table hash_table_ max_fill_ partitions_ entries_]; try done.
  - rewrite Hnn, Hn. by rewrite Hcs', He, Hls, app_nil_r.
  - destruct (partitions_ x) as [ps|]; [|done]. eapply parts_frame; [|done]. intros q Hq. rewrite Hls in Hq. by apply not_elem_of_nil in Hq.
  - by rewrite Hcs', Hls, app_nil_r.
  - rewrite Forall_forall in Hha. apply Forall_forall. intros p Hin. destruct (Hha p Hin) as (e & He' & Hu).
    destruct (same_data_lookup _ _ _ _ Hs He') as (e' & ? & Hhe & _). exists e'. by rewrite Hhe.
  - lia.
  - split; [done|]. lia.
Qed.

Lemma data_at_frame h h' l : (forall q, q ∈ l -> h' !! q = h !! q) -> data_at h' l = data_at h l.
Proof.
  intros Hq. unfold data_at. apply list_omap_ext. apply Forall_Forall2_diag, Forall_forall. intros p Hp. by rewrite Hq.
Qed.

(** The entry is put into the directory. *)
Lemma push_entry_ok p hash a h x cs ls :
  agg_ok h x cs ls -> num x < max_fill_ x -> p <> 0 -> p ∉ entries_ x -> is_uint 64 hash ->
  exists h' g' cs', GenericHashTable.Insert p hash (<[p := mkEntry 0 hash a]> h) (hash_table_ x) = Some (h', g') /\
    agg_ok h' (set_table g' (max_fill_ x) (set_entries (entries_ x ++ [p]) x)) cs' ls /\
    GenericHashTable.num_elems_ g' = num x + 1 /\ data_at h' (entries_ x ++ [p]) = data_at h (entries_ x) ++ [(hash, a)] /\
    (forall q, q <> p -> h' !! q = h !! q) /\ data <$> h' !! p = Some (hash, a).
Proof.
  intros Hok Hlt H0 Hp Hu. set (h1 := <[p := mkEntry 0 hash a]> h).
  assert (forall q, q ∈ entries_ x -> h1 !! q = h !! q) as Hfr
    by (intros q Hq; unfold h1; rewrite lookup_insert_ne; [done|]; by intros ->).
  pose proof (agg_ok_frame _ h1 _ _ _ Hfr Hok) as [Hh Hn Hpt He Hnd Hz Hha Hc [Hf Hle]].
  assert (p ∉ concat cs) as Hpc by (intros Hin; apply Hp; rewrite He; apply elem_of_app; by left).
  assert (p ∉ concat ls) as Hpl by (intros Hin; apply Hp; rewrite He; apply elem_of_app; by right).
  destruct (GenericTable.Insert_holds h1 (hash_table_ x) cs p (mkEntry 0 hash a) Hh ltac:(by unfold h1; rewrite lookup_insert_eq) H0 Hpc)
    as (old & g' & l & Hins & Hl & Hh' & _ & Hcap & Hnum). cbn [hash_] in Hins, Hl, Hh'.
  pose proof (GenericTable.concat_alter_cons cs _ _ p Hl) as Hperm.
  assert (forall q, q <> p -> <[p := set_word old (mkEntry 0 hash a)]> h1 !! q = h !! q) as Hfr2.
  { intros q Hq. rewrite lookup_insert_ne by done. unfold h1. by rewrite lookup_insert_ne. }
  do 3 eexists. split; [exact Hins|]. split; [|split; [done|split; [|split; [exact Hfr2|by rewrite lookup_insert_eq]]]].
  - split; cbn [set_table set_entries hash_table_ max_fill_ partitions_ entries_]; try done.
    + rewrite Hnum, Hn, Hperm. cbn [length]. lia.
    + destruct (partitions_ x) as [ps|]; [|done]. eapply parts_frame; [|done].
      intros q Hq. rewrite lookup_insert_ne; [done|]. by intros ->.
    + rewrite Hperm, He. solve_Permutation.
    + apply NoDup_app. split; [done|]. split; [|apply NoDup_singleton]. intros q Hq ->%list_elem_of_singleton. done.
    + apply Forall_app. split; [done|]. by constructor.
    + apply Forall_app. split.
      * rewrite Forall_forall in Hha. apply Forall_forall. intros q Hq. rewrite lookup_insert_ne by (by intros ->). by apply Hha.
      * constructor; [|done]. eexists. rewrite lookup_insert_eq. by split.
    + lia.
    + split; [congruence|lia].
  - rewrite data_at_app. f_equal.
    + apply data_at_frame. intros q Hq. apply Hfr2. by intros ->.
    + unfold data_at. cbn. by rewrite lookup_insert_eq.
Qed.

(** [Insert]: the entries of the partitions must not be linked again. *)
Lemma Insert_ok p hash a h x cs ls :
  agg_ok h x cs ls -> (NeedsToGrow x = true -> concat ls = []) -> num x < 2 ^ 50 ->
  p <> 0 -> p ∉ entries_ x -> is_uint 64 hash ->
  exists h' x' cs', Insert exceeds p hash a h x = Some (h', x') /\ agg_ok h' x' cs' ls /\
    entries_ x' = entries_ x ++ [p] /\ num x' = num x + 1 /\ partitions_ x' = partitions_ x /\
    flush_threshold_ x' = flush_threshold_ x /\ owned_entries_ x' = owned_entries_ x /\
    data_at h' (entries_ x') = data_at h (entries_ x) ++ [(hash, a)] /\
    (forall q, q ∉ entries_ x -> q <> p -> h' !! q = h !! q) /\ (NeedsToGrow x = false -> max_fill_ x' = max_fill_ x) /\
    data <$> h' !! p = Some (hash, a) /\ (forall q, q <> p -> data <$> h' !! q = data <$> h !! q).
Proof.
  intros Hok Hls Hnum H0 Hp Hu. unfold Insert.
  assert (exists h1 x1 cs1, (if NeedsToGrow x then Grow exceeds h x else Some (h, x)) = Some (h1, x1) /\ agg_ok h1 x1 cs1 ls /\
    same_data h h1 /\ (forall q, q ∉ entries_ x -> h1 !! q = h !! q) /\ num x1 = num x /\ num x1 < max_fill_ x1 /\
    x1 = set_table (hash_table_ x1) (max_fill_ x1) x /\ (NeedsToGrow x = false -> max_fill_ x1 = max_fill_ x))
    as (h1 & x1 & cs1 & -> & Hok1 & Hs1 & Hfr1 & Hn1 & Hlt1 & Hx1 & Hmf).
  { destruct (NeedsToGrow x) eqn:Hg.
    { destruct (Grow_ok h x cs ls Hok (Hls eq_refl) Hg Hnum) as (h1 & x1 & cs1 & ? & ? & ? & ? & ? & ? & ?).
      exists h1, x1, cs1. by split_and!. }
    exists h, x, cs. split_and!; try done; [|by destruct x]. unfold NeedsToGrow, NumElements in Hg. apply bool_decide_eq_false in Hg. lia. }
  assert (entries_ x1 = entries_ x) as Hex by (by rewrite Hx1). cbn [mbind option_bind]. rewrite Hex.
  destruct (push_entry_ok p hash a h1 x1 cs1 ls Hok1 Hlt1 H0 ltac:(by rewrite Hex) Hu)
    as (h2 & g2 & cs2 & Hins & Hok2 & Hn2 & Hd2 & Hfr2 & Hpd). rewrite Hex in Hok2, Hd2.
  cbn [set_entries hash_table_ max_fill_]. rewrite Hins. cbn [mbind option_bind].
  do 3 eexists. split; [done|]. split; [exact Hok2|]. cbn [set_table set_entries entries_ hash_table_ partitions_ flush_threshold_ owned_entries_].
  split_and!; [done|lia|by rewrite Hx1|by rewrite Hx1|by rewrite Hx1| | |done|done|].
  - rewrite Hd2. f_equal. by apply data_at_same.
  - intros q Hq Hqp. rewrite Hfr2 by done. by apply Hfr1.
  - intros q Hq. rewrite Hfr2 by done. apply Hs1.
Qed.

Lemma Flush_ok h x cs ls :
  agg_ok h x cs ls ->
  exists h' x' cs' ls', FlushToOverflowPartitions h x = Some (h', x') /\ agg_ok h' x' cs' ls' /\
    concat cs' = [] /\ (exists ps, partitions_ x' = Some ps) /\ entries_ x' = entries_ x /\
    max_fill_ x' = max_fill_ x /\ flush_threshold_ x' = flush_threshold_ x /\ owned_entries_ x' = owned_entries_ x /\
    same_data h h' /\ (forall q, q ∉ entries_ x -> h' !! q = h !! q).
Proof.
  intros Hok. pose proof Hok as [Hh Hn Hpt He Hnd Hz Hha Hc [Hf Hle]]. unfold FlushToOverflowPartitions.
  set (x1 := AllocateOverflowPartitions x).
  assert (exists ps, partitions_ x1 = Some ps /\ parts h ps ls) as (ps & Hps & Hparts).
  { unfold x1, AllocateOverflowPartitions. destruct (partitions_ x) as [ps|] eqn:E; [by exists ps; rewrite E|].
    eexists. split; [done|]. rewrite Hpt. apply parts_empty. }
  assert (hash_table_ x1 = hash_table_ x /\ entries_ x1 = entries_ x /\ max_fill_ x1 = max_fill_ x /\
    flush_threshold_ x1 = flush_threshold_ x /\ owned_entries_ x1 = owned_entries_ x) as (Ht1 & He1 & Hm1 & Hf1 & Ho1)
    by (unfold x1, AllocateOverflowPartitions; by destruct (partitions_ x)).
  rewrite Hps. cbn [mbind option_bind]. rewrite Ht1, (GenericTable.FlushEntries_spec fst push_partition) with (cs := cs).
  2:{ intros p [h0 ps0] [h1 ps1] q Hpush Hq. cbn in *. destruct ps0 as [heads tails]. cbn in Hpush.
      destruct (h0 !! p) as [e|]; [|done]. cbn in Hpush. destruct (heads !! _); [|done]. cbn in Hpush.
      destruct (tails !! _); [|done]. cbn in Hpush. simplify_eq. by rewrite lookup_insert_ne. }
  2:{ exact Hh. }
  destruct (push_all_spec (concat cs) h ps ls Hparts) as (h' & ps' & ls' & Hsink & Hparts' & Hcl & Hs & Hfr).
  { by destruct Hh as (_ & _ & ? & _). }
  { rewrite Forall_forall in Hz, Hha. apply Forall_forall. intros p Hin.
    assert (p ∈ entries_ x) as Hpe by (rewrite He; apply elem_of_app; by left).
    split; [by apply Hz|]. split; [intros Hin'; by eapply ag_disjoint|by apply Hha]. }
  rewrite Hsink. cbn [mbind option_bind]. do 2 eexists. exists (replicate (length (GenericHashTable.entries_ (hash_table_ x))) []), ls'.
  split; [done|]. pose proof Hh as (Hwf & _). split.
  - split; cbn [set_partitions set_table hash_table_ partitions_ entries_ max_fill_]; rewrite ?Hm1, ?He1; try done.
    + pose proof (GenericTable.holds_empty h' (GenericHashTable.mk (replicate (length (GenericHashTable.entries_ (hash_table_ x))) 0)
        (GenericHashTable.mask_ (hash_table_ x)) (GenericHashTable.capacity_ (hash_table_ x)) 0)) as Hem.
      cbn [GenericHashTable.entries_] in Hem. rewrite length_replicate in Hem. apply Hem; [|done].
      destruct Hwf as (k & ? & ? & ? & ?). exists k. cbn. by rewrite length_replicate.
    + by rewrite GenericTable.concat_replicate_nil.
    + rewrite GenericTable.concat_replicate_nil, Hcl, He. cbn. by rewrite Permutation_app_comm.
    + rewrite Forall_forall in Hha. apply Forall_forall. intros p Hin. destruct (Hha p Hin) as (e & He' & Hu).
      destruct (same_data_lookup _ _ _ _ Hs He') as (e' & ? & Hhe & _). exists e'. by rewrite Hhe.
    + cbn. split; [done|]. rewrite Hf. pose proof (fill_half (cap x)). lia.
  - rewrite GenericTable.concat_replicate_nil. split_and!; [done|eauto|by cbn; rewrite He1|by cbn; rewrite Hm1|by cbn; rewrite Hf1|by cbn; rewrite Ho1|done|].
    intros q Hq. apply Hfr. intros Hin. apply Hq. rewrite He. apply elem_of_app. by left.
Qed.

(** A table that inserts into its partitions: once it was emptied, it is emptied again
    before it would grow. *)
Definition insertable x : Prop :=
  256 <= flush_threshold_ x /\
  (partitions_ x = None \/ (num x < flush_threshold_ x /\ flush_threshold_ x <= max_fill_ x)).

Lemma InsertPartitioned_ok p hash a h x cs ls :
  agg_ok h x cs ls -> insertable x -> num x < 2 ^ 50 -> p <> 0 -> p ∉ entries_ x -> is_uint 64 hash ->
  exists h' x' cs' ls', InsertPartitioned exceeds p hash a h x = Some (h', x') /\ agg_ok h' x' cs' ls' /\ insertable x' /\
    entries_ x' = entries_ x ++ [p] /\ owned_entries_ x' = owned_entries_ x /\
    data_at h' (entries_ x') = data_at h (entries_ x) ++ [(hash, a)] /\
    (forall q, q ∉ entries_ x -> q <> p -> h' !! q = h !! q).
Proof.
  intros Hok [Hthr Hins] Hnum H0 Hp Hu. assert (NeedsToGrow x = true -> concat ls = []) as Hgrow.
  { intros Hg. unfold NeedsToGrow, NumElements in Hg. apply bool_decide_eq_true in Hg. destruct Hins as [Hnone|[? ?]]; [|lia].
    pose proof (ag_parts _ _ _ _ Hok) as Hpt. rewrite Hnone in Hpt. rewrite Hpt. apply GenericTable.concat_replicate_nil. }
  destruct (Insert_ok p hash a h x cs ls Hok Hgrow Hnum H0 Hp Hu)
    as (h1 & x1 & cs1 & Hi & Hok1 & He1 & Hn1 & Hpt1 & Ht1 & Ho1 & Hd1 & Hfr1 & Hmf1 & _).
  unfold InsertPartitioned. rewrite Hi. cbn [mbind option_bind]. unfold NumElements. case_decide as Hfl.
  - destruct (Flush_ok h1 x1 cs1 ls Hok1) as (h2 & x2 & cs2 & ls2 & -> & Hok2 & Hc2 & _ & He2 & Hm2 & Ht2 & Ho2 & Hs2 & Hfr2).
    exists h2, x2, cs2, ls2. split; [done|]. split; [done|]. split_and!.
    + split; [lia|]. right. rewrite (ag_num _ _ _ _ Hok2), Hc2. cbn.
      pose proof (proj2 (ag_fill _ _ _ _ Hok1)). lia.
    + by rewrite He2.
    + congruence.
    + rewrite He2, <-Hd1. by apply data_at_same.
    + intros q Hq Hqp. rewrite Hfr2; [by apply Hfr1|]. rewrite He1, elem_of_app, list_elem_of_singleton. naive_solver.
  - exists h1, x1, cs1, ls. split; [done|]. split; [done|]. split_and!; try done. split; [lia|]. rewrite Hpt1.
    destruct Hins as [Hnone|[? ?]]; [by left|right]. rewrite Hmf1; [lia|].
    unfold NeedsToGrow, NumElements. apply bool_decide_eq_false. lia.
Qed.
End table.

(** ** Taking over partitions *)

Section transfer.
Context {A : Type} `{LlvmMathLaws} (exceeds : Z -> Z -> bool).
Implicit Types (h : entries A) (x : t) (cs ls : list (list Z)).

Lemma chain_append h p l tail e head l' :
  chain h p l -> last l = Some tail -> h !! tail = Some e -> chain h head l' -> NoDup (l ++ l') ->
  chain (<[tail := set_word head e]> h) p (l ++ l').
Proof.
  intros Hc. induction Hc as [|p e0 l Hp He0 Hc IH]; intros Hl He Hh Hnd; [done|].
  cbn in Hnd. apply NoDup_cons in Hnd as [Hpn Hnd]. destruct l as [|q l].
  - cbn in Hl. injection Hl as <-. rewrite He in He0. injection He0 as <-. inversion Hc.
    econstructor; [done|by rewrite lookup_insert_eq|]. cbn [word_ set_word]. by apply chain_insert.
  - assert (tail ∈ q :: l) as Hin by (by apply last_Some_elem_of).
    econstructor; [done|rewrite lookup_insert_ne; [done|]|].
    + intros ->. apply Hpn, elem_of_app. by left.
    + apply IH; try done.
Qed.

Lemma concat_insert_app ls i l l' : ls !! i = Some l' -> concat (<[i := l ++ l']> ls) ≡ₚ l ++ concat ls.
Proof.
  revert i. induction ls as [|c ls IH]; intros i Hi; [done|]. destruct i as [|i]; cbn in *.
  - simplify_eq. by rewrite app_assoc.
  - rewrite IH by done. by rewrite Permutation_app_swap_app.
Qed.

(** The lists of the source from [i] on. *)
Definition source_ok h (source : list Z * list Z) (srcs : list (list Z)) (i : nat) : Prop :=
  forall j, (i <= j < K_DEFAULT_NUM_PARTITIONS)%nat ->
    exists head tail l, source.1 !! j = Some head /\ source.2 !! j = Some tail /\ srcs !! j = Some l /\
      chain h head l /\ tail = default 0 (last l) /\ forall q, q ∈ l -> has_partition h j q.

Lemma link_partition_spec h ps ls source srcs i l l' :
  parts h ps ls -> source_ok h source srcs i -> (i < K_DEFAULT_NUM_PARTITIONS)%nat ->
  srcs !! i = Some l -> ls !! i = Some l' -> NoDup (concat srcs) -> (forall q, q ∈ l -> q ∉ concat ls) ->
  exists h' ps', link_partition i source (h, ps) = Some (h', ps') /\ parts h' ps' (<[i := l ++ l']> ls) /\
    source_ok h' source srcs (S i) /\ same_data h h' /\ (forall q, q ∉ concat srcs -> h' !! q = h !! q).
Proof.
  intros Hp Hsrc Hi Hl Hl' Hnd Hdis.
  destruct (Hsrc i ltac:(lia)) as (shead & stail & l0 & Hsh & Hst & Hl0 & Hsc & Hstl & Hspl). rewrite Hl in Hl0. injection Hl0 as <-.
  destruct (parts_lookup _ _ _ _ Hp Hi) as (head & tail & l1 & Hh & Ht & Hl1 & Hc & Htl & Hpl). rewrite Hl' in Hl1. injection Hl1 as <-.
  destruct ps as [heads tails]. cbn [fst snd] in *. unfold link_partition. rewrite Hsh. cbn [mbind option_bind]. case_decide as H0.
  - subst shead. inversion Hsc; [|done]. subst l. exists h, (heads, tails). split; [done|]. cbn [app]. rewrite list_insert_id by done.
    split; [done|]. split_and!; [intros j Hj; apply Hsrc; lia|done|done].
  - rewrite Hst. destruct (last l) as [z|] eqn:Hz; [|destruct l; [inversion Hsc; done|by apply last_None in Hz]].
    cbn in Hstl. subst stail. assert (z ∈ l) as Hzl by (by apply last_Some_elem_of).
    destruct (Hspl z Hzl) as (e & He & Hep). cbn [mbind option_bind]. rewrite He, Hh, Ht. cbn [mbind option_bind].
    assert (forall q, q ∈ l -> q ∈ concat srcs) as Hlin by (intros q Hq; apply GenericTable.elem_of_concat; eauto).
    assert (forall q, q ∈ l' -> q ∈ concat ls) as Hlin' by (intros q Hq; apply GenericTable.elem_of_concat; eauto).
    assert (concat (<[i := l ++ l']> ls) ≡ₚ l ++ concat ls) as Hperm by (by apply concat_insert_app).
    assert (NoDup (l ++ concat ls)) as Hndl.
    { apply NoDup_app. split; [by eapply chain_NoDup|]. split; [|by apply (pt_nodup _ _ _ Hp)]. intros q Hq. by apply Hdis. }
    assert (forall j q, has_partition h j q -> has_partition (<[z := set_word head e]> h) j q) as Hhp.
    { intros j q (e' & He' & Hpe). destruct (decide (z = q)) as [<-|Hne].
      - exists (set_word head e). rewrite lookup_insert_eq. rewrite He in He'. by injection He' as <-.
      - exists e'. by rewrite lookup_insert_ne. }
    do 2 eexists. split; [done|]. split_and!.
    + eapply (parts_set h _ (heads, tails) ls i head tail l' _ _ (if decide (tail = 0) then z else tail)); try done.
      * case_decide; [done|]. symmetry. by apply list_insert_id.
      * by rewrite Hperm.
      * intros q Hq _. rewrite lookup_insert_ne; [done|]. intros ->. by apply (Hdis q).
      * apply chain_append; try done. apply NoDup_app. split; [by eapply chain_NoDup|]. split; [|by eapply chain_NoDup].
        intros q Hq Hq'. apply (Hdis q); [done|by apply Hlin'].
      * rewrite last_app, Htl. destruct (last l') as [y|] eqn:Hy; cbn; [|by rewrite Hz].
        rewrite decide_False; [done|]. eapply chain_nonzero; [exact Hc|]. by apply last_Some_elem_of.
      * intros q [Hq|Hq]%elem_of_app; apply Hhp; auto.
    + intros j Hj. destruct (Hsrc j ltac:(lia)) as (hd & tl & lj & H1 & H2 & H3 & H4 & H5 & H6).
      exists hd, tl, lj. split_and!; try done; [|intros q Hq; by apply Hhp, H6]. apply chain_insert; [|done].
      intros Hin. assert (i = j) by (by eapply (GenericTable.concat_disjoint srcs)). lia.
    + by apply same_data_set_word.
    + intros q Hq. rewrite lookup_insert_ne; [done|]. intros ->. by apply Hq, Hlin.
Qed.

Lemma link_partitions_spec n i h ps ls source srcs :
  parts h ps ls -> source_ok h source srcs i -> (i + n = K_DEFAULT_NUM_PARTITIONS)%nat ->
  length srcs = K_DEFAULT_NUM_PARTITIONS -> NoDup (concat srcs) -> (forall q, q ∈ concat (drop i srcs) -> q ∉ concat ls) ->
  exists h' ps' ls', link_partitions n i source (h, ps) = Some (h', ps') /\ parts h' ps' ls' /\
    concat ls' ≡ₚ concat (drop i srcs) ++ concat ls /\ same_data h h' /\ (forall q, q ∉ concat srcs -> h' !! q = h !! q).
Proof.
  revert i h ps ls. induction n as [|n IH]; intros i h ps ls Hp Hs Hi Hlen Hnd Hdis; cbn [link_partitions].
  - exists h, ps, ls. rewrite drop_ge by lia. done.
  - destruct (lookup_lt_is_Some_2 srcs i ltac:(lia)) as [l Hl].
    destruct (lookup_lt_is_Some_2 ls i) as [l' Hl']; [rewrite (pt_count _ _ _ Hp); lia|].
    rewrite (drop_S _ _ _ Hl) in Hdis |- *. cbn [concat] in Hdis |- *.
    destruct (link_partition_spec h ps ls source srcs i l l' Hp Hs ltac:(lia) Hl Hl' Hnd) as (h1 & ps1 & -> & Hp1 & Hs1 & Hd1 & Hf1).
    { intros q Hq. apply Hdis, elem_of_app. by left. }
    cbn [mbind option_bind]. pose proof (concat_insert_app ls i l l' Hl') as Hperm.
    destruct (IH (S i) h1 ps1 _ Hp1 Hs1 ltac:(lia) Hlen Hnd) as (h2 & ps2 & ls2 & -> & Hp2 & Hc2 & Hd2 & Hf2).
    { intros q Hq. rewrite Hperm, elem_of_app. intros [Hin|Hin].
      - rewrite <-(take_drop i srcs), concat_app in Hnd. apply NoDup_app in Hnd as (_ & _ & Hnd).
        rewrite (drop_S _ _ _ Hl) in Hnd. cbn [concat] in Hnd. apply NoDup_app in Hnd as (_ & Hd & _). by apply (Hd q).
      - apply (Hdis q); [apply elem_of_app; by right|done]. }
    exists h2, ps2, ls2. split; [done|]. split; [done|]. split_and!.
    + rewrite Hc2, Hperm. by rewrite Permutation_app_swap_app, app_assoc.
    + by etransitivity.
    + intros q Hq. rewrite Hf2 by done. by apply Hf1.
Qed.

(** The global table: its partitions have its own entries and those it took over. *)
Record global_ok h x ls : Prop := {
  gl_parts : exists ps, partitions_ x = Some ps /\ parts h ps ls;
  gl_there : Forall (fun p => is_Some (h !! p)) (concat ls);
}.

Lemma take_table_ok h x ls table cs src :
  global_ok h x ls -> agg_ok h table cs src -> (forall q, q ∈ entries_ table -> q ∉ concat ls) ->
  exists h' x' ls', take_table h x table = Some (h', x') /\ global_ok h' x' ls' /\
    concat ls' ≡ₚ entries_ table ++ concat ls /\ same_data h h' /\ (forall q, q ∉ entries_ table -> h' !! q = h !! q).
Proof.
  intros [(ps & Hps & Hp) Hth] Hok Hdis. unfold take_table.
  destruct (Flush_ok h table cs src Hok) as (h1 & t1 & cs1 & ls1 & -> & Hok1 & Hc1 & (tps & Htps) & He1 & _ & _ & _ & Hd1 & Hf1).
  cbn [mbind option_bind]. rewrite Htps, Hps. cbn [mbind option_bind].
  pose proof (ag_parts _ _ _ _ Hok1) as Hp1. rewrite Htps in Hp1.
  assert (concat ls1 ≡ₚ entries_ table) as Hents by (by rewrite <-He1, (ag_entries _ _ _ _ Hok1), Hc1).
  assert (parts h1 ps ls) as Hpg.
  { eapply parts_frame; [|done]. intros q Hq. apply Hf1. intros Hin. by apply (Hdis q). }
  destruct (link_partitions_spec K_DEFAULT_NUM_PARTITIONS 0 h1 ps ls tps ls1 Hpg) as (h2 & ps2 & ls2 & -> & Hp2 & Hc2 & Hd2 & Hf2).
  { intros j Hj. apply (parts_lookup _ _ _ _ Hp1). lia. }
  { done. }
  { by apply (pt_count _ _ _ Hp1). }
  { by apply (pt_nodup _ _ _ Hp1). }
  { intros q. rewrite drop_0, Hents. apply Hdis. }
  cbn [mbind option_bind]. rewrite drop_0 in Hc2. assert (same_data h h2) as Hd by (by etransitivity).
  exists h2. do 2 eexists. split; [done|]. split; [split|].
  - cbn. eauto.
  - rewrite Hc2, Hents. apply Forall_app. split.
    + eapply Forall_impl; [apply (ag_hashes _ _ _ _ Hok)|]. intros p (e & He & _).
      destruct (same_data_lookup _ _ _ _ Hd He) as (e' & -> & _). eauto.
    + eapply Forall_impl; [done|]. intros p [e He]. destruct (same_data_lookup _ _ _ _ Hd He) as (e' & -> & _). eauto.
  - split_and!; [by rewrite Hc2, Hents|done|]. intros q Hq. rewrite Hf2 by (by rewrite Hents). by apply Hf1.
Qed.

Lemma take_tables_ok tables h x ls :
  global_ok h x ls -> Forall (fun table => exists cs src, agg_ok h table cs src) tables ->
  NoDup (concat (entries_ <$> tables)) -> (forall q, q ∈ concat (entries_ <$> tables) -> q ∉ concat ls) ->
  exists h' x' ls', take_tables tables h x = Some (h', x') /\ global_ok h' x' ls' /\
    concat ls' ≡ₚ concat (entries_ <$> tables) ++ concat ls /\ same_data h h'.
Proof.
  revert h x ls. induction tables as [|table tables IH]; intros h x ls Hg Hts Hnd Hdis; cbn [take_tables].
  - by exists h, x, ls.
  - apply Forall_cons in Hts as [(cs & src & Hok) Hts]. cbn in Hnd, Hdis |- *. apply NoDup_app in Hnd as (Hn1 & Hd & Hn2).
    destruct (take_table_ok h x ls table cs src Hg Hok) as (h1 & x1 & ls1 & -> & Hg1 & Hc1 & Hd1 & Hf1).
    { intros q Hq. apply Hdis, elem_of_app. by left. }
    cbn [mbind option_bind]. destruct (IH h1 x1 ls1 Hg1) as (h2 & x2 & ls2 & -> & Hg2 & Hc2 & Hd2).
    + apply Forall_lookup. intros i table' Hi. destruct (Forall_lookup_1 _ _ _ _ Hts Hi) as (cs' & src' & Hok').
      exists cs', src'. eapply agg_ok_frame; [|done]. intros q Hq. apply Hf1. intros Hin. apply (Hd q Hin).
      apply GenericTable.elem_of_concat. exists i, (entries_ table'). by rewrite list_lookup_fmap, Hi.
    + done.
    + intros q Hq. rewrite Hc1, elem_of_app. intros [Hin|Hin]; [by apply (Hd q)|].
      apply (Hdis q); [apply elem_of_app; by right|done].
    + exists h2, x2, ls2. split; [done|]. split; [done|]. split; [|by etransitivity].
      rewrite Hc2, Hc1. by rewrite Permutation_app_swap_app, app_assoc.
Qed.

(** ** Reading the partitions *)

Lemma iterate_chain fuel h p l :
  chain h p l -> (length l <= fuel)%nat -> iterate fuel h (mkIter [] p) = Some (data_at h l).
Proof.
  intros Hc. revert fuel. induction Hc as [|p e l Hp He Hc IH]; intros fuel Hf; [by destruct fuel|].
  destruct fuel as [|fuel]; [cbn in Hf; lia|]. cbn [iterate curr_]. unfold Next. cbn [curr_ partitions_iter_].
  rewrite decide_False, He by done. cbn [mbind option_bind]. rewrite (decide_False (P := p = 0)) by done. cbn in Hf.
  assert (data_at h (p :: l) = data e :: data_at h l) as -> by (unfold data_at; cbn; by rewrite He).
  case_decide as Hw.
  - cbn [next_partition]. rewrite Hw in Hc. inversion Hc; [|done]. by destruct fuel.
  - cbn [mbind option_bind]. by rewrite IH by lia.
Qed.

Definition in_partition (i : nat) (rows : list (Z * A)) : list (Z * A) := filter (fun r => partition_of r.1 = i) rows.

Lemma in_partition_none i rows : (forall r, r ∈ rows -> partition_of r.1 <> i) -> in_partition i rows = [].
Proof. intros Hr. apply filter_none, Forall_forall. auto. Qed.

Lemma in_partition_all i rows : (forall r, r ∈ rows -> partition_of r.1 = i) -> in_partition i rows = rows.
Proof.
  intros Hr. unfold in_partition. induction rows as [|r rows IH]; [done|]. rewrite filter_cons_True by (apply Hr; by left).
  f_equal. apply IH. intros r' Hr'. apply Hr. by right.
Qed.

Lemma in_partition_app i rows rows' : in_partition i (rows ++ rows') = in_partition i rows ++ in_partition i rows'.
Proof. apply filter_app. Qed.

Lemma parts_rows h ps ls i l :
  parts h ps ls -> ls !! i = Some l -> in_partition i (data_at h (concat ls)) = data_at h l.
Proof.
  intros Hp Hl. assert (forall j l' r, ls !! j = Some l' -> r ∈ data_at h l' -> partition_of r.1 = j) as Hj.
  { intros j l' r Hl' Hr. destruct (parts_lookup _ _ _ j Hp) as (hd & tl & l0 & _ & _ & Hl0 & _ & _ & Hpl).
    { rewrite <-(pt_count _ _ _ Hp). by eapply lookup_lt_Some. }
    rewrite Hl' in Hl0. injection Hl0 as <-. apply list_elem_of_omap in Hr as (q & Hq & Hd).
    destruct (Hpl q Hq) as (e & He & <-). rewrite He in Hd. by injection Hd as <-. }
  assert (forall ls', (forall l', l' ∈ ls' -> exists j, ls !! j = Some l' /\ j <> i) ->
    in_partition i (data_at h (concat ls')) = []) as Hnone.
  { intros ls' Hls'. apply in_partition_none. intros r Hr. apply list_elem_of_omap in Hr as (q & Hq & Hd).
    apply GenericTable.elem_of_concat in Hq as (k & l' & Hk & Hq). destruct (Hls' l') as (j & Hlj & Hne); [by eapply list_elem_of_lookup_2|].
    rewrite (Hj j l' r Hlj); [done|]. apply list_elem_of_omap. eauto. }
  rewrite <-(take_drop_middle _ _ _ Hl), concat_app. cbn [concat]. rewrite !data_at_app, !in_partition_app, !Hnone.
  - rewrite app_nil_r. cbn [app]. apply in_partition_all. intros r Hr. by eapply Hj.
  - intros l' [k Hk]%list_elem_of_lookup. rewrite lookup_drop in Hk. eexists. split; [done|lia].
  - intros l' [k Hk]%list_elem_of_lookup. apply lookup_take_Some in Hk as [Hk Hlt]. eexists. split; [done|lia].
Qed.

(** ** The threads *)

(** The insertions of the threads, in the order in which they happen: the thread, the
    address of the new entry, its hash and aggregate. *)
Fixpoint insert_run (ops : list (nat * (Z * (Z * A)))) h (tables : list t) : option (entries A * list t) :=
  match ops with
  | [] => Some (h, tables)
  | (i, (p, (hash, a))) :: ops =>
      x ← tables !! i; '(h, x) ← InsertPartitioned exceeds p hash a h x; insert_run ops h (<[i := x]> tables)
  end.

Record threads_ok h (tables : list t) (rows : list (Z * A)) : Prop := {
  th_ok : Forall (fun x => (exists cs ls, agg_ok h x cs ls) /\ insertable x) tables;
  th_nodup : NoDup (concat (entries_ <$> tables));
  th_rows : data_at h (concat (entries_ <$> tables)) ≡ₚ rows;
}.

Lemma entries_set (tables : list t) i x x' p :
  tables !! i = Some x -> entries_ x' = entries_ x ++ [p] ->
  concat (entries_ <$> <[i := x']> tables) ≡ₚ p :: concat (entries_ <$> tables).
Proof.
  revert i. induction tables as [|y tables IH]; intros i Hi He; [done|]. destruct i as [|i]; cbn in *.
  - injection Hi as ->. rewrite He, <-app_assoc. cbn. by rewrite <-Permutation_middle.
  - rewrite (IH i) by done. by rewrite <-Permutation_middle.
Qed.

Lemma entries_elem (tables : list t) i x q : tables !! i = Some x -> q ∈ entries_ x -> q ∈ concat (entries_ <$> tables).
Proof. intros Hi Hq. apply GenericTable.elem_of_concat. exists i, (entries_ x). by rewrite list_lookup_fmap, Hi. Qed.

Lemma insert_run_step i p hash a h tables rows x :
  threads_ok h tables rows -> tables !! i = Some x -> p <> 0 -> p ∉ concat (entries_ <$> tables) -> is_uint 64 hash ->
  Z.of_nat (length (concat (entries_ <$> tables))) < 2 ^ 50 ->
  exists h' x', InsertPartitioned exceeds p hash a h x = Some (h', x') /\ entries_ x' = entries_ x ++ [p] /\
    threads_ok h' (<[i := x']> tables) (rows ++ [(hash, a)]).
Proof.
  intros [Hok Hnd Hrows] Hi H0 Hp Hu Hlen. destruct (Forall_lookup_1 _ _ _ _ Hok Hi) as [(cs & ls & Hx) Hins].
  assert (forall q, q ∈ entries_ x -> q ∈ concat (entries_ <$> tables)) as Hin by (intros q Hq; by eapply entries_elem).
  assert (GenericHashTable.num_elems_ (hash_table_ x) < 2 ^ 50) as Hnum.
  { rewrite (ag_num _ _ _ _ Hx). assert (length (concat cs) <= length (concat (entries_ <$> tables)))%nat; [|lia].
    apply submseteq_length, NoDup_submseteq; [by destruct (ag_holds _ _ _ _ Hx) as (_ & _ & ? & _)|].
    intros q Hq. apply Hin. rewrite (ag_entries _ _ _ _ Hx). apply elem_of_app. by left. }
  destruct (InsertPartitioned_ok exceeds p hash a h x cs ls Hx Hins Hnum H0 ltac:(by intros Hq; apply Hp, Hin) Hu)
    as (h' & x' & cs' & ls' & HI & Hx' & Hins' & He & _ & Hd & Hfr).
  exists h', x'. split; [done|]. split; [done|].
  assert (forall j y q, j <> i -> tables !! j = Some y -> q ∈ entries_ y -> h' !! q = h !! q) as Hother.
  { intros j y q Hj Hy Hq. apply Hfr; [|intros ->; apply Hp; by eapply entries_elem]. intros Hqx. apply Hj.
    apply (GenericTable.concat_disjoint (entries_ <$> tables) j i (entries_ y) (entries_ x) q); try done.
    - by rewrite list_lookup_fmap, Hy.
    - by rewrite list_lookup_fmap, Hi. }
  pose proof (entries_set tables i x x' p Hi He) as Hperm. split.
  - apply Forall_lookup. intros j y Hy. apply list_lookup_insert_Some in Hy as [(-> & -> & _)|[Hne Hy]]; [eauto|].
    destruct (Forall_lookup_1 _ _ _ _ Hok Hy) as [(csj & lsj & Hyok) Hyins]. split; [|done]. exists csj, lsj.
    eapply agg_ok_frame; [|done]. intros q Hq. by eapply Hother.
  - rewrite Hperm. by constructor.
  - clear Hok Hnd Hlen. assert (data_at h' (concat (entries_ <$> <[i := x']> tables)) ≡ₚ data_at h (concat (entries_ <$> tables)) ++ [(hash, a)]) as ->;
      [|by rewrite Hrows].
    rewrite insert_take_drop by (by eapply lookup_lt_Some). rewrite <-(take_drop_middle _ _ _ Hi) at 3.
    rewrite !fmap_app, !concat_app. cbn [fmap list_fmap concat]. rewrite !data_at_app, Hd.
    assert (forall ts, (forall y, y ∈ ts -> exists j, tables !! j = Some y /\ j <> i) ->
      data_at h' (concat (entries_ <$> ts)) = data_at h (concat (entries_ <$> ts))) as Hsame.
    { intros ts Hts. apply data_at_frame. intros q (j & l & Hj & Hq)%GenericTable.elem_of_concat.
      rewrite list_lookup_fmap in Hj. apply fmap_Some in Hj as (y & Hy & ->).
      destruct (Hts y) as (k & Hk & Hne); [by eapply list_elem_of_lookup_2|]. by eapply Hother. }
    rewrite !Hsame.
    + solve_Permutation.
    + intros y [k Hk]%list_elem_of_lookup. rewrite lookup_drop in Hk. eexists. split; [done|lia].
    + intros y [k Hk]%list_elem_of_lookup. apply lookup_take_Some in Hk as [Hk Hlt]. eexists. split; [done|lia].
Qed.

Lemma insert_run_ok ops h tables rows :
  threads_ok h tables rows -> Forall (fun op => (op.1 < length tables)%nat /\ op.2.1 <> 0 /\ is_uint 64 op.2.2.1) ops ->
  NoDup (concat (entries_ <$> tables) ++ ops.*2.*1) ->
  Z.of_nat (length (concat (entries_ <$> tables)) + length ops) < 2 ^ 50 ->
  exists h' tables', insert_run ops h tables = Some (h', tables') /\ threads_ok h' tables' (rows ++ ops.*2.*2).
Proof.
  revert h tables rows. induction ops as [|[i [p [hash a]]] ops IH]; intros h tables rows Hok Hops Hnd Hlen; cbn [insert_run].
  - exists h, tables. by rewrite app_nil_r.
  - apply Forall_cons in Hops as [(Hi & H0 & Hu) Hops]. cbn in Hi, H0, Hu, Hnd, Hlen.
    destruct (lookup_lt_is_Some_2 tables i Hi) as [x Hx]. rewrite Hx. cbn [mbind option_bind].
    assert (p ∉ concat (entries_ <$> tables)) as Hp.
    { apply NoDup_app in Hnd as (_ & Hd & _). intros Hin. apply (Hd p Hin). by left. }
    destruct (insert_run_step i p hash a h tables rows x Hok Hx H0 Hp Hu ltac:(lia)) as (h1 & x1 & -> & He & Hok1).
    cbn [mbind option_bind]. pose proof (entries_set tables i x x1 p Hx He) as Hperm.
    destruct (IH h1 _ _ Hok1) as (h2 & t2 & -> & Hok2).
    + by rewrite length_insert.
    + rewrite Hperm. by rewrite <-Permutation_middle in Hnd.
    + rewrite Hperm. cbn [length]. lia.
    + exists h2, t2. split; [done|]. cbn. by rewrite <-app_assoc in Hok2.
Qed.

Lemma partition_rows_spec h x ls i :
  global_ok h x ls -> (i < K_DEFAULT_NUM_PARTITIONS)%nat -> in_partition i (data_at h (concat ls)) <> [] ->
  partition_rows i h x = Some (in_partition i (data_at h (concat ls))).
Proof.
  intros [(ps & Hps & Hp) _] Hi Hne. destruct (parts_lookup _ _ _ _ Hp Hi) as (head & tail & l & Hh & Ht & Hl & Hc & _).
  rewrite (parts_rows _ _ _ _ _ Hp Hl) in Hne |- *. unfold partition_rows. rewrite Hps. cbn [mbind option_bind]. rewrite Hh.
  cbn [mbind option_bind]. assert (head <> 0) as H0.
  { intros ->. inversion Hc; [|done]. by subst l. }
  rewrite decide_False by done. unfold Next. cbn [curr_ partitions_iter_]. rewrite decide_True by done.
  cbn [mbind option_bind next_partition]. rewrite decide_False by done. apply iterate_chain; [done|].
  by apply (bucket_chain_length _ _ _ Hc).
Qed.

Lemma nonempty_parts_spec h x ls :
  global_ok h x ls ->
  exists parts, nonempty_parts x = Some parts /\ NoDup parts /\
    forall i, i ∈ parts <-> (i < K_DEFAULT_NUM_PARTITIONS)%nat /\ in_partition i (data_at h (concat ls)) <> [].
Proof.
  intros [(ps & Hps & Hp) Hth]. unfold nonempty_parts. rewrite Hps. cbn [mbind option_bind]. eexists. split; [done|].
  split; [apply NoDup_filter, NoDup_seq|].
  assert (forall i, (i < K_DEFAULT_NUM_PARTITIONS)%nat -> ps.1 !! i <> Some 0 <-> in_partition i (data_at h (concat ls)) <> []) as Hiff.
  { intros i Hi. destruct (parts_lookup _ _ _ _ Hp Hi) as (head & tail & l & Hh & Ht & Hl & Hc & _ & Hpl).
    rewrite (parts_rows _ _ _ _ _ Hp Hl), Hh. inversion Hc as [|p e l' H0 He Hc']; subst.
    - split; intros Hx; exfalso; by apply Hx.
    - split; intros _; [|congruence]. unfold data_at. cbn. by rewrite He. }
  intros i. rewrite list_elem_of_filter, elem_of_seq. split; intros [H1 H2].
  - split; [lia|]. apply Hiff; [lia|done].
  - split; [by apply Hiff|lia].
Qed.

(** C19: Threads insert partial aggregates into their tables, in any interleaving, and the
    global table takes the tables over: its nonempty partitions are exactly those some
    hash belongs to, and each of them has every row of every thread whose hash belongs
    to it, once. *)
Theorem agg_partitions (threads : nat) (l2_fill : Z) (ops : list (nat * (Z * (Z * A)))) h0 x0 :
  make exceeds K_DEFAULT_INITIAL_TABLE_SIZE l2_fill = Some x0 ->
  Forall (fun op => (op.1 < threads)%nat /\ op.2.1 <> 0 /\ is_uint 64 op.2.2.1) ops ->
  NoDup ops.*2.*1 -> Z.of_nat (length ops) < 2 ^ 50 ->
  exists h tables h' x' nonempty, insert_run ops h0 (replicate threads x0) = Some (h, tables) /\
    TransferMemoryAndPartitions tables h x0 = Some (h', x') /\ nonempty_parts x' = Some nonempty /\ NoDup nonempty /\
    (forall i, i ∈ nonempty <-> in_partition i ops.*2.*2 <> []) /\
    forall i, i ∈ nonempty -> exists rows, partition_rows i h' x' = Some rows /\ rows ≡ₚ in_partition i ops.*2.*2.
Proof.
  intros Hmake Hops Hnd Hlen.
  destruct (make_ok exceeds K_DEFAULT_INITIAL_TABLE_SIZE l2_fill h0 ltac:(done)) as (x1 & Hx1 & Hok0 & He0 & Hn0 & Hp0 & Ht0).
  rewrite Hmake in Hx1. injection Hx1 as <-.
  assert (concat (entries_ <$> replicate threads x0) = []) as Hnil.
  { clear Hops. induction threads as [|n IH]; [done|]. cbn. by rewrite He0. }
  destruct (insert_run_ok ops h0 (replicate threads x0) []) as (h & tables & Hrun & [Hok Hn Hrows]).
  { split; [|by rewrite Hnil; constructor|by rewrite Hnil]. apply Forall_replicate. split; [eauto|]. split; [done|by left]. }
  { by rewrite length_replicate. }
  { by rewrite Hnil. }
  { by rewrite Hnil. }
  cbn [app] in Hrows. unfold TransferMemoryAndPartitions.
  assert (AllocateOverflowPartitions x0 = set_partitions (replicate K_DEFAULT_NUM_PARTITIONS 0, replicate K_DEFAULT_NUM_PARTITIONS 0) x0) as Halloc
    by (unfold AllocateOverflowPartitions; by rewrite Hp0).
  assert (global_ok h (AllocateOverflowPartitions x0) (replicate K_DEFAULT_NUM_PARTITIONS [])) as Hg0.
  { rewrite Halloc. split; [eexists; split; [done|apply parts_empty]|]. rewrite GenericTable.concat_replicate_nil. constructor. }
  destruct (take_tables_ok tables h (AllocateOverflowPartitions x0) (replicate K_DEFAULT_NUM_PARTITIONS []) Hg0)
    as (h' & x' & ls & Htake & Hg & Hcat & Hd); [by eapply Forall_impl; [done|]; intros x [? _]|done| |].
  { intros q _. rewrite GenericTable.concat_replicate_nil. apply not_elem_of_nil. }
  destruct (nonempty_parts_spec h' x' ls Hg) as (parts & Hparts & Hpn & Hpe). rewrite GenericTable.concat_replicate_nil, app_nil_r in Hcat.
  assert (data_at h' (concat ls) ≡ₚ ops.*2.*2) as Hall.
  { rewrite <-Hrows, <-(data_at_same h h') by done. unfold data_at. by rewrite Hcat. }
  assert (forall i, in_partition i (data_at h' (concat ls)) ≡ₚ in_partition i ops.*2.*2) as Hin
    by (intros i; unfold in_partition; by rewrite Hall).
  exists h, tables, h', x', parts. split; [done|]. split.
  { rewrite decide_False; [done|]. unfold NumElements. rewrite Halloc. cbn. lia. }
  split; [done|]. split; [done|]. split.
  - intros i. rewrite Hpe. assert (in_partition i (data_at h' (concat ls)) = [] <-> in_partition i ops.*2.*2 = []) as ->.
    { specialize (Hin i). split; intros E; rewrite E in Hin; [by apply Permutation_nil_l in Hin|by apply Permutation_nil_r in Hin]. }
    split; [by intros [_ ?]|]. intros Hne. split; [|done]. destruct (in_partition i ops.*2.*2) as [|r l] eqn:E; [done|].
    assert (r ∈ in_partition i ops.*2.*2) as Hr by (rewrite E; by left). apply list_elem_of_filter in Hr as [<- Hr].
    apply list_elem_of_fmap in Hr as (y & -> & Hy). apply list_elem_of_fmap in Hy as (op & -> & Hop).
    rewrite Forall_forall in Hops. apply partition_bound. by apply Hops.
  - intros i Hi. apply Hpe in Hi as [Hlt Hne]. eexists. split; [by apply (partition_rows_spec h' x' ls)|done].
Qed.
End transfer.

(** Two threads and three rows, two of them in the same partition. *)
Lemma agg_partitions_witness :
  exists x0, make (fun _ _ => false) K_DEFAULT_INITIAL_TABLE_SIZE 1024 = Some x0 /\
    exists h tables h' x' rows,
      insert_run (fun _ _ => false) [(0%nat, (16, (5, 10))); (1%nat, (48, (2 ^ 60, 20))); (1%nat, (80, (7, 30)))] ∅ (replicate 2 x0) = Some (h, tables) /\
      TransferMemoryAndPartitions tables h x0 = Some (h', x') /\ partition_rows 0 h' x' = Some rows /\ rows ≡ₚ [(5, 10); (7, 30)].
Proof.
  eexists. split; [reflexivity|].
  edestruct (agg_partitions (fun _ _ => false) 2 1024 [(0%nat, (16, (5, 10))); (1%nat, (48, (2 ^ 60, 20))); (1%nat, (80, (7, 30)))] ∅)
    as (h & tables & h' & x' & nonempty & Hrun & Htr & _ & _ & Hne & Hrows).
  - reflexivity.
  - repeat constructor; done.
  - cbn. by repeat constructor; set_solver.
  - done.
  - destruct (Hrows 0%nat) as (rows & Hr & Hp).
    + by apply Hne.
    + exists h, tables, h', x', rows. by split_and!.
Defined.
