(* ===== verification/AggBatch.v ===== *)
(** * Aggregating a vector of tuples

    [AggregationHashTable::ProcessBatch] against a map from keys to aggregates.  The
    lookup of a vector leaves the last entry of a chain in place when no entry of the
    chain has the key: the vector is aggregated as its tuples one after the other are
    only when every tuple without a group finds an empty bucket. *)
From S2P Require Import Prelude HashTables JoinTable AggTable ReorderCells JoinProbe AggPartitions.
Import AggregationHashTable.

Section groups.
Context {A T K : Type} `{LlvmMathLaws} `{Countable K} (exceeds : Z -> Z -> bool).
Context (hash_fn : T -> Z) (key_eq_fn : A -> T -> bool) (init_agg_fn : T -> A) (advance_agg_fn : A -> T -> A).

(** What the callbacks promise: aggregates and tuples have keys, which decide equality
    and the hash and which aggregation does not change. *)
Context (agg_key : A -> K) (tuple_key : T -> K) (key_hash : K -> Z).
Context (key_hash_uint : forall k, is_uint 64 (key_hash k)).
Context (hash_fn_key : forall t, hash_fn t = key_hash (tuple_key t)).
Context (key_eq_key : forall a t, key_eq_fn a t = true <-> agg_key a = tuple_key t).
Context (init_key : forall t, agg_key (init_agg_fn t) = tuple_key t).
Context (advance_key : forall a t, agg_key a = tuple_key t -> agg_key (advance_agg_fn a t) = tuple_key t).

Implicit Types (h : entries A) (x : t) (m : gmap K A).

(** ** Aggregating one tuple after the other *)

Definition upsert m (tuple : T) : gmap K A :=
  <[tuple_key tuple := match m !! tuple_key tuple with
                       | None => init_agg_fn tuple
                       | Some a => advance_agg_fn a tuple
                       end]> m.

(** The table has one entry for each group. *)
Record groups h x m : Prop := {
  gr_ok : exists cs, agg_ok h x cs (replicate K_DEFAULT_NUM_PARTITIONS []);
  gr_none : partitions_ x = None;
  gr_entry : forall p, p ∈ entries_ x -> exists e, h !! p = Some e /\ hash_ e = key_hash (agg_key (payload_ e)) /\
    m !! agg_key (payload_ e) = Some (payload_ e);
  gr_group : forall k a, m !! k = Some a -> agg_key a = k /\ exists p e, p ∈ entries_ x /\ h !! p = Some e /\ payload_ e = a;
  gr_unique : forall p q e e', p ∈ entries_ x -> q ∈ entries_ x -> h !! p = Some e -> h !! q = Some e' ->
    agg_key (payload_ e) = agg_key (payload_ e') -> p = q;
}.

(** The entry of a group. *)
Definition entry_of h x (k : K) (p : Z) : Prop := p ∈ entries_ x /\ exists e, h !! p = Some e /\ agg_key (payload_ e) = k.

Lemma entry_nonzero h x m k p : groups h x m -> entry_of h x k p -> p <> 0.
Proof. intros [(cs & Hok) _ _ _ _] [Hp _]. pose proof (ag_nonzero _ _ _ _ Hok) as Hz. rewrite Forall_forall in Hz. by apply Hz. Qed.

Lemma find_entry_spec fuel key_eq hash p h l :
  chain h p l -> (length l <= fuel)%nat ->
  exists q, find_entry fuel key_eq hash p h = Some q /\
    (q = 0 /\ (forall r e, r ∈ l -> h !! r = Some e -> ~ (hash_ e = hash /\ key_eq (payload_ e) = true)) \/
     q ∈ l /\ exists e, h !! q = Some e /\ hash_ e = hash /\ key_eq (payload_ e) = true).
Proof.
  intros Hc. revert fuel. induction Hc as [|p e l Hp He Hc IH]; intros fuel Hf.
  - exists 0. split; [by destruct fuel|]. left. split; [done|]. intros r e Hr. by apply not_elem_of_nil in Hr.
  - destruct fuel as [|fuel]; [cbn in Hf; lia|]. cbn [find_entry]. rewrite decide_False, He by done. cbn [mbind option_bind].
    case_decide as Hm.
    + exists p. split; [done|]. right. split; [by left|]. exists e. by destruct Hm.
    + cbn in Hf. destruct (IH fuel ltac:(lia)) as (q & -> & [[-> Hn]|[Hq Hq']]).
      * exists 0. split; [done|]. left. split; [done|]. intros r e' [->|Hr]%elem_of_cons Hre; [|by eapply Hn].
        rewrite He in Hre. by injection Hre as <-.
      * exists q. split; [done|]. right. split; [by right|done].
Qed.

Lemma Lookup_groups h x m tuple :
  groups h x m ->
  exists p, LookupEntryInternal (fun a => key_eq_fn a tuple) (hash_fn tuple) h x = Some p /\
    match m !! tuple_key tuple with None => p = 0 | Some _ => entry_of h x (tuple_key tuple) p end.
Proof.
  intros [(cs & Hok) Hnone Hent Hgrp Huniq]. pose proof (ag_holds _ _ _ _ Hok) as Hh. unfold LookupEntryInternal.
  destruct (GenericTable.holds_bucket _ _ _ (hash_fn tuple) Hh) as (head & l & -> & Hl & Hc). cbn [mbind option_bind].
  destruct (find_entry_spec (size h) (fun a => key_eq_fn a tuple) (hash_fn tuple) head h l Hc (bucket_chain_length _ _ _ Hc))
    as (q & -> & Hq). exists q. split; [done|].
  assert (entries_ x ≡ₚ concat cs) as Hents by (rewrite (ag_entries _ _ _ _ Hok), GenericTable.concat_replicate_nil; by rewrite app_nil_r).
  destruct Hq as [[-> Hno]|(Hql & e & He & Hhe & Hke)].
  - destruct (m !! tuple_key tuple) as [a|] eqn:Hm; [|done]. exfalso. destruct (Hgrp _ _ Hm) as (Hka & p & e & Hp & He & Hpa).
    destruct (Hent p Hp) as (e' & He' & Hhash & _). rewrite He in He'. injection He' as <-.
    assert (hash_ e = hash_fn tuple) as Hhe by (by rewrite Hhash, Hpa, Hka, hash_fn_key).
    apply (Hno p e); [|done|split; [done|apply key_eq_key; congruence]].
    eapply (GenericTable.holds_find _ _ _ p e); [exact Hh|by rewrite <-Hents|done|]. by rewrite Hhe.
  - apply key_eq_key in Hke. assert (q ∈ entries_ x) as Hqe.
    { rewrite Hents. apply GenericTable.elem_of_concat. eauto. }
    destruct (Hent q Hqe) as (e' & He' & _ & Hm). rewrite He in He'. injection He' as <-. rewrite Hke in Hm. rewrite Hm.
    split; [done|]. eauto.
Qed.

Lemma data_lookup h h' q e :
  data <$> h' !! q = data <$> h !! q -> h !! q = Some e -> exists e', h' !! q = Some e' /\ hash_ e' = hash_ e /\ payload_ e' = payload_ e.
Proof. intros Hd He. rewrite He in Hd. destruct (h' !! q) as [e'|]; cbn in Hd; [|done]. unfold data in Hd. simplify_eq. eauto. Qed.

Lemma Insert_groups h x m tuple p :
  groups h x m -> m !! tuple_key tuple = None -> p <> 0 -> p ∉ entries_ x -> Z.of_nat (length (entries_ x)) < 2 ^ 50 ->
  exists h' x', Insert exceeds p (hash_fn tuple) (init_agg_fn tuple) h x = Some (h', x') /\
    groups h' x' (<[tuple_key tuple := init_agg_fn tuple]> m) /\ entries_ x' = entries_ x ++ [p] /\
    (forall k q, entry_of h x k q -> entry_of h' x' k q).
Proof.
  intros [(cs & Hok) Hnone Hent Hgrp Huniq] Hm Hp0 Hp Hlen.
  destruct (Insert_ok exceeds p (hash_fn tuple) (init_agg_fn tuple) h x cs _ Hok) as
    (h' & x' & cs' & HI & Hok' & He & _ & Hpt & _ & _ & _ & _ & _ & Hpd & Hqd); try done.
  { rewrite (ag_num _ _ _ _ Hok). rewrite (ag_entries _ _ _ _ Hok), length_app in Hlen. lia. }
  { rewrite hash_fn_key. apply key_hash_uint. }
  assert (forall q, q ∈ entries_ x -> q <> p) as Hqp by (by intros q Hq ->).
  destruct (h' !! p) as [ep|] eqn:Hep; [|done]. cbn in Hpd. unfold data in Hpd. injection Hpd as Hhp Hpp.
  assert (forall q, q ∈ entries_ x' -> q ∈ entries_ x \/ q = p) as Hcase
    by (intros q; rewrite He, elem_of_app, list_elem_of_singleton; done).
  assert (forall q e', q ∈ entries_ x -> h' !! q = Some e' -> exists e, h !! q = Some e /\ hash_ e = hash_ e' /\ payload_ e = payload_ e') as Hback.
  { intros q e' Hq He'. eapply data_lookup; [symmetry; apply Hqd; auto|done]. }
  assert (forall q e', q ∈ entries_ x -> h' !! q = Some e' -> agg_key (payload_ e') <> tuple_key tuple) as Hnew.
  { intros q e' Hq He' E. destruct (Hback q e' Hq He') as (e & Hqe & _ & Hpe). destruct (Hent q Hq) as (e0 & He0 & _ & Hm0).
    rewrite Hqe in He0. injection He0 as <-. rewrite Hpe, E in Hm0. congruence. }
  exists h', x'. split; [done|]. split; [|split; [done|]].
  - split.
    + eauto.
    + by rewrite Hpt.
    + intros q [Hq| ->]%Hcase.
      * destruct (Hent q Hq) as (e & Hqe & Hh & Hme). destruct (data_lookup h h' q e (Hqd q (Hqp q Hq)) Hqe) as (e' & He' & Hhe' & Hpe').
        exists e'. split; [done|]. rewrite Hhe', Hpe'. split; [done|]. rewrite lookup_insert_ne; [done|].
        rewrite <-Hpe'. intros E. by apply (Hnew q e' Hq He').
      * exists ep. rewrite Hpp, init_key. split; [done|]. split; [by rewrite Hhp, hash_fn_key|]. by rewrite lookup_insert_eq.
    + intros k a Hka. apply lookup_insert_Some in Hka as [[<- <-]|[Hne Hka]].
      * split; [apply init_key|]. exists p, ep. split; [rewrite He; apply elem_of_app; right; by left|]. by rewrite Hpp.
      * destruct (Hgrp k a Hka) as (Hk & q & e & Hq & Hqe & Hpa). split; [done|].
        destruct (data_lookup h h' q e (Hqd q (Hqp q Hq)) Hqe) as (e' & He' & _ & Hpe').
        exists q, e'. split; [rewrite He; apply elem_of_app; by left|]. split; [done|]. congruence.
    + intros q r e e' [Hq| ->]%Hcase [Hr| ->]%Hcase Hqe Hre E; [| | |done].
      * destruct (Hback q e Hq Hqe) as (e1 & ? & _ & E1), (Hback r e' Hr Hre) as (e2 & ? & _ & E2).
        apply (Huniq q r e1 e2); try done. congruence.
      * exfalso. rewrite Hep in Hre. injection Hre as <-. apply (Hnew q e Hq Hqe). by rewrite E, Hpp, init_key.
      * exfalso. rewrite Hep in Hqe. injection Hqe as <-. apply (Hnew r e' Hr Hre). by rewrite <-E, Hpp, init_key.
  - intros k q (Hq & e & Hqe & Hk). destruct (data_lookup h h' q e (Hqd q (Hqp q Hq)) Hqe) as (e' & He' & _ & Hpe').
    split; [rewrite He; apply elem_of_app; by left|]. exists e'. split; [done|]. congruence.
Qed.

(** *** Advancing an aggregate *)

Definition links (e : HashTableEntry A) : Z * Z := (word_ e, hash_ e).

Lemma links_lookup h h' q e :
  links <$> h' !! q = links <$> h !! q -> h !! q = Some e -> exists e', h' !! q = Some e' /\ word_ e' = word_ e /\ hash_ e' = hash_ e.
Proof. intros Hd He. rewrite He in Hd. destruct (h' !! q) as [e'|]; cbn in Hd; [|done]. unfold links in Hd. simplify_eq. eauto. Qed.

Lemma agg_ok_links h h' x cs ls :
  (forall q, links <$> h' !! q = links <$> h !! q) -> partitions_ x = None -> agg_ok h x cs ls -> agg_ok h' x cs ls.
Proof.
  intros Hlk Hnone [Hh Hn Hp He Hnd Hz Hha Hc Hf].
  assert (forall q l, chain h q l -> chain h' q l) as Hch.
  { intros q l Hc'. induction Hc' as [|q eq l Hq Hqe Hc' IH]; [constructor|].
    destruct (links_lookup h h' q eq (Hlk q) Hqe) as (e' & He' & Hw & _). econstructor; [done..|]. by rewrite Hw. }
  split; try done.
  - destruct Hh as (Hwf & Hl & Hnd' & Hb). split_and!; try done. intros i p l Hpi Hli. destruct (Hb i p l Hpi Hli) as [Hc' Hbk].
    split; [by apply Hch|]. intros q e' Hq He'. destruct (links_lookup h' h q e' (eq_sym (Hlk q)) He') as (e & Hqe & _ & Hhe).
    rewrite <-Hhe. by apply (Hbk q).
  - by rewrite Hnone in *.
  - eapply Forall_impl; [done|]. intros p (e & Hpe & Hu). destruct (links_lookup h h' p e (Hlk p) Hpe) as (e' & -> & _ & Hhe).
    exists e'. by rewrite Hhe.
Qed.

Lemma advance_one h x m tuple p a :
  groups h x m -> m !! tuple_key tuple = Some a -> entry_of h x (tuple_key tuple) p ->
  exists e, h !! p = Some e /\ payload_ e = a /\
    let h' := <[p := mkEntry (word_ e) (hash_ e) (advance_agg_fn (payload_ e) tuple)]> h in
    groups h' x (<[tuple_key tuple := advance_agg_fn a tuple]> m) /\ (forall k q, entry_of h x k q -> entry_of h' x k q).
Proof.
  intros [(cs & Hok) Hnone Hent Hgrp Huniq] Hm (Hp & e & He & Hk). exists e. split; [done|].
  assert (payload_ e = a) as Ha.
  { destruct (Hent p Hp) as (e0 & He0 & _ & Hm0). rewrite He in He0. injection He0 as <-. rewrite Hk in Hm0. congruence. }
  split; [done|]. cbn zeta. set (h' := <[p := _]> h). assert (agg_key (advance_agg_fn a tuple) = tuple_key tuple) as Hak
    by (apply advance_key; congruence).
  assert (forall q, q <> p -> h' !! q = h !! q) as Hfr by (intros q Hq; unfold h'; by rewrite lookup_insert_ne).
  assert (h' !! p = Some (mkEntry (word_ e) (hash_ e) (advance_agg_fn a tuple))) as Hp' by (unfold h'; by rewrite lookup_insert_eq, Ha).
  assert (forall q e', h' !! q = Some e' -> exists e0, h !! q = Some e0 /\ agg_key (payload_ e') = agg_key (payload_ e0)) as Hkeys.
  { intros q e' He'. destruct (decide (q = p)) as [->|Hne].
    - rewrite Hp' in He'. injection He' as <-. exists e. cbn. by rewrite Hak, Hk.
    - rewrite Hfr in He' by done. eauto. }
  split.
  - split.
    + exists cs. eapply agg_ok_links; [|done|done]. intros q. destruct (decide (q = p)) as [->|Hne]; [by rewrite Hp', He|by rewrite Hfr].
    + done.
    + intros q Hq. destruct (decide (q = p)) as [->|Hne].
      * eexists. split; [done|]. cbn. rewrite Hak. split; [|by rewrite lookup_insert_eq].
        destruct (Hent p Hp) as (e0 & He0 & Hh & _). rewrite He in He0. injection He0 as <-. by rewrite Hh, Hk.
      * destruct (Hent q Hq) as (e0 & He0 & Hh & Hm0). exists e0. rewrite Hfr by done. split; [done|]. split; [done|].
        rewrite lookup_insert_ne; [done|]. intros E. apply Hne. apply (Huniq q p e0 e); try done. congruence.
    + intros k b Hb. apply lookup_insert_Some in Hb as [[<- <-]|[Hne Hb]].
      * split; [done|]. by exists p, (mkEntry (word_ e) (hash_ e) (advance_agg_fn a tuple)).
      * destruct (Hgrp k b Hb) as (Hkb & q & e0 & Hq & He0 & Hb0). split; [done|]. exists q, e0. split; [done|]. split; [|done].
        rewrite Hfr; [done|]. intros ->. rewrite He in He0. injection He0 as <-. congruence.
    + intros q r e1 e2 Hq Hr H1 H2 E. destruct (Hkeys q e1 H1) as (f1 & F1 & E1), (Hkeys r e2 H2) as (f2 & F2 & E2).
      apply (Huniq q r f1 f2); try done. congruence.
  - intros k q (Hq & e0 & He0 & Hk0). split; [done|]. destruct (decide (q = p)) as [->|Hne]; [|exists e0; by rewrite Hfr].
    eexists. split; [done|]. cbn. rewrite Hak. rewrite He in He0. injection He0 as <-. congruence.
Qed.

(** ** Looking up a vector *)

Definition matches_at h (tuple : T) (p : Z) : Prop :=
  exists e, h !! p = Some e /\ hash_ e = hash_fn tuple /\ key_eq_fn (payload_ e) tuple = true.

(** What is known of the entry of a tuple while chains are followed: a position that is
    still selected has a chain of at most [b] entries ahead, with the group. *)
Definition searching h x m (b : nat) (selected : Prop) (tuple : T) (p : Z) : Prop :=
  match m !! tuple_key tuple with
  | None => p = 0 /\ ~ selected
  | Some _ =>
      (selected /\ exists l, chain h p l /\ (length l <= b)%nat /\ (forall q, q ∈ l -> q ∈ entries_ x) /\
         exists q, q ∈ l /\ matches_at h tuple q) \/
      (~ selected /\ entry_of h x (tuple_key tuple) p)
  end.

Definition search_ok h x m b (sel : list nat) (tuples : list T) (es : list Z) : Prop :=
  NoDup sel /\ length es = length tuples /\ (forall i, i ∈ sel -> (i < length tuples)%nat) /\
  forall i tuple p, tuples !! i = Some tuple -> es !! i = Some p -> searching h x m b (i ∈ sel) tuple p.

Lemma searching_entry h x m b tuple p :
  groups h x m -> searching h x m b True tuple p ->
  exists e, h !! p = Some e /\
    ((hash_ e = hash_fn tuple /\ key_eq_fn (payload_ e) tuple = true) /\ entry_of h x (tuple_key tuple) p \/
     ~ (hash_ e = hash_fn tuple /\ key_eq_fn (payload_ e) tuple = true) /\ word_ e <> 0 /\
       exists l, chain h (word_ e) l /\ (length l < b)%nat /\ (forall q, q ∈ l -> q ∈ entries_ x) /\
         exists q, q ∈ l /\ matches_at h tuple q).
Proof.
  intros Hg Hs. unfold searching in Hs. destruct (m !! tuple_key tuple) as [a|]; [|destruct Hs as [_ Hs]; by destruct Hs].
  destruct Hs as [(_ & l & Hc & Hlen & Hin & q & Hq & Hmq)|[Hs _]]; [|by destruct Hs].
  inversion Hc as [|p' e l' Hp He Hc']; subst; [by apply not_elem_of_nil in Hq|]. exists e. split; [done|].
  destruct (decide (hash_ e = hash_fn tuple /\ key_eq_fn (payload_ e) tuple = true)) as [Hm|Hm].
  - left. split; [done|]. split; [apply Hin; by left|]. exists e. split; [done|]. apply key_eq_key, Hm.
  - right. split; [done|]. assert (q ∈ l') as Hq'.
    { apply elem_of_cons in Hq as [->|]; [|done]. destruct Hmq as (e' & He' & Hm'). rewrite He in He'. by injection He' as <-. }
    split.
    + intros Hw. rewrite Hw in Hc'. inversion Hc'; subst; [by apply not_elem_of_nil in Hq'|done].
    + exists l'. split; [done|]. cbn in Hlen. split; [lia|]. split; [intros r Hr; apply Hin; by right|eauto].
Qed.

Lemma mismatches_spec h (sel : list nat) (tuples : list T) (es : list Z) :
  NoDup sel -> (forall i, i ∈ sel -> exists tuple p e, tuples !! i = Some tuple /\ es !! i = Some p /\ h !! p = Some e) ->
  exists sel', mismatches hash_fn key_eq_fn sel tuples es h = Some sel' /\ NoDup sel' /\
    forall i, i ∈ sel' <-> i ∈ sel /\ exists tuple p e, tuples !! i = Some tuple /\ es !! i = Some p /\ h !! p = Some e /\
      ~ (hash_ e = hash_fn tuple /\ key_eq_fn (payload_ e) tuple = true) /\ word_ e <> 0.
Proof.
  induction sel as [|i sel IH]; intros Hnd Hsel; cbn [mismatches].
  - exists []. split; [done|]. split; [constructor|]. intros i. split; [by intros ?%not_elem_of_nil|by intros [?%not_elem_of_nil _]].
  - apply NoDup_cons in Hnd as [Hi Hnd]. destruct (Hsel i ltac:(by left)) as (tuple & p & e & Ht & Hp & He).
    rewrite Ht, Hp. cbn [mbind option_bind]. rewrite He. cbn [mbind option_bind].
    destruct (IH Hnd) as (sel' & -> & Hnd' & Hin); [intros j Hj; apply Hsel; by right|]. cbn [mbind option_bind].
    assert (negb (bool_decide (hash_ e = hash_fn tuple) && key_eq_fn (payload_ e) tuple) && bool_decide (word_ e <> 0) = true <->
      ~ (hash_ e = hash_fn tuple /\ key_eq_fn (payload_ e) tuple = true) /\ word_ e <> 0) as Hb.
    { rewrite andb_true_iff, negb_true_iff, andb_false_iff, bool_decide_eq_true, bool_decide_eq_false.
      destruct (key_eq_fn (payload_ e) tuple); naive_solver. }
    destruct (negb _ && _) eqn:E.
    + exists (i :: sel'). split; [done|]. split; [constructor; [rewrite Hin; by intros [? _]|done]|]. intros j. rewrite !elem_of_cons, Hin. split.
      * intros [->|[? ?]]; [|split; [by right|done]]. split; [by left|]. exists tuple, p, e. split_and!; try done; by apply Hb.
      * intros [[->|?] ?]; [by left|by right].
    + exists sel'. split; [done|]. split; [done|]. intros j. rewrite elem_of_cons, Hin. split.
      * intros [? ?]. split; [by right|done].
      * intros [[->|?] Hx]; [|done]. exfalso. destruct Hx as (t' & p' & e' & Ht' & Hp' & He' & Hm & Hw).
        rewrite Ht in Ht'. rewrite Hp in Hp'. injection Ht' as <-. injection Hp' as <-. rewrite He in He'. injection He' as <-.
        discriminate (proj2 Hb (conj Hm Hw)).
Qed.

Lemma follow_next_spec h (sel : list nat) (es : list Z) :
  NoDup sel -> (forall i, i ∈ sel -> exists p e, es !! i = Some p /\ h !! p = Some e) ->
  exists es', follow_next sel es h = Some es' /\ length es' = length es /\
    (forall i p e, i ∈ sel -> es !! i = Some p -> h !! p = Some e -> es' !! i = Some (word_ e)) /\
    forall i, i ∉ sel -> es' !! i = es !! i.
Proof.
  revert es. induction sel as [|i sel IH]; intros es Hnd Hsel; cbn [follow_next].
  - exists es. split_and!; try done. intros i p e Hi. by apply not_elem_of_nil in Hi.
  - apply NoDup_cons in Hnd as [Hi Hnd]. destruct (Hsel i ltac:(by left)) as (p & e & Hp & He). rewrite Hp. cbn [mbind option_bind].
    rewrite He. cbn [mbind option_bind]. destruct (IH (<[i := word_ e]> es) Hnd) as (es' & -> & Hlen & Hin & Hout).
    { intros j Hj. destruct (Hsel j ltac:(by right)) as (q & eq & Hq & Heq). exists q, eq. rewrite list_lookup_insert_ne; [done|]. by intros ->. }
    exists es'. split; [done|]. rewrite length_insert in Hlen. split_and!; [done| |].
    + intros j q eq [->|Hj]%elem_of_cons Hq Heq.
      * rewrite Hout by done. rewrite list_lookup_insert_eq by (by eapply lookup_lt_Some). rewrite Hp in Hq. injection Hq as <-. congruence.
      * apply (Hin j q); try done. rewrite list_lookup_insert_ne; [done|]. by intros ->.
    + intros j [Hji Hj]%not_elem_of_cons. rewrite Hout by done. by rewrite list_lookup_insert_ne.
Qed.

(** Every position has its group, or none if there is none. *)
Definition looked_up h x m (tuple : T) (p : Z) : Prop :=
  match m !! tuple_key tuple with None => p = 0 | Some _ => entry_of h x (tuple_key tuple) p end.

Lemma search_end h x m b (tuples : list T) (es : list Z) :
  search_ok h x m b [] tuples es -> Forall2 (looked_up h x m) tuples es.
Proof.
  intros (_ & Hlen & _ & Hs). apply Forall2_same_length_lookup_2; [done|]. intros i tuple p Ht Hp. specialize (Hs i tuple p Ht Hp).
  unfold searching, looked_up in *. destruct (m !! tuple_key tuple); [|by destruct Hs].
  destruct Hs as [[Hi _]|[_ ?]]; [by apply not_elem_of_nil in Hi|done].
Qed.

Lemma search_selected h x m b sel (tuples : list T) (es : list Z) i :
  search_ok h x m b sel tuples es -> i ∈ sel ->
  exists tuple p, tuples !! i = Some tuple /\ es !! i = Some p /\ searching h x m b True tuple p.
Proof.
  intros (_ & Hlen & Hlt & Hs) Hi. pose proof (Hlt i Hi). destruct (lookup_lt_is_Some_2 tuples i ltac:(lia)) as [tuple Ht].
  destruct (lookup_lt_is_Some_2 es i ltac:(lia)) as [p Hp]. exists tuple, p. split_and!; [done|done|].
  specialize (Hs i tuple p Ht Hp). unfold searching in *. destruct (m !! tuple_key tuple); naive_solver.
Qed.

(** A chain with a group is not empty. *)
Lemma search_bound h x m sel (tuples : list T) (es : list Z) : search_ok h x m 0 sel tuples es -> sel = [].
Proof.
  intros Hok. destruct sel as [|i sel]; [done|]. destruct (search_selected _ _ _ _ _ _ _ i Hok) as (tuple & p & _ & _ & Hs); [by left|].
  unfold searching in Hs. destruct (m !! tuple_key tuple); [|by destruct (proj2 Hs I)].
  destruct Hs as [(_ & l & _ & Hll & _ & q & Hq & _)|[Hno _]]; [|by destruct (Hno I)].
  assert (l = []) as -> by (apply nil_length_inv; lia). by apply not_elem_of_nil in Hq.
Qed.

Lemma follow_round b h x m (sel : list nat) (tuples : list T) (es : list Z) :
  groups h x m -> search_ok h x m b sel tuples es ->
  exists sel' es', mismatches hash_fn key_eq_fn sel tuples es h = Some sel' /\ follow_next sel' es h = Some es' /\
    search_ok h x m (b - 1) sel' tuples es'.
Proof.
  intros Hg Hok. pose proof Hok as (Hnd & Hlen & Hlt & Hs).
  destruct (mismatches_spec h sel tuples es Hnd) as (sel' & -> & Hnd' & Hin').
  { intros i Hi. destruct (search_selected _ _ _ _ _ _ _ i Hok Hi) as (tuple & p & Ht & Hp & Hse).
    destruct (searching_entry _ _ _ _ _ _ Hg Hse) as (e & He & _). eauto 6. }
  destruct (follow_next_spec h sel' es Hnd') as (es' & Hes' & Hlen' & Hnext & Hsame).
  { intros i (_ & tuple & p & e & _ & Hp & He & _)%Hin'. eauto. }
  exists sel', es'. split; [done|]. split; [done|]. split; [done|]. split; [lia|]. split; [intros i [Hi _]%Hin'; by apply Hlt|].
  intros i tuple p' Ht Hp'. destruct (decide (i ∈ sel)) as [Hi|Hi].
  - destruct (search_selected _ _ _ _ _ _ _ i Hok Hi) as (tuple0 & p & Ht0 & Hp & Hse). rewrite Ht in Ht0. injection Ht0 as <-.
    destruct (searching_entry _ _ _ _ _ _ Hg Hse) as (e & He & Hcase).
    unfold searching in Hse |- *. destruct (m !! tuple_key tuple) as [a|]; [|by destruct (proj2 Hse I)].
    destruct Hcase as [[Hm Hent]|(Hm & Hw & l & Hc & Hll & Hsub & Hq)].
    + right. assert (i ∉ sel') as Hni.
      { intros (_ & t' & q & e' & Ht' & Hq & He' & Hm' & _)%Hin'. rewrite Ht in Ht'. rewrite Hp in Hq. injection Ht' as <-. injection Hq as <-.
        rewrite He in He'. injection He' as <-. done. }
      split; [done|]. rewrite Hsame, Hp in Hp' by done. by injection Hp' as <-.
    + left. assert (i ∈ sel') as Hi' by (apply Hin'; split; [done|]; exists tuple, p, e; done). split; [done|].
      rewrite (Hnext i p e Hi' Hp He) in Hp'. injection Hp' as <-. exists l. split_and!; try done. lia.
  - assert (i ∉ sel') as Hni by (by intros [? _]%Hin'). rewrite Hsame in Hp' by done. specialize (Hs i tuple p' Ht Hp').
    unfold searching in *. destruct (m !! tuple_key tuple); [|by destruct Hs]. destruct Hs as [[? _]|[_ ?]]; [done|by right].
Qed.

Lemma FollowNextLoop_spec fuel b h x m (sel : list nat) (tuples : list T) (es : list Z) :
  groups h x m -> search_ok h x m b sel tuples es -> (b <= fuel)%nat ->
  exists es', FollowNextLoop hash_fn key_eq_fn fuel sel tuples es h = Some es' /\ Forall2 (looked_up h x m) tuples es'.
Proof.
  intros Hg. revert b sel es. induction fuel as [|fuel IH]; intros b sel es Hok Hb.
  - assert (b = 0%nat) as -> by lia. pose proof (search_bound _ _ _ _ _ _ Hok) as ->. exists es. split; [done|by eapply search_end].
  - destruct sel as [|i sel]; [exists es; split; [done|by eapply search_end]|].
    destruct (follow_round _ _ _ _ _ _ _ Hg Hok) as (sel' & es1 & Hmis & Hfol & Hok1). cbn [FollowNextLoop].
    rewrite Hmis. cbn [mbind option_bind]. rewrite Hfol. cbn [mbind option_bind]. apply (IH (b - 1)%nat); [done|lia].
Qed.

Lemma elem_of_non_null (es : list Z) i p : es !! i = Some p -> i ∈ non_null es <-> p <> 0.
Proof.
  intros Hp. unfold non_null. rewrite list_elem_of_filter, elem_of_seq, Hp. apply lookup_lt_Some in Hp. naive_solver lia.
Qed.

(** A tuple without a group must find an empty bucket. *)
Definition no_stale x m (tuple : T) : Prop :=
  m !! tuple_key tuple = None -> GenericHashTable.FindChainHead (hash_fn tuple) (hash_table_ x) = Some 0.

Lemma LookupBatch_spec h x m (tuples : list T) :
  groups h x m -> Forall (no_stale x m) tuples ->
  exists es, LookupBatch hash_fn key_eq_fn tuples h x = Some es /\ Forall2 (looked_up h x m) tuples es.
Proof.
  intros Hg Hns. pose proof Hg as [(cs & Hok) Hnone Hent Hgrp Huniq]. pose proof (ag_holds _ _ _ _ Hok) as Hh.
  unfold LookupBatch, ComputeHashAndLoadInitial.
  assert (exists es, mapM (fun tuple => GenericHashTable.FindChainHead (hash_fn tuple) (hash_table_ x)) tuples = Some es) as [es Hes].
  { apply mapM_is_Some, Forall_forall. intros tuple _.
    destruct (GenericTable.holds_bucket _ _ _ (hash_fn tuple) Hh) as (p & l & Hp & _). exists p. exact Hp. }
  rewrite Hes. cbn [mbind option_bind]. apply mapM_Some in Hes.
  apply (FollowNextLoop_spec _ (size h)); [done| |lia]. pose proof (Forall2_length _ _ _ Hes) as Hlen.
  split; [apply NoDup_filter, NoDup_seq|]. split; [done|]. split.
  { intros i Hi. unfold non_null in Hi. apply list_elem_of_filter in Hi as [_ Hi%elem_of_seq]. lia. }
  intros i tuple p Ht Hp. pose proof (Forall2_lookup_lr _ _ _ _ _ _ Hes Ht Hp) as Hhead. cbn beta in Hhead.
  pose proof (Forall_lookup_1 _ _ _ _ Hns Ht) as Hst. unfold no_stale in Hst. rewrite Hhead in Hst.
  pose proof (elem_of_non_null _ _ _ Hp) as Hnn. unfold searching. destruct (m !! tuple_key tuple) as [a|] eqn:Hm.
  - left. destruct (Hgrp _ _ Hm) as (Hka & q & e & Hq & He & Hpa). destruct (Hent q Hq) as (e' & He' & Hhash & _). rewrite He in He'. injection He' as <-.
    assert (hash_ e = hash_fn tuple) as Hhe by (by rewrite Hhash, Hpa, Hka, hash_fn_key).
    destruct (GenericTable.holds_bucket _ _ _ (hash_fn tuple) Hh) as (p' & l & Hp' & Hl & Hc). rewrite Hhead in Hp'. injection Hp' as <-.
    assert (entries_ x ≡ₚ concat cs) as Hents by (rewrite (ag_entries _ _ _ _ Hok), GenericTable.concat_replicate_nil; by rewrite app_nil_r).
    assert (q ∈ l) as Hql.
    { eapply (GenericTable.holds_find _ _ _ q e); [exact Hh|by rewrite <-Hents|done|]. by rewrite Hhe. }
    split; [apply Hnn; intros ->; inversion Hc; subst; [by apply not_elem_of_nil in Hql|done]|]. exists l. split; [done|]. split; [by apply (bucket_chain_length _ _ _ Hc)|].
    split; [intros r Hr; rewrite Hents; apply GenericTable.elem_of_concat; eauto|]. exists q. split; [done|]. exists e. split_and!; try done.
    apply key_eq_key. congruence.
  - specialize (Hst eq_refl). injection Hst as ->. split; [done|]. rewrite Hnn. by intros [].
Qed.

(** ** Creating the missing groups *)

(** The tuples without an entry, in order: a group is created for the first tuple of
    each key, the others find it. *)
Definition create m (tuple : T) : gmap K A :=
  match m !! tuple_key tuple with None => <[tuple_key tuple := init_agg_fn tuple]> m | Some _ => m end.

(** Whether a tuple creates its group. *)
Fixpoint creates m (tuples : list T) : list bool :=
  match tuples with
  | [] => []
  | tuple :: tuples => bool_decide (m !! tuple_key tuple = None) :: creates (create m tuple) tuples
  end.

Definition advance m (tuple : T) (created : bool) : gmap K A :=
  if created then m else alter (fun a => advance_agg_fn a tuple) (tuple_key tuple) m.

Fixpoint advances m (tuples : list T) (created : list bool) : gmap K A :=
  match tuples, created with
  | tuple :: tuples, c :: created => advances (advance m tuple c) tuples created
  | _, _ => m
  end.

Lemma length_creates m tuples : length (creates m tuples) = length tuples.
Proof. revert m. induction tuples as [|tuple tuples IH]; intros m; cbn; [done|]. by rewrite IH. Qed.

Lemma creates_snoc m tuples tuple :
  creates m (tuples ++ [tuple]) = creates m tuples ++ [bool_decide (foldl create m tuples !! tuple_key tuple = None)].
Proof. revert m. induction tuples as [|t0 tuples IH]; intros m; cbn; [done|]. by rewrite IH. Qed.

Lemma advances_snoc m tuples created tuple c :
  length created = length tuples -> advances m (tuples ++ [tuple]) (created ++ [c]) = advance (advances m tuples created) tuple c.
Proof.
  revert m created. induction tuples as [|t0 tuples IH]; intros m created Hlen; destruct created as [|c0 created]; try done.
  cbn. apply IH. cbn in Hlen. lia.
Qed.

Lemma foldl_create_lookup m tuples k :
  foldl create m tuples !! k = None <-> m !! k = None /\ forall tuple, tuple ∈ tuples -> tuple_key tuple <> k.
Proof.
  revert m. induction tuples as [|t0 tuples IH]; intros m; cbn.
  - split; [|by intros [? _]]. intros ?. split; [done|]. intros t Ht. by apply not_elem_of_nil in Ht.
  - rewrite IH. unfold create. setoid_rewrite elem_of_cons. destruct (m !! tuple_key t0) as [a|] eqn:E.
    + split; intros [? Hk]; (split; [done|]); intros t ?; naive_solver.
    + rewrite lookup_insert_None. naive_solver.
Qed.

(** A group that no tuple has is not advanced. *)
Lemma advances_other m tuples created k a :
  (forall tuple, tuple ∈ tuples -> tuple_key tuple <> k) ->
  advances (<[k := a]> m) tuples created = <[k := a]> (advances m tuples created).
Proof.
  revert m created. induction tuples as [|t0 tuples IH]; intros m created Hk; destruct created as [|c created]; try done.
  cbn. rewrite <-IH by (intros t Ht; apply Hk; by right). f_equal. unfold advance. destruct c; [done|].
  rewrite alter_insert_ne; [done|]. apply Hk. by left.
Qed.

Lemma advances_dom m tuples created k : advances m tuples created !! k = None <-> m !! k = None.
Proof.
  revert m created. induction tuples as [|t0 tuples IH]; intros m created; destruct created as [|c created]; try done.
  cbn. rewrite IH. unfold advance. destruct c; [done|]. apply lookup_alter_None.
Qed.

Lemma alter_upsert m (tuple : T) : is_Some (m !! tuple_key tuple) -> upsert m tuple = alter (fun a => advance_agg_fn a tuple) (tuple_key tuple) m.
Proof.
  intros [a Ha]. unfold upsert. rewrite Ha. apply map_eq. intros k. destruct (decide (tuple_key tuple = k)) as [<-|Hne].
  - by rewrite lookup_insert_eq, lookup_alter_eq, Ha.
  - by rewrite lookup_insert_ne, lookup_alter_ne.
Qed.

(** The two passes aggregate as the tuples one after the other do. *)
Lemma two_passes m tuples : foldl upsert m tuples = advances (foldl create m tuples) tuples (creates m tuples).
Proof.
  induction tuples as [|tuple tuples IH] using rev_ind; [done|].
  rewrite !foldl_snoc, creates_snoc, advances_snoc by apply length_creates. rewrite IH.
  pose proof (advances_dom (foldl create m tuples) tuples (creates m tuples) (tuple_key tuple)) as Hdom.
  pose proof (foldl_create_lookup m tuples (tuple_key tuple)) as Hlk.
  unfold create at 2. destruct (foldl create m tuples !! tuple_key tuple) as [a|] eqn:E.
  - rewrite bool_decide_false by done. cbn [advance]. apply alter_upsert.
    destruct (advances _ _ _ !! _) as [b|] eqn:Eb; [eauto|]. by discriminate (proj1 Hdom eq_refl).
  - rewrite bool_decide_true by done. cbn [advance]. rewrite advances_other by apply Hlk, eq_refl.
    unfold upsert. by rewrite (proj2 Hdom eq_refl).
Qed.

Lemma creates_lookup m tuples k tuple :
  tuples !! k = Some tuple ->
  creates m tuples !! k = Some (bool_decide (foldl create m (take k tuples) !! tuple_key tuple = None)).
Proof.
  revert m k. induction tuples as [|t0 tuples IH]; intros m k Hk; [done|]. destruct k as [|k]; cbn in *.
  - by injection Hk as ->.
  - by apply IH.
Qed.

Lemma foldl_create_mono m tuples k a : m !! k = Some a -> foldl create m tuples !! k = Some a.
Proof.
  revert m. induction tuples as [|t0 tuples IH]; intros m Hk; cbn; [done|]. apply IH. unfold create.
  destruct (m !! tuple_key t0) eqn:E; [done|]. rewrite lookup_insert_ne; [done|]. intros <-. congruence.
Qed.

Definition flagged h x (c : bool) (tuple : T) (p : Z) : Prop :=
  if c then p = 0 else entry_of h x (tuple_key tuple) p.

(** The first [k] positions have been through the pass, the others are as they were
    looked up. *)
Record created_ok m0 (tuples : list T) (es : list Z) h x (k : nat) : Prop := {
  cr_groups : groups h x (foldl create m0 (take k tuples));
  cr_length : length es = length tuples;
  cr_done : forall j tuple p, (j < k)%nat -> tuples !! j = Some tuple -> es !! j = Some p ->
    exists c, creates m0 tuples !! j = Some c /\ flagged h x c tuple p;
  cr_left : forall j tuple p, (k <= j)%nat -> tuples !! j = Some tuple -> es !! j = Some p -> looked_up h x m0 tuple p;
}.

Lemma created_step m0 tuples es h x h' x' k tuple p' :
  created_ok m0 tuples es h x k -> tuples !! k = Some tuple ->
  groups h' x' (foldl create m0 (take (S k) tuples)) -> (forall key q, entry_of h x key q -> entry_of h' x' key q) ->
  flagged h' x' (bool_decide (foldl create m0 (take k tuples) !! tuple_key tuple = None)) tuple p' ->
  created_ok m0 tuples (<[k := p']> es) h' x' (S k).
Proof.
  intros [Hg Hlen Hdone Hleft] Ht Hg' Hmono Hfl. split; [done|by rewrite length_insert| |].
  - intros j t0 p Hj Ht0 Hp. destruct (decide (j = k)) as [->|Hne].
    + rewrite Ht in Ht0. injection Ht0 as <-. rewrite list_lookup_insert_eq in Hp by (rewrite Hlen; by eapply lookup_lt_Some).
      injection Hp as <-. eexists. split; [by apply creates_lookup|done].
    + rewrite list_lookup_insert_ne in Hp by done. destruct (Hdone j t0 p ltac:(lia) Ht0 Hp) as (c & Hc & Hf). exists c. split; [done|].
      destruct c; [done|]. by apply Hmono.
  - intros j t0 p Hj Ht0 Hp. rewrite list_lookup_insert_ne in Hp by lia. specialize (Hleft j t0 p ltac:(lia) Ht0 Hp).
    unfold looked_up in *. destruct (m0 !! tuple_key t0); [by apply Hmono|done].
Qed.

Lemma create_groups_spec n k m0 (tuples : list T) (es0 es : list Z) ps h x :
  created_ok m0 tuples es h x k -> (k + n = length tuples)%nat -> (forall j, (k <= j)%nat -> es !! j = es0 !! j) ->
  NoDup (entries_ x ++ ps) -> Forall (fun p => p <> 0) ps -> (n <= length ps)%nat -> Z.of_nat (length (entries_ x) + n) < 2 ^ 50 ->
  exists es' h' x', create_groups exceeds hash_fn key_eq_fn init_agg_fn (filter (fun i => es0 !! i = Some 0) (seq k n)) ps tuples es h x = Some (es', (h', x')) /\
    created_ok m0 tuples es' h' x' (length tuples).
Proof.
  revert k es ps h x. induction n as [|n IH]; intros k es ps h x Hok Hk Hes Hnd Hz Hps Hlen; cbn [seq].
  - exists es, h, x. split; [done|]. by replace (length tuples) with k by lia.
  - destruct (lookup_lt_is_Some_2 tuples k ltac:(lia)) as [tuple Ht].
    destruct (lookup_lt_is_Some_2 es k) as [p Hp]; [rewrite (cr_length _ _ _ _ _ _ Hok); lia|].
    pose proof (cr_left _ _ _ _ _ _ Hok k tuple p ltac:(lia) Ht Hp) as Hlk. pose proof (cr_groups _ _ _ _ _ _ Hok) as Hg.
    set (m := foldl create m0 (take k tuples)) in *.
    assert (foldl create m0 (take (S k) tuples) = create m tuple) as Hm by (rewrite (take_S_r _ _ _ Ht), foldl_snoc; done).
    rewrite filter_cons, <-(Hes k ltac:(lia)), Hp. case_decide as Hp0.
    + injection Hp0 as ->. cbn [create_groups]. rewrite Ht. cbn [mbind option_bind].
      destruct (Lookup_groups h x m tuple Hg) as (q & -> & Hq). cbn [mbind option_bind].
      destruct (m !! tuple_key tuple) as [a|] eqn:Ha.
      * rewrite decide_False by (by eapply entry_nonzero).
        apply IH; try done; [|lia|intros j Hj; rewrite list_lookup_insert_ne by lia; apply Hes; lia|lia|lia].
        eapply (created_step _ _ _ h x); try done; [|fold m; rewrite Ha; by cbn]. rewrite Hm. unfold create. by rewrite Ha.
      * subst q. rewrite decide_True by done. destruct ps as [|p0 ps]; [cbn in Hps; lia|]. cbn [head tail mbind option_bind].
        apply Forall_cons in Hz as [Hp0 Hz].
        destruct (Insert_groups h x m tuple p0 Hg Ha Hp0) as (h1 & x1 & -> & Hg1 & He1 & Hmono).
        { apply NoDup_app in Hnd as (_ & Hd & _). intros Hin. apply (Hd p0 Hin). by left. }
        { lia. }
        cbn [mbind option_bind]. cbn [length] in Hps. apply IH; try done; [|lia|intros j Hj; apply Hes; lia| |lia|].
        -- rewrite <-(list_insert_id es k 0 Hp). eapply (created_step _ _ _ h x); try done; [rewrite Hm; unfold create; by rewrite Ha|].
           fold m. by rewrite Ha.
        -- rewrite He1, <-app_assoc. done.
        -- rewrite He1, length_app. cbn. lia.
    + apply IH; try done; [|lia|intros j Hj; apply Hes; lia|lia|lia].
      unfold looked_up in Hlk. destruct (m0 !! tuple_key tuple) as [a|] eqn:Ha; [|congruence].
      pose proof (foldl_create_mono m0 (take k tuples) _ _ Ha) as Hma. fold m in Hma.
      rewrite <-(list_insert_id es k p Hp). eapply (created_step _ _ _ h x); try done; [rewrite Hm; unfold create; by rewrite Hma|].
      fold m. by rewrite Hma.
Qed.

(** ** Advancing the groups *)

Lemma advance_groups_spec n k m (tuples : list T) (created : list bool) (es : list Z) h x :
  groups h x (advances m (take k tuples) (take k created)) -> length created = length tuples -> length es = length tuples ->
  (k + n = length tuples)%nat ->
  (forall j tuple p c, (k <= j)%nat -> tuples !! j = Some tuple -> es !! j = Some p -> created !! j = Some c -> flagged h x c tuple p) ->
  exists h', advance_groups advance_agg_fn (filter (fun i => es !! i <> Some 0) (seq k n)) tuples es h = Some h' /\
    groups h' x (advances m tuples created).
Proof.
  revert k h. induction n as [|n IH]; intros k h Hg Hlc Hle Hk Hfl; cbn [seq].
  - exists h. split; [done|]. rewrite !take_ge in Hg by lia. done.
  - destruct (lookup_lt_is_Some_2 tuples k ltac:(lia)) as [tuple Ht]. destruct (lookup_lt_is_Some_2 es k ltac:(lia)) as [p Hp].
    destruct (lookup_lt_is_Some_2 created k ltac:(lia)) as [c Hc]. pose proof (Hfl k tuple p c ltac:(lia) Ht Hp Hc) as Hf.
    assert (advances m (take (S k) tuples) (take (S k) created) = advance (advances m (take k tuples) (take k created)) tuple c) as Hadv.
    { rewrite (take_S_r _ _ _ Ht), (take_S_r _ _ _ Hc). apply advances_snoc. rewrite !length_take. lia. }
    rewrite filter_cons, Hp. destruct c; cbn [flagged] in Hf.
    + subst p. rewrite decide_False by congruence. apply IH; try done; [by rewrite Hadv|lia|]. intros j t0 p0 c0 Hj. apply Hfl. lia.
    + pose proof (entry_nonzero _ _ _ _ _ Hg Hf) as Hp0. rewrite decide_True by congruence. cbn [advance_groups].
      rewrite Ht. cbn [mbind option_bind]. rewrite Hp. cbn [mbind option_bind].
      destruct (advances m (take k tuples) (take k created) !! tuple_key tuple) as [a|] eqn:Ha; cycle 1.
      { destruct Hf as (Hpe & e & He & Hke). destruct (gr_entry _ _ _ Hg p Hpe) as (e' & He' & _ & Hm). rewrite He in He'. injection He' as <-.
        rewrite Hke in Hm. congruence. }
      destruct (advance_one h x _ tuple p a Hg Ha Hf) as (e & He & Hpa & Hg' & Hmono). rewrite He. cbn [mbind option_bind].
      apply IH; try done; [|lia|].
      * rewrite Hadv. cbn [advance]. rewrite <-alter_upsert by eauto. unfold upsert. rewrite Ha. exact Hg'.
      * intros j t0 p0 c0 Hj Ht0 Hp00 Hc0. specialize (Hfl j t0 p0 c0 ltac:(lia) Ht0 Hp00 Hc0). destruct c0; [done|]. by apply Hmono.
Qed.

(** ** Reading the groups *)

Lemma groups_empty h x size l2 : 2 <= size < 2 ^ 32 -> make exceeds size l2 = Some x -> groups h x ∅.
Proof.
  intros Hs Hm. destruct (make_ok exceeds size l2 h Hs) as (x' & Hx & Hok & He & _ & Hp & _). rewrite Hm in Hx. injection Hx as <-.
  split; [eauto|done| | |].
  - intros p Hin. rewrite He in Hin. by apply not_elem_of_nil in Hin.
  - intros k a Hk. by rewrite lookup_empty in Hk.
  - intros p q e e' Hin. rewrite He in Hin. by apply not_elem_of_nil in Hin.
Qed.

(** The aggregates of an iteration over the table. *)
Definition aggregates h x : option (list A) :=
  l ← GenericHashTable.entries_of false h (hash_table_ x); Some (data_at h l).*2.

Lemma NoDup_keys h (l : list Z) :
  NoDup l -> (forall p q e e', p ∈ l -> q ∈ l -> h !! p = Some e -> h !! q = Some e' ->
    agg_key (payload_ e) = agg_key (payload_ e') -> p = q) ->
  NoDup ((fun r => (agg_key r.2, r.2)) <$> data_at h l).
Proof.
  induction l as [|p l IH]; intros Hnd Hu; [constructor|]. apply NoDup_cons in Hnd as [Hp Hnd].
  assert (NoDup ((fun r => (agg_key r.2, r.2)) <$> data_at h l)) as IH'.
  { apply IH; [done|]. intros q r e e' Hq Hr. apply Hu; by right. }
  unfold data_at in *. cbn. destruct (h !! p) as [e|] eqn:He; [|done]. cbn. constructor; [|done].
  intros (r & [= Hk _] & Hr)%list_elem_of_fmap. apply list_elem_of_omap in Hr as (q & Hq & Hd).
  apply fmap_Some in Hd as (e' & He' & ->). apply Hp. rewrite (Hu p q e e'); [done|by left|by right|done|done|done].
Qed.

Lemma groups_aggregates h x m : groups h x m -> exists l, aggregates h x = Some l /\ l ≡ₚ (map_to_list m).*2.
Proof.
  intros [(cs & Hok) Hnone Hent Hgrp Huniq]. unfold aggregates.
  rewrite (GenericTable.entries_of_spec h (hash_table_ x) cs) by apply (ag_holds _ _ _ _ Hok). cbn [mbind option_bind].
  eexists. split; [done|]. assert (entries_ x ≡ₚ concat cs) as Hents
    by (rewrite (ag_entries _ _ _ _ Hok), GenericTable.concat_replicate_nil; by rewrite app_nil_r).
  assert (data_at h (concat cs) ≡ₚ data_at h (entries_ x)) as -> by (unfold data_at; by rewrite Hents).
  assert (map_to_list m ≡ₚ (fun r => (agg_key r.2, r.2)) <$> data_at h (entries_ x)) as ->.
  { apply NoDup_Permutation.
    - apply NoDup_map_to_list.
    - apply NoDup_keys; [by apply (ag_nodup _ _ _ _ Hok)|done].
    - intros [k a]. rewrite elem_of_map_to_list, list_elem_of_fmap. split.
      + intros Hm. destruct (Hgrp k a Hm) as (<- & p & e & Hp & He & <-). exists (data e). split; [done|].
        apply list_elem_of_omap. exists p. by rewrite He.
      + intros (r & [= -> ->] & Hr). apply list_elem_of_omap in Hr as (p & Hp & Hd). destruct (Hent p Hp) as (e & He & _ & Hm).
        rewrite He in Hd. by injection Hd as <-. }
  rewrite <-list_fmap_compose. done.
Qed.

(** C21: A vector of tuples is aggregated as its tuples one after the other are, provided
    that every tuple whose key has no group yet finds an empty bucket; an iteration over
    the table then gives each group once. *)
Theorem process_batch (ps : list Z) (tuples : list T) h x m :
  groups h x m -> Forall (no_stale x m) tuples -> Z.of_nat (length tuples) <= Reorder.K_DEFAULT_VECTOR_SIZE ->
  NoDup (entries_ x ++ ps) -> Forall (fun p => p <> 0) ps -> (length tuples <= length ps)%nat ->
  Z.of_nat (length (entries_ x)) < 2 ^ 49 ->
  exists h' x', ProcessBatch exceeds hash_fn key_eq_fn init_agg_fn advance_agg_fn ps tuples h x = Some (h', x') /\
    groups h' x' (foldl upsert m tuples) /\
    exists l, aggregates h' x' = Some l /\ l ≡ₚ (map_to_list (foldl upsert m tuples)).*2.
Proof.
  intros Hg Hns Hvec Hnd Hz Hps Hlen. unfold ProcessBatch. rewrite decide_True by done.
  destruct (LookupBatch_spec h x m tuples Hg Hns) as (es & -> & Hes). cbn [mbind option_bind].
  pose proof (Forall2_length _ _ _ Hes) as Hle. unfold CreateMissingGroups, null.
  destruct (create_groups_spec (length tuples) 0 m tuples es es ps h x) as (es' & h1 & x1 & Hcr & [Hg1 Hl1 Hdone _]); try done.
  { split; [by rewrite take_0|done|lia|]. intros j tuple p _ Ht Hp. by apply (Forall2_lookup_lr _ _ _ _ _ _ Hes Ht Hp). }
  { change Reorder.K_DEFAULT_VECTOR_SIZE with 2048 in Hvec. lia. }
  rewrite <-Hle, Hcr. cbn [mbind option_bind]. rewrite firstn_all in Hg1. unfold AdvanceGroups, non_null.
  destruct (advance_groups_spec (length tuples) 0 (foldl create m tuples) tuples (creates m tuples) es' h1 x1) as (h2 & Hadv & Hg2); try done.
  { apply length_creates. }
  { intros j tuple p c _ Ht Hp Hc. destruct (Hdone j tuple p) as (c' & Hc' & Hf); [by eapply lookup_lt_Some|done|done|].
    rewrite Hc in Hc'. by injection Hc' as <-. }
  rewrite Hl1, Hadv. cbn [mbind option_bind]. do 2 eexists. split; [done|]. rewrite two_passes.
  split; [done|by apply groups_aggregates].
Qed.
End groups.

(** ** Counting by key *)

Section example.
Notation count_init := (fun k : Z => (k, 1)).
Notation count_advance := (fun (a : Z * Z) (_ : Z) => (a.1, a.2 + 1)).
Notation count_key_eq := (fun (a : Z * Z) (k : Z) => bool_decide (a.1 = k)).
Notation count_batch := (ProcessBatch (fun _ _ => false) (wrapu 64) count_key_eq count_init count_advance).

(** The tuples 1, 2, 1 in an empty table. *)
Lemma process_batch_witness :
  exists x0, make (fun _ _ => false) 256 1024 = Some x0 /\
    exists h' x' l, count_batch [16; 48; 80] [1; 2; 1] ∅ x0 = Some (h', x') /\ aggregates h' x' = Some l /\ l ≡ₚ [(1, 2); (2, 1)].
Proof.
  eexists. split; [reflexivity|].
  edestruct (process_batch (K := Z) (fun _ _ => false) (wrapu 64) count_key_eq count_init count_advance fst id (wrapu 64))
    with (ps := [16; 48; 80]) (tuples := [1; 2; 1]) (h := (∅ : entries (Z * Z))) (m := (∅ : gmap Z (Z * Z))) as (h' & x' & HB & _ & l & Hl & Hp).
  - intros k. by apply wrapu_bound.
  - done.
  - intros a t0. by rewrite bool_decide_eq_true.
  - done.
  - by intros a t0 <-.
  - eapply (groups_empty (fun _ _ => false) fst (wrapu 64) ∅ _ 256 1024); [done|reflexivity].
  - by repeat constructor.
  - done.
  - cbn. by repeat constructor; set_solver.
  - by repeat constructor.
  - done.
  - done.
  - exists h', x', l. split; [exact HB|]. split; [exact Hl|]. etransitivity; [exact Hp|]. vm_compute. apply perm_swap.
Defined.

(** A tuple of a new group whose bucket is taken is aggregated into the group that is
    there: 257 counts as 1, and has no group. *)
Example batch_wrong_group :
  (x ← make (fun _ _ => false) 256 1024;
   '(h, x) ← count_batch [16] [1] ∅ x;
   '(h, x) ← count_batch [48] [257] h x;
   l ← aggregates h x;
   found ← Lookup (fun a => bool_decide (a.1 = 257)) 257 h x;
   Some (l, found)) = Some ([(1, 2)], None).
Proof. vm_compute. reflexivity. Qed.
End example.
